(* ===== verification/_CoqProject ===== *)
-Q . S2P
Prelude.v
CanonicalCbor.v
Sha256.v
Base64.v
Crypto.v
Receipt.v
PhraseMatcher.v
FloatConvert.v
Fp8.v
ScalarType.v
Arrays.v
BlockTable.v
SpecDecode.v
InputBatch.v
FsIo.v
Vmm.v
Cumem.v
ShmProtocol.v
ShmCollectives.v
ShmTensors.v
Dry.v
FloatOrder.v
SampleNoise.v
FusedGumbel.v
Sampling.v
SamplingKernels.v
LogitBias.v
Counting.v
MoeAlign.v
Stores.v
MicroGemm.v
FusedMoe.v
Vec8.v
Norm.v
Activation.v
Rope.v
Regions.v
CpuUtils.v
MoeLayout.v
AttnSchedule.v
AttnTasks.v
AttnKernel.v
AttnTile.v
AttnReal.v
AttnOutput.v
AttnRun.v
AttnItem.v
CacheLayout.v
AttnCache.v
AttnPacked.v
