(* ===== verification/Prelude.v ===== *)
(** * Verification of Sonar's native core

    Sonar is an inference engine for language models: a Python engine drives a
    native layer ([csrc]) that holds the numeric kernels and a number of ordinary
    programs.  This library models those programs, the parts of the native layer
    whose correctness is a matter of data structures, protocols, integer
    arithmetic and error handling, and proves what each promises.

    ** Parts of the program and where they are modelled

    - Weight receipts ([csrc/proof]).  A request is answered with a sealed proof
      that the server read given windows of its weights.  [CanonicalCbor]
      ([canonical_cbor.cpp]) is the deterministic encoding; [Sha256] (hash, HMAC,
      HKDF), [Base64] (encoding, key files) and [Crypto] (key agreement, AEAD,
      randomness) are [crypto.cpp]; [Receipt] ([proof.cpp]) is the weight registry,
      the seeded choice of windows, the payload and the sealing, composed as
      [dphn_prove_v2] composes them.
    - Phrase matching ([csrc/phrase_matcher.cpp]): [PhraseMatcher] builds the
      Aho-Corasick automaton as the code does (trie, breadth-first failure links)
      and scans streams with it.
    - Number formats: [FloatConvert] ([csrc/cpu/float_convert.hpp]), [Fp8] (the scalar
      conversions of [csrc/cpu/cpu_attn_fp8.hpp]) and [ScalarType]
      ([csrc/core/scalar_type.hpp]).
    - Batch kernels on the CPU ([csrc/cpu]): [Arrays] is the shared memory model
      (flat buffers with explicit strides, counted loops, OpenMP loops under any
      schedule); [BlockTable] ([block_table.cpp]), [SpecDecode]
      ([spec_decode_utils.cpp]), [InputBatch] ([input_batch.cpp]) and [Dry]
      ([dry.cpp]) are the kernels.
    - Sampling on the CPU ([csrc/cpu/sampling], [csrc/cpu/sampling_kernels.cpp]):
      [FloatOrder] is the order of IEEE numbers, [SampleNoise] the hashes and the
      noise drawn from them, [Sampling] the parallel Gumbel sampler, [FusedGumbel]
      the sampler with pruning, [SamplingKernels] greedy argmax, [LogitBias] the
      restriction, biasing and masking of logits.
    - Mixture of experts: [Counting] (counting sorts) and [Stores] (which cells a
      loop writes) are shared lemmas; [MoeAlign] ([csrc/cpu/sgl-kernels/moe.cpp]) is the
      parallel counting sort that groups the token slots by expert; [MicroGemm]
      ([csrc/cpu/micro_gemm], [cpu_fused_moe_activations.hpp]) the packed product, the
      bias and the gated activations on the portable vector type; [FusedMoe]
      ([csrc/cpu/cpu_fused_moe.cpp]) the whole layer: tile sizes, mapping, the tasks of
      the two products with the buffers of their threads, the weighted sum; [MoeLayout]
      places those buffers in the scratch pad.
    - Row kernels on the CPU: [Vec8] is the vector of eight lanes, [Norm]
      ([csrc/cpu/layernorm.cpp]) the root-mean-square normalisations, [Activation]
      ([csrc/cpu/activation.cpp]) the element-wise activations, [Rope]
      ([csrc/cpu/pos_encoding.cpp]) the rotary embedding.
    - Scratch memory: [CpuUtils] ([csrc/cpu/utils.hpp], [utils.cpp]) is the scratch pad
      manager and the slot mapping; [Regions] has the lemmas on buffers carved out of one
      allocation that [AttnTasks] and [MoeLayout] share.
    - Attention on the CPU ([csrc/cpu/cpu_attn_impl.hpp]): [AttnSchedule] cuts a batch
      into work items (the [partition] lambda), [AttnTasks] is the rest of
      [AttentionScheduler::schedule] (heads, task spans, scratch memory, metadata),
      [AttnKernel] is the walk of a work item into calls with their mask and cache
      pages, and [AttnRun] the threads of [AttentionMainLoop] with the shared counter,
      the barrier and the reductions that wait for their parts.  The arithmetic of the
      portable build is generic in the float operations: [AttnTile] is one call
      ([csrc/cpu/cpu_attn_vec.hpp] and the class [Attention]: products, soft cap, linear
      bias, mask, running softmax), [AttnOutput] the start of a row, the parts, their
      reduction and the final output, [AttnItem] a work item and a reduction end to end;
      [AttnReal] is the instance of the arithmetic on exact numbers.  New keys and values
      are written to the paged cache by [AttnCache] (the portable kernel) and [AttnPacked]
      (AMX, AMX on 8-bit floats, BFMMLA: [cpu_attn_amx.hpp], [cpu_attn_amx_fp8.hpp],
      [cpu_attn_neon_bfmmla.hpp]); [CacheLayout] is what they share, with the placement of
      elements in a page as an interface ([Paged.Placement], [Paged.PlacementOk]).
    - Collectives in shared memory ([csrc/cpu/shm.cpp]): [ShmProtocol] is the stamp
      protocol of the ranks as a transition system, [ShmCollectives] the slicing and
      the reduction of a tensor, [ShmTensors] sending lists of tensors.
    - Offloaded blocks ([csrc/fs_io.cpp]): [FsIo], programs over system calls.
    - Device memory: [Vmm] ([csrc/vmm]), tensors over virtual memory with a shared
      zero page; [Cumem] ([csrc/cumem_allocator.cpp]), the sleep-mode allocator.

    The parts meet through data: receipts read tensors and seal with the
    cryptography; the batch kernels share the request states and the ragged
    offset tables; the attention kernel runs the metadata of its scheduler (the
    theorems of [AttnKernel], [AttnRun] and [AttnItem] are about [Tasks.schedule]) and
    reads the cache that [AttnCache] writes; the layers place their buffers in the block
    that the scratch pad of [CpuUtils] holds; the device
    allocators share the driver's view ([Vmm.Gpu]).

    ** How the model follows the code

    Integers are [Z] kept at their width by [u8] .. [u64], [i32], [i64] below, at
    the places where the code converts or may wrap; floats of the sampling kernels
    are the executable IEEE numbers of the Standard Library.  A buffer is a list;
    an access outside it is [None], so a theorem that ends in [Some] also shows
    that the kernel stays inside its tensors.  Exceptions are values of a result
    type, aborts are [None], stored error codes are a field of the state.  Records
    and operations keep the names of the source.  Recursion that is not structural
    has fuel, and the theorems show that the fuel given suffices: the queue and
    the failure walk of [PhraseMatcher] (one unit per node), the page loop of
    [Vmm] (one per page), the reference decoder of [CanonicalCbor] (the nesting
    depth of the value), the placement of a query tile in [AttnSchedule] (one unit
    per thread), counted loops with a step ([Arrays.for_step], one unit per turn).

    Concurrent parts are transition systems whose steps are the actions of one
    thread or rank; a theorem about [inevitably] says that every maximal run reaches
    its goal, whatever the interleaving.

    Code outside the repository is a parameter with its documented behaviour as
    the laws of a class: Monocypher ([Crypto.Monocypher]), BLAKE3 and PyTorch
    ([Receipt.Blake3], [Receipt.DtypeNames] and arguments of [Receipt]), the operating system ([FsIo.Os], [FsIo.OsOk]), the CUDA and HIP
    drivers ([Vmm.Driver], [Cumem.CuApi]), an OpenMP schedule ([Arrays.Schedule]), the
    chunks of [at::parallel_for] ([MoeAlign.Chunks]), [std::log] and [std::exp]
    (arguments of [Sampling] and, as [FusedGumbel.DoubleOps], of [FusedGumbel]), the arithmetic of [float] with [exp],
    [erf] and [tanh] ([MicroGemm.FloatOps], whose IEEE instance takes the three
    functions) and the element types with their rounding ([MicroGemm.ScalarOps]), [erf]
    on exact numbers ([AttnReal.Exact.Erf], unused by the kernel), the product with the
    scale before an 8-bit conversion (an argument of [Fp8]), [aligned_alloc]
    ([CpuUtils.CpuUtils.Malloc]), the thread that takes a task (arguments of [FusedMoe]).
    Each has an executable instance, on which the witnesses evaluate.

    ** What the theorems show

    - [FsIo]: any interleaving of store and load batches, whatever the system calls
      answer, leaves every destination absent or complete at every moment, and a
      published block stays unless a load of it got a short read, which the code takes
      for corruption ([blocks_published_atomically], by rely/guarantee reasoning;
      [short_read_deletes] is a run that loses a complete block); the outcome of every
      branch of a store and of a load that run alone.
    - [PhraseMatcher]: compilation ends with the automaton of the longest suffixes
      whatever the iteration order of the edge tables, and scanning a stream in
      chunks reports exactly the occurrences in the whole stream.
    - [CanonicalCbor]: a standard decoder inverts the encoder; the encoding is
      prefix-free, independent of the order of map entries, and uses shortest heads.
    - [Sha256], [Base64], [Crypto]: the streaming hash is FIPS 180-4's for any split
      of the input, HKDF is RFC 5869's, decoding inverts encoding, keys load exactly
      in the accepted forms, sealed data open again, random bytes are complete.
    - [Receipt]: the registry is the filtered, sorted set of weights, every window
      lies inside its tensor, the associated data are injective, and the receipt
      opens to the payload of the request.
    - [FloatConvert], [Fp8], [ScalarType]: rounding to nearest even (with saturation in the
      8-bit formats, [fp8_rounds_nearest_even]), exact widening, identifier round trip,
      ranges; the type without mantissa bits gets a wrong range ([e8m0_bounds_wrong]).
    - [BlockTable], [SpecDecode], [InputBatch]: the contents of every cell written,
      the absence of other writes and out-of-range accesses; rejection sampling
      verifies drafts up to the first mismatch, greedily ([rejection_greedy_spec]) or by
      the ratio of the target's to the draft's probability ([rejection_random_spec]); folding a step back appends each
      request's tokens once and leaves other rows alone.
    - [Dry]: the scan gives each token the longest repeated match that the reference
      definition finds.
    - [SampleNoise]: the noise of draft and target positions comes from different
      inputs of the hash, and different tokens of a row get different words.
    - [Sampling], [FusedGumbel], [SamplingKernels]: cutting the vocabulary into ranges
      does not change the winner, which is the first best token of the row whatever
      the workers do; over exact arithmetic the pruning of the fused sampler never skips
      the Gumbel sample ([fused_gumbel_exact]); greedy argmax is [torch.argmax], NaNs included; a masked token
      is never drawn.
    - [LogitBias]: what every logit of a row becomes, on every branch.
    - [MoeAlign]: for any chunking and schedule the counting sort yields the stable,
      padded order of the reference, and its consistency checks never fire, as long as
      the padded slots and the table of counts fit the 32-bit counters of the code.
    - [MicroGemm], [FusedMoe]: on packed weights the layer is the one written down
      directly (per token the weighted sum over its experts), bit for bit, for any order
      of the tasks, threads, tile sizes and old contents of the buffers, as long as
      element offsets fit 32 bits ([fused_moe_spec]); a call is refused exactly when the
      input is strided or the types, names or sizes are wrong ([fused_moe_rejects]).
    - [Norm], [Activation], [Rope]: every cell that the kernels write, against the formula
      written down per element, bit for bit for any order of the rows, and no other writes
      ([fused_add_rms_norm_spec], [activation_spec], [rotary_embedding_spec]).
    - [CpuUtils], [MoeLayout]: for sizes below 2^63 and whatever the allocator answers, the
      scratch pad owns exactly one live block, which is large enough for every request
      that was granted, and frees no block twice ([scratchpad_owned]); the buffers of the fused layer are disjoint,
      aligned and inside it ([moe_scratch_sound]).
    - [AttnSchedule], [AttnTasks], [AttnKernel]: every query token of every request is
      computed for every head exactly once, whole or in consecutive parts of one
      reduction; over all calls each visible key is left by the mask exactly once and
      no hidden one ([attention_exact]); the pages read are those of the block table;
      the scratch buffers are disjoint and inside the memory allocated.
    - [AttnTile], [AttnReal], [AttnOutput], [AttnItem]: over exact arithmetic the output of
      a scheduled work item is the softmax attention of every query row over the keys that
      it sees ([attention_item_exact]), and so is the reduction of a tile that was split,
      whatever the old contents of the buffers ([attention_split_exact]): the running
      maximum, the rescaling and the combination of the parts cancel.
    - [AttnCache]: whatever the order of the parallel loop, the kernel reads back, at the
      position of a slot, the key and value written to it, and no other cell changes ([cache_roundtrip]).
    - [CacheLayout], [AttnPacked]: the four packed layouts are one placement with different
      parameters, and every element of every token gets a cell of its own
      ([packed_caches_exact]).
    - [AttnRun]: the threads always finish, having done every work item and reduction
      once; a reduction never uses a part that was not written in this call.
    - [ShmProtocol], [ShmCollectives], [ShmTensors]: a collective ends on every rank
      under every interleaving, the sum reduction (on 2, 3, 4 or 8 ranks, with room
      behind the tensors for whole vectors) and the gather deliver the right tensor, lists of tensors arrive intact; gathers in the fast mode can race with
      other collectives and can deadlock ([fast_gather_races], [fast_gather_deadlocks]).
    - [Vmm]: page operations follow a contract on the allocation of every page
      ([elastic_ops]), the whole range stays backed, no physical page leaks and a refused
      operation changes nothing; the contiguous layout lets the
      global page size grow ([page_size_compounds]).
    - [Cumem]: chunks tile the allocation; creating and mapping them is all or
      nothing; a stored error blocks allocations until a Python function raises and
      clears it ([error_latched_until_reported]).

    ** What is not modelled

    Device kernels, SIMD kernels and the matrix libraries (floating-point programs
    over intrinsics): the instantiations of the attention kernel and of the micro GEMMs for
    particular instruction sets (with the branches that pack their input), the NEON form of
    the samplers, the SGL and oneDNN kernels.  In the attention kernel also the build
    with the fast exponential, the probabilities quantised ahead of the product, the
    vectorised decoding of 8-bit caches, and the entry points of [cpu_attn.cpp], which
    check tensors and choose an instantiation; overflow of the 32-bit lengths in the
    attention scheduler; rounding errors (the exactness of attention is over exact
    numbers).  NUMA binding and the spin loop on a monitored cache line; operator
    registration, logging, the Python engine and the Rust front end.  Within modelled
    files: parsing of Python argument tuples, reference counts and the interpreter lock,
    and the unused [FTensor::set_access_].

    ** This file

    Machine integers, bytes and the lemmas on lists and options that the
    components share. *)

From stdpp Require Export base tactics numbers list gmap strings sorting.
From Stdlib Require Export ZArith Lia.

#[export] Set Default Goal Selector "!".
#[local] Open Scope Z_scope.

(** ** Machine integers *)

(** Conversions to the unsigned types of the source. *)
Definition u8 (z : Z) : Z := z mod 256.
Definition u16 (z : Z) : Z := z mod 65536.
Definition u32 (z : Z) : Z := z mod 4294967296.
Definition u64 (z : Z) : Z := z mod 18446744073709551616.

(** Conversions to the signed (two's complement) types of the source. *)
Definition i32 (z : Z) : Z := (z + 2147483648) mod 4294967296 - 2147483648.
Definition i64 (z : Z) : Z :=
  (z + 9223372036854775808) mod 18446744073709551616 - 9223372036854775808.

Definition is_u8 (z : Z) : Prop := 0 <= z < 256.
Definition is_u32 (z : Z) : Prop := 0 <= z < 4294967296.
Definition is_u64 (z : Z) : Prop := 0 <= z < 18446744073709551616.
Definition is_i32 (z : Z) : Prop := -2147483648 <= z < 2147483648.
Definition is_i64 (z : Z) : Prop :=
  -9223372036854775808 <= z < 9223372036854775808.

(** A byte buffer is a list of integers below 256. *)
Definition bytes_ok (l : list Z) : Prop := Forall is_u8 l.

Create HintDb sonar.


Lemma u8_range z : is_u8 (u8 z).
Proof. unfold is_u8, u8. apply Z.mod_pos_bound. lia. Qed.
Lemma u32_range z : is_u32 (u32 z).
Proof. unfold is_u32, u32. apply Z.mod_pos_bound. lia. Qed.
Lemma u64_range z : is_u64 (u64 z).
Proof. unfold is_u64, u64. apply Z.mod_pos_bound. lia. Qed.
Lemma i32_range z : is_i32 (i32 z).
Proof.
  unfold is_i32, i32.
  pose proof (Z.mod_pos_bound (z + 2147483648) 4294967296). lia.
Qed.

Lemma u8_id z : is_u8 z -> u8 z = z.
Proof. unfold is_u8, u8. intros. apply Z.mod_small. lia. Qed.
Lemma u32_id z : is_u32 z -> u32 z = z.
Proof. unfold is_u32, u32. intros. apply Z.mod_small. lia. Qed.
Lemma u64_id z : is_u64 z -> u64 z = z.
Proof. unfold is_u64, u64. intros. apply Z.mod_small. lia. Qed.
Lemma i32_id z : is_i32 z -> i32 z = z.
Proof. unfold is_i32, i32. intros. rewrite Z.mod_small; lia. Qed.
Lemma i64_id z : is_i64 z -> i64 z = z.
Proof. unfold is_i64, i64. intros. rewrite Z.mod_small; lia. Qed.

#[export] Hint Resolve u8_range u32_range u64_range i32_range : sonar.
Create Rewrite HintDb width.
#[export] Hint Rewrite u8_id u32_id u64_id i32_id i64_id
  using (unfold is_u8, is_u32, is_u64, is_i32, is_i64 in *; lia) : width.

(** Removes every width conversion whose operand is provably in range. *)
Ltac widths := autorewrite with width in *.

(** ** Bit operations as arithmetic *)

Lemma shiftl_pow z n : 0 <= n -> Z.shiftl z n = z * 2 ^ n.
Proof. apply Z.shiftl_mul_pow2. Qed.
Lemma shiftr_pow z n : 0 <= n -> Z.shiftr z n = z / 2 ^ n.
Proof. apply Z.shiftr_div_pow2. Qed.

(** Two operands with disjoint bits: the high one is a multiple of [2^n], the
    low one is below it. *)
Lemma lor_disjoint a b n :
  0 <= n -> 0 <= b < 2 ^ n -> Z.lor (a * 2 ^ n) b = a * 2 ^ n + b.
Proof.
  intros Hn Hb. symmetry. rewrite <- Z.shiftl_mul_pow2 by done.
  assert (Z.land (Z.shiftl a n) b = 0) as Hd.
  { apply Z.bits_inj'. intros i Hi. rewrite Z.land_spec, Z.bits_0.
    destruct (decide (i < n)).
    - by rewrite Z.shiftl_spec_low.
    - rewrite <- (Z.mod_small b (2 ^ n)) by done.
      rewrite Z.mod_pow2_bits_high by lia. apply andb_false_r. }
  rewrite <- Z.lxor_lor by done. by apply Z.add_nocarry_lxor.
Qed.

(** A number is below [2^n] exactly when its bits from [n] on are clear. *)
Lemma bits_high a n i : 0 <= a < 2 ^ n -> 0 <= n <= i -> Z.testbit a i = false.
Proof.
  intros Ha Hi. rewrite <- (Z.mod_small a (2 ^ n)) by done.
  by apply Z.mod_pow2_bits_high.
Qed.

Lemma bits_range a n :
  0 <= n -> (forall i, n <= i -> Z.testbit a i = false) -> 0 <= a < 2 ^ n.
Proof.
  intros Hn Hb. assert (a = a mod 2 ^ n) as ->; [|apply Z.mod_pos_bound; lia].
  apply Z.bits_inj'. intros i Hi. destruct (decide (i < n)).
  - by rewrite Z.mod_pow2_bits_low.
  - rewrite Z.mod_pow2_bits_high by lia. apply Hb. lia.
Qed.

Lemma lor_range a b n :
  0 <= n -> 0 <= a < 2 ^ n -> 0 <= b < 2 ^ n -> 0 <= Z.lor a b < 2 ^ n.
Proof.
  intros Hn Ha Hb. apply bits_range; [done|]. intros i Hi.
  by rewrite Z.lor_spec, (bits_high a n), (bits_high b n) by lia.
Qed.

Lemma lxor_range a b n :
  0 <= n -> 0 <= a < 2 ^ n -> 0 <= b < 2 ^ n -> 0 <= Z.lxor a b < 2 ^ n.
Proof.
  intros Hn Ha Hb. apply bits_range; [done|]. intros i Hi.
  by rewrite Z.lxor_spec, (bits_high a n), (bits_high b n) by lia.
Qed.

Lemma land_low z n : 0 <= n -> Z.land z (2 ^ n - 1) = z mod 2 ^ n.
Proof. intros. rewrite <- Z.land_ones by done. by rewrite Z.ones_equiv, Z.sub_1_r. Qed.

(** ** Big-endian and little-endian byte strings *)

Definition be_val (l : list Z) : Z := foldl (fun acc b => acc * 256 + b) 0 l.
Fixpoint le_val (l : list Z) : Z :=
  match l with [] => 0 | b :: l => b + 256 * le_val l end.

(** The bytes [value >> shift] for each shift of a list, as a loop
    [for (shift = 8*(n-1); shift >= 0; shift -= 8)] pushes them. *)
Fixpoint be_bytes (n : nat) (z : Z) : list Z :=
  match n with
  | O => []
  | S n => u8 (Z.shiftr z (8 * Z.of_nat n)) :: be_bytes n z
  end.

(** The bytes [value >> (8*i)], [i = 0 .. n-1]. *)
Fixpoint le_bytes (n : nat) (z : Z) : list Z :=
  match n with
  | O => []
  | S n => u8 z :: le_bytes n (Z.shiftr z 8)
  end.

Lemma length_be_bytes n z : length (be_bytes n z) = n.
Proof. induction n; simpl; congruence. Qed.
Lemma length_le_bytes n z : length (le_bytes n z) = n.
Proof. revert z. induction n; intros; simpl; [done | f_equal; auto]. Qed.
Lemma be_bytes_ok n z : bytes_ok (be_bytes n z).
Proof. induction n; simpl; constructor; auto with sonar. Qed.
Lemma le_bytes_ok n z : bytes_ok (le_bytes n z).
Proof. revert z. induction n; intros; simpl; constructor; auto with sonar; apply IHn. Qed.

Lemma be_bytes_snoc n z : be_bytes (S n) z = be_bytes n (Z.shiftr z 8) ++ [u8 z].
Proof.
  induction n as [|n IH]; [by rewrite <- (Z.shiftr_0_r z) at 2|].
  change (be_bytes (S (S n)) z) with
    (u8 (Z.shiftr z (8 * Z.of_nat (S n))) :: be_bytes (S n) z).
  rewrite IH. cbn [be_bytes app]. rewrite Z.shiftr_shiftr by lia.
  by replace (8 + 8 * Z.of_nat n) with (8 * Z.of_nat (S n)) by lia.
Qed.

Lemma be_val_snoc l b : be_val (l ++ [b]) = be_val l * 256 + b.
Proof. unfold be_val. by rewrite foldl_app. Qed.

Lemma be_val_bytes n z : 0 <= z < 256 ^ Z.of_nat n -> be_val (be_bytes n z) = z.
Proof.
  revert z. induction n as [|n IH]; intros z Hz; [unfold be_val; simpl in *; lia|].
  rewrite Nat2Z.inj_succ, Z.pow_succ_r in Hz by lia.
  rewrite be_bytes_snoc, be_val_snoc, Z.shiftr_div_pow2 by lia.
  change (2 ^ 8) with 256. rewrite IH.
  - unfold u8. pose proof (Z.div_mod z 256). lia.
  - split; [apply Z.div_pos; lia | apply Z.div_lt_upper_bound; lia].
Qed.

Lemma le_val_bytes n z : 0 <= z < 256 ^ Z.of_nat n -> le_val (le_bytes n z) = z.
Proof.
  revert z. induction n as [|n IH]; intros z Hz; [simpl in *; lia|].
  rewrite Nat2Z.inj_succ, Z.pow_succ_r in Hz by lia.
  simpl. rewrite Z.shiftr_div_pow2 by lia. change (2 ^ 8) with 256.
  rewrite IH.
  - unfold u8. pose proof (Z.div_mod z 256). lia.
  - split; [apply Z.div_pos; lia | apply Z.div_lt_upper_bound; lia].
Qed.

(** ** Sorting by a strict comparator

    [std::stable_sort] with comparator [lt]: an element moves in front of the
    ones it is strictly smaller than and behind the others.  [std::sort] gives
    the same sequence whenever no two elements are equivalent. *)
Section sort.
Context {A : Type} (lt : A -> A -> bool).

Fixpoint sort_insert (x : A) (l : list A) : list A :=
  match l with
  | [] => [x]
  | y :: l' => if lt y x then y :: sort_insert x l' else x :: y :: l'
  end.

Definition sort_by (l : list A) : list A := foldr sort_insert [] l.

Definition not_after (x y : A) : Prop := lt y x = false.

Lemma sort_insert_perm x l : sort_insert x l ≡ₚ x :: l.
Proof.
  induction l as [|y l IH]; simpl; [done|].
  destruct (lt y x); [|done]. rewrite IH. constructor.
Qed.

Lemma sort_by_perm l : sort_by l ≡ₚ l.
Proof. induction l as [|x l IH]; simpl; [done|]. by rewrite sort_insert_perm, IH. Qed.

(** The comparator is a strict weak order: what [std::sort] requires. *)
Class StrictWeak : Prop := {
  sw_asym x y : lt x y = true -> lt y x = false;
  sw_trans x y z : lt y x = false -> lt z y = false -> lt z x = false
}.

Context `{!StrictWeak}.

Lemma sort_insert_sorted x l :
  StronglySorted not_after l -> StronglySorted not_after (sort_insert x l).
Proof.
  induction 1 as [|y l Hl IH Hy]; simpl; [repeat constructor|].
  destruct (lt y x) eqn:E.
  - constructor; [done|]. rewrite sort_insert_perm. constructor; [|done].
    by apply sw_asym.
  - constructor; [by constructor|]. constructor; [done|].
    eapply Forall_impl; [done|]. intros z Hz. unfold not_after in *.
    eapply sw_trans; eauto.
Qed.

Lemma sort_by_sorted l : StronglySorted not_after (sort_by l).
Proof. induction l; simpl; [constructor | by apply sort_insert_sorted]. Qed.
End sort.

(** Sorting by a key commutes with a map that keeps the keys' comparisons. *)
Lemma sort_insert_map {A B} (ltA : A -> A -> bool) (ltB : B -> B -> bool) (f : A -> B) x l :
  (forall x y, ltB (f x) (f y) = ltA x y) ->
  map f (sort_insert ltA x l) = sort_insert ltB (f x) (map f l).
Proof.
  intros Hf. induction l as [|y l IH]; simpl; [done|].
  rewrite Hf. destruct (ltA y x); simpl; congruence.
Qed.

Lemma sort_by_map {A B} (ltA : A -> A -> bool) (ltB : B -> B -> bool) (f : A -> B) l :
  (forall x y, ltB (f x) (f y) = ltA x y) ->
  map f (sort_by ltA l) = sort_by ltB (map f l).
Proof.
  intros Hf. induction l as [|x l IH]; simpl; [done|].
  by rewrite (sort_insert_map ltA ltB), IH.
Qed.

(** Two arrangements of the same elements, both sorted, with pairwise
    inequivalent elements, are the same sequence. *)
Lemma sorted_perm_unique {A} (lt : A -> A -> bool) (l1 l2 : list A) :
  l1 ≡ₚ l2 ->
  (forall x y, x ∈ l1 -> y ∈ l1 -> lt x y = false -> lt y x = false -> x = y) ->
  StronglySorted (not_after lt) l1 -> StronglySorted (not_after lt) l2 -> l1 = l2.
Proof.
  revert l2. induction l1 as [|x l1 IH]; intros l2 Hp Hd H1 H2.
  { by apply Permutation_nil_l in Hp. }
  destruct l2 as [|y l2]; [by apply Permutation_nil_r in Hp|].
  apply StronglySorted_inv in H1 as [H1 Hx]. apply StronglySorted_inv in H2 as [H2 Hy].
  rewrite Forall_forall in Hx, Hy.
  assert (x = y) as ->.
  { assert (y ∈ x :: l1) as Hy1 by (rewrite Hp; constructor).
    assert (x ∈ y :: l2) as Hx2 by (rewrite <- Hp; constructor).
    apply elem_of_cons in Hy1 as [->|Hy1]; [done|].
    apply elem_of_cons in Hx2 as [->|Hx2]; [done|].
    apply Hd; [constructor | by constructor | | ].
    - apply (Hy _ Hx2).
    - apply (Hx _ Hy1). }
  f_equal. apply IH; [by apply Permutation_cons_inv in Hp| |done|done].
  intros. apply Hd; [by constructor | by constructor | done | done].
Qed.

(** [operator<] of [std::vector<uint8_t>] and [std::string]: lexicographic. *)
Fixpoint bytes_lt (a b : list Z) : bool :=
  match a, b with
  | _, [] => false
  | [], _ :: _ => true
  | x :: a', y :: b' => if x <? y then true else if y <? x then false else bytes_lt a' b'
  end.

Lemma bytes_lt_irrefl a : bytes_lt a a = false.
Proof. induction a as [|x a IH]; simpl; [done|]. by rewrite Z.ltb_irrefl. Qed.

Lemma bytes_lt_total a b : bytes_lt a b = false -> bytes_lt b a = false -> a = b.
Proof.
  revert b. induction a as [|x a IH]; intros [|y b]; simpl; try done.
  destruct (Z.ltb_spec x y), (Z.ltb_spec y x); try done; try lia.
  intros. assert (x = y) as -> by lia. f_equal. by apply IH.
Qed.

#[export] Instance bytes_lt_strict : StrictWeak bytes_lt.
Proof.
  split.
  - induction x as [|x a IH]; intros [|y b]; simpl; try done.
    destruct (Z.ltb_spec x y), (Z.ltb_spec y x); try done; try lia. apply IH.
  - induction x as [|x a IH]; intros [|y b] [|z c]; simpl; try done.
    destruct (Z.ltb_spec y x), (Z.ltb_spec x y), (Z.ltb_spec z y),
      (Z.ltb_spec y z), (Z.ltb_spec z x), (Z.ltb_spec x z); try done; try lia.
    apply IH.
Qed.

(** ** Buffers *)

(** [memcpy(dst + off, src, n)] with [src] the [n] source elements. *)
Definition memcpy {A} (dst : list A) (off : nat) (src : list A) : list A :=
  take off dst ++ src ++ drop (off + length src) dst.

Lemma length_memcpy {A} (dst : list A) off src :
  (off + length src <= length dst)%nat -> length (memcpy dst off src) = length dst.
Proof. intros. unfold memcpy. rewrite !length_app, length_take, length_drop. lia. Qed.

Lemma take_memcpy {A} (dst : list A) off src :
  (off + length src <= length dst)%nat ->
  take (off + length src) (memcpy dst off src) = take off dst ++ src.
Proof.
  intros. unfold memcpy. rewrite app_assoc. apply take_app_length'.
  rewrite length_app, length_take. lia.
Qed.

(** ** Exceptions *)

(** A C++ call that returns or throws; the message identifies the throw. *)
Inductive outcome (A : Type) : Type :=
| Ok (a : A)
| Throw (msg : string).
Arguments Ok {A} _.
Arguments Throw {A} _.

#[export] Instance outcome_ret : MRet outcome := fun A a => Ok a.
#[export] Instance outcome_bind : MBind outcome := fun A B f m =>
  match m with Ok a => f a | Throw e => Throw e end.

(** [TORCH_CHECK(cond, msg)] *)
Definition torch_check (cond : bool) (msg : string) : outcome unit :=
  if cond then Ok tt else Throw msg.

Lemma outcome_bind_ok {A B} (m : outcome A) (f : A -> outcome B) b :
  m ≫= f = Ok b -> exists a, m = Ok a /\ f a = Ok b.
Proof. destruct m; simpl; [eauto | done]. Qed.

(** Splits a successful bind in a hypothesis into its two halves. *)
Ltac inv_ok H :=
  let a := fresh "a" in let H1 := fresh "Hok" in
  apply outcome_bind_ok in H as (a & H1 & H); simpl in H.

(** Case analysis on the [if] or [match] that a hypothesis is stuck on. *)
Ltac case_hyp H :=
  match type of H with
  | context [if ?b then _ else _] => destruct b eqn:?
  | context [match ?x with _ => _ end] => destruct x eqn:?
  end; simplify_eq.

(** ** Sums *)

Abbreviation zsum := (foldr Z.add 0).

Lemma zsum_app l k : zsum (l ++ k) = zsum l + zsum k.
Proof. induction l as [|x l IH]; simpl; lia. Qed.

Lemma zsum_nonneg (l : list Z) : Forall (fun b => 0 <= b) l -> 0 <= zsum l.
Proof. induction 1; simpl; lia. Qed.

Lemma zsum_insert (l : list Z) i x y : l !! i = Some x -> zsum (<[i := y]> l) = zsum l - x + y.
Proof.
  revert i. induction l as [|z l IH]; intros [|i] H; simplify_eq/=; [lia|]. rewrite (IH i H). lia.
Qed.

(** ** Character strings as byte lists *)

Definition bytes_of_string (s : string) : list Z :=
  map (fun a => Z.of_N (Ascii.N_of_ascii a)) (String.list_ascii_of_string s).

Definition list_Z_eqb (a b : list Z) : bool := bool_decide (a = b).

Lemma list_Z_eqb_spec a b : reflect (a = b) (list_Z_eqb a b).
Proof. apply bool_decide_reflect. Qed.

(** [s.find(needle)]: the first position where [needle] starts. *)
Fixpoint find_sub (needle hay : list Z) : option nat :=
  if list_Z_eqb (take (length needle) hay) needle then Some O
  else match hay with
       | [] => None
       | _ :: hay => S <$> find_sub needle hay
       end.

(** The first and the last position that satisfies a test. *)
Fixpoint find_first (p : Z -> bool) (l : list Z) : option nat :=
  match l with
  | [] => None
  | x :: l => if p x then Some O else S <$> find_first p l
  end.

Fixpoint find_last (p : Z -> bool) (l : list Z) : option nat :=
  match l with
  | [] => None
  | x :: l => match find_last p l with
              | Some i => Some (S i)
              | None => if p x then Some O else None
              end
  end.

(** [s.substr(pos, n)]: at most [n] characters from [pos] on. *)
Definition substr (l : list Z) (pos : nat) (n : Z) : list Z :=
  take (Z.to_nat (Z.min n (Z.of_nat (length l)))) (drop pos l).

Lemma bytes_of_string_ok s : bytes_ok (bytes_of_string s).
Proof.
  unfold bytes_of_string. induction s as [|a s IH]; simpl; constructor; [|done].
  unfold is_u8. pose proof (Ascii.N_ascii_bounded a). lia.
Qed.

(** ** Exhaustive checks over a small range of integers *)
Definition check_below (n : nat) (p : Z -> bool) : bool :=
  forallb p (map Z.of_nat (seq 0 n)).

Lemma check_below_spec n p i :
  check_below n p = true -> 0 <= i < Z.of_nat n -> p i = true.
Proof.
  unfold check_below. rewrite forallb_forall. intros H Hi. apply H.
  apply in_map_iff. exists (Z.to_nat i). split; [lia|]. apply in_seq. lia.
Qed.

Lemma find_first_app p a x b :
  Forall (fun c => p c = false) a -> p x = true ->
  find_first p (a ++ x :: b) = Some (length a).
Proof. induction 1 as [|y a Hy _ IH]; intros Hx; simpl; [by rewrite Hx|]. by rewrite Hy, IH. Qed.

Lemma find_last_none p a : Forall (fun c => p c = false) a -> find_last p a = None.
Proof. induction 1 as [|y a Hy _ IH]; simpl; [done|]. by rewrite IH, Hy. Qed.

Lemma find_last_app p a x b :
  Forall (fun c => p c = false) b -> p x = true ->
  find_last p (a ++ x :: b) = Some (length a).
Proof.
  intros Hb Hx. induction a as [|y a IH]; simpl; [|by rewrite IH].
  by rewrite find_last_none, Hx by done.
Qed.

(** Trimming: the span from the first to the last character that passes. *)
Lemma substr_span p ws1 t ws2 x t1 y t2 :
  Forall (fun c => p c = false) ws1 -> Forall (fun c => p c = false) ws2 ->
  t = x :: t1 -> t = t2 ++ [y] -> p x = true -> p y = true ->
  let l := ws1 ++ t ++ ws2 in
  exists i j, find_first p l = Some i /\ find_last p l = Some j /\
    substr l i (Z.of_nat j - Z.of_nat i + 1) = t.
Proof.
  intros H1 H2 Ht Ht' Hx Hy l.
  exists (length ws1), (length (ws1 ++ t2)). split; [|split].
  - unfold l. rewrite Ht. by apply find_first_app.
  - unfold l. rewrite Ht'. rewrite <- app_assoc, app_assoc. by apply find_last_app.
  - unfold substr. assert (length t = S (length t2)) by (rewrite Ht', length_app; simpl; lia).
    rewrite Z.min_l by (unfold l; rewrite !length_app; lia).
    unfold l. rewrite drop_app_length, take_app_length'; [done|].
    rewrite length_app. lia.
Qed.

(** ** Unused identifiers *)

Definition next_id (l : list Z) : Z := 1 + foldr Z.max 0 l.

Lemma next_id_gt l x : x ∈ l -> x < next_id l.
Proof.
  unfold next_id. induction l as [|y l IH]; intros Hx; [by apply not_elem_of_nil in Hx|].
  apply elem_of_cons in Hx as [->|Hx]; simpl; [lia|]. specialize (IH Hx). lia.
Qed.

Lemma next_id_pos l : 0 < next_id l.
Proof. unfold next_id. induction l; simpl; lia. Qed.

Lemma next_id_new l : next_id l ∉ l.
Proof. intros Hin%next_id_gt. lia. Qed.

(** ** Interleavings *)

(** Every run of the steps [R] from [s] reaches [P]: it does not end before, and it
    does not go on for ever without. *)
Inductive inevitably {A} (R : A -> A -> Prop) (P : A -> Prop) (s : A) : Prop :=
  | inevitably_now : P s -> inevitably R P s
  | inevitably_next : (exists s', R s s') -> (forall s', R s s' -> inevitably R P s') -> inevitably R P s.

Lemma inevitably_mono {A} R (P Q : A -> Prop) s : (forall s, P s -> Q s) -> inevitably R P s -> inevitably R Q s.
Proof. intros HPQ. induction 1; [left; auto|right; auto]. Qed.

(** By an invariant under which a run can go on until [P], and a variant. *)
Lemma inevitably_variant {A} R (P I : A -> Prop) (v : A -> nat) s :
  (forall s, I s -> P s \/ exists s', R s s') -> (forall s s', I s -> R s s' -> I s' /\ (v s' < v s)%nat) ->
  I s -> inevitably R P s.
Proof.
  intros Hgo Hstep. remember (v s) as m eqn:Em. revert s Em. induction (lt_wf m) as [m _ IH]. intros s -> HI.
  destruct (Hgo s HI) as [?|Hn]; [by left|]. right; [done|]. intros s' Hs.
  destruct (Hstep s s' HI Hs) as [HI' Hv]. by eapply IH.
Qed.
