(* ===== verification/CanonicalCbor.v ===== *)
(** * Canonical CBOR encoder ([csrc/proof/canonical_cbor.cpp], [.h])

    The value type of the receipt payloads, its canonical encoder as the source
    writes it (every function appends to the output vector), a plain RFC 8949
    decoder as the specification, and the facts a verifier relies on: the
    encoding is decodable and self-delimiting, uses shortest heads, and does not
    depend on the order in which map entries were given. *)

From S2P Require Import Prelude.

#[local] Open Scope Z_scope.

Module Cbor.

(** ** The value type ([Value::Kind] and its payload fields) *)
Unset Elimination Schemes.
Inductive Value :=
| kInt (int_ : Z)
| kStr (str_ : list Z)
| kBytes (bytes_ : list Z)
| kArr (arr_ : list Value)
| kMap (map_ : list (list Z * Value)).
Set Elimination Schemes.

(** The constructors [Value::Int], [Value::Str], ... of the class. *)
Definition Int (v : Z) : Value := kInt v.
Definition Str (v : list Z) : Value := kStr v.
Definition Bytes (v : list Z) : Value := kBytes v.
Definition Arr (v : list Value) : Value := kArr v.
Definition MakeMap (v : list (list Z * Value)) : Value := kMap v.

(** ** The encoder *)

Definition encode_head (major value : Z) (out : list Z) : list Z :=
  let mt := u8 (Z.shiftl major 5) in
  if value <? 24 then out ++ [u8 (Z.lor mt value)]
  else if value <=? 0xff then out ++ [u8 (Z.lor mt 24)] ++ [u8 value]
  else if value <=? 0xffff then
    out ++ [u8 (Z.lor mt 25)] ++ [u8 (Z.shiftr value 8)] ++ [u8 value]
  else if value <=? 0xffffffff then out ++ [u8 (Z.lor mt 26)] ++ be_bytes 4 value
  else out ++ [u8 (Z.lor mt 27)] ++ be_bytes 8 value.

Definition encode_int (v : Z) (out : list Z) : list Z :=
  if 0 <=? v then encode_head 0 (u64 v) out
  else encode_head 1 (u64 (- (v + 1))) out.

Definition encode_text (s : list Z) (out : list Z) : list Z :=
  encode_head 3 (Z.of_nat (length s)) out ++ s.

(** [struct Encoded]: an encoded key and a reference to its value, which is
    encoded when the entry is emitted. *)
Record Encoded := mkEncoded { key : list Z; value : list Z -> list Z }.

(** The comparator of the [std::sort] call: length first, then bytes. *)
Definition key_lt (a b : list Z) : bool :=
  if Nat.eqb (length a) (length b) then bytes_lt a b
  else Nat.ltb (length a) (length b).

Fixpoint encode_val (v : Value) (out : list Z) {struct v} : list Z :=
  match v with
  | kInt i => encode_int i out
  | kStr s => encode_text s out
  | kBytes b => encode_head 2 (Z.of_nat (length b)) out ++ b
  | kArr l =>
      foldl (fun o item => encode_val item o)
            (encode_head 4 (Z.of_nat (length l)) out) l
  | kMap m =>
      let encoded :=
        map (fun e => match e with
                      | (k, v) => mkEncoded (encode_text k []) (encode_val v)
                      end) m in
      let sorted := sort_by (fun a b => key_lt (key a) (key b)) encoded in
      foldl (fun o e => value e (o ++ key e))
            (encode_head 5 (Z.of_nat (length sorted)) out) sorted
  end.

(** The free function [dphn_cbor::encode]. *)
Definition encode (v : Value) : list Z := encode_val v [].

(** ** Specification: RFC 8949 decoding of definite-length items *)

Definition decode_arg (major : Z) (k : nat) (r : list Z) : option (Z * Z * list Z) :=
  if Nat.leb k (length r) then Some (major, be_val (take k r), drop k r) else None.

Definition decode_head (l : list Z) : option (Z * Z * list Z) :=
  match l with
  | [] => None
  | b :: r =>
      let major := b / 32 in
      let info := b mod 32 in
      if info <? 24 then Some (major, info, r)
      else if info =? 24 then decode_arg major 1 r
      else if info =? 25 then decode_arg major 2 r
      else if info =? 26 then decode_arg major 4 r
      else if info =? 27 then decode_arg major 8 r
      else None
  end.

Definition decode_string (n : Z) (r : list Z) : option (list Z * list Z) :=
  if n <=? Z.of_nat (length r)
  then Some (take (Z.to_nat n) r, drop (Z.to_nat n) r) else None.

Definition decode_text (l : list Z) : option (list Z * list Z) :=
  '(major, n, r) ← decode_head l;
  if major =? 3 then decode_string n r else None.

Fixpoint decode_seq {A} (dec : list Z -> option (A * list Z)) (n : nat) (l : list Z)
  : option (list A * list Z) :=
  match n with
  | O => Some ([], l)
  | S n =>
      '(x, r) ← dec l;
      '(xs, r') ← decode_seq dec n r;
      Some (x :: xs, r')
  end.

Fixpoint decode (fuel : nat) (l : list Z) : option (Value * list Z) :=
  match fuel with
  | O => None
  | S fuel =>
      '(major, n, r) ← decode_head l;
      if major =? 0 then Some (kInt n, r)
      else if major =? 1 then Some (kInt (-1 - n), r)
      else if major =? 2 then '(b, r) ← decode_string n r; Some (kBytes b, r)
      else if major =? 3 then '(s, r) ← decode_string n r; Some (kStr s, r)
      else if major =? 4 then
        '(xs, r) ← decode_seq (decode fuel) (Z.to_nat n) r; Some (kArr xs, r)
      else if major =? 5 then
        '(xs, r) ← decode_seq
           (fun l => '(k, r) ← decode_text l;
                     '(v, r') ← decode fuel r;
                     Some ((k, v), r')) (Z.to_nat n) r;
        Some (kMap xs, r)
      else None
  end.

(** Nesting depth: the fuel [decode] needs. *)
Fixpoint vdepth (v : Value) : nat :=
  match v with
  | kArr l => S (foldr (fun x n => Nat.max (vdepth x) n) O l)
  | kMap m => S (foldr (fun e n => match e with (_, v) => Nat.max (vdepth v) n end) O m)
  | _ => 1%nat
  end.

(** Integers fit [int64_t], sizes fit [uint64_t]. *)
Definition len64 {A} (l : list A) : bool :=
  Z.of_nat (length l) <? 18446744073709551616.

Fixpoint wf (v : Value) : bool :=
  match v with
  | kInt i => (-9223372036854775808 <=? i) && (i <? 9223372036854775808)
  | kStr s => len64 s
  | kBytes b => len64 b
  | kArr l => len64 l && forallb wf l
  | kMap m => len64 m && forallb (fun e => match e with (k, v) => len64 k && wf v end) m
  end.

(** Map entries in canonical order, at every level. *)
Definition entry_lt (a b : list Z * Value) : bool :=
  key_lt (encode_text a.1 []) (encode_text b.1 []).

Fixpoint canon (v : Value) : Value :=
  match v with
  | kArr l => kArr (map canon l)
  | kMap m =>
      kMap (sort_by entry_lt (map (fun e => match e with (k, v) => (k, canon v) end) m))
  | v => v
  end.

Section value_ind.
Variable P : Value -> Prop.
Hypothesis HInt : forall i, P (kInt i).
Hypothesis HStr : forall s, P (kStr s).
Hypothesis HBytes : forall b, P (kBytes b).
Hypothesis HArr : forall l, Forall P l -> P (kArr l).
Hypothesis HMap : forall m, Forall (fun e => P e.2) m -> P (kMap m).

Fixpoint value_nested_ind (v : Value) : P v :=
  match v with
  | kInt i => HInt i
  | kStr s => HStr s
  | kBytes b => HBytes b
  | kArr l =>
      HArr l ((fix go l : Forall P l :=
                 match l with
                 | [] => Forall_nil_2 _
                 | x :: l => Forall_cons_2 _ _ _ (value_nested_ind x) (go l)
                 end) l)
  | kMap m =>
      HMap m ((fix go m : Forall (fun e => P e.2) m :=
                 match m with
                 | [] => Forall_nil_2 _
                 | (k, v) :: m => Forall_cons_2 _ (k, v) _ (value_nested_ind v) (go m)
                 end) m)
  end.
End value_ind.

(** ** Heads *)

Lemma encode_head_app major n out :
  encode_head major n out = out ++ encode_head major n [].
Proof. unfold encode_head. repeat case_match; done. Qed.

Lemma head_byte major info :
  0 <= major < 8 -> 0 <= info < 32 ->
  u8 (Z.lor (u8 (Z.shiftl major 5)) info) = major * 32 + info.
Proof.
  intros. rewrite shiftl_pow by lia. change (2 ^ 5) with 32.
  rewrite (u8_id (major * 32)) by (unfold is_u8; lia).
  change 32 with (2 ^ 5). rewrite lor_disjoint by lia.
  apply u8_id. unfold is_u8. lia.
Qed.

(** The argument widths: additional information 24..27 announces 1, 2, 4 or 8
    argument bytes; [lo] is the least argument the encoder writes that way. *)
Inductive arg_size : Z -> nat -> Z -> Prop :=
| arg1 : arg_size 24 1 24
| arg2 : arg_size 25 2 256
| arg4 : arg_size 26 4 65536
| arg8 : arg_size 27 8 4294967296.

Lemma encode_head_form major n :
  0 <= major < 8 -> is_u64 n ->
  (n < 24 /\ encode_head major n [] = [major * 32 + n]) \/
  exists info k lo, arg_size info k lo /\ lo <= n < 256 ^ Z.of_nat k /\
    encode_head major n [] = (major * 32 + info) :: be_bytes k n.
Proof.
  intros Hm Hn. unfold is_u64 in Hn. unfold encode_head.
  change 0xff with 255; change 0xffff with 65535; change 0xffffffff with 4294967295.
  destruct (Z.ltb_spec n 24); [left|right].
  { split; [done|]. cbn [app]. by rewrite head_byte by lia. }
  destruct (Z.leb_spec n 255);
    [exists 24, 1%nat, 24|destruct (Z.leb_spec n 65535);
      [exists 25, 2%nat, 256|destruct (Z.leb_spec n 4294967295);
        [exists 26, 4%nat, 65536|exists 27, 8%nat, 4294967296]]];
    (split; [constructor|]); (split; [lia|]); cbn [app]; rewrite head_byte by lia;
    cbn [be_bytes]; by rewrite Z.shiftr_0_r.
Qed.

Lemma decode_head_arg major info k lo n rest :
  0 <= major < 8 -> arg_size info k lo -> 0 <= n < 256 ^ Z.of_nat k ->
  decode_head ((major * 32 + info) :: be_bytes k n ++ rest) = Some (major, n, rest).
Proof.
  intros Hm Ha Hn. unfold decode_head.
  assert (0 <= info < 32) as Hi by (destruct Ha; lia).
  rewrite Z.div_add_l, (Z.div_small info), Z.add_0_r by lia.
  rewrite (Z.add_comm (major * 32)), Z_mod_plus_full, (Z.mod_small info) by lia.
  assert (decode_arg major k (be_bytes k n ++ rest) = Some (major, n, rest)) as Hk.
  { unfold decode_arg. rewrite length_app, length_be_bytes.
    rewrite (proj2 (Nat.leb_le _ _)) by lia.
    rewrite take_app_length', drop_app_length' by (by rewrite length_be_bytes).
    by rewrite be_val_bytes. }
  by destruct Ha.
Qed.

Lemma decode_encode_head major n rest :
  0 <= major < 8 -> is_u64 n ->
  decode_head (encode_head major n [] ++ rest) = Some (major, n, rest).
Proof.
  intros Hm Hn.
  destruct (encode_head_form major n Hm Hn)
    as [[Hlt ->]|(info & k & lo & Ha & Hk & ->)].
  - cbn [app]. unfold is_u64 in Hn. unfold decode_head.
    rewrite Z.div_add_l, (Z.div_small n), Z.add_0_r by lia.
    rewrite (Z.add_comm (major * 32)), Z_mod_plus_full, (Z.mod_small n) by lia.
    by rewrite (proj2 (Z.ltb_lt n 24)) by lia.
  - cbn [app]. unfold is_u64 in Hn. eapply decode_head_arg; eauto with lia.
Qed.

Lemma be_val_bound l : bytes_ok l -> 0 <= be_val l < 256 ^ Z.of_nat (length l).
Proof.
  induction l as [|b l IH] using rev_ind; intros H; [unfold be_val; simpl; lia|].
  apply Forall_app in H as [Hl Hb]. apply Forall_cons_1 in Hb as [Hb _].
  unfold is_u8 in Hb. rewrite be_val_snoc, length_app, Nat.add_1_r.
  rewrite Nat2Z.inj_succ, Z.pow_succ_r by lia. specialize (IH Hl). lia.
Qed.

Lemma decode_arg_inv major k r m n rest :
  bytes_ok r -> decode_arg major k r = Some (m, n, rest) ->
  length r = (k + length rest)%nat /\ n < 256 ^ Z.of_nat k.
Proof.
  unfold decode_arg. intros Hr H. destruct (Nat.leb_spec k (length r)); [|done].
  simplify_eq. rewrite length_drop. split; [lia|].
  pose proof (be_val_bound (take k r) (Forall_take _ _ _ Hr)) as Hb.
  rewrite length_take_le in Hb by done. lia.
Qed.

Lemma decode_head_inv l major n rest :
  bytes_ok l -> decode_head l = Some (major, n, rest) ->
  exists k, length l = (1 + k + length rest)%nat /\
    (n < 24 \/ (1 <= k)%nat /\ n < 256 ^ Z.of_nat k) /\
    (k = 0 \/ k = 1 \/ k = 2 \/ k = 4 \/ k = 8)%nat.
Proof.
  intros Hl Hdec. destruct l as [|b r]; [done|]. unfold decode_head in Hdec.
  apply Forall_cons_1 in Hl as [_ Hr].
  repeat case_match; try done;
    try (apply decode_arg_inv in Hdec as [Hlen ?]; [|done]; simpl length; rewrite Hlen;
         eexists; split; [reflexivity|]; lia).
  simplify_eq. exists 0%nat. simpl. rewrite Z.ltb_lt in *. lia.
Qed.

(** Every byte string that decodes to a head is at least as long as the one the
    encoder emits. *)
Lemma encode_head_shortest major n l rest :
  0 <= major < 8 -> is_u64 n -> bytes_ok l ->
  decode_head l = Some (major, n, rest) ->
  (length (encode_head major n []) + length rest <= length l)%nat.
Proof.
  intros Hm Hn Hl Hdec.
  destruct (decode_head_inv l major n rest Hl Hdec) as (k & Hlen & Hk & Hkk).
  unfold is_u64 in Hn.
  destruct (encode_head_form major n Hm Hn)
    as [[Hlt ->]|(info & k' & lo & Ha & Hk' & ->)]; simpl; [lia|].
  rewrite length_be_bytes.
  destruct Ha; destruct Hkk as [->|[->|[->|[->| ->]]]]; simpl in *; try lia.
Qed.

(** ** The encoder appends *)

Lemma encode_text_app t out : encode_text t out = out ++ encode_text t [].
Proof. unfold encode_text. rewrite encode_head_app. by rewrite <- app_assoc. Qed.

Lemma foldl_append {A} (f : A -> list Z -> list Z) (l : list A) out :
  (forall x o, x ∈ l -> f x o = o ++ f x []) ->
  foldl (fun o x => f x o) out l = out ++ concat (map (fun x => f x []) l).
Proof.
  revert out. induction l as [|x l IH]; intros out Hf; simpl; [by rewrite app_nil_r|].
  rewrite IH by (intros; apply Hf; by constructor).
  rewrite (Hf x out) by constructor. by rewrite <- app_assoc.
Qed.

Definition entry_bytes (e : list Z * Value) : list Z := encode_text e.1 [] ++ encode e.2.

Definition entry_thunk (e : list Z * Value) : Encoded :=
  match e with (k, v) => mkEncoded (encode_text k []) (encode_val v) end.

Lemma sorted_thunks m :
  sort_by (fun a b => key_lt (key a) (key b)) (map entry_thunk m)
  = map entry_thunk (sort_by entry_lt m).
Proof. symmetry. apply sort_by_map. by intros [? ?] [? ?]. Qed.

Lemma encode_val_app v out : encode_val v out = out ++ encode v.
Proof.
  revert out. unfold encode. induction v as [i|t|b|l IH|m IH] using value_nested_ind;
    intros out; cbn [encode_val].
  - unfold encode_int. case_match; apply encode_head_app.
  - apply encode_text_app.
  - rewrite encode_head_app. by rewrite <- app_assoc.
  - rewrite Forall_forall in IH.
    rewrite !(foldl_append encode_val) by (intros; by apply IH).
    rewrite (encode_head_app 4 _ out). by rewrite <- app_assoc.
  - fold entry_thunk. rewrite sorted_thunks, length_map.
    assert (forall e o, e ∈ map entry_thunk (sort_by entry_lt m) ->
      value e (o ++ key e) = o ++ value e ([] ++ key e)) as Hf.
    { intros e o He. apply list_elem_of_fmap in He as ([k v] & -> & He).
      rewrite sort_by_perm in He. rewrite Forall_forall in IH.
      pose proof (IH _ He) as Hv. simpl in *.
      rewrite (Hv (o ++ _)), (Hv (encode_text k [])).
      by rewrite <- app_assoc. }
    rewrite !(foldl_append (fun e o => value e (o ++ key e))) by done.
    rewrite (encode_head_app 5 _ out). by rewrite <- app_assoc.
Qed.

Lemma encode_arr l :
  encode (kArr l) = encode_head 4 (Z.of_nat (length l)) [] ++ concat (map encode l).
Proof.
  unfold encode at 1. cbn [encode_val].
  rewrite (foldl_append encode_val) by (intros; apply encode_val_app). done.
Qed.

Lemma encode_map m :
  encode (kMap m) = encode_head 5 (Z.of_nat (length m)) []
                    ++ concat (map entry_bytes (sort_by entry_lt m)).
Proof.
  unfold encode at 1. cbn [encode_val]. fold entry_thunk.
  rewrite sorted_thunks, length_map, (Permutation_length (sort_by_perm entry_lt m)).
  rewrite (foldl_append (fun e o => value e (o ++ key e))).
  - f_equal. rewrite map_map. f_equal. apply map_ext. intros [k v]. apply encode_val_app.
  - intros e o He. apply list_elem_of_fmap in He as ([k v] & -> & He). simpl.
    rewrite !(encode_val_app v). by rewrite <- app_assoc.
Qed.

(** ** The output is a byte string *)

Lemma encode_head_ok major n : bytes_ok (encode_head major n []).
Proof.
  unfold encode_head. repeat case_match; repeat (apply Forall_cons; split);
    auto with sonar; try apply be_bytes_ok; constructor.
Qed.

Lemma encode_text_ok t : bytes_ok t -> bytes_ok (encode_text t []).
Proof. intros. apply Forall_app. split; [apply encode_head_ok|done]. Qed.

(** All strings and keys of a value are byte strings. *)
#[local] Unset Elimination Schemes.
Inductive vbytes : Value -> Prop :=
| vb_int i : vbytes (kInt i)
| vb_str s : bytes_ok s -> vbytes (kStr s)
| vb_bytes s : bytes_ok s -> vbytes (kBytes s)
| vb_arr l : Forall vbytes l -> vbytes (kArr l)
| vb_map m : Forall (fun e => bytes_ok e.1 /\ vbytes e.2) m -> vbytes (kMap m).
#[local] Set Elimination Schemes.

Lemma concat_ok (ls : list (list Z)) : Forall bytes_ok ls -> bytes_ok (concat ls).
Proof. induction 1; simpl; [constructor | apply Forall_app; by split]. Qed.

Lemma encode_ok v : vbytes v -> bytes_ok (encode v).
Proof.
  induction v as [i|t|b|l IH|m IH] using value_nested_ind; intros Hv; inversion Hv; subst.
  - unfold encode, encode_val, encode_int. case_match; apply encode_head_ok.
  - by apply encode_text_ok.
  - apply Forall_app. split; [apply encode_head_ok|done].
  - rewrite encode_arr. apply Forall_app. split; [apply encode_head_ok|].
    apply concat_ok, Forall_map. rewrite Forall_forall in *. auto.
  - rewrite encode_map. apply Forall_app. split; [apply encode_head_ok|].
    apply concat_ok, Forall_map. rewrite (sort_by_perm entry_lt m).
    rewrite Forall_forall in *. intros e He. apply Forall_app.
    split; [apply encode_text_ok|]; naive_solver.
Qed.

(** ** Decoding what was encoded *)

Lemma decode_string_app t rest :
  decode_string (Z.of_nat (length t)) (t ++ rest) = Some (t, rest).
Proof.
  unfold decode_string. rewrite length_app.
  rewrite (proj2 (Z.leb_le _ _)) by lia. rewrite Nat2Z.id.
  by rewrite take_app_length, drop_app_length.
Qed.

Lemma len64_u64 {A} (l : list A) : len64 l = true -> is_u64 (Z.of_nat (length l)).
Proof. unfold len64, is_u64. intros ?%Z.ltb_lt. lia. Qed.

Lemma decode_encode_text t rest :
  len64 t = true -> decode_text (encode_text t [] ++ rest) = Some (t, rest).
Proof.
  intros H. unfold decode_text, encode_text. rewrite <- app_assoc.
  rewrite decode_encode_head by (lia || by apply len64_u64). simpl.
  apply decode_string_app.
Qed.

Lemma decode_seq_app {A B} (dec : list Z -> option (B * list Z)) (enc : A -> list Z)
    (f : A -> B) (l : list A) rest :
  (forall x r, x ∈ l -> dec (enc x ++ r) = Some (f x, r)) ->
  decode_seq dec (length l) (concat (map enc l) ++ rest) = Some (map f l, rest).
Proof.
  induction l as [|x l IH]; intros Hd; simpl; [done|].
  rewrite <- app_assoc, Hd by constructor. simpl.
  rewrite IH by (intros; apply Hd; by constructor). done.
Qed.

Lemma vdepth_arr l x n : x ∈ l -> (vdepth (kArr l) <= S n)%nat -> (vdepth x <= n)%nat.
Proof.
  simpl. intros Hx H. apply le_S_n in H. revert H.
  induction Hx; simpl; intros; [lia|]. apply IHHx. lia.
Qed.
Lemma vdepth_map (m : list (list Z * Value)) e n :
  e ∈ m -> (vdepth (kMap m) <= S n)%nat -> (vdepth e.2 <= n)%nat.
Proof.
  simpl. intros Hx H. apply le_S_n in H. revert H.
  induction Hx as [[k v] m|[k v] e' m Hx IH]; simpl; intros; [lia|].
  destruct e'. apply IH. lia.
Qed.

Lemma wf_arr l x : wf (kArr l) = true -> x ∈ l -> wf x = true.
Proof.
  simpl. intros [_ H]%andb_prop Hx. rewrite forallb_forall in H.
  apply H. by apply list_elem_of_In.
Qed.
Lemma wf_map m e : wf (kMap m) = true -> e ∈ m -> len64 e.1 = true /\ wf e.2 = true.
Proof.
  simpl. intros [_ H]%andb_prop Hx. rewrite forallb_forall in H.
  apply list_elem_of_In in Hx. specialize (H _ Hx). destruct e. by apply andb_prop.
Qed.

Lemma decode_encode_gen v fuel rest :
  wf v = true -> (vdepth v <= fuel)%nat ->
  decode fuel (encode v ++ rest) = Some (canon v, rest).
Proof.
  revert fuel rest.
  induction v as [i|t|b|l IH|m IH] using value_nested_ind; intros fuel rest Hwf Hf;
    (destruct fuel as [|fuel]; [simpl in Hf; lia|]).
  - apply andb_prop in Hwf as [Hlo%Z.leb_le Hhi%Z.ltb_lt].
    unfold encode. cbn [encode_val encode_int decode]. unfold encode_int.
    destruct (Z.leb_spec 0 i); rewrite u64_id by (unfold is_u64; lia);
      rewrite decode_encode_head by (unfold is_u64; lia); simpl; do 3 f_equal; lia.
  - unfold encode. cbn [encode_val decode]. unfold encode_text. rewrite <- app_assoc.
    rewrite decode_encode_head by (lia || by apply len64_u64). simpl.
    by rewrite decode_string_app.
  - unfold encode. cbn [encode_val decode]. rewrite <- app_assoc.
    rewrite decode_encode_head by (lia || by apply len64_u64). simpl.
    by rewrite decode_string_app.
  - rewrite encode_arr, <- app_assoc. cbn [decode].
    rewrite decode_encode_head by
      (lia || apply len64_u64; by apply andb_prop in Hwf as [? _]).
    simpl. rewrite Nat2Z.id. rewrite Forall_forall in IH.
    rewrite (decode_seq_app _ encode canon); [done|].
    intros x r Hx. apply IH; [done| by eapply wf_arr | by eapply vdepth_arr].
  - rewrite encode_map, <- app_assoc. cbn [decode].
    rewrite decode_encode_head by
      (lia || apply len64_u64; by apply andb_prop in Hwf as [? _]).
    simpl. rewrite Nat2Z.id. rewrite Forall_forall in IH.
    rewrite <- (Permutation_length (sort_by_perm entry_lt m)).
    rewrite (decode_seq_app _ entry_bytes (fun e => match e with (k, v) => (k, canon v) end)).
    + simpl. do 3 f_equal. apply sort_by_map. by intros [? ?] [? ?].
    + intros [k v] r Hx. rewrite sort_by_perm in Hx.
      destruct (wf_map _ _ Hwf Hx) as [Hk Hv].
      unfold entry_bytes. rewrite <- app_assoc. simpl in *.
      rewrite decode_encode_text by done. simpl.
      pose proof (IH _ Hx fuel r Hv (vdepth_map _ _ _ Hx Hf)) as Hd.
      simpl in Hd. by rewrite Hd.
Qed.

(** ** Order of map entries *)

Lemma encode_head_inj_len a b :
  is_u64 a -> is_u64 b -> encode_head 3 a [] = encode_head 3 b [] -> a = b.
Proof.
  intros Ha Hb H. pose proof (decode_encode_head 3 a [] ltac:(lia) Ha) as H1.
  rewrite H, decode_encode_head in H1 by (lia || done). by simplify_eq.
Qed.

Lemma encode_text_inj a b :
  len64 a = true -> len64 b = true -> encode_text a [] = encode_text b [] -> a = b.
Proof.
  intros Ha Hb H. pose proof (decode_encode_text a [] Ha) as H1.
  rewrite H, decode_encode_text in H1 by done. by simplify_eq.
Qed.

#[export] Instance key_lt_strict : StrictWeak key_lt.
Proof.
  split; unfold key_lt.
  - intros x y. destruct (Nat.eqb_spec (length x) (length y)) as [Heq|Hne].
    + rewrite <- Heq, Nat.eqb_refl. apply (sw_asym bytes_lt).
    + destruct (Nat.eqb_spec (length y) (length x)); [lia|].
      rewrite Nat.ltb_lt, Nat.ltb_ge. lia.
  - intros x y z.
    destruct (Nat.eqb_spec (length y) (length x)), (Nat.eqb_spec (length z) (length y)),
      (Nat.eqb_spec (length z) (length x)); rewrite ?Nat.ltb_ge; try lia.
    apply (sw_trans bytes_lt).
Qed.

Lemma key_lt_total a b : key_lt a b = false -> key_lt b a = false -> a = b.
Proof.
  unfold key_lt. rewrite (Nat.eqb_sym (length b)).
  destruct (Nat.eqb_spec (length a) (length b)); [apply bytes_lt_total|].
  rewrite !Nat.ltb_ge. lia.
Qed.

#[export] Instance entry_lt_strict : StrictWeak entry_lt.
Proof.
  split; unfold entry_lt; intros; [by apply (sw_asym key_lt) | by eapply (sw_trans key_lt)].
Qed.

Lemma entries_unique (m : list (list Z * Value)) :
  NoDup m.*1 -> Forall (fun e => len64 e.1 = true) m ->
  forall x y, x ∈ m -> y ∈ m -> entry_lt x y = false -> entry_lt y x = false -> x = y.
Proof.
  intros Hnd Hl x y Hx Hy H1 H2.
  assert (x.1 = y.1) as Hk.
  { rewrite Forall_forall in Hl. apply encode_text_inj; auto. by apply key_lt_total. }
  apply list_elem_of_lookup in Hx as [i Hi]. apply list_elem_of_lookup in Hy as [j Hj].
  assert (i = j) as ->; [|congruence].
  eapply (NoDup_lookup m.*1); eauto; rewrite list_lookup_fmap;
    [by rewrite Hi | by rewrite Hj, Hk].
Qed.

Lemma sort_entries_perm m1 m2 :
  m1 ≡ₚ m2 -> NoDup m1.*1 -> Forall (fun e => len64 e.1 = true) m1 ->
  sort_by entry_lt m1 = sort_by entry_lt m2.
Proof.
  intros Hp Hnd Hl. apply (sorted_perm_unique entry_lt).
  - by rewrite !sort_by_perm.
  - intros x y. rewrite sort_by_perm. by apply entries_unique.
  - apply sort_by_sorted, _.
  - apply sort_by_sorted, _.
Qed.

(** [C20] Decoding inverts encoding: for every value whose integers fit [int64_t]
    and whose sizes fit [uint64_t], a standard CBOR decoder applied to the
    encoder's output, whatever follows it, returns the value with its map
    entries in canonical order and the untouched rest. *)
Theorem cbor_decode_encode (v : Value) (rest : list Z) :
  wf v = true -> decode (vdepth v) (encode v ++ rest) = Some (canon v, rest).
Proof. intros. by apply decode_encode_gen. Qed.

Definition sample : Value :=
  MakeMap [([110; 97], Arr [Int (-1); Int 500; Int (2 ^ 40)]);
           ([97], Str [120; 121]); ([98], Bytes [0; 255])].

Lemma cbor_decode_encode_witness :
  wf sample = true /\
  decode (vdepth sample) (encode sample ++ [7]) = Some (canon sample, [7]).
Proof. split; [reflexivity|]. apply cbor_decode_encode. reflexivity. Defined.

(** The encoding is injective up to map order and prefix-free: two values
    whose encodings agree on a common byte string have the same canonical form
    and end at the same place. *)
Theorem cbor_prefix_free (v1 v2 : Value) (r1 r2 : list Z) :
  wf v1 = true -> wf v2 = true -> encode v1 ++ r1 = encode v2 ++ r2 ->
  canon v1 = canon v2 /\ r1 = r2.
Proof.
  intros H1 H2 He. set (n := Nat.max (vdepth v1) (vdepth v2)).
  pose proof (decode_encode_gen v1 n r1 H1 ltac:(lia)) as D1.
  pose proof (decode_encode_gen v2 n r2 H2 ltac:(lia)) as D2.
  rewrite He, D2 in D1. by simplify_eq.
Qed.

Lemma cbor_prefix_free_witness :
  let v1 := MakeMap [([98], Int 1); ([97], Int 2)] in
  let v2 := MakeMap [([97], Int 2); ([98], Int 1)] in
  encode v1 ++ [9] = encode v2 ++ [9] /\ canon v1 = canon v2.
Proof.
  intros v1 v2. split; [reflexivity|].
  apply (cbor_prefix_free v1 v2 [9] [9]); reflexivity.
Defined.

(** The encoding of a map does not depend on the order in which its entries
    were given, provided the keys are distinct. *)
Theorem cbor_map_order_independent (m1 m2 : list (list Z * Value)) :
  m1 ≡ₚ m2 -> NoDup m1.*1 -> Forall (fun e => len64 e.1 = true) m1 ->
  encode (MakeMap m1) = encode (MakeMap m2).
Proof.
  intros Hp Hnd Hl. unfold MakeMap. rewrite !encode_map.
  by rewrite (sort_entries_perm m1 m2), (Permutation_length Hp).
Qed.

Lemma cbor_map_order_independent_witness :
  let m1 := [([98; 98], Int 1); ([97], Int 2); ([99], Arr [])] in
  let m2 := [([99], Arr []); ([98; 98], Int 1); ([97], Int 2)] in
  encode (MakeMap m1) = encode (MakeMap m2).
Proof.
  intros m1 m2. apply cbor_map_order_independent.
  - apply (Permutation_app_comm [_; _] [_]).
  - unfold m1. simpl. by apply (bool_decide_unpack _); vm_compute.
  - by repeat constructor.
Defined.

(** Heads are in shortest form: no byte string that a decoder reads as the
    same major type and argument is shorter than the one emitted. *)
Theorem cbor_head_shortest (major n : Z) (l : list Z) :
  0 <= major < 8 -> is_u64 n -> bytes_ok l ->
  decode_head l = Some (major, n, []) ->
  (length (encode_head major n []) <= length l)%nat.
Proof.
  intros Hm Hn Hl Hd. pose proof (encode_head_shortest major n l [] Hm Hn Hl Hd).
  simpl in *. lia.
Qed.

Lemma cbor_head_shortest_witness :
  decode_head [0x3a; 0; 0; 1; 0] = Some (1, 256, []) /\
  (length (encode_head 1 256 []) <= length [0x3a; 0; 0; 1; 0]%Z)%nat.
Proof.
  split; [reflexivity|]. apply (cbor_head_shortest 1 256).
  - lia.
  - unfold is_u64. lia.
  - repeat constructor; done.
  - reflexivity.
Defined.

End Cbor.
