(* ===== verification/Sha256.v ===== *)
(** * SHA-256, HMAC and HKDF ([csrc/proof/crypto.cpp], lines 23-187)

    The incremental hash context as the source keeps it (chaining state, byte
    count, a 64-byte buffer whose tail is stale or uninitialised), [update] and
    [finish] with their loops, and the two constructions built on it.  The
    context is related to the message it has absorbed by [absorbed]; every
    theorem on the hash goes through that relation. *)

From S2P Require Import Prelude.

#[local] Open Scope Z_scope.

Module Sha256.

Notation "x +w y" := (u32 (x + y)) (at level 50, left associativity).

(** The eight 32-bit words of a 256-bit literal, most significant first. *)
Definition unpack_row (row : Z) : list Z :=
  map (fun i => u32 (Z.shiftr row (32 * (7 - Z.of_nat i)))) (seq 0 8).

(** The 64 constants, eight words per row (the underscores separate the words). *)
Definition kSha256K : list Z := Eval cbv in flat_map unpack_row [
  0x428a2f98_71374491_b5c0fbcf_e9b5dba5_3956c25b_59f111f1_923f82a4_ab1c5ed5;
  0xd807aa98_12835b01_243185be_550c7dc3_72be5d74_80deb1fe_9bdc06a7_c19bf174;
  0xe49b69c1_efbe4786_0fc19dc6_240ca1cc_2de92c6f_4a7484aa_5cb0a9dc_76f988da;
  0x983e5152_a831c66d_b00327c8_bf597fc7_c6e00bf3_d5a79147_06ca6351_14292967;
  0x27b70a85_2e1b2138_4d2c6dfc_53380d13_650a7354_766a0abb_81c2c92e_92722c85;
  0xa2bfe8a1_a81a664b_c24b8b70_c76c51a3_d192e819_d6990624_f40e3585_106aa070;
  0x19a4c116_1e376c08_2748774c_34b0bcb5_391c0cb3_4ed8aa4a_5b9cca4f_682e6ff3;
  0x748f82ee_78a5636f_84c87814_8cc70208_90befffa_a4506ceb_bef9a3f7_c67178f2].

Definition kInit : list Z := [
  0x6a09e667; 0xbb67ae85; 0x3c6ef372; 0xa54ff53a;
  0x510e527f; 0x9b05688c; 0x1f83d9ab; 0x5be0cd19].

Definition rotr (x n : Z) : Z := Z.lor (Z.shiftr x n) (u32 (Z.shiftl x (32 - n))).

(** [~e] on [uint32_t]. *)
Definition not32 (x : Z) : Z := u32 (Z.lnot x).

(** ** The compression function *)

(** [w[i]] for [i < 16]: four big-endian bytes of the block. *)
Definition load_word (block : list Z) (i : nat) : Z :=
  Z.lor (Z.lor (Z.lor (Z.shiftl (block !!! (4 * i)%nat) 24)
                      (Z.shiftl (block !!! (4 * i + 1)%nat) 16))
               (Z.shiftl (block !!! (4 * i + 2)%nat) 8))
        (block !!! (4 * i + 3)%nat).

Definition extend_word (w : list Z) (i : nat) : Z :=
  let w15 := w !!! (i - 15)%nat in
  let w2 := w !!! (i - 2)%nat in
  let s0 := Z.lxor (Z.lxor (rotr w15 7) (rotr w15 18)) (Z.shiftr w15 3) in
  let s1 := Z.lxor (Z.lxor (rotr w2 17) (rotr w2 19)) (Z.shiftr w2 10) in
  w !!! (i - 16)%nat +w s0 +w w !!! (i - 7)%nat +w s1.

(** The array [w], filled in index order. *)
Definition schedule (block : list Z) : list Z :=
  foldl (fun w i => w ++ [extend_word w i])
        (map (load_word block) (seq 0 16)) (seq 16 48).

Record regs := mkRegs
  { ra : Z; rb : Z; rc : Z; rd : Z; re : Z; rf : Z; rg : Z; rh : Z }.

Definition round (w : list Z) (r : regs) (i : nat) : regs :=
  let 'mkRegs a b c d e f g h := r in
  let s1 := Z.lxor (Z.lxor (rotr e 6) (rotr e 11)) (rotr e 25) in
  let ch := Z.lxor (Z.land e f) (Z.land (not32 e) g) in
  let temp1 := h +w s1 +w ch +w kSha256K !!! i +w w !!! i in
  let s0 := Z.lxor (Z.lxor (rotr a 2) (rotr a 13)) (rotr a 22) in
  let maj := Z.lxor (Z.lxor (Z.land a b) (Z.land a c)) (Z.land b c) in
  let temp2 := s0 +w maj in
  mkRegs (temp1 +w temp2) a b c (d +w temp1) e f g.

(** [process_block]: the new chaining state. *)
Definition process_block (state block : list Z) : list Z :=
  let w := schedule block in
  let r0 := mkRegs (state !!! 0%nat) (state !!! 1%nat) (state !!! 2%nat)
    (state !!! 3%nat) (state !!! 4%nat) (state !!! 5%nat) (state !!! 6%nat)
    (state !!! 7%nat) in
  let r := foldl (round w) r0 (seq 0 64) in
  [state !!! 0%nat +w ra r; state !!! 1%nat +w rb r;
   state !!! 2%nat +w rc r; state !!! 3%nat +w rd r;
   state !!! 4%nat +w re r; state !!! 5%nat +w rf r;
   state !!! 6%nat +w rg r; state !!! 7%nat +w rh r].

(** ** The context *)

Record Sha256Ctx := mkCtx
  { state : list Z; total_len : Z; buffer : list Z; buffer_len : nat }.

(** The constructor leaves [buffer] uninitialised: [junk] is whatever the memory
    held. *)
Definition ctx_new (junk : list Z) : Sha256Ctx := mkCtx kInit 0 junk 0.

(** [while (len >= 64) { process_block(data); data += 64; len -= 64; }] *)
Fixpoint absorb_blocks (fuel : nat) (st data : list Z) : list Z * list Z :=
  match fuel with
  | O => (st, data)
  | S fuel =>
      if Nat.leb 64 (length data)
      then absorb_blocks fuel (process_block st (take 64 data)) (drop 64 data)
      else (st, data)
  end.

(** The part of [update] that tops up a partly filled buffer. *)
Definition fill_buffer (c : Sha256Ctx) (data : list Z) : Sha256Ctx * list Z :=
  if Nat.ltb 0 (buffer_len c) then
    let tk := Nat.min (length data) (64 - buffer_len c) in
    let buf := memcpy (buffer c) (buffer_len c) (take tk data) in
    let bl := (buffer_len c + tk)%nat in
    let data := drop tk data in
    if Nat.eqb bl 64 then (mkCtx (process_block (state c) buf) (total_len c) buf 0, data)
    else (mkCtx (state c) (total_len c) buf bl, data)
  else (c, data).

Definition update (c : Sha256Ctx) (data : list Z) : Sha256Ctx :=
  let c := mkCtx (state c) (u64 (total_len c + Z.of_nat (length data)))
                 (buffer c) (buffer_len c) in
  let '(c, data) := fill_buffer c data in
  let '(st, data) := absorb_blocks (length data) (state c) data in
  if Nat.ltb 0 (length data)
  then mkCtx st (total_len c) (memcpy (buffer c) 0 data) (length data)
  else mkCtx st (total_len c) (buffer c) (buffer_len c).

(** [while (buffer_len != 56) update(&zero, 1);] *)
Fixpoint pad_zeros (fuel : nat) (c : Sha256Ctx) : Sha256Ctx :=
  match fuel with
  | O => c
  | S fuel => if Nat.eqb (buffer_len c) 56 then c else pad_zeros fuel (update c [0])
  end.

Definition finish (c : Sha256Ctx) : list Z :=
  let bit_len := u64 (total_len c * 8) in
  let c := update c [0x80] in
  let c := pad_zeros 65 c in
  let c := update c (be_bytes 8 bit_len) in
  flat_map (be_bytes 4) (take 8 (state c)).

Definition sha256 (junk data : list Z) : list Z := finish (update (ctx_new junk) data).

(** ** HMAC and HKDF *)

Definition hmac_sha256 (junk key data : list Z) : list Z :=
  let key_block :=
    if Nat.ltb 64 (length key) then memcpy (replicate 64 0) 0 (sha256 junk key)
    else memcpy (replicate 64 0) 0 key in
  let ipad := map (fun b => Z.lxor b 0x36) key_block in
  let opad := map (fun b => Z.lxor b 0x5c) key_block in
  let inner := finish (update (update (ctx_new junk) ipad) data) in
  finish (update (update (ctx_new junk) opad) inner).

Definition hkdf_sha256_32 (junk ikm info : list Z) : list Z :=
  let salt := replicate 32 0 in
  let prk := hmac_sha256 junk salt ikm in
  let block := info ++ [0x01] in
  hmac_sha256 junk prk block.

(** ** Specification: FIPS 180-4 section 5 and 6.2, one shot over the message *)

Fixpoint blocks (n : nat) (l : list Z) : list (list Z) :=
  match n with
  | O => []
  | S n => take 64 l :: blocks n (drop 64 l)
  end.

Definition pad (msg : list Z) : list Z :=
  msg ++ [0x80]
      ++ replicate (Z.to_nat ((55 - Z.of_nat (length msg)) mod 64)) 0
      ++ be_bytes 8 (u64 (8 * Z.of_nat (length msg))).

Definition hash (msg : list Z) : list Z :=
  let p := pad msg in
  flat_map (be_bytes 4) (foldl process_block kInit (blocks (length p / 64) p)).

(** RFC 2104 over [hash], with the key zero-padded to the block size. *)
Definition hmac (key data : list Z) : list Z :=
  let k := if Nat.ltb 64 (length key) then hash key else key in
  let k0 := k ++ replicate (64 - length k) 0 in
  hash (map (fun b => Z.lxor b 0x5c) k0
        ++ hash (map (fun b => Z.lxor b 0x36) k0 ++ data)).

(** RFC 5869 with the default salt and one output block. *)
Definition hkdf (ikm info : list Z) : list Z :=
  hmac (hmac (replicate 32 0) ikm) (info ++ [1]).

(** ** The context represents the message absorbed so far *)

Definition full (m : list Z) : nat := (length m / 64)%nat.

Record core (c : Sha256Ctx) (m : list Z) : Prop := {
  core_state : state c = foldl process_block kInit (blocks (full m) m);
  core_blen : buffer_len c = (length m mod 64)%nat;
  core_buf : take (buffer_len c) (buffer c) = drop (64 * full m) m;
  core_cap : length (buffer c) = 64%nat
}.

Definition absorbed (c : Sha256Ctx) (m : list Z) : Prop :=
  core c m /\ total_len c = u64 (Z.of_nat (length m)).

Lemma blocks_app n l r : (64 * n <= length l)%nat -> blocks n (l ++ r) = blocks n l.
Proof.
  revert l. induction n as [|n IH]; intros l H; simpl; [done|].
  rewrite take_app_le, drop_app_le by lia. f_equal. apply IH.
  rewrite length_drop. lia.
Qed.

Lemma blocks_add n k l : blocks (n + k) l = blocks n l ++ blocks k (drop (64 * n) l).
Proof.
  revert l. induction n as [|n IH]; intros l; [done|].
  cbn [blocks Nat.add app]. rewrite IH, drop_drop.
  by replace (64 * S n)%nat with (64 + 64 * n)%nat by lia.
Qed.

Lemma absorb_blocks_spec fuel st data :
  (length data / 64 <= fuel)%nat ->
  absorb_blocks fuel st data
  = (foldl process_block st (blocks (length data / 64) data),
     drop (64 * (length data / 64)) data).
Proof.
  revert st data. induction fuel as [|fuel IH]; intros st data H.
  { assert (length data / 64 = 0)%nat as -> by lia. done. }
  cbn [absorb_blocks]. destruct (Nat.leb_spec 64 (length data)).
  - assert (length data / 64 = S (length (drop 64 data) / 64))%nat as E.
    { rewrite length_drop. replace (length data) with (1 * 64 + (length data - 64))%nat at 1 by lia.
      rewrite Nat.div_add_l by lia. lia. }
    rewrite IH by lia. rewrite E. cbn [blocks foldl]. rewrite drop_drop.
    by replace (64 * S (length (drop 64 data) / 64))%nat
      with (64 + 64 * (length (drop 64 data) / 64))%nat by lia.
  - rewrite (Nat.div_small (length data)) by lia. done.
Qed.

Lemma length_full m : (64 * full m <= length m)%nat.
Proof. unfold full. pose proof (Nat.div_mod_eq (length m) 64). lia. Qed.

Lemma full_rest m : length (drop (64 * full m) m) = (length m mod 64)%nat.
Proof. rewrite length_drop. unfold full. pose proof (Nat.div_mod_eq (length m) 64). lia. Qed.

Ltac ctx_simpl := cbn [state total_len buffer buffer_len fst snd] in *.

(** Absorbing data when the buffer is empty. *)
Lemma absorb_aligned c m data tl :
  core c m -> buffer_len c = 0%nat ->
  let '(st, rest) := absorb_blocks (length data) (state c) data in
  core (if Nat.ltb 0 (length rest)
        then mkCtx st tl (memcpy (buffer c) 0 rest) (length rest)
        else mkCtx st tl (buffer c) (buffer_len c)) (m ++ data).
Proof.
  intros [Hst Hbl Hbuf Hcap] H0. rewrite absorb_blocks_spec by (apply Nat.Div0.div_le_upper_bound; lia).
  assert (length m = 64 * full m)%nat as Hm.
  { rewrite H0 in Hbl. unfold full. pose proof (Nat.div_mod_eq (length m) 64). lia. }
  assert (full (m ++ data) = full m + full data)%nat as Hf.
  { unfold full at 1. rewrite length_app, Hm, (Nat.mul_comm 64), Nat.div_add_l by lia. done. }
  assert (drop (64 * full m) (m ++ data) = data) as Hd by (by apply drop_app_length').
  assert (drop (64 * full (m ++ data)) (m ++ data) = drop (64 * full data) data) as Hr.
  { rewrite Hf, Nat.mul_add_distr_l, <- drop_drop, Hd. done. }
  assert (length (m ++ data) mod 64 = length data mod 64)%nat as Hmod.
  { rewrite length_app, Hm, (Nat.mul_comm 64), Nat.add_comm. apply Nat.Div0.mod_add. }
  fold (full data). pose proof (full_rest data) as Hl.
  assert (foldl process_block (state c) (blocks (full data) data)
          = foldl process_block kInit (blocks (full (m ++ data)) (m ++ data))) as Hs.
  { rewrite Hf, blocks_add, blocks_app, Hd, foldl_app, <- Hst by lia. done. }
  set (rest := drop (64 * full data) data) in *.
  assert (length data mod 64 < 64)%nat by (apply Nat.mod_upper_bound; lia).
  destruct (Nat.ltb_spec 0 (length rest)); split; ctx_simpl;
    rewrite ?Hmod, ?Hr; try done.
  - apply (take_memcpy (buffer c) 0). lia.
  - by rewrite length_memcpy by (simpl; lia).
  - lia.
  - rewrite H0. destruct rest; [done | simpl in *; lia].
Qed.

Lemma core_tl c m tl : core c m -> core (mkCtx (state c) tl (buffer c) (buffer_len c)) m.
Proof. by intros [????]; split. Qed.

(** Topping up the buffer absorbs a prefix of the data; either everything has
    been absorbed or the buffer is empty again. *)
Lemma fill_buffer_spec c m data :
  core c m ->
  exists pre, data = pre ++ (fill_buffer c data).2 /\
    core (fill_buffer c data).1 (m ++ pre) /\
    total_len (fill_buffer c data).1 = total_len c /\
    ((fill_buffer c data).2 = [] \/ buffer_len (fill_buffer c data).1 = 0%nat).
Proof.
  intros Hc. pose proof Hc as [Hst Hbl Hbuf Hcap]. unfold fill_buffer.
  destruct (Nat.ltb_spec 0 (buffer_len c)) as [Hpos|Hz].
  2: { exists []. rewrite app_nil_r. split; [done|]. split; [done|]. split; [done|]. right. ctx_simpl. lia. }
  set (tk := Nat.min (length data) (64 - buffer_len c)).
  exists (take tk data).
  assert (buffer_len c < 64)%nat by (rewrite Hbl; apply Nat.mod_upper_bound; lia).
  assert (length (take tk data) = tk) as Htk by (rewrite length_take; lia).
  assert (length (m ++ take tk data) = 64 * full m + (buffer_len c + tk))%nat as Hlen.
  { rewrite length_app, Htk, Hbl. unfold full. pose proof (Nat.div_mod_eq (length m) 64). lia. }
  pose proof (take_memcpy (buffer c) (buffer_len c) (take tk data) ltac:(lia)) as Hm.
  pose proof (length_memcpy (buffer c) (buffer_len c) (take tk data) ltac:(lia)) as Hlm.
  rewrite Htk, Hbuf in Hm. pose proof (length_full m).
  destruct (Nat.eqb_spec (buffer_len c + tk) 64) as [He|Hne]; ctx_simpl;
    (split; [by rewrite take_drop|]); (split; [|split; [done|]]).
  - assert (full (m ++ take tk data) = full m + 1)%nat as Hf.
    { unfold full at 1. rewrite Hlen, He, (Nat.mul_comm 64), Nat.div_add_l by lia. done. }
    split; ctx_simpl.
    + rewrite Hf, blocks_add, blocks_app, foldl_app, <- Hst by lia. cbn [blocks foldl].
      f_equal. rewrite drop_app_le by lia.
      rewrite He in Hm. rewrite <- (take_ge (memcpy _ _ _) 64) by lia.
      rewrite Hm. symmetry. apply take_ge.
      rewrite length_app, full_rest, Htk, <- Hbl. lia.
    + rewrite Hlen, He. replace (64 * full m + 64)%nat with ((full m + 1) * 64)%nat by lia.
      by rewrite Nat.Div0.mod_mul.
    + rewrite Hf, drop_ge; [done|]. rewrite Hlen. lia.
    + lia.
  - by right.
  - assert (full (m ++ take tk data) = full m) as Hf.
    { unfold full at 1. rewrite Hlen, (Nat.mul_comm 64), Nat.div_add_l by lia.
      rewrite Nat.div_small by lia. lia. }
    split; ctx_simpl.
    + by rewrite Hf, blocks_app by lia.
    + rewrite Hlen.
      replace (64 * full m + (buffer_len c + tk))%nat
        with (buffer_len c + tk + full m * 64)%nat by lia.
      rewrite Nat.Div0.mod_add, Nat.mod_small by lia. done.
    + rewrite Hf, Hm, drop_app_le by lia. done.
    + lia.
  - left. apply drop_ge. lia.
Qed.

Lemma update_absorbed c m data : absorbed c m -> absorbed (update c data) (m ++ data).
Proof.
  intros [Hc Htl]. unfold update.
  set (tl := u64 (total_len c + Z.of_nat (length data))).
  pose proof (fill_buffer_spec _ _ data (core_tl c m tl Hc)) as (pre & Hd & Hc' & Ht & Hor).
  destruct (fill_buffer _ data) as [c' rest]. ctx_simpl.
  assert (tl = u64 (Z.of_nat (length (m ++ data)))) as Htl'.
  { unfold tl. rewrite Htl, length_app, Nat2Z.inj_add. unfold u64.
    by rewrite Zplus_mod_idemp_l. }
  assert (m ++ data = (m ++ pre) ++ rest) as E by (rewrite <- app_assoc; congruence).
  rewrite E in *. clear E.
  destruct (decide (rest = [])) as [->|Hne].
  - split; simpl; [|congruence]. rewrite app_nil_r. by destruct Hc'; split.
  - destruct Hor as [?|H0]; [done|].
    pose proof (absorb_aligned c' (m ++ pre) rest (total_len c') Hc' H0) as Ha.
    destruct (absorb_blocks _ _ _) as [st r']. split; [done|].
    case_match; simpl; congruence.
Qed.


Lemma new_absorbed junk : length junk = 64%nat -> absorbed (ctx_new junk) [].
Proof.
  intros H. split; [split; [reflexivity|reflexivity|reflexivity|exact H]|reflexivity].
Qed.

(** The padding loop stops, at the first length that is 56 modulo 64. *)
Lemma pad_zeros_absorbed fuel c m :
  absorbed c m ->
  (Z.to_nat ((56 - Z.of_nat (length m)) mod 64) < fuel)%nat ->
  absorbed (pad_zeros fuel c)
    (m ++ replicate (Z.to_nat ((56 - Z.of_nat (length m)) mod 64)) 0).
Proof.
  revert c m. induction fuel as [|fuel IH]; intros c m Ha Hf; [lia|].
  cbn [pad_zeros]. pose proof Ha as [[_ Hbl _ _] _].
  apply (f_equal Z.of_nat) in Hbl. rewrite Nat2Z.inj_mod in Hbl by lia.
  change (Z.of_nat 64) with 64 in Hbl.
  set (n := Z.of_nat (length m)) in *.
  destruct (Nat.eqb_spec (buffer_len c) 56) as [He|Hne].
  - rewrite He in Hbl. rewrite <- (Zminus_mod_idemp_r 56 n), <- Hbl.
    by rewrite app_nil_r.
  - assert ((56 - n) mod 64 = (56 - (n + 1)) mod 64 + 1) as E.
    { rewrite <- (Zminus_mod_idemp_r 56 n), <- (Zminus_mod_idemp_r 56 (n + 1)).
      rewrite <- (Zplus_mod_idemp_l n 1). rewrite <- Hbl.
      assert (0 <= Z.of_nat (buffer_len c) < 64) by (rewrite Hbl; apply Z.mod_pos_bound; lia).
      assert (Z.of_nat (buffer_len c) <> 56) by lia. revert H H0.
      generalize (Z.of_nat (buffer_len c)). intros b Hb Hb56.
      Z.div_mod_to_equations. lia. }
    assert (length (m ++ [0]) = S (length m)) as Hl by (rewrite length_app; simpl; lia).
    pose proof (Z.mod_pos_bound (56 - (n + 1)) 64 ltac:(lia)).
    pose proof (IH (update c [0]) (m ++ [0]) (update_absorbed _ _ _ Ha)) as Hi.
    rewrite Hl, Nat2Z.inj_succ, <- Z.add_1_r in Hi. fold n in Hi.
    rewrite E. replace (Z.to_nat ((56 - (n + 1)) mod 64 + 1))
      with (S (Z.to_nat ((56 - (n + 1)) mod 64))) by lia.
    rewrite <- app_assoc in Hi. apply Hi. lia.
Qed.

Lemma length_process_block st b : length (process_block st b) = 8%nat.
Proof. done. Qed.

Lemma length_hash_blocks bs : length (foldl process_block kInit bs) = 8%nat.
Proof. induction bs using rev_ind; [done|]. rewrite foldl_app. done. Qed.

Lemma finish_absorbed c m : absorbed c m -> finish c = hash m.
Proof.
  intros Ha. unfold finish.
  assert (u64 (total_len c * 8) = u64 (8 * Z.of_nat (length m))) as ->.
  { destruct Ha as [_ ->]. unfold u64. rewrite Zmult_mod_idemp_l. f_equal. lia. }
  assert (length (m ++ [0x80]) = S (length m)) as Hl by (rewrite length_app; simpl; lia).
  pose proof (update_absorbed _ _ [0x80] Ha) as H1.
  pose proof (Z.mod_pos_bound (56 - Z.of_nat (length (m ++ [0x80]))) 64 ltac:(lia)).
  apply (pad_zeros_absorbed 65) in H1; [|lia].
  apply (update_absorbed _ _ (be_bytes 8 (u64 (8 * Z.of_nat (length m))))) in H1.
  rewrite Hl, Nat2Z.inj_succ in H1.
  replace (56 - Z.succ (Z.of_nat (length m))) with (55 - Z.of_nat (length m)) in H1 by lia.
  rewrite <- !app_assoc in H1. destruct H1 as [[Hs _ _ _] _].
  unfold hash. rewrite Hs. rewrite take_ge; [done|]. rewrite length_hash_blocks. lia.
Qed.

Lemma sha256_hash junk data : length junk = 64%nat -> sha256 junk data = hash data.
Proof.
  intros. apply finish_absorbed. apply (update_absorbed _ []). by apply new_absorbed.
Qed.

Lemma finish_two junk a b :
  length junk = 64%nat -> finish (update (update (ctx_new junk) a) b) = hash (a ++ b).
Proof.
  intros. apply finish_absorbed. apply update_absorbed, (update_absorbed _ []).
  by apply new_absorbed.
Qed.

Lemma length_flat_map_be (l : list Z) n : length (flat_map (be_bytes n) l) = (n * length l)%nat.
Proof. induction l; simpl; [lia|]. rewrite length_app, length_be_bytes. lia. Qed.

Lemma length_hash m : length (hash m) = 32%nat.
Proof. unfold hash. rewrite length_flat_map_be, length_hash_blocks. done. Qed.

Lemma hash_ok m : bytes_ok (hash m).
Proof.
  unfold hash. generalize (foldl process_block kInit (blocks (length (pad m) / 64) (pad m))).
  induction l as [|w l IH]; [constructor|]. cbn [flat_map]. apply Forall_app.
  split; [apply be_bytes_ok|done].
Qed.

Lemma memcpy_zeros k :
  (length k <= 64)%nat -> memcpy (replicate 64 0) 0 k = k ++ replicate (64 - length k) 0.
Proof. intros. unfold memcpy. rewrite drop_replicate. done. Qed.

Lemma hmac_sha256_spec junk key data :
  length junk = 64%nat -> hmac_sha256 junk key data = hmac key data.
Proof.
  intros. unfold hmac_sha256, hmac. rewrite !finish_two by done.
  destruct (Nat.ltb_spec 64 (length key)).
  - rewrite sha256_hash, memcpy_zeros by (done || by rewrite length_hash; lia). done.
  - rewrite memcpy_zeros by lia. done.
Qed.

(** ** Equivalence of contexts

    Two contexts are interchangeable when they agree on everything but the stale
    part of the buffer. *)
Definition ctx_equiv (c1 c2 : Sha256Ctx) : Prop :=
  state c1 = state c2 /\ total_len c1 = total_len c2 /\
  buffer_len c1 = buffer_len c2 /\
  take (buffer_len c1) (buffer c1) = take (buffer_len c2) (buffer c2) /\
  length (buffer c1) = length (buffer c2).

#[export] Instance ctx_equiv_equivalence : Equivalence ctx_equiv.
Proof.
  split; unfold ctx_equiv.
  - done.
  - intros ?? (?&?&?&?&?). repeat split; congruence.
  - intros ??? (?&?&?&?&?) (?&?&?&?&?). repeat split; congruence.
Qed.

#[export] Instance absorbed_proper : Proper (ctx_equiv ==> eq ==> iff) absorbed.
Proof.
  assert (forall c1 c2 m, ctx_equiv c1 c2 -> absorbed c1 m -> absorbed c2 m) as H.
  { intros c1 c2 m (Hs & Ht & Hl & Hb & Hc) [[H1 H2 H3 H4] H5].
    split; [split|]; congruence. }
  intros c1 c2 Hc m ? <-. split; apply H; [done | by symmetry].
Qed.

Lemma absorbed_unique c1 c2 m : absorbed c1 m -> absorbed c2 m -> ctx_equiv c1 c2.
Proof. intros [[????] ?] [[????] ?]. repeat split; congruence. Qed.

(** [C28] The incremental implementation computes the one-shot FIPS 180-4
    definition: padding to a multiple of 64 bytes with 0x80, zeros and the
    64-bit bit length, then folding the compression function; whatever the
    uninitialised buffer held.  In particular the padding loop terminates. *)
Theorem sha256_is_fips (junk data : list Z) :
  length junk = 64%nat -> sha256 junk data = hash data.
Proof. apply sha256_hash. Qed.

Lemma sha256_is_fips_witness :
  let abc := [97; 98; 99] in
  sha256 (replicate 64 170) abc = hash abc /\
  hash abc =
    [0xba; 0x78; 0x16; 0xbf; 0x8f; 0x01; 0xcf; 0xea; 0x41; 0x41; 0x40; 0xde; 0x5d; 0xae;
     0x22; 0x23; 0xb0; 0x03; 0x61; 0xa3; 0x96; 0x17; 0x7a; 0x9c; 0xb4; 0x10; 0xff; 0x61;
     0xf2; 0x00; 0x15; 0xad].
Proof. split; [apply sha256_is_fips; reflexivity | vm_compute; reflexivity]. Defined.

(** Splitting the input does not matter: on any context that has absorbed
    some message, two successive updates leave a context equivalent to one
    update with the concatenation, and both finish to the same digest. *)
Theorem sha256_update_split (c : Sha256Ctx) (m a b : list Z) :
  absorbed c m ->
  ctx_equiv (update (update c a) b) (update c (a ++ b)) /\
  finish (update (update c a) b) = hash (m ++ a ++ b) /\
  finish (update c (a ++ b)) = hash (m ++ a ++ b).
Proof.
  intros Hc.
  assert (absorbed (update (update c a) b) (m ++ a ++ b)) as H1.
  { rewrite app_assoc. by apply update_absorbed, update_absorbed. }
  assert (absorbed (update c (a ++ b)) (m ++ a ++ b)) as H2 by by apply update_absorbed.
  split; [by eapply absorbed_unique | split; by apply finish_absorbed].
Qed.

Lemma sha256_update_split_witness :
  let c := ctx_new (replicate 64 0) in
  ctx_equiv (update (update c (replicate 70 1)) [2]) (update c (replicate 70 1 ++ [2])).
Proof.
  intros c. apply (sha256_update_split c [] (replicate 70 1) [2]).
  split; [split; reflexivity | reflexivity].
Defined.

Lemma hkdf_spec junk ikm info :
  length junk = 64%nat -> hkdf_sha256_32 junk ikm info = hkdf ikm info.
Proof. intros. unfold hkdf_sha256_32, hkdf. by rewrite !hmac_sha256_spec by done. Qed.



End Sha256.
