(* ===== verification/Base64.v ===== *)
(** * Base64 and X25519 key parsing ([csrc/proof/crypto.cpp], lines 246-348)

    The URL-safe unpadded encoder, the decoder that accepts both alphabets with
    or without padding and white space, and the public-key loader (PEM or raw).
    The decoder keeps an unmasked [uint32_t] accumulator; the round-trip proof
    shows that the bits that wrap out of it never matter. *)

From S2P Require Import Prelude.

#[local] Open Scope Z_scope.

Module Base64.

Definition kAlphabet : list Z :=
  bytes_of_string "ABCDEFGHIJKLMNOPQRSTUVWXYZabcdefghijklmnopqrstuvwxyz0123456789-_".

(** [kAlphabet[(v >> s) & 63]] *)
Definition b64_char (v s : Z) : Z := kAlphabet !!! Z.to_nat (Z.land (Z.shiftr v s) 63).

Fixpoint b64url_encode_nopad (data : list Z) : list Z :=
  match data with
  | a :: b :: c :: rest =>
      let v := Z.lor (Z.lor (Z.shiftl a 16) (Z.shiftl b 8)) c in
      b64_char v 18 :: b64_char v 12 :: b64_char v 6 :: b64_char v 0
        :: b64url_encode_nopad rest
  | [a; b] =>
      let v := Z.lor (Z.shiftl a 16) (Z.shiftl b 8) in
      [b64_char v 18; b64_char v 12; b64_char v 6]
  | [a] =>
      let v := Z.shiftl a 16 in
      [b64_char v 18; b64_char v 12]
  | [] => []
  end.

Definition b64_value (c : Z) : Z :=
  if (65 <=? c) && (c <=? 90) then c - 65
  else if (97 <=? c) && (c <=? 122) then c - 97 + 26
  else if (48 <=? c) && (c <=? 57) then c - 48 + 52
  else if (c =? 43) || (c =? 45) then 62
  else if (c =? 47) || (c =? 95) then 63
  else -1.

(** ['='], newline, carriage return, space, tab. *)
Definition b64_skip (c : Z) : bool :=
  (c =? 61) || (c =? 10) || (c =? 13) || (c =? 32) || (c =? 9).

Definition bad_char : string := "invalid base64 character in input".

(** The decoding loop over [acc], [bits] and [out]. *)
Fixpoint b64_decode_loop (value : list Z) (acc bits : Z) (out : list Z)
  : outcome (list Z) :=
  match value with
  | [] => Ok out
  | c :: value =>
      if b64_skip c then b64_decode_loop value acc bits out
      else
        let v := b64_value c in
        if v <? 0 then Throw bad_char
        else
          let acc := u32 (Z.lor (u32 (Z.shiftl acc 6)) v) in
          let bits := bits + 6 in
          if 8 <=? bits
          then b64_decode_loop value acc (bits - 8) (out ++ [u8 (Z.shiftr acc (bits - 8))])
          else b64_decode_loop value acc bits out
  end.

Definition b64_decode_flexible (value : list Z) : outcome (list Z) :=
  b64_decode_loop value 0 0 [].

(** ** Public keys *)

Definition kX25519SpkiPrefix : list Z :=
  [0x30; 0x2a; 0x30; 0x05; 0x06; 0x03; 0x2b; 0x65; 0x6e; 0x03; 0x21; 0x00].

(** The characters of [" \t\r\n"]. *)
Definition is_space (c : Z) : bool := (c =? 32) || (c =? 9) || (c =? 13) || (c =? 10).

Definition not_raw32 : string := "DPHN proof public key must decode to 32 raw bytes".
Definition pem_malformed : string := "DPHN proof public key PEM is malformed".
Definition not_x25519 : string := "DPHN proof public key must be an X25519 public key".

Definition load_x25519_public_key (value : list Z) : outcome (list Z) :=
  match find_first (fun c => negb (is_space c)) value,
        find_last (fun c => negb (is_space c)) value with
  | Some begin, Some last =>
      let trimmed := substr value begin (Z.of_nat last - Z.of_nat begin + 1) in
      let prefix := bytes_of_string "-----BEGIN" in
      if list_Z_eqb (take (length prefix) trimmed) prefix then
        match find_first (fun c => c =? 10) trimmed,
              find_sub (bytes_of_string "-----END") trimmed with
        | Some header_end, Some footer =>
            let body := substr trimmed (header_end + 1)
              (u64 (Z.of_nat footer - Z.of_nat header_end - 1)) in
            der ← b64_decode_flexible body;
            if negb (Nat.eqb (length der) 44)
               || negb (list_Z_eqb (take 12 der) kX25519SpkiPrefix)
            then Throw not_x25519
            else Ok (drop 12 der)
        | _, _ => Throw pem_malformed
        end
      else
        raw ← b64_decode_flexible trimmed;
        if negb (Nat.eqb (length raw) 32) then Throw not_raw32 else Ok raw
  | _, _ => Throw not_raw32
  end.

(** ** The accumulator *)

Definition push6 (acc v : Z) : Z := u32 (Z.lor (u32 (Z.shiftl acc 6)) v).

Lemma push6_arith acc v : 0 <= v < 64 -> push6 acc v = u32 (acc * 64 + v).
Proof.
  intros Hv. unfold push6. rewrite shiftl_pow by lia. unfold u32.
  assert ((acc * 2 ^ 6) mod 4294967296 = acc mod 2 ^ 26 * 2 ^ 6) as ->.
  { change 4294967296 with (2 ^ 26 * 2 ^ 6). by rewrite Z.mul_mod_distr_r by lia. }
  rewrite lor_disjoint by lia.
  change (2 ^ 6) with 64. change (2 ^ 26) with 67108864.
  Z.div_mod_to_equations. lia.
Qed.

Lemma u32_push a v : u32 (u32 a * 64 + v) = u32 (a * 64 + v).
Proof. unfold u32. by rewrite <- Zplus_mod_idemp_l, Zmult_mod_idemp_l, Zplus_mod_idemp_l. Qed.

Lemma u8_shiftr_u32 x k : 0 <= k <= 24 -> u8 (Z.shiftr (u32 x) k) = (x / 2 ^ k) mod 256.
Proof.
  intros Hk. unfold u8, u32. rewrite shiftr_pow by lia.
  replace 4294967296 with (2 ^ k * (256 * 2 ^ (24 - k))).
  2: { change 256 with (2 ^ 8). rewrite <- !Z.pow_add_r by lia.
       replace (k + (8 + (24 - k))) with 32 by lia. done. }
  assert (0 < 2 ^ k) by (apply Z.pow_pos_nonneg; lia).
  assert (0 < 2 ^ (24 - k)) by (apply Z.pow_pos_nonneg; lia).
  rewrite Z.rem_mul_r by lia.
  rewrite (Z.add_comm (x mod _)), Z.mul_comm, Z.div_add_l by lia.
  rewrite (Z.div_small (x mod 2 ^ k)) by (apply Z.mod_pos_bound; lia).
  rewrite Z.add_0_r, Z.rem_mul_r by lia.
  rewrite Z.mul_comm, Z_mod_plus_full. apply Zmod_mod.
Qed.

(** ** Alphabet *)

Lemma alphabet_value i :
  0 <= i < 64 ->
  b64_skip (kAlphabet !!! Z.to_nat i) = false /\ b64_value (kAlphabet !!! Z.to_nat i) = i.
Proof.
  intros Hi.
  pose proof (check_below_spec 64
    (fun i => negb (b64_skip (kAlphabet !!! Z.to_nat i))
              && (b64_value (kAlphabet !!! Z.to_nat i) =? i)) i eq_refl ltac:(lia)) as H.
  apply andb_prop in H as [H1%negb_true_iff H2%Z.eqb_eq]. done.
Qed.

Lemma land63 x : Z.land x 63 = x mod 64.
Proof. apply (land_low x 6). lia. Qed.

Lemma b64_char_value v s :
  0 <= s -> b64_skip (b64_char v s) = false /\ b64_value (b64_char v s) = (v / 2 ^ s) mod 64.
Proof.
  intros. unfold b64_char. rewrite land63, shiftr_pow by done.
  apply alphabet_value. apply Z.mod_pos_bound. lia.
Qed.

(** One character of the alphabet through the loop. *)
Lemma decode_step v s rest acc bits out :
  0 <= s ->
  b64_decode_loop (b64_char v s :: rest) acc bits out =
  let acc' := u32 (acc * 64 + (v / 2 ^ s) mod 64) in
  if 8 <=? bits + 6
  then b64_decode_loop rest acc' (bits - 2) (out ++ [u8 (Z.shiftr acc' (bits - 2))])
  else b64_decode_loop rest acc' (bits + 6) out.
Proof.
  intros Hs. destruct (b64_char_value v s Hs) as [H1 H2].
  pose proof (Z.mod_pos_bound (v / 2 ^ s) 64 ltac:(lia)).
  cbn [b64_decode_loop]. rewrite H1, H2.
  rewrite (proj2 (Z.ltb_ge _ 0)) by lia.
  fold (push6 acc ((v / 2 ^ s) mod 64)). rewrite push6_arith by done.
  replace (bits + 6 - 8) with (bits - 2) by lia. done.
Qed.

Lemma join3 a b c :
  is_u8 a -> is_u8 b -> is_u8 c ->
  Z.lor (Z.lor (Z.shiftl a 16) (Z.shiftl b 8)) c = a * 65536 + b * 256 + c.
Proof.
  unfold is_u8. intros. rewrite !shiftl_pow by lia.
  rewrite (lor_disjoint a (b * 2 ^ 8) 16) by lia.
  replace (a * 2 ^ 16 + b * 2 ^ 8) with ((a * 256 + b) * 2 ^ 8) by lia.
  rewrite lor_disjoint by lia. lia.
Qed.

Lemma join2 a b : is_u8 a -> is_u8 b ->
  Z.lor (Z.shiftl a 16) (Z.shiftl b 8) = a * 65536 + b * 256.
Proof.
  intros Ha Hb. pose proof (join3 a b 0 Ha Hb ltac:(unfold is_u8; lia)) as H.
  rewrite Z.lor_0_r in H. lia.
Qed.

Ltac b64_arith :=
  rewrite ?u8_shiftr_u32 by lia;
  change (2 ^ 18) with 262144; change (2 ^ 12) with 4096; change (2 ^ 6) with 64;
  change (2 ^ 0) with 1; change (2 ^ 4) with 16; change (2 ^ 2) with 4;
  unfold is_u8 in *; Z.div_mod_to_equations; lia.

Ltac b64_steps :=
  repeat (rewrite decode_step by lia; cbv zeta; rewrite ?u32_push;
    lazymatch goal with |- context [8 <=? ?x] =>
      let b := eval vm_compute in (8 <=? x) in change (8 <=? x) with b end;
    cbv iota; rewrite <- ?app_assoc; cbn [app]).

(** A whole group of three bytes leaves the decoder at a byte boundary. *)
Lemma decode_group a b c rest acc out :
  is_u8 a -> is_u8 b -> is_u8 c ->
  exists acc', b64_decode_loop (b64url_encode_nopad (a :: b :: c :: rest)) acc 0 out
    = b64_decode_loop (b64url_encode_nopad rest) acc' 0 (out ++ [a; b; c]).
Proof.
  intros Ha Hb Hc. cbn [b64url_encode_nopad]. rewrite join3 by done. eexists.
  b64_steps. simpl Z.add. simpl Z.sub.
  f_equal. f_equal. f_equal; [|f_equal; [|f_equal]]; b64_arith.
Qed.

Lemma decode_tail2 a b acc out :
  is_u8 a -> is_u8 b ->
  b64_decode_loop (b64url_encode_nopad [a; b]) acc 0 out = Ok (out ++ [a; b]).
Proof.
  intros Ha Hb. cbn [b64url_encode_nopad]. rewrite join2 by done.
  b64_steps. simpl Z.add. simpl Z.sub. cbn [b64_decode_loop].
  f_equal. f_equal. f_equal; [|f_equal]; b64_arith.
Qed.

Lemma decode_tail1 a acc out :
  is_u8 a -> b64_decode_loop (b64url_encode_nopad [a]) acc 0 out = Ok (out ++ [a]).
Proof.
  intros Ha. cbn [b64url_encode_nopad]. rewrite shiftl_pow by lia.
  b64_steps. simpl Z.add. simpl Z.sub. cbn [b64_decode_loop].
  f_equal. f_equal. f_equal. b64_arith.
Qed.

(** Induction in steps of three. *)
Lemma list_ind3 (P : list Z -> Prop) :
  P [] -> (forall a, P [a]) -> (forall a b, P [a; b]) ->
  (forall a b c l, P l -> P (a :: b :: c :: l)) -> forall l, P l.
Proof.
  intros H0 H1 H2 H3.
  assert (forall l, P l /\ (forall a, P (a :: l)) /\ (forall a b, P (a :: b :: l))) as H.
  { induction l as [|x l (? & ? & ?)]; [done|]. split; [|split]; auto. }
  intros l. apply H.
Qed.

Lemma decode_encode_loop data acc out :
  bytes_ok data -> b64_decode_loop (b64url_encode_nopad data) acc 0 out = Ok (out ++ data).
Proof.
  revert acc out. induction data as [|a|a b|a b c l IH] using list_ind3; intros acc out H.
  - simpl. by rewrite app_nil_r.
  - apply Forall_cons in H as [? _]. by apply decode_tail1.
  - apply Forall_cons in H as [? [? _]%Forall_cons]. by apply decode_tail2.
  - apply Forall_cons in H as [? [? [? H]%Forall_cons]%Forall_cons].
    destruct (decode_group a b c l acc out) as [acc' ->]; [done..|].
    rewrite IH by done. by rewrite <- app_assoc.
Qed.

(** ** Accepted spellings *)

(** The URL-safe character for the same sextet. *)
Definition url_char (c : Z) : Z := if c =? 43 then 45 else if c =? 47 then 95 else c.

(** A string without padding and white space, in the URL-safe alphabet. *)
Definition normalize (s : list Z) : list Z :=
  map url_char (List.filter (fun c => negb (b64_skip c)) s).

Lemma url_char_same c : b64_value (url_char c) = b64_value c /\ b64_skip (url_char c) = b64_skip c.
Proof.
  unfold url_char. destruct (Z.eqb_spec c 43) as [->|]; [done|].
  destruct (Z.eqb_spec c 47) as [->|]; done.
Qed.

Lemma decode_normalize s acc bits out :
  b64_decode_loop (normalize s) acc bits out = b64_decode_loop s acc bits out.
Proof.
  revert acc bits out. unfold normalize.
  induction s as [|c s IH]; intros; simpl; [done|].
  destruct (b64_skip c) eqn:Hs; simpl; [by rewrite IH|].
  destruct (url_char_same c) as [-> ->]. rewrite Hs. by repeat case_match.
Qed.

Definition significant (s : list Z) : nat :=
  length (List.filter (fun c => negb (b64_skip c)) s).

Definition valid_char (c : Z) : bool := b64_skip c || (0 <=? b64_value c).

Lemma decode_loop_total s acc bits out :
  0 <= bits < 8 -> bytes_ok out ->
  if forallb valid_char s
  then exists r, b64_decode_loop s acc bits out = Ok (out ++ r) /\ bytes_ok r /\
         Z.of_nat (length r) = (bits + 6 * Z.of_nat (significant s)) / 8
  else b64_decode_loop s acc bits out = Throw bad_char.
Proof.
  revert acc bits out. unfold significant, valid_char.
  induction s as [|c s IH]; intros acc bits out Hb Ho; cbn [forallb b64_decode_loop].
  { exists []. rewrite app_nil_r. split; [done|]. split; [constructor|].
    simpl. rewrite Z.div_small; lia. }
  simpl List.filter. destruct (b64_skip c); simpl; [by apply IH|].
  destruct (Z.ltb_spec (b64_value c) 0), (Z.leb_spec 0 (b64_value c)); try lia; simpl; [done|].
  set (acc' := u32 _). destruct (Z.leb_spec 8 (bits + 6)).
  - specialize (IH acc' (bits + 6 - 8) (out ++ [u8 (acc' ≫ (bits + 6 - 8))])
      ltac:(lia)). destruct forallb.
    + destruct IH as (r & -> & Hr & Hl).
      { apply Forall_app. split; [done|]. constructor; auto with sonar. }
      eexists. rewrite <- app_assoc. split; [done|]. split.
      * constructor; auto with sonar.
      * simpl. rewrite !Nat2Z.inj_succ, Hl. Z.div_mod_to_equations. lia.
    + apply IH. apply Forall_app. split; [done|]. constructor; auto with sonar.
  - specialize (IH acc' (bits + 6) out ltac:(lia) Ho). destruct forallb; [|done].
    destruct IH as (r & -> & Hr & Hl). exists r. split; [done|]. split; [done|].
    rewrite Hl. f_equal. lia.
Qed.

Lemma decode_ok s out :
  b64_decode_flexible s = Ok out ->
  bytes_ok out /\ Z.of_nat (length out) = 6 * Z.of_nat (significant s) / 8.
Proof.
  unfold b64_decode_flexible. intros H.
  pose proof (decode_loop_total s 0 0 [] ltac:(lia) ltac:(constructor)) as Ht.
  destruct forallb; [|congruence]. destruct Ht as (r & Hr & Hb & Hl).
  simplify_eq/=. rewrite Hr in H. by simplify_eq.
Qed.

Lemma decode_spelling data s :
  bytes_ok data -> normalize s = b64url_encode_nopad data ->
  b64_decode_flexible s = Ok data.
Proof.
  intros Hd Hn. unfold b64_decode_flexible. rewrite <- decode_normalize, Hn.
  by apply decode_encode_loop.
Qed.

Lemma encode_char_facts data :
  Forall (fun c => b64_skip c = false /\ is_space c = false /\ url_char c = c)
    (b64url_encode_nopad data).
Proof.
  assert (forall v s, 0 <= s -> b64_skip (b64_char v s) = false /\
            is_space (b64_char v s) = false /\ url_char (b64_char v s) = b64_char v s) as Hc.
  { intros v s Hs. unfold b64_char. rewrite land63, shiftr_pow by done.
    pose proof (Z.mod_pos_bound (v / 2 ^ s) 64 ltac:(lia)) as Hi.
    pose proof (check_below_spec 64
      (fun i => let c := kAlphabet !!! Z.to_nat i in
                negb (b64_skip c) && negb (is_space c) && (url_char c =? c)) _ eq_refl Hi) as H.
    apply andb_prop in H as [[H1 H2]%andb_prop H3%Z.eqb_eq].
    apply negb_true_iff in H1, H2. done. }
  induction data as [|a|a b|a b c l IH] using list_ind3; cbn [b64url_encode_nopad];
    repeat constructor; try (apply Hc; lia). apply IH.
Qed.

Lemma normalize_encode data : normalize (b64url_encode_nopad data) = b64url_encode_nopad data.
Proof.
  unfold normalize. induction (encode_char_facts data) as [|c l (H1 & _ & H3) _ IH]; [done|].
  simpl. rewrite H1. simpl. by rewrite H3, IH.
Qed.

(** Base64 round trip: whatever is encoded decodes to itself, in either
    alphabet and with any padding and white space interspersed, although the
    decoder's 32-bit accumulator is never masked. *)
Theorem b64_roundtrip (data s : list Z) :
  bytes_ok data -> normalize s = b64url_encode_nopad data ->
  b64_decode_flexible s = Ok data.
Proof. apply decode_spelling. Qed.

Lemma b64_roundtrip_witness :
  b64_decode_flexible (bytes_of_string "+/ 8=") = Ok [251; 255].
Proof.
  apply (b64_roundtrip [251; 255]); [|reflexivity].
  repeat constructor; done.
Defined.

(** The decoder is total: it throws exactly when some character is neither
    in an alphabet nor skipped, and otherwise returns one byte per eight of the
    bits the significant characters carry. *)
Theorem b64_decode_total (s : list Z) :
  if forallb valid_char s
  then exists out, b64_decode_flexible s = Ok out /\ bytes_ok out /\
         Z.of_nat (length out) = 6 * Z.of_nat (significant s) / 8
  else b64_decode_flexible s = Throw bad_char.
Proof. apply (decode_loop_total s 0 0 []); [lia | constructor]. Qed.

(** ** Keys *)

Lemma load_key_length v k :
  load_x25519_public_key v = Ok k -> length k = 32%nat /\ bytes_ok k.
Proof.
  unfold load_x25519_public_key. intros H. repeat case_match; try done.
  - inv_ok H. apply decode_ok in Hok as [Hb _]. case_hyp H.
    apply orb_false_elim in Heqb as [He%negb_false_iff%Nat.eqb_eq _].
    rewrite length_drop, He. split; [done | by apply Forall_drop].
  - inv_ok H. apply decode_ok in Hok as [Hb _]. case_hyp H.
    by apply negb_false_iff, Nat.eqb_eq in Heqb.
Qed.

(** [t] is what remains of [v] once surrounding white space is removed. *)
Definition trims_to (v t : list Z) : Prop :=
  exists ws1 ws2 x t1 y t2,
    v = ws1 ++ t ++ ws2 /\ Forall (fun c => is_space c = true) ws1 /\
    Forall (fun c => is_space c = true) ws2 /\
    t = x :: t1 /\ t = t2 ++ [y] /\ is_space x = false /\ is_space y = false.

Lemma trims_to_span v t :
  trims_to v t ->
  exists i j, find_first (fun c => negb (is_space c)) v = Some i /\
    find_last (fun c => negb (is_space c)) v = Some j /\
    substr v i (Z.of_nat j - Z.of_nat i + 1) = t.
Proof.
  intros (ws1 & ws2 & x & t1 & y & t2 & -> & H1 & H2 & Hx & Hy & Sx & Sy).
  eapply substr_span; eauto.
  - eapply Forall_impl; [exact H1|]. by intros ? ->.
  - eapply Forall_impl; [exact H2|]. by intros ? ->.
  - by rewrite Sx.
  - by rewrite Sy.
Qed.

Lemma encode_nonempty raw : raw <> [] -> b64url_encode_nopad raw <> [].
Proof. destruct raw as [|a [|b [|c raw]]]; done. Qed.

Definition pem_prefix : list Z := bytes_of_string "-----BEGIN".

Lemma load_raw_key ws1 ws2 raw :
  Forall (fun c => is_space c = true) ws1 -> Forall (fun c => is_space c = true) ws2 ->
  bytes_ok raw -> length raw = 32%nat ->
  take 10 (b64url_encode_nopad raw) <> pem_prefix ->
  load_x25519_public_key (ws1 ++ b64url_encode_nopad raw ++ ws2) = Ok raw.
Proof.
  intros Hw1 Hw2 Hr Hl Hne.
  pose proof (encode_char_facts raw) as Hc.
  assert (trims_to (ws1 ++ b64url_encode_nopad raw ++ ws2) (b64url_encode_nopad raw)) as Ht.
  { assert (b64url_encode_nopad raw <> []) as Hn by (apply encode_nonempty; by intros ->).
    destruct (b64url_encode_nopad raw) as [|x t1] eqn:E; [done|].
    destruct (exists_last Hn) as (t2 & y & Hy).
    exists ws1, ws2, x, t1, y, t2. rewrite Hy in Hc at 1.
    apply Forall_app in Hc as [_ [(_ & Sy & _) _]%Forall_cons].
    pose proof (encode_char_facts raw) as Hc. rewrite E in Hc.
    apply Forall_cons in Hc as [(_ & Sx & _) _]. done. }
  unfold load_x25519_public_key.
  apply trims_to_span in Ht as (i & j' & -> & -> & ->).
  unfold list_Z_eqb. rewrite bool_decide_eq_false_2 by done.
  rewrite (decode_spelling raw) by (done || by rewrite normalize_encode).
  simpl. by rewrite Hl.
Qed.

Lemma find_sub_skip x needle hay :
  (forall y n, needle = y :: n -> x <> y) -> needle <> [] ->
  find_sub needle (x :: hay) = S <$> find_sub needle hay.
Proof.
  intros H Hn. destruct needle as [|y n]; [done|]. cbn [find_sub length take].
  unfold list_Z_eqb. rewrite bool_decide_eq_false_2; [done|].
  intros [= -> _]. by eapply H.
Qed.

Lemma find_sub_skips pre needle hay :
  (forall y n, needle = y :: n -> y ∉ pre) -> needle <> [] ->
  find_sub needle (pre ++ hay) = (fun n => (length pre + n)%nat) <$> find_sub needle hay.
Proof.
  intros H Hn. induction pre as [|x pre IH].
  { cbn [app length]. by destruct (find_sub needle hay). }
  cbn [app length]. rewrite find_sub_skip, IH.
  - destruct (find_sub needle hay); done.
  - intros y n Hy Hin. apply (H y n Hy). by constructor.
  - intros y n Hy ->. apply (H y n Hy). by constructor.
  - done.
Qed.

Lemma find_sub_here needle hay : find_sub needle (needle ++ hay) = Some O.
Proof.
  destruct needle; [by destruct hay|]. cbn [app find_sub length take].
  rewrite take_app_length. unfold list_Z_eqb. by rewrite bool_decide_eq_true_2.
Qed.

Definition pem_header : list Z := bytes_of_string "-----BEGIN PUBLIC KEY-----" ++ [10].
Definition pem_end : list Z := bytes_of_string "-----END".
Definition pem_footer : list Z := pem_end ++ bytes_of_string " PUBLIC KEY-----".

Lemma find_sub_header hay :
  find_sub pem_end (pem_header ++ hay) = Nat.add 27 <$> find_sub pem_end hay.
Proof.
  change (find_sub pem_end (pem_header ++ hay))
    with (Nat.iter 27 (fun o => S <$> o) (find_sub pem_end hay)).
  by destruct (find_sub pem_end hay).
Qed.

Lemma load_pem_key body raw :
  bytes_ok raw -> length raw = 32%nat -> 45 ∉ body ->
  Z.of_nat (length body) < 2 ^ 60 ->
  normalize body = b64url_encode_nopad (kX25519SpkiPrefix ++ raw) ->
  load_x25519_public_key (pem_header ++ body ++ pem_footer) = Ok raw.
Proof.
  intros Hr Hl Hd Hlen Hn. unfold load_x25519_public_key.
  assert (trims_to (pem_header ++ body ++ pem_footer) (pem_header ++ body ++ pem_footer)) as Ht.
  { exists [], [], 45, (drop 1 pem_header ++ body ++ pem_footer), 45,
      (pem_header ++ body ++ pem_end ++ bytes_of_string " PUBLIC KEY----").
    split; [by rewrite app_nil_r|]. split; [constructor|]. split; [constructor|].
    split; [done|]. split; [|done]. rewrite <- !app_assoc. done. }
  apply trims_to_span in Ht as (i & j & -> & -> & ->).
  replace (list_Z_eqb _ _) with true by (symmetry; vm_compute; reflexivity).
  assert (find_first (fun c => c =? 10) (pem_header ++ body ++ pem_footer) = Some 26%nat) as ->
    by reflexivity.
  assert (find_sub (bytes_of_string "-----END") (pem_header ++ body ++ pem_footer)
          = Some (27 + length body)%nat) as ->.
  { fold pem_end. rewrite find_sub_header, find_sub_skips;
      [|intros y n Hy; vm_compute in Hy; by injection Hy as <- _|done].
    unfold pem_footer. rewrite find_sub_here. simpl. f_equal. lia. }
  replace (u64 _) with (Z.of_nat (length body))
    by (rewrite u64_id; [lia | unfold is_u64; lia]).
  unfold substr. rewrite Z.min_l by (rewrite !length_app; lia). rewrite Nat2Z.id.
  change (drop (26 + 1) (pem_header ++ body ++ pem_footer)) with (body ++ pem_footer).
  rewrite take_app_length.
  rewrite (decode_spelling (kX25519SpkiPrefix ++ raw)).
  - unfold mbind, outcome_bind. rewrite length_app, Hl.
    change (take 12 (kX25519SpkiPrefix ++ raw)) with kX25519SpkiPrefix.
    change (drop 12 (kX25519SpkiPrefix ++ raw)) with raw.
    unfold list_Z_eqb. by rewrite bool_decide_eq_true_2.
  - apply Forall_app. split; [|done]. by repeat constructor.
  - done.
Qed.

(** Every key the loader accepts is exactly 32 bytes, which the X25519 call
    that follows reads; and it accepts the two documented spellings: the raw key
    in base64url between white space (unless its encoding happens to begin like a
    PEM header), and the PEM SubjectPublicKeyInfo, whose DER prefix is removed. *)
Theorem load_key_spec (v k ws1 ws2 raw body : list Z) :
  (load_x25519_public_key v = Ok k -> length k = 32%nat /\ bytes_ok k) /\
  (bytes_ok raw -> length raw = 32%nat ->
   (Forall (fun c => is_space c = true) ws1 -> Forall (fun c => is_space c = true) ws2 ->
    take 10 (b64url_encode_nopad raw) <> pem_prefix ->
    load_x25519_public_key (ws1 ++ b64url_encode_nopad raw ++ ws2) = Ok raw) /\
   (45 ∉ body -> Z.of_nat (length body) < 2 ^ 60 ->
    normalize body = b64url_encode_nopad (kX25519SpkiPrefix ++ raw) ->
    load_x25519_public_key (pem_header ++ body ++ pem_footer) = Ok raw)).
Proof.
  split; [apply load_key_length|]. intros Hr Hl. split; intros.
  - by apply load_raw_key.
  - by apply load_pem_key.
Qed.

Lemma load_key_spec_witness :
  load_x25519_public_key ([32; 10] ++ b64url_encode_nopad (replicate 32 9) ++ [13])
    = Ok (replicate 32 9) /\
  load_x25519_public_key
    (pem_header ++ (b64url_encode_nopad (kX25519SpkiPrefix ++ replicate 32 9) ++ [61; 10])
                ++ pem_footer) = Ok (replicate 32 9).
Proof.
  assert (bytes_ok (replicate 32 9)) as Hb by (by repeat constructor).
  destruct (load_key_spec [] [] [32; 10] [13] (replicate 32 9)
    (b64url_encode_nopad (kX25519SpkiPrefix ++ replicate 32 9) ++ [61; 10])) as [_ H].
  destruct (H Hb eq_refl) as [H1 H2]. split.
  - apply H1; [by repeat constructor | by repeat constructor | by vm_compute].
  - apply H2; [|reflexivity|vm_compute; reflexivity].
    by apply (bool_decide_unpack _); vm_compute.
Defined.

End Base64.
