(* ===== verification/Crypto.v ===== *)
(** * Key agreement, authenticated encryption, randomness
    ([csrc/proof/crypto.cpp], lines 189-244 and 350-382)

    X25519 and the ChaCha20 and Poly1305 primitives come from the vendored
    Monocypher library, which is not part of the repository: they are the
    operations of the class [Monocypher], and [MonocypherLaws] states the
    documented behaviour the callers rely on.  The kernel's entropy sources are
    the answers recorded in [Entropy]. *)

From S2P Require Import Prelude.

#[local] Open Scope Z_scope.

Class Monocypher := {
  poly_ctx : Type;
  crypto_x25519_public_key : list Z -> list Z;
  crypto_x25519 : list Z -> list Z -> list Z;
  (** plain text (null for all zeros), text size, key, nonce, block counter *)
  crypto_chacha20_ietf : option (list Z) -> nat -> list Z -> list Z -> Z -> list Z;
  crypto_poly1305_init : list Z -> poly_ctx;
  crypto_poly1305_update : poly_ctx -> list Z -> poly_ctx;
  crypto_poly1305_final : poly_ctx -> list Z
}.

Class MonocypherLaws `{Monocypher} : Prop := {
  x25519_public_length sk : length (crypto_x25519_public_key sk) = 32%nat;
  x25519_length sk pk : length (crypto_x25519 sk pk) = 32%nat;
  x25519_agree a b :
    crypto_x25519 a (crypto_x25519_public_key b)
    = crypto_x25519 b (crypto_x25519_public_key a);
  chacha20_length p n k nonce c : length (crypto_chacha20_ietf p n k nonce c) = n;
  chacha20_involutive p k nonce c :
    crypto_chacha20_ietf
      (Some (crypto_chacha20_ietf (Some p) (length p) k nonce c)) (length p) k nonce c = p;
  poly1305_stream ctx a b :
    crypto_poly1305_update (crypto_poly1305_update ctx a) b
    = crypto_poly1305_update ctx (a ++ b);
  poly1305_length ctx : length (crypto_poly1305_final ctx) = 16%nat;
  (** the outputs are arrays of [uint8_t] *)
  x25519_public_ok sk : bytes_ok (crypto_x25519_public_key sk);
  chacha20_ok p n k nonce c : bytes_ok p -> bytes_ok (crypto_chacha20_ietf (Some p) n k nonce c);
  poly1305_ok ctx : bytes_ok (crypto_poly1305_final ctx)
}.

Module Crypto.

Section with_monocypher.
Context `{Monocypher}.

(** ** X25519 *)

Definition x25519_public_key (private_key : list Z) : list Z :=
  crypto_x25519_public_key private_key.

(** The shared secret and whether it is usable: the loop ors all 32 bytes. *)
Definition x25519_shared_secret (private_key peer_public : list Z) : list Z * bool :=
  let shared := crypto_x25519 private_key peer_public in
  let acc := foldl (fun acc b => u8 (Z.lor acc b)) 0 (take 32 shared) in
  (shared, negb (acc =? 0)).

(** ** ChaCha20-Poly1305 *)

Definition chacha20poly1305_ietf_encrypt (key nonce aad plaintext : list Z) : list Z :=
  let block0 := crypto_chacha20_ietf None 64 key nonce 0 in
  let ct := crypto_chacha20_ietf (Some plaintext) (length plaintext) key nonce 1 in
  let kZeros := replicate 16 0 in
  let poly := crypto_poly1305_init (take 32 block0) in
  let poly := crypto_poly1305_update poly aad in
  let poly := crypto_poly1305_update poly (take ((16 - length aad mod 16) mod 16)%nat kZeros) in
  let poly := crypto_poly1305_update poly ct in
  let poly := crypto_poly1305_update poly
                (take ((16 - length plaintext mod 16) mod 16)%nat kZeros) in
  let lengths := le_bytes 8 (Z.of_nat (length aad)) ++ le_bytes 8 (Z.of_nat (length plaintext)) in
  let poly := crypto_poly1305_update poly lengths in
  ct ++ crypto_poly1305_final poly.

(** ** Specification: RFC 8439 section 2.8 *)

Definition pad16 (l : list Z) : list Z := replicate (Z.to_nat (- Z.of_nat (length l) mod 16)) 0.

Definition mac_data (aad ct : list Z) : list Z :=
  aad ++ pad16 aad ++ ct ++ pad16 ct
  ++ le_bytes 8 (Z.of_nat (length aad)) ++ le_bytes 8 (Z.of_nat (length ct)).

Definition poly1305 (key msg : list Z) : list Z :=
  crypto_poly1305_final (crypto_poly1305_update (crypto_poly1305_init key) msg).

Definition one_time_key (key nonce : list Z) : list Z :=
  take 32 (crypto_chacha20_ietf None 64 key nonce 0).

(** The recipient: checks the tag, then decrypts. *)
Definition aead_open (key nonce aad sealed : list Z) : option (list Z) :=
  if Nat.ltb (length sealed) 16 then None
  else
    let n := (length sealed - 16)%nat in
    let ct := take n sealed in
    if list_Z_eqb (drop n sealed) (poly1305 (one_time_key key nonce) (mac_data aad ct))
    then Some (crypto_chacha20_ietf (Some ct) n key nonce 1)
    else None.

Lemma pad16_code l : take ((16 - length l mod 16) mod 16)%nat (replicate 16 0) = pad16 l.
Proof.
  unfold pad16. rewrite take_replicate. f_equal.
  pose proof (Nat.mod_upper_bound (length l) 16 ltac:(lia)).
  pose proof (Nat.mod_upper_bound (16 - length l mod 16) 16 ltac:(lia)).
  pose proof (Nat.div_mod_eq (length l) 16).
  rewrite Nat.min_l by lia. apply Nat2Z.inj.
  rewrite Nat2Z.inj_mod, Nat2Z.inj_sub, Nat2Z.inj_mod by lia.
  rewrite Z2Nat.id by (apply Z.mod_pos_bound; lia).
  change (Z.of_nat 16) with 16. rewrite Zminus_mod_idemp_r.
  replace (16 - Z.of_nat (length l)) with (- Z.of_nat (length l) + 1 * 16) by lia.
  apply Z_mod_plus_full.
Qed.

Section laws.
Context `{!MonocypherLaws}.

Lemma encrypt_spec key nonce aad plaintext :
  let ct := crypto_chacha20_ietf (Some plaintext) (length plaintext) key nonce 1 in
  chacha20poly1305_ietf_encrypt key nonce aad plaintext
  = ct ++ poly1305 (one_time_key key nonce) (mac_data aad ct).
Proof.
  intros ct. unfold chacha20poly1305_ietf_encrypt. fold ct.
  rewrite !poly1305_stream, !pad16_code. unfold poly1305, mac_data.
  assert (length ct = length plaintext) as Hl by apply chacha20_length.
  unfold pad16 at 2 4. rewrite Hl. rewrite <- ?app_assoc. done.
Qed.

Lemma open_encrypt key nonce aad plaintext :
  aead_open key nonce aad (chacha20poly1305_ietf_encrypt key nonce aad plaintext)
  = Some plaintext.
Proof.
  rewrite encrypt_spec. set (ct := crypto_chacha20_ietf (Some plaintext) _ _ _ _).
  assert (length ct = length plaintext) as Hl by apply chacha20_length.
  assert (length (poly1305 (one_time_key key nonce) (mac_data aad ct)) = 16%nat) as Ht
    by apply poly1305_length.
  unfold aead_open. rewrite length_app, Ht.
  destruct (Nat.ltb_spec (length ct + 16) 16); [lia|].
  replace (length ct + 16 - 16)%nat with (length ct) by lia.
  rewrite take_app_length, drop_app_length. unfold list_Z_eqb.
  rewrite bool_decide_eq_true_2 by done. rewrite Hl. f_equal. apply chacha20_involutive.
Qed.

Lemma length_encrypt key nonce aad plaintext :
  length (chacha20poly1305_ietf_encrypt key nonce aad plaintext) = (length plaintext + 16)%nat.
Proof.
  rewrite encrypt_spec, length_app, chacha20_length. unfold poly1305.
  by rewrite poly1305_length.
Qed.
End laws.

(** The authenticated data determines both the associated data and the
    ciphertext: the two length words at the end delimit them. *)
Lemma mac_data_inj aad1 ct1 aad2 ct2 :
  Z.of_nat (length aad1) < 2 ^ 64 -> Z.of_nat (length aad2) < 2 ^ 64 ->
  Z.of_nat (length ct1) < 2 ^ 64 -> Z.of_nat (length ct2) < 2 ^ 64 ->
  mac_data aad1 ct1 = mac_data aad2 ct2 -> aad1 = aad2 /\ ct1 = ct2.
Proof.
  intros Ha1 Ha2 Hc1 Hc2 E. unfold mac_data in E.
  assert (forall a b, 0 <= a < 2 ^ 64 -> 0 <= b < 2 ^ 64 -> le_bytes 8 a = le_bytes 8 b -> a = b)
    as Hle.
  { intros a b Ha Hb He. apply (f_equal le_val) in He. by rewrite !le_val_bytes in He. }
  rewrite !app_assoc in E.
  apply app_inj_2 in E as [E E2]; [|by rewrite !length_le_bytes].
  apply app_inj_2 in E as [E E1]; [|by rewrite !length_le_bytes].
  apply Hle in E1, E2; try lia.
  assert (length aad1 = length aad2) as L1 by lia.
  assert (length ct1 = length ct2) as L2 by lia.
  assert (length (pad16 ct1) = length (pad16 ct2)) as P2 by (unfold pad16; by rewrite L2).
  assert (length (pad16 aad1) = length (pad16 aad2)) as P1 by (unfold pad16; by rewrite L1).
  apply app_inj_2 in E as [E _]; [|done]. apply app_inj_2 in E as [E Ec]; [|done].
  by apply app_inj_2 in E as [-> _].
Qed.

(** The or-loop is zero exactly on the all-zero secret. *)
Lemma or_bytes_zero l acc :
  is_u8 acc -> bytes_ok l ->
  foldl (fun acc b => u8 (Z.lor acc b)) acc l = 0 <-> acc = 0 /\ Forall (fun b => b = 0) l.
Proof.
  revert acc. induction l as [|b l IH]; intros acc Ha Hl; simpl.
  { split; [by intros -> | by intros [-> _]]. }
  apply Forall_cons in Hl as [Hb Hl]. rewrite IH by auto with sonar.
  assert (u8 (Z.lor acc b) = Z.lor acc b) as ->.
  { apply u8_id. by apply (lor_range acc b 8). }
  rewrite Z.lor_eq_0_iff, Forall_cons. tauto.
Qed.
End with_monocypher.

(** ** Randomness *)

(** One answer of the kernel: some bytes, an interrupted call, another error. *)
Inductive sysres := GotBytes (bs : list Z) | Interrupted | SysError.

Record Entropy := mkEntropy {
  getrandom_calls : list sysres;      (** answers of successive [getrandom] calls *)
  urandom_reads : list (option (list Z)) (** per [fopen]: what [fread] delivers *)
}.

Definition no_entropy : string := "no secure random source available".

(** [while (filled < len)]: stops full, at an error, or waits for the next
    answer ([None]). *)
Fixpoint getrandom_loop (calls : list sysres) (filled : list Z) (len : nat)
  : option (list Z * list sysres) :=
  if Nat.ltb (length filled) len then
    match calls with
    | [] => None
    | GotBytes bs :: calls =>
        getrandom_loop calls (filled ++ take (len - length filled) bs) len
    | Interrupted :: calls => getrandom_loop calls filled len
    | SysError :: calls => Some (filled, calls)
    end
  else Some (filled, calls).

Definition read_urandom (len : nat) (e : Entropy) : outcome (list Z) * Entropy :=
  match urandom_reads e with
  | Some bs :: rest =>
      let got := take len bs in
      (if Nat.eqb (length got) len then Ok got else Throw no_entropy,
       mkEntropy (getrandom_calls e) rest)
  | None :: rest => (Throw no_entropy, mkEntropy (getrandom_calls e) rest)
  | [] => (Throw no_entropy, e)
  end.

Definition random_bytes (len : nat) (e : Entropy) : option (outcome (list Z) * Entropy) :=
  '(filled, calls) ← getrandom_loop (getrandom_calls e) [] len;
  let e := mkEntropy calls (urandom_reads e) in
  if Nat.eqb (length filled) len then Some (Ok filled, e)
  else Some (read_urandom len e).

Lemma getrandom_loop_le calls filled len r rest :
  (length filled <= len)%nat ->
  getrandom_loop calls filled len = Some (r, rest) -> (length r <= len)%nat.
Proof.
  revert filled. induction calls as [|c calls IH]; intros filled Hf H; simpl in H;
    destruct (Nat.ltb_spec (length filled) len); try done; simplify_eq; try done.
  destruct c as [bs| |]; simplify_eq; [|by eapply IH|done].
  eapply IH; [|done]. rewrite length_app, length_take. lia.
Qed.

Lemma random_bytes_length len e bs e' :
  random_bytes len e = Some (Ok bs, e') -> length bs = len.
Proof.
  unfold random_bytes. intros H.
  destruct (getrandom_loop _ _ _) as [[filled calls]|] eqn:E; simpl in H; [|done].
  destruct (Nat.eqb_spec (length filled) len); [by simplify_eq|].
  simplify_eq. unfold read_urandom in H.
  destruct (urandom_reads _) as [|[b|] r]; simplify_eq/=.
  by destruct (Nat.eqb_spec (length (take len b)) len); simplify_eq.
Qed.

(** What the successive calls deliver before the first hard error. *)
Fixpoint delivered (calls : list sysres) : list Z :=
  match calls with
  | GotBytes bs :: calls => bs ++ delivered calls
  | Interrupted :: calls => delivered calls
  | _ => []
  end.

Fixpoint hard_error (calls : list sysres) : bool :=
  match calls with
  | [] => false
  | SysError :: _ => true
  | _ :: calls => hard_error calls
  end.

Lemma getrandom_loop_enough calls filled len :
  (length filled <= len)%nat -> (len <= length (filled ++ delivered calls))%nat ->
  exists rest, getrandom_loop calls filled len = Some (take len (filled ++ delivered calls), rest).
Proof.
  revert filled. induction calls as [|c calls IH]; intros filled Hf Hl;
    cbn [getrandom_loop delivered] in *.
  - rewrite app_nil_r in *. rewrite (proj2 (Nat.ltb_ge _ _)) by done.
    rewrite take_ge by lia. eauto.
  - destruct (Nat.ltb_spec (length filled) len) as [Hlt|Hge];
      [|rewrite take_app_le, take_ge by lia; eauto].
    destruct c as [bs| |]; [|by apply IH|rewrite app_nil_r in Hl; lia].
    rewrite app_assoc in *. destruct (decide (length bs <= len - length filled)%nat) as [Hs|Hs].
    + rewrite (take_ge bs) by done. apply IH; [rewrite length_app; lia|done].
    + assert (length (filled ++ take (len - length filled) bs) = len) as Hlen
        by (rewrite length_app, length_take; lia).
      rewrite take_app_le by (rewrite length_app; lia). rewrite take_app_ge by lia.
      destruct calls; cbn [getrandom_loop]; rewrite (proj2 (Nat.ltb_ge _ _)) by lia; eauto.
Qed.

Lemma getrandom_loop_short calls filled len :
  (length (filled ++ delivered calls) < len)%nat -> hard_error calls = true ->
  exists rest, getrandom_loop calls filled len = Some (filled ++ delivered calls, rest).
Proof.
  revert filled. induction calls as [|c calls IH]; intros filled Hl Hf; [done|].
  cbn [getrandom_loop delivered] in *. rewrite length_app in Hl.
  rewrite (proj2 (Nat.ltb_lt _ _)) by lia.
  destruct c as [bs| |]; cbn [hard_error] in Hf.
  - rewrite length_app in Hl. rewrite (take_ge bs), app_assoc by lia.
    apply IH; [rewrite !length_app; lia|done].
  - apply IH; [rewrite length_app; lia|done].
  - rewrite app_nil_r. eauto.
Qed.

(** ** A concrete instance of the library interface

    A stream cipher that xors a constant and a tag made of the first bytes: not
    secure, but it satisfies every law, so the laws are consistent. *)
Definition fit (n : nat) (l : list Z) : list Z := take n (l ++ replicate n 0).

Lemma length_fit n l : length (fit n l) = n.
Proof. unfold fit. rewrite length_take, length_app, length_replicate. lia. Qed.

Lemma fit_length l : fit (length l) l = l.
Proof. unfold fit. by rewrite take_app_length. Qed.

Lemma fit_ok n l : bytes_ok l -> bytes_ok (fit n l).
Proof.
  intros Hl. apply Forall_take, Forall_app. split; [done|].
  apply Forall_replicate. by unfold is_u8.
Qed.

Definition toy_cypher : Monocypher := {|
  poly_ctx := list Z;
  crypto_x25519_public_key := fun sk => replicate 32 (u8 (foldr Z.add 0 sk));
  crypto_x25519 := fun sk pk => replicate 32 (u8 ((1 + foldr Z.add 0 sk) * (1 + hd 0 pk)));
  crypto_chacha20_ietf := fun p n k nonce c =>
    fit n (map (fun b => Z.lxor b 90) (default (replicate n 0) p));
  crypto_poly1305_init := fun k => k;
  crypto_poly1305_update := fun c a => c ++ a;
  crypto_poly1305_final := fun c => map u8 (fit 16 c) |}.

Lemma toy_cypher_laws : @MonocypherLaws toy_cypher.
Proof.
  split; cbn -[u8 replicate hd map fit]; intros; try done.
  - f_equal. cbn [replicate hd]. unfold u8. set (x := foldr _ _ a). set (y := foldr _ _ b).
    rewrite <- (Z.mul_mod_idemp_r (1 + x)), <- (Z.mul_mod_idemp_r (1 + y)) by lia.
    rewrite !Z.add_mod_idemp_r, !Z.mul_mod_idemp_r by lia. f_equal. lia.
  - apply length_fit.
  - assert (forall f, fit (length p) (map f p) = map f p) as Hf.
    { intros f. rewrite <- (length_map f p). apply fit_length. }
    rewrite Hf, map_map, Hf. rewrite <- (map_id p) at 2. apply map_ext. intros b.
    by rewrite Z.lxor_assoc, Z.lxor_nilpotent, Z.lxor_0_r.
  - by rewrite app_assoc.
  - by rewrite length_map, length_fit.
  - apply Forall_replicate. auto with sonar.
  - apply fit_ok. apply Forall_map. eapply Forall_impl; [done|]. intros x Hx. simpl.
    by apply (lxor_range x 90 8).
  - apply Forall_map, Forall_true. auto with sonar.
Qed.

(** Sealing follows RFC 8439 (the tag covers the padded associated data,
    the padded ciphertext and both lengths under the one-time key), adds 16 bytes,
    and a recipient with the same key, nonce and associated data recovers the
    plaintext. *)
Theorem aead_seal_open `{MonocypherLaws} (key nonce aad plaintext : list Z) :
  let ct := crypto_chacha20_ietf (Some plaintext) (length plaintext) key nonce 1 in
  let sealed := chacha20poly1305_ietf_encrypt key nonce aad plaintext in
  sealed = ct ++ poly1305 (one_time_key key nonce) (mac_data aad ct) /\
  length sealed = (length plaintext + 16)%nat /\
  aead_open key nonce aad sealed = Some plaintext.
Proof.
  split; [apply encrypt_spec|]. split; [apply length_encrypt | apply open_encrypt].
Qed.

Lemma aead_seal_open_witness :
  @aead_open toy_cypher [1; 2] [3] [4; 5]
    (@chacha20poly1305_ietf_encrypt toy_cypher [1; 2] [3] [4; 5] [6; 7; 8]) = Some [6; 7; 8].
Proof. apply (@aead_seal_open toy_cypher toy_cypher_laws [1; 2] [3] [4; 5] [6; 7; 8]). Defined.

(** Random bytes: when [getrandom] delivers enough bytes before its first
    hard error (interrupted calls are retried and lose nothing), the result is the
    first [len] bytes it delivered, in order; when it fails early the bytes
    gathered so far are discarded and [/dev/urandom] is read instead; and no
    outcome other than an exception has a length different from [len]. *)
Theorem random_bytes_spec (len : nat) (e : Entropy) :
  ((len <= length (delivered (getrandom_calls e)))%nat ->
   exists rest, random_bytes len e
     = Some (Ok (take len (delivered (getrandom_calls e))), mkEntropy rest (urandom_reads e))) /\
  ((length (delivered (getrandom_calls e)) < len)%nat -> hard_error (getrandom_calls e) = true ->
   exists rest, random_bytes len e = Some (read_urandom len (mkEntropy rest (urandom_reads e)))) /\
  (forall bs e', random_bytes len e = Some (Ok bs, e') -> length bs = len).
Proof.
  split_and!; [| |intros bs e'; apply random_bytes_length].
  - intros Hl. destruct (getrandom_loop_enough (getrandom_calls e) [] len) as [rest E];
      [simpl; lia.. |]. exists rest. unfold random_bytes. rewrite E. simpl.
    by rewrite length_take, Nat.min_l, Nat.eqb_refl by done.
  - intros Hl Hf. destruct (getrandom_loop_short (getrandom_calls e) [] len) as [rest E];
      [simpl; lia.. | done|]. exists rest. unfold random_bytes. rewrite E. simpl.
    by rewrite (proj2 (Nat.eqb_neq _ _)) by lia.
Qed.

Lemma random_bytes_spec_witness :
  exists rest, random_bytes 3 (mkEntropy [GotBytes [9]; Interrupted; GotBytes [8; 7; 6]] [])
    = Some (Ok [9; 8; 7], mkEntropy rest []).
Proof.
  apply (proj1 (random_bytes_spec 3
    (mkEntropy [GotBytes [9]; Interrupted; GotBytes [8; 7; 6]] []))). simpl. lia.
Defined.

End Crypto.
