(* ===== verification/Receipt.v ===== *)
(** * Sampled runtime-weight receipts ([csrc/proof/proof.cpp])

    The tensor registry, the seeded choice of byte windows, the receipt payload
    and its sealing to the verifier's key.  BLAKE3 and PyTorch are not part of
    the repository: the hash is the class [Blake3], a tensor is the record of the
    attributes the code reads, and the dtype names are the class [DtypeNames].
    Everything else (CBOR, SHA-256, base64, the AEAD composition) is the model of
    the sibling files. *)

From S2P Require Import Prelude CanonicalCbor Sha256 Base64 Crypto.

#[local] Open Scope Z_scope.

(** BLAKE3 with its default 32-byte output. *)
Class Blake3 := blake3 : list Z -> list Z.
Class Blake3Laws `{Blake3} : Prop := {
  blake3_length l : length (blake3 l) = 32%nat;
  blake3_ok l : bytes_ok (blake3 l)
}.

Module Receipt.
Import Cbor Crypto.

Definition kProofVersion : Z := 2.
Definition kSchedulerStep : Z := 0.

(** ** Tensors *)

Inductive DeviceType := CPU | CUDA | MPS | OtherDevice (code : Z).

Inductive ScalarType :=
| kFloat | kHalf | kBFloat16 | kDouble | kIntT | kLong | kShort | kChar | kByte | kBool
| kComplexHalf | kComplexFloat | kComplexDouble | UInt16 | UInt32 | UInt64
| OtherScalar (code : Z).

#[export] Instance DeviceType_eq_dec : EqDecision DeviceType.
Proof. solve_decision. Defined.

(** What the code asks of an [at::Tensor]; [contents] are the bytes of its
    storage from [data_ptr] on, for a strided contiguous tensor. *)
Record Tensor := mkTensor {
  defined : bool; device : DeviceType; strided : bool; contiguous : bool;
  data_ptr : Z; scalar_type : ScalarType; sizes : list Z; numel : Z;
  element_size : Z; contents : list Z
}.

Definition nbytes (t : Tensor) : Z := numel t * element_size t.

(** [c10::isFloat8Type] and [c10::getDtypeNames(t).first]. *)
Class DtypeNames := { isFloat8Type : ScalarType -> bool; dtype_name : ScalarType -> list Z }.

Section with_libraries.
Context `{Monocypher} `{Blake3} `{DtypeNames}.
(** The uninitialised hash buffers. *)
Variable junk : list Z.

(** ** Helpers *)

Definition kHex : list Z := bytes_of_string "0123456789abcdef".

Definition hex_encode (data : list Z) : list Z :=
  flat_map (fun b => [kHex !!! Z.to_nat (Z.shiftr b 4); kHex !!! Z.to_nat (Z.land b 15)]) data.

Definition blake3_hexdigest (data : list Z) : list Z := hex_encode (blake3 data).

Definition u64_from_seed (seed : list Z) (counter : Z) : Z :=
  let input := seed ++ map (fun k => u8 (Z.land (Z.shiftr counter (8 * Z.of_nat k)) 255)) (seq 0 8) in
  let d := blake3 input in
  foldl (fun v i => Z.lor v (u64 (Z.shiftl (d !!! i) (8 * Z.of_nat i)))) 0 (seq 0 8).

(** ** The registry *)

Record TensorEntry := mkEntry {
  name : list Z; tensor : Tensor; dtype : list Z; shape : list Z; num_bytes : Z }.

Record Registry := mkRegistry { entries : list TensorEntry; registry_hash : list Z }.

Definition unsupported_dtype : string := "Unsupported proof tensor dtype: ".

Definition dtype_python_name (t : ScalarType) : outcome (list Z) :=
  _ ← match t with
      | OtherScalar _ => torch_check (isFloat8Type t) unsupported_dtype
      | _ => Ok tt
      end;
  let nm := dtype_name t in
  _ ← torch_check (negb (list_Z_eqb nm [])) unsupported_dtype;
  Ok (bytes_of_string "torch." ++ nm).

Definition device_supported (d : DeviceType) : bool :=
  match d with CPU | CUDA | MPS => true | OtherDevice _ => false end.

(** The set [seen] holds the keys "device:address", here the pairs. *)
Fixpoint collect_entries (ts : list (Tensor * list Z)) (seen : list (DeviceType * Z))
    (seen_names : list (list Z)) (acc : list TensorEntry) : outcome (list TensorEntry) :=
  match ts with
  | [] => Ok acc
  | (t, nm) :: ts =>
      _ ← torch_check (negb (list_Z_eqb nm [])) "Proof tensor names must be nonempty";
      _ ← torch_check (negb (bool_decide (nm ∈ seen_names))) "Duplicate proof tensor name: ";
      let seen_names := nm :: seen_names in
      if negb (defined t) then collect_entries ts seen seen_names acc
      else if negb (device_supported (device t)) then collect_entries ts seen seen_names acc
      else if negb (strided t) || (numel t =? 0) || negb (contiguous t)
      then collect_entries ts seen seen_names acc
      else if bool_decide ((device t, data_ptr t) ∈ seen)
      then collect_entries ts seen seen_names acc
      else
        dt ← dtype_python_name (scalar_type t);
        collect_entries ts ((device t, data_ptr t) :: seen) seen_names
          (acc ++ [mkEntry nm t dt (sizes t) (i64 (numel t * element_size t))])
  end.

Definition entry_metadata (e : TensorEntry) : Value :=
  MakeMap [(bytes_of_string "name", Str (name e));
           (bytes_of_string "dtype", Str (dtype e));
           (bytes_of_string "shape", Arr (map Int (shape e)));
           (bytes_of_string "num_bytes", Int (num_bytes e))].

Definition build_registry (tensors : list Tensor) (names : list (list Z)) : outcome Registry :=
  _ ← torch_check (Nat.eqb (length tensors) (length names)) "";
  es ← collect_entries (zip tensors names) [] [] [];
  let es := sort_by (fun a b => bytes_lt (name a) (name b)) es in
  Ok (mkRegistry es (blake3_hexdigest (encode (Arr (map entry_metadata es))))).

(** ** Contiguous byte reads *)

(** A host tensor is copied with [memcpy], a device tensor through a byte view
    sliced to the window: the same bytes. *)
Definition read_tensor_bytes (t : Tensor) (offset len : Z) : outcome (list Z) :=
  _ ← torch_check (defined t && strided t && contiguous t)
        "Proof byte reads require a defined, strided, contiguous tensor";
  _ ← torch_check ((0 <=? offset) && (0 <=? len))
        "Proof byte offset and length must be nonnegative";
  let total_bytes := u64 (nbytes t) in
  _ ← torch_check ((u64 offset <=? total_bytes) && (u64 len <=? u64 (total_bytes - u64 offset)))
        "Proof byte window is outside the tensor";
  Ok (take (Z.to_nat len) (drop (Z.to_nat offset) (contents t))).

(** ** The v2 op *)

Record Request := mkRequest {
  worker_id : list Z; request_id : list Z; gateway_nonce : list Z;
  model_manifest_id : list Z; output_token_ids : list Z; public_key : list Z;
  key_id : list Z; num_raw_terms : Z; raw_term_bytes : Z }.

Definition context_string_ok (s : list Z) : bool :=
  negb (list_Z_eqb s []) && negb (bool_decide (0 ∈ s)).

Definition check_request (r : Request) : outcome unit :=
  _ ← torch_check
        (forallb context_string_ok
           [worker_id r; request_id r; gateway_nonce r; model_manifest_id r])
        "Proof context strings must be nonempty and contain no NUL";
  _ ← torch_check (forallb (fun id => 0 <=? id) (output_token_ids r))
        "Proof output token IDs must be nonnegative";
  _ ← torch_check (1 <=? num_raw_terms r) "v2 requires at least one weight term";
  torch_check (16 <=? raw_term_bytes r) "".

Definition generated_token_hash (r : Request) : list Z :=
  blake3_hexdigest (encode (Arr (map Int (output_token_ids r)))).

Definition seed_of (r : Request) : list Z :=
  blake3 (encode (MakeMap
    [(bytes_of_string "nonce", Str (gateway_nonce r));
     (bytes_of_string "request_id", Str (request_id r));
     (bytes_of_string "model_manifest_id", Str (model_manifest_id r));
     (bytes_of_string "scheduler_step", Int kSchedulerStep);
     (bytes_of_string "generated_token_hash", Str (generated_token_hash r))])).

(** One chosen window. *)
Record Term := mkTerm { t_entry : TensorEntry; t_offset : Z; t_length : Z; t_raw : list Z }.

Definition term_map (t : Term) : list (list Z * Value) :=
  [(bytes_of_string "op", Str (bytes_of_string "raw_window_hash"));
   (bytes_of_string "tensor", Str (name (t_entry t)));
   (bytes_of_string "offset", Int (t_offset t));
   (bytes_of_string "length", Int (t_length t))].

Definition sketch_map (t : Term) : list (list Z * Value) :=
  term_map t ++ [(bytes_of_string "digest", Str (blake3_hexdigest (t_raw t)))].

Definition draw_term (seed : list Z) (es : list TensorEntry) (raw_bytes counter : Z)
  : outcome Term :=
  let idx := u64_from_seed seed counter mod Z.of_nat (length es) in
  match es !! Z.to_nat idx with
  | None => Throw "entries index out of range"
  | Some e =>
      let len := Z.min raw_bytes (num_bytes e) in
      let max_offset := Z.max 0 (num_bytes e - len) in
      let offset := i64 (u64_from_seed seed (u64 (counter + 1)) mod u64 (max_offset + 1)) in
      raw ← read_tensor_bytes (tensor e) offset len;
      Ok (mkTerm e offset len raw)
  end.

(** The loop over [num_raw_terms], two counter values per term. *)
Fixpoint draw_terms (n : nat) (seed : list Z) (es : list TensorEntry) (raw_bytes counter : Z)
  : outcome (list Term) :=
  match n with
  | O => Ok []
  | S n =>
      t ← draw_term seed es raw_bytes counter;
      ts ← draw_terms n seed es raw_bytes (u64 (counter + 2));
      Ok (t :: ts)
  end.

Definition payload (r : Request) (reg : Registry) (ts : list Term) : Value :=
  let weight_proof := blake3_hexdigest (encode (Arr (map (fun t => MakeMap (sketch_map t)) ts))) in
  MakeMap
    [(bytes_of_string "version", Int kProofVersion);
     (bytes_of_string "worker_id", Str (worker_id r));
     (bytes_of_string "request_id", Str (request_id r));
     (bytes_of_string "gateway_nonce", Str (gateway_nonce r));
     (bytes_of_string "model_manifest_id", Str (model_manifest_id r));
     (bytes_of_string "scheduler_step", Int kSchedulerStep);
     (bytes_of_string "tensor_registry_hash", Str (registry_hash reg));
     (bytes_of_string "generated_token_hash", Str (generated_token_hash r));
     (bytes_of_string "terms", Arr (map (fun t => MakeMap (term_map t)) ts));
     (bytes_of_string "weight_proof", Str weight_proof)].

(** Additional authenticated data: three context strings, NUL-separated. *)
Definition receipt_aad (r : Request) : list Z :=
  worker_id r ++ [0] ++ gateway_nonce r ++ [0] ++ model_manifest_id r.

Definition receipt_key (shared aad : list Z) : list Z :=
  Sha256.hkdf_sha256_32 junk shared (bytes_of_string "dphn-proof-v2" ++ aad).

Definition envelope (r : Request) (epk nonce ct : list Z) : Value :=
  MakeMap [(bytes_of_string "v", Int kProofVersion);
           (bytes_of_string "kid", Str (key_id r));
           (bytes_of_string "epk", Bytes epk);
           (bytes_of_string "n", Bytes nonce);
           (bytes_of_string "ct", Bytes ct)].

(** Everything before the first use of randomness: the payload or an error. *)
Definition prepare (tensors : list Tensor) (names : list (list Z)) (r : Request)
  : outcome Value :=
  _ ← check_request r;
  reg ← build_registry tensors names;
  _ ← torch_check (negb (Nat.eqb (length (entries reg)) 0)) "";
  ts ← draw_terms (Z.to_nat (num_raw_terms r)) (seed_of r) (entries reg) (raw_term_bytes r) 0;
  Ok (payload r reg ts).

Definition zero_secret : string := "DPHN proof: X25519 shared secret is all zeros".

(** Sealing: ephemeral key, agreement, key derivation, AEAD, envelope. *)
Definition seal (r : Request) (payload_bytes : list Z) (e : Entropy)
  : option (outcome (list Z) * Entropy) :=
  '(o, e) ← random_bytes 32 e;
  match o with
  | Throw m => Some (Throw m, e)
  | Ok ephemeral_private =>
      let ephemeral_public := x25519_public_key ephemeral_private in
      match Base64.load_x25519_public_key (public_key r) with
      | Throw m => Some (Throw m, e)
      | Ok peer_public =>
          let '(shared, usable) := x25519_shared_secret ephemeral_private peer_public in
          if negb usable then Some (Throw zero_secret, e)
          else
            let aad := receipt_aad r in
            let key := receipt_key shared aad in
            '(o, e) ← random_bytes 12 e;
            match o with
            | Throw m => Some (Throw m, e)
            | Ok nonce =>
                let ciphertext := chacha20poly1305_ietf_encrypt key nonce aad payload_bytes in
                Some (Ok (Base64.b64url_encode_nopad
                            (encode (envelope r ephemeral_public nonce ciphertext))), e)
            end
      end
  end.

Definition dphn_prove_v2 (tensors : list Tensor) (names : list (list Z)) (r : Request)
    (e : Entropy) : option (outcome (list Z) * Entropy) :=
  match prepare tensors names r with
  | Throw m => Some (Throw m, e)
  | Ok p => seal r (encode p) e
  end.


(** ** The seeded generator *)

Section laws.
Context `{!MonocypherLaws} `{!Blake3Laws}.

Lemma u64_from_seed_range seed counter : is_u64 (u64_from_seed seed counter).
Proof.
  unfold u64_from_seed. set (d := blake3 _). clearbody d.
  assert (forall l v, is_u64 v ->
    is_u64 (foldl (fun v i => Z.lor v (u64 (Z.shiftl (d !!! i) (8 * Z.of_nat i)))) v l)) as Hf.
  { induction l as [|i l IH]; intros v Hv; simpl; [done|]. apply IH.
    by apply (lor_range _ _ 64); [|done|apply u64_range]. }
  by apply Hf.
Qed.

(** ** Windows *)

(** What [build_registry] establishes of an entry (below). *)
Definition entry_ok (e : TensorEntry) : Prop :=
  defined (tensor e) && strided (tensor e) && contiguous (tensor e) = true /\
  num_bytes e = nbytes (tensor e) /\ 0 < num_bytes e < 2 ^ 63 /\
  Z.of_nat (length (contents (tensor e))) = num_bytes e.

(** A window inside its tensor, of the requested size or the whole tensor, and
    the bytes that are there. *)
Definition term_ok (raw_bytes : Z) (t : Term) : Prop :=
  t_length t = Z.min raw_bytes (num_bytes (t_entry t)) /\
  0 <= t_offset t /\ t_offset t + t_length t <= num_bytes (t_entry t) /\
  Z.of_nat (length (t_raw t)) = t_length t /\
  forall i, 0 <= i < t_length t ->
    t_raw t !! Z.to_nat i = contents (tensor (t_entry t)) !! Z.to_nat (t_offset t + i).

Lemma read_tensor_bytes_ok e offset len :
  entry_ok e -> 0 <= offset -> 0 <= len -> offset + len <= num_bytes e ->
  read_tensor_bytes (tensor e) offset len
  = Ok (take (Z.to_nat len) (drop (Z.to_nat offset) (contents (tensor e)))).
Proof.
  intros (Hl & Hn & Hb & _) Ho Hlen Hs. unfold read_tensor_bytes. rewrite Hl. simpl.
  rewrite (proj2 (Z.leb_le 0 offset)), (proj2 (Z.leb_le 0 len)) by done. simpl.
  rewrite !u64_id by (unfold is_u64; rewrite <- ?Hn, ?u64_id by (unfold is_u64; lia); lia).
  rewrite (proj2 (Z.leb_le _ _)), (proj2 (Z.leb_le _ _)) by lia. done.
Qed.

Lemma draw_term_ok seed es raw_bytes counter :
  es <> [] -> Forall entry_ok es -> 1 <= raw_bytes < 2 ^ 63 ->
  exists t, draw_term seed es raw_bytes counter = Ok t /\ t_entry t ∈ es /\ term_ok raw_bytes t.
Proof.
  intros Hne Hes Hraw. unfold draw_term.
  assert (0 < Z.of_nat (length es)) as Hlen by (destruct es; [done|simpl; lia]).
  set (idx := u64_from_seed seed counter mod Z.of_nat (length es)).
  assert (0 <= idx < Z.of_nat (length es)) as Hidx by (by apply Z.mod_pos_bound).
  destruct (lookup_lt_is_Some_2 es (Z.to_nat idx)) as [e He]; [lia|]. rewrite He.
  apply list_elem_of_lookup_2 in He. pose proof (proj1 (Forall_forall _ _) Hes e He) as Hok.
  pose proof Hok as (Hl & Hn & Hb & Hc).
  set (len := Z.min raw_bytes (num_bytes e)).
  assert (1 <= len <= num_bytes e /\ len <= raw_bytes) as Hle by (unfold len; lia).
  rewrite (Z.max_r 0) by lia. rewrite (u64_id (num_bytes e - len + 1)) by (unfold is_u64; lia).
  set (o := u64_from_seed _ _ mod _).
  assert (0 <= o < num_bytes e - len + 1) as Ho by (apply Z.mod_pos_bound; lia).
  rewrite (i64_id o) by (unfold is_i64; lia).
  rewrite read_tensor_bytes_ok by (done || lia). simpl. eexists. split; [done|]. simpl.
  split; [done|]. unfold term_ok; simpl. split_and!; [done|lia|lia| |].
  - rewrite length_take, length_drop. lia.
  - intros i Hi. rewrite lookup_take_lt, lookup_drop by lia. f_equal. lia.
Qed.

Lemma draw_terms_ok n seed es raw_bytes counter :
  es <> [] -> Forall entry_ok es -> 1 <= raw_bytes < 2 ^ 63 ->
  exists ts, draw_terms n seed es raw_bytes counter = Ok ts /\ length ts = n /\
             Forall (fun t => t_entry t ∈ es /\ term_ok raw_bytes t) ts.
Proof.
  intros Hne Hes Hraw. revert counter. induction n as [|n IH]; intros counter; simpl.
  { by exists []. }
  destruct (draw_term_ok seed es raw_bytes counter) as (t & -> & Ht); [done..|].
  destruct (IH (u64 (counter + 2))) as (ts & Hts & Hl & Hf). simpl. rewrite Hts. simpl.
  exists (t :: ts). split_and!; [done|simpl; lia|by constructor].
Qed.

End laws.

(** ** The registry *)

(** Tensors the receipt can sample. *)
Definition eligible (t : Tensor) : bool :=
  defined t && device_supported (device t) && strided t && negb (numel t =? 0) && contiguous t.

(** The storage a tensor occupies, as the deduplication key sees it. *)
Definition storage (t : Tensor) : DeviceType * Z := (device t, data_ptr t).

(** Reference: the first eligible tensor of each storage. *)
Fixpoint select (ts : list (Tensor * list Z)) (seen : list (DeviceType * Z))
  : list (Tensor * list Z) :=
  match ts with
  | [] => []
  | (t, nm) :: ts =>
      if eligible t && negb (bool_decide (storage t ∈ seen))
      then (t, nm) :: select ts (storage t :: seen)
      else select ts seen
  end.

Definition entry_of (p : Tensor * list Z) (e : TensorEntry) : Prop :=
  tensor e = p.1 /\ name e = p.2 /\ dtype_python_name (scalar_type p.1) = Ok (dtype e) /\
  shape e = sizes p.1 /\ num_bytes e = i64 (nbytes p.1).

(** One turn of the loop, with the skips folded into one condition. *)
Lemma collect_entries_cons t nm ts seen seen_names acc :
  collect_entries ((t, nm) :: ts) seen seen_names acc =
  (_ ← torch_check (negb (list_Z_eqb nm [])) "Proof tensor names must be nonempty";
   _ ← torch_check (negb (bool_decide (nm ∈ seen_names))) "Duplicate proof tensor name: ";
   if eligible t && negb (bool_decide (storage t ∈ seen)) then
     dt ← dtype_python_name (scalar_type t);
     collect_entries ts (storage t :: seen) (nm :: seen_names)
       (acc ++ [mkEntry nm t dt (sizes t) (i64 (nbytes t))])
   else collect_entries ts seen (nm :: seen_names) acc).
Proof.
  cbn [collect_entries]. unfold eligible, storage, nbytes.
  destruct (list_Z_eqb nm []), (bool_decide (nm ∈ seen_names)); simpl; try done.
  by destruct (defined t), (device_supported (device t)), (strided t), (numel t =? 0),
    (contiguous t), (bool_decide ((device t, data_ptr t) ∈ seen)).
Qed.

Lemma collect_sound ts seen seen_names acc es :
  collect_entries ts seen seen_names acc = Ok es ->
  NoDup ts.*2 /\ Forall (fun nm => nm <> [] /\ nm ∉ seen_names) ts.*2 /\
  exists new, es = acc ++ new /\ Forall2 entry_of (select ts seen) new.
Proof.
  revert seen seen_names acc. induction ts as [|[t nm] ts IH]; intros seen seen_names acc Hc.
  { simpl in *. simplify_eq. split_and!; [constructor..|]. exists []. by rewrite app_nil_r. }
  rewrite collect_entries_cons in Hc. cbn [select].
  destruct (list_Z_eqb_spec nm []) as [|Hnm]; [done|].
  destruct (bool_decide_reflect (nm ∈ seen_names)) as [|Hnew]; [done|]. simpl in Hc.
  assert (forall l : list (list Z), Forall (fun n => n <> [] /\ n ∉ nm :: seen_names) l ->
            Forall (fun n => n <> [] /\ n ∉ seen_names) l /\ nm ∉ l) as Hweak.
  { intros l Hl. rewrite Forall_forall in Hl. rewrite Forall_forall. split.
    - intros x Hx. destruct (Hl x Hx) as [? [_ ?]%not_elem_of_cons]. done.
    - intros Hx. destruct (Hl nm Hx) as [_ [? _]%not_elem_of_cons]. done. }
  destruct (eligible t && _).
  - inv_ok Hc. apply IH in Hc as (Hnd & Hf & new & -> & Hn). apply Hweak in Hf as [Hf Hni].
    simpl. split_and!; [by constructor|by constructor|].
    exists (mkEntry nm t a (sizes t) (i64 (nbytes t)) :: new). rewrite <- app_assoc.
    split; [done|]. by constructor.
  - apply IH in Hc as (Hnd & Hf & new & -> & Hn). apply Hweak in Hf as [Hf Hni].
    simpl. split_and!; [by constructor|by constructor|eauto].
Qed.

Lemma collect_complete ts seen seen_names acc :
  NoDup ts.*2 -> Forall (fun nm => nm <> [] /\ nm ∉ seen_names) ts.*2 ->
  Forall (fun p => exists d, dtype_python_name (scalar_type p.1) = Ok d) (select ts seen) ->
  exists es, collect_entries ts seen seen_names acc = Ok es.
Proof.
  revert seen seen_names acc. induction ts as [|[t nm] ts IH]; intros seen seen_names acc Hnd Hf Hd.
  { by eexists. }
  rewrite collect_entries_cons. simpl in *. apply NoDup_cons in Hnd as [Hni Hnd].
  apply Forall_cons in Hf as [[Hnm Hnew] Hf].
  destruct (list_Z_eqb_spec nm []); [done|]. rewrite (bool_decide_eq_false_2 (nm ∈ _)) by done. simpl.
  assert (Forall (fun n => n <> [] /\ n ∉ nm :: seen_names) ts.*2) as Hf'.
  { rewrite Forall_forall in *. intros x Hx. destruct (Hf x Hx).
    split; [done|]. apply not_elem_of_cons. split; [|done]. by intros ->. }
  destruct (eligible t && _); [|by apply IH].
  apply Forall_cons in Hd as [[d Hdt] Hd]. simpl in Hdt. rewrite Hdt. simpl. by apply IH.
Qed.

(** [select] keeps eligible tensors, one per storage, and misses none. *)
Lemma select_spec ts seen :
  select ts seen `sublist_of` ts /\
  Forall (fun p => eligible p.1 = true /\ storage p.1 ∉ seen) (select ts seen) /\
  NoDup (map (fun p => storage p.1) (select ts seen)) /\
  (forall p, p ∈ ts -> eligible p.1 = true ->
     storage p.1 ∈ seen \/ exists q, q ∈ select ts seen /\ storage q.1 = storage p.1).
Proof.
  revert seen. induction ts as [|[t nm] ts IH]; intros seen; cbn [select].
  { split_and!; [constructor..|]. by intros p ?%not_elem_of_nil. }
  destruct (eligible t) eqn:El, (decide (storage t ∈ seen)) as [Hs|Hs];
    [rewrite bool_decide_eq_true_2 by done|rewrite bool_decide_eq_false_2 by done|..]; simpl.
  2:{ destruct (IH (storage t :: seen)) as (I1 & I2 & I3 & I4).
      split_and!.
      - by constructor.
      - constructor; [done|]. eapply Forall_impl; [done|]. simpl.
        intros p [? Hn]. split; [done|]. by apply not_elem_of_cons in Hn as [_ ?].
      - constructor; [|done]. intros Hin. apply list_elem_of_fmap in Hin as (q & Hq & Hin).
        rewrite Forall_forall in I2. destruct (I2 q Hin) as [_ Hn]. apply Hn.
        simpl in Hq. rewrite <- Hq. constructor.
      - intros p [->|Hp]%elem_of_cons Hp'.
        + right. exists (t, nm). split; [constructor|done].
        + destruct (I4 p Hp Hp') as [[Heq|Hin]%elem_of_cons|(q & Hq & Heq)].
          * right. exists (t, nm). split; [constructor|done].
          * by left.
          * right. exists q. split; [by constructor|done]. }
  all: destruct (IH seen) as (I1 & I2 & I3 & I4); split_and!; [by constructor|done|done|];
    intros p [->|Hp]%elem_of_cons Hp'; [|by apply I4]; simpl in *; try congruence; by left.
Qed.

(** What PyTorch guarantees of a tensor's attributes. *)
Definition tensor_wf (t : Tensor) : Prop :=
  0 <= numel t /\ 1 <= element_size t /\ nbytes t < 2 ^ 63 /\
  (defined t = true -> Z.of_nat (length (contents t)) = nbytes t).

Definition by_name (a b : TensorEntry) : bool := bytes_lt (name a) (name b).

#[local] Instance by_name_strict : StrictWeak by_name.
Proof. split; unfold by_name; intros; [by apply (sw_asym bytes_lt) | by eapply (sw_trans bytes_lt)]. Qed.

Lemma Forall2_elem_r {A B} (P : A -> B -> Prop) l k y :
  Forall2 P l k -> y ∈ k -> exists x, x ∈ l /\ P x y.
Proof.
  induction 1 as [|a b l' k' Hab _ IH]; [by intros ?%not_elem_of_nil|].
  intros [->|Hy]%elem_of_cons; [exists a; split; [constructor|done]|].
  destruct (IH Hy) as (x & ? & ?). exists x. split; [by constructor|done].
Qed.

Lemma Forall2_elem_l {A B} (P : A -> B -> Prop) l k x :
  Forall2 P l k -> x ∈ l -> exists y, y ∈ k /\ P x y.
Proof.
  intros Hp Hx. apply Forall2_flip in Hp. by apply (Forall2_elem_r (flip P) k l).
Qed.

Lemma Forall2_map_eq {A B C} (P : A -> B -> Prop) (f : A -> C) (g : B -> C) l k :
  (forall a b, P a b -> f a = g b) -> Forall2 P l k -> map f l = map g k.
Proof. intros Hfg. induction 1; simpl; f_equal; eauto. Qed.

(** [build_registry] is the selection, sorted by name. *)
Lemma build_registry_select tensors names reg :
  build_registry tensors names = Ok reg ->
  length tensors = length names /\ NoDup names /\ ([] ∉ names) /\
  exists new, Forall2 entry_of (select (zip tensors names) []) new /\
              entries reg = sort_by by_name new.
Proof.
  unfold build_registry. intros Hb. inv_ok Hb. unfold torch_check in Hok.
  destruct (Nat.eqb_spec (length tensors) (length names)) as [Hl|]; [|done].
  inv_ok Hb. apply collect_sound in Hok0 as (Hnd & Hf & new & -> & Hn). simplify_eq. simpl.
  rewrite snd_zip in Hnd, Hf by lia. split_and!; [done|done| |by exists new].
  intros Hin. rewrite Forall_forall in Hf. by destruct (Hf [] Hin).
Qed.

Lemma names_of_select ts seen : NoDup ts.*2 -> NoDup (select ts seen).*2.
Proof.
  intros Hnd. destruct (select_spec ts seen) as [Hs _].
  eapply sublist_NoDup; [done|]. by apply fmap_sublist.
Qed.

(** Sorting distinct names gives a strictly increasing sequence. *)
Lemma sorted_names_strict es :
  NoDup (map name es) ->
  StronglySorted (fun a b => bytes_lt (name a) (name b) = true) (sort_by by_name es).
Proof.
  intros Hnd. pose proof (sort_by_sorted by_name es) as Hs.
  assert (NoDup (map name (sort_by by_name es))) as Hnd'
    by (by rewrite (sort_by_perm by_name es)).
  revert Hs Hnd'. induction (sort_by by_name es) as [|e l IH]; intros Hs Hn; [constructor|].
  apply StronglySorted_inv in Hs as [Hs He]. simpl in Hn. apply NoDup_cons in Hn as [Hni Hn].
  constructor; [by apply IH|]. rewrite Forall_forall in *. intros x Hx.
  pose proof (He x Hx) as Hb. unfold not_after, by_name in Hb.
  destruct (bytes_lt (name e) (name x)) eqn:E; [done|]. destruct Hni.
  rewrite (bytes_lt_total _ _ E Hb). by apply list_elem_of_fmap_2.
Qed.

Lemma entry_of_ok p e :
  entry_of p e -> eligible p.1 = true -> tensor_wf p.1 -> entry_ok e.
Proof.
  intros (Ht & _ & _ & _ & Hn) He (Hnum & Hel & Hmax & Hc). unfold entry_ok. rewrite Ht.
  unfold eligible in He. repeat (apply andb_prop in He as [He ?]).
  assert (0 < numel p.1) by (destruct (Z.eqb_spec (numel p.1) 0); [done|lia]).
  assert (0 < nbytes p.1) by (unfold nbytes; nia).
  rewrite Hn, i64_id by (unfold is_i64; lia).
  split_and!; [|done|lia|lia|by apply Hc].
  by repeat (apply andb_true_intro; split).
Qed.

(** The registry's contents, as the claim below states them. *)
Lemma registry_facts tensors names reg :
  build_registry tensors names = Ok reg ->
  NoDup names /\ ([] ∉ names) /\
  StronglySorted (fun a b => bytes_lt (name a) (name b) = true) (entries reg) /\
  NoDup (map (fun e => storage (tensor e)) (entries reg)) /\
  Forall (fun e => exists p, p ∈ zip tensors names /\ entry_of p e /\ eligible p.1 = true)
    (entries reg) /\
  (forall t, t ∈ tensors -> eligible t = true ->
     exists e, e ∈ entries reg /\ storage (tensor e) = storage t).
Proof.
  intros Hb. apply build_registry_select in Hb as (Hl & Hnd & Hne & new & Hn & ->).
  destruct (select_spec (zip tensors names) []) as (S1 & S2 & S3 & S4).
  assert (map name new = (select (zip tensors names) []).*2) as Hnames.
  { symmetry. apply (Forall2_map_eq entry_of snd name); [by intros a b (_ & -> & _)|done]. }
  split_and!; [done|done| | | |].
  - apply sorted_names_strict. rewrite Hnames. apply names_of_select.
    by rewrite snd_zip by lia.
  - rewrite (sort_by_perm by_name new).
    rewrite <- (Forall2_map_eq entry_of (fun p => storage p.1) (fun e => storage (tensor e))
                  (select (zip tensors names) [])); [done| |done].
    by intros a b (-> & _).
  - rewrite (sort_by_perm by_name new). apply Forall_forall. intros e He.
    destruct (Forall2_elem_r _ _ _ e Hn He) as (p & Hp & Hpe). exists p.
    rewrite Forall_forall in S2. destruct (S2 p Hp) as [? _].
    split_and!; [|done|done]. by eapply elem_of_sublist.
  - intros t Ht Hel. apply list_elem_of_lookup in Ht as [i Hi].
    destruct (lookup_lt_is_Some_2 names i) as [nm Hnm].
    { rewrite <- Hl. by eapply lookup_lt_Some. }
    destruct (S4 (t, nm)) as [?%not_elem_of_nil|(q & Hq & Hst)]; [|done|done|].
    { apply list_elem_of_lookup. exists i. by rewrite lookup_zip_with, Hi, Hnm. }
    destruct (Forall2_elem_l _ _ _ q Hn Hq) as (e & He & Hqe). exists e.
    rewrite (sort_by_perm by_name new). split; [done|]. by rewrite (proj1 Hqe).
Qed.

(** ** The payload is well formed *)

Lemma hex_encode_ok l : bytes_ok (hex_encode l).
Proof.
  assert (forall i, is_u8 (kHex !!! i)) as Hh.
  { intros i. rewrite list_lookup_total_alt. destruct (kHex !! i) eqn:E; [|done].
    apply list_elem_of_lookup_2 in E.
    pose proof (bytes_of_string_ok "0123456789abcdef") as Hb. unfold bytes_ok in Hb.
    rewrite Forall_forall in Hb. by apply Hb. }
  induction l as [|b l IH]; simpl; [constructor|]. repeat (constructor; [apply Hh|]). apply IH.
Qed.

Lemma length_hex_encode l : length (hex_encode l) = (2 * length l)%nat.
Proof. induction l as [|b l IH]; simpl; [done|]. rewrite IH. lia. Qed.

Definition str_ok (t : list Z) : Prop := bytes_ok t /\ len64 t = true.

Lemma hexdigest_ok `{!Blake3Laws} l : str_ok (blake3_hexdigest l).
Proof.
  split; [apply hex_encode_ok|]. unfold blake3_hexdigest, len64.
  rewrite length_hex_encode, blake3_length. done.
Qed.

Lemma literal_ok (t : string) :
  (String.length t < 1000)%nat -> str_ok (bytes_of_string t).
Proof.
  intros Hl. split; [apply bytes_of_string_ok|]. unfold len64, bytes_of_string.
  rewrite length_map. apply Z.ltb_lt.
  replace (length (String.list_ascii_of_string t)) with (String.length t); [lia|].
  clear Hl. induction t; simpl; congruence.
Qed.

(** The part of the context that ends up in the envelope and the payload. *)
Definition request_ok (r : Request) : Prop :=
  str_ok (worker_id r) /\ str_ok (request_id r) /\ str_ok (gateway_nonce r) /\
  str_ok (model_manifest_id r) /\ str_ok (key_id r) /\
  num_raw_terms r < 2 ^ 63 /\ raw_term_bytes r < 2 ^ 63.

Lemma field_wf (k : string) v m :
  (String.length k < 1000)%nat -> wf v = true ->
  forallb (fun e => match e with (k, v) => len64 k && wf v end) m = true ->
  forallb (fun e => match e with (k, v) => len64 k && wf v end) ((bytes_of_string k, v) :: m)
  = true.
Proof.
  intros Hk Hv Hm. cbn [forallb]. rewrite Hm, Hv. by rewrite (proj2 (literal_ok k Hk)).
Qed.

Lemma field_vbytes (k : string) v m :
  (String.length k < 1000)%nat -> vbytes v ->
  Forall (fun e => bytes_ok e.1 /\ vbytes e.2) m ->
  Forall (fun e => bytes_ok e.1 /\ vbytes e.2) ((bytes_of_string k, v) :: m).
Proof. intros. constructor; [split; [apply bytes_of_string_ok|done]|done]. Qed.

Definition value_ok (v : Value) : Prop := wf v = true /\ vbytes v.

(** A map with literal keys is well formed when its values are. *)
Lemma fields_ok (fs : list (string * Value)) :
  (length fs < 1000)%nat ->
  Forall (fun f => (String.length f.1 < 1000)%nat /\ value_ok f.2) fs ->
  value_ok (MakeMap (map (fun f => (bytes_of_string f.1, f.2)) fs)).
Proof.
  intros Hl Hf. split.
  - cbn [MakeMap wf]. apply andb_true_intro. split.
    { unfold len64. apply Z.ltb_lt. rewrite length_map. lia. }
    clear Hl. induction Hf as [|[k v] fs [Hk [Hv _]] _ IH]; [done|]. by apply field_wf.
  - constructor. clear Hl. induction Hf as [|[k v] fs [Hk [_ Hv]] _ IH]; [constructor|].
    by apply field_vbytes.
Qed.

Lemma str_value_ok t : str_ok t -> value_ok (Str t).
Proof. intros []. split; [done|by constructor]. Qed.
Lemma int_value_ok i : is_i64 i -> value_ok (Int i).
Proof.
  intros [Hlo Hhi]. split; [|constructor]. apply andb_true_intro. split.
  - by apply Z.leb_le.
  - by apply Z.ltb_lt.
Qed.
Lemma arr_value_ok l : len64 l = true -> Forall value_ok l -> value_ok (Arr l).
Proof.
  intros Hl Hf. split.
  - cbn [Arr wf]. rewrite Hl. simpl. clear Hl.
    induction Hf as [|v l' [Hv _] _ IH]; [done|]. simpl. by rewrite Hv.
  - constructor. eapply Forall_impl; [done|]. by intros v [_ ?].
Qed.

Hint Resolve str_value_ok int_value_ok hexdigest_ok : sonar.

Lemma term_value_ok `{!Blake3Laws} raw_bytes t :
  1 <= raw_bytes -> entry_ok (t_entry t) -> term_ok raw_bytes t -> str_ok (name (t_entry t)) ->
  value_ok (MakeMap (term_map t)).
Proof.
  intros Hr (_ & _ & Hb & _) (Hl & Ho & Hs & _) Hn.
  apply (fields_ok [("op"%string, Str (bytes_of_string "raw_window_hash"));
                    ("tensor"%string, Str (name (t_entry t)));
                    ("offset"%string, Int (t_offset t)); ("length"%string, Int (t_length t))]).
  { simpl; lia. }
  repeat (constructor; [split; [simpl; lia|]; simpl|]); [| | | |constructor].
  - apply str_value_ok, literal_ok. simpl; lia.
  - by apply str_value_ok.
  - apply int_value_ok. unfold is_i64. lia.
  - apply int_value_ok. unfold is_i64. lia.
Qed.

Lemma payload_ok `{!Blake3Laws} r reg ts :
  request_ok r -> len64 ts = true -> str_ok (registry_hash reg) ->
  Forall (fun t => value_ok (MakeMap (term_map t))) ts -> value_ok (payload r reg ts).
Proof.
  intros (Hw & Hi & Hg & Hm & _) Hl Hh Ht. unfold payload.
  set (wp := blake3_hexdigest _). assert (str_ok wp) by apply hexdigest_ok. clearbody wp.
  apply (fields_ok
    [("version"%string, Int kProofVersion); ("worker_id"%string, Str (worker_id r));
     ("request_id"%string, Str (request_id r)); ("gateway_nonce"%string, Str (gateway_nonce r));
     ("model_manifest_id"%string, Str (model_manifest_id r));
     ("scheduler_step"%string, Int kSchedulerStep);
     ("tensor_registry_hash"%string, Str (registry_hash reg));
     ("generated_token_hash"%string, Str (generated_token_hash r));
     ("terms"%string, Arr (map (fun t => MakeMap (term_map t)) ts));
     ("weight_proof"%string, Str wp)]); [simpl; lia|].
  repeat (constructor; [split; [simpl; lia|]; cbn [snd]|]); auto with sonar;
    try (apply int_value_ok; unfold is_i64, kProofVersion, kSchedulerStep; lia).
  - apply str_value_ok, hexdigest_ok.
  - apply arr_value_ok; [|by apply Forall_map]. unfold len64 in *. by rewrite length_map.
Qed.

(** ** Preparing a receipt *)

(** Inputs for which the op must not throw before sealing. *)
Definition inputs_ok (tensors : list Tensor) (names : list (list Z)) (r : Request) : Prop :=
  check_request r = Ok tt /\ request_ok r /\ length tensors = length names /\
  NoDup names /\ ([] ∉ names) /\ Forall str_ok names /\ Forall tensor_wf tensors /\
  Forall (fun t => eligible t = true -> exists d, dtype_python_name (scalar_type t) = Ok d)
    tensors /\
  Exists (fun t => eligible t = true) tensors.

Lemma build_registry_total tensors names r :
  inputs_ok tensors names r -> exists reg, build_registry tensors names = Ok reg.
Proof.
  intros (_ & _ & Hl & Hnd & Hne & _ & _ & Hd & _). unfold build_registry.
  rewrite Hl, Nat.eqb_refl. simpl.
  destruct (collect_complete (zip tensors names) [] [] []) as [es ->].
  - by rewrite snd_zip by lia.
  - rewrite snd_zip by lia. apply Forall_forall. intros nm Hnm.
    split; [by intros -> | apply not_elem_of_nil].
  - destruct (select_spec (zip tensors names) []) as (S1 & S2 & _).
    apply Forall_forall. intros p Hp. rewrite Forall_forall in S2. rewrite Forall_forall in Hd.
    apply Hd; [|by apply S2]. pose proof (elem_of_sublist _ _ _ Hp S1) as Hin.
    destruct p as [t nm]. by apply elem_of_zip_l in Hin.
  - simpl. eauto.
Qed.

Lemma registry_hash_ok `{!Blake3Laws} tensors names reg :
  build_registry tensors names = Ok reg -> str_ok (registry_hash reg).
Proof.
  unfold build_registry. intros Hb. inv_ok Hb. inv_ok Hb. simplify_eq. simpl. apply hexdigest_ok.
Qed.

Lemma registry_entries_ok tensors names r reg :
  inputs_ok tensors names r -> build_registry tensors names = Ok reg ->
  entries reg <> [] /\ Forall (fun e => entry_ok e /\ str_ok (name e)) (entries reg).
Proof.
  intros (_ & _ & Hl & _ & _ & Hs & Hw & _ & Hex) Hb.
  destruct (registry_facts _ _ _ Hb) as (_ & _ & _ & _ & Hf & Hc). split.
  - apply Exists_exists in Hex as (t & Ht & Hel). destruct (Hc t Ht Hel) as (e & He & _).
    intros E. rewrite E in He. by apply not_elem_of_nil in He.
  - eapply Forall_impl; [done|]. intros e ([t nm] & Hin & He & Hel). split.
    + apply (entry_of_ok (t, nm)); [done|done|]. rewrite Forall_forall in Hw. apply Hw.
      by apply elem_of_zip_l in Hin.
    + destruct He as (_ & -> & _). rewrite Forall_forall in Hs. apply Hs.
      by apply elem_of_zip_r in Hin.
Qed.

Lemma check_request_inv r :
  check_request r = Ok tt ->
  Forall (fun t => t <> [] /\ 0 ∉ t) [worker_id r; request_id r; gateway_nonce r; model_manifest_id r]
  /\ 1 <= num_raw_terms r /\ 16 <= raw_term_bytes r.
Proof.
  unfold check_request, torch_check. intros Hc.
  destruct (forallb context_string_ok _) eqn:Hs; [|done]. simpl in Hc.
  destruct (forallb _ (output_token_ids r)); [|done]. simpl in Hc.
  destruct (Z.leb_spec 1 (num_raw_terms r)); [|done]. simpl in Hc.
  destruct (Z.leb_spec 16 (raw_term_bytes r)); [|done]. split_and!; [|done|done].
  apply Forall_forall. intros t Ht. apply (proj1 (forallb_forall _ _)) with (x := t) in Hs;
    [|by apply list_elem_of_In]. unfold context_string_ok in Hs.
  apply andb_prop in Hs as [H1' H2'].
  destruct (list_Z_eqb_spec t []); [done|]. split; [done|].
  by destruct (bool_decide_reflect (0 ∈ t)).
Qed.

Lemma prepare_ok `{!Blake3Laws} tensors names r :
  inputs_ok tensors names r ->
  exists reg ts,
    build_registry tensors names = Ok reg /\
    prepare tensors names r = Ok (payload r reg ts) /\
    Z.of_nat (length ts) = num_raw_terms r /\
    Forall (fun t => t_entry t ∈ entries reg /\ term_ok (raw_term_bytes r) t) ts /\
    value_ok (payload r reg ts).
Proof.
  intros Hin. destruct (build_registry_total _ _ _ Hin) as [reg Hreg].
  destruct (registry_entries_ok _ _ _ _ Hin Hreg) as [Hne Hes].
  pose proof Hin as (Hcheck & Hreq & _).
  destruct (check_request_inv _ Hcheck) as (_ & Hn & Hb).
  assert (num_raw_terms r < 2 ^ 63 /\ raw_term_bytes r < 2 ^ 63) as [Hn2 Hb2]
    by (destruct Hreq as (_ & _ & _ & _ & _ & ? & ?); done).
  destruct (draw_terms_ok (Z.to_nat (num_raw_terms r)) (seed_of r) (entries reg)
              (raw_term_bytes r) 0) as (ts & Hts & Hlen & Hf); [done| |lia|].
  { eapply Forall_impl; [done|]. by intros e [? _]. }
  exists reg, ts. split; [done|]. split; [|split; [|split; [done|]]].
  - unfold prepare. rewrite Hcheck. simpl. rewrite Hreg. simpl.
    destruct (Nat.eqb_spec (length (entries reg)) 0) as [E|]; [by apply nil_length_inv in E|].
    simpl. by rewrite Hts.
  - lia.
  - apply payload_ok; [done| |by eapply registry_hash_ok|].
    + unfold len64. apply Z.ltb_lt. lia.
    + rewrite Forall_forall in Hes. eapply Forall_impl; [done|]. intros t [He Hok].
      destruct (Hes _ He). apply (term_value_ok (raw_term_bytes r)); [lia|done..].
Qed.

(** ** Sealing and opening *)

Lemma split_at_nul (a b a' b' : list Z) :
  0 ∉ a -> 0 ∉ a' -> a ++ 0 :: b = a' ++ 0 :: b' -> a = a' /\ b = b'.
Proof.
  revert a'. induction a as [|x a IH]; intros [|y a'] Ha Ha' E; simplify_eq/=; [done| | |].
  - destruct Ha'. constructor.
  - destruct Ha. constructor.
  - apply not_elem_of_cons in Ha as [_ Ha], Ha' as [_ Ha'].
    by destruct (IH a' Ha Ha') as [-> ->].
Qed.

Lemma receipt_aad_inj r1 r2 :
  check_request r1 = Ok tt -> check_request r2 = Ok tt -> receipt_aad r1 = receipt_aad r2 ->
  worker_id r1 = worker_id r2 /\ gateway_nonce r1 = gateway_nonce r2 /\
  model_manifest_id r1 = model_manifest_id r2.
Proof.
  intros (F1 & _)%check_request_inv (F2 & _)%check_request_inv E.
  rewrite !Forall_cons in F1, F2. unfold receipt_aad in E. simpl in E.
  apply split_at_nul in E as [Hw E]; [|naive_solver..].
  apply split_at_nul in E as [Hg Hm]; [|naive_solver..]. done.
Qed.

(** The field of a decoded map. *)
Definition bytes_field (k : string) (v : Value) : option (list Z) :=
  match v with
  | kMap m =>
      match list_find (fun e => e.1 = bytes_of_string k) m with
      | Some (_, (_, kBytes b)) => Some b
      | _ => None
      end
  | _ => None
  end.

(** The verifier that holds the X25519 secret [sk]: base64, CBOR, key agreement,
    HKDF, tag check and decryption. *)
Definition open_receipt (sk aad receipt : list Z) : option (list Z) :=
  match Base64.b64_decode_flexible receipt with
  | Throw _ => None
  | Ok env =>
      '(v, rest) ← decode 2 env;
      epk ← bytes_field "epk" v;
      nonce ← bytes_field "n" v;
      ct ← bytes_field "ct" v;
      let key := Sha256.hkdf (crypto_x25519 sk epk) (bytes_of_string "dphn-proof-v2" ++ aad) in
      aead_open key nonce aad ct
  end.

Section sealing.
Context `{!MonocypherLaws}.

Lemma envelope_fields r epk nonce ct :
  bytes_field "epk" (canon (envelope r epk nonce ct)) = Some epk /\
  bytes_field "n" (canon (envelope r epk nonce ct)) = Some nonce /\
  bytes_field "ct" (canon (envelope r epk nonce ct)) = Some ct.
Proof. split_and!; reflexivity. Qed.

Lemma envelope_ok r epk nonce ct :
  str_ok (key_id r) -> str_ok epk -> str_ok nonce -> str_ok ct ->
  value_ok (envelope r epk nonce ct).
Proof.
  intros Hk He Hn Hc.
  assert (forall b, str_ok b -> value_ok (Bytes b)) as Hb
    by (intros b []; split; [done|by constructor]).
  apply (fields_ok [("v"%string, Int kProofVersion); ("kid"%string, Str (key_id r));
                    ("epk"%string, Bytes epk); ("n"%string, Bytes nonce);
                    ("ct"%string, Bytes ct)]); [simpl; lia|].
  repeat (constructor; [split; [simpl; lia|]; cbn [snd]|]); auto with sonar.
  apply int_value_ok. by unfold is_i64, kProofVersion.
Qed.

Lemma sealed_ok key nonce aad pt :
  bytes_ok pt -> Z.of_nat (length pt) + 16 < 2 ^ 64 ->
  str_ok (chacha20poly1305_ietf_encrypt key nonce aad pt).
Proof.
  intros Hp Hl. split.
  - rewrite encrypt_spec. apply Forall_app. split; [by apply chacha20_ok|apply poly1305_ok].
  - unfold len64. rewrite length_encrypt. apply Z.ltb_lt. lia.
Qed.

(** What a run of [seal] needs: entropy, the verifier's key, a usable secret. *)
Lemma seal_open r pt sk e epriv e1 nonce e2 :
  length junk = 64%nat -> request_ok r -> bytes_ok pt ->
  Z.of_nat (length pt) + 16 < 2 ^ 64 ->
  random_bytes 32 e = Some (Ok epriv, e1) -> random_bytes 12 e1 = Some (Ok nonce, e2) ->
  bytes_ok nonce ->
  Base64.load_x25519_public_key (public_key r) = Ok (crypto_x25519_public_key sk) ->
  (x25519_shared_secret epriv (crypto_x25519_public_key sk)).2 = true ->
  exists receipt, seal r pt e = Some (Ok receipt, e2) /\
                  open_receipt sk (receipt_aad r) receipt = Some pt.
Proof.
  intros Hj Hr Hp Hl R1 R2 Hn Hk Hu. unfold seal. rewrite R1. cbn [mbind option_bind].
  rewrite Hk. unfold x25519_shared_secret in *. cbn [snd] in Hu. cbv zeta. rewrite Hu.
  cbn [negb]. cbv zeta. rewrite R2. cbn [mbind option_bind].
  eexists. split; [reflexivity|]. set (key := receipt_key _ _).
  set (ct := chacha20poly1305_ietf_encrypt _ _ _ _). unfold x25519_public_key.
  set (env := envelope _ _ _ _).
  assert (value_ok env) as [Hwf Hvb].
  { apply envelope_ok.
    - by destruct Hr as (_ & _ & _ & _ & ? & _).
    - split; [apply x25519_public_ok|]. unfold len64. by rewrite x25519_public_length.
    - split; [done|]. unfold len64. by rewrite (random_bytes_length _ _ _ _ R2).
    - by apply sealed_ok. }
  unfold open_receipt.
  rewrite (Base64.decode_spelling (encode env)) by
    (by apply encode_ok || apply Base64.normalize_encode).
  rewrite <- (app_nil_r (encode env)), decode_encode_gen by (done || simpl; lia).
  cbn [mbind option_bind]. destruct (envelope_fields r (crypto_x25519_public_key epriv) nonce ct)
    as (E1 & E2 & E3). fold env in E1, E2, E3. rewrite E1, E2, E3. cbn [mbind option_bind].
  rewrite x25519_agree. subst ct key. unfold receipt_key.
  rewrite Sha256.hkdf_spec by done. cbv zeta. by rewrite open_encrypt.
Qed.
End sealing.

End with_libraries.
(** ** Concrete libraries for the witnesses *)

Definition toy_blake3 : Blake3 := fun l => fit 32 (map u8 (foldr Z.add 0 l :: l)).

Lemma toy_blake3_laws : @Blake3Laws toy_blake3.
Proof.
  split; intros l; [apply length_fit|]. apply fit_ok, Forall_map, Forall_true. auto with sonar.
Qed.

Definition toy_dtypes : DtypeNames := {|
  isFloat8Type := fun t => match t with OtherScalar 44 => true | _ => false end;
  dtype_name := fun t =>
    match t with
    | kFloat => bytes_of_string "float32" | kByte => bytes_of_string "uint8"
    | _ => bytes_of_string "other"
    end |}.

Definition weights (ptr : Z) (bytes : list Z) : Tensor :=
  mkTensor true CPU true true ptr kByte [Z.of_nat (length bytes)] (Z.of_nat (length bytes)) 1 bytes.

(** Two tensors, the third an alias of the first, the fourth empty. *)
Definition demo_tensors : list Tensor :=
  [weights 4096 (map Z.of_nat (seq 0 40)); weights 8192 [5; 6; 7];
   weights 4096 (map Z.of_nat (seq 0 40)); weights 12288 []].
Definition demo_names : list (list Z) :=
  [bytes_of_string "layers.1"; bytes_of_string "layers.0"; bytes_of_string "tied";
   bytes_of_string "empty"].

Definition demo_sk : list Z := [3; 1; 4].
Definition demo_request : Request :=
  mkRequest (bytes_of_string "w") (bytes_of_string "req") (bytes_of_string "nonce")
    (bytes_of_string "m") [1; 2; 3]
    (Base64.b64url_encode_nopad (@crypto_x25519_public_key toy_cypher demo_sk))
    (bytes_of_string "kid") 3 16.
Definition demo_entropy : Entropy := mkEntropy [GotBytes (replicate 32 9); GotBytes (replicate 12 2)] [].

Lemma demo_inputs_ok : @inputs_ok toy_dtypes demo_tensors demo_names demo_request.
Proof.
  unfold inputs_ok. split_and!.
  - reflexivity.
  - unfold request_ok. split_and!; try (by vm_compute); apply literal_ok; simpl; lia.
  - reflexivity.
  - by apply (bool_decide_unpack _); vm_compute.
  - by apply (bool_decide_unpack _); vm_compute.
  - repeat (constructor; [apply literal_ok; simpl; lia|]). constructor.
  - repeat (constructor; [unfold tensor_wf; simpl; split_and!; (done || lia || (by intros))|]).
    constructor.
  - repeat (constructor; [intros _; eexists; vm_compute; reflexivity|]). constructor.
  - by constructor.
Qed.

(** ** Claims *)

(** The tensor registry: names are distinct and nonempty (anything else
    throws), the entries are strictly increasing by name, hold one tensor per
    storage with its dtype, shape and byte size, all of them eligible, and every
    eligible storage of the input is represented. *)
Theorem registry_spec `{Blake3} `{DtypeNames} (tensors : list Tensor) (names : list (list Z))
    (reg : Registry) :
  build_registry tensors names = Ok reg ->
  NoDup names /\ ([] ∉ names) /\
  StronglySorted (fun a b => bytes_lt (name a) (name b) = true) (entries reg) /\
  NoDup (map (fun e => storage (tensor e)) (entries reg)) /\
  Forall (fun e => exists p, p ∈ zip tensors names /\ entry_of p e /\ eligible p.1 = true)
    (entries reg) /\
  (forall t, t ∈ tensors -> eligible t = true ->
     exists e, e ∈ entries reg /\ storage (tensor e) = storage t).
Proof. apply registry_facts. Qed.

Lemma registry_spec_witness :
  exists reg, @build_registry toy_blake3 toy_dtypes demo_tensors demo_names = Ok reg /\
    map name (entries reg) = [bytes_of_string "layers.0"; bytes_of_string "layers.1"] /\
    NoDup (map (fun e => storage (tensor e)) (entries reg)).
Proof.
  destruct (@build_registry toy_blake3 toy_dtypes demo_tensors demo_names) as [reg|] eqn:E;
    [|vm_compute in E; discriminate].
  exists reg. split; [reflexivity|]. split.
  - vm_compute in E. by injection E as <-.
  - apply (@registry_spec toy_blake3 toy_dtypes demo_tensors demo_names reg E).
Defined.

(** On valid inputs the op reaches sealing: it never throws, it draws
    exactly [num_raw_terms] windows, each in an entry of the registry, entirely
    inside its tensor, of [min(raw_term_bytes, num_bytes)] bytes, and hashes
    exactly the bytes found there; the payload is encodable without loss. *)
Theorem prepare_in_bounds `{Blake3Laws} `{DtypeNames} (tensors : list Tensor)
    (names : list (list Z)) (r : Request) :
  inputs_ok tensors names r ->
  exists reg ts,
    build_registry tensors names = Ok reg /\
    prepare tensors names r = Ok (payload r reg ts) /\
    Z.of_nat (length ts) = num_raw_terms r /\
    Forall (fun t => t_entry t ∈ entries reg /\ term_ok (raw_term_bytes r) t) ts /\
    decode (vdepth (payload r reg ts)) (encode (payload r reg ts))
    = Some (canon (payload r reg ts), []).
Proof.
  intros Hin. destruct (prepare_ok _ _ _ Hin) as (reg & ts & ? & ? & ? & ? & Hwf & _).
  exists reg, ts. split_and!; try done.
  rewrite <- (app_nil_r (encode _)). by apply decode_encode_gen.
Qed.

Lemma prepare_in_bounds_witness :
  exists p, @prepare toy_blake3 toy_dtypes demo_tensors demo_names demo_request = Ok p.
Proof.
  destruct (@prepare_in_bounds toy_blake3 toy_blake3_laws toy_dtypes
              demo_tensors demo_names demo_request demo_inputs_ok)
    as (reg & ts & _ & Hp & _).
  by exists (@payload toy_blake3 demo_request reg ts).
Defined.

(** The associated data binds the context: two accepted requests with the
    same associated data agree on worker, nonce and model manifest, because the
    strings contain no NUL. *)
Theorem receipt_aad_injective (r1 r2 : Request) :
  check_request r1 = Ok tt -> check_request r2 = Ok tt -> receipt_aad r1 = receipt_aad r2 ->
  worker_id r1 = worker_id r2 /\ gateway_nonce r1 = gateway_nonce r2 /\
  model_manifest_id r1 = model_manifest_id r2.
Proof. apply receipt_aad_inj. Qed.

Lemma receipt_aad_injective_witness :
  worker_id demo_request = worker_id demo_request /\
  gateway_nonce demo_request = gateway_nonce demo_request /\
  model_manifest_id demo_request = model_manifest_id demo_request.
Proof. by apply receipt_aad_injective. Defined.

(** [C12] End to end: on valid inputs, with entropy available and the verifier's
    public key in [public_key], the op returns a receipt, and the holder of the
    secret key who knows the context opens it to exactly the encoded payload. *)
Theorem prove_opens `{MonocypherLaws} `{Blake3Laws} `{DtypeNames} (junk : list Z)
    (tensors : list Tensor) (names : list (list Z)) (r : Request) (sk epriv nonce : list Z)
    (e e1 e2 : Entropy) :
  length junk = 64%nat -> inputs_ok tensors names r ->
  random_bytes 32 e = Some (Ok epriv, e1) -> random_bytes 12 e1 = Some (Ok nonce, e2) ->
  bytes_ok nonce ->
  Base64.load_x25519_public_key (public_key r) = Ok (crypto_x25519_public_key sk) ->
  (x25519_shared_secret epriv (crypto_x25519_public_key sk)).2 = true ->
  (forall p, prepare tensors names r = Ok p -> Z.of_nat (length (encode p)) + 16 < 2 ^ 64) ->
  exists p receipt,
    prepare tensors names r = Ok p /\
    dphn_prove_v2 junk tensors names r e = Some (Ok receipt, e2) /\
    open_receipt sk (receipt_aad r) receipt = Some (encode p).
Proof.
  intros Hj Hin R1 R2 Hn Hk Hu Hsize.
  destruct (prepare_ok _ _ _ Hin) as (reg & ts & _ & Hp & _ & _ & _ & Hvb).
  exists (payload r reg ts). unfold dphn_prove_v2. rewrite Hp.
  destruct (seal_open junk r (encode (payload r reg ts)) sk e epriv e1 nonce e2)
    as (receipt & Hs & Ho); try done.
  - by destruct Hin as (_ & ? & _).
  - by apply encode_ok.
  - by apply Hsize.
  - by exists receipt.
Qed.

Lemma prove_opens_witness :
  exists p receipt,
    @prepare toy_blake3 toy_dtypes demo_tensors demo_names demo_request = Ok p /\
    @dphn_prove_v2 toy_cypher toy_blake3 toy_dtypes (replicate 64 0) demo_tensors demo_names
      demo_request demo_entropy = Some (Ok receipt, mkEntropy [] []) /\
    @open_receipt toy_cypher demo_sk (receipt_aad demo_request) receipt = Some (encode p).
Proof.
  apply (@prove_opens toy_cypher toy_cypher_laws toy_blake3 toy_blake3_laws toy_dtypes
           (replicate 64 0) demo_tensors demo_names demo_request demo_sk
           (replicate 32 9) (replicate 12 2) demo_entropy
           (mkEntropy [GotBytes (replicate 12 2)] []) (mkEntropy [] [])).
  - reflexivity.
  - exact demo_inputs_ok.
  - reflexivity.
  - reflexivity.
  - by repeat constructor.
  - vm_compute. reflexivity.
  - vm_compute. reflexivity.
  - intros p Hp. vm_compute in Hp. injection Hp as <-. vm_compute. reflexivity.
Defined.

End Receipt.
