(* ===== verification/PhraseMatcher.v ===== *)
(** * The streaming phrase matcher ([csrc/phrase_matcher.cpp])

    An Aho-Corasick automaton over bytes: [Automaton::add] grows the trie,
    [Automaton::finish] computes failure links and terminals breadth first,
    [scan] runs a chunk of input and reports the earliest match start.

    A node index is a [nat]; reading outside [nodes] is [None], so a result
    [Some] says that no access was out of range.  The two unbounded loops,
    [advance] and the queue loop of [finish], take fuel and return [None] when it
    runs out; the theorems show that the fuel used is always enough.  The order
    in which a [std::unordered_map] is iterated is unspecified: it is the
    parameter [edge_order], any function that lists the entries of a map. *)

From S2P Require Import Prelude.
From stdpp Require Import gmap.

Module Phrase.

Record Node := mkNode {
  edges : gmap Z nat; failure : nat; depth : nat; terminal : nat }.

Definition new_node (d : nat) : Node := mkNode ∅ 0 d 0.

Record Automaton := mkAutomaton { nodes : list Node }.

Definition empty_automaton : Automaton := mkAutomaton [new_node 0].

(** ** Operations *)

Fixpoint advance (fuel : nat) (ns : list Node) (state : nat) (byte : Z) : option nat :=
  match fuel with
  | O => None
  | S fuel =>
      n ← ns !! state;
      match edges n !! byte with
      | Some next => Some next
      | None => if Nat.eqb state 0 then Some O else advance fuel ns (failure n) byte
      end
  end.

(** The loop of [add]: walks the trie, creating what is missing. *)
Fixpoint add_loop (ns : list Node) (state : nat) (pattern : list Z) : option (list Node * nat) :=
  match pattern with
  | [] => Some (ns, state)
  | byte :: pattern =>
      n ← ns !! state;
      match edges n !! byte with
      | Some next => add_loop ns next pattern
      | None =>
          let next := length ns in
          let n' := mkNode (<[byte := next]> (edges n)) (failure n) (depth n) (terminal n) in
          add_loop (<[state := n']> ns ++ [new_node (depth n + 1)]) next pattern
      end
  end.

Definition set_terminal (t : nat) (n : Node) : Node := mkNode (edges n) (failure n) (depth n) t.
Definition set_failure (f : nat) (n : Node) : Node := mkNode (edges n) f (depth n) (terminal n).

Definition add (a : Automaton) (pattern : list Z) : option Automaton :=
  '(ns, state) ← add_loop (nodes a) 0 pattern;
  n ← ns !! state;
  Some (mkAutomaton (<[state := set_terminal (length pattern) n]> ns)).

Section with_edge_order.
Variable edge_order : gmap Z nat -> list (Z * nat).

(** One child of [parent]: its failure link, its terminal, its place in the queue. *)
Definition link_child (parent : nat) (ns : list Node) (byte : Z) (child : nat)
  : option (list Node) :=
  p ← ns !! parent;
  fail ← advance (length ns) ns (failure p) byte;
  c ← ns !! child;
  let ns := <[child := set_failure fail c]> ns in
  c ← ns !! child;
  f ← ns !! fail;
  Some (<[child := set_terminal (Nat.max (terminal c) (terminal f)) c]> ns).

Fixpoint link_children (parent : nat) (es : list (Z * nat)) (ns : list Node) (queue : list nat)
  : option (list Node * list nat) :=
  match es with
  | [] => Some (ns, queue)
  | (byte, child) :: es =>
      ns ← link_child parent ns byte child;
      link_children parent es ns (queue ++ [child])
  end.

Fixpoint finish_loop (fuel : nat) (ns : list Node) (queue : list nat) : option (list Node) :=
  match queue with
  | [] => Some ns
  | parent :: queue =>
      match fuel with
      | O => None
      | S fuel =>
          p ← ns !! parent;
          '(ns, queue) ← link_children parent (edge_order (edges p)) ns queue;
          finish_loop fuel ns queue
      end
  end.

Definition finish (a : Automaton) : option Automaton :=
  root ← nodes a !! O;
  ns ← finish_loop (length (nodes a)) (nodes a) (map snd (edge_order (edges root)));
  Some (mkAutomaton ns).

(** ** The Python entry points *)

Definition bad_count : string := "Expected 1..2048 byte patterns".
Definition bad_pattern : string := "Empty pattern or phrase byte budget exceeded".
Definition not_bytes : string := "expected bytes".
Definition bad_state : string := "Invalid phrase automaton state".

(** The loop of [compile]; an item that is not a bytes object is [None]. *)
Fixpoint add_all (items : list (option (list Z))) (total_bytes : Z) (a : Automaton)
  : option (outcome Automaton) :=
  match items with
  | [] => Some (Ok a)
  | None :: _ => Some (Throw not_bytes)
  | Some pattern :: items =>
      let total_bytes := (total_bytes + Z.of_nat (length pattern))%Z in
      if Nat.eqb (length pattern) 0 || (262144 <? total_bytes)%Z
      then Some (Throw bad_pattern)
      else a ← add a pattern; add_all items total_bytes a
  end.

Definition compile (items : list (option (list Z))) : option (outcome Automaton) :=
  if Nat.eqb (length items) 0 || Nat.ltb 2048 (length items) then Some (Throw bad_count)
  else
    r ← add_all items 0 empty_automaton;
    match r with
    | Throw m => Some (Throw m)
    | Ok a => a ← finish a; Some (Ok a)
    end.
End with_edge_order.

(** The loop of [scan]: [i] is the index of the next byte of the chunk. *)
Fixpoint scan_loop (a : Automaton) (state : nat) (i : Z) (data : list Z) (earliest : option Z)
  : option (nat * option Z) :=
  match data with
  | [] => Some (state, earliest)
  | byte :: data =>
      state ← advance (length (nodes a)) (nodes a) state byte;
      n ← nodes a !! state;
      let earliest :=
        if Nat.eqb (terminal n) 0 then earliest
        else
          let start := (i + 1 - Z.of_nat (terminal n))%Z in
          match earliest with
          | None => Some start
          | Some e => if (start <? e)%Z then Some start else Some e
          end in
      scan_loop a state (i + 1) data earliest
  end.

(** The result: new state, earliest match start or none, bytes to hold back. *)
Definition scan (a : Automaton) (state : Z) (data : list Z)
  : option (outcome (nat * option Z * nat)) :=
  if (state <? 0)%Z || (Z.of_nat (length (nodes a)) <=? state)%Z then Some (Throw bad_state)
  else
    '(st, earliest) ← scan_loop a (Z.to_nat state) 0 data None;
    n ← nodes a !! st;
    Some (Ok (st, earliest, depth n)).

(** ** The trie

    The words of the nodes are a ghost labelling [ws], parallel to [ns]: an edge
    by [b] leads exactly to the node whose word is one byte longer. *)

Record trie (ws : list (list Z)) (ns : list Node) : Prop := {
  tr_length : length ws = length ns;
  tr_root : ws !! O = Some [];
  tr_nodup : NoDup ws;
  tr_depth : forall s n w, ns !! s = Some n -> ws !! s = Some w -> depth n = length w;
  tr_edge : forall s n w b t, ns !! s = Some n -> ws !! s = Some w ->
    edges n !! b = Some t <-> ws !! t = Some (w ++ [b]);
  tr_closed : forall w b, w ++ [b] ∈ ws -> w ∈ ws
}.

Lemma trie_node ws ns s w : trie ws ns -> ws !! s = Some w -> exists n, ns !! s = Some n.
Proof.
  intros T Hs. apply lookup_lt_is_Some_2. rewrite <- (tr_length _ _ T).
  by eapply lookup_lt_Some.
Qed.

Lemma trie_word ws ns s n : trie ws ns -> ns !! s = Some n -> exists w, ws !! s = Some w.
Proof.
  intros T Hs. apply lookup_lt_is_Some_2. rewrite (tr_length _ _ T).
  by eapply lookup_lt_Some.
Qed.

(** Every prefix of a word is a word, so a word is shorter than the trie. *)
Lemma trie_prefix ws ns w k : trie ws ns -> w ∈ ws -> take k w ∈ ws.
Proof.
  intros T. induction w as [|b w IH] using rev_ind; intros Hw.
  { by rewrite take_nil. }
  destruct (decide (k <= length w)%nat).
  - rewrite take_app_le by done. apply IH. by eapply tr_closed.
  - rewrite take_ge; [done|]. rewrite length_app. simpl. lia.
Qed.

Lemma trie_short ws ns w : trie ws ns -> w ∈ ws -> (length w < length ns)%nat.
Proof.
  intros T Hw. rewrite <- (tr_length _ _ T).
  set (ps := map (fun k => take k w) (seq 0 (S (length w)))).
  assert (length ps = S (length w)) as Hl by (unfold ps; by rewrite length_map, length_seq).
  enough (length ps <= length ws)%nat by lia.
  apply submseteq_length, NoDup_submseteq.
  - unfold ps. apply NoDup_fmap_2_strong; [|apply NoDup_seq].
    intros i j Hi%elem_of_seq Hj%elem_of_seq E. apply (f_equal length) in E.
    rewrite !length_take in E. lia.
  - intros x Hx. apply list_elem_of_fmap in Hx as (k & -> & _). by eapply trie_prefix.
Qed.

(** [add] keeps failure links and terminals; new nodes have neither. *)
Definition same_marks (ns ns' : list Node) : Prop :=
  forall s n', ns' !! s = Some n' ->
    match ns !! s with
    | Some n => failure n' = failure n /\ terminal n' = terminal n
    | None => failure n' = 0 /\ terminal n' = 0
    end%nat.

Lemma same_marks_refl ns : same_marks ns ns.
Proof. intros s n ->. done. Qed.

Lemma same_marks_trans a b c :
  (length a <= length b)%nat -> same_marks a b -> same_marks b c -> same_marks a c.
Proof.
  intros Hl H1 H2 s n Hn. specialize (H2 s n Hn). specialize (H1 s).
  destruct (b !! s) as [m|] eqn:Hb.
  - specialize (H1 m eq_refl). destruct (a !! s), H1 as [E1 E2]; by rewrite E1, E2 in H2.
  - assert (a !! s = None) as ->; [|done].
    apply lookup_ge_None in Hb. apply lookup_ge_None. lia.
Qed.

(** Creating the child of [s] by a byte that has no edge yet. *)
Definition grow (ns : list Node) (s : nat) (n : Node) (b : Z) : list Node :=
  <[s := mkNode (<[b := length ns]> (edges n)) (failure n) (depth n) (terminal n)]> ns
  ++ [new_node (depth n + 1)].

Lemma lookup_grow ns s n b i m :
  ns !! s = Some n -> grow ns s n b !! i = Some m ->
  (i = s /\ m = mkNode (<[b := length ns]> (edges n)) (failure n) (depth n) (terminal n)) \/
  (i <> s /\ ns !! i = Some m) \/ (i = length ns /\ m = new_node (depth n + 1)).
Proof.
  intros Hs Hi. unfold grow in Hi. apply lookup_snoc_Some in Hi as [[Hl Hi]|[-> <-]].
  - rewrite length_insert in Hl. destruct (decide (i = s)) as [->|Hne].
    + rewrite list_lookup_insert_eq in Hi by done. left. by simplify_eq.
    + rewrite list_lookup_insert_ne in Hi by done. right. by left.
  - right. right. by rewrite length_insert.
Qed.

Lemma same_marks_grow ns s n b : ns !! s = Some n -> same_marks ns (grow ns s n b).
Proof.
  intros Hs i m Hi. destruct (lookup_grow _ _ _ _ _ _ Hs Hi) as [[-> ->]|[[_ ->]|[-> ->]]].
  - by rewrite Hs.
  - done.
  - by rewrite (lookup_ge_None_2 ns) by lia.
Qed.

Lemma trie_grow ws ns s n w b :
  trie ws ns -> ns !! s = Some n -> ws !! s = Some w -> edges n !! b = None ->
  trie (ws ++ [w ++ [b]]) (grow ns s n b).
Proof.
  intros T Hs Hw Hb.
  assert (w ++ [b] ∉ ws) as Hnew.
  { intros [t Ht]%list_elem_of_lookup. apply (tr_edge _ _ T s n w b t Hs Hw) in Ht. congruence. }
  pose proof (tr_length _ _ T) as Hl.
  assert (forall x t, ws !! t = Some x -> (ws ++ [w ++ [b]]) !! t = Some x) as Hold
    by (intros x t; apply lookup_app_l_Some).
  split.
  - unfold grow. rewrite !length_app, length_insert. simpl. lia.
  - apply Hold, (tr_root _ _ T).
  - apply NoDup_app. split; [apply (tr_nodup _ _ T)|]. split; [|apply NoDup_singleton].
    by intros x Hx ->%list_elem_of_singleton.
  - intros i m x Hi Hx. apply lookup_snoc_Some in Hx as [[Hil Hx]|[Hil <-]];
      destruct (lookup_grow _ _ _ _ _ _ Hs Hi) as [[-> ->]|[[_ Hm]|[Hi' ->]]];
      try (apply lookup_lt_Some in Hs; lia); try (apply lookup_lt_Some in Hm; lia).
    + by apply (tr_depth _ _ T s n).
    + by eapply (tr_depth _ _ T).
    + simpl. rewrite (tr_depth _ _ T s n w), length_app by done. done.
  - intros i m x c t Hi Hx. apply lookup_snoc_Some in Hx as [[Hil Hx]|[Hil <-]];
      destruct (lookup_grow _ _ _ _ _ _ Hs Hi) as [[-> ->]|[[Hne Hm]|[Hi' ->]]];
      try (apply lookup_lt_Some in Hs; lia); try (apply lookup_lt_Some in Hm; lia);
      rewrite lookup_snoc_Some.
    + simplify_eq. simpl. destruct (decide (c = b)) as [->|Hcb].
      * rewrite lookup_insert_eq. split; [intros [= <-]; right; by rewrite Hl|].
        intros [[_ Ht]|[-> _]]; [|by rewrite Hl].
        by apply list_elem_of_lookup_2 in Ht.
      * rewrite lookup_insert_ne by done. rewrite (tr_edge _ _ T s n w c t) by done.
        split; [intros Ht; left; split; [by eapply lookup_lt_Some|done]|].
        intros [[_ Ht]|[_ E]]; [done|]. by apply app_inj_tail in E as [_ ?].
    + rewrite (tr_edge _ _ T i m x c t) by done.
      split; [intros Ht; left; split; [by eapply lookup_lt_Some|done]|].
      intros [[_ Ht]|[_ E]]; [done|]. apply app_inj_tail in E as [-> _].
      by destruct Hne; apply (NoDup_lookup ws i s x (tr_nodup _ _ T)).
    + simpl. rewrite lookup_empty. split; [done|]. intros [[_ Ht]|[-> E]].
      * apply list_elem_of_lookup_2 in Ht. by apply (tr_closed _ _ T) in Ht.
      * apply app_inj_tail in E as [E _]. apply (f_equal length) in E.
        rewrite length_app in E. simpl in E. lia.
  - intros x c [Hx|Hx%list_elem_of_singleton]%elem_of_app; apply elem_of_app; left.
    + by eapply tr_closed.
    + apply app_inj_tail in Hx as [-> _]. by eapply list_elem_of_lookup_2.
Qed.

Lemma add_loop_spec pattern ws ns state w :
  trie ws ns -> ws !! state = Some w ->
  exists ws' ns' st', add_loop ns state pattern = Some (ns', st') /\
    trie ws' ns' /\ ws' !! st' = Some (w ++ pattern) /\ ws `prefix_of` ws' /\
    (forall x, x ∈ ws' <-> x ∈ ws \/ exists k, x = w ++ take k pattern) /\
    same_marks ns ns' /\ (length ns <= length ns' <= length ns + length pattern)%nat.
Proof.
  revert ws ns state w. induction pattern as [|b pattern IH]; intros ws ns state w T Hw.
  { exists ws, ns, state. rewrite app_nil_r. split_and!; try done; [|apply same_marks_refl|simpl;lia].
    intros x. split; [by left|]. intros [Hx|[k ->]]; [done|].
    rewrite take_nil, app_nil_r. by eapply list_elem_of_lookup_2. }
  cbn [add_loop]. destruct (trie_node _ _ _ _ T Hw) as [n Hn]. rewrite Hn.
  cbn [mbind option_bind].
  assert (forall ws2 : list (list Z), w ∈ ws2 -> forall x,
    (x ∈ ws2 \/ exists k, x = (w ++ [b]) ++ take k pattern) <->
    (x ∈ ws2 \/ exists k, x = w ++ take k (b :: pattern))) as Hk.
  { intros ws2 Hin x. split; (intros [Hx|[k ->]]; [by left|]).
    - right. exists (S k). simpl. by rewrite <- app_assoc.
    - destruct k as [|k]; [left; simpl; by rewrite app_nil_r|].
      right. exists k. simpl. by rewrite <- app_assoc. }
  destruct (edges n !! b) as [next|] eqn:Hb.
  - apply (tr_edge _ _ T _ _ _ _ _ Hn Hw) in Hb.
    destruct (IH ws ns next (w ++ [b]) T Hb) as (ws' & ns' & st' & E & T' & Hst & Hp & Hx & Hm & Hl).
    exists ws', ns', st'. rewrite <- app_assoc in Hst. split_and!; try done; [|simpl; lia..].
    intros x. rewrite Hx. apply Hk. by eapply list_elem_of_lookup_2.
  - pose proof (trie_grow _ _ _ _ _ _ T Hn Hw Hb) as T1.
    destruct (IH _ _ (length ns) (w ++ [b]) T1) as (ws' & ns' & st' & E & T' & Hst & Hp & Hx & Hm & Hl).
    { rewrite <- (tr_length _ _ T). apply list_lookup_middle. done. }
    assert (length (grow ns state n b) = S (length ns)) as Hg
      by (unfold grow; rewrite length_app, length_insert; simpl; lia).
    exists ws', ns', st'. rewrite <- app_assoc in Hst. split_and!; try done; [| | |simpl; lia..].
    + etrans; [|done]. by apply prefix_app_r.
    + intros x. rewrite Hx, Hk; [|apply elem_of_app; left; by eapply list_elem_of_lookup_2].
      rewrite elem_of_app, list_elem_of_singleton. split; [|tauto].
      intros [[?| ->]|?]; [by left| |by right]. right. by exists 1%nat.
    + eapply same_marks_trans; [|by apply same_marks_grow|done]. lia.
Qed.

(** The trie of a list of patterns: its words are their prefixes, a node is
    marked when its word is a pattern, no failure link is set yet. *)
Record built (ps : list (list Z)) (ws : list (list Z)) (ns : list Node) : Prop := {
  bt_trie : trie ws ns;
  bt_words : forall w, w ∈ ws <-> w = [] \/ exists p, p ∈ ps /\ w `prefix_of` p;
  bt_marks : forall s n w, ns !! s = Some n -> ws !! s = Some w ->
    failure n = O /\ terminal n = if decide (w ∈ ps) then length w else O
}.

Lemma built_empty : built [] [[]] [new_node 0].
Proof.
  split.
  - split; try done.
    + apply NoDup_singleton.
    + intros [|s] n w; simpl; [|done]. by intros [= <-] [= <-].
    + intros [|s] n w b t; simpl; [|done]. intros [= <-] [= <-]. simpl.
      rewrite lookup_empty. split; [done|]. by destruct t as [|[|t]].
    + intros w b Hw%list_elem_of_singleton. by destruct w.
  - intros w. rewrite list_elem_of_singleton. split; [by left|].
    intros [?|(p & Hp & _)]; [done|by apply not_elem_of_nil in Hp].
  - intros [|s] n w; simpl; [|done]. by intros [= <-] [= <-].
Qed.

Lemma trie_marks ws ns s f : (forall n, edges (f n) = edges n /\ depth (f n) = depth n) ->
  trie ws ns -> trie ws (alter f s ns).
Proof.
  intros Hf T.
  assert (forall i m, alter f s ns !! i = Some m ->
            exists n, ns !! i = Some n /\ edges m = edges n /\ depth m = depth n) as Hm.
  { intros i m Hi. destruct (decide (i = s)) as [->|].
    - rewrite list_lookup_alter_eq in Hi. apply fmap_Some in Hi as (n & Hn & ->).
      exists n. split; [done|apply Hf].
    - rewrite list_lookup_alter_ne in Hi by done. by exists m. }
  split.
  - rewrite length_alter. apply T.
  - apply T.
  - apply T.
  - intros i m w Hi Hw. destruct (Hm i m Hi) as (n & Hn & _ & ->). by eapply tr_depth.
  - intros i m w b t Hi Hw. destruct (Hm i m Hi) as (n & Hn & -> & _). by eapply tr_edge.
  - apply T.
Qed.

Lemma insert_is_alter (f : Node -> Node) (ns : list Node) (s : nat) n :
  ns !! s = Some n -> <[s := f n]> ns = alter f s ns.
Proof.
  revert s. induction ns as [|m ns IH]; intros [|s] Hs; simplify_eq/=; [done|].
  f_equal. by apply IH.
Qed.

(** Marking the node of the added pattern. *)
Lemma add_marks ps ws ns ws' ns' st' p :
  built ps ws ns -> trie ws' ns' -> ws' !! st' = Some p -> ws `prefix_of` ws' ->
  same_marks ns ns' ->
  forall s m w, alter (set_terminal (length p)) st' ns' !! s = Some m -> ws' !! s = Some w ->
    failure m = O /\ terminal m = if decide (w ∈ ps ++ [p]) then length w else O.
Proof.
  intros B T' Hst Hpre Hm. pose proof (bt_trie _ _ _ B) as T.
  intros s m w Hs Hw.
  assert (exists m', ns' !! s = Some m' /\ failure m = failure m' /\
            terminal m = if decide (s = st') then length p else terminal m') as (m' & Hs' & -> & ->).
  { destruct (decide (s = st')) as [->|].
    - rewrite list_lookup_alter_eq in Hs. apply fmap_Some in Hs as (n' & Hn' & ->). by exists n'.
    - rewrite list_lookup_alter_ne in Hs by done. by exists m. }
  specialize (Hm s m' Hs').
  assert (s = st' <-> w = p) as Hsp.
  { split; [intros ->; congruence|]. intros ->. by apply (NoDup_lookup ws' s st' p (tr_nodup _ _ T')). }
  destruct (ns !! s) as [n0|] eqn:Hn0.
  - destruct (trie_word _ _ _ _ T Hn0) as [w0 Hw0].
    assert (w0 = w) as -> by (pose proof (prefix_lookup_Some _ _ _ _ Hw0 Hpre); congruence).
    destruct (bt_marks _ _ _ B _ _ _ Hn0 Hw0) as [Hf Ht], Hm as [-> ->]. split; [done|].
    rewrite Ht. destruct (decide (s = st')) as [Hs2|Hs2].
    + apply Hsp in Hs2 as ->. rewrite decide_True; [done|]. apply elem_of_app.
      right. by apply list_elem_of_singleton.
    + apply decide_ext. rewrite elem_of_app, list_elem_of_singleton.
      split; [by left|]. intros [?|Hwp]; [done|]. by apply Hsp in Hwp.
  - destruct Hm as [-> ->]. split; [done|]. destruct (decide (s = st')) as [Hs2|Hs2].
    + apply Hsp in Hs2 as ->. rewrite decide_True; [done|]. apply elem_of_app.
      right. by apply list_elem_of_singleton.
    + rewrite decide_False; [done|]. rewrite elem_of_app, list_elem_of_singleton.
      intros [Hin|Hwp]; [|by apply Hsp in Hwp].
      assert (w ∈ ws) as [i Hi]%list_elem_of_lookup.
      { apply (bt_words _ _ _ B). right. by exists w. }
      pose proof (prefix_lookup_Some _ _ _ _ Hi Hpre) as Hi'.
      assert (s = i) as -> by (by apply (NoDup_lookup ws' s i w (tr_nodup _ _ T'))).
      apply lookup_ge_None in Hn0. apply lookup_lt_Some in Hi.
      rewrite (tr_length _ _ T) in Hi. lia.
Qed.

Lemma add_spec ps ws ns p :
  p <> [] -> built ps ws ns ->
  exists ws' ns', add (mkAutomaton ns) p = Some (mkAutomaton ns') /\
    built (ps ++ [p]) ws' ns' /\ (length ns' <= length ns + length p)%nat.
Proof.
  intros Hp B. pose proof (bt_trie _ _ _ B) as T.
  destruct (add_loop_spec p ws ns O [] T (tr_root _ _ T))
    as (ws' & ns' & st' & E & T' & Hst & Hpre & Hx & Hm & Hl).
  unfold add. simpl. rewrite E. cbn [mbind option_bind].
  destruct (trie_node _ _ _ _ T' Hst) as [n Hn]. rewrite Hn. cbn [mbind option_bind].
  rewrite (insert_is_alter (set_terminal (length p))) by done.
  exists ws', (alter (set_terminal (length p)) st' ns'). split; [done|].
  split; [|rewrite length_alter; lia]. simpl in Hst, Hx. split.
  - by apply trie_marks.
  - intros w. rewrite Hx, (bt_words _ _ _ B). split.
    + intros [[->|(q & Hq & Hw)]|[k ->]]; [by left| |].
      * right. exists q. rewrite elem_of_app. by split; [left|].
      * right. exists p. rewrite elem_of_app, list_elem_of_singleton. split; [by right|].
        exists (drop k p). by rewrite take_drop.
    + intros [->|(q & [Hq|Hq%list_elem_of_singleton]%elem_of_app & Hw)].
      * by left; left.
      * left. right. by exists q.
      * subst q. right. destruct Hw as [r ->]. exists (length w). by rewrite take_app_length.
  - by apply (add_marks ps ws ns ws' ns' st' p).
Qed.

(** ** Longest suffixes *)

(** [f] is the longest word that is a suffix of [w]. *)
Definition lsuf (ws : list (list Z)) (f w : list Z) : Prop :=
  f ∈ ws /\ f `suffix_of` w /\ forall y, y ∈ ws -> y `suffix_of` w -> y `suffix_of` f.

Lemma suffix_snoc (y w : list Z) b :
  y `suffix_of` (w ++ [b]) <-> y = [] \/ exists x, y = x ++ [b] /\ x `suffix_of` w.
Proof.
  split.
  - intros Hy. destruct y as [|c x] using rev_ind; [by left|right].
    pose proof (suffix_snoc_inv_1 _ _ _ _ Hy) as ->. exists x. split; [done|].
    by eapply suffix_snoc_inv_2.
  - intros [->|(x & -> & Hx)]; [apply suffix_nil|by apply suffix_app].
Qed.

Lemma suffix_cons (y w : list Z) c :
  y `suffix_of` (c :: w) <-> y = c :: w \/ y `suffix_of` w.
Proof.
  split.
  - intros [[|x k] E]; simplify_eq/=; [by left|right; by exists k].
  - intros [->|Hy]; [done|by apply suffix_cons_r].
Qed.

Lemma lsuf_unique ws a b w : lsuf ws a w -> lsuf ws b w -> a = b.
Proof.
  intros (Ha & Hs & Hm) (Hb & Hs' & Hm'). apply (anti_symm suffix); auto.
Qed.

(** Extending by one byte only needs the longest suffix known so far. *)
Lemma lsuf_step ws ns f w t b :
  trie ws ns -> lsuf ws f w -> lsuf ws t (f ++ [b]) -> lsuf ws t (w ++ [b]).
Proof.
  intros T (Hf & Hfw & Hmax) (Ht & Htf & Hmax'). split; [done|]. split.
  - etrans; [done|]. by apply suffix_app.
  - intros y Hy [->|(x & -> & Hx)]%suffix_snoc; [apply suffix_nil|].
    apply Hmax'; [done|]. apply suffix_app. apply Hmax; [|done]. by eapply tr_closed.
Qed.

(** The longest pattern that ends the word, as a length (0 for none). *)
Definition best (ps : list (list Z)) (w : list Z) : nat :=
  foldr (fun p m => Nat.max (if decide (p `suffix_of` w) then length p else 0) m) 0%nat ps.

Lemma best_le ps w n :
  (best ps w <= n)%nat <-> forall p, p ∈ ps -> p `suffix_of` w -> (length p <= n)%nat.
Proof.
  induction ps as [|p ps IH]; simpl.
  { split; [by intros _ p ?%not_elem_of_nil|lia]. }
  rewrite Nat.max_lub_iff, IH. setoid_rewrite elem_of_cons. split.
  - intros [H1 H2] q [->|Hq] Hs; [by rewrite decide_True in H1|auto].
  - intros Ha. split; [|auto]. destruct (decide _); [auto|lia].
Qed.

Lemma best_attained ps w : best ps w <> 0%nat ->
  exists p, p ∈ ps /\ p `suffix_of` w /\ length p = best ps w.
Proof.
  induction ps as [|p ps IH]; simpl; [done|]. intros Hne.
  destruct (decide (p `suffix_of` w)) as [Hs|Hs].
  - destruct (Nat.max_spec (length p) (best ps w)) as [[_ E]|[_ E]]; rewrite E in *.
    + destruct IH as (q & ? & ? & ?); [done|]. exists q. split; [by constructor|done].
    + exists p. split; [constructor|done].
  - simpl in *. destruct IH as (q & ? & ? & ?); [done|]. exists q. split; [by constructor|done].
Qed.

Lemma eq_by_le a b : (forall n, a <= n <-> b <= n)%nat -> a = b.
Proof. intros Hn. pose proof (Hn a). pose proof (Hn b). lia. Qed.

(** The recurrence that [finish] computes. *)
Lemma best_step ps ws f c w :
  (forall p, p ∈ ps -> p ∈ ws) -> lsuf ws f w ->
  best ps (c :: w)
  = Nat.max (if decide (c :: w ∈ ps) then length (c :: w) else 0) (best ps f).
Proof.
  intros Hps (Hf & Hfw & Hmax). apply eq_by_le. intros n.
  rewrite Nat.max_lub_iff, !best_le. split.
  - intros Ha. split; [destruct (decide _); [by apply Ha|lia]|].
    intros p Hp Hs. apply Ha; [done|]. apply suffix_cons. right. by etrans.
  - intros [H1 H2] p Hp [->|Hs]%suffix_cons; [by rewrite decide_True in H1|].
    apply H2; [done|]. apply Hmax; auto.
Qed.

(** ** [advance] *)

Definition fail_ok (ws : list (list Z)) (n : Node) (w : list Z) : Prop :=
  match w with
  | [] => True
  | _ :: y => exists f, ws !! failure n = Some f /\ lsuf ws f y
  end.

Lemma root_word ws ns s w : trie ws ns -> ws !! s = Some w -> s = 0%nat <-> w = [].
Proof.
  intros T Hw. pose proof (tr_root _ _ T). split; [intros ->; congruence|].
  intros ->. by apply (NoDup_lookup ws s 0 [] (tr_nodup _ _ T)).
Qed.

Lemma advance_spec fuel ws ns s w b :
  trie ws ns -> ws !! s = Some w -> (length w < fuel)%nat ->
  (forall v n x, ns !! v = Some n -> ws !! v = Some x -> (length x <= length w)%nat ->
     fail_ok ws n x) ->
  exists t x, advance fuel ns s b = Some t /\ ws !! t = Some x /\ lsuf ws x (w ++ [b]).
Proof.
  intros T. revert s w. induction fuel as [|fuel IH]; intros s w Hw Hl Hok; [lia|].
  cbn [advance]. destruct (trie_node _ _ _ _ T Hw) as [n Hn]. rewrite Hn. cbn [mbind option_bind].
  destruct (edges n !! b) as [t|] eqn:Hb.
  - apply (tr_edge _ _ T _ _ _ _ _ Hn Hw) in Hb. exists t, (w ++ [b]).
    split_and!; [done|done|]. split; [by eapply list_elem_of_lookup_2|]. by split.
  - assert (w ++ [b] ∉ ws) as Hnew.
    { intros [t Ht]%list_elem_of_lookup. apply (tr_edge _ _ T _ _ _ _ _ Hn Hw) in Ht. congruence. }
    destruct (Nat.eqb_spec s 0) as [Hs|Hs].
    + apply (root_word _ _ _ _ T Hw) in Hs as ->. exists 0%nat, [].
      split_and!; [done|apply (tr_root _ _ T)|]. split; [eapply list_elem_of_lookup_2, (tr_root _ _ T)|].
      split; [apply suffix_nil|]. intros y Hy [->|(x & -> & ->%suffix_nil_inv)]%(suffix_snoc y []);
        [done|]. by destruct Hnew.
    + destruct w as [|c y]; [by destruct Hs; apply (root_word _ _ _ _ T Hw)|].
      destruct (Hok s n (c :: y) Hn Hw) as (f & Hf & Hls); [done|].
      assert (length f <= length y)%nat as Hfl by (apply suffix_length, Hls).
      destruct (IH (failure n) f Hf) as (t & x & E & Hx & Ht); [simpl in Hl; lia| |].
      { intros v m z Hm Hz Hzl. apply (Hok v m z Hm Hz). simpl. lia. }
      exists t, x. split_and!; [done|done|].
      pose proof (lsuf_step _ _ _ _ _ _ T Hls Ht) as (? & ? & Hmax).
      split; [done|]. split; [by apply suffix_cons_r|].
      intros z Hz [->|Hzs]%suffix_cons; [done|]. auto.
Qed.

(** ** The breadth-first pass of [finish] *)

Section breadth_first.
Variable edge_order : gmap Z nat -> list (Z * nat).
Hypothesis edge_order_lists : forall m, edge_order m ≡ₚ map_to_list m.
Variables ps ws : list (list Z).
Hypothesis patterns_are_words : forall p, p ∈ ps -> p ∈ ws.

Definition len (v : nat) : nat := length (ws !!! v).

Definition raw_mark (w : list Z) : nat := if decide (w ∈ ps) then length w else O.

(** The state of the queue loop: [popped] and [q] are the nodes already linked,
    in the order they entered the queue; [pend] are the children of the last
    popped node still to be linked. *)
Record bfs (popped q pend : list nat) (ns : list Node) : Prop := {
  bf_trie : trie ws ns;
  bf_nodup : NoDup (popped ++ q ++ pend);
  bf_words : forall v, v ∈ popped ++ q ++ pend -> exists w, ws !! v = Some w /\ w <> [];
  bf_done : forall v n w, v ∈ popped ++ q -> ns !! v = Some n -> ws !! v = Some w ->
    fail_ok ws n w /\ terminal n = best ps w;
  bf_raw : forall v n w, v ∉ popped ++ q -> ns !! v = Some n -> ws !! v = Some w ->
    failure n = O /\ terminal n = raw_mark w;
  bf_children : forall u v w b, ws !! u = Some w -> ws !! v = Some (w ++ [b]) ->
    u = O \/ u ∈ popped -> v ∈ popped ++ q ++ pend;
  bf_parents : forall u v w b, ws !! u = Some w -> ws !! v = Some (w ++ [b]) ->
    v ∈ popped ++ q ++ pend -> u = O \/ u ∈ popped;
  bf_sorted : StronglySorted (fun a b => len a <= len b)%nat (popped ++ q)
}.

Lemma len_word v w : ws !! v = Some w -> len v = length w.
Proof. intros Hw. unfold len. by rewrite (list_lookup_total_correct _ _ _ Hw). Qed.

Lemma root_done ns n :
  trie ws ns -> terminal n = raw_mark [] -> fail_ok ws n [] /\ terminal n = best ps [].
Proof.
  intros T ->. split; [done|]. unfold raw_mark.
  assert (best ps [] <= 0)%nat.
  { apply best_le. intros q _ ->%suffix_nil_inv. done. }
  destruct (decide _); simpl; lia.
Qed.

(** When [p] reaches the front of the queue every node that is not deeper has
    already been linked. *)
Lemma bfs_shallow popped p q ns v w :
  bfs popped (p :: q) [] ns -> ws !! v = Some w -> w <> [] -> (length w <= len p)%nat ->
  v ∈ popped ++ p :: q.
Proof.
  intros B. revert v. induction w as [|b w IH] using rev_ind; intros v Hv Hne Hl; [done|].
  rewrite length_app in Hl. simpl in Hl.
  assert (w ∈ ws) as [u Hu]%list_elem_of_lookup.
  { eapply (tr_closed _ _ (bf_trie _ _ _ _ B)). by eapply list_elem_of_lookup_2. }
  assert (u = O \/ u ∈ popped) as Hup.
  { destruct (decide (w = [])) as [->|Hw].
    - left. by apply (root_word _ _ _ _ (bf_trie _ _ _ _ B) Hu).
    - right. assert (u ∈ popped ++ p :: q) as [?|Hq]%elem_of_app by (apply IH; [done|done|lia]);
        [done|]. exfalso. pose proof (len_word _ _ Hu).
      pose proof (bf_sorted _ _ _ _ B) as Hs. apply StronglySorted_app_1_r in Hs.
      apply StronglySorted_inv in Hs as [_ Hs]. rewrite Forall_forall in Hs.
      apply elem_of_cons in Hq as [->|Hq]; [lia|]. specialize (Hs u Hq). lia. }
  pose proof (bf_children _ _ _ _ B u v w b Hu Hv Hup) as Hin. by rewrite app_nil_r in Hin.
Qed.

Definition children (n : Node) : list nat := map snd (edge_order (edges n)).

Lemma children_spec ns p n w :
  trie ws ns -> ns !! p = Some n -> ws !! p = Some w ->
  NoDup (children n) /\
  forall v, v ∈ children n <-> exists b, ws !! v = Some (w ++ [b]).
Proof.
  intros T Hn Hw.
  assert (forall v, v ∈ children n <-> exists b, edges n !! b = Some v) as Hc.
  { intros v. unfold children. rewrite edge_order_lists, list_elem_of_fmap. split.
    - intros ([b t] & -> & Hb). exists b. by apply elem_of_map_to_list in Hb.
    - intros [b Hb]. exists (b, v). split; [done|]. by apply elem_of_map_to_list. }
  split.
  - unfold children. rewrite edge_order_lists. apply NoDup_fmap_2_strong.
    + intros [b1 t1] [b2 t2] H1%elem_of_map_to_list H2%elem_of_map_to_list E. simpl in E. subst t2.
      apply (tr_edge _ _ T _ _ _ _ _ Hn Hw) in H1, H2. rewrite H1 in H2.
      injection H2 as E. by apply app_inj_tail in E as [_ ->].
    + apply NoDup_map_to_list.
  - intros v. rewrite Hc. by setoid_rewrite (fun b => tr_edge _ _ T _ _ _ b v Hn Hw).
Qed.

Lemma bfs_pop popped p q ns n :
  bfs popped (p :: q) [] ns -> ns !! p = Some n ->
  bfs (popped ++ [p]) q (children n) ns.
Proof.
  intros B Hn. pose proof (bf_trie _ _ _ _ B) as T.
  destruct (bf_words _ _ _ _ B p) as (w & Hw & Hne); [set_solver|].
  destruct (children_spec _ _ _ _ T Hn Hw) as [Hcn Hc].
  pose proof (bf_nodup _ _ _ _ B) as Hnd. rewrite app_nil_r in Hnd.
  assert (p ∉ popped) as Hp by (apply NoDup_app in Hnd as (_ & Hd & _); set_solver).
  assert ((popped ++ [p]) ++ q = popped ++ p :: q) as Hh by by rewrite <- app_assoc.
  split; rewrite ?app_assoc, ?Hh.
  - done.
  - apply NoDup_app. split_and!; [done| |done]. intros v Hv [b Hb]%Hc.
    rewrite <- (app_nil_r (_ ++ _)), <- app_assoc in Hv.
    destruct (bf_parents _ _ _ _ B p v w b Hw Hb Hv) as [Hp0|?]; [|done].
    by apply (root_word _ _ _ _ T Hw) in Hp0.
  - intros v [Hv|[b Hb]%Hc]%elem_of_app.
    + apply (bf_words _ _ _ _ B). by rewrite app_nil_r.
    + exists (w ++ [b]). split; [done|]. by destruct w.
  - apply (bf_done _ _ _ _ B).
  - apply (bf_raw _ _ _ _ B).
  - intros u v x b Hu Hv Hup.
    destruct (decide (u = p)) as [->|Hup'].
    + apply elem_of_app. right. apply Hc. exists b. congruence.
    + apply elem_of_app. left. pose proof (bf_children _ _ _ _ B u v x b Hu Hv) as Hin.
      rewrite app_nil_r in Hin. apply Hin. set_solver.
  - intros u v x b Hu Hv [Hin|[c Hcv]%Hc]%elem_of_app.
    + destruct (bf_parents _ _ _ _ B u v x b Hu Hv) as [?|?]; [by rewrite app_nil_r|by left|].
      right. set_solver.
    + right. assert (x = w) as -> by (rewrite Hv in Hcv; injection Hcv as E; by apply app_inj_tail in E as [-> _]).
      assert (u = p) as -> by (by apply (NoDup_lookup ws u p w (tr_nodup _ _ T))). set_solver.
  - apply (bf_sorted _ _ _ _ B).
Qed.

(** Moving a linked child from the pending list to the queue. *)
Lemma bfs_link popped q c pend ns (g : Node -> Node) wc :
  bfs popped q (c :: pend) ns -> ws !! c = Some wc ->
  (forall n, edges (g n) = edges n /\ depth (g n) = depth n) ->
  (forall n, ns !! c = Some n -> fail_ok ws (g n) wc /\ terminal (g n) = best ps wc) ->
  (forall v, v ∈ popped ++ q -> len v <= len c)%nat ->
  bfs popped (q ++ [c]) pend (alter g c ns).
Proof.
  intros B Hc Hg Hok Hlv.
  assert (forall v n, alter g c ns !! v = Some n -> v <> c -> ns !! v = Some n) as Hkeep
    by (intros v n Hv Hne; by rewrite list_lookup_alter_ne in Hv).
  assert (popped ++ (q ++ [c]) ++ pend = popped ++ q ++ c :: pend) as Hh by by rewrite <- !app_assoc.
  split; rewrite ?Hh; try apply B.
  - apply trie_marks; [done|apply B].
  - intros v n w Hv Hn Hw. destruct (decide (v = c)) as [->|Hne].
    + rewrite list_lookup_alter_eq in Hn. apply fmap_Some in Hn as (m & Hm & ->).
      assert (w = wc) as -> by congruence. by apply Hok.
    + apply (bf_done _ _ _ _ B v); [set_solver|by apply Hkeep|done].
  - intros v n w Hv Hn Hw. apply (bf_raw _ _ _ _ B v); [set_solver| |done].
    apply Hkeep; [done|]. set_solver.
  - rewrite app_assoc. apply StronglySorted_app_2; [|apply (bf_sorted _ _ _ _ B)|].
    + intros v u Hv ->%list_elem_of_singleton. by apply Hlv.
    + constructor; constructor.
Qed.

(** What is known of the nodes up to a depth that has been linked completely. *)
Lemma bfs_done_below popped q pend ns k v n x :
  bfs popped q pend ns ->
  (forall v x, ws !! v = Some x -> x <> [] -> (length x <= k)%nat -> v ∈ popped ++ q) ->
  ns !! v = Some n -> ws !! v = Some x -> (length x <= k)%nat ->
  fail_ok ws n x /\ terminal n = best ps x.
Proof.
  intros B Hsh Hn Hx Hxl. destruct (decide (v ∈ popped ++ q)) as [Hin|Hni].
  - by apply (bf_done _ _ _ _ B v).
  - destruct (decide (x = [])) as [->|Hne]; [|by destruct Hni; apply (Hsh v x)].
    eapply root_done; [apply B|]. by apply (bf_raw _ _ _ _ B v n []).
Qed.

(** Linking one child of [p]. *)
Lemma link_child_spec popped q c pend ns p w b :
  bfs popped q (c :: pend) ns -> ws !! p = Some w -> p ∈ popped ->
  ws !! c = Some (w ++ [b]) ->
  (forall v x, ws !! v = Some x -> x <> [] -> (length x <= len p)%nat -> v ∈ popped ++ q) ->
  (forall v, v ∈ popped ++ q -> len v <= S (len p))%nat ->
  exists ns', link_child p ns b c = Some ns' /\ bfs popped (q ++ [c]) pend ns' /\
              length ns' = length ns /\ (forall n', ns' !! p = Some n' -> ns !! p = Some n').
Proof.
  intros B Hp Hpop Hc Hsh Hlv. pose proof (bf_trie _ _ _ _ B) as T.
  pose proof (len_word _ _ Hp) as Hlp. pose proof (len_word _ _ Hc) as Hlc.
  rewrite length_app in Hlc. simpl in Hlc.
  destruct (trie_node _ _ _ _ T Hp) as [np Hnp]. destruct (trie_node _ _ _ _ T Hc) as [nc Hnc].
  assert (forall v n x, ns !! v = Some n -> ws !! v = Some x -> (length x <= length w)%nat ->
            fail_ok ws n x /\ terminal n = best ps x) as Hdone
    by (intros; eapply bfs_done_below; eauto; lia).
  assert (c ∉ popped ++ q) as Hcn.
  { pose proof (bf_nodup _ _ _ _ B) as Hnd. rewrite app_assoc in Hnd.
    apply NoDup_app in Hnd as (_ & Hd & _). intros Hin. apply (Hd c Hin). constructor. }
  destruct (Hdone p np w Hnp Hp) as [Hfp _]; [done|].
  assert (w <> []) as Hwne.
  { destruct (bf_words _ _ _ _ B p) as (w' & Hw' & ?); [set_solver|congruence]. }
  destruct w as [|c0 y]; [done|]. destruct Hfp as (f & Hf & Hls).
  assert (length f <= length y)%nat as Hfl by apply suffix_length, Hls.
  destruct (advance_spec (length ns) ws ns (failure np) f b T Hf) as (t & x & Hadv & Hx & Hxs).
  { eapply trie_short; [done|]. by eapply list_elem_of_lookup_2. }
  { intros v n z Hn Hz Hzl. apply (Hdone v n z Hn Hz). simpl. lia. }
  pose proof (lsuf_step _ _ _ _ _ _ T Hls Hxs) as Hxy.
  assert (length x <= length (c0 :: y))%nat as Hxl.
  { destruct Hxy as (_ & Hsuf & _). apply suffix_length in Hsuf. rewrite length_app in Hsuf.
    simpl in *. lia. }
  destruct (trie_node _ _ _ _ T Hx) as [nt Hnt]. destruct (Hdone t nt x Hnt Hx Hxl) as [_ Htt].
  assert (t <> c) as Htc.
  { intros ->. rewrite Hc in Hx. injection Hx as <-. simpl in Hxl. rewrite length_app in Hxl. simpl in Hxl. lia. }
  destruct (bf_raw _ _ _ _ B c nc _ Hcn Hnc Hc) as [_ Hrc].
  set (g := fun n : Node => mkNode (edges n) t (depth n) (Nat.max (terminal nc) (terminal nt))).
  assert (link_child p ns b c = Some (alter g c ns)) as Hlink.
  { unfold link_child. rewrite Hnp. cbn [mbind option_bind]. rewrite Hadv. cbn [mbind option_bind].
    rewrite Hnc. cbn [mbind option_bind].
    rewrite list_lookup_insert_eq by (by eapply lookup_lt_Some). cbn [mbind option_bind].
    rewrite list_lookup_insert_ne, Hnt by done. cbn [mbind option_bind].
    by rewrite list_insert_insert_eq, <- (insert_is_alter g _ _ _ Hnc). }
  exists (alter g c ns). split; [done|].
  assert (forall v n, alter g c ns !! v = Some n -> v <> c -> ns !! v = Some n) as Hkeep
    by (intros v n Hv Hne; by rewrite list_lookup_alter_ne in Hv).
  split; [|split; [apply length_alter|]].
  2:{ intros n' Hn'. apply Hkeep; [done|]. intros ->. set_solver. }
  apply (bfs_link popped q c pend ns g ((c0 :: y) ++ [b])); try done.
  - intros n Hn. assert (n = nc) as -> by congruence. split.
    + simpl. exists x. split; [done|]. exact Hxy.
    + simpl. rewrite Hrc, Htt. symmetry. by apply best_step with (ws := ws).
  - intros v Hv. pose proof (Hlv v Hv). lia.
Qed.

Lemma link_children_spec es popped q pend ns p w :
  bfs popped q pend ns -> pend = map snd es -> ws !! p = Some w -> p ∈ popped ->
  Forall (fun e => ws !! e.2 = Some (w ++ [e.1])) es ->
  (forall v x, ws !! v = Some x -> x <> [] -> (length x <= len p)%nat -> v ∈ popped ++ q) ->
  (forall v, v ∈ popped ++ q -> len v <= S (len p))%nat ->
  exists ns' q', link_children p es ns q = Some (ns', q') /\ bfs popped q' [] ns' /\
                 length ns' = length ns.
Proof.
  revert q pend ns. induction es as [|[b c] es IH]; intros q pend ns B -> Hp Hpop Hes Hsh Hlv.
  { by exists ns, q. }
  apply Forall_cons in Hes as [Hc Hes]. simpl in Hc. cbn [link_children].
  destruct (link_child_spec popped q c (map snd es) ns p w b) as (ns1 & E & B1 & Hl & _); try done.
  rewrite E. cbn [mbind option_bind].
  destruct (IH (q ++ [c]) (map snd es) ns1) as (ns' & q' & E' & B' & Hl'); try done.
  - intros v x Hv Hx Hxl. rewrite app_assoc, elem_of_app. left. by eapply Hsh.
  - intros v. rewrite app_assoc, elem_of_app. intros [Hv| ->%list_elem_of_singleton]; [by apply Hlv|].
    rewrite (len_word _ _ Hc), (len_word _ _ Hp), length_app. simpl. lia.
  - exists ns', q'. split_and!; [done|done|lia].
Qed.

(** Everything in the queue is at most one level below its front. *)
Lemma bfs_levels popped p q ns v :
  bfs popped (p :: q) [] ns -> v ∈ popped ++ p :: q -> (len v <= S (len p))%nat.
Proof.
  intros B Hv. destruct (bf_words _ _ _ _ B v) as (w & Hw & Hne); [by rewrite app_nil_r|].
  destruct w as [|b w _] using rev_ind; [done|].
  assert (w ∈ ws) as [u Hu]%list_elem_of_lookup.
  { eapply (tr_closed _ _ (bf_trie _ _ _ _ B)). by eapply list_elem_of_lookup_2. }
  rewrite (len_word _ _ Hw), length_app. simpl.
  destruct (bf_parents _ _ _ _ B u v w b Hu Hw) as [->|Hpop]; [by rewrite app_nil_r| |].
  - rewrite (tr_root _ _ (bf_trie _ _ _ _ B)) in Hu. injection Hu as <-. simpl. lia.
  - rewrite <- (len_word _ _ Hu). pose proof (bf_sorted _ _ _ _ B) as Hs.
    pose proof (StronglySorted_app_1_elem_of _ _ _ u p Hs Hpop ltac:(constructor)) as Hup.
    simpl in Hup. lia.
Qed.

(** The final automaton: every node is marked as specified. *)
Definition linked (ns : list Node) : Prop :=
  trie ws ns /\ forall v n w, ns !! v = Some n -> ws !! v = Some w ->
    fail_ok ws n w /\ terminal n = best ps w.

Lemma bfs_linked popped ns : bfs popped [] [] ns -> linked ns.
Proof.
  intros B. split; [apply B|].
  assert (forall w v, ws !! v = Some w -> w <> [] -> v ∈ popped) as Hall.
  { induction w as [|b w IH] using rev_ind; intros v Hv Hne; [done|].
    assert (w ∈ ws) as [u Hu]%list_elem_of_lookup.
    { eapply (tr_closed _ _ (bf_trie _ _ _ _ B)). by eapply list_elem_of_lookup_2. }
    pose proof (bf_children _ _ _ _ B u v w b Hu Hv) as Hin. rewrite !app_nil_r in Hin.
    apply Hin. destruct (decide (w = [])) as [->|]; [|right; by apply IH].
    left. by apply (root_word _ _ _ _ (bf_trie _ _ _ _ B) Hu). }
  intros v n w Hn Hw. eapply (bfs_done_below popped [] [] ns (length w)); try done.
  intros u x Hu Hx _. rewrite app_nil_r. by apply (Hall x).
Qed.

Lemma finish_loop_spec fuel popped q ns :
  bfs popped q [] ns -> (length ns <= fuel + length popped)%nat ->
  exists ns', finish_loop edge_order fuel ns q = Some ns' /\ linked ns' /\ length ns' = length ns.
Proof.
  revert popped q ns. induction fuel as [|fuel IH]; intros popped q ns B Hf;
    (destruct q as [|p q]; [exists ns; split; [done|split; [by eapply bfs_linked|done]]|]).
  - exfalso. pose proof (bf_nodup _ _ _ _ B) as Hnd. rewrite app_nil_r in Hnd.
    pose proof (tr_length _ _ (bf_trie _ _ _ _ B)) as Hl.
    assert (length (popped ++ p :: q) <= length (seq 0 (length ns)))%nat as Hle.
    { apply submseteq_length, NoDup_submseteq; [done|]. intros v Hv. apply elem_of_seq.
      destruct (bf_words _ _ _ _ B v) as (w & Hw & _); [by rewrite app_nil_r|].
      apply lookup_lt_Some in Hw. lia. }
    rewrite length_app, length_seq in Hle. simpl in *. lia.
  - cbn [finish_loop]. pose proof (bf_trie _ _ _ _ B) as T.
    destruct (bf_words _ _ _ _ B p) as (w & Hw & Hne); [set_solver|].
    destruct (trie_node _ _ _ _ T Hw) as [n Hn]. rewrite Hn. cbn [mbind option_bind].
    destruct (link_children_spec (edge_order (edges n)) (popped ++ [p]) q (children n) ns p w)
      as (ns' & q' & E & B' & Hl); try done.
    + by apply bfs_pop.
    + set_solver.
    + rewrite edge_order_lists. apply Forall_forall. intros [b t] Hb%elem_of_map_to_list.
      by apply (tr_edge _ _ T _ _ _ _ _ Hn Hw).
    + intros v x Hv Hx Hxl. rewrite <- app_assoc. by eapply bfs_shallow.
    + intros v Hv. rewrite <- app_assoc in Hv. by eapply bfs_levels.
    + rewrite E. cbn [mbind option_bind]. rewrite <- Hl. apply (IH (popped ++ [p])); [done|].
      rewrite length_app. simpl. lia.
Qed.

Lemma finish_spec ns :
  built ps ws ns ->
  exists ns', finish edge_order (mkAutomaton ns) = Some (mkAutomaton ns') /\ linked ns' /\
              length ns' = length ns.
Proof.
  intros Bt. pose proof (bt_trie _ _ _ Bt) as T. unfold finish. simpl.
  destruct (trie_node _ _ _ _ T (tr_root _ _ T)) as [root Hroot]. rewrite Hroot.
  cbn [mbind option_bind]. destruct (children_spec _ _ _ _ T Hroot (tr_root _ _ T)) as [Hnd Hc].
  fold (children root).
  assert (forall v w, ws !! v = Some w -> v ∈ children root -> len v = 1%nat /\ exists b, w = [b])
    as Hone.
  { intros v w Hw [b Hb]%Hc. simpl in Hb. assert (w = [b]) as -> by congruence.
    rewrite (len_word _ _ Hw). split; [done|by exists b]. }
  assert (bfs [] (children root) [] ns) as B.
  { split; rewrite ?app_nil_l, ?app_nil_r; try done.
    - intros v [b Hb]%Hc. by exists [b].
    - intros v n w Hv Hn Hw. destruct (Hone v w Hw Hv) as [_ [b ->]].
      destruct (bt_marks _ _ _ Bt _ _ _ Hn Hw) as [Hf Ht].
      assert (lsuf ws [] []) as Hls.
      { split; [eapply list_elem_of_lookup_2, (tr_root _ _ T)|]. split; [done|].
        by intros y _ ->%suffix_nil_inv. }
      split; [exists []; rewrite Hf; split; [apply T|done]|].
      rewrite Ht, (best_step ps ws [] b []) by done. fold (raw_mark [b]).
      destruct (root_done ns (mkNode ∅ 0 0 (raw_mark [])) T eq_refl) as [_ Hr]. simpl in Hr.
      rewrite <- Hr. unfold raw_mark. destruct (decide ([b] ∈ ps)), (decide ([] ∈ ps)); simpl; lia.
    - intros v n w _. apply Bt.
    - intros u v w b Hu Hv [->|?%not_elem_of_nil]; [|done].
      rewrite (tr_root _ _ T) in Hu. injection Hu as <-. apply Hc. by exists b.
    - intros u v w b Hu Hv Hin. left. apply (root_word _ _ _ _ T Hu).
      destruct (Hone _ _ Hv Hin) as [_ [c Hcv]]. destruct w as [|x [|y w]]; done.
    - assert (forall l, (forall v, v ∈ l -> v ∈ children root) ->
        StronglySorted (fun a b => len a <= len b)%nat l) as Hs.
      { induction l as [|v l IH]; intros Hl; [constructor|]. constructor; [apply IH; set_solver|].
        assert (forall x, x ∈ v :: l -> len x = 1%nat) as Hlen.
        { intros x [b Hb]%Hl%Hc. by rewrite (len_word _ _ Hb). }
        apply Forall_forall. intros x Hx. rewrite !Hlen; [done|by constructor|constructor]. }
      by apply Hs. }
  destruct (finish_loop_spec (length ns) [] _ ns B) as (ns' & E & HL & Hl); [lia|].
  rewrite E. by exists ns'.
Qed.

End breadth_first.
(** ** Compiling *)

Definition total (ps : list (list Z)) : nat := sum_list_with length ps.

Definition valid_patterns (ps : list (list Z)) : Prop :=
  (1 <= length ps <= 2048)%nat /\ ([] ∉ ps) /\ (Z.of_nat (total ps) <= 262144)%Z.

(** The automaton of a pattern list, with the words of its nodes. *)
Definition compiled (ps ws : list (list Z)) (a : Automaton) : Prop :=
  linked ps ws (nodes a) /\
  forall w, w ∈ ws <-> w = [] \/ exists p, p ∈ ps /\ w `prefix_of` p.

Lemma add_all_spec items done_ps ws a tot :
  built done_ps ws (nodes a) ->
  (exists ps ws' a', items = map Some ps /\ ([] ∉ ps) /\
     (ps = [] \/ tot + Z.of_nat (total ps) <= 262144)%Z /\
     add_all items tot a = Some (Ok a') /\ built (done_ps ++ ps) ws' (nodes a') /\
     (length (nodes a') <= length (nodes a) + total ps)%nat) \/
  (exists m, add_all items tot a = Some (Throw m) /\
     forall ps, items = map Some ps -> [] ∈ ps \/ (262144 < tot + Z.of_nat (total ps))%Z).
Proof.
  revert done_ps ws a tot. induction items as [|[p|] items IH]; intros dps ws a tot B; cbn [add_all].
  { left. exists [], ws, a. rewrite app_nil_r. split_and!; [done|apply not_elem_of_nil|by left|done|done|].
    simpl. lia. }
  2:{ right. exists not_bytes. split; [done|]. by intros [|p ps]. }
  destruct (Nat.eqb_spec (length p) 0) as [H0|Hne].
  { right. exists bad_pattern. split; [done|]. intros [|q ps] E; simplify_eq/=. left.
    apply nil_length_inv in H0. subst. constructor. }
  destruct (Z.ltb_spec 262144 (tot + Z.of_nat (length p))) as [Hbig|Hsm]; simpl.
  { right. exists bad_pattern. split; [done|]. intros [|q ps] E; simplify_eq/=. right. lia. }
  destruct (add_spec dps ws (nodes a) p) as (ws1 & ns1 & E & B1 & Hl); [by intros ->|done|].
  destruct a as [ns]. simpl in *. rewrite E. cbn [mbind option_bind].
  destruct (IH _ _ (mkAutomaton ns1) (tot + Z.of_nat (length p))%Z B1)
    as [(ps & ws' & a' & -> & Hn & Ht & E' & B' & Hl')|(m & E' & Hbad)].
  - left. exists (p :: ps), ws', a'. rewrite <- app_assoc in B'. simpl in *.
    split_and!; [done| | |done|done|lia].
    + apply not_elem_of_cons. split; [by intros <-|done].
    + right. destruct Ht as [->|Ht]; simpl; lia.
  - right. exists m. split; [done|]. intros [|q ps] E2; simplify_eq/=.
    destruct (Hbad ps eq_refl) as [?|?]; [left; by constructor|right; lia].
Qed.

Section compiling.
Variable edge_order : gmap Z nat -> list (Z * nat).
Hypothesis edge_order_lists : forall m, edge_order m ≡ₚ map_to_list m.

Lemma compile_spec items :
  (exists ps ws a, items = map Some ps /\ valid_patterns ps /\
     compile edge_order items = Some (Ok a) /\ compiled ps ws a /\
     (length (nodes a) <= 1 + total ps)%nat) \/
  (exists m, compile edge_order items = Some (Throw m) /\
     forall ps, items = map Some ps -> ~ valid_patterns ps).
Proof.
  unfold compile. destruct (Nat.eqb_spec (length items) 0) as [H0|H0]; simpl.
  { right. exists bad_count. split; [done|]. intros ps -> [? _]. rewrite length_map in H0. lia. }
  destruct (Nat.ltb_spec 2048 (length items)) as [H1|H1].
  { right. exists bad_count. split; [done|]. intros ps -> [? _]. rewrite length_map in H1. lia. }
  destruct (add_all_spec items [] [[]] empty_automaton 0 built_empty)
    as [(ps & ws & a & -> & Hn & Ht & E & B & Hl)|(m & E & Hbad)]; rewrite E; cbn [mbind option_bind].
  - rewrite length_map in H0, H1. destruct a as [ns]. simpl in B.
    destruct (finish_spec edge_order edge_order_lists ps ws) with (ns := ns)
      as (ns' & Ef & Hlk & Hlen); [|done|].
    { intros p Hp. apply (bt_words _ _ _ B). right. by exists p. }
    left. exists ps, ws, (mkAutomaton ns'). rewrite Ef. simpl in *. split_and!; try done; try lia.
    + split_and!; [lia..|done|]. destruct Ht as [->|?]; simpl in *; lia.
    + split; [done|apply B].
  - right. exists m. split; [done|]. intros ps -> (_ & Hn & Ht).
    destruct (Hbad ps eq_refl) as [?|?]; [done|lia].
Qed.
End compiling.

(** ** Scanning *)

(** The least element of a set of integers, if it has one. *)
Definition is_min (P : Z -> Prop) (r : option Z) : Prop :=
  match r with
  | None => forall z, ~ P z
  | Some m => P m /\ forall z, P z -> (m <= z)%Z
  end.

Lemma is_min_ext P Q r : (forall z, P z <-> Q z) -> is_min P r -> is_min Q r.
Proof. intros HPQ. destruct r; simpl; setoid_rewrite HPQ; done. Qed.

(** A match start relative to the chunk: some pattern ends [k] bytes into it. *)
Definition match_start (ps : list (list Z)) (h data : list Z) (start : Z) : Prop :=
  exists p k, p ∈ ps /\ (1 <= k <= length data)%nat /\ p `suffix_of` (h ++ take k data) /\
              start = (Z.of_nat k - Z.of_nat (length p))%Z.

Lemma match_start_nil ps h s : ~ match_start ps h [] s.
Proof. intros (p & k & _ & Hk & _). simpl in Hk. lia. Qed.

Lemma match_start_cons ps h b data s :
  match_start ps h (b :: data) s <->
  (exists p, p ∈ ps /\ p `suffix_of` (h ++ [b]) /\ s = (1 - Z.of_nat (length p))%Z) \/
  match_start ps (h ++ [b]) data (s - 1).
Proof.
  split.
  - intros (p & [|[|k]] & Hp & Hk & Hs & ->); [lia| |].
    + left. exists p. simpl in Hs. by rewrite take_0 in Hs.
    + right. exists p, (S k). simpl in Hk. rewrite <- app_assoc. split_and!; [done|lia|lia|done|lia].
  - intros [(p & Hp & Hs & ->)|(p & k & Hp & Hk & Hs & Hst)].
    + exists p, 1%nat. simpl. rewrite take_0. split_and!; [done|lia|lia|done|lia].
    + exists p, (S k). simpl. rewrite <- app_assoc in Hs. split_and!; [done|lia|lia|done|lia].
Qed.

(** A state that stands for the input read so far. *)
Definition tracks (ws : list (list Z)) (st : nat) (h : list Z) : Prop :=
  exists x, ws !! st = Some x /\ lsuf ws x h.

Lemma tracks_start ps ws a : compiled ps ws a -> tracks ws 0 [].
Proof.
  intros [[T _] _]. exists []. split; [apply T|].
  split; [eapply list_elem_of_lookup_2, (tr_root _ _ T)|]. split; [done|].
  by intros y _ ->%suffix_nil_inv.
Qed.

(** One byte: the automaton never gets stuck, and the terminal of the new state
    is the longest pattern that ends here. *)
Lemma advance_tracks ps ws a st h b :
  compiled ps ws a -> tracks ws st h ->
  exists st' n, advance (length (nodes a)) (nodes a) st b = Some st' /\
    nodes a !! st' = Some n /\ tracks ws st' (h ++ [b]) /\ terminal n = best ps (h ++ [b]).
Proof.
  intros [[T HL] Hw] (x & Hx & Hls).
  destruct (advance_spec (length (nodes a)) ws (nodes a) st x b T Hx) as (t & y & E & Hy & Hys).
  { eapply trie_short; [done|]. by eapply list_elem_of_lookup_2. }
  { intros v n z Hn Hz _. by apply (HL v). }
  destruct (trie_node _ _ _ _ T Hy) as [n Hn]. exists t, n.
  pose proof (lsuf_step _ _ _ _ _ _ T Hls Hys) as Hyh.
  split_and!; [done|done|by exists y|]. destruct (HL t n y Hn Hy) as [_ ->].
  destruct Hyh as (Hyw & Hyh & Hmax). apply eq_by_le. intros k. rewrite !best_le.
  split; intros Ha p Hp Hs; apply Ha; try done; [|by etrans].
  apply Hmax; [|done]. apply Hw. right. by exists p.
Qed.

(** The bookkeeping of [earliest] keeps the minimum. *)
Lemma earliest_min ps h b i e P :
  [] ∉ ps -> is_min P e ->
  is_min (fun s => P s \/ exists p, p ∈ ps /\ p `suffix_of` (h ++ [b]) /\
                        s = (i + 1 - Z.of_nat (length p))%Z)
    (if Nat.eqb (best ps (h ++ [b])) 0 then e
     else let start := (i + 1 - Z.of_nat (best ps (h ++ [b])))%Z in
          match e with
          | None => Some start
          | Some e => if (start <? e)%Z then Some start else Some e
          end).
Proof.
  intros Hne He. set (w := h ++ [b]).
  assert (forall p, p ∈ ps -> p `suffix_of` w -> (length p <= best ps w)%nat) as Hub
    by (by apply best_le).
  destruct (Nat.eqb_spec (best ps w) 0) as [H0|H0].
  - eapply is_min_ext; [|exact He]. intros z. split; [by left|].
    intros [?|(p & Hp & Hs & ->)]; [done|]. destruct Hne.
    specialize (Hub p Hp Hs). assert (p = []) as <- by (apply nil_length_inv; lia). done.
  - destruct (best_attained ps w H0) as (p & Hp & Hs & Hl). cbv zeta.
    set (st := (i + 1 - Z.of_nat (best ps w))%Z).
    assert (forall z, (exists q, q ∈ ps /\ q `suffix_of` w /\ z = (i + 1 - Z.of_nat (length q))%Z)
              -> (st <= z)%Z) as Hst.
    { intros z (q & Hq & Hqs & ->). specialize (Hub q Hq Hqs). unfold st. lia. }
    assert (exists q, q ∈ ps /\ q `suffix_of` w /\ st = (i + 1 - Z.of_nat (length q))%Z) as Hex
      by (exists p; unfold st; rewrite Hl; done).
    destruct e as [e|]; simpl in He; [destruct (Z.ltb_spec st e)|]; simpl.
    + split; [by right|]. intros z [Hz|Hz]; [destruct He as [_ He]; specialize (He z Hz); lia|auto].
    + split; [by left; apply He|]. intros z [Hz|Hz]; [by apply He|]. specialize (Hst z Hz). lia.
    + split; [by right|]. intros z [Hz|Hz]; [by destruct (He z)|auto].
Qed.

Lemma scan_loop_spec ps ws a data st h i e P :
  compiled ps ws a -> [] ∉ ps -> tracks ws st h -> is_min P e ->
  exists st' e', scan_loop a st i data e = Some (st', e') /\ tracks ws st' (h ++ data) /\
    is_min (fun s => P s \/ match_start ps h data (s - i)) e'.
Proof.
  intros C Hne. revert st h i e P. induction data as [|b data IH]; intros st h i e P Ht He.
  { exists st, e. rewrite app_nil_r. split_and!; [done|done|]. eapply is_min_ext; [|done].
    intros z. split; [by left|]. intros [?|[]%match_start_nil]; done. }
  cbn [scan_loop]. destruct (advance_tracks _ _ _ _ _ b C Ht) as (s1 & n & E & Hn & Ht1 & Hterm).
  rewrite E. cbn [mbind option_bind]. rewrite Hn. cbn [mbind option_bind]. rewrite Hterm.
  pose proof (earliest_min ps h b i e P Hne He) as Hm.
  destruct (IH s1 (h ++ [b]) (i + 1)%Z _ _ Ht1 Hm) as (st' & e' & E' & Ht' & Hm').
  exists st', e'. rewrite <- app_assoc in Ht'. split_and!; [exact E'|done|].
  eapply is_min_ext; [|exact Hm']. intros z. rewrite match_start_cons.
  replace (z - i - 1)%Z with (z - (i + 1))%Z by lia.
  assert (forall p : list Z, z = (i + 1 - Z.of_nat (length p))%Z
                             <-> (z - i)%Z = (1 - Z.of_nat (length p))%Z) as Hz by lia.
  setoid_rewrite Hz. tauto.
Qed.

(** The bytes that may still become part of a match. *)
Definition holdback (ps : list (list Z)) (h : list Z) (n : nat) : Prop :=
  (exists x, (x = [] \/ exists p, p ∈ ps /\ x `prefix_of` p) /\ x `suffix_of` h /\ length x = n) /\
  (forall p future, p ∈ ps -> p `suffix_of` (h ++ future) -> (length p <= n + length future)%nat).

Lemma tracks_holdback ps ws a st h n :
  compiled ps ws a -> tracks ws st h -> nodes a !! st = Some n -> holdback ps h (depth n).
Proof.
  intros [[T _] Hw] (x & Hx & Hin & Hs & Hmax) Hn. rewrite (tr_depth _ _ T _ _ _ Hn Hx).
  split; [exists x; split_and!; [by apply Hw|done|done]|].
  intros p future Hp Hps. destruct (decide (length p <= length future)%nat); [lia|].
  destruct Hps as [k Hk]. apply app_eq_inv in Hk as [(y & -> & Hy)|(y & -> & Hy)].
  - assert (y `suffix_of` x) as Hyx%suffix_length.
    { apply Hmax; [|by apply suffix_app_r]. apply Hw. right. exists p. split; [done|].
      rewrite Hy. by apply prefix_app_r. }
    rewrite Hy, length_app. lia.
  - apply (f_equal length) in Hy. rewrite length_app in Hy. lia.
Qed.

Lemma tracks_range ps ws a st h : compiled ps ws a -> tracks ws st h -> (st < length (nodes a))%nat.
Proof.
  intros [[T _] _] (x & Hx & _). rewrite <- (tr_length _ _ T). by eapply lookup_lt_Some.
Qed.

Lemma scan_spec ps ws a st h data :
  compiled ps ws a -> [] ∉ ps -> tracks ws st h ->
  exists st' e hold, scan a (Z.of_nat st) data = Some (Ok (st', e, hold)) /\
    tracks ws st' (h ++ data) /\ is_min (match_start ps h data) e /\ holdback ps (h ++ data) hold.
Proof.
  intros C Hne Ht. pose proof (tracks_range _ _ _ _ _ C Ht) as Hr. unfold scan.
  rewrite (proj2 (Z.ltb_ge _ _)), (proj2 (Z.leb_gt _ _)) by lia. simpl. rewrite Nat2Z.id.
  destruct (scan_loop_spec ps ws a data st h 0 None (fun _ => False)) as (st' & e & E & Ht' & Hm);
    [done|done|done|by intros z []|]. rewrite E. cbn [mbind option_bind].
  destruct (lookup_lt_is_Some_2 (nodes a) st') as [n Hn]; [by eapply tracks_range|].
  rewrite Hn. cbn [mbind option_bind]. exists st', e, (depth n). split_and!; [done|done| |].
  - eapply is_min_ext; [|exact Hm]. intros z. cbv beta. rewrite Z.sub_0_r. tauto.
  - by eapply tracks_holdback.
Qed.

(** Scanning a stream chunk by chunk, carrying the state. *)
Fixpoint feed (a : Automaton) (st : Z) (chunks : list (list Z)) : option (outcome Z) :=
  match chunks with
  | [] => Some (Ok st)
  | data :: chunks =>
      r ← scan a st data;
      match r with
      | Throw m => Some (Throw m)
      | Ok (st, _, _) => feed a (Z.of_nat st) chunks
      end
  end.

Lemma feed_spec ps ws a chunks st h :
  compiled ps ws a -> [] ∉ ps -> tracks ws st h ->
  exists st', feed a (Z.of_nat st) chunks = Some (Ok (Z.of_nat st')) /\
              tracks ws st' (h ++ concat chunks).
Proof.
  intros C Hne. revert st h. induction chunks as [|d chunks IH]; intros st h Ht; cbn [feed].
  { exists st. by rewrite app_nil_r. }
  destruct (scan_spec ps ws a st h d C Hne Ht) as (st1 & e & hold & E & Ht1 & _).
  rewrite E. cbn [mbind option_bind]. destruct (IH st1 (h ++ d) Ht1) as (st' & E' & Ht').
  exists st'. rewrite <- app_assoc in Ht'. done.
Qed.

(** [C7] Compilation: on 1 to 2048 nonempty byte patterns of at most 262144 bytes
    in all, whatever the iteration order of the edge tables, [compile] terminates
    without reading outside the node table and returns the automaton whose nodes
    are the prefixes of the patterns, with every failure link the longest proper
    suffix in the trie and every terminal the longest pattern that ends there; it
    has at most 262145 nodes, so indices fit [int].  On any other input it raises. *)
Theorem compile_correct (edge_order : gmap Z nat -> list (Z * nat))
    (edge_order_lists : forall m, edge_order m ≡ₚ map_to_list m) (items : list (option (list Z))) :
  (exists ps ws a, items = map Some ps /\ valid_patterns ps /\
     compile edge_order items = Some (Ok a) /\ compiled ps ws a /\
     (Z.of_nat (length (nodes a)) <= 262145)%Z) \/
  (exists m, compile edge_order items = Some (Throw m) /\
     forall ps, items = map Some ps -> ~ valid_patterns ps).
Proof.
  destruct (compile_spec edge_order edge_order_lists items)
    as [(ps & ws & a & E & Hv & Hc & HC & Hl)|?]; [|by right].
  left. exists ps, ws, a. split_and!; try done. destruct Hv as (_ & _ & Ht). lia.
Qed.

Definition demo_patterns : list (list Z) :=
  map bytes_of_string ["he"; "she"; "his"; "hers"]%string.

Lemma compile_correct_witness :
  exists a, compile map_to_list (map Some demo_patterns) = Some (Ok a) /\
            (Z.of_nat (length (nodes a)) <= 262145)%Z.
Proof.
  destruct (compile_correct map_to_list (fun m => Permutation_refl _) (map Some demo_patterns))
    as [(ps & ws & a & _ & _ & E & _ & Hl)|(m & E & _)].
  - exists a. split; [exact E|exact Hl].
  - exfalso. vm_compute in E. discriminate.
Defined.

(** Streaming: after any sequence of chunks, scanning one more chunk of a
    compiled automaton succeeds and reports the earliest start (relative to the
    chunk, possibly negative) of all pattern occurrences that end inside the chunk
    in the concatenated stream, or none when there is none; and the number of
    bytes it says to hold back is the longest suffix of the stream that a pattern
    can still extend, so no later match starts before it. *)
Theorem scan_stream (edge_order : gmap Z nat -> list (Z * nat))
    (edge_order_lists : forall m, edge_order m ≡ₚ map_to_list m)
    (ps : list (list Z)) (a : Automaton) (chunks : list (list Z)) (data : list Z) :
  compile edge_order (map Some ps) = Some (Ok a) ->
  exists st st' e hold,
    feed a 0 chunks = Some (Ok (Z.of_nat st)) /\
    scan a (Z.of_nat st) data = Some (Ok (st', e, hold)) /\
    is_min (match_start ps (concat chunks) data) e /\
    holdback ps (concat chunks ++ data) hold.
Proof.
  intros Hc. destruct (compile_spec edge_order edge_order_lists (map Some ps))
    as [(ps' & ws & a' & E & Hv & Hc' & HC & _)|(m & E & _)]; [|congruence].
  assert (ps' = ps) as -> by (by apply (inj (map Some)) in E).
  assert (a' = a) as -> by congruence. destruct Hv as (_ & Hne & _).
  destruct (feed_spec ps ws a chunks 0 [] HC Hne (tracks_start _ _ _ HC)) as (st & Ef & Ht).
  destruct (scan_spec ps ws a st _ data HC Hne Ht) as (st' & e & hold & Es & _ & Hm & Hh).
  by exists st, st', e, hold.
Qed.

Lemma scan_stream_witness :
  exists a, compile map_to_list (map Some demo_patterns) = Some (Ok a) /\
  exists st st' e hold,
    feed a 0 [bytes_of_string "us"] = Some (Ok (Z.of_nat st)) /\
    scan a (Z.of_nat st) (bytes_of_string "hers") = Some (Ok (st', e, hold)) /\
    is_min (match_start demo_patterns (bytes_of_string "us") (bytes_of_string "hers")) e.
Proof.
  destruct (compile map_to_list (map Some demo_patterns)) as [[a|m]|] eqn:E;
    [|vm_compute in E; discriminate..].
  exists a. split; [reflexivity|].
  destruct (scan_stream map_to_list (fun m => Permutation_refl _) demo_patterns a
              [bytes_of_string "us"] (bytes_of_string "hers") E)
    as (st & st' & e & hold & H1 & H2 & H3 & _).
  exists st, st', e, hold. split; [exact H1|]. split; [exact H2|].
  assert (concat [bytes_of_string "us"] = bytes_of_string "us") as Hc by apply app_nil_r.
  rewrite Hc in H3. exact H3.
Defined.

End Phrase.
