(* ===== verification/FloatConvert.v ===== *)
(** * Half-precision conversions ([csrc/cpu/float_convert.hpp])

    A [float] is its 32-bit pattern ([std::bit_cast]), a half its 16-bit pattern.
    Values are exact integers: [value32] counts multiples of 2^-149, the smallest
    positive float, and [value16] gives a half in the same unit. *)

From S2P Require Import Prelude.

#[local] Open Scope Z_scope.

Module FloatConvert.

(** ** The conversions *)

Definition bf16_to_float (bf16 : Z) : Z := u32 (Z.shiftl bf16 16).

Definition float_to_bf16 (fp32 : Z) : Z := u16 (Z.shiftr fp32 16).

(** The rounding step: [mantissa], [exponent] after round to nearest even. *)
Definition round_even (mantissa exponent shift : Z) : Z * Z :=
  let lsb := Z.shiftl 1 shift in
  let lsb_s1 := Z.shiftr lsb 1 in
  let lsb_m1 := lsb - 1 in
  let remainder := Z.land mantissa lsb_m1 in
  let mantissa := Z.shiftr mantissa shift in
  if (lsb_s1 <? remainder) || ((remainder =? lsb_s1) && negb (Z.land mantissa 1 =? 0)) then
    let mantissa := u32 (mantissa + 1) in
    if Z.land mantissa 0x3ff =? 0 then (0, u32 (exponent + 1)) else (mantissa, exponent)
  else (mantissa, exponent).

Definition float_to_fp16 (x : Z) : Z :=
  let u := Z.land x 0x7fffffff in
  if 0x7f800000 <? u then 0x7fff
  else
    let sign := Z.land (Z.shiftr x 16) 0x8000 in
    if 0x477fefff <? u then u16 (Z.lor sign 0x7c00)
    else if u <? 0x33000001 then u16 (Z.lor sign 0)
    else
      let exponent := Z.land (Z.shiftr u 23) 0xff in
      let mantissa := Z.land u 0x7fffff in
      let '(shift, exponent, mantissa) :=
        if 0x70 <? exponent then (13, u32 (exponent - 0x70), mantissa)
        else (u32 (0x7e - exponent), 0, Z.lor mantissa 0x800000) in
      let '(mantissa, exponent) := round_even mantissa exponent shift in
      u16 (Z.lor (Z.lor sign (u32 (Z.shiftl exponent 10))) mantissa).

(** The normalising [do ... while]: shifts left until the hidden bit was set. *)
Fixpoint normalize (fuel : nat) (mantissa exponent : Z) : option (Z * Z) :=
  match fuel with
  | O => None
  | S fuel =>
      let msb := Z.land mantissa 0x400000 in
      let mantissa := u32 (Z.shiftl mantissa 1) in
      let exponent := u32 (exponent - 1) in
      if msb =? 0 then normalize fuel mantissa exponent else Some (mantissa, exponent)
  end.

(** The loop shifts at most 23 times: [mantissa] is nonzero and below 2^23. *)
Definition fp16_to_float (fp16 : Z) : option Z :=
  let sign := Z.land (Z.shiftr fp16 15) 1 in
  let exponent := Z.land (Z.shiftr fp16 10) 0x1f in
  let mantissa := u32 (Z.shiftl (Z.land fp16 0x3ff) 13) in
  '(sign, exponent, mantissa) ←
    (if exponent =? 0x1f then
       Some (if mantissa =? 0 then (sign, 0xff, 0) else (0, 0xff, 0x7fffff))
     else if exponent =? 0 then
       if mantissa =? 0 then Some (sign, exponent, mantissa)
       else '(mantissa, exponent) ← normalize 23 mantissa 0x71;
            Some (sign, exponent, Z.land mantissa 0x7fffff)
     else Some (sign, exponent + 0x70, mantissa));
  Some (Z.lor (Z.lor (u32 (Z.shiftl sign 31)) (u32 (Z.shiftl exponent 23))) mantissa).

(** ** Values *)

(** Magnitude of a finite float from its low 31 bits, in units of 2^-149. *)
Definition value32 (u : Z) : Z :=
  let e := u / 2 ^ 23 in
  let m := u mod 2 ^ 23 in
  if e =? 0 then m else (2 ^ 23 + m) * 2 ^ (e - 1).

(** Magnitude of a half from its low 15 bits, in the same unit. *)
Definition value16 (c : Z) : Z :=
  let e := c / 2 ^ 10 in
  let m := c mod 2 ^ 10 in
  (if e =? 0 then m else (2 ^ 10 + m) * 2 ^ (e - 1)) * 2 ^ 125.

(** [c] is [v] rounded to nearest in a format whose codes have these values, ties to the
    even code: [c0] and its successor bracket the value. *)
Definition nearest_in (value : Z -> Z) (v c : Z) : Prop :=
  exists c0, 0 <= c0 /\ value c0 <= v < value (c0 + 1) /\
    let mid := value c0 + value (c0 + 1) in
    (2 * v < mid -> c = c0) /\ (mid < 2 * v -> c = c0 + 1) /\
    (2 * v = mid -> c = c0 + c0 mod 2).

Definition nearest_even : Z -> Z -> Prop := nearest_in value16.

Lemma bits_of u : 0 <= u < 2 ^ 31 ->
  Z.land (Z.shiftr u 23) 255 = u / 2 ^ 23 /\ Z.land u 8388607 = u mod 2 ^ 23.
Proof.
  intros Hu. split; [|exact (land_low u 23 ltac:(lia))].
  etrans; [exact (land_low (Z.shiftr u 23) 8 ltac:(lia))|]. rewrite shiftr_pow by lia.
  apply Z.mod_small. split; [apply Z.div_pos; lia|]. apply Z.div_lt_upper_bound; lia.
Qed.

(** The rounding step computes the rounded code [floor(m / 2^s)], plus one when
    the discarded part is over half, or exactly half with an odd quotient. *)
Definition rne (m s : Z) : Z :=
  let q := m / 2 ^ s in
  let r := m mod 2 ^ s in
  if 2 * r <? 2 ^ s then q else if 2 ^ s <? 2 * r then q + 1 else q + q mod 2.

Lemma round_even_spec mantissa exponent shift :
  1 <= shift <= 24 -> 0 <= mantissa < 2 ^ 24 -> 0 <= exponent < 255 ->
  mantissa / 2 ^ shift < 2 ^ 10 ->
  let '(m, e) := round_even mantissa exponent shift in
  0 <= m < 2 ^ 10 /\ e * 2 ^ 10 + m = exponent * 2 ^ 10 + rne mantissa shift /\ 0 <= e <= 255.
Proof.
  intros Hs Hm He Hq. unfold round_even, rne. rewrite shiftl_pow, Z.mul_1_l by lia.
  rewrite shiftr_pow, (shiftr_pow mantissa), land_low by lia.
  set (q := mantissa / 2 ^ shift) in *. set (r := mantissa mod 2 ^ shift).
  assert (0 <= q) as Hq0 by (apply Z.div_pos; lia).
  assert (2 ^ shift = 2 * 2 ^ (shift - 1)) as Hp
    by (rewrite <- Z.pow_succ_r by lia; f_equal; lia).
  assert (0 < 2 ^ (shift - 1)) by (apply Z.pow_pos_nonneg; lia).
  assert (2 ^ shift / 2 ^ 1 = 2 ^ (shift - 1)) as ->
    by (rewrite Hp, Z.mul_comm; apply Z.div_mul; lia).
  assert (Z.land q 1 = q mod 2) as -> by exact (land_low q 1 ltac:(lia)).
  rewrite (u32_id (q + 1)) by (unfold is_u32; lia).
  rewrite (u32_id (exponent + 1)) by (unfold is_u32; lia).
  assert (Z.land (q + 1) 1023 = (q + 1) mod 2 ^ 10) as -> by exact (land_low (q + 1) 10 ltac:(lia)).
  pose proof (Z.mod_pos_bound q 2 ltac:(lia)) as Hq2.
  assert ((2 * r <? 2 ^ shift) = (r <? 2 ^ (shift - 1))) as -> by
    (destruct (Z.ltb_spec (2 * r) (2 ^ shift)), (Z.ltb_spec r (2 ^ (shift - 1))); lia).
  assert ((2 ^ shift <? 2 * r) = (2 ^ (shift - 1) <? r)) as -> by
    (destruct (Z.ltb_spec (2 ^ shift) (2 * r)), (Z.ltb_spec (2 ^ (shift - 1)) r); lia).
  assert (forall v, v = q + 1 ->
    let '(m, e) := if (q + 1) mod 2 ^ 10 =? 0 then (0, exponent + 1) else (q + 1, exponent) in
    0 <= m < 2 ^ 10 /\ e * 2 ^ 10 + m = exponent * 2 ^ 10 + v /\ 0 <= e <= 255) as Hup.
  { intros v ->. destruct (Z.eqb_spec ((q + 1) mod 2 ^ 10) 0) as [E|E].
    - assert (q + 1 = 2 ^ 10) as Hq1; [|lia].
      destruct (Z.eq_dec (q + 1) (2 ^ 10)); [done|]. rewrite Z.mod_small in E by lia. lia.
    - assert (q + 1 <> 2 ^ 10) by (intros Hc; rewrite Hc in E; done). lia. }
  destruct (Z.ltb_spec (2 ^ (shift - 1)) r), (Z.ltb_spec r (2 ^ (shift - 1))),
    (Z.eqb_spec r (2 ^ (shift - 1))), (Z.eqb_spec (q mod 2) 0);
    cbn [orb andb negb]; try lia; apply Hup; lia.
Qed.

(** ** Rounding is to nearest even *)

Lemma value16_normal e q :
  1 <= e -> 0 <= q <= 2 ^ 10 -> value16 (e * 2 ^ 10 + q) = (2 ^ 10 + q) * 2 ^ (e - 1) * 2 ^ 125.
Proof.
  intros He Hq. unfold value16. destruct (Z.eq_dec q (2 ^ 10)) as [->|Hne].
  - replace (e * 2 ^ 10 + 2 ^ 10) with ((e + 1) * 2 ^ 10) by lia.
    rewrite Z.div_mul, Z.mod_mul by lia. destruct (Z.eqb_spec (e + 1) 0); [lia|].
    replace (e + 1 - 1) with (Z.succ (e - 1)) by lia. rewrite Z.pow_succ_r by lia. lia.
  - rewrite Z.div_add_l, (Z.div_small q), Z.add_0_r by lia.
    rewrite Z.add_comm, Z.mod_add, Z.mod_small by lia.
    destruct (Z.eqb_spec e 0); [lia|]. lia.
Qed.

Lemma value16_subnormal q : 0 <= q <= 2 ^ 10 -> value16 q = q * 2 ^ 125.
Proof.
  intros Hq. destruct (Z.eq_dec q (2 ^ 10)) as [->|]; [done|].
  unfold value16. by rewrite Z.div_small, Z.mod_small by lia.
Qed.

(** Rounding a multiple of [k] to a multiple of [2^s * k]. *)
Lemma nearest_of_rne value base a mm s k v :
  0 <= s -> 0 < k -> 0 <= mm -> 0 <= base -> base mod 2 = 0 ->
  (forall q, q = mm / 2 ^ s \/ q = mm / 2 ^ s + 1 -> value (base + q) = (a + q) * (2 ^ s * k)) ->
  v = (a * 2 ^ s + mm) * k -> nearest_in value v (base + rne mm s).
Proof.
  intros Hs Hk Hmm Hb Hev Hval ->. set (q := mm / 2 ^ s) in *. set (r := mm mod 2 ^ s).
  assert (0 < 2 ^ s) as Hp by (apply Z.pow_pos_nonneg; lia).
  assert (mm = 2 ^ s * q + r) as Hd by (apply Z.div_mod; lia).
  assert (0 <= r < 2 ^ s) as Hr by (apply Z.mod_pos_bound; lia).
  assert (0 <= q) as Hq by (apply Z.div_pos; lia).
  exists (base + q). rewrite <- Z.add_assoc, !Hval by auto. cbv zeta.
  assert ((base + q) mod 2 = q mod 2) as Hpar.
  { rewrite Z.add_mod, Hev, Z.add_0_l, Z.mod_mod by lia. done. }
  rewrite Hpar. unfold rne. fold q r. set (p := 2 ^ s) in *. clearbody p.
  replace ((a * p + mm) * k) with ((a + q) * (p * k) + r * k) by (rewrite Hd; ring).
  split; [lia|]. split; [split; nia|].
  destruct (Z.ltb_spec (2 * r) p) as [H1|H1]; [|destruct (Z.ltb_spec p (2 * r)) as [H2|H2]].
  - split_and!; intros; [lia|nia|nia].
  - split_and!; intros; [nia|lia|nia].
  - assert (2 * r = p) by lia. split_and!; intros; [nia|nia|lia].
Qed.

Lemma nearest_normal u :
  0x71 * 2 ^ 23 <= u < 0x7f800000 ->
  nearest_even (value32 u) ((u / 2 ^ 23 - 0x70) * 2 ^ 10 + rne (u mod 2 ^ 23) 13).
Proof.
  intros Hu. set (e := u / 2 ^ 23). set (m := u mod 2 ^ 23).
  assert (0 <= m < 2 ^ 23) as Hm by (apply Z.mod_pos_bound; lia).
  assert (0x71 <= e) as He by (apply Z.div_le_lower_bound; lia).
  apply (nearest_of_rne value16 _ (2 ^ 10) m 13 (2 ^ (e - 1))); try lia.
  - rewrite (Z.mul_comm _ (2 ^ 10)). change (2 ^ 10) with (2 * 2 ^ 9).
    by rewrite <- Z.mul_assoc, Z.mul_comm, Z.mod_mul by lia.
  - assert (0 <= m / 2 ^ 13 < 2 ^ 10) as Hq.
    { split; [apply Z.div_pos; lia|]. apply Z.div_lt_upper_bound; lia. }
    intros q Hq'. rewrite value16_normal by lia. rewrite <- Z.mul_assoc. f_equal.
    rewrite <- !Z.pow_add_r by lia. f_equal. lia.
  - unfold value32. fold e m. destruct (Z.eqb_spec e 0); [lia|]. done.
Qed.

Lemma nearest_subnormal u :
  0x66 * 2 ^ 23 <= u < 0x71 * 2 ^ 23 ->
  nearest_even (value32 u) (rne (2 ^ 23 + u mod 2 ^ 23) (0x7e - u / 2 ^ 23)) /\
  (2 ^ 23 + u mod 2 ^ 23) / 2 ^ (0x7e - u / 2 ^ 23) < 2 ^ 10.
Proof.
  intros Hu. set (e := u / 2 ^ 23). set (m := u mod 2 ^ 23).
  assert (0 <= m < 2 ^ 23) as Hm by (apply Z.mod_pos_bound; lia).
  assert (0x66 <= e) as He by (apply Z.div_le_lower_bound; lia).
  assert (e < 0x71) as He2 by (apply Z.div_lt_upper_bound; lia).
  assert (2 ^ 14 <= 2 ^ (0x7e - e)) as Hs by (apply Z.pow_le_mono_r; lia).
  assert (0 <= (2 ^ 23 + m) / 2 ^ (0x7e - e) < 2 ^ 10) as Hq.
  { split; [apply Z.div_pos; lia|]. apply Z.div_lt_upper_bound; lia. }
  split; [|lia].
  apply (nearest_of_rne value16 0 0 (2 ^ 23 + m) (0x7e - e) (2 ^ (e - 1))); try lia; [done| |].
  - intros q Hq'. rewrite !Z.add_0_l, value16_subnormal by lia. f_equal.
    rewrite <- Z.pow_add_r by lia. f_equal. lia.
  - unfold value32. fold e m. destruct (Z.eqb_spec e 0); [lia|]. lia.
Qed.

Lemma nearest_tiny u : 0 <= u <= 0x66 * 2 ^ 23 -> nearest_even (value32 u) 0.
Proof.
  intros Hu. assert (0 <= value32 u <= 2 ^ 124) as Hv.
  { destruct (Z.eq_dec u (0x66 * 2 ^ 23)) as [->|]; [done|]. unfold value32.
    assert (0 <= u mod 2 ^ 23 < 2 ^ 23) by (apply Z.mod_pos_bound; lia).
    assert (0 <= u / 2 ^ 23 < 0x66) as He.
    { split; [apply Z.div_pos; lia|]. apply Z.div_lt_upper_bound; lia. }
    destruct (Z.eqb_spec (u / 2 ^ 23) 0); [split; [lia|]; transitivity (2 ^ 23); [lia|done]|].
    split; [apply Z.mul_nonneg_nonneg; [lia|apply Z.pow_nonneg; lia]|].
    transitivity (2 ^ 24 * 2 ^ 100); [|done]. apply Z.mul_le_mono_nonneg; [lia|lia| |].
    - apply Z.pow_nonneg; lia.
    - apply Z.pow_le_mono_r; lia. }
  exists 0. change (value16 0) with 0. change (value16 (0 + 1)) with (2 ^ 125).
  change (2 ^ 125) with (2 * 2 ^ 124). set (t := 2 ^ 124) in *.
  assert (0 < t) by done. clearbody t. cbv zeta. change (0 mod 2) with 0. lia.
Qed.

(** Assembling sign, exponent and mantissa fields. *)
Lemma assemble sg e m :
  0 <= sg <= 1 -> 0 <= e < 32 -> 0 <= m < 2 ^ 10 ->
  u16 (Z.lor (Z.lor (sg * 2 ^ 15) (u32 (Z.shiftl e 10))) m) = sg * 2 ^ 15 + (e * 2 ^ 10 + m).
Proof.
  intros Hs He Hm. rewrite shiftl_pow by lia. rewrite u32_id by (unfold is_u32; lia).
  rewrite lor_disjoint by lia.
  replace (sg * 2 ^ 15 + e * 2 ^ 10) with ((sg * 2 ^ 5 + e) * 2 ^ 10) by lia.
  rewrite lor_disjoint by lia. unfold u16. rewrite Z.mod_small by lia. lia.
Qed.

Lemma sign_bit x : 0 <= x < 2 ^ 32 -> Z.land (Z.shiftr x 16) 0x8000 = (x / 2 ^ 31) * 2 ^ 15.
Proof.
  intros Hx. rewrite shiftr_pow by lia.
  assert (0 <= x / 2 ^ 31 < 2) as Hs
    by (split; [apply Z.div_pos; lia | apply Z.div_lt_upper_bound; lia]).
  assert (x / 2 ^ 16 = (x / 2 ^ 31) * 2 ^ 15 + (x / 2 ^ 16) mod 2 ^ 15) as ->.
  { rewrite (Z.div_mod (x / 2 ^ 16) (2 ^ 15)) at 1 by lia.
    rewrite Z.div_div by lia. change (2 ^ 16 * 2 ^ 15) with (2 ^ 31). lia. }
  set (lo := (x / 2 ^ 16) mod 2 ^ 15). assert (0 <= lo < 2 ^ 15) as Hlo by (apply Z.mod_pos_bound; lia).
  rewrite <- lor_disjoint by lia. rewrite Z.land_lor_distr_l.
  assert (Z.land lo 0x8000 = 0) as ->.
  { apply Z.bits_inj'. intros i Hi. rewrite Z.land_spec, Z.bits_0.
    destruct (decide (i < 15)); [|by rewrite (bits_high lo 15) by lia].
    change 0x8000 with (2 ^ 15). rewrite Z.pow2_bits_false by lia. apply andb_false_r. }
  rewrite Z.lor_0_r. assert (x / 2 ^ 31 = 0 \/ x / 2 ^ 31 = 1) as [-> | ->] by lia; done.
Qed.

Lemma rne_bound m s k :
  0 <= s -> 0 <= m -> m / 2 ^ s < k -> 0 <= rne m s <= k.
Proof.
  intros Hs Hm Hk. assert (0 <= m / 2 ^ s) by (apply Z.div_pos; [lia|apply Z.pow_pos_nonneg; lia]).
  pose proof (Z.mod_pos_bound (m / 2 ^ s) 2 ltac:(lia)).
  unfold rne. repeat case_match; lia.
Qed.

(** The code of the finite, non-tiny range. *)
Lemma float_to_fp16_mid x :
  0 <= x < 2 ^ 32 -> let u := x mod 2 ^ 31 in
  0x66 * 2 ^ 23 < u <= 0x477fefff ->
  exists c, 0 <= c <= 0x7c00 /\ nearest_even (value32 u) c /\
            float_to_fp16 x = (x / 2 ^ 31) * 2 ^ 15 + c.
Proof.
  intros Hx u Hu. unfold float_to_fp16. rewrite (sign_bit x) by done.
  assert (Z.land x 0x7fffffff = u) as -> by exact (land_low x 31 ltac:(lia)).
  rewrite (proj2 (Z.ltb_ge _ _)), (proj2 (Z.ltb_ge _ _)), (proj2 (Z.ltb_ge _ _)) by lia.
  assert (0 <= u < 2 ^ 31) as Hur by lia. destruct (bits_of u Hur) as [-> ->].
  assert (0 <= x / 2 ^ 31 <= 1) as Hsg.
  { assert (x / 2 ^ 31 < 2) by (apply Z.div_lt_upper_bound; lia).
    assert (0 <= x / 2 ^ 31) by (apply Z.div_pos; lia). lia. }
  set (e := u / 2 ^ 23). set (m := u mod 2 ^ 23).
  assert (0 <= m < 2 ^ 23) as Hm by (apply Z.mod_pos_bound; lia).
  assert (u = e * 2 ^ 23 + m) as Hem by (rewrite Z.mul_comm; apply Z.div_mod; lia).
  assert (0x66 <= e <= 0x8e) as He by lia.
  destruct (Z.ltb_spec 0x70 e) as [Hn|Hn].
  - rewrite (u32_id (e - 0x70)) by (unfold is_u32; lia).
    assert (0 <= m / 2 ^ 13 < 2 ^ 10) as Hq.
    { split; [apply Z.div_pos; lia|]. apply Z.div_lt_upper_bound; lia. }
    pose proof (round_even_spec m (e - 0x70) 13 ltac:(lia) ltac:(lia) ltac:(lia) ltac:(lia)) as Hr.
    destruct (round_even m (e - 0x70) 13) as [rm re]. destruct Hr as (Hrm & Hre & Hre2).
    pose proof (rne_bound m 13 (2 ^ 10) ltac:(lia) ltac:(lia) ltac:(lia)) as Hb.
    exists (re * 2 ^ 10 + rm). split; [lia|]. split.
    + rewrite Hre. apply nearest_normal. lia.
    + apply assemble; lia.
  - destruct (nearest_subnormal u) as [Hne Hlt]; [lia|]. fold e m in Hne, Hlt.
    rewrite (u32_id (0x7e - e)) by (unfold is_u32; lia).
    assert (Z.lor m 0x800000 = 2 ^ 23 + m) as ->.
    { rewrite Z.lor_comm. exact (lor_disjoint 1 m 23 ltac:(lia) Hm). }
    pose proof (round_even_spec (2 ^ 23 + m) 0 (0x7e - e) ltac:(lia) ltac:(lia) ltac:(lia) Hlt) as Hr.
    destruct (round_even (2 ^ 23 + m) 0 (0x7e - e)) as [rm re]. destruct Hr as (Hrm & Hre & Hre2).
    pose proof (rne_bound (2 ^ 23 + m) (0x7e - e) (2 ^ 10) ltac:(lia) ltac:(lia) Hlt) as Hb.
    exists (re * 2 ^ 10 + rm). split; [lia|]. split.
    + rewrite Hre, Z.mul_0_l, Z.add_0_l. done.
    + apply assemble; lia.
Qed.

Lemma float_to_fp16_overflow u :
  0x477fefff < u < 0x7f800000 -> exists c, 0x7c00 <= c /\ nearest_even (value32 u) c.
Proof.
  intros Hu. exists ((u / 2 ^ 23 - 0x70) * 2 ^ 10 + rne (u mod 2 ^ 23) 13).
  split; [|apply nearest_normal; lia].
  set (e := u / 2 ^ 23). set (m := u mod 2 ^ 23).
  assert (0 <= m < 2 ^ 23) as Hm by (apply Z.mod_pos_bound; lia).
  assert (u = e * 2 ^ 23 + m) as Hem by (rewrite Z.mul_comm; apply Z.div_mod; lia).
  assert (0 <= m / 2 ^ 13 < 2 ^ 10) as Hq.
  { split; [apply Z.div_pos; lia|]. apply Z.div_lt_upper_bound; lia. }
  pose proof (rne_bound m 13 (2 ^ 10) ltac:(lia) ltac:(lia) ltac:(lia)) as Hb.
  destruct (Z.eq_dec e 0x8e) as [E|]; [|lia].
  assert (0x7ff000 <= m) as Hm2 by lia. assert (rne m 13 = 2 ^ 10); [|lia].
  pose proof (Z.div_mod m (2 ^ 13) ltac:(lia)) as Hdm.
  pose proof (Z.mod_pos_bound m (2 ^ 13) ltac:(lia)).
  assert (m / 2 ^ 13 = 1023) as Hq1 by lia. unfold rne. rewrite Hq1 in *.
  destruct (Z.ltb_spec (2 * (m mod 2 ^ 13)) (2 ^ 13)); [lia|].
  destruct (Z.ltb_spec (2 ^ 13) (2 * (m mod 2 ^ 13))); done.
Qed.

Lemma fp16_rounds (x : Z) :
  0 <= x < 2 ^ 32 ->
  let u := x mod 2 ^ 31 in let sign := x / 2 ^ 31 in
  (0x7f800000 < u -> float_to_fp16 x = 0x7fff) /\
  (u = 0x7f800000 -> float_to_fp16 x = sign * 2 ^ 15 + 0x7c00) /\
  (u < 0x7f800000 ->
   exists c, nearest_even (value32 u) c /\ float_to_fp16 x = sign * 2 ^ 15 + Z.min c 0x7c00).
Proof.
  intros Hx u sign. assert (0 <= u < 2 ^ 31) as Hu by (apply Z.mod_pos_bound; lia).
  assert (0 <= sign <= 1) as Hsg.
  { assert (sign < 2) by (apply Z.div_lt_upper_bound; lia).
    assert (0 <= sign) by (apply Z.div_pos; lia). lia. }
  assert (Z.land x 0x7fffffff = u) as Hland by exact (land_low x 31 ltac:(lia)).
  pose proof (sign_bit x Hx) as Hsb. fold sign in Hsb.
  assert (0x477fefff < u <= 0x7f800000 -> float_to_fp16 x = sign * 2 ^ 15 + 0x7c00) as Hinf.
  { intros Hr. unfold float_to_fp16. rewrite Hland, Hsb.
    rewrite (proj2 (Z.ltb_ge _ _)), (proj2 (Z.ltb_lt _ _)) by lia.
    rewrite lor_disjoint by lia. unfold u16. apply Z.mod_small. lia. }
  split_and!.
  - intros Hn. unfold float_to_fp16. rewrite Hland. by rewrite (proj2 (Z.ltb_lt _ _)) by lia.
  - intros E. apply Hinf. lia.
  - intros Hf. destruct (Z.ltb_spec 0x477fefff u) as [Ho|Ho].
    + destruct (float_to_fp16_overflow u) as (c & Hc & Hne); [lia|]. exists c.
      split; [done|]. rewrite Z.min_r by lia. apply Hinf. lia.
    + destruct (Z.ltb_spec (0x66 * 2 ^ 23) u) as [Hm|Hm].
      * destruct (float_to_fp16_mid x Hx) as (c & Hc & Hne & E); [fold u; lia|].
        exists c. split; [done|]. by rewrite Z.min_l by lia.
      * exists 0. split; [apply nearest_tiny; lia|]. unfold float_to_fp16. rewrite Hland, Hsb.
        rewrite (proj2 (Z.ltb_ge _ _)), (proj2 (Z.ltb_ge _ _)), (proj2 (Z.ltb_lt _ _)) by lia.
        rewrite lor_disjoint by lia. unfold u16. rewrite Z.mod_small by lia. lia.
Qed.

(** ** Widening *)

(** The magnitude part of [fp16_to_float], sign cleared. *)
Definition sub_ok (m : Z) : bool :=
  match fp16_to_float m with
  | None => false
  | Some x => (0 <=? x) && (x <? 0x7f800000) && (value32 x =? value16 m)
  end.

Lemma sub_all : check_below 1024 sub_ok = true.
Proof. vm_compute. reflexivity. Qed.

Lemma value16_step c : 0 <= c -> value16 c < value16 (c + 1).
Proof.
  intros Hc. pose proof (Z.div_mod c (2 ^ 10) ltac:(lia)) as Hd.
  pose proof (Z.mod_pos_bound c (2 ^ 10) ltac:(lia)) as Hm.
  assert (0 <= c / 2 ^ 10) as He by (apply Z.div_pos; lia).
  destruct (Z.eq_dec (c / 2 ^ 10) 0) as [E|E].
  - rewrite !value16_subnormal by lia. apply Z.mul_lt_mono_pos_r; [done|lia].
  - rewrite Hd, Z.mul_comm, <- Z.add_assoc, !value16_normal by lia.
    assert (0 < 2 ^ (c / 2 ^ 10 - 1)) by (apply Z.pow_pos_nonneg; lia).
    apply Z.mul_lt_mono_pos_r; [done|]. nia.
Qed.

Lemma value16_mono a b : 0 <= a <= b -> value16 a <= value16 b.
Proof.
  intros Hab. replace b with (a + (b - a)) by lia.
  assert (0 <= b - a) as Hd by lia. revert Hd. generalize (b - a). apply natlike_ind.
  - by rewrite Z.add_0_r.
  - intros d Hd IH. pose proof (value16_step (a + d) ltac:(lia)).
    replace (a + Z.succ d) with (a + d + 1) by lia. lia.
Qed.

(** A value that is a half rounds to itself. *)
Lemma nearest_even_exact c c' : 0 <= c' -> nearest_even (value16 c') c -> c = c'.
Proof.
  intros Hc (c0 & Hc0 & [Hlo Hhi] & Hlt & _). assert (c0 = c') as ->.
  { destruct (Z.lt_trichotomy c0 c') as [H|[H|H]]; [|done|].
    - pose proof (value16_mono (c0 + 1) c' ltac:(lia)). lia.
    - pose proof (value16_step c' Hc). pose proof (value16_mono (c' + 1) c0 ltac:(lia)). lia. }
  apply Hlt. lia.
Qed.

(** Splitting the patterns into sign and magnitude. *)
Lemma half_fields s e m :
  0 <= s <= 1 -> 0 <= e < 32 -> 0 <= m < 2 ^ 10 -> let h := s * 2 ^ 15 + e * 2 ^ 10 + m in
  Z.land (Z.shiftr h 15) 1 = s /\ Z.land (Z.shiftr h 10) 0x1f = e /\
  u32 (Z.shiftl (Z.land h 0x3ff) 13) = m * 2 ^ 13.
Proof.
  intros Hs He Hm h. rewrite !shiftr_pow by lia. split_and!.
  - etrans; [exact (land_low _ 1 ltac:(lia))|].
    replace (h / 2 ^ 15) with s; [apply Z.mod_small; lia|].
    apply (Z.div_unique _ _ _ (e * 2 ^ 10 + m)); lia.
  - etrans; [exact (land_low _ 5 ltac:(lia))|].
    replace (h / 2 ^ 10) with (e + s * 2 ^ 5) by (apply (Z.div_unique _ _ _ m); lia).
    rewrite Z.mod_add by lia. apply Z.mod_small. lia.
  - assert (Z.land h 0x3ff = m) as ->.
    { etrans; [exact (land_low _ 10 ltac:(lia))|]. symmetry.
      apply (Z.mod_unique _ _ (s * 2 ^ 5 + e)); lia. }
    rewrite shiftl_pow by lia. apply u32_id. unfold is_u32. lia.
Qed.

Lemma assemble32 s e m :
  0 <= s <= 1 -> 0 <= e < 256 -> 0 <= m < 2 ^ 23 ->
  Z.lor (Z.lor (u32 (Z.shiftl s 31)) (u32 (Z.shiftl e 23))) m = s * 2 ^ 31 + (e * 2 ^ 23 + m).
Proof.
  intros Hs He Hm. rewrite !shiftl_pow by lia. rewrite !u32_id by (unfold is_u32; lia).
  rewrite lor_disjoint by lia.
  replace (s * 2 ^ 31 + e * 2 ^ 23) with ((s * 2 ^ 8 + e) * 2 ^ 23) by lia.
  rewrite lor_disjoint by lia. lia.
Qed.

Lemma normalize_exp fuel m e q e' :
  Z.of_nat fuel <= e < 2 ^ 32 -> normalize fuel m e = Some (q, e') -> 0 <= e' < e.
Proof.
  revert m e. induction fuel as [|fuel IH]; intros m e He Hn; cbn [normalize] in Hn; [done|].
  rewrite (u32_id (e - 1)) in Hn by (unfold is_u32; lia).
  destruct (Z.land m 0x400000 =? 0); [apply IH in Hn; lia|]. simplify_eq. lia.
Qed.

(** Subnormal halves: the normalising loop ends, the sign is independent. *)
Lemma widen_subnormal s m :
  0 <= s <= 1 -> 0 <= m < 2 ^ 10 ->
  exists y, fp16_to_float (s * 2 ^ 15 + m) = Some (s * 2 ^ 31 + y) /\
            0 <= y < 0x7f800000 /\ value32 y = value16 m.
Proof.
  intros Hs Hm. pose proof (check_below_spec 1024 _ m sub_all ltac:(lia)) as Hok.
  unfold sub_ok, fp16_to_float in Hok.
  destruct (half_fields 0 0 m) as (F1 & F2 & F3); [lia..|]. rewrite !Z.mul_0_l, !Z.add_0_l in *.
  rewrite F1, F2, F3 in Hok. unfold fp16_to_float.
  destruct (half_fields s 0 m) as (G1 & G2 & G3); [lia..|]. rewrite Z.mul_0_l, Z.add_0_r in *.
  rewrite G1, G2, G3. cbn [Z.eqb] in *.
  assert (forall e q x, 0 <= e < 256 -> 0 <= q < 2 ^ 23 ->
     Z.lor (Z.lor (u32 (Z.shiftl 0 31)) (u32 (Z.shiftl e 23))) q = x ->
     Z.lor (Z.lor (u32 (Z.shiftl s 31)) (u32 (Z.shiftl e 23))) q = s * 2 ^ 31 + x) as Hsign.
  { intros e q x He Hq. rewrite !assemble32 by lia. intros <-. lia. }
  destruct (Z.eqb_spec (m * 2 ^ 13) 0) as [E|E].
  - simpl in *. exists 0. assert (m = 0) as -> by lia. split_and!; [|lia|lia|done].
    rewrite !Z.lor_0_r, shiftl_pow by lia. rewrite u32_id by (unfold is_u32; lia). f_equal. lia.
  - destruct (normalize 23 (m * 2 ^ 13) 113) as [[q e]|] eqn:En; [|done]. cbn [mbind option_bind] in *.
    assert (0 <= Z.land q 0x7fffff < 2 ^ 23) as Hq.
    { assert (Z.land q 0x7fffff = q mod 2 ^ 23) as -> by exact (land_low q 23 ltac:(lia)).
      apply Z.mod_pos_bound. lia. }
    assert (0 <= e < 256) as He by (by eapply normalize_exp in En; lia).
    set (x := Z.lor _ (Z.land q 0x7fffff)) in Hok. exists x.
    apply andb_prop in Hok as [Hr Hv%Z.eqb_eq]. apply andb_prop in Hr as [Hlo%Z.leb_le Hhi%Z.ltb_lt].
    split_and!; [|done|done|done]. f_equal. by apply Hsign.
Qed.

(** The three classes of halves. *)
Lemma widen_spec s c :
  0 <= s <= 1 -> 0 <= c < 2 ^ 15 ->
  exists y, fp16_to_float (s * 2 ^ 15 + c)
            = Some ((if 0x7c00 <? c then 0 else s * 2 ^ 31) + y) /\
    (c < 0x7c00 -> 0 <= y < 0x7f800000 /\ value32 y = value16 c) /\
    (c = 0x7c00 -> y = 0x7f800000) /\ (0x7c00 < c -> y = 0x7fffffff).
Proof.
  intros Hs Hc. set (e := c / 2 ^ 10). set (m := c mod 2 ^ 10).
  assert (0 <= m < 2 ^ 10) as Hm by (apply Z.mod_pos_bound; lia).
  assert (c = e * 2 ^ 10 + m) as Hem by (rewrite Z.mul_comm; apply Z.div_mod; lia).
  assert (0 <= e < 32) as He by lia. clearbody e m.
  destruct (Z.eq_dec e 0) as [E0|E0].
  { destruct (widen_subnormal s m Hs Hm) as (y & Hy & Hr & Hv). exists y.
    assert (c = m) as -> by lia. destruct (Z.ltb_spec 0x7c00 m); [lia|].
    split_and!; [done|done|lia|lia]. }
  unfold fp16_to_float. destruct (half_fields s e m) as (F1 & F2 & F3); [lia..|].
  rewrite <- Z.add_assoc, <- Hem in *. rewrite F1, F2, F3.
  destruct (Z.eqb_spec e 0x1f) as [E1|E1]; cbn [mbind option_bind].
  - destruct (Z.eqb_spec (m * 2 ^ 13) 0) as [M|M]; cbn [mbind option_bind].
    + exists 0x7f800000. destruct (Z.ltb_spec 0x7c00 c); [lia|].
      rewrite assemble32 by lia. split_and!; [done|lia|done|lia].
    + exists 0x7fffffff. destruct (Z.ltb_spec 0x7c00 c); [|lia].
      split_and!; [done|lia|lia|done].
  - destruct (Z.eqb_spec e 0); [lia|]. cbn [mbind option_bind].
    destruct (Z.ltb_spec 0x7c00 c); [lia|]. exists ((e + 0x70) * 2 ^ 23 + m * 2 ^ 13).
    rewrite assemble32 by lia. split_and!; [done| |lia|lia]. intros _. split; [lia|].
    rewrite Hem, value16_normal by lia. unfold value32.
    assert (((e + 0x70) * 2 ^ 23 + m * 2 ^ 13) / 2 ^ 23 = e + 0x70) as ->.
    { symmetry. apply (Z.div_unique _ _ _ (m * 2 ^ 13)); lia. }
    assert (((e + 0x70) * 2 ^ 23 + m * 2 ^ 13) mod 2 ^ 23 = m * 2 ^ 13) as ->.
    { symmetry. apply (Z.mod_unique _ _ (e + 0x70)); lia. }
    destruct (Z.eqb_spec (e + 0x70) 0); [lia|].
    replace (2 ^ (e + 0x70 - 1)) with (2 ^ (e - 1) * 2 ^ 112)
      by (rewrite <- Z.pow_add_r by lia; f_equal; lia).
    change (2 ^ 125) with (2 ^ 13 * 2 ^ 112). ring.
Qed.

Lemma value32_mono u v : 0 <= u <= v -> value32 u <= value32 v.
Proof.
  intros Huv. unfold value32.
  assert (u / 2 ^ 23 <= v / 2 ^ 23) as He by (apply Z.div_le_mono; lia).
  assert (0 <= u / 2 ^ 23) as He0 by (apply Z.div_pos; lia).
  pose proof (Z.mod_pos_bound u (2 ^ 23) ltac:(lia)) as Hmu.
  pose proof (Z.mod_pos_bound v (2 ^ 23) ltac:(lia)) as Hmv.
  pose proof (Z.div_mod u (2 ^ 23) ltac:(lia)) as Hu. pose proof (Z.div_mod v (2 ^ 23) ltac:(lia)) as Hv.
  destruct (Z.eqb_spec (u / 2 ^ 23) 0) as [E1|E1], (Z.eqb_spec (v / 2 ^ 23) 0) as [E2|E2]; [| |lia|].
  - rewrite E1, E2 in *. lia.
  - assert (0 < 2 ^ (v / 2 ^ 23 - 1)) as Hk by (apply Z.pow_pos_nonneg; lia).
    transitivity (2 ^ 23 + v mod 2 ^ 23); [lia|]. apply Z.le_mul_diag_r; lia.
  - destruct (Z.eq_dec (u / 2 ^ 23) (v / 2 ^ 23)) as [Heq|Hne].
    + rewrite Heq. apply Z.mul_le_mono_nonneg_r; [apply Z.pow_nonneg; lia|lia].
    + transitivity (2 ^ 23 * 2 ^ (v / 2 ^ 23 - 1)).
      * replace (v / 2 ^ 23 - 1) with (Z.succ (v / 2 ^ 23 - 2)) by lia.
        rewrite Z.pow_succ_r by lia.
        assert (2 ^ (u / 2 ^ 23 - 1) <= 2 ^ (v / 2 ^ 23 - 2)) by (apply Z.pow_le_mono_r; lia).
        assert (0 < 2 ^ (u / 2 ^ 23 - 1)) by (apply Z.pow_pos_nonneg; lia).
        rewrite Z.mul_assoc. apply Z.mul_le_mono_nonneg; lia.
      * apply Z.mul_le_mono_nonneg_r; [apply Z.pow_nonneg; lia|lia].
Qed.

(** ** Claims *)

(** [C29] [float_to_fp16] is IEEE round-to-nearest-even over all 2^32 patterns: a
    finite float goes to the half nearest in value, ties to the even code,
    overflowing to infinity exactly when the rounded code does; infinities keep
    their sign; every NaN becomes the pattern 0x7fff. *)
Theorem fp16_rounds_nearest_even (x : Z) :
  0 <= x < 2 ^ 32 ->
  let u := x mod 2 ^ 31 in let sign := x / 2 ^ 31 in
  (0x7f800000 < u -> float_to_fp16 x = 0x7fff) /\
  (u = 0x7f800000 -> float_to_fp16 x = sign * 2 ^ 15 + 0x7c00) /\
  (u < 0x7f800000 ->
   exists c, nearest_even (value32 u) c /\ float_to_fp16 x = sign * 2 ^ 15 + Z.min c 0x7c00).
Proof. apply fp16_rounds. Qed.

Lemma fp16_rounds_nearest_even_witness :
  exists c, nearest_even (value32 0x3f801000) c /\ float_to_fp16 0xbf801000 = 2 ^ 15 + Z.min c 0x7c00.
Proof.
  apply (proj2 (proj2 (fp16_rounds_nearest_even 0xbf801000 ltac:(lia)))). reflexivity.
Defined.

(** Widening a half is exact and loses nothing: the normalising loop always
    ends, the float has the same value, and narrowing it again returns the same
    half; a NaN stays a NaN. *)
Theorem fp16_widen_exact (h : Z) :
  0 <= h < 65536 ->
  exists x, fp16_to_float h = Some x /\ 0 <= x < 2 ^ 32 /\
    (h mod 2 ^ 15 <= 0x7c00 -> float_to_fp16 x = h) /\
    (h mod 2 ^ 15 < 0x7c00 -> value32 (x mod 2 ^ 31) = value16 (h mod 2 ^ 15)) /\
    (0x7c00 < h mod 2 ^ 15 -> 0x7f800000 < x mod 2 ^ 31 /\ float_to_fp16 x = 0x7fff).
Proof.
  intros Hh. set (s := h / 2 ^ 15). set (c := h mod 2 ^ 15).
  assert (0 <= c < 2 ^ 15) as Hc by (apply Z.mod_pos_bound; lia).
  assert (h = s * 2 ^ 15 + c) as Hsc by (rewrite Z.mul_comm; apply Z.div_mod; lia).
  assert (0 <= s <= 1) as Hs by lia.
  destruct (widen_spec s c Hs Hc) as (y & Hy & Hfin & Hinf & Hnan).
  set (sg := if 0x7c00 <? c then 0 else s * 2 ^ 31) in Hy. exists (sg + y). rewrite Hsc at 1.
  assert (0 <= y < 2 ^ 31) as Hyr by lia.
  assert (exists b, 0 <= b <= 1 /\ sg = b * 2 ^ 31 /\ (c <= 0x7c00 -> b = s)) as (b & Hb & Hsg & Hbs).
  { unfold sg. destruct (Z.ltb_spec 0x7c00 c); [exists 0|exists s]; lia. }
  assert ((sg + y) mod 2 ^ 31 = y) as Hm by (symmetry; apply (Z.mod_unique _ _ b); lia).
  assert ((sg + y) / 2 ^ 31 = b) as Hd by (symmetry; apply (Z.div_unique _ _ _ y); lia).
  destruct (fp16_rounds (sg + y) ltac:(lia)) as (Rn & Ri & Rf). rewrite Hm, Hd in *.
  split; [done|]. split; [lia|]. split_and!.
  - intros Hle. destruct (Z.eq_dec c 0x7c00) as [E|E]; [rewrite Ri by auto; lia|].
    destruct Hfin as [Hy1 Hv]; [lia|]. destruct Rf as (c' & Hn & ->); [lia|].
    rewrite Hv in Hn. apply nearest_even_exact in Hn as ->; lia.
  - intros Hlt. by apply Hfin.
  - intros Hgt. specialize (Hnan Hgt). split; [lia|]. apply Rn. lia.
Qed.

Lemma fp16_widen_exact_witness :
  exists x, fp16_to_float 1 = Some x /\ float_to_fp16 x = 1.
Proof.
  destruct (fp16_widen_exact 1 ltac:(lia)) as (x & Hx & _ & Hr & _).
  exists x. split; [exact Hx|]. apply Hr. vm_compute. discriminate.
Defined.

(** The bfloat16 conversions: widening then narrowing is the identity;
    narrowing truncates toward zero (sign kept, magnitude the largest bfloat16
    value not above); and a NaN whose payload lies in the low 16 bits becomes an
    infinity, because truncation has no NaN case. *)
Theorem bf16_truncates (b x : Z) :
  (0 <= b < 65536 -> float_to_bf16 (bf16_to_float b) = b) /\
  (0 <= x < 2 ^ 31 ->
   let t := bf16_to_float (float_to_bf16 x) in
   t <= x /\ value32 t <= value32 x /\
   (forall b, 0 <= b < 65536 -> bf16_to_float b <= x -> bf16_to_float b <= t)) /\
  (0x7f800000 < x < 0x7f810000 -> float_to_bf16 x = 0x7f80).
Proof.
  assert (forall b, 0 <= b < 65536 -> bf16_to_float b = b * 2 ^ 16) as Hw.
  { intros c Hc. unfold bf16_to_float. rewrite shiftl_pow by lia. apply u32_id. unfold is_u32. lia. }
  assert (forall x, 0 <= x < 2 ^ 32 -> float_to_bf16 x = x / 2 ^ 16 /\ 0 <= x / 2 ^ 16 < 65536) as Hn.
  { intros y Hy. assert (0 <= y / 2 ^ 16 < 65536) as Hr
      by (split; [apply Z.div_pos; lia|apply Z.div_lt_upper_bound; lia]).
    split; [|done]. unfold float_to_bf16, u16. rewrite shiftr_pow by lia. by apply Z.mod_small. }
  split_and!.
  - intros Hb. rewrite Hw by done. destruct (Hn (b * 2 ^ 16)) as [-> _]; [lia|]. apply Z.div_mul. lia.
  - intros Hx. destruct (Hn x) as [-> Hr]; [lia|]. cbv zeta. rewrite Hw by done.
    pose proof (Z.div_mod x (2 ^ 16) ltac:(lia)). pose proof (Z.mod_pos_bound x (2 ^ 16) ltac:(lia)).
    split_and!; [lia|apply value32_mono; lia|]. intros c Hc. rewrite Hw by done. intros.
    apply Z.mul_le_mono_nonneg_r; [lia|]. apply Z.div_le_lower_bound; lia.
  - intros Hx. destruct (Hn x) as [-> _]; [lia|]. symmetry. apply (Z.div_unique _ _ _ (x - 0x7f800000)); lia.
Qed.

Lemma bf16_truncates_witness :
  float_to_bf16 (bf16_to_float 0x3f80) = 0x3f80 /\ float_to_bf16 0x7f800001 = 0x7f80.
Proof.
  split.
  - apply (proj1 (bf16_truncates 0x3f80 0)). lia.
  - apply (proj2 (proj2 (bf16_truncates 0 0x7f800001))). lia.
Defined.

End FloatConvert.
