(* ===== verification/Fp8.v ===== *)
(** * Conversion to and from the 8-bit floats of the cache ([csrc/cpu/cpu_attn_fp8.hpp])

    [float_to_fp8_scalar] on the 32-bit pattern of the scaled value: round to nearest
    even into E4M3 (three mantissa bits) or E5M2 (two), in unsigned arithmetic on the
    pattern.  The product with the scale is the one of the float type, a parameter.
    [fp8e4m3_to_float_scalar] is the reference decoder of E4M3.  Values are in the unit of [FloatConvert]. *)

From S2P Require Import Prelude FloatConvert.

#[local] Open Scope Z_scope.

Module Fp8.
Import FloatConvert.

(** Adding half a unit less one, and the last bit that stays, then cutting, rounds to
    nearest even. *)
Lemma rne_add x s : 1 <= s -> 0 <= x -> (x + 2 ^ (s - 1) - 1 + (x / 2 ^ s) mod 2) / 2 ^ s = rne x s.
Proof.
  intros Hs Hx. unfold rne. set (q := x / 2 ^ s). set (r := x mod 2 ^ s). assert (0 < 2 ^ (s - 1)) as Hp by (apply Z.pow_pos_nonneg; lia).
  assert (2 ^ s = 2 * 2 ^ (s - 1)) as E by (rewrite <- Z.pow_succ_r by lia; f_equal; lia).
  assert (x = 2 ^ s * q + r) as Hd by (apply Z.div_mod; lia). assert (0 <= r < 2 ^ s) as Hr by (apply Z.mod_pos_bound; lia).
  pose proof (Z.mod_pos_bound q 2 ltac:(lia)) as Hq. rewrite Hd. set (h := 2 ^ (s - 1)) in *. rewrite E in *. clearbody h q r.
  destruct (Z.ltb_spec (2 * r) (2 * h)); [|destruct (Z.ltb_spec (2 * h) (2 * r))].
  - symmetry. apply Z.div_unique with (r + h - 1 + q mod 2); lia.
  - symmetry. apply Z.div_unique with (r + h - 1 + q mod 2 - 2 * h); lia.
  - assert (r = h) as -> by lia. assert (q mod 2 = 0 \/ q mod 2 = 1) as [->| ->] by lia; symmetry; [apply Z.div_unique with (2 * h - 1)|apply Z.div_unique with 0]; lia.
Qed.

Lemma rne_base b m s : 0 <= s -> b mod 2 = 0 -> rne (b * 2 ^ s + m) s = b + rne m s.
Proof.
  intros Hs Hb. unfold rne. assert (0 < 2 ^ s) by (apply Z.pow_pos_nonneg; lia). rewrite Z.div_add_l, (Z.add_comm (b * 2 ^ s)), Z.mod_add by lia.
  assert ((b + m / 2 ^ s) mod 2 = (m / 2 ^ s) mod 2) as -> by (rewrite Z.add_mod, Hb, Z.add_0_l, Z.mod_mod by lia; done). repeat case_match; lia.
Qed.

Lemma rne_le x s k : 0 <= s -> 0 <= x <= k * 2 ^ s -> rne x s <= k.
Proof.
  intros Hs Hx. assert (0 < 2 ^ s) as Hp by (apply Z.pow_pos_nonneg; lia). destruct (Z.eq_dec x (k * 2 ^ s)) as [->|Hne].
  - unfold rne. rewrite Z.div_mul, Z.mod_mul by lia. rewrite (proj2 (Z.ltb_lt _ _)) by lia. lia.
  - apply rne_bound; [done|lia|]. apply Z.div_lt_upper_bound; lia.
Qed.

(** ** The conversion *)

Section Convert.
Context (mantissa_bits : Z).

Definition bias : Z := if mantissa_bits =? 3 then 7 else 15.
Definition max_bits : Z := if mantissa_bits =? 3 then 0x43e00000 else 0x47600000.
Definition max_fp8 : Z := if mantissa_bits =? 3 then 0x7e else 0x7b.
Definition half_min_subnormal : Z := Z.shiftl (127 - bias - mantissa_bits) 23.
Definition min_normal : Z := Z.shiftl (128 - bias) 23.

Definition round_subnormal (magnitude : Z) : Z :=
  let significand := Z.lor (Z.land magnitude 0x7fffff) 0x800000 in
  let shift := u32 (151 - bias - mantissa_bits - Z.shiftr magnitude 23) in
  let rounded := u32 (significand + Z.shiftl 1 (shift - 1) - 1 + Z.land (Z.shiftr significand shift) 1) in
  u8 (Z.shiftr rounded shift).

Definition round_normal (magnitude : Z) : Z :=
  let shift := 23 - mantissa_bits in
  let rounded := u32 (magnitude + u32 (Z.shiftl 1 (shift - 1) - 1 - Z.shiftl (127 - bias) 23) + Z.land (Z.shiftr magnitude shift) 1) in
  u8 (Z.shiftr rounded shift).

Definition fp8_of_bits (bits : Z) : Z :=
  let sign := Z.land (Z.shiftr bits 24) 0x80 in
  let magnitude := Z.land bits 0x7fffffff in
  if max_bits <? magnitude then (if 0x7f800000 <? magnitude then max_fp8 else Z.lor sign max_fp8)
  else if magnitude <=? half_min_subnormal then sign
  else if magnitude <? min_normal then Z.lor sign (round_subnormal magnitude)
  else Z.lor sign (round_normal magnitude).

(** [v *= inv_scale] first. *)
Definition float_to_fp8_scalar (mul : Z -> Z -> Z) (v inv_scale : Z) : Z := fp8_of_bits (mul v inv_scale).

(** ** Values *)

(** Magnitude of a code without its sign, in units of 2^-149. *)
Definition value8 (c : Z) : Z :=
  let e := c / 2 ^ mantissa_bits in
  let m := c mod 2 ^ mantissa_bits in
  (if e =? 0 then m else (2 ^ mantissa_bits + m) * 2 ^ (e - 1)) * 2 ^ (150 - bias - mantissa_bits).

Context (MB : mantissa_bits = 3 \/ mantissa_bits = 2).

Lemma format : (mantissa_bits = 3 /\ bias = 7 /\ max_bits = 0x43e00000 /\ max_fp8 = 126) \/
  (mantissa_bits = 2 /\ bias = 15 /\ max_bits = 0x47600000 /\ max_fp8 = 123).
Proof. unfold bias, max_bits, max_fp8. destruct MB as [-> | ->]; [left|right]; done. Qed.

Lemma value8_subnormal q : 0 <= q <= 2 ^ mantissa_bits -> value8 q = q * 2 ^ (150 - bias - mantissa_bits).
Proof.
  intros Hq. unfold value8. assert (0 < 2 ^ mantissa_bits) by (apply Z.pow_pos_nonneg; lia). destruct (Z.eq_dec q (2 ^ mantissa_bits)) as [->|].
  - rewrite Z.div_same, Z.mod_same by lia. simpl. f_equal. lia.
  - by rewrite Z.div_small, Z.mod_small by lia.
Qed.

Lemma value8_normal e q : 1 <= e -> 0 <= q <= 2 ^ mantissa_bits ->
  value8 (e * 2 ^ mantissa_bits + q) = (2 ^ mantissa_bits + q) * 2 ^ (e + 149 - bias - mantissa_bits).
Proof.
  intros He Hq. unfold value8. set (P := 2 ^ mantissa_bits) in *. assert (0 < P) by (apply Z.pow_pos_nonneg; lia).
  assert (0 <= 150 - bias - mantissa_bits) by (destruct format as [(? & ? & _)|(? & ? & _)]; lia).
  destruct (Z.eq_dec q P) as [->|Hne].
  - replace (e * P + P) with ((e + 1) * P) by lia. rewrite Z.div_mul, Z.mod_mul by lia. destruct (Z.eqb_spec (e + 1) 0); [lia|].
    rewrite Z.add_0_r, <- Z.mul_assoc, <- Z.pow_add_r by lia. replace (P + P) with (P * 2 ^ 1) by lia. rewrite <- Z.mul_assoc, <- Z.pow_add_r by lia. do 2 f_equal. lia.
  - rewrite Z.div_add_l, (Z.div_small q), Z.add_0_r by lia. rewrite (Z.add_comm (e * P)), Z.mod_add, Z.mod_small by lia.
    destruct (Z.eqb_spec e 0); [lia|]. rewrite <- Z.mul_assoc, <- Z.pow_add_r by lia. do 2 f_equal. lia.
Qed.

Lemma shifts : 0 <= mantissa_bits <= 3 /\ 0 < 127 - bias - mantissa_bits /\ half_min_subnormal = (127 - bias - mantissa_bits) * 2 ^ 23 /\
  min_normal = (128 - bias) * 2 ^ 23.
Proof. unfold half_min_subnormal, min_normal. rewrite !shiftl_pow by lia. destruct format as [(-> & -> & _)|(-> & -> & _)]; lia. Qed.

Lemma round_subnormal_ok u : half_min_subnormal < u < min_normal -> exists c, round_subnormal u = c /\
  nearest_in value8 (value32 u) c /\ 0 <= c <= 2 ^ mantissa_bits.
Proof.
  intros Hu. destruct shifts as (Hmb & Hpos & Eh & Em). rewrite Eh, Em in Hu. set (e := u / 2 ^ 23). set (m := u mod 2 ^ 23).
  assert (0 <= m < 2 ^ 23) as Hm by (apply Z.mod_pos_bound; lia). assert (127 - bias - mantissa_bits <= e) as He by (apply Z.div_le_lower_bound; lia).
  assert (e < 128 - bias) as He2 by (apply Z.div_lt_upper_bound; lia). set (s := 151 - bias - mantissa_bits - e).
  assert (24 - mantissa_bits <= s <= 24) as Hs by (unfold s; lia). assert (2 ^ 24 = 2 ^ mantissa_bits * 2 ^ (24 - mantissa_bits)) as E24 by (rewrite <- Z.pow_add_r by lia; f_equal; lia).
  assert (0 < 2 ^ mantissa_bits) by (apply Z.pow_pos_nonneg; lia). assert (2 ^ (24 - mantissa_bits) <= 2 ^ s) as Hp by (apply Z.pow_le_mono_r; lia).
  assert (0 < 2 ^ (24 - mantissa_bits)) by (apply Z.pow_pos_nonneg; lia). assert (2 ^ s <= 2 ^ 24) as Hs24 by (apply Z.pow_le_mono_r; lia).
  assert (0 <= (2 ^ 23 + m) / 2 ^ s < 2 ^ mantissa_bits) as Hq by (split; [apply Z.div_pos; lia|apply Z.div_lt_upper_bound; nia]).
  assert (0 <= rne (2 ^ 23 + m) s <= 2 ^ mantissa_bits) as Hc by (apply rne_bound; lia).
  assert (2 ^ mantissa_bits <= 2 ^ 3) by (apply Z.pow_le_mono_r; lia). assert (2 ^ (s - 1) <= 2 ^ 23) by (apply Z.pow_le_mono_r; lia).
  assert (0 < 2 ^ (s - 1)) by (apply Z.pow_pos_nonneg; lia). exists (rne (2 ^ 23 + m) s). split; [|split; [|done]].
  - unfold round_subnormal. assert (Z.lor (Z.land u 8388607) 8388608 = 2 ^ 23 + m) as ->.
    { rewrite Z.lor_comm. change 8388607 with (2 ^ 23 - 1). change 8388608 with (1 * 2 ^ 23). rewrite land_low by lia. fold m. rewrite lor_disjoint by lia. lia. }
    rewrite (shiftr_pow u) by lia. fold e s. rewrite (u32_id s) by (unfold is_u32; lia). rewrite shiftl_pow, Z.mul_1_l, !shiftr_pow by lia.
    assert (Z.land ((2 ^ 23 + m) / 2 ^ s) 1 = ((2 ^ 23 + m) / 2 ^ s) mod 2) as -> by exact (land_low _ 1 ltac:(lia)).
    pose proof (Z.mod_pos_bound ((2 ^ 23 + m) / 2 ^ s) 2 ltac:(lia)). rewrite u32_id by (unfold is_u32; lia). rewrite rne_add by lia. apply u8_id. unfold is_u8. lia.
  - apply (nearest_of_rne value8 0 0 (2 ^ 23 + m) s (2 ^ (e - 1))); try lia; [done| |].
    + intros q Hq'. rewrite !Z.add_0_l, value8_subnormal by lia. f_equal. rewrite <- Z.pow_add_r by lia. f_equal. unfold s. lia.
    + unfold value32. fold e m. destruct (Z.eqb_spec e 0); lia.
Qed.

Lemma round_normal_ok u : min_normal <= u <= max_bits -> exists c, round_normal u = c /\ nearest_in value8 (value32 u) c /\ 0 <= c <= max_fp8.
Proof.
  intros Hu. destruct shifts as (Hmb & Hpos & _ & Em). rewrite Em in Hu. set (e := u / 2 ^ 23). set (m := u mod 2 ^ 23). set (s := 23 - mantissa_bits).
  assert (0 <= m < 2 ^ 23) as Hm by (apply Z.mod_pos_bound; lia). assert (128 - bias <= e) as He by (apply Z.div_le_lower_bound; lia).
  assert (2 ^ 23 = 2 ^ mantissa_bits * 2 ^ s) as E23 by (rewrite <- Z.pow_add_r by (unfold s; lia); f_equal; unfold s; lia).
  assert (0 < 2 ^ mantissa_bits) by (apply Z.pow_pos_nonneg; lia). assert (0 < 2 ^ s) by (apply Z.pow_pos_nonneg; unfold s; lia).
  assert (0 <= m / 2 ^ s < 2 ^ mantissa_bits) as Hq by (split; [apply Z.div_pos; lia|apply Z.div_lt_upper_bound; nia]).
  set (base := (e - (127 - bias)) * 2 ^ mantissa_bits). assert (u = 2 ^ 23 * e + m) as Eu by (apply Z.div_mod; lia).
  set (x := u - (127 - bias) * 2 ^ 23). assert (0 <= x) as Hx by (unfold x; lia).
  assert (2 ^ (s - 1) <= 2 ^ 22) by (apply Z.pow_le_mono_r; unfold s; lia). assert (0 < 2 ^ (s - 1)) by (apply Z.pow_pos_nonneg; unfold s; destruct MB; lia).
  assert (2 ^ mantissa_bits = 2 * 2 ^ (mantissa_bits - 1)) as Epow by (rewrite <- Z.pow_succ_r by (destruct MB; lia); f_equal; lia).
  assert (base mod 2 = 0) as Hbase.
  { unfold base. rewrite Epow, (Z.mul_comm 2), Z.mul_assoc, Z.mod_mul by lia. done. }
  assert (x = base * 2 ^ s + m) as Ex by (unfold x, base; rewrite Eu, E23; ring).
  assert (x <= max_fp8 * 2 ^ s) as Hle.
  { unfold x, s. destruct format as [(-> & -> & E1 & ->)|(-> & -> & E1 & ->)]; rewrite E1 in Hu; lia. }
  assert (0 <= rne x s <= max_fp8) as Hc by (split; [apply (rne_bound x s (x / 2 ^ s + 1)); unfold s in *; lia|apply rne_le; unfold s in *; lia]).
  assert (max_fp8 < 256) by (destruct format as [(_ & _ & _ & ->)|(_ & _ & _ & ->)]; lia).
  assert ((u / 2 ^ s) mod 2 = (x / 2 ^ s) mod 2) as Hlsb.
  { replace u with (x + ((127 - bias) * 2 ^ (mantissa_bits - 1) * 2) * 2 ^ s).
    - rewrite Z.div_add, Z.mod_add by lia. done.
    - unfold x. rewrite E23, Epow. ring. }
  exists (rne x s). split; [|split; [|done]].
  - unfold round_normal. fold s. rewrite !shiftl_pow, Z.mul_1_l, !shiftr_pow by (unfold s; destruct MB; lia).
    assert (Z.land (u / 2 ^ s) 1 = (x / 2 ^ s) mod 2) as -> by (rewrite <- Hlsb; exact (land_low _ 1 ltac:(lia))).
    pose proof (Z.mod_pos_bound (x / 2 ^ s) 2 ltac:(lia)). set (B := 2 ^ (s - 1) - 1 - (127 - bias) * 2 ^ 23).
    assert (u32 (u + u32 B + (x / 2 ^ s) mod 2) = x + 2 ^ (s - 1) - 1 + (x / 2 ^ s) mod 2) as ->.
    { unfold u32. rewrite (Z.mod_eq B) by lia. replace (u + (B - 4294967296 * (B / 4294967296)) + (x / 2 ^ s) mod 2)
        with (x + 2 ^ (s - 1) - 1 + (x / 2 ^ s) mod 2 + - (B / 4294967296) * 4294967296) by (unfold B, x; lia).
      rewrite Z.mod_add by lia. apply Z.mod_small. assert (max_bits < 2 ^ 31) by (destruct format as [(_ & _ & -> & _)|(_ & _ & -> & _)]; lia). unfold x in *. lia. }
    rewrite rne_add by (unfold s in *; destruct MB; lia). apply u8_id. unfold is_u8. lia.
  - rewrite Ex, rne_base by (done || (unfold s; lia)). apply (nearest_of_rne value8 base (2 ^ mantissa_bits) m s (2 ^ (e - 1))); try done.
    + unfold s. lia.
    + apply Z.pow_pos_nonneg; lia.
    + lia.
    + unfold base. apply Z.mul_nonneg_nonneg; lia.
    + intros q Hq'. unfold base. rewrite value8_normal by lia. f_equal. rewrite <- Z.pow_add_r by (unfold s; lia). f_equal. unfold s. lia.
    + unfold value32. fold e m. destruct (Z.eqb_spec e 0); [lia|]. by rewrite E23.
Qed.

Lemma round_tiny u : 0 <= u <= half_min_subnormal -> nearest_in value8 (value32 u) 0.
Proof.
  intros Hu. destruct shifts as (Hmb & Hpos & Eh & _). set (t := 2 ^ (149 - bias - mantissa_bits)).
  assert (2 ^ (150 - bias - mantissa_bits) = 2 * t) as Et by (unfold t; rewrite <- Z.pow_succ_r by lia; f_equal; lia). assert (0 < t) by (apply Z.pow_pos_nonneg; lia).
  assert (value32 half_min_subnormal = t) as Ev.
  { rewrite Eh. unfold value32. rewrite Z.div_mul, Z.mod_mul by lia. destruct (Z.eqb_spec (127 - bias - mantissa_bits) 0); [lia|].
    rewrite Z.add_0_r, <- Z.pow_add_r by lia. unfold t. f_equal. lia. }
  assert (0 <= value32 u <= t) as Hv.
  { rewrite <- Ev. split; [|by apply value32_mono]. apply (value32_mono 0 u). lia. }
  exists 0. rewrite !value8_subnormal by (pose proof (Z.pow_pos_nonneg 2 mantissa_bits); lia). rewrite Et. change (0 mod 2) with 0. cbv zeta. lia.
Qed.

End Convert.

(** The type of the cache decides at compile time. *)
Definition select_fp8_quant_fn (is_e5m2 : bool) : (Z -> Z -> Z) -> Z -> Z -> Z := if is_e5m2 then float_to_fp8_scalar 2 else float_to_fp8_scalar 3.

(** ** The reference decoder of E4M3 *)

Definition quiet_NaN : Z := 0x7fc00000.

(** The float with the bits of the code: its exponent is too small by 120. *)
Definition fp8e4m3_unscaled (b : Z) : Z :=
  let sign := Z.shiftl (Z.land b 0x80) 24 in
  let payload := Z.shiftl (Z.land b 0x7f) 20 in
  Z.lor sign payload.

(** The constant is [0x1p120f]. *)
Definition fp8e4m3_to_float_scalar (mul : Z -> Z -> Z) (b scale : Z) : Z :=
  if Z.land b 0x7f =? 0x7f then quiet_NaN
  else mul (mul (fp8e4m3_unscaled b) scale) 0x7b800000.

(** The factor restores the value of every code: scaled by 2^120, the pattern has the value
    and the sign of the code. *)
Lemma fp8e4m3_unscaled_value b : 0 <= b < 2 ^ 8 -> let u := fp8e4m3_unscaled b in
  u / 2 ^ 31 = b / 2 ^ 7 /\ value32 (u mod 2 ^ 31) * 2 ^ 120 = value8 3 (b mod 2 ^ 7).
Proof.
  intros Hb. assert (Forall (fun b => fp8e4m3_unscaled b / 2 ^ 31 = b / 2 ^ 7 /\
    value32 (fp8e4m3_unscaled b mod 2 ^ 31) * 2 ^ 120 = value8 3 (b mod 2 ^ 7)) (seqZ 0 256)) as Hall.
  { apply (bool_decide_unpack _). vm_compute. exact I. }
  rewrite Forall_forall in Hall. apply Hall. apply elem_of_seqZ. lia.
Qed.

(** The sign bit goes to the top of the byte. *)
Lemma sign8 x : 0 <= x < 2 ^ 32 -> Z.land (Z.shiftr x 24) 0x80 = (x / 2 ^ 31) * 2 ^ 7.
Proof.
  intros Hx. rewrite shiftr_pow by lia. replace (x / 2 ^ 24) with (x / 2 ^ 31 * 2 ^ 7 + (x / 2 ^ 24) mod 2 ^ 7).
  - pose proof (Z.mod_pos_bound (x / 2 ^ 24) (2 ^ 7) ltac:(lia)) as Hlo. rewrite <- lor_disjoint by lia. rewrite Z.land_lor_distr_l.
    assert (Z.land ((x / 2 ^ 24) mod 2 ^ 7) 128 = 0) as ->.
    { apply Z.bits_inj'. intros i Hi. rewrite Z.land_spec, Z.bits_0. change 128 with (2 ^ 7). destruct (decide (i = 7)) as [->|Hne].
      - by rewrite Z.mod_pow2_bits_high by lia.
      - rewrite Z.pow2_bits_false by lia. apply andb_false_r. }
    assert (0 <= x / 2 ^ 31 < 2) as Hs by (split; [apply Z.div_pos; lia|apply Z.div_lt_upper_bound; lia]).
    rewrite Z.lor_0_r. assert (x / 2 ^ 31 = 0 \/ x / 2 ^ 31 = 1) as [-> | ->] by lia; done.
  - pose proof (Z.div_mod (x / 2 ^ 24) (2 ^ 7) ltac:(lia)) as Hd. rewrite Z.div_div in Hd by lia. change (2 ^ 24 * 2 ^ 7) with (2 ^ 31) in Hd. lia.
Qed.

(** [C30] The conversion to an 8-bit float is correct rounding with saturation, for both
    formats and all 2^32 patterns: up to the largest finite value the result is the code
    nearest in value, ties to even, with the sign of the float; above it, and for the
    infinities, it is the largest code with the sign; every NaN becomes the largest
    positive code. *)
Theorem fp8_rounds_nearest_even (mantissa_bits x : Z) : mantissa_bits = 3 \/ mantissa_bits = 2 -> 0 <= x < 2 ^ 32 ->
  let u := x mod 2 ^ 31 in let sign := x / 2 ^ 31 in
  (0x7f800000 < u -> fp8_of_bits mantissa_bits x = max_fp8 mantissa_bits) /\
  (max_bits mantissa_bits < u <= 0x7f800000 -> fp8_of_bits mantissa_bits x = sign * 2 ^ 7 + max_fp8 mantissa_bits) /\
  (u <= max_bits mantissa_bits -> exists c, nearest_in (value8 mantissa_bits) (value32 u) c /\ 0 <= c <= max_fp8 mantissa_bits /\
    fp8_of_bits mantissa_bits x = sign * 2 ^ 7 + c).
Proof.
  intros MB Hx u sign. assert (0 <= u < 2 ^ 31) as Hu by (apply Z.mod_pos_bound; lia).
  assert (max_bits mantissa_bits < 0x7f800000 /\ 0 <= max_fp8 mantissa_bits < 2 ^ 7 /\ 2 ^ mantissa_bits <= max_fp8 mantissa_bits) as (B1 & B2 & B3)
    by (destruct (format mantissa_bits MB) as [(-> & _ & -> & ->)|(-> & _ & -> & ->)]; lia).
  unfold fp8_of_bits. rewrite sign8 by done. fold sign.
  assert (Z.land x 0x7fffffff = u) as -> by exact (land_low x 31 ltac:(lia)). split_and!.
  - intros Hn. rewrite !(proj2 (Z.ltb_lt _ _)) by lia. done.
  - intros Hs. rewrite (proj2 (Z.ltb_lt _ _)), (proj2 (Z.ltb_ge _ u)) by lia. apply lor_disjoint; lia.
  - intros Hf. rewrite (proj2 (Z.ltb_ge _ u)) by lia. destruct (Z.leb_spec u (half_min_subnormal mantissa_bits)).
    + exists 0. split; [apply round_tiny; (done || lia)|]. lia.
    + destruct (Z.ltb_spec u (min_normal mantissa_bits)).
      * destruct (round_subnormal_ok mantissa_bits MB u) as (c & -> & Hc & Hb); [lia|]. exists c. split; [done|]. split; [lia|]. apply lor_disjoint; lia.
      * destruct (round_normal_ok mantissa_bits MB u) as (c & -> & Hc & Hb); [lia|]. exists c. split; [done|]. split; [lia|]. apply lor_disjoint; lia.
Qed.

(** The tie between two codes, with a sign; the smallest subnormal; saturation. *)
Lemma fp8_rounds_nearest_even_witness :
  (exists c, nearest_in (value8 3) (value32 0x3f880000) c /\ 0 <= c <= max_fp8 3 /\ fp8_of_bits 3 0xbf880000 = 1 * 2 ^ 7 + c) /\
  fp8_of_bits 3 0xbf880000 = 0xb8 /\ fp8_of_bits 2 0x37800000 = 1 /\ fp8_of_bits 2 0xff800000 = 0xfb.
Proof.
  split; [|split; [reflexivity|split; reflexivity]].
  destruct (fp8_rounds_nearest_even 3 0xbf880000 ltac:(lia) ltac:(lia)) as (_ & _ & H). apply H. vm_compute. discriminate.
Defined.

End Fp8.
