(* ===== verification/ScalarType.v ===== *)
(** * Sub-byte scalar types ([csrc/core/scalar_type.hpp])

    The record of a quantised type, its packed 64-bit identifier, its printed name
    and its representable range.  Fields keep their C++ widths: [uint8_t] exponent,
    mantissa and NaN code, [int32_t] bias.  [int64_t] arithmetic whose overflow is
    undefined is [None]; doubles are their 64-bit patterns, read back as the
    Standard Library's [spec_float]. *)

From Stdlib Require Import SpecFloat.
From S2P Require Import Prelude.

#[local] Open Scope Z_scope.

Module Scalar.

Definition NAN_NONE : Z := 0.
Definition NAN_IEEE_754 : Z := 1.
Definition NAN_EXTD_RANGE_MAX_MIN : Z := 2.
Definition NAN_REPR_ID_MAX : Z := 3.

Record ScalarType := mkScalar {
  exponent : Z; mantissa : Z; signed_ : bool; bias : Z;
  finite_values_only : bool; nan_repr : Z }.

(** ** Constructors *)

Definition int_ (size_bits b : Z) : ScalarType :=
  mkScalar 0 (u8 (size_bits - 1)) true b false NAN_IEEE_754.

Definition uint (size_bits b : Z) : ScalarType :=
  mkScalar 0 size_bits false b false NAN_IEEE_754.

Definition float_IEEE754 (e m : Z) : outcome ScalarType :=
  _ ← torch_check ((0 <? m) && (0 <? e)) "";
  Ok (mkScalar e m true 0 false NAN_IEEE_754).

Definition float_ (e m : Z) (finite : bool) (nan : Z) : outcome ScalarType :=
  _ ← torch_check (nan <? NAN_REPR_ID_MAX) "Invalid NanRepr";
  _ ← torch_check ((0 <? m) && (0 <? e)) "";
  _ ← torch_check (negb (nan =? NAN_IEEE_754)) "use `float_IEEE754` constructor";
  Ok (mkScalar e m true 0 finite nan).

(** ** The identifier *)

(** A member as the reduction sees it: the width of its field and its value
    converted to [int64_t]. *)
Definition reduce_members (t : ScalarType) : list (Z * Z) :=
  [(8, exponent t); (8, mantissa t); (1, Z.b2z (signed_ t)); (32, bias t);
   (1, Z.b2z (finite_values_only t)); (8, nan_repr t)].

(** The widths and the conversions back ([static_cast<T>]). *)
Definition member_id_field_width : list Z := [8; 8; 1; 32; 1; 8].

Definition id_size_bits : Z := foldl Z.add 0 member_id_field_width.

Definition or_and_advance (result : Z * Z) (member : Z * Z) : Z * Z :=
  let '(id, bit_offset) := result in
  let '(bits, v) := member in
  (i64 (Z.lor (u64 id) (u64 (Z.shiftl (Z.land (u64 v) (Z.shiftl 1 bits - 1)) bit_offset))),
   bit_offset + bits).

Definition id (t : ScalarType) : Z := (foldl or_and_advance (0, 0) (reduce_members t)).1.

Definition extract (id bit_offset bits : Z) : Z :=
  Z.land (u64 (Z.shiftr id bit_offset)) (Z.shiftl 1 bits - 1).

Definition from_id (id : Z) : ScalarType :=
  mkScalar (u8 (extract id 0 8)) (u8 (extract id 8 8)) (negb (extract id 16 1 =? 0))
    (i32 (extract id 17 32)) (negb (extract id 49 1 =? 0)) (u8 (extract id 50 8)).

(** ** Queries *)

Definition is_signed (t : ScalarType) : bool := signed_ t.
Definition size_bits (t : ScalarType) : Z := mantissa t + exponent t + Z.b2z (is_signed t).
Definition is_integer (t : ScalarType) : bool := exponent t =? 0.
Definition is_floating_point (t : ScalarType) : bool := 0 <? exponent t.
Definition is_ieee_754 (t : ScalarType) : bool :=
  is_floating_point t && negb (finite_values_only t) && (nan_repr t =? NAN_IEEE_754).
Definition has_nans (t : ScalarType) : bool :=
  is_floating_point t && negb (nan_repr t =? NAN_NONE).
Definition has_infs (t : ScalarType) : bool :=
  is_floating_point t && negb (finite_values_only t).
Definition has_bias (t : ScalarType) : bool := negb (bias t =? 0).

(** [operator==] *)
Definition eqb (a b : ScalarType) : bool :=
  (mantissa a =? mantissa b) && (exponent a =? exponent b) && (bias a =? bias b) &&
  Bool.eqb (signed_ a) (signed_ b) && Bool.eqb (finite_values_only a) (finite_values_only b) &&
  (nan_repr a =? nan_repr b).

(** ** Range *)

(** Reading a 64-bit pattern as a double. *)
Definition double_of_bits (raw : Z) : spec_float :=
  let s := Z.testbit raw 63 in
  let e := (raw / 2 ^ 52) mod 2 ^ 11 in
  let m := raw mod 2 ^ 52 in
  if e =? 2047 then (if m =? 0 then S754_infinity s else S754_nan)
  else if e =? 0 then
    match m with Zpos p => S754_finite s p (-1074) | _ => S754_zero s end
  else match m + 2 ^ 52 with Zpos p => S754_finite s p (e - 1075) | _ => S754_zero s end.

Definition no_double : string := "Cannot represent max/min as a double for type ".

(** [_floating_point_max]: the raw pattern of the double. *)
Definition floating_point_max_raw (t : ScalarType) : outcome Z :=
  _ ← torch_check ((mantissa t <=? 52) && (exponent t <=? 11)) no_double;
  let max_mantissa := u64 (Z.shiftl 1 (mantissa t) - 1) in
  let max_mantissa :=
    if nan_repr t =? NAN_EXTD_RANGE_MAX_MIN then u64 (max_mantissa - 1) else max_mantissa in
  let max_exponent := u64 (Z.shiftl 1 (exponent t) - 2) in
  max_exponent ←
    (if (nan_repr t =? NAN_EXTD_RANGE_MAX_MIN) || (nan_repr t =? NAN_NONE) then
       _ ← torch_check (exponent t <? 11) no_double;
       Ok (u64 (max_exponent + 1))
     else Ok max_exponent);
  let exponent_bias := u64 (Z.shiftl 1 (exponent t - 1) - 1) in
  let exponent_bias_double := Z.shiftl 1 10 - 1 in
  let max_exponent_double := u64 (max_exponent - exponent_bias + exponent_bias_double) in
  Ok (Z.lor (u64 (Z.shiftl max_mantissa (52 - mantissa t))) (u64 (Z.shiftl max_exponent_double 52))).

Definition floating_point_max (t : ScalarType) : outcome spec_float :=
  raw ← floating_point_max_raw t; Ok (double_of_bits raw).

(** [std::variant<int64_t, double>] *)
Inductive number := Int64 (z : Z) | Double (d : spec_float).

(** A signed 64-bit result; [None] is the overflow the language leaves undefined. *)
Definition chk64 (z : Z) : option Z :=
  if (- 2 ^ 63 <=? z) && (z <? 2 ^ 63) then Some z else None.

Definition raw_max (t : ScalarType) : option (outcome number) :=
  if is_floating_point t then
    Some (d ← floating_point_max t; Ok (Double d))
  else if (size_bits t <? 64) || ((size_bits t =? 64) && is_signed t) then
    z ← chk64 (i64 (Z.shiftl 1 (mantissa t)) - 1);
    Some (Ok (Int64 z))
  else Some (Throw "Cannot represent max as a int64_t").

Definition raw_min (t : ScalarType) : option (outcome number) :=
  if is_floating_point t then
    Some (_ ← torch_check (is_signed t) "We currently assume all floating point types are signed";
          raw ← floating_point_max_raw t;
          Ok (Double (double_of_bits (Z.lor raw (Z.shiftl 1 63)))))
  else if negb (is_signed t) || (size_bits t <=? 64) then
    Some (Ok (Int64 (if is_signed t then Z.shiftr (- 2 ^ 63) (64 - size_bits t) else 0)))
  else Some (Throw "Cannot represent min as a int64_t").

(** [x - bias] for either alternative; the bias is converted to a double. *)
Definition sub_bias (b : Z) (x : number) : option number :=
  match x with
  | Int64 z => z ← chk64 (z - b); Some (Int64 z)
  | Double d => Some (Double (SFsub 53 1024 d (binary_normalize 53 1024 b 0 false)))
  end.

Definition visit_sub (b : Z) (r : option (outcome number)) : option (outcome number) :=
  r ← r;
  match r with
  | Throw m => Some (Throw m)
  | Ok x => x ← sub_bias b x; Some (Ok x)
  end.

Definition max (t : ScalarType) : option (outcome number) := visit_sub (bias t) (raw_max t).
Definition min (t : ScalarType) : option (outcome number) := visit_sub (bias t) (raw_min t).

(** ** Names *)

(** [std::to_string] of a nonnegative or negative integer. *)
Definition digit (d : Z) : string :=
  String (Ascii.ascii_of_N (Z.to_N (48 + d))) "".

Fixpoint decimal (fuel : nat) (z : Z) : string :=
  match fuel with
  | O => ""
  | S fuel => if z <? 10 then digit z else decimal fuel (z / 10) +:+ digit (z mod 10)
  end.

(** Eleven digits are enough for every [int32_t] and [size_bits]. *)
Definition to_string (z : Z) : string :=
  if z <? 0 then "-" +:+ decimal 11 (- z) else decimal 11 z.

Definition str (t : ScalarType) : string :=
  if is_floating_point t then
    let ret := "float" +:+ to_string (size_bits t) +:+ "_e" +:+ to_string (exponent t)
               +:+ "m" +:+ to_string (mantissa t) in
    if is_ieee_754 t then ret
    else
      let ret := if finite_values_only t then ret +:+ "f" else ret in
      if nan_repr t =? NAN_NONE then ret else ret +:+ "n"
  else
    let ret := (if is_signed t then "int" else "uint") +:+ to_string (size_bits t) in
    if has_bias t then ret +:+ "b" +:+ to_string (bias t) else ret.

(** ** The named types *)

Definition kS4 := int_ 4 0.
Definition kU4 := uint 4 0.
Definition kU4B8 := uint 4 8.
Definition kS8 := int_ 8 0.
Definition kU8 := uint 8 0.
Definition kU8B128 := uint 8 128.
Definition kFE2M1f := float_ 2 1 true NAN_NONE.
Definition kFE3M2f := float_ 3 2 true NAN_NONE.
Definition kFE2M3f := float_ 2 3 true NAN_NONE.
Definition kFE4M3fn := float_ 4 3 true NAN_EXTD_RANGE_MAX_MIN.
Definition kFE8M0fnu := mkScalar 8 0 false 0 true NAN_EXTD_RANGE_MAX_MIN.
Definition kFE5M2 := float_IEEE754 5 2.
Definition kFE8M7 := float_IEEE754 8 7.
Definition kFE5M10 := float_IEEE754 5 10.

(** ** The identifier packs the fields *)

(** The value of each field lies in its C++ type. *)
Definition wf (t : ScalarType) : Prop :=
  is_u8 (exponent t) /\ is_u8 (mantissa t) /\ is_i32 (bias t) /\ is_u8 (nan_repr t).

(** The sum of the fields at their offsets. *)
Fixpoint packed (ms : list (Z * Z)) (off : Z) : Z :=
  match ms with
  | [] => 0
  | (bits, v) :: ms => (v mod 2 ^ bits) * 2 ^ off + packed ms (off + bits)
  end.

Lemma or_and_advance_spec acc off bits v :
  0 <= off -> 0 <= bits -> off + bits <= 63 -> 0 <= acc < 2 ^ off ->
  or_and_advance (acc, off) (bits, v) = (acc + (v mod 2 ^ bits) * 2 ^ off, off + bits) /\
  0 <= acc + (v mod 2 ^ bits) * 2 ^ off < 2 ^ (off + bits).
Proof.
  intros Ho Hb Hs Ha. assert (0 < 2 ^ bits) by (apply Z.pow_pos_nonneg; lia).
  assert (0 < 2 ^ off) by (apply Z.pow_pos_nonneg; lia).
  assert (0 <= v mod 2 ^ bits < 2 ^ bits) as Hv by (by apply Z.mod_pos_bound).
  assert (2 ^ (off + bits) = 2 ^ off * 2 ^ bits) as Hp by (apply Z.pow_add_r; lia).
  assert (2 ^ (off + bits) <= 2 ^ 63) as Hmax by (apply Z.pow_le_mono_r; lia).
  assert (0 <= acc + (v mod 2 ^ bits) * 2 ^ off < 2 ^ (off + bits)) as Hr by nia.
  split; [|done]. unfold or_and_advance. f_equal.
  rewrite !shiftl_pow, Z.mul_1_l, land_low by lia.
  assert (u64 v mod 2 ^ bits = v mod 2 ^ bits) as ->.
  { unfold u64. change 18446744073709551616 with (2 ^ 64).
    apply Z.mod_mod_divide. exists (2 ^ (64 - bits)). rewrite <- Z.pow_add_r by lia. f_equal. lia. }
  rewrite (u64_id acc), (u64_id (_ * _)) by (unfold is_u64; nia).
  rewrite Z.lor_comm, lor_disjoint by lia. rewrite Z.add_comm. apply i64_id. unfold is_i64. lia.
Qed.

Lemma fold_packed ms acc off :
  0 <= off -> Forall (fun m => 0 <= m.1) ms -> off + foldr (fun m a => m.1 + a) 0 ms <= 63 ->
  0 <= acc < 2 ^ off ->
  (foldl or_and_advance (acc, off) ms).1 = acc + packed ms off /\
  0 <= acc + packed ms off < 2 ^ (off + foldr (fun m a => m.1 + a) 0 ms).
Proof.
  revert acc off. induction ms as [|[bits v] ms IH]; intros acc off Ho Hf Hs Ha.
  { cbn. rewrite !Z.add_0_r. done. }
  apply Forall_cons in Hf as [Hb Hf]. cbn [foldl foldr packed fst] in *.
  assert (0 <= foldr (fun m a => m.1 + a) 0 ms) as Hpos
    by (clear -Hf; induction Hf; simpl; lia).
  destruct (or_and_advance_spec acc off bits v) as [-> Hr]; [lia..|].
  destruct (IH (acc + (v mod 2 ^ bits) * 2 ^ off) (off + bits)) as [-> Hr']; [lia|done|lia|done|].
  rewrite <- !Z.add_assoc in *. done.
Qed.

(** The identifier as arithmetic. *)
Lemma id_sum t :
  wf t -> id t = exponent t + mantissa t * 2 ^ 8 + Z.b2z (signed_ t) * 2 ^ 16
    + (bias t mod 2 ^ 32) * 2 ^ 17 + Z.b2z (finite_values_only t) * 2 ^ 49 + nan_repr t * 2 ^ 50.
Proof.
  intros (He & Hm & _ & Hn). unfold is_u8 in *.
  destruct (fold_packed (reduce_members t) 0 0) as [E _]; [lia| |done|done|].
  { repeat (constructor; [simpl; lia|]). constructor. }
  unfold id. rewrite E. cbn [packed reduce_members].
  rewrite (Z.mod_small (exponent t)), (Z.mod_small (mantissa t)), (Z.mod_small (nan_repr t)) by lia.
  assert (forall b : bool, Z.b2z b mod 2 ^ 1 = Z.b2z b) as Hbool by (by intros []).
  rewrite !Hbool. change (2 ^ 0) with 1. cbn [Z.add Pos.add Pos.succ Pos.add_carry]. lia.
Qed.

Lemma extract_spec z off bits :
  0 <= z < 2 ^ 63 -> 0 <= off -> 0 <= bits -> extract z off bits = (z / 2 ^ off) mod 2 ^ bits.
Proof.
  intros Hz Ho Hb. unfold extract. rewrite shiftr_pow, shiftl_pow, Z.mul_1_l, land_low by lia.
  rewrite u64_id; [done|]. unfold is_u64. assert (0 < 2 ^ off) by (apply Z.pow_pos_nonneg; lia).
  split; [apply Z.div_pos; lia|]. apply Z.div_lt_upper_bound; nia.
Qed.

Lemma from_id_id t : wf t -> from_id (id t) = t /\ 0 <= id t < 2 ^ 58.
Proof.
  intros Hwf. pose proof (id_sum t Hwf) as E. destruct Hwf as (He & Hm & Hb & Hn).
  destruct t as [e m sg b f n]. cbn [exponent mantissa signed_ bias finite_values_only nan_repr] in *.
  set (z := id _) in *. clearbody z. unfold is_u8, is_i32 in *.
  set (s01 := Z.b2z sg) in *. set (f01 := Z.b2z f) in *. set (bw := b mod 2 ^ 32) in *.
  assert (0 <= s01 <= 1) as Hs by (unfold s01; destruct sg; simpl; lia).
  assert (0 <= f01 <= 1) as Hf by (unfold f01; destruct f; simpl; lia).
  assert (0 <= bw < 2 ^ 32) as Hbw by (apply Z.mod_pos_bound; lia).
  assert (0 <= z < 2 ^ 58) as Hz by lia. split; [|done].
  unfold from_id. rewrite !extract_spec by lia.
  assert ((z / 2 ^ 0) mod 2 ^ 8 = e) as ->.
  { rewrite Z.div_1_r. symmetry.
    apply (Z.mod_unique _ _ (m + s01 * 2 ^ 8 + bw * 2 ^ 9 + f01 * 2 ^ 41 + n * 2 ^ 42)); lia. }
  assert ((z / 2 ^ 8) mod 2 ^ 8 = m) as ->.
  { rewrite <- (Z.div_unique z (2 ^ 8) (m + s01 * 2 ^ 8 + bw * 2 ^ 9 + f01 * 2 ^ 41 + n * 2 ^ 42) e) by lia.
    symmetry. apply (Z.mod_unique _ _ (s01 + bw * 2 + f01 * 2 ^ 33 + n * 2 ^ 34)); lia. }
  assert ((z / 2 ^ 16) mod 2 ^ 1 = s01) as ->.
  { rewrite <- (Z.div_unique z (2 ^ 16) (s01 + bw * 2 + f01 * 2 ^ 33 + n * 2 ^ 34) (e + m * 2 ^ 8)) by lia.
    symmetry. apply (Z.mod_unique _ _ (bw + f01 * 2 ^ 32 + n * 2 ^ 33)); lia. }
  assert ((z / 2 ^ 17) mod 2 ^ 32 = bw) as ->.
  { rewrite <- (Z.div_unique z (2 ^ 17) (bw + f01 * 2 ^ 32 + n * 2 ^ 33)
      (e + m * 2 ^ 8 + s01 * 2 ^ 16)) by lia.
    symmetry. apply (Z.mod_unique _ _ (f01 + n * 2)); lia. }
  assert ((z / 2 ^ 49) mod 2 ^ 1 = f01) as ->.
  { rewrite <- (Z.div_unique z (2 ^ 49) (f01 + n * 2)
      (e + m * 2 ^ 8 + s01 * 2 ^ 16 + bw * 2 ^ 17)) by lia.
    symmetry. apply (Z.mod_unique _ _ n); lia. }
  assert ((z / 2 ^ 50) mod 2 ^ 8 = n) as ->.
  { rewrite <- (Z.div_unique z (2 ^ 50) n
      (e + m * 2 ^ 8 + s01 * 2 ^ 16 + bw * 2 ^ 17 + f01 * 2 ^ 49)) by lia.
    apply Z.mod_small. lia. }
  rewrite !u8_id by (unfold is_u8; lia).
  assert (i32 bw = b) as ->.
  { unfold i32, bw. change 4294967296 with (2 ^ 32). rewrite Z.add_mod_idemp_l by lia.
    rewrite Z.mod_small by lia. lia. }
  f_equal; [unfold s01; by destruct sg|unfold f01; by destruct f].
Qed.

Lemma eqb_eq a b : eqb a b = true <-> a = b.
Proof.
  destruct a, b. unfold eqb. cbn. rewrite !andb_true_iff, !Z.eqb_eq, !Bool.eqb_true_iff.
  split; [intros (((((-> & ->) & ->) & ->) & ->) & ->); done|]. by intros [= -> -> -> -> -> ->].
Qed.

(** ** Ranges *)

Definition integer_max (t : ScalarType) : Z := 2 ^ mantissa t - 1 - bias t.
Definition integer_min (t : ScalarType) : Z :=
  (if signed_ t then - 2 ^ mantissa t else 0) - bias t.

Lemma chk64_ok z : - 2 ^ 63 <= z < 2 ^ 63 -> chk64 z = Some z.
Proof.
  intros Hz. unfold chk64. by rewrite (proj2 (Z.leb_le _ _)), (proj2 (Z.ltb_lt _ _)) by lia.
Qed.

Lemma integer_range t :
  wf t -> is_integer t = true -> mantissa t <= 62 ->
  max t = Some (Ok (Int64 (integer_max t))) /\ min t = Some (Ok (Int64 (integer_min t))).
Proof.
  intros (He & Hm & Hb & _) Hi%Z.eqb_eq Hmax. unfold is_u8, is_i32 in *.
  assert (2 ^ mantissa t <= 2 ^ 62) as Hp by (apply Z.pow_le_mono_r; lia).
  assert (0 < 2 ^ mantissa t) as Hp0 by (apply Z.pow_pos_nonneg; lia).
  assert (size_bits t = mantissa t + Z.b2z (signed_ t)) as Hsz
    by (unfold size_bits, is_signed; lia).
  assert (0 <= Z.b2z (signed_ t) <= 1) by (destruct (signed_ t); simpl; lia).
  assert (is_floating_point t = false) as Hnf by (unfold is_floating_point; rewrite Hi; done).
  unfold max, min, raw_max, raw_min. rewrite Hnf. split.
  - rewrite (proj2 (Z.ltb_lt _ _)) by lia. simpl orb.
    rewrite shiftl_pow, Z.mul_1_l, i64_id by (unfold is_i64; lia).
    rewrite chk64_ok by lia. simpl. rewrite chk64_ok by lia. done.
  - rewrite (proj2 (Z.leb_le (size_bits t) 64)) by lia. rewrite orb_true_r.
    unfold integer_min, is_signed. destruct (signed_ t) eqn:Es; simpl in *.
    + rewrite shiftr_pow by lia.
      assert (- 2 ^ 63 / 2 ^ (64 - size_bits t) = - 2 ^ mantissa t) as ->.
      { replace (2 ^ 63) with (2 ^ mantissa t * 2 ^ (64 - size_bits t))
          by (rewrite <- Z.pow_add_r by lia; f_equal; lia).
        rewrite <- Z.mul_opp_l. apply Z.div_mul. apply Z.pow_nonzero; lia. }
      rewrite chk64_ok by lia. done.
    + rewrite chk64_ok by lia. done.
Qed.

(** A normal double from its fields. *)
Lemma double_normal (s : bool) e m p :
  0 < e < 2047 -> 0 <= m < 2 ^ 52 -> Zpos p = m + 2 ^ 52 ->
  double_of_bits (Z.b2z s * 2 ^ 63 + (e * 2 ^ 52 + m)) = S754_finite s p (e - 1075).
Proof.
  intros He Hm Hp. set (raw := _ + _). assert (0 <= Z.b2z s <= 1) by (destruct s; simpl; lia).
  assert (raw mod 2 ^ 52 = m) as Hmod
    by (symmetry; apply (Z.mod_unique _ _ (Z.b2z s * 2 ^ 11 + e)); unfold raw; lia).
  assert (raw / 2 ^ 52 = e + Z.b2z s * 2 ^ 11) as Hdiv
    by (symmetry; apply (Z.div_unique _ _ _ m); unfold raw; lia).
  assert (Z.testbit raw 63 = s) as Hs.
  { rewrite Z.testbit_odd, shiftr_pow by lia.
    assert (raw / 2 ^ 63 = Z.b2z s) as ->
      by (symmetry; apply (Z.div_unique _ _ _ (e * 2 ^ 52 + m)); unfold raw; lia).
    by destruct s. }
  unfold double_of_bits. rewrite Hs, Hmod, Hdiv, Z.mod_add, Z.mod_small by lia.
  rewrite (proj2 (Z.eqb_neq _ _)), (proj2 (Z.eqb_neq _ _)) by lia. by rewrite <- Hp.
Qed.

(** The largest fields of a floating-point type. *)
Definition top_mantissa (t : ScalarType) : Z :=
  2 ^ mantissa t - 1 - (if nan_repr t =? NAN_EXTD_RANGE_MAX_MIN then 1 else 0).
Definition top_exponent (t : ScalarType) : Z :=
  2 ^ exponent t - 2 + (if nan_repr t =? NAN_IEEE_754 then 0 else 1).
Definition exponent_bias (t : ScalarType) : Z := 2 ^ (exponent t - 1) - 1.

Definition float_ok (t : ScalarType) : Prop :=
  1 <= mantissa t <= 52 /\ 1 <= exponent t <= 11 /\ signed_ t = true /\ bias t = 0 /\
  0 <= nan_repr t <= 2 /\ (nan_repr t = NAN_IEEE_754 \/ exponent t < 11).

Lemma float_fields t :
  float_ok t ->
  0 <= top_mantissa t < 2 ^ mantissa t /\ 0 <= top_exponent t < 2 ^ 11 /\
  0 <= exponent_bias t <= 1023 /\ 0 < top_exponent t - exponent_bias t + 1023 < 2047.
Proof.
  intros (Hm & He & _ & _ & Hn & Hi). unfold top_mantissa, top_exponent, exponent_bias.
  assert (2 ^ 1 <= 2 ^ mantissa t) by (apply Z.pow_le_mono_r; lia).
  assert (2 ^ exponent t = 2 * 2 ^ (exponent t - 1)) as Hp
    by (rewrite <- Z.pow_succ_r by lia; f_equal; lia).
  assert (2 ^ (exponent t - 1) <= 2 ^ 10) by (apply Z.pow_le_mono_r; lia).
  assert (2 ^ 0 <= 2 ^ (exponent t - 1)) by (apply Z.pow_le_mono_r; lia).
  assert (exponent t < 11 -> 2 ^ (exponent t - 1) <= 2 ^ 9) by (intros; apply Z.pow_le_mono_r; lia).
  unfold NAN_EXTD_RANGE_MAX_MIN, NAN_IEEE_754 in *.
  destruct (Z.eqb_spec (nan_repr t) 2), (Z.eqb_spec (nan_repr t) 1); lia.
Qed.

Lemma floating_point_max_raw_spec t :
  float_ok t ->
  floating_point_max_raw t
  = Ok ((top_exponent t - exponent_bias t + 1023) * 2 ^ 52 + top_mantissa t * 2 ^ (52 - mantissa t))
  /\ 0 <= top_mantissa t * 2 ^ (52 - mantissa t) < 2 ^ 52.
Proof.
  intros Hok. pose proof (float_fields t Hok) as (Fm & Fe & Fb & Fd).
  destruct Hok as (Hm & He & _ & _ & Hn & Hi).
  assert (2 ^ mantissa t <= 2 ^ 52) as Hpm by (apply Z.pow_le_mono_r; lia).
  assert (2 ^ 1 <= 2 ^ mantissa t) as Hpm1 by (apply Z.pow_le_mono_r; lia).
  assert (2 ^ 1 <= 2 ^ exponent t) as Hpe1 by (apply Z.pow_le_mono_r; lia).
  assert (2 ^ exponent t <= 2 ^ 11) as Hpe by (apply Z.pow_le_mono_r; lia).
  assert (0 < 2 ^ (52 - mantissa t)) as Hsh by (apply Z.pow_pos_nonneg; lia).
  assert (2 ^ mantissa t * 2 ^ (52 - mantissa t) = 2 ^ 52) as Hmul
    by (rewrite <- Z.pow_add_r by lia; f_equal; lia).
  assert (0 <= top_mantissa t * 2 ^ (52 - mantissa t) < 2 ^ 52) as Hr by nia.
  split; [|done]. unfold floating_point_max_raw.
  rewrite (proj2 (Z.leb_le (mantissa t) 52)), (proj2 (Z.leb_le (exponent t) 11)) by lia.
  cbn [andb torch_check mbind outcome_bind]. rewrite !shiftl_pow, !Z.mul_1_l by lia.
  rewrite (u64_id (2 ^ mantissa t - 1)), (u64_id (2 ^ exponent t - 2)) by (unfold is_u64; lia).
  fold (exponent_bias t). rewrite (u64_id (exponent_bias t)) by (unfold is_u64; lia).
  assert ((if nan_repr t =? NAN_EXTD_RANGE_MAX_MIN then u64 (2 ^ mantissa t - 1 - 1)
           else 2 ^ mantissa t - 1) = top_mantissa t) as ->.
  { unfold top_mantissa. destruct (nan_repr t =? NAN_EXTD_RANGE_MAX_MIN);
      [apply u64_id; unfold is_u64; lia|lia]. }
  assert ((if (nan_repr t =? NAN_EXTD_RANGE_MAX_MIN) || (nan_repr t =? NAN_NONE) then
       _ ← torch_check (exponent t <? 11) no_double;
       Ok (u64 (2 ^ exponent t - 2 + 1))
     else Ok (2 ^ exponent t - 2)) = Ok (top_exponent t)) as ->.
  { unfold top_exponent, NAN_EXTD_RANGE_MAX_MIN, NAN_NONE, NAN_IEEE_754 in *.
    destruct (Z.eqb_spec (nan_repr t) 2), (Z.eqb_spec (nan_repr t) 0),
      (Z.eqb_spec (nan_repr t) 1); try lia; cbn [orb]; try (f_equal; lia);
      rewrite (proj2 (Z.ltb_lt _ _)) by lia; cbn [torch_check mbind outcome_bind];
      rewrite u64_id by (unfold is_u64; lia); done. }
  cbn [mbind outcome_bind]. change (2 ^ 10 - 1) with 1023.
  rewrite (u64_id (top_exponent t - exponent_bias t + 1023)) by (unfold is_u64; lia).
  rewrite !shiftl_pow by lia. rewrite !u64_id by (unfold is_u64; lia).
  by rewrite Z.lor_comm, lor_disjoint by lia.
Qed.

Lemma float_range t p :
  float_ok t -> Zpos p = top_mantissa t * 2 ^ (52 - mantissa t) + 2 ^ 52 ->
  let ex := top_exponent t - exponent_bias t - 52 in
  max t = Some (Ok (Double (S754_finite false p ex))) /\
  min t = Some (Ok (Double (S754_finite true p ex))).
Proof.
  intros Hok Hp ex. pose proof (float_fields t Hok) as (Fm & Fe & Fb & Fd).
  destruct (floating_point_max_raw_spec t Hok) as [Hraw Hr].
  destruct Hok as (Hm & He & Hsg & Hb & Hn & Hi).
  assert (is_floating_point t = true) as Hfp by (apply Z.ltb_lt; lia).
  set (E := top_exponent t - exponent_bias t + 1023) in *.
  set (M := top_mantissa t * 2 ^ (52 - mantissa t)) in *.
  assert (ex = E - 1075) as Hex by (unfold ex, E; lia).
  unfold max, min, raw_max, raw_min, floating_point_max, is_signed.
  rewrite Hfp, Hsg, Hraw, Hb, Hex. cbn [mbind outcome_bind option_bind visit_sub torch_check].
  assert (double_of_bits (E * 2 ^ 52 + M) = S754_finite false p (E - 1075)) as ->
    by exact (double_normal false E M p ltac:(lia) Hr Hp).
  assert (Z.lor (E * 2 ^ 52 + M) (Z.shiftl 1 63) = Z.b2z true * 2 ^ 63 + (E * 2 ^ 52 + M)) as ->.
  { rewrite shiftl_pow by lia. rewrite Z.lor_comm. apply lor_disjoint; lia. }
  rewrite (double_normal true E M p ltac:(lia) Hr Hp). done.
Qed.

(** ** Claims *)

(** The packed identifier is lossless: it fits 58 bits of the [int64_t], the
    type is recovered from it exactly (negative biases included), and two types
    compare equal exactly when their identifiers do. *)
Theorem id_roundtrip (t t' : ScalarType) :
  wf t -> wf t' ->
  0 <= id t < 2 ^ id_size_bits /\ from_id (id t) = t /\ (eqb t t' = true <-> id t = id t').
Proof.
  intros H1 H2. destruct (from_id_id t H1) as [E1 R1], (from_id_id t' H2) as [E2 _].
  split; [done|]. split; [done|]. rewrite eqb_eq. split; [by intros ->|]. congruence.
Qed.

Lemma id_roundtrip_witness :
  from_id (id (mkScalar 4 3 true (-7) true 2)) = mkScalar 4 3 true (-7) true 2.
Proof.
  assert (wf (mkScalar 4 3 true (-7) true 2)) as Hw by (unfold wf, is_u8, is_i32; simpl; lia).
  apply (id_roundtrip (mkScalar 4 3 true (-7) true 2) (mkScalar 4 3 true (-7) true 2) Hw Hw).
Defined.

(** Range of an integer type of up to 62 magnitude bits: no overflow, no
    exception, the bounds are those of the two's complement or unsigned codes
    shifted by the bias, and there are exactly [2^size_bits] values. *)
Theorem integer_bounds (t : ScalarType) :
  wf t -> is_integer t = true -> mantissa t <= 62 ->
  max t = Some (Ok (Int64 (integer_max t))) /\ min t = Some (Ok (Int64 (integer_min t))) /\
  integer_max t - integer_min t + 1 = 2 ^ size_bits t.
Proof.
  intros Hwf Hi Hm. destruct (integer_range t Hwf Hi Hm) as [E1 E2]. split_and!; [done|done|].
  destruct Hwf as (_ & Hm' & _). unfold is_u8 in Hm'. apply Z.eqb_eq in Hi.
  unfold integer_max, integer_min, size_bits, is_signed. rewrite Hi, Z.add_0_r.
  destruct (signed_ t); cbn [Z.b2z].
  - rewrite Z.pow_add_r by lia. lia.
  - rewrite Z.add_0_r. lia.
Qed.

Lemma integer_bounds_witness :
  max kU4B8 = Some (Ok (Int64 7)) /\ min kU4B8 = Some (Ok (Int64 (-8))).
Proof.
  destruct (integer_bounds kU4B8) as (H1 & H2 & _); [|reflexivity|unfold kU4B8; simpl; lia|].
  - unfold wf, is_u8, is_i32, kU4B8. simpl. unfold NAN_IEEE_754. lia.
  - split; [exact H1|exact H2].
Defined.

(** Range of a floating-point type: the bounds are plus and minus the double
    whose significand and exponent are the largest fields the type allows, with
    the all-ones code given up for NaN as the representation says. *)
Theorem float_bounds (t : ScalarType) (p : positive) :
  float_ok t -> Zpos p = top_mantissa t * 2 ^ (52 - mantissa t) + 2 ^ 52 ->
  let ex := top_exponent t - exponent_bias t - 52 in
  max t = Some (Ok (Double (S754_finite false p ex))) /\
  min t = Some (Ok (Double (S754_finite true p ex))).
Proof. apply float_range. Qed.

(** The largest float8 e4m3fn is 448 = 7 * 2^6. *)
Lemma float_bounds_witness :
  exists t, kFE4M3fn = Ok t /\
    max t = Some (Ok (Double (S754_finite false (7 * 2 ^ 50) (6 - 50)))).
Proof.
  exists (mkScalar 4 3 true 0 true 2). split; [reflexivity|].
  apply (float_bounds (mkScalar 4 3 true 0 true 2) (7 * 2 ^ 50)).
  - unfold float_ok, NAN_IEEE_754. simpl. lia.
  - reflexivity.
Defined.

(** The bounds of the unsigned exponent-only type [kFE8M0fnu] are not
    computed: with no mantissa bits the NaN adjustment wraps [max_mantissa] around
    and [max] yields minus infinity, while [min] refuses unsigned floats. *)
Theorem e8m0_bounds_wrong :
  max kFE8M0fnu = Some (Ok (Double (S754_infinity true))) /\
  min kFE8M0fnu
  = Some (Throw "We currently assume all floating point types are signed").
Proof. vm_compute. split; reflexivity. Qed.

(** The printed names of the predefined types. *)
Lemma names :
  map str [kS4; kU4; kU4B8; kS8; kU8; kU8B128] = ["int4"; "uint4"; "uint4b8"; "int8"; "uint8"; "uint8b128"]%string /\
  map (fun t => match t with Ok t => str t | Throw m => m end)
    [kFE2M1f; kFE3M2f; kFE2M3f; kFE4M3fn; kFE5M2; kFE8M7; kFE5M10]
  = ["float4_e2m1f"; "float6_e3m2f"; "float6_e2m3f"; "float8_e4m3fn"; "float8_e5m2";
     "float16_e8m7"; "float16_e5m10"]%string.
Proof. vm_compute. split; reflexivity. Qed.

End Scalar.
