(* ===== verification/Arrays.v ===== *)
(** * Flat tensors and loops

    The batch kernels of [csrc/cpu] work on raw pointers into contiguous tensors.
    A buffer is the list of its elements, an access outside it is [None] (the
    language leaves it undefined), and a kernel returns [Some] of the updated
    buffers.  A counted loop runs its body over a list of indices: in order for a
    plain [for], in any order for an [omp parallel for]. *)

From S2P Require Import Prelude.

#[local] Open Scope Z_scope.

(** ** Element and range access *)

Definition rd {A} (a : list A) (i : Z) : option A :=
  if 0 <=? i then a !! Z.to_nat i else None.

Definition wr {A} (a : list A) (i : Z) (v : A) : option (list A) :=
  if (0 <=? i) && (i <? Z.of_nat (length a)) then Some (<[Z.to_nat i := v]> a) else None.

(** [n] consecutive elements from [off]; a negative count is a huge [size_t]. *)
Definition rd_range {A} (a : list A) (off n : Z) : option (list A) :=
  if (0 <=? off) && (0 <=? n) && (off + n <=? Z.of_nat (length a))
  then Some (take (Z.to_nat n) (drop (Z.to_nat off) a)) else None.

Definition wr_range {A} (a : list A) (off : Z) (vs : list A) : option (list A) :=
  if (0 <=? off) && (off + Z.of_nat (length vs) <=? Z.of_nat (length a))
  then Some (take (Z.to_nat off) a ++ vs ++ drop (Z.to_nat off + length vs) a) else None.

(** [std::fill(p + lo, p + hi, v)] *)
Definition fill {A} (a : list A) (lo hi : Z) (v : A) : option (list A) :=
  if lo <=? hi then wr_range a lo (replicate (Z.to_nat (hi - lo)) v) else None.

(** [std::iota(p + lo, p + hi, v)] *)
Definition iota (a : list Z) (lo hi v : Z) : option (list Z) :=
  if lo <=? hi then wr_range a lo (seqZ v (hi - lo)) else None.

(** [std::memcpy(dst + doff, src + soff, n * sizeof(T))] between two buffers. *)
Definition memcpy_range {A} (dst : list A) (doff : Z) (src : list A) (soff n : Z)
  : option (list A) :=
  vs ← rd_range src soff n; wr_range dst doff vs.

(** ** Loops *)

Fixpoint for_each {S} (ix : list Z) (body : Z -> S -> option S) (st : S) : option S :=
  match ix with
  | [] => Some st
  | i :: ix => st ← body i st; for_each ix body st
  end.

(** [for (i = lo; i < hi; ++i)] *)
Definition for_range {S} (lo hi : Z) (body : Z -> S -> option S) (st : S) : option S :=
  for_each (seqZ lo (hi - lo)) body st.

(** [for (i = lo; i < hi; i += step)]; a step that is not positive never ends. *)
Fixpoint stepping {S} (fuel : nat) (i hi step : Z) (body : Z -> S -> option S) (st : S) : option S :=
  if hi <=? i then Some st else
  match fuel with
  | O => None
  | Datatypes.S fuel => st ← body i st; stepping fuel (i + step) hi step body st
  end.

Definition for_step {S} (lo hi step : Z) (body : Z -> S -> option S) (st : S) : option S :=
  stepping (Z.to_nat (hi - lo)) lo hi step body st.

(** An [omp parallel for] over [0 .. n-1] runs its iterations in some order. *)
Class Schedule := schedule : Z -> list Z.
Class ScheduleOk `{Schedule} : Prop := schedule_perm n : schedule n ≡ₚ seqZ 0 n.

Definition parallel_for `{Schedule} {S} (n : Z) (body : Z -> S -> option S) (st : S) : option S :=
  for_each (schedule n) body st.

(** Two schedules used in the witnesses. *)
Definition in_order : Schedule := fun n => seqZ 0 n.
Definition backwards : Schedule := fun n => rev (seqZ 0 n).

Lemma in_order_ok : @ScheduleOk in_order.
Proof. intros n. done. Qed.
Lemma backwards_ok : @ScheduleOk backwards.
Proof. intros n. apply Permutation_sym, Permutation_rev. Qed.

(** ** Laws of the accesses *)

Lemma rd_Some {A} (a : list A) i x : rd a i = Some x -> 0 <= i < Z.of_nat (length a).
Proof.
  unfold rd. destruct (Z.leb_spec 0 i); [|done]. intros Hl%lookup_lt_Some. lia.
Qed.

Lemma rd_lookup {A} (a : list A) i : 0 <= i -> rd a i = a !! Z.to_nat i.
Proof. intros. unfold rd. by rewrite (proj2 (Z.leb_le 0 i)) by done. Qed.

Lemma rd_is_Some {A} (a : list A) i :
  0 <= i < Z.of_nat (length a) -> exists x, rd a i = Some x.
Proof.
  intros Hi. rewrite rd_lookup by lia.
  destruct (lookup_lt_is_Some_2 a (Z.to_nat i)) as [x Hx]; [lia|]. by exists x.
Qed.

Lemma rd_total `{Inhabited A} (a : list A) i :
  0 <= i < Z.of_nat (length a) -> rd a i = Some (a !!! Z.to_nat i).
Proof. intros Hi. rewrite rd_lookup by lia. apply list_lookup_lookup_total_lt. lia. Qed.

Lemma length_wr_range {A} (a : list A) off vs a' :
  wr_range a off vs = Some a' -> length a' = length a.
Proof.
  unfold wr_range. case_match eqn:E; [|done]. intros [= <-].
  apply andb_prop in E as [?%Z.leb_le ?%Z.leb_le].
  rewrite !length_app, length_take, length_drop. lia.
Qed.

Lemma wr_range_ok {A} (a : list A) off vs :
  0 <= off -> off + Z.of_nat (length vs) <= Z.of_nat (length a) ->
  exists a', wr_range a off vs = Some a' /\ length a' = length a /\
    (forall k v, vs !! k = Some v -> rd a' (off + Z.of_nat k) = Some v) /\
    (forall j, ~ (off <= j < off + Z.of_nat (length vs)) -> rd a' j = rd a j).
Proof.
  intros Ho Hl. unfold wr_range.
  rewrite (proj2 (Z.leb_le 0 off)), (proj2 (Z.leb_le _ _)) by lia. simpl. eexists.
  split; [done|]. split; [rewrite !length_app, length_take, length_drop; lia|].
  assert (length (take (Z.to_nat off) a) = Z.to_nat off) as Ht by (rewrite length_take; lia).
  split.
  - intros k v Hk. rewrite rd_lookup by lia. pose proof (lookup_lt_Some _ _ _ Hk).
    rewrite lookup_app_r by lia. rewrite Ht, lookup_app_l by lia. rewrite <- Hk. f_equal. lia.
  - intros j Hj. unfold rd. destruct (Z.leb_spec 0 j); [|done].
    destruct (Z.lt_ge_cases j off).
    + rewrite lookup_app_l by lia. apply lookup_take_lt. lia.
    + rewrite lookup_app_r, Ht by lia. rewrite lookup_app_r, lookup_drop by lia. f_equal. lia.
Qed.

Lemma fill_is {A} (a : list A) lo hi v :
  lo <= hi -> fill a lo hi v = wr_range a lo (replicate (Z.to_nat (hi - lo)) v).
Proof. intros. unfold fill. by rewrite (proj2 (Z.leb_le _ _)) by done. Qed.

Lemma iota_is a lo hi v : lo <= hi -> iota a lo hi v = wr_range a lo (seqZ v (hi - lo)).
Proof. intros. unfold iota. by rewrite (proj2 (Z.leb_le _ _)) by done. Qed.

Lemma rd_range_ok {A} (a : list A) off n :
  0 <= off -> 0 <= n -> off + n <= Z.of_nat (length a) ->
  exists vs, rd_range a off n = Some vs /\ Z.of_nat (length vs) = n /\
    forall k, (Z.of_nat k < n) -> vs !! k = rd a (off + Z.of_nat k).
Proof.
  intros Ho Hn Hl. unfold rd_range.
  rewrite (proj2 (Z.leb_le 0 off)), (proj2 (Z.leb_le 0 n)), (proj2 (Z.leb_le _ _)) by lia. simpl.
  eexists. split; [done|]. split; [rewrite length_take, length_drop; lia|].
  intros k Hk. rewrite lookup_take_lt, lookup_drop by lia. rewrite rd_lookup by lia. f_equal. lia.
Qed.

(** A single write is a range of one element. *)
Lemma wr_is_range {A} (a : list A) i v : wr a i v = wr_range a i [v].
Proof.
  unfold wr, wr_range. simpl. destruct (Z.leb_spec 0 i); [|done]. simpl.
  destruct (Z.ltb_spec i (Z.of_nat (length a))), (Z.leb_spec (i + Z.of_nat 1) (Z.of_nat (length a)));
    try lia; simpl; try done.
  f_equal. rewrite insert_take_drop by lia. by rewrite Nat.add_1_r.
Qed.

(** Adjacent ranges join. *)
Lemma wr_range_app {A} (a : list A) off us vs :
  0 <= off -> off + Z.of_nat (length (us ++ vs)) <= Z.of_nat (length a) ->
  (a' ← wr_range a off us; wr_range a' (off + Z.of_nat (length us)) vs) = wr_range a off (us ++ vs).
Proof.
  intros Ho Hl. rewrite length_app in Hl.
  assert (length (take (Z.to_nat off) a) = Z.to_nat off) as Ht by (rewrite length_take; lia).
  assert (wr_range a off us
          = Some (take (Z.to_nat off) a ++ us ++ drop (Z.to_nat off + length us) a)) as ->.
  { unfold wr_range. by rewrite (proj2 (Z.leb_le 0 off)), (proj2 (Z.leb_le _ _)) by lia. }
  cbn [mbind option_bind]. unfold wr_range. rewrite !length_app, Ht, length_drop.
  rewrite !(proj2 (Z.leb_le _ _)) by lia. cbn [andb]. f_equal.
  rewrite (app_assoc (take _ a) us). rewrite take_app_length' by (rewrite length_app; lia).
  rewrite <- !app_assoc. do 3 f_equal. rewrite (app_assoc (take _ a) us).
  rewrite drop_app_ge by (rewrite length_app; lia). rewrite drop_drop. f_equal.
  rewrite length_app. lia.
Qed.

Lemma wr_range_nil {A} (a : list A) off :
  0 <= off <= Z.of_nat (length a) -> wr_range a off [] = Some a.
Proof.
  intros Ho. unfold wr_range. simpl.
  rewrite (proj2 (Z.leb_le 0 off)), (proj2 (Z.leb_le _ _)) by lia. simpl.
  by rewrite Nat.add_0_r, take_drop.
Qed.

(** ** Laws of the loops *)

Lemma for_each_app {S} ix js (body : Z -> S -> option S) st :
  for_each (ix ++ js) body st = (st ← for_each ix body st; for_each js body st).
Proof.
  revert st. induction ix as [|i ix IH]; intros st; simpl; [done|].
  destruct (body i st); simpl; [apply IH|done].
Qed.

Lemma for_range_each {S} lo hi (body : Z -> S -> option S) st :
  for_range lo hi body st = for_each (seqZ lo (hi - lo)) body st.
Proof. done. Qed.

(** Total-correctness rule for a counted loop. *)
Lemma for_range_inv {S} (I : Z -> S -> Prop) lo hi body st :
  lo <= hi -> I lo st ->
  (forall i s, lo <= i < hi -> I i s -> exists s', body i s = Some s' /\ I (i + 1) s') ->
  exists st', for_range lo hi body st = Some st' /\ I hi st'.
Proof.
  intros Hle H0 Hstep. unfold for_range.
  assert (forall n lo' st, Z.of_nat n = hi - lo' -> lo <= lo' -> I lo' st ->
    exists st', for_each (seqZ lo' (hi - lo')) body st = Some st' /\ I hi st') as Hn.
  { induction n as [|n IH]; intros lo' s Hn Hlo Hs.
    - rewrite seqZ_nil by lia. exists s. replace hi with lo' by lia. done.
    - rewrite seqZ_cons by lia. simpl. destruct (Hstep lo' s) as (s1 & -> & Hs1); [lia|done|].
      simpl. replace (Z.pred (hi - lo')) with (hi - (lo' + 1)) by lia.
      rewrite <- Z.add_1_r. apply IH; [lia|lia|done]. }
  apply (Hn (Z.to_nat (hi - lo))); [lia|lia|done].
Qed.

(** The same for a loop with a stride; [I i] holds at every head of the loop. *)
Lemma for_step_inv {S} (I : Z -> S -> Prop) lo hi step body st :
  1 <= step -> I lo st ->
  (forall i s, lo <= i < hi -> I i s -> exists s', body i s = Some s' /\ I (i + step) s') ->
  exists st' i', for_step lo hi step body st = Some st' /\ lo <= i' /\ hi <= i' /\
    (lo < hi -> i' < hi + step) /\ I i' st'.
Proof.
  intros Hs H0 Hstep. unfold for_step.
  assert (forall n i st, (Z.to_nat (hi - i) <= n)%nat -> lo <= i -> (lo < hi -> i < hi + step) -> I i st ->
    exists st' i', stepping n i hi step body st = Some st' /\ lo <= i' /\ hi <= i' /\
      (lo < hi -> i' < hi + step) /\ I i' st') as Hn.
  { induction n as [|n IH]; intros i s Hn Hlo Hup Hi; simpl; destruct (Z.leb_spec hi i) as [Hle|Hlt].
    - by exists s, i.
    - lia.
    - by exists s, i.
    - destruct (Hstep i s) as (s1 & -> & Hs1); [lia|done|]. simpl. apply IH; [lia..|done]. }
  apply Hn; [lia..|done].
Qed.

(** A loop that stores a computed element at consecutive places is one range. *)
Lemma for_range_store {A} (f : Z -> option A) (g : Z -> A) d lo hi (a : list A) :
  lo <= hi -> 0 <= d + lo -> d + hi <= Z.of_nat (length a) ->
  (forall i, lo <= i < hi -> f i = Some (g i)) ->
  for_range lo hi (fun i a => v ← f i; wr a (d + i) v) a
  = wr_range a (d + lo) (map g (seqZ lo (hi - lo))).
Proof.
  intros Hle Hlo Hhi Hf. unfold for_range.
  assert (forall n lo a, Z.of_nat n = hi - lo -> 0 <= d + lo -> d + hi <= Z.of_nat (length a) ->
    (forall i, lo <= i < hi -> f i = Some (g i)) ->
    for_each (seqZ lo (hi - lo)) (fun i a => v ← f i; wr a (d + i) v) a
    = wr_range a (d + lo) (map g (seqZ lo (hi - lo)))) as Hn.
  { clear. induction n as [|n IH]; intros lo a Hn Hlo Hhi Hf.
    - rewrite seqZ_nil by lia. simpl. symmetry. apply wr_range_nil. lia.
    - rewrite seqZ_cons by lia. simpl. rewrite (Hf lo) by lia. simpl. rewrite wr_is_range.
      replace (Z.pred (hi - lo)) with (hi - Z.succ lo) by lia.
      change (g lo :: map g (seqZ (Z.succ lo) (hi - Z.succ lo)))
        with ([g lo] ++ map g (seqZ (Z.succ lo) (hi - Z.succ lo))).
      rewrite <- wr_range_app; [|done|rewrite length_app, length_map, length_seqZ; simpl; lia].
      destruct (wr_range a (d + lo) [g lo]) as [a'|] eqn:E; [|done]. simpl.
      rewrite IH; [f_equal; lia|lia|lia|by rewrite (length_wr_range _ _ _ _ E)|].
      intros i Hi. apply Hf. lia. }
  apply (Hn (Z.to_nat (hi - lo))); [lia|done|done|done].
Qed.

(** Iterations that write disjoint ranges: the result does not depend on their
    order, every range holds its values, the rest is untouched. *)
Lemma for_each_ranges {A} ix (body : Z -> list A -> option (list A)) a0 off vals :
  NoDup ix ->
  (forall i, i ∈ ix -> 0 <= off i /\ off i + Z.of_nat (length (vals i)) <= Z.of_nat (length a0)) ->
  (forall i j, i ∈ ix -> j ∈ ix -> i <> j ->
     off i + Z.of_nat (length (vals i)) <= off j \/ off j + Z.of_nat (length (vals j)) <= off i) ->
  (forall i a, i ∈ ix -> length a = length a0 -> body i a = wr_range a (off i) (vals i)) ->
  exists a', for_each ix body a0 = Some a' /\ length a' = length a0 /\
    (forall i k v, i ∈ ix -> vals i !! k = Some v -> rd a' (off i + Z.of_nat k) = Some v) /\
    (forall j, (forall i, i ∈ ix -> ~ (off i <= j < off i + Z.of_nat (length (vals i)))) ->
       rd a' j = rd a0 j).
Proof.
  revert a0. induction ix as [|i ix IH]; intros a0 Hnd Hr Hd Hb.
  { exists a0. split_and!; [done|done|by intros i k v ?%not_elem_of_nil|done]. }
  apply NoDup_cons in Hnd as [Hni Hnd]. simpl.
  assert (i ∈ i :: ix) as Hi by constructor.
  assert (forall j, j ∈ ix -> j ∈ i :: ix) as Hcons by (intros; by constructor).
  rewrite Hb by done. destruct (Hr i Hi) as [Ho Hl].
  destruct (wr_range_ok a0 (off i) (vals i) Ho Hl) as (a1 & E & Hlen & Hin & Hout).
  rewrite E. simpl. destruct (IH a1) as (a' & E' & Hlen' & Hin' & Hout').
  - done.
  - rewrite Hlen. auto.
  - auto.
  - intros j a Hj Ha. apply Hb; [auto|congruence].
  - exists a'. split_and!; [done|congruence| |].
    + intros j k v [->|Hj]%elem_of_cons Hk; [|by apply Hin'].
      rewrite Hout'; [by apply Hin|]. intros m Hm.
      pose proof (lookup_lt_Some _ _ _ Hk).
      destruct (Hd i m Hi (Hcons m Hm)) as [?|?]; [by intros ->|lia|lia].
    + intros j Hj. rewrite Hout' by auto. apply Hout. auto.
Qed.

Lemma for_each_ext {S} ix (f g : Z -> S -> option S) (P : S -> Prop) st :
  P st -> (forall i s, i ∈ ix -> P s -> f i s = g i s) ->
  (forall i s s', i ∈ ix -> P s -> g i s = Some s' -> P s') ->
  for_each ix f st = for_each ix g st.
Proof.
  intros Hst Heq Hp. revert st Hst. induction ix as [|i ix IH]; intros st Hst; [done|]. simpl.
  rewrite Heq by (constructor || done). destruct (g i st) as [s1|] eqn:E; [|done]. simpl.
  apply IH.
  - intros j s Hj. apply Heq. by constructor.
  - intros j s s' Hj. apply Hp. by constructor.
  - eapply Hp; [constructor|done|done].
Qed.

(** Independent components of a loop state can be run separately. *)
Lemma for_each_pair {S T} ix (f : Z -> S -> option S) (g : Z -> T -> option T) s t :
  for_each ix (fun i st => s ← f i st.1; t ← g i st.2; Some (s, t)) (s, t)
  = (s ← for_each ix f s; t ← for_each ix g t; Some (s, t)).
Proof.
  revert s t. induction ix as [|i ix IH]; intros s t; simpl; [done|].
  destruct (f i s) as [s1|]; simpl; [|done].
  destruct (g i t) as [t1|]; simpl; [apply IH|]. by destruct (for_each ix f s1).
Qed.

(** An invariant over the set of iterations that are done. *)
Lemma for_each_done {S} (I : list Z -> S -> Prop) ix body st :
  NoDup ix -> I [] st ->
  (forall d i s, i ∈ ix -> i ∉ d -> I d s -> exists s', body i s = Some s' /\ I (i :: d) s') ->
  exists st', for_each ix body st = Some st' /\ I (rev ix) st'.
Proof.
  intros Hnd H0 Hstep.
  assert (forall js d s, NoDup js -> (forall i, i ∈ js -> i ∈ ix /\ i ∉ d) -> I d s ->
    exists st', for_each js body s = Some st' /\ I (rev js ++ d) st') as G.
  { induction js as [|i js IH]; intros d s Hn Hd Hs; simpl; [by exists s|].
    apply NoDup_cons in Hn as [Hi Hn]. destruct (Hd i) as [H1 H2]; [constructor|].
    destruct (Hstep d i s H1 H2 Hs) as (s1 & -> & Hs1). cbn [mbind option_bind].
    destruct (IH (i :: d) s1 Hn) as (st' & E & H'); [|done|].
    - intros j Hj. destruct (Hd j) as [? ?]; [by constructor|]. split; [done|].
      intros [->|?]%elem_of_cons; done.
    - exists st'. split; [done|]. by rewrite <- app_assoc. }
  destruct (G ix [] st Hnd) as (st' & E & H'); [|done|].
  - intros i Hi. split; [done|apply not_elem_of_nil].
  - rewrite app_nil_r in H'. by exists st'.
Qed.

(** Iterations that rework their own row of [n] cells, from its old contents. *)
Lemma for_each_rows {A} ix (body : Z -> list A -> option (list A)) a0 off n (g : Z -> Z -> A) :
  NoDup ix -> (forall i j, i ∈ ix -> j ∈ ix -> i <> j -> off i + n <= off j \/ off j + n <= off i) ->
  (forall i a, i ∈ ix -> length a = length a0 -> (forall k, 0 <= k < n -> rd a (off i + k) = rd a0 (off i + k)) ->
     exists a', body i a = Some a' /\ length a' = length a /\
       (forall k, 0 <= k < n -> rd a' (off i + k) = Some (g i k)) /\
       (forall j, ~ (off i <= j < off i + n) -> rd a' j = rd a j)) ->
  exists a', for_each ix body a0 = Some a' /\ length a' = length a0 /\
    (forall i k, i ∈ ix -> 0 <= k < n -> rd a' (off i + k) = Some (g i k)) /\
    (forall j, (forall i, i ∈ ix -> ~ (off i <= j < off i + n)) -> rd a' j = rd a0 j).
Proof.
  revert a0. induction ix as [|i ix IH]; intros a0 Hnd Hd Hb.
  { exists a0. split_and!; [done|done|by intros i k ?%not_elem_of_nil|done]. }
  apply NoDup_cons in Hnd as [Hni Hnd]. simpl.
  assert (i ∈ i :: ix) as Hi by constructor.
  assert (forall j, j ∈ ix -> j ∈ i :: ix) as Hcons by (intros; by constructor).
  assert (forall j, j ∈ ix -> i <> j) as Hne by (by intros j Hj ->).
  destruct (Hb i a0) as (a1 & -> & L1 & V1 & U1); [done..|]. cbn [mbind option_bind].
  assert (forall j k, j ∈ ix -> 0 <= k < n -> rd a1 (off j + k) = rd a0 (off j + k)) as Hkeep.
  { intros j k Hj Hk. apply U1. specialize (Hd i j Hi (Hcons j Hj) (Hne j Hj)). lia. }
  destruct (IH a1) as (a' & -> & L & V & U).
  - done.
  - auto.
  - intros j a Hj La Ha. apply Hb; [auto|congruence|]. intros k Hk. rewrite Ha by done. by apply Hkeep.
  - exists a'. split_and!; [done|congruence| |].
    + intros j k [->|Hj]%elem_of_cons Hk; [|by apply V]. rewrite U; [by apply V1|].
      intros m Hm. specialize (Hd i m Hi (Hcons m Hm) (Hne m Hm)). lia.
    + intros j Hj. rewrite U by auto. apply U1. auto.
Qed.

(** Iterations that each write their own cell. *)
Lemma for_each_cells {A} ix (body : Z -> list A -> option (list A)) a0 (g : Z -> A) :
  NoDup ix -> (forall i, i ∈ ix -> 0 <= i < Z.of_nat (length a0)) ->
  (forall i a, i ∈ ix -> length a = length a0 -> body i a = wr a i (g i)) ->
  exists a', for_each ix body a0 = Some a' /\ length a' = length a0 /\
    forall i, i ∈ ix -> rd a' i = Some (g i).
Proof.
  intros Hnd Hr Hb. destruct (for_each_ranges ix body a0 (fun i => i) (fun i => [g i])) as (a' & E & Hl & Hv & _).
  - done.
  - intros i Hi. specialize (Hr i Hi). simpl. lia.
  - intros i j Hi Hj Hij. simpl. lia.
  - intros i a Hi Ha. rewrite Hb by done. apply wr_is_range.
  - exists a'. split_and!; [done|done|]. intros i Hi. specialize (Hv i 0%nat (g i) Hi eq_refl).
    by rewrite Z.add_0_r in Hv.
Qed.

Lemma for_each_cells2 {A B} ix (body : Z -> list A * list B -> option (list A * list B)) a0 b0
    (g : Z -> A) (h : Z -> B) :
  NoDup ix -> (forall i, i ∈ ix -> 0 <= i < Z.of_nat (length a0)) ->
  (forall i, i ∈ ix -> 0 <= i < Z.of_nat (length b0)) ->
  (forall i st, i ∈ ix -> body i st = (a ← wr st.1 i (g i); b ← wr st.2 i (h i); Some (a, b))) ->
  exists a' b', for_each ix body (a0, b0) = Some (a', b') /\ length a' = length a0 /\ length b' = length b0 /\
    (forall i, i ∈ ix -> rd a' i = Some (g i)) /\ (forall i, i ∈ ix -> rd b' i = Some (h i)).
Proof.
  intros Hnd Ha Hb Hbody.
  rewrite (for_each_ext _ _ (fun i st => a ← wr st.1 i (g i); b ← wr st.2 i (h i); Some (a, b)) (fun _ => True));
    [|done|by intros; apply Hbody|done].
  rewrite (for_each_pair ix (fun i a => wr a i (g i)) (fun i b => wr b i (h i))).
  destruct (for_each_cells ix (fun i a => wr a i (g i)) a0 g) as (a' & -> & La & Va); [done..|].
  destruct (for_each_cells ix (fun i b => wr b i (h i)) b0 h) as (b' & -> & Lb & Vb); [done..|].
  by exists a', b'.
Qed.

Lemma elem_of_schedule `{ScheduleOk} n i : i ∈ schedule n <-> 0 <= i < n.
Proof. rewrite schedule_perm, elem_of_seqZ. lia. Qed.

Lemma NoDup_schedule `{ScheduleOk} n : NoDup (schedule n).
Proof. rewrite schedule_perm. apply NoDup_seqZ. Qed.

(** ** Ragged batches

    Request [i] of a batch owns the tokens [q[i] .. q[i+1])]: [q] is a table of
    cumulative offsets. *)

Definition at_ (a : list Z) (i : Z) : Z := a !!! Z.to_nat i.

Record offsets (q : list Z) (n lim : Z) : Prop := {
  of_length : Z.of_nat (length q) = n + 1;
  of_nonneg : 0 <= n;
  of_first : 0 <= at_ q 0;
  of_last : at_ q n <= lim;
  of_mono : forall i, 0 <= i < n -> at_ q i <= at_ q (i + 1)
}.

Lemma rd_at a i : 0 <= i < Z.of_nat (length a) -> rd a i = Some (at_ a i).
Proof. apply rd_total. Qed.

Lemma offsets_le q n lim i j : offsets q n lim -> 0 <= i <= j -> j <= n -> at_ q i <= at_ q j.
Proof.
  intros O Hij. assert (forall d, 0 <= d -> i + d <= n -> at_ q i <= at_ q (i + d)) as Hd.
  { apply (natlike_ind (fun d => i + d <= n -> at_ q i <= at_ q (i + d))).
    - by rewrite Z.add_0_r.
    - intros x Hx IH Hl. rewrite <- Z.add_1_r, Z.add_assoc.
      pose proof (of_mono _ _ _ O (i + x)). lia. }
  intros Hj. specialize (Hd (j - i)). replace (i + (j - i)) with j in Hd by lia. apply Hd; lia.
Qed.

Lemma offsets_bounds q n lim i :
  offsets q n lim -> 0 <= i <= n -> 0 <= at_ q i <= lim.
Proof.
  intros O Hi. pose proof (offsets_le _ _ _ 0 i O). pose proof (offsets_le _ _ _ i n O).
  pose proof (of_first _ _ _ O). pose proof (of_last _ _ _ O). lia.
Qed.

(** The iterations of a ragged loop fill their segments with [g i t], in any
    order, and touch nothing else. *)
Lemma for_each_ragged {A} (ix : list Z) q n (body : Z -> list A -> option (list A)) a0
    (g : Z -> Z -> A) :
  ix ≡ₚ seqZ 0 n -> offsets q n (Z.of_nat (length a0)) ->
  (forall i a, 0 <= i < n -> length a = length a0 ->
     body i a = wr_range a (at_ q i) (map (g i) (seqZ (at_ q i) (at_ q (i + 1) - at_ q i)))) ->
  exists a', for_each ix body a0 = Some a' /\ length a' = length a0 /\
    (forall i t, 0 <= i < n -> at_ q i <= t < at_ q (i + 1) -> rd a' t = Some (g i t)) /\
    (forall t, t < at_ q 0 \/ at_ q n <= t -> rd a' t = rd a0 t).
Proof.
  intros Hix O Hb.
  assert (forall i, i ∈ ix <-> 0 <= i < n) as Hin by (intros i; rewrite Hix, elem_of_seqZ; lia).
  assert (forall i, 0 <= i < n ->
    Z.of_nat (length (map (g i) (seqZ (at_ q i) (at_ q (i + 1) - at_ q i)))) = at_ q (i + 1) - at_ q i)
    as Hlen.
  { intros i Hi. rewrite length_map, length_seqZ. pose proof (of_mono _ _ _ O i Hi). lia. }
  destruct (for_each_ranges ix body a0 (at_ q)
    (fun i => map (g i) (seqZ (at_ q i) (at_ q (i + 1) - at_ q i)))) as (a' & E & Hl & Hv & Hu).
  - rewrite Hix. apply NoDup_seqZ.
  - intros i Hi%Hin. rewrite Hlen by done. pose proof (offsets_bounds _ _ _ i O).
    pose proof (offsets_bounds _ _ _ (i + 1) O). lia.
  - intros i j Hi%Hin Hj%Hin Hij. rewrite !Hlen by done.
    destruct (Z.lt_ge_cases i j).
    + pose proof (offsets_le _ _ _ (i + 1) j O). lia.
    + pose proof (offsets_le _ _ _ (j + 1) i O). lia.
  - intros i a Hi%Hin Ha. by apply Hb.
  - exists a'. split_and!; [done|done| |].
    + intros i t Hi Ht. replace t with (at_ q i + Z.of_nat (Z.to_nat (t - at_ q i))) at 1 by lia.
      apply Hv; [by apply Hin|]. rewrite list_lookup_fmap, lookup_seqZ_lt by lia. simpl.
      f_equal. f_equal. lia.
    + intros t Ht. apply Hu. intros i Hi%Hin. rewrite Hlen by done.
      pose proof (offsets_le _ _ _ 0 i O). pose proof (offsets_le _ _ _ (i + 1) n O). lia.
Qed.

(** ** Loops with [break]

    The body says whether the loop is left; the result says whether it was. *)

Fixpoint for_each_break {S} (ix : list Z) (body : Z -> S -> option (S * bool)) (st : S)
  : option (S * bool) :=
  match ix with
  | [] => Some (st, false)
  | i :: ix =>
      '(st, stop) ← body i st;
      if (stop : bool) then Some (st, true) else for_each_break ix body st
  end.

(** The values written before leaving: up to and including the first stop. *)
Fixpoint until_stop {A} (l : list (A * bool)) : list A * bool :=
  match l with
  | [] => ([], false)
  | (v, true) :: _ => ([v], true)
  | (v, false) :: l => let '(vs, b) := until_stop l in (v :: vs, b)
  end.

Lemma until_stop_length {A} (l : list (A * bool)) : (length (until_stop l).1 <= length l)%nat.
Proof.
  induction l as [|[v [|]] l IH]; simpl; [done|lia|]. destruct (until_stop l). simpl in *. lia.
Qed.

(** A loop that stores one element per iteration and may break. *)
Lemma for_each_break_store {A} (f : Z -> option (A * bool)) (g : Z -> A * bool) d lo n (a : list A) :
  0 <= n -> 0 <= d + lo -> d + lo + n <= Z.of_nat (length a) ->
  (forall i, lo <= i < lo + n -> f i = Some (g i)) ->
  for_each_break (seqZ lo n) (fun i a => '(v, stop) ← f i; a ← wr a (d + i) v; Some (a, stop)) a
  = let '(vs, b) := until_stop (map g (seqZ lo n)) in
    a ← wr_range a (d + lo) vs; Some (a, b).
Proof.
  intros Hn. revert lo a. revert n Hn.
  apply (natlike_ind (fun n => forall lo (a : list A), 0 <= d + lo ->
    d + lo + n <= Z.of_nat (length a) -> (forall i, lo <= i < lo + n -> f i = Some (g i)) -> _)).
  { intros lo a Hlo Hhi _. rewrite seqZ_nil by lia. simpl. by rewrite wr_range_nil by lia. }
  intros n Hn IH lo a Hlo Hhi Hf. rewrite seqZ_cons by lia. rewrite Z.pred_succ.
  cbn [for_each_break map until_stop]. rewrite (Hf lo) by lia. destruct (g lo) as [v b] eqn:Eg.
  cbn [mbind option_bind]. rewrite wr_is_range.
  destruct (wr_range_ok a (d + lo) [v]) as (a1 & E & Hl & _); [lia|simpl; lia|]. rewrite E.
  cbn [mbind option_bind]. destruct b; [simpl; by rewrite E|].
  rewrite IH; [|lia|lia|intros i Hi; apply Hf; lia].
  destruct (until_stop (map g (seqZ (Z.succ lo) n))) as [vs b] eqn:Eu. simpl.
  replace (d + Z.succ lo) with (d + lo + Z.of_nat (length [v])) by (simpl; lia).
  pose proof (until_stop_length (map g (seqZ (Z.succ lo) n))) as Hul.
  rewrite Eu, length_map, length_seqZ in Hul. simpl in Hul.
  change (v :: vs) with ([v] ++ vs).
  rewrite <- (wr_range_app a (d + lo) [v] vs) by (simpl; lia). rewrite E. done.
Qed.

Lemma until_stop_spec {A} (l : list (A * bool)) vs b :
  until_stop l = (vs, b) ->
  (forall k x, l !! k = Some x ->
     (forall j y, (j < k)%nat -> l !! j = Some y -> y.2 = false) -> vs !! k = Some x.1) /\
  (b = false <-> Forall (fun x => x.2 = false) l) /\ (b = false -> length vs = length l) /\
  (forall k j y, (j < k)%nat -> l !! j = Some y -> y.2 = true -> (length vs <= k)%nat).
Proof.
  revert vs b. induction l as [|[v st] l IH]; intros vs b E; simpl in E.
  { simplify_eq. split_and!; [done|done|done|]. intros k j y _ Hj. by rewrite lookup_nil in Hj. }
  destruct st.
  - simplify_eq. split_and!.
    + intros [|k] x Hk Hp; simplify_eq/=; [done|]. by specialize (Hp 0%nat _ ltac:(lia) eq_refl).
    + split; [done|]. by intros [? _]%Forall_cons.
    + done.
    + intros k j y Hj _ _. simpl. lia.
  - destruct (until_stop l) as [us c]. simplify_eq. destruct (IH us b eq_refl) as (I1 & I2 & I3 & I4).
    split_and!.
    + intros [|k] x Hk Hp; simplify_eq/=; [done|]. apply I1; [done|].
      intros j y Hj Hl. apply (Hp (S j)); [lia|done].
    + rewrite Forall_cons. naive_solver.
    + intros Hb. simpl. by rewrite I3.
    + intros k [|j] y Hj Hl Hy; simplify_eq/=.
      specialize (I4 (Nat.pred k) j y ltac:(lia) Hl Hy). lia.
Qed.

Lemma wr_ok {A} (a : list A) i v :
  0 <= i < Z.of_nat (length a) ->
  exists a', wr a i v = Some a' /\ length a' = length a /\ rd a' i = Some v /\
    forall j, j <> i -> rd a' j = rd a j.
Proof.
  intros Hi. rewrite wr_is_range.
  destruct (wr_range_ok a i [v]) as (a' & E & Hl & Hin & Hout); [lia|simpl; lia|].
  exists a'. split_and!; [done|done| |].
  - specialize (Hin 0%nat v eq_refl). by rewrite Z.add_0_r in Hin.
  - intros j Hj. apply Hout. simpl. lia.
Qed.

(** ** Copies in pieces *)

Lemma rd_range_is {A} (a : list A) off n : 0 <= off -> 0 <= n -> off + n <= Z.of_nat (length a) ->
  rd_range a off n = Some (take (Z.to_nat n) (drop (Z.to_nat off) a)).
Proof. intros. unfold rd_range. by rewrite !(proj2 (Z.leb_le _ _)) by lia. Qed.

Lemma wr_range_is {A} (a : list A) off vs : 0 <= off -> off + Z.of_nat (length vs) <= Z.of_nat (length a) ->
  wr_range a off vs = Some (take (Z.to_nat off) a ++ vs ++ drop (Z.to_nat off + length vs) a).
Proof. intros. unfold wr_range. by rewrite !(proj2 (Z.leb_le _ _)) by lia. Qed.

Lemma rd_range_app {A} (a : list A) off m n us vs : 0 <= n ->
  rd_range a off m = Some us -> rd_range a (off + m) n = Some vs -> rd_range a off (m + n) = Some (us ++ vs).
Proof.
  intros Hn. unfold rd_range. destruct (_ && _) eqn:E1; [|done]. destruct (_ && _ && _) eqn:E2 in |- *; [|done].
  intros [= <-] [= <-]. rewrite !andb_true_iff, !Z.leb_le in E1, E2.
  rewrite !(proj2 (Z.leb_le _ _)) by lia. simpl. f_equal.
  rewrite (Z2Nat.inj_add m n), <- take_take_drop, drop_drop by lia. do 3 f_equal. lia.
Qed.

(** Two adjacent copies are one. *)
Lemma memcpy_range_app {A} (dst src : list A) doff soff m n : 0 <= doff -> 0 <= soff -> 0 <= m -> 0 <= n ->
  soff + m + n <= Z.of_nat (length src) -> doff + m + n <= Z.of_nat (length dst) ->
  (d ← memcpy_range dst doff src soff m; memcpy_range d (doff + m) src (soff + m) n)
  = memcpy_range dst doff src soff (m + n).
Proof.
  intros. unfold memcpy_range. destruct (rd_range_ok src soff m) as (us & Eu & Lu & _); [lia..|].
  destruct (rd_range_ok src (soff + m) n) as (vs & Ev & Lv & _); [lia..|].
  rewrite (rd_range_app _ _ _ _ us vs), Eu by done. cbn [mbind option_bind].
  rewrite <- wr_range_app; [|done|rewrite length_app; lia]. rewrite Lu.
  destruct (wr_range dst doff us); [|done]. cbn [mbind option_bind]. by rewrite Ev.
Qed.

Lemma memcpy_range_nil {A} (dst src : list A) doff soff : 0 <= doff <= Z.of_nat (length dst) ->
  0 <= soff <= Z.of_nat (length src) -> memcpy_range dst doff src soff 0 = Some dst.
Proof.
  intros. unfold memcpy_range. rewrite rd_range_is by lia. cbn [mbind option_bind]. rewrite take_0.
  by apply wr_range_nil.
Qed.
