(* ===== verification/BlockTable.v ===== *)
(** * Paged KV-cache block tables ([csrc/cpu/block_table.cpp])

    Gathering the block-table rows of a batch and mapping every token of a batch
    to its slot in the paged cache.  Tensors are flat buffers with their row
    strides; see [Arrays]. *)

From S2P Require Import Prelude Arrays.

#[local] Open Scope Z_scope.

Module BlockTable.

Definition gather_block_table_cpu (block_table : list Z) (block_table_stride : Z)
    (output : list Z) (output_stride output_cols : Z) (idx_mapping num_blocks : list Z)
    (num_reqs_padded : Z) : option (list Z) :=
  let num_reqs := Z.of_nat (length idx_mapping) in
  output ←
    for_range 0 num_reqs (fun batch_idx output =>
      req_idx ← rd idx_mapping batch_idx;
      request_num_blocks ← rd num_blocks req_idx;
      memcpy_range output (batch_idx * output_stride) block_table
        (req_idx * block_table_stride) request_num_blocks) output;
  for_range num_reqs num_reqs_padded (fun batch_idx output =>
    fill output (batch_idx * output_stride) (batch_idx * output_stride + output_cols) 0) output.

(** The slot of one token, from its position and its request's block row. *)
Definition token_slot (block_table : list Z) (block_table_stride req_state_idx position block_size : Z)
  : option Z :=
  let block_idx := Z.quot position block_size in
  let block_offset := Z.rem position block_size in
  block_number ← rd block_table (req_state_idx * block_table_stride + block_idx);
  Some (block_number * block_size + block_offset).

Definition compute_slot_mapping_cpu (block_table : list Z) (block_table_stride : Z)
    (slot_mapping idx_mapping query_start_loc positions : list Z) (block_size : Z)
    (mapping_enabled : bool) (pad_slot_id : Z) : option (list Z) :=
  let num_reqs := Z.of_nat (length idx_mapping) in
  num_tokens ← rd query_start_loc num_reqs;
  slot_mapping ← fill slot_mapping num_tokens (Z.of_nat (length slot_mapping)) pad_slot_id;
  for_range 0 num_reqs (fun batch_idx slot_mapping =>
    req_state_idx ← rd idx_mapping batch_idx;
    start ← rd query_start_loc batch_idx;
    end_ ← rd query_start_loc (batch_idx + 1);
    if negb mapping_enabled || (req_state_idx <? 0) then fill slot_mapping start end_ pad_slot_id
    else
      for_range start end_ (fun token_idx slot_mapping =>
        slot ← (position ← rd positions token_idx;
                token_slot block_table block_table_stride req_state_idx position block_size);
        wr slot_mapping (0 + token_idx) slot) slot_mapping) slot_mapping.

(** ** Gathering rows *)

Section gather.
Variables block_table output idx_mapping num_blocks : list Z.
Variables bstride ostride cols padded : Z.

Definition gather_ok : Prop :=
  0 <= cols <= ostride /\
  Z.max (Z.of_nat (length idx_mapping)) padded * ostride <= Z.of_nat (length output) /\
  (forall b, 0 <= b < Z.of_nat (length idx_mapping) ->
     let req := at_ idx_mapping b in
     0 <= req < Z.of_nat (length num_blocks) /\ 0 <= at_ num_blocks req <= ostride /\
     0 <= req * bstride /\ req * bstride + at_ num_blocks req <= Z.of_nat (length block_table)).

Lemma gather_facts :
  gather_ok ->
  exists out, gather_block_table_cpu block_table bstride output ostride cols idx_mapping num_blocks
                padded = Some out /\ length out = length output /\
    (forall b j, 0 <= b < Z.of_nat (length idx_mapping) ->
       0 <= j < at_ num_blocks (at_ idx_mapping b) ->
       rd out (b * ostride + j) = rd block_table (at_ idx_mapping b * bstride + j)) /\
    (forall b j, Z.of_nat (length idx_mapping) <= b < padded -> 0 <= j < cols ->
       rd out (b * ostride + j) = Some 0).
Proof.
  intros (Hc & Hout & Hreq). unfold gather_block_table_cpu. set (n := Z.of_nat (length idx_mapping)) in *.
  assert (0 <= n) as Hn by lia.
  set (vals := fun b => default [] (rd_range block_table (at_ idx_mapping b * bstride)
                                      (at_ num_blocks (at_ idx_mapping b)))).
  assert (forall b, 0 <= b < n -> rd_range block_table (at_ idx_mapping b * bstride)
            (at_ num_blocks (at_ idx_mapping b)) = Some (vals b) /\
            Z.of_nat (length (vals b)) = at_ num_blocks (at_ idx_mapping b) /\
            forall k, Z.of_nat k < at_ num_blocks (at_ idx_mapping b) ->
              vals b !! k = rd block_table (at_ idx_mapping b * bstride + Z.of_nat k)) as Hv.
  { intros b Hb. destruct (Hreq b Hb) as (H1 & H2 & H3 & H4).
    destruct (rd_range_ok block_table (at_ idx_mapping b * bstride)
      (at_ num_blocks (at_ idx_mapping b))) as (vs & E & Hl & Hk); [lia..|].
    unfold vals. rewrite E. simpl. done. }
  destruct (for_each_ranges (seqZ 0 (n - 0)) (fun batch_idx output =>
      req_idx ← rd idx_mapping batch_idx; request_num_blocks ← rd num_blocks req_idx;
      memcpy_range output (batch_idx * ostride) block_table (req_idx * bstride) request_num_blocks)
    output (fun b => b * ostride) vals) as (o1 & E1 & Hl1 & Hin1 & Hout1).
  - apply NoDup_seqZ.
  - intros b Hb%elem_of_seqZ. destruct (Hv b) as (_ & -> & _); [lia|].
    destruct (Hreq b) as (_ & H2 & _); [lia|]. nia.
  - intros i j Hi%elem_of_seqZ Hj%elem_of_seqZ Hij.
    destruct (Hv i) as (_ & Li & _); [lia|]. destruct (Hv j) as (_ & Lj & _); [lia|].
    destruct (Hreq i) as (_ & H2 & _); [lia|]. destruct (Hreq j) as (_ & H2' & _); [lia|]. nia.
  - intros b a Hb%elem_of_seqZ _. destruct (Hreq b) as (H1 & _); [lia|].
    rewrite (rd_at idx_mapping b) by lia. cbn [mbind option_bind].
    rewrite (rd_at num_blocks) by lia. cbn [mbind option_bind].
    unfold memcpy_range. destruct (Hv b) as (-> & _); [lia|]. done.
  - unfold for_range. rewrite E1. cbn [mbind option_bind].
    destruct (for_each_ranges (seqZ n (padded - n)) (fun batch_idx output =>
      fill output (batch_idx * ostride) (batch_idx * ostride + cols) 0) o1
      (fun b => b * ostride) (fun _ => replicate (Z.to_nat cols) 0)) as (o2 & E2 & Hl2 & Hin2 & Hout2).
    + apply NoDup_seqZ.
    + intros b Hb%elem_of_seqZ. rewrite length_replicate, Hl1. nia.
    + intros i j Hi%elem_of_seqZ Hj%elem_of_seqZ Hij. rewrite length_replicate. nia.
    + intros b a _ _. rewrite fill_is by lia. do 3 f_equal. lia.
    + exists o2. rewrite E2. split_and!; [done|congruence| |].
      * intros b j Hb Hj. destruct (Hv b Hb) as (_ & Hlen & Hk).
        destruct (Hreq b Hb) as (_ & H2 & _).
        rewrite Hout2 by (intros i Hi%elem_of_seqZ; rewrite length_replicate; nia).
        replace (b * ostride + j) with (b * ostride + Z.of_nat (Z.to_nat j)) by lia.
        destruct (lookup_lt_is_Some_2 (vals b) (Z.to_nat j)) as [v Hvj]; [lia|].
        rewrite (Hin1 b (Z.to_nat j) v) by (done || apply elem_of_seqZ; lia).
        rewrite <- Hvj, Hk by lia. f_equal. lia.
      * intros b j Hb Hj. replace (b * ostride + j) with (b * ostride + Z.of_nat (Z.to_nat j)) by lia.
        apply Hin2; [apply elem_of_seqZ; lia|]. apply lookup_replicate_2. lia.
Qed.
End gather.

(** ** Slots *)

Section slots.
Variables block_table idx_mapping query_start_loc positions : list Z.
Variables bstride block_size pad_slot_id : Z.
Variable mapping_enabled : bool.

Let n := Z.of_nat (length idx_mapping).

(** Request [b] is mapped to cache slots (and not padded out). *)
Definition active (b : Z) : bool := mapping_enabled && (0 <=? at_ idx_mapping b).

(** The physical block that holds token [t] of request [b]. *)
Definition block_of (b t : Z) : Z :=
  at_ block_table (at_ idx_mapping b * bstride + at_ positions t / block_size).

Definition slot_of (b t : Z) : Z :=
  if active b then block_of b t * block_size + at_ positions t mod block_size else pad_slot_id.

Record slots_ok (slots : list Z) : Prop := {
  so_offsets : offsets query_start_loc n (Z.of_nat (length slots));
  so_positions : at_ query_start_loc n <= Z.of_nat (length positions);
  so_block_size : 0 < block_size;
  so_active : forall b t, 0 <= b < n -> at_ query_start_loc b <= t < at_ query_start_loc (b + 1) ->
    active b = true -> 0 <= at_ positions t /\
    0 <= at_ idx_mapping b * bstride + at_ positions t / block_size < Z.of_nat (length block_table)
}.

Lemma compute_slot_mapping_facts slots :
  slots_ok slots ->
  exists out, compute_slot_mapping_cpu block_table bstride slots idx_mapping query_start_loc positions
                block_size mapping_enabled pad_slot_id = Some out /\ length out = length slots /\
    (forall b t, 0 <= b < n -> at_ query_start_loc b <= t < at_ query_start_loc (b + 1) ->
       rd out t = Some (slot_of b t)) /\
    (forall t, at_ query_start_loc n <= t < Z.of_nat (length slots) -> rd out t = Some pad_slot_id).
Proof.
  intros S. pose proof (so_offsets _ S) as O. unfold compute_slot_mapping_cpu. fold n.
  pose proof (of_length _ _ _ O) as Hql. pose proof (of_nonneg _ _ _ O) as Hn.
  pose proof (offsets_bounds _ _ _ n O ltac:(lia)) as Hqn.
  rewrite rd_at by lia. cbn [mbind option_bind]. rewrite fill_is by lia.
  destruct (wr_range_ok slots (at_ query_start_loc n)
    (replicate (Z.to_nat (Z.of_nat (length slots) - at_ query_start_loc n)) pad_slot_id))
    as (s1 & -> & Hl1 & Hin1 & _); [lia|rewrite length_replicate; lia|]. cbn [mbind option_bind].
  destruct (for_each_ragged (seqZ 0 (n - 0)) query_start_loc n (fun batch_idx slot_mapping =>
    req_state_idx ← rd idx_mapping batch_idx;
    start ← rd query_start_loc batch_idx;
    end_ ← rd query_start_loc (batch_idx + 1);
    if negb mapping_enabled || (req_state_idx <? 0) then fill slot_mapping start end_ pad_slot_id
    else
      for_range start end_ (fun token_idx slot_mapping =>
        slot ← (position ← rd positions token_idx;
                token_slot block_table bstride req_state_idx position block_size);
        wr slot_mapping (0 + token_idx) slot) slot_mapping) s1 slot_of)
    as (out & E & Hl & Hin & Hout).
  - by rewrite Z.sub_0_r.
  - by rewrite Hl1.
  - intros b a Hb Ha. rewrite !rd_at by lia. cbn [mbind option_bind].
    pose proof (of_mono _ _ _ O b Hb) as Hm.
    pose proof (offsets_bounds _ _ _ b O ltac:(lia)) as Hq0.
    pose proof (offsets_bounds _ _ _ (b + 1) O ltac:(lia)) as Hq1.
    pose proof (offsets_le _ _ _ (b + 1) n O ltac:(lia) ltac:(lia)) as Hqn'.
    destruct (negb mapping_enabled || (at_ idx_mapping b <? 0)) eqn:Ea.
    + rewrite fill_is by done. f_equal.
      rewrite <- (length_seqZ (at_ query_start_loc b) (at_ query_start_loc (b + 1) - at_ query_start_loc b)).
      rewrite <- (const_fmap (fun _ => pad_slot_id)) by done. apply map_ext. intros t.
      unfold slot_of, active. by destruct mapping_enabled, (Z.leb_spec 0 (at_ idx_mapping b)),
        (Z.ltb_spec (at_ idx_mapping b) 0); try lia.
    + assert (active b = true) as Hact.
      { unfold active. apply orb_false_iff in Ea as [->%negb_false_iff Hi%Z.ltb_ge].
        by apply Z.leb_le. }
      rewrite (for_range_store _ (slot_of b)); [done|lia|lia|lia|].
      intros t Ht. destruct (so_active _ S b t Hb Ht Hact) as [Hp Hbt].
      pose proof (so_positions _ S). pose proof (so_block_size _ S).
      rewrite rd_at by lia. cbn [mbind option_bind]. unfold token_slot.
      rewrite Z.quot_div_nonneg, Z.rem_mod_nonneg by lia. rewrite rd_at by lia.
      unfold slot_of. by rewrite Hact.
  - rewrite (for_range_each 0 n), E. exists out. split_and!; [done|congruence|done|].
    intros t Ht. rewrite Hout by lia.
    replace t with (at_ query_start_loc n + Z.of_nat (Z.to_nat (t - at_ query_start_loc n))) by lia.
    apply Hin1. apply lookup_replicate_2. lia.
Qed.

(** Distinct tokens get distinct slots as soon as the cache blocks of the batch
    are not shared. *)
Lemma slot_of_inj b1 t1 b2 t2 :
  0 < block_size -> 0 <= at_ positions t1 -> 0 <= at_ positions t2 ->
  active b1 = true -> active b2 = true ->
  (block_of b1 t1 = block_of b2 t2 ->
   b1 = b2 /\ at_ positions t1 / block_size = at_ positions t2 / block_size) ->
  slot_of b1 t1 = slot_of b2 t2 -> b1 = b2 /\ at_ positions t1 = at_ positions t2.
Proof.
  intros Hbs Hp1 Hp2 Ha1 Ha2 Hblk E. unfold slot_of in E. rewrite Ha1, Ha2 in E.
  pose proof (Z.mod_pos_bound (at_ positions t1) block_size Hbs).
  pose proof (Z.mod_pos_bound (at_ positions t2) block_size Hbs).
  assert (block_of b1 t1 = block_of b2 t2 /\
          at_ positions t1 mod block_size = at_ positions t2 mod block_size) as [Eb Em]
    by (apply (Z.div_mod_unique block_size); lia).
  destruct (Hblk Eb) as [-> Ed]. split; [done|].
  rewrite (Z.div_mod (at_ positions t1) block_size), (Z.div_mod (at_ positions t2) block_size) by lia.
  congruence.
Qed.
End slots.

(** ** Claims *)

(** Slot mapping: for cumulative offsets and positions that fit, the kernel
    reads and writes only inside its tensors and gives every token of an active
    request the slot [block * block_size + offset] of its position, every token of
    an inactive request and every slot past the batch the padding id. *)
Theorem slot_mapping_spec (block_table idx_mapping query_start_loc positions slots : list Z)
    (bstride block_size pad : Z) (enabled : bool) :
  slots_ok block_table idx_mapping query_start_loc positions bstride block_size enabled slots ->
  let n := Z.of_nat (length idx_mapping) in
  exists out, compute_slot_mapping_cpu block_table bstride slots idx_mapping query_start_loc positions
                block_size enabled pad = Some out /\ length out = length slots /\
    (forall b t, 0 <= b < n -> at_ query_start_loc b <= t < at_ query_start_loc (b + 1) ->
       rd out t = Some (slot_of block_table idx_mapping positions bstride block_size pad enabled b t)) /\
    (forall t, at_ query_start_loc n <= t < Z.of_nat (length slots) -> rd out t = Some pad).
Proof. apply compute_slot_mapping_facts. Qed.

(** Two requests of 3 and 2 tokens, block size 2, one slot of padding. *)
Definition demo_table : list Z := [7; 9; 4; 5; 0; 0].

Lemma demo_slots_ok :
  slots_ok demo_table [1; 0] [0; 3; 5] [0; 1; 2; 2; 3] 2 2 true [8; 8; 8; 8; 8; 8].
Proof.
  split; [split|..]; try done.
  - intros i Hi. assert (i = 0 \/ i = 1) as [-> | ->] by (simpl in Hi; lia); vm_compute; discriminate.
  - intros b t Hb Ht _. assert (b = 0 \/ b = 1) as [-> | ->] by (simpl in Hb; lia).
    + change (0 <= t < 3) in Ht. assert (t = 0 \/ t = 1 \/ t = 2) as [-> | [-> | ->]] by lia;
        vm_compute; done.
    + change (3 <= t < 5) in Ht. assert (t = 3 \/ t = 4) as [-> | ->] by lia; vm_compute; done.
Qed.

Lemma slot_mapping_spec_witness :
  exists out, compute_slot_mapping_cpu demo_table 2 [8; 8; 8; 8; 8; 8] [1; 0] [0; 3; 5]
                [0; 1; 2; 2; 3] 2 true (-1) = Some out /\
    rd out 2 = Some (slot_of demo_table [1; 0] [0; 1; 2; 2; 3] 2 2 (-1) true 0 2).
Proof.
  destruct (slot_mapping_spec demo_table [1; 0] [0; 3; 5] [0; 1; 2; 2; 3] [8; 8; 8; 8; 8; 8]
              2 2 (-1) true demo_slots_ok) as (out & E & _ & Hs & _).
  exists out. split; [exact E|]. apply Hs; vm_compute; split; (reflexivity || discriminate).
Defined.

(** Gathering: every batch row holds the block row of its request, every
    padding row is zero, and nothing outside the tensors is touched. *)
Theorem gather_block_table_spec (block_table output idx_mapping num_blocks : list Z)
    (bstride ostride cols padded : Z) :
  gather_ok block_table output idx_mapping num_blocks bstride ostride cols padded ->
  exists out, gather_block_table_cpu block_table bstride output ostride cols idx_mapping num_blocks
                padded = Some out /\ length out = length output /\
    (forall b j, 0 <= b < Z.of_nat (length idx_mapping) ->
       0 <= j < at_ num_blocks (at_ idx_mapping b) ->
       rd out (b * ostride + j) = rd block_table (at_ idx_mapping b * bstride + j)) /\
    (forall b j, Z.of_nat (length idx_mapping) <= b < padded -> 0 <= j < cols ->
       rd out (b * ostride + j) = Some 0).
Proof. apply gather_facts. Qed.

Lemma gather_block_table_spec_witness :
  exists out, gather_block_table_cpu demo_table 2 [8; 8; 8; 8; 8; 8] 2 2 [1; 0] [1; 2; 0] 3 = Some out /\
    rd out 0 = Some 4 /\ rd out 4 = Some 0.
Proof.
  destruct (gather_block_table_spec demo_table [8; 8; 8; 8; 8; 8] [1; 0] [1; 2; 0] 2 2 2 3)
    as (out & E & _ & H1 & H2).
  - split; [lia|]. split; [vm_compute; discriminate|]. intros b Hb.
    assert (b = 0 \/ b = 1) as [-> | ->] by (simpl in Hb; lia); vm_compute; done.
  - exists out. split; [exact E|]. split.
    + exact (H1 0 0 ltac:(simpl; lia) ltac:(vm_compute; split; (reflexivity || discriminate))).
    + exact (H2 2 0 ltac:(simpl; lia) ltac:(lia)).
Defined.

End BlockTable.
