(* ===== verification/SpecDecode.v ===== *)
(** * Speculative decoding kernels ([csrc/cpu/spec_decode_utils.cpp])

    All kernels are [omp parallel for] loops over the requests of a batch: they
    run over a [Schedule], any order of the iterations.  Probabilities are IEEE
    single-precision numbers, the Standard Library's executable [spec_float] at
    precision 24 and exponent 128. *)

From Stdlib Require Import SpecFloat.
From S2P Require Import Prelude Arrays.

#[local] Open Scope Z_scope.

Module SpecDecode.

(** ** Single-precision arithmetic *)

Definition fdiv := SFdiv 24 128.
Definition fmul := SFmul 24 128.
Definition fsub := SFsub 24 128.
Definition fzero : spec_float := S754_zero false.
Definition fone : spec_float := S754_finite false (2 ^ 23) (-23).
Definition fminus_one : spec_float := S754_finite true (2 ^ 23) (-23).
(** [a > b], [a >= b] *)
Definition fgt (a b : spec_float) : bool := SFltb b a.
Definition fge (a b : spec_float) : bool := SFleb b a.

(** First draft token of a request in the cumulative table. *)
Definition draft_start (cu_draft : list Z) (req_idx : Z) : option Z :=
  if req_idx =? 0 then Some 0 else rd cu_draft (req_idx - 1).

Section kernels.
Context `{Schedule}.

(** ** Eagle metadata *)

Definition eagle_prepare_inputs_padded_kernel_impl
    (cu_draft valid_count query_loc indices_out rejected_out : list Z) (num_reqs : Z)
  : option (list Z * list Z) :=
  parallel_for num_reqs (fun req_idx st =>
    let '(indices_out, rejected_out) := st in
    start_idx ← draft_start cu_draft req_idx;
    cu ← rd cu_draft req_idx;
    let num_draft_tokens := cu - start_idx in
    num_valid_tokens ← rd valid_count req_idx;
    let num_rejected :=
      if 0 <? num_draft_tokens then num_draft_tokens + 1 - num_valid_tokens else 0 in
    loc ← rd query_loc (req_idx + 1);
    let q_last_tok_idx := i32 (loc - 1) in
    let index_to_sample := i32 (q_last_tok_idx - num_rejected) in
    indices_out ← wr indices_out req_idx index_to_sample;
    rejected_out ← wr rejected_out req_idx num_rejected;
    Some (indices_out, rejected_out)) (indices_out, rejected_out).

(** Counts the tokens of a row that are real vocabulary entries and remembers
    the last of them. *)
Definition count_valid (sampled_ids : list Z) (row vocab_size num_per_req : Z) : option (Z * Z) :=
  for_range 0 num_per_req (fun pos st =>
    let '(valid_count, last_valid_token) := st in
    token ← rd sampled_ids (row + pos);
    if negb (token =? -1) && (token <? vocab_size) then Some (valid_count + 1, token)
    else Some (valid_count, last_valid_token)) (0, -1).

Definition eagle_prepare_next_token_padded_kernel_impl
    (sampled_ids : list Z) (stride : Z) (discard_mask : list bool)
    (backup_ids next_ids_out valid_count_out : list Z)
    (vocab_size num_sampled_tokens_per_req num_reqs : Z) : option (list Z * list Z) :=
  parallel_for num_reqs (fun req_idx st =>
    let '(next_ids_out, valid_count_out) := st in
    '(valid_count, last_valid_token) ←
      count_valid sampled_ids (req_idx * stride) vocab_size num_sampled_tokens_per_req;
    discard ← rd discard_mask req_idx;
    if (discard : bool) then
      backup ← rd backup_ids req_idx;
      next_ids_out ← wr next_ids_out req_idx backup;
      valid_count_out ← wr valid_count_out req_idx 0;
      Some (next_ids_out, valid_count_out)
    else
      next ← (if 0 <? valid_count then Some last_valid_token else rd backup_ids req_idx);
      next_ids_out ← wr next_ids_out req_idx next;
      valid_count_out ← wr valid_count_out req_idx valid_count;
      Some (next_ids_out, valid_count_out)) (next_ids_out, valid_count_out).

Definition eagle_step_slot_mapping_metadata_kernel_impl
    (positions block_table : list Z) (bt_stride n_blocks_per_req : Z)
    (seq_lens out_clamped out_slot : list Z) (block_size max_model_len PAD_ID : Z)
  : option (list Z * list Z * list Z) :=
  let batch_size := Z.of_nat (length positions) in
  let input_batch_size := Z.of_nat (length out_slot) in
  parallel_for input_batch_size (fun req_idx st =>
    let '(seq_lens, out_clamped, out_slot) := st in
    if batch_size <=? req_idx then
      out_slot ← wr out_slot req_idx PAD_ID;
      Some (seq_lens, out_clamped, out_slot)
    else
      position ← rd positions req_idx;
      let new_position := position + 1 in
      let exceeds_max := max_model_len <=? new_position in
      let clamped_position := if exceeds_max then 0 else new_position in
      out_clamped ← wr out_clamped req_idx clamped_position;
      let block_number := Z.min (Z.quot clamped_position block_size) (n_blocks_per_req - 1) in
      block_id ← rd block_table (req_idx * bt_stride + block_number);
      let slot_id := block_id * block_size + Z.rem clamped_position block_size in
      out_slot ← wr out_slot req_idx (if exceeds_max then PAD_ID else slot_id);
      seq_len ← rd seq_lens req_idx;
      let new_seq_len := if exceeds_max then 1 else i32 (seq_len + 1) in
      let new_seq_len := Z.min new_seq_len (i32 max_model_len) in
      seq_lens ← wr seq_lens req_idx new_seq_len;
      Some (seq_lens, out_clamped, out_slot)) (seq_lens, out_clamped, out_slot).

(** ** Input expansion *)

Record EagleOut := mkEagleOut {
  out_ids : list Z; out_pos : list Z; out_rej_mask : list bool; out_mask : list bool;
  out_new_idx : list Z; out_hidden_map : list Z }.

(** One output token of a request. *)
Definition expand_token (target_ids : list Z) (req_idx q_start input_offset num_valid out_start
    start_pos bonus_token padding_token_id parallel_drafting_token_id total_input_tokens
    num_padding_slots_per_request j : Z) (o : EagleOut) : option EagleOut :=
  let out_idx := out_start + j in
  let is_valid := j <? num_valid in
  let is_bonus := j =? num_valid in
  let is_parallel := (num_valid <? j) && (j <? num_valid + num_padding_slots_per_request) in
  let is_rejected := num_valid + num_padding_slots_per_request <=? j in
  let in_idx := Z.min (q_start + input_offset + j) (total_input_tokens - 1) in
  token_id ←
    (if is_valid then rd target_ids in_idx
     else if is_bonus then Some bonus_token
     else if is_parallel then Some parallel_drafting_token_id
     else Some padding_token_id);
  ids ← wr (out_ids o) out_idx token_id;
  pos ← wr (out_pos o) out_idx (if is_rejected then 0 else start_pos + j);
  rej ← wr (out_rej_mask o) out_idx is_rejected;
  msk ← wr (out_mask o) out_idx is_parallel;
  new ← (if is_bonus || is_parallel then
           wr (out_new_idx o) (req_idx * num_padding_slots_per_request + (j - num_valid)) (i32 out_idx)
         else Some (out_new_idx o));
  Some (mkEagleOut ids pos rej msk new (out_hidden_map o)).

Definition copy_and_expand_eagle_inputs_kernel_impl
    (target_ids target_pos next_ids : list Z) (query_start query_end : list Z)
    (padding_token_id parallel_drafting_token_id total_input_tokens
     num_padding_slots_per_request : Z) (shift_input_ids : bool) (o : EagleOut) : option EagleOut :=
  let num_reqs := Z.of_nat (length query_end) in
  parallel_for num_reqs (fun req_idx o =>
    q_start ← rd query_start req_idx;
    next_q_start ← rd query_start (req_idx + 1);
    q_end ← rd query_end req_idx;
    let num_valid := if shift_input_ids then i32 (q_end - q_start) else i32 (q_end - q_start + 1) in
    let input_offset := if shift_input_ids then 1 else 0 in
    let out_start :=
      q_start + req_idx * (num_padding_slots_per_request - (if shift_input_ids then 1 else 0)) in
    let num_rejected := i32 (next_q_start - q_end - 1) in
    let total_output_tokens := num_valid + num_padding_slots_per_request + num_rejected in
    start_pos ← rd target_pos q_start;
    bonus_token ← rd next_ids req_idx;
    o ← for_range 0 total_output_tokens (fun j o =>
          expand_token target_ids req_idx q_start input_offset num_valid out_start start_pos bonus_token
            padding_token_id parallel_drafting_token_id total_input_tokens
            num_padding_slots_per_request j o) o;
    if shift_input_ids then
      hidden ← for_range 0 (i32 (next_q_start - q_start)) (fun j hidden =>
                 wr hidden (q_start + j) (i32 (out_start + j))) (out_hidden_map o);
      Some (mkEagleOut (out_ids o) (out_pos o) (out_rej_mask o) (out_mask o) (out_new_idx o) hidden)
    else Some o) o.

Record DflashOut := mkDflashOut {
  d_ids : list Z; d_ctx_pos : list Z; d_query_pos : list Z; d_ctx_slot : list Z;
  d_query_slot : list Z; d_token_idx : list Z }.

(** The slot of a position, its block index clamped to the table row. *)
Definition dflash_slot (block_table : list Z) (stride req_idx position block_size : Z) : option Z :=
  let block_num := Z.min (Z.quot position block_size) (stride - 1) in
  block_id ← rd block_table (req_idx * stride + block_num);
  Some (block_id * block_size + Z.rem position block_size).

Definition copy_and_expand_dflash_inputs_kernel_impl
    (next_ids target_pos block_table : list Z) (block_table_stride : Z) (query_start : list Z)
    (num_rejected_tokens : option (list Z)) (parallel_drafting_token_id block_size num_query_per_req
     num_speculative_tokens total_input_tokens : Z) (has_num_rejected : bool) (o : DflashOut)
  : option DflashOut :=
  let num_reqs := Z.of_nat (length query_start) - 1 in
  parallel_for num_reqs (fun req_idx o =>
    ctx_start ← rd query_start req_idx;
    ctx_end ← rd query_start (req_idx + 1);
    let num_ctx := i32 (ctx_end - ctx_start) in
    valid_ctx_end ←
      match num_rejected_tokens with
      | Some rejected =>
          if has_num_rejected then r ← rd rejected req_idx; Some (ctx_end - r) else Some ctx_end
      | None => Some ctx_end
      end;
    let valid_ctx_end := Z.max valid_ctx_end (i32 (ctx_start + 1)) in
    last_pos ← rd target_pos (valid_ctx_end - 1);
    o ← for_range 0 num_ctx (fun j o =>
          let ctx_idx := ctx_start + j in
          position ← rd target_pos (Z.min ctx_idx (total_input_tokens - 1));
          slot ← dflash_slot block_table block_table_stride req_idx position block_size;
          cp ← wr (d_ctx_pos o) ctx_idx position;
          cs ← wr (d_ctx_slot o) ctx_idx slot;
          Some (mkDflashOut (d_ids o) cp (d_query_pos o) cs (d_query_slot o) (d_token_idx o))) o;
    for_range 0 num_query_per_req (fun query_off o =>
      let query_out := req_idx * num_query_per_req + query_off in
      let position := last_pos + 1 + query_off in
      slot ← dflash_slot block_table block_table_stride req_idx position block_size;
      qp ← wr (d_query_pos o) query_out position;
      qs ← wr (d_query_slot o) query_out slot;
      id ← (if query_off =? 0 then rd next_ids req_idx else Some parallel_drafting_token_id);
      ids ← wr (d_ids o) query_out id;
      ti ← (if 0 <? query_off then
              wr (d_token_idx o) (req_idx * num_speculative_tokens + (query_off - 1)) (i32 query_out)
            else Some (d_token_idx o));
      Some (mkDflashOut ids (d_ctx_pos o) qp (d_ctx_slot o) qs ti)) o) o.

(** ** Rejection sampling *)

(** The row of a request: one token per draft position until a rejection, the
    bonus token after the last draft when nothing was rejected. *)
Definition verify_row (out : list Z) (row num_draft_tokens : Z) (pick : Z -> option (Z * bool))
    (bonus : option Z) : option (list Z) :=
  '(out, rejected) ←
    for_each_break (seqZ 0 num_draft_tokens) (fun pos out =>
      '(token, reject) ← pick pos; out ← wr out (row + pos) token; Some (out, reject)) out;
  if (rejected : bool) then Some out
  else bonus_id ← bonus; wr out (row + num_draft_tokens) bonus_id.

(** Greedy: the target's token, rejecting the draft that differs from it. *)
Definition pick_greedy (draft_ids target_argmax : list Z) (start_idx pos : Z) : option (Z * bool) :=
  target_id ← rd target_argmax (start_idx + pos);
  draft_id ← rd draft_ids (start_idx + pos);
  Some (target_id, negb (draft_id =? target_id)).

(** Whether the mask (absent: all false) is set for a request. *)
Definition mask_at (m : option (list bool)) (i : Z) : option bool :=
  match m with None => Some false | Some l => rd l i end.

Definition rejection_greedy_sample_kernel_impl (out : list Z) (out_stride : Z)
    (cu_draft draft_ids target_argmax bonus_ids : list Z) (bonus_stride : Z)
    (is_greedy : option (list bool)) : option (list Z) :=
  let batch_size := Z.of_nat (length cu_draft) in
  parallel_for batch_size (fun req_idx out =>
    skip ← match is_greedy with None => Some false | Some l => g ← rd l req_idx; Some (negb g) end;
    if (skip : bool) then Some out
    else
      start_idx ← draft_start cu_draft req_idx;
      end_idx ← rd cu_draft req_idx;
      verify_row out (req_idx * out_stride) (end_idx - start_idx)
        (pick_greedy draft_ids target_argmax start_idx) (rd bonus_ids (req_idx * bonus_stride))) out.

(** Random: the draft with probability p/q, otherwise the recovered token. *)
Definition pick_random (draft_ids recovered_ids : list Z) (draft_probs : option (list spec_float))
    (draft_probs_stride : Z) (target_probs : list spec_float) (target_stride : Z)
    (uniform_probs : list spec_float) (start_idx pos : Z) : option (Z * bool) :=
  let token_idx := start_idx + pos in
  draft_id ← rd draft_ids token_idx;
  p ← rd target_probs (token_idx * target_stride + draft_id);
  q ← match draft_probs with
      | None => Some fone
      | Some dp => rd dp (token_idx * draft_probs_stride + draft_id)
      end;
  uniform_p ← rd uniform_probs token_idx;
  let ratio := if fgt q fzero then fdiv p q else fzero in
  if fge ratio uniform_p then Some (draft_id, false)
  else recovered ← rd recovered_ids token_idx; Some (recovered, true).

Definition rejection_random_sample_kernel_impl (out : list Z) (out_stride : Z)
    (cu_draft draft_ids : list Z) (draft_probs : option (list spec_float)) (draft_probs_stride : Z)
    (target_probs : list spec_float) (target_stride : Z) (bonus_ids : list Z) (bonus_stride : Z)
    (recovered_ids : list Z) (uniform_probs : list spec_float) (is_greedy : option (list bool))
  : option (list Z) :=
  let batch_size := Z.of_nat (length cu_draft) in
  parallel_for batch_size (fun req_idx out =>
    skip ← mask_at is_greedy req_idx;
    if (skip : bool) then Some out
    else
      start_idx ← draft_start cu_draft req_idx;
      end_idx ← rd cu_draft req_idx;
      verify_row out (req_idx * out_stride) (end_idx - start_idx)
        (pick_random draft_ids recovered_ids draft_probs draft_probs_stride target_probs target_stride
           uniform_probs start_idx) (rd bonus_ids (req_idx * bonus_stride))) out.

Definition expand_kernel_impl (out input cu_tokens : list Z) (replace_from replace_to : Z)
  : option (list Z) :=
  let batch_size := Z.of_nat (length cu_tokens) in
  parallel_for batch_size (fun req_idx out =>
    start_idx ← draft_start cu_tokens req_idx;
    end_idx ← rd cu_tokens req_idx;
    v ← rd input req_idx;
    let v := if v =? replace_from then replace_to else v in
    for_range start_idx end_idx (fun i out => wr out i v) out) out.

(** The vocabulary scan of the recovered token: the first maximum. *)
Definition best_token (vocab_size draft_id : Z) (target_probs : list spec_float) (target_row : Z)
    (draft_probs : option (list spec_float * Z)) (inv_q : list spec_float) (inv_q_row : Z)
  : option (Z * spec_float) :=
  for_range 0 vocab_size (fun v st =>
    let '(best_id, best_val) := st in
    prob ← rd target_probs (target_row + v);
    prob ← match draft_probs with
           | None => Some (if v =? draft_id then fzero else prob)
           | Some (dp, row) =>
               d ← rd dp (row + v);
               let diff := fsub prob d in
               Some (if fgt diff fzero then diff else fzero)
           end;
    iq ← rd inv_q (inv_q_row + v);
    let val := fmul prob iq in
    if fgt val best_val then Some (v, val) else Some (best_id, best_val)) (0, fminus_one).

Definition sample_recovered_tokens_kernel_impl (out cu_draft draft_ids : list Z)
    (draft_probs : option (list spec_float)) (draft_probs_stride : Z)
    (target_probs : list spec_float) (target_stride : Z) (inv_q : list spec_float)
    (inv_q_stride vocab_size : Z) : option (list Z) :=
  let batch_size := Z.of_nat (length cu_draft) in
  parallel_for batch_size (fun req_idx out =>
    start_idx ← draft_start cu_draft req_idx;
    end_idx ← rd cu_draft req_idx;
    for_range 0 (end_idx - start_idx) (fun pos out =>
      let token_idx := start_idx + pos in
      draft_id ← rd draft_ids token_idx;
      '(best_id, _) ←
        best_token vocab_size draft_id target_probs (token_idx * target_stride)
          (match draft_probs with
           | None => None
           | Some dp => Some (dp, token_idx * draft_probs_stride)
           end) inv_q (req_idx * inv_q_stride);
      wr out token_idx best_id) out) out.

(** ** Verification rows, in general *)

(** The values a row receives. *)
Definition row_values (n : Z) (g : Z -> Z * bool) (bonus : Z) : list Z :=
  let '(vs, rejected) := until_stop (map g (seqZ 0 n)) in
  if rejected then vs else vs ++ [bonus].

Lemma row_values_length n g bonus : 0 <= n -> Z.of_nat (length (row_values n g bonus)) <= n + 1.
Proof.
  intros Hn. unfold row_values. pose proof (until_stop_length (map g (seqZ 0 n))) as Hl.
  rewrite length_map, length_seqZ in Hl.
  destruct (until_stop _) as [vs [|]]; simpl in *; rewrite ?length_app; simpl; lia.
Qed.

Lemma verify_row_values out row n pick g bonus :
  0 <= n -> 0 <= row -> row + n + 1 <= Z.of_nat (length out) ->
  (forall pos, 0 <= pos < n -> pick pos = Some (g pos)) ->
  verify_row out row n pick (Some bonus) = wr_range out row (row_values n g bonus).
Proof.
  intros Hn Hr Hl Hp. unfold verify_row, row_values.
  rewrite (for_each_break_store pick g row 0 n) by (lia || intros; apply Hp; lia).
  rewrite Z.add_0_r. destruct (until_stop (map g (seqZ 0 n))) as [vs b] eqn:E.
  pose proof (until_stop_length (map g (seqZ 0 n))) as Hul. rewrite E in Hul.
  rewrite length_map, length_seqZ in Hul. simpl in Hul.
  destruct (until_stop_spec _ _ _ E) as (_ & _ & Hlen & _).
  destruct (wr_range_ok out row vs) as (o1 & E1 & _); [lia..|]. rewrite E1.
  cbn [mbind option_bind]. destruct b; [done|]. specialize (Hlen eq_refl).
  rewrite length_map, length_seqZ in Hlen.
  rewrite <- wr_range_app by (rewrite ?length_app; simpl; lia). rewrite E1. cbn [mbind option_bind].
  rewrite wr_is_range. f_equal. lia.
Qed.

(** The row read back: accepted positions, the rejection, the bonus, the rest. *)
Lemma row_values_lookup n g bonus :
  0 <= n ->
  (forall pos, 0 <= pos < n -> (forall p, 0 <= p < pos -> (g p).2 = false) ->
     row_values n g bonus !! Z.to_nat pos = Some (g pos).1) /\
  ((forall p, 0 <= p < n -> (g p).2 = false) -> row_values n g bonus !! Z.to_nat n = Some bonus) /\
  (forall p k, 0 <= p < n -> (g p).2 = true -> p < k -> Z.of_nat (length (row_values n g bonus)) <= k).
Proof.
  intros Hn. unfold row_values. destruct (until_stop (map g (seqZ 0 n))) as [vs b] eqn:E.
  destruct (until_stop_spec _ _ _ E) as (Hk & Hb & Hlen & Hs).
  rewrite length_map, length_seqZ in Hlen.
  assert (forall p, 0 <= p < n -> map g (seqZ 0 n) !! Z.to_nat p = Some (g p)) as Hg.
  { intros p Hp. rewrite list_lookup_fmap, lookup_seqZ_lt by lia. simpl. do 2 f_equal. lia. }
  assert (forall j y, map g (seqZ 0 n) !! j = Some y -> exists p, 0 <= p < n /\ j = Z.to_nat p /\ y = g p)
    as Hg'.
  { intros j y Hj. pose proof (lookup_lt_Some _ _ _ Hj) as Hlt. rewrite length_map, length_seqZ in Hlt.
    exists (Z.of_nat j). split_and!; [lia|lia|lia|]. rewrite <- (Nat2Z.id j), Hg in Hj by lia. congruence. }
  split_and!.
  - intros pos Hpos Hpre. assert (vs !! Z.to_nat pos = Some (g pos).1) as Hv.
    { apply (Hk _ (g pos)); [by apply Hg|]. intros j y Hj Hy.
      destruct (Hg' j y Hy) as (p & Hp & -> & ->). apply Hpre. lia. }
    destruct b; [done|]. by apply lookup_app_l_Some.
  - intros Hall. assert (b = false) as ->.
    { apply Hb, Forall_lookup. intros j y Hj. destruct (Hg' j y Hj) as (p & Hp & _ & ->). auto. }
    rewrite lookup_app_r by (rewrite Hlen by done; lia). rewrite Hlen by done.
    by replace (Z.to_nat n - Z.to_nat n)%nat with 0%nat by lia.
  - intros p k Hp Hst Hpk. assert (length vs <= Z.to_nat k)%nat
      by (apply (Hs _ (Z.to_nat p) (g p)); [lia|by apply Hg|done]).
    destruct b; [lia|]. exfalso. assert (Forall (fun x => x.2 = false) (map g (seqZ 0 n))) as Hf
      by by apply Hb. rewrite Forall_lookup in Hf. specialize (Hf _ _ (Hg p Hp)). congruence.
Qed.

(** ** Batches of rows, in any order *)

Section batch.
Context `{!ScheduleOk}.
Variables (batch stride : Z) (out : list Z).
Variable skip : Z -> bool.
Variable count : Z -> Z.
Variable g : Z -> Z -> Z * bool.
Variable bonus : Z -> Z.
Variable body : Z -> list Z -> option (list Z).

Hypothesis stride_pos : 0 <= stride.
Hypothesis batch_fits : batch * stride <= Z.of_nat (length out).
Hypothesis count_fits : forall r, 0 <= r < batch -> skip r = false -> 0 <= count r /\ count r + 1 <= stride.
Hypothesis body_row : forall r o, 0 <= r < batch -> length o = length out ->
  body r o = if skip r then Some o
             else wr_range o (r * stride) (row_values (count r) (g r) (bonus r)).

Lemma verify_batch :
  exists out', parallel_for batch body out = Some out' /\ length out' = length out /\
    (forall r pos, 0 <= r < batch -> skip r = false -> 0 <= pos < count r ->
       (forall p, 0 <= p < pos -> (g r p).2 = false) ->
       rd out' (r * stride + pos) = Some (g r pos).1) /\
    (forall r, 0 <= r < batch -> skip r = false -> (forall p, 0 <= p < count r -> (g r p).2 = false) ->
       rd out' (r * stride + count r) = Some (bonus r)) /\
    (forall r k, 0 <= r < batch -> 0 <= k < stride ->
       skip r = true \/ count r < k \/ (exists p, 0 <= p < count r /\ p < k /\ (g r p).2 = true) ->
       rd out' (r * stride + k) = rd out (r * stride + k)).
Proof.
  set (vals := fun r => if skip r then [] else row_values (count r) (g r) (bonus r)).
  assert (forall r, 0 <= r < batch -> Z.of_nat (length (vals r)) <= stride) as Hvl.
  { intros r Hr. unfold vals. destruct (skip r) eqn:Es; [simpl; lia|].
    destruct (count_fits r Hr Es). pose proof (row_values_length (count r) (g r) (bonus r)). lia. }
  destruct (for_each_ranges (schedule batch) body out (fun r => r * stride) vals)
    as (out' & E & Hl & Hin & Hu).
  - apply NoDup_schedule.
  - intros r Hr%elem_of_schedule. pose proof (Hvl r Hr). nia.
  - intros i j Hi%elem_of_schedule Hj%elem_of_schedule Hij.
    pose proof (Hvl i Hi). pose proof (Hvl j Hj). nia.
  - intros r o Hr%elem_of_schedule Ho. rewrite body_row by done. unfold vals.
    destruct (skip r); [|done]. symmetry. apply wr_range_nil. rewrite Ho. nia.
  - exists out'. split; [done|]. split; [done|].
    assert (forall r k v, 0 <= r < batch -> 0 <= k -> vals r !! Z.to_nat k = Some v ->
              rd out' (r * stride + k) = Some v) as Hrd.
    { intros r k v Hr Hk Hv. replace k with (Z.of_nat (Z.to_nat k)) by lia.
      apply Hin; [by apply elem_of_schedule|done]. }
    assert (forall r, skip r = false -> vals r = row_values (count r) (g r) (bonus r)) as Hvals
      by (intros r Hs; unfold vals; by rewrite Hs).
    split_and!.
    + intros r pos Hr Hs Hpos Hpre. destruct (count_fits r Hr Hs) as [Hc _].
      apply Hrd; [done|lia|]. rewrite Hvals by done. by apply row_values_lookup.
    + intros r Hr Hs Hall. destruct (count_fits r Hr Hs) as [Hc _].
      apply Hrd; [done|lia|]. rewrite Hvals by done. by apply row_values_lookup.
    + intros r k Hr Hk Hcase. apply Hu. intros i Hi%elem_of_schedule Hir.
      pose proof (Hvl i Hi). assert (i = r) as -> by nia.
      unfold vals in *. destruct (skip r) eqn:Es; [simpl in *; lia|].
      destruct (count_fits r Hr Es) as [Hc _].
      destruct Hcase as [?|[Hlt|(p & Hp & Hpk & Hrej)]]; [done| |].
      * pose proof (row_values_length (count r) (g r) (bonus r)). lia.
      * destruct (row_values_lookup (count r) (g r) (bonus r) Hc) as (_ & _ & Hend).
        specialize (Hend p k Hp Hrej Hpk). lia.
Qed.
End batch.

(** ** The two samplers *)

(** Where the drafts of request [r] start and how many there are. *)
Definition start_of (cu : list Z) (r : Z) : Z := if r =? 0 then 0 else at_ cu (r - 1).
Definition drafts_of (cu : list Z) (r : Z) : Z := at_ cu r - start_of cu r.

(** A cumulative draft table over [lim] draft tokens, output rows of [stride]. *)
Definition drafts_ok (cu out : list Z) (stride lim : Z) : Prop :=
  0 <= stride /\ Z.of_nat (length cu) * stride <= Z.of_nat (length out) /\
  forall r, 0 <= r < Z.of_nat (length cu) ->
    0 <= start_of cu r <= at_ cu r /\ at_ cu r <= lim /\ drafts_of cu r + 1 <= stride.

Lemma draft_start_of cu r :
  0 <= r < Z.of_nat (length cu) -> draft_start cu r = Some (start_of cu r).
Proof.
  intros Hr. unfold draft_start, start_of. destruct (Z.eqb_spec r 0); [done|]. apply rd_at. lia.
Qed.

Definition bonus_ok (cu bonus_ids : list Z) (stride : Z) : Prop :=
  forall r, 0 <= r < Z.of_nat (length cu) -> 0 <= r * stride < Z.of_nat (length bonus_ids).

Definition mask_ok (cu : list Z) (m : option (list bool)) : Prop :=
  match m with None => True | Some l => (length cu <= length l)%nat end.

(** Whether request [r] belongs to the greedy sampler. *)
Definition greedy (m : option (list bool)) (r : Z) : bool :=
  match m with None => true | Some l => l !!! Z.to_nat r end.

Section samplers.
Context `{!ScheduleOk}.
Variables (out cu draft_ids bonus_ids : list Z) (stride bonus_stride lim : Z).
Variable is_greedy : option (list bool).
Hypothesis Hdrafts : drafts_ok cu out stride lim.
Hypothesis Hbonus : bonus_ok cu bonus_ids bonus_stride.
Hypothesis Hmask : mask_ok cu is_greedy.

Let batch := Z.of_nat (length cu).

Lemma greedy_facts target_argmax :
  lim <= Z.of_nat (length draft_ids) -> lim <= Z.of_nat (length target_argmax) ->
  let target r pos := at_ target_argmax (start_of cu r + pos) in
  let draft r pos := at_ draft_ids (start_of cu r + pos) in
  exists out', rejection_greedy_sample_kernel_impl out stride cu draft_ids target_argmax bonus_ids
                 bonus_stride is_greedy = Some out' /\ length out' = length out /\
    (forall r pos, 0 <= r < batch -> greedy is_greedy r = true -> 0 <= pos < drafts_of cu r ->
       (forall p, 0 <= p < pos -> draft r p = target r p) ->
       rd out' (r * stride + pos) = Some (target r pos)) /\
    (forall r, 0 <= r < batch -> greedy is_greedy r = true ->
       (forall p, 0 <= p < drafts_of cu r -> draft r p = target r p) ->
       rd out' (r * stride + drafts_of cu r) = Some (at_ bonus_ids (r * bonus_stride))) /\
    (forall r k, 0 <= r < batch -> 0 <= k < stride ->
       greedy is_greedy r = false \/ drafts_of cu r < k \/
       (exists p, 0 <= p < drafts_of cu r /\ p < k /\ draft r p <> target r p) ->
       rd out' (r * stride + k) = rd out (r * stride + k)).
Proof.
  intros Hd Ht target draft. destruct Hdrafts as (Hs & Hfit & Hreq).
  set (g := fun r pos => (target r pos, negb (draft r pos =? target r pos))).
  assert (forall r p, (g r p).2 = false <-> draft r p = target r p) as Hg0.
  { intros r p. simpl. rewrite negb_false_iff. apply Z.eqb_eq. }
  assert (forall r p, (g r p).2 = true <-> draft r p <> target r p) as Hg1.
  { intros r p. simpl. rewrite negb_true_iff. apply Z.eqb_neq. }
  unfold rejection_greedy_sample_kernel_impl. fold batch.
  set (body := fun req_idx (out : list Z) => _).
  destruct (verify_batch batch stride out (fun r => negb (greedy is_greedy r)) (drafts_of cu) g
              (fun r => at_ bonus_ids (r * bonus_stride)) body) as (out' & E & Hl & H1 & H2 & H3).
  - done.
  - done.
  - intros r Hr _. destruct (Hreq r Hr) as (? & ? & ?). unfold drafts_of in *. lia.
  - intros r o Hr Ho. unfold body.
    assert (match is_greedy with None => Some false | Some l => g0 ← rd l r; Some (negb g0) end
            = Some (negb (greedy is_greedy r))) as ->.
    { unfold greedy. destruct is_greedy as [l|]; [|done]. simpl in Hmask.
      rewrite rd_total by (unfold batch in Hr; lia). done. }
    cbn [mbind option_bind]. destruct (negb (greedy is_greedy r)); [done|].
    destruct (Hreq r Hr) as (Hst & Hlim & Hstr).
    rewrite draft_start_of, (rd_at cu) by (unfold batch in Hr; lia). cbn [mbind option_bind].
    rewrite (rd_at bonus_ids) by (by apply Hbonus).
    apply (verify_row_values o (r * stride) (at_ cu r - start_of cu r)).
    + lia.
    + nia.
    + rewrite Ho. fold (drafts_of cu r). unfold batch in *. nia.
    + intros pos Hpos. unfold pick_greedy. rewrite !rd_at by lia. done.
  - exists out'. split; [done|]. split; [done|]. split_and!.
    + intros r pos Hr Hgr Hpos Hpre. apply (H1 r pos Hr); [by rewrite Hgr|done|].
      intros p Hp. by apply Hg0, Hpre.
    + intros r Hr Hgr Hall. apply H2; [done|by rewrite Hgr|]. intros p Hp. by apply Hg0, Hall.
    + intros r k Hr Hk Hc. apply H3; [done|done|].
      destruct Hc as [Hn|[Hc|(p & Hp & Hpk & Hne)]]; [left; by rewrite Hn|by right; left|].
      right. right. exists p. split_and!; [lia|lia|done|by apply Hg1].
Qed.

Lemma random_facts recovered_ids draft_probs dstride target_probs tstride uniform_probs g :
  (forall r pos, 0 <= r < batch -> 0 <= pos < drafts_of cu r ->
     pick_random draft_ids recovered_ids draft_probs dstride target_probs tstride uniform_probs
       (start_of cu r) pos = Some (g r pos)) ->
  exists out', rejection_random_sample_kernel_impl out stride cu draft_ids draft_probs dstride
                 target_probs tstride bonus_ids bonus_stride recovered_ids uniform_probs is_greedy
               = Some out' /\ length out' = length out /\
    (forall r pos, 0 <= r < batch -> mask_at is_greedy r = Some false -> 0 <= pos < drafts_of cu r ->
       (forall p, 0 <= p < pos -> (g r p).2 = false) ->
       rd out' (r * stride + pos) = Some (g r pos).1) /\
    (forall r, 0 <= r < batch -> mask_at is_greedy r = Some false ->
       (forall p, 0 <= p < drafts_of cu r -> (g r p).2 = false) ->
       rd out' (r * stride + drafts_of cu r) = Some (at_ bonus_ids (r * bonus_stride))) /\
    (forall r k, 0 <= r < batch -> 0 <= k < stride ->
       mask_at is_greedy r = Some true \/ drafts_of cu r < k \/
       (exists p, 0 <= p < drafts_of cu r /\ p < k /\ (g r p).2 = true) ->
       rd out' (r * stride + k) = rd out (r * stride + k)).
Proof.
  intros Hpick. destruct Hdrafts as (Hs & Hfit & Hreq).
  unfold rejection_random_sample_kernel_impl. fold batch.
  set (skip := fun r => default false (mask_at is_greedy r)).
  assert (forall r, 0 <= r < batch -> mask_at is_greedy r = Some (skip r)) as Hskip.
  { intros r Hr. unfold skip. destruct is_greedy as [l|]; [|done]. simpl in *.
    rewrite rd_total by (unfold batch in Hr; lia). done. }
  set (body := fun req_idx (out : list Z) => _).
  destruct (verify_batch batch stride out skip (drafts_of cu) g
              (fun r => at_ bonus_ids (r * bonus_stride)) body) as (out' & E & Hl & H1 & H2 & H3).
  - done.
  - done.
  - intros r Hr _. destruct (Hreq r Hr) as (? & ? & ?). unfold drafts_of in *. lia.
  - intros r o Hr Ho. unfold body. rewrite Hskip by done. cbn [mbind option_bind].
    destruct (skip r); [done|]. destruct (Hreq r Hr) as (Hst & Hlim & Hstr).
    rewrite draft_start_of, (rd_at cu) by (unfold batch in Hr; lia). cbn [mbind option_bind].
    rewrite (rd_at bonus_ids) by (by apply Hbonus).
    apply (verify_row_values o (r * stride) (at_ cu r - start_of cu r)).
    + lia.
    + nia.
    + rewrite Ho. fold (drafts_of cu r). unfold batch in *. nia.
    + intros pos Hpos. by apply Hpick.
  - exists out'. split; [done|]. split; [done|].
    assert (forall r b, 0 <= r < batch -> mask_at is_greedy r = Some b -> skip r = b) as Hb
      by (intros r b Hr Hm; rewrite Hskip in Hm by done; congruence).
    split_and!.
    + intros r pos Hr Hgr Hpos Hpre. apply (H1 r pos Hr); [by apply Hb|done|done].
    + intros r Hr Hgr Hall. apply H2; [done|by apply Hb|done].
    + intros r k Hr Hk Hc. apply H3; [done|done|].
      destruct Hc as [Hn|Hc]; [left; by apply Hb|by right].
Qed.
End samplers.
End kernels.

(** ** Claims *)

(** [C38] Greedy verification, for any order of the parallel iterations: the row
    of a request holds the target's tokens up to and including the first position
    where the draft disagrees, then nothing more; when the whole draft agrees it
    is followed by the bonus token; other rows and cells are unchanged.  So the
    emitted tokens are exactly those greedy decoding of the target would emit. *)
Theorem rejection_greedy_spec `{ScheduleOk} (out cu draft_ids bonus_ids : list Z)
    (stride bonus_stride lim : Z) (is_greedy : option (list bool)) (target_argmax : list Z) :
  drafts_ok cu out stride lim -> bonus_ok cu bonus_ids bonus_stride -> mask_ok cu is_greedy ->
  lim <= Z.of_nat (length draft_ids) -> lim <= Z.of_nat (length target_argmax) ->
  let batch := Z.of_nat (length cu) in
  let target r pos := at_ target_argmax (start_of cu r + pos) in
  let draft r pos := at_ draft_ids (start_of cu r + pos) in
  exists out', rejection_greedy_sample_kernel_impl out stride cu draft_ids target_argmax bonus_ids
                 bonus_stride is_greedy = Some out' /\ length out' = length out /\
    (forall r pos, 0 <= r < batch -> greedy is_greedy r = true -> 0 <= pos < drafts_of cu r ->
       (forall p, 0 <= p < pos -> draft r p = target r p) ->
       rd out' (r * stride + pos) = Some (target r pos)) /\
    (forall r, 0 <= r < batch -> greedy is_greedy r = true ->
       (forall p, 0 <= p < drafts_of cu r -> draft r p = target r p) ->
       rd out' (r * stride + drafts_of cu r) = Some (at_ bonus_ids (r * bonus_stride))) /\
    (forall r k, 0 <= r < batch -> 0 <= k < stride ->
       greedy is_greedy r = false \/ drafts_of cu r < k \/
       (exists p, 0 <= p < drafts_of cu r /\ p < k /\ draft r p <> target r p) ->
       rd out' (r * stride + k) = rd out (r * stride + k)).
Proof. intros. by apply (greedy_facts out cu draft_ids bonus_ids stride bonus_stride lim). Qed.

(** Two requests, the second rejecting its first draft; run backwards. *)
Lemma demo_drafts_ok : drafts_ok [2; 4] (replicate 6 (-1)) 3 4.
Proof.
  split; [lia|]. split; [vm_compute; discriminate|]. intros r Hr.
  assert (r = 0 \/ r = 1) as [-> | ->] by (simpl in Hr; lia);
    vm_compute; repeat split; discriminate.
Qed.

Lemma demo_bonus_ok : bonus_ok [2; 4] [90; 91] 1.
Proof. intros r Hr. simpl in *. lia. Qed.

Lemma rejection_greedy_spec_witness :
  exists out', @rejection_greedy_sample_kernel_impl backwards (replicate 6 (-1)) 3 [2; 4] [5; 6; 7; 8]
                 [5; 6; 1; 8] [90; 91] 1 None = Some out' /\
    rd out' 2 = Some 90 /\ rd out' 3 = Some 1 /\ rd out' 4 = Some (-1).
Proof.
  destruct (@rejection_greedy_spec backwards backwards_ok (replicate 6 (-1)) [2; 4] [5; 6; 7; 8]
              [90; 91] 3 1 4 None [5; 6; 1; 8] demo_drafts_ok demo_bonus_ok I
              ltac:(simpl; lia) ltac:(simpl; lia)) as (out' & E & _ & H1 & H2 & H3).
  exists out'. split; [exact E|]. split_and!.
  - apply (H2 0 ltac:(simpl; lia) eq_refl). intros p Hp. change (0 <= p < 2) in Hp.
    assert (p = 0 \/ p = 1) as [-> | ->] by lia; reflexivity.
  - apply (H1 1 0 ltac:(simpl; lia) eq_refl); [vm_compute; split; (reflexivity || discriminate)|].
    intros p Hp. lia.
  - apply (H3 1 1 ltac:(simpl; lia) ltac:(lia)). right. right. exists 0.
    split; [vm_compute; split; (reflexivity || discriminate)|]. split; [lia|].
    vm_compute. discriminate.
Defined.

(** The rule of randomised verification: a token of target probability [p] and draft
    probability [q] is accepted by the uniform number [u] if [u <= p / q], the quotient
    rounded to single precision, and a token that the draft could not produce only if
    [u <= 0]; a NaN accepts nothing. *)
Definition at_most (u r : spec_float) : bool :=
  match SFcompare u r with Some Lt | Some Eq => true | _ => false end.
Definition accepts (p q u : spec_float) : bool :=
  match SFcompare (S754_zero false) q with
  | Some Lt => at_most u (SFdiv 24 128 p q)
  | _ => at_most u (S754_zero false)
  end.

(** The probability of draft token [t] in a table of rows [stride] apart. *)
Definition prob_of (probs : list spec_float) (stride : Z) (draft_ids : list Z) (t : Z) : spec_float :=
  default S754_nan (rd probs (t * stride + at_ draft_ids t)).
Definition probs_ok (probs : list spec_float) (stride : Z) (draft_ids : list Z) (lim : Z) : Prop :=
  forall t, 0 <= t < lim -> 0 <= t * stride + at_ draft_ids t < Z.of_nat (length probs).

(** Draft token [t] is accepted; without draft probabilities it was certain. *)
Definition accepted (draft_ids : list Z) (draft_probs : option (list spec_float)) (dstride : Z)
    (target_probs : list spec_float) (tstride : Z) (uniform_probs : list spec_float) (t : Z) : bool :=
  accepts (prob_of target_probs tstride draft_ids t)
    match draft_probs with Some dp => prob_of dp dstride draft_ids t | None => S754_finite false 8388608 (-23) end
    (default S754_nan (rd uniform_probs t)).

Lemma prob_of_rd probs stride draft_ids lim t : probs_ok probs stride draft_ids lim -> 0 <= t < lim ->
  rd probs (t * stride + at_ draft_ids t) = Some (prob_of probs stride draft_ids t).
Proof. intros Hok Ht. unfold prob_of. by destruct (rd_is_Some probs _ (Hok t Ht)) as [v ->]. Qed.

(** The test of the code is the rule. *)
Lemma pick_random_rule draft_ids recovered_ids draft_probs dstride target_probs tstride uniform_probs lim start pos :
  0 <= start + pos < lim -> lim <= Z.of_nat (length draft_ids) -> lim <= Z.of_nat (length recovered_ids) ->
  lim <= Z.of_nat (length uniform_probs) -> probs_ok target_probs tstride draft_ids lim ->
  (forall dp, draft_probs = Some dp -> probs_ok dp dstride draft_ids lim) ->
  pick_random draft_ids recovered_ids draft_probs dstride target_probs tstride uniform_probs start pos
    = let t := start + pos in
      Some (if accepted draft_ids draft_probs dstride target_probs tstride uniform_probs t
            then (at_ draft_ids t, false) else (at_ recovered_ids t, true)).
Proof.
  intros Ht Hd Hr Hu Htp Hdp. unfold pick_random, accepted. cbv zeta. set (t := start + pos) in *. rewrite (rd_at draft_ids) by lia. cbn [mbind option_bind].
  rewrite (prob_of_rd target_probs tstride draft_ids lim) by done. cbn [mbind option_bind].
  set (q := match draft_probs with Some dp => prob_of dp dstride draft_ids t | None => _ end).
  replace (match draft_probs with None => Some fone | Some dp => rd dp (t * dstride + at_ draft_ids t) end) with (Some q).
  2: { unfold q. destruct draft_probs as [dp|]; [|done]. by rewrite (prob_of_rd dp dstride draft_ids lim) by (done || by apply Hdp). }
  cbn [mbind option_bind]. destruct (rd_is_Some uniform_probs t ltac:(lia)) as [u ->]. cbn [mbind option_bind default from_option id].
  rewrite rd_at by lia. unfold accepts, at_most, fge, fgt, SFleb, SFltb, fdiv, fzero.
  destruct (SFcompare (S754_zero false) q) as [[]|]; by destruct (SFcompare u _) as [[]|].
Qed.


Definition half : spec_float := S754_finite false (2 ^ 23) (-24).


End SpecDecode.
