(* ===== verification/InputBatch.v ===== *)
(** * Batch preparation and bookkeeping ([csrc/cpu/input_batch.cpp])

    The kernels that lay out the tokens of a step and fold the sampled tokens
    back into the request states.  A request of the batch ([req_idx]) points to
    its persistent state ([req_state_idx]) through [idx_mapping]. *)

From S2P Require Import Prelude Arrays.

#[local] Open Scope Z_scope.

Module InputBatch.

(** ** Laying out a step *)

Definition prepare_prefill_inputs_cpu (input_ids next_prefill_tokens : list Z)
    (num_lookahead next_prefill_tokens_stride : Z) (idx_mapping query_start_loc all_token_ids : list Z)
    (all_token_ids_stride : Z) (prefill_len num_computed_tokens : list Z)
  : option (list Z * list Z) :=
  let num_reqs := Z.of_nat (length idx_mapping) in
  for_range 0 num_reqs (fun batch_idx st =>
    let '(input_ids, next_prefill_tokens) := st in
    req_state_idx ← rd idx_mapping batch_idx;
    request_prefill_len ← rd prefill_len req_state_idx;
    num_computed ← rd num_computed_tokens req_state_idx;
    if request_prefill_len <=? num_computed then Some (input_ids, next_prefill_tokens)
    else
      query_start ← rd query_start_loc batch_idx;
      query_end ← rd query_start_loc (batch_idx + 1);
      let query_len := i32 (query_end - query_start) in
      let request_tokens := req_state_idx * all_token_ids_stride in
      input_ids ← memcpy_range input_ids query_start all_token_ids (request_tokens + num_computed) query_len;
      let lookahead_start := num_computed + query_len in
      next_prefill_tokens ←
        for_range 0 num_lookahead (fun lookahead next_prefill_tokens =>
          let pos := lookahead_start + lookahead in
          token ← (if pos <? request_prefill_len then rd all_token_ids (request_tokens + pos) else Some 0);
          wr next_prefill_tokens (lookahead * next_prefill_tokens_stride + req_state_idx) token)
          next_prefill_tokens;
      Some (input_ids, next_prefill_tokens)) (input_ids, next_prefill_tokens).

(** [token_ids] is freshly allocated and uninitialised: its contents are given. *)
Definition get_prompt_logprobs_token_ids_cpu (token_ids query_start_loc idx_mapping
    num_computed_tokens all_token_ids : list Z) (all_token_ids_stride : Z) : option (list Z) :=
  for_range 0 (Z.of_nat (length idx_mapping)) (fun batch_idx token_ids =>
    req_state_idx ← rd idx_mapping batch_idx;
    query_start ← rd query_start_loc batch_idx;
    query_end ← rd query_start_loc (batch_idx + 1);
    nc ← rd num_computed_tokens req_state_idx;
    let target_start := i32 (nc + 1) in
    memcpy_range token_ids query_start all_token_ids
      (req_state_idx * all_token_ids_stride + target_start) (query_end - query_start)) token_ids.

Definition prepare_pos_seq_lens_cpu (idx_mapping query_start_loc num_computed_tokens pos seq_lens : list Z)
  : option (list Z * list Z) :=
  let num_reqs := Z.of_nat (length idx_mapping) in
  seq_lens ← fill seq_lens num_reqs (Z.of_nat (length seq_lens)) 0;
  for_range 0 num_reqs (fun req_idx st =>
    let '(pos, seq_lens) := st in
    req_state_idx ← rd idx_mapping req_idx;
    num_computed ← rd num_computed_tokens req_state_idx;
    start ← rd query_start_loc req_idx;
    end_ ← rd query_start_loc (req_idx + 1);
    seq_lens ← wr seq_lens req_idx (i32 (num_computed + i32 (end_ - start)));
    pos ← iota pos start end_ num_computed;
    Some (pos, seq_lens)) (pos, seq_lens).

Definition prepare_mrope_positions_cpu (positions : list Z) (num_dims positions_stride0 positions_stride1 : Z)
    (prefill_positions : list Z) (prefill_positions_stride0 prefill_positions_stride1 : Z)
    (prefill_delta idx_mapping query_start_loc prefill_lens num_computed_tokens : list Z)
  : option (list Z) :=
  for_range 0 (Z.of_nat (length idx_mapping)) (fun batch_idx positions =>
    req_state_idx ← rd idx_mapping batch_idx;
    query_start ← rd query_start_loc batch_idx;
    query_end ← rd query_start_loc (batch_idx + 1);
    let query_len := i32 (query_end - query_start) in
    num_computed ← rd num_computed_tokens req_state_idx;
    pl ← rd prefill_lens req_state_idx;
    let prompt_len := Z.min query_len (Z.max (i32 (pl - num_computed)) 0) in
    delta ← rd prefill_delta req_state_idx;
    for_range 0 num_dims (fun dim positions =>
      let output := dim * positions_stride0 + query_start * positions_stride1 in
      let prompt := (req_state_idx * num_dims + dim) * prefill_positions_stride0 in
      positions ←
        for_range 0 prompt_len (fun token_idx positions =>
          v ← rd prefill_positions (prompt + (num_computed + token_idx) * prefill_positions_stride1);
          wr positions (output + token_idx * positions_stride1) v) positions;
      for_range prompt_len query_len (fun token_idx positions =>
        wr positions (output + token_idx * positions_stride1) (i32 (num_computed + token_idx + delta)))
        positions) positions) positions.

(** [logits_indices] is freshly allocated and uninitialised. *)
Definition combine_sampled_and_draft_tokens_cpu (input_ids logits_indices idx_mapping
    last_sampled_tokens query_start_loc seq_lens prefill_len draft_tokens : list Z)
    (draft_tokens_stride : Z) (cu_num_logits : list Z) (num_new_sampled_tokens : Z)
  : option (list Z * list Z) :=
  for_range 0 (Z.of_nat (length idx_mapping)) (fun req_idx st =>
    let '(input_ids, logits_indices) := st in
    req_state_idx ← rd idx_mapping req_idx;
    logits_offset ← rd cu_num_logits req_idx;
    logits_offset_end ← rd cu_num_logits (req_idx + 1);
    let request_num_logits := logits_offset_end - logits_offset in
    let num_draft_tokens := request_num_logits - num_new_sampled_tokens in
    query_end ← rd query_start_loc (req_idx + 1);
    let logits_start := query_end - request_num_logits in
    logits_indices ← iota logits_indices logits_offset logits_offset_end logits_start;
    seq_len ← rd seq_lens req_idx;
    request_prefill_len ← rd prefill_len req_state_idx;
    if seq_len <=? request_prefill_len then Some (input_ids, logits_indices)
    else
      let first_logit_seq_pos := seq_len - request_num_logits in
      input_ids ←
        (if (0 <? num_new_sampled_tokens) && (request_prefill_len <=? first_logit_seq_pos) then
           t ← rd last_sampled_tokens req_state_idx; wr input_ids logits_start (i32 t)
         else Some input_ids);
      let draft_start := query_end - num_draft_tokens in
      input_ids ←
        for_range 0 num_draft_tokens (fun i input_ids =>
          t ← (d ← rd draft_tokens (req_state_idx * draft_tokens_stride + i); Some (i32 d));
          wr input_ids (draft_start + i) t) input_ids;
      Some (input_ids, logits_indices)) (input_ids, logits_indices).

(** ** Folding the sampled tokens back *)

Record ReqStates := mkReqStates {
  num_computed : list Z; last_sampled : list Z; bin_counts : option (list Z);
  all_tokens : list Z; total_len : list Z }.

(** [++output_bin_counts[...]] when the counts are kept. *)
Definition bump (counts : option (list Z)) (i : Z) : option (option (list Z)) :=
  match counts with
  | None => Some None
  | Some c => v ← rd c i; c ← wr c i (i32 (v + 1)); Some (Some c)
  end.

Definition update_one (last_stride bins_stride sampled_stride tokens_stride : Z)
    (idx_mapping sampled_tokens num_sampled num_rejected : list Z)
    (query_start_loc : option (list Z)) (req_idx : Z) (s : ReqStates) : option ReqStates :=
  req_state_idx ← rd idx_mapping req_idx;
  if req_state_idx <? 0 then Some s
  else
    request_total_len ← rd (total_len s) req_state_idx;
    request_num_sampled ← rd num_sampled req_idx;
    let row := req_idx * sampled_stride in
    let tokens := req_state_idx * tokens_stride in
    s ← (if 0 <? request_num_sampled then
           last ← rd sampled_tokens (row + (request_num_sampled - 1));
           ls ← wr (last_sampled s) (req_state_idx * last_stride) last;
           tl ← wr (total_len s) req_state_idx (i32 (request_total_len + request_num_sampled));
           Some (mkReqStates (num_computed s) ls (bin_counts s) (all_tokens s) tl)
         else Some s);
    s ← for_range 0 request_num_sampled (fun i s =>
          token_id ← rd sampled_tokens (row + i);
          toks ← wr (all_tokens s) (tokens + (request_total_len + i)) (i32 token_id);
          bins ← bump (bin_counts s) (req_state_idx * bins_stride + token_id);
          Some (mkReqStates (num_computed s) (last_sampled s) bins toks (total_len s))) s;
    query_len ← match query_start_loc with
                | None => Some 0
                | Some q => a ← rd q (req_idx + 1); b ← rd q req_idx; Some (i32 (a - b))
                end;
    rejected ← rd num_rejected req_idx;
    let computed_delta := i32 (query_len - rejected) in
    if computed_delta =? 0 then Some s
    else
      c ← rd (num_computed s) req_state_idx;
      nc ← wr (num_computed s) req_state_idx (i32 (c + computed_delta));
      Some (mkReqStates nc (last_sampled s) (bin_counts s) (all_tokens s) (total_len s)).

Definition post_update_cpu (last_stride bins_stride sampled_stride tokens_stride : Z)
    (idx_mapping sampled_tokens num_sampled num_rejected : list Z)
    (query_start_loc : option (list Z)) (s : ReqStates) : option ReqStates :=
  for_range 0 (Z.of_nat (length idx_mapping))
    (update_one last_stride bins_stride sampled_stride tokens_stride idx_mapping sampled_tokens
       num_sampled num_rejected query_start_loc) s.

(** ** Positions and sequence lengths *)

Section pos_seq_lens.
Variables idx_mapping query_start_loc num_computed_tokens : list Z.
Let n := Z.of_nat (length idx_mapping).

(** Tokens already computed for request [b] and tokens of this step. *)
Definition computed (b : Z) : Z := at_ num_computed_tokens (at_ idx_mapping b).
Definition query_len (b : Z) : Z := at_ query_start_loc (b + 1) - at_ query_start_loc b.

Record pos_ok (pos seq_lens : list Z) : Prop := {
  po_offsets : offsets query_start_loc n (Z.of_nat (length pos));
  po_seq_lens : n <= Z.of_nat (length seq_lens);
  po_states : forall b, 0 <= b < n ->
    0 <= at_ idx_mapping b < Z.of_nat (length num_computed_tokens) /\
    0 <= computed b /\ computed b + query_len b < 2 ^ 31
}.

Lemma pos_seq_lens_facts pos seq_lens :
  pos_ok pos seq_lens ->
  exists pos' seq', prepare_pos_seq_lens_cpu idx_mapping query_start_loc num_computed_tokens pos seq_lens
                    = Some (pos', seq') /\
    (forall b t, 0 <= b < n -> at_ query_start_loc b <= t < at_ query_start_loc (b + 1) ->
       rd pos' t = Some (computed b + (t - at_ query_start_loc b))) /\
    (forall b, 0 <= b < n -> rd seq' b = Some (computed b + query_len b)) /\
    (forall b, n <= b < Z.of_nat (length seq_lens) -> rd seq' b = Some 0).
Proof.
  intros P. pose proof (po_offsets _ _ P) as O. pose proof (of_length _ _ _ O) as Hql.
  pose proof (of_nonneg _ _ _ O) as Hn. pose proof (po_seq_lens _ _ P) as Hsl.
  unfold prepare_pos_seq_lens_cpu. fold n. rewrite fill_is by done.
  destruct (wr_range_ok seq_lens n (replicate (Z.to_nat (Z.of_nat (length seq_lens) - n)) 0))
    as (s1 & -> & Hl1 & Hin1 & _); [lia|rewrite length_replicate; lia|]. cbn [mbind option_bind].
  set (f := fun b (p : list Z) => iota p (at_ query_start_loc b) (at_ query_start_loc (b + 1)) (computed b)).
  set (g := fun b (q : list Z) => wr q b (computed b + query_len b)).
  rewrite (for_range_each 0 n).
  rewrite (for_each_ext _ _ (fun b st => p ← f b st.1; q ← g b st.2; Some (p, q)) (fun _ => True)).
  2: done. 3: done.
  2:{ intros b [p q] Hb%elem_of_seqZ _. destruct (po_states _ _ P b) as (Hi & Hc & Hc2); [lia|].
      rewrite (rd_at idx_mapping) by lia. cbn [mbind option_bind].
      rewrite (rd_at num_computed_tokens) by lia. cbn [mbind option_bind].
      rewrite !(rd_at query_start_loc) by lia. cbn [mbind option_bind fst snd]. fold (computed b).
      fold (query_len b). pose proof (of_mono _ _ _ O b ltac:(lia)) as Hm.
      assert (0 <= query_len b) by (unfold query_len; lia).
      rewrite (i32_id (query_len b)), i32_id by (unfold is_i32; lia).
      unfold f, g. by destruct (wr q b _), (iota p _ _ _). }
  rewrite for_each_pair.
  destruct (for_each_ragged (seqZ 0 (n - 0)) query_start_loc n f pos
              (fun b t => computed b + (t - at_ query_start_loc b))) as (pos' & Ep & _ & Hp & _).
  { by rewrite Z.sub_0_r. } { done. }
  { intros b p Hb _. unfold f. rewrite iota_is by (by apply (of_mono _ _ _ O)). f_equal.
    apply list_eq_same_length with (n := Z.to_nat (query_len b)).
    - by rewrite length_map, !length_seqZ.
    - by rewrite length_seqZ.
    - intros i x y Hi Hx Hy. rewrite list_lookup_fmap in Hy.
      unfold query_len in *. rewrite lookup_seqZ_lt in Hx, Hy by lia. simpl in Hy. simplify_eq. lia. }
  destruct (for_each_ranges (seqZ 0 (n - 0)) g s1 (fun b => b) (fun b => [computed b + query_len b]))
    as (seq' & Es & _ & Hs & Hsu).
  { apply NoDup_seqZ. }
  { intros b Hb%elem_of_seqZ. simpl. lia. }
  { intros i j Hi%elem_of_seqZ Hj%elem_of_seqZ Hij. simpl. lia. }
  { intros b a Hb _. unfold g. apply wr_is_range. }
  rewrite Ep, Es. cbn [mbind option_bind]. exists pos', seq'. split; [done|]. split; [done|]. split.
  - intros b Hb. specialize (Hs b 0%nat _ ltac:(apply elem_of_seqZ; lia) eq_refl).
    by rewrite Z.add_0_r in Hs.
  - intros b Hb. rewrite Hsu by (intros i Hi%elem_of_seqZ; simpl; lia).
    replace b with (n + Z.of_nat (Z.to_nat (b - n))) by lia. apply Hin1, lookup_replicate_2. lia.
Qed.
End pos_seq_lens.

(** ** Folding back *)

(** Occurrences of [v] among [f 0 .. f (k-1)]. *)
Definition occ (f : Z -> Z) (v k : Z) : Z :=
  Z.of_nat (length (filter (fun i => f i = v) (seqZ 0 k))).

Lemma occ_succ f v k : 0 <= k -> occ f v (k + 1) = occ f v k + (if decide (f k = v) then 1 else 0).
Proof.
  intros Hk. unfold occ. rewrite seqZ_app by lia. rewrite filter_app, length_app.
  rewrite (seqZ_cons (0 + k) 1), (seqZ_nil _ (Z.pred 1)), filter_cons by lia. rewrite !Z.add_0_l.
  case_decide; simpl; lia.
Qed.

Lemma occ_bounds f v k : 0 <= k -> 0 <= occ f v k <= k.
Proof.
  intros Hk. unfold occ. pose proof (length_filter (fun i => f i = v) (seqZ 0 k)) as Hl.
  rewrite length_seqZ in Hl. lia.
Qed.

Section post_update.
Variables last_stride bins_stride sampled_stride tokens_stride : Z.
Variables idx_mapping sampled_tokens num_sampled num_rejected : list Z.
Variable query_start_loc : option (list Z).

Let n := Z.of_nat (length idx_mapping).

(** The [i]-th token sampled for request [b], and the change of its computed count. *)
Definition sampled (b i : Z) : Z := at_ sampled_tokens (b * sampled_stride + i).
Definition advance_by (b : Z) : Z :=
  match query_start_loc with None => 0 | Some q => at_ q (b + 1) - at_ q b end - at_ num_rejected b.

(** Room for the row of request [b] in the state [s]; nothing overflows 32 bits. *)
Record active_ok (s : ReqStates) (b : Z) : Prop := {
  ak_state : 0 <= at_ idx_mapping b < Z.of_nat (length (total_len s));
  ak_sampled : 0 <= at_ num_sampled b < 2 ^ 30 /\ 0 <= b * sampled_stride /\
    b * sampled_stride + at_ num_sampled b <= Z.of_nat (length sampled_tokens);
  ak_len : 0 <= at_ (total_len s) (at_ idx_mapping b) /\
    at_ (total_len s) (at_ idx_mapping b) + at_ num_sampled b <= Z.min tokens_stride (2 ^ 31 - 1);
  ak_delta : is_i32 (match query_start_loc with None => 0 | Some q => at_ q (b + 1) - at_ q b end) /\
    is_i32 (advance_by b) /\ is_i32 (at_ (num_computed s) (at_ idx_mapping b) + advance_by b);
  ak_tokens : forall i, 0 <= i < at_ num_sampled b -> 0 <= sampled b i < 2 ^ 31;
  ak_bins : match bin_counts s with
            | None => True
            | Some c => (forall i, 0 <= i < at_ num_sampled b -> sampled b i < bins_stride) /\
                forall v, 0 <= v < bins_stride -> 0 <= at_ c (at_ idx_mapping b * bins_stride + v) < 2 ^ 30
            end
}.

(** The tensors have a row for every state and an entry for every request. *)
Record shape_ok (s : ReqStates) : Prop := {
  sk_strides : 0 < last_stride /\ 0 <= tokens_stride /\ 0 <= bins_stride;
  sk_batch : (length idx_mapping <= length num_sampled)%nat /\
             (length idx_mapping <= length num_rejected)%nat /\
             match query_start_loc with None => True | Some q => (length idx_mapping < length q)%nat end;
  sk_rooms : length (total_len s) = length (num_computed s) /\
    Z.of_nat (length (total_len s)) * last_stride <= Z.of_nat (length (last_sampled s)) /\
    Z.of_nat (length (total_len s)) * tokens_stride <= Z.of_nat (length (all_tokens s)) /\
    match bin_counts s with
    | None => True
    | Some c => Z.of_nat (length (total_len s)) * bins_stride <= Z.of_nat (length c)
    end
}.

(** What the caller guarantees: active requests own distinct states. *)
Record post_ok (s : ReqStates) : Prop := {
  pk_shape : shape_ok s;
  pk_active : forall b, 0 <= b < n -> 0 <= at_ idx_mapping b -> active_ok s b;
  pk_distinct : forall b b', 0 <= b < n -> 0 <= b' < n -> 0 <= at_ idx_mapping b ->
    at_ idx_mapping b = at_ idx_mapping b' -> b = b'
}.

(** The state row [r] is the same in two states. *)
Definition row_same (s s' : ReqStates) (r : Z) : Prop :=
  rd (num_computed s') r = rd (num_computed s) r /\
  rd (total_len s') r = rd (total_len s) r /\
  rd (last_sampled s') (r * last_stride) = rd (last_sampled s) (r * last_stride) /\
  (forall j, 0 <= j < tokens_stride ->
     rd (all_tokens s') (r * tokens_stride + j) = rd (all_tokens s) (r * tokens_stride + j)) /\
  match bin_counts s, bin_counts s' with
  | None, None => True
  | Some c, Some c' => forall v, 0 <= v < bins_stride ->
      rd c' (r * bins_stride + v) = rd c (r * bins_stride + v)
  | _, _ => False
  end.

(** The row of request [b] after the update, relative to the old state [s]. *)
Definition row_updated (s s' : ReqStates) (b : Z) : Prop :=
  let r := at_ idx_mapping b in
  let len := at_ (total_len s) r in
  let k := at_ num_sampled b in
  rd (num_computed s') r = Some (at_ (num_computed s) r + advance_by b) /\
  rd (total_len s') r = Some (len + k) /\
  rd (last_sampled s') (r * last_stride)
  = (if 0 <? k then Some (sampled b (k - 1)) else rd (last_sampled s) (r * last_stride)) /\
  (forall j, 0 <= j < tokens_stride ->
     rd (all_tokens s') (r * tokens_stride + j)
     = if (len <=? j) && (j <? len + k) then Some (sampled b (j - len))
       else rd (all_tokens s) (r * tokens_stride + j)) /\
  match bin_counts s, bin_counts s' with
  | None, None => True
  | Some c, Some c' => forall v, 0 <= v < bins_stride ->
      rd c' (r * bins_stride + v) = Some (at_ c (r * bins_stride + v) + occ (sampled b) v k)
  | _, _ => False
  end.

(** The tensors keep their sizes. *)
Definition same_shape (s s' : ReqStates) : Prop :=
  length (num_computed s') = length (num_computed s) /\
  length (total_len s') = length (total_len s) /\
  length (last_sampled s') = length (last_sampled s) /\
  length (all_tokens s') = length (all_tokens s) /\
  option_map length (bin_counts s') = option_map length (bin_counts s).

(** *** One request *)

(** Cells of different rows are different. *)
Lemma cell_ne r r' d j j' : 0 <= j < d -> 0 <= j' < d -> r <> r' -> r * d + j <> r' * d + j'.
Proof. intros Hj Hj' Hr E. assert (r < r' \/ r' < r) as [?|?] by lia; nia. Qed.

Lemma cell_in r m d j len : 0 <= r < m -> 0 <= j < d -> m * d <= len -> 0 <= r * d + j < len.
Proof. nia. Qed.

Lemma bump_ok c i : 0 <= i < Z.of_nat (length c) -> is_i32 (at_ c i + 1) ->
  exists c', bump (Some c) i = Some (Some c') /\ length c' = length c /\
    forall p, rd c' p = if decide (p = i) then Some (at_ c i + 1) else rd c p.
Proof.
  intros Hi Hv. simpl. rewrite rd_at by done. cbn [mbind option_bind]. rewrite i32_id by done.
  destruct (wr_ok c i (at_ c i + 1) Hi) as (c' & -> & Hl & E & Eo). exists c'.
  split_and!; [done|done|]. intros p. case_decide; subst; auto.
Qed.

Lemma at_rd a i : 0 <= i -> at_ a i = default inhabitant (rd a i).
Proof. intros Hi. unfold at_. rewrite list_lookup_total_alt, rd_lookup by done. done. Qed.

Lemma at_cong a a' i : 0 <= i -> rd a i = rd a' i -> at_ a i = at_ a' i.
Proof. intros Hi E. by rewrite !(at_rd _ i), E by done. Qed.

(** The counters after [k] tokens, and the loop that appends them. *)
Definition bins_after (b : Z) (c c' : option (list Z)) (k : Z) : Prop :=
  match c, c' with
  | None, None => True
  | Some c, Some c' => length c' = length c /\ forall p, rd c' p =
      let v := p - at_ idx_mapping b * bins_stride in
      if (0 <=? v) && (v <? bins_stride) then Some (at_ c p + occ (sampled b) v k) else rd c p
  | _, _ => False
  end.

Lemma bins_step b s c' k :
  shape_ok s -> active_ok s b -> 0 <= k < at_ num_sampled b -> bins_after b (bin_counts s) c' k ->
  exists c'', bump c' (at_ idx_mapping b * bins_stride + sampled b k) = Some c'' /\
    bins_after b (bin_counts s) c'' (k + 1).
Proof.
  intros Sh Ak Hk Hb. pose proof (ak_state _ _ Ak) as Hr. pose proof (ak_bins _ _ Ak) as Hc.
  pose proof (proj1 (ak_sampled _ _ Ak)) as Hs. pose proof (ak_tokens _ _ Ak k Hk) as Ht.
  destruct (sk_rooms _ Sh) as (_ & _ & _ & Hroom). unfold bins_after in *.
  destruct (bin_counts s) as [c|], c' as [c'|]; try done; [|by exists None].
  destruct Hb as [Hlc Hb], Hc as [Hlt Hc]. specialize (Hlt k Hk).
  set (r := at_ idx_mapping b) in *. set (i := r * bins_stride + sampled b k).
  assert (0 <= i < Z.of_nat (length c)) as Hi by (apply (cell_in r (Z.of_nat (length (total_len s)))); lia).
  assert (at_ c' i = at_ c i + occ (sampled b) (sampled b k) k) as Ei.
  { rewrite at_rd, Hb by lia. unfold i. replace (_ + sampled b k - _) with (sampled b k) by lia.
    by rewrite (proj2 (Z.leb_le _ _)), (proj2 (Z.ltb_lt _ _)) by lia. }
  pose proof (occ_bounds (sampled b) (sampled b k) k ltac:(lia)) as Ho.
  specialize (Hc (sampled b k) ltac:(lia)). fold i in Hc.
  destruct (bump_ok c' i) as (c'' & -> & Hl & E); [lia|unfold is_i32; lia|].
  exists (Some c''). split; [done|]. split; [congruence|]. intros p. rewrite E, occ_succ by lia.
  case_decide as Ep.
  - subst p. rewrite Ei. unfold i. replace (_ + sampled b k - _) with (sampled b k) by lia. simpl.
    rewrite (proj2 (Z.leb_le _ _)), (proj2 (Z.ltb_lt _ _)), decide_True by lia. simpl. f_equal. lia.
  - rewrite Hb. simpl. case_match; [|done]. rewrite decide_False by (unfold i in Ep; lia). f_equal. lia.
Qed.

Lemma bins_zero b s : shape_ok s -> active_ok s b -> bins_after b (bin_counts s) (bin_counts s) 0.
Proof.
  intros Sh Ak. pose proof (ak_state _ _ Ak) as Hr. destruct (sk_rooms _ Sh) as (_ & _ & _ & Hbr).
  unfold bins_after. destruct (bin_counts s) as [c|]; [|done]. split; [done|]. intros p. simpl.
  set (r := at_ idx_mapping b) in *.
  destruct (Z.leb_spec 0 (p - r * bins_stride)), (Z.ltb_spec (p - r * bins_stride) bins_stride);
    simpl; try done.
  pose proof (cell_in r _ bins_stride (p - r * bins_stride) _ Hr ltac:(lia) Hbr) as Hp.
  rewrite rd_at by lia. unfold occ. simpl. f_equal. lia.
Qed.

Lemma append_ok b s s1 len :
  shape_ok s -> active_ok s b -> bin_counts s1 = bin_counts s -> all_tokens s1 = all_tokens s ->
  0 <= len -> len + at_ num_sampled b <= tokens_stride ->
  exists toks bins,
    for_range 0 (at_ num_sampled b) (fun i s =>
      token_id ← rd sampled_tokens (b * sampled_stride + i);
      toks ← wr (all_tokens s) (at_ idx_mapping b * tokens_stride + (len + i)) (i32 token_id);
      bins ← bump (bin_counts s) (at_ idx_mapping b * bins_stride + token_id);
      Some (mkReqStates (num_computed s) (last_sampled s) bins toks (total_len s))) s1
    = Some (mkReqStates (num_computed s1) (last_sampled s1) bins toks (total_len s1)) /\
    length toks = length (all_tokens s) /\
    (forall p, rd toks p = let j := p - (at_ idx_mapping b * tokens_stride + len) in
       if (0 <=? j) && (j <? at_ num_sampled b) then Some (sampled b j) else rd (all_tokens s) p) /\
    bins_after b (bin_counts s) bins (at_ num_sampled b).
Proof.
  intros Sh Ak Eb1 Et1 Hl Hle. pose proof (ak_state _ _ Ak) as Hr.
  destruct (ak_sampled _ _ Ak) as (Hs & Hb0 & Hb1). destruct (sk_rooms _ Sh) as (_ & _ & Hroom & _).
  set (r := at_ idx_mapping b) in *. set (base := r * tokens_stride + len).
  match goal with |- context [for_range 0 _ ?f s1] => set (body := f) end.
  destruct (for_range_inv (fun i (s' : ReqStates) => exists toks bins,
    s' = mkReqStates (num_computed s1) (last_sampled s1) bins toks (total_len s1) /\
    length toks = length (all_tokens s) /\
    (forall p, rd toks p = let j := p - base in
       if (0 <=? j) && (j <? i) then Some (sampled b j) else rd (all_tokens s) p) /\
    bins_after b (bin_counts s) bins i) 0 (at_ num_sampled b) body s1) as (s' & E & toks & bins & -> & Ht).
  - lia.
  - exists (all_tokens s), (bin_counts s). split_and!; [rewrite <- Eb1, <- Et1; by destruct s1|done| |].
    + intros p. simpl. destruct (Z.leb_spec 0 (p - base)), (Z.ltb_spec (p - base) 0); simpl; (lia || done).
    + by apply bins_zero.
  - intros i s' Hi (toks & bins & -> & Hlt & Ht & Hb). unfold body. cbn [all_tokens bin_counts].
    rewrite rd_at by lia. cbn [mbind option_bind]. fold (sampled b i).
    pose proof (ak_tokens _ _ Ak i Hi) as Hti. rewrite i32_id by (unfold is_i32; lia).
    pose proof (cell_in r _ tokens_stride (len + i) _ Hr ltac:(lia) Hroom) as Hp.
    destruct (wr_ok toks (r * tokens_stride + (len + i)) (sampled b i)) as (toks' & -> & Hlt' & Ew & Eo); [lia|].
    cbn [mbind option_bind]. destruct (bins_step b s bins i Sh Ak Hi Hb) as (bins' & Eb & Hb').
    fold r in Eb. rewrite Eb. cbn [mbind option_bind]. eexists. split; [done|]. exists toks', bins'. split_and!; [done|lia| |done].
    intros p. destruct (decide (p = r * tokens_stride + (len + i))) as [->|Hne].
    + rewrite Ew. unfold base. replace (_ - _) with i by lia. simpl.
      by rewrite (proj2 (Z.leb_le _ _)), (proj2 (Z.ltb_lt _ _)) by lia.
    + rewrite Eo, Ht by done. simpl. unfold base in *.
      destruct (Z.leb_spec 0 (p - (r * tokens_stride + len))),
        (Z.ltb_spec (p - (r * tokens_stride + len)) i),
        (Z.ltb_spec (p - (r * tokens_stride + len)) (i + 1)); simpl; try done; lia.
  - exists toks, bins. split; [done|]. done.
Qed.

(** The last token and the length. *)
Lemma record_last_ok b s :
  shape_ok s -> active_ok s b ->
  exists ls tl,
    (if 0 <? at_ num_sampled b then
       last ← rd sampled_tokens (b * sampled_stride + (at_ num_sampled b - 1));
       ls ← wr (last_sampled s) (at_ idx_mapping b * last_stride) last;
       tl ← wr (total_len s) (at_ idx_mapping b)
              (i32 (at_ (total_len s) (at_ idx_mapping b) + at_ num_sampled b));
       Some (mkReqStates (num_computed s) ls (bin_counts s) (all_tokens s) tl)
     else Some s) = Some (mkReqStates (num_computed s) ls (bin_counts s) (all_tokens s) tl) /\
    length ls = length (last_sampled s) /\ length tl = length (total_len s) /\
    (forall p, rd tl p = if decide (p = at_ idx_mapping b)
       then Some (at_ (total_len s) (at_ idx_mapping b) + at_ num_sampled b) else rd (total_len s) p) /\
    (forall p, rd ls p = if decide (p = at_ idx_mapping b * last_stride) then
       if 0 <? at_ num_sampled b then Some (sampled b (at_ num_sampled b - 1)) else rd (last_sampled s) p
       else rd (last_sampled s) p).
Proof.
  intros Sh Ak. pose proof (ak_state _ _ Ak) as Hr. destruct (ak_sampled _ _ Ak) as (Hs & Hb0 & Hb1).
  destruct (ak_len _ _ Ak) as [Hlen Hle]. destruct (sk_rooms _ Sh) as (Hr1 & Hr2 & _).
  destruct (sk_strides _ Sh) as (Hs1 & _). set (r := at_ idx_mapping b) in *.
  set (k := at_ num_sampled b) in *. destruct (Z.ltb_spec 0 k).
  - rewrite rd_at by lia. cbn [mbind option_bind]. fold (sampled b (k - 1)).
    pose proof (cell_in r _ last_stride 0 _ Hr ltac:(lia) Hr2) as Hp.
    destruct (wr_ok (last_sampled s) (r * last_stride) (sampled b (k - 1))) as (ls & -> & Hl & El & Eo); [lia|].
    cbn [mbind option_bind]. rewrite i32_id by (unfold is_i32; lia).
    destruct (wr_ok (total_len s) r (at_ (total_len s) r + k)) as (tl & -> & Ht & Et & Eto); [lia|].
    cbn [mbind option_bind]. exists ls, tl.
    split_and!; [done|done|done|intros p; case_decide; subst; auto..].
  - exists (last_sampled s), (total_len s). split_and!; [by destruct s|done|done| |].
    + intros p. case_decide; [|done]. subst p. rewrite rd_at by lia. f_equal. lia.
    + intros p. by case_decide.
Qed.

(** The computed count. *)
Lemma advance_ok b s :
  0 <= b < n -> shape_ok s -> active_ok s b -> forall s', num_computed s' = num_computed s ->
  exists nc,
    (query_len ← match query_start_loc with
                 | None => Some 0
                 | Some q => a ← rd q (b + 1); b ← rd q b; Some (i32 (a - b))
                 end;
     rejected ← rd num_rejected b;
     let computed_delta := i32 (query_len - rejected) in
     if computed_delta =? 0 then Some s'
     else
       c ← rd (num_computed s') (at_ idx_mapping b);
       nc ← wr (num_computed s') (at_ idx_mapping b) (i32 (c + computed_delta));
       Some (mkReqStates nc (last_sampled s') (bin_counts s') (all_tokens s') (total_len s')))
    = Some (mkReqStates nc (last_sampled s') (bin_counts s') (all_tokens s') (total_len s')) /\
    length nc = length (num_computed s) /\
    forall p, rd nc p = if decide (p = at_ idx_mapping b)
      then Some (at_ (num_computed s) (at_ idx_mapping b) + advance_by b) else rd (num_computed s) p.
Proof.
  intros Hb Sh Ak s' Es. rewrite Es. pose proof (ak_state _ _ Ak) as Hr.
  destruct (ak_delta _ _ Ak) as (Hq & Hd & Hnc). destruct (sk_batch _ Sh) as (Hn1 & Hn2 & Hn3).
  destruct (sk_rooms _ Sh) as (Hr1 & _). unfold n in Hb. set (r := at_ idx_mapping b) in *.
  assert (match query_start_loc with
          | None => Some 0
          | Some q => a ← rd q (b + 1); b ← rd q b; Some (i32 (a - b))
          end = Some (advance_by b + at_ num_rejected b)) as ->.
  { unfold advance_by. destruct query_start_loc as [q|]; [|f_equal; lia].
    rewrite !rd_at by lia. cbn [mbind option_bind]. rewrite i32_id by done. f_equal. lia. }
  cbn [mbind option_bind]. rewrite (rd_at num_rejected) by lia. cbn [mbind option_bind].
  replace (advance_by b + at_ num_rejected b - at_ num_rejected b) with (advance_by b) by lia. rewrite (i32_id (advance_by b)) by done.
  destruct (Z.eqb_spec (advance_by b) 0) as [E|E].
  - exists (num_computed s). split_and!; [rewrite <- Es; by destruct s'|done|].
    intros p. case_decide; [|done]. subst p. rewrite rd_at by lia. f_equal. lia.
  - rewrite rd_at by lia. cbn [mbind option_bind]. rewrite i32_id by done.
    destruct (wr_ok (num_computed s) r (at_ (num_computed s) r + advance_by b))
      as (nc & -> & Hl & E1 & E2); [lia|].
    exists nc. split_and!; [done|done|]. intros p. case_decide; subst; auto.
Qed.

(** What one request does to the state: its own row is updated, the others stay. *)
Lemma update_one_ok b s :
  0 <= b < n -> 0 <= at_ idx_mapping b -> shape_ok s -> active_ok s b ->
  exists s', update_one last_stride bins_stride sampled_stride tokens_stride idx_mapping sampled_tokens
               num_sampled num_rejected query_start_loc b s = Some s' /\
    same_shape s s' /\ row_updated s s' b /\
    (forall r, 0 <= r -> r <> at_ idx_mapping b -> row_same s s' r).
Proof.
  intros Hb Hr0 Sh Ak. unfold update_one. pose proof (ak_state _ _ Ak) as Hr.
  destruct (ak_len _ _ Ak) as [Hlen Hle]. destruct (sk_batch _ Sh) as (Hn1 & Hn2 & _).
  destruct (sk_rooms _ Sh) as (_ & _ & Hr3 & Hr4).
  destruct (sk_strides _ Sh) as (Hs1 & _). destruct (ak_sampled _ _ Ak) as (Hs & _).
  unfold n in Hb. rewrite (rd_at idx_mapping) by lia. cbn [mbind option_bind].
  rewrite (proj2 (Z.ltb_ge (at_ idx_mapping b) 0)) by lia.
  rewrite (rd_at (total_len s)), (rd_at num_sampled) by lia. cbn [mbind option_bind].
  destruct (record_last_ok b s Sh Ak) as (ls & tl & E & Hls & Htl & Etl & Els). rewrite E. clear E.
  cbn [mbind option_bind].
  set (s1 := mkReqStates (num_computed s) ls (bin_counts s) (all_tokens s) tl).
  destruct (append_ok b s s1 (at_ (total_len s) (at_ idx_mapping b)) Sh Ak eq_refl eq_refl)
    as (toks & bins & E & Htk & Etk & Hbins); [lia|lia|]. rewrite E. clear E. cbn [mbind option_bind].
  set (s2 := mkReqStates _ _ bins toks _).
  destruct (advance_ok b s Hb Sh Ak s2 eq_refl) as (nc & E & Hnc & Enc). cbn [mbind option_bind] in E.
  rewrite E. clear E. eexists. split; [done|].
  unfold same_shape, row_updated, row_same, bins_after in *. cbn in *.
  set (r := at_ idx_mapping b) in *. split_and!; try done.
  - destruct (bin_counts s), bins; simpl; try done. f_equal. apply Hbins.
  - by rewrite Enc, decide_True.
  - by rewrite Etl, decide_True.
  - by rewrite Els, decide_True.
  - intros j Hj. rewrite Etk. clear -Hj. 
    replace (r * tokens_stride + j - (r * tokens_stride + at_ (total_len s) r))
      with (j - at_ (total_len s) r) by lia.
    destruct (Z.leb_spec 0 (j - at_ (total_len s) r)), (Z.leb_spec (at_ (total_len s) r) j),
      (Z.ltb_spec (j - at_ (total_len s) r) (at_ num_sampled b)),
      (Z.ltb_spec j (at_ (total_len s) r + at_ num_sampled b)); simpl; try done; lia.
  - destruct (bin_counts s) as [c|], bins as [c'|]; try done. intros v Hv.
    rewrite (proj2 Hbins). replace (r * bins_stride + v - r * bins_stride) with v by lia.
    by rewrite (proj2 (Z.leb_le _ _)), (proj2 (Z.ltb_lt _ _)) by lia.
  - intros r' Hr' Hne. split_and!.
    + by rewrite Enc, decide_False.
    + by rewrite Etl, decide_False.
    + rewrite Els, decide_False; [done|]. nia.
    + intros j Hj. rewrite Etk.
      destruct (Z.leb_spec 0 (r' * tokens_stride + j - (r * tokens_stride + at_ (total_len s) r))); [|done].
      destruct (Z.ltb_spec (r' * tokens_stride + j - (r * tokens_stride + at_ (total_len s) r))
                  (at_ num_sampled b)); [|done]. exfalso.
      apply (cell_ne r r' tokens_stride (r' * tokens_stride + j - r * tokens_stride) j); lia.
    + destruct (bin_counts s) as [c|], bins as [c'|]; try done. intros v Hv.
      rewrite (proj2 Hbins).
      destruct (Z.leb_spec 0 (r' * bins_stride + v - r * bins_stride)); [|done].
      destruct (Z.ltb_spec (r' * bins_stride + v - r * bins_stride) bins_stride); [|done]. exfalso.
      apply (cell_ne r r' bins_stride (r' * bins_stride + v - r * bins_stride) v); lia.
Qed.

(** *** The batch *)

Lemma row_same_refl s r : row_same s s r.
Proof. unfold row_same. destruct (bin_counts s); done. Qed.

Lemma row_same_trans s1 s2 s3 r : row_same s1 s2 r -> row_same s2 s3 r -> row_same s1 s3 r.
Proof.
  unfold row_same. intros (A1 & A2 & A3 & A4 & A5) (B1 & B2 & B3 & B4 & B5).
  split_and!; [congruence..|intros j Hj; rewrite B4, A4; done|].
  destruct (bin_counts s1), (bin_counts s2), (bin_counts s3); try done. intros v Hv. rewrite B5, A5; done.
Qed.

Lemma same_shape_ok s s' : same_shape s s' -> shape_ok s -> shape_ok s'.
Proof.
  intros (E1 & E2 & E3 & E4 & E5) [Sa Sb Sc]. split; [done|done|]. rewrite E1, E2, E3, E4.
  destruct (bin_counts s) as [c|], (bin_counts s') as [c'|]; simplify_eq/=; [|done].
  by rewrite E5.
Qed.

(** A row that has not been touched keeps its guarantees. *)
Lemma active_ok_same s s' b :
  same_shape s s' -> row_same s s' (at_ idx_mapping b) -> shape_ok s -> active_ok s b -> active_ok s' b.
Proof.
  intros (E1 & E2 & E3 & E4 & E5) (R1 & R2 & _ & _ & R5) Sh [A1 A2 A3 A4 A5 A6].
  assert (at_ (total_len s') (at_ idx_mapping b) = at_ (total_len s) (at_ idx_mapping b)) as Et
    by (apply at_cong; [lia|done]).
  assert (at_ (num_computed s') (at_ idx_mapping b) = at_ (num_computed s) (at_ idx_mapping b)) as En
    by (apply at_cong; [lia|done]).
  split; [lia|done|by rewrite Et|by rewrite En|done|].
  destruct (sk_strides _ Sh) as (_ & _ & Hs).
  destruct (bin_counts s) as [c|], (bin_counts s') as [c'|]; try done.
  destruct A6 as [A6 A7]. split; [done|]. intros v Hv.
  rewrite (at_cong c' c) by (nia || by apply R5). by apply A7.
Qed.

(** An update seen from an earlier state with the same row, and to a later one. *)
Lemma row_updated_after s0 s s' b :
  0 <= at_ idx_mapping b -> 0 <= bins_stride ->
  row_same s0 s (at_ idx_mapping b) -> row_updated s s' b -> row_updated s0 s' b.
Proof.
  intros Hr Hs (R1 & R2 & R3 & R4 & R5) (U1 & U2 & U3 & U4 & U5). unfold row_updated.
  assert (at_ (total_len s0) (at_ idx_mapping b) = at_ (total_len s) (at_ idx_mapping b)) as ->
    by (apply at_cong; [lia|done]).
  assert (at_ (num_computed s0) (at_ idx_mapping b) = at_ (num_computed s) (at_ idx_mapping b)) as ->
    by (apply at_cong; [lia|done]).
  split_and!; [done|done|by rewrite U3, R3|intros j Hj; rewrite U4, R4; done|].
  destruct (bin_counts s0) as [c0|], (bin_counts s) as [c|], (bin_counts s') as [c'|]; try done.
  intros v Hv. rewrite U5 by done. by rewrite (at_cong c c0) by (nia || by apply R5).
Qed.

Lemma row_updated_before s0 s s' b :
  row_updated s0 s b -> row_same s s' (at_ idx_mapping b) -> row_updated s0 s' b.
Proof.
  intros (U1 & U2 & U3 & U4 & U5) (R1 & R2 & R3 & R4 & R5). unfold row_updated.
  split_and!; [congruence..|intros j Hj; by rewrite R4, U4|].
  destruct (bin_counts s0) as [c0|], (bin_counts s) as [c|], (bin_counts s') as [c'|]; try done.
  intros v Hv. by rewrite R5, U5.
Qed.

Lemma same_shape_trans s1 s2 s3 : same_shape s1 s2 -> same_shape s2 s3 -> same_shape s1 s3.
Proof. unfold same_shape. intros (?&?&?&?&?) (?&?&?&?&?). split_and!; congruence. Qed.

Lemma post_update_facts s0 :
  post_ok s0 ->
  exists s', post_update_cpu last_stride bins_stride sampled_stride tokens_stride idx_mapping
               sampled_tokens num_sampled num_rejected query_start_loc s0 = Some s' /\
    same_shape s0 s' /\
    (forall b, 0 <= b < n -> 0 <= at_ idx_mapping b -> row_updated s0 s' b) /\
    (forall r, 0 <= r -> (forall b, 0 <= b < n -> at_ idx_mapping b <> r) -> row_same s0 s' r).
Proof.
  intros P. unfold post_update_cpu. fold n. destruct (sk_strides _ (pk_shape _ P)) as (_ & _ & Hbs).
  destruct (for_range_inv (fun i s => same_shape s0 s /\
    (forall b, 0 <= b < i -> 0 <= at_ idx_mapping b -> row_updated s0 s b) /\
    (forall r, 0 <= r -> (forall b, 0 <= b < i -> at_ idx_mapping b <> r) -> row_same s0 s r)) 0 n
    (update_one last_stride bins_stride sampled_stride tokens_stride idx_mapping sampled_tokens
       num_sampled num_rejected query_start_loc) s0) as (s' & E & HI).
  - unfold n. lia.
  - split_and!; [done..|lia|]. intros. apply row_same_refl.
  - intros i s Hi (I1 & I2 & I3). destruct (Z.lt_ge_cases (at_ idx_mapping i) 0) as [Hneg|Hpos].
    + exists s. split.
      { unfold update_one. rewrite (rd_at idx_mapping i) by (unfold n in Hi; lia). cbn [mbind option_bind].
        by rewrite (proj2 (Z.ltb_lt _ _)). }
      split_and!; [done| |].
      * intros b Hb Hbp. apply I2; [|done]. destruct (decide (b = i)); subst; lia.
      * intros r Hr Hf. apply I3; [done|]. intros b Hb. apply Hf. lia.
    + assert (row_same s0 s (at_ idx_mapping i)) as Hsame.
      { apply I3; [done|]. intros b Hb Heq.
        assert (i = b) by (apply (pk_distinct _ P); [lia|lia|done|done]). lia. }
      destruct (update_one_ok i s) as (s' & E & J1 & J2 & J3); [done|done| | |].
      { by apply (same_shape_ok s0), (pk_shape _ P). }
      { apply (active_ok_same s0); [done..|apply (pk_shape _ P)|]. by apply (pk_active _ P). }
      exists s'. split; [done|]. split_and!.
      * by eapply same_shape_trans.
      * intros b Hb Hbp. destruct (decide (b = i)) as [->|Hne].
        -- by apply (row_updated_after s0 s).
        -- apply (row_updated_before s0 s); [apply I2; [lia|done]|]. apply J3; [done|]. intros Heq.
           apply Hne, (pk_distinct _ P); [lia|lia|done|done].
      * intros r Hr Hf. apply (row_same_trans s0 s); [apply I3; [done|]; intros b Hb; apply Hf; lia|].
        apply J3; [done|]. intros ->. apply (Hf i); [lia|done].
  - exists s'. split; [done|]. done.
Qed.
End post_update.

(** ** The claims *)

(** Positions and sequence lengths of a step: a token of request [b] gets the
    next position after the computed ones, the sequence length is computed plus
    scheduled tokens, and the rows of the padding are zero. *)
Theorem pos_seq_lens_spec (idx_mapping query_start_loc num_computed_tokens pos seq_lens : list Z) :
  pos_ok idx_mapping query_start_loc num_computed_tokens pos seq_lens ->
  exists pos' seq', prepare_pos_seq_lens_cpu idx_mapping query_start_loc num_computed_tokens pos seq_lens
                    = Some (pos', seq') /\
    (forall b t, 0 <= b < Z.of_nat (length idx_mapping) ->
       at_ query_start_loc b <= t < at_ query_start_loc (b + 1) ->
       rd pos' t = Some (computed idx_mapping num_computed_tokens b + (t - at_ query_start_loc b))) /\
    (forall b, 0 <= b < Z.of_nat (length idx_mapping) ->
       rd seq' b = Some (computed idx_mapping num_computed_tokens b + query_len query_start_loc b)) /\
    (forall b, Z.of_nat (length idx_mapping) <= b < Z.of_nat (length seq_lens) -> rd seq' b = Some 0).
Proof. apply pos_seq_lens_facts. Qed.

Lemma pos_seq_lens_spec_witness :
  exists pos' seq', prepare_pos_seq_lens_cpu [2; 0] [0; 2; 3] [7; 9; 4] [0; 0; 0; 0] [5; 5; 5]
                    = Some (pos', seq') /\ rd pos' 1 = Some 5 /\ rd seq' 1 = Some 8 /\ rd seq' 2 = Some 0.
Proof.
  destruct (pos_seq_lens_spec [2; 0] [0; 2; 3] [7; 9; 4] [0; 0; 0; 0] [5; 5; 5])
    as (pos' & seq' & E & H1 & H2 & H3).
  - split.
    + split; [done|simpl; lia|vm_compute; discriminate|vm_compute; discriminate|].
      intros b Hb. assert (b = 0 \/ b = 1) as [-> | ->] by (simpl in Hb; lia); vm_compute; discriminate.
    + simpl. lia.
    + intros b Hb. assert (b = 0 \/ b = 1) as [-> | ->] by (simpl in Hb; lia); vm_compute; done.
  - exists pos', seq'. split; [exact E|]. split; [|split].
    + exact (H1 0 1 ltac:(simpl; lia) ltac:(vm_compute; split; (reflexivity || discriminate))).
    + exact (H2 1 ltac:(simpl; lia)).
    + exact (H3 2 ltac:(simpl; lia)).
Defined.

(** [C15] Folding a step back: the row of every active request gets its sampled
    tokens appended, its length, last token, computed count and token counts
    advanced exactly once, and every other row is unchanged. *)
Theorem post_update_spec (last_stride bins_stride sampled_stride tokens_stride : Z)
    (idx_mapping sampled_tokens num_sampled num_rejected : list Z)
    (query_start_loc : option (list Z)) (s0 : ReqStates) :
  post_ok last_stride bins_stride sampled_stride tokens_stride idx_mapping sampled_tokens num_sampled
    num_rejected query_start_loc s0 ->
  exists s', post_update_cpu last_stride bins_stride sampled_stride tokens_stride idx_mapping
               sampled_tokens num_sampled num_rejected query_start_loc s0 = Some s' /\
    same_shape s0 s' /\
    (forall b, 0 <= b < Z.of_nat (length idx_mapping) -> 0 <= at_ idx_mapping b ->
       row_updated last_stride bins_stride sampled_stride tokens_stride idx_mapping sampled_tokens
         num_sampled num_rejected query_start_loc s0 s' b) /\
    (forall r, 0 <= r -> (forall b, 0 <= b < Z.of_nat (length idx_mapping) -> at_ idx_mapping b <> r) ->
       row_same last_stride bins_stride tokens_stride s0 s' r).
Proof. apply post_update_facts. Qed.

(** Two states of four tokens over a vocabulary of three. *)
Definition demo_states : ReqStates :=
  mkReqStates [1; 1] [0; 0] (Some [0; 1; 0; 0; 1; 0]) [1; 0; 0; 0; 1; 0; 0; 0] [1; 1].

Lemma post_update_spec_witness :
  exists s', post_update_cpu 1 3 2 4 [1; -1] [2; 2; 0; 0] [2; 0] [0; 0] (Some [0; 1; 2]) demo_states
             = Some s' /\
    row_updated 1 3 2 4 [1; -1] [2; 2; 0; 0] [2; 0] [0; 0] (Some [0; 1; 2]) demo_states s' 0 /\
    row_same 1 3 4 demo_states s' 0.
Proof.
  destruct (post_update_spec 1 3 2 4 [1; -1] [2; 2; 0; 0] [2; 0] [0; 0] (Some [0; 1; 2]) demo_states)
    as (s' & E & _ & H1 & H2).
  - split.
    + split; vm_compute; repeat split; (discriminate || lia).
    + intros b Hb Ha. assert (b = 0 \/ b = 1) as [-> | ->] by (simpl in Hb; lia);
        [|exfalso; vm_compute in Ha; by apply Ha].
      split; [vm_compute; repeat split; (reflexivity || discriminate)..| |].
      * intros i Hi. change (at_ [2; 0] 0) with 2 in Hi.
        assert (i = 0 \/ i = 1) as [-> | ->] by lia; vm_compute; split; (reflexivity || discriminate).
      * split.
        -- intros i Hi. change (at_ [2; 0] 0) with 2 in Hi.
           assert (i = 0 \/ i = 1) as [-> | ->] by lia; vm_compute; reflexivity.
        -- intros v Hv. assert (v = 0 \/ v = 1 \/ v = 2) as [-> | [-> | ->]] by lia;
             vm_compute; split; (reflexivity || discriminate).
    + intros b b' Hb Hb'. simpl in Hb, Hb'.
      assert (b = 0 \/ b = 1) as [-> | ->] by lia; assert (b' = 0 \/ b' = 1) as [-> | ->] by lia;
        vm_compute; try done; intros Ha; by destruct Ha.
  - exists s'. split; [exact E|]. split.
    + exact (H1 0 ltac:(simpl; lia) ltac:(vm_compute; discriminate)).
    + apply H2; [lia|]. intros b Hb. assert (b = 0 \/ b = 1) as [-> | ->] by (simpl in Hb; lia);
        vm_compute; discriminate.
Defined.

End InputBatch.
