(* ===== verification/FsIo.v ===== *)
(** * Block files ([csrc/fs_io.cpp])

    Key-value blocks are offloaded to files: a block is written under a temporary
    name and renamed to its destination, a load deletes the file when its single
    read was short.  The code is a program over system calls; what a call may do is
    the operating system's business and enters as the relation [sys], assumed to
    stay within the documented behaviour [allowed].

    - [FsIo]: the programs, from the single block to the Python entry points;
    - the sequential outcome of a store and of a load, error branch by error branch;
    - any interleaving of any number of stores and loads (rely/guarantee): a
      published block is complete at every moment, and a block is only removed by
      a load of it to which the system gave fewer bytes than the file holds. *)

From Stdlib Require Import Ascii.
From stdpp Require Import strings gmap relations.
From S2P Require Import Prelude.

#[local] Open Scope Z_scope.

Module FsIo.

(** ** System calls *)

(** The result of a call, or -1 with [errno]. *)
Inductive res (A : Type) := Ok (a : A) | Errno (e : Z).
Arguments Ok {A} a.
Arguments Errno {A} e.

Inductive call : Type -> Type :=
  | Access (p : string) : call (res unit)
  | CreateDirectories (p : string) : call (res unit)
  | OpenExcl (p : string) (o_direct : bool) : call (res Z)   (* O_CREAT|O_EXCL|O_WRONLY|O_TRUNC *)
  | OpenRd (p : string) (o_direct : bool) : call (res Z)     (* O_RDONLY *)
  | Write_ (fd : Z) (src : list Z) : call (res Z)            (* bytes written *)
  | Read_ (fd : Z) (size : Z) : call (res (list Z))          (* bytes read *)
  | Close (fd : Z) : call (res unit)
  | Rename (old new : string) : call (res unit)
  | Unlink (p : string) : call (res unit).

(** Programs over system calls. *)
Inductive prog (A : Type) :=
  | Ret (a : A)
  | Call {R : Type} (c : call R) (k : R -> prog A).
Arguments Ret {A} a.
Arguments Call {A R} c k.

Fixpoint bind {A B} (p : prog A) (f : A -> prog B) : prog B :=
  match p with
  | Ret a => f a
  | Call c k => Call c (fun r => bind (k r) f)
  end.

#[global] Instance prog_bind : MBind prog := fun A B f p => bind p f.
Definition sys_call {R} (c : call R) : prog R := Call c Ret.

(** [errno] values the code names. *)
Definition EIO : Z := 5.
Definition EEXIST : Z := 17.

(** ** Paths *)

Definition slash : ascii := "/"%char.

Fixpoint drop_while {A} (f : A -> bool) (l : list A) : list A :=
  match l with
  | [] => []
  | x :: l' => if f x then drop_while f l' else l
  end.

Definition is_slash (c : ascii) : bool := Ascii.eqb c slash.

(** [std::filesystem::path::parent_path]: the path itself without a relative
    part, else without its last component and the separators before it, the
    root excepted. *)
Definition parent_path (p : string) : string :=
  let l := String.list_ascii_of_string p in
  if forallb is_slash l then p
  else
    let stem := drop_while (fun c => negb (is_slash c)) (rev l) in
    let dir := drop_while is_slash stem in
    String.string_of_list_ascii (rev (if decide (dir = []) then stem else dir)).

(** ** The blocks *)

(** [ensure_parent_dirs] *)
Definition ensure_parent_dirs (path : string) : prog Z :=
  let parent := parent_path path in
  if String.eqb parent "" then Ret 0
  else
    r ← sys_call (CreateDirectories parent);
    Ret (match r with Errno e => e | Ok _ => 0 end).

(** [_store_block], from the created temporary file on. *)
Definition write_and_publish (tmp_path dest_path : string) (src : list Z) (fd : Z) : prog Z :=
  written ← sys_call (Write_ fd src);
  if match written with Ok k => k =? Z.of_nat (length src) | Errno _ => false end then
    closed ← sys_call (Close fd);
    match closed with
    | Errno err => _ ← sys_call (Unlink tmp_path); Ret err
    | Ok _ =>
        renamed ← sys_call (Rename tmp_path dest_path);
        match renamed with
        | Errno err => _ ← sys_call (Unlink tmp_path); Ret (if err =? EEXIST then 0 else err)
        | Ok _ => Ret 0
        end
    end
  else
    _ ← sys_call (Close fd);
    _ ← sys_call (Unlink tmp_path);
    Ret (match written with Errno err => err | Ok _ => EIO end).

(** [_store_block], from the creation of the temporary file on. *)
Definition create_and_publish (tmp_path dest_path : string) (src : list Z) (use_o_direct : bool) : prog Z :=
  opened ← sys_call (OpenExcl tmp_path use_o_direct);
  match opened with
  | Errno e => Ret e
  | Ok fd => write_and_publish tmp_path dest_path src fd
  end.

(** [_store_block] *)
Definition store_block (tmp_path dest_path : string) (src : list Z) (use_o_direct : bool) : prog Z :=
  present ← sys_call (Access dest_path);
  match present with
  | Ok _ => Ret 0
  | Errno _ =>
      err ← ensure_parent_dirs dest_path;
      if negb (err =? 0) then Ret err else create_and_publish tmp_path dest_path src use_o_direct
  end.

(** [_load_block]: the errno and the destination buffer, whose length is [size]. *)
Definition load_block (source_path : string) (dst : list Z) (use_o_direct : bool) : prog (Z * list Z) :=
  opened ← sys_call (OpenRd source_path use_o_direct);
  match opened with
  | Errno e => Ret (e, dst)
  | Ok fd =>
      bytes_read ← sys_call (Read_ fd (Z.of_nat (length dst)));
      match bytes_read with
      | Errno err => _ ← sys_call (Close fd); Ret (err, dst)
      | Ok l =>
          let dst' := l ++ drop (length l) dst in
          if Z.of_nat (length l) <? Z.of_nat (length dst) then
            _ ← sys_call (Close fd);
            _ ← sys_call (Unlink source_path);
            Ret (EIO, dst')
          else _ ← sys_call (Close fd); Ret (0, dst')
      end
  end.

(** [_batch_lookup] *)
Fixpoint batch_lookup_flags (paths : list string) : prog (list bool) :=
  match paths with
  | [] => Ret []
  | p :: ps =>
      r ← sys_call (Access p);
      flags ← batch_lookup_flags ps;
      Ret ((match r with Ok _ => true | Errno _ => false end) :: flags)
  end.

(** ** The Python entry points *)

(** A list element that should be a [str]: [None] when it has no UTF-8 form; one
    that should be bytes-like, with the number of its exported buffers. *)
Record PyBuf := mkPyBuf { pb_bytes : option (list Z); pb_readonly : bool; pb_exports : Z }.

Inductive PyResult (A : Type) :=
  | PyReturn (a : A)
  | PyValueError
  | PyStrError
  | PyBufferError
  | PyOSError (errno : Z) (filename : string) (num_succeeded : option Z).
Arguments PyReturn {A} a.
Arguments PyValueError {A}.
Arguments PyStrError {A}.
Arguments PyBufferError {A}.
Arguments PyOSError {A} errno filename num_succeeded.

(** [extract_str_list] *)
Definition extract_str_list (l : list (option string)) : option (list string) := mapM id l.

(** [PyObject_GetBuffer] and [PyBuffer_Release]. *)
Definition get_buffer (writable : bool) (b : PyBuf) : option (PyBuf * list Z) :=
  match pb_bytes b with
  | Some l => if writable && pb_readonly b then None
              else Some (mkPyBuf (pb_bytes b) (pb_readonly b) (pb_exports b + 1), l)
  | None => None
  end.

Definition release_buffer (b : PyBuf) : PyBuf :=
  mkPyBuf (pb_bytes b) (pb_readonly b) (pb_exports b - 1).

(** [extract_buffer_list]: the objects afterwards, and the buffers unless one
    failed, in which case those acquired before it are released. *)
Fixpoint extract_buffer_list (writable : bool) (done_ : list PyBuf) (l : list PyBuf)
  : list PyBuf * option (list (list Z)) :=
  match l with
  | [] => (done_, Some [])
  | b :: l' =>
      match get_buffer writable b with
      | None => (map release_buffer done_ ++ b :: l', None)
      | Some (b', bytes) =>
          let '(objs, r) := extract_buffer_list writable (done_ ++ [b']) l' in
          (objs, (fun bs => bytes :: bs) <$> r)
      end
  end.

Definition release_buffer_list (l : list PyBuf) : list PyBuf := map release_buffer l.

(** The loop of [batch_store_block]: the failed index and its errno. *)
Fixpoint store_loop (i : Z) (blocks : list (string * string * list Z)) (use_o_direct : bool)
  : prog (option (Z * Z)) :=
  match blocks with
  | [] => Ret None
  | (tmp, dest, buf) :: blocks =>
      err ← store_block tmp dest buf use_o_direct;
      if negb (err =? 0) then Ret (Some (i, err)) else store_loop (i + 1) blocks use_o_direct
  end.

Definition batch_store_block (tmp_paths dest_paths : list (option string)) (buffers : list PyBuf)
    (use_o_direct : bool) : prog (list PyBuf * PyResult unit) :=
  let n := length tmp_paths in
  if negb (Nat.eqb (length dest_paths) n) || negb (Nat.eqb (length buffers) n)
  then Ret (buffers, PyValueError)
  else
    match extract_str_list tmp_paths, extract_str_list dest_paths with
    | Some tmps, Some dests =>
        match extract_buffer_list false [] buffers with
        | (objs, None) => Ret (objs, PyBufferError)
        | (objs, Some bufs) =>
            failed ← store_loop 0 (zip (zip tmps dests) bufs) use_o_direct;
            let objs := release_buffer_list objs in
            Ret (objs, match failed with
                       | Some (i, e) => PyOSError e (dests !!! Z.to_nat i) None
                       | None => PyReturn tt
                       end)
        end
    | _, _ => Ret (buffers, PyStrError)
    end.

(** The loop of [batch_load_block]: also the buffers it leaves. *)
Fixpoint load_loop (i : Z) (blocks : list (string * list Z)) (use_o_direct : bool)
  : prog (option (Z * Z) * list (list Z)) :=
  match blocks with
  | [] => Ret (None, [])
  | (source, buf) :: blocks' =>
      '(err, buf) ← load_block source buf use_o_direct;
      if negb (err =? 0) then Ret (Some (i, err), buf :: map snd blocks')
      else
        '(failed, bufs) ← load_loop (i + 1) blocks' use_o_direct;
        Ret (failed, buf :: bufs)
  end.

(** The objects after the buffers were written through. *)
Definition store_bytes (b : PyBuf) (l : list Z) : PyBuf := mkPyBuf (Some l) (pb_readonly b) (pb_exports b).

Definition batch_load_block (source_paths : list (option string)) (buffers : list PyBuf)
    (use_o_direct : bool) : prog (list PyBuf * PyResult unit) :=
  if negb (Nat.eqb (length buffers) (length source_paths)) then Ret (buffers, PyValueError)
  else
    match extract_str_list source_paths with
    | None => Ret (buffers, PyStrError)
    | Some sources =>
        match extract_buffer_list true [] buffers with
        | (objs, None) => Ret (objs, PyBufferError)
        | (objs, Some bufs) =>
            '(failed, bufs) ← load_loop 0 (zip sources bufs) use_o_direct;
            let objs := release_buffer_list (zip_with store_bytes objs bufs) in
            Ret (objs, match failed with
                       | Some (i, e) => PyOSError e (sources !!! Z.to_nat i) (Some i)
                       | None => PyReturn tt
                       end)
        end
    end.

Definition batch_lookup (paths : list (option string)) : prog (PyResult (list bool)) :=
  match extract_str_list paths with
  | None => Ret PyStrError
  | Some paths => flags ← batch_lookup_flags paths; Ret (PyReturn flags)
  end.

(** ** What the calls may do *)

(** The view of regular files: names refer to inodes, inodes hold bytes, an open
    descriptor of a process refers to an inode and an offset.  Directories and
    permissions are not part of the view. *)
Record Fs := mkFs {
  names : gmap string Z; inodes : gmap Z (list Z); fds : gmap (nat * Z) (Z * Z) }.

Definition ENOENT : Z := 2.
Definition failed {A} (r : res A) : Prop := exists e, r = Errno e /\ e <> 0.

(** Documented behaviour: a failing call reports a non-zero [errno] and changes no
    name; [open] with [O_EXCL] creates a new file; a write appends at most the
    bytes given, a failed one leaves its own file unspecified; a read gives at most
    the bytes asked for, possibly fewer than the file holds; [close] always releases the descriptor; [rename]
    replaces its target atomically, and reports [EEXIST] only for an existing one. *)
Definition allowed {R} (pid : nat) (c : call R) (s : Fs) : R -> Fs -> Prop :=
  match c in call R return R -> Fs -> Prop with
  | Access p => fun r s' => s' = s /\
      match r with
      | Ok _ => is_Some (names s !! p)
      | Errno e => e <> 0 /\ (e = ENOENT -> names s !! p = None)
      end
  | CreateDirectories _ => fun r s' => s' = s /\ (r = Ok tt \/ failed r)
  | OpenExcl p _ => fun r s' =>
      (failed r /\ s' = s) \/
      exists fd n, r = Ok fd /\ names s !! p = None /\ inodes s !! n = None /\
        (forall q, names s !! q <> Some n) /\ fds s !! (pid, fd) = None /\
        s' = mkFs (<[p := n]> (names s)) (<[n := []]> (inodes s)) (<[(pid, fd) := (n, 0)]> (fds s))
  | OpenRd p _ => fun r s' =>
      (failed r /\ s' = s) \/
      exists fd n, r = Ok fd /\ names s !! p = Some n /\ fds s !! (pid, fd) = None /\
        s' = mkFs (names s) (inodes s) (<[(pid, fd) := (n, 0)]> (fds s))
  | Write_ fd src => fun r s' =>
      (failed r /\ s' = s) \/
      exists n pos c, fds s !! (pid, fd) = Some (n, pos) /\ inodes s !! n = Some c /\
        ((failed r /\ exists c', s' = mkFs (names s) (<[n := c']> (inodes s)) (fds s)) \/
         exists k, (k <= length src)%nat /\ r = Ok (Z.of_nat k) /\
           s' = mkFs (names s)
                  (<[n := take (Z.to_nat pos) c ++ take k src ++ drop (Z.to_nat pos + k) c]> (inodes s))
                  (<[(pid, fd) := (n, pos + Z.of_nat k)]> (fds s)))
  | Read_ fd size => fun r s' =>
      (failed r /\ s' = s) \/
      exists n pos c k, fds s !! (pid, fd) = Some (n, pos) /\ inodes s !! n = Some c /\
        let l := take k (take (Z.to_nat size) (drop (Z.to_nat pos) c)) in
        r = Ok l /\
        s' = mkFs (names s) (inodes s) (<[(pid, fd) := (n, pos + Z.of_nat (length l))]> (fds s))
  | Close fd => fun r s' => (r = Ok tt \/ failed r) /\
      s' = mkFs (names s) (inodes s) (delete (pid, fd) (fds s))
  | Rename old new => fun r s' =>
      (exists e, r = Errno e /\ e <> 0 /\ (e = EEXIST -> is_Some (names s !! new)) /\ s' = s) \/
      exists n, r = Ok tt /\ names s !! old = Some n /\
        s' = mkFs (<[new := n]> (delete old (names s))) (inodes s) (fds s)
  | Unlink p => fun r s' =>
      (failed r /\ s' = s) \/
      (r = Ok tt /\ is_Some (names s !! p) /\ s' = mkFs (delete p (names s)) (inodes s) (fds s))
  end.

(** An operating system: calls return, within what is documented. *)
Class Os := sys : forall R, nat -> call R -> Fs -> R -> Fs -> Prop.
Class OsOk `{Os} : Prop := {
  sys_allowed R pid (c : call R) s r s' : sys R pid c s r s' -> allowed pid c s r s';
  sys_total R pid (c : call R) s : exists r s', sys R pid c s r s'
}.

(** What [read] does not promise: to stop early only at the end of the file. *)
Definition reads_full `{Os} : Prop :=
  forall pid fd size s l s' n pos c, sys _ pid (Read_ fd size) s (Ok l) s' ->
    fds s !! (pid, fd) = Some (n, pos) -> inodes s !! n = Some c ->
    l = take (Z.to_nat size) (drop (Z.to_nat pos) c).

(** A process running alone. *)
Fixpoint runs `{Os} {A} (pid : nat) (p : prog A) (s : Fs) (a : A) (s' : Fs) : Prop :=
  match p with
  | Ret x => a = x /\ s' = s
  | @Call _ R c k => exists r s1, sys R pid c s r s1 /\ runs pid (k r) s1 a s'
  end.

(** One call of one of several processes. *)
Definition prog_step `{Os} {A} (pid : nat) (p : prog A) (s : Fs) (p' : prog A) (s' : Fs) : Prop :=
  match p with
  | Ret _ => False
  | @Call _ R c k => exists r, sys R pid c s r s' /\ p' = k r
  end.

Inductive step `{Os} {A} : Fs * list (prog A) -> Fs * list (prog A) -> Prop :=
  | step_one pid s ps p p' s' :
      ps !! pid = Some p -> prog_step pid p s p' s' -> step (s, ps) (s', <[pid := p']> ps).

(** ** A process alone *)

Section alone.
Context `{OsOk}.

Lemma runs_total {A} pid (p : prog A) : forall s, exists a s', runs pid p s a s'.
Proof.
  induction p as [a|R c k IH]; intros s; simpl; [by exists a, s|].
  destruct (sys_total R pid c s) as (r & s1 & E). destruct (IH r s1) as (a & s' & E').
  by exists a, s', r, s1.
Qed.

(** Reasoning backwards through the calls of a run. *)
Fixpoint wlp {A} (pid : nat) (p : prog A) (s : Fs) (Q : A -> Fs -> Prop) : Prop :=
  match p with
  | Ret a => Q a s
  | @Call _ R c k => forall r s', sys R pid c s r s' -> wlp pid (k r) s' Q
  end.

Lemma wlp_runs {A} pid (p : prog A) Q : forall s a s', wlp pid p s Q -> runs pid p s a s' -> Q a s'.
Proof.
  induction p as [x|R c k IH]; intros s a s' Hw; simpl; [by intros [-> ->]|].
  intros (r & s1 & E & Hr). by eapply IH, Hr; apply Hw.
Qed.

(** Every name refers to an existing file; the contents under a name. *)
Definition wf (s : Fs) : Prop := forall p n, names s !! p = Some n -> is_Some (inodes s !! n).
Definition file (s : Fs) (p : string) : option (list Z) := names s !! p ≫= fun n => inodes s !! n.

(** Unlinking an existing name never fails. *)
Definition unlink_works (pid : nat) (p : string) : Prop :=
  forall s r s', sys _ pid (Unlink p) s r s' -> is_Some (names s !! p) -> r = Ok tt.

(** Outcome of a store that ran alone. *)
Record stored (pid : nat) (tmp dest : string) (src : list Z) (s : Fs) (e : Z) (s' : Fs) : Prop := {
  st_fds : fds s' = fds s;
  st_others : forall p, p <> tmp -> p <> dest -> file s' p = file s p;
  st_done : e = 0 -> file s' dest = Some src \/ (is_Some (names s !! dest) /\ file s' dest = file s dest);
  st_error : e <> 0 -> file s' dest = file s dest;
  st_tmp : unlink_works pid tmp -> names s' !! tmp = names s !! tmp
}.

Lemma stored_same pid tmp dest src s e : (e = 0 -> is_Some (names s !! dest)) -> stored pid tmp dest src s e s.
Proof. intros He. split; [done..|by right; auto|done|done]. Qed.

(** The store holds its new file [n] under the temporary name. *)
Record holding (tmp : string) (n : Z) (c : list Z) (s s1 : Fs) : Prop := {
  h_new : names s !! tmp = None /\ (forall q, names s !! q <> Some n);
  h_names : names s1 = <[tmp := n]> (names s);
  h_inodes : inodes s1 = <[n := c]> (inodes s);
  h_fds : fds s1 = fds s
}.

Lemma holding_file tmp n c s s1 p : holding tmp n c s s1 -> p <> tmp -> file s1 p = file s p.
Proof.
  intros [[Hn Hu] En Ei _] Hp. unfold file. rewrite En, Ei, lookup_insert_ne by done.
  destruct (names s !! p) as [m|] eqn:E; [|done]. simpl. rewrite lookup_insert_ne; [done|].
  intros ->. by apply (Hu p).
Qed.

(** Giving up: the temporary file is unlinked. *)
Lemma unlink_tmp pid tmp dest src n c s s1 e :
  tmp <> dest -> holding tmp n c s s1 -> (e = 0 -> is_Some (names s !! dest)) ->
  wlp pid (_ ← sys_call (Unlink tmp); Ret e) s1 (stored pid tmp dest src s).
Proof.
  intros Hne Hh He r s' Hs. pose proof (sys_allowed _ _ _ _ _ _ Hs) as Ha. simpl in *.
  pose proof Hh as [[Hn Hu] En Ei Ef].
  assert (forall p, p <> tmp -> file s' p = file s p) as Hf.
  { intros p Hp. rewrite <- (holding_file _ _ _ _ _ _ Hh Hp).
    destruct Ha as [[_ ->]|(_ & _ & ->)]; [done|]. unfold file. simpl. by rewrite lookup_delete_ne. }
  split.
  - destruct Ha as [[_ ->]|(_ & _ & ->)]; done.
  - auto.
  - right. auto.
  - auto.
  - intros Hw. destruct Ha as [[(e0 & -> & _) ->]|(_ & _ & ->)].
    + by assert (@Errno unit e0 = Ok tt) as [=] by (apply (Hw _ _ _ Hs); rewrite En, lookup_insert_eq; eauto).
    + simpl. by rewrite lookup_delete_eq, Hn.
Qed.

(** From the write on: the rest of a store that has created its file. *)
Lemma store_created pid tmp dest src n fd s s1 :
  tmp <> dest -> names s !! tmp = None -> (forall q, names s !! q <> Some n) ->
  fds s !! (pid, fd) = None ->
  s1 = mkFs (<[tmp := n]> (names s)) (<[n := []]> (inodes s)) (<[(pid, fd) := (n, 0)]> (fds s)) ->
  wlp pid (write_and_publish tmp dest src fd) s1 (stored pid tmp dest src s).
Proof.
  intros Hne Hn Hu Hfd -> w s2 Hw%sys_allowed. simpl in Hw.
  (* whatever was written, after the close only the file is held *)
  assert (exists c, (forall k, w = Ok k -> k = Z.of_nat (length src) -> c = src) /\
    (forall e, w = Errno e -> e <> 0) /\
    forall r s3, allowed pid (Close fd) s2 r s3 -> holding tmp n c s s3) as (c & Hc & He & Hh).
  { rewrite lookup_insert_eq in Hw. destruct Hw as [[(e & -> & He) ->]|(n0 & pos & c0 & [= <- <-] & Hc0 & Hw)].
    { exists []. split; [done|]. split; [congruence|]. intros r s3 [_ ->]. split; simpl; [done..|].
      rewrite delete_insert_eq. by apply delete_id. }
    rewrite lookup_insert_eq in Hc0. simplify_eq.
    destruct Hw as [[(e & -> & He) (c' & ->)]|(k & Hk & -> & ->)].
    - exists c'. split; [done|]. split; [congruence|]. intros r s3 [_ ->]. split; simpl; [done|done| |].
      + apply insert_insert_eq.
      + rewrite delete_insert_eq. by apply delete_id.
    - exists (take k src). split; [|split; [done|]].
      + intros k' [= <-] Ek. apply take_ge. lia.
      + intros r s3 [_ ->]. split; simpl; [done|done| |].
        * rewrite insert_insert_eq. by rewrite drop_nil, app_nil_r.
        * rewrite insert_insert_eq, delete_insert_eq. by apply delete_id. }
  clear Hw. cbn [mbind prog_bind bind sys_call wlp].
  destruct (match w with Ok k => k =? Z.of_nat (length src) | Errno _ => false end) eqn:Ew.
  - destruct w as [k|]; [|done]. apply Z.eqb_eq in Ew. rewrite (Hc k) in Hh by done. clear Hc He.
    intros r s3 Hr%sys_allowed. specialize (Hh _ _ Hr). destruct Hr as [Hr _].
    destruct r as [[]|err].
    + intros m s4 Hm%sys_allowed. destruct Hm as [(e & -> & He & Hex & ->)|(n' & -> & Hn' & ->)].
      * apply (unlink_tmp pid tmp dest src n src s s3); [done|done|].
        destruct (Z.eqb_spec e EEXIST) as [->|]; [|done]. intros _. specialize (Hex eq_refl).
        destruct Hh as [_ En _ _]. rewrite En, lookup_insert_ne in Hex by done. done.
      * destruct Hh as [_ En Ei Ef]. rewrite En, lookup_insert_eq in Hn'. simplify_eq.
        split; simpl; [done| | |done|].
        -- intros p Hp Hp'. unfold file. simpl. rewrite lookup_insert_ne, lookup_delete_ne, En by done.
           rewrite lookup_insert_ne by done. destruct (names s !! p) as [m|] eqn:E; [|done]. simpl.
           rewrite Ei, lookup_insert_ne; [done|]. intros ->. by apply (Hu p).
        -- intros _. left. unfold file. simpl. by rewrite lookup_insert_eq; simpl; rewrite Ei, lookup_insert_eq.
        -- intros _. rewrite lookup_insert_ne, lookup_delete_eq by done. done.
    + destruct Hr as [Hr|(e & [= ->] & He)]; [done|].
      by apply (unlink_tmp pid tmp dest src n src s s3).
  - intros r s3 Hr%sys_allowed. specialize (Hh _ _ Hr).
    apply (unlink_tmp pid tmp dest src n c s s3); [done|done|].
    destruct w as [k|e]; [done|]. intros ->. by destruct (He 0).
Qed.

Lemma store_block_outcome pid tmp dest src o_direct s :
  tmp <> dest -> wlp pid (store_block tmp dest src o_direct) s (stored pid tmp dest src s).
Proof.
  intros Hne r s0 Hs%sys_allowed. destruct Hs as [-> Hr].
  destruct r as [[]|e0]; simpl; [by apply stored_same|]. clear Hr.
  assert (wlp pid (create_and_publish tmp dest src o_direct) s (stored pid tmp dest src s)) as Hopen.
  { intros r s1 Hs%sys_allowed.
    destruct Hs as [[(e & -> & He) ->]|(fd & n & -> & Hn & Hi & Hu & Hf & E1)].
    - by apply stored_same.
    - by apply (store_created pid tmp dest src n fd s s1). }
  unfold ensure_parent_dirs. destruct (String.eqb (parent_path dest) ""); [apply Hopen|].
  intros r s1 Hs%sys_allowed. destruct Hs as [-> [->|(e & -> & He)]]; [apply Hopen|].
  simpl. rewrite (proj2 (Z.eqb_neq e 0)) by done. by apply stored_same.
Qed.

(** Outcome of a load that ran alone: the file is removed when its read gave fewer
    bytes than the buffer has, whether or not the file is that short. *)
Record loaded (pid : nat) (source : string) (dst : list Z) (s : Fs) (r : Z * list Z) (s' : Fs) : Prop := {
  lo_fds : fds s' = fds s;
  lo_others : forall p, p <> source -> file s' p = file s p;
  lo_length : length r.2 = length dst;
  lo_done : r.1 = 0 -> s' = s /\ exists c, file s source = Some c /\ r.2 = take (length dst) c;
  lo_error : r.1 <> 0 -> (s' = s /\ r.2 = dst) \/
    exists c k, file s source = Some c /\ (k <= length c)%nat /\ (k < length dst)%nat /\
      r = (EIO, take k c ++ drop k dst) /\ (reads_full -> k = length c) /\
      (unlink_works pid source -> file s' source = None)
}.

Lemma load_block_outcome pid source dst o_direct s :
  wf s -> wlp pid (load_block source dst o_direct) s (loaded pid source dst s).
Proof.
  intros Hwf r s0 Hs%sys_allowed.
  destruct Hs as [[(e & -> & He) ->]|(fd & n & -> & Hn & Hf & ->)].
  { split; simpl; [done..| |]; [done|by left]. }
  destruct (Hwf _ _ Hn) as [c Hc]. assert (file s source = Some c) as Hfile by (unfold file; by rewrite Hn).
  intros b s1 Hsys. apply sys_allowed in Hsys as Hb. simpl in Hb. rewrite lookup_insert_eq in Hb.
  assert (forall r s2, allowed pid (Close fd) s1 r s2 -> s2 = s) as Hclose.
  { intros r s2 [_ ->].
    destruct Hb as [[_ ->]|(n0 & pos & c0 & k & [= <- <-] & _ & _ & ->)]; simpl;
      rewrite ?insert_insert_eq, delete_insert_eq, delete_id by done; by destruct s. }
  destruct Hb as [[(e & -> & He) _]|(n0 & pos & c0 & k & [= <- <-] & Hc0 & -> & _)].
  { intros r s2 ->%sys_allowed%Hclose. split; simpl; [done..| |]; [done|by left]. }
  rewrite Hc in Hc0. simplify_eq. rewrite drop_0, Nat2Z.id, take_take in *.
  set (m := (k `min` length dst)%nat) in *. cbn [mbind prog_bind bind sys_call wlp].
  assert (length (take m c0) = m `min` length c0)%nat as Hm by apply length_take.
  destruct (Z.ltb_spec (Z.of_nat (length (take m c0))) (Z.of_nat (length dst))) as [Hlt|Hge].
  - intros r s2 ->%sys_allowed%Hclose u s3 Hu. apply sys_allowed in Hu as Ha.
    split; simpl.
    + by destruct Ha as [[_ ->]|(_ & _ & ->)].
    + intros p Hp. destruct Ha as [[_ ->]|(_ & _ & ->)]; [done|]. unfold file. simpl.
      by rewrite lookup_delete_ne.
    + rewrite length_app, length_drop. lia.
    + done.
    + intros _. right. exists c0, (length (take m c0)).
      split_and!; [done|lia|lia| | |].
      * assert (take (length (take m c0)) c0 = take m c0) as -> by (by rewrite Hm, <- take_take, firstn_all).
        done.
      * intros HF. assert (take m c0 = take (length dst) c0) as Et.
        { etrans; [eapply (HF _ _ _ _ _ _ n 0 c0 Hsys); simpl; [by rewrite lookup_insert_eq|done]|].
          by rewrite drop_0, Nat2Z.id. }
        rewrite Et in Hlt |- *. rewrite length_take in *. lia.
      * intros Hw. destruct Ha as [[(e & -> & _) ->]|(_ & _ & ->)].
        -- by assert (@Errno unit e = Ok tt) as [=] by (apply (Hw _ _ _ Hu); rewrite Hn; eauto).
        -- unfold file. simpl. by rewrite lookup_delete_eq.
  - intros r s2 ->%sys_allowed%Hclose. simpl. rewrite drop_ge, app_nil_r by lia.
    split; simpl; [done|done|lia| |done]. intros _. split; [done|]. exists c0. split; [done|].
    f_equal. lia.
Qed.

End alone.

(** ** Processes together

    Process [i] has its own temporary names; [block d] is the content that belongs
    under the destination [d] (destinations are content hashes), and [kept d] says
    that no load of [d] can come out short. *)

Section together.
Context `{OsOk}.
Variable block : string -> option (list Z).
Variable owner : string -> option nat.   (* of a temporary name *)
Variable kept : string -> Prop.
Hypothesis owner_not_dest : forall d c, block d = Some c -> owner d = None.

(** Whatever is published is complete. *)
Record Inv (s : Fs) : Prop := {
  inv_wf : wf s;
  inv_inj : forall p q n, names s !! p = Some n -> names s !! q = Some n -> p = q;
  inv_block : forall d c n, block d = Some c -> names s !! d = Some n -> inodes s !! n = Some c
}.

(** What process [i] relies on when others run: its temporary file and its
    descriptors are its own, a file outside the temporary names is never written
    again, a published destination that is [kept] stays published. *)
Record rely (i : nat) (s s' : Fs) : Prop := {
  rl_tmp : forall p, owner p = Some i -> names s' !! p = names s !! p;
  rl_own : forall p n, owner p = Some i -> names s !! p = Some n -> inodes s' !! n = inodes s !! n;
  rl_fds : forall fd, fds s' !! (i, fd) = fds s !! (i, fd);
  rl_settled : forall n c, inodes s !! n = Some c -> (forall p, is_Some (owner p) -> names s !! p <> Some n) ->
    inodes s' !! n = Some c /\ forall p, is_Some (owner p) -> names s' !! p <> Some n;
  rl_dests : forall d c, block d = Some c -> kept d -> is_Some (names s !! d) -> is_Some (names s' !! d)
}.

Definition guar (i : nat) (s s' : Fs) : Prop := forall j, j <> i -> rely j s s'.

Lemma rely_refl i s : rely i s s.
Proof. split; auto. Qed.

Lemma rely_trans i s1 s2 s3 : rely i s1 s2 -> rely i s2 s3 -> rely i s1 s3.
Proof.
  intros [A1 A2 A3 A4 A5] [B1 B2 B3 B4 B5]. split.
  - intros p Hp. by rewrite B1, A1.
  - intros p n Hp Hn. rewrite (B2 p) by (done || by rewrite A1). eauto.
  - intros fd. by rewrite B3.
  - intros n c Hn Ht. destruct (A4 n c Hn Ht). auto.
  - eauto.
Qed.

(** [p] keeps the invariant and the guarantee whatever the others do, and ends in [Q]. *)
Fixpoint wp {A} (i : nat) (p : prog A) (Q : A -> Fs -> Prop) (s : Fs) : Prop :=
  match p with
  | Ret a => Q a s
  | @Call _ R c k => forall r s', sys R i c s r s' ->
      Inv s' /\ guar i s s' /\ forall s2, Inv s2 -> rely i s' s2 -> wp i (k r) Q s2
  end.

Definition stable (i : nat) (Q : Fs -> Prop) : Prop := forall s s', Q s -> Inv s' -> rely i s s' -> Q s'.

Lemma wp_bind {A B} i (p : prog A) (f : A -> prog B) Q : forall s,
  wp i p (fun a s => wp i (f a) Q s) s -> wp i (p ≫= f) Q s.
Proof.
  induction p as [a|R c k IH]; intros s Hw; simpl in *; [done|].
  intros r s' Hr. destruct (Hw r s' Hr) as (I & G & K). split_and!; [done|done|]. auto.
Qed.

Lemma wp_mono {A} i (p : prog A) (Q Q' : A -> Fs -> Prop) : forall s,
  (forall a s', Inv s' -> Q a s' -> Q' a s') -> Inv s -> wp i p Q s -> wp i p Q' s.
Proof.
  induction p as [a|R c k IH]; intros s HQ Hi Hw; simpl in *; [auto|].
  intros r s' Hr. destruct (Hw r s' Hr) as (I & G & K). split_and!; [done|done|]. auto.
Qed.

(** *** The calls *)

Lemma guar_same i s : guar i s s.
Proof. intros j _. apply rely_refl. Qed.

(** Only the descriptors of [i] change. *)
Lemma guar_fds i s f : (forall j fd, j <> i -> f !! (j, fd) = fds s !! (j, fd)) ->
  Inv s -> Inv (mkFs (names s) (inodes s) f) /\ guar i s (mkFs (names s) (inodes s) f).
Proof. intros Hf [I1 I2 I3]. split; [by split|]. intros j Hj. split; simpl; auto. Qed.

Lemma tmp_ne_dest tmp i d c : owner tmp = Some i -> block d = Some c -> d <> tmp.
Proof. intros Ho Hd ->. apply owner_not_dest in Hd. congruence. Qed.

Lemma tmp_ne_other tmp p i j : owner tmp = Some i -> owner p = Some j -> j <> i -> p <> tmp.
Proof. congruence. Qed.

Lemma create_step i tmp s n fd :
  owner tmp = Some i -> Inv s -> names s !! tmp = None -> inodes s !! n = None -> (forall q, names s !! q <> Some n) ->
  let s' := mkFs (<[tmp := n]> (names s)) (<[n := []]> (inodes s)) (<[(i, fd) := (n, 0)]> (fds s)) in
  Inv s' /\ guar i s s'.
Proof.
  intros Ho [I1 I2 I3] Ht Hn Hu. split; [split|].
  - intros p m. simpl. rewrite lookup_insert_Some. intros [[<- <-]|[Hp Hm]].
    + rewrite lookup_insert_eq. eauto.
    + destruct (decide (m = n)) as [->|]; [rewrite lookup_insert_eq; eauto|].
      rewrite lookup_insert_ne by done. by eapply I1.
  - intros p q m. simpl. rewrite !lookup_insert_Some.
    intros [[<- <-]|[Hp Hm]] [[<- E]|[Hq Hm']]; try done; subst; try by destruct (Hu _ Hm).
    + by destruct (Hu _ Hm').
    + by eapply I2.
  - intros d c m Hd. simpl. rewrite lookup_insert_ne by (apply not_eq_sym; by eapply tmp_ne_dest).
    intros Hm. rewrite lookup_insert_ne by (intros <-; by eapply Hu). by eapply I3.
  - intros j Hj. split; simpl.
    + intros p Hp. rewrite lookup_insert_ne; [done|]. apply not_eq_sym. by eapply tmp_ne_other.
    + intros p m Hp Hm. rewrite lookup_insert_ne; [done|]. intros <-. by eapply Hu.
    + intros fd'. rewrite lookup_insert_ne; [done|]. congruence.
    + intros m c Hm Hj'. assert (n <> m) by congruence. rewrite lookup_insert_ne by done.
      split; [done|]. intros p Hp. rewrite lookup_insert_Some. naive_solver.
    + intros d c Hd _ [m Hm]. destruct (decide (tmp = d)) as [->|];
        [rewrite lookup_insert_eq; eauto|]. rewrite lookup_insert_ne by done. eauto.
Qed.

(** Writing to the file under the own temporary name. *)
Lemma write_step i tmp s n c' f :
  owner tmp = Some i -> Inv s -> names s !! tmp = Some n -> (forall j fd, j <> i -> f !! (j, fd) = fds s !! (j, fd)) ->
  let s' := mkFs (names s) (<[n := c']> (inodes s)) f in Inv s' /\ guar i s s'.
Proof.
  intros Ho [I1 I2 I3] Ht Hf. split; [split|].
  - intros p m Hm. simpl in *. destruct (decide (n = m)) as [->|]; [rewrite lookup_insert_eq; eauto|].
    rewrite lookup_insert_ne by done. by eapply I1.
  - done.
  - intros d c m Hd Hm. simpl in *. rewrite lookup_insert_ne; [by eapply I3|]. intros <-.
    by eapply tmp_ne_dest, I2.
  - intros j Hj. split; simpl; [done| |auto| |auto].
    + intros p m Hp Hm. rewrite lookup_insert_ne; [done|]. intros <-.
      by eapply tmp_ne_other, (I2 p tmp n).
    + intros m c Hm Hj'. split; [|done]. rewrite lookup_insert_ne; [done|]. intros <-. by eapply Hj'.
Qed.

Lemma unlink_step i tmp s :
  owner tmp = Some i -> Inv s -> let s' := mkFs (delete tmp (names s)) (inodes s) (fds s) in Inv s' /\ guar i s s'.
Proof.
  intros Ho [I1 I2 I3]. split; [split; simpl|].
  - intros p n Hp. simpl in Hp. apply lookup_delete_Some in Hp as [_ Hp]. by eapply I1.
  - intros p q n [_ Hp]%lookup_delete_Some [_ Hq]%lookup_delete_Some. by eapply I2.
  - intros d c n Hd [_ Hn]%lookup_delete_Some. by eapply I3.
  - intros j Hj. split; simpl; [|done|done| |].
    + intros p Hp. rewrite lookup_delete_ne; [done|]. apply not_eq_sym. by eapply tmp_ne_other.
    + intros n c Hn Hj'. split; [done|]. intros p Hp [_ Hd]%lookup_delete_Some. by eapply Hj'.
    + intros d c Hd _ [n Hn]. rewrite lookup_delete_ne; [eauto|]. apply not_eq_sym. by eapply tmp_ne_dest.
Qed.

Lemma rename_step i tmp s d c n :
  owner tmp = Some i -> Inv s -> block d = Some c -> names s !! tmp = Some n -> inodes s !! n = Some c ->
  let s' := mkFs (<[d := n]> (delete tmp (names s))) (inodes s) (fds s) in Inv s' /\ guar i s s'.
Proof.
  intros Ho [I1 I2 I3] Hd Ht Hc. split; [split; simpl|].
  - intros p m Hm. simpl in Hm. apply lookup_insert_Some in Hm as [[<- <-]|[_ [_ Hp]%lookup_delete_Some]];
      [eauto|by eapply I1].
  - intros p q m [[<- <-]|[Hp1 [Hp2 Hp]%lookup_delete_Some]]%lookup_insert_Some
      [[<- E]|[Hq1 [Hq2 Hq]%lookup_delete_Some]]%lookup_insert_Some; subst; try done.
    + by destruct Hq2; eapply I2.
    + by destruct Hp2; eapply I2.
    + by eapply I2.
  - intros d' c' m Hd' [[<- <-]|[_ [_ Hm]%lookup_delete_Some]]%lookup_insert_Some; [congruence|by eapply I3].
  - intros j Hj. split; simpl; [|done|done| |].
    + intros p Hp. rewrite lookup_insert_ne by (by eapply tmp_ne_dest).
      rewrite lookup_delete_ne; [done|]. apply not_eq_sym. by eapply tmp_ne_other.
    + intros m c' Hm Hj'. split; [done|]. intros p [j' Hp].
      rewrite lookup_insert_ne by (by eapply tmp_ne_dest). intros [_ E]%lookup_delete_Some. by eapply Hj'.
    + intros d' c' Hd' _ [m Hm]. destruct (decide (d = d')) as [->|]; [rewrite lookup_insert_eq; eauto|].
      rewrite lookup_insert_ne, lookup_delete_ne by (done || (apply not_eq_sym; by eapply tmp_ne_dest)). eauto.
Qed.

(** Unlinking a destination that need not be kept. *)
Lemma unlink_dest_step i d c s :
  block d = Some c -> ~ kept d -> Inv s ->
  let s' := mkFs (delete d (names s)) (inodes s) (fds s) in Inv s' /\ guar i s s'.
Proof.
  intros Hd Hk [I1 I2 I3]. split; [split; simpl|].
  - intros p n Hp. simpl in Hp. apply lookup_delete_Some in Hp as [_ Hp]. by eapply I1.
  - intros p q n [_ Hp]%lookup_delete_Some [_ Hq]%lookup_delete_Some. by eapply I2.
  - intros d' c' n Hd' [_ Hn]%lookup_delete_Some. by eapply I3.
  - intros j Hj. split; simpl; [|done|done| |].
    + intros p Hp. rewrite lookup_delete_ne; [done|]. by eapply tmp_ne_dest.
    + intros n c' Hn Hj'. split; [done|]. intros p Hp [_ Hp']%lookup_delete_Some. by eapply Hj'.
    + intros d' c' Hd' Hk' [n Hn]. rewrite lookup_delete_ne; [eauto|]. congruence.
Qed.

(** *** Stores and loads *)

Definition published (d : string) (s : Fs) : Prop := is_Some (names s !! d).

(** A store that reports success has published its block. *)
Definition reported (d : string) (e : Z) (s : Fs) : Prop := e = 0 -> kept d -> published d s.

Lemma rely_published i s s' d c : rely i s s' -> block d = Some c -> kept d -> published d s -> published d s'.
Proof. intros R Hd. by eapply rl_dests. Qed.

Lemma wp_unlink_tmp i tmp s d c e :
  owner tmp = Some i -> Inv s -> block d = Some c -> reported d e s ->
  wp i (_ ← sys_call (Unlink tmp); Ret e) (reported d) s.
Proof.
  intros Ho I Hd He r s' Hr%sys_allowed. destruct Hr as [[_ ->]|(_ & _ & ->)].
  - split_and!; [done|apply guar_same|]. intros s2 _ R2 E Hk. eapply rely_published; [done..|by apply He].
  - destruct (unlink_step i tmp s Ho I) as [I' G]. split_and!; [done|done|]. intros s2 _ R2 E Hk.
    eapply rely_published; [done..|]. unfold published. simpl. destruct (He E Hk) as [n Hn].
    rewrite lookup_delete_ne; [eauto|]. apply not_eq_sym. by eapply tmp_ne_dest.
Qed.

(** The close of an own descriptor. *)
Lemma close_step i s r s' fd : Inv s -> allowed i (Close fd) s r s' ->
  Inv s' /\ guar i s s' /\ names s' = names s /\ inodes s' = inodes s.
Proof.
  intros I [_ ->]. destruct (guar_fds i s (delete (i, fd) (fds s))) as [I' G]; [|done|done].
  intros j fd' Hj. rewrite lookup_delete_ne by congruence. done.
Qed.

Lemma wp_write_and_publish i tmp d c n fd s :
  owner tmp = Some i -> Inv s -> block d = Some c -> names s !! tmp = Some n -> inodes s !! n = Some [] ->
  fds s !! (i, fd) = Some (n, 0) ->
  wp i (write_and_publish tmp d c fd) (reported d) s.
Proof.
  intros Ho I Hd Ht Hn Hf w s1 Hw%sys_allowed. simpl in Hw. rewrite Hf in Hw.
  assert (exists c1, inodes s1 !! n = Some c1 /\ names s1 = names s /\ Inv s1 /\ guar i s s1 /\
    (forall k, w = Ok k -> k = Z.of_nat (length c) -> c1 = c) /\ (forall e, w = Errno e -> e <> 0))
    as (c1 & Hc1 & En1 & I1 & G1 & Hfull & Herr).
  { destruct Hw as [[(e & -> & He) ->]|(n0 & pos & c0 & [= <- <-] & Hc0 & Hw)].
    { exists []. split_and!; (done || apply guar_same || congruence). }
    rewrite Hn in Hc0. simplify_eq. destruct Hw as [[(e & -> & He) (c' & ->)]|(k & Hk & -> & ->)].
    - destruct (write_step i tmp s n c' (fds s) Ho I Ht) as [I' G]; [done|]. exists c'.
      simpl. rewrite lookup_insert_eq. split_and!; (done || congruence).
    - destruct (write_step i tmp s n (take k c) (<[(i, fd) := (n, 0 + Z.of_nat k)]> (fds s)) Ho I Ht) as [I' G].
      { intros j fd' Hj. rewrite lookup_insert_ne by congruence. done. }
      exists (take k c). simpl. rewrite drop_nil, app_nil_r, lookup_insert_eq.
      split_and!; try done. intros k' [= <-] Ek. apply take_ge. lia. }
  clear Hw. split_and!; [done|done|]. intros s2 I2 R2.
  assert (names s2 !! tmp = Some n) as Ht2 by (rewrite (rl_tmp _ _ _ R2 _ Ho); congruence).
  assert (inodes s2 !! n = Some c1) as Hc2 by (rewrite (rl_own _ _ _ R2 tmp); congruence).
  cbn [mbind prog_bind bind sys_call].
  destruct (match w with Ok k => k =? Z.of_nat (length c) | Errno _ => false end) eqn:Ew.
  - destruct w as [k|]; [|done]. apply Z.eqb_eq in Ew. rewrite (Hfull k) in Hc2 by done.
    intros r s3 Hr%sys_allowed. destruct (close_step i s2 r s3 fd I2 Hr) as (I3 & G3 & En3 & Ei3).
    split_and!; [done|done|]. intros s4 I4 R4. destruct r as [[]|err].
    + assert (names s4 !! tmp = Some n) as Ht4 by (rewrite (rl_tmp _ _ _ R4 _ Ho); congruence).
      assert (inodes s4 !! n = Some c) as Hc4 by (rewrite (rl_own _ _ _ R4 tmp); congruence).
      intros m s5 Hm%sys_allowed. destruct Hm as [(e & -> & He & Hex & ->)|(n' & -> & Hn' & ->)].
      * split_and!; [done|apply guar_same|]. intros s6 I6 R6. apply wp_unlink_tmp with c; [done..|].
        destruct (Z.eqb_spec e EEXIST) as [->|]; [|by intros E%He]. intros _ Hk. by eapply rely_published, Hex.
      * rewrite Ht4 in Hn'. simplify_eq. destruct (rename_step i tmp s4 d c n' Ho I4 Hd Ht4 Hc4) as [I5 G5].
        split_and!; [done|done|]. intros s6 I6 R6 _ Hk. eapply rely_published; [done..|].
        unfold published. simpl. rewrite lookup_insert_eq. eauto.
    + apply wp_unlink_tmp with c; [done..|]. destruct Hr as [[|(e & [= ->] & He)] _]; [done|by intros E%He].
  - intros r s3 Hr%sys_allowed. destruct (close_step i s2 r s3 fd I2 Hr) as (I3 & G3 & _).
    split_and!; [done|done|]. intros s4 I4 R4. apply wp_unlink_tmp with c; [done..|].
    destruct w as [k|e]; [done|]. intros ->. by destruct (Herr 0).
Qed.

Lemma wp_store_block i tmp d c o_direct s :
  owner tmp = Some i -> Inv s -> block d = Some c ->
  wp i (store_block tmp d c o_direct) (reported d) s.
Proof.
  intros Ho I Hd r s1 Hr%sys_allowed. destruct Hr as [-> Hr].
  split_and!; [done|apply guar_same|]. intros s2 I2 R2.
  destruct r as [[]|e0]; [intros _ Hk; by eapply rely_published|]. clear Hr.
  assert (forall s, Inv s ->
    wp i (create_and_publish tmp d c o_direct) (reported d) s) as Hopen.
  { clear -H0 Hd Ho owner_not_dest. intros s I r s1 Hr%sys_allowed. destruct Hr as [[(e & -> & He) ->]|(fd & n & -> & Hn & Hi & Hu & Hf & ->)].
    - split_and!; [done|apply guar_same|]. by intros s2 _ _ E%He.
    - destruct (create_step i tmp s n fd Ho I Hn Hi Hu) as [I1 G1]. split_and!; [done|done|].
      intros s2 I2 R2. apply wp_write_and_publish with n; [done|done|done| | |].
      + rewrite (rl_tmp _ _ _ R2 _ Ho). simpl. by rewrite lookup_insert_eq.
      + rewrite (rl_own _ _ _ R2 tmp n Ho); simpl; by rewrite lookup_insert_eq.
      + rewrite (rl_fds _ _ _ R2). simpl. by rewrite lookup_insert_eq. }
  cbn [mbind prog_bind bind sys_call]. unfold ensure_parent_dirs.
  destruct (String.eqb (parent_path d) ""); [by apply Hopen|].
  intros r s3 Hr%sys_allowed. destruct Hr as [-> Hr]. split_and!; [done|apply guar_same|]. intros s4 I4 R4.
  destruct Hr as [->|(e & -> & He)]; [by apply Hopen|].
  simpl. rewrite (proj2 (Z.eqb_neq e 0)) by done. by intros E%He.
Qed.

(** The end of a load: the descriptor is closed and the answer returned. *)
Lemma wp_close_ret {A} i fd (a : A) (Q : A -> Fs -> Prop) s : Inv s -> (forall s, Q a s) ->
  wp i (_ ← sys_call (Close fd); Ret a) Q s.
Proof.
  intros I HQ r s5 Hr%sys_allowed. destruct (close_step i s r s5 fd I Hr) as (I5 & G5 & _).
  split_and!; [done|done|]. intros s6 _ _. apply HQ.
Qed.

(** The read of a load: the answer is a prefix of the block, all of it when kept. *)
Lemma read_step i fd n c size s b s' :
  Inv s -> fds s !! (i, fd) = Some (n, 0) -> inodes s !! n = Some c -> Z.to_nat size = length c ->
  sys _ i (Read_ fd size) s b s' ->
  Inv s' /\ guar i s s' /\
  ((exists e, b = Errno e /\ e <> 0) \/ (exists k, b = Ok (take k c) /\ (reads_full -> take k c = c))).
Proof.
  intros I Hf Hc Hl Hs. apply sys_allowed in Hs as Hb. simpl in Hb. rewrite Hf in Hb.
  destruct Hb as [[(e & -> & He) ->]|(n0 & pos & c0 & k & [= <- <-] & Hc0 & -> & ->)].
  - split_and!; [done|apply guar_same|by left; eexists].
  - rewrite Hc in Hc0. simplify_eq. rewrite drop_0, Hl, firstn_all in *.
    destruct (guar_fds i s (<[(i, fd) := (n, 0 + Z.of_nat (length (take k c0)))]> (fds s))) as [I3 G3]; [|done|].
    { intros j fd' Hj. rewrite lookup_insert_ne by congruence. done. }
    split_and!; [done|done|]. right. exists k. split; [done|]. intros HF.
    rewrite (HF _ _ _ _ _ _ _ _ _ Hs Hf Hc), drop_0, Hl. apply firstn_all.
Qed.

(** A load of a buffer of the block's size: complete or an error; the block is
    unlinked only after a read that was short of a complete file. *)
Lemma wp_load_block i d c dst o_direct s :
  Inv s -> block d = Some c -> length dst = length c -> (kept d -> reads_full) ->
  wp i (load_block d dst o_direct) (fun r _ => r.1 = 0 -> r.2 = c) s.
Proof.
  intros I Hd Hl Hk r s1 Hr%sys_allowed. destruct Hr as [[(e & -> & He) ->]|(fd & n & -> & Hn & Hf & ->)].
  { split_and!; [done|apply guar_same|]. by intros s2 _ _ E%He. }
  destruct (guar_fds i s (<[(i, fd) := (n, 0)]> (fds s))) as [I1 G1]; [|done|].
  { intros j fd' Hj. rewrite lookup_insert_ne by congruence. done. }
  split_and!; [done|done|]. intros s2 I2 R2.
  assert (forall p, is_Some (owner p) -> names s !! p <> Some n) as Hset.
  { intros p [j Hp] Hj. eapply tmp_ne_dest; [done|done|]. by eapply (inv_inj _ I). }
  destruct (rl_settled _ _ _ R2 n c) as [Hc2 Hset2]; [by eapply (inv_block _ I)|done|].
  assert (fds s2 !! (i, fd) = Some (n, 0)) as Hf2.
  { rewrite (rl_fds _ _ _ R2). simpl. by rewrite lookup_insert_eq. }
  assert (Z.to_nat (Z.of_nat (length dst)) = length c) as Hsz by lia.
  intros b s3 Hb. destruct (read_step i fd n c _ s2 b s3 I2 Hf2 Hc2 Hsz Hb) as (I3 & G3 & Hb').
  split_and!; [done|done|]. intros s4 I4 R4. cbn [mbind prog_bind bind sys_call].
  destruct Hb' as [(e & -> & He)|(k & -> & HF)]; [by apply wp_close_ret|].
  destruct (Z.ltb_spec (Z.of_nat (length (take k c))) (Z.of_nat (length dst))) as [Hlt|Hge].
  - intros r s5 Hr%sys_allowed. destruct (close_step i s4 r s5 fd I4 Hr) as (I5 & G5 & _).
    split_and!; [done|done|]. intros s6 I6 R6 u s7 Hu%sys_allowed.
    assert (~ kept d) as Hnk by (intros Hkd; rewrite (HF (Hk Hkd)) in Hlt; lia).
    destruct Hu as [[_ ->]|(_ & _ & ->)]; [split_and!; [done|apply guar_same|done]|].
    destruct (unlink_dest_step i d c s6 Hd Hnk I6) as [I7 G7]. split_and!; done.
  - apply wp_close_ret; [done|]. intros _ _. simpl. rewrite length_take in Hge.
    rewrite (take_ge c) by lia. rewrite drop_ge by lia. by rewrite app_nil_r.
Qed.

(** *** Batches *)

Lemma guar_keeps i s s' d c : guar i s s' -> block d = Some c -> kept d -> published d s -> published d s'.
Proof. intros G. apply (rely_published (S i)), G. lia. Qed.

(** What is published and kept stays so while [p] runs. *)
Lemma wp_keeps {A} i (p : prog A) Q d c : block d = Some c -> forall s,
  (kept d -> published d s) -> wp i p Q s -> wp i p (fun a s => Q a s /\ (kept d -> published d s)) s.
Proof.
  intros Hd. induction p as [a|R cl k IH]; intros s Hp Hw; simpl in *; [done|].
  intros r s' Hr. destruct (Hw r s' Hr) as (I & G & K). split_and!; [done|done|]. intros s2 I2 R2.
  apply IH; [|auto]. intros Hk. eapply rely_published; [done..|]. eapply guar_keeps; [done..|auto].
Qed.

(** Batches that went through [k] of their [n] blocks: all, or up to the error. *)
Definition went (idx : Z) (n k : nat) (f : option (Z * Z)) : Prop :=
  match f with
  | None => k = n
  | Some (j, e) => j = idx + Z.of_nat k /\ (k < n)%nat /\ e <> 0
  end.

Lemma went_S idx n k f : went (idx + 1) n k f -> went idx (S n) (S k) f.
Proof. destruct f as [[j e]|]; simpl; [intros (-> & ? & ?); split_and!; [lia..|done]|lia]. Qed.

Lemma wp_store_loop i bs od : forall idx s,
  Inv s -> Forall (fun '(tmp, d, c) => owner tmp = Some i /\ block d = Some c) bs ->
  wp i (store_loop idx bs od) (fun f s => exists k, went idx (length bs) k f /\
    Forall (fun '(_, d, _) => kept d -> published d s) (take k bs)) s.
Proof.
  induction bs as [|[[tmp d] c] bs IH]; intros idx s I Hb; [by exists 0%nat|].
  apply Forall_cons in Hb as [[Ho Hd] Hb]. cbn [store_loop]. apply wp_bind.
  apply (wp_mono i _ (reported d)); [|done|by apply wp_store_block].
  intros e s1 I1 Hp. destruct (Z.eqb_spec e 0) as [->|He]; cbn [negb].
  - eapply wp_mono; [|done|eapply wp_keeps; [done|by apply Hp|by apply IH]].
    intros f s2 _ ((k & Hk & Hf) & Hp2). exists (S k). split; [by apply went_S|]. by constructor.
  - exists 0%nat. simpl. split_and!; [lia..|done|done].
Qed.

Lemma wp_load_loop i bs od : forall idx s,
  Inv s -> Forall (fun '(d, dst) => exists c, block d = Some c /\ length dst = length c) bs ->
  (forall d, d ∈ bs.*1 -> kept d -> reads_full) ->
  wp i (load_loop idx bs od) (fun r s => exists k, went idx (length bs) k r.1 /\
    map Some (take k r.2) = map (fun b => block b.1) (take k bs) /\ length r.2 = length bs) s.
Proof.
  induction bs as [|[d dst] bs IH]; intros idx s I Hb Hk; [by exists 0%nat|].
  assert (kept d -> reads_full) as Hkd by (apply Hk; constructor).
  assert (forall d, d ∈ bs.*1 -> kept d -> reads_full) as Hkb by (intros q Hq; apply Hk; by constructor).
  apply Forall_cons in Hb as [(c & Hd & Hl) Hb]. cbn [load_loop]. apply wp_bind.
  apply (wp_mono i _ (fun r _ => r.1 = 0 -> r.2 = c)); [|done|by apply wp_load_block].
  intros [e buf] s1 I1 Hp. simpl in Hp. destruct (Z.eqb_spec e 0) as [->|He]; cbn [negb].
  - apply wp_bind. eapply wp_mono; [|done|by apply IH].
    intros [f bufs] s2 _ (k & Hw & Hf & Hlen). simpl in *. exists (S k). split; [by apply went_S|].
    simpl. rewrite Hp by done. split; [congruence|lia].
  - exists 0%nat. simpl. split_and!; [lia..|done|done|]. by rewrite length_map.
Qed.

(** *** Any interleaving *)

Inductive task :=
  | StoreTask (blocks : list (string * string * list Z))
  | LoadTask (blocks : list (string * list Z)).

Definition task_prog (od : bool) (t : task) : prog (option (Z * Z) * list (list Z)) :=
  match t with
  | StoreTask bs => f ← store_loop 0 bs od; Ret (f, [])
  | LoadTask bs => load_loop 0 bs od
  end.

(** Tasks use their own temporary names, and buffers of the right size. *)
Definition task_ok (i : nat) (t : task) : Prop :=
  match t with
  | StoreTask bs => Forall (fun '(tmp, d, c) => owner tmp = Some i /\ block d = Some c) bs
  | LoadTask bs => Forall (fun '(d, dst) => exists c, block d = Some c /\ length dst = length c) bs
  end.

(** A task that may load (and so may remove) a destination. *)
Definition loads (t : task) (d : string) : Prop :=
  match t with StoreTask _ => False | LoadTask bs => d ∈ bs.*1 end.

(** A finished task has published, or read, its first [k] blocks. *)
Definition task_done (t : task) (r : option (Z * Z) * list (list Z)) (s : Fs) : Prop :=
  match t with
  | StoreTask bs => exists k, went 0 (length bs) k r.1 /\ Forall (fun '(_, d, _) => kept d -> published d s) (take k bs)
  | LoadTask bs => exists k, went 0 (length bs) k r.1 /\
      map Some (take k r.2) = map (fun b => block b.1) (take k bs)
  end.

Lemma wp_task i od t s : Inv s -> task_ok i t -> (forall d, loads t d -> kept d -> reads_full) ->
  wp i (task_prog od t) (task_done t) s.
Proof.
  destruct t as [bs|bs]; intros I Ht Hk; cbn [task_prog].
  - apply wp_bind. eapply wp_mono; [|done|by apply wp_store_loop]. done.
  - eapply wp_mono; [|done|by apply wp_load_loop]. naive_solver.
Qed.

Definition safe {A} (Q : nat -> A -> Fs -> Prop) (st : Fs * list (prog A)) : Prop :=
  Inv st.1 /\ forall i p, st.2 !! i = Some p ->
    forall s2, Inv s2 -> rely i st.1 s2 -> wp i p (Q i) s2.

Lemma step_safe {A} (Q : nat -> A -> Fs -> Prop) st st' :
  step st st' -> safe Q st ->
  safe Q st' /\ forall d c, block d = Some c -> kept d -> published d st.1 -> published d st'.1.
Proof.
  intros [i s ps p p' s' Hp Hs] [I Hw]. simpl in *. specialize (Hw i p Hp) as Hi.
  specialize (Hi s I (rely_refl i s)). destruct p as [a|R c k]; [done|].
  destruct Hs as (r & Hr & ->). destruct (Hi r s' Hr) as (I' & G & K).
  split; [|intros; by eapply guar_keeps]. split; [done|]. simpl. intros j q Hq s2 I2 R2.
  apply list_lookup_insert_Some in Hq as [(<- & <- & _)|[Hne Hq]]; [by apply K|].
  apply (Hw j q Hq); [done|]. eapply rely_trans; [|done]. by apply G.
Qed.

Lemma steps_safe {A} (Q : nat -> A -> Fs -> Prop) st st' :
  rtc step st st' -> safe Q st ->
  safe Q st' /\ forall d c, block d = Some c -> kept d -> published d st.1 -> published d st'.1.
Proof.
  induction 1 as [st|st st1 st' Hs _ IH]; intros Hsafe; [done|].
  destruct (step_safe _ _ _ Hs Hsafe) as [Hs1 Hk1]. destruct (IH Hs1) as [Hs2 Hk2]. eauto.
Qed.

Lemma file_inv s d c : Inv s -> block d = Some c -> file s d = None \/ file s d = Some c.
Proof.
  intros I Hd. unfold file. destruct (names s !! d) as [n|] eqn:E; [|by left].
  right. by eapply (inv_block _ I).
Qed.

Lemma interleaved od ts s0 s ps :
  Inv s0 -> (forall i t, ts !! i = Some t -> task_ok i t) ->
  (forall t d, t ∈ ts -> loads t d -> kept d -> reads_full) ->
  rtc step (s0, map (task_prog od) ts) (s, ps) ->
  (forall d c, block d = Some c -> file s d = None \/ file s d = Some c) /\
  (forall d c, block d = Some c -> kept d -> published d s0 -> published d s) /\
  (forall i t r, ts !! i = Some t -> ps !! i = Some (Ret r) -> task_done t r s).
Proof.
  intros I Ht Hk Hst.
  destruct (steps_safe (fun i r s => forall t, ts !! i = Some t -> task_done t r s) _ _ Hst) as [[I' Hw] Hkept].
  { split; [done|]. simpl. intros i p Hp s2 I2 R2. apply list_lookup_fmap_Some in Hp as (t & -> & Et).
    eapply wp_mono; [|done|apply wp_task; [done|by auto|]]; simpl.
    2: { intros d. eapply Hk, list_elem_of_lookup_2, Et. }
    intros r s' _ Hd t' Et'. congruence. }
  simpl in *. split_and!; [by intros; apply file_inv|done|].
  intros i t r Et Ep. exact (Hw i (Ret r) Ep s I' (rely_refl i s) t Et).
Qed.

(** A system that cannot move has finished. *)
Lemma stuck_finished {A} (s : Fs) (ps : list (prog A)) :
  (forall st', ~ step (s, ps) st') -> forall i p, ps !! i = Some p -> exists r, p = Ret r.
Proof.
  intros Hs i [a|R c k] Hp; [by exists a|]. destruct (sys_total R i c s) as (r & s' & E).
  destruct (Hs (s', <[i := k r]> ps)). econstructor; [done|]. by exists r.
Qed.

End together.

(** ** An operating system without faults *)

(** An unused inode, an unused descriptor. *)
Definition new_inode (s : Fs) : Z :=
  next_id (map fst (map_to_list (inodes s)) ++ map snd (map_to_list (names s))).
Definition new_fd (s : Fs) : Z := next_id (map (fun x => x.1.2) (map_to_list (fds s))).

Definition exec {R} (pid : nat) (c : call R) (s : Fs) : R * Fs :=
  match c in call R return R * Fs with
  | Access p => (match names s !! p with Some _ => Ok tt | None => Errno ENOENT end, s)
  | CreateDirectories _ => (Ok tt, s)
  | OpenExcl p _ =>
      match names s !! p with
      | Some _ => (Errno EEXIST, s)
      | None =>
          let n := new_inode s in
          let fd := new_fd s in
          (Ok fd, mkFs (<[p := n]> (names s)) (<[n := []]> (inodes s)) (<[(pid, fd) := (n, 0)]> (fds s)))
      end
  | OpenRd p _ =>
      match names s !! p with
      | None => (Errno ENOENT, s)
      | Some n =>
          let fd := new_fd s in
          (Ok fd, mkFs (names s) (inodes s) (<[(pid, fd) := (n, 0)]> (fds s)))
      end
  | Write_ fd src =>
      match fds s !! (pid, fd) with
      | None => (Errno EIO, s)
      | Some (n, pos) =>
          match inodes s !! n with
          | None => (Errno EIO, s)
          | Some c =>
              (Ok (Z.of_nat (length src)),
               mkFs (names s)
                 (<[n := take (Z.to_nat pos) c ++ src ++ drop (Z.to_nat pos + length src) c]> (inodes s))
                 (<[(pid, fd) := (n, pos + Z.of_nat (length src))]> (fds s)))
          end
      end
  | Read_ fd size =>
      match fds s !! (pid, fd) with
      | None => (Errno EIO, s)
      | Some (n, pos) =>
          match inodes s !! n with
          | None => (Errno EIO, s)
          | Some c =>
              let l := take (Z.to_nat size) (drop (Z.to_nat pos) c) in
              (Ok l, mkFs (names s) (inodes s) (<[(pid, fd) := (n, pos + Z.of_nat (length l))]> (fds s)))
          end
      end
  | Close fd => (Ok tt, mkFs (names s) (inodes s) (delete (pid, fd) (fds s)))
  | Rename old new =>
      match names s !! old with
      | None => (Errno ENOENT, s)
      | Some n => (Ok tt, mkFs (<[new := n]> (delete old (names s))) (inodes s) (fds s))
      end
  | Unlink p =>
      match names s !! p with
      | Some _ => (Ok tt, mkFs (delete p (names s)) (inodes s) (fds s))
      | None => (Errno ENOENT, s)
      end
  end.

Definition demo_os : Os := fun R pid c s r s' => exec pid c s = (r, s').

Lemma new_fd_new s (pid : nat) : fds s !! (pid, new_fd s) = None.
Proof.
  destruct (fds s !! (pid, new_fd s)) as [v|] eqn:E; [|done].
  destruct (next_id_new (map (fun x => x.1.2) (map_to_list (fds s)))). apply list_elem_of_fmap.
  exists (pid, new_fd s, v). split; [done|]. by apply elem_of_map_to_list.
Qed.

Lemma new_inode_new s : inodes s !! new_inode s = None /\ forall q, names s !! q <> Some (new_inode s).
Proof.
  pose proof (next_id_new (map fst (map_to_list (inodes s)) ++ map snd (map_to_list (names s)))) as Hf.
  fold (new_inode s) in Hf. apply not_elem_of_app in Hf as [Hi Hn]. split.
  - destruct (inodes s !! new_inode s) as [c|] eqn:E; [|done]. destruct Hi. apply list_elem_of_fmap.
    exists (new_inode s, c). split; [done|]. by apply elem_of_map_to_list.
  - intros q Hq. apply Hn, list_elem_of_fmap. exists (q, new_inode s). split; [done|].
    by apply elem_of_map_to_list.
Qed.

Lemma exec_allowed R pid (c : call R) s : allowed pid c s (exec pid c s).1 (exec pid c s).2.
Proof.
  assert (forall A e, e <> 0 -> failed (@Errno A e)) as Hfail by (intros A e He; by exists e).
  assert (EIO <> 0 /\ EEXIST <> 0 /\ ENOENT <> 0 /\ ENOENT <> EEXIST) as (N1 & N2 & N3 & N4) by done.
  destruct c; cbn [exec allowed].
  - destruct (names s !! p) eqn:E; simpl; split_and!; done.
  - auto.
  - destruct (names s !! p) eqn:E; simpl; [by left; split; [apply Hfail|]|]. right.
    destruct (new_inode_new s). exists (new_fd s), (new_inode s).
    split_and!; [done..|apply new_fd_new|done].
  - destruct (names s !! p) as [n|] eqn:E; simpl; [|by left; split; [apply Hfail|]]. right.
    exists (new_fd s), n. split_and!; [done..|apply new_fd_new|done].
  - destruct (fds s !! (pid, fd)) as [[n pos]|] eqn:E; simpl; [|by left; split; [apply Hfail|]].
    destruct (inodes s !! n) as [c|] eqn:Ec; simpl; [|by left; split; [apply Hfail|]]. right.
    exists n, pos, c. split_and!; [done..|]. right. exists (length src). rewrite firstn_all. done.
  - destruct (fds s !! (pid, fd)) as [[n pos]|] eqn:E; simpl; [|by left; split; [apply Hfail|]].
    destruct (inodes s !! n) as [c|] eqn:Ec; simpl; [|by left; split; [apply Hfail|]]. right.
    exists n, pos, c, (Z.to_nat size). by rewrite take_take, Nat.min_id.
  - auto.
  - destruct (names s !! old) as [n|] eqn:E; simpl; [right; by exists n|]. left. by exists ENOENT.
  - destruct (names s !! p) as [n|] eqn:E; simpl; [right|by left; split; [apply Hfail|]]. by eauto.
Qed.

#[global] Instance demo_os_ok : @OsOk demo_os.
Proof.
  split.
  - intros R pid c s r s' E. pose proof (exec_allowed R pid c s) as Ha. unfold sys, demo_os in E.
    by rewrite E in Ha.
  - intros R pid c s. exists (exec pid c s).1, (exec pid c s).2. by apply surjective_pairing.
Qed.

(** A scheduler for it. *)
Fixpoint schedule_run {A} (pids : list nat) (st : Fs * list (prog A)) : Fs * list (prog A) :=
  match pids with
  | [] => st
  | pid :: pids =>
      match st.2 !! pid with
      | Some (Call c k) => let '(r, s') := exec pid c st.1 in schedule_run pids (s', <[pid := k r]> st.2)
      | _ => schedule_run pids st
      end
  end.

Lemma schedule_run_steps {A} pids : forall st : Fs * list (prog A),
  rtc (@step demo_os A) st (schedule_run pids st).
Proof.
  induction pids as [|pid pids IH]; intros [s ps]; [done|]. simpl.
  destruct (ps !! pid) as [[a|R c k]|] eqn:E; [apply IH| |apply IH].
  destruct (exec pid c s) as [r s'] eqn:Ee. eapply rtc_l; [|apply IH].
  econstructor; [done|]. by exists r.
Qed.

(** ** The claims *)

(** A store alone: it returns, keeps every other file and every descriptor,
    leaves the destination holding the block (or as it was, if it already
    existed) on success and untouched on error, and leaves no temporary file
    unless the file could not be unlinked. *)
Theorem store_block_spec `{OsOk} (pid : nat) (tmp dest : string) (src : list Z) (o_direct : bool) (s : Fs) :
  tmp <> dest ->
  (exists e s', runs pid (store_block tmp dest src o_direct) s e s') /\
  forall e s', runs pid (store_block tmp dest src o_direct) s e s' -> stored pid tmp dest src s e s'.
Proof.
  intros Hne. split; [apply runs_total|]. intros e s'. by apply wlp_runs, store_block_outcome.
Qed.

Definition no_files : Fs := mkFs ∅ ∅ ∅.

Lemma store_block_spec_witness :
  (exists e s', @runs demo_os Z 0%nat (store_block "t" "a/d" [1; 2] true) no_files e s') /\
  forall e s', @runs demo_os Z 0%nat (store_block "t" "a/d" [1; 2] true) no_files e s' ->
    @stored demo_os 0%nat "t" "a/d" [1; 2] no_files e s'.
Proof. apply (@store_block_spec demo_os demo_os_ok 0 "t" "a/d" [1; 2] true no_files). discriminate. Defined.

(** A load alone: it returns; on success the buffer holds the beginning of the
    file and nothing changed; on error nothing changed either, except that after a
    read that gave fewer bytes than asked for an I/O error is reported, the buffer
    begins with those bytes and the file is removed, however long it is; if the
    system reads short only at the end of a file, it is indeed too short. *)
Theorem load_block_spec `{OsOk} (pid : nat) (source : string) (dst : list Z) (o_direct : bool) (s : Fs) :
  wf s ->
  (exists r s', runs pid (load_block source dst o_direct) s r s') /\
  forall r s', runs pid (load_block source dst o_direct) s r s' -> loaded pid source dst s r s'.
Proof.
  intros Hw. split; [apply runs_total|]. intros r s'. by apply wlp_runs, load_block_outcome.
Qed.

Definition one_file : Fs := mkFs {["d" := 7]} {[7 := [1; 2]]} ∅.

Lemma load_block_spec_witness :
  (exists r s', @runs demo_os _ 0%nat (load_block "d" [0; 0; 0] true) one_file r s') /\
  forall r s', @runs demo_os _ 0%nat (load_block "d" [0; 0; 0] true) one_file r s' ->
    @loaded demo_os 0%nat "d" [0; 0; 0] one_file r s'.
Proof.
  apply (@load_block_spec demo_os demo_os_ok 0 "d" [0; 0; 0] true one_file).
  intros p n Hp. unfold one_file in Hp. cbn [names] in Hp.
  apply lookup_singleton_Some in Hp as [<- <-]. exists [1; 2]. reflexivity.
Defined.

(** A destination no short read of a complete file can remove: the system reads
    short only at the end of a file, or no task loads the destination. *)
Definition safe_dest `{Os} (ts : list task) (d : string) : Prop :=
  reads_full \/ forall t, t ∈ ts -> ~ loads t d.

(** [C4] Atomic publication: when any number of store and load batches run
    interleaved call by call, whatever the calls answer (failures, short writes and
    short reads included), a destination is at every moment absent or complete, a
    finished load has read exactly the blocks it reports, and a system that cannot
    move has finished.  A destination that no task loads, or any destination when
    the system reads short only at the end of a file, is never removed once
    published, and the store batches that have finished have published the blocks
    they report. *)
Theorem blocks_published_atomically `{OsOk} (block : string -> option (list Z))
    (owner : string -> option nat) (od : bool) (ts : list task) (s0 s : Fs)
    (ps : list (prog (option (Z * Z) * list (list Z)))) :
  (forall d c, block d = Some c -> owner d = None) ->
  Inv block s0 -> (forall i t, ts !! i = Some t -> task_ok block owner i t) ->
  rtc step (s0, map (task_prog od) ts) (s, ps) ->
  (forall d c, block d = Some c -> file s d = None \/ file s d = Some c) /\
  (forall d c, block d = Some c -> safe_dest ts d -> published d s0 -> published d s) /\
  (forall i t r, ts !! i = Some t -> ps !! i = Some (Ret r) -> task_done block (safe_dest ts) t r s) /\
  ((forall st', ~ step (s, ps) st') -> forall i p, ps !! i = Some p -> exists r, p = Ret r).
Proof.
  intros Ho I Ht Hst.
  destruct (interleaved block owner (safe_dest ts) Ho od ts s0 s ps I Ht) as (H1 & H2 & H3); [|done|].
  - intros t d Et Hl [HF|Hn]; [done|]. by destruct (Hn t Et).
  - split_and!; [done..|]. apply stuck_finished.
Qed.

(** Two stores of the same block and a load, the loser of the race included. *)
Definition demo_block (d : string) : option (list Z) := if decide (d = "d") then Some [1; 2] else None.
Definition demo_owner (p : string) : option nat :=
  if decide (p = "t0") then Some 0%nat else if decide (p = "t1") then Some 1%nat else None.
Definition demo_tasks : list task :=
  [StoreTask [("t0", "d", [1; 2])]; StoreTask [("t1", "d", [1; 2])]; LoadTask [("d", [0; 0])]].
Definition demo_schedule : list nat := [0; 1; 0; 1; 0; 1; 0; 1; 0; 2; 1; 2; 2]%nat.
Definition demo_run := schedule_run demo_schedule (no_files, map (task_prog true) demo_tasks).

Lemma demo_reads_full : @reads_full demo_os.
Proof.
  intros pid fd size s l s' n pos c E Hf Hn. unfold sys, demo_os in E. cbn [exec] in E.
  rewrite Hf, Hn in E. injection E as <- _. reflexivity.
Qed.

Lemma blocks_published_atomically_witness :
  published "d" demo_run.1 /\ file demo_run.1 "d" = Some [1; 2] /\
  task_done demo_block (@safe_dest demo_os demo_tasks) (LoadTask [("d", [0; 0])]) (None, [[1; 2]]) demo_run.1.
Proof.
  destruct (@blocks_published_atomically demo_os demo_os_ok demo_block demo_owner true demo_tasks
    no_files demo_run.1 demo_run.2) as (H1 & _ & H3 & _).
  - intros d c. unfold demo_block, demo_owner. case_decide; [|discriminate]. subst d. reflexivity.
  - split.
    + intros p n Hp. discriminate Hp.
    + intros p q n Hp. discriminate Hp.
    + intros d c n _ Hp. discriminate Hp.
  - intros [|[|[|i]]] t Et; [..|discriminate Et]; injection Et as <-.
    + constructor; [split; reflexivity|constructor].
    + constructor; [split; reflexivity|constructor].
    + constructor; [exists [1; 2]; split; reflexivity|constructor].
  - rewrite <- surjective_pairing. exact (schedule_run_steps demo_schedule _).
  - assert (published "d" demo_run.1) as Hd.
    { destruct (H3 0%nat _ (None, []) eq_refl) as (k & Hk & Hp); [vm_compute; reflexivity|].
      simpl in Hk. subst k. apply Forall_cons in Hp as [Hp _]. apply Hp. left. exact demo_reads_full. }
    split; [exact Hd|]. split.
    + destruct (H1 "d" [1; 2] eq_refl) as [E|E]; [vm_compute in E; discriminate E|exact E].
    + apply (H3 2%nat); vm_compute; reflexivity.
Defined.

(** A system whose reads give at most one byte, which POSIX allows: loading a
    complete block of two bytes deletes it. *)
Definition slow_read {R} (pid : nat) (c : call R) (s : Fs) : R * Fs :=
  match c in call R return R * Fs with
  | Read_ fd size => exec pid (Read_ fd (Z.min size 1)) s
  | c => exec pid c s
  end.

Fixpoint slow_run {A} (pid : nat) (p : prog A) (s : Fs) : A * Fs :=
  match p with
  | Ret a => (a, s)
  | Call c k => let '(r, s1) := slow_read pid c s in slow_run pid (k r) s1
  end.

Example short_read_deletes :
  let '(r, s) := slow_run 0 (load_block "d" [0; 0] false) one_file in
  file one_file "d" = Some [1; 2] /\ r = (EIO, [1; 0]) /\ file s "d" = None.
Proof. vm_compute. done. Qed.

End FsIo.
