(* ===== verification/Vmm.v ===== *)
(** * Elastic KV tensors over virtual memory ([csrc/vmm])

    A tensor reserves a range of virtual addresses; every page of it is backed
    either by a private physical page or by one shared zero page.  The CUDA driver
    is a parameter ([Driver]) with its documented behaviour ([DriverOk]); a driver
    error aborts the process ([CHECK_DRV]), which is [None] here. *)

From stdpp Require Import strings gmap pretty.
From S2P Require Import Prelude.

#[local] Open Scope Z_scope.

Module Vmm.

(** ** The driver *)

(** What the driver tracks: live allocations with their size, mappings (address to
    size and allocation), reserved address ranges. *)
Record Gpu := mkGpu {
  handles : gmap Z Z; maps : gmap Z (Z * Z); reserved : gmap Z Z }.

Class Driver := {
  cuMemCreate : Z -> Gpu -> option (Z * Gpu);
  cuMemRelease : Z -> Gpu -> option Gpu;
  cuMemMap : Z -> Z -> Z -> Gpu -> option Gpu;              (* address, size, handle *)
  cuMemUnmap : Z -> Z -> Gpu -> option Gpu;                 (* address, size *)
  cuMemSetAccess : Z -> Z -> Gpu -> option Gpu;
  cuMemAddressReserve : Z -> Z -> Z -> Gpu -> option (Z * Gpu);   (* size, alignment, hint *)
  cuMemAddressFree : Z -> Z -> Gpu -> option Gpu;
  cuMemGetAllocationGranularity : Z;
  host_mmap : Z -> Z -> option Z                            (* hint, size *)
}.

Section source.
Context `{Driver}.

(** [assert] is compiled out of release builds. *)
Variable debug : bool.

(** ** Pages ([page.cpp]) *)

Inductive Device := CUDA (index : Z) | CPU | OtherDevice.
#[global] Instance Device_eq_dec : EqDecision Device.
Proof. solve_decision. Defined.

Inductive Page :=
  | GPUPage (page_id dev handle : Z)
  | CPUPage (page_id mapped_addr : Z).

Record Tensor := mkTensor { t_addr : Z; t_numel : Z; t_elem : Z }.

Record FTensor := mkFTensor {
  ft_name : string; ft_vaddr : Z; ft_size : Z; ft_elem : Z; ft_dev : Device;
  ft_zero : Z;                (* the shared zero page *)
  ft_mapping : gmap Z Page }.

Record Allocator := mkAllocator {
  al_dev : Device; al_num_layers : Z; al_contiguous : bool; al_size_per_layer : Z;
  al_ftensors : gmap string FTensor; al_contiguous_kv : option FTensor; al_zero_page : option Z }.

(** The globals: the page size, the next reservation hint, the shared pages with
    their use counts, the driver and the allocator. *)
Record World := mkWorld {
  kPageSize : Z; g_vaddr_allocated_offset : Z; anon_counter : Z;
  shared : gmap Z (Page * Z); gpu : Gpu; g_allocator : option Allocator }.

Definition kStartAddr : Z := 0x1f0000000000.
Definition ZERO_PAGE_ID : Z := -2.

(** Programs on the globals; [None] is an abort. *)
Definition M (A : Type) : Type := World -> option (A * World).
#[global] Instance M_ret : MRet M := fun A a w => Some (a, w).
#[global] Instance M_bind : MBind M := fun A B f m w => '(a, w) ← m w; f a w.

Definition get {A} (f : World -> A) : M A := fun w => Some (f w, w).
Definition abort {A} : M A := fun _ => None.
Definition assert_ (c : bool) : M unit := if debug && negb c then abort else mret tt.

Definition set_gpu (g : Gpu) (w : World) : World :=
  mkWorld (kPageSize w) (g_vaddr_allocated_offset w) (anon_counter w) (shared w) g (g_allocator w).
Definition set_shared (m : gmap Z (Page * Z)) (w : World) : World :=
  mkWorld (kPageSize w) (g_vaddr_allocated_offset w) (anon_counter w) m (gpu w) (g_allocator w).
Definition set_page_size (p : Z) (w : World) : World :=
  mkWorld p (g_vaddr_allocated_offset w) (anon_counter w) (shared w) (gpu w) (g_allocator w).
Definition set_allocator (a : option Allocator) (w : World) : World :=
  mkWorld (kPageSize w) (g_vaddr_allocated_offset w) (anon_counter w) (shared w) (gpu w) a.
Definition put (f : World -> World) : M unit := fun w => Some (tt, f w).

(** [CHECK_DRV] *)
Definition check_drv (f : Gpu -> option Gpu) : M unit := fun w =>
  g ← f (gpu w); Some (tt, set_gpu g w).
Definition check_drv_ret {A} (f : Gpu -> option (A * Gpu)) : M A := fun w =>
  '(a, g) ← f (gpu w); Some (a, set_gpu g w).

(** [GPUPage::GPUPage], [CPUPage::CPUPage] and the two factories. *)
Definition make_page (dev : Device) (page_id : Z) : M Page :=
  match dev with
  | CUDA index =>
      size ← get kPageSize;
      handle ← check_drv_ret (cuMemCreate size);
      mret (GPUPage page_id index handle)
  | CPU => mret (CPUPage page_id 0)
  | OtherDevice => abort   (* a null page, dereferenced by the caller *)
  end.

(** [~GPUPage], [~CPUPage] *)
Definition destroy_page (p : Page) : M unit :=
  match p with
  | GPUPage _ _ handle => check_drv (cuMemRelease handle)
  | CPUPage _ _ => mret tt
  end.

(** [GPUPage::map], [CPUPage::map] *)
Definition page_map (p : Page) (vaddr : Z) (set_access : bool) : M (bool * Page) :=
  match p with
  | GPUPage _ _ handle =>
      size ← get kPageSize;
      _ ← check_drv (cuMemMap vaddr size handle);
      _ ← (if set_access then check_drv (cuMemSetAccess vaddr size) else mret tt);
      mret (true, p)
  | CPUPage page_id _ => mret (true, CPUPage page_id vaddr)
  end.

(** [std::shared_ptr<Page>]: a new one, a copy, a reset. *)
Definition share (p : Page) : M Z :=
  m ← get shared;
  let id := next_id (map fst (map_to_list m)) in
  _ ← put (set_shared (<[id := (p, 1)]> m));
  mret id.

Definition share_copy (id : Z) : M unit :=
  m ← get shared;
  match m !! id with
  | Some (p, n) => put (set_shared (<[id := (p, n + 1)]> m))
  | None => abort
  end.

Definition share_reset (id : Z) : M unit :=
  m ← get shared;
  match m !! id with
  | Some (p, n) =>
      if n =? 1 then _ ← destroy_page p; put (set_shared (delete id m))
      else put (set_shared (<[id := (p, n - 1)]> m))
  | None => abort
  end.

(** ** Tensors ([ftensor.cpp]) *)

Definition alloc_virtual_mem (dev : Device) (size : Z) : M Z :=
  let alignment_2mb := 2 * 1024 * 1024 in
  _ ← assert_ (size mod alignment_2mb =? 0);
  offset ← get g_vaddr_allocated_offset;
  _ ← put (fun w => mkWorld (kPageSize w) (u64 (offset + size)) (anon_counter w) (shared w) (gpu w)
                      (g_allocator w));
  match dev with
  | CUDA _ => check_drv_ret (cuMemAddressReserve size alignment_2mb (u64 (kStartAddr + offset)))
  | _ => match host_mmap (u64 (kStartAddr + offset)) size with
         | Some a => mret a
         | None => _ ← assert_ false; mret (2 ^ 64 - 1)   (* MAP_FAILED *)
         end
  end.

(** [FTensor::map_] on the shared zero page. *)
Definition map_zero (vaddr_ zero offset : Z) (set_access : bool) : M bool :=
  size ← get kPageSize;
  _ ← assert_ (u64 offset mod size =? 0);
  m ← get shared;
  match m !! zero with
  | None => abort
  | Some (page, n) =>
      '(ok, page') ← page_map page (u64 (vaddr_ + offset)) set_access;
      _ ← put (fun w => set_shared (<[zero := (page', n)]> (shared w)) w);
      mret ok
  end.

(** [FTensor::init_with_zero_]; a page size of zero would not terminate. *)
Fixpoint init_loop (fuel : nat) (vaddr_ size_ zero offset : Z) : M bool :=
  if offset <? size_ then
    match fuel with
    | O => abort
    | S fuel =>
        ok ← map_zero vaddr_ zero offset true;
        if (ok : bool) then
          size ← get kPageSize;
          init_loop fuel vaddr_ size_ zero (u64 (offset + size))
        else mret false
    end
  else mret true.

Definition init_with_zero_ (vaddr_ size_ zero : Z) : M bool :=
  size ← get kPageSize;
  _ ← assert_ (vaddr_ mod size =? 0);
  _ ← assert_ (size_ mod size =? 0);
  init_loop (S (Z.to_nat (size_ / size))) vaddr_ size_ zero 0.

(** [FTensor::FTensor] *)
Definition new_ftensor (name : string) (size elem : Z) (dev : Device) (zero_page : Z) : M FTensor :=
  _ ← share_copy zero_page;
  vaddr ← alloc_virtual_mem dev size;
  _ ← init_with_zero_ vaddr size zero_page;
  mret (mkFTensor name vaddr size elem dev zero_page ∅).

Definition get_tensor (ft : FTensor) : Tensor :=
  mkTensor (ft_vaddr ft) (ft_size ft / ft_elem ft) (ft_elem ft).

Fixpoint destroy_pages (l : list Page) : M unit :=
  match l with
  | [] => mret tt
  | p :: l => _ ← destroy_page p; destroy_pages l
  end.

(** [FTensor::~FTensor] *)
Definition destroy_ftensor (ft : FTensor) : M unit :=
  _ ← destroy_pages (map snd (map_to_list (ft_mapping ft)));
  _ ← share_reset (ft_zero ft);
  if ft_vaddr ft =? 0 then mret tt
  else
    _ ← check_drv (cuMemUnmap (ft_vaddr ft) (ft_size ft));
    check_drv (cuMemAddressFree (ft_vaddr ft) (ft_size ft)).

Definition with_mapping (ft : FTensor) (m : gmap Z Page) : FTensor :=
  mkFTensor (ft_name ft) (ft_vaddr ft) (ft_size ft) (ft_elem ft) (ft_dev ft) (ft_zero ft) m.

(** [FTensor::map] *)
Definition ft_map (ft : FTensor) (offset : Z) : M (bool * FTensor) :=
  size ← get kPageSize;
  _ ← assert_ (u64 offset mod size =? 0);
  let page_id := i64 (u64 offset / size) in
  match ft_mapping ft !! page_id with
  | Some _ => mret (false, ft)
  | None =>
      let vaddr := u64 (ft_vaddr ft + offset) in
      _ ← check_drv (cuMemUnmap vaddr size);
      page ← make_page (ft_dev ft) page_id;
      '(_, page) ← page_map page vaddr true;
      mret (true, with_mapping ft (<[page_id := page]> (ft_mapping ft)))
  end.

(** [FTensor::unmap] *)
Definition ft_unmap (ft : FTensor) (offset : Z) : M (bool * FTensor) :=
  size ← get kPageSize;
  _ ← assert_ (u64 offset mod size =? 0);
  let page_id := i64 (u64 offset / size) in
  match ft_mapping ft !! page_id with
  | None => mret (false, ft)
  | Some page =>
      let vaddr := u64 (ft_vaddr ft + offset) in
      _ ← check_drv (cuMemUnmap vaddr size);
      _ ← map_zero (ft_vaddr ft) (ft_zero ft) offset true;
      _ ← destroy_page page;
      mret (true, with_mapping ft (delete page_id (ft_mapping ft)))
  end.

(** ** The allocator ([allocator.cpp])

    Every method holds the allocator's lock for its whole duration. *)

Definition get_v_base_offset (t : Tensor) : M Z :=
  size ← get kPageSize;
  let num_eles := u64 (t_numel t * t_elem t) in
  _ ← assert_ (num_eles mod u64 (2 * size) =? 0);
  mret (num_eles / 2).

Fixpoint destroy_ftensors (l : list FTensor) : M unit :=
  match l with
  | [] => mret tt
  | ft :: l => _ ← destroy_ftensor ft; destroy_ftensors l
  end.

(** [FTensorAllocator::destroy], also the destructor. *)
Definition destroy (a : Allocator) : M Allocator :=
  _ ← destroy_ftensors (map snd (map_to_list (al_ftensors a)));
  _ ← (match al_contiguous_kv a with Some ft => destroy_ftensor ft | None => mret tt end);
  _ ← (match al_zero_page a with Some z => share_reset z | None => mret tt end);
  mret (mkAllocator (al_dev a) (al_num_layers a) (al_contiguous a) (al_size_per_layer a) ∅ None None).

(** [FTensorAllocator::init_cuda_]: the page size against the granularity. *)
Definition init_cuda_ : M unit :=
  size ← get kPageSize;
  assert_ (size mod cuMemGetAllocationGranularity =? 0).

(** [FTensorAllocator::FTensorAllocator] *)
Definition new_allocator (device : Device) (contiguous_layout : bool) : M Allocator :=
  _ ← (match device with CUDA _ => init_cuda_ | _ => mret tt end);
  mret (mkAllocator device 0 contiguous_layout 0 ∅ None None).

(** [g_allocator_.reset()] *)
Definition reset_global : M unit :=
  g ← get g_allocator;
  match g with
  | None => mret tt
  | Some a => _ ← destroy a; put (set_allocator None)
  end.

(** [FTensorAllocator::init] *)
Definition init (device : Device) (page_size : Z) (contiguous_layout : bool) : M unit :=
  _ ← reset_global;
  _ ← (if 0 <? page_size then
         if page_size mod (2 * 1024 * 1024) =? 0 then put (set_page_size page_size) else abort
       else mret tt);
  a ← new_allocator device contiguous_layout;
  put (set_allocator (Some a)).

(** [FTensorAllocator::shutdown] *)
Definition shutdown : M unit := reset_global.

(** [FTensorAllocator::global_allocator] *)
Definition global_allocator : M (option Allocator) :=
  g ← get g_allocator;
  _ ← assert_ (match g with Some _ => true | None => false end);
  mret g.

Definition get_anon_tensor_name_ : M string :=
  c ← get anon_counter;
  _ ← put (fun w => mkWorld (kPageSize w) (g_vaddr_allocated_offset w) (c + 1) (shared w) (gpu w)
                      (g_allocator w));
  mret ("anon_tensor_" +:+ pretty c).

Definition with_ftensors (a : Allocator) (m : gmap string FTensor) : Allocator :=
  mkAllocator (al_dev a) (al_num_layers a) (al_contiguous a) (al_size_per_layer a) m
    (al_contiguous_kv a) (al_zero_page a).

(** [FTensorAllocator::create_ftensor_] *)
Definition create_ftensor_ (a : Allocator) (size elem : Z) (dev : Device) (name : string) : M (Tensor * Allocator) :=
  name ← (if String.eqb name "" then get_anon_tensor_name_ else mret name);
  match al_ftensors a !! name with
  | Some ft =>
      let t := get_tensor ft in
      _ ← assert_ (t_numel t * t_elem t =? size);
      _ ← assert_ (bool_decide (ft_dev ft = dev));
      mret (t, a)
  | None =>
      match al_zero_page a with
      | None => abort
      | Some z =>
          ft ← new_ftensor name size elem (al_dev a) z;
          mret (get_tensor ft, with_ftensors a (<[name := ft]> (al_ftensors a)))
      end
  end.

(** [FTensorAllocator::free_ftensor_] *)
Definition free_ftensor_ (a : Allocator) (name : string) : M Allocator :=
  match al_ftensors a !! name with
  | None => mret a
  | Some ft => _ ← destroy_ftensor ft; mret (with_ftensors a (delete name (al_ftensors a)))
  end.

Definition kv_name (i : Z) : string := "kv_" +:+ pretty i.

(** [FTensorAllocator::create_kv_tensors_per_layer_] *)
Fixpoint create_kv_tensors_per_layer_ (a : Allocator) (size elem : Z) (dev : Device) (layers : list Z)
  : M (list Tensor * Allocator) :=
  match layers with
  | [] => mret ([], a)
  | i :: layers =>
      '(t, a) ← create_ftensor_ a size elem dev (kv_name i);
      '(ts, a) ← create_kv_tensors_per_layer_ a size elem dev layers;
      mret (t :: ts, a)
  end.

(** [FTensorAllocator::create_kv_tensors_contiguous_] *)
Definition create_kv_tensors_contiguous_ (a : Allocator) (size elem num_layers : Z)
  : M (list Tensor * Allocator) :=
  match al_zero_page a with
  | None => abort
  | Some z =>
      let total_kv_size := u64 (size * num_layers) in
      ft ← new_ftensor "kv_contiguous" total_kv_size elem (al_dev a) z;
      _ ← (match al_contiguous_kv a with Some old => destroy_ftensor old | None => mret tt end);
      mret ([get_tensor ft],
            mkAllocator (al_dev a) (al_num_layers a) (al_contiguous a) (al_size_per_layer a)
              (al_ftensors a) (Some ft) (al_zero_page a))
  end.

(** [zero_page_ = make_shared_page(dev_, ZERO_PAGE_ID)] *)
Definition new_zero_page (a : Allocator) : M Allocator :=
  page ← make_page (al_dev a) ZERO_PAGE_ID;
  z ← share page;
  _ ← (match al_zero_page a with Some old => share_reset old | None => mret tt end);
  mret (mkAllocator (al_dev a) (al_num_layers a) (al_contiguous a) (al_size_per_layer a)
          (al_ftensors a) (al_contiguous_kv a) (Some z)).

(** [FTensorAllocator::create_kv_tensors] *)
Definition create_kv_tensors (a : Allocator) (size elem : Z) (dev : Device) (num_layers : Z)
  : M (list Tensor * Allocator) :=
  _ ← assert_ ((al_num_layers a =? 0) || (al_num_layers a =? num_layers));
  page_size ← get kPageSize;
  let aligned_size :=
    if size mod page_size =? 0 then size
    else u64 (u64 (size + page_size - 1) / page_size * page_size) in
  let a := mkAllocator (al_dev a) num_layers (al_contiguous a) aligned_size
             (al_ftensors a) (al_contiguous_kv a) (al_zero_page a) in
  if al_contiguous a then
    _ ← put (set_page_size (u64 (page_size * u64 (num_layers * 2))));
    a ← new_zero_page a;
    create_kv_tensors_contiguous_ a aligned_size elem num_layers
  else
    a ← new_zero_page a;
    create_kv_tensors_per_layer_ a aligned_size elem dev (seqZ 0 num_layers).

(** [FTensorAllocator::kv_tensors_created] *)
Definition kv_tensors_created (a : Allocator) : bool := 0 <? al_num_layers a.

(** The offsets of one tensor; the results of the single pages are dropped. *)
Fixpoint each_offset (op : FTensor -> Z -> M (bool * FTensor)) (ft : FTensor) (offsets : list Z)
  : M FTensor :=
  match offsets with
  | [] => mret ft
  | o :: offsets => '(_, ft) ← op ft o; each_offset op ft offsets
  end.

(** Both halves of a layer's tensor. *)
Definition both_halves (offsets : list Z) (v_base_offset : Z) : list Z :=
  offsets ≫= fun o => [o; i64 (o + v_base_offset)].

Fixpoint each_layer (op : FTensor -> Z -> M (bool * FTensor)) (a : Allocator) (offsets layers : list Z)
  : M Allocator :=
  match layers with
  | [] => mret a
  | i :: layers =>
      match al_ftensors a !! kv_name i with
      | None => abort   (* [operator[]] makes a null entry, which is dereferenced *)
      | Some ft =>
          v ← get_v_base_offset (get_tensor ft);
          ft ← each_offset op ft (both_halves offsets v);
          each_layer op (with_ftensors a (<[kv_name i := ft]> (al_ftensors a))) offsets layers
      end
  end.

Definition on_kv_tensors (op : FTensor -> Z -> M (bool * FTensor)) (a : Allocator) (offsets : list Z)
  : M (bool * Allocator) :=
  if al_num_layers a =? 0 then mret (false, a)
  else if al_contiguous a then
    match al_contiguous_kv a with
    | None => abort
    | Some ft =>
        ft ← each_offset op ft offsets;
        mret (true, mkAllocator (al_dev a) (al_num_layers a) (al_contiguous a) (al_size_per_layer a)
                      (al_ftensors a) (Some ft) (al_zero_page a))
    end
  else a ← each_layer op a offsets (seqZ 0 (al_num_layers a)); mret (true, a).

(** [FTensorAllocator::map_to_kv_tensors], [::unmap_from_kv_tensors] *)
Definition map_to_kv_tensors : Allocator -> list Z -> M (bool * Allocator) := on_kv_tensors ft_map.
Definition unmap_from_kv_tensors : Allocator -> list Z -> M (bool * Allocator) := on_kv_tensors ft_unmap.

End source.
(** ** Documented behaviour of the driver *)

Definition free_range (g : Gpu) (a n : Z) : Prop :=
  forall a0 n0 h, maps g !! a0 = Some (n0, h) -> a0 + n0 <= a \/ a + n <= a0.

Definition in_reserved (g : Gpu) (a n : Z) : Prop :=
  exists b m, reserved g !! b = Some m /\ b <= a /\ a + n <= b + m.

(** Allocation and reservation may fail; the other calls succeed when used as
    documented: a live allocation is mapped whole at a free reserved range, whole
    mappings are unmapped, live allocations are released. *)
Class DriverOk `{Driver} : Prop := {
  create_ok n g h g' : cuMemCreate n g = Some (h, g') ->
    handles g !! h = None /\ (forall a m, maps g !! a <> Some (m, h)) /\
    g' = mkGpu (<[h := n]> (handles g)) (maps g) (reserved g);
  release_ok h n g : handles g !! h = Some n ->
    cuMemRelease h g = Some (mkGpu (delete h (handles g)) (maps g) (reserved g));
  map_ok a n h g : handles g !! h = Some n -> in_reserved g a n -> free_range g a n ->
    cuMemMap a n h g = Some (mkGpu (handles g) (<[a := (n, h)]> (maps g)) (reserved g));
  unmap_ok a n h g : maps g !! a = Some (n, h) ->
    cuMemUnmap a n g = Some (mkGpu (handles g) (delete a (maps g)) (reserved g));
  access_ok a n h g : maps g !! a = Some (n, h) -> cuMemSetAccess a n g = Some g;
  reserve_ok n al hint g a g' : 0 < n -> cuMemAddressReserve n al hint g = Some (a, g') ->
    0 < a /\ a + n <= 2 ^ 64 /\ a mod al = 0 /\ free_range g a n /\ reserved g !! a = None /\
    g' = mkGpu (handles g) (maps g) (<[a := n]> (reserved g))
}.

(** ** A tensor's pages *)

Section ftensor.
Context `{DriverOk}.
Variable debug : bool.

Definition pages (w : World) (ft : FTensor) : Z := ft_size ft / kPageSize w.

(** The allocation that must back page [k]: its own, or the zero page [z]. *)
Definition backing (ft : FTensor) (z k : Z) : Z :=
  match ft_mapping ft !! k with Some (GPUPage _ _ h) => h | _ => z end.

(** The whole range is backed: page by page, by live allocations. *)
Record backed (w : World) (ft : FTensor) (z : Z) : Prop := {
  bk_dev : exists i, ft_dev ft = CUDA i;
  bk_size : 0 < kPageSize w /\ ft_size ft = pages w ft * kPageSize w /\ ft_size ft < 2 ^ 63;
  bk_addr : 0 <= ft_vaddr ft /\ ft_vaddr ft + ft_size ft <= 2 ^ 64;
  bk_reserved : reserved (gpu w) !! ft_vaddr ft = Some (ft_size ft);
  bk_zero : handles (gpu w) !! z = Some (kPageSize w) /\
    exists id d n, shared w !! ft_zero ft = Some (GPUPage id d z, n);
  bk_pages : forall k, 0 <= k < pages w ft ->
    maps (gpu w) !! (ft_vaddr ft + k * kPageSize w) = Some (kPageSize w, backing ft z k);
  bk_private : forall k p, ft_mapping ft !! k = Some p -> 0 <= k < pages w ft /\
    exists d h, p = GPUPage k d h /\ handles (gpu w) !! h = Some (kPageSize w) /\ h <> z;
  bk_owned : forall k1 k2 d1 d2 h, ft_mapping ft !! k1 = Some (GPUPage k1 d1 h) ->
    ft_mapping ft !! k2 = Some (GPUPage k2 d2 h) -> k1 = k2;
  bk_maps : forall a n h, maps (gpu w) !! a = Some (n, h) ->
    a + n <= ft_vaddr ft \/ ft_vaddr ft + ft_size ft <= a \/
    exists k, 0 <= k < pages w ft /\ a = ft_vaddr ft + k * kPageSize w
}.

(** Everything outside the tensor stays. *)
Record outside_same (w w' : World) (ft : FTensor) : Prop := {
  os_globals : kPageSize w' = kPageSize w /\ shared w' = shared w /\ g_allocator w' = g_allocator w;
  os_reserved : reserved (gpu w') = reserved (gpu w);
  os_maps : forall a, a < ft_vaddr ft \/ ft_vaddr ft + ft_size ft <= a ->
    maps (gpu w') !! a = maps (gpu w) !! a
}.

Lemma page_key w ft z k1 k2 : backed w ft z ->
  ft_vaddr ft + k1 * kPageSize w = ft_vaddr ft + k2 * kPageSize w -> k1 = k2.
Proof. intros B. pose proof (bk_size _ _ _ B). nia. Qed.

(** The arithmetic of an offset. *)
Lemma page_offset w ft z k : backed w ft z -> 0 <= k < pages w ft ->
  let o := k * kPageSize w in
  u64 o = o /\ u64 o mod kPageSize w = 0 /\ i64 (u64 o / kPageSize w) = k /\
  u64 (ft_vaddr ft + o) = ft_vaddr ft + o.
Proof.
  intros B Hk o. destruct (bk_size _ _ _ B) as (Hp & Hs & Hl). destruct (bk_addr _ _ _ B) as [Ha Hb].
  assert (0 <= o /\ o + kPageSize w <= ft_size ft) as [Ho Ho'] by (unfold o; nia).
  assert (u64 o = o) as Eo by (apply u64_id; unfold is_u64; lia).
  split_and!; [done|rewrite Eo; unfold o; apply Z.mod_mul; lia| |apply u64_id; unfold is_u64; lia].
  rewrite Eo. unfold o. rewrite Z.div_mul by lia. apply i64_id. unfold is_i64. nia.
Qed.

(** Once the page [k] is unmapped its range can be mapped again. *)
Lemma page_free w ft z k hs : backed w ft z -> 0 <= k < pages w ft ->
  let a := ft_vaddr ft + k * kPageSize w in
  let g := mkGpu hs (delete a (maps (gpu w))) (reserved (gpu w)) in
  in_reserved g a (kPageSize w) /\ free_range g a (kPageSize w).
Proof.
  intros B Hk a g. destruct (bk_size _ _ _ B) as (Hp & Hs & Hl). split.
  - exists (ft_vaddr ft), (ft_size ft). split; [apply (bk_reserved _ _ _ B)|]. unfold a. nia.
  - intros a0 n0 h Hm. simpl in Hm. apply lookup_delete_Some in Hm as [Hne Hm].
    destruct (bk_maps _ _ _ B a0 n0 h Hm) as [?|[?|(k0 & Hk0 & ->)]]; [unfold a; nia..|].
    rewrite (bk_pages _ _ _ B k0 Hk0) in Hm. simplify_eq.
    assert (k0 <> k) by (intros ->; by apply Hne). unfold a. nia.
Qed.

(** Page [k] now has the backing that [m'] says. *)
Lemma backed_swap w w' ft z k m' hs' :
  backed w ft z -> 0 <= k < pages w ft ->
  (forall j, j <> k -> m' !! j = ft_mapping ft !! j) ->
  (forall p, m' !! k = Some p -> exists d h, p = GPUPage k d h /\ h <> z /\
     forall j d', j <> k -> ft_mapping ft !! j <> Some (GPUPage j d' h)) ->
  hs' !! z = Some (kPageSize w) ->
  (forall j d h, m' !! j = Some (GPUPage j d h) -> hs' !! h = Some (kPageSize w)) ->
  kPageSize w' = kPageSize w -> shared w' = shared w -> g_allocator w' = g_allocator w ->
  gpu w' = mkGpu hs' (<[ft_vaddr ft + k * kPageSize w := (kPageSize w, backing (with_mapping ft m') z k)]>
                        (delete (ft_vaddr ft + k * kPageSize w) (maps (gpu w)))) (reserved (gpu w)) ->
  backed w' (with_mapping ft m') z /\ outside_same w w' ft.
Proof.
  intros B Hk Hm Hmk Hz Hhs Ep Esh Eal Eg. pose proof (page_key w ft z) as Hkey.
  destruct (bk_size _ _ _ B) as (Hp & Hs & Hl). destruct (bk_addr _ _ _ B) as [Ha Hb].
  assert (pages w' (with_mapping ft m') = pages w ft) as Epg by (unfold pages; rewrite Ep; done).
  split; [split|split]; rewrite ?Epg, ?Ep, ?Esh, ?Eg; simpl; try done.
  - apply (bk_dev _ _ _ B).
  - apply (bk_reserved _ _ _ B).
  - split; [done|]. apply (bk_zero _ _ _ B).
  - intros j Hj. destruct (decide (j = k)) as [->|Hjk]; [by rewrite lookup_insert_eq|].
    assert (ft_vaddr ft + k * kPageSize w <> ft_vaddr ft + j * kPageSize w)
      by (intros E%(Hkey _ _ B); congruence).
    rewrite lookup_insert_ne, lookup_delete_ne, (bk_pages _ _ _ B j Hj) by done.
    unfold backing. simpl. by rewrite Hm.
  - intros j p Hj. destruct (decide (j = k)) as [->|Hjk].
    + destruct (Hmk p Hj) as (d & h & -> & Hne & _). split; [done|]. eauto 6.
    + rewrite Hm in Hj by done. destruct (bk_private _ _ _ B j p Hj) as (Hr & d & h & -> & _ & Hne).
      split; [done|]. exists d, h. split_and!; [done| |done]. apply (Hhs j d). by rewrite Hm.
  - intros j1 j2 d1 d2 h H1 H2. destruct (decide (j1 = k)) as [->|]; destruct (decide (j2 = k)) as [->|];
      [done| | |].
    + destruct (Hmk _ H1) as (d & h' & [= <- <-] & _ & Hf). rewrite Hm in H2 by done. by destruct (Hf j2 d2).
    + destruct (Hmk _ H2) as (d & h' & [= <- <-] & _ & Hf). rewrite Hm in H1 by done. by destruct (Hf j1 d1).
    + rewrite Hm in H1, H2 by done. by eapply (bk_owned _ _ _ B).
  - intros a n h [[<- [= <- <-]]|[_ [_ Hl']%lookup_delete_Some]]%lookup_insert_Some.
    + right. right. by exists k.
    + by apply (bk_maps _ _ _ B) in Hl'.
  - intros a Hout. rewrite lookup_insert_ne, lookup_delete_ne by nia. done.
Qed.

(** Running a program step by step. *)
Lemma bind_some {A B} (m : M A) (f : A -> M B) w a w' : m w = Some (a, w') -> (m ≫= f) w = f a w'.
Proof. intros E. unfold mbind, M_bind. by rewrite E. Qed.

Lemma bind_none {A B} (m : M A) (f : A -> M B) w : m w = None -> (m ≫= f) w = None.
Proof. intros E. unfold mbind, M_bind. by rewrite E. Qed.

Lemma get_some {A} (f : World -> A) w : get f w = Some (f w, w).
Proof. done. Qed.

Lemma assert_some c w : c = true -> assert_ debug c w = Some (tt, w).
Proof. intros ->. unfold assert_. by rewrite andb_false_r. Qed.

Lemma check_some f g w : f (gpu w) = Some g -> check_drv f w = Some (tt, set_gpu g w).
Proof. intros E. unfold check_drv. by rewrite E. Qed.

Lemma check_ret_some {A} (f : Gpu -> option (A * Gpu)) a g w :
  f (gpu w) = Some (a, g) -> check_drv_ret f w = Some (a, set_gpu g w).
Proof. intros E. unfold check_drv_ret. by rewrite E. Qed.

Lemma page_map_gpu id d h a w : 
  handles (gpu w) !! h = Some (kPageSize w) -> in_reserved (gpu w) a (kPageSize w) ->
  free_range (gpu w) a (kPageSize w) ->
  page_map (GPUPage id d h) a true w
  = Some ((true, GPUPage id d h),
          set_gpu (mkGpu (handles (gpu w)) (<[a := (kPageSize w, h)]> (maps (gpu w))) (reserved (gpu w))) w).
Proof.
  intros Hh Hr Hf. unfold page_map. rewrite (bind_some _ _ _ _ _ (get_some _ _)).
  rewrite (bind_some _ _ _ _ _ (check_some _ _ _ (map_ok a _ h _ Hh Hr Hf))).
  set (w1 := set_gpu _ w).
  assert (maps (gpu w1) !! a = Some (kPageSize w, h)) as Hm by apply lookup_insert_eq.
  by rewrite (bind_some _ _ _ _ _ (check_some _ _ w1 (access_ok a _ h _ Hm))).
Qed.

(** The checks at the head of both operations. *)
Lemma ft_map_enter w ft z k : backed w ft z -> 0 <= k < pages w ft ->
  ft_map debug ft (k * kPageSize w) w
  = match ft_mapping ft !! k with
    | Some _ => Some ((false, ft), w)
    | None =>
        let vaddr := ft_vaddr ft + k * kPageSize w in
        (_ ← check_drv (cuMemUnmap vaddr (kPageSize w));
         page ← make_page (ft_dev ft) k;
         '(_, page) ← page_map page vaddr true;
         mret (true, with_mapping ft (<[k := page]> (ft_mapping ft)))) w
    end.
Proof.
  intros B Hk. destruct (page_offset w ft z k B Hk) as (E1 & E2 & E3 & E4). unfold ft_map.
  rewrite (bind_some _ _ _ _ _ (get_some _ _)).
  rewrite (bind_some _ _ _ tt w) by (apply assert_some; by rewrite E2). cbv zeta. rewrite E3, E4.
  by destruct (ft_mapping ft !! k).
Qed.

Lemma ft_unmap_enter w ft z k : backed w ft z -> 0 <= k < pages w ft ->
  ft_unmap debug ft (k * kPageSize w) w
  = match ft_mapping ft !! k with
    | None => Some ((false, ft), w)
    | Some page =>
        (_ ← check_drv (cuMemUnmap (ft_vaddr ft + k * kPageSize w) (kPageSize w));
         _ ← map_zero debug (ft_vaddr ft) (ft_zero ft) (k * kPageSize w) true;
         _ ← destroy_page page;
         mret (true, with_mapping ft (delete k (ft_mapping ft)))) w
    end.
Proof.
  intros B Hk. destruct (page_offset w ft z k B Hk) as (E1 & E2 & E3 & E4). unfold ft_unmap.
  rewrite (bind_some _ _ _ _ _ (get_some _ _)).
  rewrite (bind_some _ _ _ tt w) by (apply assert_some; by rewrite E2). cbv zeta. rewrite E3, E4.
  by destruct (ft_mapping ft !! k).
Qed.

(** Mapping a page that is not mapped: it gets a new allocation of its own, unless
    the driver has none. *)
Lemma ft_map_new w ft z k : backed w ft z -> 0 <= k < pages w ft -> ft_mapping ft !! k = None ->
  let a := ft_vaddr ft + k * kPageSize w in
  match cuMemCreate (kPageSize w) (mkGpu (handles (gpu w)) (delete a (maps (gpu w))) (reserved (gpu w))) with
  | None => ft_map debug ft (k * kPageSize w) w = None
  | Some (h, _) => exists d w',
      ft_map debug ft (k * kPageSize w) w
      = Some ((true, with_mapping ft (<[k := GPUPage k d h]> (ft_mapping ft))), w') /\
      handles (gpu w) !! h = None /\ handles (gpu w') = <[h := kPageSize w]> (handles (gpu w)) /\
      backed w' (with_mapping ft (<[k := GPUPage k d h]> (ft_mapping ft))) z /\ outside_same w w' ft
  end.
Proof.
  intros B Hk Hp a. destruct (bk_dev _ _ _ B) as [d Hd]. destruct (bk_zero _ _ _ B) as [Hz _].
  pose proof (bk_pages _ _ _ B k Hk) as Hm. fold a in Hm.
  rewrite (ft_map_enter w ft z k B Hk), Hp, Hd. cbv zeta. fold a.
  rewrite (bind_some _ _ _ _ _ (check_some _ _ _ (unmap_ok a _ _ _ Hm))).
  set (g1 := mkGpu _ _ _). set (w1 := set_gpu g1 w).
  destruct (cuMemCreate (kPageSize w) g1) as [[h g2]|] eqn:Ec.
  2:{ apply bind_none. unfold make_page. rewrite (bind_some _ _ _ _ _ (get_some _ _)). apply bind_none.
      unfold check_drv_ret. simpl. by rewrite Ec. }
  destruct (create_ok _ _ _ _ Ec) as (Hfresh & Hnomap & ->). simpl in Hfresh.
  set (w2 := set_gpu (mkGpu (<[h := kPageSize w]> (handles g1)) (maps g1) (reserved g1)) w1).
  rewrite (bind_some _ _ w1 (GPUPage k d h) w2).
  2:{ unfold make_page. rewrite (bind_some _ _ _ _ _ (get_some _ _)).
      by rewrite (bind_some _ _ _ _ _ (check_ret_some _ _ _ w1 Ec)). }
  destruct (page_free w ft z k (<[h := kPageSize w]> (handles (gpu w))) B Hk) as [Hres Hfree].
  assert (handles (gpu w2) !! h = Some (kPageSize w)) as Hh2 by apply lookup_insert_eq.
  rewrite (bind_some _ _ _ _ _ (page_map_gpu k d h a w2 Hh2 Hres Hfree)).
  eexists d, _. split; [done|]. split; [done|]. split; [done|].
  assert (forall k' p, ft_mapping ft !! k' = Some p -> p <> GPUPage k' d h) as Hnew.
  { intros k' p Hp' ->. destruct (bk_private _ _ _ B k' _ Hp') as (_ & d' & h' & [= <- <-] & E & _).
    congruence. }
  apply (backed_swap w _ ft z k _ (<[h := kPageSize w]> (handles (gpu w)))); try done.
  - intros j Hj. by rewrite lookup_insert_ne.
  - intros p. rewrite lookup_insert_eq. intros [= <-]. exists d, h. split_and!; [done|congruence|].
    intros j d' Hj Hl. destruct (bk_private _ _ _ B j _ Hl) as (_ & d0 & h0 & [= <- <-] & E & _). congruence.
  - rewrite lookup_insert_ne; [done|congruence].
  - intros j d' h' [[<- [= <- <-]]|[Hne Hl]]%lookup_insert_Some; [by rewrite lookup_insert_eq|].
    destruct (bk_private _ _ _ B j _ Hl) as (_ & d0 & h0 & [= <- <-] & E & _).
    rewrite lookup_insert_ne; [done|congruence].
  - simpl. unfold backing. simpl. by rewrite lookup_insert_eq.
Qed.

(** Unmapping a mapped page: the zero page takes its place, its allocation is released. *)
Lemma ft_unmap_mapped w ft z k p : backed w ft z -> 0 <= k < pages w ft -> ft_mapping ft !! k = Some p ->
  exists d h w', p = GPUPage k d h /\
    ft_unmap debug ft (k * kPageSize w) w = Some ((true, with_mapping ft (delete k (ft_mapping ft))), w') /\
    is_Some (handles (gpu w) !! h) /\ handles (gpu w') = delete h (handles (gpu w)) /\
    backed w' (with_mapping ft (delete k (ft_mapping ft))) z /\ outside_same w w' ft.
Proof.
  intros B Hk Hp. set (a := ft_vaddr ft + k * kPageSize w).
  destruct (bk_zero _ _ _ B) as (Hz & id & dz & nz & Hsh).
  destruct (bk_private _ _ _ B k p Hp) as (_ & d & h & -> & Hh & Hhz).
  pose proof (bk_pages _ _ _ B k Hk) as Hm. fold a in Hm.
  rewrite (ft_unmap_enter w ft z k B Hk), Hp. fold a.
  rewrite (bind_some _ _ _ _ _ (check_some _ _ _ (unmap_ok a _ _ _ Hm))).
  set (g1 := mkGpu _ _ _). set (w1 := set_gpu g1 w).
  destruct (page_free w ft z k (handles (gpu w)) B Hk) as [Hres Hfree].
  destruct (page_offset w ft z k B Hk) as (E1 & E2 & E3 & E4).
  set (w2 := set_gpu (mkGpu (handles g1) (<[a := (kPageSize w, z)]> (maps g1)) (reserved g1)) w1).
  assert (map_zero debug (ft_vaddr ft) (ft_zero ft) (k * kPageSize w) true w1 = Some (true, w2)) as Emap.
  { unfold map_zero. rewrite (bind_some _ _ _ _ _ (get_some _ _)).
    rewrite (bind_some _ _ _ tt w1) by (apply assert_some; change (kPageSize w1) with (kPageSize w); by rewrite E2).
    rewrite (bind_some _ _ _ _ _ (get_some _ _)). simpl. rewrite Hsh, E4. fold a.
    rewrite (bind_some _ _ _ _ _ (page_map_gpu id dz z a w1 Hz Hres Hfree)). fold w2.
    rewrite (bind_some _ _ _ tt w2); [done|]. unfold put. simpl. by rewrite (insert_id _ _ _ Hsh). }
  rewrite (bind_some _ _ _ _ _ Emap).
  unfold destroy_page. rewrite (bind_some _ _ _ _ _ (check_some (cuMemRelease h) _ w2 (release_ok h _ (gpu w2) Hh))).
  exists d, h. eexists. split; [done|]. split; [done|]. split; [by eexists|]. split; [done|].
  apply (backed_swap w _ ft z k _ (delete h (handles (gpu w)))); try done.
  - intros j Hj. by rewrite lookup_delete_ne.
  - intros q. by rewrite lookup_delete_eq.
  - by rewrite lookup_delete_ne.
  - intros j d' h' [Hne Hl]%lookup_delete_Some.
    destruct (bk_private _ _ _ B j _ Hl) as (_ & d0 & h0 & [= <- <-] & E & _).
    rewrite lookup_delete_ne; [done|]. intros <-. apply Hne. by eapply (bk_owned _ _ _ B).
  - simpl. unfold backing. simpl. by rewrite lookup_delete_eq.
Qed.

(** ** Sequences of operations against the set of resident pages *)

Fixpoint run_ops (ft : FTensor) (ops : list (bool * Z)) : M (list bool * FTensor) :=
  match ops with
  | [] => mret ([], ft)
  | (is_map, k) :: ops =>
      size ← get kPageSize;
      '(b, ft) ← (if (is_map : bool) then ft_map debug ft (k * size) else ft_unmap debug ft (k * size));
      '(bs, ft) ← run_ops ft ops;
      mret (b :: bs, ft)
  end.

(** The contract.  Its state is the allocation of every resident page and the sizes of
    all live allocations of the driver.  An absent page is mapped to a new allocation of
    one page; a resident page is unmapped and its allocation released; an operation on a
    page in the wrong state is refused and changes nothing. *)
Record Residency := mkResidency { resident : gmap Z Z; live : gmap Z Z }.

Inductive elastic_op (page_size : Z) : bool * Z -> bool -> Residency -> Residency -> Prop :=
  | map_absent k h s : resident s !! k = None -> live s !! h = None ->
      elastic_op page_size (true, k) true s
        (mkResidency (<[k := h]> (resident s)) (<[h := page_size]> (live s)))
  | map_resident k h s : resident s !! k = Some h -> elastic_op page_size (true, k) false s s
  | unmap_resident k h s : resident s !! k = Some h ->
      elastic_op page_size (false, k) true s (mkResidency (delete k (resident s)) (delete h (live s)))
  | unmap_absent k s : resident s !! k = None -> elastic_op page_size (false, k) false s s.

Inductive elastic_ops (page_size : Z) : list (bool * Z) -> list bool -> Residency -> Residency -> Prop :=
  | ops_none s : elastic_ops page_size [] [] s s
  | ops_step op ops b bs s s' s'' : elastic_op page_size op b s s' -> elastic_ops page_size ops bs s' s'' ->
      elastic_ops page_size (op :: ops) (b :: bs) s s''.

Definition handle_of (p : Page) : option Z := match p with GPUPage _ _ h => Some h | CPUPage _ _ => None end.
Definition residency (w : World) (ft : FTensor) : Residency :=
  mkResidency (omap handle_of (ft_mapping ft)) (handles (gpu w)).

Lemma outside_trans w1 w2 w3 ft : outside_same w1 w2 ft -> outside_same w2 w3 ft -> outside_same w1 w3 ft.
Proof.
  intros [(A1 & A2 & A3) A4 A5] [(B1 & B2 & B3) B4 B5]. split; [split_and!; congruence|congruence|].
  intros a Ha. rewrite B5, A5; done.
Qed.

(** One operation. *)
Lemma op_refines w ft z is_map k :
  backed w ft z -> 0 <= k < pages w ft ->
  match (if (is_map : bool) then ft_map debug ft (k * kPageSize w) w
         else ft_unmap debug ft (k * kPageSize w) w) with
  | None => exists g, cuMemCreate (kPageSize w) g = None
  | Some ((b, ft'), w') =>
      backed w' ft' z /\ outside_same w w' ft /\ ft' = with_mapping ft (ft_mapping ft') /\
      elastic_op (kPageSize w) (is_map, k) b (residency w ft) (residency w' ft') /\
      (b = false -> w' = w /\ ft' = ft)
  end.
Proof.
  intros B Hk. destruct (ft_mapping ft !! k) as [p|] eqn:Hp.
  - destruct (bk_private _ _ _ B k p Hp) as (_ & d & h & -> & _).
    assert (resident (residency w ft) !! k = Some h) as Hr by (simpl; by rewrite lookup_omap, Hp). destruct is_map.
    + rewrite (ft_map_enter w ft z k B Hk), Hp. split_and!; [done|by split|by destruct ft|by eapply map_resident|done].
    + destruct (ft_unmap_mapped w ft z k _ B Hk Hp) as (d' & h' & w' & [= <- <-] & -> & _ & Eh & B' & O).
      split_and!; [done|done|done| |done].
      unfold residency at 2. rewrite Eh. simpl. rewrite omap_delete. by apply (unmap_resident _ k h).
  - assert (resident (residency w ft) !! k = None) as Hr by (simpl; by rewrite lookup_omap, Hp). destruct is_map.
    + pose proof (ft_map_new w ft z k B Hk Hp) as Hn. cbv zeta in Hn.
      destruct (cuMemCreate _ _) as [[h g]|] eqn:Ec; [|rewrite Hn; eauto].
      destruct Hn as (d & w' & -> & Hh & Eh & B' & O). split_and!; [done|done|done| |done].
      unfold residency at 2. rewrite Eh. simpl. rewrite (omap_insert_Some _ _ _ _ h) by done. by apply map_absent.
    + rewrite (ft_unmap_enter w ft z k B Hk), Hp. split_and!; [done|by split|by destruct ft|by apply unmap_absent|done].
Qed.

Lemma run_ops_refines ops : forall w ft z,
  backed w ft z -> Forall (fun o => 0 <= o.2 < pages w ft) ops ->
  match run_ops ft ops w with
  | None => exists g, cuMemCreate (kPageSize w) g = None
  | Some ((flags, ft'), w') =>
      backed w' ft' z /\ outside_same w w' ft /\ ft' = with_mapping ft (ft_mapping ft') /\
      elastic_ops (kPageSize w) ops flags (residency w ft) (residency w' ft') /\
      (Forall (fun b => b = false) flags -> w' = w /\ ft' = ft)
  end.
Proof.
  induction ops as [|[is_map k] ops IH]; intros w ft z B Hops.
  { split_and!; [done|by split|by destruct ft|constructor|done]. }
  apply Forall_cons in Hops as [Hk Hops]. cbn [run_ops]. rewrite (bind_some _ _ _ _ _ (get_some _ _)).
  pose proof (op_refines w ft z is_map k B Hk) as Hop.
  assert ((if is_map then ft_map debug ft (k * kPageSize w) else ft_unmap debug ft (k * kPageSize w)) w
          = if is_map then ft_map debug ft (k * kPageSize w) w else ft_unmap debug ft (k * kPageSize w) w)
    as Eif by (by destruct is_map).
  destruct (if is_map then ft_map debug ft (k * kPageSize w) w else _) as [[[b ft1] w1]|].
  2:{ rewrite (bind_none _ _ _ Eif). done. }
  rewrite (bind_some _ _ _ _ _ Eif). clear Eif. destruct Hop as (B1 & O1 & Eft & Hstep & Hno).
  pose proof (os_globals _ _ _ O1) as (Ep & _).
  assert (pages w1 ft1 = pages w ft) as Epg by (unfold pages; rewrite Ep, Eft; done).
  specialize (IH w1 ft1 z B1). rewrite Epg, Ep in IH. specialize (IH Hops).
  destruct (run_ops ft1 ops w1) as [[[flags ft'] w']|] eqn:Er.
  2:{ rewrite (bind_none _ _ _ Er). done. }
  rewrite (bind_some _ _ _ _ _ Er). destruct IH as (B2 & O2 & Eft2 & Hsteps & Hno2).
  split_and!; [done| |by rewrite Eft2, Eft|by econstructor|].
  - eapply outside_trans; [done|]. destruct O2 as [? ? Hm]. split; [done..|]. rewrite Eft in Hm. done.
  - intros [-> Hf]%Forall_cons. destruct (Hno eq_refl) as [-> ->]. by apply Hno2.
Qed.

(** ** The constructor *)

Section construct.
Variables (w0 : World) (v P m z zid id dz nz : Z).
Hypothesis HP : 0 < P.
Hypothesis Hm : 0 <= m.
Hypothesis Hv : 0 <= v /\ v + m * P <= 2 ^ 64 /\ m * P < 2 ^ 63.
Hypothesis Hfree0 : free_range (gpu w0) v (m * P).
Hypothesis Hres0 : reserved (gpu w0) !! v = Some (m * P).
Hypothesis Hz0 : handles (gpu w0) !! z = Some P.
Hypothesis Hsh0 : shared w0 !! zid = Some (GPUPage id dz z, nz).
Hypothesis HP0 : kPageSize w0 = P.

(** The first [j] pages are mapped to the zero page. *)
Record zeroed (j : Z) (w : World) : Prop := {
  ze_world : kPageSize w = P /\ shared w = shared w0 /\ g_allocator w = g_allocator w0 /\
    handles (gpu w) = handles (gpu w0) /\ reserved (gpu w) = reserved (gpu w0);
  ze_in : forall i, 0 <= i < j -> maps (gpu w) !! (v + i * P) = Some (P, z);
  ze_maps : forall a n h, maps (gpu w) !! a = Some (n, h) ->
    (exists i, 0 <= i < j /\ a = v + i * P /\ n = P) \/ maps (gpu w0) !! a = Some (n, h);
  ze_out : forall a, a < v \/ v + j * P <= a -> maps (gpu w) !! a = maps (gpu w0) !! a
}.

Lemma map_zero_step j w : 0 <= j < m -> zeroed j w ->
  exists w', map_zero debug v zid (j * P) true w = Some (true, w') /\ zeroed (j + 1) w'.
Proof.
  intros Hj [(Ep & Es & Ea & Eh & Er) Zi Zm Zo]. unfold map_zero.
  rewrite (bind_some _ _ _ _ _ (get_some _ _)).
  assert (u64 (j * P) = j * P) as E1 by (apply u64_id; unfold is_u64; nia).
  assert (u64 (v + j * P) = v + j * P) as E2 by (apply u64_id; unfold is_u64; nia).
  rewrite (bind_some _ _ _ tt w) by (apply assert_some; rewrite Ep, E1, Z.mod_mul by lia; done).
  rewrite (bind_some _ _ _ _ _ (get_some _ _)), Es, Hsh0, E2.
  assert (handles (gpu w) !! z = Some (kPageSize w)) as Hz by (rewrite Eh, Ep; done).
  assert (in_reserved (gpu w) (v + j * P) (kPageSize w)) as Hin.
  { exists v, (m * P). rewrite Er, Ep. split; [done|]. nia. }
  assert (free_range (gpu w) (v + j * P) (kPageSize w)) as Hfr.
  { rewrite Ep. intros a n h [(i & Hi & -> & ->)|Ha]%Zm; [nia|].
    destruct (Hfree0 a n h Ha); nia. }
  rewrite (bind_some _ _ _ _ _ (page_map_gpu id dz z _ w Hz Hin Hfr)). set (w1 := set_gpu _ w).
  rewrite (bind_some _ _ _ tt w1).
  2:{ unfold put. simpl. rewrite Es, (insert_id _ _ _ Hsh0). by rewrite <- Es. }
  exists w1. split; [done|]. unfold w1. split; simpl; rewrite ?Ep.
  - done.
  - intros i Hi. destruct (decide (i = j)) as [->|]; [by rewrite lookup_insert_eq|].
    rewrite lookup_insert_ne by nia. apply Zi. lia.
  - intros a n h [[<- [= <- <-]]|[_ Ha]]%lookup_insert_Some; [left; exists j; split_and!; [lia..|done|done]|].
    destruct (Zm a n h Ha) as [(i & Hi & -> & ->)|?]; [left; exists i; split_and!; [lia..|done|done]|by right].
  - intros a Ha. rewrite lookup_insert_ne by nia. apply Zo. nia.
Qed.

Lemma init_loop_ok fuel : forall j w, 0 <= j <= m -> (Z.to_nat (m - j) <= fuel)%nat -> zeroed j w ->
  exists w', init_loop debug fuel v (m * P) zid (j * P) w = Some (true, w') /\ zeroed m w'.
Proof.
  induction fuel as [|fuel IH]; intros j w Hj Hf Z.
  - assert (j = m) as -> by lia. exists w. split; [|done]. simpl. by rewrite Z.ltb_irrefl.
  - cbn [init_loop]. destruct (Z.ltb_spec (j * P) (m * P)) as [Hlt|Hge].
    + destruct (map_zero_step j w) as (w1 & E & Z1); [nia|done|].
      rewrite (bind_some _ _ _ _ _ E), (bind_some _ _ _ _ _ (get_some _ _)).
      rewrite (proj1 (ze_world _ _ Z1)). replace (u64 (j * P + P)) with ((j + 1) * P).
      2:{ rewrite u64_id by (unfold is_u64; nia). lia. }
      apply IH; [nia|lia|done].
    + assert (j = m) as -> by nia. exists w. by split.
Qed.

Lemma zeroed_backed w name elem i :
  zeroed m w -> backed w (mkFTensor name v (m * P) elem (CUDA i) zid ∅) z.
Proof.
  intros [(Ep & Es & Ea & Eh & Er) Zi Zm Zo].
  assert (pages w (mkFTensor name v (m * P) elem (CUDA i) zid ∅) = m) as Epg.
  { unfold pages. simpl. rewrite Ep. apply Z.div_mul. lia. }
  split; rewrite ?Epg, ?Ep, ?Er, ?Eh, ?Es; simpl; try done.
  - by eexists.
  - lia.
  - lia.
  - split; [done|]. by exists id, dz, nz.
  - intros a n h [(k & Hk & -> & ->)|Ha]%Zm; [right; right; by exists k|].
    destruct (Hfree0 a n h Ha); auto.
Qed.
End construct.

(** A new tensor is backed throughout, unless no address range can be reserved.
    The compiled-in assertions hold when the range is aligned to the page size. *)
Lemma new_ftensor_ok w name m elem i zid id dz z nz :
  let P := kPageSize w in let size := m * P in
  0 < P -> 0 < m -> size < 2 ^ 63 -> size mod (2 * 1024 * 1024) = 0 ->
  shared w !! zid = Some (GPUPage id dz z, nz) -> handles (gpu w) !! z = Some P ->
  (debug = true -> forall hint g a g',
     cuMemAddressReserve size (2 * 1024 * 1024) hint g = Some (a, g') -> a mod P = 0) ->
  match new_ftensor debug name size elem (CUDA i) zid w with
  | None => exists hint, cuMemAddressReserve size (2 * 1024 * 1024) hint (gpu w) = None
  | Some (ft, w') => backed w' ft z /\ ft_mapping ft = ∅ /\ kPageSize w' = P /\
      handles (gpu w') = handles (gpu w) /\ shared w' !! zid = Some (GPUPage id dz z, nz + 1)
  end.
Proof.
  intros P size HP Hm Hs Hmod Hsh Hz Hal. unfold new_ftensor.
  rewrite (bind_some _ _ w tt (set_shared (<[zid := (GPUPage id dz z, nz + 1)]> (shared w)) w)).
  2:{ unfold share_copy. rewrite (bind_some _ _ _ _ _ (get_some _ _)). by rewrite Hsh. }
  set (w1 := set_shared _ w). set (off := g_vaddr_allocated_offset w).
  set (w2 := mkWorld P (u64 (off + size)) (anon_counter w) (shared w1) (gpu w) (g_allocator w)).
  assert (alloc_virtual_mem debug (CUDA i) size w1
    = check_drv_ret (cuMemAddressReserve size (2 * 1024 * 1024) (u64 (kStartAddr + off))) w2) as Ealloc.
  { unfold alloc_virtual_mem.
    rewrite (bind_some _ _ _ tt w1) by (apply assert_some; by apply Z.eqb_eq). done. }
  destruct (cuMemAddressReserve size (2 * 1024 * 1024) (u64 (kStartAddr + off)) (gpu w)) as [[v g]|] eqn:Er.
  2:{ rewrite bind_none; [by eexists|]. rewrite Ealloc. unfold check_drv_ret. simpl. by rewrite Er. }
  rewrite (bind_some _ _ w1 v (set_gpu g w2)).
  2:{ rewrite Ealloc. by apply check_ret_some. }
  assert (0 < size) as Hpos by (apply Z.mul_pos_pos; done).
  destruct (reserve_ok _ _ _ _ _ _ Hpos Er) as (Hv & Hv2 & _ & Hfree & Hnres & ->).
  set (w3 := set_gpu _ w2).
  assert (zeroed w3 v P z 0 w3) as Hz3.
  { split; [done|lia|by right|done]. }
  destruct (init_loop_ok w3 v P m z zid id dz (nz + 1) HP ltac:(lia) ltac:(fold size; lia) Hfree
    (lookup_insert_eq _ _ _) Hz (lookup_insert_eq _ _ _) (S (Z.to_nat m)) 0 w3) as (w4 & E4 & Z4); [lia|lia|done|].
  rewrite (bind_some _ _ w3 true w4).
  2:{ unfold init_with_zero_. rewrite (bind_some _ _ _ _ _ (get_some _ _)).
      change (kPageSize w3) with P. unfold size at 1 2 3. rewrite Z.mod_mul, Z.div_mul by lia.
      rewrite (bind_some _ _ _ tt w3).
      2:{ unfold assert_. destruct debug; [|done]. by rewrite (Hal eq_refl _ _ _ _ Er). }
      rewrite (bind_some _ _ _ tt w3) by (by apply assert_some). done. }
  destruct (ze_world _ _ _ _ _ _ Z4) as (Ep & Es & _ & Eh & _).
  split_and!; [|done|done|done|rewrite Es; apply lookup_insert_eq].
  apply (zeroed_backed w3 v P m z zid id dz (nz + 1)); try done; try lia; apply lookup_insert_eq.
Qed.

End ftensor.
(** ** The page size over the life of the allocator *)

Section page_size.
Context `{Driver}.
Variable debug : bool.

Definition keeps_page_size {A} (m : M A) : Prop :=
  forall w a w', m w = Some (a, w') -> kPageSize w' = kPageSize w.

Lemma keeps_ret {A} (a : A) : keeps_page_size (mret a).
Proof. by intros w b w' [= _ <-]. Qed.

Lemma keeps_abort {A} : keeps_page_size (@abort A).
Proof. done. Qed.

Lemma keeps_get {A} (f : World -> A) : keeps_page_size (get f).
Proof. by intros w b w' [= _ <-]. Qed.

Lemma keeps_put f : (forall w, kPageSize (f w) = kPageSize w) -> keeps_page_size (put f).
Proof. by intros Hf w b w' [= _ <-]. Qed.

Lemma keeps_bind {A B} (m : M A) (f : A -> M B) :
  keeps_page_size m -> (forall a, keeps_page_size (f a)) -> keeps_page_size (m ≫= f).
Proof.
  intros Hm Hf w b w'. unfold mbind, M_bind. destruct (m w) as [[a w1]|] eqn:E; simpl; [|done].
  intros E2. rewrite (Hf a _ _ _ E2). by eapply Hm.
Qed.

Lemma keeps_check f : keeps_page_size (check_drv f).
Proof. intros w [] w'. unfold check_drv. destruct (f (gpu w)); simpl; [|done]. by intros [= <-]. Qed.

Lemma keeps_check_ret {A} (f : Gpu -> option (A * Gpu)) : keeps_page_size (check_drv_ret f).
Proof.
  intros w a w'. unfold check_drv_ret. destruct (f (gpu w)) as [[b g]|]; simpl; [|done].
  by intros [= <- <-].
Qed.

Lemma keeps_assert c : keeps_page_size (assert_ debug c).
Proof. unfold assert_. destruct (debug && negb c); [apply keeps_abort|apply keeps_ret]. Qed.

#[local] Hint Resolve keeps_ret keeps_abort keeps_get keeps_check keeps_check_ret keeps_assert : sonar.

(** Goes through a program. *)
Ltac keeps := repeat first
  [ progress eauto with sonar | apply keeps_bind; [|intros ?] | apply keeps_put; intros; reflexivity
  | progress case_match ].

Lemma keeps_make_page dev id : keeps_page_size (make_page dev id).
Proof. unfold make_page. keeps. Qed.
Lemma keeps_destroy_page p : keeps_page_size (destroy_page p).
Proof. unfold destroy_page. keeps. Qed.
Lemma keeps_page_map p a b : keeps_page_size (page_map p a b).
Proof. unfold page_map. keeps. Qed.
#[local] Hint Resolve keeps_make_page keeps_destroy_page keeps_page_map : sonar.
Lemma keeps_share p : keeps_page_size (share p).
Proof. unfold share. keeps. Qed.
Lemma keeps_share_copy i : keeps_page_size (share_copy i).
Proof. unfold share_copy. keeps. Qed.
Lemma keeps_share_reset i : keeps_page_size (share_reset i).
Proof. unfold share_reset. keeps. Qed.
Lemma keeps_map_zero v z o b : keeps_page_size (map_zero debug v z o b).
Proof. unfold map_zero. keeps. Qed.
#[local] Hint Resolve keeps_share keeps_share_copy keeps_share_reset keeps_map_zero : sonar.

Lemma keeps_init_loop fuel v s z : forall o, keeps_page_size (init_loop debug fuel v s z o).
Proof. induction fuel as [|fuel IH]; intros o; cbn [init_loop]; keeps. Qed.
#[local] Hint Resolve keeps_init_loop : sonar.

Lemma keeps_new_ftensor name size elem dev z : keeps_page_size (new_ftensor debug name size elem dev z).
Proof. unfold new_ftensor, alloc_virtual_mem, init_with_zero_. keeps. Qed.

Lemma keeps_destroy_pages l : keeps_page_size (destroy_pages l).
Proof. induction l; cbn [destroy_pages]; keeps. Qed.
#[local] Hint Resolve keeps_new_ftensor keeps_destroy_pages : sonar.

Lemma keeps_destroy_ftensor ft : keeps_page_size (destroy_ftensor ft).
Proof. unfold destroy_ftensor. keeps. Qed.
#[local] Hint Resolve keeps_destroy_ftensor : sonar.

Lemma keeps_destroy_ftensors l : keeps_page_size (destroy_ftensors l).
Proof. induction l; cbn [destroy_ftensors]; keeps. Qed.
#[local] Hint Resolve keeps_destroy_ftensors : sonar.

Lemma keeps_destroy a : keeps_page_size (destroy a).
Proof. unfold destroy. keeps. Qed.
#[local] Hint Resolve keeps_destroy : sonar.

(** The two steps that matter: creation in the contiguous layout multiplies the
    page size, re-initialisation without a size keeps what is there. *)
Lemma create_contiguous_page_size a size elem dev num_layers w r w' :
  al_contiguous a = true -> create_kv_tensors debug a size elem dev num_layers w = Some (r, w') ->
  kPageSize w' = u64 (kPageSize w * u64 (num_layers * 2)).
Proof.
  intros Hc. unfold create_kv_tensors, mbind at 1, M_bind at 1.
  destruct (assert_ debug _ w) as [[[] w1]|] eqn:E1; simpl; [|done].
  pose proof (keeps_assert _ _ _ _ E1) as Ek. rewrite Hc. unfold mbind at 1, M_bind at 1, get. simpl.
  intros E2. eapply (keeps_bind (new_zero_page _)) in E2; [|unfold new_zero_page; keeps|].
  - rewrite E2. simpl. by rewrite Ek.
  - intros a'. unfold create_kv_tensors_contiguous_. keeps.
Qed.

Lemma reinit_page_size device contiguous w w' :
  init debug device 0 contiguous w = Some (tt, w') -> kPageSize w' = kPageSize w.
Proof.
  intros E. assert (keeps_page_size (init debug device 0 contiguous)) as Hk; [|by eapply Hk].
  unfold init, reset_global, new_allocator, init_cuda_. simpl. keeps.
Qed.
End page_size.

(** ** A driver that always has memory *)

Definition ends (g : Gpu) : list Z :=
  map (fun x => x.1 + x.2.1) (map_to_list (maps g)) ++ map fst (map_to_list (reserved g)).

Definition demo_driver : Driver := {|
  cuMemCreate n g :=
    let h := next_id (map fst (map_to_list (handles g)) ++ map (fun x => x.2.2) (map_to_list (maps g))) in
    Some (h, mkGpu (<[h := n]> (handles g)) (maps g) (reserved g));
  cuMemRelease h g := Some (mkGpu (delete h (handles g)) (maps g) (reserved g));
  cuMemMap a n h g := Some (mkGpu (handles g) (<[a := (n, h)]> (maps g)) (reserved g));
  cuMemUnmap a n g := Some (mkGpu (handles g) (delete a (maps g)) (reserved g));
  cuMemSetAccess a n g := Some g;
  cuMemAddressReserve n al hint g :=
    let a := al * next_id (ends g) in
    if (0 <? al) && (a + n <=? 2 ^ 64) then Some (a, mkGpu (handles g) (maps g) (<[a := n]> (reserved g)))
    else None;
  cuMemAddressFree a n g := Some (mkGpu (handles g) (maps g) (delete a (reserved g)));
  cuMemGetAllocationGranularity := 2 * 1024 * 1024;
  host_mmap hint n := Some hint
|}.

#[global] Instance demo_driver_ok : @DriverOk demo_driver.
Proof.
  split; simpl.
  - intros n g h g' [= <- <-].
    match goal with |- context [next_id ?l] => pose proof (next_id_new l) as Hn end.
    apply not_elem_of_app in Hn as [H1 H2]. split_and!; [| |done].
    + destruct (handles g !! _) as [m|] eqn:E; [|done]. destruct H1. apply list_elem_of_fmap.
      eexists (_, m). split; [|by apply elem_of_map_to_list]. done.
    + intros a m E. destruct H2. apply list_elem_of_fmap. eexists (a, (m, _)).
      split; [|by apply elem_of_map_to_list]. done.
  - done.
  - done.
  - done.
  - done.
  - intros n al hint g a g' Hn. case_match eqn:Eb; [|done]. intros [= <- <-].
    apply andb_prop in Eb as [Ha%Z.ltb_lt Hb%Z.leb_le]. pose proof (next_id_pos (ends g)) as Hp.
    assert (next_id (ends g) <= al * next_id (ends g)) as Hle by nia.
    split_and!; [nia|done|rewrite Z.mul_comm; apply Z.mod_mul; lia| | |done].
    + intros a0 n0 h Hm. left. enough (a0 + n0 < next_id (ends g)) by lia. apply next_id_gt, elem_of_app.
      left. apply list_elem_of_fmap. exists (a0, (n0, h)). split; [done|]. by apply elem_of_map_to_list.
    + destruct (reserved g !! _) as [m|] eqn:E; [|done]. exfalso.
      enough (al * next_id (ends g) < next_id (ends g)) by lia. apply next_id_gt, elem_of_app.
      right. apply list_elem_of_fmap. eexists (_, m). split; [|by apply elem_of_map_to_list]. done.
Qed.

Lemma demo_reserve_aligned n al hint g a g' :
  @cuMemAddressReserve demo_driver n al hint g = Some (a, g') -> a mod al = 0.
Proof.
  simpl. case_match eqn:Eb; [|done]. intros [= <- _]. apply andb_prop in Eb as [Ha%Z.ltb_lt _].
  rewrite Z.mul_comm. apply Z.mod_mul. lia.
Qed.

(** A world with one zero page of 2 MB, and a tensor of four pages in it. *)
Definition MB2 : Z := 2 * 1024 * 1024.
Definition demo_world : World :=
  mkWorld MB2 0 0 {[7 := (GPUPage ZERO_PAGE_ID 0 5, 1)]} (mkGpu {[5 := MB2]} ∅ ∅) None.
Definition demo_made := @new_ftensor demo_driver true "kv_0" (4 * MB2) 2 (CUDA 0) 7 demo_world.
Definition demo_tensor : FTensor * World :=
  match demo_made with Some r => r | None => (mkFTensor "" 0 0 0 CPU 0 ∅, demo_world) end.

Lemma demo_tensor_backed : backed demo_tensor.2 demo_tensor.1 5.
Proof.
  pose proof (@new_ftensor_ok demo_driver demo_driver_ok true demo_world "kv_0" 4 2 0 7 ZERO_PAGE_ID 0 5 1) as Hok.
  cbv zeta in Hok. unfold demo_tensor. change (kPageSize demo_world) with MB2 in Hok.
  assert (is_Some demo_made) as [[ft w'] E] by (vm_compute; eauto). rewrite E. unfold demo_made in E.
  rewrite E in Hok. apply Hok; try reflexivity. intros _ hint g a g' Er. exact (demo_reserve_aligned _ _ _ _ _ _ Er).
Qed.

(** ** The claims *)

(** Constructing a tensor: unless no address range is available, every page
    of the reserved range is backed by the shared zero page, which gains one user;
    no physical memory is allocated. *)
Theorem ftensor_created `{DriverOk} (debug : bool) (w : World) (name : string)
    (m elem i zid id dz z nz : Z) :
  let P := kPageSize w in let size := m * P in
  0 < P -> 0 < m -> size < 2 ^ 63 -> size mod (2 * 1024 * 1024) = 0 ->
  shared w !! zid = Some (GPUPage id dz z, nz) -> handles (gpu w) !! z = Some P ->
  (debug = true -> forall hint g a g',
     cuMemAddressReserve size (2 * 1024 * 1024) hint g = Some (a, g') -> a mod P = 0) ->
  match new_ftensor debug name size elem (CUDA i) zid w with
  | None => exists hint, cuMemAddressReserve size (2 * 1024 * 1024) hint (gpu w) = None
  | Some (ft, w') => backed w' ft z /\ ft_mapping ft = ∅ /\ kPageSize w' = P /\
      handles (gpu w') = handles (gpu w) /\ shared w' !! zid = Some (GPUPage id dz z, nz + 1)
  end.
Proof. apply new_ftensor_ok. Qed.

Lemma ftensor_created_witness :
  match @new_ftensor demo_driver true "kv_0" (4 * kPageSize demo_world) 2 (CUDA 0) 7 demo_world with
  | None => exists hint, @cuMemAddressReserve demo_driver (4 * MB2) (2 * 1024 * 1024) hint (gpu demo_world) = None
  | Some (ft, w') => backed w' ft 5 /\ ft_mapping ft = ∅ /\ kPageSize w' = MB2 /\
      handles (gpu w') = handles (gpu demo_world) /\ shared w' !! 7 = Some (GPUPage ZERO_PAGE_ID 0 5, 1 + 1)
  end.
Proof.
  apply (@ftensor_created demo_driver demo_driver_ok true demo_world "kv_0" 4 2 0 7 ZERO_PAGE_ID 0 5 1);
    try reflexivity.
  intros _ hint g a g' E. exact (demo_reserve_aligned _ _ _ _ _ _ E).
Defined.

(** [C16] Mapping and unmapping: any sequence of page operations on a backed tensor
    follows the contract of [elastic_ops] step by step, with exactly these changes to the
    allocation of every page and to the live allocations of the driver: an absent page
    gets a new allocation, a resident page gives up its own, and an operation on a page in
    the wrong state is refused.  The whole range stays backed page by page, everything
    outside the tensor stays as it is, and refused operations change nothing at all; the
    sequence fails only when the driver has no memory. *)
Theorem elastic_pages `{DriverOk} (debug : bool) (ops : list (bool * Z)) (w : World) (ft : FTensor) (z : Z) :
  backed w ft z -> Forall (fun o => 0 <= o.2 < pages w ft) ops ->
  match run_ops debug ft ops w with
  | None => exists g, cuMemCreate (kPageSize w) g = None
  | Some ((flags, ft'), w') =>
      backed w' ft' z /\ outside_same w w' ft /\ ft' = with_mapping ft (ft_mapping ft') /\
      elastic_ops (kPageSize w) ops flags (residency w ft) (residency w' ft') /\
      (Forall (fun b => b = false) flags -> w' = w /\ ft' = ft)
  end.
Proof. apply run_ops_refines. Qed.

Lemma elastic_pages_witness :
  exists flags ft' w',
    @run_ops demo_driver true demo_tensor.1 [(true, 2); (true, 2); (true, 1); (false, 2); (false, 0)] demo_tensor.2 = Some ((flags, ft'), w') /\
    flags = [true; false; true; true; false] /\ backed w' ft' 5 /\ outside_same demo_tensor.2 w' demo_tensor.1 /\
    elastic_ops MB2 [(true, 2); (true, 2); (true, 1); (false, 2); (false, 0)] flags
      (residency demo_tensor.2 demo_tensor.1) (residency w' ft').
Proof.
  pose proof (@elastic_pages demo_driver demo_driver_ok true [(true, 2); (true, 2); (true, 1); (false, 2); (false, 0)]
    demo_tensor.2 demo_tensor.1 5 demo_tensor_backed) as Hp.
  destruct (run_ops true demo_tensor.1 _ demo_tensor.2) as [[[flags ft'] w']|] eqn:E; [|by vm_compute in E].
  exists flags, ft', w'. destruct Hp as (B & O & _ & S & _); [repeat constructor; vm_compute; (reflexivity || discriminate)|].
  split; [done|]. split; [|split; [done|split; [done|exact S]]].
  transitivity (default [] (fst ∘ fst <$> @run_ops demo_driver true demo_tensor.1 [(true, 2); (true, 2); (true, 1); (false, 2); (false, 0)] demo_tensor.2));
    [by rewrite E|vm_compute; reflexivity].
Defined.

(** In the contiguous layout the global page size grows: every creation
    multiplies it by twice the number of layers, and a re-initialisation that asks
    for the default size keeps the grown one, so that two creations multiply twice. *)
Theorem page_size_compounds `{Driver} (debug : bool) (a b : Allocator) (device : Device) (contiguous : bool)
    (size elem num_layers : Z) (w w1 w2 w3 : World) (r1 r3 : list Tensor * Allocator) :
  al_contiguous a = true -> al_contiguous b = true ->
  create_kv_tensors debug a size elem device num_layers w = Some (r1, w1) ->
  init debug device 0 contiguous w1 = Some (tt, w2) ->
  create_kv_tensors debug b size elem device num_layers w2 = Some (r3, w3) ->
  kPageSize w3 = u64 (u64 (kPageSize w * u64 (num_layers * 2)) * u64 (num_layers * 2)).
Proof.
  intros Ha Hb E1 E2 E3. rewrite (create_contiguous_page_size _ _ _ _ _ _ _ _ _ Hb E3).
  by rewrite (reinit_page_size _ _ _ _ _ E2), (create_contiguous_page_size _ _ _ _ _ _ _ _ _ Ha E1).
Qed.

Definition demo_allocator : Allocator := mkAllocator (CUDA 0) 0 true 0 ∅ None None.
Definition demo_step {A} (d : A) (m : M A) (w : World) : A * World :=
  match m w with Some r => r | None => (d, w) end.
Definition demo_1 := demo_step ([], demo_allocator)
  (@create_kv_tensors demo_driver false demo_allocator (4 * MB2) 2 (CUDA 0) 1) demo_world.
Definition demo_2 := demo_step tt (@init demo_driver false (CUDA 0) 0 true) demo_1.2.
Definition demo_3 := demo_step ([], demo_allocator)
  (@create_kv_tensors demo_driver false demo_allocator (4 * MB2) 2 (CUDA 0) 1) demo_2.2.

Lemma page_size_compounds_witness : kPageSize demo_3.2 = u64 (u64 (MB2 * u64 (1 * 2)) * u64 (1 * 2)).
Proof.
  apply (@page_size_compounds demo_driver false demo_allocator demo_allocator (CUDA 0) true (4 * MB2) 2 1
           demo_world demo_1.2 demo_2.2 demo_3.2 demo_1.1 demo_3.1); vm_compute; reflexivity.
Defined.

End Vmm.
