(* ===== verification/Cumem.v ===== *)
(** * The sleep-mode device allocator ([csrc/cumem_allocator.cpp])

    A pluggable allocator that keeps virtual addresses while physical memory is
    released and created again.  Every driver call reports an error code, which
    [CUDA_CHECK] stores in a global; the functions test that global rather than
    the call.  The file is compiled for CUDA or for ROCm: definitions that differ
    have both forms.

    The driver ([CuApi]), the two Python callbacks and the C allocator are
    parameters; the driver's state is the record of [Vmm]. *)

From Stdlib Require Import Ascii.
From stdpp Require Import strings gmap.
From S2P Require Import Prelude Vmm.

#[local] Open Scope Z_scope.

Module Cumem.
Import Vmm.

(** ** Configuration *)

Definition DEFAULT_MEMCREATE_CHUNK_SIZE : Z := 256 * 1024 * 1024.
Definition ULLONG_MAX : Z := 2 ^ 64 - 1.

Definition digit_of (base : Z) (c : ascii) : option Z :=
  let n := Z.of_N (N_of_ascii c) in
  let v := if (48 <=? n) && (n <=? 57) then Some (n - 48)
           else if (97 <=? n) && (n <=? 122) then Some (n - 87)
           else if (65 <=? n) && (n <=? 90) then Some (n - 55) else None in
  match v with Some d => if d <? base then Some d else None | None => None end.

(** The digits at the head of [l]: their value and how many there are. *)
Fixpoint read_digits (base : Z) (l : list ascii) (acc n : Z) : Z * Z :=
  match l with
  | c :: l' => match digit_of base c with
               | Some d => read_digits base l' (acc * base + d) (n + 1)
               | None => (acc, n)
               end
  | [] => (acc, n)
  end.

Definition is_space (c : ascii) : bool :=
  let n := Z.of_N (N_of_ascii c) in (n =? 32) || ((9 <=? n) && (n <=? 13)).

Fixpoint skip_spaces (l : list ascii) : list ascii :=
  match l with
  | c :: l' => if is_space c then skip_spaces l' else l
  | [] => []
  end.

(** [strtoull(s, &end, 0)]: the value with wrapped sign, or [None] when nothing was
    converted or [errno] was set. *)
Definition strtoull (s : string) : option Z :=
  let l := skip_spaces (String.list_ascii_of_string s) in
  let '(neg, l) := match l with
                   | "-"%char :: l' => (true, l')
                   | "+"%char :: l' => (false, l')
                   | _ => (false, l)
                   end in
  let '(v, n) :=
    match l with
    | "0"%char :: x :: d :: _ =>
        if (Ascii.eqb x "x" || Ascii.eqb x "X") && bool_decide (is_Some (digit_of 16 d))
        then read_digits 16 (drop 2 l) 0 0 else read_digits 8 l 0 0
    | "0"%char :: _ => read_digits 8 l 0 0
    | _ => read_digits 10 l 0 0
    end in
  if n =? 0 then None
  else if ULLONG_MAX <? v then None   (* ERANGE *)
  else Some (if (neg : bool) then u64 (- v) else v).

(** [get_memcreate_chunk_size] *)
Definition get_memcreate_chunk_size (env : option string) : Z :=
  match env with
  | None => DEFAULT_MEMCREATE_CHUNK_SIZE
  | Some env =>
      match strtoull env with
      | None => DEFAULT_MEMCREATE_CHUNK_SIZE
      | Some val_mb =>
          if val_mb =? 0 then DEFAULT_MEMCREATE_CHUNK_SIZE
          else
            let MB := 1024 * 1024 in
            if ULLONG_MAX / MB <? val_mb then DEFAULT_MEMCREATE_CHUNK_SIZE else val_mb * MB
      end
  end.

Definition my_min (a b : Z) : Z := if a <? b then a else b.

(** Rounding up to a multiple, in [size_t]. *)
Definition align_up (size granularity : Z) : Z :=
  u64 (u64 (size + granularity - 1) / granularity * granularity).

(** The chunks of an allocation. *)
Definition num_chunks (alignedSize aligned_chunk_size : Z) : Z :=
  u64 (alignedSize + aligned_chunk_size - 1) / aligned_chunk_size.

Definition chunk_size (alignedSize aligned_chunk_size i : Z) : Z :=
  my_min (u64 (alignedSize - i * aligned_chunk_size)) aligned_chunk_size.

Definition chunk_sizes (alignedSize aligned_chunk_size : Z) : list Z :=
  map (chunk_size alignedSize aligned_chunk_size) (seqZ 0 (num_chunks alignedSize aligned_chunk_size)).

(** ** The driver and the globals *)

(** Calls return an error code (0 is success), a result and the new state. *)
Class CuApi := {
  api_ctx_current : Gpu -> Z * bool;                        (* is there a context *)
  api_ctx_retain : Z -> Gpu -> Z;
  api_ctx_set : Gpu -> Z * Gpu;
  api_granularity : Z -> Z * Z;
  api_attribute_fabric : Z -> Z * bool;
  api_reserve : Z -> Z -> Z -> Gpu -> Z * Z * Gpu;          (* size, alignment, address *)
  api_address_free : Z -> Z -> Gpu -> Z * Gpu;
  api_create : Z -> bool -> Gpu -> Z * Z * Gpu;             (* size, fabric handle *)
  api_map : Z -> Z -> Z -> Gpu -> Z * Gpu;                  (* address, size, handle *)
  api_unmap : Z -> Z -> Gpu -> Z * Gpu;
  api_release : Z -> Gpu -> Z * Gpu;
  api_set_access : Z -> Z -> Gpu -> Z * Gpu;
  api_malloc : gmap Z Z -> option Z                         (* a free cell *)
}.

Definition CUDA_ERROR_INVALID_VALUE : Z := 1.
Definition CUDA_ERROR_NOT_PERMITTED : Z := 800.
Definition CUDA_ERROR_NOT_SUPPORTED : Z := 801.
Definition hipErrorNotSupported : Z := 801.

(** [error_code], the driver, the malloc'ed cells that hold allocation handles, and
    whether the callbacks are set. *)
Record St := mkSt { error_code : Z; dev_state : Gpu; cells : gmap Z Z; callbacks : bool }.

Section source.
Context `{CuApi}.

Definition C (A : Type) : Type := St -> A * St.
#[global] Instance C_ret : MRet C := fun A a s => (a, s).
#[global] Instance C_bind : MBind C := fun A B f m s => let '(a, s) := m s in f a s.

Definition gets {A} (f : St -> A) : C A := fun s => (f s, s).
Definition modify (f : St -> St) : C unit := fun s => (tt, f s).
Definition set_error (e : Z) : C unit :=
  modify (fun s => mkSt e (dev_state s) (cells s) (callbacks s)).
Definition set_cells (m : gmap Z Z) : C unit :=
  modify (fun s => mkSt (error_code s) (dev_state s) m (callbacks s)).

(** A driver call with a status, or with a status and a result. *)
Definition call (f : Gpu -> Z * Gpu) : C Z := fun s =>
  let '(e, g) := f (dev_state s) in (e, mkSt (error_code s) g (cells s) (callbacks s)).
Definition call_ret {A} (f : Gpu -> Z * A * Gpu) : C (Z * A) := fun s =>
  let '(e, a, g) := f (dev_state s) in ((e, a), mkSt (error_code s) g (cells s) (callbacks s)).

(** [CUDA_CHECK] *)
Definition cuda_check (e : Z) : C unit := if e =? 0 then mret tt else set_error e.

(** [ensure_context] *)
Definition ensure_context (device : Z) : C unit :=
  '(e, current) ← gets (fun s => api_ctx_current (dev_state s));
  _ ← cuda_check e;
  if (current : bool) then mret tt
  else
    e ← gets (fun s => api_ctx_retain device (dev_state s));
    _ ← cuda_check e;
    e ← call api_ctx_set;
    cuda_check e.

(** [reserve_rocm_address] *)
Definition reserve_rocm_address (size alignment addr : Z) : C (Z * Z) :=
  '(status, d_mem) ← call_ret (api_reserve size alignment addr);
  if (status =? 0) || (alignment =? 0) then mret (status, d_mem)
  else
    '(status, d_mem) ← call_ret (api_reserve size 0 addr);
    if negb (status =? 0) then mret (status, d_mem)
    else if d_mem mod alignment =? 0 then mret (status, d_mem)
    else _ ← call (api_address_free d_mem size); mret (hipErrorNotSupported, d_mem).

(** The handle in a cell. *)
Definition handle_at (p : Z) : C Z := gets (fun s => default 0 (cells s !! p)).
Definition store_handle (p h : Z) : C unit :=
  m ← gets cells; set_cells (<[p := h]> m).

(** [cuMemCreate] into a cell; a null pointer is an invalid value. *)
Definition create_into (p size : Z) (fabric : bool) : C Z :=
  if p =? 0 then mret CUDA_ERROR_INVALID_VALUE else
  '(e, h) ← call_ret (api_create size fabric);
  _ ← (if e =? 0 then store_handle p h else mret tt);
  mret e.

(** A check followed by [if (error_code != 0) return]: whether to return. *)
Definition check_stop (e : Z) : C bool :=
  _ ← cuda_check e;
  c ← gets error_code;
  mret (negb (c =? 0)).

(** [create_and_map], CUDA *)
Definition create_and_map_cuda (device size d_mem p_memHandle : Z) : C unit :=
  _ ← ensure_context device;
  let '(fab_result, fab_flag) := api_attribute_fabric device in
  let fabric := (fab_result =? 0) && fab_flag in
  ret ← create_into p_memHandle size fabric;
  _ ← (if ret =? 0 then mret tt
       else if fab_flag && ((ret =? CUDA_ERROR_NOT_PERMITTED) || (ret =? CUDA_ERROR_NOT_SUPPORTED)) then
         e ← create_into p_memHandle size false; cuda_check e
       else cuda_check ret);
  c ← gets error_code;
  if negb (c =? 0) then mret tt
  else
    h ← handle_at p_memHandle;
    e ← call (api_map d_mem size h);
    stop ← check_stop e;
    if (stop : bool) then mret tt
    else e ← call (api_set_access d_mem size); cuda_check e.

(** Releasing the handles of some cells, statuses ignored. *)
Fixpoint release_cells (ps : list Z) : C unit :=
  match ps with
  | [] => mret tt
  | p :: ps => h ← handle_at p; _ ← call (api_release h); release_cells ps
  end.

(** First loop of [create_and_map], ROCm: whether it returned early. *)
Fixpoint create_chunks (created : list Z) (chunks : list (Z * Z)) : C bool :=
  match chunks with
  | [] => mret false
  | (p, size) :: chunks =>
      e ← create_into p size false;
      stop ← check_stop e;
      if (stop : bool) then _ ← release_cells created; mret true
      else create_chunks (created ++ [p]) chunks
  end.

(** Unmapping the chunks before the failed one, statuses ignored. *)
Fixpoint unmap_chunks (addr : Z) (sizes : list Z) : C unit :=
  match sizes with
  | [] => mret tt
  | size :: sizes => _ ← call (api_unmap addr size); unmap_chunks (u64 (addr + size)) sizes
  end.

(** Second loop of [create_and_map], ROCm. *)
Fixpoint map_chunks (d_mem addr : Z) (mapped : list Z) (all : list Z) (chunks : list (Z * Z)) : C bool :=
  match chunks with
  | [] => mret false
  | (p, size) :: chunks =>
      h ← handle_at p;
      e ← call (api_map addr size h);
      stop ← check_stop e;
      if (stop : bool) then
        _ ← unmap_chunks d_mem mapped;
        _ ← release_cells all;
        mret true
      else map_chunks d_mem (u64 (addr + size)) (mapped ++ [size]) all chunks
  end.

(** [create_and_map], ROCm: cells and sizes of the chunks. *)
Definition create_and_map_rocm (device size d_mem : Z) (chunks : list (Z * Z)) : C unit :=
  _ ← ensure_context device;
  stop ← create_chunks [] chunks;
  if (stop : bool) then mret tt
  else
    stop ← map_chunks d_mem d_mem [] (map fst chunks) chunks;
    if (stop : bool) then mret tt
    else e ← call (api_set_access d_mem size); cuda_check e.

(** [unmap_and_release], CUDA *)
Definition unmap_and_release_cuda (device size d_mem p_memHandle : Z) : C unit :=
  _ ← ensure_context device;
  e ← call (api_unmap d_mem size);
  stop ← check_stop e;
  if (stop : bool) then mret tt
  else
    h ← handle_at p_memHandle;
    e ← call (api_release h);
    cuda_check e.

(** The two loops of [unmap_and_release], ROCm, with [first_error]. *)
Fixpoint unmap_first_error (addr : Z) (sizes : list Z) (first_error : Z) : C Z :=
  match sizes with
  | [] => mret first_error
  | size :: sizes =>
      status ← call (api_unmap addr size);
      unmap_first_error (u64 (addr + size)) sizes
        (if negb (status =? 0) && (first_error =? 0) then status else first_error)
  end.

Fixpoint release_first_error (ps : list Z) (first_error : Z) : C Z :=
  match ps with
  | [] => mret first_error
  | p :: ps =>
      h ← handle_at p;
      status ← call (api_release h);
      release_first_error ps (if negb (status =? 0) && (first_error =? 0) then status else first_error)
  end.

Definition unmap_and_release_rocm (device d_mem : Z) (chunks : list (Z * Z)) : C unit :=
  _ ← ensure_context device;
  first_error ← unmap_first_error d_mem (map snd chunks) 0;
  first_error ← release_first_error (map fst chunks) first_error;
  if first_error =? 0 then mret tt else cuda_check first_error.

(** ** The allocator hooks *)

(** [malloc] of a handle cell; [free]. *)
Definition malloc_cell : C (option Z) :=
  m ← gets cells;
  match api_malloc m with
  | None => mret None
  | Some p => _ ← set_cells (<[p := 0]> m); mret (Some p)
  end.

Definition free_cell (p : Z) : C unit := m ← gets cells; set_cells (delete p m).

Fixpoint free_cells (ps : list Z) : C unit :=
  match ps with
  | [] => mret tt
  | p :: ps => _ ← free_cell p; free_cells ps
  end.

(** One cell per chunk, all given back when one cannot be had. *)
Fixpoint malloc_chunks (got : list (Z * Z)) (sizes : list Z) : C (option (list (Z * Z))) :=
  match sizes with
  | [] => mret (Some got)
  | size :: sizes =>
      p ← malloc_cell;
      match p with
      | None => _ ← free_cells (map fst got); mret None
      | Some p => malloc_chunks (got ++ [(p, size)]) sizes
      end
  end.

(** What Python is told of an allocation: device, size, address, cells with sizes. *)
Definition alloc_info : Type := Z * Z * Z * list (Z * Z).

(** [my_malloc]; [python_malloc] says whether the callback returned. *)
Definition my_malloc (rocm : bool) (env : option string) (python_malloc : alloc_info -> bool)
    (size device : Z) : C (option Z) :=
  _ ← ensure_context device;
  let '(e, granularity) := api_granularity device in
  stop ← check_stop e;
  if (stop : bool) then mret None
  else
    let alignedSize := align_up size granularity in
    '(e, d_mem) ← (if rocm then reserve_rocm_address alignedSize granularity 0
                   else call_ret (api_reserve alignedSize 0 0));
    stop ← check_stop e;
    if (stop : bool) then mret None
    else
      cs ← (if rocm then
              malloc_chunks []
                (chunk_sizes alignedSize (align_up (get_memcreate_chunk_size env) granularity))
            else p ← malloc_cell; mret (Some [(default 0 p, alignedSize)]));
      match cs with
      | None => mret None
      | Some chunks =>
          set ← gets callbacks;
          if negb set then mret None
          else if negb (python_malloc (device, alignedSize, d_mem, chunks)) then mret None
          else
            _ ← (if rocm then create_and_map_rocm device alignedSize d_mem chunks
                 else match chunks with
                      | (p, _) :: _ => create_and_map_cuda device alignedSize d_mem p
                      | [] => mret tt
                      end);
            c ← gets error_code;
            if c =? 0 then mret (Some d_mem)
            else
              e ← call (api_address_free d_mem alignedSize);
              _ ← cuda_check e;
              _ ← free_cells (map fst chunks);
              mret None
      end.

(** [my_free]; [python_free] is the callback's answer, [None] when it raises or is
    not a tuple of the right shape. *)
Definition my_free (rocm : bool) (python_free : Z -> option alloc_info) (ptr size device : Z) : C unit :=
  set ← gets callbacks;
  if negb set then mret tt
  else
    match python_free ptr with
    | None => mret tt
    | Some (_, _, d_mem, chunks) =>
        _ ← (if rocm then
               match chunks with
               | [] => mret tt     (* asleep: nothing is mapped *)
               | _ => unmap_and_release_rocm device d_mem chunks
               end
             else match chunks with
                  | (p, _) :: _ => unmap_and_release_cuda device size d_mem p
                  | [] => mret tt
                  end);
        e ← call (api_address_free d_mem size);
        _ ← cuda_check e;
        free_cells (map fst chunks)
    end.

(** ** The Python functions *)

(** The end of both: report the stored error once. *)
Definition report : C bool :=
  c ← gets error_code;
  if c =? 0 then mret true else _ ← set_error 0; mret false.

(** [py_init_module] *)
Definition py_init_module (callable1 callable2 : bool) : C bool :=
  if callable1 && callable2 then
    _ ← modify (fun s => mkSt (error_code s) (dev_state s) (cells s) true); mret true
  else mret false.

(** [python_unmap_and_release] *)
Definition python_unmap_and_release (rocm : bool) (info : alloc_info) : C bool :=
  let '(device, size, d_mem, chunks) := info in
  _ ← (if rocm then
         _ ← unmap_and_release_rocm device d_mem chunks;
         c ← gets error_code;
         if negb (c =? 0) then mret tt
         else
           e ← call (api_address_free d_mem size);
           stop ← check_stop e;
           if (stop : bool) then mret tt
           else
             '(e, reserved) ← reserve_rocm_address size 0 d_mem;
             stop ← check_stop e;
             if (stop : bool) || (reserved =? d_mem) then mret tt
             else _ ← call (api_address_free reserved size); set_error 1
       else match chunks with
            | (p, _) :: _ => unmap_and_release_cuda device size d_mem p
            | [] => mret tt
            end);
  report.

(** [python_create_and_map] *)
Definition python_create_and_map (rocm : bool) (info : alloc_info) : C bool :=
  let '(device, size, d_mem, chunks) := info in
  _ ← (if rocm then create_and_map_rocm device size d_mem chunks
       else match chunks with
            | (p, _) :: _ => create_and_map_cuda device size d_mem p
            | [] => mret tt
            end);
  report.

End source.
(** ** Chunks *)

(** In-range rounding is exact. *)
Lemma align_up_exact size g : 0 < g -> 0 <= size -> size + g - 1 < 2 ^ 64 ->
  align_up size g mod g = 0 /\ size <= align_up size g < size + g.
Proof.
  intros Hg Hs Hl. unfold align_up. set (q := (size + g - 1) / g).
  assert (q * g <= size + g - 1 < q * g + g) as Hq.
  { unfold q. pose proof (Z.div_mod (size + g - 1) g ltac:(lia)).
    pose proof (Z.mod_pos_bound (size + g - 1) g Hg). lia. }
  rewrite (u64_id (size + g - 1)) by (unfold is_u64; lia). fold q.
  rewrite u64_id by (unfold is_u64; lia). split; [apply Z.mod_mul; lia|lia].
Qed.

Lemma sum_list_app (l k : list Z) : foldr Z.add 0 (l ++ k) = foldr Z.add 0 l + foldr Z.add 0 k.
Proof. induction l as [|x l IH]; simpl; [done|]. rewrite IH. lia. Qed.

Section chunks.
Variables total chunk : Z.
Hypothesis Hc : 0 < chunk.
Hypothesis Ht : 0 < total /\ total + chunk <= 2 ^ 64.

Lemma num_chunks_bounds :
  let n := num_chunks total chunk in 0 < n /\ (n - 1) * chunk < total <= n * chunk.
Proof.
  cbv zeta. unfold num_chunks. rewrite u64_id by (unfold is_u64; lia).
  pose proof (Z.div_mod (total + chunk - 1) chunk ltac:(lia)).
  pose proof (Z.mod_pos_bound (total + chunk - 1) chunk Hc). nia.
Qed.

Lemma chunk_size_exact i : 0 <= i < num_chunks total chunk ->
  chunk_size total chunk i = Z.min (total - i * chunk) chunk /\ 0 < chunk_size total chunk i.
Proof.
  intros Hi. destruct num_chunks_bounds as [Hn Hb]. unfold chunk_size, my_min.
  assert (0 < total - i * chunk <= total) by nia.
  rewrite u64_id by (unfold is_u64; lia).
  destruct (Z.ltb_spec (total - i * chunk) chunk); lia.
Qed.

Lemma chunk_sizes_sum k : 0 <= k <= num_chunks total chunk ->
  foldr Z.add 0 (map (chunk_size total chunk) (seqZ 0 k)) = Z.min (k * chunk) total.
Proof.
  intros Hk. destruct num_chunks_bounds as [Hn Hb].
  assert (forall d, 0 <= d -> d <= num_chunks total chunk ->
    foldr Z.add 0 (map (chunk_size total chunk) (seqZ 0 d)) = Z.min (d * chunk) total) as Hd.
  { apply (natlike_ind (fun d => d <= num_chunks total chunk -> _)).
    - intros _. simpl. lia.
    - intros d Hd IH Hle. rewrite <- Z.add_1_r, seqZ_app by lia. rewrite map_app, sum_list_app, IH by lia.
      rewrite (seqZ_cons (0 + d) 1), (seqZ_nil _ (Z.pred 1)) by lia. rewrite Z.add_0_l. simpl.
      rewrite Z.add_0_r. destruct (chunk_size_exact d) as [-> _]; nia. }
  apply Hd; lia.
Qed.
End chunks.

(** ** The stored error *)

Create HintDb sticky.

Section sticky.
Context `{CuApi}.

(** A program that never clears a stored error. *)
Definition sticky {A} (m : C A) : Prop := forall s, error_code s <> 0 -> error_code (m s).2 <> 0.

Lemma sticky_ret {A} (a : A) : sticky (mret a).
Proof. by intros s Hs. Qed.
Lemma sticky_gets {A} (f : St -> A) : sticky (gets f).
Proof. by intros s Hs. Qed.
Lemma sticky_bind {A B} (m : C A) (f : A -> C B) : sticky m -> (forall a, sticky (f a)) -> sticky (m ≫= f).
Proof.
  intros Hm Hf s Hs. unfold mbind, C_bind. specialize (Hm s Hs). destruct (m s) as [a s1]. by apply Hf.
Qed.
Lemma sticky_call f : sticky (call f).
Proof. intros s Hs. unfold call. by destruct (f (dev_state s)). Qed.
Lemma sticky_check e : sticky (cuda_check e).
Proof. intros s Hs. unfold cuda_check. destruct (Z.eqb_spec e 0); done. Qed.

Lemma sticky_call_ret {A} (f : Gpu -> Z * A * Gpu) : sticky (call_ret f).
Proof. intros s Hs. unfold call_ret. by destruct (f (dev_state s)) as [[??]?]. Qed.
Lemma sticky_set_error e : e <> 0 -> sticky (set_error e).
Proof. by intros He s Hs. Qed.
Lemma sticky_set_cells m : sticky (set_cells m).
Proof. by intros s Hs. Qed.

(** Through binds, conditionals and matches down to the primitive operations. *)
Ltac sticky_tac :=
  repeat (intros; match goal with
    | |- sticky (mret _) => apply sticky_ret
    | |- sticky (gets _) => apply sticky_gets
    | |- sticky (call _) => apply sticky_call
    | |- sticky (call_ret _) => apply sticky_call_ret
    | |- sticky (cuda_check _) => apply sticky_check
    | |- sticky (set_cells _) => apply sticky_set_cells
    | |- sticky (set_error _) => by apply sticky_set_error
    | |- sticky (mbind _ _) => apply sticky_bind
    | |- sticky (match ?x with _ => _ end) => destruct x
    | _ => assumption || solve [auto with sticky]
    end).

Lemma sticky_ensure_context device : sticky (ensure_context device).
Proof. unfold ensure_context. sticky_tac. Qed.
#[local] Hint Resolve sticky_ensure_context : sticky.

Lemma sticky_check_stop e : sticky (check_stop e).
Proof. unfold check_stop. sticky_tac. Qed.
#[local] Hint Resolve sticky_check_stop : sticky.

Lemma sticky_reserve size alignment addr : sticky (reserve_rocm_address size alignment addr).
Proof. unfold reserve_rocm_address. sticky_tac. Qed.
#[local] Hint Resolve sticky_reserve : sticky.

Lemma sticky_create_into p size fabric : sticky (create_into p size fabric).
Proof. unfold create_into, store_handle. sticky_tac. Qed.
#[local] Hint Resolve sticky_create_into : sticky.

Lemma sticky_release_cells ps : sticky (release_cells ps).
Proof. induction ps; simpl; unfold handle_at; sticky_tac. Qed.
Lemma sticky_unmap_chunks sizes : forall addr, sticky (unmap_chunks addr sizes).
Proof. induction sizes; simpl; sticky_tac. Qed.
Lemma sticky_unmap_first_error sizes : forall addr e, sticky (unmap_first_error addr sizes e).
Proof. induction sizes; simpl; sticky_tac. Qed.
Lemma sticky_release_first_error ps : forall e, sticky (release_first_error ps e).
Proof. induction ps; simpl; unfold handle_at; sticky_tac. Qed.
Lemma sticky_free_cells ps : sticky (free_cells ps).
Proof. induction ps; simpl; unfold free_cell; sticky_tac. Qed.
#[local] Hint Resolve sticky_release_cells sticky_unmap_chunks sticky_unmap_first_error
  sticky_release_first_error sticky_free_cells : sticky.

Lemma sticky_create_chunks chunks : forall created, sticky (create_chunks created chunks).
Proof. induction chunks; simpl; sticky_tac. Qed.
Lemma sticky_map_chunks d_mem all chunks : forall addr mapped, sticky (map_chunks d_mem addr mapped all chunks).
Proof. induction chunks; simpl; unfold handle_at; sticky_tac. Qed.
#[local] Hint Resolve sticky_create_chunks sticky_map_chunks : sticky.

Lemma sticky_create_and_map_cuda device size d_mem p : sticky (create_and_map_cuda device size d_mem p).
Proof. unfold create_and_map_cuda, handle_at. sticky_tac. Qed.
Lemma sticky_create_and_map_rocm device size d_mem chunks : sticky (create_and_map_rocm device size d_mem chunks).
Proof. unfold create_and_map_rocm. sticky_tac. Qed.
Lemma sticky_unmap_and_release_cuda device size d_mem p : sticky (unmap_and_release_cuda device size d_mem p).
Proof. unfold unmap_and_release_cuda, handle_at. sticky_tac. Qed.
Lemma sticky_unmap_and_release_rocm device d_mem chunks : sticky (unmap_and_release_rocm device d_mem chunks).
Proof. unfold unmap_and_release_rocm. sticky_tac. Qed.
#[local] Hint Resolve sticky_create_and_map_cuda sticky_create_and_map_rocm
  sticky_unmap_and_release_cuda sticky_unmap_and_release_rocm : sticky.

Lemma sticky_my_free rocm python_free ptr size device : sticky (my_free rocm python_free ptr size device).
Proof. unfold my_free. sticky_tac. Qed.

(** A program that keeps the error, then the report: the call raises and clears it. *)
Lemma sticky_report (m : C unit) s : sticky m -> error_code s <> 0 ->
  exists s', (_ ← m; report) s = (false, s') /\ error_code s' = 0.
Proof.
  intros Hm Hs. specialize (Hm s Hs). unfold mbind at 1, C_bind at 1.
  destruct (m s) as [[] s1]. unfold report, mbind at 1, C_bind at 1, gets. simpl in Hm.
  rewrite (proj2 (Z.eqb_neq _ _) Hm). by eexists.
Qed.

Lemma python_unmap_sticky rocm info s : error_code s <> 0 ->
  exists s', python_unmap_and_release rocm info s = (false, s') /\ error_code s' = 0.
Proof. destruct info as [[[??]?]?]. apply sticky_report. sticky_tac. Qed.

Lemma python_create_sticky rocm info s : error_code s <> 0 ->
  exists s', python_create_and_map rocm info s = (false, s') /\ error_code s' = 0.
Proof. destruct info as [[[??]?]?]. apply sticky_report. sticky_tac. Qed.

Lemma check_stop_sticky e s : error_code s <> 0 ->
  exists s', check_stop e s = (true, s') /\ error_code s' <> 0 /\ dev_state s' = dev_state s.
Proof.
  intros Hs. unfold check_stop, mbind, C_bind. destruct (cuda_check e s) as [[] s1] eqn:E.
  pose proof (sticky_check e s Hs) as H1. rewrite E in H1. simpl in *. exists s1.
  rewrite (proj2 (Z.eqb_neq _ _) H1). split_and!; [done|done|].
  unfold cuda_check in E. destruct (e =? 0); injection E as <-; done.
Qed.

(** Once an error is stored no allocation succeeds, whatever the driver answers. *)
Lemma my_malloc_sticky rocm env python_malloc size device s :
  error_code s <> 0 ->
  exists s', my_malloc rocm env python_malloc size device s = (None, s') /\ error_code s' <> 0.
Proof.
  intros Hs. unfold my_malloc, mbind at 1, C_bind at 1.
  destruct (ensure_context device s) as [[] s1] eqn:E1.
  assert (error_code s1 <> 0) as H1.
  { pose proof (sticky_ensure_context device s Hs) as Hc. by rewrite E1 in Hc. }
  destruct (api_granularity device) as [e g]. unfold mbind at 1, C_bind at 1.
  destruct (check_stop_sticky e s1 H1) as (s2 & -> & H2 & _). by exists s2.
Qed.

(** The calls PyTorch makes into the allocator; the answers to the allocations. *)
Inductive hook :=
  | HMalloc (python_malloc : alloc_info -> bool) (size device : Z)
  | HFree (python_free : Z -> option alloc_info) (ptr size device : Z).

Fixpoint run_hooks (rocm : bool) (env : option string) (hooks : list hook) : C (list (option Z)) :=
  match hooks with
  | [] => mret []
  | HMalloc cb size device :: hooks =>
      p ← my_malloc rocm env cb size device; ps ← run_hooks rocm env hooks; mret (p :: ps)
  | HFree cb ptr size device :: hooks =>
      _ ← my_free rocm cb ptr size device; run_hooks rocm env hooks
  end.

Lemma run_hooks_sticky rocm env hooks : forall s, error_code s <> 0 ->
  exists ps s', run_hooks rocm env hooks s = (ps, s') /\ Forall (fun p => p = None) ps /\ error_code s' <> 0.
Proof.
  induction hooks as [|[cb size device|cb ptr size device] hooks IH]; intros s Hs; cbn [run_hooks].
  - by exists [], s.
  - destruct (my_malloc_sticky rocm env cb size device s Hs) as (s1 & E1 & H1).
    destruct (IH s1 H1) as (ps & s2 & E2 & Hps & H2). exists (None :: ps), s2.
    unfold mbind, C_bind. rewrite E1, E2. split_and!; [done|by constructor|done].
  - pose proof (sticky_my_free rocm cb ptr size device s Hs) as H1. unfold mbind at 1, C_bind at 1.
    destruct (my_free rocm cb ptr size device s) as [[] s1]. by apply IH.
Qed.
End sticky.

(** ** All or nothing: creating and mapping chunks *)

(** Documented behaviour of the driver: a failing call changes nothing; creation
    makes a new handle; mapping needs a free address; whole mappings are unmapped
    and live handles released without error. *)
Class ApiOk `{CuApi} : Prop := {
  ao_ctx_set g : (api_ctx_set g).2 = g;
  ao_create n f g e h g' : api_create n f g = (e, h, g') ->
    (e <> 0 /\ g' = g) \/
    (e = 0 /\ handles g !! h = None /\ g' = mkGpu (<[h := n]> (handles g)) (maps g) (reserved g));
  ao_map a n h g e g' : api_map a n h g = (e, g') ->
    (e <> 0 /\ g' = g) \/
    (e = 0 /\ maps g !! a = None /\ g' = mkGpu (handles g) (<[a := (n, h)]> (maps g)) (reserved g));
  ao_unmap a n h g : maps g !! a = Some (n, h) ->
    api_unmap a n g = (0, mkGpu (handles g) (delete a (maps g)) (reserved g));
  ao_release h n g : handles g !! h = Some n ->
    api_release h g = (0, mkGpu (delete h (handles g)) (maps g) (reserved g));
  ao_access a n g : (api_set_access a n g).2 = g
}.

Section all_or_nothing.
Context `{ApiOk}.

(** [m] is [m0] with the new entries [l]. *)
Definition extends {A} (m0 : gmap Z A) (l : list (Z * A)) (m : gmap Z A) : Prop :=
  NoDup l.*1 /\ (forall k, k ∈ l.*1 -> m0 !! k = None) /\ m = list_to_map l ∪ m0.

Lemma extends_nil {A} (m0 : gmap Z A) : extends m0 [] m0.
Proof. split_and!; [constructor|by intros k ?%not_elem_of_nil|]. simpl. by rewrite map_empty_union. Qed.

Lemma extends_nil_inv {A} (m0 m : gmap Z A) : extends m0 [] m -> m = m0.
Proof. intros (_ & _ & ->). simpl. by rewrite map_empty_union. Qed.

Lemma extends_snoc {A} (m0 m : gmap Z A) l k v :
  extends m0 l m -> m !! k = None -> extends m0 (l ++ [(k, v)]) (<[k := v]> m).
Proof.
  intros (Hn & Hf & ->) [Hk Hk0]%lookup_union_None. apply not_elem_of_list_to_map in Hk as Hk'.
  split_and!.
  - rewrite fmap_app. apply NoDup_app. split_and!; [done| |apply NoDup_singleton].
    intros x Hx Hx'%list_elem_of_singleton. simpl in Hx'. by subst x.
  - intros x. rewrite fmap_app, elem_of_app. intros [?|Hx%list_elem_of_singleton]; [auto|]. simpl in Hx. by subst x.
  - rewrite list_to_map_snoc by done. by rewrite insert_union_l.
Qed.

Lemma extends_cons {A} (m0 m : gmap Z A) l k v :
  extends m0 ((k, v) :: l) m -> m !! k = Some v /\ extends m0 l (delete k m).
Proof.
  intros (Hn & Hf & ->). apply NoDup_cons in Hn as [Hk Hn]. simpl in *.
  assert (m0 !! k = None) as Hk0 by (apply Hf; constructor).
  split; [by rewrite lookup_union_l, lookup_insert_eq|]. split_and!; [done|intros x Hx; apply Hf; by constructor|].
  rewrite delete_union, delete_insert_eq, (delete_id m0) by done.
  by rewrite (delete_id (list_to_map l)) by (by apply not_elem_of_list_to_map).
Qed.

(** The state between: [hl] handles created and [ml] mappings made so far. *)
Record mid (g0 : Gpu) (hl : list (Z * Z)) (ml : list (Z * (Z * Z))) (g : Gpu) : Prop := {
  mid_handles : extends (handles g0) hl (handles g);
  mid_maps : extends (maps g0) ml (maps g);
  mid_reserved : reserved g = reserved g0
}.

Lemma mid_nil g0 g : mid g0 [] [] g -> g = g0.
Proof. intros [?%extends_nil_inv ?%extends_nil_inv ?]. destruct g, g0. simpl in *. congruence. Qed.

(** The handles are where the cells say. *)
Definition hold (s : St) (ps hs : list Z) : Prop := Forall2 (fun p h => cells s !! p = Some h) ps hs.

Lemma hold_insert s s1 p h ps hs : hold s ps hs -> p ∉ ps -> cells s1 = <[p := h]> (cells s) -> hold s1 ps hs.
Proof.
  intros Hh Hp Es. unfold hold in *. rewrite Es. induction Hh as [|q hq ps hs Hq Hh IH]; constructor.
  - rewrite lookup_insert_ne; [done|]. intros <-. by apply Hp; constructor.
  - apply IH. intros Hin. by apply Hp; constructor.
Qed.

Lemma release_cells_ok g0 ml ps hs : forall ns s,
  hold s ps hs -> length ns = length hs -> mid g0 (zip hs ns) ml (dev_state s) ->
  exists s', release_cells ps s = (tt, s') /\ error_code s' = error_code s /\ mid g0 [] ml (dev_state s').
Proof.
  revert hs. induction ps as [|p ps IH]; intros hs ns s Hh Hl M.
  - apply Forall2_nil_inv_l in Hh as ->. by exists s.
  - apply Forall2_cons_inv_l in Hh as (h & hs' & Hp & Hh & ->). destruct ns as [|n ns]; [done|].
    destruct M as [Mh Mm Mr]. simpl in Mh. apply extends_cons in Mh as [Hn Mh].
    cbn [release_cells]. unfold mbind, C_bind, handle_at, gets, call. rewrite Hp. simpl.
    rewrite (ao_release h n _ Hn). simpl.
    set (s1 := mkSt _ _ _ _). destruct (IH hs' ns s1) as (s' & E & Ee & M'); [done|simpl in Hl; lia|by split|].
    exists s'. split_and!; done.
Qed.

(** Addresses of consecutive chunks. *)
Fixpoint chain (addr : Z) (l : list (Z * Z)) : list (Z * (Z * Z)) :=
  match l with
  | [] => []
  | (n, h) :: l => (addr, (n, h)) :: chain (u64 (addr + n)) l
  end.

Fixpoint chain_end (addr : Z) (sizes : list Z) : Z :=
  match sizes with [] => addr | n :: sizes => chain_end (u64 (addr + n)) sizes end.

Lemma chain_snoc l n h : forall addr,
  chain addr (l ++ [(n, h)]) = chain addr l ++ [(chain_end addr l.*1, (n, h))].
Proof. induction l as [|[n0 h0] l IH]; intros addr; simpl; [done|]. by rewrite IH. Qed.

Lemma chain_end_snoc l n : forall addr, chain_end addr (l ++ [n]) = u64 (chain_end addr l + n).
Proof. induction l as [|n0 l IH]; intros addr; simpl; [done|]. by rewrite IH. Qed.

Lemma unmap_chunks_ok g0 hl l : forall addr s,
  mid g0 hl (chain addr l) (dev_state s) ->
  exists s', unmap_chunks addr l.*1 s = (tt, s') /\ error_code s' = error_code s /\
    cells s' = cells s /\ mid g0 hl [] (dev_state s').
Proof.
  induction l as [|[n h] l IH]; intros addr s M; simpl; [by exists s|].
  destruct M as [Mh Mm Mr]. apply extends_cons in Mm as [Hn Mm].
  unfold mbind, C_bind, call. rewrite (ao_unmap addr n h _ Hn). simpl.
  set (s1 := mkSt _ _ _ _). destruct (IH (u64 (addr + n)) s1) as (s' & E & Ee & Ec & M'); [by split|].
  exists s'. split_and!; done.
Qed.

Definition with_error (s : St) (e : Z) : St := mkSt e (dev_state s) (cells s) (callbacks s).

Lemma check_stop_clean e s : error_code s = 0 ->
  check_stop e s = if e =? 0 then (false, s) else (true, with_error s e).
Proof.
  intros Hs. unfold check_stop, mbind, C_bind, cuda_check, gets.
  destruct (Z.eqb_spec e 0); simpl; [by rewrite Hs|]. by rewrite (proj2 (Z.eqb_neq e 0)).
Qed.

Lemma create_into_cases p size s :
  (exists e, e <> 0 /\ create_into p size false s = (e, s)) \/
  (exists h, handles (dev_state s) !! h = None /\
    create_into p size false s
    = (0, mkSt (error_code s)
            (mkGpu (<[h := size]> (handles (dev_state s))) (maps (dev_state s)) (reserved (dev_state s)))
            (<[p := h]> (cells s)) (callbacks s))).
Proof.
  unfold create_into. destruct (Z.eqb_spec p 0); [left; by exists CUDA_ERROR_INVALID_VALUE|].
  unfold mbind, C_bind, call_ret. destruct (api_create size false (dev_state s)) as [[e h] g] eqn:E.
  destruct (ao_create _ _ _ _ _ _ E) as [[He ->]|(-> & Hn & ->)].
  - left. exists e. split; [done|]. rewrite (proj2 (Z.eqb_neq e 0)) by done. by destruct s.
  - right. by exists h.
Qed.

Lemma zip_snoc (hs ns : list Z) h n : length ns = length hs -> zip (hs ++ [h]) (ns ++ [n]) = zip hs ns ++ [(h, n)].
Proof. intros Hl. by rewrite zip_with_app. Qed.

Lemma create_chunks_ok g0 chunks : forall created hs ns s,
  error_code s = 0 -> NoDup (created ++ chunks.*1) -> hold s created hs -> length ns = length hs ->
  mid g0 (zip hs ns) [] (dev_state s) ->
  (exists s', create_chunks created chunks s = (true, s') /\ error_code s' <> 0 /\ dev_state s' = g0) \/
  (exists s' hs', create_chunks created chunks s = (false, s') /\ error_code s' = 0 /\
     hold s' (created ++ chunks.*1) (hs ++ hs') /\ length hs' = length chunks /\
     mid g0 (zip (hs ++ hs') (ns ++ chunks.*2)) [] (dev_state s')).
Proof.
  induction chunks as [|[p n] chunks IH]; intros created hs ns s Hs Hnd Hh Hl M.
  { right. exists s, []. rewrite !app_nil_r. by split_and!. }
  destruct (create_into_cases p n s) as [(e & He & Ec)|(h & Hfresh & Ec)].
  - left. cbn [create_chunks]. unfold mbind at 1, C_bind at 1. rewrite Ec.
    unfold mbind at 1, C_bind at 1. rewrite check_stop_clean, (proj2 (Z.eqb_neq e 0)) by done.
    destruct (release_cells_ok g0 [] created hs ns (with_error s e)) as (s' & E & Ee & M'); [done..|].
    unfold mbind, C_bind. rewrite E. exists s'. split_and!; [done|by rewrite Ee|by apply mid_nil].
  - simpl in Hnd. apply NoDup_app in Hnd as Hnd'. destruct Hnd' as (_ & Hdis & _).
    set (s1 := mkSt _ _ _ _) in Ec.
    assert (create_chunks created ((p, n) :: chunks) s = create_chunks (created ++ [p]) chunks s1) as ->.
    { cbn [create_chunks]. unfold mbind at 1, C_bind at 1. rewrite Ec.
      unfold mbind at 1, C_bind at 1. by rewrite check_stop_clean. }
    assert (hold s1 (created ++ [p]) (hs ++ [h])) as Hh1.
    { apply Forall2_app; [|by repeat constructor; apply lookup_insert_eq].
      apply (hold_insert s s1 p h); [done| |done]. intros Hp. by apply (Hdis p Hp); constructor. }
    destruct (IH (created ++ [p]) (hs ++ [h]) (ns ++ [n]) s1) as [(s' & E & Ee & Eg)|(s' & hs' & E & Ee & Hh' & Hl' & M')].
    + done.
    + by rewrite <- app_assoc.
    + done.
    + rewrite !length_app. simpl. lia.
    + destruct M as [Mh Mm Mr]. rewrite zip_snoc by done. split; [|done..]. by apply extends_snoc.
    + left. exists s'. by split_and!.
    + right. exists s', (h :: hs'). rewrite <- !app_assoc in Hh', M'. simpl in Hh', M'.
      split_and!; [done|done|done|simpl; lia|done].
Qed.

Lemma map_chunks_ok g0 d_mem all hl : forall chunks done_ hs addr s,
  error_code s = 0 -> addr = chain_end d_mem done_.*1 ->
  hold s chunks.*1 hs ->
  (forall s', cells s' = cells s -> exists hs' ns, hold s' all hs' /\ length ns = length hs' /\ hl = zip hs' ns) ->
  mid g0 hl (chain d_mem done_) (dev_state s) ->
  (exists s', map_chunks d_mem addr done_.*1 all chunks s = (true, s') /\ error_code s' <> 0 /\
     dev_state s' = g0) \/
  (exists s', map_chunks d_mem addr done_.*1 all chunks s = (false, s') /\ error_code s' = 0 /\
     cells s' = cells s /\ mid g0 hl (chain d_mem (done_ ++ zip chunks.*2 hs)) (dev_state s')).
Proof.
  induction chunks as [|[p n] chunks IH]; intros done_ hs addr s Hs Ea Hh Hall M.
  { right. exists s. apply Forall2_nil_inv_l in Hh as ->. simpl. rewrite app_nil_r. by split_and!. }
  simpl in Hh. apply Forall2_cons_inv_l in Hh as (h & hs' & Hp & Hh & ->).
  destruct (api_map addr n h (dev_state s)) as [e g] eqn:E.
  destruct (ao_map _ _ _ _ _ _ E) as [[He ->]|(-> & Hnone & ->)].
  - left. cbn [map_chunks]. unfold mbind at 1, C_bind at 1, handle_at, gets. rewrite Hp. change (default 0 (Some h)) with h.
    unfold mbind at 1, C_bind at 1, call. rewrite E. unfold mbind at 1, C_bind at 1.
    rewrite check_stop_clean, (proj2 (Z.eqb_neq e 0)) by done. set (s1 := with_error _ e).
    destruct (unmap_chunks_ok g0 hl done_ d_mem s1) as (s2 & E2 & Ee2 & Ec2 & M2); [done|].
    unfold mbind, C_bind. rewrite E2. destruct (Hall s2 Ec2) as (hs & ns & Hhs & Hl & ->).
    destruct (release_cells_ok g0 [] all hs ns s2) as (s3 & E3 & Ee3 & M3); [done..|].
    rewrite E3. exists s3. split_and!; [done|by rewrite Ee3, Ee2|by apply mid_nil].
  - set (g1 := mkGpu _ _ _) in E. set (s1 := mkSt (error_code s) g1 (cells s) (callbacks s)).
    assert (map_chunks d_mem addr done_.*1 all ((p, n) :: chunks) s
            = map_chunks d_mem (u64 (addr + n)) (done_.*1 ++ [n]) all chunks s1) as ->.
    { cbn [map_chunks]. unfold mbind at 1, C_bind at 1, handle_at, gets. rewrite Hp. change (default 0 (Some h)) with h.
      unfold mbind at 1, C_bind at 1, call. rewrite E. unfold mbind at 1, C_bind at 1.
      by rewrite check_stop_clean. }
    destruct (IH (done_ ++ [(n, h)]) hs' (u64 (addr + n)) s1) as [(s' & E' & Ee & Eg)|(s' & E' & Ee & Ec & M')].
    + done.
    + rewrite fmap_app. simpl. by rewrite chain_end_snoc, Ea.
    + done.
    + done.
    + destruct M as [Mh Mm Mr]. split; [done| |done]. rewrite chain_snoc, <- Ea. by apply extends_snoc.
    + left. exists s'. rewrite fmap_app in E'. by split_and!.
    + right. exists s'. rewrite fmap_app in E'. rewrite <- app_assoc in M'. by split_and!.
Qed.

(** The whole of [create_and_map] on ROCm, from a clean start. *)
Lemma create_and_map_rocm_ok device size d_mem chunks s :
  error_code s = 0 -> api_ctx_current (dev_state s) = (0, true) -> NoDup chunks.*1 ->
  exists s', create_and_map_rocm device size d_mem chunks s = (tt, s') /\
    ((error_code s' <> 0 /\ dev_state s' = dev_state s) \/
     exists hs, length hs = length chunks /\ hold s' chunks.*1 hs /\
       mid (dev_state s) (zip hs chunks.*2) (chain d_mem (zip chunks.*2 hs)) (dev_state s') /\
       (error_code s' <> 0 -> (api_set_access d_mem size (dev_state s')).1 <> 0)).
Proof.
  intros Hs Hctx Hnd. unfold create_and_map_rocm.
  assert (ensure_context device s = (tt, s)) as Ectx.
  { unfold ensure_context, mbind, C_bind, gets. rewrite Hctx. done. }
  unfold mbind at 1, C_bind at 1. rewrite Ectx.
  destruct (create_chunks_ok (dev_state s) chunks [] [] [] s) as
    [(s1 & E & Ee & Eg)|(s1 & hs & E & Ee & Hh & Hl & M)]; [done|done|by constructor|done| | |].
  { split; [apply extends_nil..|done]. }
  { unfold mbind, C_bind. rewrite E. exists s1. split; [done|]. by left. }
  unfold mbind at 1, C_bind at 1. rewrite E. simpl in Hh, M. change (map fst chunks) with chunks.*1.
  destruct (map_chunks_ok (dev_state s) d_mem chunks.*1 (zip hs chunks.*2) chunks [] hs d_mem s1)
    as [(s2 & E2 & Ee2 & Eg2)|(s2 & E2 & Ee2 & Ec2 & M2)]; [done|done|done| |done| |].
  { intros s' Ec. exists hs, chunks.*2. split_and!; [by unfold hold; rewrite Ec|by rewrite length_fmap|done]. }
  { unfold mbind, C_bind. simpl in E2. rewrite E2. exists s2. split; [done|]. by left. }
  unfold mbind at 1, C_bind at 1. simpl in E2. rewrite E2.
  unfold mbind, C_bind, call. destruct (api_set_access d_mem size (dev_state s2)) as [e g] eqn:Ea.
  assert (g = dev_state s2) as -> by (rewrite <- (ao_access d_mem size (dev_state s2)), Ea; done).
  unfold cuda_check, set_error, modify. destruct (Z.eqb_spec e 0) as [->|He].
  - eexists. split; [done|]. right. exists hs. split_and!; [done|by unfold hold; simpl; rewrite Ec2|done|done].
  - eexists. split; [done|]. right. exists hs. simpl. rewrite Ea.
    split_and!; [done|by unfold hold; simpl; rewrite Ec2|done|done].
Qed.

End all_or_nothing.

(** ** A driver *)

(** It has memory for allocations up to [limit] bytes each. *)
Definition demo_api (limit : Z) : CuApi := {|
  api_ctx_current g := (0, true);
  api_ctx_retain d g := 0;
  api_ctx_set g := (0, g);
  api_granularity d := (0, 4096);
  api_attribute_fabric d := (0, false);
  api_reserve n al a g := (0, 65536, mkGpu (handles g) (maps g) (<[65536 := n]> (reserved g)));
  api_address_free a n g := (0, mkGpu (handles g) (maps g) (delete a (reserved g)));
  api_create n f g :=
    if limit <? n then (2, 0, g)
    else
      let h := next_id (map fst (map_to_list (handles g))) in
      (0, h, mkGpu (<[h := n]> (handles g)) (maps g) (reserved g));
  api_map a n h g :=
    match maps g !! a with
    | Some _ => (1, g)
    | None => (0, mkGpu (handles g) (<[a := (n, h)]> (maps g)) (reserved g))
    end;
  api_unmap a n g := (0, mkGpu (handles g) (delete a (maps g)) (reserved g));
  api_release h g := (0, mkGpu (delete h (handles g)) (maps g) (reserved g));
  api_set_access a n g := (0, g);
  api_malloc m := Some (next_id (map fst (map_to_list m)))
|}.

#[global] Instance demo_api_ok limit : @ApiOk (demo_api limit).
Proof.
  split; simpl; try done.
  - intros n f g e h g'. case_match; intros [= <- <- <-]; [by left|]. right. split_and!; [done| |done].
    destruct (handles g !! _) as [m|] eqn:E; [|done].
    destruct (next_id_new (map fst (map_to_list (handles g)))). apply list_elem_of_fmap.
    eexists (_, m). split; [|by apply elem_of_map_to_list]. done.
  - intros a n h g e g'. case_match eqn:E; intros [= <- <-]; [by left|by right].
Qed.

(** ** The claims *)

(** Chunks of a ROCm allocation: they are non-empty multiples of the granularity,
    no larger than the configured chunk, and together exactly the aligned size. *)
Theorem chunks_tile (total base g : Z) :
  let chunk := align_up base g in
  0 < g -> 0 < total -> total mod g = 0 -> 0 < base -> base + g - 1 < 2 ^ 64 -> total + chunk <= 2 ^ 64 ->
  foldr Z.add 0 (chunk_sizes total chunk) = total /\
  Forall (fun n => 0 < n <= chunk /\ n mod g = 0) (chunk_sizes total chunk).
Proof.
  intros chunk Hg Ht Hm Hb Hb2 Hl. destruct (align_up_exact base g Hg ltac:(lia) Hb2) as [Hcm Hcb].
  fold chunk in Hcm, Hcb. assert (0 < chunk) as Hc by lia.
  destruct (num_chunks_bounds total chunk Hc ltac:(lia)) as [Hn Hnb]. split.
  - unfold chunk_sizes. rewrite chunk_sizes_sum by lia. lia.
  - apply Forall_forall. intros n (i & -> & Hi%elem_of_seqZ)%list_elem_of_fmap.
    destruct (chunk_size_exact total chunk Hc ltac:(lia) i ltac:(lia)) as [E Hp]. split; [lia|].
    rewrite E. destruct (Z.min_spec (total - i * chunk) chunk) as [[_ ->]|[_ ->]]; [|done].
    apply Z.mod_divide in Hm as [a Ha]; [|lia]. apply Z.mod_divide in Hcm as [b Hbg]; [|lia].
    rewrite Hbg, Ha. replace (a * g - i * (b * g)) with ((a - i * b) * g) by lia. apply Z.mod_mul. lia.
Qed.

Lemma chunks_tile_witness :
  foldr Z.add 0 (chunk_sizes 20480 (align_up 8000 4096)) = 20480 /\
  Forall (fun n => 0 < n <= align_up 8000 4096 /\ n mod 4096 = 0) (chunk_sizes 20480 (align_up 8000 4096)).
Proof. apply (chunks_tile 20480 8000 4096); vm_compute; (reflexivity || discriminate). Defined.

(** [C21] Creating and mapping chunks on ROCm is all or nothing: from a clean start,
    either an error is stored and the driver is exactly as before, or every chunk
    has a new handle, stored in its cell and mapped at its place after the previous
    chunk, and nothing else changed; an error is then only stored when setting the
    access rights failed. *)
Theorem create_and_map_all_or_nothing `{ApiOk} (device size d_mem : Z) (chunks : list (Z * Z)) (s : St) :
  error_code s = 0 -> api_ctx_current (dev_state s) = (0, true) -> NoDup chunks.*1 ->
  exists s', create_and_map_rocm device size d_mem chunks s = (tt, s') /\
    ((error_code s' <> 0 /\ dev_state s' = dev_state s) \/
     exists hs, length hs = length chunks /\ hold s' chunks.*1 hs /\
       mid (dev_state s) (zip hs chunks.*2) (chain d_mem (zip chunks.*2 hs)) (dev_state s') /\
       (error_code s' <> 0 -> (api_set_access d_mem size (dev_state s')).1 <> 0)).
Proof. apply create_and_map_rocm_ok. Qed.

Definition clean : St := mkSt 0 (mkGpu ∅ ∅ {[65536 := 300]}) {[8 := 0; 16 := 0]} true.

Lemma create_and_map_all_or_nothing_witness :
  exists s', @create_and_map_rocm (demo_api 150) 0 300 65536 [(8, 100); (16, 200)] clean = (tt, s') /\
    ((error_code s' <> 0 /\ dev_state s' = dev_state clean) \/
     exists hs, length hs = 2%nat /\ hold s' [8; 16] hs /\
       mid (dev_state clean) (zip hs [100; 200]) (chain 65536 (zip [100; 200] hs)) (dev_state s') /\
       (error_code s' <> 0 -> (@api_set_access (demo_api 150) 65536 300 (dev_state s')).1 <> 0)).
Proof.
  apply (@create_and_map_all_or_nothing (demo_api 150) (demo_api_ok 150) 0 300 65536 [(8, 100); (16, 200)] clean).
  - reflexivity.
  - reflexivity.
  - apply NoDup_cons; split; [intros [= ]%list_elem_of_singleton|apply NoDup_singleton].
Defined.

(** [C37] The life of a stored error: once a driver error is stored, whatever the
    driver answers from then on, any sequence of allocations and frees returns a null
    pointer for every allocation and leaves an error stored, until the next
    [python_create_and_map] or [python_unmap_and_release]; that call, whatever
    allocation it is about and even when its own work succeeds, raises the error and
    clears it.  (Failures that store no error, an unset callback or a failed
    [malloc], are outside this statement.) *)
Theorem error_latched_until_reported `{CuApi} (rocm : bool) (env : option string) (hooks : list hook)
    (info : alloc_info) (s : St) :
  error_code s <> 0 ->
  exists ps s1, run_hooks rocm env hooks s = (ps, s1) /\ Forall (fun p => p = None) ps /\ error_code s1 <> 0 /\
    (exists s2, python_create_and_map rocm info s1 = (false, s2) /\ error_code s2 = 0) /\
    (exists s2, python_unmap_and_release rocm info s1 = (false, s2) /\ error_code s2 = 0).
Proof.
  intros Hs. destruct (run_hooks_sticky rocm env hooks s Hs) as (ps & s1 & E & Hps & H1). exists ps, s1.
  split_and!; [done|done|done|by apply python_create_sticky|by apply python_unmap_sticky].
Qed.

(** The failed allocation asks for more than the device has, the next one for little. *)
Definition after_oom : St :=
  (@my_malloc (demo_api 8192) false None (fun _ => true) 100000 0 (mkSt 0 (mkGpu ∅ ∅ ∅) ∅ true)).2.

(** A small allocation, a free and another allocation, then an unrelated wake-up. *)
Definition after_oom_hooks : list hook :=
  [HMalloc (fun _ => true) 100 0; HFree (fun _ => Some (0, 4096, 65536, [(8, 4096)])) 65536 4096 0;
   HMalloc (fun _ => true) 4096 0].

Lemma error_latched_until_reported_witness :
  error_code after_oom = 2 /\
  exists ps s1, @run_hooks (demo_api 8192) false None after_oom_hooks after_oom = (ps, s1) /\
    Forall (fun p => p = None) ps /\ error_code s1 <> 0 /\
    (exists s2, @python_create_and_map (demo_api 8192) false (0, 4096, 65536, [(8, 4096)]) s1 = (false, s2) /\
      error_code s2 = 0) /\
    (exists s2, @python_unmap_and_release (demo_api 8192) false (0, 4096, 65536, [(8, 4096)]) s1 = (false, s2) /\
      error_code s2 = 0).
Proof.
  split; [vm_compute; reflexivity|].
  apply (@error_latched_until_reported (demo_api 8192) false None after_oom_hooks (0, 4096, 65536, [(8, 4096)])
    after_oom). vm_compute. discriminate.
Defined.

End Cumem.
