(* ===== verification/ShmProtocol.v ===== *)
(** * The stamp protocol of the shared-memory collectives ([csrc/cpu/shm.cpp])

    The ranks of a group exchange data through double-buffered shared memory.
    Each rank publishes two bytes: the stamp of the round it is in and the stamp of
    the last round whose data it has committed; other ranks spin on these.  The
    bytes wrap around at 256 and no lock is taken.

    One thread of every rank is a process; the processes run interleaved, one
    access to shared memory at a time (the code's fences, respectively its
    acquire/release accesses, order the data before the stamps).  A copy into
    shared memory is two steps, the buffer being torn in between, and so is a copy
    out of it, which records what it sees at its beginning and at its end.

    - [Shm]: the context, the waiting conditions and the round as a step function;
    - a disciplined script of rounds (all ranks wait for all, or every writer first
      checks for buffer conflicts) never reads a torn or stale buffer, never
      deadlocks and terminates, with the right data read in every round;
    - a script of gathers in the fast mode can deadlock. *)

From stdpp Require Import relations.
From S2P Require Import Prelude.

#[local] Open Scope Z_scope.

Module Shm.

(** [char] *)
Definition i8 (z : Z) : Z := (z + 128) mod 256 - 128.

Lemma i8_inj a b : i8 a = i8 b -> -256 < a - b < 256 -> a = b.
Proof.
  unfold i8. intros E Hab. pose proof (Z.div_mod (a + 128) 256 ltac:(lia)).
  pose proof (Z.div_mod (b + 128) 256 ltac:(lia)). lia.
Qed.

Lemma i8_i8_add a b : i8 (i8 a + b) = i8 (a + b).
Proof.
  unfold i8. f_equal. replace ((a + 128) mod 256 - 128 + b + 128) with ((a + 128) mod 256 + b) by lia.
  rewrite Zplus_mod_idemp_l. f_equal. lia.
Qed.

(** ** The context of a rank *)

(** [char x[2]], [size_t x[2]] *)
Definition sel {A} (idx : Z) (p : A * A) : A := if idx =? 0 then p.1 else p.2.
Definition upd {A} (idx : Z) (v : A) (p : A * A) : A * A := if idx =? 0 then (v, p.2) else (p.1, v).

Lemma sel_upd {A} idx (v : A) p : sel idx (upd idx v p) = v.
Proof. unfold sel, upd. by destruct (idx =? 0). Qed.

(** [check_no_buffer_conflict], [check_stamp_ready] *)
Definition check_no_buffer_conflict (local_curr_stamp rank_curr_stamp : Z) : bool :=
  negb (local_curr_stamp =? i8 (rank_curr_stamp + 2)).
Definition check_stamp_ready (local_curr_stamp rank_ready_stamp : Z) : bool :=
  (local_curr_stamp =? rank_ready_stamp) || (i8 (local_curr_stamp + 1) =? rank_ready_stamp).

(** What a rank does in a round: check for conflicts, copy to shared memory, read
    the others, first waiting for all of them or for one after the other. *)
Record Role := mkRole { checks : bool; writes : bool; reads : bool; batched : bool }.

(** The rounds of [all_reduce_sum_impl], [shm_gather_impl], [shm_send_tensor_list_impl]
    and [shm_recv_tensor_list_impl]. *)
Definition all_reduce_role (fast_mode : bool) : Role := mkRole (negb fast_mode) true true true.
Definition gather_role (fast_mode : bool) (dst rank : nat) : Role :=
  mkRole (negb fast_mode) true (Nat.eqb rank dst) false.
Definition send_role : Role := mkRole true true false false.
Definition recv_role : Role := mkRole false false true false.

(** Where a rank is in its round. *)
Inductive Phase :=
  | PStart
  | PConflict (idx : nat)   (* [wait_for_all(check_no_buffer_conflict)] *)
  | PWrite                  (* before the copy to shared memory *)
  | PWriting                (* in the middle of it *)
  | PCommit                 (* before [commit_ready_stamp] *)
  | PWait (idx : nat)       (* [wait_for_one(check_stamp_ready)] *)
  | PRead (idx : nat)       (* before the copy from the peer's buffer *)
  | PReading (idx : nat)    (* in the middle of it *)
  | PNext                   (* before [next_stamp] *)
  | PBuffer.                (* before [next_buffer] *)

#[export] Instance Phase_eq_dec : EqDecision Phase.
Proof. solve_decision. Defined.

Section machine.
Context {V : Type}.

(** A [ThreadSHMContext] with its thread's buffer halves (torn: [None]), and the
    thread's progress: completed rounds, phase, data read. *)
Record Rank := mkRank {
  curr_stamp : Z * Z; ready_stamp : Z * Z; buffer_mask : bool * bool;
  local_idx : Z; remote_idx : Z;
  halves : option V * option V;
  rounds_done : nat; phase : Phase; got : list (option V); results : list (list (option V)) }.

(** The constructor. *)
Definition new_rank (local remote : Z) : Rank :=
  mkRank (1, 1) (0, 0) (false, false) local remote (None, None) 0 PStart [] [].

(** [get_swizzled_rank] *)
Definition swizzled_rank (group_size rank idx : nat) : nat := (idx + rank) mod group_size.

(** The half of the buffer of rank [owner] that [r] addresses ([get_thread_shm_ptr]). *)
Definition mask_of (r : Rank) : bool := sel (local_idx r) (buffer_mask r).
Definition half (m : bool) {A} (p : A * A) : A := if m then p.2 else p.1.
Definition set_half (m : bool) {A} (v : A) (p : A * A) : A * A := if m then (p.1, v) else (v, p.2).

Definition curr_of (r : Rank) : Z := sel (local_idx r) (curr_stamp r).

Definition set_phase (r : Rank) (ph : Phase) : Rank :=
  mkRank (curr_stamp r) (ready_stamp r) (buffer_mask r) (local_idx r) (remote_idx r) (halves r)
    (rounds_done r) ph (got r) (results r).
Definition set_halves (r : Rank) (h : option V * option V) : Rank :=
  mkRank (curr_stamp r) (ready_stamp r) (buffer_mask r) (local_idx r) (remote_idx r) h
    (rounds_done r) (phase r) (got r) (results r).

(** [commit_ready_stamp], [next_stamp], [next_buffer] *)
Definition commit_ready_stamp (r : Rank) : Rank :=
  mkRank (curr_stamp r) (upd (local_idx r) (curr_of r) (ready_stamp r)) (buffer_mask r) (local_idx r)
    (remote_idx r) (halves r) (rounds_done r) (phase r) (got r) (results r).
Definition next_stamp (r : Rank) : Rank :=
  mkRank (upd (local_idx r) (i8 (curr_of r + 1)) (curr_stamp r)) (ready_stamp r) (buffer_mask r) (local_idx r)
    (remote_idx r) (halves r) (rounds_done r) (phase r) (got r) (results r).
Definition next_buffer (r : Rank) : Rank :=
  mkRank (curr_stamp r) (ready_stamp r) (upd (local_idx r) (negb (mask_of r)) (buffer_mask r)) (local_idx r)
    (remote_idx r) (halves r) (rounds_done r) (phase r) (got r) (results r).

(** The end of a round: the data read are its result. *)
Definition end_round (r : Rank) : Rank :=
  mkRank (curr_stamp r) (ready_stamp r) (buffer_mask r) (local_idx r) (remote_idx r) (halves r)
    (S (rounds_done r)) PStart [] (results r ++ [got r]).
Definition receive (r : Rank) (v : option V) (ph : Phase) : Rank :=
  mkRank (curr_stamp r) (ready_stamp r) (buffer_mask r) (local_idx r) (remote_idx r) (halves r)
    (rounds_done r) ph (got r ++ [v]) (results r).

(** One access of rank [i]; [None] when it has finished or would only spin. *)
Definition move (group_size n : nat) (role : nat -> nat -> Role) (data : nat -> nat -> V)
    (ranks : list Rank) (i : nat) : option Rank :=
  r ← ranks !! i;
  let k := rounds_done r in
  let ro := role i k in
  match phase r with
  | PStart => if (k <? n)%nat then Some (set_phase r (if checks ro then PConflict 1 else PWrite)) else None
  | PConflict idx =>
      if (idx <? group_size)%nat then
        o ← ranks !! swizzled_rank group_size i idx;
        if check_no_buffer_conflict (curr_of r) (sel (remote_idx r) (curr_stamp o))
        then Some (set_phase r (PConflict (S idx))) else None
      else Some (set_phase r PWrite)
  | PWrite =>
      if writes ro then Some (set_phase (set_halves r (set_half (mask_of r) None (halves r))) PWriting)
      else Some (set_phase r (if reads ro then PWait 1 else PNext))
  | PWriting => Some (set_phase (set_halves r (set_half (mask_of r) (Some (data i k)) (halves r))) PCommit)
  | PCommit => Some (set_phase (commit_ready_stamp r) (if reads ro then PWait 1 else PNext))
  | PWait idx =>
      if (idx <? group_size)%nat then
        o ← ranks !! swizzled_rank group_size i idx;
        if check_stamp_ready (curr_of r) (sel (remote_idx r) (ready_stamp o))
        then Some (set_phase r (if batched ro then PWait (S idx) else PRead idx)) else None
      else Some (set_phase r (if batched ro then PRead 1 else PNext))
  | PRead idx =>
      if (idx <? group_size)%nat then
        o ← ranks !! swizzled_rank group_size i idx;
        Some (receive r (half (mask_of r) (halves o)) (PReading idx))
      else Some (set_phase r PNext)
  | PReading idx =>
      o ← ranks !! swizzled_rank group_size i idx;
      Some (receive r (half (mask_of r) (halves o)) (if batched ro then PRead (S idx) else PWait (S idx)))
  | PNext => Some (set_phase (next_stamp r) PBuffer)
  | PBuffer => Some (end_round (next_buffer r))
  end.

Definition step_of (group_size n : nat) (role : nat -> nat -> Role) (data : nat -> nat -> V)
    (s : list Rank) (i : nat) : option (list Rank) :=
  r ← move group_size n role data s i; Some (<[i := r]> s).

(** An access by some rank that does not spin. *)
Inductive step (group_size n : nat) (role : nat -> nat -> Role) (data : nat -> nat -> V)
  : list Rank -> list Rank -> Prop :=
  | step_rank s i s' : step_of group_size n role data s i = Some s' -> step group_size n role data s s'.

(** The group at the start, with the stamp slots of every rank. *)
Definition init (group_size : nat) (slots : nat -> Z * Z) : list Rank :=
  (λ i, new_rank (slots i).1 (slots i).2) <$> seq 0 group_size.

Definition complete (n : nat) (s : list Rank) : Prop :=
  Forall (λ r, rounds_done r = n /\ phase r = PStart) s.

End machine.

(** ** Scripts whose buffer reuse is guarded *)

Section protocol.
Context {V : Type} (g n : nat) (role : nat -> nat -> Role) (data : nat -> nat -> V) (slots : nat -> Z * Z).
Context (w : nat -> bool).

(** A rank that does not check for conflicts has just waited for the others;
    whoever is read writes in every round, to the slot the reader looks at. *)
Record Guarded : Prop := {
  g_writes : forall i k, writes (role i k) = w i;
  g_guard : forall i k, checks (role i (S k)) = true \/ reads (role i k) = true;
  g_read : forall i j k, (i < g)%nat -> (j < g)%nat -> i <> j -> reads (role i k) = true -> w j = true;
  g_slots : forall i j, (i < g)%nat -> (j < g)%nat -> i <> j -> (slots i).2 = (slots j).1 }.

Context (HG : Guarded).

#[local] Abbreviation peer := (swizzled_rank g).
Implicit Types (r o : @Rank V) (s : list (@Rank V)).

Lemma peer_lt i idx : (i < g)%nat -> (peer i idx < g)%nat.
Proof using Type. intros. apply Nat.mod_upper_bound. lia. Qed.

Lemma peer_ne i idx : (i < g)%nat -> (1 <= idx < g)%nat -> peer i idx <> i.
Proof using Type.
  intros Hi Hx E. unfold swizzled_rank in E. destruct (decide (idx + i < g)%nat).
  - rewrite Nat.mod_small in E; lia.
  - replace (idx + i)%nat with (idx + i - g + 1 * g)%nat in E by lia.
    rewrite Nat.Div0.mod_add, Nat.mod_small in E; lia.
Qed.

Lemma peer_surj i j : (i < g)%nat -> (j < g)%nat -> i <> j -> exists idx, (1 <= idx < g)%nat /\ peer i idx = j.
Proof using Type.
  intros. unfold swizzled_rank. destruct (decide (i < j)%nat).
  - exists (j - i)%nat. split; [lia|]. replace (j - i + i)%nat with j by lia. rewrite Nat.mod_small; lia.
  - exists (j + g - i)%nat. split; [lia|]. replace (j + g - i + i)%nat with (j + 1 * g)%nat by lia.
    rewrite Nat.Div0.mod_add, Nat.mod_small; lia.
Qed.

(** The unbounded stamps that the bytes stand for. *)
Definition stamp r : nat := S (rounds_done r) + match phase r with PBuffer => 1 | _ => 0 end.
Definition ready r : nat :=
  match phase r with PWait _ | PRead _ | PReading _ | PNext => stamp r | _ => pred (stamp r) end.

(** What a rank has seen of the others: up to which peer it has waited for the
    data, and whether it is past its guard. *)
Definition awaited (ro : Role) (ph : Phase) : nat :=
  match ph with
  | PWait idx => idx
  | PRead idx | PReading idx => if batched ro then g else S idx
  | PNext => if reads ro then g else 0
  | _ => 0
  end.
(** Whether the guard against reusing a buffer too early holds for peer [idx]: from
    having waited in the previous round, or by the conflict check. *)
Definition near i r idx : bool :=
  match phase r, rounds_done r with
  | PStart, S k => reads (role i k)
  | PConflict x, S k => (idx <? x)%nat || reads (role i k)
  | PBuffer, k => reads (role i k)
  | _, _ => true
  end.

(** How far rank [i] may be ahead of [o], its peer [idx]. *)
Record Lead i r idx o : Prop := {
  lead_stamp : (stamp r <= stamp o + if near i r idx then 1 else 2)%nat;
  lead_wait : (idx < awaited (role i (rounds_done r)) (phase r))%nat -> (stamp r <= ready o)%nat }.

(** Progress of the other side keeps the lead. *)
Lemma lead_mono i r idx o o' : (stamp o <= stamp o')%nat -> (ready o <= ready o')%nat ->
  Lead i r idx o -> Lead i r idx o'.
Proof using Type. intros ? ? [H1 H2]. constructor; [lia|]. intros Hx. specialize (H2 Hx). lia. Qed.

Lemma lead_2 i r idx o : Lead i r idx o -> (stamp r <= stamp o + 2)%nat.
Proof using Type. intros [H _]. destruct (near _ _ _); lia. Qed.

(** What the copies of the first [c] peers see in round [k]: each peer's data of
    that round, at the beginning and at the end of the copy. *)
Definition copies i k (c : nat) : list (option V) :=
  seq 1 c ≫= λ idx, [Some (data (peer i idx) k); Some (data (peer i idx) k)].
Definition round_result i k : list (option V) :=
  if reads (role i k) then copies i k (pred g) else [].

Definition got_at i k (ph : Phase) : list (option V) :=
  match ph with
  | PWait idx => if batched (role i k) then [] else copies i k (pred idx)
  | PRead idx => copies i k (pred idx)
  | PReading idx => copies i k (pred idx) ++ [Some (data (peer i idx) k)]
  | PNext | PBuffer => round_result i k
  | _ => []
  end.

Definition phase_ok i k (ph : Phase) : Prop :=
  match ph with
  | PStart => (k <= n)%nat
  | PConflict idx => (k < n)%nat /\ (1 <= idx <= g)%nat
  | PWriting | PCommit => (k < n)%nat /\ w i = true
  | PWait idx => (k < n)%nat /\ reads (role i k) = true /\ (1 <= idx <= g)%nat
  | PRead idx => (k < n)%nat /\ reads (role i k) = true /\ (1 <= idx <= g)%nat /\
      (batched (role i k) = false -> idx < g)%nat
  | PReading idx => (k < n)%nat /\ reads (role i k) = true /\ (1 <= idx < g)%nat
  | _ => (k < n)%nat
  end.

(** What the rank's own half of the round holds. *)
Definition own_half i r : Prop :=
  match phase r with
  | PStart | PConflict _ | PWrite =>
      forall k, rounds_done r = S (S k) -> half (Nat.odd k) (halves r) = Some (data i k)
  | PWriting => True
  | _ => half (Nat.odd (rounds_done r)) (halves r) = Some (data i (rounds_done r))
  end.

Record RankOk i r : Prop := {
  ok_local : local_idx r = (slots i).1;
  ok_remote : remote_idx r = (slots i).2;
  ok_curr : curr_of r = i8 (Z.of_nat (stamp r));
  ok_ready : w i = true -> sel (local_idx r) (ready_stamp r) = i8 (Z.of_nat (ready r));
  ok_mask : mask_of r = Nat.odd (rounds_done r);
  ok_prev : w i = true -> forall k, rounds_done r = S k -> half (Nat.odd k) (halves r) = Some (data i k);
  ok_own : w i = true -> own_half i r;
  ok_phase : phase_ok i (rounds_done r) (phase r);
  ok_got : got r = got_at i (rounds_done r) (phase r);
  ok_results : results r = round_result i <$> seq 0 (rounds_done r) }.

Record Inv s : Prop := {
  inv_length : length s = g;
  inv_ok : forall i r, s !! i = Some r -> RankOk i r;
  inv_lead : forall i idx r o, s !! i = Some r -> (1 <= idx < g)%nat -> s !! peer i idx = Some o -> Lead i r idx o }.

Lemma half_set_half m (A : Type) (v : A) p : half m (set_half m v p) = v.
Proof using Type. by destruct m. Qed.

Lemma half_set_half_ne m m' (A : Type) (v : A) p : m <> m' -> half m (set_half m' v p) = half m p.
Proof using Type. by destruct m, m'. Qed.

Lemma odd_S_ne k : Nat.odd k <> Nat.odd (S k).
Proof using Type. rewrite Nat.odd_succ, <- Nat.negb_odd. by destruct (Nat.odd k). Qed.

Lemma odd_SS k : Nat.odd (S (S k)) = Nat.odd k.
Proof using Type. done. Qed.

Lemma copies_S i k c : copies i k (S c) = copies i k c ++ [Some (data (peer i (S c)) k); Some (data (peer i (S c)) k)].
Proof using Type. unfold copies. by rewrite seq_S, bind_app. Qed.

(** *** A rank reads what its peer wrote in the same round *)
Lemma read_data i j idx idx' r o : RankOk i r -> RankOk j o -> w j = true ->
  (idx < awaited (role i (rounds_done r)) (phase r))%nat -> phase r <> PBuffer ->
  Lead i r idx o -> Lead j o idx' r ->
  half (mask_of r) (halves o) = Some (data j (rounds_done r)).
Proof using Type.
  intros Hi Hj Hw Hx Hp L L'. rewrite (ok_mask _ _ Hi).
  pose proof (lead_wait _ _ _ _ L Hx) as Hready. pose proof (lead_stamp _ _ _ _ L') as H1.
  pose proof (lead_2 _ _ _ _ L') as H2.
  pose proof (ok_prev _ _ Hj Hw) as Hprev. pose proof (ok_own _ _ Hj Hw) as Hown.
  assert (Es : stamp r = S (rounds_done r)) by (unfold stamp; destruct (phase r); try done; lia).
  rewrite Es in Hready, H1, H2. clear Es. unfold ready, near, own_half, stamp in *.
  destruct (decide (rounds_done o = rounds_done r)) as [E|].
  { rewrite E in *. destruct (phase o); simpl in *; try done; lia. }
  destruct (decide (rounds_done o = S (rounds_done r))) as [E|]; [by apply Hprev|].
  destruct (phase o); simpl in *; try lia; apply Hown; lia.
Qed.

(** *** The bytes decide as the unbounded stamps would *)
Lemma ready_bounds r : (pred (stamp r) <= ready r <= stamp r)%nat.
Proof using Type. unfold ready. destruct (phase r); lia. Qed.

Lemma no_conflict_spec i idx r o : Lead i r idx o ->
  check_no_buffer_conflict (i8 (Z.of_nat (stamp r))) (i8 (Z.of_nat (stamp o))) = true ->
  (stamp r <= stamp o + 1)%nat.
Proof using Type.
  intros L. unfold check_no_buffer_conflict. rewrite i8_i8_add. pose proof (lead_2 _ _ _ _ L).
  destruct (decide (stamp r = stamp o + 2)%nat) as [->|]; [|lia].
  replace (Z.of_nat (stamp o + 2)) with (Z.of_nat (stamp o) + 2) by lia. by rewrite Z.eqb_refl.
Qed.

Lemma stamp_ready_spec i j idx idx' r o : Lead i r idx o -> Lead j o idx' r ->
  check_stamp_ready (i8 (Z.of_nat (stamp r))) (i8 (Z.of_nat (ready o))) = true -> (stamp r <= ready o)%nat.
Proof using Type.
  intros L L'. unfold check_stamp_ready. rewrite i8_i8_add.
  pose proof (lead_2 _ _ _ _ L). pose proof (lead_2 _ _ _ _ L'). pose proof (ready_bounds o).
  intros [E%Z.eqb_eq|E%Z.eqb_eq]%orb_true_iff; apply i8_inj in E; lia.
Qed.

Lemma peer_back i idx : (i < g)%nat -> (1 <= idx < g)%nat ->
  exists idx', (1 <= idx' < g)%nat /\ peer (peer i idx) idx' = i.
Proof using Type. intros. apply peer_surj; [by apply peer_lt|done|by apply peer_ne]. Qed.

Lemma inv_peer s i idx : Inv s -> (i < g)%nat -> exists o, s !! peer i idx = Some o /\ RankOk (peer i idx) o.
Proof using Type.
  intros I Hi. destruct (lookup_lt_is_Some_2 s (peer i idx)) as [o Ho].
  { rewrite (inv_length _ I). by apply peer_lt. }
  exists o. eauto using inv_ok.
Qed.

(** Both sides' leads. *)
Lemma inv_leads s i idx r o : Inv s -> s !! i = Some r -> s !! peer i idx = Some o -> (1 <= idx < g)%nat ->
  Lead i r idx o /\ exists idx', Lead (peer i idx) o idx' r.
Proof using Type.
  intros I Hr Ho Hx. split; [by eapply inv_lead|].
  assert (i < g)%nat as Hi by (rewrite <- (inv_length _ I); by eapply lookup_lt_Some).
  destruct (peer_back i idx Hi Hx) as (idx' & Hx' & E). exists idx'.
  eapply inv_lead; [done|done|done|by rewrite E].
Qed.

(** The bytes a rank looks at. *)
Lemma remote_curr i j r o : (i < g)%nat -> (j < g)%nat -> i <> j -> RankOk i r -> RankOk j o ->
  sel (remote_idx r) (curr_stamp o) = i8 (Z.of_nat (stamp o)).
Proof using HG.
  intros Hi Hj Hne Ri Rj. rewrite <- (ok_curr _ _ Rj). unfold curr_of.
  by rewrite (ok_remote _ _ Ri), (ok_local _ _ Rj), (g_slots HG i j).
Qed.

Lemma remote_ready i j r o : (i < g)%nat -> (j < g)%nat -> i <> j -> RankOk i r -> RankOk j o -> w j = true ->
  sel (remote_idx r) (ready_stamp o) = i8 (Z.of_nat (ready o)).
Proof using HG.
  intros Hi Hj Hne Ri Rj Hw. rewrite <- (ok_ready _ _ Rj Hw).
  by rewrite (ok_remote _ _ Ri), (ok_local _ _ Rj), (g_slots HG i j).
Qed.

(** *** Steps *)

(** The accesses of rank [i], one rule each. *)
Inductive moves s i r : Rank -> Prop :=
  | mv_start : phase r = PStart -> (rounds_done r < n)%nat ->
      moves s i r (set_phase r (if checks (role i (rounds_done r)) then PConflict 1 else PWrite))
  | mv_conflict idx o : phase r = PConflict idx -> (idx < g)%nat -> s !! peer i idx = Some o ->
      check_no_buffer_conflict (curr_of r) (sel (remote_idx r) (curr_stamp o)) = true ->
      moves s i r (set_phase r (PConflict (S idx)))
  | mv_clear idx : phase r = PConflict idx -> (g <= idx)%nat -> moves s i r (set_phase r PWrite)
  | mv_write : phase r = PWrite -> writes (role i (rounds_done r)) = true ->
      moves s i r (set_phase (set_halves r (set_half (mask_of r) None (halves r))) PWriting)
  | mv_skip : phase r = PWrite -> writes (role i (rounds_done r)) = false ->
      moves s i r (set_phase r (if reads (role i (rounds_done r)) then PWait 1 else PNext))
  | mv_written : phase r = PWriting ->
      moves s i r (set_phase (set_halves r (set_half (mask_of r) (Some (data i (rounds_done r))) (halves r))) PCommit)
  | mv_commit : phase r = PCommit ->
      moves s i r (set_phase (commit_ready_stamp r) (if reads (role i (rounds_done r)) then PWait 1 else PNext))
  | mv_wait idx o : phase r = PWait idx -> (idx < g)%nat -> s !! peer i idx = Some o ->
      check_stamp_ready (curr_of r) (sel (remote_idx r) (ready_stamp o)) = true ->
      moves s i r (set_phase r (if batched (role i (rounds_done r)) then PWait (S idx) else PRead idx))
  | mv_waited idx : phase r = PWait idx -> (g <= idx)%nat ->
      moves s i r (set_phase r (if batched (role i (rounds_done r)) then PRead 1 else PNext))
  | mv_read idx o : phase r = PRead idx -> (idx < g)%nat -> s !! peer i idx = Some o ->
      moves s i r (receive r (half (mask_of r) (halves o)) (PReading idx))
  | mv_read_all idx : phase r = PRead idx -> (g <= idx)%nat -> moves s i r (set_phase r PNext)
  | mv_reading idx o : phase r = PReading idx -> s !! peer i idx = Some o ->
      moves s i r (receive r (half (mask_of r) (halves o))
        (if batched (role i (rounds_done r)) then PRead (S idx) else PWait (S idx)))
  | mv_next : phase r = PNext -> moves s i r (set_phase (next_stamp r) PBuffer)
  | mv_buffer : phase r = PBuffer -> moves s i r (end_round (next_buffer r)).

Lemma move_moves s i r r' : s !! i = Some r -> move g n role data s i = Some r' -> moves s i r r'.
Proof using Type.
  intros Hr. unfold move. rewrite Hr. simpl.
  destruct (phase r) as [|idx| | | |idx|idx|idx| |] eqn:Ep;
    try (destruct (Nat.ltb_spec (rounds_done r) n)); try (destruct (Nat.ltb_spec idx g));
    try (destruct (s !! peer i idx) as [o|] eqn:Ho; simpl);
    try (destruct (writes _) eqn:Ew);
    try (destruct (check_no_buffer_conflict _ _) eqn:Ec); try (destruct (check_stamp_ready _ _) eqn:Ec);
    intros E; simplify_eq; by econstructor.
Qed.

(** Case analysis on the flags of the role. *)
Ltac role_cases :=
  repeat match goal with |- context [if ?f (role ?i ?k) then _ else _] => destruct (f (role i k)) eqn:?; simpl end.

(** Every access advances the rank's stamps. *)
Lemma moves_mono s i r r' : moves s i r r' -> (stamp r <= stamp r')%nat /\ (ready r <= ready r')%nat.
Proof using Type.
  destruct 1 as [Ep|? ? Ep|? Ep|Ep|Ep|Ep|Ep|? ? Ep|? Ep|? ? Ep|? Ep|? ? Ep|Ep|Ep]; unfold ready, stamp; simpl;
    rewrite Ep; simpl; role_cases; lia.
Qed.

(** What passing a check means. *)
Lemma conflict_seen s i idx r o : Inv s -> s !! i = Some r -> (1 <= idx < g)%nat -> s !! peer i idx = Some o ->
  check_no_buffer_conflict (curr_of r) (sel (remote_idx r) (curr_stamp o)) = true -> (stamp r <= stamp o + 1)%nat.
Proof using HG.
  intros I Hr Hx Ho. pose proof (inv_leads _ _ _ _ _ I Hr Ho Hx) as [L _].
  assert (Hi : (i < g)%nat) by (rewrite <- (inv_length _ I); by eapply lookup_lt_Some).
  pose proof (inv_ok _ I _ _ Hr) as Oi. pose proof (inv_ok _ I _ _ Ho) as Oj.
  rewrite (remote_curr _ _ _ _ Hi (peer_lt i idx Hi) (not_eq_sym (peer_ne i idx Hi Hx)) Oi Oj), (ok_curr _ _ Oi).
  by eapply no_conflict_spec.
Qed.

Lemma ready_seen s i idx r o : Inv s -> s !! i = Some r -> (1 <= idx < g)%nat -> s !! peer i idx = Some o ->
  reads (role i (rounds_done r)) = true ->
  check_stamp_ready (curr_of r) (sel (remote_idx r) (ready_stamp o)) = true -> (stamp r <= ready o)%nat.
Proof using HG.
  intros I Hr Hx Ho Hrd. pose proof (inv_leads _ _ _ _ _ I Hr Ho Hx) as [L [idx' L']].
  assert (Hi : (i < g)%nat) by (rewrite <- (inv_length _ I); by eapply lookup_lt_Some).
  pose proof (inv_ok _ I _ _ Hr) as Oi. pose proof (inv_ok _ I _ _ Ho) as Oj.
  pose proof (peer_lt i idx Hi) as Hj. pose proof (not_eq_sym (peer_ne i idx Hi Hx)) as Hne.
  rewrite (remote_ready _ _ _ _ Hi Hj Hne Oi Oj (g_read HG _ _ _ Hi Hj Hne Hrd)), (ok_curr _ _ Oi).
  by eapply stamp_ready_spec.
Qed.

(** The leads of the rank that moves. *)
Lemma moves_lead s i r r' idx o : Inv s -> s !! i = Some r -> moves s i r r' ->
  (1 <= idx < g)%nat -> s !! peer i idx = Some o -> Lead i r' idx o.
Proof using HG.
  intros I Hr M Hx Ho. pose proof (inv_lead _ I _ _ _ _ Hr Hx Ho) as [L1 Lw].
  pose proof (conflict_seen _ _ _ _ _ I Hr Hx Ho) as Hcf. pose proof (ready_seen _ _ _ _ _ I Hr Hx Ho) as Hrd.
  pose proof (ok_phase _ _ (inv_ok _ I _ _ Hr)) as Hph. pose proof (ready_bounds o) as Hro.
  unfold near, stamp in L1. unfold stamp in Lw, Hcf, Hrd, Hro.
  destruct M as [Ep Hk|x o' Ep Hx' Ho' Hc|x Ep Hc|Ep Hw|Ep Hw|Ep|Ep|x o' Ep Hx' Ho' Hc|x Ep Hc|x o' Ep Hx' Ho'|x Ep Hc|x o' Ep Ho'|Ep|Ep];
    rewrite Ep in *; constructor; unfold near, stamp; simpl in *; role_cases; try lia.
  - destruct (rounds_done r); [done|]. destruct (Nat.ltb_spec idx 1); [lia|done].
  - destruct (rounds_done r) as [|k]; [lia|]. destruct (g_guard HG i k) as [E|E]; [congruence|by rewrite E in L1].
  - destruct (decide (idx = x)) as [->|].
    + simplify_eq. specialize (Hcf Hc). match goal with |- context [if ?b then _ else _] => destruct b end; lia.
    + destruct (rounds_done r); [done|]. replace (idx <? S x)%nat with (idx <? x)%nat; [done|].
      destruct (Nat.ltb_spec idx x), (Nat.ltb_spec idx (S x)); done || lia.
  - destruct (rounds_done r); [lia|]. destruct (Nat.ltb_spec idx x); [done|lia].
  - intros Hi. destruct (decide (idx = x)) as [->|]; [simplify_eq; destruct Hph as (_ & Hr1 & _); by apply Hrd|apply Lw; lia].
  - intros Hi. destruct (decide (idx = x)) as [->|]; [simplify_eq; destruct Hph as (_ & Hr1 & _); by apply Hrd|apply Lw; lia].
  - intros _. apply Lw. destruct (batched _); lia.
Qed.

(** The state of the rank that moves. *)
Lemma ok_set_phase i r ph : RankOk i r -> stamp (set_phase r ph) = stamp r ->
  (w i = true -> ready (set_phase r ph) = ready r) -> (w i = true -> own_half i (set_phase r ph)) ->
  phase_ok i (rounds_done r) ph -> got_at i (rounds_done r) ph = got_at i (rounds_done r) (phase r) ->
  RankOk i (set_phase r ph).
Proof using Type.
  intros [H1 H2 H3 H4 H5 H6 H7 H8 H9 H10] E1 E2 E3 E4 E5.
  constructor; try done; simpl; rewrite ?E1, ?E5; try done. intros Hw. rewrite E2; auto.
Qed.

(** The copy to shared memory. *)
Lemma ok_write i r : RankOk i r -> phase r = PWrite -> w i = true ->
  RankOk i (set_phase (set_halves r (set_half (mask_of r) None (halves r))) PWriting).
Proof using Type.
  intros [H1 H2 H3 H4 H5 H6 H7 H8 H9 H10] Ep Hw.
  unfold stamp, ready, phase_ok, got_at, stamp in *. rewrite Ep in *.
  constructor; try done; simpl in *.
  intros _ k E. rewrite H5, E, half_set_half_ne by apply odd_S_ne. auto.
Qed.

Lemma ok_written i r : RankOk i r -> phase r = PWriting ->
  RankOk i (set_phase (set_halves r (set_half (mask_of r) (Some (data i (rounds_done r))) (halves r))) PCommit).
Proof using Type.
  intros [H1 H2 H3 H4 H5 H6 H7 H8 H9 H10] Ep.
  unfold stamp, ready, phase_ok, got_at, stamp in *. rewrite Ep in *.
  constructor; try done; simpl in *; unfold own_half; simpl; rewrite ?H5.
  - intros Hw k E. rewrite E, half_set_half_ne by apply odd_S_ne. auto.
  - intros _. apply half_set_half.
Qed.

(** [commit_ready_stamp] *)
Lemma ok_commit i r ph : RankOk i r -> phase r = PCommit -> (ph = PWait 1 \/ ph = PNext) ->
  phase_ok i (rounds_done r) ph -> got_at i (rounds_done r) ph = [] ->
  RankOk i (set_phase (commit_ready_stamp r) ph).
Proof using Type.
  intros [H1 H2 H3 H4 H5 H6 H7 H8 H9 H10] Ep Hp Hk Hg.
  unfold stamp, ready, got_at, own_half, stamp in *. rewrite Ep in *.
  constructor; try done; simpl in *; rewrite ?sel_upd; unfold ready, stamp, own_half; simpl.
  - destruct Hp as [-> | ->]; done.
  - intros _. unfold curr_of in H3 |- *. rewrite H3. destruct Hp as [-> | ->]; done.
  - intros Hw. destruct Hp as [-> | ->]; auto.
  - unfold got_at. by rewrite H9, Hg.
Qed.

(** Data received. *)
Lemma ok_receive i r v ph idx : RankOk i r ->
  (phase r = PRead idx \/ phase r = PReading idx) -> (ph = PReading idx \/ ph = PRead (S idx) \/ ph = PWait (S idx)) ->
  phase_ok i (rounds_done r) ph -> got_at i (rounds_done r) ph = got_at i (rounds_done r) (phase r) ++ [v] ->
  RankOk i (receive r v ph).
Proof using Type.
  intros [H1 H2 H3 H4 H5 H6 H7 H8 H9 H10] Ep Hp Hk Hg.
  assert (Es : stamp (receive r v ph) = stamp r).
  { unfold stamp. simpl. by destruct Ep as [-> | ->], Hp as [-> | [-> | ->]]. }
  constructor; try done; simpl; rewrite ?Es; try done.
  - intros Hw. rewrite H4 by done. unfold ready. rewrite Es. simpl.
    by destruct Ep as [-> | ->], Hp as [-> | [-> | ->]].
  - intros Hw. specialize (H7 Hw). unfold own_half in *. simpl.
    by destruct Ep as [E|E], Hp as [-> | [-> | ->]]; rewrite E in H7.
  - by rewrite H9, Hg.
Qed.

(** [next_stamp], [next_buffer] *)
Lemma ok_next i r : RankOk i r -> phase r = PNext -> RankOk i (set_phase (next_stamp r) PBuffer).
Proof using Type.
  intros [H1 H2 H3 H4 H5 H6 H7 H8 H9 H10] Ep.
  unfold stamp, ready, phase_ok, got_at, own_half, stamp in *. rewrite Ep in *.
  constructor; try done; simpl in *; unfold curr_of, ready, stamp, own_half; simpl; rewrite ?sel_upd.
  - rewrite H3, i8_i8_add. f_equal. lia.
  - intros Hw. rewrite H4 by done. do 2 f_equal. lia.
Qed.

Lemma ok_end_round i r : RankOk i r -> phase r = PBuffer -> RankOk i (end_round (next_buffer r)).
Proof using Type.
  intros [H1 H2 H3 H4 H5 H6 H7 H8 H9 H10] Ep.
  unfold stamp, ready, phase_ok, got_at, own_half, stamp in *. rewrite Ep in *.
  constructor; try done; simpl in *; unfold curr_of, mask_of, ready, stamp, own_half in *; simpl; rewrite ?sel_upd.
  - rewrite H3. do 2 f_equal. lia.
  - intros Hw. rewrite H4 by done. do 2 f_equal. lia.
  - fold (mask_of r) in H5. rewrite H5, Nat.odd_succ, <- Nat.negb_odd. done.
  - intros Hw k E. simplify_eq. auto.
  - intros Hw k E. simplify_eq. auto.
  - transitivity (round_result i <$> seq 0 (S (rounds_done r))); [by rewrite H10, H9, seq_S, fmap_app|done].
Qed.

(** A copy out of a peer's buffer, at its beginning and at its end. *)
Lemma read_peer s i idx r o : Inv s -> s !! i = Some r -> s !! peer i idx = Some o ->
  (phase r = PRead idx /\ idx < g \/ phase r = PReading idx)%nat ->
  half (mask_of r) (halves o) = Some (data (peer i idx) (rounds_done r)).
Proof using HG.
  intros I Hr Ho Hp. pose proof (inv_ok _ I _ _ Hr) as O. pose proof (ok_phase _ _ O) as Hph.
  assert (Hi : (i < g)%nat) by (rewrite <- (inv_length _ I); by eapply lookup_lt_Some).
  assert (Hx : (1 <= idx < g)%nat /\ reads (role i (rounds_done r)) = true).
  { destruct Hp as [[E ?]|E]; rewrite E in Hph; simpl in Hph; repeat split; tauto || lia. }
  destruct Hx as [Hx Hrd]. destruct (inv_leads _ _ _ _ _ I Hr Ho Hx) as [L [idx' L']].
  eapply (read_data i _ idx idx'); eauto using inv_ok.
  - eapply (g_read HG i); eauto using peer_lt. by apply not_eq_sym, peer_ne.
  - destruct Hp as [[-> _]| ->]; simpl; case_match; lia.
  - by destruct Hp as [[-> _]| ->].
Qed.

Lemma moves_ok s i r r' : Inv s -> s !! i = Some r -> moves s i r r' -> RankOk i r'.
Proof using HG.
  intros I Hr M. pose proof (inv_ok _ I _ _ Hr) as O. pose proof (ok_phase _ _ O) as Hph.
  assert (Hi : (i < g)%nat) by (rewrite <- (inv_length _ I); by eapply lookup_lt_Some).
  assert (Hw' := g_writes HG i (rounds_done r)).
  destruct M as [Ep Hk|x o Ep Hx Ho Hc|x Ep Hc|Ep Hw|Ep Hw|Ep|Ep|x o Ep Hx Ho Hc|x Ep Hc|x o Ep Hx Ho|x Ep Hc|x o Ep Ho|Ep|Ep];
    rewrite Ep in Hph; simpl in Hph.
  all: try (apply ok_set_phase; [done|unfold ready, stamp; simpl; rewrite ?Ep; simpl..]).
  all: role_cases; try done.
  all: try (intros Hwi; pose proof (ok_own _ _ O Hwi) as Hown; unfold own_half in *; rewrite Ep in Hown; simpl; role_cases; done).
  all: unfold round_result; try lia; try congruence; try (repeat split; tauto || lia || congruence).
  - apply ok_write; congruence.
  - by rewrite Heqb.
  - by apply ok_written.
  - apply ok_commit; simpl; auto with lia. by case_match.
  - apply ok_commit; simpl; auto with lia. unfold round_result. by rewrite Heqb.
  - destruct Hph as (? & -> & ?). f_equal. lia.
  - rewrite (read_peer _ _ _ _ _ I Hr Ho) by auto. apply (ok_receive _ _ _ _ x); auto; rewrite ?Ep; simpl; [tauto || lia|done].
  - destruct Hph as (? & -> & ?). f_equal. lia.
  - rewrite (read_peer _ _ _ _ _ I Hr Ho) by auto. apply (ok_receive _ _ _ _ x); auto; rewrite ?Ep; simpl.
    + repeat split; tauto || lia || congruence.
    + destruct x; [lia|]. simpl. by rewrite copies_S, <- app_assoc.
  - rewrite (read_peer _ _ _ _ _ I Hr Ho) by auto. apply (ok_receive _ _ _ _ x); auto; rewrite ?Ep; simpl.
    + repeat split; tauto || lia || congruence.
    + rewrite Heqb. destruct x; [lia|]. simpl. by rewrite copies_S, <- app_assoc.
  - by apply ok_next.
  - by apply ok_end_round.
Qed.

(** *** The invariant *)
#[local] Abbreviation Step := (step g n role data).

Lemma inv_init : Inv (init g slots).
Proof using Type.
  assert (Hl : forall i r, init g slots !! i = Some r -> r = @new_rank V (slots i).1 (slots i).2).
  { intros i r. unfold init. rewrite list_lookup_fmap. intros (x & [-> ?]%lookup_seq & ->)%fmap_Some. done. }
  constructor.
  - unfold init. by rewrite length_fmap, length_seq.
  - intros i r ->%Hl. constructor; try done; unfold curr_of, mask_of, sel; simpl; try lia; by case_match.
  - intros i idx r o ->%Hl _ ->%Hl. constructor; unfold stamp; simpl; lia.
Qed.

Lemma step_inv s s' : Step s s' -> exists i r r', s !! i = Some r /\ moves s i r r' /\ s' = <[i := r']> s.
Proof using Type.
  destruct 1 as [s i s' E]. unfold step_of in E. apply bind_Some in E as (r' & Em & [= <-]).
  pose proof Em as Em'. unfold move in Em'. apply bind_Some in Em' as (r & Hr & _).
  exists i, r, r'. eauto using move_moves.
Qed.

Lemma inv_step s s' : Step s s' -> Inv s -> Inv s'.
Proof using HG.
  intros (i & r & r' & Hr & M & ->)%step_inv I. pose proof (moves_mono _ _ _ _ M) as [Ms Mr].
  assert (Hi : (i < length s)%nat) by by eapply lookup_lt_Some.
  assert (Hi' : (i < g)%nat) by by rewrite <- (inv_length _ I).
  constructor.
  - by rewrite length_insert, (inv_length _ I).
  - intros j q [(<- & <- & _)|[_ Hq]]%list_lookup_insert_Some; eauto using moves_ok, inv_ok.
  - intros j idx q o [(<- & <- & _)|[Hj Hq]]%list_lookup_insert_Some Hx Ho.
    + rewrite list_lookup_insert_ne in Ho by by apply not_eq_sym, peer_ne. by eapply moves_lead.
    + apply list_lookup_insert_Some in Ho as [(E & <- & _)|[_ Ho]]; [|by eapply inv_lead].
      eapply lead_mono; [exact Ms|exact Mr|]. eapply inv_lead; [done..|by rewrite <- E].
Qed.

Lemma inv_reach s : rtc Step (init g slots) s -> Inv s.
Proof using HG.
  intros R. assert (G : forall a b, rtc Step a b -> Inv a -> Inv b) by (induction 1; eauto using inv_step).
  eapply G; [exact R|apply inv_init].
Qed.

(** *** Progress: the rank that is furthest behind never spins *)
Definition key r : nat :=
  2 * stamp r + match phase r with PWait _ => 1 | PStart => if (n <=? rounds_done r)%nat then 1 else 0 | _ => 0 end.

Lemma list_argmin (f : @Rank V -> nat) s : s <> [] ->
  exists i r, s !! i = Some r /\ forall j o, s !! j = Some o -> (f r <= f o)%nat.
Proof using Type.
  induction s as [|a s IH]; [done|]. intros _. destruct s as [|b s].
  { exists 0%nat, a. split; [done|]. intros [|j] o E; by simplify_eq/=. }
  destruct IH as (i & r & Hr & Hm); [done|]. destruct (decide (f a <= f r)%nat).
  - exists 0%nat, a. split; [done|]. intros [|j] o E; simplify_eq/=; [done|]. specialize (Hm _ _ E). lia.
  - exists (S i), r. split; [done|]. intros [|j] o E; simplify_eq/=; [lia|]. by apply (Hm j).
Qed.

Lemma min_clear s i idx r o : Inv s -> s !! i = Some r -> (1 <= idx < g)%nat -> s !! peer i idx = Some o ->
  (key r <= key o)%nat -> phase r = PConflict idx ->
  check_no_buffer_conflict (curr_of r) (sel (remote_idx r) (curr_stamp o)) = true.
Proof using HG.
  intros I Hr Hx Ho Hm Ep. pose proof (inv_leads _ _ _ _ _ I Hr Ho Hx) as [L [idx' L']].
  assert (Hi : (i < g)%nat) by (rewrite <- (inv_length _ I); by eapply lookup_lt_Some).
  pose proof (inv_ok _ I _ _ Hr) as Oi. pose proof (inv_ok _ I _ _ Ho) as Oj.
  rewrite (remote_curr _ _ _ _ Hi (peer_lt i idx Hi) (not_eq_sym (peer_ne i idx Hi Hx)) Oi Oj), (ok_curr _ _ Oi).
  unfold check_no_buffer_conflict. rewrite i8_i8_add. apply negb_true_iff, Z.eqb_neq. intros E.
  pose proof (lead_2 _ _ _ _ L'). unfold key in Hm. rewrite Ep in Hm.
  assert (stamp r <= stamp o)%nat by (destruct (phase o); try lia; destruct (n <=? _)%nat; lia).
  apply i8_inj in E; lia.
Qed.

Lemma min_ready s i idx r o : Inv s -> s !! i = Some r -> (1 <= idx < g)%nat -> s !! peer i idx = Some o ->
  (key r <= key o)%nat -> phase r = PWait idx ->
  check_stamp_ready (curr_of r) (sel (remote_idx r) (ready_stamp o)) = true.
Proof using HG.
  intros I Hr Hx Ho Hm Ep. pose proof (inv_leads _ _ _ _ _ I Hr Ho Hx) as [L [idx' L']].
  assert (Hi : (i < g)%nat) by (rewrite <- (inv_length _ I); by eapply lookup_lt_Some).
  pose proof (inv_ok _ I _ _ Hr) as Oi. pose proof (inv_ok _ I _ _ Ho) as Oj.
  pose proof (peer_lt i idx Hi) as Hj. pose proof (not_eq_sym (peer_ne i idx Hi Hx)) as Hne.
  pose proof (ok_phase _ _ Oi) as Hph. rewrite Ep in Hph. destruct Hph as (Hk & Hrd & _).
  rewrite (remote_ready _ _ _ _ Hi Hj Hne Oi Oj (g_read HG _ _ _ Hi Hj Hne Hrd)), (ok_curr _ _ Oi).
  unfold check_stamp_ready. rewrite i8_i8_add.
  assert (H : ready o = stamp r \/ ready o = S (stamp r)).
  { pose proof (lead_stamp _ _ _ _ L') as H1. pose proof (lead_2 _ _ _ _ L') as H2. unfold key, ready, near, stamp in *. rewrite Ep in *. simpl in *.
    destruct (phase o); simpl in *; try lia. destruct (Nat.leb_spec n (rounds_done o)); lia. }
  destruct H as [-> | ->]; [by rewrite Z.eqb_refl|].
  replace (Z.of_nat (S (stamp r))) with (Z.of_nat (stamp r) + 1) by lia. by rewrite Z.eqb_refl, orb_true_r.
Qed.

Lemma min_moves s i r : Inv s -> s !! i = Some r -> (forall j o, s !! j = Some o -> (key r <= key o)%nat) ->
  (rounds_done r = n /\ phase r = PStart) \/ exists r', move g n role data s i = Some r'.
Proof using HG.
  intros I Hr Hm. assert (Hi : (i < g)%nat) by (rewrite <- (inv_length _ I); by eapply lookup_lt_Some).
  pose proof (ok_phase _ _ (inv_ok _ I _ _ Hr)) as Hph.
  unfold move. rewrite Hr. simpl. destruct (phase r) as [|idx| | | |idx|idx|idx| |] eqn:Ep; simpl in Hph; eauto.
  - destruct (Nat.ltb_spec (rounds_done r) n); [by eauto|]. left. split; [lia|done].
  - right. destruct (Nat.ltb_spec idx g); [|by eauto].
    destruct (inv_peer _ i idx I Hi) as (o & Ho & _). rewrite Ho. simpl.
    rewrite (min_clear _ _ idx _ _ I Hr); eauto with lia.
  - case_match; eauto.
  - right. destruct (Nat.ltb_spec idx g); [|by eauto].
    destruct (inv_peer _ i idx I Hi) as (o & Ho & _). rewrite Ho. simpl.
    rewrite (min_ready _ _ idx _ _ I Hr); eauto with lia.
  - right. destruct (Nat.ltb_spec idx g); [|by eauto].
    destruct (inv_peer _ i idx I Hi) as (o & Ho & _). rewrite Ho. simpl. eauto.
  - right. destruct (inv_peer _ i idx I Hi) as (o & Ho & _). rewrite Ho. simpl. eauto.
Qed.

Lemma no_deadlock s : Inv s -> complete n s \/ exists s', Step s s'.
Proof using HG.
  intros I. destruct (decide (s = [])) as [->|Hs]; [left; by constructor|].
  destruct (list_argmin key s Hs) as (i & r & Hr & Hm).
  destruct (min_moves _ _ _ I Hr Hm) as [[Hk Hp]|[r' E]].
  - left. apply Forall_lookup. intros j o Ho. specialize (Hm _ _ Ho).
    pose proof (ok_phase _ _ (inv_ok _ I _ _ Ho)) as Hph.
    unfold key, stamp in Hm. rewrite Hk, Hp, Nat.leb_refl in Hm.
    destruct (phase o); simpl in *; try lia. split; [|done]. destruct (Nat.leb_spec n (rounds_done o)); lia.
  - right. exists (<[i := r']> s). apply (step_rank _ _ _ _ _ i). unfold step_of. by rewrite E.
Qed.

(** *** Termination *)

(** The accesses a round takes at most, and those done in the current round. *)
Definition round_length : nat := 4 * g + 10.
Definition weight (ro : Role) (ph : Phase) : nat :=
  match ph with
  | PStart => 0
  | PConflict idx => 1 + idx
  | PWrite => g + 2
  | PWriting => g + 3
  | PCommit => g + 4
  | PWait idx => if batched ro then g + 5 + idx else g + 5 + 3 * idx
  | PRead idx => if batched ro then 2 * g + 6 + 2 * idx else g + 6 + 3 * idx
  | PReading idx => if batched ro then 2 * g + 7 + 2 * idx else g + 7 + 3 * idx
  | PNext => 4 * g + 8
  | PBuffer => 4 * g + 9
  end.
Definition progress i r : nat := rounds_done r * round_length + weight (role i (rounds_done r)) (phase r).

Lemma moves_progress s i r r' : Inv s -> s !! i = Some r -> moves s i r r' -> (progress i r < progress i r')%nat.
Proof using Type.
  intros I Hr M. pose proof (ok_phase _ _ (inv_ok _ I _ _ Hr)) as Hph. unfold progress, round_length.
  destruct M as [Ep Hk|x o Ep Hx Ho Hc|x Ep Hc|Ep Hw|Ep Hw|Ep|Ep|x o Ep Hx Ho Hc|x Ep Hc|x o Ep Hx Ho|x Ep Hc|x o Ep Ho|Ep|Ep];
    rewrite Ep in *; simpl in *; role_cases; try lia.
Qed.

Lemma progress_bound i r : RankOk i r -> (progress i r <= n * round_length)%nat.
Proof using Type.
  intros O. pose proof (ok_phase _ _ O) as Hph. unfold progress.
  destruct (decide (phase r = PStart)) as [E|E].
  { rewrite E in *. simpl in *. rewrite Nat.add_0_r. by apply Nat.mul_le_mono_r. }
  assert (H : (rounds_done r < n)%nat /\ (weight (role i (rounds_done r)) (phase r) <= round_length)%nat).
  { unfold round_length. destruct (phase r); simpl in *; repeat case_match; try done; lia. }
  destruct H as [Hk Hw]. transitivity ((S (rounds_done r)) * round_length)%nat; [lia|]. by apply Nat.mul_le_mono_r.
Qed.

Definition total s : nat := sum_list (imap progress s).

Lemma sum_list_insert (l : list nat) i x y : l !! i = Some x -> (sum_list (<[i := y]> l) + x = sum_list l + y)%nat.
Proof using Type.
  revert i. induction l as [|a l IH]; intros [|i] E; simplify_eq/=; [lia|]. specialize (IH _ E). lia.
Qed.

Lemma imap_insert {A B} (f : nat -> A -> B) i x l : imap f (<[i := x]> l) = <[i := f i x]> (imap f l).
Proof using Type.
  revert f i. induction l as [|a l IH]; intros f [|i]; simpl; [done..|]. f_equal. apply (IH (f ∘ S)).
Qed.

Lemma total_step s s' : Inv s -> Step s s' -> (total s < total s')%nat.
Proof using Type.
  intros I (i & r & r' & Hr & M & ->)%step_inv. unfold total. pose proof (moves_progress _ _ _ _ I Hr M).
  rewrite imap_insert.
  assert (E : imap progress s !! i = Some (progress i r)) by (rewrite list_lookup_imap, Hr; done).
  pose proof (sum_list_insert _ _ _ (progress i r') E). lia.
Qed.

Lemma total_bound s : Inv s -> (total s <= g * (n * round_length))%nat.
Proof using Type.
  intros I. unfold total. rewrite <- (inv_length _ I), <- (length_imap progress).
  assert (H : Forall (λ x, x <= n * round_length)%nat (imap progress s)).
  { apply Forall_lookup. intros i x. rewrite list_lookup_imap. intros (r & Hr & ->)%fmap_Some.
    eapply progress_bound, inv_ok; done. }
  induction H; simpl; lia.
Qed.

Lemma nsteps_total k s s' : Inv s -> nsteps Step k s s' -> (total s + k <= total s')%nat.
Proof using HG.
  intros I R. induction R as [|k a b c Hab R IH]; [lia|].
  specialize (IH (inv_step _ _ Hab I)). pose proof (total_step _ _ I Hab). lia.
Qed.

(** Whatever the interleaving, all rounds are completed. *)
Lemma inv_inevitably (P : list (@Rank V) -> Prop) s : (forall s, Inv s -> complete n s -> P s) ->
  Inv s -> inevitably Step P s.
Proof using HG.
  intros HP I. apply (inevitably_variant _ _ Inv (λ s, (g * (n * round_length) - total s)%nat)); [..|done].
  - intros t It. destruct (no_deadlock t It) as [?|?]; [left; auto|by right].
  - intros t t' It Hs. pose proof (inv_step _ _ Hs It) as I'. split; [done|].
    pose proof (total_step _ _ It Hs). pose proof (total_bound _ I'). lia.
Qed.

Lemma complete_results s i r : Inv s -> complete n s -> s !! i = Some r -> results r = round_result i <$> seq 0 n.
Proof using Type.
  intros I C Hr. rewrite (ok_results _ _ (inv_ok _ I _ _ Hr)). by destruct (Forall_lookup_1 _ _ _ _ C Hr) as [-> _].
Qed.

End protocol.

(** ** The collectives *)

(** The data of a call's rounds, after the rounds of earlier calls. *)
Definition after {V} (before : nat) (past d : nat -> nat -> V) (i k : nat) : V :=
  if (k <? before)%nat then past i k else d i (k - before)%nat.

(** What the rounds of a call hand to a rank that reads in all of them. *)
Lemma later_rounds {V} g n role slots w before (past d : nat -> nat -> V) : Guarded g role slots w ->
  inevitably (step g (before + n) role (after before past d))
    (λ s, complete (before + n) s /\
      forall i r, s !! i = Some r -> (forall k, reads (role i k) = true) ->
        drop before (results r) = (λ k, copies g d i k (pred g)) <$> seq 0 n)
    (init g slots).
Proof.
  intros HG. eapply inv_inevitably; [exact HG| |apply inv_init].
  intros s I C. split; [done|]. intros i r Hr Hreads. rewrite (complete_results _ _ _ _ _ _ _ _ _ I C Hr).
  rewrite <- fmap_drop, drop_seq. replace (before + n - before)%nat with n by lia.
  rewrite Nat.add_0_l. replace (seq before n) with (Nat.add before <$> seq 0 n) by (by rewrite fmap_add_seq, Nat.add_0_r).
  rewrite <- list_fmap_compose. apply list_fmap_ext. intros _ k _. simpl. unfold round_result. rewrite Hreads.
  unfold copies. apply list_bind_ext; [|done]. intros idx. unfold after.
  rewrite (proj2 (Nat.ltb_ge _ _)) by lia. by replace (before + k - before)%nat with k by lia.
Qed.

(** The threads of a group that only reduces, or gathers to everybody, whatever the
    rounds' modes; that gathers to one rank and checks; a sender and its receiver. *)
Definition all_reduce_script (fast : nat -> bool) (i k : nat) : Role := all_reduce_role (fast k).
Definition all_gather_script (fast : nat -> bool) (i k : nat) : Role := gather_role (fast k) i i.
Definition gather_script (fast : nat -> bool) (dst : nat -> nat) (i k : nat) : Role := gather_role (fast k) (dst k) i.
Definition send_recv_script (i k : nat) : Role := if Nat.eqb i 0 then send_role else recv_role.

(** The slots at construction, and after [reset_threads_stamp_buffer_idx] of the
    sender (0, 1) and of the receiver (1, 0). *)
Definition initial_slots (i : nat) : Z * Z := (0, 0).
Definition send_recv_slots (i : nat) : Z * Z := if Nat.eqb i 0 then (0, 1) else (1, 0).

Lemma guarded_all_reduce g fast : Guarded g (all_reduce_script fast) initial_slots (λ _, true).
Proof. constructor; auto. Qed.

Lemma guarded_all_gather g fast : Guarded g (all_gather_script fast) initial_slots (λ _, true).
Proof. constructor; auto. intros i k. right. simpl. apply Nat.eqb_refl. Qed.

Lemma guarded_gather g dst : Guarded g (gather_script (λ _, false) dst) initial_slots (λ _, true).
Proof. constructor; auto. Qed.

Lemma guarded_send_recv : Guarded 2 send_recv_script send_recv_slots (λ i, Nat.eqb i 0).
Proof.
  unfold send_recv_script, send_recv_slots. constructor.
  - intros [|i] k; done.
  - intros [|i] k; auto.
  - intros [|[|i]] [|[|j]] k; done || lia.
  - intros [|[|i]] [|[|j]]; done || lia.
Qed.

(** A schedule: the ranks that run, in order. *)
Fixpoint run {V} g n role (data : nat -> nat -> V) s (schedule : list nat) : option (list Rank) :=
  match schedule with
  | [] => Some s
  | i :: rest => s' ← step_of g n role data s i; run g n role data s' rest
  end.

Lemma run_rtc {V} g n role (data : nat -> nat -> V) s schedule s' :
  run g n role data s schedule = Some s' -> rtc (step g n role data) s s'.
Proof.
  revert s. induction schedule as [|i rest IH]; simpl; intros s E; simplify_eq; [done|].
  apply bind_Some in E as (t & Et & E). eapply rtc_l; [by econstructor|auto].
Qed.

(** [C8] Whatever the interleaving of the ranks, a guarded script completes: no rank
    spins forever, and at the end every rank has read, in every round that reads, each
    peer's data of exactly that round, untorn at the beginning and the end of the
    copy - although the stamps are single bytes that wrap around and each half of a
    buffer is reused every second round. *)
Theorem collectives_complete {V} g n role (data : nat -> nat -> V) slots w : Guarded g role slots w ->
  inevitably (step g n role data)
    (λ s, complete n s /\ forall i r, s !! i = Some r -> results r = round_result g role data i <$> seq 0 n)
    (init g slots).
Proof.
  intros HG. eapply inv_inevitably; [exact HG| |apply inv_init].
  intros s I C. split; [done|]. intros i r Hr. by eapply complete_results.
Qed.

Lemma collectives_complete_witness :
  inevitably (step 2 300 send_recv_script (λ i k, k))
    (λ s, complete 300 s /\ forall i r, s !! i = Some r ->
      results r = round_result 2 send_recv_script (λ i k, k) i <$> seq 0 300)
    (init 2 send_recv_slots).
Proof. apply (collectives_complete 2 300 send_recv_script (λ i k, k) _ (λ i, Nat.eqb i 0)), guarded_send_recv. Defined.

(** In every reachable state of a guarded script, a rank in the middle of
    copying a peer's buffer finds there that peer's data of its own round. *)
Theorem copies_intact {V} g n role (data : nat -> nat -> V) slots w s i idx r o : Guarded g role slots w ->
  rtc (step g n role data) (init g slots) s -> s !! i = Some r -> phase r = PReading idx ->
  s !! swizzled_rank g i idx = Some o ->
  half (mask_of r) (halves o) = Some (data (swizzled_rank g i idx) (rounds_done r)).
Proof.
  intros HG R Hr Hp Ho. eapply read_peer; [exact HG|eapply inv_reach; [exact HG|exact R]|done|done|by right].
Qed.

(** The first copies of an all-reduce of two ranks. *)
Lemma copying_run : exists s r o, run 2 1 (all_reduce_script (λ _, true)) (λ i k, (i, k)) (init 2 initial_slots)
    (replicate 4 0 ++ replicate 4 1 ++ replicate 3 0)%nat = Some s /\
  s !! 0%nat = Some r /\ phase r = PReading 1 /\ s !! swizzled_rank 2 0 1 = Some o /\ rounds_done r = 0%nat /\
  mask_of r = false.
Proof. do 3 eexists. split; [vm_compute; reflexivity|]. split_and!; reflexivity. Qed.

Lemma copies_intact_witness :
  exists s r o, rtc (step 2 1 (all_reduce_script (λ _, true)) (λ i k, (i, k))) (init 2 initial_slots) s /\
    s !! 0%nat = Some r /\ phase r = PReading 1 /\ s !! swizzled_rank 2 0 1 = Some o /\
    half (mask_of r) (halves o) = Some (swizzled_rank 2 0 1, rounds_done r).
Proof.
  destruct copying_run as (s & r & o & E & Hr & Hp & Ho & _). apply run_rtc in E. exists s, r, o.
  repeat (split; [assumption|]).
  exact (copies_intact 2 1 _ (λ i k, (i, k)) _ _ s 0 1 r o (guarded_all_reduce 2 _) E Hr Hp Ho).
Defined.

(** Every execution of a guarded script terminates: it has at most
    [4 * g + 10] accesses per rank and round that are not spins. *)
Theorem collectives_terminate {V} g n role (data : nat -> nat -> V) slots w k s : Guarded g role slots w ->
  nsteps (step g n role data) k (init g slots) s -> (k <= g * (n * (4 * g + 10)))%nat.
Proof.
  intros HG R. pose proof (inv_init g n role data slots w) as I.
  pose proof (nsteps_total _ _ _ _ _ _ HG _ _ _ I R).
  assert (I' : Inv g n role data slots w s) by (eapply inv_reach; [exact HG|by eapply rtc_nsteps_2]).
  pose proof (total_bound _ _ _ _ _ _ _ I'). unfold round_length in *. lia.
Qed.

Lemma collectives_terminate_witness :
  exists s, nsteps (step 2 1 (all_reduce_script (λ _, true)) (λ i k, (i, k))) 0 (init 2 initial_slots) s /\
    (0 <= 2 * (1 * (4 * 2 + 10)))%nat.
Proof.
  exists (init 2 initial_slots). split; [constructor|].
  apply (collectives_terminate 2 1 (all_reduce_script (λ _, true)) (λ i k, (i, k)) initial_slots (λ _, true) 0
    (init 2 initial_slots) (guarded_all_reduce 2 _)). constructor.
Defined.

(** ** Scripts that are not guarded *)

(** Both ranks reduce, gather to rank 0 and reduce again, all in the fast mode. *)
Definition reduce_gather_reduce (i k : nat) : Role :=
  if Nat.eqb k 1 then gather_role true 0 i else all_reduce_role true.

(** The state after rank 1 has begun to overwrite what rank 0 copies. *)
Lemma race_run : exists s r, run 2 3 reduce_gather_reduce (λ i k, (i, k)) (init 2 initial_slots)
    (replicate 4 0 ++ replicate 11 1 ++ replicate 3 0 ++ replicate 8 1 ++ [0])%nat = Some s /\
  s !! 0%nat = Some r /\ got r = [Some (1, 0); None]%nat.
Proof. do 2 eexists. split; [vm_compute; reflexivity|]. split; reflexivity. Qed.

(** [C39] Two fast all-reduces with a fast gather in between race: rank 1 leaves the
    first one and the gather, and overwrites the half of its buffer that rank 0 is
    still copying in the first one. *)
Theorem fast_gather_races :
  exists s r, rtc (step 2 3 reduce_gather_reduce (λ i k, (i, k))) (init 2 initial_slots) s /\
    s !! 0%nat = Some r /\ got r = [Some (1, 0); None]%nat.
Proof. destruct race_run as (s & r & E & Hr). exists s, r. split; [exact (run_rtc _ _ _ _ _ _ _ E)|exact Hr]. Qed.

Definition fast_gathers : nat -> nat -> Role := gather_script (λ _, true) (λ _, 0%nat).

(** The state after rank 1 has gone through its three gathers. *)
Lemma deadlock_run : exists s, run 2 3 fast_gathers (λ i k, (i, k)) (init 2 initial_slots)
    (replicate 18 1 ++ replicate 4 0)%nat = Some s /\
  rounds_done <$> s = [0; 3]%nat /\ forall i, step_of 2 3 fast_gathers (λ i k, (i, k)) s i = None.
Proof.
  eexists. split; [vm_compute; reflexivity|]. split; [reflexivity|]. intros [|[|i]]; vm_compute; reflexivity.
Qed.

(** [C40] Three fast gathers can deadlock: rank 1 runs ahead until its ready stamp is
    past the window that rank 0 accepts, and rank 0 spins forever. *)
Theorem fast_gather_deadlocks :
  exists s, rtc (step 2 3 fast_gathers (λ i k, (i, k))) (init 2 initial_slots) s /\
    ~ complete 3 s /\ forall s', ~ step 2 3 fast_gathers (λ i k, (i, k)) s s'.
Proof.
  destruct deadlock_run as (s & E & Hd & Hn). exists s. split; [exact (run_rtc _ _ _ _ _ _ _ E)|]. split.
  - intros C. destruct s as [|r s]; [discriminate|]. apply Forall_cons in C as [[C _] _]. injection Hd as Hd _.
    congruence.
  - intros s' Hs. destruct Hs as [t i t' Hm]. by rewrite Hn in Hm.
Qed.

End Shm.
