(* ===== verification/ShmCollectives.v ===== *)
(** * The collectives over shared memory ([csrc/cpu/shm.cpp])

    What the collectives do around the stamp protocol of [ShmProtocol]:

    - [ShmLayout]: the region of a rank: the contexts of its threads, then a
      double buffer per thread;
    - [ShmOps]: the division of a tensor into the slices that go through a half
      buffer ([shm_cc_loop]), the 64-byte copies, the element-wise reduction;
    - [ShmReduce]: all-reduce and gather as a whole, the protocol's theorem for every
      thread composed with the slices. *)

From stdpp Require Import relations.
From stdpp Require Import pretty.
From S2P Require Import Prelude Arrays ShmProtocol.

#[local] Open Scope Z_scope.

Definition MAX_SHM_RANK_NUM : Z := 8.
Definition PER_THREAD_SHM_BUFFER_BYTES : Z := 4 * 1024 * 1024.
Definition PER_THREAD_SHM_BUFFER_OFFSET : Z := Z.shiftr PER_THREAD_SHM_BUFFER_BYTES 1.
Definition MIN_THREAD_PROCESS_SIZE : Z := 256.
Definition MAX_P2P_SEND_TENSOR_NUM : Z := 8.

(** ** The region of a rank *)

Module ShmLayout.

(** [sizeof(ThreadSHMContext)]: 4 stamps, 6 [int]s, a counter, 8 [int]s, 16 pointers,
    2 masks and 40 bytes of padding, aligned to 8 bytes. *)
Definition sizeof_ctx : Z := 256.

Definition round_to_alignment (num : Z) : Z := u64 (u64 (num + 63) / 64 * 64).

Definition compute_thread_shm_ptr (thread_num ctx thread_id : Z) : Z :=
  let thread_shm_ptr := u64 (ctx + round_to_alignment (u64 (thread_num * sizeof_ctx))) in
  u64 (thread_shm_ptr + u64 (thread_id * round_to_alignment PER_THREAD_SHM_BUFFER_BYTES)).

Definition compute_shm_size (thread_num : Z) : Z :=
  let rounded_rank_buffer_size := u64 (round_to_alignment PER_THREAD_SHM_BUFFER_BYTES * thread_num) in
  let rounded_thread_shm_ctx_size := round_to_alignment (u64 (thread_num * sizeof_ctx)) in
  u64 (rounded_thread_shm_ctx_size + rounded_rank_buffer_size).

(** [get_thread_shm_ptr], [next_buffer] on the mask of the slot in use. *)
Definition get_thread_shm_ptr (thread_shm_ptr mask : Z) : Z :=
  u64 (thread_shm_ptr + Z.land PER_THREAD_SHM_BUFFER_OFFSET mask).
Definition next_buffer (mask : Z) : Z := Z.lxor mask 18446744073709551615.

(** The mask after a number of rounds. *)
Definition mask_after (rounds : nat) : Z := Nat.iter rounds next_buffer 0.

Lemma mask_after_odd k : mask_after k = if Nat.odd k then 18446744073709551615 else 0.
Proof.
  induction k as [|k IH]; [done|]. change (mask_after (S k)) with (next_buffer (mask_after k)).
  rewrite IH, Nat.odd_succ, <- Nat.negb_odd. by destruct (Nat.odd k).
Qed.

Lemma round_to_alignment_id m : 0 <= 64 * m -> 64 * m < 2 ^ 63 -> round_to_alignment (64 * m) = 64 * m.
Proof.
  intros. unfold round_to_alignment. rewrite (u64_id (64 * m + 63)) by (unfold is_u64; lia).
  replace (64 * m + 63) with (63 + m * 64) by lia. rewrite Z.div_add by lia. change (63 / 64) with 0.
  rewrite u64_id; unfold is_u64; lia.
Qed.

Lemma buffer_rounded : round_to_alignment PER_THREAD_SHM_BUFFER_BYTES = 4194304.
Proof. reflexivity. Qed.

Lemma ctxs_rounded n : 0 <= n < 2 ^ 31 -> round_to_alignment (u64 (n * sizeof_ctx)) = 256 * n.
Proof.
  intros. unfold sizeof_ctx. rewrite u64_id by (unfold is_u64; lia).
  replace (n * 256) with (64 * (4 * n)) by lia. rewrite round_to_alignment_id; lia.
Qed.

Lemma ptr_eq n ctx t : 0 <= t < n -> n < 2 ^ 31 -> 0 <= ctx -> ctx + 2 ^ 54 < 2 ^ 64 ->
  compute_thread_shm_ptr n ctx t = ctx + 256 * n + 4194304 * t.
Proof.
  intros. unfold compute_thread_shm_ptr. rewrite ctxs_rounded, buffer_rounded by lia.
  rewrite (u64_id (t * _)), (u64_id (ctx + _)), u64_id; unfold is_u64; lia.
Qed.

Lemma size_eq n : 0 <= n < 2 ^ 31 -> compute_shm_size n = 256 * n + 4194304 * n.
Proof.
  intros. unfold compute_shm_size. rewrite ctxs_rounded, buffer_rounded by lia.
  rewrite (u64_id (_ * n)), u64_id; unfold is_u64; lia.
Qed.

(** The region of a rank is laid out soundly: for a mapping aligned to 64 bytes,
    every thread's buffer is aligned and lies inside the mapping after all the
    contexts, the buffers of different threads are disjoint, and the rounds of a
    thread use alternately the first and the second half of its own buffer. *)
Theorem layout_sound n ctx t t' k : 0 <= t < n -> 0 <= t' < n -> n < 2 ^ 31 ->
  0 <= ctx -> ctx + 2 ^ 54 < 2 ^ 64 -> ctx mod 64 = 0 ->
  let p := compute_thread_shm_ptr n ctx t in let p' := compute_thread_shm_ptr n ctx t' in
  p mod 64 = 0 /\ ctx + n * sizeof_ctx <= p /\
  p + PER_THREAD_SHM_BUFFER_BYTES <= ctx + compute_shm_size n /\
  (t <> t' -> p + PER_THREAD_SHM_BUFFER_BYTES <= p' \/ p' + PER_THREAD_SHM_BUFFER_BYTES <= p) /\
  get_thread_shm_ptr p (mask_after k) = p + (if Nat.odd k then PER_THREAD_SHM_BUFFER_OFFSET else 0) /\
  2 * PER_THREAD_SHM_BUFFER_OFFSET = PER_THREAD_SHM_BUFFER_BYTES.
Proof.
  intros Ht Ht' Hn Hc Hc' Ha p p'. subst p p'. rewrite !ptr_eq, size_eq by lia.
  unfold PER_THREAD_SHM_BUFFER_BYTES, sizeof_ctx. split_and!; [|lia..| |done].
  - replace (ctx + 256 * n + 4194304 * t) with (ctx + (4 * n + 65536 * t) * 64) by lia. by rewrite Z.mod_add.
  - unfold get_thread_shm_ptr. rewrite mask_after_odd. rewrite u64_id; [by destruct (Nat.odd k)|].
    unfold is_u64. destruct (Nat.odd k);
      [change (Z.land _ _) with 2097152|change (Z.land _ _) with 0]; lia.
Qed.

Lemma layout_sound_witness :
  let p := compute_thread_shm_ptr 4 140737488355328 1 in let p' := compute_thread_shm_ptr 4 140737488355328 3 in
  p mod 64 = 0 /\ 140737488355328 + 4 * sizeof_ctx <= p /\
  p + PER_THREAD_SHM_BUFFER_BYTES <= 140737488355328 + compute_shm_size 4 /\
  (1 <> 3 -> p + PER_THREAD_SHM_BUFFER_BYTES <= p' \/ p' + PER_THREAD_SHM_BUFFER_BYTES <= p) /\
  get_thread_shm_ptr p (mask_after 5) = p + (if Nat.odd 5 then PER_THREAD_SHM_BUFFER_OFFSET else 0) /\
  2 * PER_THREAD_SHM_BUFFER_OFFSET = PER_THREAD_SHM_BUFFER_BYTES.
Proof. apply (layout_sound 4 140737488355328 1 3 5); (lia || reflexivity). Defined.

End ShmLayout.

(** ** Slices, copies and the reduction *)

Module ShmOps.

(** *** [shm_cc_loop] *)

(** The elements of a thread, and those that fit into a half buffer. *)
Definition per_thread_elem_num (size elem_num thread_num : Z) : Z :=
  let total_bytes := elem_num * size in
  let total_units_num := (total_bytes + MIN_THREAD_PROCESS_SIZE - 1) / MIN_THREAD_PROCESS_SIZE in
  let per_thread_units_num := (total_units_num + thread_num - 1) / thread_num in
  let per_unit_elem_num := MIN_THREAD_PROCESS_SIZE / size in
  per_unit_elem_num * per_thread_units_num.
Definition max_per_thread_iteration_elem_num (size : Z) : Z := Z.shiftr PER_THREAD_SHM_BUFFER_BYTES 1 / size.

(** A call of the body: first element, number of elements, mode. *)
Definition slice : Type := Z * Z * bool.

(** The [while] loop of a thread. *)
Fixpoint slices_from (fuel : nat) (mx offset end_ : Z) (fast_mode : bool) : list slice :=
  let curr_elem_num := Z.min mx (end_ - offset) in
  match fuel with
  | O => []
  | S fuel =>
      if 0 <? curr_elem_num then (offset, curr_elem_num, fast_mode) :: slices_from fuel mx (offset + mx) end_ fast_mode
      else []
  end.

(** The body of the parallel loop for thread [i]: the calls it makes. *)
Definition thread_slices (size elem_num thread_num i : Z) : list slice :=
  let per_thread := per_thread_elem_num size elem_num thread_num in
  let mx := max_per_thread_iteration_elem_num size in
  let offset := i * per_thread in
  let end_ := Z.min elem_num (offset + per_thread) in
  let fast_mode := end_ - offset <=? mx in
  slices_from (Z.to_nat (end_ - offset)) mx offset end_ fast_mode.

Definition all_slices (size elem_num thread_num : Z) : list slice :=
  seqZ 0 thread_num ≫= thread_slices size elem_num thread_num.

(** The elements of a slice. *)
Definition covers (x : slice) : list Z := seqZ x.1.1 x.1.2.

Lemma slices_from_cover fuel mx offset end_ fast : 0 < mx -> end_ - offset <= Z.of_nat fuel ->
  slices_from fuel mx offset end_ fast ≫= covers = seqZ offset (end_ - offset).
Proof.
  intros Hmx. revert offset. induction fuel as [|fuel IH]; intros offset Hf; simpl.
  { by rewrite seqZ_nil by lia. }
  destruct (Z.ltb_spec 0 (Z.min mx (end_ - offset))); [|by rewrite seqZ_nil by lia].
  simpl. rewrite IH by lia. unfold covers. simpl.
  destruct (Z.le_ge_cases mx (end_ - offset)).
  - rewrite Z.min_l by done. replace (end_ - offset) with (mx + (end_ - (offset + mx))) by lia.
    rewrite seqZ_app by lia. done.
  - rewrite Z.min_r by done. rewrite (seqZ_nil (offset + mx)) by lia. by rewrite app_nil_r.
Qed.

Lemma slices_from_each fuel mx offset end_ fast x : 0 < mx -> x ∈ slices_from fuel mx offset end_ fast ->
  offset <= x.1.1 /\ (mx | x.1.1 - offset) /\ 0 < x.1.2 <= mx /\ x.1.1 + x.1.2 <= end_ /\ x.2 = fast.
Proof.
  intros Hmx. revert offset. induction fuel as [|fuel IH]; intros offset; simpl; [by intros ?%not_elem_of_nil|].
  destruct (Z.ltb_spec 0 (Z.min mx (end_ - offset))); [|by intros ?%not_elem_of_nil].
  intros [->|Hx]%elem_of_cons; simpl.
  - split_and!; [lia| |lia..|done]. rewrite Z.sub_diag. apply Z.divide_0_r.
  - destruct (IH _ Hx) as (? & Hd & ? & ? & ?). split_and!; [lia| |lia..|done].
    replace (x.1.1 - offset) with ((x.1.1 - (offset + mx)) + mx) by lia. apply Z.divide_add_r; [done|apply Z.divide_refl].
Qed.

(** A thread in the fast mode goes through at most one round. *)
Lemma slices_from_fast fuel mx offset end_ fast : 0 < mx -> end_ - offset <= mx ->
  (length (slices_from fuel mx offset end_ fast) <= 1)%nat.
Proof.
  intros. destruct fuel as [|fuel]; simpl; [lia|].
  destruct (Z.ltb_spec 0 (Z.min mx (end_ - offset))); simpl; [|lia].
  destruct fuel as [|fuel]; simpl; [lia|].
  destruct (Z.ltb_spec 0 (Z.min mx (end_ - (offset + mx)))); simpl; lia.
Qed.

Section sizes.
Context (size elem_num thread_num : Z).
Context (Hsize : 0 < size) (Hdiv : (size | 256)) (Helem : 0 <= elem_num) (Hthreads : 0 < thread_num).

#[local] Abbreviation per_thread := (per_thread_elem_num size elem_num thread_num).
#[local] Abbreviation mx := (max_per_thread_iteration_elem_num size).

Lemma mx_eq : mx * size = 2097152.
Proof using Hsize Hdiv.
  destruct Hdiv as [q Hq]. unfold max_per_thread_iteration_elem_num.
  change (Z.shiftr PER_THREAD_SHM_BUFFER_BYTES 1) with (8192 * 256). rewrite Hq, Z.mul_assoc, Z.div_mul; lia.
Qed.

Lemma mx_pos : 0 < mx.
Proof using Hsize Hdiv. pose proof mx_eq. nia. Qed.

Lemma per_thread_bytes : (256 | per_thread * size) /\ 0 <= per_thread /\ elem_num <= thread_num * per_thread.
Proof using Hsize Hdiv Helem Hthreads.
  unfold per_thread_elem_num, MIN_THREAD_PROCESS_SIZE. destruct Hdiv as [q Hq].
  replace (256 / size) with q by (rewrite Hq; symmetry; apply Z.div_mul; lia).
  set (units := (elem_num * size + 256 - 1) / 256). set (per := (units + thread_num - 1) / thread_num).
  assert (Hu : elem_num * size <= 256 * units).
  { subst units. pose proof (Z.mul_succ_div_gt (elem_num * size + 256 - 1) 256 ltac:(lia)). lia. }
  assert (Hp : units <= thread_num * per).
  { subst per. pose proof (Z.mul_succ_div_gt (units + thread_num - 1) thread_num ltac:(lia)). lia. }
  assert (0 <= units) by (subst units; apply Z.div_pos; nia).
  assert (0 <= per) by (subst per; apply Z.div_pos; lia).
  split_and!; [exists per; nia|nia|]. apply (Z.mul_le_mono_pos_r _ _ size); nia.
Qed.

(** The slices of the first [m] threads cover a prefix. *)
Lemma prefix_cover (m : nat) :
  (seqZ 0 (Z.of_nat m) ≫= thread_slices size elem_num thread_num) ≫= covers
  = seqZ 0 (Z.min elem_num (Z.of_nat m * per_thread)).
Proof using Hsize Hdiv Helem Hthreads.
  pose proof per_thread_bytes as (_ & Hp & _). pose proof mx_pos.
  induction m as [|m IH]; [by rewrite !seqZ_nil by lia|].
  rewrite seqZ_S, bind_app, bind_app, IH by lia. cbn [mbind list_bind]. rewrite app_nil_r.
  unfold thread_slices at 1. rewrite slices_from_cover by (done || lia).
  rewrite !Z.add_0_l. destruct (Z.le_ge_cases elem_num (Z.of_nat m * per_thread)).
  - rewrite (seqZ_nil (Z.of_nat m * per_thread)), app_nil_r by lia. f_equal. nia.
  - rewrite (Z.min_r elem_num (Z.of_nat m * per_thread)) by lia.
    rewrite <- (Z.add_0_l (Z.of_nat m * per_thread)) at 2. rewrite <- seqZ_app by nia. f_equal. nia.
Qed.

Lemma all_slices_cover : all_slices size elem_num thread_num ≫= covers = seqZ 0 elem_num.
Proof using Hsize Hdiv Helem Hthreads.
  unfold all_slices. pose proof (prefix_cover (Z.to_nat thread_num)) as E. rewrite Z2Nat.id in E by lia.
  pose proof per_thread_bytes as (_ & _ & Hp). rewrite E. f_equal. lia.
Qed.

Lemma all_slices_each x : x ∈ all_slices size elem_num thread_num ->
  0 <= x.1.1 /\ x.1.1 + x.1.2 <= elem_num /\ 0 < x.1.2 * size <= PER_THREAD_SHM_BUFFER_OFFSET /\
  (MIN_THREAD_PROCESS_SIZE | x.1.1 * size).
Proof using Hsize Hdiv Helem Hthreads.
  pose proof per_thread_bytes as (Hb & Hp & _). pose proof mx_pos. pose proof mx_eq as Hm.
  intros (i & Hx & Hi%elem_of_seqZ)%list_elem_of_bind. unfold thread_slices in Hx.
  apply slices_from_each in Hx as (H1 & [c Hc] & H3 & H4 & _); [|done].
  change PER_THREAD_SHM_BUFFER_OFFSET with 2097152. split_and!; [nia|lia|nia|nia|].
  replace (x.1.1 * size) with (i * (per_thread * size) + c * (mx * size)) by nia.
  apply Z.divide_add_r; apply Z.divide_mul_r; [done|]. rewrite Hm. by exists 8192.
Qed.

End sizes.

(** [shm_cc_loop] divides a tensor without gaps or overlaps, whatever the number of
    threads: the slices of the threads, in order, are the elements one after the
    other; every slice is non-empty, fits into a half buffer and starts at a multiple of
    256 bytes; and a thread is in the fast mode only if it has at most one slice. *)
Theorem slices_partition size elem_num thread_num :
  0 < size -> (size | 256) -> 0 <= elem_num -> 0 < thread_num ->
  all_slices size elem_num thread_num ≫= covers = seqZ 0 elem_num /\
  (forall x, x ∈ all_slices size elem_num thread_num ->
    0 <= x.1.1 /\ x.1.1 + x.1.2 <= elem_num /\ 0 < x.1.2 * size <= PER_THREAD_SHM_BUFFER_OFFSET /\
    (MIN_THREAD_PROCESS_SIZE | x.1.1 * size)) /\
  forall i x, x ∈ thread_slices size elem_num thread_num i -> x.2 = true ->
    (length (thread_slices size elem_num thread_num i) <= 1)%nat.
Proof.
  intros H1 H2 H3 H4. split; [by apply all_slices_cover|]. split; [intros x; by apply all_slices_each|].
  intros i x. unfold thread_slices. pose proof (mx_pos size H1 H2). intros (_ & _ & _ & _ & Hf)%slices_from_each Ht; [|done].
  apply slices_from_fast; [done|]. rewrite Ht in Hf. by apply Z.leb_le.
Qed.

Lemma slices_partition_witness :
  all_slices 4 1000000 2 ≫= covers = seqZ 0 1000000 /\
  (forall x, x ∈ all_slices 4 1000000 2 ->
    0 <= x.1.1 /\ x.1.1 + x.1.2 <= 1000000 /\ 0 < x.1.2 * 4 <= PER_THREAD_SHM_BUFFER_OFFSET /\
    (MIN_THREAD_PROCESS_SIZE | x.1.1 * 4)) /\
  forall i x, x ∈ thread_slices 4 1000000 2 i -> x.2 = true -> (length (thread_slices 4 1000000 2 i) <= 1)%nat.
Proof. apply (slices_partition 4 1000000 2); [lia|by exists 64|lia|lia]. Defined.

(** *** The copies, 64 bytes at a time *)

(** The loop over whole vectors, [INT8Vec64] loaded and stored. *)
Definition copy_vectors (dst : list Z) (doff : Z) (src : list Z) (soff n : Z) : option (list Z) :=
  for_range 0 n (λ u d, v ← rd_range src (soff + 64 * u) 64; wr_range d (doff + 64 * u) v) dst.

(** [memcpy], [memcpy_from_shm] (which differ in caching only): the tail is loaded
    as a whole vector and stored through a mask. *)
Definition shm_memcpy (dst : list Z) (doff : Z) (src : list Z) (soff bytes : Z) : option (list Z) :=
  let aligned_bytes := Z.shiftl (Z.shiftr bytes 6) 6 in
  d ← copy_vectors dst doff src soff (Z.shiftr bytes 6);
  if aligned_bytes <? bytes then
    v ← rd_range src (soff + aligned_bytes) 64;
    wr_range d (doff + aligned_bytes) (take (Z.to_nat (bytes - aligned_bytes)) v)
  else Some d.
Definition memcpy_from_shm := shm_memcpy.

(** [memcpy_to_shm]: the tail is loaded and stored as a whole vector. *)
Definition memcpy_to_shm (dst : list Z) (doff : Z) (src : list Z) (soff bytes : Z) : option (list Z) :=
  copy_vectors dst doff src soff ((bytes + 63) / 64).

Lemma copy_vectors_spec dst doff src soff n : 0 <= doff -> 0 <= soff -> 0 <= n ->
  soff + 64 * n <= Z.of_nat (length src) -> doff + 64 * n <= Z.of_nat (length dst) ->
  copy_vectors dst doff src soff n = memcpy_range dst doff src soff (64 * n).
Proof.
  intros Hd Hs Hn. rewrite <- (Z2Nat.id n) by done. generalize (Z.to_nat n) as m. clear n Hn.
  unfold copy_vectors, for_range. induction m as [|m IH]; intros Hsl Hdl.
  - rewrite seqZ_nil by lia. simpl. symmetry. apply memcpy_range_nil; lia.
  - rewrite Z.sub_0_r, seqZ_S, for_each_app. rewrite Z.sub_0_r in IH. rewrite IH by lia.
    replace (64 * Z.of_nat (S m)) with (64 * Z.of_nat m + 64) by lia.
    rewrite <- memcpy_range_app by lia. destruct (memcpy_range dst _ _ _ _); [|done]. cbn [mbind option_bind for_each].
    unfold memcpy_range. rewrite !Z.add_0_l. destruct (rd_range src _ _); [|done]. simpl. by destruct (wr_range _ _ _).
Qed.

Lemma take_rd_range {A} (a : list A) off n m : 0 <= n <= m -> rd_range a off m ≫= (λ v, Some (take (Z.to_nat n) v))
  = (_ ← rd_range a off m; rd_range a off n).
Proof.
  intros. unfold rd_range. destruct ((0 <=? off) && (0 <=? m) && (off + m <=? Z.of_nat (length a))) eqn:E; [|done].
  rewrite !andb_true_iff, !Z.leb_le in E. simpl. rewrite !(proj2 (Z.leb_le _ _)) by lia. simpl.
  rewrite take_take. do 2 f_equal. lia.
Qed.

(** The bytes a copy touches beyond its length. *)
Definition round_up (bytes : Z) : Z := (bytes + 63) / 64 * 64.

Lemma aligned_eq bytes : Z.shiftl (Z.shiftr bytes 6) 6 = 64 * (bytes / 64) /\ Z.shiftr bytes 6 = bytes / 64.
Proof. rewrite Z.shiftl_mul_pow2, Z.shiftr_div_pow2 by lia. change (2 ^ 6) with 64. lia. Qed.

Lemma round_up_eq bytes : 0 <= bytes ->
  bytes <= round_up bytes < bytes + 64 /\ (bytes mod 64 <> 0 -> round_up bytes = 64 * (bytes / 64) + 64).
Proof.
  intros. unfold round_up. pose proof (Z.div_mod bytes 64 ltac:(lia)). pose proof (Z.mod_pos_bound bytes 64 ltac:(lia)).
  pose proof (Z.div_mod (bytes + 63) 64 ltac:(lia)). pose proof (Z.mod_pos_bound (bytes + 63) 64 ltac:(lia)). lia.
Qed.

Lemma shm_memcpy_ok dst doff src soff bytes : 0 <= doff -> 0 <= soff -> 0 <= bytes ->
  soff + round_up bytes <= Z.of_nat (length src) -> doff + bytes <= Z.of_nat (length dst) ->
  shm_memcpy dst doff src soff bytes = memcpy_range dst doff src soff bytes.
Proof.
  intros Hd Hs Hb Hsl Hdl. unfold shm_memcpy. destruct (aligned_eq bytes) as [-> ->].
  pose proof (Z.div_mod bytes 64 ltac:(lia)) as Hm. pose proof (Z.mod_pos_bound bytes 64 ltac:(lia)).
  pose proof (Z.div_pos bytes 64 ltac:(lia) ltac:(lia)). pose proof (round_up_eq bytes Hb) as [Hr Hr'].
  rewrite copy_vectors_spec by lia. destruct (Z.ltb_spec (64 * (bytes / 64)) bytes).
  - replace (memcpy_range dst doff src soff bytes)
      with (memcpy_range dst doff src soff (64 * (bytes / 64) + bytes mod 64)) by (f_equal; lia).
    rewrite <- memcpy_range_app by lia.
    destruct (memcpy_range dst _ _ _ _) as [d|]; [|done]. cbn [mbind option_bind].
    unfold memcpy_range. replace (bytes - 64 * (bytes / 64)) with (bytes mod 64) by lia.
    pose proof (take_rd_range src (soff + 64 * (bytes / 64)) (bytes mod 64) 64 ltac:(lia)) as E.
    destruct (rd_range_ok src (soff + 64 * (bytes / 64)) 64) as (v & Ev & _); [lia..|].
    rewrite Ev in *. cbn [mbind option_bind] in *. by rewrite <- E.
  - replace (64 * (bytes / 64)) with bytes by lia. by destruct (memcpy_range dst _ _ _ _).
Qed.

(** The vectorised copies: with enough room behind the source, [memcpy] and
    [memcpy_from_shm] copy exactly the requested bytes and touch nothing else of the
    destination, and [memcpy_to_shm] copies up to the next multiple of 64. *)
Theorem memcpy_exact dst doff src soff bytes : 0 <= doff -> 0 <= soff -> 0 <= bytes ->
  soff + round_up bytes <= Z.of_nat (length src) ->
  (doff + bytes <= Z.of_nat (length dst) ->
    shm_memcpy dst doff src soff bytes = memcpy_range dst doff src soff bytes) /\
  (doff + round_up bytes <= Z.of_nat (length dst) ->
    memcpy_to_shm dst doff src soff bytes = memcpy_range dst doff src soff (round_up bytes)).
Proof.
  intros Hd Hs Hb Hsl. split; [by apply shm_memcpy_ok|]. intros Hdl. unfold memcpy_to_shm.
  pose proof (Z.div_pos (bytes + 63) 64 ltac:(lia) ltac:(lia)). unfold round_up in *.
  rewrite copy_vectors_spec by lia. f_equal. lia.
Qed.

Lemma memcpy_exact_witness :
  (0 + 70 <= Z.of_nat (length (replicate 70 0)) ->
    shm_memcpy (replicate 70 0) 0 (seqZ 0 128) 0 70 = memcpy_range (replicate 70 0) 0 (seqZ 0 128) 0 70) /\
  (0 + round_up 70 <= Z.of_nat (length (replicate 70 0)) ->
    memcpy_to_shm (replicate 70 0) 0 (seqZ 0 128) 0 70 = memcpy_range (replicate 70 0) 0 (seqZ 0 128) 0 (round_up 70)).
Proof. apply (memcpy_exact (replicate 70 0) 0 (seqZ 0 128) 0 70); [lia..|reflexivity || (vm_compute; discriminate)]. Defined.

Lemma shm_memcpy_tail dst doff src soff bytes d : 0 <= bytes -> bytes mod 64 <> 0 ->
  shm_memcpy dst doff src soff bytes = Some d -> soff + round_up bytes <= Z.of_nat (length src).
Proof.
  intros Hb Hm. unfold shm_memcpy. destruct (aligned_eq bytes) as [-> ->].
  pose proof (Z.div_mod bytes 64 ltac:(lia)). pose proof (Z.mod_pos_bound bytes 64 ltac:(lia)).
  destruct (copy_vectors _ _ _ _ _) as [d'|]; [|done]. cbn [mbind option_bind].
  destruct (Z.ltb_spec (64 * (bytes / 64)) bytes); [|lia].
  unfold rd_range. destruct (_ && _) eqn:E; [|done]. intros _. rewrite !andb_true_iff, !Z.leb_le in E.
  pose proof (round_up_eq bytes Hb) as [_ Hr]. lia.
Qed.

(** The tail of a copy reads out of bounds: a source that ends with the bytes to
    copy is read up to 63 bytes past its end when their number is not a multiple of
    64, so the copy is not defined. *)
Theorem memcpy_overreads dst doff src soff bytes : 0 <= bytes -> bytes mod 64 <> 0 ->
  Z.of_nat (length src) = soff + bytes -> shm_memcpy dst doff src soff bytes = None.
Proof.
  intros Hb Hm Hl. destruct (shm_memcpy dst doff src soff bytes) as [d|] eqn:E; [|done].
  apply shm_memcpy_tail in E; [|done|done]. pose proof (round_up_eq bytes Hb) as [_ Hr].
  specialize (Hr Hm). pose proof (Z.div_mod bytes 64 ltac:(lia)). pose proof (Z.mod_pos_bound bytes 64 ltac:(lia)). lia.
Qed.

Lemma memcpy_overreads_witness : shm_memcpy (replicate 100 0) 0 (seqZ 0 100) 0 100 = None.
Proof. apply (memcpy_overreads (replicate 100 0) 0 (seqZ 0 100) 0 100); [lia|discriminate|reflexivity]. Defined.

(** *** The copies on elements

    The same copies between buffers of elements of [size] bytes: a vector holds
    [64 / size] of them. *)
Section elem_copies.
Context {A : Type} (size : Z).

Definition vec_elems : Z := 64 / size.

Definition elem_copy_vectors (dst : list A) (doff : Z) (src : list A) (soff n : Z) : option (list A) :=
  for_range 0 n (λ u d, v ← rd_range src (soff + vec_elems * u) vec_elems; wr_range d (doff + vec_elems * u) v) dst.

Definition elem_memcpy (dst : list A) (doff : Z) (src : list A) (soff n : Z) : option (list A) :=
  let whole := Z.shiftr (n * size) 6 in
  d ← elem_copy_vectors dst doff src soff whole;
  if vec_elems * whole <? n then
    v ← rd_range src (soff + vec_elems * whole) vec_elems;
    wr_range d (doff + vec_elems * whole) (take (Z.to_nat (n - vec_elems * whole)) v)
  else Some d.

Definition elem_memcpy_to_shm (dst : list A) (doff : Z) (src : list A) (soff n : Z) : option (list A) :=
  elem_copy_vectors dst doff src soff ((n * size + 63) / 64).

Context (Hsize : 0 < size) (Hdiv : (size | 64)).

Lemma vec_elems_eq : size * vec_elems = 64 /\ 0 < vec_elems.
Proof using Hsize Hdiv.
  destruct Hdiv as [c Hc]. unfold vec_elems. assert (64 / size = c) as -> by (rewrite Hc; apply Z.div_mul; lia). nia.
Qed.

Lemma elem_copy_vectors_spec dst doff src soff n : 0 <= doff -> 0 <= soff -> 0 <= n ->
  soff + vec_elems * n <= Z.of_nat (length src) -> doff + vec_elems * n <= Z.of_nat (length dst) ->
  elem_copy_vectors dst doff src soff n = memcpy_range dst doff src soff (vec_elems * n).
Proof using Hsize Hdiv.
  destruct vec_elems_eq as [_ Hw]. unfold elem_copy_vectors. generalize dependent vec_elems. intros w Hw.
  intros Hd Hs Hn. rewrite <- (Z2Nat.id n) by done. generalize (Z.to_nat n) as m. clear n Hn.
  unfold for_range. induction m as [|m IH]; intros Hsl Hdl.
  - rewrite seqZ_nil, Z.mul_0_r by lia. simpl. symmetry. apply memcpy_range_nil; lia.
  - rewrite Z.sub_0_r, seqZ_S, for_each_app. rewrite Z.sub_0_r in IH. rewrite IH by nia.
    replace (w * Z.of_nat (S m)) with (w * Z.of_nat m + w) by lia.
    rewrite <- memcpy_range_app by nia. destruct (memcpy_range dst _ _ _ _); [|done]. cbn [mbind option_bind for_each].
    unfold memcpy_range. rewrite !Z.add_0_l. destruct (rd_range src _ _); [|done]. simpl. by destruct (wr_range _ _ _).
Qed.

(** Whole vectors of a vector-aligned area stay inside it. *)
Lemma vec_fits n m L : (vec_elems | L) -> n <= L -> vec_elems * m < n + vec_elems -> vec_elems * m <= L.
Proof using Hsize Hdiv. destruct vec_elems_eq as [_ Hw]. intros [c ->] ? ?. assert (m <= c) by nia. nia. Qed.

(** With a source of [L] elements, whole vectors, a masked copy is exact ... *)
Lemma elem_memcpy_ok dst doff src soff n L : 0 <= doff -> 0 <= soff -> 0 <= n <= L -> (vec_elems | L) ->
  soff + L <= Z.of_nat (length src) -> doff + n <= Z.of_nat (length dst) ->
  elem_memcpy dst doff src soff n = memcpy_range dst doff src soff n.
Proof using Hsize Hdiv.
  intros Hd Hs Hn HL Hsl Hdl. unfold elem_memcpy. destruct vec_elems_eq as [Hw Hw0]. rewrite Z.shiftr_div_pow2 by lia. change (2 ^ 6) with 64.
  set (m := n * size / 64). assert (0 <= vec_elems * m <= n /\ n < vec_elems * m + vec_elems) as [Hm Hm'].
  { pose proof (Z.div_mod (n * size) 64 ltac:(lia)). pose proof (Z.mod_pos_bound (n * size) 64 ltac:(lia)). fold m in H.
    assert (0 <= m) by (apply Z.div_pos; nia). assert (size * (vec_elems * m) <= size * n) by nia. assert (size * n < size * (vec_elems * m + vec_elems)) by nia. nia. }
  assert (0 <= m) by (apply Z.div_pos; nia). pose proof (vec_fits n m L HL ltac:(lia) ltac:(lia)).
  rewrite elem_copy_vectors_spec by lia. pose proof (vec_fits n (m + 1) L HL ltac:(lia)). set (w := vec_elems) in *. destruct (Z.ltb_spec (w * m) n).
  - replace (memcpy_range dst doff src soff n) with (memcpy_range dst doff src soff (w * m + (n - w * m))) by (f_equal; lia).
    rewrite <- memcpy_range_app by lia. destruct (memcpy_range dst _ _ _ _) as [d|]; [|done]. cbn [mbind option_bind].
    unfold memcpy_range. pose proof (take_rd_range src (soff + w * m) (n - w * m) w ltac:(lia)) as E.
    destruct (rd_range_ok src (soff + w * m) w) as (v & Ev & _); [lia..|].
    rewrite Ev in *. cbn [mbind option_bind] in *. by rewrite <- E.
  - replace (w * m) with n by lia. by destruct (memcpy_range dst _ _ _ _).
Qed.

(** ... and a copy to the shared buffer writes whole vectors. *)
Lemma elem_to_shm_ok dst src soff n L : 0 <= soff -> 0 <= n <= L -> (vec_elems | L) ->
  soff + n + vec_elems <= Z.of_nat (length src) + 1 -> L <= Z.of_nat (length dst) ->
  exists m, n <= m <= L /\ m < n + vec_elems /\ elem_memcpy_to_shm dst 0 src soff n = memcpy_range dst 0 src soff m.
Proof using Hsize Hdiv.
  intros Hs Hn HL Hsl Hdl. destruct vec_elems_eq as [Hw Hw0]. unfold elem_memcpy_to_shm. set (m := (n * size + 63) / 64).
  pose proof (Z.div_mod (n * size + 63) 64 ltac:(lia)) as Ed. pose proof (Z.mod_pos_bound (n * size + 63) 64 ltac:(lia)). fold m in Ed.
  assert (0 <= m) by (apply Z.div_pos; nia). assert (n <= vec_elems * m /\ vec_elems * m < n + vec_elems) as [? ?].
  { assert (size * n <= size * (vec_elems * m)) by nia. assert (size * (vec_elems * m) < size * (n + vec_elems)) by nia. nia. }
  pose proof (vec_fits n m L HL ltac:(lia) ltac:(lia)). exists (vec_elems * m). split_and!; [lia|lia|lia|]. rewrite elem_copy_vectors_spec by lia. done.
Qed.

End elem_copies.

End ShmOps.

(** ** All-reduce and gather *)

Module ShmReduce.
Import Shm ShmOps.

Section elements.
Context {A F : Type} `{HA : Inhabited A} (widen : A -> F) (add : F -> F -> F) (narrow : F -> A).

(** What the protocol hands over in a round: each peer's slice twice, at the
    beginning and at the end of the copy; the slices, if all were intact. *)
Fixpoint peers_read (res : list (option (list A))) : option (list (list A)) :=
  match res with
  | [] => Some []
  | Some _ :: Some v :: rest => vs ← peers_read rest; Some (v :: vs)
  | _ => None
  end.

(** The sum of one element over the ranks, in single precision, rounded once; a vector of
    16 of them, [vec_t]. *)
Definition reduce_elem (x : A) (ys : list A) : A := narrow (foldl (λ acc y, add acc (widen y)) (widen x) ys).
Definition reduce_lanes (local : list A) (remotes : list (list A)) : list A :=
  imap (λ e x, reduce_elem x ((λ ys, ys !!! e) <$> remotes)) local.
Definition vec_elem_num : Z := 16.

(** The vector at element [i] of the slice at [off]: whole vectors are loaded from the
    tensor and from the peers' buffers, and the first [keep] elements are stored. *)
Definition reduce_vector (off i keep : Z) (remotes : list (list A)) (data : list A) : option (list A) :=
  local ← rd_range data (off + i) vec_elem_num;
  rs ← mapM (λ shm, rd_range shm i vec_elem_num) remotes;
  wr_range data (off + i) (take (Z.to_nat keep) (reduce_lanes local rs)).

(** A round of a rank: its slice reduced with the buffers it read. *)
Definition all_reduce_round (x : slice) (res : list (option (list A))) (data : list A) : option (list A) :=
  remotes ← peers_read res;
  let aligned_data_elem_num := x.1.2 / vec_elem_num * vec_elem_num in
  data ← for_range 0 (x.1.2 / vec_elem_num) (λ u, reduce_vector x.1.1 (u * vec_elem_num) vec_elem_num remotes) data;
  if aligned_data_elem_num <? x.1.2
  then reduce_vector x.1.1 aligned_data_elem_num (x.1.2 - aligned_data_elem_num) remotes data
  else Some data.

(** A round of the destination of [shm_gather_impl]: its own slice and the peers' buffers to
    the outputs of the ranks. *)
Definition gather_round (g : nat) (size : Z) (rank : nat) (x : slice) (res : list (option (list A))) (data : list A)
    (outputs : list (list A)) : option (list (list A)) :=
  remotes ← peers_read res;
  out ← outputs !! rank;
  out' ← elem_memcpy size out x.1.1 data x.1.1 x.1.2;
  for_range 1 (Z.of_nat g) (λ i outs,
    let src_rank := swizzled_rank g rank (Z.to_nat i) in
    shm ← remotes !! Z.to_nat (i - 1);
    out ← outs !! src_rank;
    out' ← elem_memcpy size out x.1.1 shm 0 x.1.2;
    Some (<[src_rank := out']> outs)) (<[rank := out']> outputs).

(** All slices of all threads, with what was read for each. *)
Fixpoint rounds {S} (body : slice -> list (option (list A)) -> S -> option S) (l : list (slice * list (option (list A))))
    (st : S) : option S :=
  match l with
  | [] => Some st
  | (x, res) :: l => st ← body x res st; rounds body l st
  end.

(** [shm_allreduce_sum]: only some numbers of ranks are compiled. *)
Definition shm_allreduce_sum (group_size : nat) (l : list (slice * list (option (list A)))) (data : list A)
    : option (outcome (list A)) :=
  match group_size with
  | 2 | 3 | 4 | 8 => data ← rounds all_reduce_round l data; Some (Ok data)
  | _ => Some (Throw ("Invalid world size: " +:+ pretty group_size))
  end%nat.

(** The half buffer of a rank after the staging of slice [k] of a thread: [put] copies the
    slice over what the buffer held. *)
Definition staged (put : list A -> list A -> Z -> Z -> option (list A)) (buffer : nat -> list A) (mem : list A)
    (sl : list slice) (k : nat) : list A :=
  match sl !! k with Some x => default [] (put (buffer k) mem x.1.1 x.1.2) | None => [] end.
Definition put_reduce (size : Z) (buffer mem : list A) (off n : Z) : option (list A) := elem_memcpy_to_shm size buffer 0 mem off n.
Definition put_gather (size : Z) (buffer mem : list A) (off n : Z) : option (list A) := elem_memcpy size buffer 0 mem off n.

(** *** Rounds over contiguous slices *)

Fixpoint contiguous (a : Z) (xs : list slice) (b : Z) : Prop :=
  match xs with
  | [] => a = b
  | x :: xs => x.1.1 = a /\ 0 < x.1.2 /\ contiguous (a + x.1.2) xs b
  end.

Lemma contiguous_cover xs a m : 0 <= m -> (forall x, x ∈ xs -> 0 < x.1.2) -> xs ≫= covers = seqZ a m ->
  contiguous a xs (a + m).
Proof using Type.
  revert a m. induction xs as [|x xs IH]; intros a m Hm Hp E; simpl in *.
  { destruct (decide (m = 0)); [lia|]. by rewrite seqZ_cons in E by lia. }
  assert (Hx : 0 < x.1.2) by (apply Hp; constructor).
  assert (Hl : x.1.2 <= m).
  { apply (f_equal length) in E. rewrite length_app in E. unfold covers in E at 1. rewrite !length_seqZ in E. lia. }
  replace m with (x.1.2 + (m - x.1.2)) in E by lia. rewrite (seqZ_app a) in E by lia.
  apply app_inj_1 in E as [E1 E2]; [|unfold covers; by rewrite !length_seqZ].
  assert (x.1.1 = a) as Ha by (unfold covers in E1; rewrite (seqZ_cons x.1.1), (seqZ_cons a) in E1 by lia; by injection E1).
  split_and!; [done|done|]. replace (a + m) with (a + x.1.2 + (m - x.1.2)) by lia. apply IH; [lia| |done].
  intros y Hy. apply Hp. by constructor.
Qed.

Lemma contiguous_le xs a b : contiguous a xs b -> a <= b.
Proof using Type. revert a. induction xs as [|x xs IH]; intros a; simpl; [lia|]. intros (_ & ? & H1%IH). lia. Qed.

Lemma rounds_inv {S} (I : Z -> S -> Prop) body l a b st : contiguous a l.*1 b -> I a st ->
  (forall x res st, (x, res) ∈ l -> a <= x.1.1 -> 0 < x.1.2 -> x.1.1 + x.1.2 <= b -> I x.1.1 st ->
     exists st', body x res st = Some st' /\ I (x.1.1 + x.1.2) st') ->
  exists st', rounds body l st = Some st' /\ I b st'.
Proof using Type.
  revert a st. induction l as [|[x res] l IH]; intros a st; simpl; [intros -> ? _; eauto|].
  intros (Ha & Hp & Hc) Hi Hb. pose proof (contiguous_le _ _ _ Hc).
  destruct (Hb x res st) as (st1 & -> & Hi1); [by constructor|lia|lia|lia|by rewrite Ha|]. simpl.
  eapply IH; [exact Hc|by rewrite <- Ha|]. intros y res' st' Hy Hay. apply Hb; [by constructor|lia].
Qed.

(** An array of which the first [a] elements have got their new values. *)
Definition partly (arr : list A) (f : nat -> A) (a : Z) : list A := (f <$> seq 0 (Z.to_nat a)) ++ drop (Z.to_nat a) arr.

Lemma partly_read arr f a n : 0 <= a -> 0 <= n -> a + n <= Z.of_nat (length arr) ->
  rd_range (partly arr f a) a n = Some (take (Z.to_nat n) (drop (Z.to_nat a) arr)).
Proof using Type.
  intros. unfold partly. rewrite rd_range_is; [|done|done|rewrite length_app, length_fmap, length_seq, length_drop; lia].
  by rewrite drop_app_length' by by rewrite length_fmap, length_seq.
Qed.

Lemma partly_write arr f a n v : 0 <= a -> 0 <= n -> a + n <= Z.of_nat (length arr) ->
  v = f <$> seq (Z.to_nat a) (Z.to_nat n) -> wr_range (partly arr f a) a v = Some (partly arr f (a + n)).
Proof using Type.
  intros Ha Hn Hl ->. unfold partly.
  rewrite wr_range_is; rewrite ?length_app, ?length_fmap, ?length_seq, ?length_drop; [|lia..].
  rewrite take_app_length' by by rewrite length_fmap, length_seq.
  rewrite drop_app_ge by (rewrite length_fmap, length_seq; lia). rewrite length_fmap, length_seq.
  replace (Z.to_nat a + Z.to_nat n - Z.to_nat a)%nat with (Z.to_nat n) by lia.
  rewrite drop_drop, Z2Nat.inj_add, seq_app, fmap_app, <- app_assoc by lia. done.
Qed.

Lemma partly_all arr f : partly arr f (Z.of_nat (length arr)) = f <$> seq 0 (length arr).
Proof using Type. unfold partly. rewrite Nat2Z.id, drop_all. apply app_nil_r. Qed.

Lemma slice_lookup (arr : list A) a n e : (e < n)%nat -> take n (drop a arr) !!! e = arr !!! (a + e)%nat.
Proof using Type. intros. by rewrite lookup_total_take_lt, lookup_total_drop by lia. Qed.

Lemma slice_fmap (arr : list A) a n : (a + n <= length arr)%nat ->
  take n (drop a arr) = (λ e, arr !!! e) <$> seq a n.
Proof using Type.
  intros Hl. apply list_eq_same_length with n; [by rewrite length_fmap, length_seq|rewrite length_take, length_drop; lia|].
  intros i x y Hi. rewrite list_lookup_fmap, lookup_seq_lt by done. simpl. intros Hx [= <-].
  rewrite lookup_take_lt, lookup_drop in Hx by done. symmetry. by apply list_lookup_total_correct.
Qed.

(** *** A call of a collective *)

(** A staging copy leaves the slice at the start of the buffer. *)
Definition puts (size : Z) (put : list A -> list A -> Z -> Z -> option (list A)) : Prop :=
  forall buf src off n, Z.of_nat (length buf) = max_per_thread_iteration_elem_num size -> 0 <= off ->
    0 <= n <= max_per_thread_iteration_elem_num size -> off + n + vec_elems size <= Z.of_nat (length src) + 1 ->
    exists b, put buf src off n = Some b /\ length b = length buf /\
      take (Z.to_nat n) b = take (Z.to_nat n) (drop (Z.to_nat off) src).

Lemma half_buffer size : 0 < size -> (size | 64) ->
  (vec_elems size | max_per_thread_iteration_elem_num size) /\ (16 | max_per_thread_iteration_elem_num size).
Proof using Type.
  intros Hs Hd. destruct (vec_elems_eq size Hs Hd) as [Hw Hw0].
  assert (max_per_thread_iteration_elem_num size = vec_elems size * 32768) as ->.
  { unfold max_per_thread_iteration_elem_num. change (Z.shiftr PER_THREAD_SHM_BUFFER_BYTES 1) with (64 * 32768). rewrite <- Hw.
    replace (size * vec_elems size * 32768) with (vec_elems size * 32768 * size) by lia. apply Z.div_mul. lia. }
  split; [apply Z.divide_factor_l|]. exists (vec_elems size * 2048). lia.
Qed.

(** A copy of [m] elements, of which the first [n] count. *)
Lemma copied_prefix (buf src : list A) off n m : 0 <= off -> 0 <= n <= m -> off + m <= Z.of_nat (length src) -> m <= Z.of_nat (length buf) ->
  exists b, memcpy_range buf 0 src off m = Some b /\ length b = length buf /\ take (Z.to_nat n) b = take (Z.to_nat n) (drop (Z.to_nat off) src).
Proof using Type.
  intros Ho Hn Hs Hb. unfold memcpy_range. rewrite rd_range_is by lia. cbn [mbind option_bind].
  assert (length (take (Z.to_nat m) (drop (Z.to_nat off) src)) = Z.to_nat m) as Lv by (rewrite length_take, length_drop; lia).
  rewrite wr_range_is by lia. eexists. split; [done|]. rewrite take_0, app_nil_l, Nat.add_0_l, Lv. split.
  - rewrite length_app, length_drop. lia.
  - rewrite take_app_le by lia. rewrite take_take. f_equal. lia.
Qed.

Lemma put_reduce_ok size : 0 < size -> (size | 64) -> puts size (put_reduce size).
Proof using Type.
  intros Hs Hd buf src off n Lb Ho Hn Hsrc. destruct (half_buffer size Hs Hd) as [HL _].
  destruct (elem_to_shm_ok size Hs Hd buf src off n _ Ho Hn HL Hsrc ltac:(lia)) as (m & Hm & Hm' & E). unfold put_reduce. rewrite E. apply copied_prefix; lia.
Qed.

(** Whole vectors over [n] elements. *)
Lemma vec_cover size n : 0 < size -> (size | 64) -> 0 <= n -> exists L, (vec_elems size | L) /\ n <= L < n + vec_elems size.
Proof using Type.
  intros Hs Hd Hn. destruct (vec_elems_eq size Hs Hd) as [_ Hw]. set (w := vec_elems size) in *. exists ((n + w - 1) / w * w). split; [apply Z.divide_factor_r|].
  pose proof (Z.div_mod (n + w - 1) w ltac:(lia)). pose proof (Z.mod_pos_bound (n + w - 1) w ltac:(lia)). lia.
Qed.

Lemma put_gather_ok size : 0 < size -> (size | 64) -> puts size (put_gather size).
Proof using Type.
  intros Hs Hd buf src off n Lb Ho Hn Hsrc. destruct (vec_cover size n Hs Hd ltac:(lia)) as (L & HL & HL'). unfold put_gather.
  rewrite (elem_memcpy_ok size Hs Hd _ _ _ _ _ L) by (lia || done). apply copied_prefix; lia.
Qed.

Section call.
Context (g : nat) (size N T : Z) (mem : nat -> list A) (buffer : Z -> nat -> nat -> list A).
Context (put : list A -> list A -> Z -> Z -> option (list A)).
Context (Hsize : 0 < size) (Hdiv : (size | 64)) (HT : 0 < T) (HN : 0 <= N).

#[local] Abbreviation peer := (swizzled_rank g).
#[local] Abbreviation slices_of := (thread_slices size N T).
#[local] Abbreviation half := (max_per_thread_iteration_elem_num size).

(** The memory of every rank has the [N] elements of its tensor and room for the whole
    vectors that are loaded at its end; the half buffers have their size. *)
Context (Hmem : forall i, (i < g)%nat -> N + Z.max vec_elem_num (vec_elems size) <= Z.of_nat (length (mem i)) + 1).
Context (Hbuf : forall t i k, Z.of_nat (length (buffer t i k)) = half).
Context (Hput : puts size put).

(** What the threads of a rank stage in the rounds of this call, after the
    rounds of earlier calls. *)
Definition call_data (before : nat) (past : nat -> nat -> list A) (t : Z) (i k : nat) : list A :=
  after before past (λ i k, staged put (buffer t i) (mem i) (slices_of t) k) i k.

(** What rank [i] is to read in the rounds of thread [t]. *)
Definition call_reads (t : Z) (i : nat) : list (list (option (list A))) :=
  (λ k, copies g (λ j k, staged put (buffer t j) (mem j) (slices_of t) k) i k (pred g)) <$> seq 0 (length (slices_of t)).

Definition call_rounds (i : nat) : list (slice * list (option (list A))) :=
  seqZ 0 T ≫= λ t, zip (slices_of t) (call_reads t i).

Lemma call_rounds_fst i : (call_rounds i).*1 = all_slices size N T.
Proof using Type.
  unfold call_rounds, all_slices. induction (seqZ 0 T) as [|t l IH]; [done|]. cbn [mbind list_bind].
  rewrite fmap_app. f_equal; [|exact IH]. apply fst_zip. unfold call_reads. by rewrite length_fmap, length_seq.
Qed.

Lemma peers_read_copies (d : nat -> nat -> list A) i k c :
  peers_read (copies g d i k c) = Some ((λ idx, d (peer i idx) k) <$> seq 1 c).
Proof using Type.
  unfold copies. generalize 1%nat. induction c as [|c IH]; intros m; simpl; [done|]. by rewrite IH.
Qed.

Lemma slice_half x : x ∈ all_slices size N T -> 0 <= x.1.1 /\ x.1.1 + x.1.2 <= N /\ 0 < x.1.2 <= half.
Proof using Hsize Hdiv HT HN.
  intros Hx. assert ((size | 256)) as H256 by (destruct Hdiv as [c ?]; exists (4 * c); lia).
  apply all_slices_each in Hx as (H1 & H2 & H3 & _); [|done..]. pose proof (mx_eq size Hsize H256) as Hm. change PER_THREAD_SHM_BUFFER_OFFSET with 2097152 in H3.
  split_and!; [done|done|nia|nia].
Qed.

(** Every staging copy stays inside the memory of its rank and the buffer. *)
Lemma staging_ok t i k x : (i < g)%nat -> 0 <= t < T -> slices_of t !! k = Some x ->
  exists b, put (buffer t i k) (mem i) x.1.1 x.1.2 = Some b /\ Z.of_nat (length b) = half /\
    take (Z.to_nat x.1.2) b = take (Z.to_nat x.1.2) (drop (Z.to_nat x.1.1) (mem i)).
Proof using Hsize Hdiv HT HN Hmem Hbuf Hput.
  intros Hi Ht Hx. destruct (slice_half x) as (H1 & H2 & H3).
  { apply list_elem_of_bind. exists t. split; [by eapply list_elem_of_lookup_2|]. apply elem_of_seqZ. lia. }
  pose proof (Hmem i Hi). destruct (Hput (buffer t i k) (mem i) x.1.1 x.1.2) as (b & -> & Lb & Eb); [apply Hbuf|lia|lia|unfold vec_elem_num in *; lia|].
  exists b. split; [done|]. by rewrite Lb, Hbuf.
Qed.

Lemma call_rounds_read i x res : (i < g)%nat -> (x, res) ∈ call_rounds i -> exists bufs : nat -> list A,
  peers_read res = Some (bufs <$> seq 1 (pred g)) /\ forall idx, (1 <= idx < g)%nat -> Z.of_nat (length (bufs idx)) = half /\
    take (Z.to_nat x.1.2) (bufs idx) = take (Z.to_nat x.1.2) (drop (Z.to_nat x.1.1) (mem (peer i idx))).
Proof using Hsize Hdiv HT HN Hmem Hbuf Hput.
  intros Hi (t & Hx & Ht%elem_of_seqZ)%list_elem_of_bind. apply list_elem_of_lookup in Hx as [k Hk].
  apply lookup_zip_Some in Hk as [Hx Hr]. unfold call_reads in Hr. rewrite list_lookup_fmap in Hr.
  apply fmap_Some in Hr as (k' & [-> _]%lookup_seq & ->). rewrite peers_read_copies, Nat.add_0_l.
  eexists. split; [done|]. intros idx Hidx. destruct (staging_ok t (peer i idx) k x) as (b & E & Lb & Eb); [by apply peer_lt|lia|done|].
  unfold staged. unfold slice in *. by rewrite Hx, E.
Qed.

Lemma call_contiguous i : contiguous 0 (call_rounds i).*1 N.
Proof using Hsize Hdiv HT HN.
  assert ((size | 256)) as H256 by (destruct Hdiv as [c ?]; exists (4 * c); lia).
  rewrite call_rounds_fst. apply (contiguous_cover _ 0 N HN).
  - intros x Hx. apply slice_half in Hx. lia.
  - by apply all_slices_cover.
Qed.

(** The protocol hands every thread of every reader what [call_reads] says. *)
Lemma call_inevitable role slots w before past t : Guarded g role slots w ->
  inevitably (step g (before + length (slices_of t)) role (call_data before past t))
    (λ s, complete (before + length (slices_of t)) s /\
      forall i r, s !! i = Some r -> (forall k, reads (role i k) = true) -> drop before (results r) = call_reads t i)
    (init g slots).
Proof using Type.
  apply later_rounds.
Qed.

(** *** The results *)
Definition reduced (i e : nat) : A :=
  reduce_elem (mem i !!! e) ((λ idx, mem (peer i idx) !!! e) <$> seq 1 (pred g)).

Lemma mapM_read (bs : list (list A)) i n : 0 <= i -> 0 <= n -> (forall b, b ∈ bs -> i + n <= Z.of_nat (length b)) ->
  mapM (λ b, rd_range b i n) bs = Some ((λ b, take (Z.to_nat n) (drop (Z.to_nat i) b)) <$> bs).
Proof using Type.
  intros Hi Hn. induction bs as [|b bs IH]; intros Hb; [done|]. cbn [mapM]. rewrite rd_range_is by (try apply Hb; (done || constructor)).
  cbn [mbind option_bind]. rewrite IH by (intros b' Hb'; apply Hb; by constructor). done.
Qed.

(** The kept lanes of a vector. *)
Lemma reduce_lanes_spec i (bufs : nat -> list A) off n u keep : (u + keep <= n)%nat -> (keep <= 16)%nat -> (off + u + 16 <= length (mem i))%nat ->
  (forall idx, (1 <= idx < g)%nat -> take n (bufs idx) = take n (drop off (mem (peer i idx)))) ->
  take keep (reduce_lanes (take 16 (drop (off + u) (mem i))) ((λ b, take 16 (drop u b)) <$> (bufs <$> seq 1 (pred g))))
    = reduced i <$> seq (off + u) keep.
Proof using Type.
  intros Hu Hk Hl Hb. unfold reduce_lanes. apply list_eq_same_length with keep.
  { by rewrite length_fmap, length_seq. } { rewrite length_take, length_imap, length_take, length_drop. lia. }
  intros e x y He. rewrite lookup_take_lt, list_lookup_imap, list_lookup_fmap, lookup_seq_lt by done.
  rewrite slice_fmap, list_lookup_fmap, lookup_seq_lt by lia. simpl. intros [= <-] [= <-].
  unfold reduced. f_equal. rewrite <- !list_fmap_compose. apply list_fmap_ext. intros k idx Hidx%lookup_seq. simpl.
  rewrite slice_lookup by lia. specialize (Hb idx ltac:(lia)). apply (f_equal (λ l, l !!! (u + e)%nat)) in Hb.
  rewrite lookup_total_take_lt, slice_lookup in Hb by lia. rewrite Hb. f_equal. lia.
Qed.

Lemma reduce_vector_ok i (bufs : nat -> list A) off n u keep : (i < g)%nat -> 0 <= off -> 0 <= n <= half -> off + n <= N ->
  0 <= u -> 0 < keep <= 16 -> u + keep <= n -> (16 | u) ->
  (forall idx, (1 <= idx < g)%nat -> Z.of_nat (length (bufs idx)) = half /\
    take (Z.to_nat n) (bufs idx) = take (Z.to_nat n) (drop (Z.to_nat off) (mem (peer i idx)))) ->
  reduce_vector off u keep (bufs <$> seq 1 (pred g)) (partly (mem i) (reduced i) (off + u))
    = Some (partly (mem i) (reduced i) (off + u + keep)).
Proof using Hsize Hdiv HN Hmem.
  intros Hi Ho Hn HoN Hu Hk Huk Du Hb. pose proof (Hmem i Hi) as Hm. destruct (half_buffer size Hsize Hdiv) as [_ [c Hc]]. destruct Du as [d Hd].
  unfold reduce_vector, vec_elem_num in *. rewrite partly_read by lia. cbn [mbind option_bind].
  rewrite mapM_read; [|lia|lia|].
  2: { intros b (idx & -> & Hidx%elem_of_seq)%list_elem_of_fmap. destruct (Hb idx ltac:(lia)) as [-> _]. lia. }
  cbn [mbind option_bind]. replace (Z.to_nat (off + u)) with (Z.to_nat off + Z.to_nat u)%nat by lia. change (Z.to_nat 16) with 16%nat.
  rewrite (reduce_lanes_spec i bufs (Z.to_nat off) (Z.to_nat n)) by (lia || (intros idx Hidx; by apply Hb)).
  replace (Z.to_nat off + Z.to_nat u)%nat with (Z.to_nat (off + u)) by lia. apply partly_write; (done || lia).
Qed.

Lemma all_reduce_round_ok i x res : (i < g)%nat -> (x, res) ∈ call_rounds i -> 0 <= x.1.1 -> 0 < x.1.2 -> x.1.1 + x.1.2 <= N ->
  all_reduce_round x res (partly (mem i) (reduced i) x.1.1) = Some (partly (mem i) (reduced i) (x.1.1 + x.1.2)).
Proof using Hsize Hdiv HT HN Hmem Hbuf Hput.
  intros Hi Hx H0 H1 H2. destruct (call_rounds_read i x res Hi Hx) as (bufs & Er & Hb).
  assert (x.1.2 <= half) as Hh.
  { apply (slice_half x). rewrite <- (call_rounds_fst i). apply list_elem_of_fmap. by exists (x, res). }
  unfold all_reduce_round. rewrite Er. cbn [mbind option_bind]. unfold vec_elem_num.
  pose proof (Z.div_mod x.1.2 16 ltac:(lia)). pose proof (Z.mod_pos_bound x.1.2 16 ltac:(lia)). pose proof (Z.div_pos x.1.2 16 ltac:(lia) ltac:(lia)).
  destruct (for_range_inv (λ u d, d = partly (mem i) (reduced i) (x.1.1 + u * 16)) 0 (x.1.2 / 16)
    (λ u, reduce_vector x.1.1 (u * 16) 16 (bufs <$> seq 1 (pred g))) (partly (mem i) (reduced i) x.1.1)) as (d & -> & ->).
  - done.
  - f_equal. lia.
  - intros u d Hu ->. eexists. split; [|reflexivity]. rewrite (reduce_vector_ok i bufs x.1.1 x.1.2) by (done || lia || apply Z.divide_factor_r). do 2 f_equal. lia.
  - cbn [mbind option_bind]. destruct (Z.ltb_spec (x.1.2 / 16 * 16) x.1.2).
    + rewrite (reduce_vector_ok i bufs x.1.1 x.1.2) by (done || lia || apply Z.divide_factor_r). do 2 f_equal. lia.
    + do 2 f_equal. lia.
Qed.

Lemma all_reduce_result i : (i < g)%nat ->
  rounds all_reduce_round (call_rounds i) (mem i) = Some ((reduced i <$> seq 0 (Z.to_nat N)) ++ drop (Z.to_nat N) (mem i)).
Proof using Hsize Hdiv HT HN Hmem Hbuf Hput.
  intros Hi. destruct (rounds_inv (λ a st, st = partly (mem i) (reduced i) a) all_reduce_round (call_rounds i) 0 N (mem i))
    as (st & -> & ->).
  - apply call_contiguous.
  - done.
  - intros x res st Hx H0 H1 H2 ->. eexists. split; [|reflexivity]. by apply all_reduce_round_ok.
  - done.
Qed.

(** The gathered outputs, the rounds up to element [a] done. *)
Definition gathered (outs : list (list A)) (a : Z) (st : list (list A)) : Prop :=
  length st = length outs /\ forall j, (j < g)%nat -> exists o, outs !! j = Some o /\ N <= Z.of_nat (length o) /\
    st !! j = Some (partly o (λ e, mem j !!! e) a).

Lemma peer_mod i idx : (i < g)%nat -> (idx < g)%nat -> peer i idx = (if idx + i <? g then idx + i else idx + i - g)%nat.
Proof using Type.
  intros. unfold swizzled_rank. destruct (Nat.ltb_spec (idx + i) g); [by apply Nat.mod_small|].
  replace (idx + i)%nat with (idx + i - g + 1 * g)%nat at 1 by lia. rewrite Nat.Div0.mod_add, Nat.mod_small; lia.
Qed.

Lemma peer_onto i j : (i < g)%nat -> (j < g)%nat -> exists idx, (idx < g)%nat /\ peer i idx = j.
Proof using Type.
  intros Hi Hj. destruct (decide (i = j)) as [->|Hne].
  - exists 0%nat. split; [lia|]. rewrite peer_mod by lia. simpl. destruct (Nat.ltb_spec j g); lia.
  - destruct (peer_surj g i j Hi Hj Hne) as (idx & ? & ?). exists idx. split; [lia|done].
Qed.

Lemma peer_inj i idx idx' : (i < g)%nat -> (idx < g)%nat -> (idx' < g)%nat -> peer i idx = peer i idx' -> idx = idx'.
Proof using Type.
  intros. rewrite !peer_mod in * by done.
  destruct (Nat.ltb_spec (idx + i) g), (Nat.ltb_spec (idx' + i) g); lia.
Qed.

(** One copy to an output. *)
Lemma gather_copy (o src : list A) (f : nat -> A) off n soff L : 0 <= off -> 0 <= soff -> 0 < n <= L -> off + n <= Z.of_nat (length o) ->
  (vec_elems size | L) -> soff + L <= Z.of_nat (length src) ->
  take (Z.to_nat n) (drop (Z.to_nat soff) src) = f <$> seq (Z.to_nat off) (Z.to_nat n) ->
  elem_memcpy size (partly o f off) off src soff n = Some (partly o f (off + n)).
Proof using Hsize Hdiv.
  intros Ho Hs Hn Hl HL Hsrc E. assert (length (partly o f off) = length o) as Lp
    by (unfold partly; rewrite length_app, length_fmap, length_seq, length_drop; lia).
  rewrite (elem_memcpy_ok size Hsize Hdiv _ _ _ _ _ L) by (done || rewrite ?Lp; lia). unfold memcpy_range. rewrite rd_range_is by lia. cbn [mbind option_bind].
  apply partly_write; (done || lia).
Qed.

Lemma gather_round_ok i outs x res st : (i < g)%nat -> (x, res) ∈ call_rounds i -> 0 <= x.1.1 -> 0 < x.1.2 ->
  x.1.1 + x.1.2 <= N -> gathered outs x.1.1 st ->
  exists st', gather_round g size i x res (mem i) st = Some st' /\ gathered outs (x.1.1 + x.1.2) st'.
Proof using HA Hsize Hdiv HT HN Hmem Hbuf Hput.
  intros Hi Hx H0 H1 H2 [Hl Hst]. destruct (call_rounds_read i x res Hi Hx) as (bufs & Er & Hb).
  assert (x.1.2 <= half) as Hh.
  { apply (slice_half x). rewrite <- (call_rounds_fst i). apply list_elem_of_fmap. by exists (x, res). }
  pose proof (Hmem i Hi) as Hm. destruct (half_buffer size Hsize Hdiv) as [Dh _].
  unfold gather_round. rewrite Er. cbn [mbind option_bind]. set (a := x.1.1) in *. set (n := x.1.2) in *.
  destruct (Hst i Hi) as (o & Eo & Lo & ->). cbn [mbind option_bind]. destruct (vec_cover size n Hsize Hdiv ltac:(lia)) as (L & HL & HL').
  rewrite (gather_copy o (mem i) _ a n a L) by (done || lia || (apply slice_fmap; lia)). cbn [mbind option_bind].
  assert (Ei : peer i 0 = i) by (rewrite peer_mod by lia; simpl; destruct (Nat.ltb_spec i g); [done|lia]).
  set (J := λ (m : Z) (st' : list (list A)), length st' = length outs /\
    forall idx, (idx < g)%nat -> exists o, outs !! peer i idx = Some o /\ N <= Z.of_nat (length o) /\
      st' !! peer i idx = Some (partly o (λ e, mem (peer i idx) !!! e) (if Z.of_nat idx <? m then a + n else a))).
  match goal with |- exists st', ?l = Some st' /\ _ => assert (exists st', l = Some st' /\ J (Z.of_nat g) st') as (st' & E & Hl' & Hj) end.
  - apply (for_range_inv J); [lia| |].
    + split; [by rewrite length_insert|]. intros [|idx] Hidx.
      * rewrite Ei. exists o. split_and!; [done|done|]. rewrite list_lookup_insert_eq; [done|]. rewrite Hl. by eapply lookup_lt_Some.
      * destruct (Hst (peer i (S idx))) as (o' & ? & ? & ?); [by apply peer_lt|]. exists o'. split_and!; [done|done|].
        rewrite list_lookup_insert_ne; [destruct (Z.ltb_spec (Z.of_nat (S idx)) 1); [lia|done]|]. rewrite <- Ei at 1. intros E%peer_inj; (done || lia).
    + intros m s' Hm' [Hls Hs]. assert (Hmg : (Z.to_nat m < g)%nat) by lia.
      destruct (Hs (Z.to_nat m) Hmg) as (o' & Ho' & Hlo & Hso). cbv zeta. destruct (Hb (Z.to_nat m) ltac:(lia)) as [Lb Eb].
      rewrite list_lookup_fmap, lookup_seq_lt by lia. cbn [fmap option_fmap option_map mbind option_bind].
      replace (1 + Z.to_nat (m - 1))%nat with (Z.to_nat m) by lia.
      rewrite Hso. cbn [mbind option_bind]. rewrite Z2Nat.id, Z.ltb_irrefl by lia.
      rewrite (gather_copy _ (bufs (Z.to_nat m)) _ a n 0 half); [|lia|lia|lia|lia|done|lia|].
      2: { rewrite drop_0. unfold n, a in *. rewrite Eb. apply slice_fmap. pose proof (Hmem (peer i (Z.to_nat m)) (peer_lt g _ _ Hi)). unfold vec_elem_num in *. lia. }
      cbn [mbind option_bind]. eexists. split; [done|]. split; [by rewrite length_insert|].
      intros idx Hidx. destruct (Hs idx Hidx) as (o2 & Ho2 & Hlo2 & Hso2). exists o2. split_and!; [done|done|].
      destruct (decide (idx = Z.to_nat m)) as [->|Hne].
      * assert (o2 = o') as -> by congruence. rewrite Z2Nat.id by lia.
        rewrite list_lookup_insert_eq by (eapply lookup_lt_Some; exact Hso).
        by rewrite (proj2 (Z.ltb_lt m (m + 1))) by lia.
      * rewrite list_lookup_insert_ne by (intros E%peer_inj; [lia|done..]). rewrite Hso2. do 2 f_equal.
        destruct (Z.ltb_spec (Z.of_nat idx) m), (Z.ltb_spec (Z.of_nat idx) (m + 1)); (done || lia).
  - exists st'. split; [exact E|]. split; [done|].
    intros j Hjg. destruct (peer_onto i j Hi Hjg) as (idx & Hidx & <-). destruct (Hj idx Hidx) as (o' & ? & ? & E').
    exists o'. split_and!; [done|done|]. by rewrite (proj2 (Z.ltb_lt _ _)) in E' by lia.
Qed.

Lemma gather_result i outs : (i < g)%nat -> length outs = g -> (forall o, o ∈ outs -> Z.of_nat (length o) = N) ->
  rounds (λ (x : slice) res, gather_round g size i x res (mem i)) (call_rounds i) outs = Some ((λ j, take (Z.to_nat N) (mem j)) <$> seq 0 g).
Proof using HA Hsize Hdiv HT HN Hmem Hbuf Hput.
  intros Hi Hlen Hall.
  destruct (rounds_inv (gathered outs) (λ (x : slice) res, gather_round g size i x res (mem i)) (call_rounds i) 0 N outs)
    as (st & -> & Hl & Hst).
  - apply call_contiguous.
  - split; [done|]. intros j Hj. destruct (lookup_lt_is_Some_2 outs j) as [o Ho]; [lia|]. exists o.
    split_and!; [done| |by rewrite Ho]. rewrite (Hall o); [done|]. by eapply list_elem_of_lookup_2.
  - intros x res st Hx H0 H1 H2 Hst. by apply gather_round_ok.
  - f_equal. apply list_eq_same_length with g; [by rewrite length_fmap, length_seq|lia|].
    intros j u v Hj. destruct (Hst j Hj) as (o & Ho & _ & ->). rewrite list_lookup_fmap, lookup_seq_lt by done.
    simpl. intros [= <-] [= <-]. assert (Z.of_nat (length o) = N) as Hlo by (apply Hall; by eapply list_elem_of_lookup_2).
    pose proof (Hmem j Hj). unfold partly. rewrite drop_ge, app_nil_r by lia. symmetry. rewrite <- (drop_0 (mem j)) at 1. apply slice_fmap. unfold vec_elem_num in *. lia.
Qed.

(** With an exact addition the order of the ranks does not matter. *)
Definition sum_of (ys : list A) : option F :=
  foldr (λ y acc, Some (match acc with None => widen y | Some s => add (widen y) s end)) None ys.

Lemma sum_of_cons `{!Comm (=) add} `{!Assoc (=) add} x ys :
  sum_of (x :: ys) = Some (foldl (λ acc y, add acc (widen y)) (widen x) ys).
Proof using Type.
  assert (G : forall s ys, foldl (λ acc y, add acc (widen y)) s ys
    = match sum_of ys with None => s | Some s' => add s s' end).
  { intros s zs. revert s. induction zs as [|z zs IH]; intros s; [done|]. simpl. rewrite IH.
    destruct (sum_of zs); [|done]. by rewrite (assoc_L add). }
  simpl. by rewrite G.
Qed.

Lemma sum_of_perm `{!Comm (=) add} `{!Assoc (=) add} xs ys : xs ≡ₚ ys -> sum_of xs = sum_of ys.
Proof using Type.
  apply (foldr_permutation_proper (=) _ None). intros x y [s|]; simpl; f_equal.
  - by rewrite !(assoc_L add), (comm_L add (widen x)).
  - apply (comm_L add).
Qed.

Lemma peers_perm i : (i < g)%nat -> i :: (peer i <$> seq 1 (pred g)) ≡ₚ seq 0 g.
Proof using Type.
  intros Hi. assert (E : i :: (peer i <$> seq 1 (pred g)) = peer i <$> seq 0 g).
  { assert (Eg : seq 0 g = 0%nat :: seq 1 (pred g)) by (clear -Hi; by destruct g; [lia|]).
    rewrite Eg, fmap_cons. f_equal. rewrite peer_mod by lia. simpl. by rewrite (proj2 (Nat.ltb_lt _ _)). }
  rewrite E. apply submseteq_length_Permutation; [|by rewrite length_fmap].
  apply NoDup_submseteq.
  - apply NoDup_fmap_2_strong; [|apply NoDup_seq].
    intros x y [_ Hx]%elem_of_seq [_ Hy]%elem_of_seq. by apply peer_inj.
  - intros j (idx & -> & [_ Hx]%elem_of_seq)%list_elem_of_fmap. apply elem_of_seq. split; [lia|]. by apply peer_lt.
Qed.

Lemma ranks_agree `{!Comm (=) add} `{!Assoc (=) add} i j e : (i < g)%nat -> (j < g)%nat -> reduced i e = reduced j e.
Proof using Type.
  intros Hi Hj. unfold reduced, reduce_elem. f_equal. apply (inj Some). rewrite <- !sum_of_cons.
  assert (G : forall i, (i < g)%nat -> (mem i !!! e :: ((λ idx, mem (peer i idx) !!! e) <$> seq 1 (pred g)))
    ≡ₚ (λ k, mem k !!! e) <$> seq 0 g).
  { intros k Hk. rewrite <- (peers_perm k Hk). simpl. by rewrite <- list_fmap_compose. }
  apply sum_of_perm. by rewrite (G i), (G j).
Qed.

End call.

End elements.

(** [C26] [shm_allreduce_sum], on 2, 3, 4 or 8 ranks whose tensors have room behind them for
    the whole vectors that the code loads at their end: after any number of earlier
    rounds, whatever the mode of the rounds and the interleaving, every thread of every
    rank completes its rounds and reads each peer's staged buffer; no staging copy and no
    vector load leaves the memory of its rank; and with these every rank's tensor becomes,
    element by element, the sum of all ranks' elements in the rank's own (swizzled)
    order, rounded once at the end, while the memory behind it stays as it was - the same
    on all ranks if the addition is associative and commutative.  Any other number of
    ranks is refused. *)
Theorem all_reduce_correct {A F} `{Inhabited A} (widen : A -> F) add narrow g size N T (mem : nat -> list A)
    (buffer : Z -> nat -> nat -> list A) fast before past :
  0 < size -> (size | 64) -> 0 < T -> 0 <= N ->
  (forall i, (i < g)%nat -> N + Z.max vec_elem_num (vec_elems size) <= Z.of_nat (length (mem i)) + 1) ->
  (forall t i k, Z.of_nat (length (buffer t i k)) = max_per_thread_iteration_elem_num size) ->
  let put := put_reduce size in
  (forall t, inevitably (step g (before + length (thread_slices size N T t)) (all_reduce_script fast)
      (call_data size N T mem buffer put before past t))
    (λ s, complete (before + length (thread_slices size N T t)) s /\
      forall i r, s !! i = Some r -> drop before (results r) = call_reads g size N T mem buffer put t i)
    (init g initial_slots)) /\
  (forall t i k x, (i < g)%nat -> 0 <= t < T -> thread_slices size N T t !! k = Some x ->
    is_Some (put (buffer t i k) (mem i) x.1.1 x.1.2)) /\
  (forall i, (i < g)%nat -> shm_allreduce_sum widen add narrow g (call_rounds g size N T mem buffer put i) (mem i)
    = Some (if bool_decide (g ∈ [2; 3; 4; 8]%nat)
            then Ok ((reduced widen add narrow g mem i <$> seq 0 (Z.to_nat N)) ++ drop (Z.to_nat N) (mem i))
            else Throw ("Invalid world size: " +:+ pretty g))) /\
  (Comm (=) add -> Assoc (=) add -> forall i j e, (i < g)%nat -> (j < g)%nat ->
    reduced widen add narrow g mem i e = reduced widen add narrow g mem j e).
Proof.
  intros Hs Hd HT HN Hl Hb put. pose proof (put_reduce_ok (A := A) size Hs Hd) as Hput. split_and!.
  - intros t. eapply inevitably_mono; [|eapply call_inevitable, (guarded_all_reduce g fast)].
    intros s [C R]. split; [done|]. intros i r Hr. by apply R.
  - intros t i k x Hi Ht Hx. edestruct (staging_ok g size N T mem buffer put) as (b & -> & _); done.
  - intros i Hi. pose proof (all_reduce_result widen add narrow g size N T mem buffer put Hs Hd HT HN Hl Hb Hput i Hi) as E.
    case_bool_decide as Hg.
    + repeat (apply elem_of_cons in Hg as [->|Hg]; [unfold shm_allreduce_sum; by rewrite E|]). by apply elem_of_nil in Hg.
    + unfold shm_allreduce_sum. do 9 (destruct g as [|g]; [done || (destruct Hg; set_solver)|]). done.
  - intros. by apply ranks_agree.
Qed.

Lemma all_reduce_correct_witness :
  let mem i := (if Nat.eqb i 0 then [1; 2; 3] else [10; 20; 30]) ++ replicate 15 (-7) in
  let buffer (t : Z) (i k : nat) := replicate (Z.to_nat 524288) 0 in
  let put := put_reduce 4 in
  (forall t, inevitably (step 2 (7 + length (thread_slices 4 3 2 t)) (all_reduce_script Nat.even)
      (call_data 4 3 2 mem buffer put 7 (λ i k, [Z.of_nat k]) t))
    (λ s, complete (7 + length (thread_slices 4 3 2 t)) s /\
      forall i r, s !! i = Some r -> drop 7 (results r) = call_reads 2 4 3 2 mem buffer put t i)
    (init 2 initial_slots)) /\
  shm_allreduce_sum id Z.add id 2 (call_rounds 2 4 3 2 mem buffer put 1) (mem 1%nat) = Some (Ok ([11; 22; 33] ++ replicate 15 (-7))).
Proof.
  intros mem buffer put. destruct (all_reduce_correct id Z.add id 2 4 3 2 mem buffer Nat.even 7 (λ i k, [Z.of_nat k])) as (H1 & _ & H3 & _).
  - lia.
  - by exists 16.
  - lia.
  - lia.
  - intros [|[|i]] Hi; [vm_compute; discriminate..|lia].
  - intros t i k. unfold buffer. rewrite length_replicate, Z2Nat.id by lia. reflexivity.
  - split; [exact H1|]. refine (eq_trans (H3 1%nat ltac:(lia)) _). reflexivity.
Defined.

(** [shm_all_gather] and the checked rounds of [shm_gather_impl]: every rank that
    reads in all rounds of a guarded script ends up with all ranks' tensors, each in its
    own output. *)
Theorem gather_correct {A} `{Inhabited A} g size N T (mem : nat -> list A) (buffer : Z -> nat -> nat -> list A)
    role slots w before past i outs :
  Guarded g role slots w -> (forall k, reads (role i k) = true) ->
  0 < size -> (size | 64) -> 0 < T -> 0 <= N ->
  (forall i, (i < g)%nat -> N + Z.max vec_elem_num (vec_elems size) <= Z.of_nat (length (mem i)) + 1) ->
  (forall t i k, Z.of_nat (length (buffer t i k)) = max_per_thread_iteration_elem_num size) ->
  (i < g)%nat -> length outs = g -> (forall o, o ∈ outs -> Z.of_nat (length o) = N) ->
  let put := put_gather size in
  (forall t, inevitably (step g (before + length (thread_slices size N T t)) role
      (call_data size N T mem buffer put before past t))
    (λ s, complete (before + length (thread_slices size N T t)) s /\
      forall r, s !! i = Some r -> drop before (results r) = call_reads g size N T mem buffer put t i)
    (init g slots)) /\
  rounds (λ (x : slice) res, gather_round g size i x res (mem i)) (call_rounds g size N T mem buffer put i) outs
  = Some ((λ j, take (Z.to_nat N) (mem j)) <$> seq 0 g).
Proof.
  intros HG Hr Hs Hd HT HN Hl Hb Hi Ho Ho' put. split.
  - intros t. eapply inevitably_mono; [|by eapply call_inevitable].
    intros s [C R]. split; [done|]. intros r E. by apply R.
  - apply gather_result; try done. by apply put_gather_ok.
Qed.

Lemma gather_correct_witness :
  let mem i := (if Nat.eqb i 0 then [1; 2; 3] else [10; 20; 30]) ++ replicate 15 (-7) in
  let buffer (t : Z) (i k : nat) := replicate (Z.to_nat 524288) 0 in
  let put := put_gather 4 in
  (forall t, inevitably (step 2 (0 + length (thread_slices 4 3 2 t)) (all_gather_script (λ _, true))
      (call_data 4 3 2 mem buffer put 0 (λ i k, []) t))
    (λ s, complete (0 + length (thread_slices 4 3 2 t)) s /\
      forall r, s !! 1%nat = Some r -> drop 0 (results r) = call_reads 2 4 3 2 mem buffer put t 1)
    (init 2 initial_slots)) /\
  rounds (λ (x : slice) res, gather_round 2 4 1 x res (mem 1%nat)) (call_rounds 2 4 3 2 mem buffer put 1) [[0; 0; 0]; [0; 0; 0]]
  = Some [[1; 2; 3]; [10; 20; 30]].
Proof.
  intros mem buffer put. apply (gather_correct 2 4 3 2 mem buffer) with (w := λ _, true).
  - apply guarded_all_gather.
  - reflexivity.
  - lia.
  - by exists 16.
  - lia.
  - lia.
  - intros [|[|i]] Hi; [vm_compute; discriminate..|lia].
  - intros t i k. unfold buffer. rewrite length_replicate, Z2Nat.id by lia. reflexivity.
  - lia.
  - reflexivity.
  - intros o [->|[->|[]%not_elem_of_nil]%elem_of_cons]%elem_of_cons; reflexivity.
Defined.

End ShmReduce.
