(* ===== verification/ShmTensors.v ===== *)
(** * Lists of tensors over shared memory ([csrc/cpu/shm.cpp])

    [TensorList]: several tensors are sent as one stream of bytes, their metadata
    first; a slice of the stream is copied fragment by fragment, a fragment ending
    where a tensor or the slice ends ([TensorListMeta], [shm_send_tensor_list_impl],
    [shm_recv_tensor_list_impl]).  The receiver rebuilds the metadata from the first
    slice of thread 0. *)

From stdpp Require Import relations.
From S2P Require Import Prelude Arrays ShmProtocol ShmCollectives.

#[local] Open Scope Z_scope.

Module TensorList.
Import Shm ShmOps ShmReduce.

(** [sizeof(TensorListMeta)] *)
Definition sizeof_meta : Z := 192.

(** The fields of [TensorListMeta]; [undefined] is [torch::ScalarType::Undefined]. *)
Record Meta := mkMeta {
  tensor_bytes : list Z; tensor_types : list Z; tensor_num : Z; total_bytes : Z; tensor_ptrs : list Z }.

Definition new_meta (undefined : Z) : Meta :=
  mkMeta (replicate 8 0) (replicate 8 undefined) 0 0 (replicate 8 0).

(** A sender's tensor: its type, the allocation, the bytes of the tensor, its address. *)
Record Tensor := mkTensor { t_type : Z; t_mem : list Z; t_nbytes : Z; t_addr : Z }.
Definition contents (t : Tensor) : list Z := take (Z.to_nat (t_nbytes t)) (t_mem t).

(** [bind_tensor_list], for contiguous tensors. *)
Definition bind_tensor_list (undefined : Z) (m : Meta) (l : list Tensor) : outcome Meta :=
  _ ← torch_check (match tensor_types m !! 0%nat with Some t => t =? undefined | None => false end)
        "Re-bind TensorListMeta is not allowed.";
  _ ← torch_check (Z.of_nat (length l) <=? MAX_P2P_SEND_TENSOR_NUM) "tensor_list.size()";
  Ok (mkMeta ((t_nbytes <$> l) ++ drop (length l) (tensor_bytes m)) ((t_type <$> l) ++ drop (length l) (tensor_types m))
        (Z.of_nat (length l)) (foldr Z.add 0 (t_nbytes <$> l)) ((t_addr <$> l) ++ drop (length l) (tensor_ptrs m))).

(** [get_data]: the tensor, the place in it and the bytes from there to its end;
    [None] for the null piece. *)
Fixpoint get_data_from (i : nat) (sizes : list Z) (offset : Z) : option (nat * Z * Z) :=
  match sizes with
  | [] => None
  | b :: rest => if offset <? b then Some (i, offset, b - offset) else get_data_from (S i) rest (offset - b)
  end.
Definition get_data (m : Meta) (offset : Z) : option (nat * Z * Z) :=
  get_data_from 0 (take (Z.to_nat (tensor_num m)) (tensor_bytes m)) offset.

(** The [while] loop of the sender: the fragments of a slice into the buffer. *)
Fixpoint send_fragments (fuel : nat) (m : Meta) (mems : list (list Z)) (data_offset data_elem_num curr : Z)
    (shm : list Z) : option (list Z) :=
  match fuel with
  | O => None
  | S fuel =>
      if curr <? data_elem_num then
        match get_data m (data_offset + curr) with
        | Some (i, off, size) =>
            let size := Z.min size (data_elem_num - curr) in
            mem ← mems !! i;
            shm ← shm_memcpy shm curr mem off size;
            send_fragments fuel m mems data_offset data_elem_num (curr + size) shm
        | None => send_fragments fuel m mems data_offset data_elem_num curr shm
        end
      else Some shm
  end.

(** The [while] loop of the receiver: the buffer into the tensors. *)
Fixpoint recv_fragments (fuel : nat) (m : Meta) (data_offset data_elem_num curr : Z) (shm : list Z)
    (tensors : list (list Z)) : option (list (list Z)) :=
  match fuel with
  | O => None
  | S fuel =>
      if curr <? data_elem_num then
        match get_data m (data_offset + curr) with
        | Some (i, off, size) =>
            let size := Z.min size (data_elem_num - curr) in
            t ← tensors !! i;
            t ← shm_memcpy t off shm curr size;
            recv_fragments fuel m data_offset data_elem_num (curr + size) shm (<[i := t]> tensors)
        | None => recv_fragments fuel m data_offset data_elem_num curr shm tensors
        end
      else Some tensors
  end.

(** Every fragment but the last ends a tensor. *)
Definition fragment_fuel (m : Meta) : nat := S (Z.to_nat (tensor_num m)).

(** The metadata as the bytes of the object (little-endian), and back. *)
Definition encode_meta (m : Meta) (padding : list Z) : list Z :=
  (tensor_bytes m ≫= le_bytes 8) ++ tensor_types m ++ le_bytes 8 (tensor_num m) ++ le_bytes 8 (total_bytes m) ++
  (tensor_ptrs m ≫= le_bytes 8) ++ padding.
Definition field64 (bytes : list Z) (off : nat) : Z := i64 (le_val (take 8 (drop off bytes))).
Definition decode_meta (bytes : list Z) : Meta :=
  mkMeta ((λ j, field64 bytes (8 * j)) <$> seq 0 8) (take 8 (drop 64 bytes)) (field64 bytes 72) (field64 bytes 80)
    ((λ j, field64 bytes (88 + 8 * j)) <$> seq 0 8).

Section torch.
(** [torch::elementSize], [torch::kInt8], [ScalarType::Undefined] and the memory that
    [torch::empty] returns. *)
Context (elementSize : Z -> Z) (kInt8 undefined : Z) (uninit : nat -> Z -> list Z).

(** [generate_tensor_list] *)
Fixpoint generate_from (i : nat) (l : list (Z * Z)) : outcome (list Tensor) :=
  match l with
  | [] => Ok []
  | (bytes, type) :: rest =>
      let elem_bytes := elementSize type in
      _ ← torch_check (bytes mod elem_bytes =? 0) "bytes % elem_bytes";
      let elem_num := bytes / elem_bytes in
      ts ← generate_from (S i) rest;
      Ok (mkTensor type (uninit i (elem_num * elem_bytes)) (elem_num * elem_bytes) 0 :: ts)
  end.
Definition generate_tensor_list (m : Meta) : outcome (list Tensor) :=
  generate_from 0 (take (Z.to_nat (tensor_num m)) (zip (tensor_bytes m) (tensor_types m))).

(** [shm_send_tensor_list_impl]: the list with the metadata in front. *)
Definition meta_tensor (addr : Z) : Tensor := mkTensor kInt8 [] sizeof_meta addr.
Definition send_meta (addr : Z) (l : list Tensor) : outcome Meta :=
  bind_tensor_list undefined (new_meta undefined) (meta_tensor addr :: l).

(** What the sender's thread [t] puts into the half buffer [junk] for its slice [k]. *)
Definition send_round (m : Meta) (mems : list (list Z)) (T t : Z) (k : nat) (junk : list Z) : option (list Z) :=
  x ← thread_slices 1 (total_bytes m) T t !! k;
  send_fragments (fragment_fuel m) m mems x.1.1 x.1.2 0 junk.

(** A round of the receiver: the buffer of its one peer into the tensors. *)
Definition recv_round (m : Meta) (x : slice) (res : list (option (list Z))) (ts : list (list Z)) : option (list (list Z)) :=
  bufs ← peers_read res;
  shm ← bufs !! 0%nat;
  recv_fragments (fragment_fuel m) m x.1.1 x.1.2 0 shm ts.

(** [shm_recv_tensor_list_impl], given the first buffer of thread 0 and what the
    protocol hands each thread. *)
Definition recv_tensor_list (T : Z) (first : list Z) (reads : Z -> list (list (option (list Z))))
  : option (outcome (list (list Z))) :=
  raw ← shm_memcpy (replicate (Z.to_nat sizeof_meta) 0) 0 first 0 sizeof_meta;
  let src_metadata := decode_meta raw in
  let bound :=
    tensor_list ← generate_tensor_list src_metadata;
    metadata ← bind_tensor_list undefined (new_meta undefined) tensor_list;
    _ ← torch_check (tensor_num metadata =? tensor_num src_metadata) "metadata.tensor_num";
    _ ← torch_check (total_bytes metadata =? total_bytes src_metadata) "metadata.total_bytes";
    Ok (tensor_list, metadata) in
  match bound with
  | Throw e => Some (Throw e)
  | Ok (tensor_list, metadata) =>
      ts ← rounds (recv_round metadata)
             (seqZ 0 T ≫= λ t, zip (thread_slices 1 (total_bytes metadata) T t) (reads t)) (t_mem <$> tensor_list);
      Some (Ok (drop 1 ts))
  end.
End torch.

(** ** Pieces of a concatenation *)

Definition zlen (c : list Z) : Z := Z.of_nat (length c).

Lemma zsum_lens (cs : list (list Z)) : zsum (zlen <$> cs) = zlen (concat cs).
Proof.
  induction cs as [|c cs IH]; [done|]. change (zsum (zlen <$> c :: cs)) with (zlen c + zsum (zlen <$> cs)).
  rewrite IH. unfold zlen. simpl. rewrite length_app. lia.
Qed.

Lemma concat_split (cs : list (list Z)) i c : cs !! i = Some c ->
  concat cs = concat (take i cs) ++ c ++ concat (drop (S i) cs).
Proof. intros H. rewrite <- (take_drop_middle cs i c H) at 1. by rewrite concat_app. Qed.

Lemma concat_read (cs : list (list Z)) i c o n : cs !! i = Some c -> (o + n <= length c)%nat ->
  take n (drop (length (concat (take i cs)) + o) (concat cs)) = take n (drop o c).
Proof.
  intros H Hl. rewrite (concat_split cs i c H) at 1. rewrite <- drop_drop, drop_app_length.
  rewrite drop_app_le by lia. rewrite take_app_le; [done|]. rewrite length_drop. lia.
Qed.

Lemma concat_write (cs : list (list Z)) i c o v c' : cs !! i = Some c -> 0 <= o -> wr_range c o v = Some c' ->
  wr_range (concat cs) (zlen (concat (take i cs)) + o) v = Some (concat (<[i := c']> cs)).
Proof.
  intros H Ho. unfold wr_range at 1. destruct (_ && _) eqn:E; [|done]. rewrite andb_true_iff, !Z.leb_le in E.
  intros [= <-]. pose proof (lookup_lt_Some _ _ _ H). unfold zlen. rewrite (concat_split cs i c H) at 1.
  rewrite wr_range_is; [|lia|rewrite !length_app; lia].
  rewrite insert_take_drop by done. rewrite concat_app. simpl.
  replace (Z.to_nat (Z.of_nat (length (concat (take i cs))) + o)) with (length (concat (take i cs)) + Z.to_nat o)%nat by lia.
  rewrite take_app_add, <- Nat.add_assoc, <- drop_drop, drop_app_length, <- app_assoc.
  rewrite take_app_le, drop_app_le by lia. by rewrite <- !app_assoc.
Qed.

Lemma get_data_from_spec sizes i0 off : Forall (λ b, 0 <= b) sizes -> 0 <= off < zsum sizes ->
  exists i o sz, get_data_from i0 sizes off = Some ((i0 + i)%nat, o, sz) /\ sizes !! i = Some (o + sz) /\
    0 <= o /\ 0 < sz /\ off = zsum (take i sizes) + o.
Proof.
  intros Hp. revert i0 off. induction Hp as [|b sizes Hb Hp IH]; intros i0 off Hoff; simpl in *; [lia|].
  destruct (Z.ltb_spec off b).
  - exists 0%nat, off, (b - off). rewrite Nat.add_0_r. split_and!; [done|simpl; f_equal; lia|lia|lia|done].
  - destruct (IH (S i0) (off - b)) as (i & o & sz & -> & Hi & ? & ? & ?); [simpl in *; lia|].
    exists (S i), o, sz. split_and!; [do 3 f_equal; lia|done|done|done|]. simpl in *. lia.
Qed.

Lemma zsum_take_mono sizes k i : Forall (λ b, 0 <= b) sizes -> (i <= k)%nat -> zsum (take i sizes) <= zsum (take k sizes).
Proof.
  intros Hp. revert k i. induction Hp as [|b sizes Hb Hp IH]; intros [|k] [|i] Hi; simpl; try lia.
  - simpl. assert (H := IH k 0%nat ltac:(lia)). simpl in H. lia.
  - specialize (IH k i ltac:(lia)). simpl in *. lia.
Qed.

(** ** The fragments of a slice *)

Section fragments.
Context (m : Meta) (cs : list (list Z)).
Context (Hm : take (Z.to_nat (tensor_num m)) (tensor_bytes m) = zlen <$> cs).

#[local] Abbreviation sizes := (zlen <$> cs).

Lemma sizes_nonneg (l : list (list Z)) : Forall (λ b, 0 <= b) (zlen <$> l).
Proof using Type. apply Forall_fmap, Forall_forall. intros c _. unfold zlen. simpl. lia. Qed.

Lemma prefix_sum i : zsum (take i sizes) = zlen (concat (take i cs)).
Proof using Type. by rewrite <- fmap_take, zsum_lens. Qed.

Lemma get_data_spec off : 0 <= off < zlen (concat cs) ->
  exists i o sz c, get_data m off = Some (i, o, sz) /\ cs !! i = Some c /\ zlen c = o + sz /\
    0 <= o /\ 0 < sz /\ off = zlen (concat (take i cs)) + o.
Proof using Hm.
  intros Hoff. unfold get_data. rewrite Hm.
  destruct (get_data_from_spec sizes 0 off) as (i & o & sz & -> & Hi & ? & ? & E);
    [apply sizes_nonneg|by rewrite zsum_lens|].
  rewrite list_lookup_fmap in Hi. apply fmap_Some in Hi as (c & Hc & Ec).
  exists i, o, sz, c. rewrite prefix_sum in E. split_and!; done.
Qed.

(** The next fragment is in a later tensor than the ones that are done. *)
Lemma fragment_later k i o off : zlen (concat (take k cs)) <= off -> off = zlen (concat (take i cs)) + o ->
  (exists c, cs !! i = Some c /\ o < zlen c) -> (k <= i)%nat.
Proof using Type.
  intros Hk E (c & Hc & Ho). destruct (decide (k <= i)%nat) as [|Hki]; [done|].
  pose proof (zsum_take_mono sizes k (S i) (sizes_nonneg cs) ltac:(lia)) as Hmono.
  rewrite !prefix_sum, (take_S_r _ _ c Hc), concat_app in Hmono. unfold zlen in *.
  rewrite length_app in Hmono. simpl in Hmono. rewrite app_nil_r in Hmono. lia.
Qed.

Lemma prefix_next i c : cs !! i = Some c -> zlen (concat (take (S i) cs)) = zlen (concat (take i cs)) + zlen c.
Proof using Type.
  intros Hc. rewrite (take_S_r _ _ c Hc), concat_app. unfold zlen. rewrite length_app. simpl. rewrite app_nil_r. lia.
Qed.

(** Enough fuel for the fragments from [curr] on: a step ends the tensor or the slice. *)
Definition enough (doff num curr : Z) (k fuel : nat) : Prop :=
  (1 <= fuel)%nat /\ (curr = num \/ zlen (concat (take k cs)) <= doff + curr /\ (k <= length cs < k + fuel)%nat).

(** The fragment at [curr], as a loop of either side takes it. *)
Lemma next_fragment doff num curr k fuel : 0 <= doff -> doff + num <= zlen (concat cs) -> 0 <= curr < num ->
  enough doff num curr k (S fuel) ->
  exists i o sz c, get_data m (doff + curr) = Some (i, o, sz) /\ cs !! i = Some c /\ zlen c = o + sz /\
    0 <= o /\ doff + curr = zlen (concat (take i cs)) + o /\
    let n := Z.min sz (num - curr) in 0 < n <= sz /\ curr + n <= num /\ exists k', enough doff num (curr + n) k' fuel.
Proof using Hm.
  intros Hd Hn Hc [_ [?|[Hk Hf]]]; [lia|].
  destruct (get_data_spec (doff + curr)) as (i & o & sz & c & E0 & Hi & Hz & Ho & Hs & E); [lia|].
  assert (Hki : (k <= i)%nat) by (eapply fragment_later; eauto with lia).
  pose proof (lookup_lt_Some _ _ _ Hi). pose proof (prefix_next i c Hi) as Hnext.
  exists i, o, sz, c. split_and!; try done. set (n := Z.min sz (num - curr)). simpl. split_and!; [lia..|].
  exists (S i). split; [lia|]. destruct (decide (n = sz)); [right; lia|left; lia].
Qed.

(** A sender's allocation holds the tensor and, behind it, enough to load the last
    vector from. *)
Definition backed (mem c : list Z) : Prop := c = take (length c) mem /\ zlen c + 63 <= zlen mem.

Lemma send_fragments_spec mems doff num fuel k curr shm : Forall2 backed mems cs ->
  0 <= doff -> doff + num <= zlen (concat cs) -> 0 <= curr <= num -> num <= zlen shm -> enough doff num curr k fuel ->
  send_fragments fuel m mems doff num curr shm
  = wr_range shm curr (take (Z.to_nat (num - curr)) (drop (Z.to_nat (doff + curr)) (concat cs))).
Proof using Hm.
  intros Hb Hd Hn. revert k curr shm. induction fuel as [|fuel IH]; intros k curr shm Hc Hl Hf; [destruct Hf; lia|].
  simpl. destruct (Z.ltb_spec curr num) as [Hlt|].
  2:{ replace (Z.to_nat (num - curr)) with 0%nat by lia. rewrite take_0, wr_range_nil; [done|]. unfold zlen in *. lia. }
  destruct (next_fragment doff num curr k fuel Hd Hn ltac:(lia) Hf)
    as (i & o & sz & c & -> & Hi & Hz & Ho & E & Hn1 & Hn2 & k' & Hf').
  destruct (Forall2_lookup_r _ _ _ _ _ Hb Hi) as (mem & -> & Hc1 & Hc2). cbn [mbind option_bind].
  set (n := Z.min sz (num - curr)) in *. pose proof (round_up_eq n ltac:(lia)) as [Hr _].
  rewrite shm_memcpy_ok by (unfold zlen in *; lia). unfold memcpy_range.
  rewrite rd_range_is by (unfold zlen in *; lia). cbn [mbind option_bind].
  assert (Hv : take (Z.to_nat n) (drop (Z.to_nat o) mem) = take (Z.to_nat n) (drop (Z.to_nat (doff + curr)) (concat cs))).
  { rewrite E. unfold zlen. rewrite Z2Nat.inj_add, Nat2Z.id by lia. rewrite (concat_read cs i c _ _ Hi) by (unfold zlen in *; lia).
    rewrite Hc1 at 1. rewrite (take_drop_commute mem), (take_drop_commute (take _ mem)), take_take. do 2 f_equal.
    unfold zlen in *. lia. }
  rewrite Hv. set (C := concat cs) in *.
  assert (Hlen : length (take (Z.to_nat n) (drop (Z.to_nat (doff + curr)) C)) = Z.to_nat n).
  { rewrite length_take, length_drop. unfold zlen in *. lia. }
  replace (Z.to_nat (num - curr)) with (Z.to_nat n + Z.to_nat (num - (curr + n)))%nat by lia.
  rewrite <- take_take_drop, drop_drop, <- wr_range_app; [|lia|].
  2:{ rewrite length_app, Hlen, length_take, length_drop. unfold zlen in *. lia. }
  rewrite Hlen, Z2Nat.id by lia.
  destruct (wr_range shm curr _) as [shm'|] eqn:Ew; [|done]. cbn [mbind option_bind].
  rewrite (IH k'); [do 3 f_equal; lia|lia| |done]. unfold zlen. by rewrite (length_wr_range _ _ _ _ Ew).
Qed.

Lemma recv_fragments_spec doff num shm fuel k curr ts : zlen <$> ts = zlen <$> cs ->
  0 <= doff -> doff + num <= zlen (concat cs) -> 0 <= curr <= num -> num + 63 <= zlen shm -> enough doff num curr k fuel ->
  exists ts', recv_fragments fuel m doff num curr shm ts = Some ts' /\ zlen <$> ts' = zlen <$> cs /\
    wr_range (concat ts) (doff + curr) (take (Z.to_nat (num - curr)) (drop (Z.to_nat curr) shm)) = Some (concat ts').
Proof using Hm.
  intros Hts Hd Hn. revert k curr ts Hts. induction fuel as [|fuel IH]; intros k curr ts Hts Hc Hl Hf; [destruct Hf; lia|].
  assert (Hcat : zlen (concat ts) = zlen (concat cs)) by (by rewrite <- !zsum_lens, Hts).
  simpl. destruct (Z.ltb_spec curr num) as [Hlt|].
  2:{ exists ts. split_and!; [done|done|]. replace (Z.to_nat (num - curr)) with 0%nat by lia.
      rewrite take_0, wr_range_nil; [done|]. unfold zlen in *. lia. }
  destruct (next_fragment doff num curr k fuel Hd Hn ltac:(lia) Hf)
    as (i & o & sz & c & -> & Hi & Hz & Ho & E & Hn1 & Hn2 & k' & Hf').
  assert (Ht : exists t, ts !! i = Some t /\ zlen t = zlen c).
  { assert (H : (zlen <$> ts) !! i = Some (zlen c)) by (by rewrite Hts, list_lookup_fmap, Hi).
    rewrite list_lookup_fmap in H. apply fmap_Some in H as (t & ? & ?). eauto. }
  destruct Ht as (t & Ht & Hzt). rewrite Ht. cbn [mbind option_bind].
  set (n := Z.min sz (num - curr)) in *. pose proof (round_up_eq n ltac:(lia)) as [Hr _].
  rewrite shm_memcpy_ok by (unfold zlen in *; lia). unfold memcpy_range.
  rewrite rd_range_is by (unfold zlen in *; lia). cbn [mbind option_bind].
  set (v := take (Z.to_nat n) (drop (Z.to_nat curr) shm)).
  assert (Hlen : Z.of_nat (length v) = n) by (unfold v; rewrite length_take, length_drop; unfold zlen in *; lia).
  destruct (wr_range_ok t o v) as (t' & Ew & Hlt' & _); [lia|unfold zlen in *; lia|]. rewrite Ew. cbn [mbind option_bind].
  pose proof (concat_write ts i t o v t' Ht Ho Ew) as Hcw.
  replace (zlen (concat (take i ts))) with (zlen (concat (take i cs))) in Hcw
    by (by rewrite <- !prefix_sum, <- Hts, <- fmap_take, zsum_lens).
  rewrite <- E in Hcw.
  destruct (IH k' (curr + n) (<[i := t']> ts)) as (ts' & -> & Hs' & Hw'); [|lia|done|done|].
  { rewrite list_fmap_insert. unfold zlen at 1. rewrite Hlt'. rewrite list_insert_id; [done|].
    rewrite list_lookup_fmap, Ht. done. }
  exists ts'. split_and!; [done|done|].
  replace (Z.to_nat (num - curr)) with (Z.to_nat n + Z.to_nat (num - (curr + n)))%nat by lia.
  rewrite <- take_take_drop, drop_drop. fold v. rewrite <- wr_range_app; [|lia|].
  2:{ rewrite length_app, length_take, length_drop. unfold zlen in *. lia. }
  rewrite Hcw. cbn [mbind option_bind]. rewrite Hlen, <- Hw'. f_equal; [lia|]. do 2 f_equal. lia.
Qed.

End fragments.

(** ** The metadata *)

Lemma fields_lookup (l : list Z) j v rest : l !! j = Some v ->
  take 8 (drop (8 * j) ((l ≫= le_bytes 8) ++ rest)) = le_bytes 8 v.
Proof.
  revert j. induction l as [|a l IH]; intros j E; [done|]. rewrite bind_cons, <- app_assoc. destruct j as [|j].
  - injection E as ->. rewrite Nat.mul_0_r, drop_0. apply take_app_length'. by rewrite length_le_bytes.
  - replace (8 * S j)%nat with (length (le_bytes 8 a) + 8 * j)%nat by (rewrite length_le_bytes; lia).
    rewrite drop_app_add. by apply IH.
Qed.

Lemma length_fields (l : list Z) : length (l ≫= le_bytes 8) = (8 * length l)%nat.
Proof. induction l as [|a l IH]; [done|]. rewrite bind_cons, length_app, length_le_bytes, IH. simpl length. lia. Qed.

Lemma field64_is v pre post off : length pre = off -> 0 <= v < 2 ^ 63 -> field64 (pre ++ le_bytes 8 v ++ post) off = v.
Proof.
  intros <- Hv. unfold field64. rewrite drop_app_length, take_app_length' by by rewrite length_le_bytes.
  rewrite le_val_bytes by (change (256 ^ Z.of_nat 8) with (2 ^ 64); lia). apply i64_id. unfold is_i64. lia.
Qed.

Definition meta_ok (m : Meta) : Prop :=
  length (tensor_bytes m) = 8%nat /\ length (tensor_types m) = 8%nat /\ length (tensor_ptrs m) = 8%nat /\
  Forall (λ b, 0 <= b < 2 ^ 63) (tensor_bytes m) /\ 0 <= tensor_num m < 2 ^ 63 /\ 0 <= total_bytes m < 2 ^ 63.

Lemma length_encode_meta m padding : meta_ok m -> length padding = 40%nat -> zlen (encode_meta m padding) = sizeof_meta.
Proof.
  intros (H1 & H2 & H3 & _) Hp. unfold encode_meta, zlen.
  rewrite !length_app, !length_fields, !length_le_bytes, H1, H2, H3, Hp. done.
Qed.

Lemma decode_encode_meta m padding : meta_ok m ->
  let m' := decode_meta (encode_meta m padding) in
  tensor_bytes m' = tensor_bytes m /\ tensor_types m' = tensor_types m /\
  tensor_num m' = tensor_num m /\ total_bytes m' = total_bytes m.
Proof.
  intros (H1 & H2 & H3 & H4 & H5 & H6). unfold decode_meta, encode_meta. cbv zeta.
  cbn [tensor_bytes tensor_types tensor_num total_bytes].
  set (B := tensor_bytes m ≫= le_bytes 8). assert (HB : length B = 64%nat) by (unfold B; rewrite length_fields, H1; done).
  split_and!.
  - apply list_eq_same_length with 8%nat; [done|by rewrite length_fmap, length_seq|].
    intros j x y Hj. rewrite list_lookup_fmap, lookup_seq_lt by done. cbn [fmap option_fmap option_map]. intros [= <-] Hy.
    unfold field64.
    unfold B. rewrite (fields_lookup _ _ _ _ Hy). rewrite Forall_lookup in H4. specialize (H4 _ _ Hy). simpl in H4.
    rewrite le_val_bytes by (change (256 ^ Z.of_nat 8) with (2 ^ 64); lia). apply i64_id. unfold is_i64. lia.
  - rewrite drop_app_length' by done. by rewrite take_app_length' by done.
  - rewrite !(app_assoc B). apply field64_is; [|done]. rewrite length_app, HB, H2. done.
  - rewrite !(app_assoc B), !(app_assoc (B ++ _)). apply field64_is; [|done].
    rewrite !length_app, length_le_bytes, HB, H2. done.
Qed.

(** ** Sender and receiver *)

Lemma concat_lens_inj (xs ys : list (list Z)) : zlen <$> xs = zlen <$> ys -> concat xs = concat ys -> xs = ys.
Proof.
  revert ys. induction xs as [|x xs IH]; intros [|y ys] Hl Hc; try done. rewrite !fmap_cons in Hl. injection Hl as H1 H2.
  simpl in Hc. apply app_inj_1 in Hc as [-> Hc]; [|unfold zlen in H1; lia]. f_equal. auto.
Qed.

Lemma zsum_bound (bs : list Z) b : Forall (λ b, 0 <= b) bs -> b ∈ bs -> b <= zsum bs.
Proof.
  intros Hp. induction Hp as [|x bs Hx Hp IH]; [by intros ?%not_elem_of_nil|].
  pose proof (zsum_nonneg _ Hp).
  intros [->|Hb]%elem_of_cons; simpl; [lia|]. specialize (IH Hb). lia.
Qed.

Section transfer.
Context (elementSize : Z -> Z) (kInt8 undefined : Z) (uninit : nat -> Z -> list Z) (addr : Z).
Context (l : list Tensor) (padding slack : list Z) (T : Z) (junk : Z -> nat -> list Z).

(** A tensor of whole elements in an allocation with room behind it. *)
Definition wf_tensor (t : Tensor) : Prop :=
  0 <= t_nbytes t /\ t_nbytes t + 63 <= zlen (t_mem t) /\ 0 < elementSize (t_type t) /\
  t_nbytes t mod elementSize (t_type t) = 0.

Context (Hint8 : elementSize kInt8 = 1) (Hnum : (length l <= 7)%nat) (Hl : Forall wf_tensor l).
Context (Huninit : forall i n, 0 <= n -> zlen (uninit i n) = n).
Context (Hpad : length padding = 40%nat) (Hslack : 63 <= zlen slack).
Context (Htotal : zsum (t_nbytes <$> l) + sizeof_meta < 2 ^ 63) (HT : 0 < T).
Context (Hjunk : forall t k, PER_THREAD_SHM_BUFFER_OFFSET + 63 <= zlen (junk t k)).

#[local] Abbreviation all := (meta_tensor kInt8 addr :: l).
#[local] Abbreviation nbytes := (t_nbytes <$> all).

Lemma nbytes_nonneg : Forall (λ b, 0 <= b) nbytes.
Proof.
  constructor; [by unfold sizeof_meta|]. apply Forall_fmap. eapply Forall_impl; [exact Hl|]. by intros t (? & _).
Qed.

Definition meta : Meta :=
  mkMeta (nbytes ++ drop (length all) (replicate 8 0)) ((t_type <$> all) ++ drop (length all) (replicate 8 undefined))
    (Z.of_nat (length all)) (zsum nbytes) ((t_addr <$> all) ++ drop (length all) (replicate 8 0)).

Lemma send_meta_ok : send_meta kInt8 undefined addr l = Ok meta.
Proof.
  unfold send_meta, bind_tensor_list, new_meta. simpl tensor_types. cbn [lookup list_lookup replicate].
  rewrite Z.eqb_refl. cbn [mbind outcome_bind torch_check].
  rewrite (proj2 (Z.leb_le _ _)) by (clear -Hnum; unfold MAX_P2P_SEND_TENSOR_NUM; simpl length; lia). done.
Qed.

Lemma total_small : 0 <= zsum nbytes < 2 ^ 63 /\ sizeof_meta <= zsum nbytes.
Proof.
  assert (H : 0 <= zsum (t_nbytes <$> l)).
  { apply zsum_nonneg. pose proof nbytes_nonneg as H. by apply Forall_cons in H as [_ H]. }
  change (zsum nbytes) with (sizeof_meta + zsum (t_nbytes <$> l)). unfold sizeof_meta in *. lia.
Qed.

Lemma meta_is_ok : meta_ok meta.
Proof.
  unfold meta_ok, meta. cbn [tensor_bytes tensor_types tensor_num total_bytes tensor_ptrs].
  assert (Hall : (length all <= 8)%nat) by (simpl; lia).
  split_and!; try (rewrite length_app, length_fmap, length_drop, length_replicate; simpl length in *; lia).
  - apply Forall_app. split.
    + apply Forall_forall. intros b Hb. pose proof (zsum_bound _ _ nbytes_nonneg Hb).
      pose proof (proj1 (Forall_forall _ _) nbytes_nonneg b Hb). pose proof total_small. simpl in *. lia.
    + apply Forall_drop, Forall_replicate. lia.
  - lia.
  - lia.
  - apply total_small.
  - apply total_small.
Qed.

(** The sender's stream. *)
Definition mems : list (list Z) := (encode_meta meta padding ++ slack) :: (t_mem <$> l).
Definition stream : list (list Z) := encode_meta meta padding :: (contents <$> l).

Lemma contents_len t : wf_tensor t -> zlen (contents t) = t_nbytes t.
Proof. intros (? & ? & _). unfold contents, zlen in *. rewrite length_take. lia. Qed.

Lemma stream_lens : zlen <$> stream = nbytes.
Proof.
  unfold stream. rewrite !fmap_cons. f_equal.
  - apply length_encode_meta; [apply meta_is_ok|done].
  - rewrite <- list_fmap_compose. apply list_fmap_ext. intros i t Ht. simpl. apply contents_len.
    eapply Forall_lookup_1; [exact Hl|done].
Qed.

Lemma stream_total : zlen (concat stream) = zsum nbytes.
Proof. by rewrite <- zsum_lens, stream_lens. Qed.

Lemma stream_backed : Forall2 backed mems stream.
Proof.
  constructor.
  - split; [symmetry; apply take_app_length|]. unfold zlen in *. rewrite length_app. lia.
  - apply Forall2_fmap, Forall_Forall2_diag. eapply Forall_impl; [exact Hl|].
    intros t Ht. pose proof (contents_len t Ht) as E. destruct Ht as (? & ? & _). split; [|lia].
    unfold zlen in E. replace (length (contents t)) with (Z.to_nat (t_nbytes t)) by lia. done.
Qed.

Lemma meta_sizes m : tensor_num m = Z.of_nat (length all) -> tensor_bytes m = tensor_bytes meta ->
  take (Z.to_nat (tensor_num m)) (tensor_bytes m) = zlen <$> stream.
Proof.
  intros -> ->. rewrite stream_lens, Nat2Z.id. apply take_app_length'. by rewrite length_fmap.
Qed.

(** Any slice starts with enough fuel. *)
Lemma enough_start m doff num : tensor_num m = Z.of_nat (length all) -> 0 <= doff ->
  enough stream doff num 0 0 (fragment_fuel m).
Proof.
  intros E Hd. unfold enough, fragment_fuel. rewrite E, Nat2Z.id. split; [lia|]. right.
  assert (length stream = length all) by (unfold stream; simpl; by rewrite length_fmap).
  rewrite take_0. unfold zlen. simpl concat. simpl length at 1. lia.
Qed.

Definition sent (t : Z) (i k : nat) : list Z := default [] (send_round meta mems T t k (junk t k)).

Lemma slice_bounds t x k : 0 <= t < T -> thread_slices 1 (zsum nbytes) T t !! k = Some x ->
  0 <= x.1.1 /\ x.1.1 + x.1.2 <= zsum nbytes /\ 0 < x.1.2 <= PER_THREAD_SHM_BUFFER_OFFSET.
Proof.
  intros Ht Hk. pose proof total_small.
  destruct (all_slices_each 1 (zsum nbytes) T ltac:(lia) ltac:(by exists 256) ltac:(lia) HT x) as (? & ? & ? & _).
  - apply list_elem_of_bind. exists t. split; [by eapply list_elem_of_lookup_2|]. apply elem_of_seqZ. lia.
  - lia.
Qed.

(** The buffer a round hands over starts with the slice of the stream. *)
Lemma sent_slice t k x i : 0 <= t < T -> thread_slices 1 (zsum nbytes) T t !! k = Some x ->
  take (Z.to_nat x.1.2) (sent t i k) = take (Z.to_nat x.1.2) (drop (Z.to_nat x.1.1) (concat stream)) /\
  x.1.2 + 63 <= zlen (sent t i k).
Proof.
  intros Ht Hk. destruct (slice_bounds t x k Ht Hk) as (H1 & H2 & H3). pose proof (Hjunk t k) as Hj.
  unfold sent, send_round. change (total_bytes meta) with (zsum nbytes). rewrite Hk. cbn [mbind option_bind].
  rewrite (send_fragments_spec meta stream (meta_sizes meta eq_refl eq_refl) mems x.1.1 x.1.2 _ 0 0);
    [|apply stream_backed|done|by rewrite stream_total|lia|lia|by apply enough_start].
  rewrite Z.sub_0_r, Z.add_0_r. set (v := take (Z.to_nat x.1.2) (drop (Z.to_nat x.1.1) (concat stream))).
  assert (Hv : length v = Z.to_nat x.1.2).
  { unfold v. rewrite length_take, length_drop. pose proof stream_total. unfold zlen in *. lia. }
  rewrite wr_range_is by (unfold zlen in *; lia). cbn [default]. rewrite take_0, app_nil_l, Nat.add_0_l.
  split; [by apply take_app_length'|]. unfold zlen, id in *. rewrite length_app, length_drop. lia.
Qed.

(** *** The receiver's side *)
Definition recv_reads (t : Z) : list (list (option (list Z))) :=
  (λ k, copies 2 (sent t) 1 k 1) <$> seq 0 (length (thread_slices 1 (zsum nbytes) T t)).

Definition recv_rounds : list (slice * list (option (list Z))) :=
  seqZ 0 T ≫= λ t, zip (thread_slices 1 (zsum nbytes) T t) (recv_reads t).

Lemma recv_rounds_fst : recv_rounds.*1 = all_slices 1 (zsum nbytes) T.
Proof.
  unfold recv_rounds, all_slices. induction (seqZ 0 T) as [|t l' IH]; [done|]. rewrite !bind_cons, fmap_app.
  f_equal; [|exact IH]. apply fst_zip. unfold recv_reads. by rewrite length_fmap, length_seq.
Qed.

Lemma recv_rounds_elem x res : (x, res) ∈ recv_rounds -> exists t k, 0 <= t < T /\
  thread_slices 1 (zsum nbytes) T t !! k = Some x /\ peers_read res = Some [sent t 0 k].
Proof.
  intros (t & Hx & Ht%elem_of_seqZ)%list_elem_of_bind. apply list_elem_of_lookup in Hx as [k Hk].
  apply lookup_zip_Some in Hk as [Hx Hr]. unfold recv_reads in Hr. rewrite list_lookup_fmap in Hr.
  apply fmap_Some in Hr as (k' & [-> _]%lookup_seq & ->). exists t, k. split_and!; [lia|lia|exact Hx|].
  by rewrite peers_read_copies.
Qed.

Lemma recv_all m ts : tensor_num m = Z.of_nat (length all) -> tensor_bytes m = tensor_bytes meta ->
  zlen <$> ts = nbytes -> rounds (recv_round m) recv_rounds ts = Some stream.
Proof.
  intros Hm1 Hm2 Hts. pose proof total_small as [Hn _].
  assert (Hcat : zlen (concat ts) = zsum nbytes) by (by rewrite <- zsum_lens, Hts).
  destruct (rounds_inv (λ a ts', zlen <$> ts' = nbytes /\ concat ts' = partly (concat ts) (λ e, concat stream !!! e) a)
    (recv_round m) recv_rounds 0 (zsum nbytes) ts) as (ts' & -> & H1 & H2).
  - rewrite recv_rounds_fst. apply (contiguous_cover _ 0 (zsum nbytes)); [lia| |].
    + intros x Hx. apply all_slices_each in Hx; [|lia|by exists 256|lia|done]. lia.
    + apply all_slices_cover; [lia|by exists 256|lia|done].
  - done.
  - intros x res st Hx _ _ _ [Hst1 Hst2].
    destruct (recv_rounds_elem _ _ Hx) as (t & k & Ht & Hk & Hr). destruct (slice_bounds _ _ _ Ht Hk) as (B1 & B2 & B3).
    destruct (sent_slice t k x 0 Ht Hk) as [Hs Hs']. unfold recv_round. rewrite Hr. cbn [mbind option_bind lookup list_lookup].
    destruct (recv_fragments_spec m stream (meta_sizes m Hm1 Hm2) x.1.1 x.1.2 (sent t 0 k) (fragment_fuel m) 0 0 st)
      as (ts' & -> & Hl' & Hw).
    + by rewrite stream_lens.
    + done.
    + by rewrite stream_total.
    + lia.
    + done.
    + by apply enough_start.
    + exists ts'. split; [done|]. split; [by rewrite <- stream_lens|].
      rewrite Z.sub_0_r, Z.add_0_r, drop_0, Hs, Hst2 in Hw.
      rewrite (partly_write _ _ _ x.1.2) in Hw; [by injection Hw|lia|lia|unfold zlen in Hcat; lia|].
      apply slice_fmap. pose proof stream_total. unfold zlen in *. lia.
  - f_equal. apply concat_lens_inj; [by rewrite stream_lens|]. rewrite H2, <- Hcat. unfold zlen. rewrite partly_all.
    replace (length (concat ts)) with (length (concat stream)) by (pose proof stream_total; unfold zlen in *; lia).
    rewrite <- (slice_fmap (concat stream) 0) by lia. by rewrite firstn_all.
Qed.

(** The tensors generated from sound sizes and types. *)
Lemma generate_ok i (pairs : list (Z * Z)) :
  Forall (λ p, 0 <= p.1 /\ 0 < elementSize p.2 /\ p.1 mod elementSize p.2 = 0) pairs ->
  exists ts, generate_from elementSize uninit i pairs = Ok ts /\ t_nbytes <$> ts = pairs.*1 /\
    zlen <$> (t_mem <$> ts) = pairs.*1 /\ t_type <$> ts = pairs.*2.
Proof.
  intros Hp. revert i. induction Hp as [|[b ty] pairs (H1 & H2 & H3) Hp IH]; intros i.
  { by exists []. }
  destruct (IH (S i)) as (ts & E & Hb & Hm & Ht). simpl in *. rewrite H3, E. simpl.
  assert (Eb : b / elementSize ty * elementSize ty = b).
  { pose proof (Z.div_mod b (elementSize ty) ltac:(lia)). lia. }
  eexists. split; [done|]. rewrite Eb. rewrite !fmap_cons. cbn [t_nbytes t_mem t_type]. rewrite Hb, Hm, Ht, Huninit by done. done.
Qed.

Lemma meta_pairs : zip (tensor_bytes meta) (tensor_types meta)
  = zip nbytes (t_type <$> all) ++ zip (drop (length all) (replicate 8 0)) (drop (length all) (replicate 8 undefined)).
Proof. unfold meta. cbn [tensor_bytes tensor_types]. apply zip_with_app. by rewrite !length_fmap. Qed.

Lemma sound_pairs : Forall (λ p, 0 <= p.1 /\ 0 < elementSize p.2 /\ p.1 mod elementSize p.2 = 0) (zip nbytes (t_type <$> all)).
Proof.
  simpl. constructor; [simpl; rewrite Hint8; by unfold sizeof_meta|].
  clear -Hl. induction Hl as [|t l' (? & ? & ? & ?) _ IH]; [by constructor|].
  rewrite !fmap_cons. constructor; [done|]. apply IH. by apply Forall_cons in Hl as [_ ?].
Qed.

Lemma first_slice : exists x, thread_slices 1 (zsum nbytes) T 0 !! 0%nat = Some x /\ x.1.1 = 0 /\ sizeof_meta <= x.1.2.
Proof.
  pose proof total_small as [? Hs]. unfold thread_slices. rewrite Z.mul_0_l, Z.add_0_l, Z.sub_0_r.
  destruct (per_thread_bytes 1 (zsum nbytes) T ltac:(lia) ltac:(by exists 256) ltac:(lia) HT) as ([q Hq] & Hp & Hall).
  set (per := per_thread_elem_num 1 (zsum nbytes) T) in *. change (max_per_thread_iteration_elem_num 1) with 2097152.
  unfold sizeof_meta in *. assert (0 < q) by nia.
  destruct (Z.to_nat (Z.min (zsum nbytes) per)) as [|f] eqn:Ef; [lia|]. cbn [slices_from].
  rewrite Z.sub_0_r, (proj2 (Z.ltb_lt _ _)) by lia. eexists. split; [reflexivity|]. cbn [fst snd]. split; lia.
Qed.

Lemma recv_correct : recv_tensor_list elementSize undefined uninit T (sent 0 0 0) recv_reads = Some (Ok (contents <$> l)).
Proof.
  destruct first_slice as (x & Hx & Ex & Hs). destruct (sent_slice 0 0 x 0 ltac:(lia) Hx) as [Ht Hlen].
  unfold sizeof_meta in Hs. unfold recv_tensor_list. change (Z.to_nat sizeof_meta) with 192%nat.
  rewrite shm_memcpy_ok; [|lia|lia|done| |rewrite length_replicate; done].
  2:{ change (round_up sizeof_meta) with 192. unfold zlen in Hlen. lia. }
  assert (Hraw : memcpy_range (replicate 192 0) 0 (sent 0 0 0) 0 sizeof_meta = Some (encode_meta meta padding)).
  { unfold memcpy_range. rewrite rd_range_is; [|lia|done|unfold sizeof_meta, zlen in *; lia]. cbn [mbind option_bind].
    assert (E : take (Z.to_nat sizeof_meta) (drop (Z.to_nat 0) (sent 0 0 0)) = encode_meta meta padding).
    { rewrite drop_0. apply (f_equal (take 192)) in Ht. rewrite !take_take in Ht.
      rewrite !Nat.min_l in Ht by lia. change (Z.to_nat sizeof_meta) with 192%nat. rewrite Ht, Ex, drop_0.
      change (concat stream) with (encode_meta meta padding ++ concat (contents <$> l)). apply take_app_length'.
      pose proof (length_encode_meta meta padding meta_is_ok Hpad). unfold zlen, sizeof_meta in *. lia. }
    rewrite E. pose proof (length_encode_meta meta padding meta_is_ok Hpad) as Le. unfold zlen, sizeof_meta in Le.
    rewrite wr_range_is; [|lia|rewrite length_replicate; lia]. change (Z.to_nat 0) with 0%nat.
    rewrite take_0, app_nil_l, drop_ge by (rewrite length_replicate; lia).
    by rewrite app_nil_r. }
  rewrite Hraw. cbn [mbind option_bind].
  destruct (decode_encode_meta meta padding meta_is_ok) as (D1 & D2 & D3 & D4).
  set (m' := decode_meta (encode_meta meta padding)) in *.
  unfold generate_tensor_list. rewrite D1, D2, D3, meta_pairs.
  change (tensor_num meta) with (Z.of_nat (length all)). rewrite Nat2Z.id, take_app_length'.
  2:{ by rewrite length_zip_with, !length_fmap, Nat.min_id. }
  destruct (generate_ok 0 _ sound_pairs) as (ts & -> & Hb & Hm & Hty). cbn [mbind outcome_bind].
  assert (Hlt : length ts = length all).
  { apply (f_equal length) in Hb. rewrite !length_fmap, length_zip_with, !length_fmap, Nat.min_id in Hb. done. }
  rewrite fst_zip in Hb, Hm by by rewrite !length_fmap.
  unfold bind_tensor_list, new_meta. simpl tensor_types. cbn [lookup list_lookup replicate].
  rewrite Z.eqb_refl, Hlt. cbn [torch_check mbind outcome_bind].
  rewrite (proj2 (Z.leb_le _ _)) by (unfold MAX_P2P_SEND_TENSOR_NUM; simpl length; lia). cbn [torch_check mbind outcome_bind].
  cbn [tensor_num total_bytes tensor_bytes]. rewrite Z.eqb_refl, D4, Hb. change (total_bytes meta) with (zsum nbytes).
  fold (zsum nbytes). rewrite Z.eqb_refl. cbn [torch_check mbind outcome_bind total_bytes].
  fold recv_rounds. rewrite recv_all; [|done|done|exact Hm]. done.
Qed.

End transfer.

(** [C27] [shm_send_tensor_list] and [shm_recv_tensor_list]: up to seven tensors of whole
    elements, in allocations with room for a vector behind them, arrive unchanged.
    After any earlier transfers, every thread of the receiver completes its
    rounds with the buffers that the sender's thread filled, whatever the
    interleaving; from the first buffer of thread 0 it recovers the metadata, and
    copying the fragments of all slices makes its tensors equal to the sender's. *)
Theorem send_recv_correct elementSize kInt8 undefined uninit addr l padding slack T junk before past :
  elementSize kInt8 = 1 -> (length l <= 7)%nat -> Forall (wf_tensor elementSize) l ->
  (forall i n, 0 <= n -> zlen (uninit i n) = n) -> length padding = 40%nat -> 63 <= zlen slack ->
  zsum (t_nbytes <$> l) + sizeof_meta < 2 ^ 63 -> 0 < T ->
  (forall t k, PER_THREAD_SHM_BUFFER_OFFSET + 63 <= zlen (junk t k)) ->
  exists m, send_meta kInt8 undefined addr l = Ok m /\
    let mems := (encode_meta m padding ++ slack) :: (t_mem <$> l) in
    let sent t (i k : nat) := default [] (send_round m mems T t k (junk t k)) in
    let rounds t := length (thread_slices 1 (total_bytes m) T t) in
    let reads t := (λ k, copies 2 (sent t) 1 k 1) <$> seq 0 (rounds t) in
    (forall t, inevitably (step 2 (before + rounds t) send_recv_script (after before past (sent t)))
      (λ s, complete (before + rounds t) s /\ forall r, s !! 1%nat = Some r -> drop before (results r) = reads t)
      (init 2 send_recv_slots)) /\
    recv_tensor_list elementSize undefined uninit T (sent 0 0%nat 0%nat) reads = Some (Ok (contents <$> l)).
Proof.
  intros H1 H2 H3 H4 H5 H6 H7 H8 H9. exists (meta kInt8 undefined addr l). split; [by apply send_meta_ok|].
  intros mems0 sent0 rounds0 reads0. split.
  - intros t. eapply inevitably_mono; [|eapply later_rounds, guarded_send_recv].
    intros s [C R]. split; [exact C|]. intros r Hr. by apply (R 1%nat r Hr).
  - by apply recv_correct.
Qed.

Lemma send_recv_correct_witness :
  exists m, send_meta 1 20 4096 [mkTensor 6 (seqZ 0 200) 100 8192; mkTensor 1 (seqZ 7 64) 1 16384] = Ok m /\
    let mems := (encode_meta m (replicate 40 0) ++ replicate 64 0) :: [seqZ 0 200; seqZ 7 64] in
    let sent t (i k : nat) := default [] (send_round m mems 2 t k (replicate (Z.to_nat 2097280) 0)) in
    let rounds t := length (thread_slices 1 (total_bytes m) 2 t) in
    let reads t := (λ k, copies 2 (sent t) 1 k 1) <$> seq 0 (rounds t) in
    (forall t, inevitably (step 2 (3 + rounds t) send_recv_script (after 3 (λ i k, []) (sent t)))
      (λ s, complete (3 + rounds t) s /\ forall r, s !! 1%nat = Some r -> drop 3 (results r) = reads t)
      (init 2 send_recv_slots)) /\
    recv_tensor_list (λ ty, if ty =? 6 then 4 else 1) 20 (λ _ n, replicate (Z.to_nat n) 255) 2 (sent 0 0%nat 0%nat) reads
    = Some (Ok [take 100 (seqZ 0 200); take 1 (seqZ 7 64)]).
Proof.
  apply (send_recv_correct (λ ty, if ty =? 6 then 4 else 1) 1 20 (λ _ n, replicate (Z.to_nat n) 255) 4096
    [mkTensor 6 (seqZ 0 200) 100 8192; mkTensor 1 (seqZ 7 64) 1 16384] (replicate 40 0) (replicate 64 0) 2
    (λ _ _, replicate (Z.to_nat 2097280) 0) 3 (λ i k, [])).
  - reflexivity.
  - simpl; lia.
  - repeat constructor; vm_compute; discriminate.
  - intros _ n Hn. unfold zlen. rewrite length_replicate. lia.
  - reflexivity.
  - unfold zlen. rewrite length_replicate. lia.
  - reflexivity.
  - lia.
  - intros _ _. unfold zlen. rewrite length_replicate, Z2Nat.id by lia. vm_compute. discriminate.
Defined.

End TensorList.
