(* ===== verification/Dry.v ===== *)
(** * The DRY repetition scan ([csrc/cpu/dry.cpp])

    For every request the scan looks for earlier places where the end of the token
    history occurred before, and reports the tokens that followed there with the
    length of the repeated sequence; the sampler penalises these tokens.

    [Dry]: the scan of a row with its bounds (range, n-gram cap, sequence breakers,
    number of occurrences, early exit), the batch, and the theorem that the reported
    tokens are exactly those that would continue a repetition. *)

From S2P Require Import Prelude Arrays.

#[local] Open Scope Z_scope.

Module Dry.

(** A [float] equal to [0.0f], from its bits. *)
Definition f32_is_zero (bits : Z) : bool := (bits =? 0) || (bits =? 2147483648).

(** [is_breaker] *)
Definition is_breaker (breaker_ids : list Z) (token : Z) : bool := existsb (Z.eqb token) breaker_ids.

(** ** A row *)

(** [history_at]; [base] is [row * max_history_len]. *)
Definition history_at (history : list Z) (base col : Z) : option Z := rd history (base + col).

(** The breakers of the row, the padding [vocab_size] left out. *)
Definition breaker_ids (breakers : list Z) (row max_breakers vocab_size : Z) : option (list Z) :=
  for_range 0 max_breakers (λ j ids,
    token ← rd breakers (row * max_breakers + j);
    Some (if negb (token =? vocab_size) then ids ++ [token] else ids)) [].

(** The loop that computes [curr_max_ngram]. *)
Definition scan_ngram (history : list Z) (base : Z) (ids : list Z) (history_len ngram_cap : Z) : option Z :=
  '(curr, _) ← for_each_break (seqZ 0 ngram_cap) (λ ngram_idx curr,
    token ← history_at history base (history_len - ngram_idx - 1);
    Some (if is_breaker ids token then (curr, true) else (ngram_idx, false))) (-1);
  Some curr.

(** The loop that fills [endpoint_indexes], and the trimming to the last
    [max_occurrences]. *)
Definition find_endpoints (history : list Z) (base start_idx history_len last_token : Z) : option (list Z) :=
  for_range start_idx (history_len - 1) (λ idx acc,
    token ← history_at history base idx;
    Some (if token =? last_token then acc ++ [idx] else acc)) [].
Definition trim (max_occurrences : Z) (l : list Z) : list Z :=
  if max_occurrences <? Z.of_nat (length l) then drop (length l - Z.to_nat max_occurrences) l else l.

(** The loop that computes [match_len]. *)
Definition scan_match (history : list Z) (base : Z) (ids : list Z) (history_len start_idx curr_max_ngram idx : Z)
  : option Z :=
  let max_unwind := Z.min (idx - start_idx) curr_max_ngram in
  '(match_len, _) ← for_each_break (seqZ 1 max_unwind) (λ unwind match_len,
    candidate_tok ← history_at history base (idx - unwind);
    if is_breaker ids candidate_tok then Some (match_len, true) else
    token ← history_at history base (history_len - unwind - 1);
    Some (if negb (candidate_tok =? token) then (match_len, true) else (unwind, false))) 0;
  Some match_len.

(** [found->second = max(...)] or [emplace_back]. *)
Fixpoint record (token len : Z) (penalties : list (Z * Z)) : list (Z * Z) :=
  match penalties with
  | [] => [(token, len)]
  | (t, l) :: rest => if t =? token then (t, Z.max l len) :: rest else (t, l) :: record token len rest
  end.

(** The body and the loop over the endpoints, latest first. *)
Definition scan_endpoint (history : list Z) (base : Z) (ids : list Z)
    (history_len start_idx curr_max_ngram early_exit idx : Z) (penalties : list (Z * Z)) : option (list (Z * Z) * bool) :=
  match_len ← scan_match history base ids history_len start_idx curr_max_ngram idx;
  if match_len <=? 0 then Some (penalties, false) else
  next_token ← history_at history base (idx + 1);
  let new_len := match_len + 1 in
  Some (record next_token new_len penalties, early_exit <=? new_len).
Definition scan_endpoints (history : list Z) (base : Z) (ids : list Z)
    (history_len start_idx curr_max_ngram early_exit : Z) (endpoints : list Z) : option (list (Z * Z)) :=
  '(penalties, _) ← for_each_break (reverse endpoints)
    (scan_endpoint history base ids history_len start_idx curr_max_ngram early_exit) [];
  Some penalties.

(** The parameters of a request. *)
Record Params := mkParams {
  multiplier : Z; allowed_length : Z; range_limit : Z; max_ngram : Z; max_occurrences : Z; early_exit : Z }.

Definition start_idx (p : Params) (history_len : Z) : Z :=
  if 0 <? range_limit p then Z.max 0 (history_len - range_limit p) else 0.

(** The body of the loop over the rows. *)
Definition dry_row (history : list Z) (base history_len : Z) (ids : option (list Z)) (p : Params)
  : option (list (Z * Z)) :=
  if f32_is_zero (multiplier p) then Some [] else
  if history_len <? 2 then Some [] else
  ids ← ids;
  last_token ← history_at history base (history_len - 1);
  if is_breaker ids last_token then Some [] else
  let start := start_idx p history_len in
  let ngram_cap := Z.min (history_len - start) (max_ngram p + 1) in
  curr_max_ngram ← scan_ngram history base ids history_len ngram_cap;
  if curr_max_ngram <=? allowed_length p then Some [] else
  endpoints ← find_endpoints history base start history_len last_token;
  if bool_decide (endpoints = []) then Some [] else
  scan_endpoints history base ids history_len start curr_max_ngram (early_exit p)
    (trim (max_occurrences p) endpoints).

(** ** The batch *)

Record Batch := mkBatch {
  token_history_ids : list Z; max_history_len : Z; token_history_lens : list Z;
  dry_multiplier : list Z; allowed_lengths : list Z; sequence_breakers_ids : list Z; max_breakers : Z;
  ranges : list Z; max_ngrams : list Z; max_occurrencess : list Z; early_exit_match_len : list Z; vocab_size : Z }.

Definition params_of (b : Batch) (row : Z) : option Params :=
  m ← rd (dry_multiplier b) row; a ← rd (allowed_lengths b) row; r ← rd (ranges b) row;
  n ← rd (max_ngrams b) row; o ← rd (max_occurrencess b) row; e ← rd (early_exit_match_len b) row;
  Some (mkParams m a r n o e).

(** The three vectors of results: rows, tokens, lengths. *)
Definition dry_scan_penalties_cpu (batch_size : Z) (b : Batch) : option (list Z * list Z * list Z) :=
  for_range 0 batch_size (λ row '(row_indices, token_indices, match_lens),
    p ← params_of b row;
    len ← rd (token_history_lens b) row;
    penalties ← dry_row (token_history_ids b) (row * max_history_len b) (Z.min len (max_history_len b))
      (breaker_ids (sequence_breakers_ids b) row (max_breakers b) (vocab_size b)) p;
    Some (row_indices ++ ((λ _, row) <$> penalties), token_indices ++ penalties.*1, match_lens ++ penalties.*2))
    ([], [], []).

(** "a b c a b" with an open range: the c after "a b" is reported with length 2. *)
Example dry_abcab :
  dry_scan_penalties_cpu 1 (mkBatch [7; 8; 9; 7; 8; 0] 6 [5] [1065353216] [0] [100] 1 [0] [20] [10] [50] 100)
  = Some ([0], [9], [2]).
Proof. reflexivity. Qed.

(** ** Scans that stop *)

(** A loop that records how far a condition holds. *)
Lemma scan_until_spec (body : Z -> Z -> option (Z * bool)) (stop : Z -> bool) lo n c0 : 0 <= n ->
  (forall i c, lo <= i < lo + n -> body i c = Some (if stop i then (c, true) else (i, false))) ->
  exists m b, for_each_break (seqZ lo n) body c0 = Some (if m =? 0 then c0 else lo + m - 1, b) /\ 0 <= m <= n /\
    (forall i, lo <= i < lo + m -> stop i = false) /\ (m < n -> stop (lo + m) = true).
Proof.
  intros Hn. revert lo c0. revert n Hn. apply (natlike_ind (λ n, forall lo c0, _ -> _)).
  { intros lo c0 _. exists 0, false. rewrite seqZ_nil by lia. split_and!; (done || lia). }
  intros n Hn IH lo c0 Hb. rewrite seqZ_cons by lia. rewrite Z.pred_succ. cbn [for_each_break].
  rewrite Hb by lia. destruct (stop lo) eqn:Es; cbn [mbind option_bind].
  - exists 0, true. split_and!; [done|lia|lia|lia|]. by rewrite Z.add_0_r.
  - destruct (IH (Z.succ lo) lo) as (m & b & -> & Hm & H1 & H2); [intros; apply Hb; lia|].
    exists (m + 1), b. split_and!; [|lia|lia| |].
    + do 2 f_equal. destruct (Z.eqb_spec m 0), (Z.eqb_spec (m + 1) 0); lia.
    + intros i Hi. destruct (decide (i = lo)) as [->|]; [done|]. apply H1. lia.
    + intros Hlt. replace (lo + (m + 1)) with (Z.succ lo + m) by lia. apply H2. lia.
Qed.

(** A loop that collects the indices with a property. *)
Lemma collect_spec (f : Z -> option Z) (keep : Z -> bool) (g : Z -> Z -> Z) ix acc :
  (forall i, i ∈ ix -> exists t, f i = Some t /\ keep i = (t =? g i t)) ->
  for_each ix (λ i acc, t ← f i; Some (if t =? g i t then acc ++ [i] else acc)) acc
  = Some (acc ++ filter (λ i, keep i = true) ix).
Proof.
  revert acc. induction ix as [|i ix IH]; intros acc H; simpl; [by rewrite app_nil_r|].
  destruct (H i ltac:(constructor)) as (t & -> & Ek). cbn [mbind option_bind].
  rewrite IH by (intros; apply H; by constructor). rewrite filter_cons.
  destruct (t =? g i t); [rewrite decide_True by congruence; by rewrite <- app_assoc|by rewrite decide_False by congruence].
Qed.

(** ** The table of penalties *)
Lemma record_in t l pens t' l' : (t', l') ∈ record t l pens -> (t', l') ∈ pens \/ (t', l') = (t, l).
Proof.
  induction pens as [|[a b] pens IH]; simpl; [by intros ->%list_elem_of_singleton; right|].
  destruct (Z.eqb_spec a t) as [->|].
  - intros [E|H]%elem_of_cons; [|left; by constructor]. simplify_eq. destruct (Z.max_spec b l) as [[_ ->]|[_ ->]];
      [by right|left; by constructor].
  - intros [->|H]%elem_of_cons; [left; by constructor|]. destruct (IH H); [left; by constructor|by right].
Qed.

Lemma record_mono t l pens t' l' : (t', l') ∈ pens -> exists l'', l' <= l'' /\ (t', l'') ∈ record t l pens.
Proof.
  induction pens as [|[a b] pens IH]; simpl; [by intros ?%not_elem_of_nil|].
  destruct (Z.eqb_spec a t) as [->|].
  - intros [E|H]%elem_of_cons; [|exists l'; split; [lia|by constructor]]. simplify_eq. exists (Z.max b l).
    split; [lia|constructor].
  - intros [E|H]%elem_of_cons; [simplify_eq; exists b; split; [lia|constructor]|].
    destruct (IH H) as (l'' & ? & ?). exists l''. split; [done|by constructor].
Qed.

Lemma record_has t l pens : exists l'', l <= l'' /\ (t, l'') ∈ record t l pens.
Proof.
  induction pens as [|[a b] pens IH]; simpl; [exists l; split; [lia|constructor]|].
  destruct (Z.eqb_spec a t) as [->|]; [exists (Z.max b l); split; [lia|constructor]|].
  destruct IH as (l'' & ? & ?). exists l''. split; [done|by constructor].
Qed.

Lemma record_keys t l pens k : k ∈ (record t l pens).*1 -> k ∈ pens.*1 \/ k = t.
Proof.
  induction pens as [|[a b] pens IH]; simpl; [by intros ->%list_elem_of_singleton; right|].
  destruct (Z.eqb_spec a t) as [->|]; simpl; [by left|]. rewrite !elem_of_cons. naive_solver.
Qed.

Lemma record_nodup t l pens : NoDup pens.*1 -> NoDup (record t l pens).*1.
Proof.
  induction pens as [|[a b] pens IH]; simpl; [intros _; apply NoDup_singleton|].
  destruct (Z.eqb_spec a t) as [->|]; simpl; [done|]. intros [Ha Hp]%NoDup_cons. constructor; [|auto].
  intros [?|?]%record_keys; done.
Qed.

(** ** What a row reports *)

Section row.
Context (history : list Z) (base n : Z) (ids : list Z).
Context (Hbase : 0 <= base) (Hhist : base + n <= Z.of_nat (length history)).

(** The token at a place of the history, the place counted from its end. *)
Definition tok (col : Z) : Z := history !!! Z.to_nat (base + col).
Definition from_end (u : Z) : Z := tok (n - 1 - u).

Lemma history_at_tok col : 0 <= col < n -> history_at history base col = Some (tok col).
Proof using Hbase Hhist. intros. unfold history_at, tok. apply rd_total. lia. Qed.

(** The [len] tokens up to place [idx] are the last [len] tokens of the history, none
    of them a breaker, within the range. *)
Definition repeats (start idx len : Z) : Prop :=
  start <= idx - (len - 1) /\ idx < n - 1 /\
  forall u, 0 <= u < len -> tok (idx - u) = from_end u /\ is_breaker ids (tok (idx - u)) = false.

Lemma scan_ngram_spec cap : cap <= n -> exists curr, scan_ngram history base ids n cap = Some curr /\
  -1 <= curr < Z.max 0 cap /\ (forall u, 0 <= u <= curr -> is_breaker ids (from_end u) = false) /\
  (curr + 1 < cap -> is_breaker ids (from_end (curr + 1)) = true).
Proof using Hbase Hhist.
  intros Hc. unfold scan_ngram. destruct (decide (0 <= cap)) as [Hcap|].
  2:{ exists (-1). rewrite seqZ_nil by lia. split_and!; (done || lia). }
  edestruct (scan_until_spec (λ ngram_idx curr, token ← history_at history base (n - ngram_idx - 1);
      Some (if is_breaker ids token then (curr, true) else (ngram_idx, false)))
    (λ u, is_breaker ids (from_end u)) 0 cap (-1)) as (m & b & -> & Hm & H1 & H2); [done| |].
  { intros i c Hi. rewrite history_at_tok by lia. cbn [mbind option_bind]. unfold from_end.
    by replace (n - 1 - i) with (n - i - 1) by lia. }
  cbn [mbind option_bind]. eexists. split; [done|]. destruct (Z.eqb_spec m 0) as [->|].
  - split_and!; [lia|lia|lia|]. intros. apply H2. lia.
  - split_and!; [lia|lia|intros; apply H1; lia|]. intros. replace (0 + m - 1 + 1) with (0 + m) by lia. apply H2. lia.
Qed.

Lemma scan_match_spec start curr idx : 0 <= start -> start <= idx < n - 1 -> curr < n -> 
  exists m, scan_match history base ids n start curr idx = Some m /\ 0 <= m /\
    (m = 0 \/ m <= Z.min (idx - start) curr) /\
    (forall u, 1 <= u <= m -> tok (idx - u) = from_end u /\ is_breaker ids (tok (idx - u)) = false) /\
    (m < Z.min (idx - start) curr ->
      is_breaker ids (tok (idx - (m + 1))) = true \/ tok (idx - (m + 1)) <> from_end (m + 1)).
Proof using Hbase Hhist.
  intros Hs Hi Hc. unfold scan_match. set (mx := Z.min (idx - start) curr).
  destruct (decide (0 <= mx)) as [Hmx|].
  2:{ exists 0. rewrite seqZ_nil by lia. split_and!; (done || lia || (by left)). }
  edestruct (scan_until_spec (λ unwind match_len, candidate_tok ← history_at history base (idx - unwind);
      if is_breaker ids candidate_tok then Some (match_len, true) else
      token ← history_at history base (n - unwind - 1);
      Some (if negb (candidate_tok =? token) then (match_len, true) else (unwind, false)))
    (λ u, is_breaker ids (tok (idx - u)) || negb (tok (idx - u) =? from_end u)) 1 mx 0)
    as (m & b & -> & Hm & H1 & H2); [done| |].
  { intros i c Hi'. rewrite (history_at_tok (idx - i)) by lia. cbn [mbind option_bind]. destruct (is_breaker ids (tok (idx - i))); [reflexivity|].
    rewrite history_at_tok by lia. cbn [mbind option_bind orb]. unfold from_end.
    by replace (n - 1 - i) with (n - i - 1) by lia. }
  cbn [mbind option_bind]. exists m. split_and!.
  - f_equal. destruct (Z.eqb_spec m 0); lia.
  - lia.
  - right. lia.
  - intros u Hu. specialize (H1 u ltac:(lia)). apply orb_false_iff in H1 as [H1 H3%negb_false_iff%Z.eqb_eq]. done.
  - intros Hlt. specialize (H2 Hlt). replace (m + 1) with (1 + m) by lia.
    apply orb_true_iff in H2 as [H2|H2%negb_true_iff%Z.eqb_neq]; auto.
Qed.

(** The loop over the endpoints, for their match lengths [mlen]. *)
Lemma scan_loop (mlen : Z -> Z) start curr early es pens :
  (forall idx, idx ∈ es -> scan_match history base ids n start curr idx = Some (mlen idx) /\
     history_at history base (idx + 1) = Some (tok (idx + 1))) -> NoDup pens.*1 ->
  exists pens' b, for_each_break es (scan_endpoint history base ids n start curr early) pens = Some (pens', b) /\
    NoDup pens'.*1 /\
    (forall t l, (t, l) ∈ pens' -> (t, l) ∈ pens \/
       exists idx, idx ∈ es /\ 0 < mlen idx /\ t = tok (idx + 1) /\ l = mlen idx + 1) /\
    (forall t l, (t, l) ∈ pens -> exists l', l <= l' /\ (t, l') ∈ pens') /\
    (forall pre idx post, es = pre ++ idx :: post -> 0 < mlen idx ->
       Forall (λ j, 0 < mlen j -> mlen j + 1 < early) pre -> exists l, mlen idx + 1 <= l /\ (tok (idx + 1), l) ∈ pens').
Proof using Type.
  intros H. revert pens. induction es as [|e es IH]; intros pens Hp; cbn [for_each_break].
  { exists pens, false. split_and!; [done|done|by left|by eauto using Z.le_refl|]. intros [|] ? ? [=]. }
  destruct (H e ltac:(constructor)) as [Em Ht].
  assert (Eb : scan_endpoint history base ids n start curr early e pens = if mlen e <=? 0 then Some (pens, false)
    else Some (record (tok (e + 1)) (mlen e + 1) pens, early <=? mlen e + 1)).
  { unfold scan_endpoint. rewrite Em. cbn [mbind option_bind]. destruct (mlen e <=? 0); [done|by rewrite Ht]. }
  rewrite Eb.
  assert (H' : forall idx, idx ∈ es -> scan_match history base ids n start curr idx = Some (mlen idx) /\
     history_at history base (idx + 1) = Some (tok (idx + 1))) by (intros; apply H; by constructor).
  destruct (Z.leb_spec (mlen e) 0) as [He|He].
  - cbn [mbind option_bind]. destruct (IH H' pens Hp) as (pens' & b & -> & I1 & I2 & I3 & I4). exists pens', b. split_and!; [done|done| |done|].
    + intros t l Hin. destruct (I2 _ _ Hin) as [?|(idx & ? & ?)]; [by left|]. right. exists idx. split; [by constructor|done].
    + intros [|j pre] idx post [= -> E] Hm Hpre; [lia|]. apply Forall_cons in Hpre as [_ Hpre]. by eapply I4.
  - cbn [mbind option_bind]. set (pens1 := record (tok (e + 1)) (mlen e + 1) pens).
    assert (Hp1 : NoDup pens1.*1) by by apply record_nodup.
    assert (Hin1 : forall t l, (t, l) ∈ pens1 -> (t, l) ∈ pens \/ t = tok (e + 1) /\ l = mlen e + 1).
    { intros t l [?|E]%record_in; [by left|right; by simplify_eq]. }
    destruct (Z.leb_spec early (mlen e + 1)) as [Hx|Hx].
    + exists pens1, true. split_and!; [done|done| |intros; by apply record_mono|].
      * intros t l [?|[-> ->]]%Hin1; [by left|]. right. exists e. split_and!; [constructor|done|done|done].
      * intros [|j pre] idx post [= -> E] Hm Hpre; [apply record_has|]. apply Forall_cons in Hpre as [Hpre _].
        specialize (Hpre ltac:(lia)). lia.
    + destruct (IH H' pens1 Hp1) as (pens' & b & -> & I1 & I2 & I3 & I4). exists pens', b. split_and!; [done|done| | |].
      * intros t l Hin. destruct (I2 _ _ Hin) as [[?|[-> ->]]%Hin1|(idx & ? & ?)].
        -- by left.
        -- right. exists e. split_and!; [constructor|done|done|done].
        -- right. exists idx. split; [by constructor|done].
      * intros t l Hin. destruct (record_mono (tok (e + 1)) (mlen e + 1) _ _ _ Hin) as (l1 & ? & Hin').
        destruct (I3 _ _ Hin') as (l2 & ? & ?). exists l2. split; [lia|done].
      * intros [|j pre] idx post [= -> E] Hm Hpre.
        -- destruct (record_has (tok (idx + 1)) (mlen idx + 1) pens) as (l1 & ? & Hin').
           destruct (I3 _ _ Hin') as (l2 & ? & ?). exists l2. split; [lia|done].
        -- apply Forall_cons in Hpre as [_ Hpre]. by eapply I4.
Qed.

(** *** The row as a whole *)

(** [curr_max_ngram]: how many tokens at the end are free of breakers, minus one. *)
Definition ngram_reach (p : Params) (curr : Z) : Prop :=
  let cap := Z.min (n - start_idx p n) (max_ngram p + 1) in
  -1 <= curr < Z.max 0 cap /\ (forall u, 0 <= u <= curr -> is_breaker ids (from_end u) = false) /\
  (curr + 1 < cap -> is_breaker ids (from_end (curr + 1)) = true).

(** The places of the last token before the end; [idx] is among the last ones. *)
Definition places (lo hi : Z) : list Z := filter (λ i, (tok i =? from_end 0) = true) (seqZ lo (hi - lo)).
Definition recent (p : Params) (idx : Z) : Prop :=
  Z.of_nat (length (places (idx + 1) (n - 1))) < max_occurrences p.

Lemma start_bounds p : 2 <= n -> 0 <= start_idx p n < n.
Proof. unfold start_idx. destruct (Z.ltb_spec 0 (range_limit p)); lia. Qed.

Lemma find_endpoints_spec start : 0 <= start ->
  find_endpoints history base start n (from_end 0) = Some (places start (n - 1)).
Proof.
  intros Hs. unfold find_endpoints, for_range, places.
  rewrite (collect_spec (history_at history base) (λ i, tok i =? from_end 0) (λ _ _, from_end 0)); [done|].
  intros i Hi%elem_of_seqZ. exists (tok i). split; [|done]. apply history_at_tok. lia.
Qed.

Lemma in_places lo hi idx : idx ∈ places lo hi <-> tok idx = from_end 0 /\ lo <= idx < hi.
Proof. unfold places. rewrite list_elem_of_filter, Z.eqb_eq, elem_of_seqZ. lia. Qed.

Lemma places_split lo hi idx : idx ∈ places lo hi ->
  places lo hi = places lo idx ++ idx :: places (idx + 1) hi.
Proof.
  intros [E Hi]%in_places. unfold places. replace (hi - lo) with ((idx - lo) + (hi - idx)) by lia.
  rewrite seqZ_app, filter_app by lia. f_equal. replace (lo + (idx - lo)) with idx by lia.
  rewrite seqZ_cons, filter_cons_True by (lia || (by apply Z.eqb_eq)). do 3 f_equal; lia.
Qed.

(** A recent place is kept, and the places after it are examined before it. *)
Lemma trim_recent p start idx : 0 <= max_occurrences p -> idx ∈ places start (n - 1) -> recent p idx ->
  exists pre post, reverse (trim (max_occurrences p) (places start (n - 1))) = pre ++ idx :: post /\
    forall j, j ∈ pre -> j ∈ places start (n - 1) /\ idx < j.
Proof.
  intros Ho Hin Hr. pose proof (places_split _ _ _ Hin) as E. apply in_places in Hin as [Ei Hi].
  set (l := places start (n - 1)) in *. unfold recent in Hr.
  assert (Hd : exists k, trim (max_occurrences p) l = drop k (places start idx) ++ idx :: places (idx + 1) (n - 1)).
  { unfold trim. destruct (Z.ltb_spec (max_occurrences p) (Z.of_nat (length l))); [|by exists 0%nat].
    exists (length l - Z.to_nat (max_occurrences p))%nat. rewrite E at 2. apply drop_app_le.
    rewrite E, length_app. simpl. lia. }
  destruct Hd as [k ->]. rewrite reverse_app, reverse_cons, <- app_assoc.
  exists (reverse (places (idx + 1) (n - 1))), (reverse (drop k (places start idx))). split; [done|].
  intros j [Ej Hj]%elem_of_reverse%in_places. split; [|lia]. apply in_places. split; [done|lia].
Qed.

Lemma trim_sub o l x : x ∈ reverse (trim o l) -> x ∈ l.
Proof.
  rewrite elem_of_reverse. unfold trim. case_match; [|done]. intros Hx. rewrite <- (take_drop (length l - Z.to_nat o) l). apply elem_of_app. by right.
Qed.

(** The match length of a place is the longest repetition that ends there. *)
Lemma place_match start curr idx : 0 <= start -> curr < n -> idx ∈ places start (n - 1) ->
  is_breaker ids (from_end 0) = false ->
  exists m, scan_match history base ids n start curr idx = Some m /\ 0 <= m /\ (m = 0 \/ m <= curr) /\
    repeats start idx (m + 1) /\ forall l, l <= curr + 1 -> repeats start idx l -> l <= m + 1.
Proof.
  intros Hs Hc [Ei Hi]%in_places Hb. destruct (scan_match_spec start curr idx Hs Hi Hc) as (m & E & Hm & Hm' & H1 & H2).
  exists m. split_and!; [done|done|lia| |].
  - split_and!; [lia|lia|]. intros u Hu. destruct (decide (u = 0)) as [->|]; [|apply H1; lia].
    rewrite Z.sub_0_r. split; [done|by rewrite Ei].
  - intros l Hl (R1 & R2 & R3). destruct (decide (l <= m + 1)); [done|].
    destruct (R3 (m + 1) ltac:(lia)) as [R4 R5]. destruct H2 as [H2|H2]; [lia|congruence|done].
Qed.

(** What a row reports, and what it does not miss. *)
Record Reports (p : Params) (curr : Z) (pens : list (Z * Z)) : Prop := {
  rep_reach : ngram_reach p curr;
  rep_nodup : NoDup pens.*1;
  rep_sound : forall t l, (t, l) ∈ pens -> f32_is_zero (multiplier p) = false /\ allowed_length p < curr /\
    2 <= l <= curr + 1 /\ exists idx, repeats (start_idx p n) idx l /\ tok (idx + 1) = t;
  rep_complete : f32_is_zero (multiplier p) = false -> allowed_length p < curr ->
    forall idx l, 2 <= l <= curr + 1 -> repeats (start_idx p n) idx l -> recent p idx ->
      (forall j l', idx < j -> 2 <= l' <= curr + 1 -> repeats (start_idx p n) j l' -> l' < early_exit p) ->
      exists l', l <= l' /\ (tok (idx + 1), l') ∈ pens }.

Lemma reports_nil p curr : ngram_reach p curr ->
  (f32_is_zero (multiplier p) = false -> allowed_length p < curr ->
    forall idx l, 2 <= l <= curr + 1 -> repeats (start_idx p n) idx l -> False) -> Reports p curr [].
Proof.
  intros Hr Hc. constructor; [done|apply NoDup_nil_2|by intros ? ? ?%not_elem_of_nil|].
  intros H1 H2 idx l Hl Hrep. destruct (Hc H1 H2 idx l Hl Hrep).
Qed.

Lemma repeats_place start idx l : 0 <= start -> 1 <= l -> repeats start idx l -> idx ∈ places start (n - 1).
Proof.
  intros Hs Hl (R1 & R2 & R3). apply in_places. destruct (R3 0 ltac:(lia)) as [R4 _]. rewrite Z.sub_0_r in R4.
  split; [done|lia].
Qed.

(** The endpoints that were found, examined. *)
Lemma scan_reports p curr : 2 <= n -> 0 <= max_occurrences p -> f32_is_zero (multiplier p) = false ->
  is_breaker ids (from_end 0) = false -> ngram_reach p curr -> allowed_length p < curr ->
  exists pens, scan_endpoints history base ids n (start_idx p n) curr (early_exit p)
      (trim (max_occurrences p) (places (start_idx p n) (n - 1))) = Some pens /\ Reports p curr pens.
Proof.
  intros H2 Ho Hz Hb Hr Ha. pose proof (start_bounds p H2) as Hst. set (start := start_idx p n) in *.
  assert (Hc : curr < n) by (destruct Hr as [Hr _]; lia).
  set (mlen := λ idx, default 0 (scan_match history base ids n start curr idx)).
  assert (Hm : forall idx, idx ∈ places start (n - 1) -> scan_match history base ids n start curr idx = Some (mlen idx) /\
    0 <= mlen idx /\ (mlen idx = 0 \/ mlen idx <= curr) /\ repeats start idx (mlen idx + 1) /\
    forall l, l <= curr + 1 -> repeats start idx l -> l <= mlen idx + 1).
  { intros idx Hin. destruct (place_match start curr idx ltac:(lia) Hc Hin Hb) as (m & E & Hrest). unfold mlen. rewrite E. done. }
  destruct (scan_loop mlen start curr (early_exit p) (reverse (trim (max_occurrences p) (places start (n - 1)))) [])
    as (pens & b & E & Hnd & Hs & _ & Hcm).
  - intros idx Hin%trim_sub. split; [by apply Hm|]. apply in_places in Hin as [_ Hin]. apply history_at_tok. lia.
  - apply NoDup_nil_2.
  - exists pens. unfold scan_endpoints. rewrite E. split; [done|]. constructor; [done|done| |].
    + intros t l Hin. destruct (Hs _ _ Hin) as [[]%not_elem_of_nil|(idx & Hin'%trim_sub & Hpos & -> & ->)].
      destruct (Hm _ Hin') as (_ & ? & ? & ? & _). split_and!; [done|done|lia|lia|]. by exists idx.
    + intros _ _ idx l Hl Hrep Hrec Hearly.
      assert (Hin : idx ∈ places start (n - 1)) by (eapply (repeats_place _ _ l); [lia|lia|done]).
      destruct (Hm _ Hin) as (_ & ? & ? & _ & Hmax). specialize (Hmax l ltac:(lia) Hrep).
      destruct (trim_recent p start idx Ho Hin Hrec) as (pre & post & Ep & Hpre).
      destruct (Hcm pre idx post Ep) as (l' & ? & ?); [lia| |exists l'; split; [lia|done]].
      apply Forall_forall. intros j Hj Hjm. destruct (Hpre j Hj) as [Hjin Hlt].
      destruct (Hm _ Hjin) as (_ & ? & ? & Hjr & _). apply (Hearly j); [done|lia|done].
Qed.

Lemma dry_row_reports p : 0 <= max_occurrences p ->
  exists pens curr, dry_row history base n (Some ids) p = Some pens /\ Reports p curr pens.
Proof.
  intros Ho. destruct (scan_ngram_spec (Z.min (n - start_idx p n) (max_ngram p + 1))) as (curr & Ec & Hc).
  { unfold start_idx. destruct (0 <? range_limit p); lia. }
  assert (Hr : ngram_reach p curr) by exact Hc.
  unfold dry_row. destruct (f32_is_zero (multiplier p)) eqn:Ez.
  { exists [], curr. split; [done|]. apply reports_nil; [done|congruence]. }
  destruct (Z.ltb_spec n 2) as [Hn|Hn].
  { exists [], curr. split; [done|]. apply reports_nil; [done|]. intros _ _ idx l Hl (R1 & R2 & _).
    unfold start_idx in R1. destruct (0 <? range_limit p); lia. }
  cbn [mbind option_bind]. rewrite history_at_tok by lia. cbn [mbind option_bind].
  replace (tok (n - 1)) with (from_end 0) by (unfold from_end; f_equal; lia).
  destruct (is_breaker ids (from_end 0)) eqn:Eb.
  { exists [], curr. split; [done|]. apply reports_nil; [done|]. intros _ _ idx l Hl (R1 & R2 & R3).
    destruct (R3 0 ltac:(lia)) as [R4 R5]. congruence. }
  rewrite Ec. cbn [mbind option_bind]. destruct (Z.leb_spec curr (allowed_length p)).
  { exists [], curr. split; [done|]. apply reports_nil; [done|]. lia. }
  rewrite find_endpoints_spec by (pose proof (start_bounds p Hn); lia). cbn [mbind option_bind].
  case_bool_decide as Ee.
  - exists [], curr. split; [done|]. apply reports_nil; [done|]. intros _ _ idx l Hl Hrep.
    pose proof (start_bounds p Hn). apply repeats_place in Hrep; [|lia|lia]. rewrite Ee in Hrep. by apply not_elem_of_nil in Hrep.
  - destruct (scan_reports p curr) as (pens & E & Hp); [done..|lia|]. eauto.
Qed.

End row.

(** ** The batch *)

(** The breakers of a row. *)
Definition row_breakers (b : Batch) (row : Z) : list Z :=
  filter (λ t, t <> vocab_size b)
    ((λ j, sequence_breakers_ids b !!! Z.to_nat (row * max_breakers b + j)) <$> seqZ 0 (max_breakers b)).

(** The tensors have the shapes of a batch. *)
Record well_shaped (B : Z) (b : Batch) : Prop := {
  ws_dims : 0 <= B /\ 0 <= max_history_len b /\ 0 <= max_breakers b;
  ws_history : Z.of_nat (length (token_history_ids b)) = B * max_history_len b;
  ws_breakers : Z.of_nat (length (sequence_breakers_ids b)) = B * max_breakers b;
  ws_rows : Forall (λ a, Z.of_nat (length a) = B) [token_history_lens b; dry_multiplier b; allowed_lengths b;
    ranges b; max_ngrams b; max_occurrencess b; early_exit_match_len b];
  ws_occurrences : Forall (λ o, 0 <= o) (max_occurrencess b) }.

Lemma breaker_ids_spec B b row : well_shaped B b -> 0 <= row < B ->
  breaker_ids (sequence_breakers_ids b) row (max_breakers b) (vocab_size b) = Some (row_breakers b row).
Proof.
  intros [(_ & _ & Hm) _ Hb _ _] Hr. unfold breaker_ids, for_range, row_breakers. rewrite Z.sub_0_r.
  assert (G : forall ix acc, (forall j, j ∈ ix -> 0 <= j < max_breakers b) ->
    for_each ix (λ j ids, token ← rd (sequence_breakers_ids b) (row * max_breakers b + j);
      Some (if negb (token =? vocab_size b) then ids ++ [token] else ids)) acc
    = Some (acc ++ filter (λ t, t <> vocab_size b)
        ((λ j, sequence_breakers_ids b !!! Z.to_nat (row * max_breakers b + j)) <$> ix))).
  { induction ix as [|j ix IH]; intros acc H; simpl; [by rewrite app_nil_r|].
    assert (0 <= j < max_breakers b) by (apply H; constructor).
    rewrite rd_total by nia. cbn [mbind option_bind]. rewrite IH by (intros; apply H; by constructor).
    set (t := sequence_breakers_ids b !!! _). destruct (Z.eqb_spec t (vocab_size b)); simpl.
    - by rewrite filter_cons_False by congruence.
    - by rewrite filter_cons_True, <- app_assoc by done. }
  rewrite G; [done|]. intros j Hj%elem_of_seqZ. lia.
Qed.

Lemma rd_row {A} `{Inhabited A} (a : list A) B row : Z.of_nat (length a) = B -> 0 <= row < B ->
  rd a row = Some (a !!! Z.to_nat row).
Proof. intros. apply rd_total. lia. Qed.

Lemma row_params B b row : well_shaped B b -> 0 <= row < B ->
  exists p len, params_of b row = Some p /\ rd (token_history_lens b) row = Some len /\ 0 <= max_occurrences p.
Proof.
  intros [_ _ _ Hw Ho] Hr. rewrite !Forall_cons in Hw. destruct Hw as (H1 & H2 & H3 & H4 & H5 & H6 & H7 & _).
  unfold params_of. rewrite !(rd_row _ B row) by done. cbn [mbind option_bind]. do 2 eexists. split_and!; [done|done|].
  simpl. eapply (Forall_lookup_total_1 (λ o, 0 <= o)); [done|lia].
Qed.

(** The reports of the rows, one after the other. *)
Definition rows_reported (rowpens : Z -> list (Z * Z)) (rows : list Z) : list Z * list Z * list Z :=
  (rows ≫= λ row, (λ _, row) <$> rowpens row, rows ≫= λ row, (rowpens row).*1, rows ≫= λ row, (rowpens row).*2).

Lemma reports_loop (body : Z -> list Z * list Z * list Z -> option (list Z * list Z * list Z)) rowpens ix r t l :
  (forall row r t l, row ∈ ix -> body row (r, t, l)
    = Some (r ++ ((λ _, row) <$> rowpens row), t ++ (rowpens row).*1, l ++ (rowpens row).*2)) ->
  for_each ix body (r, t, l) = let '(r', t', l') := rows_reported rowpens ix in Some (r ++ r', t ++ t', l ++ l').
Proof.
  revert r t l. induction ix as [|row ix IH]; intros r t l H; simpl; [by rewrite !app_nil_r|].
  rewrite H by constructor. cbn [mbind option_bind]. rewrite IH by (intros; apply H; by constructor).
  unfold rows_reported. simpl. by rewrite !app_assoc.
Qed.



End Dry.
