(* ===== verification/FloatOrder.v ===== *)
(** * Comparisons of IEEE numbers

    The order of the Standard Library's executable [spec_float] as the kernels use it:
    comparisons with NaN are false, the others are those of a lexicographic rank.
    [ScoreOk] is what a search for the best score relies on; [spec_float] is an
    instance.  [widen] is the conversion from [float] to [double]. *)

From Stdlib Require Import SpecFloat.
From S2P Require Import Prelude.

#[local] Open Scope Z_scope.

(** ** Scores *)

Class Score (S : Type) := {
  gt : S -> S -> bool;
  neg_inf : S;
  is_nan : S -> bool
}.

Class ScoreOk (S : Type) `{Score S} : Prop := {
  gt_numbers a b : gt a b = true -> is_nan a = false /\ is_nan b = false;
  gt_irrefl a : gt a a = false;
  gt_trans a b c : gt a b = true -> gt b c = true -> gt a c = true;
  gt_split a b c : is_nan b = false -> gt a c = true -> gt a b = true \/ gt b c = true;
  neg_inf_number : is_nan neg_inf = false;
  neg_inf_least a : gt neg_inf a = false
}.

Section Laws.
Context {S : Type} {SC : Score S} {OK : ScoreOk S}.

Lemma gt_asym a b : gt a b = true -> gt b a = false.
Proof. intros E. destruct (gt b a) eqn:E'; [|done]. pose proof (gt_irrefl a). by rewrite (gt_trans a b a) in *. Qed.

(** Not better than something that is not better. *)
Lemma gt_false_trans a b c : is_nan b = false -> gt a b = false -> gt b c = false -> gt a c = false.
Proof. intros Hb E1 E2. destruct (gt a c) eqn:E; [|done]. by destruct (gt_split a b c Hb E); congruence. Qed.

(** A number that [a] is not better than, while something is: it is better than that. *)
Lemma gt_replace a b c : is_nan b = false -> gt a b = false -> gt a c = true -> gt b c = true.
Proof. intros Hb E1 E2. destruct (gt_split a b c Hb E2); congruence. Qed.

End Laws.

(** ** IEEE numbers *)

#[export] Instance spec_float_eq_dec : EqDecision spec_float.
Proof. solve_decision. Defined.

#[export] Instance spec_float_score : Score spec_float := {|
  gt a b := SFltb b a;
  neg_inf := S754_infinity true;
  is_nan a := match a with S754_nan => true | _ => false end
|}.

#[global] Arguments gt {_ _} _ _ : simpl never.
#[global] Arguments neg_inf {_ _} : simpl never.
#[global] Arguments is_nan {_ _} _ : simpl never.

(** Sign class, exponent and significand, signed: the order is lexicographic. *)
Definition rank (a : spec_float) : Z * Z * Z :=
  match a with
  | S754_zero _ | S754_nan => (0, 0, 0)
  | S754_infinity true => (-2, 0, 0)
  | S754_infinity false => (2, 0, 0)
  | S754_finite true m e => (-1, -e, Zneg m)
  | S754_finite false m e => (1, e, Zpos m)
  end.

Definition lt3 (x y : Z * Z * Z) : Prop :=
  let '(a, b, c) := x in let '(a', b', c') := y in
  a < a' \/ (a = a' /\ (b < b' \/ (b = b' /\ c < c'))).

Lemma gt_rank (a b : spec_float) :
  gt a b = true <-> is_nan a = false /\ is_nan b = false /\ lt3 (rank b) (rank a).
Proof.
  unfold gt, is_nan, spec_float_score, SFltb. destruct a as [sa|[]| |[] ma ea], b as [sb|[]| |[] mb eb]; simpl;
    try (split; intuition (done || lia)).
  all: change (PosDef.Pos.compare_cont Eq mb ma) with (Pos.compare mb ma).
  all: destruct (Z.compare_spec eb ea); simpl; try (split; intuition (done || lia)).
  all: destruct (Pos.compare_spec mb ma); simpl; split; intuition (done || lia).
Qed.

Lemma lt3_irrefl x : ~ lt3 x x.
Proof. destruct x as [[??]?]. simpl. lia. Qed.
Lemma lt3_trans x y z : lt3 x y -> lt3 y z -> lt3 x z.
Proof. destruct x as [[??]?], y as [[??]?], z as [[??]?]. simpl. lia. Qed.
Lemma lt3_split x y z : lt3 x z -> lt3 x y \/ lt3 y z.
Proof. destruct x as [[??]?], y as [[??]?], z as [[??]?]. simpl. lia. Qed.

#[export] Instance spec_float_score_ok : ScoreOk spec_float.
Proof.
  split.
  - by intros a b (?&?&_)%gt_rank.
  - intros a. apply not_true_is_false. intros (_ & _ & []%lt3_irrefl)%gt_rank.
  - intros a b c (?&?&?)%gt_rank (?&?&?)%gt_rank. apply gt_rank. split_and!; [done..|by eapply lt3_trans].
  - intros a b c Hb (?&?&Hl)%gt_rank. rewrite !gt_rank. destruct (lt3_split _ (rank b) _ Hl); tauto.
  - done.
  - intros a. apply not_true_is_false. intros (_&_&Hl)%gt_rank. unfold neg_inf, spec_float_score in Hl. destruct a as [|[]| |[]]; cbn in Hl; lia.
Qed.

(** Equality of numbers, in terms of the order. *)
Lemma eqb_gt (a b : spec_float) : is_nan a = false -> is_nan b = false ->
  SFeqb a b = negb (gt a b) && negb (gt b a).
Proof.
  unfold gt, is_nan, spec_float_score, SFeqb, SFltb.
  destruct a as [sa|[]| |[] ma ea], b as [sb|[]| |[] mb eb]; simpl; try done.
  all: change (PosDef.Pos.compare_cont Eq mb ma) with (Pos.compare mb ma);
    change (PosDef.Pos.compare_cont Eq ma mb) with (Pos.compare ma mb).
  all: rewrite (Z.compare_antisym ea eb), (Pos.compare_antisym ma mb).
  all: destruct (Z.compare_spec ea eb); simpl; try done; destruct (Pos.compare ma mb); done.
Qed.

(** ** Conversion to double precision *)

(** The significand gets 53 digits; exact, since a [float] has at most 24. *)
Definition widen (a : spec_float) : spec_float :=
  match a with
  | S754_finite s m e =>
      let d := 53 - Zpos (digits2_pos m) in
      S754_finite s (Z.to_pos (Z.shiftl (Zpos m) d)) (e - d)
  | _ => a
  end.

(** A number of the 32-bit format. *)
Definition is_float (a : spec_float) : bool := valid_binary 24 128 a.

Lemma digits_bounds m : 2 ^ (Zpos (digits2_pos m) - 1) <= Zpos m < 2 ^ Zpos (digits2_pos m).
Proof.
  induction m as [m IH|m IH|]; cbn [digits2_pos]; [..|done].
  all: rewrite Pos2Z.inj_succ, Z.pow_succ_r by lia.
  all: replace (Z.succ (Zpos (digits2_pos m)) - 1) with (Z.succ (Zpos (digits2_pos m) - 1)) by lia.
  all: rewrite Z.pow_succ_r by lia; lia.
Qed.

Lemma is_float_finite s m e : is_float (S754_finite s m e) = true ->
  Zpos (digits2_pos m) <= 24 /\ -149 <= e /\ (e = -149 \/ Zpos (digits2_pos m) = 24).
Proof.
  unfold is_float, valid_binary, bounded, canonical_mantissa, fexp, emin. intros [E%Z.eqb_eq _]%andb_prop. lia.
Qed.

Lemma shift_digits m d : Zpos (digits2_pos m) <= d ->
  Zpos (Z.to_pos (Z.shiftl (Zpos m) (d - Zpos (digits2_pos m)))) = Zpos m * 2 ^ (d - Zpos (digits2_pos m)).
Proof. intros Hd. rewrite Z.shiftl_mul_pow2 by lia. apply Z2Pos.id. pose proof (Z.pow_pos_nonneg 2 (d - Zpos (digits2_pos m))). lia. Qed.

(** The order of two positive numbers does not change. *)
Lemma widen_lex m1 e1 m2 e2 :
  is_float (S754_finite false m1 e1) = true -> is_float (S754_finite false m2 e2) = true ->
  (e1 < e2 \/ (e1 = e2 /\ Zpos m1 < Zpos m2)) ->
  let d1 := 53 - Zpos (digits2_pos m1) in let d2 := 53 - Zpos (digits2_pos m2) in
  e1 - d1 < e2 - d2 \/ (e1 - d1 = e2 - d2 /\ Zpos m1 * 2 ^ d1 < Zpos m2 * 2 ^ d2).
Proof.
  intros (?&?&H1)%is_float_finite (?&?&H2)%is_float_finite Hl d1 d2.
  destruct Hl as [Hl|[-> Hm]]; [left; lia|].
  destruct (Z.lt_trichotomy (Zpos (digits2_pos m1)) (Zpos (digits2_pos m2))) as [?|[E|Hgt]]; [left; lia| |].
  - right. subst d1 d2. rewrite E. split; [done|]. apply Z.mul_lt_mono_pos_r; [apply Z.pow_pos_nonneg; lia|done].
  - exfalso. pose proof (digits_bounds m1). pose proof (digits_bounds m2).
    pose proof (Z.pow_le_mono_r 2 (Zpos (digits2_pos m2)) (Zpos (digits2_pos m1) - 1)). lia.
Qed.

Lemma is_float_sign s s' m e : is_float (S754_finite s m e) = is_float (S754_finite s' m e).
Proof. done. Qed.

Lemma widen_lt3 a b : is_float a = true -> is_float b = true -> lt3 (rank a) (rank b) ->
  lt3 (rank (widen a)) (rank (widen b)).
Proof.
  intros Ha Hb. destruct a as [sa|[]| |[] ma ea], b as [sb|[]| |[] mb eb]; cbn [widen rank lt3]; try lia; intros Hl.
  all: pose proof (is_float_finite _ _ _ Ha) as (?&_&_); pose proof (is_float_finite _ _ _ Hb) as (?&_&_).
  - pose proof (widen_lex mb eb ma ea Hb Ha ltac:(lia)) as Hw. cbv zeta in Hw. right. split; [done|].
    rewrite <- !Pos2Z.opp_pos, !shift_digits by lia. lia.
  - pose proof (widen_lex ma ea mb eb Ha Hb ltac:(lia)) as Hw. cbv zeta in Hw. right. split; [done|].
    rewrite !shift_digits by lia. lia.
Qed.

Lemma widen_nan a : is_nan (widen a) = is_nan a.
Proof. by destruct a. Qed.

Lemma lt3_total x y : lt3 x y \/ x = y \/ lt3 y x.
Proof.
  destruct x as [[a b] c], y as [[a' b'] c']. simpl.
  destruct (Z.lt_trichotomy a a') as [?|[->|?]]; [lia| |lia].
  destruct (Z.lt_trichotomy b b') as [?|[->|?]]; [lia| |lia].
  destruct (Z.lt_trichotomy c c') as [?|[->|?]]; [lia|by right; left|lia].
Qed.

Lemma rank_finite s m e s' m' e' : rank (S754_finite s m e) = rank (S754_finite s' m' e') -> (s, m, e) = (s', m', e').
Proof. destruct s, s'; simpl; intros [= E1 E2]; f_equal; f_equal; lia || congruence. Qed.

Lemma widen_rank_eq a b : rank a = rank b -> rank (widen a) = rank (widen b).
Proof.
  destruct a as [?|[]| |s m e], b as [?|[]| |s' m' e']; try done; intros E; try (destruct s; done); try (destruct s'; done).
  apply rank_finite in E. by simplify_eq.
Qed.

Lemma widen_gt a b : is_float a = true -> is_float b = true -> gt (widen a) (widen b) = gt a b.
Proof.
  intros Ha Hb. apply eq_true_iff_eq. rewrite !gt_rank, !widen_nan. split; intros (?&?&Hl); split_and!; try done.
  - destruct (lt3_total (rank b) (rank a)) as [?|[E|Hr]]; [done|..]; exfalso.
    + rewrite (widen_rank_eq _ _ E) in Hl. by apply lt3_irrefl in Hl.
    + apply (lt3_irrefl (rank (widen a))). eapply lt3_trans; [by apply widen_lt3|done].
  - by apply widen_lt3.
Qed.

(** The least finite number of the 32-bit format. *)
Definition lowest : spec_float := S754_finite true 16777215 104.

Lemma below_lowest a : is_float a = true -> gt lowest a = true -> a = neg_inf.
Proof.
  intros Ha (_ & Hn & Hl)%gt_rank. destruct a as [|[]| |[] m e]; cbn in Hl; try lia; [done|].
  unfold is_float, valid_binary, bounded in Ha. apply andb_prop in Ha as [Hc He%Z.leb_le].
  pose proof (is_float_finite true m e) as Hf. unfold is_float, valid_binary, bounded in Hf.
  rewrite Hc, (proj2 (Z.leb_le _ _) He) in Hf. specialize (Hf eq_refl) as (Hd & _).
  pose proof (digits_bounds m) as [_ Hm]. pose proof (Z.pow_le_mono_r 2 (Zpos (digits2_pos m)) 24 ltac:(lia) Hd).
  change (2 ^ 24) with 16777216 in *. lia.
Qed.
