(* ===== verification/SampleNoise.v ===== *)
(** * Random numbers of the samplers

    [csrc/cpu/sampling/common.h] (the hash behind the noise of [gumbel_sample_cpu]) and
    the generator of [csrc/cpu/sampling_kernels.cpp].  The noise of a token is a
    function of seed, position and token: nothing is drawn from a shared state.
    Floating-point numbers are [spec_float]; the logarithm of the C++ library is a
    parameter. *)

From Stdlib Require Import SpecFloat.
From S2P Require Import Prelude FloatOrder.

#[local] Open Scope Z_scope.

Module Noise.

(** ** The hash *)

Definition DRAFT_NOISE_SALT : Z := Z.shiftl 1 30.

Definition murmur3_rotl32 (value shift : Z) : Z :=
  Z.lor (u32 (Z.shiftl value shift)) (Z.shiftr value (32 - shift)).

Definition murmur3_mix (hash key : Z) : Z :=
  let key := u32 (key * 0xcc9e2d51) in
  let key := murmur3_rotl32 key 15 in
  let key := u32 (key * 0x1b873593) in
  let hash := Z.lxor hash key in
  let hash := murmur3_rotl32 hash 13 in
  u32 (hash * 5 + 0xe6546b64).

Definition murmur3_fmix32 (hash : Z) : Z :=
  let hash := Z.lxor hash (Z.shiftr hash 16) in
  let hash := u32 (hash * 0x85ebca6b) in
  let hash := Z.lxor hash (Z.shiftr hash 13) in
  let hash := u32 (hash * 0xc2b2ae35) in
  Z.lxor hash (Z.shiftr hash 16).

Definition murmur3_hash32_prefix (seed position domain : Z) : Z :=
  let seed_bits := u64 seed in
  let hash := domain in
  let hash := murmur3_mix hash (u32 seed_bits) in
  let hash := murmur3_mix hash (u32 (Z.shiftr seed_bits 32)) in
  murmur3_mix hash (u32 position).

Definition murmur3_hash32 (seed position token_id domain : Z) : Z :=
  let hash := murmur3_hash32_prefix seed position domain in
  let hash := murmur3_mix hash token_id in
  murmur3_fmix32 (Z.lxor hash 16).

(** ** Uniform numbers and noise *)

(** Conversions of integers, and the arithmetic of the two formats. *)
Definition float_of_int (z : Z) : spec_float := binary_normalize 24 128 z 0 false.
Definition double_of_int (z : Z) : spec_float := binary_normalize 53 1024 z 0 false.
(** The constants [0.5] and powers of two. *)
Definition float_pow2 (e : Z) : spec_float := binary_normalize 24 128 1 e false.
Definition double_pow2 (e : Z) : spec_float := binary_normalize 53 1024 1 e false.
Definition double_eqb (a b : spec_float) : bool := SFeqb a b.

Definition murmur3_uniform32 (seed position token_id : Z) : spec_float :=
  let random := murmur3_hash32 seed position token_id 0 in
  let high := Z.shiftr random 16 in
  let low := Z.land random 0xffff in
  SFadd 24 128 (SFmul 24 128 (float_of_int high) (float_pow2 (-16)))
    (SFmul 24 128 (SFadd 24 128 (float_of_int low) (float_pow2 (-1))) (float_pow2 (-32))).

Definition murmur3_uniform64 (seed position token_id : Z) : spec_float :=
  let low := murmur3_hash32 seed position token_id 0 in
  let high := murmur3_hash32 seed position token_id 0x9e3779b9 in
  let random53 := Z.shiftr (Z.lor (u64 (Z.shiftl high 32)) low) 11 in
  let uniform := SFmul 53 1024 (SFadd 53 1024 (double_of_int random53) (double_pow2 (-1)))
                   (double_pow2 (-53)) in
  if double_eqb uniform (double_pow2 0) then SFsub 53 1024 uniform (double_pow2 (-53)) else uniform.

Section Log.
(** [std::log] on the two formats. *)
Context (logf log : spec_float -> spec_float).

Definition fdiv_int (a b : Z) : spec_float := SFdiv 24 128 (float_of_int a) (float_of_int b).
(** [5.960464477539063e-08f] is 2^-24. *)
Definition log1p_neg_stable (value : spec_float) : spec_float :=
  let polynomial := foldl (fun polynomial k => SFadd 24 128 (fdiv_int 1 k) (SFmul 24 128 value polynomial))
    (fdiv_int 1 8) [7; 6; 5; 4; 3; 2; 1] in
  let series := SFmul 24 128 (SFopp value) polynomial in
  let rest := SFsub 24 128 (float_pow2 0) value in
  let least := float_pow2 (-24) in
  let direct := logf (if SFltb rest least then least else rest) in
  if SFltb value (float_pow2 (-2)) then series else direct.

Definition gumbel_noise32 (seed position token_id : Z) : spec_float :=
  SFopp (logf (SFopp (log1p_neg_stable (murmur3_uniform32 seed position token_id)))).

Definition gumbel_noise64 (seed position token_id : Z) : spec_float :=
  SFopp (log (SFopp (log (murmur3_uniform64 seed position token_id)))).

End Log.

(** ** The generator of [fused_gumbel_argmax] *)

Definition SPLITMIX_GAMMA : Z := 0x9E3779B97F4A7C15.

Definition splitmix64 (z : Z) : Z :=
  let z := u64 (Z.lxor z (Z.shiftr z 30) * 0xBF58476D1CE4E5B9) in
  let z := u64 (Z.lxor z (Z.shiftr z 27) * 0x94D049BB133111EB) in
  Z.lxor z (Z.shiftr z 31).

(** The word from which the noise of token [i] is taken. *)
Definition token_word (seed i : Z) : Z :=
  let key := splitmix64 (u64 seed) in
  splitmix64 (u64 (key + u64 (u64 (i + 1) * SPLITMIX_GAMMA))).

(** ** Invertible steps *)

Lemma mul_inverse_inj w c inv a b : 1 <= w -> (c * inv) mod w = 1 mod w -> 0 <= a < w -> 0 <= b < w ->
  (a * c) mod w = (b * c) mod w -> a = b.
Proof.
  intros Hw Hinv Ha Hb E. rewrite <- (Z.mod_small a w), <- (Z.mod_small b w) by done.
  assert (forall x, x mod w = ((x * c) mod w * inv) mod w) as R.
  { intros x. rewrite Z.mul_mod_idemp_l, <- Z.mul_assoc by lia.
    rewrite <- Z.mul_mod_idemp_r, Hinv, Z.mul_mod_idemp_r by lia. by rewrite Z.mul_1_r. }
  by rewrite (R a), (R b), E.
Qed.

Lemma mul32_inj c inv a b : (c * inv) mod 4294967296 = 1 -> is_u32 a -> is_u32 b ->
  u32 (a * c) = u32 (b * c) -> a = b.
Proof. intros. by apply (mul_inverse_inj 4294967296 c inv). Qed.

Lemma mul64_inj c inv a b : (c * inv) mod 18446744073709551616 = 1 -> is_u64 a -> is_u64 b ->
  u64 (a * c) = u64 (b * c) -> a = b.
Proof. intros. by apply (mul_inverse_inj 18446744073709551616 c inv). Qed.

(** [x ^ (x >> k)] *)
Lemma xorshift_inj k a b : 1 <= k -> 0 <= a -> 0 <= b ->
  Z.lxor a (Z.shiftr a k) = Z.lxor b (Z.shiftr b k) -> a = b.
Proof.
  intros Hk Ha Hb E. apply Z.lxor_eq.
  assert (Z.lxor a b = Z.shiftr (Z.lxor a b) k) as Ed.
  { rewrite Z.shiftr_lxor. apply Z.lxor_eq.
    transitivity (Z.lxor (Z.lxor a (Z.shiftr a k)) (Z.lxor b (Z.shiftr b k))).
    - rewrite !Z.lxor_assoc. f_equal. rewrite <- !Z.lxor_assoc. f_equal. apply Z.lxor_comm.
    - rewrite E. apply Z.lxor_nilpotent. }
  pose proof (proj2 (Z.lxor_nonneg a b) (conj (fun _ => Hb) (fun _ => Ha))) as Hn.
  rewrite Z.shiftr_div_pow2 in Ed by lia. set (d := Z.lxor a b) in *.
  destruct (Z.eq_dec d 0) as [|Hd]; [done|].
  pose proof (Z.pow_le_mono_r 2 1 k). pose proof (Z.div_lt d (2 ^ k)). lia.
Qed.

Lemma rotl_inj s a b : 0 <= s <= 32 -> is_u32 a -> is_u32 b ->
  murmur3_rotl32 a s = murmur3_rotl32 b s -> a = b.
Proof.
  intros Hs Ha Hb. unfold murmur3_rotl32.
  assert (forall v, is_u32 v -> Z.lor (u32 (Z.shiftl v s)) (Z.shiftr v (32 - s))
    = (v mod 2 ^ (32 - s)) * 2 ^ s + v / 2 ^ (32 - s)) as R.
  { intros v Hv. unfold is_u32, u32 in *. rewrite Z.shiftl_mul_pow2, Z.shiftr_div_pow2 by lia.
    change 4294967296 with (2 ^ 32). replace 32 with ((32 - s) + s) at 1 by lia.
    rewrite Z.pow_add_r, Z.mul_mod_distr_r by lia. apply lor_disjoint; [lia|].
    split; [apply Z.div_pos; lia|]. apply Z.div_lt_upper_bound; [lia|].
    rewrite <- Z.pow_add_r by lia. replace (32 - s + s) with 32 by lia. change (2 ^ 32) with 4294967296. lia. }
  rewrite !R by done. intros E.
  assert (forall v, is_u32 v -> 0 <= v / 2 ^ (32 - s) < 2 ^ s) as B.
  { intros v Hv. unfold is_u32 in Hv. split; [apply Z.div_pos; lia|]. apply Z.div_lt_upper_bound; [lia|].
    rewrite <- Z.pow_add_r by lia. replace (32 - s + s) with 32 by lia. change (2 ^ 32) with 4294967296. lia. }
  pose proof (B a Ha). pose proof (B b Hb).
  assert (a mod 2 ^ (32 - s) = b mod 2 ^ (32 - s) /\ a / 2 ^ (32 - s) = b / 2 ^ (32 - s)) as [E1 E2].
  { apply (Z.div_mod_unique (2 ^ s)); [by left..|]. rewrite !(Z.mul_comm (2 ^ s)). exact E. }
  rewrite (Z.div_mod a (2 ^ (32 - s))), (Z.div_mod b (2 ^ (32 - s))) by lia. by rewrite E1, E2.
Qed.

Lemma rotl_range s v : 0 <= s <= 32 -> is_u32 v -> is_u32 (murmur3_rotl32 v s).
Proof.
  intros Hs Hv. apply (lor_range _ _ 32); [done|apply u32_range|]. unfold is_u32 in *.
  rewrite Z.shiftr_div_pow2 by lia. split; [apply Z.div_pos; lia|]. change (2 ^ 32) with 4294967296.
  pose proof (Z.div_le_upper_bound v (2 ^ (32 - s)) v). nia.
Qed.

Lemma lxor_u32 a b : is_u32 a -> is_u32 b -> is_u32 (Z.lxor a b).
Proof. apply (lxor_range a b 32). done. Qed.

Lemma lxor_inj_l a b c : Z.lxor a b = Z.lxor a c -> b = c.
Proof. intros E. apply (f_equal (Z.lxor a)) in E. by rewrite <- !Z.lxor_assoc, Z.lxor_nilpotent, !Z.lxor_0_l in E. Qed.
Lemma lxor_inj_r a b c : Z.lxor b a = Z.lxor c a -> b = c.
Proof. rewrite (Z.lxor_comm b), (Z.lxor_comm c). apply lxor_inj_l. Qed.

Lemma affine32_inj c inv d a b : (c * inv) mod 4294967296 = 1 -> is_u32 a -> is_u32 b ->
  u32 (a * c + d) = u32 (b * c + d) -> a = b.
Proof.
  intros Hc Ha Hb E. apply (mul32_inj c inv); [done..|]. unfold u32 in *.
  rewrite <- (Z.add_simpl_r (a * c) d), <- (Z.add_simpl_r (b * c) d), <- (Z.add_opp_r (a * c + d)), <- (Z.add_opp_r (b * c + d)).
  by rewrite <- Z.add_mod_idemp_l, E, Z.add_mod_idemp_l by lia.
Qed.

Lemma mix_range h k : is_u32 (murmur3_mix h k).
Proof. apply u32_range. Qed.

Lemma mix_key_inj h k k' : is_u32 h -> is_u32 k -> is_u32 k' -> murmur3_mix h k = murmur3_mix h k' -> k = k'.
Proof.
  intros Hh Hk Hk' E. unfold murmur3_mix in E.
  apply (affine32_inj 5 0xcccccccd) in E; [|reflexivity|apply rotl_range, lxor_u32; try done; apply u32_range..].
  apply rotl_inj in E; [|lia|apply lxor_u32; [done|apply u32_range]..]. apply lxor_inj_l in E.
  apply (mul32_inj 0x1b873593 0x56ed309b) in E; [|reflexivity|apply rotl_range; [lia|apply u32_range]..].
  apply rotl_inj in E; [|lia|apply u32_range..].
  by apply (mul32_inj 0xcc9e2d51 0xdee13bb1) in E; [|reflexivity|..].
Qed.

Lemma mix_hash_inj h h' k : is_u32 h -> is_u32 h' -> murmur3_mix h k = murmur3_mix h' k -> h = h'.
Proof.
  intros Hh Hh' E. unfold murmur3_mix in E.
  apply (affine32_inj 5 0xcccccccd) in E; [|reflexivity|apply rotl_range, lxor_u32; try done; apply u32_range..].
  apply rotl_inj in E; [|lia|apply lxor_u32; [done|apply u32_range]..]. by apply lxor_inj_r in E.
Qed.

Lemma xorshift_range w k a : 0 <= w -> 0 <= k -> 0 <= a < 2 ^ w -> 0 <= Z.lxor a (Z.shiftr a k) < 2 ^ w.
Proof.
  intros Hw Hk Ha. apply lxor_range; [done|done|]. rewrite Z.shiftr_div_pow2 by done.
  pose proof (Z.pow_pos_nonneg 2 k). split; [apply Z.div_pos; lia|]. apply Z.div_lt_upper_bound; nia.
Qed.

Lemma fmix_inj h h' : is_u32 h -> is_u32 h' -> murmur3_fmix32 h = murmur3_fmix32 h' -> h = h'.
Proof.
  intros Hh Hh' E. unfold murmur3_fmix32 in E.
  assert (forall k z, 0 <= k -> is_u32 z -> is_u32 (Z.lxor z (Z.shiftr z k))) as X
    by (intros; by apply (xorshift_range 32)).
  apply xorshift_inj in E; [|lia|apply u32_range..].
  apply (mul32_inj 0xc2b2ae35 0x7ed1b41d) in E; [|reflexivity|apply X; [lia|apply u32_range]..].
  apply xorshift_inj in E; [|lia|apply u32_range..].
  apply (mul32_inj 0x85ebca6b 0xa5cb9243) in E; [|reflexivity|apply X; [lia|done]..].
  apply xorshift_inj in E; [done|lia|apply Hh|apply Hh'].
Qed.

Lemma splitmix_inj a b : is_u64 a -> is_u64 b -> splitmix64 a = splitmix64 b -> a = b.
Proof.
  intros Ha Hb E. unfold splitmix64 in E.
  assert (forall k z, 0 <= k -> is_u64 z -> is_u64 (Z.lxor z (Z.shiftr z k))) as X
    by (intros; by apply (xorshift_range 64)).
  apply xorshift_inj in E; [|lia|apply u64_range..].
  apply (mul64_inj 0x94D049BB133111EB 0x319642b2d24d8ec3) in E; [|reflexivity|apply X; [lia|apply u64_range]..].
  apply xorshift_inj in E; [|lia|apply u64_range..].
  apply (mul64_inj 0xBF58476D1CE4E5B9 0x96de1b173f119089) in E; [|reflexivity|apply X; [lia|done]..].
  apply xorshift_inj in E; [done|lia|apply Ha|apply Hb].
Qed.

Lemma splitmix_range z : is_u64 (splitmix64 z).
Proof. apply (xorshift_range 64); [done|done|apply u64_range]. Qed.

Lemma hash_is seed p t d :
  murmur3_hash32 seed p t d = murmur3_fmix32 (Z.lxor (murmur3_mix (murmur3_hash32_prefix seed p d) t) 16).
Proof. reflexivity. Qed.
Lemma prefix_is seed p d : murmur3_hash32_prefix seed p d =
  murmur3_mix (murmur3_mix (murmur3_mix d (u32 (u64 seed))) (u32 (Z.shiftr (u64 seed) 32))) (u32 p).
Proof. reflexivity. Qed.

Lemma hash_inj seed p p' t t' d : murmur3_hash32 seed p t d = murmur3_hash32 seed p' t' d ->
  murmur3_mix (murmur3_hash32_prefix seed p d) t = murmur3_mix (murmur3_hash32_prefix seed p' d) t'.
Proof.
  rewrite !hash_is. intros E.
  assert (is_u32 16) as H16 by (unfold is_u32; lia).
  apply fmix_inj in E; [by apply lxor_inj_r in E|apply lxor_u32; [apply mix_range|exact H16]..].
Qed.

(** ** Results *)

(** The noise of [gumbel_sample_cpu] does not repeat: for one seed and position no
    two tokens get the same 32-bit hash, for one seed and token no two positions do
    (up to 32 bits), and in particular the stream of the drafts, whose positions are
    moved by the salt, never uses the hash that the verification uses for the same
    token at any position below 2^30. *)
Theorem noise_streams seed domain :
  (forall p t t', is_u32 t -> is_u32 t' ->
     murmur3_hash32 seed p t domain = murmur3_hash32 seed p t' domain -> t = t') /\
  (forall p q t, murmur3_hash32 seed p t domain = murmur3_hash32 seed q t domain -> u32 p = u32 q) /\
  (forall p q t, 0 <= p < 2 ^ 30 -> 0 <= q < 2 ^ 30 ->
     murmur3_hash32 seed p t domain <> murmur3_hash32 seed (q + DRAFT_NOISE_SALT) t domain).
Proof.
  assert (forall p q t, murmur3_hash32 seed p t domain = murmur3_hash32 seed q t domain -> u32 p = u32 q) as Hp.
  { intros p q t E%hash_inj. rewrite !prefix_is in E. apply mix_hash_inj in E; [|apply mix_range..].
    apply mix_key_inj in E; [done|apply mix_range|apply u32_range..]. }
  split_and!; [|exact Hp|].
  - intros p t t' Ht Ht' E%hash_inj. rewrite prefix_is in E. by apply mix_key_inj in E; [|apply mix_range|..].
  - intros p q t Hpr Hqr E%Hp. change (2 ^ 30) with 1073741824 in *.
    change DRAFT_NOISE_SALT with 1073741824 in E. unfold u32 in E. rewrite !Z.mod_small in E; lia.
Qed.

(** The generator of [fused_gumbel_argmax] does not repeat either: the 64-bit words
    of different tokens under one seed are different, and so are the words of one token
    under different seeds. *)
Theorem token_words_distinct :
  (forall seed i j, 0 <= i < 2 ^ 63 -> 0 <= j < 2 ^ 63 -> token_word seed i = token_word seed j -> i = j) /\
  (forall s s' i, is_i64 s -> is_i64 s' -> token_word s i = token_word s' i -> s = s').
Proof.
  assert (forall a b c, u64 (a + c) = u64 (b + c) -> is_u64 a -> is_u64 b -> a = b) as Hadd.
  { intros a b c E Ha Hb. unfold u64, is_u64 in *. rewrite <- (Z.mod_small a 18446744073709551616), <- (Z.mod_small b 18446744073709551616) by done.
    rewrite <- (Z.add_simpl_r a c), <- (Z.add_simpl_r b c), <- !Z.add_opp_r.
    by rewrite <- Z.add_mod_idemp_l, E, Z.add_mod_idemp_l by lia. }
  split.
  - intros seed i j Hi Hj E. change (2 ^ 63) with 9223372036854775808 in *. unfold token_word in E. apply splitmix_inj in E; [|apply u64_range..].
    rewrite !(Z.add_comm (splitmix64 _)) in E. apply Hadd in E; [|apply u64_range..].
    apply (mul64_inj SPLITMIX_GAMMA 0xf1de83e19937733d) in E; [|reflexivity|apply u64_range..].
    unfold u64 in E. rewrite !Z.mod_small in E; lia.
  - intros s s' i Hs Hs' E. unfold token_word in E. apply splitmix_inj in E; [|apply u64_range..].
    apply Hadd in E; [|apply splitmix_range..]. apply splitmix_inj in E; [|apply u64_range..].
    unfold is_i64, u64 in *. pose proof (Z.div_mod s 18446744073709551616). pose proof (Z.div_mod s' 18446744073709551616).
    assert (-1 <= s / 18446744073709551616 <= 0 /\ -1 <= s' / 18446744073709551616 <= 0) as [? ?];
      [split; split; (apply Z.div_le_lower_bound; lia) || (apply Z.lt_succ_r, Z.div_lt_upper_bound; lia)|lia].
Qed.

Lemma noise_streams_witness :
  murmur3_hash32 7 3 100 0 <> murmur3_hash32 7 3 101 0 /\
  murmur3_hash32 7 3 100 0 <> murmur3_hash32 7 (3 + DRAFT_NOISE_SALT) 100 0.
Proof.
  destruct (noise_streams 7 0) as (H1 & _ & H3). split; [|apply H3; lia].
  intros E. specialize (H1 3 100 101 ltac:(unfold is_u32; lia) ltac:(unfold is_u32; lia) E). clear -H1. lia.
Defined.

Lemma token_words_distinct_witness : token_word 5 0 <> token_word 5 1 /\ token_word 5 0 <> token_word 6 0.
Proof.
  destruct token_words_distinct as (H1 & H2). split.
  - intros E. specialize (H1 5 0 1 ltac:(lia) ltac:(lia) E). clear -H1. lia.
  - intros E. specialize (H2 5 6 0 ltac:(unfold is_i64; lia) ltac:(unfold is_i64; lia) E). clear -H2. lia.
Defined.

End Noise.
