(* ===== verification/FusedGumbel.v ===== *)
(** * Fused Gumbel sampling ([csrc/cpu/sampling_kernels.cpp], [fused_gumbel_argmax])

    The sampler that draws the noise of a token only when the token can still win.  A row
    is scanned once; a token is skipped when it is masked, when even the largest noise
    would not do, and when its uniform number shows that its noise would not do.

    The kernel is generic in the arithmetic of [double].  IEEE double precision, with
    [std::exp] and [std::log] as parameters, is the instance that the code runs
    ([double_ops]); the theorem is about the instance of the real numbers with minus
    infinity ([exact_ops]), where the skipped tokens are compared with the definition of
    Gumbel sampling.  What rounding adds is not treated.  Rows run in the order of a
    [Schedule]; the checks of the tensors' devices and element types are left out. *)

From Stdlib Require Import SpecFloat Reals Lra.
From S2P Require Import Prelude Arrays FloatOrder SampleNoise.

#[local] Open Scope Z_scope.

Module FusedGumbel.
Import Noise.

(** The arithmetic of [double]; [dlit m e] is the constant or integer [m * 2^e]. *)
Class DoubleOps (D : Type) := {
  dadd : D -> D -> D;
  dsub : D -> D -> D;
  dmul : D -> D -> D;
  dopp : D -> D;
  dleb : D -> D -> bool;
  dltb : D -> D -> bool;
  deqb : D -> D -> bool;
  dlit : Z -> Z -> D;
  dneg_inf : D;
  dexp : D -> D;
  dlog : D -> D
}.

(** The conversion of a logit, a [float], to [double]. *)
Class Logit (L D : Type) := to_double : L -> D.

Definition double_ops (exp log : spec_float -> spec_float) : DoubleOps spec_float := {|
  dadd := SFadd 53 1024;
  dsub := SFsub 53 1024;
  dmul := SFmul 53 1024;
  dopp := SFopp;
  dleb := SFleb;
  dltb := SFltb;
  deqb := SFeqb;
  dlit m e := binary_normalize 53 1024 m e false;
  dneg_inf := neg_inf;
  dexp := exp;
  dlog := log
|}.
Definition float_logit : Logit spec_float spec_float := widen.

Section Kernel.
Context {L D : Type} `{DoubleOps D} `{Logit L D}.

(** [37.5] *)
Definition GUMBEL_MAX : D := dlit 75 (-1).

(** [(double(bits) + 0.5) * 0x1.0p-53] *)
Definition unit_of (bits : Z) : D := dmul (dadd (dlit bits 0) (dlit 1 (-1))) (dlit 1 (-53)).

Record Best := {
  best_logit : D;
  best_g : D;
  best_idx : Z;
  have_best : bool
}.

Definition no_best : Best :=
  {| best_logit := dlit 0 0; best_g := dlit 0 0; best_idx := 0; have_best := false |}.

Section Row.
Context (seed : Z).

Definition token_bits (i : Z) : Z := Z.shiftr (token_word seed i) 11.

(** The noise of a token. *)
Definition token_noise (i : Z) : D := dopp (dlog (dopp (dlog (unit_of (token_bits i))))).

(** The tests against the best token so far, in the order of the code. *)
Definition rejected (best : Best) (i : Z) (x : D) : bool :=
  let d := dsub x (best_logit best) in
  dleb (dadd d GUMBEL_MAX) (best_g best)
  || dleb (dexp (dsub d (best_g best))) (unit_of (2 ^ 53 - 1 - token_bits i))
  || negb (dltb (best_g best) (dadd d (token_noise i))).

Definition fused_step (i : Z) (x : L) (best : Best) : Best :=
  let x := to_double x in
  if deqb x dneg_inf then best
  else if have_best best && rejected best i x then best
  else {| best_logit := x; best_g := token_noise i; best_idx := i; have_best := true |}.

Definition fused_gumbel_argmax_row (logits : list L) (row vocab_size : Z) : option Z :=
  best ← for_range 0 vocab_size (fun i best => x ← rd logits (row + i); Some (fused_step i x best)) no_best;
  Some (best_idx best).

End Row.

Definition fused_gumbel_argmax_kernel `{Schedule} (logits : list L) (seeds : list Z) (batch_size vocab_size : Z)
    (output : list Z) : option (list Z) :=
  if batch_size <=? 0 then Some output
  else if batch_size =? 1 then
    seed ← rd seeds 0;
    i ← fused_gumbel_argmax_row seed logits 0 vocab_size;
    wr output 0 i
  else parallel_for batch_size (fun b output =>
    seed ← rd seeds b;
    i ← fused_gumbel_argmax_row seed logits (b * vocab_size) vocab_size;
    wr output b i) output.

Definition fused_gumbel_argmax `{Schedule} (logits : list L) (batch_size vocab_size : Z) (seeds : list Z)
    : option (outcome (list Z)) :=
  if vocab_size <=? 0 then Some (Throw "vocab_size must be positive")
  else if negb (Z.of_nat (length seeds) =? batch_size) then
    Some (Throw "seeds must be 1-D with batch_size elements")
  else
    output ← fused_gumbel_argmax_kernel logits seeds batch_size vocab_size
      (replicate (Z.to_nat batch_size) 0);
    Some (Ok output).

(** Rows do not depend on each other, and a single row takes the same path. *)
Lemma fused_rows `{!Schedule} `{!ScheduleOk} logits batch_size vocab_size seeds (P : Z -> Z -> Prop) :
  0 <= batch_size -> 1 <= vocab_size -> Z.of_nat (length seeds) = batch_size ->
  (forall b, 0 <= b < batch_size -> exists i, fused_gumbel_argmax_row (at_ seeds b) logits (b * vocab_size) vocab_size = Some i /\ P b i) ->
  exists out, fused_gumbel_argmax logits batch_size vocab_size seeds = Some (Ok out) /\
    Z.of_nat (length out) = batch_size /\ forall b, 0 <= b < batch_size -> exists i, rd out b = Some i /\ P b i.
Proof.
  intros Hb HV Hs Hrow.
  unfold fused_gumbel_argmax. rewrite (proj2 (Z.leb_gt _ _)) by lia. rewrite (proj2 (Z.eqb_eq _ _) Hs). cbn [negb].
  assert (exists out, fused_gumbel_argmax_kernel logits seeds batch_size vocab_size
      (replicate (Z.to_nat batch_size) 0) = Some out /\ length out = Z.to_nat batch_size /\
      forall b, 0 <= b < batch_size -> rd out b = fused_gumbel_argmax_row (at_ seeds b) logits (b * vocab_size) vocab_size)
    as (out & -> & Lo & V).
  { unfold fused_gumbel_argmax_kernel. destruct (Z.leb_spec batch_size 0) as [|Hpos].
    { eexists. split; [done|]. rewrite length_replicate. split; [done|lia]. }
    destruct (Z.eqb_spec batch_size 1) as [->|Hne].
    - rewrite rd_at by lia. cbn [mbind option_bind]. destruct (Hrow 0 ltac:(lia)) as (i & Ei & _). rewrite Z.mul_0_l in Ei. rewrite Ei.
      cbn [mbind option_bind]. exists [i]. split_and!; [done|done|]. intros b Hbb. replace b with 0 by lia. by rewrite Z.mul_0_l, Ei.
    - set (o b := default 0 (fused_gumbel_argmax_row (at_ seeds b) logits (b * vocab_size) vocab_size)).
      destruct (for_each_cells (schedule batch_size) (fun b output => seed ← rd seeds b;
          i ← fused_gumbel_argmax_row seed logits (b * vocab_size) vocab_size; wr output b i)
        (replicate (Z.to_nat batch_size) 0) o) as (out & E & Hl & Ho).
      + apply NoDup_schedule.
      + intros b Hbb%elem_of_schedule. rewrite length_replicate. lia.
      + intros b a Hbb%elem_of_schedule _. rewrite rd_at by lia. cbn [mbind option_bind]. unfold o.
        by destruct (Hrow b Hbb) as (i & -> & _).
      + exists out. split; [exact E|]. rewrite length_replicate in Hl. split; [done|]. intros b Hbb.
        rewrite Ho by (by apply elem_of_schedule). unfold o. by destruct (Hrow b Hbb) as (i & -> & _). }
  cbn [mbind option_bind]. exists out. split; [done|]. split; [lia|]. intros b Hbb. rewrite V by done. by apply Hrow.
Qed.

End Kernel.

#[global] Arguments Best : clear implicits.

(** ** Gumbel sampling over exact arithmetic *)

(** A number, or [None] for minus infinity. *)
Definition lift (f : R -> R -> R) (a b : option R) : option R :=
  match a, b with Some a, Some b => Some (f a b) | _, _ => None end.
Definition exact_leb (a b : option R) : bool :=
  match a, b with None, _ => true | Some _, None => false | Some a, Some b => if Rle_dec a b then true else false end.

#[export] Instance exact_ops : DoubleOps (option R) := {|
  dadd := lift Rplus;
  dsub := lift Rminus;
  dmul := lift Rmult;
  dopp := option_map Ropp;
  dleb := exact_leb;
  dltb a b := negb (exact_leb b a);
  deqb a b := exact_leb a b && exact_leb b a;
  dlit m e := Some (IZR m * powerRZ 2 e)%R;
  dneg_inf := None;
  dexp a := match a with Some a => Some (Rtrigo_def.exp a) | None => Some 0%R end;
  dlog := option_map ln
|}.
#[export] Instance exact_logit : Logit (option R) (option R) := fun x => x.

(** The definition: token [i] has the uniform number [(bits + 1/2) / 2^53] and the Gumbel
    noise [- ln (- ln u)]; the sample is the first of the tokens that are not masked whose
    logit plus noise is greatest, and token 0 if all are masked. *)
Definition uniform (seed i : Z) : R := ((IZR (Z.shiftr (token_word seed i) 11) + 1 / 2) / IZR (2 ^ 53))%R.
Definition gumbel (seed i : Z) : R := (- ln (- ln (uniform seed i)))%R.
Definition gumbel_max (seed : Z) (f : Z -> option R) (n i : Z) : Prop :=
  0 <= i < n /\
  ((forall j, 0 <= j < n -> f j = None) /\ i = 0 \/
   exists x, f i = Some x /\
     (forall j y, 0 <= j < n -> f j = Some y -> (y + gumbel seed j <= x + gumbel seed i)%R) /\
     (forall j y, 0 <= j < i -> f j = Some y -> (y + gumbel seed j < x + gumbel seed i)%R)).

Section Bounds.
Open Scope R_scope.

Lemma exp_times n x : Rtrigo_def.exp (INR n * x) = Rtrigo_def.exp x ^ n.
Proof. induction n as [|n IH]; [rewrite Rmult_0_l; apply exp_0|]. rewrite S_INR, Rmult_plus_distr_r, exp_plus, IH, Rmult_1_l. simpl. lra. Qed.

(** [a <= (b / c)^n] by integers. *)
Lemma le_ratio_pow (p q b c : Z) n : (0 < q)%Z -> (0 < c)%Z -> (p * c ^ Z.of_nat n <= q * b ^ Z.of_nat n)%Z ->
  IZR p / IZR q <= (IZR b / IZR c) ^ n.
Proof.
  intros Hq%IZR_lt Hc%IZR_lt Hle%IZR_le. rewrite !mult_IZR, <- !pow_IZR in Hle. unfold Rdiv. rewrite Rpow_mult_distr, pow_inv.
  pose proof (pow_lt (IZR c) n Hc). apply Rmult_le_reg_r with (IZR q * IZR c ^ n); [by apply Rmult_lt_0_compat|].
  replace (IZR p * / IZR q * (IZR q * IZR c ^ n)) with (IZR p * IZR c ^ n) by (field; lra).
  replace (IZR b ^ n * / IZR c ^ n * (IZR q * IZR c ^ n)) with (IZR q * IZR b ^ n) by (field; lra). done.
Qed.

Lemma exp_1_lower : IZR 2715 / IZR 1000 <= Rtrigo_def.exp 1.
Proof.
  apply Rle_trans with ((IZR 513 / IZR 512) ^ 512); [apply (le_ratio_pow 2715 1000 513 512 512); [reflexivity|reflexivity|vm_compute; discriminate]|].
  replace 1 with (INR 512 * (1 / 512)) by (rewrite INR_IZR_INZ; change (Z.of_nat 512) with 512%Z; lra).
  rewrite exp_times. apply pow_incr. pose proof (exp_ineq1_le (1 / 512)). lra.
Qed.

(** [2^54 <= exp 37.5] *)
Lemma ln_2_54 : ln (2 ^ 54) <= 75 / 2.
Proof.
  assert (ln (2 ^ 54 * 2 ^ 54) <= 75) as G.
  { rewrite <- (ln_exp 75). assert (2 ^ 54 * 2 ^ 54 <= Rtrigo_def.exp 75) as [Hlt|Heq]; [|left; apply ln_increasing; [lra|done]|right; by f_equal].
    replace 75 with (INR 75 * 1) by (rewrite INR_IZR_INZ; change (Z.of_nat 75) with 75%Z; lra). rewrite exp_times.
    apply Rle_trans with ((IZR 2715 / IZR 1000) ^ 75).
    - replace (2 ^ 54 * 2 ^ 54) with (IZR (2 ^ 108) / IZR 1) by lra. apply (le_ratio_pow (2 ^ 108) 1 2715 1000 75); [reflexivity|reflexivity|vm_compute; discriminate].
    - apply pow_incr. pose proof exp_1_lower. lra. }
  rewrite ln_mult in G by lra. lra.
Qed.

Context (seed i : Z).
Abbreviation u := (uniform seed i).
Abbreviation bits := (Z.shiftr (token_word seed i) 11).

Lemma draw_range : (0 <= bits < 2 ^ 53)%Z.
Proof.
  pose proof (splitmix_range (u64 (splitmix64 (u64 seed) + u64 (u64 (i + 1) * SPLITMIX_GAMMA)))) as Hr. unfold is_u64 in Hr.
  rewrite Z.shiftr_div_pow2 by lia. unfold token_word. split; [apply Z.div_pos; lia|]. apply Z.div_lt_upper_bound; lia.
Qed.

Lemma uniform_range : / 2 ^ 54 <= u <= 1 - / 2 ^ 54.
Proof.
  destruct draw_range as [H1 H2]. unfold uniform. assert (0 <= IZR bits) by (by apply (IZR_le 0)).
  assert (IZR bits <= IZR (2 ^ 53 - 1)) by (apply IZR_le; lia). change (2 ^ 53)%Z with 9007199254740992%Z in *. change (9007199254740992 - 1)%Z with 9007199254740991%Z in *. lra.
Qed.

(** [1 - u <= - ln u] *)
Lemma ln_uniform : 1 - u <= - ln u.
Proof.
  pose proof uniform_range. pose proof (exp_ineq1_le (ln u)) as G. rewrite exp_ln in G; lra.
Qed.

(** The noise is less than the constant of the first test. *)
Lemma gumbel_upper : gumbel seed i <= 75 / 2.
Proof.
  pose proof uniform_range. pose proof ln_uniform. unfold gumbel. apply Rle_trans with (2 := ln_2_54).
  apply Ropp_le_cancel. rewrite Ropp_involutive, <- ln_Rinv by lra.
  assert (/ 2 ^ 54 <= - ln u) as [Hlt|Heq] by lra; [left; apply ln_increasing; lra|right; by f_equal].
Qed.

(** The uniform number decides the second test. *)
Lemma gumbel_below a : Rtrigo_def.exp a <= 1 - u -> a + gumbel seed i <= 0.
Proof.
  intros Ha. pose proof ln_uniform. pose proof (exp_pos a). unfold gumbel. enough (a <= ln (- ln u)) by lra.
  rewrite <- (ln_exp a). assert (Rtrigo_def.exp a <= - ln u) as [Hlt|Heq] by lra; [left; by apply ln_increasing|right; by f_equal].
Qed.

Lemma gumbel_lower : - (75 / 2) <= gumbel seed i.
Proof.
  pose proof uniform_range. pose proof ln_uniform. unfold gumbel. enough (ln (- ln u) <= 75 / 2) by lra.
  assert (- ln u <= 75 / 2) as Hu.
  { apply Rle_trans with (2 := ln_2_54). rewrite <- ln_Rinv by lra. assert (/ u <= 2 ^ 54) as Hi.
    { rewrite <- (Rinv_inv (2 ^ 54)). apply Rinv_le_contravar; lra. }
    destruct Hi as [Hlt|Heq]; [left; apply ln_increasing; [apply Rinv_0_lt_compat; lra|done]|right; by f_equal]. }
  pose proof (exp_ineq1_le (ln (- ln u))) as G. rewrite exp_ln in G; lra.
Qed.

Lemma noise_exact : token_noise seed i = Some (gumbel seed i) /\ unit_of (2 ^ 53 - 1 - token_bits seed i) = Some (1 - u).
Proof.
  assert (forall b, @unit_of (option R) _ b = Some ((IZR b + 1 / 2) / IZR (2 ^ 53))) as Hu.
  { intros b. unfold unit_of. cbn [dmul dadd dlit exact_ops lift]. f_equal. simpl powerRZ. change (2 ^ 53)%Z with 9007199254740992%Z.
    replace (2 ^ Pos.to_nat 53) with 9007199254740992 by (rewrite pow_IZR; reflexivity). lra. }
  split.
  - unfold token_noise. rewrite Hu. done.
  - rewrite Hu. f_equal. unfold uniform. fold (token_bits seed i). rewrite !minus_IZR. change (2 ^ 53)%Z with 9007199254740992%Z. lra.
Qed.

End Bounds.

(** Token [idx] of logit [x] as the best one. *)
Definition exact_best (seed idx : Z) (x : R) : Best (option R) :=
  {| best_logit := Some x; best_g := Some (gumbel seed idx); best_idx := idx; have_best := true |}.

(** The three tests together reject exactly the tokens that lose. *)
Lemma rejected_exact seed idx x j y :
  rejected seed (exact_best seed idx x) j (Some y) = true <-> (y + gumbel seed j <= x + gumbel seed idx)%R.
Proof.
  unfold rejected. destruct (noise_exact seed j) as [-> ->]. cbn [best_logit best_g exact_best dsub dadd dleb dltb dexp exact_ops lift].
  unfold GUMBEL_MAX. cbn [dlit dadd exact_ops lift exact_leb]. pose proof (gumbel_upper seed j).
  replace (IZR 75 * powerRZ 2 (-1))%R with (75 / 2)%R by (simpl; lra). rewrite negb_involutive.
  destruct (Rle_dec (y - x + 75 / 2) (gumbel seed idx)); [split; [lra|done]|].
  destruct (Rle_dec (Rtrigo_def.exp (y - x - gumbel seed idx)) (1 - uniform seed j)) as [Hu|_].
  { apply gumbel_below in Hu. split; [lra|done]. }
  cbn [orb]. destruct (Rle_dec (y - x + gumbel seed j) (gumbel seed idx)); split; (done || lra).
Qed.

(** After [k] tokens: no best one while all are masked, otherwise the winner so far. *)
Definition scanned (seed : Z) (f : Z -> option R) (k : Z) (best : Best (option R)) : Prop :=
  (best = no_best /\ forall j, 0 <= j < k -> f j = None) \/
  exists idx x, best = exact_best seed idx x /\ 0 <= idx < k /\ f idx = Some x /\
    forall j y, 0 <= j < k -> f j = Some y -> (y + gumbel seed j <= x + gumbel seed idx)%R /\
      (j < idx -> (y + gumbel seed j < x + gumbel seed idx)%R).

Lemma fused_step_exact seed f k best : 0 <= k -> scanned seed f k best -> scanned seed f (k + 1) (fused_step seed k (f k) best).
Proof.
  intros Hk I. unfold fused_step, to_double, exact_logit. destruct (f k) as [y|] eqn:Ey.
  - assert (@deqb (option R) exact_ops (Some y) dneg_inf = false) as -> by done. destruct I as [[-> Hm]|(idx & x & -> & Hi & Ex & Hw)].
    + cbn [have_best no_best andb]. right. exists k, y. destruct (noise_exact seed k) as [-> _]. split_and!; [done|lia|lia|done|].
      intros j y' Hj Ey'. destruct (decide (j = k)) as [->|]; [|rewrite Hm in Ey' by lia; done]. rewrite Ey in Ey'. injection Ey' as <-. split; [lra|lia].
    + cbn [have_best exact_best andb]. fold (exact_best seed idx x). pose proof (rejected_exact seed idx x k y) as Hr.
      destruct (rejected seed (exact_best seed idx x) k (Some y)); right.
      * exists idx, x. split_and!; [done|lia|lia|done|]. intros j y' Hj Ey'. destruct (decide (j = k)) as [->|]; [|apply Hw; [lia|done]].
        rewrite Ey in Ey'. injection Ey' as <-. split; [by apply Hr|lia].
      * assert (x + gumbel seed idx < y + gumbel seed k)%R as Hlt by (apply Rnot_le_lt; intros C%Hr; done).
        exists k, y. destruct (noise_exact seed k) as [-> _]. split_and!; [done|lia|lia|done|]. intros j y' Hj Ey'.
        destruct (decide (j = k)) as [->|]; [rewrite Ey in Ey'; injection Ey' as <-; split; [lra|lia]|].
        destruct (Hw j y' ltac:(lia) Ey'). split; [lra|intros _; lra].
  - assert (@deqb (option R) exact_ops None dneg_inf = true) as -> by done. destruct I as [[-> Hm]|(idx & x & -> & Hi & Ex & Hw)]; [left|right].
    + split; [done|]. intros j Hj. destruct (decide (j = k)) as [->|]; [done|]. apply Hm. lia.
    + exists idx, x. split_and!; [done|lia|lia|done|]. intros j y Hj Ey'. apply Hw; [|done]. destruct (decide (j = k)) as [->|]; [congruence|lia].
Qed.

Lemma fused_row_exact seed logits row n : 1 <= n -> 0 <= row -> row + n <= Z.of_nat (length logits) ->
  exists i, fused_gumbel_argmax_row seed logits row n = Some i /\
    gumbel_max seed (fun k => default None (rd logits (row + k))) n i.
Proof.
  intros Hn Hrow Hl. set (f k := default None (rd logits (row + k))). unfold fused_gumbel_argmax_row.
  destruct (for_range_inv (scanned seed f) 0 n (fun i best => x ← rd logits (row + i); Some (fused_step seed i x best)) no_best) as (best & -> & I).
  - lia.
  - left. split; [done|lia].
  - intros i best Hi I. destruct (rd_is_Some logits (row + i)) as [x Ex]; [lia|]. rewrite Ex. cbn [mbind option_bind].
    eexists. split; [done|]. replace x with (f i) by (unfold f; by rewrite Ex). apply fused_step_exact; [lia|done].
  - cbn [mbind option_bind]. eexists. split; [done|]. destruct I as [[-> Hm]|(idx & x & -> & Hi & Ex & Hw)]; (split; [simpl; lia|]); [by left|].
    right. exists x. split; [done|]. split; intros j y Hj Ey; apply (Hw j y); (done || simpl in Hj; lia).
Qed.

(** [C25] Fused sampling over exact arithmetic: for every row the kernel returns the Gumbel
    sample, the first of the tokens that are not masked whose logit plus Gumbel noise
    [- ln (- ln u)] is greatest, or token 0 when all are masked.  So the two tests that skip
    a token without its noise, by the bound 37.5 and by [1 - u >= exp(x - best_x - best_g)],
    never skip a token that would win.  A single row takes a path of its own with the
    same result; rows may run in any order and depend on their own logits and seed only. *)
Theorem fused_gumbel_exact `{ScheduleOk} (logits : list (option R)) batch_size vocab_size seeds :
  0 <= batch_size -> 1 <= vocab_size -> Z.of_nat (length logits) = batch_size * vocab_size ->
  Z.of_nat (length seeds) = batch_size ->
  exists out, fused_gumbel_argmax logits batch_size vocab_size seeds = Some (Ok out) /\
    Z.of_nat (length out) = batch_size /\
    forall b, 0 <= b < batch_size -> exists i, rd out b = Some i /\
      gumbel_max (at_ seeds b) (fun k => default None (rd logits (b * vocab_size + k))) vocab_size i.
Proof.
  intros Hb HV Hlen Hs. apply (fused_rows logits batch_size vocab_size seeds); [done..|]. intros b Hbb. apply fused_row_exact; [done|nia|nia].
Qed.

(** Two rows of three: the first one masked but for its last token; in the second a token
    that no noise can catch up with. *)
Lemma fused_gumbel_exact_witness : exists out,
  @fused_gumbel_argmax _ _ _ _ backwards [None; None; Some 0%R; Some 0%R; Some 100%R; None] 2 3 [7; -1] = Some (Ok out) /\
  rd out 0 = Some 2 /\ rd out 1 = Some 1.
Proof.
  destruct (@fused_gumbel_exact backwards backwards_ok [None; None; Some 0%R; Some 0%R; Some 100%R; None] 2 3 [7; -1]
    ltac:(lia) ltac:(lia) eq_refl eq_refl) as (out & E & _ & H).
  exists out. split; [exact E|]. split.
  - destruct (H 0 ltac:(lia)) as (i & -> & Hr & [[Hm _]|(x & Hx & _)]).
    + specialize (Hm 2 ltac:(lia)). discriminate Hm.
    + assert (i = 0 \/ i = 1 \/ i = 2) as [-> | [-> | ->]] by lia; [discriminate Hx..|reflexivity].
  - destruct (H 1 ltac:(lia)) as (i & -> & Hr & [[Hm _]|(x & Hx & Hge & _)]).
    + specialize (Hm 1 ltac:(lia)). discriminate Hm.
    + assert (i = 0 \/ i = 1 \/ i = 2) as [-> | [-> | ->]] by lia; [|reflexivity|discriminate Hx].
      injection Hx as <-. specialize (Hge 1 100%R ltac:(lia) eq_refl).
      pose proof (gumbel_upper (at_ [7; -1] 1) 0). pose proof (gumbel_lower (at_ [7; -1] 1) 1). lra.
Defined.

(** The kernel in double precision, with both library functions replaced by the identity. *)
Example fused_runs :
  @fused_gumbel_argmax _ _ (double_ops (fun x => x) (fun x => x)) float_logit backwards
    [S754_infinity true; S754_infinity true; S754_zero false; S754_zero false; S754_finite false 8388608 (-16); S754_infinity true] 2 3 [7; -1]
  = Some (Ok [2; 1]).
Proof. vm_compute. reflexivity. Qed.

End FusedGumbel.
