(* ===== verification/Sampling.v ===== *)
(** * Sampling kernels

    [csrc/cpu/sampling/common.h] with the portable implementation [sampling/vec.h]
    ([gumbel_sample_cpu]): every row of logits is cut into ranges, workers fetch the
    ranges from a shared counter and keep the best token of each, and after a barrier
    the winners of a row are compared.  Numbers are [spec_float]s; the logits are of
    type [float] (the conversions from the half-precision types are not part of the
    loop).  The order in which the ranges are worked on is that of a [Schedule]. *)

From Stdlib Require Import SpecFloat.
From S2P Require Import Prelude Arrays FloatOrder SampleNoise.

#[local] Open Scope Z_scope.

Module Sampling.
Import Noise.

(** ** One range *)

(** [if (score > best_score) { best_score = score; best_idx = token_id; }] *)
Definition keep_best (token_id : Z) (score : spec_float) (best : spec_float * Z) : spec_float * Z :=
  if gt score best.1 then (score, token_id) else best.

Definition scalar_greedy_argmax (logits : list spec_float) (row token_begin token_end : Z)
    : option (spec_float * Z) :=
  for_range token_begin token_end (fun token_id best =>
    score ← rd logits (row + token_id);
    Some (keep_best token_id score best)) (neg_inf, token_begin).

(** [score_t] and the operations on it. *)
Record Format := {
  from_float : spec_float -> spec_float;
  plus : spec_float -> spec_float -> spec_float;
  gumbel_noise : Z -> Z -> Z -> spec_float
}.

Definition format_float (logf : spec_float -> spec_float) : Format :=
  {| from_float := fun x => x; plus := SFadd 24 128; gumbel_noise := gumbel_noise32 logf |}.
Definition format_double (log : spec_float -> spec_float) : Format :=
  {| from_float := widen; plus := SFadd 53 1024; gumbel_noise := gumbel_noise64 log |}.

(** The score of one token. *)
Definition gumbel_score (fmt : Format) (apply_temperature : bool) (temperature : spec_float)
    (seed position token_id : Z) (logit : spec_float) : spec_float :=
  let logit := if apply_temperature then SFdiv 24 128 logit temperature else logit in
  plus fmt (from_float fmt logit) (gumbel_noise fmt seed position (u32 token_id)).

Definition scalar_gumbel_argmax (fmt : Format) (apply_temperature : bool) (logits : list spec_float)
    (row token_begin token_end seed position : Z) (temperature : spec_float) : option (spec_float * Z) :=
  for_range token_begin token_end (fun token_id best =>
    logit ← rd logits (row + token_id);
    Some (keep_best token_id
            (gumbel_score fmt apply_temperature temperature seed position token_id logit) best))
    (neg_inf, token_begin).

(** ** The main loop *)

Definition MIN_RANGE_SIZE : Z := 2048.
(** [SamplingImpl<VEC>::RangeAlignment] *)
Definition RangeAlignment : Z := 1.

Record Batch := {
  logits : list spec_float;
  logits_stride : Z;
  expanded_idx_mapping : list Z;
  temperature : list spec_float;
  seeds : list Z;
  positions : list Z;
  num_tokens : Z;
  vocab_size : Z;
  is_drafting : bool
}.

Section Execute.
Context `{Schedule} (max_workers : Z) (fmt : Format) (apply_temperature : bool) (b : Batch).

Definition range_size : Z :=
  let target_ranges_per_row := Z.max 1 (Z.quot (max_workers + num_tokens b - 1) (num_tokens b)) in
  let unaligned_range_size := Z.max MIN_RANGE_SIZE
    (Z.quot (vocab_size b + target_ranges_per_row - 1) target_ranges_per_row) in
  Z.quot (unaligned_range_size + RangeAlignment - 1) RangeAlignment * RangeAlignment.

Definition num_ranges : Z := Z.quot (vocab_size b + range_size - 1) range_size.
Definition num_tasks : Z := num_tokens b * num_ranges.

(** The temperature of a row; rows without a request are greedy. *)
Definition row_temp (token_idx : Z) : option (Z * spec_float) :=
  req_state_idx ← rd (expanded_idx_mapping b) token_idx;
  temp ← (if 0 <=? req_state_idx then rd (temperature b) req_state_idx else Some (S754_zero false));
  Some (req_state_idx, temp).

(** One task of the first phase: its winner. *)
Definition range_winner (task_id : Z) : option (spec_float * Z) :=
  let token_idx := Z.quot task_id num_ranges in
  let range_idx := Z.rem task_id num_ranges in
  let token_begin := range_idx * range_size in
  let token_end := Z.min (token_begin + range_size) (vocab_size b) in
  '(req_state_idx, temp) ← row_temp token_idx;
  let row := token_idx * logits_stride b in
  if SFeqb temp (S754_zero false) then
    '(best_score, best_idx) ← scalar_greedy_argmax (logits b) row token_begin token_end;
    Some (from_float fmt best_score, best_idx)
  else
    position ← rd (positions b) token_idx;
    let position := if is_drafting b then position + DRAFT_NOISE_SALT else position in
    seed ← rd (seeds b) req_state_idx;
    scalar_gumbel_argmax fmt apply_temperature (logits b) row token_begin token_end seed position temp.

Definition range_task (task_id : Z) (st : list spec_float * list Z) : option (list spec_float * list Z) :=
  '(score, idx) ← range_winner task_id;
  range_scores ← wr st.1 task_id score;
  range_indices ← wr st.2 task_id idx;
  Some (range_scores, range_indices).

(** The second phase, for one row. *)
Definition row_winner (range_scores : list spec_float) (range_indices : list Z) (token_idx : Z)
    : option (spec_float * Z) :=
  let first_range := token_idx * num_ranges in
  for_range 0 num_ranges (fun range_idx best =>
    let task_id := first_range + range_idx in
    score ← rd range_scores task_id;
    if gt score best.1 then idx ← rd range_indices task_id; Some (score, idx) else Some best)
    (neg_inf, 0).

Definition execute (output : list Z) : option (list Z) :=
  '(range_scores, range_indices) ← parallel_for num_tasks range_task
    (replicate (Z.to_nat num_tasks) (S754_zero false), replicate (Z.to_nat num_tasks) 0);
  parallel_for (num_tokens b) (fun token_idx output =>
    '(_, best_idx) ← row_winner range_scores range_indices token_idx;
    wr output token_idx best_idx) output.

End Execute.

(** [SamplingMainLoop::operator()] *)
Definition gumbel_sample `{Schedule} (logf log : spec_float -> spec_float) (max_workers : Z)
    (apply_temperature use_fp64 : bool) (b : Batch) (output : list Z) : option (list Z) :=
  if num_tokens b =? 0 then Some output
  else if use_fp64 then execute max_workers (format_double log) apply_temperature b output
  else execute max_workers (format_float logf) apply_temperature b output.

(** ** The best token *)

Section Best.
Context (f : Z -> spec_float).

(** [st] is the first best of the scores in [lo, hi); [i0] if none is above minus infinity. *)
Definition best_of (i0 lo hi : Z) (st : spec_float * Z) : Prop :=
  (st = (neg_inf, i0) /\ forall j, lo <= j < hi -> gt (f j) neg_inf = false) \/
  (lo <= st.2 < hi /\ st.1 = f st.2 /\ gt st.1 neg_inf = true /\
   (forall j, lo <= j < hi -> gt (f j) st.1 = false) /\
   forall j, lo <= j < st.2 -> gt st.1 (f j) = true \/ is_nan (f j) = true).

Lemma best_number i0 lo hi st : best_of i0 lo hi st -> is_nan st.1 = false.
Proof. intros [[-> _]|(_ & _ & E & _)]; [done|]. by apply gt_numbers in E as [? _]. Qed.

Lemma best_all i0 lo hi st j : best_of i0 lo hi st -> lo <= j < hi -> gt (f j) st.1 = false.
Proof. intros [[-> H]|(_ & _ & _ & H & _)]; apply H. Qed.

(** The better one of two neighbouring ranges. *)
Lemma best_join i0 lo mid hi st st' : lo <= mid <= hi -> best_of i0 lo mid st -> best_of mid mid hi st' ->
  best_of i0 lo hi (if gt st'.1 st.1 then st' else st).
Proof.
  intros Hm B B'. pose proof (best_number _ _ _ _ B) as N. pose proof (best_number _ _ _ _ B') as N'.
  destruct (gt st'.1 st.1) eqn:E.
  - right. destruct B' as [[-> _]|(Hi & Es & Hinf & Hall & Hfirst)].
    { cbn [fst] in E. by rewrite neg_inf_least in E. }
    split_and!; [lia|lia|done|done|..].
    + intros j Hj. destruct (decide (j < mid)); [|apply Hall; lia].
      apply (gt_false_trans _ st.1); [done|eapply best_all; [done|lia]|]. by apply gt_asym.
    + intros j Hj. destruct (decide (mid <= j)); [apply Hfirst; lia|].
      destruct (is_nan (f j)) eqn:En; [by right|left].
      destruct (gt_split st'.1 (f j) st.1 En E) as [?|E2]; [done|].
      rewrite (best_all _ _ _ _ j B) in E2; [done|lia].
  - assert (forall j, mid <= j < hi -> gt (f j) st.1 = false) as Hr.
    { intros j Hj. apply (gt_false_trans _ st'.1); [done|by eapply best_all|done]. }
    destruct B as [[-> Hl]|(Hi & Es & Hinf & Hall & Hfirst)]; [left|right].
    + split; [done|]. intros j Hj. destruct (decide (j < mid)); [apply Hl; lia|apply Hr; lia].
    + split_and!; [lia|lia|done|done| |done].
      intros j Hj. destruct (decide (j < mid)); [apply Hall; lia|apply Hr; lia].
Qed.

Lemma best_nil i lo : best_of i lo lo (neg_inf, i).
Proof. left. split; [done|]. lia. Qed.

Lemma best_one k : best_of k k (k + 1) (keep_best k (f k) (neg_inf, k)).
Proof.
  unfold keep_best. cbn [fst]. destruct (gt (f k) neg_inf) eqn:E; [right|left].
  - simpl. split_and!; [lia|lia|done|done| |lia]. intros j Hj. replace j with k by lia. apply gt_irrefl.
  - split; [done|]. intros j Hj. by replace j with k by lia.
Qed.

Lemma best_of_step i0 lo k st : lo <= k -> best_of i0 lo k st -> best_of i0 lo (k + 1) (keep_best k (f k) st).
Proof.
  intros Hk B. pose proof (best_join i0 lo k (k + 1) st _ ltac:(lia) B (best_one k)) as J.
  unfold keep_best in *. cbn [fst] in J. destruct (gt (f k) neg_inf) eqn:E; cbn [fst] in J; [done|].
  rewrite neg_inf_least in J. destruct (gt (f k) st.1) eqn:E2; [|done].
  pose proof (best_number _ _ _ _ B) as N. exfalso.
  assert (gt (f k) neg_inf = true); [|congruence]. apply gt_numbers in E2 as Hn.
  destruct (gt st.1 neg_inf) eqn:E3; [by eapply gt_trans|].
  destruct B as [[-> _]|(_ & _ & ? & _)]; [done|congruence].
Qed.

(** A scan of a range finds it. *)
Lemma scan_best lo hi (score : Z -> option spec_float) : lo <= hi ->
  (forall i, lo <= i < hi -> score i = Some (f i)) ->
  exists st, for_range lo hi (fun i best => s ← score i; Some (keep_best i s best)) (neg_inf, lo) = Some st /\
    best_of lo lo hi st.
Proof.
  intros Hle Hs. apply (for_range_inv (best_of lo lo)); [done|apply best_nil|].
  intros i st Hi B. rewrite Hs by lia. simpl. eexists. split; [done|]. apply best_of_step; [lia|done].
Qed.

End Best.

(** ** The two phases *)

(** [i] is the token a scan of the whole row would keep: the first of the best scores,
    or 0 when no score is above minus infinity. *)
Definition first_best (f : Z -> spec_float) (n i : Z) : Prop := exists s, best_of f 0 0 n (s, i).

Record batch_ok (b : Batch) : Prop := {
  bo_vocab : 0 <= vocab_size b;
  bo_rows : forall t, 0 <= t < num_tokens b ->
    0 <= t * logits_stride b /\ t * logits_stride b + vocab_size b <= Z.of_nat (length (logits b));
  bo_floats : Forall (fun x => is_float x = true) (logits b);
  bo_mapping : num_tokens b <= Z.of_nat (length (expanded_idx_mapping b));
  bo_positions : num_tokens b <= Z.of_nat (length (positions b));
  bo_requests : Forall (fun r => r < Z.of_nat (length (temperature b)) /\ r < Z.of_nat (length (seeds b)))
    (expanded_idx_mapping b)
}.

Section Correct.
Context `{ScheduleOk} (max_workers : Z) (fmt : Format) (apply_temperature : bool) (b : Batch).
Context (Hworkers : 1 <= max_workers) (Htokens : 1 <= num_tokens b) (OK : batch_ok b).
Context (Hinf : from_float fmt neg_inf = neg_inf).
Context (Hmono : forall x y, is_float x = true -> is_float y = true ->
  gt (from_float fmt x) (from_float fmt y) = gt x y).

Abbreviation rs := (range_size max_workers b).
Abbreviation nr := (num_ranges max_workers b).
Abbreviation V := (vocab_size b).

Lemma range_size_pos : 1 <= rs.
Proof. unfold range_size, RangeAlignment, MIN_RANGE_SIZE. rewrite Z.quot_1_r. lia. Qed.

Lemma range_num : 0 <= nr /\ V <= nr * rs /\ (nr - 1) * rs < V \/ nr = 0 /\ V = 0.
Proof.
  pose proof range_size_pos as Hr. pose proof (bo_vocab b OK). unfold num_ranges.
  rewrite Z.quot_div_nonneg by lia. destruct (Z.eq_dec V 0) as [E|E].
  { right. split; [|done]. rewrite E. apply Z.div_small. lia. }
  left. pose proof (Z.div_mod (V + rs - 1) rs). pose proof (Z.mod_pos_bound (V + rs - 1) rs). nia.
Qed.

(** What the row of token [t] compares. *)
Definition logit_at (t i : Z) : spec_float := default S754_nan (rd (logits b) (t * logits_stride b + i)).

Definition row_score (t i : Z) : spec_float :=
  match row_temp b t with
  | Some (req_state_idx, temp) =>
      if SFeqb temp (S754_zero false) then logit_at t i
      else gumbel_score fmt apply_temperature temp (default 0 (rd (seeds b) req_state_idx))
             (default 0 (rd (positions b) t) + if is_drafting b then DRAFT_NOISE_SALT else 0)
             i (logit_at t i)
  | None => S754_nan
  end.

(** How the scores of the row are stored between the phases. *)
Definition stored (t : Z) : spec_float -> spec_float :=
  match row_temp b t with
  | Some (_, temp) => if SFeqb temp (S754_zero false) then from_float fmt else fun s => s
  | None => fun s => s
  end.

Lemma logit_read t i : 0 <= t < num_tokens b -> 0 <= i < V ->
  rd (logits b) (t * logits_stride b + i) = Some (logit_at t i) /\ is_float (logit_at t i) = true.
Proof.
  intros Ht Hi. destruct (bo_rows b OK t Ht). unfold logit_at.
  destruct (rd_is_Some (logits b) (t * logits_stride b + i)) as [x E]; [lia|]. rewrite E. split; [done|].
  rewrite rd_lookup in E by lia. exact (Forall_lookup_1 _ _ _ _ (bo_floats b OK) E).
Qed.

Lemma row_temp_ok t : 0 <= t < num_tokens b ->
  exists r temp, row_temp b t = Some (r, temp) /\
    (SFeqb temp (S754_zero false) = false -> exists seed, rd (seeds b) r = Some seed).
Proof.
  intros Ht. pose proof (bo_mapping b OK). unfold row_temp.
  destruct (rd_is_Some (expanded_idx_mapping b) t) as [r E]; [lia|]. rewrite E. cbn [mbind option_bind].
  rewrite rd_lookup in E by lia. pose proof (Forall_lookup_1 _ _ _ _ (bo_requests b OK) E) as [? ?].
  destruct (Z.leb_spec 0 r).
  - destruct (rd_is_Some (temperature b) r) as [temp ->]; [lia|]. exists r, temp. split; [done|].
    intros _. apply rd_is_Some. lia.
  - exists r, (S754_zero false). split; [done|]. done.
Qed.

(** The winner of a range. *)
Lemma range_winner_ok t r : 0 <= t < num_tokens b -> 0 <= r < nr ->
  exists s i, range_winner max_workers fmt apply_temperature b (t * nr + r) = Some (stored t s, i) /\
    (stored t = (fun s => s) \/ stored t = from_float fmt /\ is_float s = true) /\
    best_of (row_score t) (r * rs) (r * rs) (Z.min (r * rs + rs) V) (s, i).
Proof.
  intros Ht Hr. pose proof range_size_pos. pose proof range_num as Hn. unfold range_winner.
  rewrite Z.quot_div_nonneg, Z.rem_mod_nonneg by nia.
  replace ((t * nr + r) / nr) with t by (apply (Z.div_unique _ _ _ r); lia).
  replace ((t * nr + r) mod nr) with r by (apply (Z.mod_unique _ _ t); lia).
  destruct (row_temp_ok t Ht) as (req & temp & E & Hseed). unfold stored, row_score. rewrite E. cbn [mbind option_bind].
  assert (r * rs <= Z.min (r * rs + rs) V) as Hle by nia.
  destruct (SFeqb temp (S754_zero false)) eqn:Et.
  - unfold scalar_greedy_argmax. destruct (scan_best (logit_at t) (r * rs) (Z.min (r * rs + rs) V)
      (fun i => rd (logits b) (t * logits_stride b + i))) as ([s i] & -> & B); [done|intros i Hi; apply logit_read; lia|].
    exists s, i. split; [done|]. split; [|done]. right. split; [done|].
    destruct B as [[[= -> _] _]|(Hi & Es & _)]; [done|]. simpl in *. rewrite Es. apply logit_read; lia.
  - pose proof (bo_positions b OK). destruct (rd_is_Some (positions b) t) as [pos Ep]; [lia|]. rewrite Ep.
    destruct (Hseed eq_refl) as [seed Eseed]. rewrite Eseed. cbn [mbind option_bind default]. unfold scalar_gumbel_argmax.
    destruct (scan_best (row_score t) (r * rs) (Z.min (r * rs + rs) V) (fun i => l ← rd (logits b) (t * logits_stride b + i);
      Some (gumbel_score fmt apply_temperature temp seed (if is_drafting b then pos + DRAFT_NOISE_SALT else pos) i l)))
      as ([s i] & Er & B); [done| |].
    + intros i Hi. destruct (logit_read t i) as [-> _]; [done|lia|]. cbn [mbind option_bind]. unfold row_score.
      rewrite E, Et, Ep, Eseed. cbn [default]. destruct (is_drafting b); [done|]. by rewrite Z.add_0_r.
    + exists s, i. split; [|split; [by left|]].
      * rewrite <- Er. apply for_each_ext with (P := fun _ => True); [done| |done].
        intros j st _ _. by destruct (rd (logits b) (t * logits_stride b + j)).
      * unfold row_score in B. rewrite E, Et, Ep, Eseed in B. exact B.
Qed.

(** The comparison of the winners of a row. *)
Lemma row_winner_ok scores indices t : 0 <= t < num_tokens b ->
  (forall r, 0 <= r < nr -> exists s i,
     rd scores (t * nr + r) = Some (stored t s) /\ rd indices (t * nr + r) = Some i /\
     (stored t = (fun s => s) \/ stored t = from_float fmt /\ is_float s = true) /\
     best_of (row_score t) (r * rs) (r * rs) (Z.min (r * rs + rs) V) (s, i)) ->
  exists st, row_winner max_workers b scores indices t = Some st /\ first_best (row_score t) V st.2.
Proof.
  intros Ht W. pose proof range_size_pos. pose proof (bo_vocab b OK). pose proof range_num as Hn. unfold row_winner.
  destruct (for_range_inv (fun r st => exists s, st.1 = stored t s /\
      (stored t = (fun s => s) \/ stored t = from_float fmt /\ is_float s = true) /\
      best_of (row_score t) 0 0 (Z.min (r * rs) V) (s, st.2)) 0 nr
    (fun range_idx best => score ← rd scores (t * nr + range_idx);
      if gt score best.1 then idx ← rd indices (t * nr + range_idx); Some (score, idx) else Some best) (neg_inf, 0))
    as (st & E & s & _ & _ & B).
  - lia.
  - exists neg_inf. rewrite Z.min_l by lia. split; [|split; [|apply best_nil]]; unfold stored; destruct (row_temp b t) as [[? temp]|];
      try destruct (SFeqb temp (S754_zero false)); auto.
  - intros r [best ibest] Hr (s & Es & Hs & B). simpl in Es, B. subst best.
    destruct (W r Hr) as (s' & i' & -> & -> & Hs' & B'). cbn [mbind option_bind fst snd].
    assert (gt (stored t s') (stored t s) = gt s' s) as ->.
    { destruct Hs as [E|[E Hs]]; [by rewrite E|]. destruct Hs' as [E'|[_ Hs']]; [by rewrite E'|].
      rewrite E. by apply Hmono. }
    assert (0 <= r * rs < V) by nia. rewrite (Z.min_l (r * rs)) in B by lia.
    pose proof (best_join (row_score t) 0 0 (r * rs) (Z.min (r * rs + rs) V) _ _ ltac:(lia) B B') as J. cbn [fst] in J.
    replace ((r + 1) * rs) with (r * rs + rs) by lia.
    destruct (gt s' s); (eexists; split; [done|]); [exists s'|exists s]; done.
  - exists st. split; [done|]. exists s. replace (Z.min (nr * rs) V) with V in B by nia. done.
Qed.

Lemma execute_ok output : Z.of_nat (length output) = num_tokens b ->
  exists out, execute max_workers fmt apply_temperature b output = Some out /\ length out = length output /\
    forall t, 0 <= t < num_tokens b -> exists i, rd out t = Some i /\ first_best (row_score t) V i.
Proof.
  intros Hout. pose proof range_size_pos. pose proof (bo_vocab b OK). pose proof range_num as Hn. unfold execute.
  set (w := fun k => default (S754_nan, 0) (range_winner max_workers fmt apply_temperature b k)).
  assert (forall t r, 0 <= t < num_tokens b -> 0 <= r < nr -> exists s i,
    range_winner max_workers fmt apply_temperature b (t * nr + r) = Some (w (t * nr + r)) /\ w (t * nr + r) = (stored t s, i) /\
    (stored t = (fun s => s) \/ stored t = from_float fmt /\ is_float s = true) /\
    best_of (row_score t) (r * rs) (r * rs) (Z.min (r * rs + rs) V) (s, i)) as W.
  { intros t r Ht Hr. destruct (range_winner_ok t r Ht Hr) as (s & i & E & Hrest). exists s, i.
    unfold w. by rewrite E. }
  assert (forall k, 0 <= k < num_tasks max_workers b -> exists t r, 0 <= t < num_tokens b /\ 0 <= r < nr /\ k = t * nr + r) as Hk.
  { intros k Hk. unfold num_tasks in Hk. exists (k / nr), (k mod nr). assert (0 < nr) by nia.
    pose proof (Z.mod_pos_bound k nr). pose proof (Z.div_mod k nr). split; [|lia].
    split; [apply Z.div_pos; lia|apply Z.div_lt_upper_bound; lia]. }
  destruct (for_each_cells2 (schedule (num_tasks max_workers b)) (range_task max_workers fmt apply_temperature b)
    (replicate (Z.to_nat (num_tasks max_workers b)) (S754_zero false)) (replicate (Z.to_nat (num_tasks max_workers b)) 0)
    (fun k => (w k).1) (fun k => (w k).2)) as (scores & indices & E & _ & _ & Vs & Vi).
  - apply NoDup_schedule.
  - intros k Hi%elem_of_schedule. rewrite length_replicate. lia.
  - intros k Hi%elem_of_schedule. rewrite length_replicate. lia.
  - intros k st (t & r & Ht & Hr & ->)%elem_of_schedule%Hk. destruct (W t r Ht Hr) as (s & i & Ew & _).
    unfold range_task. rewrite Ew. by destruct (w (t * nr + r)).
  - match goal with |- context [parallel_for (num_tasks max_workers b) ?f ?s] =>
      change (parallel_for (num_tasks max_workers b) f s) with (for_each (schedule (num_tasks max_workers b)) f s) end.
    rewrite E. cbn [mbind option_bind].
    set (o := fun t => default 0 (snd <$> row_winner max_workers b scores indices t)).
    assert (forall t, 0 <= t < num_tokens b -> exists st, row_winner max_workers b scores indices t = Some st /\
      o t = st.2 /\ first_best (row_score t) V (o t)) as Ho.
    { intros t Ht. destruct (row_winner_ok scores indices t Ht) as (st & Er & F).
      - intros r Hr. destruct (W t r Ht Hr) as (s & i & _ & Ew & Hrest). exists s, i.
        assert (t * nr + r ∈ schedule (num_tasks max_workers b)) as Hin
          by (apply elem_of_schedule; unfold num_tasks; nia).
        rewrite (Vs _ Hin), (Vi _ Hin), Ew. done.
      - exists st. unfold o. by rewrite Er. }
    destruct (for_each_cells (schedule (num_tokens b)) (fun token_idx output =>
      '(_, best_idx) ← row_winner max_workers b scores indices token_idx; wr output token_idx best_idx) output o)
      as (out & Eo & Hl & Vo).
    + apply NoDup_schedule.
    + intros t Ht%elem_of_schedule. lia.
    + intros t a Ht%elem_of_schedule _. destruct (Ho t Ht) as ([s i] & -> & -> & _). done.
    + exists out. split; [exact Eo|]. split; [done|]. intros t Ht. exists (o t).
      split; [by apply Vo, elem_of_schedule|]. by destruct (Ho t Ht) as (_ & _ & _ & ?).
Qed.

End Correct.

(** [C11] Sampling is exact: whatever the number of workers, the way the vocabulary is cut
    into ranges and the order in which the ranges are fetched, the output of every row
    is the token that a scan of the whole row would keep, the first one with the best
    score.  The score is the logit in a row that is greedy or has no request, and
    otherwise the (scaled) logit plus the noise of seed, position and token; scores
    that are not numbers are passed over. *)
Theorem gumbel_sample_spec `{ScheduleOk} logf log max_workers apply_temperature use_fp64 b output :
  1 <= max_workers -> 0 <= num_tokens b -> batch_ok b -> Z.of_nat (length output) = num_tokens b ->
  exists out, gumbel_sample logf log max_workers apply_temperature use_fp64 b output = Some out /\
    length out = length output /\
    forall t, 0 <= t < num_tokens b -> exists i, rd out t = Some i /\
      first_best (row_score (if use_fp64 then format_double log else format_float logf) apply_temperature b t)
        (vocab_size b) i.
Proof.
  intros Hw Ht OK Hout. unfold gumbel_sample. destruct (Z.eqb_spec (num_tokens b) 0) as [E|E].
  { exists output. split_and!; [done|done|lia]. }
  destruct use_fp64; apply execute_ok; try done; try lia. intros x y Hx Hy. by apply widen_gt.
Qed.

(** Three rows of four logits: without a request, greedy, and sampled at temperature 2. *)
Definition sample_batch : Batch := {|
  logits := float_of_int <$> [1; 5; 5; 2;  0; -3; 7; 7;  1; 2; 3; 4];
  logits_stride := 4; expanded_idx_mapping := [-1; 1; 0];
  temperature := float_of_int <$> [2; 0]; seeds := [42; 43]; positions := [10; 11; 12];
  num_tokens := 3; vocab_size := 4; is_drafting := true |}.

Lemma sample_batch_ok : batch_ok sample_batch.
Proof.
  constructor; simpl.
  - lia.
  - lia.
  - rewrite Forall_forall. intros x Hx. repeat (apply elem_of_cons in Hx as [->|Hx]; [vm_compute; reflexivity|]).
    by apply elem_of_nil in Hx.
  - lia.
  - lia.
  - repeat constructor; simpl; lia.
Qed.

Lemma gumbel_sample_spec_witness : exists out i,
  @gumbel_sample backwards (fun x => x) (fun x => x) 8 true false sample_batch [0; 0; 0] = Some out /\
  rd out 1 = Some i /\ first_best (row_score (format_float (fun x => x)) true sample_batch 1) 4 i /\
  out !! 0%nat = Some 1 /\ out !! 1%nat = Some 2.
Proof.
  destruct (@gumbel_sample_spec backwards backwards_ok (fun x => x) (fun x => x) 8 true false sample_batch [0; 0; 0]
    ltac:(lia) ltac:(simpl; lia) sample_batch_ok eq_refl) as (out & E & _ & H).
  destruct (H 1 ltac:(simpl; lia)) as (i & Hi & F). exists out, i. split; [exact E|]. split; [exact Hi|]. split; [exact F|].
  vm_compute in E. injection E as <-. split; reflexivity.
Defined.

End Sampling.
