(* ===== verification/SamplingKernels.v ===== *)
(** * Greedy sampling ([csrc/cpu/sampling_kernels.cpp], [greedy_argmax_kernel])

    The index of the largest logit of every row, in agreement with [torch.argmax]: the
    first NaN when there is one, else the first maximum.  The vector type is that of
    [cpu_types_scalar.hpp]: sixteen lanes, each with the arithmetic of [float]. *)

From Stdlib Require Import SpecFloat.
From S2P Require Import Prelude Arrays FloatOrder.

#[local] Open Scope Z_scope.

Module SamplingKernels.

(** ** Vectors *)

Definition VEC_ELEM_NUM : Z := 16.
(** [std::max(a, b)] *)
Definition fmax (a b : spec_float) : spec_float := if SFltb a b then b else a.
Definition fadd : spec_float -> spec_float -> spec_float := SFadd 24 128.
Definition fzero : spec_float := S754_zero false.

Definition splat (v : spec_float) : list spec_float := replicate 16 v.
Definition vec_max (a b : list spec_float) : list spec_float := zip_with fmax a b.
Definition vec_add (a b : list spec_float) : list spec_float := zip_with fadd a b.
Definition reduce_sum (v : list spec_float) : spec_float := foldl (fun result x => fadd result x) fzero v.
Definition reduce_max (v : list spec_float) : spec_float := foldl (fun result x => fmax x result) lowest v.

(** ** [greedy_argmax_kernel] *)

(** The first index whose element satisfies [p], or [best_idx]. *)
Definition find_index (logits : list spec_float) (row vocab_size best_idx : Z) (p : spec_float -> bool)
    : option Z :=
  '(best_idx, _) ← for_each_break (seqZ 0 vocab_size) (fun i best_idx =>
    x ← rd logits (row + i);
    if p x then Some (i, true) else Some (best_idx, false)) best_idx;
  Some best_idx.

Definition greedy_row (logits : list spec_float) (row vocab_size : Z) : option Z :=
  let vec_end := vocab_size - Z.rem vocab_size VEC_ELEM_NUM in
  '(vmax, vsum) ← for_step 0 vec_end VEC_ELEM_NUM (fun i st =>
    v ← rd_range logits (row + i) VEC_ELEM_NUM;
    Some (vec_max st.1 v, vec_add st.2 v)) (splat neg_inf, splat fzero);
  let best_val := reduce_max vmax in
  let maybe_nan := is_nan (reduce_sum vsum) in
  '(best_val, maybe_nan) ← for_range vec_end vocab_size (fun i st =>
    x ← rd logits (row + i);
    Some (if gt x st.1 then x else st.1, st.2 || is_nan x)) (best_val, maybe_nan);
  best_idx ← (if (maybe_nan : bool) then find_index logits row vocab_size (-1) is_nan else Some (-1));
  if best_idx <? 0 then find_index logits row vocab_size 0 (fun x => SFeqb x best_val)
  else Some best_idx.

Definition greedy_argmax_kernel `{Schedule} (logits : list spec_float) (batch_size vocab_size : Z)
    (output : list Z) : option (list Z) :=
  parallel_for batch_size (fun b output =>
    best_idx ← greedy_row logits (b * vocab_size) vocab_size;
    wr output b best_idx) output.

(** ** Maxima *)

Lemma fmax_cases a b : fmax a b = a \/ fmax a b = b.
Proof. unfold fmax. destruct (SFltb a b); auto. Qed.

Lemma fmax_l a b : gt a (fmax a b) = false.
Proof. unfold fmax. change (SFltb a b) with (gt b a). destruct (gt b a) eqn:E; [by apply gt_asym|apply gt_irrefl]. Qed.

Lemma fmax_r a b : gt b (fmax a b) = false.
Proof. unfold fmax. change (SFltb a b) with (gt b a). destruct (gt b a) eqn:E; [apply gt_irrefl|done]. Qed.

Lemma fadd_nan_l a : fadd S754_nan a = S754_nan.
Proof. done. Qed.
Lemma fadd_nan_r a : fadd a S754_nan = S754_nan.
Proof. by destruct a. Qed.
Lemma is_nan_true (a : spec_float) : is_nan a = true -> a = S754_nan.
Proof. by destruct a. Qed.

Lemma fold_max_spec v r : is_nan r = false -> Forall (fun x => is_nan x = false) v ->
  let m := foldl (fun result x => fmax x result) r v in
  is_nan m = false /\ (m = r \/ m ∈ v) /\ gt r m = false /\ Forall (fun x => gt x m = false) v.
Proof.
  revert r. induction v as [|x v IH]; intros r Hr F; simpl.
  { split_and!; [done|by left|apply gt_irrefl|done]. }
  apply Forall_cons in F as [Hx F].
  assert (is_nan (fmax x r) = false) as Hm by (destruct (fmax_cases x r) as [->| ->]; done).
  destruct (IH (fmax x r) Hm F) as (N & M & G & A).
  set (m := foldl (fun result x => fmax x result) (fmax x r) v) in *. split_and!; [done| |..].
  - destruct M as [M|M]; [|right; by constructor]. rewrite M. destruct (fmax_cases x r) as [->| ->]; [right; constructor|by left].
  - apply (gt_false_trans _ (fmax x r)); [done|apply fmax_r|done].
  - constructor; [|done]. apply (gt_false_trans _ (fmax x r)); [done|apply fmax_l|done].
Qed.

Lemma fold_sum_nan v r : is_nan r = true \/ Exists (fun x => is_nan x = true) v ->
  is_nan (foldl (fun result x => fadd result x) r v) = true.
Proof.
  revert r. induction v as [|x v IH]; intros r [Hr|He]; simpl; [done|by apply Exists_nil in He|..]; apply IH.
  - left. by rewrite (is_nan_true _ Hr).
  - apply Exists_cons in He as [Hx|He]; [left|by right]. by rewrite (is_nan_true _ Hx), fadd_nan_r.
Qed.

(** The part of a row that is worked on in full vectors. *)
Lemma vec_part V : 0 <= V -> 0 <= V - Z.rem V VEC_ELEM_NUM <= V /\ (16 | V - Z.rem V VEC_ELEM_NUM).
Proof.
  intros HV. unfold VEC_ELEM_NUM. pose proof (Z.rem_bound_pos V 16). pose proof (Z.quot_rem' V 16).
  pose proof (Z.rem_le V 16). split; [lia|]. exists (Z.quot V 16). lia.
Qed.

(** ** The search *)

Section Row.
Context (logits : list spec_float) (row V : Z) (f : Z -> spec_float).
Context (HV : 1 <= V) (Hread : forall i, 0 <= i < V -> rd logits (row + i) = Some (f i)).
Context (Hfloat : forall i, 0 <= i < V -> is_float (f i) = true).

Lemma find_index_spec init p : exists r, find_index logits row V init p = Some r /\
  ((exists i, 0 <= i < V /\ r = i /\ p (f i) = true /\ forall j, 0 <= j < i -> p (f j) = false) \/
   (r = init /\ forall j, 0 <= j < V -> p (f j) = false)).
Proof.
  unfold find_index. assert (forall n lo, 0 <= n -> 0 <= lo -> lo + n = V -> (forall j, 0 <= j < lo -> p (f j) = false) ->
    exists r b, for_each_break (seqZ lo n) (fun i best_idx => x ← rd logits (row + i);
      if p x then Some (i, true) else Some (best_idx, false)) init = Some (r, b) /\
    ((exists i, 0 <= i < V /\ r = i /\ p (f i) = true /\ forall j, 0 <= j < i -> p (f j) = false) \/
     (r = init /\ forall j, 0 <= j < V -> p (f j) = false))) as G.
  { intros n lo Hn. revert lo. revert n Hn.
    refine (natlike_ind (fun n => forall lo, _) _ _).
    - intros lo Hlo E Hb. rewrite seqZ_nil by lia. exists init, false. split; [done|right].
      split; [done|]. intros j Hj. apply Hb. lia.
    - intros n Hn IH lo Hlo E Hb. rewrite seqZ_cons by lia. rewrite Z.pred_succ. simpl.
      rewrite Hread by lia. cbn [mbind option_bind]. destruct (p (f lo)) eqn:Ep; cbn [mbind option_bind].
      + exists lo, true. split; [done|left]. exists lo. split_and!; [lia|lia|done|done|done].
      + apply IH; [lia|lia|]. intros j Hj. destruct (decide (j = lo)) as [->|]; [done|apply Hb; lia]. }
  destruct (G V 0) as (r & b & -> & Hr); [lia|lia|lia|lia|]. by exists r.
Qed.

(** What [torch.argmax] returns: the first NaN, or else the first maximum. *)
Definition torch_argmax (i : Z) : Prop :=
  0 <= i < V /\
  ((is_nan (f i) = true /\ forall j, 0 <= j < i -> is_nan (f j) = false) \/
   (forall j, 0 <= j < V -> is_nan (f j) = false /\ gt (f j) (f i) = false) /\
   (forall j, 0 <= j < i -> gt (f i) (f j) = true)).

(** A candidate for the maximum of the first [k] elements. *)
Definition candidate (x : spec_float) : Prop :=
  is_nan x = false /\ (x = neg_inf \/ x = lowest \/ exists i, 0 <= i < V /\ x = f i).

Definition numbers : Prop := forall i, 0 <= i < V -> is_nan (f i) = false.

Record vec_inv (k : Z) (st : list spec_float * list spec_float) : Prop := {
  vi_max_len : length st.1 = 16%nat;
  vi_sum_len : length st.2 = 16%nat;
  vi_nan : (exists i, 0 <= i < k /\ is_nan (f i) = true) -> Exists (fun x => is_nan x = true) st.2;
  vi_cand : numbers -> Forall candidate st.1;
  vi_upper : numbers -> forall i, 0 <= i < k -> Exists (fun m => gt (f i) m = false) st.1
}.

Lemma fmax_candidate a i : 0 <= i < V -> numbers -> candidate a -> candidate (fmax a (f i)).
Proof.
  intros Hi N Ha. destruct (fmax_cases a (f i)) as [->| ->]; [done|]. split; [by apply N|]. right; right. by exists i.
Qed.

Lemma vec_step k st : 0 <= k -> k + 16 <= V -> vec_inv k st -> exists st',
  (v ← rd_range logits (row + k) VEC_ELEM_NUM; Some (vec_max st.1 v, vec_add st.2 v)) = Some st' /\ vec_inv (k + 16) st'.
Proof.
  intros Hk Hend [L1 L2 Hnan Hc Hu].
  assert (0 <= row + k /\ row + k + 16 <= Z.of_nat (length logits)) as [? ?].
  { pose proof (rd_Some _ _ _ (Hread k ltac:(lia))). pose proof (rd_Some _ _ _ (Hread (k + 15) ltac:(lia))). lia. }
  unfold VEC_ELEM_NUM. destruct (rd_range_ok logits (row + k) 16) as (v & -> & Lv & Hv); [lia..|].
  assert (forall l, (l < 16)%nat -> v !! l = Some (f (k + Z.of_nat l))) as Hlane.
  { intros l Hl. rewrite Hv by lia. rewrite <- Z.add_assoc. apply Hread. lia. }
  eexists. split; [done|]. constructor; cbn [fst snd]; unfold vec_max, vec_add.
  - rewrite length_zip_with. lia.
  - rewrite length_zip_with. lia.
  - intros (i & Hi & Hn). rewrite Exists_exists. destruct (decide (i < k)) as [Hlt|Hge].
    + apply Exists_exists in Hnan as (s & Hs & Es); [|by exists i; split; [lia|]].
      apply list_elem_of_lookup_1 in Hs as [l Hl]. pose proof (lookup_lt_Some _ _ _ Hl).
      exists (fadd s (f (k + Z.of_nat l))). split; [|by rewrite (is_nan_true _ Es)].
      apply (list_elem_of_lookup_2 _ l). rewrite lookup_zip_with, Hl, Hlane by lia. done.
    + destruct (lookup_lt_is_Some_2 st.2 (Z.to_nat (i - k))) as [s Hs]; [lia|].
      exists (fadd s (f i)). split; [|by rewrite (is_nan_true _ Hn), fadd_nan_r].
      apply (list_elem_of_lookup_2 _ (Z.to_nat (i - k))). rewrite lookup_zip_with, Hs, Hlane by lia.
      simpl. do 3 f_equal. lia.
  - intros N. apply Forall_lookup. intros l x Hx. rewrite lookup_zip_with in Hx.
    destruct (st.1 !! l) as [m|] eqn:Em; [|done]. pose proof (lookup_lt_Some _ _ _ Em).
    rewrite Hlane in Hx by lia. simplify_eq/=. apply fmax_candidate; [lia|done|].
    exact (Forall_lookup_1 _ _ _ _ (Hc N) Em).
  - intros N i Hi. rewrite Exists_exists. destruct (decide (i < k)) as [Hlt|Hge].
    + destruct (proj1 (Exists_exists _ _) (Hu N i ltac:(lia))) as (m & Hm & Em).
      apply list_elem_of_lookup_1 in Hm as [l Hl]. pose proof (lookup_lt_Some _ _ _ Hl).
      exists (fmax m (f (k + Z.of_nat l))). split.
      * apply (list_elem_of_lookup_2 _ l). rewrite lookup_zip_with, Hl, Hlane by lia. done.
      * apply (gt_false_trans _ m); [|done|apply fmax_l]. by apply (Forall_lookup_1 _ _ _ _ (Hc N) Hl).
    + destruct (lookup_lt_is_Some_2 st.1 (Z.to_nat (i - k))) as [m Hm]; [lia|].
      exists (fmax m (f i)). split; [|apply fmax_r].
      apply (list_elem_of_lookup_2 _ (Z.to_nat (i - k))). rewrite lookup_zip_with, Hm, Hlane by lia.
      simpl. do 3 f_equal. lia.
Qed.

(** The state after the vectors and the tail: an upper bound that is a candidate, and
    a flag that is set when there is a NaN. *)
Record tail_inv (k : Z) (st : spec_float * bool) : Prop := {
  ti_nan : (exists i, 0 <= i < k /\ is_nan (f i) = true) -> st.2 = true;
  ti_cand : numbers -> candidate st.1;
  ti_upper : numbers -> forall i, 0 <= i < k -> gt (f i) st.1 = false
}.

Lemma reduced k st : vec_inv k st -> tail_inv k (reduce_max st.1, is_nan (reduce_sum st.2)).
Proof.
  intros [L1 L2 Hnan Hc Hu]. constructor; cbn [fst snd]; unfold reduce_max.
  - intros H. apply fold_sum_nan. right. by apply Hnan.
  - intros N. pose proof (Hc N) as F. destruct (fold_max_spec st.1 lowest) as (Hn & Hin & _);
      [done|eapply Forall_impl; [exact F|by intros x [? _]]|]. split; [done|]. destruct Hin as [->|Hin]; [by right; left|].
    rewrite Forall_forall in F. by apply F.
  - intros N i Hi. pose proof (Hc N) as F. destruct (fold_max_spec st.1 lowest) as (Hn & _ & _ & Hall);
      [done|eapply Forall_impl; [exact F|by intros x [? _]]|].
    destruct (proj1 (Exists_exists _ _) (Hu N i Hi)) as (m & Hm & Em). rewrite Forall_forall in Hall, F.
    apply (gt_false_trans _ m); [apply F, Hm|done|by apply Hall].
Qed.

Lemma tail_step k st : 0 <= k < V -> tail_inv k st -> exists st',
  (x ← rd logits (row + k); Some (if gt x st.1 then x else st.1, st.2 || is_nan x)) = Some st' /\ tail_inv (k + 1) st'.
Proof.
  intros Hk [Hnan Hc Hu]. rewrite Hread by done. eexists. split; [done|]. constructor; cbn [fst snd].
  - intros (i & Hi & Hn). destruct (decide (i = k)) as [->|Hne]; [rewrite Hn; apply orb_true_r|].
    rewrite Hnan; [done|]. exists i. split; [lia|done].
  - intros N. destruct (gt (f k) st.1); [|by apply Hc]. split; [by apply N|]. right; right. by exists k.
  - intros N i Hi. destruct (gt (f k) st.1) eqn:E.
    + destruct (decide (i = k)) as [->|Hne]; [apply gt_irrefl|].
      apply (gt_false_trans _ st.1); [by apply Hc|apply Hu; [done|lia]|by apply gt_asym].
    + destruct (decide (i = k)) as [->|Hne]; [done|apply Hu; [done|lia]].
Qed.

(** The second search, when there is no NaN. *)
Lemma find_best best : numbers -> candidate best -> (forall i, 0 <= i < V -> gt (f i) best = false) ->
  exists i, find_index logits row V 0 (fun x => SFeqb x best) = Some i /\ torch_argmax i.
Proof.
  intros N [Hn Hc] Hu. destruct (find_index_spec 0 (fun x => SFeqb x best)) as (r & -> & Hr). exists r. split; [done|].
  assert (forall i, 0 <= i < V -> SFeqb (f i) best = negb (gt best (f i))) as Eq.
  { intros i Hi. rewrite eqb_gt, (Hu i Hi) by auto. done. }
  destruct Hr as [(i & Hi & -> & Ei & Hb)|[-> Hnone]].
  - rewrite Eq in Ei by done. apply negb_true_iff in Ei. split; [done|right]. split.
    + intros j Hj. split; [by apply N|]. by apply (gt_false_trans _ best); [|apply Hu|].
    + intros j Hj. specialize (Hb j Hj). rewrite Eq in Hb by lia. apply negb_false_iff in Hb.
      apply (gt_replace best); [apply N; lia|done|done].
  - assert (forall j, 0 <= j < V -> gt best (f j) = true) as Hlt.
    { intros j Hj. specialize (Hnone j Hj). rewrite Eq in Hnone by done. by apply negb_false_iff in Hnone. }
    assert (forall j, 0 <= j < V -> f j = neg_inf) as Hinf.
    { intros j Hj. destruct Hc as [->|[->|(i & Hi & ->)]].
      - specialize (Hlt j Hj). by rewrite neg_inf_least in Hlt.
      - apply below_lowest; auto.
      - specialize (Hlt i Hi). by rewrite gt_irrefl in Hlt. }
    split; [lia|right]. split; [|lia]. intros j Hj. split; [by apply N|]. rewrite (Hinf j Hj). apply neg_inf_least.
Qed.

Lemma greedy_row_spec : exists i, greedy_row logits row V = Some i /\ torch_argmax i.
Proof.
  unfold greedy_row. set (vec_end := V - Z.rem V VEC_ELEM_NUM).
  assert (0 <= vec_end <= V /\ (16 | vec_end)) as [Hve Hdiv] by (apply vec_part; lia).
  destruct (for_step_inv (fun k st => (16 | k) /\ k <= vec_end /\ vec_inv k st) 0 vec_end VEC_ELEM_NUM
    (fun i st => v ← rd_range logits (row + i) VEC_ELEM_NUM; Some (vec_max st.1 v, vec_add st.2 v))
    (splat neg_inf, splat fzero)) as ([vmax vsum] & k & -> & _ & Hk1 & _ & _ & Hk2 & I).
  - done.
  - split_and!; [apply Z.divide_0_r|lia|]. constructor; cbn [fst snd]; [done|done|intros (i & ? & _); lia| |lia].
    intros _. apply Forall_replicate. split; [done|by left].
  - intros i st Hi (Hdi & _ & Hv). assert (i + 16 <= vec_end).
    { destruct Hdi as [a ->], Hdiv as [c Hc]. rewrite Hc in *. lia. }
    destruct (vec_step i st) as (st' & E & I'); [lia|lia|done|].
    exists st'. split; [exact E|]. split_and!; [|done|done]. apply Z.divide_add_r; [done|apply Z.divide_refl].
  - assert (k = vec_end) as -> by lia. clear Hk1 Hk2. cbn [mbind option_bind].
    destruct (for_range_inv tail_inv vec_end V (fun i st => x ← rd logits (row + i);
      Some (if gt x st.1 then x else st.1, st.2 || is_nan x)) (reduce_max vmax, is_nan (reduce_sum vsum)))
      as ([best maybe] & -> & [Tn Tc Tu]).
    + lia.
    + exact (reduced _ _ I).
    + intros i st Hi. apply tail_step. lia.
    + cbn [mbind option_bind fst snd] in *.
      destruct (find_index_spec (-1) is_nan) as (r & Er & [(i & Hi & -> & Ei & Hb)|[-> Hnone]]).
      * rewrite Tn by (by exists i). rewrite Er. cbn [mbind option_bind]. rewrite (proj2 (Z.ltb_ge i 0)) by lia.
        exists i. split; [done|]. split; [done|]. by left.
      * assert ((if maybe then find_index logits row V (-1) is_nan else Some (-1)) = Some (-1)) as -> by (by destruct maybe).
        cbn [mbind option_bind Z.ltb Z.compare]. apply find_best; [done|by apply Tc|by apply Tu].
Qed.

End Row.

(** [C24] [greedy_argmax_kernel] agrees with [torch.argmax]: for every row it returns the
    index of the first NaN if there is one, and otherwise that of the first maximum
    (also when the infinities of a row make the NaN test fire by mistake, when all
    logits are minus infinity, and when the vocabulary is not a multiple of the vector
    length). *)
Theorem greedy_argmax_spec `{ScheduleOk} logits batch_size vocab_size output :
  0 <= batch_size -> 1 <= vocab_size -> Z.of_nat (length logits) = batch_size * vocab_size ->
  Forall (fun x => is_float x = true) logits -> Z.of_nat (length output) = batch_size ->
  exists out, greedy_argmax_kernel logits batch_size vocab_size output = Some out /\ length out = length output /\
    forall b, 0 <= b < batch_size -> exists i, rd out b = Some i /\
      torch_argmax vocab_size (fun k => default S754_nan (rd logits (b * vocab_size + k))) i.
Proof.
  intros Hb HV Hlen HF Hout. set (row b k := default S754_nan (rd logits (b * vocab_size + k))).
  assert (forall b, 0 <= b < batch_size -> exists i, greedy_row logits (b * vocab_size) vocab_size = Some i /\
    torch_argmax vocab_size (row b) i) as Hrow.
  { intros b Hbb. assert (forall k, 0 <= k < vocab_size -> exists x, rd logits (b * vocab_size + k) = Some x /\ is_float x = true) as Hx.
    { intros k Hk. destruct (rd_is_Some logits (b * vocab_size + k)) as [x E]; [nia|]. exists x. split; [done|].
      rewrite rd_lookup in E by nia. exact (Forall_lookup_1 _ _ _ _ HF E). }
    apply greedy_row_spec; [done|..]; intros k Hk; unfold row; by destruct (Hx k Hk) as (x & -> & ?). }
  set (o b := default 0 (greedy_row logits (b * vocab_size) vocab_size)).
  destruct (for_each_cells (schedule batch_size) (fun b output =>
    best_idx ← greedy_row logits (b * vocab_size) vocab_size; wr output b best_idx) output o) as (out & E & Hl & Ho).
  - apply NoDup_schedule.
  - intros b Hbb%elem_of_schedule. lia.
  - intros b a Hbb%elem_of_schedule _. unfold o. by destruct (Hrow b Hbb) as (i & -> & _).
  - exists out. split; [exact E|]. split; [done|]. intros b Hbb. destruct (Hrow b Hbb) as (i & Ei & Hi). exists i.
    split; [|done]. rewrite Ho by (by apply elem_of_schedule). unfold o. by rewrite Ei.
Qed.

(** Two rows of seventeen: infinities of both signs, and a NaN in the tail. *)
Definition greedy_sample : list spec_float :=
  replicate 3 (S754_infinity true) ++ [S754_infinity false] ++ replicate 13 (S754_zero true) ++
  replicate 16 (S754_finite false 8388608 (-23)) ++ [S754_nan].

Lemma greedy_argmax_spec_witness : exists out i,
  @greedy_argmax_kernel backwards greedy_sample 2 17 [0; 0] = Some out /\ rd out 1 = Some i /\
  torch_argmax 17 (fun k => default S754_nan (rd greedy_sample (1 * 17 + k))) i /\ out = [3; 16].
Proof.
  destruct (@greedy_argmax_spec backwards backwards_ok greedy_sample 2 17 [0; 0]
    ltac:(lia) ltac:(lia) eq_refl ltac:(repeat constructor) eq_refl) as (out & E & _ & H).
  destruct (H 1 ltac:(lia)) as (i & Hi & T). exists out, i. split; [exact E|]. split; [exact Hi|]. split; [exact T|].
  vm_compute in E. by injection E as <-.
Defined.

End SamplingKernels.
