(* ===== verification/LogitBias.v ===== *)
(** * Logit processing ([csrc/cpu/sampling_kernels.cpp], [apply_logit_bias_cpu])

    Each row of logits is restricted to the allowed tokens of its request, shifted by
    the logit biases, and has its stop tokens masked while the output is still shorter
    than the minimum length; a row that this would mask completely can get its finite
    stop logits back.  The rows are worked on in the order of a [Schedule]. *)

From Stdlib Require Import SpecFloat.
From S2P Require Import Prelude Arrays FloatOrder SamplingKernels.

#[local] Open Scope Z_scope.

Module LogitBias.
Import SamplingKernels.

Definition MAX_ALLOWED_TOKEN_IDS : Z := 1024.
Definition MAX_STOP_TOKEN_IDS : Z := 128.

(** [std::isfinite] *)
Definition is_finite (x : spec_float) : bool :=
  match x with S754_zero _ | S754_finite _ _ _ => true | _ => false end.

(** The tensors other than the logits. *)
Record Inputs := {
  vocab_size : Z;
  logits_stride : Z;
  idx_mapping : list Z;
  positions : list Z;
  num_allowed : list Z;
  allowed : list Z;
  allowed_stride : Z;
  num_bias : list Z;
  bias_token_ids : list Z;
  bias_ids_stride : Z;
  bias : list spec_float;
  bias_stride : Z;
  min_lens : list Z;
  num_stop : list Z;
  restore : list Z;
  stop_token_ids : list Z;
  stop_stride : Z;
  check_all_masked_rows : bool
}.

(** Full vectors, then the rest. *)
Definition fill_logits (logits : list spec_float) (row size : Z) (value : spec_float) : option (list spec_float) :=
  let vectorized_size := size - Z.rem size VEC_ELEM_NUM in
  logits ← for_step 0 vectorized_size VEC_ELEM_NUM (fun offset l => wr_range l (row + offset) (splat value)) logits;
  fill logits (row + vectorized_size) (row + size) value.

Section Row.
Context (x : Inputs) (row req_idx : Z).

(** [row[ids[i]]] for the first [n] ids, into a local array. *)
Definition save_ids (ids : list Z) (base n cap : Z) (logits : list spec_float) : option (list spec_float) :=
  for_range 0 n (fun i saved =>
    id ← rd ids (base + i); v ← rd logits (row + id); wr saved i v)
    (replicate (Z.to_nat cap) fzero).

Definition allow_row (logits : list spec_float) : option (list spec_float) :=
  n ← rd (num_allowed x) req_idx;
  if 0 <? n then
    let base := req_idx * allowed_stride x in
    saved_logits ← save_ids (allowed x) base n MAX_ALLOWED_TOKEN_IDS logits;
    logits ← fill_logits logits row (vocab_size x) neg_inf;
    for_range 0 n (fun i l =>
      id ← rd (allowed x) (base + i); v ← rd saved_logits i; wr l (row + id) v) logits
  else Some logits.

Definition bias_row (logits : list spec_float) : option (list spec_float) :=
  n ← rd (num_bias x) req_idx;
  for_range 0 n (fun i l =>
    id ← rd (bias_token_ids x) (req_idx * bias_ids_stride x + i);
    d ← rd (bias x) (req_idx * bias_stride x + i);
    v ← rd l (row + id);
    wr l (row + id) (fadd v d)) logits.

(** The first loop over the stop tokens: the masked row and the saved logits. *)
Definition mask_stop (base n : Z) (logits : list spec_float) : option (list spec_float) :=
  for_range 0 n (fun i l => id ← rd (stop_token_ids x) (base + i); wr l (row + id) neg_inf) logits.

Definition save_and_mask (base n : Z) (logits : list spec_float)
    : option (list spec_float * list spec_float) :=
  for_range 0 n (fun i st =>
    id ← rd (stop_token_ids x) (base + i);
    v ← rd st.1 (row + id);
    saved ← wr st.2 i v;
    l ← wr st.1 (row + id) neg_inf;
    Some (l, saved)) (logits, replicate (Z.to_nat MAX_STOP_TOKEN_IDS) fzero).

Definition all_masked (logits : list spec_float) : option bool :=
  vs ← rd_range logits row (vocab_size x);
  Some (forallb (fun v => SFeqb v neg_inf) vs).

Definition stop_row (token_idx : Z) (logits : list spec_float) : option (list spec_float) :=
  n ← rd (num_stop x) req_idx;
  if n =? 0 then Some logits else
  pos ← rd (positions x) token_idx;
  min_len ← rd (min_lens x) req_idx;
  if min_len <=? pos + 1 then Some logits else
  let base := req_idx * stop_stride x in
  keep ← (if check_all_masked_rows x then r ← rd (restore x) req_idx; Some (negb (r =? 0)) else Some false);
  if negb keep then mask_stop base n logits else
  '(logits, saved_stop_logits) ← save_and_mask base n logits;
  masked ← all_masked logits;
  if (masked : bool) then
    for_range 0 n (fun i l =>
      value ← rd saved_stop_logits i;
      if is_finite value then id ← rd (stop_token_ids x) (base + i); wr l (row + id) value
      else Some l) logits
  else Some logits.

End Row.

Definition process_row (x : Inputs) (token_idx : Z) (logits : list spec_float) : option (list spec_float) :=
  req_idx ← rd (idx_mapping x) token_idx;
  let row := token_idx * logits_stride x in
  logits ← allow_row x row req_idx logits;
  logits ← bias_row x row req_idx logits;
  stop_row x row req_idx token_idx logits.

Definition apply_logit_bias_cpu `{Schedule} (x : Inputs) (num_tokens : Z) (logits : list spec_float)
    : option (list spec_float) :=
  parallel_for num_tokens (process_row x) logits.

(** ** What a row becomes *)

Definition ids_of (ids : list Z) (base n : Z) : list Z := (fun i => at_ ids (base + i)) <$> seqZ 0 n.

Section Spec.
Context (x : Inputs) (req_idx : Z).

Definition allowed_ids : list Z := ids_of (allowed x) (req_idx * allowed_stride x) (at_ (num_allowed x) req_idx).
Definition stop_ids : list Z := ids_of (stop_token_ids x) (req_idx * stop_stride x) (at_ (num_stop x) req_idx).
(** The biases of token [v], in their order. *)
Definition biases_of (v : Z) : list spec_float :=
  (fun i => default fzero (rd (bias x) (req_idx * bias_stride x + i))) <$>
  filter (fun i => at_ (bias_token_ids x) (req_idx * bias_ids_stride x + i) = v) (seqZ 0 (at_ (num_bias x) req_idx)).

Definition allowed_logit (f : Z -> spec_float) (v : Z) : spec_float :=
  if decide (0 < at_ (num_allowed x) req_idx /\ v ∉ allowed_ids) then neg_inf else f v.
Definition biased_logit (f : Z -> spec_float) (v : Z) : spec_float := foldl fadd (f v) (biases_of v).
Definition masked_logit (f : Z -> spec_float) (v : Z) : spec_float := if decide (v ∈ stop_ids) then neg_inf else f v.

(** The stop tokens are masked before the minimum length is reached. *)
Definition stops (pos : Z) : bool := negb ((at_ (num_stop x) req_idx =? 0) || (at_ (min_lens x) req_idx <=? pos + 1)).
Definition restores : bool := check_all_masked_rows x && negb (at_ (restore x) req_idx =? 0).

Definition stop_logit (pos : Z) (f : Z -> spec_float) (v : Z) : spec_float :=
  if stops pos then
    if decide (restores = true /\ Forall (fun u => masked_logit f u = neg_inf) (seqZ 0 (vocab_size x)))
    then if is_finite (f v) then f v else neg_inf
    else masked_logit f v
  else f v.

End Spec.

(** The row of a token, as a function of its old logits. *)
Definition new_logit (x : Inputs) (token_idx : Z) (f : Z -> spec_float) : Z -> spec_float :=
  let req_idx := at_ (idx_mapping x) token_idx in
  stop_logit x req_idx (at_ (positions x) token_idx) (biased_logit x req_idx (allowed_logit x req_idx f)).

(** ** Well-formed inputs *)

(** [n] tokens from [base], which fit the local array. *)
Record ids_ok (x : Inputs) (ids : list Z) (base n cap : Z) : Prop := {
  ik_num : 0 <= n <= cap;
  ik_base : 0 <= base;
  ik_end : base + n <= Z.of_nat (length ids);
  ik_vocab : forall i, 0 <= i < n -> 0 <= at_ ids (base + i) < vocab_size x
}.

Record request_ok (x : Inputs) (r : Z) : Prop := {
  ro_allowed_num : 0 <= r < Z.of_nat (length (num_allowed x));
  ro_bias_num : r < Z.of_nat (length (num_bias x));
  ro_stop_num : r < Z.of_nat (length (num_stop x));
  ro_min_len : r < Z.of_nat (length (min_lens x));
  ro_restore : r < Z.of_nat (length (restore x));
  ro_allowed : ids_ok x (allowed x) (r * allowed_stride x) (at_ (num_allowed x) r) MAX_ALLOWED_TOKEN_IDS;
  ro_bias : ids_ok x (bias_token_ids x) (r * bias_ids_stride x) (at_ (num_bias x) r) (at_ (num_bias x) r);
  ro_bias_values : 0 <= r * bias_stride x /\ r * bias_stride x + at_ (num_bias x) r <= Z.of_nat (length (bias x));
  ro_stop : ids_ok x (stop_token_ids x) (r * stop_stride x) (at_ (num_stop x) r) MAX_STOP_TOKEN_IDS
}.

Record inputs_ok (x : Inputs) (num_tokens n : Z) : Prop := {
  in_vocab : 0 <= vocab_size x <= logits_stride x;
  in_rows : forall t, 0 <= t < num_tokens -> t * logits_stride x + vocab_size x <= n;
  in_mapping : num_tokens <= Z.of_nat (length (idx_mapping x));
  in_positions : num_tokens <= Z.of_nat (length (positions x));
  in_requests : forall t, 0 <= t < num_tokens -> request_ok x (at_ (idx_mapping x) t)
}.

(** ** One row *)

Lemma elem_of_ids ids base n v : v ∈ ids_of ids base n <-> exists i, 0 <= i < n /\ at_ ids (base + i) = v.
Proof.
  unfold ids_of. rewrite list_elem_of_fmap. setoid_rewrite elem_of_seqZ. split.
  - intros (i & -> & Hi). exists i. split; [lia|done].
  - intros (i & Hi & <-). exists i. split; [done|lia].
Qed.

Lemma elem_of_ids_snoc ids base k v : 0 <= k ->
  v ∈ ids_of ids base (k + 1) <-> v ∈ ids_of ids base k \/ v = at_ ids (base + k).
Proof.
  intros Hk. rewrite !elem_of_ids. split.
  - intros (i & Hi & <-). destruct (decide (i = k)) as [->|]; [by right|]. left. exists i. split; [lia|done].
  - intros [(i & Hi & <-)| ->]; [exists i|exists k]; (split; [lia|done]).
Qed.

Lemma no_ids ids base v : v ∉ ids_of ids base 0.
Proof. intros (i & Hi & _)%elem_of_ids. lia. Qed.

Section RowCorrect.
Context (x : Inputs) (row req : Z) (l0 : list spec_float).
Abbreviation V := (vocab_size x).
Context (HV : 0 <= V) (Hrow : 0 <= row) (Hend : row + V <= Z.of_nat (length l0)).

(** The row holds [f], the rest of the buffer is as it was. *)
Record row_is (l : list spec_float) (f : Z -> spec_float) : Prop := {
  ri_length : length l = length l0;
  ri_row : forall v, 0 <= v < V -> rd l (row + v) = Some (f v);
  ri_rest : forall j, ~ (row <= j < row + V) -> rd l j = rd l0 j
}.

Lemma row_is_ext l f g : (forall v, 0 <= v < V -> f v = g v) -> row_is l f -> row_is l g.
Proof. intros E [R1 R2 R3]. constructor; [done| |done]. intros v Hv. by rewrite <- E by done; apply R2. Qed.

Lemma write_row l f g v y : row_is l f -> 0 <= v < V -> g v = y ->
  (forall u, 0 <= u < V -> u <> v -> g u = f u) -> exists l', wr l (row + v) y = Some l' /\ row_is l' g.
Proof.
  intros [R1 R2 R3] Hv Hy Hg. destruct (wr_ok l (row + v) y) as (l' & E & L & Vy & U); [rewrite R1; lia|].
  exists l'. split; [done|]. constructor; [congruence| |].
  - intros u Hu. destruct (decide (u = v)) as [->|Hne]; [by rewrite Vy, Hy|].
    rewrite U by lia. rewrite R2, Hg by done. done.
  - intros j Hj. rewrite U by lia. by apply R3.
Qed.

Lemma id_read ids base n cap i : ids_ok x ids base n cap -> 0 <= i < n ->
  rd ids (base + i) = Some (at_ ids (base + i)) /\ 0 <= at_ ids (base + i) < V.
Proof. intros [Hn Hb He Hv] Hi. split; [apply rd_at; lia|by apply Hv]. Qed.

Lemma save_ids_ok ids base n cap l f : ids_ok x ids base n cap -> row_is l f ->
  exists saved, save_ids row ids base n cap l = Some saved /\
    forall i, 0 <= i < n -> rd saved i = Some (f (at_ ids (base + i))).
Proof.
  intros K R. unfold save_ids. pose proof (ik_num _ _ _ _ _ K).
  destruct (for_range_inv (fun k saved => length saved = Z.to_nat cap /\
      forall i, 0 <= i < k -> rd saved i = Some (f (at_ ids (base + i)))) 0 n
    (fun i saved => id ← rd ids (base + i); v ← rd l (row + id); wr saved i v) (replicate (Z.to_nat cap) fzero))
    as (saved & E & _ & Hs); [lia|split; [by rewrite length_replicate|lia]| |by exists saved].
  intros k saved Hk [L Hs]. destruct (id_read _ _ _ _ k K Hk) as [-> Hid]. cbn [mbind option_bind].
  rewrite (ri_row _ _ R _ Hid). cbn [mbind option_bind].
  destruct (wr_ok saved k (f (at_ ids (base + k)))) as (s' & -> & L' & Vk & U); [lia|].
  exists s'. split; [done|]. split; [congruence|]. intros i Hi. destruct (decide (i = k)) as [->|]; [done|].
  rewrite U by done. apply Hs. lia.
Qed.

(** A write of several cells of the row. *)
Lemma write_cells l f off vs : row_is l f -> 0 <= off -> off + Z.of_nat (length vs) <= V ->
  exists l', wr_range l (row + off) vs = Some l' /\
    row_is l' (fun v => if decide (off <= v < off + Z.of_nat (length vs)) then default fzero (vs !! Z.to_nat (v - off)) else f v).
Proof.
  intros [R1 R2 R3] Ho Hl. destruct (wr_range_ok l (row + off) vs) as (l' & E & L & Vin & U); [lia|rewrite R1; lia|].
  exists l'. split; [done|]. constructor; [congruence| |].
  - intros v Hv. case_decide as Hd.
    + destruct (lookup_lt_is_Some_2 vs (Z.to_nat (v - off))) as [y Hy]; [lia|]. rewrite Hy. simpl.
      rewrite <- (Vin _ _ Hy). f_equal. lia.
    + rewrite U by lia. by apply R2.
  - intros j Hj. rewrite U by lia. by apply R3.
Qed.

Lemma fill_logits_ok l f value : row_is l f ->
  exists l', fill_logits l row V value = Some l' /\ row_is l' (fun _ => value).
Proof.
  intros R. unfold fill_logits. set (vend := V - Z.rem V VEC_ELEM_NUM).
  assert (0 <= vend <= V /\ (16 | vend)) as [Hve Hdiv] by (apply vec_part; lia).
  destruct (for_step_inv (fun k l => (16 | k) /\ k <= vend /\ row_is l (fun v => if decide (v < k) then value else f v))
    0 vend VEC_ELEM_NUM (fun offset l => wr_range l (row + offset) (splat value)) l) as (l1 & k & -> & _ & Hk1 & _ & _ & Hk2 & R1).
  - done.
  - split_and!; [apply Z.divide_0_r|lia|]. eapply row_is_ext; [|exact R]. intros v Hv. by rewrite decide_False by lia.
  - intros k l1 Hk (Hd & _ & R1). assert (k + 16 <= vend).
    { destruct Hd as [a ->], Hdiv as [c Hc]. rewrite Hc in *. lia. }
    destruct (write_cells l1 _ k (splat value) R1) as (l2 & E2 & R2); [lia|simpl; lia|].
    exists l2. split; [exact E2|]. split_and!; [apply Z.divide_add_r; [done|apply Z.divide_refl]|done|].
    eapply row_is_ext; [|exact R2]. intros v Hv. unfold splat. rewrite length_replicate. unfold VEC_ELEM_NUM.
    repeat case_decide; try lia; [|done|done]. rewrite lookup_replicate_2 by lia. done.
  - assert (k = vend) as -> by lia. cbn [mbind option_bind]. rewrite fill_is by lia.
    destruct (write_cells l1 _ vend (replicate (Z.to_nat (row + V - (row + vend))) value) R1) as (l2 & -> & R2);
      [lia|rewrite length_replicate; lia|].
    exists l2. split; [done|]. eapply row_is_ext; [|exact R2]. intros v Hv. cbn beta. rewrite length_replicate.
    repeat case_decide; try lia; try done. rewrite lookup_replicate_2 by lia. done.
Qed.

Context (RO : request_ok x req).

Lemma allow_row_ok l f : row_is l f ->
  exists l', allow_row x row req l = Some l' /\ row_is l' (allowed_logit x req f).
Proof.
  intros R. unfold allow_row. pose proof (ro_allowed_num _ _ RO). rewrite rd_at by lia. cbn [mbind option_bind].
  pose proof (ro_allowed _ _ RO) as K. set (base := req * allowed_stride x) in *. set (n := at_ (num_allowed x) req) in *.
  destruct (Z.ltb_spec 0 n) as [Hn|Hn].
  - destruct (save_ids_ok _ _ _ _ l f K R) as (saved & -> & Hs). cbn [mbind option_bind].
    destruct (fill_logits_ok l f neg_inf R) as (l1 & -> & R1). cbn [mbind option_bind].
    destruct (for_range_inv (fun k l => row_is l (fun v => if decide (v ∈ ids_of (allowed x) base k) then f v else neg_inf)) 0 n
      (fun i l => id ← rd (allowed x) (base + i); v ← rd saved i; wr l (row + id) v) l1) as (l2 & -> & R2).
    + lia.
    + eapply row_is_ext; [|exact R1]. intros v _. by rewrite decide_False by apply no_ids.
    + intros k l2 Hk R2. destruct (id_read _ _ _ _ k K Hk) as [-> Hid]. rewrite Hs by done. cbn [mbind option_bind].
      eapply write_row; [exact R2|done|..]; cbn beta.
      * by rewrite decide_True by (apply elem_of_ids_snoc; [lia|by right]).
      * intros u Hu Hne. apply decide_ext. rewrite elem_of_ids_snoc by lia. tauto.
    + exists l2. split; [done|]. eapply row_is_ext; [|exact R2]. intros v Hv. unfold allowed_logit, allowed_ids. fold base n.
      repeat case_decide; tauto.
  - exists l. split; [done|]. eapply row_is_ext; [|exact R]. intros v Hv. unfold allowed_logit. fold n.
    by rewrite decide_False by lia.
Qed.

Lemma bias_row_ok l f : row_is l f ->
  exists l', bias_row x row req l = Some l' /\ row_is l' (biased_logit x req f).
Proof.
  intros R. unfold bias_row. pose proof (ro_allowed_num _ _ RO). pose proof (ro_bias_num _ _ RO). rewrite rd_at by lia.
  cbn [mbind option_bind]. pose proof (ro_bias _ _ RO) as K. pose proof (ro_bias_values _ _ RO) as Hv.
  set (base := req * bias_ids_stride x) in *. set (n := at_ (num_bias x) req) in *.
  set (upto k v := foldl fadd (f v) ((fun i => default fzero (rd (bias x) (req * bias_stride x + i))) <$>
    filter (fun i => at_ (bias_token_ids x) (base + i) = v) (seqZ 0 k))).
  apply (for_range_inv (fun k l => row_is l (upto k))).
  - apply (ik_num _ _ _ _ _ K).
  - exact R.
  - intros k l1 Hk R1. destruct (id_read _ _ _ _ k K Hk) as [-> Hid]. cbn [mbind option_bind].
    destruct (rd_is_Some (bias x) (req * bias_stride x + k)) as [d Ed]; [lia|]. rewrite Ed. cbn [mbind option_bind].
    rewrite (ri_row _ _ R1 _ Hid). cbn [mbind option_bind].
    assert (forall v, upto (k + 1) v = if decide (at_ (bias_token_ids x) (base + k) = v) then fadd (upto k v) d else upto k v) as Hup.
    { intros v. unfold upto. rewrite (seqZ_app 0 k 1), filter_app, fmap_app, foldl_app by lia.
      assert (seqZ (0 + k) 1 = [k]) as -> by (unfold seqZ; simpl; f_equal; lia). rewrite filter_cons, filter_nil.
      case_decide; [|done]. simpl. by rewrite Ed. }
    eapply write_row; [exact R1|done|..].
    + by rewrite Hup, decide_True.
    + intros u Hu Hne. by rewrite Hup, decide_False by done.
Qed.

(** The row after [k] stop tokens. *)
Definition masked_upto (k : Z) (f : Z -> spec_float) (v : Z) : spec_float :=
  if decide (v ∈ ids_of (stop_token_ids x) (req * stop_stride x) k) then neg_inf else f v.

Lemma masked_upto_0 l f : row_is l f -> row_is l (masked_upto 0 f).
Proof. apply row_is_ext. intros v _. unfold masked_upto. by rewrite decide_False by apply no_ids. Qed.

(** Masking one more. *)
Lemma masked_next k l f : 0 <= k < at_ (num_stop x) req -> row_is l (masked_upto k f) ->
  exists l', wr l (row + at_ (stop_token_ids x) (req * stop_stride x + k)) neg_inf = Some l' /\
    row_is l' (masked_upto (k + 1) f).
Proof.
  intros Hk R. destruct (id_read _ _ _ _ k (ro_stop _ _ RO) Hk) as [_ Hid].
  eapply write_row; [exact R|done|..]; unfold masked_upto.
  - by rewrite decide_True by (apply elem_of_ids_snoc; [lia|by right]).
  - intros u Hu Hne. apply decide_ext. rewrite elem_of_ids_snoc by lia. tauto.
Qed.

Lemma mask_stop_ok l f : row_is l f ->
  exists l', mask_stop x row (req * stop_stride x) (at_ (num_stop x) req) l = Some l' /\ row_is l' (masked_logit x req f).
Proof.
  intros R. pose proof (ro_stop _ _ RO) as K. unfold mask_stop.
  apply (for_range_inv (fun k l => row_is l (masked_upto k f))).
  - apply (ik_num _ _ _ _ _ K).
  - by apply masked_upto_0.
  - intros k l1 Hk R1. destruct (id_read _ _ _ _ k K Hk) as [-> Hid]. by apply masked_next.
Qed.

(** What the saved array holds: a repeated token was masked already. *)
Lemma save_and_mask_ok l f : row_is l f ->
  exists l' saved, save_and_mask x row (req * stop_stride x) (at_ (num_stop x) req) l = Some (l', saved) /\
    row_is l' (masked_logit x req f) /\ forall i, 0 <= i < at_ (num_stop x) req ->
    rd saved i = Some (masked_upto i f (at_ (stop_token_ids x) (req * stop_stride x + i))).
Proof.
  intros R. pose proof (ro_stop _ _ RO) as K. unfold save_and_mask.
  destruct (for_range_inv (fun k st => row_is st.1 (masked_upto k f) /\
      length st.2 = Z.to_nat MAX_STOP_TOKEN_IDS /\ forall i, 0 <= i < k ->
      rd st.2 i = Some (masked_upto i f (at_ (stop_token_ids x) (req * stop_stride x + i)))) 0 (at_ (num_stop x) req)
    (fun i st => id ← rd (stop_token_ids x) (req * stop_stride x + i); v ← rd st.1 (row + id); saved ← wr st.2 i v;
      l ← wr st.1 (row + id) neg_inf; Some (l, saved)) (l, replicate (Z.to_nat MAX_STOP_TOKEN_IDS) fzero))
    as ([l' saved] & -> & R' & _ & Hs); [| | |by exists l', saved].
  - apply (ik_num _ _ _ _ _ K).
  - cbn [fst snd]. split_and!; [by apply masked_upto_0|by rewrite length_replicate|lia].
  - intros k [l1 saved] Hk (R1 & L & Hs). cbn [fst snd] in *. pose proof (ik_num _ _ _ _ _ K).
    destruct (id_read _ _ _ _ k K Hk) as [-> Hid]. cbn [mbind option_bind].
    rewrite (ri_row _ _ R1 _ Hid). cbn [mbind option_bind].
    match goal with |- context [wr saved k ?v] => destruct (wr_ok saved k v) as (s' & -> & L' & Vk & U) end; [lia|].
    cbn [mbind option_bind]. destruct (masked_next k l1 f Hk R1) as (l2 & -> & R2).
    eexists. split; [done|]. cbn [fst snd]. split_and!; [done|congruence|]. intros i Hi.
    destruct (decide (i = k)) as [->|]; [done|]. rewrite U by done. apply Hs. lia.
Qed.

Lemma all_masked_ok l f : row_is l f ->
  all_masked x row l = Some (bool_decide (Forall (fun u => f u = neg_inf) (seqZ 0 V))).
Proof.
  intros [R1 R2 R3]. unfold all_masked. destruct (rd_range_ok l row V) as (vs & -> & Lv & Hv); [lia|lia|rewrite R1; lia|].
  cbn [mbind option_bind]. f_equal. apply eq_true_iff_eq. rewrite forallb_forall, bool_decide_eq_true, Forall_forall.
  assert (forall v : spec_float, SFeqb v neg_inf = true <-> v = neg_inf) as Hinf.
  { intros [|[]| |[]]; done. }
  split.
  - intros H u Hu. rewrite elem_of_seqZ in Hu. apply Hinf, H, list_elem_of_In.
    apply (list_elem_of_lookup_2 _ (Z.to_nat u)). rewrite Hv by lia. rewrite <- R2 by lia. f_equal. lia.
  - intros H v Hin. apply list_elem_of_In, list_elem_of_lookup_1 in Hin as [k Hk]. pose proof (lookup_lt_Some _ _ _ Hk).
    apply Hinf. rewrite Hv, R2 in Hk by lia. injection Hk as <-. apply H, elem_of_seqZ. lia.
Qed.

(** The finite logits of the stop tokens come back. *)
Lemma restore_ok l saved f : row_is l (masked_logit x req f) ->
  Forall (fun u => masked_logit x req f u = neg_inf) (seqZ 0 V) ->
  (forall i, 0 <= i < at_ (num_stop x) req ->
     rd saved i = Some (masked_upto i f (at_ (stop_token_ids x) (req * stop_stride x + i)))) ->
  exists l', for_range 0 (at_ (num_stop x) req) (fun i l => value ← rd saved i;
      if is_finite value then id ← rd (stop_token_ids x) (req * stop_stride x + i); wr l (row + id) value
      else Some l) l = Some l' /\ row_is l' (fun v => if is_finite (f v) then f v else neg_inf).
Proof.
  intros R Hall Hs. pose proof (ro_stop _ _ RO) as K. rewrite Forall_forall in Hall.
  set (ids k := ids_of (stop_token_ids x) (req * stop_stride x) k).
  destruct (for_range_inv (fun k l => row_is l (fun v => if bool_decide (v ∈ ids k) && is_finite (f v) then f v else neg_inf))
    0 (at_ (num_stop x) req) (fun i l => value ← rd saved i;
      if is_finite value then id ← rd (stop_token_ids x) (req * stop_stride x + i); wr l (row + id) value
      else Some l) l) as (l' & -> & R').
  - apply (ik_num _ _ _ _ _ K).
  - eapply row_is_ext; [|exact R]. intros v Hv. rewrite bool_decide_eq_false_2 by apply no_ids. apply Hall, elem_of_seqZ. lia.
  - intros k l1 Hk R1. rewrite Hs by done. cbn [mbind option_bind]. destruct (id_read _ _ _ _ k K Hk) as [-> Hid].
    cbn [mbind option_bind]. set (id := at_ (stop_token_ids x) (req * stop_stride x + k)) in *.
    assert (forall v, v ∈ ids (k + 1) <-> v ∈ ids k \/ v = id) as Hsnoc by (intros; apply elem_of_ids_snoc; lia).
    unfold masked_upto. fold (ids k). destruct (decide (id ∈ ids k)) as [Hin|Hin]; simpl.
    + exists l1. split; [done|]. eapply row_is_ext; [|exact R1]. intros v _. cbn beta.
      by rewrite (bool_decide_ext (v ∈ ids (k + 1)) (v ∈ ids k)) by (rewrite Hsnoc; naive_solver).
    + destruct (is_finite (f id)) eqn:Ef.
      * eapply write_row; [exact R1|done|..]; cbn beta.
        -- rewrite bool_decide_eq_true_2, Ef by (apply Hsnoc; by right). done.
        -- intros u Hu Hne. by rewrite (bool_decide_ext (u ∈ ids (k + 1)) (u ∈ ids k)) by (rewrite Hsnoc; naive_solver).
      * exists l1. split; [done|]. eapply row_is_ext; [|exact R1]. intros v _.
        destruct (decide (v = id)) as [->|Hne]; [by rewrite Ef, !andb_false_r|]. cbn beta.
        by rewrite (bool_decide_ext (v ∈ ids (k + 1)) (v ∈ ids k)) by (rewrite Hsnoc; naive_solver).
  - exists l'. split; [done|]. eapply row_is_ext; [|exact R']. intros v Hv. cbn beta.
    destruct (is_finite (f v)) eqn:Ef; [|by rewrite andb_false_r]. rewrite andb_true_r. case_bool_decide as Hd; [done|].
    specialize (Hall v). rewrite elem_of_seqZ in Hall. unfold masked_logit, stop_ids in Hall. fold (ids (at_ (num_stop x) req)) in Hall.
    rewrite decide_False in Hall by done. symmetry. apply Hall. lia.
Qed.

Lemma stop_row_ok token_idx l f : 0 <= token_idx < Z.of_nat (length (positions x)) -> row_is l f ->
  exists l', stop_row x row req token_idx l = Some l' /\
    row_is l' (stop_logit x req (at_ (positions x) token_idx) f).
Proof.
  intros Ht R. pose proof (ro_allowed_num _ _ RO). pose proof (ro_stop_num _ _ RO). pose proof (ro_min_len _ _ RO).
  pose proof (ro_restore _ _ RO). unfold stop_row. rewrite (rd_at (num_stop x)) by lia. cbn [mbind option_bind].
  unfold stop_logit, stops. destruct (Z.eqb_spec (at_ (num_stop x) req) 0) as [E0|E0].
  { exists l. by split. }
  rewrite !rd_at by lia. cbn [mbind option_bind orb].
  destruct (Z.leb_spec (at_ (min_lens x) req) (at_ (positions x) token_idx + 1)) as [Hle|Hle]; cbn [negb].
  { exists l. by split. }
  assert ((if check_all_masked_rows x then Some (negb (at_ (restore x) req =? 0)) else Some false)
    = Some (restores x req)) as -> by (unfold restores; by destruct (check_all_masked_rows x)).
  cbn [mbind option_bind]. destruct (restores x req) eqn:Er; cbn [negb].
  - destruct (save_and_mask_ok l f R) as (l1 & saved & -> & R1 & Hs). cbn [mbind option_bind].
    rewrite (all_masked_ok _ _ R1). cbn [mbind option_bind]. case_bool_decide as Hall.
    + destruct (restore_ok l1 saved f R1 Hall Hs) as (l2 & E2 & R2). exists l2. split; [exact E2|].
      eapply row_is_ext; [|exact R2]. intros v _. by rewrite decide_True.
    + exists l1. split; [done|]. eapply row_is_ext; [|exact R1]. intros v _. by rewrite decide_False by tauto.
  - destruct (mask_stop_ok l f R) as (l1 & -> & R1). exists l1. split; [done|].
    eapply row_is_ext; [|exact R1]. intros v _. by rewrite decide_False by (by intros [? _]).
Qed.

Lemma process_row_ok token_idx l f : 0 <= token_idx < Z.of_nat (length (positions x)) ->
  token_idx < Z.of_nat (length (idx_mapping x)) -> at_ (idx_mapping x) token_idx = req ->
  row = token_idx * logits_stride x -> row_is l f ->
  exists l', process_row x token_idx l = Some l' /\ row_is l' (new_logit x token_idx f).
Proof.
  intros Hp Hm Er Erow R. unfold process_row, new_logit. rewrite rd_at by lia. cbn [mbind option_bind].
  rewrite Er, <- Erow. destruct (allow_row_ok l f R) as (l1 & -> & R1). cbn [mbind option_bind].
  destruct (bias_row_ok l1 _ R1) as (l2 & -> & R2). cbn [mbind option_bind]. by apply stop_row_ok.
Qed.

End RowCorrect.

(** When the row is to be kept alive, a finite logit remains. *)
Lemma restored_finite x req pos f v : restores x req = true -> 0 <= v < vocab_size x -> is_finite (f v) = true ->
  (forall u, 0 <= u < vocab_size x -> f u = neg_inf \/ is_finite (f u) = true) ->
  exists u, 0 <= u < vocab_size x /\ is_finite (stop_logit x req pos f u) = true.
Proof.
  intros Hr Hv Hf Hall. unfold stop_logit. destruct (stops x req pos); [|by exists v].
  case_decide as Hd; [exists v; rewrite Hf; by split|].
  destruct (decide (Exists (fun u => masked_logit x req f u <> neg_inf) (seqZ 0 (vocab_size x)))) as [He|He].
  - apply Exists_exists in He as (u & Hu & Hne). rewrite elem_of_seqZ in Hu. exists u. split; [lia|].
    unfold masked_logit in *. case_decide; [done|]. destruct (Hall u) as [?|?]; [lia|done|done].
  - destruct Hd. split; [done|]. apply Forall_forall. intros u Hu. destruct (decide (masked_logit x req f u = neg_inf)); [done|].
    destruct He. apply Exists_exists. by exists u.
Qed.

(** [C23] Logit processing, for any order of the rows: every logit of every row becomes
    minus infinity if its request has allowed tokens and it is not one of them, then
    gets the biases of its token added in their order, and then becomes minus infinity
    if it is a stop token and the minimum length is not reached; if that last step
    would leave the whole row at minus infinity and the request asks for restoration,
    the logits that were finite before it are put back.  So, for a request that asks for
    restoration, if the allowed-token and bias steps leave logits that are finite or
    minus infinity and at least one finite logit, the row that comes out has a finite
    logit.  Nothing outside the rows is touched. *)
Theorem apply_logit_bias_spec `{ScheduleOk} x num_tokens logits :
  0 <= num_tokens -> inputs_ok x num_tokens (Z.of_nat (length logits)) ->
  let row t v := default S754_nan (rd logits (t * logits_stride x + v)) in
  let before t := biased_logit x (at_ (idx_mapping x) t) (allowed_logit x (at_ (idx_mapping x) t) (row t)) in
  exists out, apply_logit_bias_cpu x num_tokens logits = Some out /\ length out = length logits /\
    (forall t v, 0 <= t < num_tokens -> 0 <= v < vocab_size x ->
       rd out (t * logits_stride x + v) = Some (new_logit x t (row t) v)) /\
    (forall j, (forall t, 0 <= t < num_tokens -> ~ (t * logits_stride x <= j < t * logits_stride x + vocab_size x)) ->
       rd out j = rd logits j) /\
    (forall t v, 0 <= t < num_tokens -> restores x (at_ (idx_mapping x) t) = true ->
       0 <= v < vocab_size x -> is_finite (before t v) = true ->
       (forall u, 0 <= u < vocab_size x -> before t u = neg_inf \/ is_finite (before t u) = true) ->
       exists u, 0 <= u < vocab_size x /\ is_finite (new_logit x t (row t) u) = true).
Proof.
  intros Hn OK row before. pose proof (in_vocab _ _ _ OK) as HV.
  destruct (for_each_rows (schedule num_tokens) (process_row x) logits (fun t => t * logits_stride x) (vocab_size x)
    (fun t => new_logit x t (row t))) as (out & E & L & Vr & U).
  - apply NoDup_schedule.
  - intros i j Hi%elem_of_schedule Hj%elem_of_schedule Hij. nia.
  - intros t a Ht%elem_of_schedule La Ha. pose proof (in_rows _ _ _ OK t Ht) as Hr.
    pose proof (in_positions _ _ _ OK). pose proof (in_mapping _ _ _ OK). assert (0 <= t * logits_stride x) by nia.
    destruct (process_row_ok x (t * logits_stride x) (at_ (idx_mapping x) t) a) with (token_idx := t) (l := a) (f := row t)
      as (l' & E' & R'); try lia; try done.
    + by apply (in_requests _ _ _ OK).
    + constructor; [done| |done]. intros v Hv. rewrite Ha by done. unfold row.
      destruct (rd_is_Some logits (t * logits_stride x + v)) as [y ->]; [nia|done].
    + exists l'. split; [done|]. destruct R' as [R1 R2 R3]. by split_and!.
  - exists out. split; [exact E|]. split_and!; [done| | |].
    + intros t v Ht Hv. by apply Vr; [apply elem_of_schedule|].
    + intros j Hj. apply U. intros t Ht%elem_of_schedule. by apply Hj.
    + intros t v Ht Hr Hv Hf Hall. by eapply restored_finite.
Qed.

(** Two rows of 18 logits for one request: tokens 1 and 17 are allowed (1 twice), token 1
    gets a bias twice, and both are stop tokens, so that masking them empties the row. *)
Definition bias_sample : Inputs := {|
  vocab_size := 18; logits_stride := 20; idx_mapping := [0; 0]; positions := [3; 9];
  num_allowed := [3]; allowed := [1; 17; 1]; allowed_stride := 3;
  num_bias := [2]; bias_token_ids := [1; 1]; bias_ids_stride := 2;
  bias := [S754_finite false 8388608 (-23); S754_finite false 8388608 (-22)]; bias_stride := 2;
  min_lens := [8]; num_stop := [3]; restore := [1]; stop_token_ids := [1; 17; 1]; stop_stride := 3;
  check_all_masked_rows := true |}.

Lemma check_ids x ids base n :
  forallb (fun i => (0 <=? at_ ids (base + i)) && (at_ ids (base + i) <? vocab_size x)) (seqZ 0 n) = true ->
  forall i, 0 <= i < n -> 0 <= at_ ids (base + i) < vocab_size x.
Proof.
  rewrite forallb_forall. intros H i Hi. specialize (H i). rewrite <- list_elem_of_In, elem_of_seqZ in H.
  specialize (H ltac:(lia)). apply andb_prop in H as [?%Z.leb_le ?%Z.ltb_lt]. lia.
Qed.

Lemma bias_sample_ok : inputs_ok bias_sample 2 40.
Proof.
  constructor; [simpl; lia|simpl; lia|simpl; lia|simpl; lia|].
  intros t Ht. assert (at_ (idx_mapping bias_sample) t = 0) as ->.
  { assert (t = 0 \/ t = 1) as [->| ->] by lia; done. }
  constructor; try (vm_compute; (split; done || done); done).
  all: constructor; [vm_compute; by split|done|done|apply check_ids; reflexivity].
Qed.

Lemma apply_logit_bias_spec_witness : exists out,
  @apply_logit_bias_cpu backwards bias_sample 2 (replicate 40 (S754_finite false 8388608 (-21))) = Some out /\
  rd out 0 = Some neg_inf /\
  rd out 1 = Some (new_logit bias_sample 0 (fun _ => S754_finite false 8388608 (-21)) 1) /\
  rd out 18 = Some (S754_finite false 8388608 (-21)).
Proof.
  destruct (@apply_logit_bias_spec backwards backwards_ok bias_sample 2 (replicate 40 (S754_finite false 8388608 (-21)))
    ltac:(lia) bias_sample_ok) as (out & E & _ & H & _).
  pose proof (H 0 0 ltac:(lia) ltac:(simpl; lia)) as H0. pose proof (H 0 1 ltac:(lia) ltac:(simpl; lia)) as H1.
  exists out. split; [exact E|]. split; [exact H0|]. split; [exact H1|]. clear H0 H1 H.
  vm_compute in E. injection E as <-. reflexivity.
Defined.

End LogitBias.
