(* ===== verification/Counting.v ===== *)
(** * Counting and grouping

    What the two ways of grouping token slots by expert share: partial sums, the number
    of slots of an expert among the first ones, and the regions that a counting sort
    gives to the experts.  Also lemmas on buffers that are filled cell by cell. *)

From S2P Require Import Prelude Arrays.

#[local] Open Scope Z_scope.

Module Counting.

(** ** Counting *)

(** Sums [f 0 + .. + f (n - 1)]. *)
Definition psum (f : Z -> Z) (n : Z) : Z := zsum (f <$> seqZ 0 n).

Lemma seqZ_last n : 0 <= n -> seqZ 0 (n + 1) = seqZ 0 n ++ [n].
Proof. intros Hn. rewrite (seqZ_app 0 n 1) by lia. f_equal; unfold seqZ; simpl; f_equal; lia. Qed.

Lemma psum_succ f n : 0 <= n -> psum f (n + 1) = psum f n + f n.
Proof. intros Hn. unfold psum. rewrite seqZ_last, fmap_app, zsum_app by done. simpl. lia. Qed.

Lemma psum_0 f : psum f 0 = 0.
Proof. done. Qed.

Lemma psum_zero n : 0 <= n -> psum (fun _ => 0) n = 0.
Proof. revert n. apply natlike_ind; [done|]. intros n Hn IH. rewrite <- Z.add_1_r, psum_succ, IH by done. done. Qed.

Lemma psum_ext f g n : (forall i, 0 <= i < n -> f i = g i) -> psum f n = psum g n.
Proof.
  intros H. unfold psum. f_equal. apply list_fmap_ext. intros k i Hi.
  apply list_elem_of_lookup_2, elem_of_seqZ in Hi. apply H. lia.
Qed.

Lemma psum_le f g n : 0 <= n -> (forall i, 0 <= i < n -> f i <= g i) -> psum f n <= psum g n.
Proof.
  revert n. refine (natlike_ind (fun n => _ -> _) _ _); [done|]. intros n Hn IH H. rewrite <- Z.add_1_r, !psum_succ by lia.
  specialize (IH ltac:(intros; apply H; lia)). specialize (H n ltac:(lia)). lia.
Qed.

Lemma psum_mono f m n : (forall i, 0 <= i < n -> 0 <= f i) -> 0 <= m <= n -> psum f m <= psum f n.
Proof.
  intros Hf Hm. assert (forall k, 0 <= k -> m + k <= n -> psum f m <= psum f (m + k)) as G.
  { refine (natlike_ind (fun k => _ -> _) _ _); [intros _; by rewrite Z.add_0_r|]. intros k Hk IH Hl.
    replace (m + Z.succ k) with (m + k + 1) by lia. rewrite psum_succ by lia.
    specialize (IH ltac:(lia)). specialize (Hf (m + k) ltac:(lia)). lia. }
  specialize (G (n - m)). replace (m + (n - m)) with n in G by lia. apply G; lia.
Qed.

(** How many of the first [j] slots go to expert [e]. *)
Definition K (topk_ids : list Z) (j e : Z) : Z :=
  Z.of_nat (length (filter (fun i => at_ topk_ids i = e) (seqZ 0 j))).

Section Count.
Context (topk_ids : list Z).
Abbreviation K := (K topk_ids).

Lemma K_0 e : K 0 e = 0.
Proof. done. Qed.

Lemma K_succ j e : 0 <= j -> K (j + 1) e = K j e + if decide (at_ topk_ids j = e) then 1 else 0.
Proof.
  intros Hj. unfold Counting.K. rewrite seqZ_last, filter_app, length_app, filter_cons, filter_nil by done.
  case_decide; simpl; lia.
Qed.

Lemma K_mono i j e : 0 <= i <= j -> K i e <= K j e.
Proof.
  intros Hij. assert (forall d, 0 <= d -> K i e <= K (i + d) e) as G.
  { apply natlike_ind; [by rewrite Z.add_0_r|]. intros d Hd IH. replace (i + Z.succ d) with (i + d + 1) by lia.
    rewrite K_succ by lia. case_decide; lia. }
  specialize (G (j - i)). replace (i + (j - i)) with j in G by lia. apply G. lia.
Qed.

Lemma K_nonneg j e : 0 <= K j e.
Proof. unfold Counting.K. lia. Qed.

(** The slot of each rank. *)
Lemma K_rank n e k : 0 <= n -> 0 <= k < K n e -> exists i, 0 <= i < n /\ at_ topk_ids i = e /\ K i e = k.
Proof.
  intros Hn. revert n Hn. refine (natlike_ind (fun n => _ -> _) _ _); [rewrite K_0; lia|].
  intros n Hn IH Hk. rewrite <- Z.add_1_r, K_succ in Hk by done. destruct (decide (k < K n e)) as [Hlt|Hge].
  - destruct IH as (i & Hi & Hr); [lia|]. exists i. split; [lia|done].
  - destruct (decide (at_ topk_ids n = e)) as [He|]; [|lia]. exists n. split_and!; [lia|lia|done|lia].
Qed.

Lemma psum_indicator a v n : 0 <= a < n -> psum (fun e => if decide (a = e) then v else 0) n = v.
Proof.
  intros Ha. assert (forall m, 0 <= m -> psum (fun e => if decide (a = e) then v else 0) m = if decide (a < m) then v else 0) as G.
  { apply natlike_ind; [by rewrite decide_False by lia|]. intros m Hm IH. rewrite <- Z.add_1_r, psum_succ, IH by done.
    repeat case_decide; lia. }
  rewrite G, decide_True by lia. done.
Qed.

Lemma psum_plus f g n : 0 <= n -> psum (fun e => f e + g e) n = psum f n + psum g n.
Proof.
  revert n. apply natlike_ind; [done|]. intros n Hn IH. rewrite <- Z.add_1_r, !psum_succ, IH by done. lia.
Qed.

Lemma K_total E n : 0 <= E -> 0 <= n -> (forall i, 0 <= i < n -> 0 <= at_ topk_ids i < E) -> psum (K n) E = n.
Proof.
  intros HE Hn. revert n Hn. refine (natlike_ind (fun n => _ -> _) _ _).
  - intros _. rewrite (psum_ext _ (fun _ => 0)) by done. by apply psum_zero.
  - intros n Hn IH Hr. rewrite <- Z.add_1_r.
    rewrite (psum_ext _ (fun e => K n e + if decide (at_ topk_ids n = e) then 1 else 0))
      by (intros; by apply K_succ).
    rewrite psum_plus, psum_indicator, IH by (try done; try (apply Hr; lia); intros; apply Hr; lia). lia.
Qed.

End Count.
(** ** Tables *)

Lemma fill_ok {A} (a : list A) lo hi v : 0 <= lo <= hi -> hi <= Z.of_nat (length a) ->
  exists a', fill a lo hi v = Some a' /\ length a' = length a /\
    forall j, rd a' j = if decide (lo <= j < hi) then Some v else rd a j.
Proof.
  intros Hlo Hhi. rewrite fill_is by lia.
  destruct (wr_range_ok a lo (replicate (Z.to_nat (hi - lo)) v)) as (a' & Ew & L & V & U); rewrite ?length_replicate in *; [lia|lia|].
  exists a'. split_and!; [done|done|]. intros j. case_decide as Hj; [|apply U; lia].
  specialize (V (Z.to_nat (j - lo)) v). replace (lo + Z.of_nat (Z.to_nat (j - lo))) with j in V by lia.
  apply V, lookup_replicate_2. lia.
Qed.

Lemma take_table {A} (l : list A) (f : Z -> A) n : 0 <= n <= Z.of_nat (length l) ->
  (forall p, 0 <= p < n -> rd l p = Some (f p)) -> take (Z.to_nat n) l = f <$> seqZ 0 n.
Proof.
  intros Hn Hl. apply (list_eq_same_length _ _ (Z.to_nat n)).
  - by rewrite length_fmap, length_seqZ.
  - rewrite length_take. lia.
  - intros k x y Hk Hx Hy. rewrite lookup_take_lt in Hx by done. rewrite list_lookup_fmap, lookup_seqZ_lt in Hy by lia.
    specialize (Hl (Z.of_nat k) ltac:(lia)). rewrite rd_lookup, Nat2Z.id in Hl by lia. cbn [fmap option_fmap option_map] in Hy. rewrite Z.add_0_l in Hy. congruence.
Qed.

(** ** Concatenations *)

(** A list that agrees with the pieces of a concatenation. *)
Lemma bind_is {A} (f : Z -> list A) m l : 0 <= m -> length l = length (seqZ 0 m ≫= f) ->
  (forall e k, 0 <= e < m -> (k < length (f e))%nat -> l !! (length (seqZ 0 e ≫= f) + k)%nat = f e !! k) -> l = seqZ 0 m ≫= f.
Proof.
  intros Hm. revert m Hm l. refine (natlike_ind (fun m => forall l, _ -> _ -> _) _ _); [by intros [] ?|].
  intros m Hm IH l. rewrite <- Z.add_1_r, seqZ_last, bind_app, length_app by done. cbn [mbind list_bind]. rewrite app_nil_r.
  intros L Hl. set (n := length (seqZ 0 m ≫= f)) in *. rewrite <- (take_drop n l). f_equal.
  - apply IH; [rewrite length_take; lia|]. intros e k He Hk.
    enough (length (seqZ 0 e ≫= f) + k < n)%nat by (rewrite lookup_take_lt by done; apply Hl; [lia|done]).
    unfold n. replace m with (e + (1 + (m - e - 1))) by lia. rewrite (seqZ_app 0 e), (seqZ_app _ 1), !bind_app, !length_app by lia.
    change (seqZ (0 + e) 1) with [e]. cbn [mbind list_bind]. rewrite app_nil_r. lia.
  - apply (list_eq_same_length _ _ (length (f m))); [done|rewrite length_drop; lia|]. intros k x y Hk Hx Hy.
    rewrite lookup_drop in Hx. specialize (Hl m k ltac:(lia) Hk). fold n in Hl. congruence.
Qed.

(** ** Regions

    Expert [e] gets [size e] cells, at least as many as it has slots; slot [i] goes to
    the cell of its rank among the slots of its expert. *)

Section Regions.
Context (topk_ids : list Z) (numel : Z) (size : Z -> Z).
Abbreviation K := (K topk_ids).
Context (Hsize : forall e, K numel e <= size e).

Definition region (e : Z) : Z := psum size e.
Definition cell (i : Z) : Z := region (at_ topk_ids i) + K i (at_ topk_ids i).

Lemma region_succ e : 0 <= e -> region (e + 1) = region e + size e.
Proof. intros He. unfold region. by rewrite psum_succ. Qed.

Lemma region_le e e' : 0 <= e <= e' -> region e <= region e'.
Proof. intros He. apply psum_mono; [|done]. intros i _. pose proof (K_nonneg topk_ids numel i). specialize (Hsize i). lia. Qed.

Lemma region_nonneg e : 0 <= e -> 0 <= region e.
Proof. intros He. pose proof (region_le 0 e ltac:(lia)) as Hs. exact Hs. Qed.

(** Every cell below the total lies in one region. *)
Lemma region_find E p : 0 <= E -> 0 <= p < region E -> exists e, 0 <= e < E /\ region e <= p < region (e + 1).
Proof.
  intros HE Hp. assert (forall m, 0 <= m -> m <= E -> p < region m -> exists e, 0 <= e < E /\ region e <= p < region (e + 1)) as G.
  { refine (natlike_ind (fun m => _ -> _) _ _); [unfold region; rewrite psum_0; lia|]. intros m Hm IH Hl Hlt.
    destruct (decide (p < region m)); [apply IH; lia|]. exists m. rewrite Z.add_1_r. lia. }
  apply (G E); lia.
Qed.

Lemma region_inj e e' p : 0 <= e -> 0 <= e' -> region e <= p < region (e + 1) -> region e' <= p < region (e' + 1) -> e = e'.
Proof.
  intros He He' Hp Hp'. destruct (Z.lt_trichotomy e e') as [Hl|[?|Hl]]; [|done|].
  - pose proof (region_le (e + 1) e'). lia.
  - pose proof (region_le (e' + 1) e). lia.
Qed.

Lemma rank_lt i : 0 <= i < numel -> K i (at_ topk_ids i) < K numel (at_ topk_ids i).
Proof.
  intros Hi. pose proof (K_mono topk_ids (i + 1) numel (at_ topk_ids i) ltac:(lia)) as Hm.
  rewrite K_succ, decide_True in Hm by (lia || done). lia.
Qed.

Lemma cell_region i : 0 <= i < numel -> 0 <= at_ topk_ids i ->
  region (at_ topk_ids i) <= cell i < region (at_ topk_ids i) + K numel (at_ topk_ids i) /\
  cell i < region (at_ topk_ids i + 1).
Proof.
  intros Hi He. unfold cell. pose proof (rank_lt i Hi). pose proof (K_nonneg topk_ids i (at_ topk_ids i)).
  rewrite region_succ by lia. specialize (Hsize (at_ topk_ids i)). lia.
Qed.

Lemma cell_inj i j : 0 <= i < numel -> 0 <= j < numel -> 0 <= at_ topk_ids i -> 0 <= at_ topk_ids j ->
  cell i = cell j -> i = j.
Proof.
  intros Hi Hj Hpi Hpj Eq. pose proof (cell_region i Hi Hpi). pose proof (cell_region j Hj Hpj).
  assert (at_ topk_ids i = at_ topk_ids j) as Ee by (apply (region_inj _ _ (cell i)); lia).
  unfold cell in Eq. rewrite <- Ee in Eq.
  assert (forall a b, 0 <= a < b -> at_ topk_ids a = at_ topk_ids i -> K a (at_ topk_ids i) < K b (at_ topk_ids i)) as Hlt.
  { intros a b Hab Ea. pose proof (K_mono topk_ids (a + 1) b (at_ topk_ids i) ltac:(lia)) as Hm.
    rewrite K_succ, decide_True in Hm by (lia || done). lia. }
  destruct (Z.lt_trichotomy i j) as [Hl|[?|Hl]]; [|done|].
  - specialize (Hlt i j ltac:(lia) eq_refl). lia.
  - specialize (Hlt j i ltac:(lia) (eq_sym Ee)). lia.
Qed.

End Regions.

End Counting.
