(* ===== verification/MoeAlign.v ===== *)
(** * Grouping tokens by expert ([csrc/cpu/sgl-kernels/moe.cpp])

    [moe_align_block_size] sorts the (token, choice) slots of a mixture-of-experts layer
    by expert with a parallel counting sort, pads every expert to whole blocks of
    [BLOCK_M], and computes the offset of every block in the packed intermediate
    buffer; [align_experts] is the part of [fused_experts_cpu] that lays out and
    initialises the index buffers and calls it.

    [at::parallel_for] is PyTorch's: it cuts a range into one consecutive chunk per
    thread, the same chunks for the same range and grain.  The limits of the chunks are
    the parameter [chunk_bound]; the threads run in the order of a [Schedule].  A thread
    writes only its own row of counters and its own cells, so the chunks are atomic in
    the model.

    [moe_align_block_size] takes the number of experts and of slots as [int], and its
    counters, offsets and index products are [int] too: they wrap at 32 bits in the model
    ([i32]), and the [int64_t] sizes of [fused_experts_cpu] are narrowed where the code
    narrows them. *)

From S2P Require Import Prelude Arrays Counting.

#[local] Open Scope Z_scope.

Module MoeAlign.
Import Counting.

Definition GRAIN_SIZE : Z := 1024.
Definition div_up (x y : Z) : Z := Z.quot (x + y - 1) y.
(** At type [int]. *)
Definition div_up_int (x y : Z) : Z := i32 (Z.quot (i32 (i32 (x + y) - 1)) y).

(** The first index of the chunk of a thread, for a range and a grain size. *)
Class Chunks := chunk_bound : Z -> Z -> Z -> Z.
Class ChunksOk `{Chunks} (num_threads : Z) : Prop := {
  chunk_first n g : chunk_bound n g 0 = 0;
  chunk_last n g : 0 <= n -> chunk_bound n g num_threads = n;
  chunk_mono n g t : 0 <= n -> 0 <= t < num_threads -> chunk_bound n g t <= chunk_bound n g (t + 1)
}.

Section Align.
Context `{Schedule} `{Chunks} (BLOCK_M num_experts numel num_threads : Z) (topk_ids : list Z).

Definition at_parallel_for {S} (n grain : Z) (f : Z -> Z -> Z -> S -> option S) (st : S) : option S :=
  parallel_for num_threads (fun tid st =>
    let begin := chunk_bound n grain tid in
    let end_ := chunk_bound n grain (tid + 1) in
    if begin <? end_ then f tid begin end_ st else Some st) st.

(** A body that takes the limits of its chunk as [int]. *)
Definition int_parallel_for {S} (n grain : Z) (f : Z -> Z -> Z -> S -> option S) (st : S) : option S :=
  at_parallel_for n grain (fun tid begin end_ => f tid (i32 begin) (i32 end_)) st.

(** [T_INDEX(t)[e]] in the flat buffer [total_cnts]. *)
Definition T_INDEX (t e : Z) : Z := i32 (t * num_experts) + e.

(** Every thread counts its chunk in row [tid + 1]. *)
Definition count_chunk (tid begin end_ : Z) (cnts : list Z) : option (list Z) :=
  for_range begin end_ (fun i cnts =>
    e ← rd topk_ids i;
    n ← rd cnts (T_INDEX (tid + 1) e);
    wr cnts (T_INDEX (tid + 1) e) (i32 (n + 1))) cnts.

(** Row [t + 1] becomes the sum of the rows up to it. *)
Definition accumulate (cnts : list Z) : option (list Z) :=
  for_range 0 num_threads (fun t cnts =>
    for_range 0 num_experts (fun e cnts =>
      x ← rd cnts (T_INDEX (t + 1) e);
      y ← rd cnts (T_INDEX t e);
      wr cnts (T_INDEX (t + 1) e) (i32 (x + y))) cnts) cnts.

Definition lay_out (cnts : list Z) (st : list Z * list Z) : option (list Z * list Z) :=
  for_range 0 num_experts (fun e st =>
    let '(cumsums, expert_ids) := st in
    c ← rd cumsums e;
    n ← rd cnts (T_INDEX num_threads e);
    let c' := i32 (c + i32 (div_up_int n BLOCK_M * BLOCK_M)) in
    cumsums ← wr cumsums (e + 1) c';
    expert_ids ← for_step c c' BLOCK_M (fun k ids => wr ids (Z.quot k BLOCK_M) e) expert_ids;
    Some (cumsums, expert_ids)) st.

(** Every thread places its chunk, with the counters of row [tid]. *)
Definition place_chunk (cumsums : list Z) (tid begin end_ : Z) (st : list Z * list Z)
    : option (list Z * list Z) :=
  for_range begin end_ (fun i st =>
    let '(cnts, sorted_ids) := st in
    expert_id ← rd topk_ids i;
    b_offset ← rd cumsums expert_id;
    t_offset ← rd cnts (T_INDEX tid expert_id);
    sorted_ids ← wr sorted_ids (i32 (b_offset + t_offset)) i;
    cnts ← wr cnts (T_INDEX tid expert_id) (i32 (t_offset + 1));
    Some (cnts, sorted_ids)) st.

(** The check that the last two rows agree. *)
Definition check_counts (cnts : list Z) : option bool :=
  for_range 0 num_experts (fun e ok =>
    x ← rd cnts (T_INDEX num_threads e);
    y ← rd cnts (T_INDEX (num_threads - 1) e);
    Some (ok && (x =? y))) true.

Definition sorted_id_size (sorted_ids : list Z) (off : Z) : option Z :=
  '(d, _) ← for_each_break (seqZ 0 BLOCK_M) (fun d r =>
    id ← rd sorted_ids (off + d);
    if id =? numel then Some (d, true) else Some (r, false)) BLOCK_M;
  Some d.

Record Aligned := {
  sorted_ids : list Z;
  expert_ids : list Z;
  offsets : list Z;
  num_tokens_post_pad : Z
}.

Definition moe_align_block_size (sorted_ids expert_ids total_cnts cumsums offsets : list Z)
    : option (outcome Aligned) :=
  cnts ← int_parallel_for numel 0 count_chunk total_cnts;
  cnts ← accumulate cnts;
  cumsums ← wr cumsums 0 0;
  '(cumsums, expert_ids) ← lay_out cnts (cumsums, expert_ids);
  post_pad ← rd cumsums num_experts;
  '(cnts, sorted_ids) ← int_parallel_for numel 0 (place_chunk cumsums) (cnts, sorted_ids);
  ok ← check_counts cnts;
  if negb ok then Some (Throw "total_cnts") else
  offsets ← wr offsets 0 0;
  let num_token_blocks := Z.quot post_pad BLOCK_M in
  offsets ← int_parallel_for num_token_blocks (Z.quot GRAIN_SIZE BLOCK_M) (fun _ begin end_ =>
    for_range begin end_ (fun mb offsets =>
      d ← sorted_id_size sorted_ids (i32 (mb * BLOCK_M)); wr offsets (mb + 1) d)) offsets;
  offsets ← for_range 0 num_token_blocks (fun mb offsets =>
    x ← rd offsets (mb + 1); y ← rd offsets mb; wr offsets (mb + 1) (i32 (x + y))) offsets;
  total ← rd offsets num_token_blocks;
  if negb (total =? numel) then Some (Throw "offsets") else
  Some (Ok {| sorted_ids := sorted_ids; expert_ids := expert_ids; offsets := offsets;
              num_tokens_post_pad := post_pad |}).

End Align.

(** The buffers of [fused_experts_cpu], and their contents before the sort; its sizes are
    [int64_t]. *)
Section Buffers.
Context `{Schedule} `{Chunks} (BLOCK_M num_experts numel num_threads : Z) (topk_ids : list Z).

Definition max_num_tokens_padded : Z := numel + num_experts * (BLOCK_M - 1).
Definition max_num_blocks : Z := div_up max_num_tokens_padded BLOCK_M.

Definition init_chunk (begin end_ : Z) (st : list Z * list Z) : option (list Z * list Z) :=
  let m_start := begin * BLOCK_M in
  let m_size := Z.min ((end_ - begin) * BLOCK_M) (max_num_tokens_padded - m_start) in
  sorted_ids ← fill st.1 m_start (m_start + m_size) (i32 numel);
  expert_ids ← fill st.2 begin end_ (i32 num_experts);
  Some (sorted_ids, expert_ids).

Definition align_experts (sorted_ids expert_ids cnts_and_sums offsets : list Z) : option (outcome Aligned) :=
  '(sorted_ids, expert_ids) ← at_parallel_for num_threads max_num_blocks (Z.quot GRAIN_SIZE BLOCK_M)
    (fun _ => init_chunk) (sorted_ids, expert_ids);
  zeroed ← at_parallel_for num_threads ((num_threads + 1) * num_experts + (num_experts + 1)) GRAIN_SIZE
    (fun _ begin end_ l => fill l begin end_ 0) cnts_and_sums;
  let n := Z.to_nat ((num_threads + 1) * num_experts) in
  moe_align_block_size BLOCK_M (i32 num_experts) (i32 numel) num_threads topk_ids
    sorted_ids expert_ids (take n zeroed) (drop n zeroed) offsets.

End Buffers.

(** ** Reference *)

Section Reference.
Context (BLOCK_M num_experts numel : Z) (topk_ids : list Z).

(** The slots of an expert in order, padded to whole blocks with [numel]. *)
Definition slots (e : Z) : list Z := filter (fun i => at_ topk_ids i = e) (seqZ 0 numel).
Definition padded_slots (e : Z) : list Z :=
  slots e ++ replicate (Z.to_nat (div_up (Z.of_nat (length (slots e))) BLOCK_M * BLOCK_M) - length (slots e)) numel.

Definition reference_ids : list Z := seqZ 0 num_experts ≫= padded_slots.
Definition reference_experts : list Z :=
  seqZ 0 num_experts ≫= fun e => replicate (Z.to_nat (div_up (Z.of_nat (length (slots e))) BLOCK_M)) e.
(** How many of the first [p] cells are slots. *)
Definition real_slots (p : Z) : Z :=
  Z.of_nat (length (filter (fun i => i <> numel) (take (Z.to_nat p) reference_ids))).

(** The slot of rank [k]. *)
Lemma slots_rank i : 0 <= i < numel -> slots (at_ topk_ids i) !! Z.to_nat (K topk_ids i (at_ topk_ids i)) = Some i.
Proof.
  intros Hi. unfold slots, K. rewrite Nat2Z.id. replace numel with (i + (1 + (numel - i - 1))) by lia.
  rewrite (seqZ_app 0 i), (seqZ_app _ 1) by lia. rewrite !filter_app, lookup_app_r, Nat.sub_diag by done.
  change (seqZ (0 + i) 1) with [0 + i]. rewrite Z.add_0_l, filter_cons_True by done. done.
Qed.

End Reference.

(** ** Chunks *)

Section Correct.
Context `{ScheduleOk} `{ChunksOk}.
Context (BLOCK_M num_experts numel : Z) (topk_ids : list Z).
Abbreviation T := num_threads.
Abbreviation E := num_experts.
Abbreviation K := (K topk_ids).
Context (HB : 1 <= BLOCK_M) (HE : 0 <= E) (HT : 1 <= T).
Context (Hlen : Z.of_nat (length topk_ids) = numel).
Context (Hids : forall i, 0 <= i < numel -> 0 <= at_ topk_ids i < E).
(** The padded slots and one more block, and the table of counters, fit an [int]. *)
Context (Hfit : max_num_tokens_padded BLOCK_M E numel + BLOCK_M < 2147483648) (Htab : (T + 1) * E < 2147483648).

Lemma numel_int : 0 <= numel /\ numel + BLOCK_M < 2147483648.
Proof. unfold max_num_tokens_padded in Hfit. nia. Qed.

Lemma narrow_sizes : i32 numel = numel /\ i32 E = E.
Proof. pose proof numel_int. split; apply i32_id; unfold is_i32; nia. Qed.

Lemma T_INDEX_eq t e : 0 <= t <= T -> T_INDEX E t e = t * E + e.
Proof. intros Ht. unfold T_INDEX. rewrite i32_id; [done|]. unfold is_i32. nia. Qed.

(** A count of slots is at most [numel]. *)
Lemma K_int i e : i <= numel -> 0 <= K i e <= numel.
Proof.
  intros Hi. split; [apply K_nonneg|]. unfold Counting.K. pose proof (length_filter (fun j => at_ topk_ids j = e) (seqZ 0 i)) as Hl.
  rewrite length_seqZ in Hl. pose proof numel_int. lia.
Qed.

Lemma chunk_le n g s t : 0 <= n -> 0 <= s <= t -> t <= T -> chunk_bound n g s <= chunk_bound n g t.
Proof.
  intros Hn Hs. assert (forall d, 0 <= d -> s + d <= T -> chunk_bound n g s <= chunk_bound n g (s + d)) as G.
  { refine (natlike_ind (fun d => _ -> _) _ _); [intros _; by rewrite Z.add_0_r|]. intros d Hd IH Hl.
    replace (s + Z.succ d) with (s + d + 1) by lia. pose proof (chunk_mono (num_threads := num_threads) n g (s + d) Hn ltac:(lia)). specialize (IH ltac:(lia)). lia. }
  intros Ht. specialize (G (t - s)). replace (s + (t - s)) with t in G by lia. apply G; lia.
Qed.

Lemma chunk_range n g t : 0 <= n -> 0 <= t <= T -> 0 <= chunk_bound n g t <= n.
Proof.
  intros Hn Ht. pose proof (chunk_le n g 0 t Hn). pose proof (chunk_le n g t T Hn).
  pose proof (chunk_first (num_threads := num_threads) n g). pose proof (chunk_last (num_threads := num_threads) n g Hn). lia.
Qed.

Lemma chunk_cover n g i : 0 <= i < n -> exists t, 0 <= t < T /\ chunk_bound n g t <= i < chunk_bound n g (t + 1).
Proof.
  intros Hi. assert (forall m, 0 <= m -> m <= T -> i < chunk_bound n g m ->
    exists t, 0 <= t < T /\ chunk_bound n g t <= i < chunk_bound n g (t + 1)) as G.
  { refine (natlike_ind (fun m => _ -> _) _ _); [rewrite chunk_first; lia|]. intros m Hm IH Hl Hlt.
    destruct (decide (i < chunk_bound n g m)); [apply IH; lia|]. exists m. rewrite Z.add_1_r. split; [lia|]. lia. }
  apply (G T); [lia|lia|]. rewrite chunk_last by lia. lia.
Qed.

(** The rule for a parallel loop: an invariant over the threads that are done. *)
Lemma at_parallel_done {S} (I : list Z -> S -> Prop) n g f st : 0 <= n -> I [] st ->
  (forall d t s, 0 <= t < T -> t ∉ d -> I d s -> chunk_bound n g t <= chunk_bound n g (t + 1) ->
     exists s', (if chunk_bound n g t <? chunk_bound n g (t + 1)
                 then f t (chunk_bound n g t) (chunk_bound n g (t + 1)) s else Some s) = Some s' /\ I (t :: d) s') ->
  exists st' d, at_parallel_for T n g f st = Some st' /\ (forall t, 0 <= t < T -> t ∈ d) /\ I d st'.
Proof.
  intros Hn Hinit Hstep. unfold at_parallel_for, parallel_for.
  destruct (for_each_done I (schedule T) (fun tid st =>
    if chunk_bound n g tid <? chunk_bound n g (tid + 1)
    then f tid (chunk_bound n g tid) (chunk_bound n g (tid + 1)) st else Some st) st) as (st' & Es & HI).
  - apply NoDup_schedule.
  - done.
  - intros d t s Ht%elem_of_schedule Hd Hs. apply Hstep; [done|done|done|]. apply chunk_le; lia.
  - exists st', (rev (schedule T)). split; [exact Es|]. split; [|done].
    intros t Ht. rewrite list_elem_of_In, <- in_rev, <- list_elem_of_In. by apply elem_of_schedule.
Qed.

(** Limits that fit an [int]. *)
Lemma int_parallel_eq {S} n g (f : Z -> Z -> Z -> S -> option S) st : 0 <= n < 2147483648 ->
  int_parallel_for T n g f st = at_parallel_for T n g f st.
Proof.
  intros Hn. unfold int_parallel_for, at_parallel_for, parallel_for.
  apply (for_each_ext _ _ _ (fun _ => True)); [done| |done]. intros t s Ht%elem_of_schedule _.
  pose proof (chunk_range n g t ltac:(lia) ltac:(lia)). pose proof (chunk_range n g (t + 1) ltac:(lia) ltac:(lia)).
  rewrite !i32_id by (unfold is_i32; lia). by destruct (_ <? _).
Qed.

(** A chunk that is a loop. *)
Lemma chunk_loop {S} b e (body : Z -> S -> option S) s : b <= e ->
  (if b <? e then for_range b e body s else Some s) = for_range b e body s.
Proof.
  intros Hle. destruct (Z.ltb_spec b e); [done|]. unfold for_range. by rewrite seqZ_nil by lia.
Qed.

(** ** The table of counters *)

Record table (cnts : list Z) (c : Z -> Z -> Z) : Prop := {
  tb_length : Z.of_nat (length cnts) = (T + 1) * E;
  tb_cell : forall t e, 0 <= t <= T -> 0 <= e < E -> rd cnts (T_INDEX E t e) = Some (c t e)
}.

Lemma T_INDEX_inj t e t' e' : 0 <= t <= T -> 0 <= t' <= T -> 0 <= e < E -> 0 <= e' < E ->
  T_INDEX E t e = T_INDEX E t' e' -> t = t' /\ e = e'.
Proof. intros Ht Ht'. rewrite !T_INDEX_eq by done. intros. assert (t = t') by nia. subst. lia. Qed.

Lemma table_wr cnts c c' t e v : table cnts c -> 0 <= t <= T -> 0 <= e < E -> c' t e = v ->
  (forall t' e', 0 <= t' <= T -> 0 <= e' < E -> ~ (t' = t /\ e' = e) -> c' t' e' = c t' e') ->
  exists cnts', wr cnts (T_INDEX E t e) v = Some cnts' /\ table cnts' c'.
Proof.
  intros [L C] Ht He Hv Hc. destruct (wr_ok cnts (T_INDEX E t e) v) as (cnts' & Ew & L' & V & U).
  { rewrite T_INDEX_eq by done. rewrite L. nia. }
  exists cnts'. split; [done|]. constructor; [by rewrite L'|]. intros t' e' Ht' He'.
  destruct (decide (t' = t /\ e' = e)) as [[-> ->]|Hne]; [by rewrite V, Hv|].
  rewrite U by (intros Heq; apply Hne, T_INDEX_inj; done). by rewrite C, Hc.
Qed.

Lemma table_ext cnts c c' : (forall t e, 0 <= t <= T -> 0 <= e < E -> c t e = c' t e) -> table cnts c -> table cnts c'.
Proof. intros Hc [L C]. constructor; [done|]. intros t e Ht He. rewrite <- Hc by done. by apply C. Qed.

Abbreviation B t := (chunk_bound numel 0 t).

Lemma slot_read i : 0 <= i < numel -> rd topk_ids i = Some (at_ topk_ids i).
Proof. intros Hi. apply rd_at. lia. Qed.

(** Counting: row [t + 1] holds the counts of the chunk of thread [t]. *)
Lemma count_ok cnts : table cnts (fun _ _ => 0) -> exists cnts',
  int_parallel_for T numel 0 (count_chunk E topk_ids) cnts = Some cnts' /\
  table cnts' (fun t e => if decide (t = 0) then 0 else K (B t) e - K (B (t - 1)) e).
Proof.
  intros T0. pose proof numel_int. rewrite int_parallel_eq by lia. set (full (d : list Z) t e := if decide (t = 0) then 0 else if decide (t - 1 ∈ d) then K (B t) e - K (B (t - 1)) e else 0).
  destruct (at_parallel_done (fun d c => table c (full d)) numel 0 (count_chunk E topk_ids) cnts) as (c' & d & Ec & Hd & Tc).
  - lia.
  - eapply table_ext; [|exact T0]. intros t e _ _. unfold full. rewrite (decide_False (P := t - 1 ∈ [])) by apply not_elem_of_nil. by case_decide.
  - intros d t c Ht Hnd Tc Hle. unfold count_chunk. rewrite chunk_loop by done.
    pose proof (chunk_range numel 0 t ltac:(lia) ltac:(lia)). pose proof (chunk_range numel 0 (t + 1) ltac:(lia) ltac:(lia)).
    destruct (for_range_inv (fun i c => table c (fun t' e => if decide (t' = t + 1) then K i e - K (B t) e else full d t' e))
      (B t) (B (t + 1)) (fun i cnts => e ← rd topk_ids i; n ← rd cnts (T_INDEX E (t + 1) e);
        wr cnts (T_INDEX E (t + 1) e) (i32 (n + 1))) c) as (c1 & -> & T1).
    + done.
    + eapply table_ext; [|exact Tc]. intros t' e _ _. case_decide as Et; [|done]. subst t'. unfold full.
      replace (t + 1 - 1) with t by lia. rewrite !decide_False by (done || lia). lia.
    + intros i c1 Hi T1. rewrite slot_read by lia. cbn [mbind option_bind]. pose proof (Hids i ltac:(lia)) as He.
      rewrite (tb_cell _ _ T1) by lia. cbn [mbind option_bind]. rewrite decide_True by done.
      pose proof (K_int (i + 1) (at_ topk_ids i) ltac:(lia)) as Hk. rewrite K_succ, decide_True in Hk by (lia || done).
      pose proof (K_nonneg topk_ids (B t) (at_ topk_ids i)). assert (K (B t) (at_ topk_ids i) <= K i (at_ topk_ids i)) by (apply K_mono; lia).
      rewrite i32_id by (unfold is_i32; lia). eapply table_wr; [exact T1|lia|done|..]; cbn beta.
      * rewrite decide_True by done. rewrite K_succ by lia. rewrite decide_True by done. lia.
      * intros t' e' _ He' Hne. case_decide; [|done]. rewrite K_succ by lia. rewrite (decide_False (P := at_ topk_ids i = e')) by (intros ?; by apply Hne). lia.
    + exists c1. split; [done|]. eapply table_ext; [|exact T1]. intros t' e _ _. cbn beta. unfold full.
      destruct (decide (t' = t + 1)) as [->|Hne].
      * replace (t + 1 - 1) with t by lia. rewrite decide_False by lia. by rewrite decide_True by constructor.
      * case_decide; [done|]. apply decide_ext. rewrite elem_of_cons. split; [tauto|]. intros [?|?]; [lia|done].
  - exists c'. split; [done|]. eapply table_ext; [|exact Tc]. intros t e Ht He. unfold full. case_decide; [done|].
    rewrite decide_True; [done|]. apply Hd. lia.
Qed.

(** Accumulating: row [t] holds the counts of everything before the chunk of thread [t]. *)
Lemma accumulate_ok cnts : table cnts (fun t e => if decide (t = 0) then 0 else K (B t) e - K (B (t - 1)) e) ->
  exists cnts', accumulate E T cnts = Some cnts' /\ table cnts' (fun t e => K (B t) e).
Proof.
  intros T0. pose proof numel_int. set (raw t e := if decide (t = 0) then 0 else K (B t) e - K (B (t - 1)) e) in *.
  assert (forall e, K (B 0) e = 0) as HB0 by (intros e; by rewrite (chunk_first (num_threads := num_threads))).
  destruct (for_range_inv (fun t c => table c (fun t' e => if decide (t' <= t) then K (B t') e else raw t' e)) 0 T
    (fun t cnts => for_range 0 E (fun e cnts => x ← rd cnts (T_INDEX E (t + 1) e); y ← rd cnts (T_INDEX E t e);
       wr cnts (T_INDEX E (t + 1) e) (i32 (x + y))) cnts) cnts) as (c' & Ec & Tc).
  - lia.
  - eapply table_ext; [|exact T0]. intros t e Ht He. destruct (decide (t <= 0)); [|done].
    assert (t = 0) as -> by lia. unfold raw. by rewrite HB0.
  - intros t c Ht Tc.
    destruct (for_range_inv (fun e0 c => table c (fun t' e => if decide (t' <= t \/ t' = t + 1 /\ e < e0) then K (B t') e else raw t' e))
      0 E (fun e cnts => x ← rd cnts (T_INDEX E (t + 1) e); y ← rd cnts (T_INDEX E t e);
       wr cnts (T_INDEX E (t + 1) e) (i32 (x + y))) c) as (c1 & -> & T1).
    + lia.
    + eapply table_ext; [|exact Tc]. intros t' e _ He. cbn beta. apply decide_ext. lia.
    + intros e0 c1 He T1. rewrite (tb_cell _ _ T1) by lia. cbn [mbind option_bind]. rewrite (tb_cell _ _ T1) by lia.
      cbn [mbind option_bind]. eapply table_wr; [exact T1|lia|lia|..]; cbn beta.
      * symmetry. rewrite decide_False, decide_True by lia. unfold raw. rewrite decide_False, decide_True by lia.
        replace (t + 1 - 1) with t by lia. replace (K (B (t + 1)) e0 - K (B t) e0 + K (B t) e0) with (K (B (t + 1)) e0) by lia.
        pose proof (chunk_range numel 0 (t + 1) ltac:(lia) ltac:(lia)). assert (0 <= K (B (t + 1)) e0 <= numel) by (apply K_int; lia). apply i32_id. unfold is_i32. lia.
      * intros t' e' _ _ Hne. apply decide_ext. lia.
    + exists c1. split; [done|]. eapply table_ext; [|exact T1]. intros t' e _ He. cbn beta. apply decide_ext. lia.
  - exists c'. split; [exact Ec|]. eapply table_ext; [|exact Tc]. intros t e Ht He. cbn beta. by rewrite decide_True by lia.
Qed.

(** ** The layout *)

Definition padded (n : Z) : Z := div_up n BLOCK_M * BLOCK_M.
(** The first slot of an expert. *)
Definition start : Z -> Z := region (fun e => padded (K numel e)).

Lemma padded_bounds n : 0 <= n -> n <= padded n < n + BLOCK_M /\ (BLOCK_M | padded n).
Proof.
  intros Hn. unfold padded, div_up. rewrite Z.quot_div_nonneg by lia. split; [|apply Z.divide_factor_r].
  pose proof (Z.div_mod (n + BLOCK_M - 1) BLOCK_M). pose proof (Z.mod_pos_bound (n + BLOCK_M - 1) BLOCK_M). nia.
Qed.

Lemma size_bound e : K numel e <= padded (K numel e).
Proof. apply padded_bounds, K_nonneg. Qed.

Lemma start_succ e : 0 <= e -> start (e + 1) = start e + padded (K numel e).
Proof. intros He. by apply (region_succ (fun e => padded (K numel e))). Qed.

Lemma start_le e e' : 0 <= e <= e' -> start e <= start e'.
Proof. apply (region_le topk_ids numel), size_bound. Qed.

Lemma start_nonneg e : 0 <= e -> 0 <= start e.
Proof. apply (region_nonneg topk_ids numel), size_bound. Qed.

Lemma start_divide e : 0 <= e -> (BLOCK_M | start e).
Proof.
  revert e. apply natlike_ind; [apply Z.divide_0_r|]. intros e He IH. rewrite <- Z.add_1_r, start_succ by done.
  apply Z.divide_add_r; [done|]. apply padded_bounds, K_nonneg.
Qed.

Lemma start_total : start E <= max_num_tokens_padded BLOCK_M E numel.
Proof.
  unfold max_num_tokens_padded. rewrite <- (K_total topk_ids E numel) at 1 by (lia || done).
  enough (forall e, 0 <= e -> start e <= psum (K numel) e + e * (BLOCK_M - 1)) as G by (apply G; lia).
  apply natlike_ind; [done|]. intros e He IH. rewrite <- Z.add_1_r, start_succ, psum_succ by done.
  pose proof (padded_bounds (K numel e) (K_nonneg _ _ _)). nia.
Qed.

Abbreviation max_blocks := (max_num_blocks BLOCK_M E numel).

Lemma block_bound e j : 0 <= e <= E -> j * BLOCK_M < start e -> j < max_blocks.
Proof.
  intros He Hj. pose proof start_total as Ht. pose proof (start_le e E). unfold max_num_blocks, div_up.
  set (m := max_num_tokens_padded BLOCK_M E numel) in *. assert (0 <= m) by (unfold m, max_num_tokens_padded; nia).
  rewrite Z.quot_div_nonneg by lia. apply Z.lt_le_trans with (j + 1); [lia|]. apply Z.div_le_lower_bound; nia.
Qed.

(** The block loop of one expert. *)
Lemma fill_blocks (ids : list Z) a b e : (BLOCK_M | a) -> (BLOCK_M | b) -> 0 <= a <= b -> (forall j, j * BLOCK_M < b -> j < Z.of_nat (length ids)) ->
  exists ids', for_step a b BLOCK_M (fun k ids => wr ids (Z.quot k BLOCK_M) e) ids = Some ids' /\ length ids' = length ids /\
    forall j, rd ids' j = if decide (a <= j * BLOCK_M < b) then Some e else rd ids j.
Proof.
  intros Ha Hb Hab Hlim.
  destruct (for_step_inv (fun k l => (BLOCK_M | k) /\ k <= b /\ length l = length ids /\
      forall j, rd l j = if decide (a <= j * BLOCK_M < k) then Some e else rd ids j) a b BLOCK_M
    (fun k ids => wr ids (Z.quot k BLOCK_M) e) ids) as (ids' & k & -> & _ & Hk & _ & _ & Hkb & L & V).
  - done.
  - split_and!; [done|lia|done|]. intros j. by rewrite decide_False by lia.
  - intros k l Hk ([q ->] & _ & L & V). rewrite Z.quot_mul by lia.
    destruct (wr_ok l q e) as (l' & -> & L' & Vq & U); [rewrite L; specialize (Hlim q ltac:(lia)); nia|].
    exists l'. split; [done|]. split_and!; [apply Z.divide_add_r; [apply Z.divide_factor_r|apply Z.divide_refl]| |congruence|].
    + destruct Hb as [r ->]. assert (q + 1 <= r) by nia. nia.
    + intros j. destruct (decide (j = q)) as [->|Hne]; [rewrite Vq, decide_True by nia; done|].
      rewrite U, V by done. apply decide_ext. split; [nia|]. intros Hq. split; [lia|]. assert (j < q \/ q + 1 <= j) as [?|?] by lia; nia.
  - assert (k = b) as -> by lia. by exists ids'.
Qed.

(** The sums of [lay_out] do not wrap. *)
Lemma lay_out_int e : 0 <= e < E -> i32 (start e + i32 (div_up_int (K numel e) BLOCK_M * BLOCK_M)) = start (e + 1).
Proof.
  intros He. pose proof numel_int. pose proof (K_int numel e ltac:(lia)). pose proof (padded_bounds (K numel e) ltac:(lia)) as [Hp _].
  pose proof (start_nonneg e ltac:(lia)). pose proof (start_le (e + 1) E ltac:(lia)). pose proof start_total. rewrite start_succ in * by lia.
  unfold div_up_int. rewrite (i32_id (K numel e + BLOCK_M)), (i32_id (K numel e + BLOCK_M - 1)) by (unfold is_i32; lia).
  change (Z.quot (K numel e + BLOCK_M - 1) BLOCK_M) with (div_up (K numel e) BLOCK_M).
  assert (0 <= div_up (K numel e) BLOCK_M) by (apply Z.quot_pos; lia).
  assert (div_up (K numel e) BLOCK_M <= padded (K numel e)) by (unfold padded; nia).
  rewrite (i32_id (div_up _ _)) by (unfold is_i32; lia). fold (padded (K numel e)).
  rewrite (i32_id (padded _)) by (unfold is_i32; lia). apply i32_id. unfold is_i32. lia.
Qed.

Lemma lay_out_ok cnts cumsums ids : table cnts (fun t e => K (B t) e) ->
  Z.of_nat (length cumsums) = E + 1 -> rd cumsums 0 = Some 0 -> Z.of_nat (length ids) = max_blocks ->
  exists cumsums' ids', lay_out BLOCK_M E T cnts (cumsums, ids) = Some (cumsums', ids') /\ length ids' = length ids /\
    (forall e, 0 <= e <= E -> rd cumsums' e = Some (start e)) /\
    (forall e j, 0 <= e < E -> start e <= j * BLOCK_M < start (e + 1) -> rd ids' j = Some e).
Proof.
  intros Tc Lc H00 Li. unfold lay_out.
  destruct (for_range_inv (fun e0 st => length st.1 = length cumsums /\ length st.2 = length ids /\
      (forall e, 0 <= e <= e0 -> rd st.1 e = Some (start e)) /\
      (forall e j, 0 <= e < e0 -> start e <= j * BLOCK_M < start (e + 1) -> rd st.2 j = Some e)) 0 E
    (fun e st => let '(cumsums, expert_ids) := st in c ← rd cumsums e; n ← rd cnts (T_INDEX E T e);
      let c' := i32 (c + i32 (div_up_int n BLOCK_M * BLOCK_M)) in cumsums ← wr cumsums (e + 1) c';
      expert_ids ← for_step c c' BLOCK_M (fun k ids => wr ids (Z.quot k BLOCK_M) e) expert_ids;
      Some (cumsums, expert_ids)) (cumsums, ids)) as ([c' i'] & El & _ & Li' & Hc & Hi).
  - lia.
  - cbn [fst snd]. split_and!; [done|done| |lia]. intros e He. by replace e with 0 by lia.
  - intros e [cs xs] He (L1 & L2 & Hc & Hi). cbn [fst snd] in *. rewrite Hc by lia. cbn [mbind option_bind].
    rewrite (tb_cell _ _ Tc) by lia. rewrite (chunk_last (num_threads := num_threads)) by lia. cbn [mbind option_bind].
    rewrite lay_out_int by lia.
    destruct (wr_ok cs (e + 1) (start (e + 1))) as (cs' & -> & Lcs & Ve & Ue); [lia|]. cbn [mbind option_bind].
    destruct (fill_blocks xs (start e) (start (e + 1)) e) as (xs' & -> & Lis & Vi).
    + apply start_divide. lia.
    + apply start_divide. lia.
    + split; [apply start_nonneg; lia|apply start_le; lia].
    + intros j Hj. rewrite L2, Li. apply (block_bound (e + 1)); [lia|done].
    + cbn [mbind option_bind]. eexists. split; [done|]. cbn [fst snd]. split_and!; [congruence|congruence|..].
      * intros e' He'. destruct (decide (e' = e + 1)) as [->|]; [done|]. rewrite Ue by done. apply Hc. lia.
      * intros e' j He' Hj. rewrite Vi. destruct (decide (e' = e)) as [->|]; [by rewrite decide_True by done|].
        rewrite decide_False; [apply Hi; [lia|done]|]. pose proof (start_le (e' + 1) e). lia.
  - exists c', i'. split_and!; [exact El|done|done|done].
Qed.

(** ** The placement *)

Definition pos : Z -> Z := cell topk_ids (fun e => padded (K numel e)).


Lemma pos_region i : 0 <= i < numel ->
  start (at_ topk_ids i) <= pos i < start (at_ topk_ids i) + K numel (at_ topk_ids i) /\
  pos i < start (at_ topk_ids i + 1).
Proof. intros Hi. apply (cell_region topk_ids numel); [apply size_bound|done|apply Hids; lia]. Qed.

Lemma region_unique e e' p : 0 <= e -> 0 <= e' -> start e <= p < start (e + 1) -> start e' <= p < start (e' + 1) -> e = e'.
Proof. apply (region_inj topk_ids numel), size_bound. Qed.

Lemma pos_inj i j : 0 <= i < numel -> 0 <= j < numel -> pos i = pos j -> i = j.
Proof. intros Hi Hj. apply (cell_inj topk_ids numel); [apply size_bound|done|done|apply Hids; lia..]. Qed.

(** The slots in [P] are placed. *)
Record placed (s0 : list Z) (P : Z -> Prop) (s : list Z) : Prop := {
  pl_length : length s = length s0;
  pl_in : forall i, 0 <= i < numel -> P i -> rd s (pos i) = Some i;
  pl_out : forall p, (forall i, 0 <= i < numel -> P i -> pos i <> p) -> rd s p = rd s0 p
}.

Lemma placed_ext s0 P Q s : (forall i, 0 <= i < numel -> P i <-> Q i) -> placed s0 P s -> placed s0 Q s.
Proof.
  intros HPQ [L V U]. constructor; [done| |].
  - intros i Hi Q'. apply V; [done|]. by apply HPQ.
  - intros p Hp. apply U. intros i Hi P'. apply Hp; [done|]. by apply HPQ.
Qed.

Lemma placed_next s0 P s i : Z.of_nat (length s0) = max_num_tokens_padded BLOCK_M E numel -> placed s0 P s ->
  0 <= i < numel -> ~ P i -> exists s', wr s (pos i) i = Some s' /\ placed s0 (fun k => P k \/ k = i) s'.
Proof.
  intros Hs0 [L V U] Hi Hn. pose proof (pos_region i Hi). pose proof (Hids i Hi) as He.
  pose proof (start_nonneg (at_ topk_ids i) ltac:(lia)). pose proof (start_le (at_ topk_ids i + 1) E ltac:(lia)). pose proof start_total.
  destruct (wr_ok s (pos i) i) as (s' & -> & L' & Vi & Ui); [rewrite L; lia|]. exists s'. split; [done|]. constructor.
  - congruence.
  - intros k Hk [Pk| ->]; [|done]. rewrite Ui; [by apply V|]. intros Heq%pos_inj; [|done|done]. by subst.
  - intros p Hp. rewrite Ui by (intros ->; by apply (Hp i Hi); [right|]). apply U. intros k Hk Pk. apply Hp; [done|by left].
Qed.

Lemma chunk_unique n g s t i : 0 <= n -> 0 <= s < T -> 0 <= t < T ->
  chunk_bound n g s <= i < chunk_bound n g (s + 1) -> chunk_bound n g t <= i < chunk_bound n g (t + 1) -> s = t.
Proof.
  intros Hn Hs Ht Is It. destruct (Z.lt_trichotomy s t) as [Hl|[?|Hl]]; [|done|].
  - pose proof (chunk_le n g (s + 1) t Hn). lia.
  - pose proof (chunk_le n g (t + 1) s Hn). lia.
Qed.

(** The slots of the chunks in [d]. *)
Definition in_chunks (d : list Z) (i : Z) : Prop := exists t, t ∈ d /\ 0 <= t < T /\ B t <= i < B (t + 1).

Lemma place_slot cumsums s0 d t i c s : 0 <= t < T -> t ∉ d -> B t <= i < B (t + 1) -> B (t + 1) <= numel ->
  Z.of_nat (length s0) = max_num_tokens_padded BLOCK_M E numel ->
  (forall e, 0 <= e <= E -> rd cumsums e = Some (start e)) ->
  table c (fun t' e => if decide (t' = t) then K i e else K (B (if decide (t' ∈ d) then t' + 1 else t')) e) ->
  placed s0 (fun k => in_chunks d k \/ B t <= k < i) s -> exists c' s',
  (expert_id ← rd topk_ids i; b_offset ← rd cumsums expert_id; t_offset ← rd c (T_INDEX E t expert_id);
   sorted_ids ← wr s (i32 (b_offset + t_offset)) i; cnts ← wr c (T_INDEX E t expert_id) (i32 (t_offset + 1));
   Some (cnts, sorted_ids)) = Some (c', s') /\
  table c' (fun t' e => if decide (t' = t) then K (i + 1) e else K (B (if decide (t' ∈ d) then t' + 1 else t')) e) /\
  placed s0 (fun k => in_chunks d k \/ B t <= k < i + 1) s'.
Proof.
  intros Ht Hd Hi Hn Hs0 Hc Tc Pl. pose proof (chunk_range numel 0 t ltac:(lia) ltac:(lia)).
  rewrite slot_read by lia. cbn [mbind option_bind]. pose proof (Hids i ltac:(lia)) as He. set (e := at_ topk_ids i) in *.
  rewrite Hc by lia. cbn [mbind option_bind]. rewrite (tb_cell _ _ Tc) by lia. rewrite decide_True by done. cbn [mbind option_bind].
  pose proof numel_int. pose proof (K_int (i + 1) e ltac:(lia)) as Hk. rewrite K_succ, decide_True in Hk by (lia || done).
  pose proof (K_nonneg topk_ids i e). pose proof (pos_region i ltac:(lia)) as [Hp1 Hp2]. fold e in Hp1, Hp2.
  pose proof (start_nonneg e ltac:(lia)). pose proof (start_le (e + 1) E ltac:(lia)). pose proof start_total.
  change (start e + K i e) with (pos i). rewrite !i32_id by (unfold is_i32; lia).
  destruct (placed_next s0 _ s i Hs0 Pl ltac:(lia)) as (s' & -> & Pl').
  { intros [(t' & Ht' & Hr & Hin)|?]; [|lia]. assert (t' = t) as -> by (apply (chunk_unique numel 0 t' t i); lia). done. }
  cbn [mbind option_bind]. edestruct (table_wr c) as (c' & -> & Tc'); [exact Tc| | | | |cbn [mbind option_bind]; exists c', s'; split; [done|]; split; [exact Tc'|]].
  - lia.
  - done.
  - cbn beta. rewrite decide_True by done. rewrite K_succ, decide_True by (lia || done). done.
  - intros t' e' Ht' He' Hne. cbn beta. case_decide; [|done]. rewrite K_succ, decide_False by (lia || (intros ?; by apply Hne)). lia.
  - eapply placed_ext; [|exact Pl']. intros k Hkn. cbn beta. split; [intros [[?|?]|?]; [by left|right; lia|right; lia]|].
    intros [?|?]; [by left; left|]. destruct (decide (k = i)); [by right|]. left; right; lia.
Qed.

Lemma place_all_ok cnts cumsums s0 : table cnts (fun t e => K (B t) e) ->
  Z.of_nat (length s0) = max_num_tokens_padded BLOCK_M E numel ->
  (forall e, 0 <= e <= E -> rd cumsums e = Some (start e)) -> exists cnts' s',
  int_parallel_for T numel 0 (place_chunk E topk_ids cumsums) (cnts, s0) = Some (cnts', s') /\
  table cnts' (fun t e => if decide (t < T) then K (B (t + 1)) e else K (B t) e) /\ placed s0 (fun _ => True) s'.
Proof.
  intros T0 Hs0 Hc. pose proof numel_int. rewrite int_parallel_eq by lia.
  destruct (at_parallel_done (fun d st => (forall t, t ∈ d -> 0 <= t < T) /\
      table st.1 (fun t e => K (B (if decide (t ∈ d) then t + 1 else t)) e) /\ placed s0 (in_chunks d) st.2)
    numel 0 (place_chunk E topk_ids cumsums) (cnts, s0)) as ([c' s'] & d & Ep & Hd & Hd' & Tc & Pl).
  - lia.
  - cbn [fst snd]. split_and!.
    + intros t Ht. by apply not_elem_of_nil in Ht.
    + eapply table_ext; [|exact T0]. intros t e _ _. cbn beta. by rewrite decide_False by apply not_elem_of_nil.
    + constructor; [done| |done]. intros i _ (t & Ht & _). by apply not_elem_of_nil in Ht.
  - intros d t [c s] Ht Hd (Hd' & Tc & Pl) Hle. cbn [fst snd] in *. unfold place_chunk. rewrite chunk_loop by done.
    pose proof (chunk_range numel 0 (t + 1) ltac:(lia) ltac:(lia)).
    destruct (for_range_inv (fun i st =>
        table st.1 (fun t' e => if decide (t' = t) then K i e else K (B (if decide (t' ∈ d) then t' + 1 else t')) e) /\
        placed s0 (fun k => in_chunks d k \/ B t <= k < i) st.2) (B t) (B (t + 1))
      (fun i st => let '(cnts, sorted_ids) := st in expert_id ← rd topk_ids i; b_offset ← rd cumsums expert_id;
        t_offset ← rd cnts (T_INDEX E t expert_id); sorted_ids ← wr sorted_ids (i32 (b_offset + t_offset)) i;
        cnts ← wr cnts (T_INDEX E t expert_id) (i32 (t_offset + 1)); Some (cnts, sorted_ids)) (c, s)) as ([c1 s1] & E1 & T1 & P1).
    + done.
    + cbn [fst snd]. split.
      * eapply table_ext; [|exact Tc]. intros t' e _ _. cbn beta. destruct (decide (t' = t)) as [->|]; [|done]. by rewrite decide_False.
      * eapply placed_ext; [|exact Pl]. intros k _. split; [by left|]. intros [?|?]; [done|lia].
    + intros i [c1 s1] Hi [T1 P1]. cbn [fst snd] in *.
      destruct (place_slot cumsums s0 d t i c1 s1) as (c2 & s2 & E2 & T2 & P2); try done.
      1: lia.
      exists (c2, s2). by split.
    + exists (c1, s1). split; [exact E1|]. cbn [fst snd] in *. split_and!.
      * intros t' [->|?]%elem_of_cons; [done|by apply Hd'].
      * eapply table_ext; [|exact T1]. intros t' e _ _. cbn beta. destruct (decide (t' = t)) as [->|Hne].
        -- by rewrite decide_True by constructor.
        -- f_equal. f_equal. apply decide_ext. rewrite elem_of_cons. tauto.
      * eapply placed_ext; [|exact P1]. intros k _. cbn beta. split.
        -- intros [(t' & Hin & Hr & Hk)|Hk]; [exists t'|exists t]; split_and!; try done || lia; by constructor.
        -- intros (t' & [->|Hin]%elem_of_cons & Hr & Hk); [by right|left]. by exists t'.
  - cbn [fst snd] in *. exists c', s'. split; [done|]. split.
    + eapply table_ext; [|exact Tc]. intros t e Ht He. cbn beta. destruct (decide (t < T)) as [Hlt|Hge].
      * rewrite decide_True; [done|]. apply Hd. lia.
      * rewrite decide_False; [done|]. intros Hin%Hd'. lia.
    + eapply placed_ext; [|exact Pl]. intros i Hi. split; [done|]. intros _.
      destruct (chunk_cover numel 0 i Hi) as (t & Ht & Hin). exists t. split_and!; [by apply Hd|lia..].
Qed.

Lemma check_counts_ok cnts : table cnts (fun t e => if decide (t < T) then K (B (t + 1)) e else K (B t) e) ->
  check_counts E T cnts = Some true.
Proof.
  intros Tc. destruct (for_range_inv (fun _ ok => ok = true) 0 E
    (fun e ok => x ← rd cnts (T_INDEX E T e); y ← rd cnts (T_INDEX E (T - 1) e); Some (ok && (x =? y))) true) as (r & Er & ->).
  - done.
  - done.
  - intros e ? He ->. rewrite !(tb_cell _ _ Tc) by lia. cbn [mbind option_bind]. rewrite decide_False, decide_True by lia.
    replace (T - 1 + 1) with T by lia. rewrite Z.eqb_refl. by exists true.
  - exact Er.
Qed.

(** ** Loops that fill buffers in chunks *)

(** Chunks that give the cells they own a value that depends on the cell only. *)
Lemma chunks_write {A} n g (f : Z -> Z -> Z -> list A -> option (list A)) a0 (owner : Z -> Z) (w : Z -> A) : 0 <= n ->
  (forall t b e a, 0 <= b < e -> e <= n -> length a = length a0 -> exists a', f t b e a = Some a' /\ length a' = length a /\
     (forall p, 0 <= p < Z.of_nat (length a0) -> b <= owner p < e -> rd a' p = Some (w p)) /\
     (forall p, ~ (b <= owner p < e) -> rd a' p = rd a p)) ->
  exists a', at_parallel_for T n g f a0 = Some a' /\ length a' = length a0 /\
    (forall p, 0 <= p < Z.of_nat (length a0) -> 0 <= owner p < n -> rd a' p = Some (w p)) /\
    (forall p, ~ (0 <= owner p < n) -> rd a' p = rd a0 p).
Proof.
  intros Hn Hf.
  destruct (at_parallel_done (fun d a => length a = length a0 /\
      (forall p t, t ∈ d -> 0 <= p < Z.of_nat (length a0) -> chunk_bound n g t <= owner p < chunk_bound n g (t + 1) -> rd a p = Some (w p)) /\
      (forall p, ~ (0 <= owner p < n) -> rd a p = rd a0 p)) n g f a0) as (a' & d & -> & Hd & L & V & U).
  - done.
  - split_and!; [done| |done]. by intros p t ?%not_elem_of_nil.
  - intros d t a Ht Hnd (L & V & U) Hle. destruct (Z.ltb_spec (chunk_bound n g t) (chunk_bound n g (t + 1))).
    + pose proof (chunk_range n g t Hn ltac:(lia)). pose proof (chunk_range n g (t + 1) Hn ltac:(lia)).
      destruct (Hf t (chunk_bound n g t) (chunk_bound n g (t + 1)) a) as (a' & -> & L' & V' & U'); [lia|lia|done|].
      exists a'. split_and!; [done|congruence| |].
      * intros p t' Hin Hp Hown. destruct (decide (chunk_bound n g t <= owner p < chunk_bound n g (t + 1))); [by apply V'|].
        rewrite U' by done. apply elem_of_cons in Hin as [->|Hin]; [done|]. by apply (V p t').
      * intros p Hp. rewrite U' by lia. by apply U.
    + exists a. split_and!; [done|done| |done]. intros p t' [->|Hin]%elem_of_cons Hp Hown; [lia|]. by apply (V p t').
  - exists a'. split_and!; [done|done| |done]. intros p Hp Hown. destruct (chunk_cover n g (owner p) Hown) as (t & Ht & Hin).
    apply (V p t); [by apply Hd|done|done].
Qed.

Lemma parallel_pair {S1 S2} n g (f : Z -> Z -> Z -> S1 -> option S1) (h : Z -> Z -> Z -> S2 -> option S2) x y :
  at_parallel_for T n g (fun t b e st => x ← f t b e st.1; y ← h t b e st.2; Some (x, y)) (x, y)
  = (x ← at_parallel_for T n g f x; y ← at_parallel_for T n g h y; Some (x, y)).
Proof.
  unfold at_parallel_for, parallel_for. rewrite <- for_each_pair.
  apply (for_each_ext _ _ _ (fun _ => True)); [done| |done]. intros t [x' y'] _ _.
  by destruct (_ <? _).
Qed.

(** ** Block sizes and offsets *)

(** The slots of an expert below a position, and all slots below it. *)
Definition fill_of (p e : Z) : Z := Z.max 0 (Z.min (K numel e) (p - start e)).
Definition below (p : Z) : Z := psum (fill_of p) E.

Lemma below_0 : below 0 = 0.
Proof.
  unfold below. rewrite (psum_ext _ (fun _ => 0)).
  - by apply psum_zero.
  - intros e He. unfold fill_of. pose proof (start_nonneg e). lia.
Qed.

Lemma below_int p : 0 <= below p <= numel.
Proof.
  unfold below. pose proof (K_total topk_ids E numel HE ltac:(lia) Hids) as Ht. split.
  - rewrite <- (psum_zero E HE). apply psum_le; [done|]. intros e He. unfold fill_of. lia.
  - apply Z.le_trans with (psum (K numel) E); [|lia]. apply psum_le; [done|]. intros e He. unfold fill_of. pose proof (K_nonneg topk_ids numel e). lia.
Qed.

Lemma below_end : below (start E) = numel.
Proof.
  rewrite <- (K_total topk_ids E numel) by (lia || done). apply psum_ext. intros e He. unfold fill_of.
  pose proof (start_le (e + 1) E ltac:(lia)). rewrite start_succ in * by lia.
  pose proof (padded_bounds (K numel e) (K_nonneg _ _ _)). pose proof (K_nonneg topk_ids numel e). lia.
Qed.

Lemma below_block e p q : 0 <= e < E -> start e <= p <= q -> q <= start (e + 1) ->
  below q = below p + (fill_of q e - fill_of p e).
Proof.
  intros He Hp Hq. unfold below. rewrite <- (psum_indicator e (fill_of q e - fill_of p e) E) by done.
  rewrite <- psum_plus by done. apply psum_ext. intros e' He'. destruct (decide (e = e')) as [->|Hne]; [lia|].
  unfold fill_of. pose proof (K_nonneg topk_ids numel e'). destruct (decide (e' < e)).
  - pose proof (start_le (e' + 1) e ltac:(lia)). rewrite (start_succ e') in * by lia.
    pose proof (padded_bounds (K numel e') (K_nonneg _ _ _)). lia.
  - pose proof (start_le (e + 1) e' ltac:(lia)). lia.
Qed.

(** Every position below the total lies in the region of an expert. *)
Lemma region_of p : 0 <= p < start E -> exists e, 0 <= e < E /\ start e <= p < start (e + 1).
Proof. by apply region_find. Qed.

(** A sorted buffer: the slots in place, padding everywhere else. *)
Definition sorted (s : list Z) : Prop :=
  Z.of_nat (length s) = max_num_tokens_padded BLOCK_M E numel /\
  (forall i, 0 <= i < numel -> rd s (pos i) = Some i) /\
  (forall p, 0 <= p < Z.of_nat (length s) -> (forall i, 0 <= i < numel -> pos i <> p) -> rd s p = Some numel).

(** Whether a cell of an expert's region is padding. *)
Lemma sorted_cell s e p : sorted s -> 0 <= e < E -> start e <= p < start (e + 1) ->
  exists v, rd s p = Some v /\ (v =? numel) = bool_decide (K numel e <= p - start e).
Proof.
  intros (L & V & U) He Hp. case_bool_decide as Hr.
  - exists numel. rewrite Z.eqb_refl. split; [|done]. apply U.
    + pose proof (start_nonneg e). pose proof (start_le (e + 1) E). pose proof start_total. lia.
    + intros i Hi <-. pose proof (pos_region i Hi) as [Hr1 Hr2]. pose proof (Hids i Hi).
      assert (at_ topk_ids i = e) as <- by (apply (region_unique _ _ (pos i)); lia). lia.
  - destruct (K_rank topk_ids numel e (p - start e)) as (i & Hi & Ee & Hk); [lia|lia|].
    exists i. split; [|apply Z.eqb_neq; lia]. rewrite <- (V i Hi). f_equal. unfold pos, cell. fold start. rewrite Ee. lia.
Qed.

Lemma size_ok s e off : sorted s -> 0 <= e < E -> start e <= off -> off + BLOCK_M <= start (e + 1) ->
  sorted_id_size BLOCK_M numel s off = Some (fill_of (off + BLOCK_M) e - fill_of off e).
Proof.
  intros Hs He Hlo Hhi. unfold sorted_id_size.
  set (body := fun d r : Z => id ← rd s (off + d); if id =? numel then Some (d, true) else Some (r, false)).
  assert (forall n d, 0 <= n -> 0 <= d -> d + n = BLOCK_M -> exists b, for_each_break (seqZ d n) body BLOCK_M =
    Some (Z.max d (Z.min BLOCK_M (K numel e - (off - start e))), b)) as G.
  { refine (fun n d Hn => natlike_ind (fun n => forall d, 0 <= d -> d + n = BLOCK_M -> _) _ _ n Hn d).
    - intros d' Hd' Hm. exists false. simpl. do 2 f_equal. lia.
    - intros m Hm IH d' Hd' Hdm. rewrite seqZ_cons by lia. rewrite Z.pred_succ. cbn [for_each_break]. unfold body at 2. cbn beta.
      destruct (sorted_cell s e (off + d') Hs He ltac:(lia)) as (v & -> & Ev). cbn [mbind option_bind]. rewrite Ev.
      case_bool_decide as Hr.
      + exists true. simpl. do 2 f_equal. lia.
      + destruct (IH (Z.succ d')) as (b & Eb); [lia|lia|]. exists b. cbn [mbind option_bind]. rewrite Eb. do 2 f_equal. lia. }
  destruct (G BLOCK_M 0) as (b & ->); [lia..|]. cbn [mbind option_bind]. f_equal. unfold fill_of. pose proof (K_nonneg topk_ids numel e). lia.
Qed.

(** The blocks of a layout, and the number of tokens in each. *)
Abbreviation blocks := (Z.quot (start E) BLOCK_M).

Lemma blocks_spec : blocks * BLOCK_M = start E /\ 0 <= blocks <= max_blocks.
Proof.
  destruct (start_divide E HE) as [k Hk]. pose proof (start_nonneg E HE). rewrite Hk, Z.quot_mul by lia.
  assert (0 <= k) by nia. split; [done|]. split; [done|]. destruct (decide (k = 0)) as [->|].
  - unfold max_num_blocks, div_up. assert (0 <= max_num_tokens_padded BLOCK_M E numel) by (unfold max_num_tokens_padded; nia).
    apply Z.quot_pos; lia.
  - pose proof (block_bound E (k - 1)). nia.
Qed.

Lemma block_size s mb : sorted s -> 0 <= mb < blocks ->
  sorted_id_size BLOCK_M numel s (mb * BLOCK_M) = Some (below ((mb + 1) * BLOCK_M) - below (mb * BLOCK_M)).
Proof.
  intros Hs Hmb. destruct blocks_spec as [Hb _]. destruct (region_of (mb * BLOCK_M)) as (e & He & Hr); [nia|].
  destruct (start_divide (e + 1) ltac:(lia)) as [k Hk]. assert (mb + 1 <= k) by nia.
  assert ((mb + 1) * BLOCK_M <= start (e + 1)) by nia.
  rewrite (below_block e (mb * BLOCK_M) ((mb + 1) * BLOCK_M)) by lia.
  rewrite (size_ok s e) by (done || lia). replace (mb * BLOCK_M + BLOCK_M) with ((mb + 1) * BLOCK_M) by lia. f_equal. lia.
Qed.

Lemma sizes_ok s offs g : sorted s -> Z.of_nat (length offs) = max_blocks + 1 -> rd offs 0 = Some 0 -> exists offs',
  int_parallel_for T blocks g (fun _ begin end_ => for_range begin end_ (fun mb offsets =>
      d ← sorted_id_size BLOCK_M numel s (i32 (mb * BLOCK_M)); wr offsets (mb + 1) d)) offs = Some offs' /\
  length offs' = length offs /\ rd offs' 0 = Some 0 /\
  (forall p, 1 <= p <= blocks -> rd offs' p = Some (below (p * BLOCK_M) - below ((p - 1) * BLOCK_M))).
Proof.
  intros Hs Lo H00. destruct blocks_spec as [Hbs Hb]. pose proof start_total. pose proof numel_int.
  rewrite int_parallel_eq by nia.
  destruct (chunks_write blocks g (fun _ begin end_ => for_range begin end_ (fun mb offsets =>
      d ← sorted_id_size BLOCK_M numel s (i32 (mb * BLOCK_M)); wr offsets (mb + 1) d)) offs (fun p => p - 1)
      (fun p => below (p * BLOCK_M) - below ((p - 1) * BLOCK_M))) as (o & -> & L & V & U).
  - lia.
  - intros _ b e a Hbe Hen La.
    destruct (for_range_inv (fun mb a' => length a' = length a /\
        (forall p, b <= p - 1 < mb -> rd a' p = Some (below (p * BLOCK_M) - below ((p - 1) * BLOCK_M))) /\
        (forall p, ~ (b <= p - 1 < mb) -> rd a' p = rd a p)) b e
      (fun mb offsets => d ← sorted_id_size BLOCK_M numel s (i32 (mb * BLOCK_M)); wr offsets (mb + 1) d) a) as (a' & -> & L' & V' & U').
    + lia.
    + split_and!; [done|lia|done].
    + intros mb a' Hmb (L' & V' & U'). rewrite i32_id by (unfold is_i32; nia). rewrite block_size by (done || lia). cbn [mbind option_bind].
      destruct (wr_ok a' (mb + 1) (below ((mb + 1) * BLOCK_M) - below (mb * BLOCK_M))) as (a2 & -> & L2 & V2 & U2); [lia|].
      exists a2. split_and!; [done|congruence| |].
      * intros p Hp. destruct (decide (p = mb + 1)) as [->|]; [rewrite V2; do 3 f_equal; lia|]. rewrite U2 by done. apply V'. lia.
      * intros p Hp. rewrite U2 by lia. apply U'. lia.
    + exists a'. split_and!; [done|done| |done]. intros p _ Hp. by apply V'.
  - exists o. split_and!; [done|done| |].
    + by rewrite U by lia.
    + intros p Hp. apply V; lia.
Qed.

Lemma offsets_ok offs : rd offs 0 = Some 0 ->  Z.of_nat (length offs) = max_blocks + 1 ->
  (forall p, 1 <= p <= blocks -> rd offs p = Some (below (p * BLOCK_M) - below ((p - 1) * BLOCK_M))) -> exists offs',
  for_range 0 blocks (fun mb offsets => x ← rd offsets (mb + 1); y ← rd offsets mb; wr offsets (mb + 1) (i32 (x + y))) offs = Some offs' /\
  length offs' = length offs /\ forall p, 0 <= p <= blocks -> rd offs' p = Some (below (p * BLOCK_M)).
Proof.
  intros H00 Lo Hd. destruct blocks_spec as [_ Hb].
  destruct (for_range_inv (fun mb o => length o = length offs /\
      (forall p, 0 <= p <= mb -> rd o p = Some (below (p * BLOCK_M))) /\
      (forall p, mb < p <= blocks -> rd o p = Some (below (p * BLOCK_M) - below ((p - 1) * BLOCK_M)))) 0 blocks
    (fun mb offsets => x ← rd offsets (mb + 1); y ← rd offsets mb; wr offsets (mb + 1) (i32 (x + y))) offs) as (o & -> & L & V & _).
  - lia.
  - split_and!; [done| |intros; apply Hd; lia]. intros p Hp. replace p with 0 by lia. by rewrite Z.mul_0_l, below_0.
  - intros mb o Hmb (L & V & W). rewrite (W (mb + 1)), (V mb) by lia. cbn [mbind option_bind]. replace (mb + 1 - 1) with mb by lia.
    rewrite i32_id by (pose proof (below_int ((mb + 1) * BLOCK_M)); pose proof numel_int; unfold is_i32; lia).
    destruct (wr_ok o (mb + 1) (below ((mb + 1) * BLOCK_M) - below (mb * BLOCK_M) + below (mb * BLOCK_M))) as (o' & -> & L' & V' & U'); [lia|].
    exists o'. split_and!; [done|congruence| |].
    + intros p Hp. destruct (decide (p = mb + 1)) as [->|]; [rewrite V'; f_equal; lia|]. rewrite U' by done. apply V. lia.
    + intros p Hp. rewrite U' by lia. apply W. lia.
  - exists o. by split.
Qed.

(** ** The layout is the reference *)

Abbreviation slots := (slots numel topk_ids).
Abbreviation padded_slots := (padded_slots BLOCK_M numel topk_ids).
Abbreviation reference := (reference_ids BLOCK_M E numel topk_ids).

Lemma length_padded_slots e : Z.of_nat (length (padded_slots e)) = padded (K numel e).
Proof.
  unfold MoeAlign.padded_slots. rewrite length_app, length_replicate.
  change (Z.of_nat (length (slots e))) with (K numel e). fold (padded (K numel e)).
  pose proof (padded_bounds (K numel e) (K_nonneg _ _ _)) as [Hp _].
  assert (K numel e = Z.of_nat (length (slots e))) as Hk by done.
  lia.
Qed.

Lemma reference_prefix e : 0 <= e -> Z.of_nat (length (seqZ 0 e ≫= padded_slots)) = start e.
Proof.
  revert e. apply natlike_ind; [done|]. intros e He IH. rewrite <- Z.add_1_r, start_succ, seqZ_last, bind_app, length_app by done.
  cbn [mbind list_bind]. rewrite app_nil_r. pose proof (length_padded_slots e). lia.
Qed.

Lemma reference_sorted s : sorted s -> take (Z.to_nat (start E)) s = reference.
Proof.
  intros Hs. pose proof Hs as (L & V & U). pose proof start_total. pose proof (start_nonneg E HE). apply bind_is; [done| |].
  { rewrite length_take. pose proof (reference_prefix E HE). lia. }
  intros e k He Hk. pose proof (reference_prefix e ltac:(lia)) as Hpre. pose proof (length_padded_slots e) as Hps.
  pose proof (start_succ e ltac:(lia)). pose proof (start_le (e + 1) E ltac:(lia)). pose proof (start_nonneg e ltac:(lia)).
  rewrite lookup_take_lt by lia. unfold MoeAlign.padded_slots at 2. destruct (decide (k < length (slots e))%nat) as [Hlt|Hge].
  - rewrite lookup_app_l by done. destruct (K_rank topk_ids numel e (Z.of_nat k)) as (i & Hi & Ee & Hr).
    { lia. } { change (K numel e) with (Z.of_nat (length (slots e))). lia. }
    pose proof (slots_rank numel topk_ids i Hi) as Hsl. rewrite Ee, Hr, Nat2Z.id in Hsl. rewrite Hsl, <- (V i Hi).
    unfold pos, cell. fold start. rewrite Ee, Hr, rd_lookup by lia. f_equal. lia.
  - rewrite lookup_app_r by lia. rewrite lookup_replicate_2.
    + destruct (sorted_cell s e (start e + Z.of_nat k) Hs He ltac:(lia)) as (v & Hv & Eb). rewrite bool_decide_true in Eb.
      * apply Z.eqb_eq in Eb as ->. rewrite rd_lookup in Hv by lia. rewrite <- Hv. f_equal. lia.
      * change (K numel e) with (Z.of_nat (length (slots e))). lia.
    + unfold MoeAlign.padded_slots in Hk. rewrite length_app, length_replicate in Hk. lia.
Qed.

Lemma reference_blocks (xs : list Z) : (blocks <= Z.of_nat (length xs)) ->
  (forall e j, 0 <= e < E -> start e <= j * BLOCK_M < start (e + 1) -> rd xs j = Some e) ->
  take (Z.to_nat blocks) xs = reference_experts BLOCK_M E numel topk_ids.
Proof.
  intros L V. destruct blocks_spec as [Hb _].
  set (f e := replicate (Z.to_nat (div_up (Z.of_nat (length (slots e))) BLOCK_M)) e).
  assert (forall e, 0 <= e -> Z.of_nat (length (f e)) * BLOCK_M = padded (K numel e)) as Hf.
  { intros e He. unfold f. rewrite length_replicate. change (Z.of_nat (length (slots e))) with (K numel e).
    pose proof (padded_bounds (K numel e) (K_nonneg _ _ _)). pose proof (K_nonneg topk_ids numel e). unfold padded in *. nia. }
  assert (forall e, 0 <= e -> Z.of_nat (length (seqZ 0 e ≫= f)) * BLOCK_M = start e) as Hpre.
  { apply natlike_ind; [done|]. intros e He IH. rewrite <- Z.add_1_r, start_succ, seqZ_last, bind_app, length_app by done.
    cbn [mbind list_bind]. rewrite app_nil_r. specialize (Hf e He). lia. }
  apply bind_is; [done| |].
  { rewrite length_take. fold f. specialize (Hpre E HE). nia. }
  intros e k He Hk. fold f. fold (f e) in Hk |- *. pose proof (Hf e ltac:(lia)). pose proof (Hpre e ltac:(lia)).
  pose proof (start_succ e ltac:(lia)). pose proof (start_le (e + 1) E ltac:(lia)).
  assert (start e <= (Z.of_nat (length (seqZ 0 e ≫= f)) + Z.of_nat k) * BLOCK_M < start (e + 1)) as Hr by nia.
  specialize (V e _ He Hr). rewrite lookup_take_lt by nia. rewrite rd_lookup in V by lia.
  replace (f e !! k) with (Some e); [rewrite <- V; f_equal; lia|]. symmetry. apply lookup_replicate_2.
  unfold f in Hk. by rewrite length_replicate in Hk.
Qed.

Lemma reference_below s p : sorted s -> 0 <= p -> p <= start E -> real_slots BLOCK_M E numel topk_ids p = below p.
Proof.
  intros Hs. revert p. refine (natlike_ind (fun p => _ -> _) _ _); [by rewrite below_0|]. intros p Hp IH Hle.
  rewrite <- Z.add_1_r. destruct (region_of p) as (e & He & Hr); [lia|].
  rewrite (below_block e p (p + 1)) by lia. rewrite <- IH by lia.
  destruct (sorted_cell s e p Hs He Hr) as (v & Hv & Eb). unfold real_slots. rewrite <- (reference_sorted s Hs).
  rewrite !take_take, !Nat.min_l by lia. replace (Z.to_nat (p + 1)) with (S (Z.to_nat p)) by lia.
  rewrite rd_lookup in Hv by lia. rewrite (take_S_r _ _ _ Hv), filter_app, length_app, filter_cons, filter_nil.
  unfold fill_of. destruct (Z.eqb_spec v numel) as [->|Hne].
  - symmetry in Eb. apply bool_decide_eq_true in Eb. rewrite decide_False by (intros Hx; by apply Hx). simpl. pose proof (K_nonneg topk_ids numel e). lia.
  - symmetry in Eb. apply bool_decide_eq_false in Eb. rewrite decide_True by done. simpl. lia.
Qed.

(** ** The whole computation *)

Lemma init_ok s0 x0 : Z.of_nat (length s0) = max_num_tokens_padded BLOCK_M E numel -> Z.of_nat (length x0) = max_blocks ->
  exists s x, at_parallel_for T max_blocks (Z.quot GRAIN_SIZE BLOCK_M) (fun _ => init_chunk BLOCK_M E numel) (s0, x0) = Some (s, x) /\
    length s = length s0 /\ length x = length x0 /\ forall p, 0 <= p < Z.of_nat (length s0) -> rd s p = Some numel.
Proof.
  intros Ls Lx. destruct blocks_spec as [_ Hb]. set (m := max_num_tokens_padded BLOCK_M E numel) in *.
  assert (forall p, 0 <= p < m -> 0 <= p / BLOCK_M < max_blocks) as Hblk.
  { intros p Hp. split; [apply Z.div_pos; lia|]. unfold max_num_blocks, div_up. fold m. rewrite Z.quot_div_nonneg by lia.
    apply Z.lt_le_trans with ((p + BLOCK_M) / BLOCK_M); [|apply Z.div_le_mono; lia].
    replace (p + BLOCK_M) with (p + 1 * BLOCK_M) by lia. rewrite Z.div_add by lia. lia. }
  assert ((max_blocks - 1) * BLOCK_M <= m) as Hmax.
  { unfold max_num_blocks, div_up. fold m. assert (0 <= m) by lia. rewrite Z.quot_div_nonneg by lia.
    pose proof (Z.mul_div_le (m + BLOCK_M - 1) BLOCK_M). nia. }
  unfold init_chunk. fold m. destruct narrow_sizes as [-> ->].
  rewrite (parallel_pair _ _ (fun _ b e s => fill s (b * BLOCK_M) (b * BLOCK_M + Z.min ((e - b) * BLOCK_M) (m - b * BLOCK_M)) numel)
    (fun _ b e x => fill x b e E)).
  destruct (chunks_write max_blocks (Z.quot GRAIN_SIZE BLOCK_M)
    (fun _ b e s => fill s (b * BLOCK_M) (b * BLOCK_M + Z.min ((e - b) * BLOCK_M) (m - b * BLOCK_M)) numel) s0
    (fun p => p / BLOCK_M) (fun _ => numel)) as (s & -> & L & V & _).
  - lia.
  - intros _ b e a Hbe He La.
    destruct (fill_ok a (b * BLOCK_M) (b * BLOCK_M + Z.min ((e - b) * BLOCK_M) (m - b * BLOCK_M)) numel) as (a' & -> & L' & V').
    + nia.
    + lia.
    + exists a'. split_and!; [done|done| |].
      * intros p Hp Ho. rewrite V', decide_True; [done|].
        pose proof (Z.mul_div_le p BLOCK_M). pose proof (Z.mul_succ_div_gt p BLOCK_M). nia.
      * intros p Ho. rewrite V', decide_False; [done|]. intros Hin. apply Ho.
        split; [apply Z.div_le_lower_bound; lia|apply Z.div_lt_upper_bound; lia].
  - cbn [mbind option_bind].
    destruct (chunks_write max_blocks (Z.quot GRAIN_SIZE BLOCK_M) (fun _ b e x => fill x b e E) x0 (fun p => p) (fun _ => E))
      as (x & -> & Lx' & _).
    + lia.
    + intros _ b e a Hbe He La. destruct (fill_ok a b e E) as (a' & -> & L' & V'); [lia|lia|]. exists a'. split_and!; [done|done| |].
      * intros p _ Hp. by rewrite V', decide_True.
      * intros p Hp. by rewrite V', decide_False.
    + cbn [mbind option_bind]. exists s, x. split_and!; [done|done|done|]. intros p Hp. apply V; [done|]. apply Hblk. lia.
Qed.

Lemma zero_ok n c0 : 0 <= n -> Z.of_nat (length c0) = n -> exists c,
  at_parallel_for T n GRAIN_SIZE (fun _ begin end_ l => fill l begin end_ 0) c0 = Some c /\
  length c = length c0 /\ forall p, 0 <= p < n -> rd c p = Some 0.
Proof.
  intros Hn L0. destruct (chunks_write n GRAIN_SIZE (fun _ begin end_ l => fill l begin end_ 0) c0 (fun p => p) (fun _ => 0))
    as (c & -> & L & V & _).
  - done.
  - intros _ b e a Hbe He La. destruct (fill_ok a b e 0) as (a' & -> & L' & V'); [lia|lia|]. exists a'. split_and!; [done|done| |].
    + intros p _ Hp. by rewrite V', decide_True.
    + intros p Hp. by rewrite V', decide_False.
  - exists c. split_and!; [done|done|]. intros p Hp. apply V; lia.
Qed.

Lemma align_ok s0 x0 c0 k0 o0 :
  Z.of_nat (length s0) = max_num_tokens_padded BLOCK_M E numel -> (forall p, 0 <= p < Z.of_nat (length s0) -> rd s0 p = Some numel) ->
  Z.of_nat (length x0) = max_blocks -> table c0 (fun _ _ => 0) -> Z.of_nat (length k0) = E + 1 ->
  Z.of_nat (length o0) = max_blocks + 1 -> exists a,
  moe_align_block_size BLOCK_M E numel T topk_ids s0 x0 c0 k0 o0 = Some (Ok a) /\
  num_tokens_post_pad a = start E /\ sorted (sorted_ids a) /\ length (expert_ids a) = length x0 /\
  (forall e j, 0 <= e < E -> start e <= j * BLOCK_M < start (e + 1) -> rd (expert_ids a) j = Some e) /\
  length (offsets a) = length o0 /\ (forall p, 0 <= p <= blocks -> rd (offsets a) p = Some (below (p * BLOCK_M))).
Proof.
  intros Ls Hs Lx Tc Lk Lo. unfold moe_align_block_size. destruct blocks_spec as [Hbs Hb].
  destruct (count_ok c0 Tc) as (c1 & -> & T1). cbn [mbind option_bind].
  destruct (accumulate_ok c1 T1) as (c2 & -> & T2). cbn [mbind option_bind].
  destruct (wr_ok k0 0 0) as (k1 & -> & Lk1 & Vk1 & _); [lia|]. cbn [mbind option_bind].
  destruct (lay_out_ok c2 k1 x0 T2) as (k2 & x1 & -> & Lx1 & Hk2 & Hx1); [by rewrite Lk1|done|done|]. cbn [mbind option_bind].
  rewrite Hk2 by lia. cbn [mbind option_bind].
  destruct (place_all_ok c2 k2 s0 T2 Ls Hk2) as (c3 & s1 & -> & T3 & [L1 V1 U1]). cbn [mbind option_bind].
  rewrite (check_counts_ok c3 T3). cbn [mbind option_bind negb].
  destruct (wr_ok o0 0 0) as (o1 & -> & Lo1 & Vo1 & _); [lia|]. cbn [mbind option_bind].
  assert (sorted s1) as Hs1.
  { split_and!; [by rewrite L1|by intros; apply V1|]. intros p Hp Hn. rewrite U1 by (intros; by apply Hn). apply Hs. lia. }
  destruct (sizes_ok s1 o1 (Z.quot GRAIN_SIZE BLOCK_M) Hs1) as (o2 & -> & Lo2 & Ho20 & Ho2); [lia|done|]. cbn [mbind option_bind].
  destruct (offsets_ok o2 Ho20) as (o3 & -> & Lo3 & Ho3); [lia|done|]. cbn [mbind option_bind].
  rewrite Ho3 by lia. cbn [mbind option_bind]. rewrite Hbs, below_end, Z.eqb_refl. cbn [negb].
  eexists. split; [done|]. cbn [sorted_ids expert_ids offsets num_tokens_post_pad]. split_and!; try done. congruence.
Qed.

End Correct.

(** [C10] For every number of threads, chunking and schedule of the threads, when the padded
    slots (and one block more) and the table of counters fit an [int], so that none of the
    32-bit counters, offsets and products wraps, the alignment of [fused_experts_cpu]
    raises nothing and yields the reference layout: the slots of each
    expert in their order, padded to whole blocks with [numel]; the expert of every block;
    and in [offsets] the number of slots before every block, which ends at [numel]. *)
Theorem align_experts_spec `{ScheduleOk} `{ChunksOk} (BLOCK_M num_experts numel : Z) (topk_ids s0 x0 c0 o0 : list Z) :
  1 <= BLOCK_M -> 0 <= num_experts -> 1 <= num_threads ->
  Z.of_nat (length topk_ids) = numel ->
  (forall i, 0 <= i < numel -> 0 <= at_ topk_ids i < num_experts) ->
  max_num_tokens_padded BLOCK_M num_experts numel + BLOCK_M < 2147483648 -> (num_threads + 1) * num_experts < 2147483648 ->
  Z.of_nat (length s0) = max_num_tokens_padded BLOCK_M num_experts numel ->
  Z.of_nat (length x0) = max_num_blocks BLOCK_M num_experts numel ->
  Z.of_nat (length c0) = (num_threads + 1) * num_experts + (num_experts + 1) ->
  Z.of_nat (length o0) = max_num_blocks BLOCK_M num_experts numel + 1 ->
  let ids := reference_ids BLOCK_M num_experts numel topk_ids in
  let n := Z.of_nat (length ids) in
  let blocks := Z.quot n BLOCK_M in
  exists a, align_experts BLOCK_M num_experts numel num_threads topk_ids s0 x0 c0 o0 = Some (Ok a) /\
    num_tokens_post_pad a = n /\
    take (Z.to_nat n) (sorted_ids a) = ids /\
    take (Z.to_nat blocks) (expert_ids a) = reference_experts BLOCK_M num_experts numel topk_ids /\
    take (Z.to_nat (blocks + 1)) (offsets a)
      = (fun mb => real_slots BLOCK_M num_experts numel topk_ids (mb * BLOCK_M)) <$> seqZ 0 (blocks + 1) /\
    real_slots BLOCK_M num_experts numel topk_ids n = numel.
Proof.
  intros HB HE HT Hlen Hids Hfit Htab Ls Lx Lc Lo ids n blocks.
  assert (n = start BLOCK_M numel topk_ids num_experts) as Hn by (by apply (reference_prefix BLOCK_M num_experts)). subst blocks. rewrite Hn.
  destruct (blocks_spec (num_threads := num_threads) BLOCK_M num_experts numel topk_ids) as [Hbs Hb]; try done.
  unfold align_experts.
  destruct (init_ok BLOCK_M num_experts numel topk_ids HB HE HT Hlen Hids Hfit Htab s0 x0 Ls Lx) as (s & x & -> & Ls' & Lx' & Hs). cbn [mbind option_bind].
  destruct (zero_ok (num_threads := num_threads) topk_ids HT ((num_threads + 1) * num_experts + (num_experts + 1)) c0) as (c & -> & Lc' & Hc); [nia|done|]. cbn [mbind option_bind].
  destruct (narrow_sizes BLOCK_M num_experts numel topk_ids HB HE HT Hlen Hfit Htab) as [-> ->].
  destruct (align_ok (num_threads := num_threads) BLOCK_M num_experts numel topk_ids HB HE HT Hlen Hids Hfit Htab s x
    (take (Z.to_nat ((num_threads + 1) * num_experts)) c) (drop (Z.to_nat ((num_threads + 1) * num_experts)) c) o0)
    as (a & -> & Hp & Hsort & Lxa & Hx & Loa & Ho).
  - by rewrite Ls'.
  - by rewrite Ls'.
  - by rewrite Lx'.
  - constructor; [rewrite length_take; nia|]. intros t e Ht He. assert (0 <= T_INDEX num_experts t e < (num_threads + 1) * num_experts) by (rewrite (T_INDEX_eq num_experts topk_ids HE HT Htab) by done; nia).
    rewrite rd_lookup, lookup_take_lt, <- rd_lookup by lia. apply Hc. lia.
  - rewrite length_drop. nia.
  - done.
  - exists a. split; [done|]. split; [done|]. split; [by apply (reference_sorted (num_threads := num_threads))|]. split; [apply (reference_blocks (num_threads := num_threads)); try done; lia|].
    assert (forall p, 0 <= p -> p <= start BLOCK_M numel topk_ids num_experts ->
      real_slots BLOCK_M num_experts numel topk_ids p = below BLOCK_M num_experts numel topk_ids p) as Hreal.
    { intros p Hp0 Hp1. by apply (reference_below (num_threads := num_threads) BLOCK_M num_experts numel topk_ids) with (s := sorted_ids a). }
    split; [|rewrite Hreal; [by apply below_end|nia|done]].
    apply take_table; [lia|]. intros p Hp'. rewrite Ho by lia. f_equal. symmetry. apply Hreal; nia.
Qed.

(** Three threads, each with the same number of items until they run out. *)
Definition even_chunks : Chunks := fun n _ t => Z.min (Z.max 0 n) (t * div_up n 3).

Lemma even_chunks_ok : @ChunksOk even_chunks 3.
Proof.
  assert (forall n, 0 <= n -> 0 <= div_up n 3 /\ n <= 3 * div_up n 3) as Hd.
  { intros n Hn. unfold div_up. rewrite Z.quot_div_nonneg by lia. pose proof (Z.mul_succ_div_gt (n + 3 - 1) 3).
    pose proof (Z.div_pos (n + 3 - 1) 3). lia. }
  constructor; unfold chunk_bound, even_chunks; intros n; [|intros g Hn|intros g t Hn Ht].
  - intros _. rewrite Z.mul_0_l. lia.
  - specialize (Hd n Hn). lia.
  - specialize (Hd n Hn). nia.
Qed.

(** Seven slots and four experts, the second of them unused, in blocks of two. *)
Definition routed : list Z := [2; 0; 2; 3; 2; 0; 0].

Lemma align_experts_spec_witness : exists a,
  @align_experts backwards even_chunks 2 4 7 3 routed (replicate 11 0) (replicate 6 0) (replicate 21 0) (replicate 7 0) = Some (Ok a) /\
  num_tokens_post_pad a = 10 /\ take 10 (sorted_ids a) = [1; 5; 6; 7; 0; 2; 4; 7; 3; 7] /\
  take 5 (expert_ids a) = [0; 0; 2; 2; 3] /\ take 6 (offsets a) = [0; 2; 3; 5; 6; 7].
Proof.
  destruct (@align_experts_spec backwards backwards_ok even_chunks 3 even_chunks_ok 2 4 7 routed
    (replicate 11 0) (replicate 6 0) (replicate 21 0) (replicate 7 0)) as (a & Ea & Hn & Hs & Hx & Ho & _);
    [lia|lia|lia|reflexivity| |reflexivity|reflexivity|reflexivity|reflexivity|reflexivity|reflexivity|].
  - intros i Hi. assert (i = 0 \/ i = 1 \/ i = 2 \/ i = 3 \/ i = 4 \/ i = 5 \/ i = 6) as Hc by lia.
    repeat destruct Hc as [->|Hc]; [..|subst i]; vm_compute; split; (discriminate || reflexivity).
  - exists a. split; [exact Ea|]. split; [exact Hn|]. split; [exact Hs|]. split; [exact Hx|exact Ho].
Defined.

End MoeAlign.
