(* ===== verification/Stores.v ===== *)
(** * What a piece of code stores

    The numeric kernels write rectangles of large buffers from nested loops.  [stores]
    describes such a piece of code by a family of cells and the value that each of them
    gets, and says that every other cell is left alone.  Pieces compose: one after the
    other, and as the iterations of a loop, when they store to different cells. *)

From S2P Require Import Prelude Arrays.

#[local] Open Scope Z_scope.

(** [a'] is [a] with [f x] in cell [addr x], for every [x] of [D]. *)
Record stores {A X} (a a' : list A) (D : X -> Prop) (addr : X -> Z) (f : X -> A) : Prop := {
  stores_length : length a' = length a;
  stores_in : forall x, D x -> rd a' (addr x) = Some (f x);
  stores_out : forall p, (forall x, D x -> addr x <> p) -> rd a' p = rd a p
}.

Section Stores.
Context {A : Type}.
Implicit Types (a : list A).

(** The same cells under other indices. *)
Lemma stores_reindex {X Y} a a' (D : X -> Prop) addr f (D' : Y -> Prop) addr' f' :
  (forall y, D' y -> exists x, D x /\ addr x = addr' y /\ f x = f' y) ->
  (forall x, D x -> exists y, D' y /\ addr' y = addr x) ->
  stores a a' D addr f -> stores a a' D' addr' f'.
Proof.
  intros H1 H2 [L V U]. constructor; [done| |].
  - intros y Hy. destruct (H1 y Hy) as (x & Hx & <- & <-). by apply V.
  - intros p Hp. apply U. intros x Hx. destruct (H2 x Hx) as (y & Hy & <-). by apply Hp.
Qed.

Lemma stores_none {X} a (addr : X -> Z) (f : X -> A) : stores a a (fun _ => False) addr f.
Proof. by constructor. Qed.

Lemma stores_app {X Y} a b c (D : X -> Prop) addr f (D' : Y -> Prop) addr' f' :
  (forall x y, D x -> D' y -> addr x <> addr' y) -> stores a b D addr f -> stores b c D' addr' f' ->
  stores a c (fun z : X + Y => match z with inl x => D x | inr y => D' y end)
    (fun z => match z with inl x => addr x | inr y => addr' y end)
    (fun z => match z with inl x => f x | inr y => f' y end).
Proof.
  intros Hd [L V U] [L' V' U']. constructor; [congruence| |].
  - intros [x|y] Hz; [|by apply V']. rewrite U'; [by apply V|]. intros y Hy Heq. by apply (Hd x y).
  - intros p Hp. rewrite U', U; [done|..].
    + intros x Hx. exact (Hp (inl x) Hx).
    + intros y Hy. exact (Hp (inr y) Hy).
Qed.

Lemma wr_stores a i v : 0 <= i < Z.of_nat (length a) ->
  exists a', wr a i v = Some a' /\ stores a a' (fun _ : unit => True) (fun _ => i) (fun _ => v).
Proof.
  intros Hi. destruct (wr_ok a i v Hi) as (a' & E & L & V & U). exists a'. split; [done|]. constructor; [done|done|].
  intros p Hp. apply U. intros ->. by apply (Hp tt).
Qed.

Lemma wr_range_stores a off n (f : Z -> A) : 0 <= n -> 0 <= off -> off + n <= Z.of_nat (length a) ->
  exists a', wr_range a off (f <$> seqZ 0 n) = Some a' /\ stores a a' (fun j => 0 <= j < n) (fun j => off + j) f.
Proof.
  intros Hn Ho Hl. assert (Z.of_nat (length (f <$> seqZ 0 n)) = n) as Hlen by (rewrite length_fmap, length_seqZ; lia).
  destruct (wr_range_ok a off (f <$> seqZ 0 n)) as (a' & E & L & V & U); [done|lia|]. rewrite Hlen in U.
  exists a'. split; [done|]. constructor; [done| |].
  - intros j Hj. specialize (V (Z.to_nat j) (f j)). replace (off + Z.of_nat (Z.to_nat j)) with (off + j) in V by lia. apply V.
    rewrite list_lookup_fmap, lookup_seqZ_lt by lia. simpl. do 2 f_equal. lia.
  - intros p Hp. apply U. intros Hin. apply (Hp (p - off)); lia.
Qed.

(** Reading consecutive cells with known contents. *)
Lemma rd_range_tab a off n (f : Z -> A) : 0 < n -> (forall j, 0 <= j < n -> rd a (off + j) = Some (f j)) ->
  rd_range a off n = Some (f <$> seqZ 0 n).
Proof.
  intros Hn Hv. pose proof (rd_Some _ _ _ (Hv 0 ltac:(lia))). pose proof (rd_Some _ _ _ (Hv (n - 1) ltac:(lia))).
  destruct (rd_range_ok a off n) as (vs & -> & Lv & Hvs); [lia..|]. f_equal.
  apply (list_eq_same_length _ _ (Z.to_nat n)); [by rewrite length_fmap, length_seqZ|lia|].
  intros k x y Hk Hx Hy. rewrite Hvs, Hv in Hx by lia. rewrite list_lookup_fmap, lookup_seqZ_lt in Hy by lia. simpl in Hy.
  simplify_eq. by rewrite Z.add_0_l.
Qed.

End Stores.

(** ** Loops *)

(** One iteration and then the others. *)
Lemma stores_cons {A X} t ix (a b c : list A) (D : Z -> X -> Prop) addr f :
  (forall t' x x', t' ∈ ix -> D t x -> D t' x' -> addr t x <> addr t' x') -> stores a b (D t) (addr t) (f t) ->
  stores b c (fun z => z.1 ∈ ix /\ D z.1 z.2) (fun z => addr z.1 z.2) (fun z => f z.1 z.2) ->
  stores a c (fun z => z.1 ∈ t :: ix /\ D z.1 z.2) (fun z => addr z.1 z.2) (fun z => f z.1 z.2).
Proof.
  intros Hd W1 W'. eapply stores_reindex; [| |eapply (stores_app _ _ _ (D t) (addr t) (f t)); [|exact W1|exact W']].
  - intros [t' x] [[->|Ht']%elem_of_cons Hx]; [by exists (inl x)|]. by exists (inr (t', x)).
  - intros [x|[t' x]]; [intros Hx|intros [Ht' Hx]]; [exists (t, x)|exists (t', x)]; (split; [split|]); try done; by constructor.
  - intros x [t' x'] Hx [Ht' Hx']. by apply Hd.
Qed.

(** Iterations that store to different cells of two buffers; [I] is what they keep of the
    state. *)
Lemma for_each_stores2 {A B S X Y} (get : S -> list A) (get' : S -> list B) (I : S -> Prop) ix (body : Z -> S -> option S)
    (D : Z -> X -> Prop) (addr : Z -> X -> Z) (f : Z -> X -> A) (D' : Z -> Y -> Prop) (addr' : Z -> Y -> Z) (f' : Z -> Y -> B) s0 :
  NoDup ix -> (forall t t' x x', t ∈ ix -> t' ∈ ix -> D t x -> D t' x' -> addr t x = addr t' x' -> t = t') ->
  (forall t t' y y', t ∈ ix -> t' ∈ ix -> D' t y -> D' t' y' -> addr' t y = addr' t' y' -> t = t') -> I s0 ->
  (forall t s, t ∈ ix -> I s -> length (get s) = length (get s0) -> length (get' s) = length (get' s0) ->
     (forall x, D t x -> rd (get s) (addr t x) = rd (get s0) (addr t x)) ->
     (forall y, D' t y -> rd (get' s) (addr' t y) = rd (get' s0) (addr' t y)) ->
     exists s', body t s = Some s' /\ I s' /\ stores (get s) (get s') (D t) (addr t) (f t) /\
       stores (get' s) (get' s') (D' t) (addr' t) (f' t)) ->
  exists s', for_each ix body s0 = Some s' /\ I s' /\
    stores (get s0) (get s') (fun z => z.1 ∈ ix /\ D z.1 z.2) (fun z => addr z.1 z.2) (fun z => f z.1 z.2) /\
    stores (get' s0) (get' s') (fun z => z.1 ∈ ix /\ D' z.1 z.2) (fun z => addr' z.1 z.2) (fun z => f' z.1 z.2).
Proof.
  revert s0. induction ix as [|t ix IH]; intros s0 Hnd Hd Hd' H0 Hb.
  { exists s0. split_and!; [done|done|..]; (constructor; [done| |done]); by intros [t x] [?%not_elem_of_nil _]. }
  apply NoDup_cons in Hnd as [Hni Hnd]. simpl. assert (t ∈ t :: ix) as Ht by constructor.
  assert (forall t', t' ∈ ix -> t' ∈ t :: ix) as Hc by (intros; by constructor).
  assert (forall t' x x', t' ∈ ix -> D t x -> D t' x' -> addr t x <> addr t' x') as Hs.
  { intros t' x x' Ht' Hx Hx' Heq. apply Hni. by rewrite (Hd t t' x x') by auto. }
  assert (forall t' x x', t' ∈ ix -> D' t x -> D' t' x' -> addr' t x <> addr' t' x') as Hs'.
  { intros t' x x' Ht' Hx Hx' Heq. apply Hni. by rewrite (Hd' t t' x x') by auto. }
  destruct (Hb t s0) as (s1 & -> & I1 & W1 & W1'); [done..|]. cbn [mbind option_bind].
  destruct (IH s1 Hnd) as (s' & -> & I' & W' & W''); [intros t1 t2 x1 x2 H1 H2; apply Hd; auto|intros t1 t2 x1 x2 H1 H2; apply Hd'; auto|done| |].
  - intros t' s Ht' Is Ls Ls' Ks Ks'. apply Hb; [auto|done|by rewrite Ls, (stores_length _ _ _ _ _ W1)|by rewrite Ls', (stores_length _ _ _ _ _ W1')|..].
    + intros x Hx. rewrite Ks by done. apply (stores_out _ _ _ _ _ W1). intros x' Hx'. by apply Hs.
    + intros x Hx. rewrite Ks' by done. apply (stores_out _ _ _ _ _ W1'). intros x' Hx'. by apply Hs'.
  - exists s'. split_and!; [done|done|by eapply stores_cons|by eapply stores_cons].
Qed.

(** The same with one buffer. *)
Lemma for_each_stores {A S X} (get : S -> list A) (I : S -> Prop) ix (body : Z -> S -> option S)
    (D : Z -> X -> Prop) (addr : Z -> X -> Z) (f : Z -> X -> A) s0 :
  NoDup ix -> (forall t t' x x', t ∈ ix -> t' ∈ ix -> D t x -> D t' x' -> addr t x = addr t' x' -> t = t') -> I s0 ->
  (forall t s, t ∈ ix -> I s -> length (get s) = length (get s0) ->
     (forall x, D t x -> rd (get s) (addr t x) = rd (get s0) (addr t x)) ->
     exists s', body t s = Some s' /\ I s' /\ stores (get s) (get s') (D t) (addr t) (f t)) ->
  exists s', for_each ix body s0 = Some s' /\ I s' /\
    stores (get s0) (get s') (fun z => z.1 ∈ ix /\ D z.1 z.2) (fun z => addr z.1 z.2) (fun z => f z.1 z.2).
Proof.
  intros Hnd Hd H0 Hb.
  destruct (for_each_stores2 get (fun _ => @nil A) I ix body D addr f (fun _ (_ : Empty_set) => False) (fun _ _ => 0)
    (fun _ y => match y with end) s0) as (s' & E & I' & W & _); [done|done|done|done| |by exists s'].
  intros t s Ht Is Ls _ Ks _. destruct (Hb t s Ht Is Ls Ks) as (s' & E & I' & W). exists s'. split_and!; [done|done|done|]. by constructor.
Qed.

Lemma for_range_stores2 {A B S X Y} (get : S -> list A) (get' : S -> list B) (I : S -> Prop) n (body : Z -> S -> option S)
    (D : Z -> X -> Prop) (addr : Z -> X -> Z) (f : Z -> X -> A) (D' : Z -> Y -> Prop) (addr' : Z -> Y -> Z) (f' : Z -> Y -> B) s0 :
  (forall t t' x x', 0 <= t < n -> 0 <= t' < n -> D t x -> D t' x' -> addr t x = addr t' x' -> t = t') ->
  (forall t t' y y', 0 <= t < n -> 0 <= t' < n -> D' t y -> D' t' y' -> addr' t y = addr' t' y' -> t = t') -> I s0 ->
  (forall t s, 0 <= t < n -> I s -> length (get s) = length (get s0) -> length (get' s) = length (get' s0) ->
     (forall x, D t x -> rd (get s) (addr t x) = rd (get s0) (addr t x)) ->
     (forall y, D' t y -> rd (get' s) (addr' t y) = rd (get' s0) (addr' t y)) ->
     exists s', body t s = Some s' /\ I s' /\ stores (get s) (get s') (D t) (addr t) (f t) /\
       stores (get' s) (get' s') (D' t) (addr' t) (f' t)) ->
  exists s', for_range 0 n body s0 = Some s' /\ I s' /\
    stores (get s0) (get s') (fun z => 0 <= z.1 < n /\ D z.1 z.2) (fun z => addr z.1 z.2) (fun z => f z.1 z.2) /\
    stores (get' s0) (get' s') (fun z => 0 <= z.1 < n /\ D' z.1 z.2) (fun z => addr' z.1 z.2) (fun z => f' z.1 z.2).
Proof.
  intros Hd Hd' H0 Hb. unfold for_range. rewrite Z.sub_0_r.
  assert (forall Z' (P : Z -> Z' -> Prop) (z : Z * Z'), z.1 ∈ seqZ 0 n /\ P z.1 z.2 <-> 0 <= z.1 < n /\ P z.1 z.2) as Hin.
  { intros Z' P z. rewrite elem_of_seqZ. split; (intros [? ?]; split; [lia|done]). }
  destruct (for_each_stores2 get get' I (seqZ 0 n) body D addr f D' addr' f' s0) as (s' & -> & I' & W & W').
  - apply NoDup_seqZ.
  - intros t t' x x' Ht%elem_of_seqZ Ht'%elem_of_seqZ. apply Hd; lia.
  - intros t t' x x' Ht%elem_of_seqZ Ht'%elem_of_seqZ. apply Hd'; lia.
  - done.
  - intros t s Ht%elem_of_seqZ. apply Hb. lia.
  - exists s'. split_and!; [done|done|..].
    + eapply stores_reindex; [| |exact W]; intros z Hz; exists z; (split; [by apply (Hin _ D)|done]).
    + eapply stores_reindex; [| |exact W']; intros z Hz; exists z; (split; [by apply (Hin _ D')|done]).
Qed.

(** The same with one buffer. *)
Lemma for_range_stores {A S X} (get : S -> list A) (I : S -> Prop) n (body : Z -> S -> option S)
    (D : Z -> X -> Prop) (addr : Z -> X -> Z) (f : Z -> X -> A) s0 :
  (forall t t' x x', 0 <= t < n -> 0 <= t' < n -> D t x -> D t' x' -> addr t x = addr t' x' -> t = t') -> I s0 ->
  (forall t s, 0 <= t < n -> I s -> length (get s) = length (get s0) ->
     (forall x, D t x -> rd (get s) (addr t x) = rd (get s0) (addr t x)) ->
     exists s', body t s = Some s' /\ I s' /\ stores (get s) (get s') (D t) (addr t) (f t)) ->
  exists s', for_range 0 n body s0 = Some s' /\ I s' /\
    stores (get s0) (get s') (fun z => 0 <= z.1 < n /\ D z.1 z.2) (fun z => addr z.1 z.2) (fun z => f z.1 z.2).
Proof.
  intros Hd H0 Hb.
  destruct (for_range_stores2 get (fun _ => @nil A) I n body D addr f (fun _ (_ : Empty_set) => False) (fun _ _ => 0)
    (fun _ y => match y with end) s0) as (s' & E & I' & W & _); [done|done|done| |by exists s'].
  intros t s Ht Is Ls _ Ks _. destruct (Hb t s Ht Is Ls Ks) as (s' & E & I' & W). exists s'. split_and!; [done|done|done|]. by constructor.
Qed.

(** A loop with a step is a loop over the number of its turns. *)
Lemma for_step_turns {S} n hi step (body : Z -> S -> option S) s : 1 <= step -> 0 <= n -> (n - 1) * step < hi -> hi <= n * step ->
  0 <= hi -> for_step 0 hi step body s = for_range 0 n (fun q => body (q * step)) s.
Proof.
  intros Hs Hn Hlast Hend Hhi. unfold for_step, for_range. rewrite !Z.sub_0_r.
  assert (forall m q fuel, 0 <= m -> q + m = n -> (Z.to_nat m <= fuel)%nat -> forall s,
    stepping fuel (q * step) hi step body s = for_each (seqZ q m) (fun q => body (q * step)) s) as G.
  { intros m q fuel Hm. revert q fuel. revert m Hm. refine (natlike_ind (fun m => forall q fuel, _ -> _ -> _) _ _).
    - intros q fuel Hq _ s1. assert (q = n) as -> by lia. destruct fuel; simpl; by rewrite (proj2 (Z.leb_le _ _)) by lia.
    - intros m Hm IH q fuel Hq Hf s1. rewrite seqZ_cons by lia. rewrite Z.pred_succ.
      destruct fuel as [|fuel]; [lia|]. cbn [stepping for_each]. rewrite (proj2 (Z.leb_gt _ _)) by nia.
      destruct (body (q * step) s1) as [s2|]; [|done]. cbn [mbind option_bind].
      replace (q * step + step) with (Z.succ q * step) by lia. apply IH; lia. }
  apply (G n 0); [lia|lia|nia].
Qed.

(** A loop over vectors of [w] cells stores all cells of a row. *)
Lemma vector_turns_ok {A} w (body : Z -> list A -> option (list A)) (a : list A) off n q (f : Z -> A) : 1 <= w -> n = q * w -> 0 <= q ->
  (forall g b, 0 <= g < q -> length b = length a -> (forall l, 0 <= l < w -> rd b (off + (g * w + l)) = rd a (off + (g * w + l))) ->
    exists b', body g b = Some b' /\ stores b b' (fun l => 0 <= l < w) (fun l => off + g * w + l) (fun l => f (g * w + l))) ->
  exists a', for_range 0 q body a = Some a' /\ stores a a' (fun o => 0 <= o < n) (fun o => off + o) f.
Proof.
  intros Hw -> Hq Hb.
  destruct (for_range_stores (fun c => c) (fun _ => True) q body (fun _ l => 0 <= l < w)
    (fun g l => off + (g * w + l)) (fun g l => f (g * w + l)) a) as (a' & Ef & _ & W).
  - intros g g' l l' Hg Hg' Hl Hl' Heq. nia.
  - done.
  - intros g b Hg _ Lb Hkeep. destruct (Hb g b Hg Lb Hkeep) as (b' & E1 & W1). exists b'. split; [done|]. split; [done|].
    eapply stores_reindex; [| |exact W1]; intros l Hl; cbn beta in *; exists l; split_and!; lia || done.
  - exists a'. split; [exact Ef|]. eapply stores_reindex; [| |exact W].
    + intros o Ho. cbn beta in *. exists (o / w, o mod w). cbn [fst snd]. pose proof (Z.div_mod o w ltac:(lia)).
      pose proof (Z.mod_pos_bound o w ltac:(lia)). replace (o / w * w + o mod w) with o by lia.
      split_and!; [apply Z.div_pos; lia|apply Z.div_lt_upper_bound; lia|lia|lia|done|done].
    + intros [g l] [Hg Hl]. cbn [fst snd] in *. exists (g * w + l). split_and!; nia || done.
Qed.

Lemma vectors_ok {A} w (body : Z -> list A -> option (list A)) (a : list A) off n q (f : Z -> A) : 1 <= w -> n = q * w -> 0 <= q ->
  (forall g b, 0 <= g < q -> length b = length a -> (forall l, 0 <= l < w -> rd b (off + (g * w + l)) = rd a (off + (g * w + l))) ->
    exists b', body (g * w) b = Some b' /\ stores b b' (fun l => 0 <= l < w) (fun l => off + g * w + l) (fun l => f (g * w + l))) ->
  exists a', for_step 0 n w body a = Some a' /\ stores a a' (fun o => 0 <= o < n) (fun o => off + o) f.
Proof.
  intros Hw Hn Hq Hb. rewrite (for_step_turns q) by nia. by apply (vector_turns_ok w (fun g => body (g * w)) a off n q f).
Qed.

(** A loop over the rows of a matrix. *)
Lemma matrix_ok {A} (body : Z -> list A -> option (list A)) (a : list A) off stride rows w (f : Z -> Z -> A) : w <= stride ->
  (forall i b, 0 <= i < rows -> length b = length a -> (forall j, 0 <= j < w -> rd b (off + i * stride + j) = rd a (off + i * stride + j)) ->
    exists b', body i b = Some b' /\ stores b b' (fun j => 0 <= j < w) (fun j => off + i * stride + j) (f i)) ->
  exists a', for_range 0 rows body a = Some a' /\
    stores a a' (fun z : Z * Z => 0 <= z.1 < rows /\ 0 <= z.2 < w) (fun z => off + z.1 * stride + z.2) (fun z => f z.1 z.2).
Proof.
  intros Hw Hb. destruct (for_range_stores (fun c => c) (fun _ => True) rows body (fun _ j => 0 <= j < w)
    (fun i j => off + i * stride + j) f a) as (a' & E & _ & W).
  - intros i i' j j' _ _ Hj Hj' Heq. clear -Hw Hj Hj' Heq. nia.
  - done.
  - intros i b Hi _ Lb Hk. destruct (Hb i b Hi Lb Hk) as (b' & Eb & Wb). by exists b'.
  - by exists a'.
Qed.

(** Nothing changes when a cell gets the value it has. *)
Lemma stores_same {A X} (a : list A) (D : X -> Prop) addr f : (forall x, D x -> rd a (addr x) = Some (f x)) -> stores a a D addr f.
Proof. intros Ha. by constructor. Qed.

(** One more row. *)
Lemma stores_snoc {A X} n (a b c : list A) (D : Z -> X -> Prop) addr f : 0 <= n ->
  (forall t x x', 0 <= t < n -> D t x -> D n x' -> addr t x <> addr n x') ->
  stores a b (fun z => 0 <= z.1 < n /\ D z.1 z.2) (fun z => addr z.1 z.2) (fun z => f z.1 z.2) -> stores b c (D n) (addr n) (f n) ->
  stores a c (fun z => 0 <= z.1 < n + 1 /\ D z.1 z.2) (fun z => addr z.1 z.2) (fun z => f z.1 z.2).
Proof.
  intros Hn Hd W W'. eapply stores_reindex; [| |eapply stores_app; [|exact W|exact W']].
  - intros [t x] [Ht Hx]. cbn [fst snd] in *. destruct (decide (t = n)) as [->|Hne]; [by exists (inr x)|].
    exists (inl (t, x)). cbn [fst snd]. split_and!; lia || done.
  - intros [[t x]|x]; cbn [fst snd]; [intros [Ht Hx]; exists (t, x)|intros Hx; exists (n, x)]; cbn [fst snd]; split_and!; lia || done.
  - intros [t x] x' [Ht Hx] Hx'. by apply Hd.
Qed.

(** A loop with a stride, whose turns take the next rows each. *)
Lemma for_step_stores {A S X} (get : S -> list A) (I : S -> Prop) n step (body : Z -> S -> option S)
    (D : Z -> X -> Prop) (addr : Z -> X -> Z) (f : Z -> X -> A) s0 : 1 <= step -> 0 <= n ->
  (forall t t' x x', 0 <= t < n -> 0 <= t' < n -> D t x -> D t' x' -> addr t x = addr t' x' -> t = t') -> I s0 ->
  (forall off s, 0 <= off < n -> I s -> length (get s) = length (get s0) ->
     exists s', body off s = Some s' /\ I s' /\
       stores (get s) (get s') (fun z => off <= z.1 < Z.min (off + step) n /\ D z.1 z.2) (fun z => addr z.1 z.2) (fun z => f z.1 z.2)) ->
  exists s', for_step 0 n step body s0 = Some s' /\ I s' /\
    stores (get s0) (get s') (fun z => 0 <= z.1 < n /\ D z.1 z.2) (fun z => addr z.1 z.2) (fun z => f z.1 z.2).
Proof.
  intros Hs Hn Hd H0 Hb.
  set (W := fun i s => stores (get s0) (get s) (fun z => 0 <= z.1 < Z.min i n /\ D z.1 z.2) (fun z => addr z.1 z.2) (fun z => f z.1 z.2)).
  destruct (for_step_inv (fun i s => I s /\ W i s) 0 n step body s0) as (s' & i & E & _ & Hi & _ & HI & HW); [done|split; [done|]| |].
  - constructor; [done| |done]. intros [t x] [Ht _]. cbn [fst] in Ht. lia.
  - intros off s Hoff [HI HW]. destruct (Hb off s Hoff HI (stores_length _ _ _ _ _ HW)) as (s1 & E1 & HI1 & W1). exists s1. split; [done|]. split; [done|].
    eapply stores_reindex; [| |eapply stores_app; [|exact HW|exact W1]].
    + intros [t x] [Ht Hx]. cbn [fst snd] in *. destruct (decide (t < off)); [exists (inl (t, x))|exists (inr (t, x))]; cbn [fst snd]; split_and!; lia || done.
    + intros [[t x]|[t x]] [Ht Hx]; cbn [fst snd] in *; exists (t, x); cbn [fst snd]; split_and!; lia || done.
    + intros [t x] [t' x'] [Ht Hx] [Ht' Hx'] Heq. cbn [fst snd] in *. apply Hd in Heq; lia || done.
  - exists s'. split; [done|]. split; [done|]. unfold W in HW. by rewrite Z.min_r in HW by lia.
Qed.

(** Rows of a matrix. *)
Lemma row_inj w r r' c c' : 0 <= c < w -> 0 <= c' < w -> r * w + c = r' * w + c' -> r = r'.
Proof. intros Hc Hc' Heq. nia. Qed.
Lemma row_bounds w r c R : 0 <= r < R -> 0 <= c < w -> 0 <= r * w + c < R * w.
Proof. intros Hr Hc. nia. Qed.

(** A list from the values of its cells. *)
Lemma list_tab {A} (l : list A) n f : Z.of_nat (length l) = n -> (forall p, 0 <= p < n -> rd l p = Some (f p)) -> l = f <$> seqZ 0 n.
Proof.
  intros Hl Hf. apply (list_eq_same_length _ _ (Z.to_nat n)); [by rewrite length_fmap, length_seqZ|lia|].
  intros k x y Hk Hx Hy. rewrite list_lookup_fmap, lookup_seqZ_lt in Hy by lia. simpl in Hy.
  specialize (Hf (Z.of_nat k) ltac:(lia)). rewrite rd_lookup, Nat2Z.id in Hf by lia. simplify_eq. by rewrite Z.add_0_l.
Qed.

Lemma tab_ext {A} (f g : Z -> A) n : (forall l, 0 <= l < n -> f l = g l) -> f <$> seqZ 0 n = g <$> seqZ 0 n.
Proof.
  intros Hfg. apply list_fmap_ext. intros i l Hl. apply Hfg. apply lookup_seqZ in Hl. lia.
Qed.

(** A matrix from the values of its rows. *)
Lemma flat_rows {A} rows w (out : list A) (f : Z -> Z -> A) : 0 <= rows -> Z.of_nat (length out) = rows * w ->
  (forall i j, 0 <= i < rows -> 0 <= j < w -> rd out (i * w + j) = Some (f i j)) ->
  out = (fun p => f (p / w) (p mod w)) <$> seqZ 0 (rows * w).
Proof.
  intros Hr Ho Hf. apply list_tab; [done|]. intros p Hp. assert (0 < w) as Hpos by (clear -Hr Hp; nia).
  rewrite (Z.div_mod p w) at 1 by lia. rewrite (Z.mul_comm w). apply Hf.
  - split; [apply Z.div_pos; lia|apply Z.div_lt_upper_bound; lia].
  - apply Z.mod_pos_bound. lia.
Qed.
