(* ===== verification/MicroGemm.v ===== *)
(** * Small matrix products ([csrc/cpu/micro_gemm], [csrc/cpu/cpu_fused_moe_activations.hpp])

    The building blocks of the fused mixture-of-experts layer on the portable vector
    type: packing of a weight matrix, the product of up to eight rows with thirty-two
    packed columns, the bias epilogue and the gated activations.  The code is generic in
    the element type [scalar_t]; so is the model, over the operations of [float] and the
    conversions of the element type.  The order of additions is that of the code. *)

From Stdlib Require Import SpecFloat.
From S2P Require Import Prelude Arrays Counting Stores.

#[local] Open Scope Z_scope.

(** ** Arithmetic *)

(** [float]; [lit n d] is the literal [n / d] of type [double], converted, and [litf n d] the
    literal of type [float]. *)
Class FloatOps (F : Type) := {
  add : F -> F -> F;
  sub : F -> F -> F;
  mul : F -> F -> F;
  div : F -> F -> F;
  opp : F -> F;
  ltb : F -> F -> bool;
  eqb : F -> F -> bool;
  neg_inf : F;
  lit : Z -> Z -> F;
  litf : Z -> Z -> F;
  sqrt : F -> F;
  exp : F -> F;
  erf : F -> F;
  tanh : F -> F
}.

(** The conversions between [scalar_t] and [float]. *)
Class ScalarOps (S F : Type) := {
  load : S -> F;
  store : F -> S
}.

(** IEEE single precision; the functions of the C++ library are parameters.  A literal is
    a double that is then narrowed. *)
Definition narrow (a : spec_float) : spec_float :=
  match a with
  | S754_finite s m e => binary_normalize 24 128 (if s then Zneg m else Zpos m) e s
  | _ => a
  end.

Definition ieee_float (exp erf tanh : spec_float -> spec_float) : FloatOps spec_float := {|
  add := SFadd 24 128;
  sub := SFsub 24 128;
  mul := SFmul 24 128;
  div := SFdiv 24 128;
  opp := SFopp;
  ltb := SFltb;
  eqb := SFeqb;
  neg_inf := S754_infinity true;
  lit n d := narrow (SFdiv 53 1024 (binary_normalize 53 1024 n 0 false) (binary_normalize 53 1024 d 0 false));
  litf n d := SFdiv 24 128 (binary_normalize 24 128 n 0 false) (binary_normalize 24 128 d 0 false);
  sqrt := SFsqrt 24 128;
  exp := exp;
  erf := erf;
  tanh := tanh
|}.

(** [scalar_t = float] *)
Definition same_scalar {F} : ScalarOps F F := {| load x := x; store x := x |}.
Definition float_scalar : ScalarOps spec_float spec_float := same_scalar.

Module MicroGemm.
Import Counting.

(** ** Vectors of sixteen lanes *)

Section Vectors.
Context {F : Type} `{FloatOps F}.

Definition VEC_ELEM_NUM : Z := 16.
Definition zero : F := lit 0 1.
Definition one : F := lit 1 1.

Definition splat (v : F) : list F := (fun _ => v) <$> seqZ 0 VEC_ELEM_NUM.
Definition vec_add : list F -> list F -> list F := zip_with add.
Definition vec_mul : list F -> list F -> list F := zip_with mul.
Definition vec_div : list F -> list F -> list F := zip_with div.
Definition vec_opp : list F -> list F := fmap opp.
(** [std::max(a, b)] and [std::min(a, b)] *)
Definition vec_max : list F -> list F -> list F := zip_with (fun a b => if ltb a b then b else a).
Definition vec_min : list F -> list F -> list F := zip_with (fun a b => if ltb b a then b else a).
Definition vec_clamp (v lo hi : list F) : list F := vec_min (vec_max v lo) hi.

End Vectors.

Section Kernels.
Context {S F : Type} `{FloatOps F} `{ScalarOps S F}.

(** A vector of elements, converted. *)
Definition load_vec (b : list S) (p : Z) : option (list F) :=
  v ← rd_range b p VEC_ELEM_NUM; Some (map load v).
Definition save_vec (d : list S) (p : Z) (v : list F) : option (list S) := wr_range d p (map store v).

(** ** [TileGemm82] *)

Definition MaxMSize : Z := 8.
Definition NSize : Z := 32.
Definition WeightOCGroupSize : Z := 16.

Definition load_c (c : list F) (c_ptr m ldc : Z) (c_regs : list (list F)) : option (list (list F)) :=
  for_range 0 m (fun i regs =>
    v0 ← rd_range c (c_ptr + i * ldc) 16;
    v1 ← rd_range c (c_ptr + 16 + i * ldc) 16;
    regs ← wr regs (i * 2) v0;
    wr regs (i * 2 + 1) v1) c_regs.

(** One turn of the loop over [k]: column [k_idx] of [a] times the row in two vectors. *)
Definition fma_rows (a : list S) (a_ptr m lda k_idx : Z) (b_0 b_1 : list F) (c_regs : list (list F)) : option (list (list F)) :=
  for_range 0 m (fun i regs =>
    v ← rd a (a_ptr + k_idx + i * lda);
    let a_reg := splat (load v) in
    r0 ← rd regs (i * 2);
    regs ← wr regs (i * 2) (vec_add r0 (vec_mul a_reg b_0));
    r1 ← rd regs (i * 2 + 1);
    wr regs (i * 2 + 1) (vec_add r1 (vec_mul a_reg b_1))) c_regs.

Definition gemm_turn (a b : list S) (a_ptr b_ptr m lda b_n_group_stride k_idx : Z) (c_regs : list (list F))
    : option (list (list F)) :=
  b_0 ← load_vec b (b_ptr + k_idx * 16);
  b_1 ← load_vec b (b_ptr + b_n_group_stride + k_idx * 16);
  fma_rows a a_ptr m lda k_idx b_0 b_1 c_regs.

Definition save_c (c_regs : list (list F)) (c_ptr m ldc : Z) (c : list F) : option (list F) :=
  for_range 0 m (fun i c =>
    r0 ← rd c_regs (i * 2);
    c ← wr_range c (c_ptr + i * ldc) r0;
    r1 ← rd c_regs (i * 2 + 1);
    wr_range c (c_ptr + 16 + i * ldc) r1) c.

Definition gemm_micro (a : list S) (a_ptr : Z) (b : list S) (b_ptr : Z) (c : list F) (c_ptr : Z)
    (m k lda b_n_group_stride ldc : Z) (accum_c : bool) : option (list F) :=
  let c_regs := replicate (Z.to_nat (m * 2)) (splat zero) in
  c_regs ← (if accum_c then load_c c c_ptr m ldc c_regs else Some c_regs);
  c_regs ← for_range 0 k (gemm_turn a b a_ptr b_ptr m lda b_n_group_stride) c_regs;
  save_c c_regs c_ptr m ldc c.

(** The [switch] over [m]: nothing happens outside 1 .. 8. *)
Definition gemm (a : list S) (a_ptr : Z) (b : list S) (b_ptr : Z) (c : list F) (c_ptr : Z)
    (m k lda b_n_group_stride ldc : Z) (accum_c : bool) : option (list F) :=
  if (1 <=? m) && (m <=? 8) then gemm_micro a a_ptr b b_ptr c c_ptr m k lda b_n_group_stride ldc accum_c
  else Some c.

(** ** [pack_weight] *)

Definition pack_weight (weight : list S) (w_ptr : Z) (packed_weight : list S) (p_ptr output_size input_size : Z)
    : option (outcome (list S)) :=
  if negb (Z.rem output_size 16 =? 0) then Some (Throw "output_size % 16") else
  packed ← for_range 0 output_size (fun o_idx packed =>
    let curr_weight := w_ptr + o_idx * input_size in
    let curr_packed_weight := p_ptr + Z.quot o_idx 16 * (16 * input_size) + Z.rem o_idx 16 in
    for_range 0 input_size (fun i_idx packed =>
      v ← rd weight (curr_weight + i_idx);
      wr packed (curr_packed_weight + i_idx * 16) v) packed) packed_weight;
  Some (Ok packed).

(** ** [add_bias_epilogue], with [c] and [d] in one buffer *)

Definition bias_vecs (bias : list S) (bias_ptr n_group_num : Z) : option (list (list F)) :=
  for_range 0 n_group_num (fun i vs => v ← load_vec bias (bias_ptr + i * 16); wr vs i v)
    (replicate (Z.to_nat n_group_num) (splat zero)).

Definition add_bias_epilogue (n_size : Z) (buf : list F) (c_ptr d_ptr : Z) (bias : list S)
    (bias_ptr m ldc ldd : Z) : option (list F) :=
  let n_group_num := Z.quot n_size 16 in
  vecs ← bias_vecs bias bias_ptr n_group_num;
  for_range 0 m (fun i buf =>
    for_range 0 n_group_num (fun n_g_idx buf =>
      c_vec ← rd_range buf (c_ptr + i * ldc + n_g_idx * 16) 16;
      b ← rd vecs n_g_idx;
      wr_range buf (d_ptr + i * ldd + n_g_idx * 16) (vec_add c_vec b)) buf) buf.

(** ** Gated activations *)

Inductive FusedMOEAct := SiluAndMul | SwigluOAIAndMul | GeluAndMul | GeluTanhAndMul.

Definition get_act_type (act : string) : outcome FusedMOEAct :=
  if String.eqb act "silu" then Ok SiluAndMul
  else if String.eqb act "swigluoai" then Ok SwigluOAIAndMul
  else if String.eqb act "gelu" then Ok GeluAndMul
  else if String.eqb act "gelu_tanh" then Ok GeluTanhAndMul
  else Throw ("Invalid act type: " ++ act).

Definition swigluoai_vec (gate_vec up_vec : list F) : list F :=
  let gate_vec := vec_min gate_vec (splat (lit 7 1)) in
  let up_vec := vec_clamp up_vec (splat (lit (-7) 1)) (splat (lit 7 1)) in
  let sigmoid_vec := vec_div (splat one)
    (vec_add (splat one) (exp <$> vec_mul (vec_opp gate_vec) (splat (lit 1702 1000)))) in
  let glu := vec_mul gate_vec sigmoid_vec in
  vec_mul (vec_add (splat one) up_vec) glu.

Definition silu_vec (gate_vec up_vec : list F) : list F :=
  let sigmoid_vec := vec_div (splat one) (vec_add (splat one) (exp <$> vec_opp gate_vec)) in
  let silu := vec_mul gate_vec sigmoid_vec in
  vec_mul up_vec silu.

(** [M_SQRT1_2], the double nearest to the root of one half. *)
Definition M_SQRT1_2 : F := lit 6369051672525773 (2 ^ 53).

Definition gelu_vec (gate_vec up_vec : list F) : list F :=
  let er_input_vec := vec_mul gate_vec (splat M_SQRT1_2) in
  let er_vec := erf <$> er_input_vec in
  let gelu := vec_mul (vec_mul gate_vec (splat (lit 5 10))) (vec_add (splat one) er_vec) in
  vec_mul up_vec gelu.

Definition gelu_tanh_vec (gate_vec up_vec : list F) : list F :=
  let gate_pow3_vec := vec_mul (vec_mul gate_vec gate_vec) gate_vec in
  let inner_vec := vec_mul (splat (lit 7978845608028654 (10 ^ 16)))
    (vec_add gate_vec (vec_mul (splat (lit 44715 1000000)) gate_pow3_vec)) in
  let tanh_vec := tanh <$> inner_vec in
  let gelu_tanh := vec_mul (vec_mul gate_vec (splat (lit 5 10))) (vec_add (splat one) tanh_vec) in
  vec_mul up_vec gelu_tanh.

(** [swigluoai_and_mul]: gate and up alternate in the input. *)
Definition swigluoai_and_mul (input : list F) (in_ptr : Z) (output : list S) (out_ptr m_size n_size input_stride output_stride : Z)
    : option (list S) :=
  for_range 0 m_size (fun m output =>
    for_step 0 n_size 32 (fun n output =>
      let interleaved := in_ptr + m * input_stride + n in
      gate_up ← for_range 0 16 (fun i st =>
        g ← rd input (interleaved + 2 * i); gs ← wr st.1 i g;
        u ← rd input (interleaved + 2 * i + 1); us ← wr st.2 i u;
        Some (gs, us)) (splat zero, splat zero);
      save_vec output (out_ptr + m * output_stride + Z.quot n 2) (swigluoai_vec gate_up.1 gate_up.2)) output) output.

(** [silu_and_mul], [gelu_and_mul] and [gelu_tanh_and_mul]: gates in the first half. *)
Definition act_and_mul (act : list F -> list F -> list F) (input : list F) (in_ptr : Z) (output : list S)
    (out_ptr m_size n_size input_stride output_stride : Z) : option (list S) :=
  let dim := Z.quot n_size 2 in
  for_range 0 m_size (fun m output =>
    for_step 0 dim 16 (fun n output =>
      gate_vec ← rd_range input (in_ptr + m * input_stride + n) 16;
      up_vec ← rd_range input (in_ptr + dim + m * input_stride + n) 16;
      save_vec output (out_ptr + m * output_stride + n) (act gate_vec up_vec)) output) output.

Definition apply_gated_act (act : FusedMOEAct) (input : list F) (in_ptr : Z) (output : list S)
    (out_ptr m n input_stride output_stride : Z) : option (list S) :=
  match act with
  | SwigluOAIAndMul => swigluoai_and_mul input in_ptr output out_ptr m n input_stride output_stride
  | SiluAndMul => act_and_mul silu_vec input in_ptr output out_ptr m n input_stride output_stride
  | GeluAndMul => act_and_mul gelu_vec input in_ptr output out_ptr m n input_stride output_stride
  | GeluTanhAndMul => act_and_mul gelu_tanh_vec input in_ptr output out_ptr m n input_stride output_stride
  end.

End Kernels.

(** ** Vectors as functions *)

Abbreviation tab f := (f <$> seqZ 0 16).

Lemma zip_with_tab {A B C D} (op : B -> C -> D) (f : A -> B) (g : A -> C) l :
  zip_with op (f <$> l) (g <$> l) = (fun j => op (f j) (g j)) <$> l.
Proof. induction l; simpl; [done|]. by f_equal. Qed.

Lemma fmap_tab {A B C} (op : B -> C) (f : A -> B) (l : list A) : op <$> (f <$> l) = (fun j => op (f j)) <$> l.
Proof. symmetry. exact (list_fmap_compose f op l). Qed.

Section Lanes.
Context {F : Type} `{FloatOps F}.

Definition fmin (a b : F) : F := if ltb b a then b else a.
Definition fmax (a b : F) : F := if ltb a b then b else a.

(** The activations of one lane. *)
Definition swigluoai (gate up : F) : F :=
  let gate := fmin gate (lit 7 1) in
  let up := fmin (fmax up (lit (-7) 1)) (lit 7 1) in
  mul (add one up) (mul gate (div one (add one (exp (mul (opp gate) (lit 1702 1000)))))).
Definition silu (gate up : F) : F := mul up (mul gate (div one (add one (exp (opp gate))))).
Definition gelu (gate up : F) : F := mul up (mul (mul gate (lit 5 10)) (add one (erf (mul gate M_SQRT1_2)))).
Definition gelu_tanh (gate up : F) : F :=
  mul up (mul (mul gate (lit 5 10)) (add one (tanh (mul (lit 7978845608028654 (10 ^ 16))
    (add gate (mul (lit 44715 1000000) (mul (mul gate gate) gate))))))).

Definition gated (act : FusedMOEAct) : F -> F -> F :=
  match act with
  | SwigluOAIAndMul => swigluoai | SiluAndMul => silu | GeluAndMul => gelu | GeluTanhAndMul => gelu_tanh
  end.

#[local] Ltac lanes := intros; unfold vec_add, vec_mul, vec_div, vec_opp, vec_clamp, vec_min, vec_max, splat, VEC_ELEM_NUM;
  rewrite ?fmap_tab, ?zip_with_tab, ?fmap_tab, ?zip_with_tab; reflexivity.

Lemma swigluoai_lanes (g u : Z -> F) : swigluoai_vec (tab g) (tab u) = tab (fun j => swigluoai (g j) (u j)).
Proof. unfold swigluoai_vec. lanes. Qed.
Lemma silu_lanes (g u : Z -> F) : silu_vec (tab g) (tab u) = tab (fun j => silu (g j) (u j)).
Proof. unfold silu_vec. lanes. Qed.
Lemma gelu_lanes (g u : Z -> F) : gelu_vec (tab g) (tab u) = tab (fun j => gelu (g j) (u j)).
Proof. unfold gelu_vec. lanes. Qed.
Lemma gelu_tanh_lanes (g u : Z -> F) : gelu_tanh_vec (tab g) (tab u) = tab (fun j => gelu_tanh (g j) (u j)).
Proof. unfold gelu_tanh_vec. lanes. Qed.

Lemma add_lanes (f g : Z -> F) : vec_add (tab f) (tab g) = tab (fun j => add (f j) (g j)).
Proof. lanes. Qed.
Lemma fma_lanes (f g : Z -> F) v : vec_add (tab f) (vec_mul (splat v) (tab g)) = tab (fun j => add (f j) (mul v (g j))).
Proof. lanes. Qed.

End Lanes.

Section Correct.
Context {S F : Type} `{FloatOps F} `{ScalarOps S F}.

Lemma load_vec_tab (b : list S) p f : (forall j, 0 <= j < 16 -> rd b (p + j) = Some (f j)) ->
  load_vec b p = Some (tab (fun j => load (f j))).
Proof.
  intros Hb. unfold load_vec, VEC_ELEM_NUM. rewrite (rd_range_tab b p 16 f) by (lia || done). cbn [mbind option_bind].
  done.
Qed.

Lemma save_vec_stores (d : list S) p (f : Z -> F) : 0 <= p -> p + 16 <= Z.of_nat (length d) ->
  exists d', save_vec d p (tab f) = Some d' /\ stores d d' (fun j => 0 <= j < 16) (fun j => p + j) (fun j => store (f j)).
Proof.
  intros Hp Hl. unfold save_vec. change (map store (tab f)) with (store <$> tab f). rewrite fmap_tab.
  by apply (wr_range_stores d p 16 (fun j => store (f j))).
Qed.

(** The element of a buffer. *)
Definition elem (a : list S) (p : Z) : S := default (store zero) (rd a p).

Lemma rd_elem a p : 0 <= p < Z.of_nat (length a) -> rd a p = Some (elem a p).
Proof. intros Hp. unfold elem. by destruct (rd_is_Some a p Hp) as [x ->]. Qed.

(** ** The product *)

(** The sum of products, in the order of the code, from an initial value. *)
Definition dot_from (c : F) (x w : Z -> S) (k : Z) : F :=
  foldl (fun c i => add c (mul (load (x i)) (load (w i)))) c (seqZ 0 k).
Definition dot : (Z -> S) -> (Z -> S) -> Z -> F := dot_from zero.

Lemma dot_succ c x w k : 0 <= k -> dot_from c x w (k + 1) = add (dot_from c x w k) (mul (load (x k)) (load (w k))).
Proof. intros Hk. unfold dot_from. by rewrite seqZ_last, foldl_app by done. Qed.

Lemma dot_ext c x w x' w' k : (forall i, 0 <= i < k -> x i = x' i /\ w i = w' i) -> dot_from c x w k = dot_from c x' w' k.
Proof.
  intros Hxw. unfold dot_from. assert (forall l c, (forall i, i ∈ l -> x i = x' i /\ w i = w' i) ->
    foldl (fun c i => add c (mul (load (x i)) (load (w i)))) c l = foldl (fun c i => add c (mul (load (x' i)) (load (w' i)))) c l) as G.
  { induction l as [|i l IH]; intros c0 Hl; simpl; [done|]. destruct (Hl i) as [-> ->]; [constructor|].
    apply IH. intros j Hj. apply Hl. by constructor. }
  apply G. intros i Hi%elem_of_seqZ. apply Hxw. lia.
Qed.

Section Gemm.
Context (a b : list S) (a_ptr b_ptr m k lda stride : Z) (x : Z -> Z -> S) (w : Z -> Z -> S).
Context (Hm : 0 <= m) (Hk : 0 <= k).
Context (Ha : forall i j, 0 <= i < m -> 0 <= j < k -> rd a (a_ptr + i * lda + j) = Some (x i j)).
Context (Hb : forall g n j, 0 <= g < 2 -> 0 <= n < 16 -> 0 <= j < k -> rd b (b_ptr + g * stride + j * 16 + n) = Some (w (g * 16 + n) j)).

(** Register [p] after [n] turns, from the initial values [c0]. *)
Definition reg (c0 : Z -> Z -> F) (n p : Z) : list F :=
  tab (fun j => dot_from (c0 (p / 2) (p mod 2 * 16 + j)) (x (p / 2)) (w (p mod 2 * 16 + j)) n).

Lemma half_even i : (i * 2) / 2 = i /\ (i * 2) mod 2 = 0 /\ (i * 2 + 1) / 2 = i /\ (i * 2 + 1) mod 2 = 1.
Proof.
  rewrite Z.div_mul, Z.mod_mul by lia. rewrite (Z.add_comm (i * 2)), Z.div_add, Z.mod_add by lia. done.
Qed.

Lemma reg_next_0 c0 n i : 0 <= n ->
  vec_add (reg c0 n (i * 2)) (vec_mul (splat (load (x i n))) (tab (fun j => load (w j n)))) = reg c0 (n + 1) (i * 2).
Proof.
  intros Hn. destruct (half_even i) as (E1 & E2 & _). unfold reg. rewrite E1, E2, fma_lanes. apply list_fmap_ext.
  intros _ j _. by rewrite dot_succ, Z.mul_0_l, Z.add_0_l.
Qed.

Lemma reg_next_1 c0 n i : 0 <= n ->
  vec_add (reg c0 n (i * 2 + 1)) (vec_mul (splat (load (x i n))) (tab (fun j => load (w (16 + j) n)))) = reg c0 (n + 1) (i * 2 + 1).
Proof.
  intros Hn. destruct (half_even i) as (_ & _ & E1 & E2). unfold reg. rewrite E1, E2, fma_lanes. apply list_fmap_ext.
  intros _ j _. by rewrite dot_succ, Z.mul_1_l.
Qed.

Lemma fma_rows_ok c0 n regs : 0 <= n < k -> Z.of_nat (length regs) = m * 2 ->
  (forall p, 0 <= p < m * 2 -> rd regs p = Some (reg c0 n p)) ->
  exists regs', fma_rows a a_ptr m lda n (tab (fun j => load (w j n))) (tab (fun j => load (w (16 + j) n))) regs = Some regs' /\ length regs' = length regs /\
    forall p, 0 <= p < m * 2 -> rd regs' p = Some (reg c0 (n + 1) p).
Proof.
  intros Hn Lr Hr. unfold fma_rows.
  set (body := fun (i : Z) (regs : list (list F)) => _).
  destruct (for_range_stores (fun r => r) (fun _ => True) m body (fun _ h => 0 <= h < 2) (fun i h => i * 2 + h)
    (fun i h => reg c0 (n + 1) (i * 2 + h)) regs) as (regs' & -> & _ & W).
  - lia.
  - done.
  - intros i r Hi _ Ls Hs. unfold body. replace (a_ptr + n + i * lda) with (a_ptr + i * lda + n) by lia.
    rewrite Ha by lia. cbn [mbind option_bind]. pose proof (Hs 0 ltac:(lia)) as Hs0. rewrite Z.add_0_r in Hs0. rewrite Hs0, Hr by lia.
    cbn [mbind option_bind]. rewrite reg_next_0 by lia.
    destruct (wr_stores r (i * 2) (reg c0 (n + 1) (i * 2))) as (r1 & -> & W1); [lia|].
    cbn [mbind option_bind]. rewrite (stores_out _ _ _ _ _ W1), Hs, Hr by lia. cbn [mbind option_bind].
    rewrite reg_next_1 by lia.
    destruct (wr_stores r1 (i * 2 + 1) (reg c0 (n + 1) (i * 2 + 1))) as (r2 & -> & W2); [rewrite (stores_length _ _ _ _ _ W1); lia|].
    exists r2. split_and!; [done|done|].
    eapply stores_reindex; [| |eapply stores_app; [|exact W1|exact W2]].
    + intros h Hh. assert (h = 0 \/ h = 1) as [-> | ->] by lia; [exists (inl tt)|exists (inr tt)]; by rewrite ?Z.add_0_r.
    + intros [[]|[]] _; [exists 0|exists 1]; lia.
    + intros ? ? _ _. cbn beta. lia.
  - exists regs'. split_and!; [done|exact (stores_length _ _ _ _ _ W)|]. intros p Hp.
    pose proof (Z.div_mod p 2 ltac:(lia)). pose proof (Z.mod_pos_bound p 2 ltac:(lia)).
    pose proof (stores_in _ _ _ _ _ W (p / 2, p mod 2)) as V. cbn [fst snd] in V.
    replace (p / 2 * 2 + p mod 2) with p in V by lia. apply V. lia.
Qed.

Lemma gemm_turn_ok c0 n regs : 0 <= n < k -> Z.of_nat (length regs) = m * 2 ->
  (forall p, 0 <= p < m * 2 -> rd regs p = Some (reg c0 n p)) ->
  exists regs', gemm_turn a b a_ptr b_ptr m lda stride n regs = Some regs' /\ length regs' = length regs /\
    forall p, 0 <= p < m * 2 -> rd regs' p = Some (reg c0 (n + 1) p).
Proof.
  intros Hn Lr Hr. unfold gemm_turn.
  rewrite (load_vec_tab b (b_ptr + n * 16) (fun j => w j n)) by
    (intros j Hj; specialize (Hb 0 j n ltac:(lia) Hj Hn); rewrite Z.mul_0_l, !Z.add_0_r, Z.add_0_l in Hb; exact Hb).
  cbn [mbind option_bind]. rewrite (load_vec_tab b (b_ptr + stride + n * 16) (fun j => w (16 + j) n)) by
    (intros j Hj; specialize (Hb 1 j n ltac:(lia) Hj Hn); rewrite !Z.mul_1_l in Hb; exact Hb).
  cbn [mbind option_bind]. by apply fma_rows_ok.
Qed.

Lemma load_c_ok (c : list F) c_ptr ldc c0 regs : Z.of_nat (length regs) = m * 2 ->
  (forall i j, 0 <= i < m -> 0 <= j < 32 -> rd c (c_ptr + i * ldc + j) = Some (c0 i j)) ->
  exists regs', load_c c c_ptr m ldc regs = Some regs' /\ length regs' = length regs /\
    forall p, 0 <= p < m * 2 -> rd regs' p = Some (reg c0 0 p).
Proof.
  intros Lr Hc. unfold load_c.
  set (body := fun (i : Z) (regs : list (list F)) => _).
  destruct (for_range_stores (fun r => r) (fun _ => True) m body (fun _ h => 0 <= h < 2) (fun i h => i * 2 + h)
    (fun i h => reg c0 0 (i * 2 + h)) regs) as (regs' & -> & _ & W).
  - lia.
  - done.
  - intros i r Hi _ Ls _. unfold body. destruct (half_even i) as (E1 & E2 & E3 & E4).
    rewrite (rd_range_tab c (c_ptr + i * ldc) 16 (c0 i)) by (lia || (intros; apply Hc; lia)).
    cbn [mbind option_bind]. rewrite (rd_range_tab c (c_ptr + 16 + i * ldc) 16 (fun j => c0 i (16 + j))).
    2: lia. 2: { intros j Hj. rewrite <- Hc by lia. f_equal. lia. }
    cbn [mbind option_bind].
    destruct (wr_stores r (i * 2) (tab (c0 i))) as (r1 & -> & W1); [lia|]. cbn [mbind option_bind].
    destruct (wr_stores r1 (i * 2 + 1) (tab (fun j => c0 i (16 + j)))) as (r2 & -> & W2); [rewrite (stores_length _ _ _ _ _ W1); lia|].
    exists r2. split_and!; [done|done|].
    eapply stores_reindex; [| |eapply stores_app; [|exact W1|exact W2]].
    + intros h Hh. assert (h = 0 \/ h = 1) as [-> | ->] by lia; [exists (inl tt)|exists (inr tt)];
        (split; [done|]; split; [by rewrite ?Z.add_0_r|]); unfold reg.
      * rewrite Z.add_0_r, E1, E2. done.
      * rewrite E3, E4. done.
    + intros [[]|[]] _; [exists 0|exists 1]; lia.
    + intros ? ? _ _. cbn beta. lia.
  - exists regs'. split_and!; [done|exact (stores_length _ _ _ _ _ W)|]. intros p Hp.
    pose proof (Z.div_mod p 2 ltac:(lia)). pose proof (Z.mod_pos_bound p 2 ltac:(lia)).
    pose proof (stores_in _ _ _ _ _ W (p / 2, p mod 2)) as V. cbn [fst snd] in V.
    replace (p / 2 * 2 + p mod 2) with p in V by lia. apply V. lia.
Qed.

Lemma save_c_ok (c : list F) c_ptr ldc c0 regs : 32 <= ldc -> 0 <= c_ptr ->
  (forall i, 0 <= i < m -> c_ptr + i * ldc + 32 <= Z.of_nat (length c)) ->
  (forall p, 0 <= p < m * 2 -> rd regs p = Some (reg c0 k p)) ->
  exists c', save_c regs c_ptr m ldc c = Some c' /\
    stores c c' (fun z : Z * Z => 0 <= z.1 < m /\ 0 <= z.2 < 32) (fun z => c_ptr + z.1 * ldc + z.2)
      (fun z => dot_from (c0 z.1 z.2) (x z.1) (w z.2) k).
Proof.
  intros Hldc Hcp Hc Hr. unfold save_c.
  set (body := fun (i : Z) (c : list F) => _).
  destruct (for_range_stores (fun c => c) (fun _ => True) m body (fun _ j => 0 <= j < 32) (fun i j => c_ptr + i * ldc + j)
    (fun i j => dot_from (c0 i j) (x i) (w j) k) c) as (c' & -> & _ & W).
  - intros t t' j j' Ht Ht' Hj Hj' Heq. nia.
  - done.
  - intros i c1 Hi _ Ls _. unfold body. destruct (half_even i) as (E1 & E2 & E3 & E4). specialize (Hc i Hi).
    rewrite (Hr (i * 2)) by lia. cbn [mbind option_bind]. unfold reg. rewrite E1, E2.
    destruct (wr_range_stores c1 (c_ptr + i * ldc) 16 (fun j => dot_from (c0 i (0 * 16 + j)) (x i) (w (0 * 16 + j)) k))
      as (c2 & -> & W2); [nia..|]. cbn [mbind option_bind].
    rewrite (Hr (i * 2 + 1)) by lia. cbn [mbind option_bind]. unfold reg. rewrite E3, E4.
    destruct (wr_range_stores c2 (c_ptr + 16 + i * ldc) 16 (fun j => dot_from (c0 i (1 * 16 + j)) (x i) (w (1 * 16 + j)) k))
      as (c3 & -> & W3); [nia|nia|rewrite (stores_length _ _ _ _ _ W2); lia|].
    exists c3. split_and!; [done|done|]. eapply stores_reindex; [| |eapply stores_app; [|exact W2|exact W3]].
    + intros j Hj. destruct (decide (j < 16)) as [Hlt|Hge].
      * exists (inl j). split_and!; [lia|lia|lia|]. by rewrite Z.mul_0_l, Z.add_0_l.
      * exists (inr (j - 16)). split_and!; [lia|lia|lia|]. by replace (1 * 16 + (j - 16)) with j by lia.
    + intros [j|j] Hj; [exists j|exists (16 + j)]; lia.
    + intros j j' Hj Hj'. cbn beta in *. lia.
  - exists c'. split; [done|exact W].
Qed.

Abbreviation r0 := (replicate (Z.to_nat (m * 2)) (splat zero)).

(** The registers before the first turn. *)
Lemma init_c_ok (c : list F) c_ptr ldc (accum_c : bool) (c0 : Z -> Z -> F) :
  (forall i j, 0 <= i < m -> 0 <= j < 32 -> if accum_c then rd c (c_ptr + i * ldc + j) = Some (c0 i j) else c0 i j = zero) ->
  exists regs, (if accum_c then load_c c c_ptr m ldc r0 else Some r0) = Some regs /\ Z.of_nat (length regs) = m * 2 /\
    forall p, 0 <= p < m * 2 -> rd regs p = Some (reg c0 0 p).
Proof.
  intros Hc0. assert (Z.of_nat (length r0) = m * 2) as L0 by (rewrite length_replicate; lia).
  destruct accum_c; [destruct (load_c_ok c c_ptr ldc c0 r0 L0 Hc0) as (regs & E & L & V); exists regs; split_and!; [done|lia|done]|].
  exists r0. split_and!; [done|done|]. intros p Hp.
  rewrite rd_lookup, lookup_replicate_2 by lia. f_equal. unfold reg, splat, VEC_ELEM_NUM. apply list_fmap_ext.
  intros q j Hj. apply list_elem_of_lookup_2, elem_of_seqZ in Hj. pose proof (Z.mod_pos_bound p 2 ltac:(lia)).
  unfold dot_from. change (seqZ 0 0) with (@nil Z). simpl. symmetry. apply Hc0; [|lia].
  split; [apply Z.div_pos; lia|apply Z.div_lt_upper_bound; lia].
Qed.

Lemma gemm_micro_ok (c : list F) c_ptr ldc (accum_c : bool) (c0 : Z -> Z -> F) : 32 <= ldc -> 0 <= c_ptr ->
  (forall i, 0 <= i < m -> c_ptr + i * ldc + 32 <= Z.of_nat (length c)) ->
  (forall i j, 0 <= i < m -> 0 <= j < 32 -> if accum_c then rd c (c_ptr + i * ldc + j) = Some (c0 i j) else c0 i j = zero) ->
  exists c', gemm_micro a a_ptr b b_ptr c c_ptr m k lda stride ldc accum_c = Some c' /\
    stores c c' (fun z : Z * Z => 0 <= z.1 < m /\ 0 <= z.2 < 32) (fun z => c_ptr + z.1 * ldc + z.2)
      (fun z => dot_from (c0 z.1 z.2) (x z.1) (w z.2) k).
Proof.
  intros Hldc Hcp Hc Hc0. unfold gemm_micro. destruct (init_c_ok c c_ptr ldc accum_c c0 Hc0) as (r1 & -> & L1 & H1).
  cbn [mbind option_bind].
  destruct (for_range_inv (fun n regs => Z.of_nat (length regs) = m * 2 /\ forall p, 0 <= p < m * 2 -> rd regs p = Some (reg c0 n p)) 0 k
    (gemm_turn a b a_ptr b_ptr m lda stride) r1) as (r2 & -> & L2 & H2); [done|done| |].
  - intros n r Hn [Lr Hr]. destruct (gemm_turn_ok c0 n r) as (r' & E & L' & H'); [done|done|done|].
    exists r'. split_and!; [done|lia|done].
  - cbn [mbind option_bind]. by apply save_c_ok.
Qed.

Lemma gemm_ok (c : list F) c_ptr ldc : 1 <= m <= 8 -> 32 <= ldc -> 0 <= c_ptr ->
  (forall i, 0 <= i < m -> c_ptr + i * ldc + 32 <= Z.of_nat (length c)) ->
  exists c', gemm a a_ptr b b_ptr c c_ptr m k lda stride ldc false = Some c' /\
    stores c c' (fun z : Z * Z => 0 <= z.1 < m /\ 0 <= z.2 < 32) (fun z => c_ptr + z.1 * ldc + z.2)
      (fun z => dot (x z.1) (w z.2) k).
Proof.
  intros Hm8 Hldc Hcp Hc. unfold gemm. rewrite (proj2 (Z.leb_le 1 m)), (proj2 (Z.leb_le m 8)) by lia. cbn [andb].
  by apply (gemm_micro_ok c c_ptr ldc false (fun _ _ => zero)).
Qed.

End Gemm.

(** ** Packing *)

(** Where row [o], column [i] of a weight goes. *)
Definition packed_at (input_size o i : Z) : Z := o / 16 * (16 * input_size) + o mod 16 + i * 16.

Lemma packed_at_inj I o i o' i' : 0 <= i < I -> 0 <= i' < I -> packed_at I o i = packed_at I o' i' -> o = o' /\ i = i'.
Proof.
  unfold packed_at. intros Hi Hi' Heq.
  assert (o / 16 * I + i = o' / 16 * I + i' /\ o mod 16 = o' mod 16) as [Hq Hr].
  { apply (Z.div_mod_unique 16); [left; apply Z.mod_pos_bound; lia..|]. lia. }
  assert (o / 16 = o' / 16 /\ i = i') as [Hq' Hi''].
  { apply (Z.div_mod_unique I); [left; lia..|]. lia. }
  split; [|done]. rewrite (Z.div_mod o 16), (Z.div_mod o' 16) by lia. congruence.
Qed.

Lemma packed_at_bound O I o i : (16 | O) -> 0 <= o < O -> 0 <= i < I -> 0 <= packed_at I o i < O * I.
Proof.
  intros [q ->] Ho Hi. unfold packed_at. pose proof (Z.div_mod o 16). pose proof (Z.mod_pos_bound o 16).
  assert (0 <= o / 16 < q) by (split; [apply Z.div_pos; lia|apply Z.div_lt_upper_bound; lia]). nia.
Qed.

Lemma pack_weight_ok (weight packed : list S) w_ptr p_ptr O I (w : Z -> Z -> S) : 0 <= O -> 0 <= I -> (16 | O) -> 0 <= p_ptr ->
  p_ptr + O * I <= Z.of_nat (length packed) ->
  (forall o i, 0 <= o < O -> 0 <= i < I -> rd weight (w_ptr + o * I + i) = Some (w o i)) ->
  exists packed', pack_weight weight w_ptr packed p_ptr O I = Some (Ok packed') /\
    stores packed packed' (fun z : Z * Z => 0 <= z.1 < O /\ 0 <= z.2 < I) (fun z => p_ptr + packed_at I z.1 z.2) (fun z => w z.1 z.2).
Proof.
  intros HO HI [q Hq] Hp Hl Hw. unfold pack_weight. rewrite Hq, Z.rem_mul by lia. rewrite <- Hq. cbn [negb Z.eqb].
  set (body := fun (o_idx : Z) (packed : list S) => _).
  destruct (for_range_stores (fun c => c) (fun _ => True) O body (fun _ i => 0 <= i < I) (fun o i => p_ptr + packed_at I o i)
    (fun o i => w o i) packed) as (c' & -> & _ & W).
  - intros o o' i i' Ho Ho' Hi Hi' Heq. apply (packed_at_inj I o i o' i'); [done|done|lia].
  - done.
  - intros o c1 Ho _ Ls _. unfold body. set (inner := fun (i_idx : Z) (packed : list S) => _).
    destruct (for_range_stores (fun c => c) (fun _ => True) I inner (fun _ (_ : unit) => True) (fun i _ => p_ptr + packed_at I o i)
      (fun i _ => w o i) c1) as (c2 & -> & _ & W2).
    + intros i i' [] [] Hi Hi' _ _ Heq. apply (packed_at_inj I o i o i'); [done|done|lia].
    + done.
    + intros i c2 Hi _ Ls2 _. unfold inner. rewrite Hw by done. cbn [mbind option_bind].
      pose proof (packed_at_bound O I o i ltac:(by exists q) Ho Hi).
      replace (p_ptr + Z.quot o 16 * (16 * I) + Z.rem o 16 + i * 16) with (p_ptr + packed_at I o i).
      2: { unfold packed_at. rewrite Z.quot_div_nonneg, Z.rem_mod_nonneg by lia. lia. }
      destruct (wr_stores c2 (p_ptr + packed_at I o i) (w o i)) as (c3 & -> & W3); [lia|]. exists c3. by split_and!.
    + exists c2. split_and!; [done|done|]. eapply stores_reindex; [| |exact W2].
      * intros i Hi. by exists (i, tt).
      * intros [i []] [Hi _]. by exists i.
  - cbn [mbind option_bind]. exists c'. by split.
Qed.

(** ** The bias *)

Lemma bias_vecs_ok (bias : list S) bias_ptr n (w : Z -> S) : 0 <= n ->
  (forall j, 0 <= j < n * 16 -> rd bias (bias_ptr + j) = Some (w j)) ->
  exists vs, bias_vecs bias bias_ptr n = Some vs /\
    forall g, 0 <= g < n -> rd vs g = Some (tab (fun j => load (w (g * 16 + j)))).
Proof.
  intros Hn Hw. unfold bias_vecs. set (body := fun (i : Z) (vs : list (list F)) => _).
  destruct (for_range_stores (fun c => c) (fun _ => True) n body (fun _ (_ : unit) => True) (fun i _ => i)
    (fun g _ => tab (fun j => load (w (g * 16 + j)))) (replicate (Z.to_nat n) (splat zero))) as (vs & -> & _ & W).
  - by intros i i' [] [] _ _ _ _ Heq.
  - done.
  - intros g vs Hg _ Ls _. unfold body. rewrite length_replicate in Ls.
    rewrite (load_vec_tab bias (bias_ptr + g * 16) (fun j => w (g * 16 + j))).
    2: { intros j Hj. rewrite <- Hw by lia. f_equal. lia. }
    cbn [mbind option_bind]. destruct (wr_stores vs g (tab (fun j => load (w (g * 16 + j))))) as (vs' & -> & W'); [lia|].
    exists vs'. by split_and!.
  - exists vs. split; [done|]. intros g Hg. exact (stores_in _ _ _ _ _ W (g, tt) (conj Hg I)).
Qed.

Lemma add_bias_ok n (buf : list F) ptr (bias : list S) bias_ptr m ld (w : Z -> S) (c : Z -> Z -> F) :
  0 <= n -> 0 <= m -> n * 16 <= ld -> 0 <= ptr ->
  (forall j, 0 <= j < n * 16 -> rd bias (bias_ptr + j) = Some (w j)) ->
  (forall i j, 0 <= i < m -> 0 <= j < n * 16 -> rd buf (ptr + i * ld + j) = Some (c i j)) ->
  exists buf', add_bias_epilogue (n * 16) buf ptr ptr bias bias_ptr m ld ld = Some buf' /\
    stores buf buf' (fun z : Z * Z => 0 <= z.1 < m /\ 0 <= z.2 < n * 16) (fun z => ptr + z.1 * ld + z.2)
      (fun z => add (c z.1 z.2) (load (w z.2))).
Proof.
  intros Hn Hm Hld Hp Hw Hc. unfold add_bias_epilogue. rewrite Z.quot_mul by lia.
  destruct (bias_vecs_ok bias bias_ptr n w Hn Hw) as (vs & -> & Hvs). cbn [mbind option_bind].
  set (body := fun (i : Z) (buf : list F) => _).
  destruct (for_range_stores (fun c => c) (fun _ => True) m body (fun _ j => 0 <= j < n * 16) (fun i j => ptr + i * ld + j)
    (fun i j => add (c i j) (load (w j))) buf) as (buf' & -> & _ & W).
  - intros t t' j j' Ht Ht' Hj Hj' Heq. nia.
  - done.
  - intros i b1 Hi _ L1 H1. unfold body. set (inner := fun (g : Z) (buf : list F) => _).
    destruct (for_range_stores (fun c => c) (fun _ => True) n inner (fun _ j => 0 <= j < 16) (fun g j => ptr + i * ld + (g * 16 + j))
      (fun g j => add (c i (g * 16 + j)) (load (w (g * 16 + j)))) b1) as (b2 & -> & _ & W2).
    + intros t t' j j' Ht Ht' Hj Hj' Heq. lia.
    + done.
    + intros g b2 Hg _ L2 H2. unfold inner.
      assert (forall j, 0 <= j < 16 -> rd b2 (ptr + i * ld + (g * 16 + j)) = Some (c i (g * 16 + j))) as Hcell.
      { intros j Hj. rewrite H2, H1, Hc by lia. done. }
      rewrite (rd_range_tab b2 (ptr + i * ld + g * 16) 16 (fun j => c i (g * 16 + j))) by
        (lia || (intros j Hj; rewrite <- Hcell by done; f_equal; lia)).
      cbn [mbind option_bind]. rewrite Hvs by done. cbn [mbind option_bind]. rewrite add_lanes.
      pose proof (rd_Some _ _ _ (Hcell 0 ltac:(lia))). pose proof (rd_Some _ _ _ (Hcell 15 ltac:(lia))).
      destruct (wr_range_stores b2 (ptr + i * ld + g * 16) 16 (fun j => add (c i (g * 16 + j)) (load (w (g * 16 + j))))) as (b3 & -> & W3);
        [lia..|]. exists b3. split_and!; [done|done|]. eapply stores_reindex; [| |exact W3].
      * intros j Hj. cbn beta in *. exists j. split_and!; [lia|lia|lia|done].
      * intros j Hj. cbn beta in *. exists j. split_and!; lia.
    + exists b2. split_and!; [done|done|]. eapply stores_reindex; [| |exact W2].
      * intros j Hj. exists (j / 16, j mod 16). cbn [fst snd]. pose proof (Z.div_mod j 16 ltac:(lia)) as Hdm.
        pose proof (Z.mod_pos_bound j 16 ltac:(lia)). replace (j / 16 * 16 + j mod 16) with j by lia.
        split_and!; [apply Z.div_pos; lia|apply Z.div_lt_upper_bound; lia|lia|lia|done|done].
      * intros [g j] [Hg Hj]. cbn [fst snd] in *. exists (g * 16 + j). split_and!; [lia|lia|done].
  - exists buf'. split; [done|exact W].
Qed.

(** ** The activations *)

(** The two arguments of an activation, for the output column [n] of [dim]. *)
Definition gate_at (act : FusedMOEAct) (n : Z) : Z := match act with SwigluOAIAndMul => 2 * n | _ => n end.
Definition up_at (act : FusedMOEAct) (dim n : Z) : Z := match act with SwigluOAIAndMul => 2 * n + 1 | _ => dim + n end.

Section Act.
Context (input : list F) (in_ptr m q in_stride out_ptr out_stride : Z) (v : Z -> Z -> F).
Context (Hm : 0 <= m) (Hq : 0 <= q) (Hout : q * 16 <= out_stride) (Hptr : 0 <= out_ptr).
Context (Hin : forall i j, 0 <= i < m -> 0 <= j < q * 32 -> rd input (in_ptr + i * in_stride + j) = Some (v i j)).

(** Rows of vectors: what both forms have in common. *)
Lemma act_rows (out : list S) (rows : Z -> list S -> option (list S)) (vecs : Z -> Z -> list S -> option (list S)) (f : Z -> Z -> F) :
  (forall i o, rows i o = for_range 0 q (vecs i) o) ->
  (forall i, 0 <= i < m -> out_ptr + i * out_stride + q * 16 <= Z.of_nat (length out)) ->
  (forall i g o, 0 <= i < m -> 0 <= g < q -> vecs i g o = save_vec o (out_ptr + i * out_stride + g * 16) (tab (fun j => f i (g * 16 + j)))) ->
  exists out', for_range 0 m rows out = Some out' /\
    stores out out' (fun z : Z * Z => 0 <= z.1 < m /\ 0 <= z.2 < q * 16) (fun z => out_ptr + z.1 * out_stride + z.2)
      (fun z => store (f z.1 z.2)).
Proof.
  intros Hrow Hl Hv.
  destruct (for_range_stores (fun c => c) (fun _ => True) m rows (fun _ j => 0 <= j < q * 16)
    (fun i j => out_ptr + i * out_stride + j) (fun i j => store (f i j)) out) as (out' & -> & _ & W).
  - intros t t' j j' Ht Ht' Hj Hj' Heq. nia.
  - done.
  - intros i o Hi _ Lo _. specialize (Hl i Hi). rewrite Hrow.
    destruct (for_range_stores (fun c => c) (fun _ => True) q (vecs i) (fun _ j => 0 <= j < 16)
      (fun g j => out_ptr + i * out_stride + (g * 16 + j)) (fun g j => store (f i (g * 16 + j))) o) as (o2 & -> & _ & W2).
    + intros t t' j j' Ht Ht' Hj Hj' Heq. lia.
    + done.
    + intros g o2 Hg _ Lo2 _. rewrite Hv by done.
      destruct (save_vec_stores o2 (out_ptr + i * out_stride + g * 16) (fun j => f i (g * 16 + j))) as (o3 & -> & W3); [nia|lia|].
      exists o3. split_and!; [done|done|]. eapply stores_reindex; [| |exact W3]; intros j Hj; cbn beta in *; exists j; split_and!; lia || done.
    + exists o2. split_and!; [done|done|]. eapply stores_reindex; [| |exact W2].
      * intros j Hj. exists (j / 16, j mod 16). cbn [fst snd]. pose proof (Z.div_mod j 16 ltac:(lia)) as Hdm.
        pose proof (Z.mod_pos_bound j 16 ltac:(lia)). replace (j / 16 * 16 + j mod 16) with j by lia.
        split_and!; [apply Z.div_pos; lia|apply Z.div_lt_upper_bound; lia|lia|lia|done|done].
      * intros [g j] [Hg Hj]. cbn [fst snd] in *. exists (g * 16 + j). split_and!; [lia|lia|done].
  - exists out'. split; [done|exact W].
Qed.

Lemma gate_up_ok interleaved (g u : Z -> F) :
  (forall i, 0 <= i < 16 -> rd input (interleaved + 2 * i) = Some (g i) /\ rd input (interleaved + 2 * i + 1) = Some (u i)) ->
  for_range 0 16 (fun i st => x ← rd input (interleaved + 2 * i); gs ← wr st.1 i x;
    y ← rd input (interleaved + 2 * i + 1); us ← wr st.2 i y; Some (gs, us)) (splat zero, splat zero) = Some (tab g, tab u).
Proof.
  intros Hi.
  destruct (for_range_inv (fun n st => length st.1 = 16%nat /\ length st.2 = 16%nat /\
      forall j, 0 <= j < n -> rd st.1 j = Some (g j) /\ rd st.2 j = Some (u j)) 0 16
    (fun i st => x ← rd input (interleaved + 2 * i); gs ← wr st.1 i x;
      y ← rd input (interleaved + 2 * i + 1); us ← wr st.2 i y; Some (gs, us)) (splat zero, splat zero)) as ([gs us] & -> & L1 & L2 & V).
  - lia.
  - split_and!; [done|done|lia].
  - intros i [gs us] Hi16 (L1 & L2 & V). cbn [fst snd] in *. destruct (Hi i Hi16) as [-> ->]. cbn [mbind option_bind].
    destruct (wr_ok gs i (g i)) as (gs' & -> & L1' & V1 & U1); [lia|]. cbn [mbind option_bind].
    destruct (wr_ok us i (u i)) as (us' & -> & L2' & V2 & U2); [lia|]. cbn [mbind option_bind].
    eexists. split; [done|]. cbn [fst snd]. split_and!; [congruence|congruence|]. intros j Hj.
    destruct (decide (j = i)) as [->|]; [done|]. rewrite U1, U2 by done. apply V. lia.
  - cbn [fst snd] in *. rewrite <- (take_table gs g 16), <- (take_table us u 16) by (lia || (intros; by apply V)).
    by rewrite !take_ge by lia.
Qed.

Lemma apply_gated_act_ok act (out : list S) :
  (forall i, 0 <= i < m -> out_ptr + i * out_stride + q * 16 <= Z.of_nat (length out)) ->
  exists out', apply_gated_act act input in_ptr out out_ptr m (q * 32) in_stride out_stride = Some out' /\
    stores out out' (fun z : Z * Z => 0 <= z.1 < m /\ 0 <= z.2 < q * 16) (fun z => out_ptr + z.1 * out_stride + z.2)
      (fun z => store (gated act (v z.1 (gate_at act z.2)) (v z.1 (up_at act (q * 16) z.2)))).
Proof.
  intros Hl. unfold apply_gated_act.
  assert (forall actv actf, (forall g u : Z -> F, actv (tab g) (tab u) = tab (fun j => actf (g j) (u j))) ->
    exists out', act_and_mul actv input in_ptr out out_ptr m (q * 32) in_stride out_stride = Some out' /\
      stores out out' (fun z : Z * Z => 0 <= z.1 < m /\ 0 <= z.2 < q * 16) (fun z => out_ptr + z.1 * out_stride + z.2)
        (fun z => store (actf (v z.1 z.2) (v z.1 (q * 16 + z.2))))) as Hhalf.
  { intros actv actf Hact. unfold act_and_mul. replace (Z.quot (q * 32) 2) with (q * 16)
      by (replace (q * 32) with (q * 16 * 2) by lia; by rewrite Z.quot_mul).
    set (turn := fun i n (output : list S) => gate_vec ← rd_range input (in_ptr + i * in_stride + n) 16;
      up_vec ← rd_range input (in_ptr + q * 16 + i * in_stride + n) 16;
      save_vec output (out_ptr + i * out_stride + n) (actv gate_vec up_vec)).
    apply (act_rows out _ (fun i g => turn i (g * 16)) (fun i j => actf (v i j) (v i (q * 16 + j)))); [|done|].
    - intros i o. apply for_step_turns; lia.
    - intros i g o Hi Hg. unfold turn.
      rewrite (rd_range_tab input (in_ptr + i * in_stride + g * 16) 16 (fun j => v i (g * 16 + j))).
      2: lia. 2: { intros j Hj. rewrite <- Hin by lia. f_equal. lia. }
      cbn [mbind option_bind].
      rewrite (rd_range_tab input (in_ptr + q * 16 + i * in_stride + g * 16) 16 (fun j => v i (q * 16 + (g * 16 + j)))).
      2: lia. 2: { intros j Hj. rewrite <- Hin by lia. f_equal. lia. }
      cbn [mbind option_bind]. by rewrite Hact. }
  destruct act; cbn [gated gate_at up_at].
  - apply Hhalf, silu_lanes.
  - unfold swigluoai_and_mul.
    set (turn := fun i n (output : list S) => gate_up ← for_range 0 16 (fun j st =>
        x ← rd input (in_ptr + i * in_stride + n + 2 * j); gs ← wr st.1 j x;
        y ← rd input (in_ptr + i * in_stride + n + 2 * j + 1); us ← wr st.2 j y; Some (gs, us)) (splat zero, splat zero);
      save_vec output (out_ptr + i * out_stride + Z.quot n 2) (swigluoai_vec gate_up.1 gate_up.2)).
    apply (act_rows out _ (fun i g => turn i (g * 32)) (fun i j => swigluoai (v i (2 * j)) (v i (2 * j + 1)))); [|done|].
    + intros i o. apply for_step_turns; lia.
    + intros i g o Hi Hg. unfold turn. rewrite (gate_up_ok (in_ptr + i * in_stride + g * 32) (fun j => v i (2 * (g * 16 + j))) (fun j => v i (2 * (g * 16 + j) + 1))).
      2: { intros j Hj. rewrite <- !Hin by lia. split; f_equal; lia. }
      cbn [mbind option_bind fst snd]. rewrite swigluoai_lanes. f_equal.
      replace (g * 32) with (g * 16 * 2) by lia. by rewrite Z.quot_mul by lia.
  - apply Hhalf, gelu_lanes.
  - apply Hhalf, gelu_tanh_lanes.
Qed.

End Act.

End Correct.

(** ** Numbers for the witnesses *)

(** The functions of the C++ library do not matter: the identity. *)
Definition sample_ops : FloatOps spec_float := ieee_float (fun x => x) (fun x => x) (fun x => x).
Definition sample_data (n : nat) : list spec_float := (fun i => binary_normalize 24 128 (Z.of_nat i mod 7 - 3) (-1) false) <$> seq 0 n.

End MicroGemm.
