(* ===== verification/FusedMoe.v ===== *)
(** * The fused mixture-of-experts layer ([csrc/cpu/cpu_fused_moe.cpp])

    [cpu_fused_moe]: the slots (token, choice) are grouped by expert, the tasks of the
    first product gather the rows of a group, multiply them with a tile of the expert's
    first matrix and apply the gated activation, the tasks of the second product multiply
    the result with a tile of the second matrix, and the last tasks sum the rows of each
    token with its weights.

    Tasks are handed out by a shared counter: they run in the order of a [Schedule], task
    [t] on thread [worker t] of its phase, and each thread has buffers of its own whose contents stay
    from task to task.  Offsets that the code computes in [int32_t] are wrapped ([i32]).
    The product of tiles is [MicroGemm]'s; the code on other instruction sets differs in
    that class only.  The element types of the tensors and the stride of the input, which
    [cpu_fused_moe] checks, are arguments next to the contents ([Layouts]); the checks of
    [prepack_moe_weight] on contiguity and element type, and a failing allocation of the
    scratch memory, are left out. *)

From Stdlib Require Import SpecFloat.
From S2P Require Import Prelude Arrays Counting Stores MicroGemm.

#[local] Open Scope Z_scope.

Module FusedMoe.
Import Counting MicroGemm.

(** ** Instruction sets ([csrc/cpu/utils.hpp]) *)

Inductive ISA := AMX | VEC | RVV | NEON | VSX.

Definition get_isa (isa : string) : outcome ISA :=
  if String.eqb isa "amx" then Ok AMX
  else if String.eqb isa "vec" then Ok VEC
  else if String.eqb isa "rvv" then Ok RVV
  else if String.eqb isa "neon" then Ok NEON
  else if String.eqb isa "vsx" then Ok VSX
  else Throw ("Invalid isa type: " ++ isa).

(** [CPU_ISA_DISPATCH_IMPL] of a portable build: the empty cases of AMX and VSX fall
    through to the vector implementation. *)
Definition isa_dispatch {A} (isa : ISA) (run : option (outcome A)) : option (outcome A) :=
  match isa with
  | AMX | VSX | VEC => run
  | NEON | RVV => Some (Throw "Invalid CPU ISA type.")
  end.

(** Element types, and the dispatch of [SONAR_DISPATCH_FLOATING_TYPES] over them. *)
Inductive ScalarType := Float | BFloat16 | Half | Int | OtherType.
#[export] Instance ScalarType_eq_dec : EqDecision ScalarType.
Proof. solve_decision. Defined.

Definition dispatch_floating_types {A} (ty : ScalarType) (run : option (outcome A)) : option (outcome A) :=
  match ty with
  | Float | BFloat16 | Half => run
  | Int | OtherType => Some (Throw "not implemented")
  end.

(** PyTorch's [data_ptr<T>()] on a tensor of element type [ty] throws if the types differ. *)
Definition data_ptr {A} (T ty : ScalarType) (run : option (outcome A)) : option (outcome A) :=
  if decide (ty = T) then run else Some (Throw "expected scalar type").

(** What a call says about its tensors next to their contents. *)
Record Layouts := {
  input_stride : Z;
  output_type : ScalarType; input_type : ScalarType; w13_type : ScalarType; w2_type : ScalarType;
  w13_bias_type : ScalarType; w2_bias_type : ScalarType; topk_weights_type : ScalarType; topk_id_type : ScalarType
}.

Definition round_up (alignment size : Z) : Z := Z.quot (size + alignment - 1) alignment * alignment.
Definition round_down (alignment size : Z) : Z := Z.quot size alignment * alignment.

(** ** Sizes *)

Record Sizes := {
  token_num : Z;
  expert_num : Z;
  topk_num : Z;
  input_size_13 : Z;
  output_size_13 : Z;
  input_size_2 : Z;
  output_size_2 : Z;
  thread_num : Z;
  (** [get_available_l2_size()] and [sizeof(scalar_t)] *)
  cache_size : Z;
  sizeof_scalar : Z
}.

Section Tiles.
Context (z : Sizes).

Definition min_w13_n_tile_size : Z := 2 * NSize.

Definition w13_input_buffer_size : Z := i32 (round_up 64 (u64 (i32 (MaxMSize * input_size_13 z) * sizeof_scalar z))).
Definition w2_input_tile_size : Z := i32 (round_up 64 (u64 (i32 (MaxMSize * input_size_2 z) * sizeof_scalar z))).

Definition n_size_thread_limit (output_size : Z) : Z :=
  Z.quot output_size (Z.max 1 (Z.quot (thread_num z) (topk_num z))).

Definition w13_n_tile_size : Z :=
  let n_size_cache_limit := i32 (Z.quot (u64 (cache_size z - w13_input_buffer_size))
    (u64 (MaxMSize * 4 + input_size_13 z * sizeof_scalar z))) in
  let n_size := round_down min_w13_n_tile_size (Z.min n_size_cache_limit (n_size_thread_limit (output_size_13 z))) in
  Z.max n_size min_w13_n_tile_size.

Definition w2_n_tile_size : Z :=
  let n_size_cache_limit := i32 (Z.quot (u64 (cache_size z - w2_input_tile_size))
    (u64 (input_size_2 z * sizeof_scalar z))) in
  let n_size := round_down NSize (Z.min n_size_cache_limit (n_size_thread_limit (output_size_2 z))) in
  Z.max n_size NSize.

End Tiles.

(** ** The token-expert mapping *)

Record Mapping := {
  token_num_per_group : list Z;
  cu_token_num_per_group : list Z;
  expand_token_id : list Z;
  expand_token_id_index : list Z
}.

Definition count_groups (topk_id : list Z) (n : Z) (group : list Z) : option (list Z) :=
  for_range 0 n (fun i group =>
    curr_expert_id ← rd topk_id i;
    c ← rd group curr_expert_id;
    wr group curr_expert_id (c + 1)) group.

(** [token_index_buffer] is [cu_token_num_per_group_buffer + 1]. *)
Definition start_groups (expert_num : Z) (group cu : list Z) : option (list Z * Z) :=
  for_range 0 expert_num (fun i st =>
    cu ← wr st.1 (1 + i) st.2;
    c ← rd group i;
    Some (cu, st.2 + c)) (cu, 0).

Definition expand_slot (topk_id : list Z) (topk_num i j : Z) (st : list Z * list Z * list Z)
    : option (list Z * list Z * list Z) :=
  let '(cu, ids, index) := st in
  curr_expert_id ← rd topk_id (i * topk_num + j);
  curr_index ← rd cu (1 + curr_expert_id);
  cu ← wr cu (1 + curr_expert_id) (curr_index + 1);
  ids ← wr ids curr_index i;
  index ← wr index (i * topk_num + j) curr_index;
  Some (cu, ids, index).

Definition prepare_mapping (z : Sizes) (topk_id : list Z) (m : Mapping) : option Mapping :=
  group ← fill (token_num_per_group m) 0 (expert_num z) 0;
  group ← count_groups topk_id (i32 (token_num z * topk_num z)) group;
  cu ← wr (cu_token_num_per_group m) 0 0;
  '(cu, _) ← start_groups (expert_num z) group cu;
  '(cu, ids, index) ← for_range 0 (token_num z) (fun i =>
    for_range 0 (topk_num z) (expand_slot topk_id (topk_num z) i)) (cu, expand_token_id m, expand_token_id_index m);
  Some {| token_num_per_group := group; cu_token_num_per_group := cu;
          expand_token_id := ids; expand_token_id_index := index |}.

Section Layer.
Context {S F : Type} `{FloatOps F} `{ScalarOps S F} `{Schedule}.
Context (z : Sizes) (act_type : FusedMOEAct) (skip_weighted : bool).
Context (input w13 w2 : list S) (w13_bias w2_bias : option (list S)).
Context (worker : Z -> Z) (mp : Mapping).

Abbreviation I13 := (input_size_13 z).
Abbreviation O13 := (output_size_13 z).
Abbreviation I2 := (input_size_2 z).
Abbreviation O2 := (output_size_2 z).

(** [add_bias_epilogue], when there is a bias. *)
Definition add_bias (bias : option (list S)) (buf : list F) (ptr bias_ptr m ld : Z) : option (list F) :=
  match bias with
  | Some b => add_bias_epilogue NSize buf ptr ptr b bias_ptr m ld ld
  | None => Some buf
  end.

(** ** The first product *)

(** One input row, in pieces of 64 bytes; the last piece is read in full and saved in part. *)
Definition copy_row (src dst : Z) (buf : list S) : option (list S) :=
  let piece := Z.quot 64 (sizeof_scalar z) in
  '(buf, j) ← for_step 0 (I13 - piece) piece (fun j st =>
    vec ← rd_range input (src + j) piece;
    buf ← wr_range st.1 (dst + j) vec;
    Some (buf, j + piece)) (buf, 0);
  vec ← rd_range input (src + j) piece;
  wr_range buf (dst + j) (take (Z.to_nat (I13 - j)) vec).

Definition gather_rows (ids_ptr m : Z) (buf : list S) : option (list S) :=
  for_range 0 m (fun i buf =>
    curr_token_id ← rd (expand_token_id mp) (ids_ptr + i);
    copy_row (i32 (curr_token_id * I13)) (i * I13) buf) buf.

(** The offsets of the two weight tiles and bias tiles of a task. *)
Definition w13_ptrs (e g actual : Z) : Z * Z :=
  let tile := w13_n_tile_size z in
  let weight := i32 (i32 (e * I13) * O13) in
  match act_type with
  | SwigluOAIAndMul =>
      let p := weight + i32 (i32 (g * tile) * I13) in (p, p + i32 (Z.quot actual 2 * I13))
  | _ =>
      let p := weight + i32 (i32 (g * Z.quot tile 2) * I13) in (p, p + i32 (Z.quot O13 2 * I13))
  end.

Definition w13_bias_ptrs (e g actual : Z) : Z * Z :=
  let tile := w13_n_tile_size z in
  match act_type with
  | SwigluOAIAndMul => let p := i32 (e * O13) + i32 (g * tile) in (p, p + Z.quot actual 2)
  | _ => let p := i32 (e * O13) + i32 (g * Z.quot tile 2) in (p, p + Z.quot O13 2)
  end.

(** The loop over the tile: both halves, thirty-two columns at a time. *)
Definition w13_gemm (e g actual m : Z) (in_buf : list S) (out_buf : list F) : option (list F) :=
  let '(w_0, w_1) := w13_ptrs e g actual in
  let '(b_0, b_1) := w13_bias_ptrs e g actual in
  let half := Z.quot actual 2 in
  for_step 0 actual min_w13_n_tile_size (fun i buf =>
    let turn := Z.quot i min_w13_n_tile_size in
    let w_step := turn * (NSize * I13) in
    let c := turn * NSize in
    buf ← gemm in_buf 0 w13 (w_0 + w_step) buf c m I13 I13 (WeightOCGroupSize * I13) actual false;
    buf ← add_bias w13_bias buf c (b_0 + c) m actual;
    buf ← gemm in_buf 0 w13 (w_1 + w_step) buf (half + c) m I13 I13 (WeightOCGroupSize * I13) actual false;
    add_bias w13_bias buf (half + c) (b_1 + c) m actual) out_buf.

(** The buffers of the threads and the shared result. *)
Definition W13State : Type := (list (list S) * list (list F)) * list S.

Definition w13_task (task_id : Z) (st : W13State) : option W13State :=
  let tile := w13_n_tile_size z in
  let task_num_per_expert := Z.quot (O13 + tile - 1) tile in
  let e := Z.quot task_id task_num_per_expert in
  let g := Z.rem task_id task_num_per_expert in
  curr_token_num ← rd (token_num_per_group mp) e;
  if curr_token_num =? 0 then Some st else
  let actual := Z.min tile (O13 - g * tile) in
  cu ← rd (cu_token_num_per_group mp) e;
  let out_ptr := i32 (cu * Z.quot O13 2) + Z.quot (i32 (g * tile)) 2 in
  for_step 0 curr_token_num MaxMSize (fun token_idx st =>
    let '((in_bufs, out_bufs), out) := st in
    let m := Z.min MaxMSize (curr_token_num - token_idx) in
    in_buf ← rd in_bufs (worker task_id);
    in_buf ← gather_rows (cu + token_idx) m in_buf;
    in_bufs ← wr in_bufs (worker task_id) in_buf;
    out_buf ← rd out_bufs (worker task_id);
    out_buf ← w13_gemm e g actual m in_buf out_buf;
    out_bufs ← wr out_bufs (worker task_id) out_buf;
    out ← apply_gated_act act_type out_buf 0 out
      (out_ptr + Z.quot token_idx MaxMSize * (MaxMSize * Z.quot O13 2)) m actual actual (Z.quot O13 2);
    Some ((in_bufs, out_bufs), out)) st.

Definition w13_phase (st : W13State) : option W13State :=
  let tile := w13_n_tile_size z in
  parallel_for (Z.quot (O13 + tile - 1) tile * expert_num z) w13_task st.

(** ** The second product *)

Definition w2_task (w13_gemm_output : list S) (task_id : Z) (out : list F) : option (list F) :=
  let tile := w2_n_tile_size z in
  let task_num_per_expert := Z.quot (O2 + tile - 1) tile in
  let e := Z.quot task_id task_num_per_expert in
  let g := Z.rem task_id task_num_per_expert in
  curr_token_num ← rd (token_num_per_group mp) e;
  if curr_token_num =? 0 then Some out else
  let actual := Z.min tile (O2 - g * tile) in
  cu ← rd (cu_token_num_per_group mp) e;
  let in_ptr := i32 (cu * I2) in
  let out_ptr := i32 (cu * O2) + i32 (g * tile) in
  let weight_ptr := i32 (i32 (e * O2) * I2) + i32 (i32 (g * tile) * I2) in
  let bias_ptr := i32 (e * O2) + i32 (g * tile) in
  for_step 0 curr_token_num MaxMSize (fun token_idx out =>
    let m := Z.min MaxMSize (curr_token_num - token_idx) in
    let turn := Z.quot token_idx MaxMSize in
    for_step 0 actual NSize (fun i out =>
      let col := Z.quot i NSize in
      let c := out_ptr + turn * (MaxMSize * O2) + col * NSize in
      out ← gemm w13_gemm_output (in_ptr + turn * (MaxMSize * I2)) w2 (weight_ptr + col * (NSize * I2)) out c
        m I2 I2 (WeightOCGroupSize * I2) O2 false;
      add_bias w2_bias out c (bias_ptr + col * NSize) m O2) out) out.

Definition w2_phase (w13_gemm_output : list S) (out : list F) : option (list F) :=
  let tile := w2_n_tile_size z in
  parallel_for (Z.quot (O2 + tile - 1) tile * expert_num z) (w2_task w13_gemm_output) out.

(** ** The weighted sum *)

(** Row of the second product, sixteen columns, times the weight of choice [idx]. *)
Definition weighted (w2_out : list F) (topk_weights : list F) (token_id idx i : Z) : option (list F) :=
  w2_output_idx ← rd (expand_token_id_index mp) (i32 (token_id * topk_num z) + idx);
  weight ← rd topk_weights (i32 (token_id * topk_num z) + idx);
  vec ← rd_range w2_out (i32 (w2_output_idx * O2) + i) 16;
  Some (vec_mul vec (splat weight)).

(** The buffers of the threads, the weights and the output. *)
Definition SumState : Type := (list (list F) * list F) * list S.

Definition sum_task (w2_out : list F) (token_id : Z) (st : SumState) : option SumState :=
  let '((ws_bufs, weights), output) := st in
  let out_ptr := i32 (token_id * O2) in
  weights ← (if skip_weighted then wr weights (i32 (token_id * topk_num z)) one else Some weights);
  if 1 <? topk_num z then
    ws ← rd ws_bufs (worker token_id);
    ws ← for_step 0 O2 16 (fun i ws => v ← weighted w2_out weights token_id 0 i; wr_range ws i v) ws;
    ws ← for_range 1 (topk_num z - 1) (fun idx =>
      for_step 0 O2 16 (fun i ws =>
        v ← weighted w2_out weights token_id idx i;
        sum ← rd_range ws i 16;
        wr_range ws i (vec_add sum v))) ws;
    output ← for_step 0 O2 16 (fun i output =>
      v ← weighted w2_out weights token_id (topk_num z - 1) i;
      sum ← rd_range ws i 16;
      save_vec output (out_ptr + i) (vec_add sum v)) output;
    ws_bufs ← wr ws_bufs (worker token_id) ws;
    Some ((ws_bufs, weights), output)
  else
    output ← for_step 0 O2 16 (fun i output =>
      v ← weighted w2_out weights token_id 0 i;
      save_vec output (out_ptr + i) v) output;
    Some ((ws_bufs, weights), output).

Definition sum_phase (w2_out : list F) (st : SumState) : option SumState :=
  parallel_for (token_num z) (sum_task w2_out) st.

End Layer.

(** ** The whole layer *)

(** The scratch memory, with whatever it holds. *)
Record Scratch (S F : Type) := {
  mapping : Mapping;
  w13_input_buffers : list (list S);
  w13_output_buffers : list (list F);
  w13_gemm_output : list S;
  w2_gemm_output : list F;
  ws_output_buffers : list (list F)
}.
Arguments mapping {S F} _.
Arguments w13_input_buffers {S F} _.
Arguments w13_output_buffers {S F} _.
Arguments w13_gemm_output {S F} _.
Arguments w2_gemm_output {S F} _.
Arguments ws_output_buffers {S F} _.

Section Entry.
Context {S F : Type} `{FloatOps F} `{ScalarOps S F} `{Schedule}.

Definition fused_moe_impl (z : Sizes) (act_type : FusedMOEAct) (skip_weighted : bool) (w13_worker ws_worker : Z -> Z)
    (input w13 w2 : list S) (w13_bias w2_bias : option (list S)) (topk_weights : list F) (topk_id : list Z)
    (scratch : Scratch S F) (output : list S) : option (outcome (list S * list F)) :=
  if negb (Z.rem (output_size_13 z) min_w13_n_tile_size =? 0) then Some (Throw "output_size_13 % min_w13_n_tile_size")
  else if negb (Z.rem (output_size_2 z) NSize =? 0) then Some (Throw "output_size_2 % gemm_n_tile_size")
  else if negb (Z.quot (output_size_13 z) 2 =? input_size_2 z) then Some (Throw "output_size_13 / 2")
  else
    mp ← prepare_mapping z topk_id (mapping scratch);
    '(_, w13_out) ← w13_phase z act_type input w13 w13_bias w13_worker mp
      ((w13_input_buffers scratch, w13_output_buffers scratch), w13_gemm_output scratch);
    w2_out ← w2_phase z w2 w2_bias mp w13_out (w2_gemm_output scratch);
    '((_, weights), output) ← sum_phase z skip_weighted ws_worker mp w2_out
      ((ws_output_buffers scratch, topk_weights), output);
    Some (Ok (output, weights)).

(** The pointers that are passed on, the type of the first weights being [scalar_t]. *)
Definition tensor_ptrs {A} (y : Layouts) (w13_bias w2_bias : option (list S)) (run : option (outcome A)) : option (outcome A) :=
  let scalar_t := w13_type y in
  data_ptr scalar_t (output_type y) (data_ptr scalar_t (input_type y) (data_ptr scalar_t (w13_type y) (data_ptr scalar_t (w2_type y) (
  match w13_bias with Some _ => data_ptr scalar_t (w13_bias_type y) | None => id end (
  match w2_bias with Some _ => data_ptr scalar_t (w2_bias_type y) | None => id end (
  data_ptr Float (topk_weights_type y) (data_ptr Int (topk_id_type y) run))))))).

Definition cpu_fused_moe (z : Sizes) (y : Layouts) (act isa : string) (skip_weighted : bool) (w13_worker ws_worker : Z -> Z)
    (input w13 w2 : list S) (w13_bias w2_bias : option (list S)) (topk_weights : list F) (topk_id : list Z)
    (scratch : Scratch S F) (output : list S) : option (outcome (list S * list F)) :=
  if negb (input_stride y =? input_size_13 z) then Some (Throw "input_stride") else
  match get_act_type act with
  | Throw msg => Some (Throw msg)
  | Ok act_type =>
      match get_isa isa with
      | Throw msg => Some (Throw msg)
      | Ok isa_type =>
          if skip_weighted && negb (topk_num z =? 1)
          then Some (Throw "skip_weighted is only supported for topk=1 on CPU")
          else dispatch_floating_types (w13_type y) (isa_dispatch isa_type (tensor_ptrs y w13_bias w2_bias
            (fused_moe_impl z act_type skip_weighted w13_worker ws_worker input w13 w2 w13_bias w2_bias topk_weights topk_id scratch output)))
      end
  end.

(** [prepack_moe_weight] *)
Definition prepack_moe_weight_impl (weight packed_weight : list S) (expert_num output_size input_size expert_stride : Z)
    : option (outcome (list S)) :=
  packed ← parallel_for expert_num (fun e_idx packed =>
    r ← pack_weight weight (expert_stride * e_idx) packed (expert_stride * e_idx) output_size input_size;
    match r with Ok packed => Some packed | Throw _ => None end) packed_weight;
  Some (Ok packed).

Definition prepack_moe_weight (weight packed_weight : list S) (expert_num output_size input_size : Z) (isa : string)
    : option (outcome (list S)) :=
  if negb (Z.rem output_size 32 =? 0) then Some (Throw "output_size % 32") else
  match get_isa isa with
  | Throw msg => Some (Throw msg)
  | Ok isa_type => isa_dispatch isa_type
      (prepack_moe_weight_impl weight packed_weight expert_num output_size input_size (output_size * input_size))
  end.

End Entry.

(** ** The mapping is a counting sort *)

Section MappingOk.
Context (z : Sizes) (topk_id : list Z).
Abbreviation T := (token_num z).
Abbreviation k := (topk_num z).
Abbreviation E := (expert_num z).
Abbreviation N := (T * k).
Abbreviation K := (K topk_id).
Context (HT : 0 <= T) (Hk : 1 <= k) (HE : 0 <= E) (HN : N < 2147483648).
Context (Hlen : Z.of_nat (length topk_id) = N).
Context (Hids : forall s, 0 <= s < N -> 0 <= at_ topk_id s < E).

(** The first row of an expert, and the row of a slot. *)
Definition base : Z -> Z := region (K N).
Definition dest : Z -> Z := cell topk_id (K N).

Lemma base_succ e : 0 <= e -> base (e + 1) = base e + K N e.
Proof. intros He. by apply (region_succ (K N)). Qed.
Lemma base_le e e' : 0 <= e <= e' -> base e <= base e'.
Proof. by apply (region_le topk_id N). Qed.
Lemma base_total : base E = N.
Proof. apply K_total; [done|lia|done]. Qed.
Lemma base_bounds e : 0 <= e <= E -> 0 <= base e <= N.
Proof. intros He. rewrite <- base_total. split; [apply (base_le 0 e); lia|apply base_le; lia]. Qed.

Lemma dest_region s : 0 <= s < N ->
  base (at_ topk_id s) <= dest s < base (at_ topk_id s + 1).
Proof. intros Hs. destruct (cell_region topk_id N (K N) ltac:(done) s Hs) as [? ?]; [apply Hids; lia|]. split; [tauto|done]. Qed.

Lemma dest_bounds s : 0 <= s < N -> 0 <= dest s < N.
Proof.
  intros Hs. pose proof (dest_region s Hs). pose proof (Hids s Hs). pose proof (base_bounds (at_ topk_id s)).
  pose proof (base_bounds (at_ topk_id s + 1)). lia.
Qed.

Lemma dest_inj s s' : 0 <= s < N -> 0 <= s' < N -> dest s = dest s' -> s = s'.
Proof. intros Hs Hs'. apply (cell_inj topk_id N); [done|done|done|apply Hids; lia..]. Qed.

(** Every row of an expert belongs to a slot. *)
Lemma row_slot e r : 0 <= e < E -> base e <= r < base (e + 1) -> exists s, 0 <= s < N /\ at_ topk_id s = e /\ dest s = r.
Proof.
  intros He Hr. rewrite base_succ in Hr by lia. destruct (K_rank topk_id N e (r - base e)) as (s & Hs & Ee & Hrank); [lia|lia|].
  exists s. split_and!; [lia|lia|done|]. unfold dest, cell. rewrite Ee, Hrank. fold base. lia.
Qed.

Lemma count_groups_ok group : Z.of_nat (length group) = E -> (forall e, 0 <= e < E -> rd group e = Some 0) ->
  exists group', count_groups topk_id N group = Some group' /\ forall e, 0 <= e < E -> rd group' e = Some (K N e).
Proof.
  intros Lg H0. unfold count_groups.
  destruct (for_range_inv (fun i g => length g = length group /\ forall e, 0 <= e < E -> rd g e = Some (K i e)) 0 N
    (fun i g => e ← rd topk_id i; c ← rd g e; wr g e (c + 1)) group) as (g & -> & _ & Hg).
  - nia.
  - done.
  - intros i g Hi [Lgi Hg]. rewrite (rd_at topk_id) by lia. cbn [mbind option_bind]. pose proof (Hids i Hi) as He.
    rewrite Hg by done. cbn [mbind option_bind].
    destruct (wr_ok g (at_ topk_id i) (K i (at_ topk_id i) + 1)) as (g' & -> & L' & V & U); [lia|].
    exists g'. split_and!; [done|congruence|]. intros e He'. rewrite K_succ by lia. destruct (decide (at_ topk_id i = e)) as [<-|Hne]; [done|].
    rewrite U, Z.add_0_r by done. by apply Hg.
  - by exists g.
Qed.

Lemma start_groups_ok group cu : (forall e, 0 <= e < E -> rd group e = Some (K N e)) ->
  Z.of_nat (length cu) = E + 1 -> rd cu 0 = Some 0 ->
  exists cu' n, start_groups E group cu = Some (cu', n) /\ length cu' = length cu /\ rd cu' 0 = Some 0 /\
    forall e, 0 <= e < E -> rd cu' (1 + e) = Some (base e).
Proof.
  intros Hg Lc H00. unfold start_groups.
  destruct (for_range_inv (fun i st => length st.1 = length cu /\ rd st.1 0 = Some 0 /\ st.2 = base i /\
      forall e, 0 <= e < i -> rd st.1 (1 + e) = Some (base e)) 0 E
    (fun i st => cu ← wr st.1 (1 + i) st.2; c ← rd group i; Some (cu, st.2 + c)) (cu, 0)) as ([c n] & -> & L & Hc0 & _ & Hc).
  - done.
  - split_and!; [done|done|done|lia].
  - intros i [c n] Hi (L & Hc0 & -> & Hc). cbn [fst snd] in *.
    destruct (wr_ok c (1 + i) (base i)) as (c' & -> & L' & V & U); [lia|]. cbn [mbind option_bind]. rewrite Hg by done.
    cbn [mbind option_bind]. eexists. split; [done|]. cbn [fst snd]. split_and!; [congruence|by rewrite U by lia|by rewrite base_succ by lia|].
    intros e He. destruct (decide (e = i)) as [->|]; [done|]. rewrite U by lia. apply Hc. lia.
  - exists c, n. by split_and!.
Qed.

(** After the first [s] slots. *)
Record expanded (s : Z) (ids0 index0 : list Z) (st : list Z * list Z * list Z) : Prop := {
  ex_cu_length : Z.of_nat (length st.1.1) = E + 1;
  ex_ids_length : length st.1.2 = length ids0;
  ex_index_length : length st.2 = length index0;
  ex_cu_0 : rd st.1.1 0 = Some 0;
  ex_cu : forall e, 0 <= e < E -> rd st.1.1 (1 + e) = Some (base e + K s e);
  ex_ids : forall s', 0 <= s' < s -> rd st.1.2 (dest s') = Some (s' / k);
  ex_index : forall s', 0 <= s' < s -> rd st.2 s' = Some (dest s')
}.

Lemma expand_slot_ok ids0 index0 i j st : Z.of_nat (length ids0) = N -> Z.of_nat (length index0) = N ->
  0 <= i < T -> 0 <= j < k -> expanded (i * k + j) ids0 index0 st ->
  exists st', expand_slot topk_id k i j st = Some st' /\ expanded (i * k + (j + 1)) ids0 index0 st'.
Proof.
  intros Li Lx Hi Hj [L1 L2 L3 C0 C D X]. destruct st as [[cu ids] index]. cbn [fst snd] in *. unfold expand_slot.
  set (s := i * k + j) in *. assert (0 <= s < N) as Hs by (unfold s; nia). replace (i * k + (j + 1)) with (s + 1) by lia.
  rewrite (rd_at topk_id) by lia. cbn [mbind option_bind]. pose proof (Hids s Hs) as He. rewrite C by done. cbn [mbind option_bind].
  change (base (at_ topk_id s) + K s (at_ topk_id s)) with (dest s). pose proof (dest_bounds s Hs).
  destruct (wr_ok cu (1 + at_ topk_id s) (dest s + 1)) as (cu' & -> & L1' & V1 & U1); [lia|]. cbn [mbind option_bind].
  destruct (wr_ok ids (dest s) i) as (ids' & -> & L2' & V2 & U2); [lia|]. cbn [mbind option_bind].
  destruct (wr_ok index s (dest s)) as (index' & -> & L3' & V3 & U3); [lia|]. cbn [mbind option_bind].
  eexists. split; [done|]. constructor; cbn [fst snd]; [lia|congruence|congruence|by rewrite U1 by lia|..].
  - intros e He'. rewrite K_succ by lia. destruct (decide (at_ topk_id s = e)) as [<-|Hne].
    + rewrite V1. f_equal. unfold dest, cell. fold base. lia.
    + rewrite U1, C by lia. f_equal. lia.
  - intros s' Hs'. destruct (decide (s' = s)) as [->|].
    + rewrite V2. f_equal. unfold s. rewrite Z.div_add_l, Z.div_small by lia. lia.
    + rewrite U2; [apply D; lia|]. intros Heq. apply dest_inj in Heq; lia.
  - intros s' Hs'. destruct (decide (s' = s)) as [->|]; [done|]. rewrite U3 by done. apply X. lia.
Qed.

(** What the later phases use. *)
Record mapped (mp : Mapping) : Prop := {
  mp_group : forall e, 0 <= e < E -> rd (token_num_per_group mp) e = Some (K N e);
  mp_cu : forall e, 0 <= e <= E -> rd (cu_token_num_per_group mp) e = Some (base e);
  mp_ids : forall s, 0 <= s < N -> rd (expand_token_id mp) (dest s) = Some (s / k);
  mp_index : forall s, 0 <= s < N -> rd (expand_token_id_index mp) s = Some (dest s)
}.

Record mapping_sized (m : Mapping) : Prop := {
  ms_group : Z.of_nat (length (token_num_per_group m)) = E;
  ms_cu : Z.of_nat (length (cu_token_num_per_group m)) = E + 1;
  ms_ids : Z.of_nat (length (expand_token_id m)) = N;
  ms_index : Z.of_nat (length (expand_token_id_index m)) = N
}.

Lemma prepare_mapping_ok m : mapping_sized m -> exists mp, prepare_mapping z topk_id m = Some mp /\ mapped mp.
Proof.
  intros [Lg Lc Li Lx]. unfold prepare_mapping.
  destruct (fill_ok (token_num_per_group m) 0 E 0) as (g0 & -> & Lg0 & Vg0); [lia|lia|]. cbn [mbind option_bind].
  rewrite i32_id by (unfold is_i32; nia).
  destruct (count_groups_ok g0) as (g & -> & Hg); [lia| |].
  { intros e He. by rewrite Vg0, decide_True by lia. }
  cbn [mbind option_bind]. destruct (wr_ok (cu_token_num_per_group m) 0 0) as (c0 & -> & Lc0 & Vc0 & _); [lia|]. cbn [mbind option_bind].
  destruct (start_groups_ok g c0 Hg) as (c1 & n & -> & Lc1 & Hc10 & Hc1); [lia|done|]. cbn [mbind option_bind].
  destruct (for_range_inv (fun i st => expanded (i * k) (expand_token_id m) (expand_token_id_index m) st) 0 T
    (fun i => for_range 0 k (expand_slot topk_id k i)) (c1, expand_token_id m, expand_token_id_index m)) as ([[c ids] index] & -> & X).
  - done.
  - constructor; cbn [fst snd]; [lia|done|done|done| |lia|lia]. intros e He. rewrite Hc1 by done. f_equal. rewrite Z.mul_0_l, K_0. lia.
  - intros i st Hi X. destruct (for_range_inv (fun j st => expanded (i * k + j) (expand_token_id m) (expand_token_id_index m) st) 0 k
      (expand_slot topk_id k i) st) as (st' & -> & X').
    + lia.
    + by rewrite Z.add_0_r.
    + intros j st' Hj X'. by apply expand_slot_ok.
    + exists st'. split; [done|]. by replace ((i + 1) * k) with (i * k + k) by lia.
  - cbn [mbind option_bind]. eexists. split; [done|]. destruct X as [_ _ _ C0 C D Ix]. cbn [fst snd] in *. constructor; cbn; [done| |done|done].
    intros e He. destruct (decide (e = 0)) as [->|]; [done|]. specialize (C (e - 1) ltac:(lia)). replace (1 + (e - 1)) with e in C by lia.
    rewrite C, <- base_succ by lia. do 2 f_equal. lia.
Qed.

(** The rectangle of a task: the rows of the expert, the columns of the tile. *)
Definition rect (tpe th : Z) (w : Z -> Z) (task_id : Z) (y : Z * Z) : Prop :=
  let e := task_id / tpe in let g := task_id mod tpe in
  base e <= y.1 < base (e + 1) /\ g * th <= y.2 < g * th + w g.

(** The rectangles of different tasks do not meet. *)
Lemma rect_inj tpe cols th w t t' y y' : 1 <= tpe -> 1 <= th -> (forall g, 0 <= g < tpe -> w g <= th /\ g * th + w g <= cols) ->
  0 <= t < tpe * E -> 0 <= t' < tpe * E -> rect tpe th w t y -> rect tpe th w t' y' ->
  y.1 * cols + y.2 = y'.1 * cols + y'.2 -> t = t'.
Proof.
  intros Htpe Hth Hw Ht Ht' [Hr Hc] [Hr' Hc'] Heq. destruct y as [r c], y' as [r' c']. cbn [fst snd] in *.
  assert (0 <= t mod tpe < tpe) as Hg by (apply Z.mod_pos_bound; lia).
  assert (0 <= t' mod tpe < tpe) as Hg' by (apply Z.mod_pos_bound; lia).
  pose proof (Hw _ Hg). pose proof (Hw _ Hg'). assert (0 <= t mod tpe * th) by nia. assert (0 <= t' mod tpe * th) by nia.
  assert (r = r') as <- by nia. assert (c = c') as <- by lia.
  assert (t / tpe = t' / tpe) as E1.
  { apply (region_inj topk_id N (K N) ltac:(done) _ _ r); [apply Z.div_pos; lia|apply Z.div_pos; lia|done|done]. }
  assert (t mod tpe = t' mod tpe) as E2 by nia.
  rewrite (Z.div_mod t tpe), (Z.div_mod t' tpe) by lia. congruence.
Qed.

(** The task of a row and a column. *)
Lemma rect_find tpe th w s c g : 0 <= s < N -> 0 <= g < tpe -> g * th <= c < g * th + w g ->
  let t := at_ topk_id s * tpe + g in
  0 <= t < tpe * E /\ t / tpe = at_ topk_id s /\ rect tpe th w t (dest s, c).
Proof.
  intros Hs Hg Hc t. pose proof (Hids s Hs) as He. unfold t.
  assert ((at_ topk_id s * tpe + g) / tpe = at_ topk_id s /\ (at_ topk_id s * tpe + g) mod tpe = g) as [E1 E2]
    by (rewrite Z.add_comm, Z.div_add, Z.mod_add, Z.div_small, Z.mod_small by lia; lia).
  split; [nia|]. split; [done|]. unfold rect. rewrite E1, E2. split; [by apply dest_region|done].
Qed.

End MappingOk.

(** ** Tiles *)

Lemma round_down_divide a n : a <> 0 -> (a | round_down a n).
Proof. intros Ha. apply Z.divide_factor_r. Qed.

Lemma w13_tile_ok z : 64 <= w13_n_tile_size z /\ (64 | w13_n_tile_size z).
Proof.
  unfold w13_n_tile_size. change min_w13_n_tile_size with 64. split; [lia|].
  destruct (Z.max_spec (round_down 64 (Z.min (i32 (Z.quot (u64 (cache_size z - w13_input_buffer_size z))
    (u64 (MaxMSize * 4 + input_size_13 z * sizeof_scalar z)))) (n_size_thread_limit z (output_size_13 z)))) 64) as [[_ ->]|[_ ->]];
    [apply Z.divide_refl|by apply round_down_divide].
Qed.

Lemma w2_tile_ok z : 32 <= w2_n_tile_size z /\ (32 | w2_n_tile_size z).
Proof.
  unfold w2_n_tile_size. change NSize with 32. split; [lia|].
  destruct (Z.max_spec (round_down 32 (Z.min (i32 (Z.quot (u64 (cache_size z - w2_input_tile_size z))
    (u64 (input_size_2 z * sizeof_scalar z)))) (n_size_thread_limit z (output_size_2 z)))) 32) as [[_ ->]|[_ ->]];
    [apply Z.divide_refl|by apply round_down_divide].
Qed.

(** The tiles of [n] columns: every tile has whole steps, and every column a tile. *)
Section Grid.
Context (n tile step : Z) (Hs : 1 <= step) (Ht : step <= tile) (Dt : (step | tile)) (Dn : (step | n)) (Hn : 0 <= n).

Definition tiles : Z := Z.quot (n + tile - 1) tile.
Definition width (g : Z) : Z := Z.min tile (n - g * tile).

Lemma tiles_spec : 0 <= tiles /\ n <= tiles * tile /\ (tiles - 1) * tile < n \/ n = 0 /\ tiles = 0.
Proof.
  unfold tiles. rewrite Z.quot_div_nonneg by lia. pose proof (Z.div_mod (n + tile - 1) tile ltac:(lia)).
  pose proof (Z.mod_pos_bound (n + tile - 1) tile ltac:(lia)).
  destruct (decide (n = 0)) as [Hz|Hz]; [right; split; [done|]; rewrite Hz; apply Z.div_small; lia|left].
  split; [apply Z.div_pos; lia|]. nia.
Qed.

Lemma width_spec g : 0 <= g < tiles -> step <= width g <= tile /\ (step | width g) /\ g * tile + width g <= n.
Proof.
  intros Hg. pose proof tiles_spec as Hts. unfold width. destruct Dt as [a Ha], Dn as [b Hb].
  assert (g * tile < n) by (destruct Hts as [Hts|Hts]; nia). assert (n - g * tile = (b - g * a) * step) as Hrest by nia.
  assert (0 < (b - g * a) * step) as Hpos by lia. assert (0 < b - g * a) as Hm by (clear -Hpos Hs; nia).
  assert (step <= n - g * tile) by (rewrite Hrest; clear -Hm Hs; nia).
  split; [lia|]. split; [|lia].
  destruct (Z.min_spec tile (n - g * tile)) as [[_ ->]|[_ ->]]; [by exists a|]. by exists (b - g * a).
Qed.

Lemma column_tile c : 0 <= c < n -> 0 <= c / tile < tiles /\ 0 <= c mod tile < width (c / tile) /\ c = c / tile * tile + c mod tile.
Proof.
  intros Hc. pose proof tiles_spec as Hts. pose proof (Z.div_mod c tile ltac:(lia)). pose proof (Z.mod_pos_bound c tile ltac:(lia)).
  assert (0 <= c / tile) by (apply Z.div_pos; lia). unfold width.
  assert (c / tile < tiles) by (destruct Hts as [Hts|Hts]; nia). split; [lia|]. split; [|lia]. split; [lia|]. apply Z.min_glb_lt; lia.
Qed.

End Grid.

(** ** Products with a bias *)

Section Product.
Context {S F : Type} `{FloatOps F} `{ScalarOps S F}.

Definition biased (bias : option (list S)) (v : F) (b : S) : F :=
  match bias with Some _ => add v (load b) | None => v end.

Lemma stores_over {A X} (a b c : list A) (D : X -> Prop) addr f f' :
  stores a b D addr f -> stores b c D addr f' -> stores a c D addr f'.
Proof.
  intros [L V U] [L' V' U']. constructor; [congruence|done|]. intros p Hp. by rewrite U', U by done.
Qed.

Lemma gemm_bias_ok (a b : list S) a_ptr b_ptr m k lda stride (x w : Z -> Z -> S) bias bias_ptr (bv : Z -> S) (c : list F) c_ptr ldc :
  1 <= m <= 8 -> 0 <= k ->
  (forall i j, 0 <= i < m -> 0 <= j < k -> rd a (a_ptr + i * lda + j) = Some (x i j)) ->
  (forall g n j, 0 <= g < 2 -> 0 <= n < 16 -> 0 <= j < k -> rd b (b_ptr + g * stride + j * 16 + n) = Some (w (g * 16 + n) j)) ->
  (forall bs j, bias = Some bs -> 0 <= j < 32 -> rd bs (bias_ptr + j) = Some (bv j)) ->
  32 <= ldc -> 0 <= c_ptr -> (forall i, 0 <= i < m -> c_ptr + i * ldc + 32 <= Z.of_nat (length c)) ->
  exists c', (c ← gemm a a_ptr b b_ptr c c_ptr m k lda stride ldc false; add_bias bias c c_ptr bias_ptr m ldc) = Some c' /\
    stores c c' (fun y : Z * Z => 0 <= y.1 < m /\ 0 <= y.2 < 32) (fun y => c_ptr + y.1 * ldc + y.2)
      (fun y => biased bias (dot (x y.1) (w y.2) k) (bv y.2)).
Proof.
  intros Hm Hk Ha Hb Hbias Hld Hcp Hc.
  destruct (gemm_ok a b a_ptr b_ptr m k lda stride x w ltac:(lia) Hk Ha Hb c c_ptr ldc Hm Hld Hcp Hc) as (c1 & -> & W1).
  cbn [mbind option_bind]. destruct bias as [bs|]; cbn [add_bias biased]; [|by exists c1].
  destruct (add_bias_ok 2 c1 c_ptr bs bias_ptr m ldc bv (fun i j => dot (x i) (w j) k)) as (c2 & E & W2).
  - lia.
  - lia.
  - lia.
  - done.
  - intros j Hj. apply (Hbias bs j eq_refl). lia.
  - intros i j Hi Hj. apply (stores_in _ _ _ _ _ W1 (i, j)). cbn [fst snd]. lia.
  - exists c2. split; [exact E|]. exact (stores_over _ _ _ _ _ _ _ W1 W2).
Qed.

End Product.

(** ** Gathering *)

Section Gather.
Context {S : Type} (z : Sizes) (input : list S) (mp : Mapping) (xin : Z -> S).
Abbreviation I13 := (input_size_13 z).
Abbreviation piece := (Z.quot 64 (sizeof_scalar z)).
Context (Hpiece : 1 <= piece) (HI : 1 <= I13) (Dpiece : (piece | I13)).

Lemma copy_row_ok src dst buf : 0 <= dst -> dst + I13 <= Z.of_nat (length buf) ->
  (forall j, 0 <= j < I13 -> rd input (src + j) = Some (xin (src + j))) ->
  exists buf', copy_row z input src dst buf = Some buf' /\
    stores buf buf' (fun j => 0 <= j < I13) (fun j => dst + j) (fun j => xin (src + j)).
Proof.
  intros Hd Hl Hx. destruct Dpiece as [n Hn]. unfold copy_row. set (c := piece) in *. clearbody c.
  assert (1 <= n) by (clear -Hn HI Hpiece; nia).
  replace (I13 - c) with ((n - 1) * c) by lia. rewrite (for_step_turns (n - 1)) by (lia || nia).
  destruct (for_range_inv (fun q st => st.2 = q * c /\ stores buf st.1 (fun j => 0 <= j < q * c) (fun j => dst + j) (fun j => xin (src + j)))
    0 (n - 1) (fun q st => vec ← rd_range input (src + q * c) c; buf ← wr_range st.1 (dst + q * c) vec; Some (buf, q * c + c)) (buf, 0))
    as ([b1 j1] & -> & Ej & W).
  - lia.
  - split; [done|]. constructor; [done|lia|done].
  - intros q [b1 j1] Hq [Ej W]. cbn [fst snd] in *.
    rewrite (rd_range_tab input (src + q * c) c (fun j => xin (src + (q * c + j)))).
    2: lia. 2: { intros j Hj. rewrite <- Hx by nia. f_equal. lia. }
    cbn [mbind option_bind]. destruct (wr_range_stores b1 (dst + q * c) c (fun j => xin (src + (q * c + j)))) as (b2 & -> & W2);
      [lia|nia|rewrite (stores_length _ _ _ _ _ W); nia|]. cbn [mbind option_bind]. eexists. split; [done|]. cbn [fst snd]. split; [lia|].
    eapply stores_reindex; [| |eapply stores_app; [|exact W|exact W2]].
    + intros j Hj. destruct (decide (j < q * c)) as [Hlt|Hge]; [by exists (inl j); split_and!; try lia|].
      exists (inr (j - q * c)). split_and!; [lia|lia|lia|]. do 2 f_equal. lia.
    + intros [j|j] Hj; [exists j|exists (q * c + j)]; lia.
    + intros j j' Hj Hj'. cbn beta in *. lia.
  - cbn [mbind option_bind fst snd] in *. subst j1.
    rewrite (rd_range_tab input (src + (n - 1) * c) c (fun j => xin (src + ((n - 1) * c + j)))).
    2: lia. 2: { intros j Hj. rewrite <- Hx by nia. f_equal. lia. }
    cbn [mbind option_bind]. rewrite take_ge by (rewrite length_fmap, length_seqZ; lia).
    destruct (wr_range_stores b1 (dst + (n - 1) * c) c (fun j => xin (src + ((n - 1) * c + j)))) as (b2 & -> & W2);
      [lia|nia|rewrite (stores_length _ _ _ _ _ W); nia|]. exists b2. split; [done|].
    eapply stores_reindex; [| |eapply stores_app; [|exact W|exact W2]].
    + intros j Hj. destruct (decide (j < (n - 1) * c)) as [Hlt|Hge]; [by exists (inl j); split_and!; try lia|].
      exists (inr (j - (n - 1) * c)). split_and!; [lia|lia|lia|]. do 2 f_equal. lia.
    + intros [j|j] Hj; cbn beta in *; [exists j|exists ((n - 1) * c + j)]; split; try lia; nia.
    + intros j j' Hj Hj'. cbn beta in *. lia.
Qed.

Lemma gather_rows_ok ids_ptr m (tok : Z -> Z) buf : 0 <= m -> m * I13 <= Z.of_nat (length buf) ->
  (forall i, 0 <= i < m -> rd (expand_token_id mp) (ids_ptr + i) = Some (tok i)) ->
  (forall i, 0 <= i < m -> 0 <= tok i * I13 < 2147483648) ->
  (forall i j, 0 <= i < m -> 0 <= j < I13 -> rd input (tok i * I13 + j) = Some (xin (tok i * I13 + j))) ->
  exists buf', gather_rows z input mp ids_ptr m buf = Some buf' /\
    stores buf buf' (fun y : Z * Z => 0 <= y.1 < m /\ 0 <= y.2 < I13) (fun y => y.1 * I13 + y.2) (fun y => xin (tok y.1 * I13 + y.2)).
Proof.
  intros Hm Hl Hids Htok Hx. unfold gather_rows.
  destruct (for_range_stores (fun b => b) (fun _ => True) m (fun i buf => t ← rd (expand_token_id mp) (ids_ptr + i);
      copy_row z input (i32 (t * I13)) (i * I13) buf) (fun _ j => 0 <= j < I13) (fun i j => i * I13 + j)
    (fun i j => xin (tok i * I13 + j)) buf) as (b & -> & _ & W).
  - intros t t' j j' Ht Ht' Hj Hj' Heq. nia.
  - done.
  - intros i b Hi _ Lb _. rewrite Hids by done. cbn [mbind option_bind]. rewrite i32_id by (specialize (Htok i Hi); unfold is_i32; lia).
    destruct (copy_row_ok (tok i * I13) (i * I13) b) as (b' & -> & W); [nia|nia|intros; by apply Hx|]. by exists b'.
  - exists b. by split.
Qed.

End Gather.

(** ** The first product *)

Lemma packed_tile I o g n j : (16 | o) -> 0 <= n < 16 -> packed_at I (o + (g * 16 + n)) j = o * I + g * (16 * I) + j * 16 + n.
Proof.
  intros [q ->] Hn. unfold packed_at. replace (q * 16 + (g * 16 + n)) with (n + (q + g) * 16) by lia.
  rewrite Z.div_add, Z.mod_add, Z.div_small, Z.mod_small by lia. lia.
Qed.

Section First.
Context {S F : Type} `{FloatOps F} `{ScalarOps S F}.
Context (z : Sizes) (act : FusedMOEAct) (w13 : list S) (w13_bias : option (list S)).
Context (W : Z -> Z -> Z -> S) (Bv : Z -> Z -> S).
Abbreviation I13 := (input_size_13 z).
Abbreviation O13 := (output_size_13 z).
Abbreviation E := (expert_num z).
Abbreviation tile := (w13_n_tile_size z).
Context (HI : 1 <= I13) (HO : 0 <= O13) (DO : (64 | O13)) (Hfit : E * (O13 * I13) < 2147483648).
Context (HW : forall e o j, 0 <= e < E -> 0 <= o < O13 -> 0 <= j < I13 -> rd w13 (e * (O13 * I13) + packed_at I13 o j) = Some (W e o j)).
Context (HBv : forall bs e o, w13_bias = Some bs -> 0 <= e < E -> 0 <= o < O13 -> rd bs (e * O13 + o) = Some (Bv e o)).

(** The first rows of the two halves of a tile, and the row behind a column. *)
Definition half_rows (g actual : Z) : Z * Z :=
  match act with
  | SwigluOAIAndMul => (g * tile, g * tile + Z.quot actual 2)
  | _ => (g * Z.quot tile 2, Z.quot O13 2 + g * Z.quot tile 2)
  end.

(** A row of the first product, bias included. *)
Definition pre (x : Z -> S) (e o : Z) : F := biased w13_bias (dot x (W e o) I13) (Bv e o).

Lemma quot_half n : (2 | n) -> 0 <= n -> n = Z.quot n 2 * 2.
Proof. intros [q ->] Hn. by rewrite Z.quot_mul. Qed.

Lemma half_rows_spec g actual : 0 <= g < tiles O13 tile -> actual = width O13 tile g ->
  exists q r0 r1, actual = q * 64 /\ 1 <= q /\ half_rows g actual = (r0, r1) /\ (32 | r0) /\ (32 | r1) /\
    0 <= r0 /\ r0 + q * 32 <= O13 /\ 0 <= r1 /\ r1 + q * 32 <= O13.
Proof.
  intros Hg ->. destruct (w13_tile_ok z) as [Ht [a Ha]]. destruct (width_spec O13 tile 64) with (g := g) as (Hw & [q Hq] & Hend);
    [lia|lia|by exists a|done|done|done|]. destruct DO as [b Hb].
  assert (1 <= q) by lia. assert (Z.quot (width O13 tile g) 2 = q * 32) as Eq by (rewrite Hq; replace (q * 64) with (q * 32 * 2) by lia; by apply Z.quot_mul).
  assert (Z.quot tile 2 = a * 32) as Et by (rewrite Ha; replace (a * 64) with (a * 32 * 2) by lia; by apply Z.quot_mul).
  assert (Z.quot O13 2 = b * 32) as Eo by (rewrite Hb; replace (b * 64) with (b * 32 * 2) by lia; by apply Z.quot_mul).
  exists q. unfold half_rows. rewrite Eq, Et, Eo.
  destruct act; eexists _, _; (split; [done|]; split; [done|]; split; [done|]).
  1, 3, 4: split_and!; [exists (g * a); lia|exists (b + g * a); lia|nia|nia|nia|nia].
  split_and!; [exists (g * a * 2); nia|exists (g * a * 2 + q); nia|nia|nia|nia|nia].
Qed.

Lemma w13_ptrs_ok e g actual r0 r1 : 0 <= e < E -> 0 <= g < tiles O13 tile -> actual = width O13 tile g -> half_rows g actual = (r0, r1) ->
  w13_ptrs z act e g actual = (e * (O13 * I13) + r0 * I13, e * (O13 * I13) + r1 * I13) /\
  w13_bias_ptrs z act e g actual = (e * O13 + r0, e * O13 + r1).
Proof.
  intros He Hg Hact Hr. destruct (half_rows_spec g actual Hg Hact) as (q & r0' & r1' & Hq & Hq1 & Hr' & _ & _ & B0 & B0' & B1 & B1').
  rewrite Hr in Hr'. injection Hr' as <- <-. revert Hr. unfold half_rows, w13_ptrs, w13_bias_ptrs.
  assert (0 <= e * (O13 * I13) <= E * (O13 * I13) - O13 * I13) by nia.
  assert (0 <= e * I13 <= e * I13 * O13) by nia. assert (0 <= e * O13 <= e * (O13 * I13)) by nia.
  assert (0 <= O13 * I13) by nia.
  assert (forall r, 0 <= r <= O13 -> is_i32 r /\ is_i32 (r * I13)) as Hrow by (intros r Hrr; unfold is_i32; nia).
  destruct (w13_tile_ok z) as [Ht [a Ha]]. pose proof (quot_half tile ltac:(exists (a * 32); lia) ltac:(lia)).
  pose proof (quot_half O13 ltac:(destruct DO as [b ->]; exists (b * 32); lia) HO).
  pose proof (quot_half actual ltac:(exists (q * 32); lia) ltac:(lia)).
  rewrite (i32_id (e * I13)), (i32_id (e * I13 * O13)), (i32_id (e * O13)) by (unfold is_i32; lia).
  destruct act; intros [= <- <-].
  1, 3, 4: rewrite (i32_id (g * Z.quot tile 2)), (i32_id (g * Z.quot tile 2 * I13)), (i32_id (Z.quot O13 2 * I13)) by (apply Hrow; lia);
    split; f_equal; lia.
  rewrite (i32_id (g * tile)), (i32_id (g * tile * I13)), (i32_id (Z.quot actual 2 * I13)) by (apply Hrow; lia). split; f_equal; lia.
Qed.

(** The tile of the task, for [m] gathered rows. *)
Lemma w13_gemm_ok e g actual r0 r1 m (in_buf : list S) (x : Z -> Z -> S) (out_buf : list F) :
  0 <= e < E -> 0 <= g < tiles O13 tile -> actual = width O13 tile g -> half_rows g actual = (r0, r1) ->
  1 <= m <= 8 -> m * actual <= Z.of_nat (length out_buf) ->
  (forall i j, 0 <= i < m -> 0 <= j < I13 -> rd in_buf (i * I13 + j) = Some (x i j)) ->
  exists out_buf', w13_gemm z act w13 w13_bias e g actual m in_buf out_buf = Some out_buf' /\ length out_buf' = length out_buf /\
    forall i c, 0 <= i < m -> 0 <= c < actual -> rd out_buf' (i * actual + c)
      = Some (pre (x i) e (if decide (c < Z.quot actual 2) then r0 + c else r1 + (c - Z.quot actual 2))).
Proof.
  intros He Hg Hact Hr Hm Hl Hx. destruct (half_rows_spec g actual Hg Hact) as (q & r0' & r1' & Hq & Hq1 & Hr' & D0 & D1 & B0 & B0' & B1 & B1').
  rewrite Hr in Hr'. injection Hr' as <- <-. unfold w13_gemm.
  destruct (w13_ptrs_ok e g actual r0 r1 He Hg Hact Hr) as [-> ->].
  change min_w13_n_tile_size with 64. change NSize with 32. change WeightOCGroupSize with 16.
  assert (Z.quot actual 2 = q * 32) as Eh by (rewrite Hq; replace (q * 64) with (q * 32 * 2) by lia; by apply Z.quot_mul).
  rewrite Eh. rewrite (for_step_turns q) by lia.
  assert (forall r t buf c_ptr, (32 | r) -> 0 <= r -> r + q * 32 <= O13 -> 0 <= t < q -> length buf = length out_buf ->
    (c_ptr = t * 32 \/ c_ptr = q * 32 + t * 32) ->
    exists buf', (buf ← gemm in_buf 0 w13 (e * (O13 * I13) + r * I13 + t * (32 * I13)) buf c_ptr m I13 I13 (16 * I13) actual false;
      add_bias w13_bias buf c_ptr (e * O13 + r + t * 32) m actual) = Some buf' /\
    stores buf buf' (fun y : Z * Z => 0 <= y.1 < m /\ 0 <= y.2 < 32) (fun y => c_ptr + y.1 * actual + y.2)
      (fun y => pre (x y.1) e (r + t * 32 + y.2))) as Half.
  { intros r t buf c_ptr [u Hu] Hr0 Hr1 Ht Lb Hc. unfold pre.
    apply (gemm_bias_ok in_buf w13 0 _ m I13 I13 (16 * I13) x (fun n => W e (r + t * 32 + n)) w13_bias _ (fun n => Bv e (r + t * 32 + n)));
      [done|lia| | | |lia|lia|].
    - intros i j Hi Hj. rewrite Z.add_0_l. by apply Hx.
    - intros h n j Hh Hn Hj. rewrite <- HW by lia. f_equal. rewrite packed_tile by (done || (exists (u * 2 + t * 2); lia)). lia.
    - intros bs j Hbs Hj. rewrite <- (HBv bs) by (done || lia). f_equal. lia.
    - intros i Hi. rewrite Lb. nia. }
  set (body := fun (t : Z) (buf : list F) => _).
  destruct (for_range_stores (fun b => b) (fun _ => True) q body (fun _ (y : Z * (Z * Z)) => 0 <= y.1 < 2 /\ 0 <= y.2.1 < m /\ 0 <= y.2.2 < 32)
    (fun t y => y.1 * (q * 32) + t * 32 + y.2.1 * actual + y.2.2)
    (fun t y => pre (x y.2.1) e ((if decide (y.1 = 0) then r0 else r1) + t * 32 + y.2.2)) out_buf) as (b' & -> & _ & Wt).
  - intros t t' [h [i j]] [h' [i' j']] Ht Ht' (Hh & Hi & Hj) (Hh' & Hi' & Hj') Heq. cbn [fst snd] in *. rewrite Hq in Heq.
    assert (i = i') as -> by nia. assert (h = h') by nia. subst h'. lia.
  - done.
  - intros t b Ht _ Lb _. unfold body. rewrite Z.quot_mul by lia.
    destruct (Half r0 t b (t * 32)) as (b1 & E1 & W1); [done|done|done|done|done|by left|].
    destruct (gemm in_buf 0 w13 (e * (O13 * I13) + r0 * I13 + t * (32 * I13)) b (t * 32) m I13 I13 (16 * I13) actual false) as [b0|]; [|done].
    cbn [mbind option_bind] in E1 |- *. rewrite E1. cbn [mbind option_bind].
    destruct (Half r1 t b1 (q * 32 + t * 32)) as (b2 & E2 & W2); [done|done|done|done|rewrite (stores_length _ _ _ _ _ W1); done|by right|].
    exists b2. split; [exact E2|]. split; [done|]. eapply stores_reindex; [| |eapply stores_app; [|exact W1|exact W2]].
    + intros [h [i j]] (Hh & Hi & Hj). cbn [fst snd] in *. assert (h = 0 \/ h = 1) as [-> | ->] by lia.
      * exists (inl (i, j)). cbn [fst snd]. rewrite decide_True by done. split_and!; [lia|lia|lia|lia|lia|done].
      * exists (inr (i, j)). cbn [fst snd]. rewrite decide_False by done. split_and!; [lia|lia|lia|lia|lia|done].
    + intros [[i j]|[i j]] [Hi Hj]; cbn [fst snd] in *; [exists (0, (i, j))|exists (1, (i, j))]; cbn [fst snd]; lia.
    + intros [i j] [i' j'] [Hi Hj] [Hi' Hj'] Heq. cbn [fst snd] in *. rewrite Hq in Heq. assert (i = i') as -> by nia. lia.
  - exists b'. split; [done|]. split; [exact (stores_length _ _ _ _ _ Wt)|]. intros i c Hi Hc. destruct (decide (c < q * 32)) as [Hlt|Hge].
    + pose proof (stores_in _ _ _ _ _ Wt (c / 32, (0, (i, c mod 32)))) as V. cbn [fst snd] in V. rewrite decide_True in V by done.
      pose proof (Z.div_mod c 32 ltac:(lia)). pose proof (Z.mod_pos_bound c 32 ltac:(lia)).
      replace (0 * (q * 32) + c / 32 * 32 + i * actual + c mod 32) with (i * actual + c) in V by lia.
      replace (r0 + c / 32 * 32 + c mod 32) with (r0 + c) in V by lia. apply V.
      assert (0 <= c / 32 < q) by (split; [apply Z.div_pos; lia|apply Z.div_lt_upper_bound; lia]). split_and!; lia.
    + set (d := c - q * 32). pose proof (stores_in _ _ _ _ _ Wt (d / 32, (1, (i, d mod 32)))) as V. cbn [fst snd] in V.
      rewrite decide_False in V by done. pose proof (Z.div_mod d 32 ltac:(lia)). pose proof (Z.mod_pos_bound d 32 ltac:(lia)).
      replace (1 * (q * 32) + d / 32 * 32 + i * actual + d mod 32) with (i * actual + c) in V by lia.
      replace (r1 + d / 32 * 32 + d mod 32) with (r1 + d) in V by lia. apply V.
      assert (0 <= d / 32 < q) by (split; [apply Z.div_pos; lia|apply Z.div_lt_upper_bound; lia]). split_and!; lia.
Qed.

(** ** The tasks of the first product *)

Context (input : list S) (xin : Z -> S) (worker : Z -> Z) (topk_id : list Z) (mp : Mapping).
Abbreviation T := (token_num z).
Abbreviation N := (T * topk_num z).
Abbreviation half := (Z.quot O13 2).
Abbreviation piece := (Z.quot 64 (sizeof_scalar z)).
Context (Hpiece : 1 <= piece) (Dpiece : (piece | I13)).
Context (HT : 0 <= T) (Hk : 1 <= topk_num z) (HE : 0 <= E) (HN : N < 2147483648).
Context (Hlen : Z.of_nat (length topk_id) = N) (Hids : forall s, 0 <= s < N -> 0 <= at_ topk_id s < E).
Context (Hmp : mapped z topk_id mp).
Context (Hin : forall p, 0 <= p < T * I13 -> rd input p = Some (xin p)) (HTfit : T * I13 < 2147483648).
Context (Hout13 : N * half < 2147483648).
Context (Hworker : forall t, 0 <= worker t < thread_num z).

(** The token of a row, and the activations of a token at an expert. *)
Definition row_token (r : Z) : Z := at_ (expand_token_id mp) r.
Definition hidden (e t n : Z) : S :=
  store (gated act (pre (fun j => xin (t * I13 + j)) e (gate_at act n)) (pre (fun j => xin (t * I13 + j)) e (up_at act half n))).

Lemma row_token_ok s : 0 <= s < N -> rd (expand_token_id mp) (dest z topk_id s) = Some (s / topk_num z) /\
  row_token (dest z topk_id s) = s / topk_num z.
Proof.
  intros Hs. pose proof (mp_ids _ _ _ Hmp s Hs) as Hr. split; [done|]. unfold row_token. pose proof (rd_Some _ _ _ Hr).
  rewrite rd_at in Hr by done. by injection Hr.
Qed.

Lemma row_token_rd e r : 0 <= e < E -> base z topk_id e <= r < base z topk_id (e + 1) ->
  rd (expand_token_id mp) r = Some (row_token r) /\ 0 <= row_token r < T.
Proof.
  intros He Hr. destruct (row_slot z topk_id HT Hk e r He Hr) as (s & Hs & _ & <-).
  destruct (row_token_ok s Hs) as [-> ->]. split; [done|]. split; [apply Z.div_pos; lia|apply Z.div_lt_upper_bound; lia].
Qed.

Definition in_buf_ok (b : list S) : Prop := 8 * I13 <= Z.of_nat (length b).
Definition out_buf_ok (b : list F) : Prop := 8 * tile <= Z.of_nat (length b).
Definition bufs_ok (st : W13State (S := S) (F := F)) : Prop :=
  (forall t, 0 <= t < thread_num z -> exists b, rd st.1.1 t = Some b /\ in_buf_ok b) /\
  (forall t, 0 <= t < thread_num z -> exists b, rd st.1.2 t = Some b /\ out_buf_ok b).

(** The rows behind the columns of a tile. *)
Lemma tile_columns g actual r0 r1 c : 0 <= g < tiles O13 tile -> actual = width O13 tile g -> half_rows g actual = (r0, r1) ->
  0 <= c < Z.quot actual 2 ->
  let row j := if decide (j < Z.quot actual 2) then r0 + j else r1 + (j - Z.quot actual 2) in
  row (gate_at act c) = gate_at act (Z.quot (g * tile) 2 + c) /\
  row (up_at act (Z.quot actual 2) c) = up_at act half (Z.quot (g * tile) 2 + c).
Proof.
  intros Hg Hact Hr Hc row. destruct (half_rows_spec g actual Hg Hact) as (q & _ & _ & Hq & Hq1 & _).
  destruct (w13_tile_ok z) as [Ht [a Ha]]. pose proof (quot_half tile ltac:(exists (a * 32); lia) ltac:(lia)) as Htile.
  pose proof (quot_half actual ltac:(exists (q * 32); lia) ltac:(lia)).
  assert (Z.quot (g * tile) 2 = g * Z.quot tile 2) as ->
    by (rewrite Htile at 1; replace (g * (Z.quot tile 2 * 2)) with (g * Z.quot tile 2 * 2) by lia; by apply Z.quot_mul).
  revert Hr. unfold half_rows, row, gate_at, up_at. destruct act; intros [= <- <-]; repeat case_decide; lia.
Qed.

Lemma bufs_wr {A} (bufs : list A) t b (ok : A -> Prop) : 0 <= t < thread_num z -> ok b ->
  (forall t, 0 <= t < thread_num z -> exists b, rd bufs t = Some b /\ ok b) ->
  exists bufs', wr bufs t b = Some bufs' /\ forall t, 0 <= t < thread_num z -> exists b, rd bufs' t = Some b /\ ok b.
Proof.
  intros Ht Hb Hbufs. destruct (Hbufs t Ht) as (b0 & Hb0 & _). apply rd_Some in Hb0.
  destruct (wr_ok bufs t b Hb0) as (bufs' & -> & _ & V & U). exists bufs'. split; [done|]. intros t' Ht'.
  destruct (decide (t' = t)) as [->|]; [by exists b|]. rewrite U by done. by apply Hbufs.
Qed.

(** One turn of the loop over the tokens of a task: up to eight rows. *)
Definition w13_turn (task_id e g n cu token_idx : Z) (st : W13State (S := S) (F := F)) : option W13State :=
  let actual := width O13 tile g in
  let '((in_bufs, out_bufs), out) := st in
  let m := Z.min MaxMSize (n - token_idx) in
  in_buf ← rd in_bufs (worker task_id);
  in_buf ← gather_rows z input mp (cu + token_idx) m in_buf;
  in_bufs ← wr in_bufs (worker task_id) in_buf;
  out_buf ← rd out_bufs (worker task_id);
  out_buf ← w13_gemm z act w13 w13_bias e g actual m in_buf out_buf;
  out_bufs ← wr out_bufs (worker task_id) out_buf;
  out ← apply_gated_act act out_buf 0 out (i32 (cu * half) + Z.quot (i32 (g * tile)) 2 + Z.quot token_idx MaxMSize * (MaxMSize * half))
    m actual actual half;
  Some ((in_bufs, out_bufs), out).

Lemma w13_turn_ok task_id e g t st : 0 <= e < E -> 0 <= g < tiles O13 tile -> bufs_ok st ->
  Z.of_nat (length st.2) = N * half ->
  let cu := base z topk_id e in let n := K topk_id N e in
  0 <= t -> t * 8 < n ->
  let m := Z.min 8 (n - t * 8) in
  exists st', w13_turn task_id e g n cu (t * 8) st = Some st' /\ bufs_ok st' /\
    stores st.2 st'.2 (fun y : Z * Z => 0 <= y.1 < m /\ 0 <= y.2 < Z.quot (width O13 tile g) 2)
      (fun y => (cu + t * 8 + y.1) * half + (Z.quot (g * tile) 2 + y.2))
      (fun y => hidden e (row_token (cu + t * 8 + y.1)) (Z.quot (g * tile) 2 + y.2)).
Proof.
  intros He Hg [Hib Hob] Lo cu n Ht Htn m. destruct st as [[in_bufs out_bufs] out]. cbn [fst snd] in *. unfold w13_turn.
  change MaxMSize with 8. fold m.
  set (actual := width O13 tile g). destruct (half_rows g actual) as [r0 r1] eqn:Hr.
  destruct (half_rows_spec g actual Hg eq_refl) as (q & r0' & r1' & Hq & Hq1 & _).
  assert (base z topk_id (e + 1) = cu + n) as Hnext by (unfold cu, n; by rewrite base_succ by lia).
  pose proof (base_bounds z topk_id HT Hk HE Hids e ltac:(lia)) as Hcu. fold cu in Hcu.
  pose proof (base_bounds z topk_id HT Hk HE Hids (e + 1) ltac:(lia)) as Hcu1.
  destruct (w13_tile_ok z) as [Htile [ta Hta]].
  destruct (width_spec O13 tile 64) with (g := g) as (Hw & _ & Hend); [lia|lia|by exists ta|done|done|done|]. fold actual in Hw, Hend.
  assert (Z.quot actual 2 = q * 32) as Eh by (rewrite Hq; replace (q * 64) with (q * 32 * 2) by lia; by apply Z.quot_mul).
  assert (O13 = half * 2) as Ehalf by (apply quot_half; [destruct DO as [b ->]; exists (b * 32); lia|done]).
  assert (Z.quot (g * tile) 2 * 2 = g * tile) as Egt by (symmetry; apply quot_half; [exists (g * (ta * 32)); lia|nia]).
  destruct (Hib (worker task_id) (Hworker _)) as (ib & -> & Lib). cbn [mbind option_bind].
  destruct (gather_rows_ok z input mp xin Hpiece HI Dpiece (cu + t * 8) m (fun i => row_token (cu + t * 8 + i)) ib) as (ib' & -> & Wi).
  { lia. } { unfold in_buf_ok in Lib. nia. }
  { intros i Hi. apply (row_token_rd e); [done|]. fold cu. lia. }
  { intros i Hi. destruct (row_token_rd e (cu + t * 8 + i) He) as [_ Hrt]; [fold cu; lia|]. nia. }
  { intros i j Hi Hj. destruct (row_token_rd e (cu + t * 8 + i) He) as [_ Hrt]; [fold cu; lia|]. apply Hin. nia. }
  cbn [mbind option_bind].
  destruct (bufs_wr in_bufs (worker task_id) ib' in_buf_ok (Hworker _)) as (in_bufs' & -> & Hib');
    [unfold in_buf_ok; by rewrite (stores_length _ _ _ _ _ Wi)|done|]. cbn [mbind option_bind].
  destruct (Hob (worker task_id) (Hworker _)) as (ob & -> & Lob). cbn [mbind option_bind].
  destruct (w13_gemm_ok e g actual r0 r1 m ib' (fun i j => xin (row_token (cu + t * 8 + i) * I13 + j)) ob He Hg eq_refl Hr) as (ob' & -> & Lob' & Vob).
  { lia. } { unfold out_buf_ok in Lob. nia. }
  { intros i j Hi Hj. exact (stores_in _ _ _ _ _ Wi (i, j) (conj Hi Hj)). }
  cbn [mbind option_bind].
  destruct (bufs_wr out_bufs (worker task_id) ob' out_buf_ok (Hworker _)) as (out_bufs' & -> & Hob');
    [unfold out_buf_ok; by rewrite Lob'|done|]. cbn [mbind option_bind].
  rewrite (i32_id (cu * half)) by (unfold is_i32; nia). rewrite (i32_id (g * tile)) by (unfold is_i32; nia).
  rewrite Z.quot_mul by lia.
  destruct (apply_gated_act_ok ob' 0 m (q * 2) actual (cu * half + Z.quot (g * tile) 2 + t * (8 * half)) half
    (fun i j => pre (fun l => xin (row_token (cu + t * 8 + i) * I13 + l)) e
       (if decide (j < Z.quot actual 2) then r0 + j else r1 + (j - Z.quot actual 2))))
    with (act := act) (out := out) as (out' & E1 & Wo).
  { lia. } { nia. } { nia. }
  { intros i j Hi Hj. rewrite Z.add_0_l. apply Vob; lia. }
  { intros i Hi. rewrite Lo. nia. }
  replace (q * 2 * 32) with actual in E1 by lia. rewrite E1. cbn [mbind option_bind].
  eexists. split; [done|]. split; [done|]. cbn [fst snd]. eapply stores_reindex; [| |exact Wo].
  - intros [i c] [Hi Hc]. cbn [fst snd] in *. exists (i, c). cbn [fst snd]. split; [lia|]. split; [nia|].
    destruct (tile_columns g actual r0 r1 c Hg eq_refl Hr Hc) as [E2 E3]. replace (q * 2 * 16) with (Z.quot actual 2) by lia.
    unfold hidden. by rewrite E2, E3.
  - intros [i c] [Hi Hc]. cbn [fst snd] in *. exists (i, c). cbn [fst snd]. split; [lia|nia].
Qed.

Lemma w13_task_ok task_id st : 0 <= task_id < tiles O13 tile * E -> bufs_ok st -> Z.of_nat (length st.2) = N * half ->
  exists st', w13_task z act input w13 w13_bias worker mp task_id st = Some st' /\ bufs_ok st' /\
    stores st.2 st'.2 (rect z topk_id (tiles O13 tile) (Z.quot tile 2) (fun g => Z.quot (width O13 tile g) 2) task_id)
      (fun y => y.1 * half + y.2) (fun y => hidden (task_id / tiles O13 tile) (row_token y.1) y.2).
Proof.
  intros Htask Hst Lst. set (tpe := tiles O13 tile) in *. assert (1 <= tpe) by nia.
  set (e := task_id / tpe). set (g := task_id mod tpe).
  assert (0 <= g < tpe) as Hg by (apply Z.mod_pos_bound; lia).
  assert (0 <= e < E) as He by (split; [apply Z.div_pos; lia|apply Z.div_lt_upper_bound; lia]).
  destruct (w13_tile_ok z) as [Htile [ta Hta]].
  assert (Z.quot (g * tile) 2 = g * Z.quot tile 2) as Egt.
  { rewrite Hta. replace (g * (ta * 64)) with (g * ta * 32 * 2) by lia. replace (ta * 64) with (ta * 32 * 2) by lia. rewrite !Z.quot_mul by lia. lia. }
  unfold w13_task. change (Z.quot (O13 + tile - 1) tile) with tpe.
  rewrite (Z.quot_div_nonneg task_id tpe), (Z.rem_mod_nonneg task_id tpe) by lia. fold e g.
  rewrite (mp_group _ _ _ Hmp e He). cbn [mbind option_bind].
  set (n := K topk_id N e). pose proof (K_nonneg topk_id N e) as Hn0. fold n in Hn0.
  assert (base z topk_id (e + 1) = base z topk_id e + n) as Hnext by (unfold n; by rewrite base_succ by lia).
  destruct (Z.eqb_spec n 0) as [Hn|Hn].
  { exists st. split; [done|]. split; [done|]. eapply stores_reindex; [| |apply (stores_none st.2 (fun _ : unit => 0) (fun _ => hidden 0 0 0))]; [|by intros ? []].
    intros y Hy. unfold rect in Hy. fold e in Hy. lia. }
  rewrite (mp_cu _ _ _ Hmp) by lia. cbn [mbind option_bind]. set (cu := base z topk_id e) in *.
  change (for_step 0 n MaxMSize _ st) with (for_step 0 n 8 (w13_turn task_id e g n cu) st).
  set (turns := (n + 7) / 8). assert (0 <= turns /\ (turns - 1) * 8 < n /\ n <= turns * 8) as (Ht0 & Ht1 & Ht2).
  { unfold turns. pose proof (Z.div_mod (n + 7) 8 ltac:(lia)). pose proof (Z.mod_pos_bound (n + 7) 8 ltac:(lia)). lia. }
  rewrite (for_step_turns turns) by lia.
  destruct (for_range_stores (fun st => st.2) bufs_ok turns (fun t => w13_turn task_id e g n cu (t * 8))
    (fun t (y : Z * Z) => 0 <= y.1 < Z.min 8 (n - t * 8) /\ 0 <= y.2 < Z.quot (width O13 tile g) 2)
    (fun t y => (cu + t * 8 + y.1) * half + (Z.quot (g * tile) 2 + y.2))
    (fun t y => hidden e (row_token (cu + t * 8 + y.1)) (Z.quot (g * tile) 2 + y.2)) st) as (st' & Ef & Hst' & Wt).
  - intros t t' [i c] [i' c'] Ht Ht' [Hi Hc] [Hi' Hc'] Heq. cbn [fst snd] in *.
    destruct (width_spec O13 tile 64) with (g := g) as (Hw & [q Hq] & Hend); [lia|lia|by exists ta|done|done|done|].
    assert (Z.quot (width O13 tile g) 2 * 2 <= O13 - g * tile) by (rewrite Hq; replace (q * 64) with (q * 32 * 2) by lia; rewrite Z.quot_mul by lia; lia).
    assert (O13 = half * 2) as Ehalf by (apply quot_half; [destruct DO as [b ->]; exists (b * 32); lia|done]).
    assert (Z.quot (g * tile) 2 * 2 = g * tile) by (symmetry; apply quot_half; [exists (g * (ta * 32)); lia|nia]).
    assert (cu + t * 8 + i = cu + t' * 8 + i') by nia. lia.
  - done.
  - intros t s Ht Hs Ls _. apply w13_turn_ok; try done; [by rewrite Ls|lia|]. fold n. nia.
  - exists st'. split; [exact Ef|]. split; [done|]. eapply stores_reindex; [| |exact Wt]; unfold rect; fold e g cu; cbn zeta; rewrite Hnext, <- Egt.
    + intros [r c] [Hr Hc]. cbn [fst snd] in *. exists ((r - cu) / 8, ((r - cu) mod 8, c - Z.quot (g * tile) 2)). cbn [fst snd].
      pose proof (Z.div_mod (r - cu) 8 ltac:(lia)). pose proof (Z.mod_pos_bound (r - cu) 8 ltac:(lia)).
      assert (0 <= (r - cu) / 8 < turns) by (split; [apply Z.div_pos; lia|apply Z.div_lt_upper_bound; lia]).
      replace (cu + (r - cu) / 8 * 8 + (r - cu) mod 8) with r by lia. replace (Z.quot (g * tile) 2 + (c - Z.quot (g * tile) 2)) with c by lia.
      split_and!; try lia; done.
    + intros [t [i c]] [Ht [Hi Hc]]. cbn [fst snd] in *. exists (cu + t * 8 + i, Z.quot (g * tile) 2 + c). cbn [fst snd]. split_and!; lia.
Qed.

Lemma w13_phase_ok `{ScheduleOk} st : bufs_ok st -> Z.of_nat (length st.2) = N * half ->
  exists st', w13_phase z act input w13 w13_bias worker mp st = Some st' /\ length st'.2 = length st.2 /\
    forall s c, 0 <= s < N -> 0 <= c < half ->
      rd st'.2 (dest z topk_id s * half + c) = Some (hidden (at_ topk_id s) (s / topk_num z) c).
Proof.
  intros Hst Lst. unfold w13_phase, parallel_for. change (Z.quot (O13 + tile - 1) tile) with (tiles O13 tile).
  set (tpe := tiles O13 tile). destruct (w13_tile_ok z) as [Htile [ta Hta]].
  assert (O13 = half * 2) as Ehalf by (apply quot_half; [destruct DO as [b ->]; exists (b * 32); lia|done]).
  assert (tile = Z.quot tile 2 * 2) as Eth by (apply quot_half; [exists (ta * 32); lia|lia]).
  assert (forall g, 0 <= g < tpe -> width O13 tile g = Z.quot (width O13 tile g) 2 * 2 /\ width O13 tile g <= tile /\ g * tile + width O13 tile g <= O13) as Hwidth.
  { intros g Hg. destruct (width_spec O13 tile 64) with (g := g) as (Hw & [q Hq] & Hend); [lia|lia|by exists ta|done|done|done|].
    split; [|lia]. apply quot_half; [exists (q * 32); lia|lia]. }
  destruct (for_each_stores (fun st => st.2) bufs_ok (schedule (tpe * E)) (w13_task z act input w13 w13_bias worker mp)
    (rect z topk_id tpe (Z.quot tile 2) (fun g => Z.quot (width O13 tile g) 2)) (fun _ y => y.1 * half + y.2)
    (fun t y => hidden (t / tpe) (row_token y.1) y.2) st) as (st' & Ef & _ & Wt).
  - apply NoDup_schedule.
  - intros t t' y y' Ht%elem_of_schedule Ht'%elem_of_schedule Hy Hy'. apply (rect_inj z topk_id HT Hk HN Hlen tpe half (Z.quot tile 2) (fun g => Z.quot (width O13 tile g) 2));
      [nia|lia| |done|done|done|done]. intros g Hg. pose proof (Hwidth g Hg). nia.
  - done.
  - intros t s Ht%elem_of_schedule Hs Ls _. apply w13_task_ok; [done|done|by rewrite Ls].
  - exists st'. split; [exact Ef|]. split; [exact (stores_length _ _ _ _ _ Wt)|]. intros s c Hs Hc.
    destruct (column_tile O13 tile 64) with (c := c * 2) as (Hg & Hm & Hcol); [lia..|]. fold tpe in Hg. set (g := c * 2 / tile) in *.
    pose proof (Hwidth g Hg).
    destruct (rect_find z topk_id HT Hk HN Hlen Hids tpe (Z.quot tile 2) (fun g => Z.quot (width O13 tile g) 2) s c g Hs Hg) as (Ht & E1 & Hrect); [nia|].
    pose proof (stores_in _ _ _ _ _ Wt (at_ topk_id s * tpe + g, (dest z topk_id s, c))) as V. cbn [fst snd] in V.
    rewrite E1, (proj2 (row_token_ok s Hs)) in V. apply V. split; [by apply elem_of_schedule|done].
Qed.

End First.

(** ** The second product *)

Section Second.
Context {S F : Type} `{FloatOps F} `{ScalarOps S F}.
Context (z : Sizes) (w2 : list S) (w2_bias : option (list S)).
Context (W : Z -> Z -> Z -> S) (Bv : Z -> Z -> S).
Abbreviation I2 := (input_size_2 z).
Abbreviation O2 := (output_size_2 z).
Abbreviation E := (expert_num z).
Abbreviation T := (token_num z).
Abbreviation N := (T * topk_num z).
Abbreviation tile := (w2_n_tile_size z).
Context (HI : 0 <= I2) (HO : 0 <= O2) (DO : (32 | O2)) (Hfit : E * (O2 * I2) < 2147483648).
Context (HW : forall e o j, 0 <= e < E -> 0 <= o < O2 -> 0 <= j < I2 -> rd w2 (e * (O2 * I2) + packed_at I2 o j) = Some (W e o j)).
Context (HBv : forall bs e o, w2_bias = Some bs -> 0 <= e < E -> 0 <= o < O2 -> rd bs (e * O2 + o) = Some (Bv e o)).
Context (topk_id : list Z) (mp : Mapping) (hid : list S) (hin : Z -> S).
Context (HT : 0 <= T) (Hk : 1 <= topk_num z) (HE : 0 <= E) (HN : N < 2147483648).
Context (Hlen : Z.of_nat (length topk_id) = N) (Hids : forall s, 0 <= s < N -> 0 <= at_ topk_id s < E).
Context (Hmp : mapped z topk_id mp).
Context (Hin : forall p, 0 <= p < N * I2 -> rd hid p = Some (hin p)).
Context (HinN : N * I2 < 2147483648) (HoutN : N * O2 < 2147483648) (HEO : E * O2 < 2147483648).

(** A row of the second product, bias included. *)
Definition post (e r o : Z) : F := biased w2_bias (dot (fun j => hin (r * I2 + j)) (W e o) I2) (Bv e o).

Definition w2_turn (e g n cu token_idx : Z) (out : list F) : option (list F) :=
  let m := Z.min MaxMSize (n - token_idx) in
  let turn := Z.quot token_idx MaxMSize in
  for_step 0 (width O2 tile g) NSize (fun i out =>
    let col := Z.quot i NSize in
    let c := i32 (cu * O2) + i32 (g * tile) + turn * (MaxMSize * O2) + col * NSize in
    out ← gemm hid (i32 (cu * I2) + turn * (MaxMSize * I2)) w2
      (i32 (i32 (e * O2) * I2) + i32 (i32 (g * tile) * I2) + col * (NSize * I2)) out c m I2 I2 (WeightOCGroupSize * I2) O2 false;
    add_bias w2_bias out c (i32 (e * O2) + i32 (g * tile) + col * NSize) m O2) out.

Lemma w2_turn_ok e g t out : 0 <= e < E -> 0 <= g < tiles O2 tile -> Z.of_nat (length out) = N * O2 ->
  let cu := base z topk_id e in let n := K topk_id N e in
  0 <= t -> t * 8 < n ->
  exists out', w2_turn e g n cu (t * 8) out = Some out' /\
    stores out out' (fun y : Z * Z => 0 <= y.1 < Z.min 8 (n - t * 8) /\ 0 <= y.2 < width O2 tile g)
      (fun y => (cu + t * 8 + y.1) * O2 + (g * tile + y.2)) (fun y => post e (cu + t * 8 + y.1) (g * tile + y.2)).
Proof.
  intros He Hg Lo cu n Ht Htn. unfold w2_turn. change MaxMSize with 8. change NSize with 32. change WeightOCGroupSize with 16.
  set (m := Z.min 8 (n - t * 8)). destruct (w2_tile_ok z) as [Htile [ta Hta]].
  destruct (width_spec O2 tile 32) with (g := g) as (Hw & [q Hq] & Hend); [lia|lia|by exists ta|done|done|done|].
  set (actual := width O2 tile g) in *.
  assert (base z topk_id (e + 1) = cu + n) as Hnext by (unfold cu, n; by rewrite base_succ by lia).
  pose proof (base_bounds z topk_id HT Hk HE Hids e ltac:(lia)) as Hcu. fold cu in Hcu.
  pose proof (base_bounds z topk_id HT Hk HE Hids (e + 1) ltac:(lia)) as Hcu1.
  assert (0 <= O2 * I2) as HOI by (by apply Z.mul_nonneg_nonneg).
  assert (0 <= e * O2 <= E * O2 - O2) as HeO by (clear -He HO; nia).
  assert (0 <= e * O2 * I2 <= E * (O2 * I2) - O2 * I2) as HeOI by (rewrite <- Z.mul_assoc; revert He HOI; generalize (O2 * I2); clear; nia).
  assert (0 <= g * tile <= O2) as Hgt by (clear -Hg Htile Hend Hw; nia).
  assert (0 <= g * tile * I2 <= O2 * I2) as HgtI by (split; [apply Z.mul_nonneg_nonneg|apply Z.mul_le_mono_nonneg_r]; lia).
  assert (0 <= cu * O2 <= N * O2) as HcO by (split; [apply Z.mul_nonneg_nonneg|apply Z.mul_le_mono_nonneg_r]; lia).
  assert (0 <= cu * I2 <= N * I2) as HcI by (split; [apply Z.mul_nonneg_nonneg|apply Z.mul_le_mono_nonneg_r]; lia).
  rewrite (i32_id (cu * O2)), (i32_id (cu * I2)), (i32_id (e * O2)), (i32_id (e * O2 * I2)), (i32_id (g * tile)), (i32_id (g * tile * I2)) by (unfold is_i32; lia).
  rewrite Z.quot_mul by lia. rewrite (for_step_turns q) by lia.
  set (body := fun (i : Z) (out : list F) => _).
  destruct (for_range_stores (fun o => o) (fun _ => True) q body (fun _ (y : Z * Z) => 0 <= y.1 < m /\ 0 <= y.2 < 32)
    (fun col y => (cu + t * 8 + y.1) * O2 + (g * tile + (col * 32 + y.2))) (fun col y => post e (cu + t * 8 + y.1) (g * tile + (col * 32 + y.2))) out)
    as (out' & Ef & _ & Wt).
  - intros c c' [i j] [i' j'] Hc Hc' [Hi Hj] [Hi' Hj'] Heq. cbn [fst snd] in *.
    assert (cu + t * 8 + i = cu + t * 8 + i') by (apply (row_inj O2 _ _ (g * tile + (c * 32 + j)) (g * tile + (c' * 32 + j'))); lia). lia.
  - done.
  - intros col o Hcol _ Lo' _. unfold body. rewrite Z.quot_mul by lia. unfold post.
    destruct (gemm_bias_ok hid w2 (cu * I2 + t * (8 * I2)) (e * O2 * I2 + g * tile * I2 + col * (32 * I2)) m I2 I2 (16 * I2)
      (fun i j => hin ((cu + t * 8 + i) * I2 + j)) (fun n => W e (g * tile + (col * 32 + n))) w2_bias (e * O2 + g * tile + col * 32)
      (fun n => Bv e (g * tile + (col * 32 + n))) o (cu * O2 + g * tile + t * (8 * O2) + col * 32) O2) as (o' & E1 & W1).
    + lia.
    + done.
    + intros i j Hi Hj. rewrite <- Hin by (apply row_bounds; lia). f_equal. lia.
    + intros h b j Hh Hb Hj. rewrite <- HW by lia. f_equal. rewrite (Z.add_assoc (g * tile)).
      rewrite packed_tile by (done || (exists (g * ta * 2 + col * 2); lia)). lia.
    + intros bs j Hbs Hj. rewrite <- (HBv bs) by (done || lia). f_equal. lia.
    + lia.
    + lia.
    + intros i Hi. rewrite Lo'. pose proof (row_bounds O2 (cu + t * 8 + i) (g * tile + col * 32) N ltac:(lia) ltac:(lia)).
      pose proof (row_bounds O2 (cu + t * 8 + i) (g * tile + col * 32 + 31) N ltac:(lia) ltac:(lia)). lia.
    + exists o'. split; [exact E1|]. split; [done|]. eapply stores_reindex; [| |exact W1].
      * intros [i j] Hy. exists (i, j). cbn [fst snd] in *. split; [done|]. split; [lia|done].
      * intros [i j] Hy. exists (i, j). cbn [fst snd] in *. split; [done|lia].
  - exists out'. split; [exact Ef|]. eapply stores_reindex; [| |exact Wt].
    + intros [i c] [Hi Hc]. cbn [fst snd] in *. exists (c / 32, (i, c mod 32)). cbn [fst snd].
      pose proof (Z.div_mod c 32 ltac:(lia)). pose proof (Z.mod_pos_bound c 32 ltac:(lia)).
      assert (0 <= c / 32 < q) by (split; [apply Z.div_pos; lia|apply Z.div_lt_upper_bound; lia]).
      replace (c / 32 * 32 + c mod 32) with c by lia. split_and!; try lia; done.
    + intros [col [i j]] [Hc [Hi Hj]]. cbn [fst snd] in *. exists (i, col * 32 + j). cbn [fst snd]. split_and!; lia.
Qed.

Lemma w2_task_ok task_id out : 0 <= task_id < tiles O2 tile * E -> Z.of_nat (length out) = N * O2 ->
  exists out', w2_task z w2 w2_bias mp hid task_id out = Some out' /\
    stores out out' (rect z topk_id (tiles O2 tile) tile (width O2 tile) task_id)
      (fun y => y.1 * O2 + y.2) (fun y => post (task_id / tiles O2 tile) y.1 y.2).
Proof.
  intros Htask Lo. set (tpe := tiles O2 tile) in *. assert (1 <= tpe) by nia.
  set (e := task_id / tpe). set (g := task_id mod tpe).
  assert (0 <= g < tpe) as Hg by (apply Z.mod_pos_bound; lia).
  assert (0 <= e < E) as He by (split; [apply Z.div_pos; lia|apply Z.div_lt_upper_bound; lia]).
  unfold w2_task. change (Z.quot (O2 + tile - 1) tile) with tpe.
  rewrite (Z.quot_div_nonneg task_id tpe), (Z.rem_mod_nonneg task_id tpe) by lia. fold e g.
  rewrite (mp_group _ _ _ Hmp e He). cbn [mbind option_bind].
  set (n := K topk_id N e). pose proof (K_nonneg topk_id N e) as Hn0. fold n in Hn0.
  assert (base z topk_id (e + 1) = base z topk_id e + n) as Hnext by (unfold n; by rewrite base_succ by lia).
  destruct (Z.eqb_spec n 0) as [Hn|Hn].
  { exists out. split; [done|]. eapply stores_reindex; [| |apply (stores_none out (fun _ : unit => 0) (fun _ => zero))]; [|by intros ? []].
    intros y Hy. unfold rect in Hy. fold e in Hy. lia. }
  rewrite (mp_cu _ _ _ Hmp) by lia. cbn [mbind option_bind]. set (cu := base z topk_id e) in *.
  change (for_step 0 n MaxMSize _ out) with (for_step 0 n 8 (w2_turn e g n cu) out).
  set (turns := (n + 7) / 8). assert (0 <= turns /\ (turns - 1) * 8 < n /\ n <= turns * 8) as (Ht0 & Ht1 & Ht2).
  { unfold turns. pose proof (Z.div_mod (n + 7) 8 ltac:(lia)). pose proof (Z.mod_pos_bound (n + 7) 8 ltac:(lia)). lia. }
  rewrite (for_step_turns turns) by lia.
  destruct (for_range_stores (fun o => o) (fun _ => True) turns (fun t => w2_turn e g n cu (t * 8))
    (fun t (y : Z * Z) => 0 <= y.1 < Z.min 8 (n - t * 8) /\ 0 <= y.2 < width O2 tile g)
    (fun t y => (cu + t * 8 + y.1) * O2 + (g * tile + y.2))
    (fun t y => post e (cu + t * 8 + y.1) (g * tile + y.2)) out) as (out' & Ef & _ & Wt).
  - intros t t' [i c] [i' c'] Ht Ht' [Hi Hc] [Hi' Hc'] Heq. cbn [fst snd] in *.
    destruct (w2_tile_ok z) as [Htile Dt]. destruct (width_spec O2 tile 32) with (g := g) as (Hw & _ & Hend); [lia|lia|done|done|done|done|].
    assert (0 <= g * tile) by nia. assert (cu + t * 8 + i = cu + t' * 8 + i') by nia. lia.
  - done.
  - intros t o Ht _ Lo' _. destruct (w2_turn_ok e g t o) as (o' & E1 & W1); [done|done|by rewrite Lo'|lia|fold n; lia|]. by exists o'.
  - exists out'. split; [exact Ef|]. eapply stores_reindex; [| |exact Wt]; unfold rect; fold e g cu; cbn zeta; rewrite Hnext.
    + intros [r c] [Hr Hc]. cbn [fst snd] in *. exists ((r - cu) / 8, ((r - cu) mod 8, c - g * tile)). cbn [fst snd].
      pose proof (Z.div_mod (r - cu) 8 ltac:(lia)). pose proof (Z.mod_pos_bound (r - cu) 8 ltac:(lia)).
      assert (0 <= (r - cu) / 8 < turns) by (split; [apply Z.div_pos; lia|apply Z.div_lt_upper_bound; lia]).
      replace (cu + (r - cu) / 8 * 8 + (r - cu) mod 8) with r by lia. replace (g * tile + (c - g * tile)) with c by lia.
      split_and!; try lia; done.
    + intros [t [i c]] [Ht [Hi Hc]]. cbn [fst snd] in *. exists (cu + t * 8 + i, g * tile + c). cbn [fst snd]. split_and!; lia.
Qed.

Lemma w2_phase_ok `{ScheduleOk} out : Z.of_nat (length out) = N * O2 ->
  exists out', w2_phase z w2 w2_bias mp hid out = Some out' /\ length out' = length out /\
    forall s o, 0 <= s < N -> 0 <= o < O2 -> rd out' (dest z topk_id s * O2 + o) = Some (post (at_ topk_id s) (dest z topk_id s) o).
Proof.
  intros Lo. unfold w2_phase, parallel_for. change (Z.quot (O2 + tile - 1) tile) with (tiles O2 tile). set (tpe := tiles O2 tile).
  destruct (w2_tile_ok z) as [Htile Dt].
  destruct (for_each_stores (fun o => o) (fun _ => True) (schedule (tpe * E)) (w2_task z w2 w2_bias mp hid)
    (rect z topk_id tpe tile (width O2 tile)) (fun _ y => y.1 * O2 + y.2) (fun t y => post (t / tpe) y.1 y.2) out) as (out' & Ef & _ & Wt).
  - apply NoDup_schedule.
  - intros t t' y y' Ht%elem_of_schedule Ht'%elem_of_schedule Hy Hy'. apply (rect_inj z topk_id HT Hk HN Hlen tpe O2 tile (width O2 tile));
      [nia|lia| |done|done|done|done]. intros g Hg. destruct (width_spec O2 tile 32) with (g := g) as (Hw & _ & Hend); [lia|lia|done|done|done|done|]. lia.
  - done.
  - intros t o Ht%elem_of_schedule _ Lo' _. destruct (w2_task_ok t o Ht) as (o' & E1 & W1); [by rewrite Lo'|]. by exists o'.
  - exists out'. split; [exact Ef|]. split; [exact (stores_length _ _ _ _ _ Wt)|]. intros s o Hs Ho.
    destruct (column_tile O2 tile 32) with (c := o) as (Hg & Hm & Hcol); [lia..|]. fold tpe in Hg. set (g := o / tile) in *.
    destruct (rect_find z topk_id HT Hk HN Hlen Hids tpe tile (width O2 tile) s o g Hs Hg) as (Ht & E1 & Hrect); [lia|].
    pose proof (stores_in _ _ _ _ _ Wt (at_ topk_id s * tpe + g, (dest z topk_id s, o))) as V. cbn [fst snd] in V.
    rewrite E1 in V. apply V. split; [by apply elem_of_schedule|done].
Qed.

End Second.

(** ** The weighted sum *)

Section Third.
Context {S F : Type} `{FloatOps F} `{ScalarOps S F}.
Context (z : Sizes) (skip_weighted : bool) (worker : Z -> Z) (topk_id : list Z) (mp : Mapping) (w2_out w0 : list F) (V : Z -> Z -> F) (wt : Z -> F).
Abbreviation O2 := (output_size_2 z).
Abbreviation T := (token_num z).
Abbreviation k := (topk_num z).
Abbreviation N := (T * k).
Context (HO : 0 <= O2) (DO : (16 | O2)) (HT : 0 <= T) (Hk : 1 <= k) (HN : N < 2147483648).
Context (Hmp : mapped z topk_id mp) (Hskip : skip_weighted = true -> k = 1).
Context (Hdest : forall s, 0 <= s < N -> 0 <= dest z topk_id s < N).
Context (HoutN : N * O2 < 2147483648).
Context (HV : forall s o, 0 <= s < N -> 0 <= o < O2 -> rd w2_out (dest z topk_id s * O2 + o) = Some (V s o)).
Context (Hw0 : skip_weighted = false -> forall s, 0 <= s < N -> rd w0 s = Some (wt s)).
Context (Hwt : skip_weighted = true -> forall s, 0 <= s < N -> wt s = one).
Context (Hworker : forall t, 0 <= worker t < thread_num z).

(** The first choice and [j] more. *)
Definition partial (t o j : Z) : F :=
  foldl (fun acc i => add acc (mul (V (t * k + i) o) (wt (t * k + i)))) (mul (V (t * k) o) (wt (t * k))) (seqZ 1 j).
Definition mixed (t o : Z) : F := partial t o (k - 1).

Lemma partial_succ t o j : 0 <= j -> partial t o (j + 1) = add (partial t o j) (mul (V (t * k + (j + 1)) o) (wt (t * k + (j + 1)))).
Proof.
  intros Hj. unfold partial. replace (seqZ 1 (j + 1)) with (seqZ 1 j ++ [j + 1]); [by rewrite foldl_app|].
  rewrite (seqZ_app 1 j 1) by lia. f_equal. change (seqZ (1 + j) 1) with [0 + (1 + j)]. f_equal. lia.
Qed.

Lemma weighted_ok weights t j i : 0 <= t < T -> 0 <= j < k -> 0 <= i -> i + 16 <= O2 ->
  rd weights (t * k + j) = Some (wt (t * k + j)) ->
  weighted z mp w2_out weights t j i = Some (tab (fun l => mul (V (t * k + j) (i + l)) (wt (t * k + j)))).
Proof.
  intros Ht Hj Hi Hi' Hw. unfold weighted. pose proof (row_bounds k t j T ltac:(lia) ltac:(lia)) as Hs.
  rewrite i32_id by (unfold is_i32; lia). rewrite (mp_index _ _ _ Hmp) by done. cbn [mbind option_bind]. rewrite Hw. cbn [mbind option_bind].
  pose proof (Hdest (t * k + j) Hs). pose proof (row_bounds O2 (dest z topk_id (t * k + j)) i N ltac:(lia) ltac:(lia)).
  rewrite i32_id by (unfold is_i32; lia).
  rewrite (rd_range_tab w2_out _ 16 (fun l => V (t * k + j) (i + l))).
  - cbn [mbind option_bind]. unfold vec_mul, splat, VEC_ELEM_NUM. by rewrite zip_with_tab.
  - lia.
  - intros l Hl. rewrite <- HV by lia. f_equal. lia.
Qed.

Record sum_ok (st : SumState (S := S) (F := F)) : Prop := {
  so_bufs : forall t, 0 <= t < thread_num z -> exists b, rd st.1.1 t = Some b /\ Z.of_nat (length b) = O2;
  so_length : Z.of_nat (length st.1.2) = N;
  so_weights : skip_weighted = false -> st.1.2 = w0
}.

(** The sum of a token in the buffer of a thread, all but the last choice. *)
Lemma ws_sum_ok weights t (ws : list F) : 0 <= t < T -> 1 < k -> Z.of_nat (length ws) = O2 ->
  (forall j, 0 <= j < k -> rd weights (t * k + j) = Some (wt (t * k + j))) ->
  exists ws', (ws ← for_step 0 O2 16 (fun i ws => v ← weighted z mp w2_out weights t 0 i; wr_range ws i v) ws;
    for_range 1 (k - 1) (fun idx => for_step 0 O2 16 (fun i ws =>
      v ← weighted z mp w2_out weights t idx i; sum ← rd_range ws i 16; wr_range ws i (vec_add sum v))) ws) = Some ws' /\ length ws' = length ws /\ forall o, 0 <= o < O2 -> rd ws' o = Some (partial t o (k - 2)).
Proof.
  intros Ht Hk1 Lw Hw. destruct DO as [q Hq].
  destruct (vectors_ok 16 (fun i ws => v ← weighted z mp w2_out weights t 0 i; wr_range ws i v) ws 0 O2 q (fun o => partial t o 0)) as (ws1 & E1 & W1); [lia|done|lia| |].
  { intros g b Hg Lb _. rewrite weighted_ok by (lia || (apply Hw; lia)). cbn [mbind option_bind].
    destruct (wr_range_stores b (g * 16) 16 (fun l => mul (V (t * k + 0) (g * 16 + l)) (wt (t * k + 0)))) as (b' & Eb & Wb); [lia..|].
    exists b'. split; [exact Eb|]. eapply stores_reindex; [| |exact Wb]; intros l Hl; cbn beta in *; exists l; split_and!; try lia.
    unfold partial. cbn. by rewrite Z.add_0_r. }
  rewrite E1. cbn [mbind option_bind].
  destruct (for_range_inv (fun idx ws' => length ws' = length ws /\ forall o, 0 <= o < O2 -> rd ws' o = Some (partial t o (idx - 1))) 1 (k - 1)
    (fun idx => for_step 0 O2 16 (fun i ws => v ← weighted z mp w2_out weights t idx i; sum ← rd_range ws i 16; wr_range ws i (vec_add sum v))) ws1)
    as (ws2 & E2 & L2 & V2).
  - lia.
  - split; [exact (stores_length _ _ _ _ _ W1)|]. intros o Ho. exact (stores_in _ _ _ _ _ W1 o Ho).
  - intros idx b Hidx [Lb Vb].
    destruct (vectors_ok 16 (fun i ws => v ← weighted z mp w2_out weights t idx i; sum ← rd_range ws i 16; wr_range ws i (vec_add sum v)) b 0 O2 q
      (fun o => partial t o idx)) as (b' & Eb & Wb); [lia|done|lia| |].
    + intros g c Hg Lc Hc. rewrite weighted_ok by (lia || (apply Hw; lia)). cbn [mbind option_bind].
      rewrite (rd_range_tab c (g * 16) 16 (fun l => partial t (g * 16 + l) (idx - 1))).
      2: lia. 2: { intros l Hl. rewrite <- Vb by lia. exact (Hc l Hl). }
      cbn [mbind option_bind]. rewrite add_lanes.
      destruct (wr_range_stores c (g * 16) 16 (fun l => add (partial t (g * 16 + l) (idx - 1)) (mul (V (t * k + idx) (g * 16 + l)) (wt (t * k + idx)))))
        as (c' & Ec & Wc); [lia..|]. exists c'. split; [exact Ec|]. eapply stores_reindex; [| |exact Wc]; intros l Hl; cbn beta in *; exists l; split_and!; try lia.
      replace idx with (idx - 1 + 1) at 4 by lia. rewrite partial_succ by lia. by replace (idx - 1 + 1) with idx by lia.
    + exists b'. split; [exact Eb|]. split; [by rewrite (stores_length _ _ _ _ _ Wb)|]. intros o Ho. replace (idx + 1 - 1) with idx by lia.
      exact (stores_in _ _ _ _ _ Wb o Ho).
  - exists ws2. split; [exact E2|]. split; [done|]. intros o Ho. by replace (k - 2) with (k - 1 - 1) by lia; apply V2.
Qed.

(** The last loop: a vector per sixteen columns goes to the output row. *)
Lemma save_row_ok (out : list S) t (body : Z -> list S -> option (list S)) (vecs : Z -> option (list F)) (f : Z -> F) :
  (forall i b, body i b = (v ← vecs i; save_vec b (i32 (t * O2) + i) v)) -> 0 <= t < T -> Z.of_nat (length out) = T * O2 ->
  (forall i, 0 <= i -> i + 16 <= O2 -> vecs i = Some (tab (fun l => f (i + l)))) ->
  exists out', for_step 0 O2 16 body out = Some out' /\
    stores out out' (fun o => 0 <= o < O2) (fun o => t * O2 + o) (fun o => store (f o)).
Proof.
  intros Hbody Ht Lo Hv. destruct DO as [q Hq].
  apply (vectors_ok 16 body out (t * O2) O2 q (fun o => store (f o))); [lia|done|lia|].
  intros g b Hg Lb _. rewrite Hbody, Hv by lia. cbn [mbind option_bind].
  pose proof (row_bounds O2 t (g * 16 + 15) T ltac:(lia) ltac:(lia)). assert (0 <= t * O2) by (apply Z.mul_nonneg_nonneg; lia).
  assert (T * O2 <= N * O2) by (apply Z.mul_le_mono_nonneg_r; [lia|clear -HT Hk; nia]).
  rewrite i32_id by (unfold is_i32; lia).
  destruct (save_vec_stores b (t * O2 + g * 16) (fun l => f (g * 16 + l))) as (b' & E1 & W1); [lia|lia|]. by exists b'.
Qed.

(** Both forms of the sum give the row of the token. *)
Lemma sum_task_ok t st : 0 <= t < T -> sum_ok st -> Z.of_nat (length st.2) = T * O2 ->
  exists st', sum_task z skip_weighted worker mp w2_out t st = Some st' /\ sum_ok st' /\
    stores st.2 st'.2 (fun o => 0 <= o < O2) (fun o => t * O2 + o) (fun o => store (mixed t o)) /\
    stores st.1.2 st'.1.2 (fun _ : unit => skip_weighted = true) (fun _ => t * k) (fun _ => one).
Proof.
  intros Ht [Hb Lw Hw] Lo. destruct st as [[bufs weights] out]. cbn [fst snd] in *. unfold sum_task.
  pose proof (row_bounds k t 0 T ltac:(lia) ltac:(lia)) as Hs. rewrite Z.add_0_r in Hs. rewrite (i32_id (t * k)) by (unfold is_i32; lia).
  assert (exists weights', (if skip_weighted then wr weights (t * k) one else Some weights) = Some weights' /\
    stores weights weights' (fun _ : unit => skip_weighted = true) (fun _ => t * k) (fun _ => one) /\
    (forall j, 0 <= j < k -> rd weights' (t * k + j) = Some (wt (t * k + j))) /\ (skip_weighted = false -> weights' = w0))
    as (weights' & Ew & Ws & Vw & Hw').
  { destruct skip_weighted.
    - destruct (wr_stores weights (t * k) one) as (w' & -> & W); [lia|]. exists w'. split; [done|].
      split; [by eapply stores_reindex; [| |exact W]; intros u _; exists u|]. split; [|done].
      intros j Hj. rewrite Hwt by (done || lia). specialize (Hskip eq_refl). assert (j = 0) as -> by lia. rewrite Z.add_0_r. by apply (stores_in _ _ _ _ _ W tt).
    - exists weights. split; [done|]. split; [by constructor|]. split; [|done]. intros j Hj. rewrite Hw by done. apply Hw0; [done|].
      apply row_bounds; lia. }
  rewrite Ew. cbn [mbind option_bind]. pose proof (stores_length _ _ _ _ _ Ws) as Lw'.
  destruct (Z.ltb_spec 1 k) as [Hk1|Hk1].
  - destruct (Hb (worker t) (Hworker t)) as (ws & Er & Lws). rewrite Er. cbn [mbind option_bind].
    destruct (ws_sum_ok weights' t ws Ht Hk1 Lws Vw) as (ws2 & (ws1 & E1 & E2)%bind_Some & L2 & V2). rewrite E1. cbn [mbind option_bind]. rewrite E2.
    cbn [mbind option_bind].
    set (body := fun (i : Z) (out : list S) => _).
    destruct (save_row_ok out t body (fun i => v ← weighted z mp w2_out weights' t (k - 1) i; sum ← rd_range ws2 i 16; Some (vec_add sum v)) (mixed t))
      as (out' & E3 & W3); [|done|done| |].
    { intros i b. unfold body. destruct (weighted z mp w2_out weights' t (k - 1) i); [|done]. cbn [mbind option_bind]. by destruct (rd_range ws2 i 16). }
    { intros i Hi Hi'. rewrite weighted_ok by (lia || (apply Vw; lia)). cbn [mbind option_bind].
      rewrite (rd_range_tab ws2 i 16 (fun l => partial t (i + l) (k - 2))) by (lia || (intros l Hl; apply V2; lia)). cbn [mbind option_bind].
      rewrite add_lanes. unfold mixed. f_equal. apply list_fmap_ext. intros _ l _.
      replace (k - 1) with (k - 2 + 1) at 3 by lia. rewrite partial_succ by lia. by replace (k - 2 + 1) with (k - 1) by lia. }
    rewrite E3. cbn [mbind option_bind]. destruct (wr_ok bufs (worker t) ws2) as (bufs' & Eb & Lb & Vb & U); [by apply (rd_Some _ _ _ Er)|].
    rewrite Eb. cbn [mbind option_bind]. eexists. split; [done|]. split; [|done].
    constructor; cbn [fst snd]; [|lia|done]. intros t' Ht'. destruct (decide (t' = worker t)) as [->|Hne].
    + exists ws2. split; [done|lia].
    + rewrite U by done. by apply Hb.
  - destruct (save_row_ok out t (fun i out => v ← weighted z mp w2_out weights' t 0 i; save_vec out (i32 (t * O2) + i) v)
      (weighted z mp w2_out weights' t 0) (mixed t)) as (out' & E3 & W3); [done|done|done| |].
    { intros i Hi Hi'. rewrite weighted_ok by (lia || (apply Vw; lia)). unfold mixed, partial. assert (k - 1 = 0) as -> by lia. by rewrite Z.add_0_r. }
    rewrite E3. cbn [mbind option_bind]. eexists. split; [done|]. split; [|done]. constructor; cbn [fst snd]; [done|lia|done].
Qed.

Lemma sum_phase_ok `{ScheduleOk} st : sum_ok st -> Z.of_nat (length st.2) = T * O2 ->
  exists st', sum_phase z skip_weighted worker mp w2_out st = Some st' /\ length st'.2 = length st.2 /\
    (forall t o, 0 <= t < T -> 0 <= o < O2 -> rd st'.2 (t * O2 + o) = Some (store (mixed t o))) /\
    length st'.1.2 = length st.1.2 /\ (forall s, 0 <= s < N -> rd st'.1.2 s = Some (wt s)).
Proof.
  intros Hst Lo. unfold sum_phase, parallel_for.
  destruct (for_each_stores (fun st => st.2) sum_ok (schedule T) (sum_task z skip_weighted worker mp w2_out) (fun _ o => 0 <= o < O2)
    (fun t o => t * O2 + o) (fun t o => store (mixed t o)) st) as (st' & Ef & Hst' & Wo).
  - apply NoDup_schedule.
  - intros t t' o o' Ht Ht' Ho Ho' Heq. by apply (row_inj O2 t t' o o').
  - done.
  - intros t s Ht%elem_of_schedule Hs Ls _. destruct (sum_task_ok t s) as (s' & E1 & Hs' & W1 & _); [done|done|by rewrite Ls|]. by exists s'.
  - destruct (for_each_stores (fun st => st.1.2) (fun st' => sum_ok st' /\ length st'.2 = length st.2) (schedule T) (sum_task z skip_weighted worker mp w2_out)
      (fun _ (_ : unit) => skip_weighted = true) (fun t _ => t * k) (fun t _ => one) st) as (st2 & Ef2 & _ & Ww).
    + apply NoDup_schedule.
    + intros t t' _ _ Ht Ht' _ _ Heq. apply (row_inj k t t' 0 0); lia.
    + done.
    + intros t s Ht%elem_of_schedule [Hs Lo'] Ls _. destruct (sum_task_ok t s) as (s' & E1 & Hs' & W1 & W2); [done|done|by rewrite Lo'|].
      exists s'. split; [done|]. split; [split; [done|by rewrite (stores_length _ _ _ _ _ W1)]|done].
    + rewrite Ef in Ef2. injection Ef2 as <-. exists st'. split; [exact Ef|]. split; [exact (stores_length _ _ _ _ _ Wo)|]. split.
      * intros t o Ht Ho. apply (stores_in _ _ _ _ _ Wo (t, o)). split; [by apply elem_of_schedule|done].
      * split; [exact (stores_length _ _ _ _ _ Ww)|]. intros s Hs. destruct (decide (skip_weighted = true)) as [Hsk|Hsk%not_true_iff_false].
        -- rewrite Hwt by done. specialize (Hskip Hsk). pose proof (stores_in _ _ _ _ _ Ww (s, tt)) as Vs. cbn [fst snd] in Vs.
           rewrite Hskip, Z.mul_1_r in Vs. apply Vs. split; [apply elem_of_schedule; lia|done].
        -- rewrite (so_weights _ Hst' Hsk). by apply Hw0.
Qed.

End Third.

(** ** The layer *)

Section Reference.
Context {S F : Type} `{FloatOps F} `{ScalarOps S F}.

Context (z : Sizes) (act : FusedMOEAct) (skip_weighted : bool).
Context (input w13 w2 : list S) (w13_bias w2_bias : option (list S)) (topk_weights : list F) (topk_id : list Z).
Abbreviation I13 := (input_size_13 z).
Abbreviation O13 := (output_size_13 z).
Abbreviation I2 := (input_size_2 z).
Abbreviation O2 := (output_size_2 z).
Abbreviation T := (token_num z).
Abbreviation k := (topk_num z).
Abbreviation E := (expert_num z).

(** Element [(e, o, j)] of a tensor of [E] matrices, and of an optional bias. *)
Definition cube (a : list S) (O I e o j : Z) : S := elem a (e * (O * I) + (o * I + j)).
Definition bias_at (b : option (list S)) (O e o : Z) : S := elem (default [] b) (e * O + o).

(** What expert [e] makes of token [t]: both products, the activation between them. *)
Definition expert_hidden (e t n : Z) : S :=
  hidden z act w13_bias (cube w13 O13 I13) (bias_at w13_bias O13) (elem input) e t n.
Definition expert_out (e t o : Z) : F :=
  biased w2_bias (dot (expert_hidden e t) (cube w2 O2 I2 e o) I2) (bias_at w2_bias O2 e o).

Definition slot_weight (s : Z) : F := if skip_weighted then one else default zero (rd topk_weights s).

(** The layer: per token and column, the weighted sum over the experts of the token. *)
Definition moe_at (t o : Z) : S :=
  store (mixed z (fun s o => expert_out (at_ topk_id s) (s / k) o) slot_weight t o).
Definition moe_layer : list S := (fun p => moe_at (p / O2) (p mod O2)) <$> seqZ 0 (T * O2).
Definition moe_weights : list F := slot_weight <$> seqZ 0 (T * k).

End Reference.

Section Whole.
Context {S F : Type} `{FloatOps F} `{ScalarOps S F} {order : Schedule} {order_ok : @ScheduleOk order}.

Lemma prepack_ok (weight packed : list S) n O I isa isa_type : 0 <= n -> 0 <= O -> 0 <= I -> (32 | O) ->
  get_isa isa = Ok isa_type -> isa_type = AMX \/ isa_type = VEC \/ isa_type = VSX ->
  Z.of_nat (length weight) = n * (O * I) -> Z.of_nat (length packed) = n * (O * I) ->
  exists packed', prepack_moe_weight weight packed n O I isa = Some (Ok packed') /\
    forall e o j, 0 <= e < n -> 0 <= o < O -> 0 <= j < I -> rd packed' (e * (O * I) + packed_at I o j) = Some (cube weight O I e o j).
Proof.
  intros Hn HO HI DO Hisa Htype Lw Lp. destruct DO as [q Hq]. unfold prepack_moe_weight.
  rewrite (proj2 (Z.eqb_eq (Z.rem O 32) 0)) by (rewrite Hq; apply Z.rem_mul; lia). cbn [negb]. rewrite Hisa. unfold prepack_moe_weight_impl.
  assert (0 <= O * I) as HOI by (by apply Z.mul_nonneg_nonneg).
  set (body := fun (e_idx : Z) (packed : list S) => _). unfold parallel_for.
  destruct (for_each_stores (fun c => c) (fun _ => True) (schedule n) body (fun _ (y : Z * Z) => 0 <= y.1 < O /\ 0 <= y.2 < I)
    (fun e y => e * (O * I) + packed_at I y.1 y.2) (fun e y => cube weight O I e y.1 y.2) packed) as (p' & Ef & _ & W).
  - apply NoDup_schedule.
  - intros e e' y y' _ _ [Hy Hy2] [Hy' Hy2'] Heq. assert ((16 | O)) as D16 by (exists (q * 2); lia).
    apply (row_inj (O * I) e e' (packed_at I y.1 y.2) (packed_at I y'.1 y'.2)); [by apply packed_at_bound..|done].
  - done.
  - intros e c He%elem_of_schedule _ Lc _. pose proof (row_bounds (O * I) e 0 n He) as Hrow. unfold body.
    assert (e * (O * I) + O * I <= n * (O * I)) as Hend by (clear -He HOI; nia).
    assert (0 <= e * (O * I)) by (apply Z.mul_nonneg_nonneg; lia).
    destruct (pack_weight_ok weight c (O * I * e) (O * I * e) O I (cube weight O I e)) as (c' & E1 & W1); [done|done|exists (q * 2); lia|lia|lia| |].
    + intros o i Ho Hi. unfold cube. rewrite <- rd_elem; [f_equal; lia|]. pose proof (row_bounds I o i O Ho Hi). lia.
    + rewrite E1. cbn [mbind option_bind]. exists c'. split; [done|]. split; [done|]. eapply stores_reindex; [| |exact W1]; intros y Hy; cbn beta in *; exists y; split_and!; lia || done.
  - exists p'. destruct Htype as [-> | [-> | ->]]; cbn [isa_dispatch]; rewrite Ef; (split; [done|]); intros e o j He Ho Hj;
      apply (stores_in _ _ _ _ _ W (e, (o, j))); (split; [by apply elem_of_schedule|done]).
Qed.

(** ** What the layer needs *)

Record sizes_ok (z : Sizes) : Prop := {
  sz_tokens : 0 <= token_num z;
  sz_topk : 1 <= topk_num z;
  sz_experts : 0 <= expert_num z;
  sz_in : 1 <= input_size_13 z;
  sz_mid : 1 <= output_size_13 z;
  sz_out : 0 <= output_size_2 z;
  sz_mid_tiles : (64 | output_size_13 z);
  sz_out_tiles : (32 | output_size_2 z);
  sz_half : Z.quot (output_size_13 z) 2 = input_size_2 z;
  (** rows of the input are whole pieces of 64 bytes *)
  sz_piece : 1 <= Z.quot 64 (sizeof_scalar z);
  sz_rows : (Z.quot 64 (sizeof_scalar z) | input_size_13 z);
  (** element offsets fit [int32_t] *)
  sz_w13 : expert_num z * (output_size_13 z * input_size_13 z) < 2147483648;
  sz_w2 : expert_num z * (output_size_2 z * input_size_2 z) < 2147483648;
  sz_input : token_num z * input_size_13 z < 2147483648;
  sz_hidden : token_num z * topk_num z * input_size_2 z < 2147483648;
  sz_rows2 : token_num z * topk_num z * output_size_2 z < 2147483648
}.

Record routed (z : Sizes) (topk_id : list Z) : Prop := {
  ro_length : Z.of_nat (length topk_id) = token_num z * topk_num z;
  ro_expert : forall s, 0 <= s < token_num z * topk_num z -> 0 <= at_ topk_id s < expert_num z
}.

Record tensors_ok (z : Sizes) (input w13 w2 : list S) (w13_bias w2_bias : option (list S)) (topk_weights : list F) : Prop := {
  te_input : Z.of_nat (length input) = token_num z * input_size_13 z;
  te_w13 : Z.of_nat (length w13) = expert_num z * (output_size_13 z * input_size_13 z);
  te_w2 : Z.of_nat (length w2) = expert_num z * (output_size_2 z * input_size_2 z);
  te_bias13 : forall b, w13_bias = Some b -> Z.of_nat (length b) = expert_num z * output_size_13 z;
  te_bias2 : forall b, w2_bias = Some b -> Z.of_nat (length b) = expert_num z * output_size_2 z;
  te_weights : Z.of_nat (length topk_weights) = token_num z * topk_num z
}.

(** The sizes of the scratch buffers; their contents do not matter. *)
Record scratch_ok (z : Sizes) (scratch : Scratch S F) : Prop := {
  sc_mapping : mapping_sized z (mapping scratch);
  sc_bufs : bufs_ok z ((w13_input_buffers scratch, w13_output_buffers scratch), w13_gemm_output scratch);
  sc_w13_out : Z.of_nat (length (w13_gemm_output scratch)) = token_num z * topk_num z * Z.quot (output_size_13 z) 2;
  sc_w2_out : Z.of_nat (length (w2_gemm_output scratch)) = token_num z * topk_num z * output_size_2 z;
  sc_ws : forall t, 0 <= t < thread_num z -> exists b, rd (ws_output_buffers scratch) t = Some b /\ Z.of_nat (length b) = output_size_2 z
}.

(** The three phases on packed weights compute the layer. *)
Lemma fused_moe_impl_ok z act skip w13_worker ws_worker input w13 w2 p13 p2 w13_bias w2_bias topk_weights topk_id scratch output :
  sizes_ok z -> routed z topk_id -> tensors_ok z input w13 w2 w13_bias w2_bias topk_weights -> scratch_ok z scratch ->
  Z.of_nat (length output) = token_num z * output_size_2 z -> (skip = true -> topk_num z = 1) ->
  (forall t, 0 <= w13_worker t < thread_num z) -> (forall t, 0 <= ws_worker t < thread_num z) ->
  (forall e o j, 0 <= e < expert_num z -> 0 <= o < output_size_13 z -> 0 <= j < input_size_13 z ->
    rd p13 (e * (output_size_13 z * input_size_13 z) + packed_at (input_size_13 z) o j) = Some (cube w13 (output_size_13 z) (input_size_13 z) e o j)) ->
  (forall e o j, 0 <= e < expert_num z -> 0 <= o < output_size_2 z -> 0 <= j < input_size_2 z ->
    rd p2 (e * (output_size_2 z * input_size_2 z) + packed_at (input_size_2 z) o j) = Some (cube w2 (output_size_2 z) (input_size_2 z) e o j)) ->
  fused_moe_impl z act skip w13_worker ws_worker input p13 p2 w13_bias w2_bias topk_weights topk_id scratch output
    = Some (Ok (moe_layer z act skip input w13 w2 w13_bias w2_bias topk_weights topk_id, moe_weights z skip topk_weights)).
Proof.
  intros [HT Hk HE HI13 HO13 HO2 D13 D2 Hhalf Hp Dp F13 F2 Fin Fh Fr] [Hlen Hids] [Lin L13 L2 Lb13 Lb2 Lw] [Sm Sb So13 So2 Sws] Lout Hskip Hw1 Hw2 HP13 HP2.
  unfold fused_moe_impl. change min_w13_n_tile_size with 64. change NSize with 32.
  rewrite (proj2 (Z.eqb_eq (Z.rem (output_size_13 z) 64) 0)) by (destruct D13 as [d ->]; apply Z.rem_mul; lia).
  rewrite (proj2 (Z.eqb_eq (Z.rem (output_size_2 z) 32) 0)) by (destruct D2 as [d ->]; apply Z.rem_mul; lia).
  rewrite (proj2 (Z.eqb_eq _ _) Hhalf). cbn [negb].
  assert (32 <= input_size_2 z) as HI2 by (rewrite <- Hhalf; apply Z.quot_le_lower_bound; [lia|]; destruct D13; lia).
  set (N := token_num z * topk_num z) in *. assert (0 <= N) as HN0 by (apply Z.mul_nonneg_nonneg; lia).
  assert (N < 2147483648) as HN by (clear -HN0 HI2 Fh; nia).
  assert (expert_num z * output_size_2 z < 2147483648) as HEO by (clear -HE HO2 HI2 F2; nia).
  destruct (prepare_mapping_ok z topk_id HT Hk HE HN Hlen Hids (mapping scratch) Sm) as (mp & -> & Hmp). cbn [mbind option_bind].
  destruct (w13_phase_ok z act p13 w13_bias (cube w13 (output_size_13 z) (input_size_13 z)) (bias_at w13_bias (output_size_13 z)) ltac:(lia) ltac:(lia) D13 F13 HP13)
    with (input := input) (xin := elem input) (worker := w13_worker) (topk_id := topk_id) (mp := mp)
      (H1 := order) (H2 := order_ok) (st := ((w13_input_buffers scratch, w13_output_buffers scratch), w13_gemm_output scratch)) as ([bufs hid] & -> & Lh & Vh); try done.
  { intros bs e o -> He Ho. unfold bias_at. cbn [from_option id]. apply rd_elem. rewrite (Lb13 bs eq_refl). by apply row_bounds. }
  { intros p Hpp. apply rd_elem. lia. }
  { by rewrite Hhalf. }
  cbn [mbind option_bind snd] in *. rewrite Hhalf in *.
  destruct (w2_phase_ok z p2 w2_bias (cube w2 (output_size_2 z) (input_size_2 z)) (bias_at w2_bias (output_size_2 z)) ltac:(lia) HO2 D2 F2 HP2)
    with (topk_id := topk_id) (mp := mp) (hid := hid) (hin := elem hid) (H1 := order) (H2 := order_ok) (out := w2_gemm_output scratch) as (w2o & -> & Lo & Vo); try done.
  { intros bs e o -> He Ho. unfold bias_at. cbn [from_option id]. apply rd_elem. rewrite (Lb2 bs eq_refl). by apply row_bounds. }
  { intros p Hpp. apply rd_elem. lia. }
  cbn [mbind option_bind].
  pose proof (dest_bounds z topk_id HT Hk HE Hids) as Hdest.
  destruct (sum_phase_ok z skip ws_worker topk_id mp w2o topk_weights
      (fun s o => expert_out z act input w13 w2 w13_bias w2_bias (at_ topk_id s) (s / topk_num z) o) (slot_weight skip topk_weights))
    with (H1 := order) (H2 := order_ok) (st := ((ws_output_buffers scratch, topk_weights), output)) as ([[bufs' weights] out] & -> & Lo' & Vout & Lw' & Vw); try done.
  - destruct D2 as [d ->]. exists (d * 2). lia.
  - intros s o Hs Ho. rewrite Vo by done. unfold post, expert_out. do 2 f_equal. apply dot_ext. intros j Hj. split; [|done].
    specialize (Vh s j Hs Hj). unfold elem. by rewrite Vh.
  - intros -> s Hs. unfold slot_weight. destruct (rd_is_Some topk_weights s) as [x ->]; [lia|done].
  - intros -> s Hs. done.
  - cbn [mbind option_bind fst snd] in *. do 2 f_equal. f_equal.
    + apply list_tab; [lia|]. intros p Hpp. assert (0 < output_size_2 z) as HO2p by (clear -HO2 HT Hpp; nia).
      rewrite (Z.div_mod p (output_size_2 z)) at 1 by lia. rewrite (Z.mul_comm (output_size_2 z)). apply Vout.
      * split; [apply Z.div_pos; lia|apply Z.div_lt_upper_bound; lia].
      * apply Z.mod_pos_bound. lia.
    + apply list_tab; [lia|]. done.
Qed.

(** The instruction sets of a portable build. *)
Definition portable (isa : string) : Prop := isa = "amx"%string \/ isa = "vec"%string \/ isa = "vsx"%string.

Lemma portable_isa isa : portable isa -> exists isa_type, get_isa isa = Ok isa_type /\ (isa_type = AMX \/ isa_type = VEC \/ isa_type = VSX).
Proof. intros [-> | [-> | ->]]; eexists; (split; [reflexivity|]); tauto. Qed.

Lemma isa_dispatch_portable {A} isa_type (run : option (outcome A)) : isa_type = AMX \/ isa_type = VEC \/ isa_type = VSX ->
  isa_dispatch isa_type run = run.
Proof. by intros [-> | [-> | ->]]. Qed.

(** Tensors of one floating type, 32-bit weights and ids, an input without gaps. *)
Definition layouts_fit (z : Sizes) (y : Layouts) (w13_bias w2_bias : option (list S)) : bool :=
  (input_stride y =? input_size_13 z) && bool_decide (w13_type y ∈ [Float; BFloat16; Half])
  && bool_decide (output_type y = w13_type y) && bool_decide (input_type y = w13_type y) && bool_decide (w2_type y = w13_type y)
  && (bool_decide (w13_bias = None) || bool_decide (w13_bias_type y = w13_type y))
  && (bool_decide (w2_bias = None) || bool_decide (w2_bias_type y = w13_type y))
  && bool_decide (topk_weights_type y = Float) && bool_decide (topk_id_type y = Int).

Lemma fit_stride z y w13_bias w2_bias : layouts_fit z y w13_bias w2_bias = true -> (input_stride y =? input_size_13 z) = true.
Proof. unfold layouts_fit. rewrite !andb_true_iff. tauto. Qed.

Lemma fit_types {A} z y w13_bias w2_bias (run : option (outcome A)) : layouts_fit z y w13_bias w2_bias = true ->
  dispatch_floating_types (w13_type y) (tensor_ptrs y w13_bias w2_bias run) = run.
Proof.
  unfold layouts_fit. rewrite !andb_true_iff, !orb_true_iff, !bool_decide_eq_true. intros ((((((((_ & Hf) & H1) & H2) & H3) & H4) & H5) & H6) & H7).
  unfold tensor_ptrs, data_ptr. rewrite H1, H2, H3, H6, H7, !decide_True by done.
  destruct w13_bias, w2_bias; (destruct H4 as [?|H4]; [done|rewrite ?decide_True by done]) || idtac; (destruct H5 as [?|H5]; [done|rewrite ?decide_True by done]) || idtac;
    set_unfold in Hf; destruct Hf as [-> | [-> | [-> | []]]]; done.
Qed.

(** [C9] On weights packed by [prepack_moe_weight], [cpu_fused_moe] returns the
    mixture-of-experts layer computed directly from its definition (for each token the
    weighted sum over its experts, each expert two products with bias and the gated
    activation between them, every sum in the order of the code), whatever the order of
    the tasks, their threads, the cache size, and the old contents of all buffers; it
    leaves the weights as they are, or sets them to one when they are to be skipped. *)
Theorem fused_moe_spec z y act act_type isa skip w13_worker ws_worker input w13 w2 p13 p2 w13_bias w2_bias topk_weights topk_id scratch output :
  get_act_type act = Ok act_type -> portable isa -> layouts_fit z y w13_bias w2_bias = true ->
  sizes_ok z -> routed z topk_id -> tensors_ok z input w13 w2 w13_bias w2_bias topk_weights -> scratch_ok z scratch ->
  Z.of_nat (length p13) = Z.of_nat (length w13) -> Z.of_nat (length p2) = Z.of_nat (length w2) ->
  Z.of_nat (length output) = token_num z * output_size_2 z -> (skip = true -> topk_num z = 1) ->
  (forall t, 0 <= w13_worker t < thread_num z) -> (forall t, 0 <= ws_worker t < thread_num z) ->
  exists p13' p2',
    prepack_moe_weight w13 p13 (expert_num z) (output_size_13 z) (input_size_13 z) isa = Some (Ok p13') /\
    prepack_moe_weight w2 p2 (expert_num z) (output_size_2 z) (input_size_2 z) isa = Some (Ok p2') /\
    cpu_fused_moe z y act isa skip w13_worker ws_worker input p13' p2' w13_bias w2_bias topk_weights topk_id scratch output
      = Some (Ok (moe_layer z act_type skip input w13 w2 w13_bias w2_bias topk_weights topk_id, moe_weights z skip topk_weights)).
Proof.
  intros Hact Hisa Hy Hz Hr Ht Hs L13 L2 Lo Hskip Hw1 Hw2. destruct (portable_isa isa Hisa) as (isa_type & Ei & Hp).
  destruct Hz as [? ? ? ? ? ? D13 ? Hhalf] eqn:Ez. clear Ez. destruct Ht as [? T13 T2] eqn:Et. clear Et.
  destruct (prepack_ok w13 p13 (expert_num z) (output_size_13 z) (input_size_13 z) isa isa_type) as (q13 & E13 & V13); try done; try lia.
  { destruct D13 as [d ->]. exists (d * 2). lia. }
  destruct (prepack_ok w2 p2 (expert_num z) (output_size_2 z) (input_size_2 z) isa isa_type) as (q2 & E2 & V2); try done; try lia.
  { rewrite <- Hhalf. apply Z.quot_pos; lia. }
  exists q13, q2. split; [exact E13|]. split; [exact E2|]. unfold cpu_fused_moe. rewrite (fit_stride z y w13_bias w2_bias Hy). cbn [negb]. rewrite Hact, Ei.
  assert (skip && negb (topk_num z =? 1) = false) as ->.
  { destruct skip; [|done]. by rewrite (Hskip eq_refl). }
  rewrite isa_dispatch_portable by done. rewrite (fit_types z y w13_bias w2_bias _ Hy). by apply fused_moe_impl_ok.
Qed.

(** What the entry point accepts. *)
Definition accepted (z : Sizes) (y : Layouts) (w13_bias w2_bias : option (list S)) (act isa : string) (skip_weighted : bool) : bool :=
  layouts_fit z y w13_bias w2_bias
  && bool_decide (act ∈ ["silu"; "swigluoai"; "gelu"; "gelu_tanh"]%string) && bool_decide (isa ∈ ["amx"; "vec"; "vsx"]%string)
  && (negb skip_weighted || (topk_num z =? 1)) && (Z.rem (output_size_13 z) 64 =? 0) && (Z.rem (output_size_2 z) 32 =? 0)
  && (Z.quot (output_size_13 z) 2 =? input_size_2 z).

Lemma impl_throws z act skip w13_worker ws_worker input w13 w2 w13_bias w2_bias topk_weights topk_id scratch output :
  (exists msg, fused_moe_impl z act skip w13_worker ws_worker input w13 w2 w13_bias w2_bias topk_weights topk_id scratch output = Some (Throw msg))
  <-> (Z.rem (output_size_13 z) 64 =? 0) && ((Z.rem (output_size_2 z) 32 =? 0) && (Z.quot (output_size_13 z) 2 =? input_size_2 z)) = false.
Proof.
  unfold fused_moe_impl. change min_w13_n_tile_size with 64. change NSize with 32.
  destruct (Z.rem (output_size_13 z) 64 =? 0); cbn [negb andb]; [|split; [done|by eexists]].
  destruct (Z.rem (output_size_2 z) 32 =? 0); cbn [negb andb]; [|split; [done|by eexists]].
  destruct (Z.quot (output_size_13 z) 2 =? input_size_2 z); cbn [negb andb]; [|split; [done|by eexists]].
  split; [|done]. intros [msg (mp & _ & Hm)%bind_Some]. apply bind_Some in Hm as ([? w13_out] & _ & Hm).
  apply bind_Some in Hm as (w2_out & _ & Hm). apply bind_Some in Hm as ([[? weights] out] & _ & [=]).
Qed.

(** A layout that does not fit is refused, by the dispatch or by a pointer. *)
Lemma misfit_throws {A} z y w13_bias w2_bias (run : option (outcome A)) : (input_stride y =? input_size_13 z) = true ->
  layouts_fit z y w13_bias w2_bias = false -> exists msg, dispatch_floating_types (w13_type y) (tensor_ptrs y w13_bias w2_bias run) = Some (Throw msg).
Proof.
  intros Hs. unfold layouts_fit. rewrite Hs. cbn [andb]. intros Hm. destruct (decide (w13_type y ∈ [Float; BFloat16; Half])) as [Hf|Hf].
  2: { set_unfold in Hf. destruct (w13_type y); [tauto..| |]; by eexists. }
  assert (dispatch_floating_types (w13_type y) (tensor_ptrs y w13_bias w2_bias run) = tensor_ptrs y w13_bias w2_bias run) as ->.
  { set_unfold in Hf. destruct Hf as [-> | [-> | [-> | []]]]; done. }
  rewrite bool_decide_eq_true_2 in Hm by done. cbn [andb] in Hm. unfold tensor_ptrs, data_ptr. cbv zeta.
  destruct (decide (output_type y = w13_type y)); [|by eexists]. destruct (decide (input_type y = w13_type y)); [|by eexists].
  rewrite (decide_True (P := w13_type y = w13_type y)) by done. destruct (decide (w2_type y = w13_type y)); [|by eexists].
  rewrite !bool_decide_eq_true_2 in Hm by done. cbn [andb] in Hm.
  destruct w13_bias as [b13|]; destruct (decide (w13_bias_type y = w13_type y)); destruct w2_bias as [b2|]; destruct (decide (w2_bias_type y = w13_type y));
    cbn [id]; try (by eexists); destruct (decide (topk_weights_type y = Float)); try (by eexists); destruct (decide (topk_id_type y = Int)); try (by eexists);
    repeat match goal with E : ?a = ?b |- _ => rewrite (bool_decide_eq_true_2 (a = b) E) in Hm; clear E end;
    rewrite ?(bool_decide_eq_true_2 (None = None) eq_refl), ?orb_true_r in Hm; done.
Qed.

(** [C35] The entry point refuses a call exactly when the input is strided, the first
    weights are not of a floating type, a tensor that is passed on has another type, the
    activation is not one of the four, the instruction set is not one of a portable
    build, weights are to be skipped with more than one expert per token, or the sizes do
    not match the tiles and each other; nothing has been computed then. *)
Theorem fused_moe_rejects z y act isa skip w13_worker ws_worker input w13 w2 w13_bias w2_bias topk_weights topk_id scratch output :
  (exists msg, cpu_fused_moe z y act isa skip w13_worker ws_worker input w13 w2 w13_bias w2_bias topk_weights topk_id scratch output = Some (Throw msg))
  <-> accepted z y w13_bias w2_bias act isa skip = false.
Proof.
  unfold cpu_fused_moe, accepted. destruct (input_stride y =? input_size_13 z) eqn:Es; cbn [negb].
  2: { unfold layouts_fit. rewrite Es. split; [done|by eexists]. }
  rewrite <- !andb_assoc. unfold get_act_type.
  destruct (decide (act ∈ ["silu"; "swigluoai"; "gelu"; "gelu_tanh"]%string)) as [Ha|Ha].
  2: { rewrite (bool_decide_eq_false_2 (act ∈ _)) by done. cbn [andb]. rewrite andb_false_r. split; [done|intros _].
    set_unfold in Ha. rewrite !(proj2 (String.eqb_neq _ _)) by naive_solver. by eexists. }
  rewrite (bool_decide_eq_true_2 (act ∈ _)) by done. cbn [andb].
  assert (exists a, get_act_type act = Ok a) as [a Ea] by (set_unfold in Ha; naive_solver eauto).
  unfold get_act_type in Ea. rewrite Ea. unfold get_isa.
  destruct (decide (isa ∈ ["amx"; "vec"; "vsx"]%string)) as [Hi|Hi].
  2: { rewrite (bool_decide_eq_false_2 (isa ∈ _)) by done. cbn [andb]. rewrite andb_false_r. split; [done|intros _].
    set_unfold in Hi. rewrite (proj2 (String.eqb_neq isa "amx")), (proj2 (String.eqb_neq isa "vec")), (proj2 (String.eqb_neq isa "vsx")) by naive_solver.
    destruct (String.eqb isa "rvv"), (String.eqb isa "neon"), (skip && negb (topk_num z =? 1)), (w13_type y); eexists; reflexivity. }
  rewrite (bool_decide_eq_true_2 (isa ∈ _)) by done. cbn [andb].
  destruct (portable_isa isa) as (ty & Ei & Hp); [set_unfold in Hi; unfold portable; naive_solver|]. unfold get_isa in Ei. rewrite Ei.
  destruct (skip && negb (topk_num z =? 1)) eqn:Ek.
  { replace (negb skip || (topk_num z =? 1)) with false by (symmetry; destruct skip, (topk_num z =? 1); done). cbn [andb]. rewrite andb_false_r. split; [done|by eexists]. }
  replace (negb skip || (topk_num z =? 1)) with true by (symmetry; destruct skip, (topk_num z =? 1); done). cbn [andb].
  rewrite isa_dispatch_portable by done. destruct (layouts_fit z y w13_bias w2_bias) eqn:Ef; cbn [andb].
  - rewrite (fit_types z) by done. apply impl_throws.
  - split; [done|intros _]. by apply (misfit_throws z).
Qed.

End Whole.

(** ** A small layer *)

Definition sample_sizes : Sizes := {| token_num := 3; expert_num := 2; topk_num := 2; input_size_13 := 16; output_size_13 := 64;
  input_size_2 := 32; output_size_2 := 32; thread_num := 2; cache_size := 65536; sizeof_scalar := 4 |}.

Definition sample_ids : list Z := [1; 0; 1; 1; 0; 1].

Definition sample_scratch : Scratch spec_float spec_float := {|
  mapping := {| token_num_per_group := [9; 9]; cu_token_num_per_group := [9; 9; 9];
    expand_token_id := replicate 6 9; expand_token_id_index := replicate 6 9 |};
  w13_input_buffers := replicate 2 (sample_data 128);
  w13_output_buffers := replicate 2 (sample_data 512);
  w13_gemm_output := sample_data 192;
  w2_gemm_output := sample_data 192;
  ws_output_buffers := replicate 2 (sample_data 32)
|}.

Lemma sample_layer_sizes : sizes_ok sample_sizes.
Proof. constructor; solve [vm_compute; congruence | vm_compute; reflexivity | exists 1; reflexivity]. Defined.

Lemma sample_routed : routed sample_sizes sample_ids.
Proof.
  constructor; [reflexivity|]. intros s Hs. cbn in Hs. assert (s = 0 \/ s = 1 \/ s = 2 \/ s = 3 \/ s = 4 \/ s = 5) as Hc by lia.
  destruct Hc as [-> | [-> | [-> | [-> | [-> | ->]]]]]; vm_compute; intuition congruence.
Defined.

Lemma sample_scratch_ok : scratch_ok sample_sizes sample_scratch.
Proof.
  assert (forall t, 0 <= t < 2 -> t = 0 \/ t = 1) as Htwo by lia.
  constructor; [by constructor| |reflexivity|reflexivity|intros t [-> | ->]%Htwo; eexists; (split; reflexivity)].
  split; intros t [-> | ->]%Htwo; eexists; (split; [reflexivity|]); vm_compute; congruence.
Defined.

(** Half-precision weights and an input without gaps; the same with a strided input. *)
Definition sample_layouts (stride : Z) : Layouts := {| input_stride := stride; output_type := Half; input_type := Half; w13_type := Half; w2_type := Half;
  w13_bias_type := Half; w2_bias_type := Float; topk_weights_type := Float; topk_id_type := Int |}.

Lemma fused_moe_rejects_witness :
  exists msg, @cpu_fused_moe _ _ sample_ops float_scalar backwards sample_sizes (sample_layouts 17) "swigluoai" "vec" false (fun t => t mod 2) (fun _ => 1)
      (sample_data 48) [] [] None None (sample_data 6) sample_ids sample_scratch (replicate 96 S754_nan) = Some (Throw msg).
Proof. apply (@fused_moe_rejects _ _ sample_ops float_scalar backwards sample_sizes (sample_layouts 17)). reflexivity. Defined.

Lemma fused_moe_spec_witness :
  let bias := Some (sample_data 128) in
  exists p13 p2,
    @prepack_moe_weight _ backwards (sample_data 2048) (replicate 2048 S754_nan) 2 64 16 "vec" = Some (Ok p13) /\
    @prepack_moe_weight _ backwards (sample_data 2048) (replicate 2048 S754_nan) 2 32 32 "vec" = Some (Ok p2) /\
    @cpu_fused_moe _ _ sample_ops float_scalar backwards sample_sizes (sample_layouts 16) "swigluoai" "vec" false (fun t => t mod 2) (fun _ => 1)
      (sample_data 48) p13 p2 bias None (sample_data 6) sample_ids sample_scratch (replicate 96 S754_nan)
    = Some (Ok (@moe_layer _ _ sample_ops float_scalar sample_sizes SwigluOAIAndMul false (sample_data 48) (sample_data 2048) (sample_data 2048)
        bias None (sample_data 6) sample_ids, @moe_weights _ sample_ops sample_sizes false (sample_data 6))).
Proof.
  apply (@fused_moe_spec _ _ sample_ops float_scalar backwards backwards_ok sample_sizes (sample_layouts 16) "swigluoai" SwigluOAIAndMul "vec" false (fun t => t mod 2) (fun _ => 1)
    (sample_data 48) (sample_data 2048) (sample_data 2048)).
  - reflexivity.
  - right; left; reflexivity.
  - reflexivity.
  - exact sample_layer_sizes.
  - exact sample_routed.
  - constructor; try (vm_compute; reflexivity); [by intros b [= <-]; vm_compute|done].
  - exact sample_scratch_ok.
  - vm_compute; reflexivity.
  - vm_compute; reflexivity.
  - vm_compute; reflexivity.
  - done.
  - intros t. apply Z.mod_pos_bound. reflexivity.
  - intros t. vm_compute. intuition congruence.
Defined.

End FusedMoe.
