(* ===== verification/Vec8.v ===== *)
(** * Vectors of eight lanes ([FP32Vec8] of [csrc/cpu/cpu_types_scalar.hpp])

    The row kernels convert eight elements at a time; [vec_t<scalar_t>] has eight lanes
    for every element type.  The arithmetic is that of [MicroGemm]. *)

From S2P Require Import Prelude Arrays Counting Stores MicroGemm.

#[local] Open Scope Z_scope.

Module Vec8.
Import Counting MicroGemm.

Section Vec8.
Context {S F : Type} `{FloatOps F} `{ScalarOps S F}.

Definition VEC_ELEM_NUM : Z := 8.
Definition splat (v : F) : list F := (fun _ => v) <$> seqZ 0 VEC_ELEM_NUM.
Definition vec_sub : list F -> list F -> list F := zip_with sub.
Definition load_vec (b : list S) (p : Z) : option (list F) :=
  v ← rd_range b p VEC_ELEM_NUM; Some (map load v).
Definition reduce_sum (v : list F) : F := foldl add zero v.

Lemma load_vec_8 (b : list S) p f : (forall j, 0 <= j < 8 -> rd b (p + j) = Some (f j)) ->
  load_vec b p = Some ((fun j => load (f j)) <$> seqZ 0 8).
Proof.
  intros Hb. unfold load_vec, VEC_ELEM_NUM. rewrite (rd_range_tab b p 8 f) by (lia || done). cbn [mbind option_bind].
  done.
Qed.

Lemma save_vec_8 (d : list S) p (f : Z -> F) : 0 <= p -> p + 8 <= Z.of_nat (length d) ->
  exists d', save_vec d p (f <$> seqZ 0 8) = Some d' /\ stores d d' (fun j => 0 <= j < 8) (fun j => p + j) (fun j => store (f j)).
Proof.
  intros Hp Hl. unfold save_vec. change (map store (f <$> seqZ 0 8)) with (store <$> (f <$> seqZ 0 8)). rewrite fmap_tab.
  by apply (wr_range_stores d p 8 (fun j => store (f j))).
Qed.

End Vec8.

End Vec8.
