(* ===== verification/Norm.v ===== *)
(** * Normalisation ([csrc/cpu/layernorm.cpp])

    Root-mean-square normalisation of the rows of a tensor, plain and fused with the
    addition of a residual.  The sum of squares is kept in eight lanes that are added at
    the end; the order of additions is that of the code, and the rounding to the element
    type happens where the code stores.  Rows are normalised by the iterations of an
    OpenMP loop, in any order. *)

From Stdlib Require Import SpecFloat.
From S2P Require Import Prelude Arrays Counting Stores MicroGemm Vec8.

#[local] Open Scope Z_scope.

Module Norm.
Import Counting MicroGemm Vec8.

Section Kernels.
Context {S F : Type} `{FloatOps F} `{ScalarOps S F} `{Schedule}.

(** The scale of a row: [1.0f / sqrtf(variance.reduce_sum() / (float)hidden_size + epsilon)]. *)
Definition s_variance (hidden_size : Z) (epsilon : F) (variance : list F) : F :=
  div one (sqrt (add (div (reduce_sum variance) (lit hidden_size 1)) epsilon)).

(** Eight scaled elements, times their weights if there are any. *)
Definition scaled (weight : option (list S)) (s : F) (j : Z) (x : list F) : option (list F) :=
  match weight with
  | Some weight => w ← load_vec weight j; Some (vec_mul (vec_mul x (splat s)) w)
  | None => Some (vec_mul x (splat s))
  end.

Definition rms_norm_row (input : list S) (weight : option (list S)) (epsilon : F) (hidden_size i : Z) (out : list S)
    : option (list S) :=
  let p := i32 (i * hidden_size) in
  variance ← for_step 0 hidden_size VEC_ELEM_NUM (fun j variance =>
    x ← load_vec input (p + j);
    Some (vec_add variance (vec_mul x x))) (splat zero);
  let s := s_variance hidden_size epsilon variance in
  for_step 0 hidden_size VEC_ELEM_NUM (fun j out =>
    x ← load_vec input (p + j);
    v ← scaled weight s j x;
    save_vec out (p + j) v) out.

Definition rms_norm (out input : list S) (weight : option (list S)) (epsilon : F) (num_tokens hidden_size : Z)
    : option (outcome (list S)) :=
  if negb (Z.rem hidden_size VEC_ELEM_NUM =? 0) then Some (Throw "hidden_size % VEC_ELEM_NUM == 0") else
  out ← parallel_for num_tokens (rms_norm_row input weight epsilon hidden_size) out;
  Some (Ok out).

(** [input] becomes the result and [residual] the sum. *)
Definition fused_add_row (weight : option (list S)) (epsilon : F) (hidden_size i : Z) (st : list S * list S)
    : option (list S * list S) :=
  let '(input, residual) := st in
  let p := i32 (i * hidden_size) in
  '(residual, variance) ← for_step 0 hidden_size VEC_ELEM_NUM (fun j st =>
    x ← load_vec input (p + j);
    res ← load_vec st.1 (p + j);
    let x := vec_add x res in
    residual ← save_vec st.1 (p + j) x;
    Some (residual, vec_add st.2 (vec_mul x x))) (residual, splat zero);
  let s := s_variance hidden_size epsilon variance in
  input ← for_step 0 hidden_size VEC_ELEM_NUM (fun j input =>
    res ← load_vec residual (p + j);
    v ← scaled weight s j res;
    save_vec input (p + j) v) input;
  Some (input, residual).

Definition fused_add_rms_norm (input residual : list S) (weight : option (list S)) (epsilon : F) (num_tokens hidden_size : Z)
    : option (outcome (list S * list S)) :=
  if negb (Z.rem hidden_size VEC_ELEM_NUM =? 0) then Some (Throw "hidden_size % VEC_ELEM_NUM == 0") else
  st ← parallel_for num_tokens (fused_add_row weight epsilon hidden_size) (input, residual);
  Some (Ok st).

End Kernels.

(** ** The reference *)

Section Reference.
Context {S F : Type} `{FloatOps F} `{ScalarOps S F}.

(** The squares of a row, summed in eight lanes of [n] elements; their mean over the row;
    and one over the square root of the mean plus [epsilon]. *)
Definition lane (x : Z -> F) (n l : Z) : F :=
  foldl (fun acc g => add acc (mul (x (g * 8 + l)) (x (g * 8 + l)))) zero (seqZ 0 n).
Definition mean_square (x : Z -> F) (hidden_size : Z) : F :=
  div (foldl (fun acc l => add acc (lane x (hidden_size / 8) l)) zero (seqZ 0 8)) (lit hidden_size 1).
Definition rms_scale (x : Z -> F) (hidden_size : Z) (epsilon : F) : F :=
  div one (sqrt (add (mean_square x hidden_size) epsilon)).

Definition weigh (weight : option (list S)) (j : Z) (v : F) : F :=
  match weight with Some w => mul v (load (elem w j)) | None => v end.

Context (weight : option (list S)) (epsilon : F) (num_tokens hidden_size : Z).
Abbreviation h := hidden_size.

(** Element [j] of row [i], scaled by the root mean square of the row. *)
Definition rms_at (input : list S) (i j : Z) : S :=
  store (weigh weight j (mul (load (elem input (i * h + j))) (rms_scale (fun j => load (elem input (i * h + j))) h epsilon))).
Definition rms_layer (input : list S) : list S := (fun p => rms_at input (p / h) (p mod h)) <$> seqZ 0 (num_tokens * h).

(** The sum, and its rounding to the element type: the scale is that of the former, the
    elements are those of the latter. *)
Definition sum_at (input residual : list S) (p : Z) : F := add (load (elem input p)) (load (elem residual p)).
Definition sum_layer (input residual : list S) : list S := (fun p => store (sum_at input residual p)) <$> seqZ 0 (num_tokens * h).
Definition fused_at (input residual : list S) (i j : Z) : S :=
  store (weigh weight j (mul (load (store (sum_at input residual (i * h + j))))
    (rms_scale (fun j => sum_at input residual (i * h + j)) h epsilon))).
Definition fused_layer (input residual : list S) : list S :=
  (fun p => fused_at input residual (p / h) (p mod h)) <$> seqZ 0 (num_tokens * h).

End Reference.

Section Correct.
Context {S F : Type} `{FloatOps F} `{ScalarOps S F}.

Lemma lanes_turn (x : Z -> F) q : 0 <= q ->
  let v := (fun l => x (q * 8 + l)) <$> seqZ 0 8 in
  vec_add (lane x q <$> seqZ 0 8) (vec_mul v v) = lane x (q + 1) <$> seqZ 0 8.
Proof.
  intros Hq v. unfold v, vec_mul, vec_add. rewrite !zip_with_tab. apply tab_ext. intros l _.
  unfold lane. by rewrite seqZ_last, foldl_app by done.
Qed.

(** The scale that the code computes from the lanes is the reference's. *)
Lemma s_variance_rms (x : Z -> F) h epsilon :
  s_variance h epsilon (lane x (h / 8) <$> seqZ 0 8) = rms_scale x h epsilon.
Proof. done. Qed.

Context (weight : option (list S)) (epsilon : F) (num_tokens h : Z).
Context (HT : 0 <= num_tokens) (Hh : 0 <= h) (Dh : (8 | h)) (Hfit : num_tokens * h < 2147483648).
Context (Hweight : forall w, weight = Some w -> Z.of_nat (length w) = h).

Lemma row_ptr i : 0 <= i < num_tokens -> i32 (i * h) = i * h /\ 0 <= i * h /\ i * h + h <= num_tokens * h.
Proof.
  intros Hi. assert (0 <= i * h /\ i * h + h <= num_tokens * h) as Hb by (clear -Hi Hh; nia).
  split; [apply i32_id; unfold is_i32; lia|done].
Qed.

Lemma variance_ok (input : list S) p (x : Z -> F) :
  (forall j, 0 <= j < h -> exists v, rd input (p + j) = Some v /\ load v = x j) ->
  for_step 0 h 8 (fun j variance => v ← load_vec input (p + j); Some (vec_add variance (vec_mul v v))) (splat zero)
    = Some (lane x (h / 8) <$> seqZ 0 8).
Proof.
  intros Hx. destruct Dh as [q Hq]. rewrite (for_step_turns q) by lia.
  destruct (for_range_inv (fun t v => v = lane x t <$> seqZ 0 8) 0 q
    (fun t variance => v ← load_vec input (p + t * 8); Some (vec_add variance (vec_mul v v))) (splat zero)) as (v & E & ->).
  - lia.
  - done.
  - intros t v Ht ->. rewrite (load_vec_8 input _ (fun l => elem input (p + (t * 8 + l)))).
    + cbn [mbind option_bind]. eexists. split; [done|]. rewrite <- lanes_turn by lia. do 2 f_equal; apply tab_ext; intros l Hl;
        (destruct (Hx (t * 8 + l)) as (w & Hw & <-); [lia|]; unfold elem; by rewrite Hw).
    + intros j Hj. destruct (Hx (t * 8 + j)) as (w & Hw & _); [lia|]. unfold elem. rewrite Hw. cbn. rewrite <- Hw. f_equal. lia.
  - rewrite E. by rewrite Hq, Z.div_mul by lia.
Qed.

Lemma scale_loop_ok (src dst : list S) p s (x : Z -> F) : 0 <= p -> p + h <= Z.of_nat (length dst) ->
  (forall j, 0 <= j < h -> exists v, rd src (p + j) = Some v /\ load v = x j) ->
  exists dst', for_step 0 h 8 (fun j out => v ← load_vec src (p + j); v ← scaled weight s j v; save_vec out (p + j) v) dst = Some dst' /\
    stores dst dst' (fun j => 0 <= j < h) (fun j => p + j) (fun j => store (weigh weight j (mul (x j) s))).
Proof.
  intros Hp Hl Hx. destruct Dh as [q Hq].
  apply (vectors_ok 8 _ dst p h q (fun j => store (weigh weight j (mul (x j) s)))); [lia|done|lia|].
  intros g b Hg Lb _. rewrite (load_vec_8 src _ (fun l => elem src (p + (g * 8 + l)))).
  2: { intros j Hj. destruct (Hx (g * 8 + j)) as (w & Hw & _); [lia|]. unfold elem. rewrite Hw. cbn. rewrite <- Hw. f_equal. lia. }
  cbn [mbind option_bind].
  assert (scaled weight s (g * 8) ((fun l => load (elem src (p + (g * 8 + l)))) <$> seqZ 0 8)
    = Some ((fun l => weigh weight (g * 8 + l) (mul (x (g * 8 + l)) s)) <$> seqZ 0 8)) as ->.
  { unfold scaled, weigh, splat, VEC_ELEM_NUM. destruct weight as [w|].
    - rewrite (load_vec_8 w _ (fun l => elem w (g * 8 + l))) by (intros j Hj; apply rd_elem; rewrite (Hweight w eq_refl); lia).
      cbn [mbind option_bind]. f_equal. unfold vec_mul. rewrite !zip_with_tab. apply tab_ext. intros l Hl'. destruct (Hx (g * 8 + l)) as (u & Hu & <-); [lia|]. unfold elem at 1. by rewrite Hu.
    - f_equal. unfold vec_mul. rewrite !zip_with_tab. apply tab_ext. intros l Hl'. destruct (Hx (g * 8 + l)) as (u & Hu & <-); [lia|]. unfold elem. by rewrite Hu. }
  cbn [mbind option_bind]. destruct (save_vec_8 b (p + g * 8) (fun l => weigh weight (g * 8 + l) (mul (x (g * 8 + l)) s))) as (b' & E1 & W1); [lia|lia|].
  by exists b'.
Qed.

Lemma row_elem (a : list S) i j : Z.of_nat (length a) = num_tokens * h -> 0 <= i < num_tokens -> 0 <= j < h ->
  rd a (i * h + j) = Some (elem a (i * h + j)).
Proof. intros La Hi Hj. apply rd_elem. rewrite La. by apply row_bounds. Qed.

Lemma rms_norm_row_ok (input out : list S) i : 0 <= i < num_tokens -> Z.of_nat (length input) = num_tokens * h ->
  Z.of_nat (length out) = num_tokens * h ->
  exists out', rms_norm_row input weight epsilon h i out = Some out' /\
    stores out out' (fun j => 0 <= j < h) (fun j => i * h + j) (rms_at weight epsilon h input i).
Proof.
  intros Hi Li Lo. destruct (row_ptr i Hi) as (Ep & Hp & Hp'). unfold rms_norm_row, VEC_ELEM_NUM. rewrite Ep.
  rewrite (variance_ok input (i * h) (fun j => load (elem input (i * h + j)))) by (intros j Hj; eexists; split; [by apply row_elem|done]).
  cbn [mbind option_bind]. rewrite s_variance_rms.
  apply (scale_loop_ok input out (i * h) _ (fun j => load (elem input (i * h + j)))); [done|lia|].
  intros j Hj. eexists. split; [by apply row_elem|done].
Qed.

(** The first loop of the fused kernel. *)
Lemma add_loop_ok (input residual : list S) p (x : Z -> F) : 0 <= p -> p + h <= Z.of_nat (length residual) ->
  (forall j, 0 <= j < h -> exists u v, rd input (p + j) = Some u /\ rd residual (p + j) = Some v /\ add (load u) (load v) = x j) ->
  exists residual', for_step 0 h 8 (fun j st => v ← load_vec input (p + j); res ← load_vec st.1 (p + j); let v := vec_add v res in
      r ← save_vec st.1 (p + j) v; Some (r, vec_add st.2 (vec_mul v v))) (residual, splat zero)
    = Some (residual', lane x (h / 8) <$> seqZ 0 8) /\
    stores residual residual' (fun j => 0 <= j < h) (fun j => p + j) (fun j => store (x j)).
Proof.
  intros Hp Hl Hx. destruct Dh as [q Hq]. rewrite (for_step_turns q) by lia.
  set (body := fun (t : Z) (st : list S * list F) => _).
  destruct (for_range_inv (fun t st => st.2 = lane x t <$> seqZ 0 8 /\
      stores residual st.1 (fun j => 0 <= j < t * 8) (fun j => p + j) (fun j => store (x j))) 0 q body (residual, splat zero)) as ([r v] & E & Ev & W).
  - lia.
  - split; [done|]. constructor; [done|lia|done].
  - intros t [r v] Ht [Ev W]. cbn [fst snd] in *. unfold body. cbn [fst snd].
    rewrite (load_vec_8 input (p + t * 8) (fun l => elem input (p + (t * 8 + l)))).
    2: { intros j Hj. destruct (Hx (t * 8 + j)) as (u & w & Hu & _ & _); [lia|]. unfold elem. rewrite Hu. cbn. rewrite <- Hu. f_equal. lia. }
    cbn [mbind option_bind].
    rewrite (load_vec_8 r (p + t * 8) (fun l => elem residual (p + (t * 8 + l)))).
    2: { intros j Hj. destruct (Hx (t * 8 + j)) as (u & w & _ & Hw & _); [lia|]. unfold elem. rewrite Hw. cbn.
         rewrite <- Z.add_assoc, (stores_out _ _ _ _ _ W) by lia. exact Hw. }
    cbn [mbind option_bind]. cbn zeta.
    assert (vec_add ((fun l => load (elem input (p + (t * 8 + l)))) <$> seqZ 0 8) ((fun l => load (elem residual (p + (t * 8 + l)))) <$> seqZ 0 8)
      = (fun l => x (t * 8 + l)) <$> seqZ 0 8) as ->.
    { unfold vec_add. rewrite zip_with_tab. apply tab_ext. intros l Hl'. destruct (Hx (t * 8 + l)) as (u & w & Hu & Hw & <-); [lia|].
      unfold elem. by rewrite Hu, Hw. }
    destruct (save_vec_8 r (p + t * 8) (fun l => x (t * 8 + l))) as (r' & -> & W'); [lia|rewrite (stores_length _ _ _ _ _ W); lia|].
    cbn [mbind option_bind]. eexists. split; [done|]. cbn [fst snd]. split; [rewrite Ev; apply lanes_turn; lia|].
    eapply stores_reindex; [| |eapply stores_app; [|exact W|exact W']].
    + intros j Hj. destruct (decide (j < t * 8)); [by exists (inl j); split_and!; try lia|].
      exists (inr (j - t * 8)). split_and!; [lia|lia|lia|]. do 2 f_equal. lia.
    + intros [j|j] Hj; [exists j|exists (t * 8 + j)]; split; lia.
    + intros j j' Hj Hj'. cbn beta in *. lia.
  - exists r. cbn [fst snd] in *. split; [replace (h / 8) with q by (rewrite Hq, Z.div_mul; lia); rewrite <- Ev; exact E|]. by rewrite Hq.
Qed.

Lemma fused_add_row_ok (st0 st : list S * list S) i : 0 <= i < num_tokens ->
  Z.of_nat (length st0.1) = num_tokens * h -> Z.of_nat (length st0.2) = num_tokens * h ->
  length st.1 = length st0.1 -> length st.2 = length st0.2 ->
  (forall j, 0 <= j < h -> rd st.1 (i * h + j) = rd st0.1 (i * h + j) /\ rd st.2 (i * h + j) = rd st0.2 (i * h + j)) ->
  exists st', fused_add_row weight epsilon h i st = Some st' /\
    stores st.1 st'.1 (fun j => 0 <= j < h) (fun j => i * h + j) (fused_at weight epsilon h st0.1 st0.2 i) /\
    stores st.2 st'.2 (fun j => 0 <= j < h) (fun j => i * h + j) (fun j => store (sum_at st0.1 st0.2 (i * h + j))).
Proof.
  intros Hi L1 L2 K1 K2 Hkeep. destruct st as [input residual]. cbn [fst snd] in *. destruct (row_ptr i Hi) as (Ep & Hp & Hp').
  unfold fused_add_row, VEC_ELEM_NUM. rewrite Ep.
  destruct (add_loop_ok input residual (i * h) (fun j => sum_at st0.1 st0.2 (i * h + j))) as (r & E1 & W1); [done|lia| |].
  { intros j Hj. destruct (Hkeep j Hj) as [-> ->]. eexists _, _. split; [by apply row_elem|]. split; [by apply row_elem|done]. }
  cbv zeta in E1 |- *. rewrite E1. cbn [mbind option_bind]. rewrite s_variance_rms.
  destruct (scale_loop_ok r input (i * h) (rms_scale (fun j => sum_at st0.1 st0.2 (i * h + j)) h epsilon)
    (fun j => load (store (sum_at st0.1 st0.2 (i * h + j))))) as (input' & E2 & W2); [done|lia| |].
  { intros j Hj. eexists. split; [exact (stores_in _ _ _ _ _ W1 j Hj)|done]. }
  rewrite E2. cbn [mbind option_bind]. eexists. split; [done|]. by cbn [fst snd].
Qed.

End Correct.

Section Theorems.
Context {S F : Type} `{FloatOps F} `{ScalarOps S F} `{ScheduleOk}.

(** Normalisation in eight lanes: every row of the result is the row of the input
    divided by its root mean square and multiplied with the weights, in any order of the
    rows; a row length that is not a multiple of eight is refused. *)
Theorem rms_norm_spec (out input : list S) weight epsilon num_tokens h :
  0 <= num_tokens -> 0 <= h -> num_tokens * h < 2147483648 ->
  Z.of_nat (length input) = num_tokens * h -> Z.of_nat (length out) = num_tokens * h ->
  (forall w, weight = Some w -> Z.of_nat (length w) = h) ->
  rms_norm out input weight epsilon num_tokens h
    = Some (if h mod 8 =? 0 then Ok (rms_layer weight epsilon num_tokens h input) else Throw "hidden_size % VEC_ELEM_NUM == 0").
Proof.
  intros HT Hh Hfit Li Lo Hw. unfold rms_norm. unfold VEC_ELEM_NUM at 1. rewrite Z.rem_mod_nonneg by lia.
  destruct (Z.eqb_spec (h mod 8) 0) as [Hm|Hm]; cbn [negb]; [|done]. assert ((8 | h)) as Dh by (apply Z.mod_divide; lia).
  unfold parallel_for.
  destruct (for_each_stores (fun o => o) (fun _ => True) (schedule num_tokens) (rms_norm_row input weight epsilon h) (fun _ j => 0 <= j < h)
    (fun i j => i * h + j) (rms_at weight epsilon h input) out) as (out' & E & _ & W).
  - apply NoDup_schedule.
  - intros i i' j j' _ _ Hj Hj'. by apply row_inj.
  - done.
  - intros i o Hi%elem_of_schedule _ Ls _. destruct (rms_norm_row_ok weight epsilon num_tokens h Hh Dh Hfit Hw input o i) as (o' & E1 & W1); [done|done|congruence|].
    by exists o'.
  - rewrite E. cbn [mbind option_bind]. do 2 f_equal. apply (flat_rows num_tokens h out' (rms_at weight epsilon h input) HT).
    + by rewrite (stores_length _ _ _ _ _ W).
    + intros i j Hi Hj. apply (stores_in _ _ _ _ _ W (i, j)). split; [by apply elem_of_schedule|done].
Qed.

(** [C31] The fused kernel leaves the sum of input and residual, rounded to the element
    type, in the residual, and in the input the rounded sum times
    [1 / sqrt (mean + epsilon)] and the weights, where [mean] is the mean of the squares
    of the sum before rounding; the rows may run in any order, and a row length that is
    not a multiple of eight is refused. *)
Theorem fused_add_rms_norm_spec (input residual : list S) weight epsilon num_tokens h :
  0 <= num_tokens -> 0 <= h -> num_tokens * h < 2147483648 ->
  Z.of_nat (length input) = num_tokens * h -> Z.of_nat (length residual) = num_tokens * h ->
  (forall w, weight = Some w -> Z.of_nat (length w) = h) ->
  fused_add_rms_norm input residual weight epsilon num_tokens h
    = Some (if h mod 8 =? 0
            then Ok (fused_layer weight epsilon num_tokens h input residual, sum_layer num_tokens h input residual)
            else Throw "hidden_size % VEC_ELEM_NUM == 0").
Proof.
  intros HT Hh Hfit Li Lo Hw. unfold fused_add_rms_norm. unfold VEC_ELEM_NUM at 1. rewrite Z.rem_mod_nonneg by lia.
  destruct (Z.eqb_spec (h mod 8) 0) as [Hm|Hm]; cbn [negb]; [|done]. assert ((8 | h)) as Dh by (apply Z.mod_divide; lia).
  unfold parallel_for.
  destruct (for_each_stores2 fst snd (fun _ => True) (schedule num_tokens) (fused_add_row weight epsilon h)
    (fun _ j => 0 <= j < h) (fun i j => i * h + j) (fused_at weight epsilon h input residual)
    (fun _ j => 0 <= j < h) (fun i j => i * h + j) (fun i j => store (sum_at input residual (i * h + j))) (input, residual))
    as ([input' residual'] & E & _ & W & W').
  - apply NoDup_schedule.
  - intros i i' j j' _ _ Hj Hj'. by apply row_inj.
  - intros i i' j j' _ _ Hj Hj'. by apply row_inj.
  - done.
  - intros i st Hi%elem_of_schedule _ L1 L2 K1 K2.
    destruct (fused_add_row_ok weight epsilon num_tokens h Hh Dh Hfit Hw (input, residual) st i) as (st' & E1 & W1 & W2); try done; [by split; [apply K1|apply K2]|].
    by exists st'.
  - rewrite E. cbn [mbind option_bind fst snd] in *. do 3 f_equal.
    + apply (flat_rows num_tokens h input' (fused_at weight epsilon h input residual) HT).
      * by rewrite (stores_length _ _ _ _ _ W).
      * intros i j Hi Hj. apply (stores_in _ _ _ _ _ W (i, j)). split; [by apply elem_of_schedule|done].
    + apply list_tab; [by rewrite (stores_length _ _ _ _ _ W')|]. intros p Hp. assert (0 < h) as Hpos by (clear -Hh HT Hp; nia).
      pose proof (stores_in _ _ _ _ _ W' (p / h, p mod h)) as V. cbn [fst snd] in V.
      replace (p / h * h + p mod h) with p in V by (rewrite (Z.div_mod p h) at 1 by lia; lia). apply V.
      split; [apply elem_of_schedule; split; [apply Z.div_pos; lia|apply Z.div_lt_upper_bound; lia]|apply Z.mod_pos_bound; lia].
Qed.

End Theorems.

Lemma rms_norm_spec_witness :
  @rms_norm _ _ sample_ops float_scalar backwards (replicate 32 S754_nan) (sample_data 32) (Some (sample_data 16)) (@one _ sample_ops) 2 16
    = Some (Ok (@rms_layer _ _ sample_ops float_scalar (Some (sample_data 16)) (@one _ sample_ops) 2 16 (sample_data 32))).
Proof.
  apply (@rms_norm_spec _ _ sample_ops float_scalar backwards backwards_ok (replicate 32 S754_nan) (sample_data 32) (Some (sample_data 16)) (@one _ sample_ops) 2 16);
    try (vm_compute; congruence). by intros w [= <-].
Defined.

Lemma fused_add_rms_norm_spec_witness :
  @fused_add_rms_norm _ _ sample_ops float_scalar backwards (sample_data 32) (rev (sample_data 32)) None (@one _ sample_ops) 2 16
    = Some (Ok (@fused_layer _ _ sample_ops float_scalar None (@one _ sample_ops) 2 16 (sample_data 32) (rev (sample_data 32)),
        @sum_layer _ _ sample_ops float_scalar 2 16 (sample_data 32) (rev (sample_data 32)))).
Proof.
  apply (@fused_add_rms_norm_spec _ _ sample_ops float_scalar backwards backwards_ok (sample_data 32) (rev (sample_data 32)) None (@one _ sample_ops) 2 16);
    vm_compute; congruence.
Defined.

End Norm.
