(* ===== verification/Activation.v ===== *)
(** * Activations ([csrc/cpu/activation.cpp])

    The element-wise activations, plain and gated: eight elements of a row at a time, the
    rows in any order. *)

From Stdlib Require Import SpecFloat.
From S2P Require Import Prelude Arrays Counting Stores MicroGemm Vec8.

#[local] Open Scope Z_scope.

Module Activation.
Import Counting MicroGemm Vec8.

Section Kernels.
Context {S F : Type} `{FloatOps F} `{ScalarOps S F}.

(** ** The functions, on eight lanes *)

Definition silu_act (x : list F) : list F :=
  vec_div x (vec_add (splat one) (exp <$> vec_sub (splat zero) x)).

Definition gelu_new_act (x : list F) : list F :=
  let x3 := vec_mul (vec_mul x x) x in
  let t := tanh <$> vec_mul (splat (litf 79788456 100000000)) (vec_add x (vec_mul (splat (litf 44715 1000000)) x3)) in
  vec_mul (vec_mul (splat (lit 5 10)) x) (vec_add (splat one) t).

Definition gelu_fast_act (x : list F) : list F :=
  let t := tanh <$> vec_mul (vec_mul x (splat (litf 79788456 100000000)))
    (vec_add (splat one) (vec_mul (vec_mul x (splat (litf 44715 1000000))) x)) in
  vec_mul (vec_mul (splat (lit 5 10)) x) (vec_add (splat one) t).

Definition gelu_quick_act (x : list F) : list F :=
  vec_div x (vec_add (splat one) (exp <$> vec_sub (splat zero) (vec_mul (splat (litf 1702 1000)) x))).

Definition gelu_act (x : list F) : list F :=
  vec_mul (vec_mul x (splat (lit 5 10))) (vec_add (splat one) (erf <$> vec_mul x (splat M_SQRT1_2))).

(** [M_SQRT2 * M_2_SQRTPI * 0.5], a double. *)
Definition gelu_tanh_w1 : F := lit 7186705221432913 (2 ^ 53).

Definition gelu_tanh_act (x : list F) : list F :=
  let x_3 := vec_mul (vec_mul x x) x in
  let inner := vec_mul (splat gelu_tanh_w1) (vec_add x (vec_mul x_3 (splat (lit 44715 1000000)))) in
  vec_mul (vec_mul x (splat (lit 5 10))) (vec_add (splat one) (tanh <$> inner)).

Context `{Schedule}.

Definition activation_kernel (func : list F -> list F) (is_gated : bool) (num_tokens d : Z) (input output : list S)
    : option (outcome (list S)) :=
  if negb (Z.rem d VEC_ELEM_NUM =? 0) then Some (Throw "d % VEC_ELEM_NUM == 0") else
  output ← parallel_for num_tokens (fun i output =>
    for_step 0 d VEC_ELEM_NUM (fun j output =>
      let start := if is_gated then i32 (i32 (i * d) * 2) else i32 (i * d) in
      x ← load_vec input (start + j);
      ans ← (if is_gated then y ← load_vec input (start + d + j); Some (vec_mul y (func x)) else Some (func x));
      save_vec output (i32 (i * d) + j) ans) output) output;
  Some (Ok output).

(** ** The entry points *)

Inductive Op := silu_and_mul | gelu_and_mul | gelu_tanh_and_mul | gelu_tanh | gelu_new | gelu_fast | gelu_quick.

Definition is_gated (op : Op) : bool :=
  match op with silu_and_mul | gelu_and_mul | gelu_tanh_and_mul => true | _ => false end.

Definition func (op : Op) : list F -> list F :=
  match op with
  | silu_and_mul => silu_act
  | gelu_and_mul => gelu_act
  | gelu_tanh_and_mul | gelu_tanh => gelu_tanh_act
  | gelu_new => gelu_new_act
  | gelu_fast => gelu_fast_act
  | gelu_quick => gelu_quick_act
  end.

(** [size] is the last dimension of the input. *)
Definition activate (op : Op) (out input : list S) (size : Z) : option (outcome (list S)) :=
  let num_tokens := Z.quot (Z.of_nat (length input)) size in
  let d := if is_gated op then Z.quot size 2 else size in
  activation_kernel (func op) (is_gated op) num_tokens d input out.

End Kernels.

(** ** One element *)

Section Reference.
Context {S F : Type} `{FloatOps F} `{ScalarOps S F}.

Definition act_at (op : Op) (x : F) : F :=
  match op with
  | silu_and_mul => div x (add one (exp (sub zero x)))
  | gelu_and_mul => mul (mul x (lit 5 10)) (add one (erf (mul x M_SQRT1_2)))
  | gelu_tanh_and_mul | gelu_tanh =>
      mul (mul x (lit 5 10)) (add one (tanh (mul gelu_tanh_w1 (add x (mul (mul (mul x x) x) (lit 44715 1000000))))))
  | gelu_new =>
      mul (mul (lit 5 10) x) (add one (tanh (mul (litf 79788456 100000000) (add x (mul (litf 44715 1000000) (mul (mul x x) x))))))
  | gelu_fast =>
      mul (mul (lit 5 10) x) (add one (tanh (mul (mul x (litf 79788456 100000000)) (add one (mul (mul x (litf 44715 1000000)) x)))))
  | gelu_quick => div x (add one (exp (sub zero (mul (litf 1702 1000) x))))
  end.

(** Element [j] of row [i], for rows of [d] results. *)
Definition result_at (op : Op) (d : Z) (input : list S) (i j : Z) : S :=
  if is_gated op then store (mul (load (elem input (i * (2 * d) + d + j))) (act_at op (load (elem input (i * (2 * d) + j)))))
  else store (act_at op (load (elem input (i * d + j)))).

Definition activated (op : Op) (num_tokens d : Z) (input : list S) : list S :=
  (fun p => result_at op d input (p / d) (p mod d)) <$> seqZ 0 (num_tokens * d).

Lemma func_lanes op (f : Z -> F) : func op (f <$> seqZ 0 8) = (fun l => act_at op (f l)) <$> seqZ 0 8.
Proof.
  destruct op; cbn [func act_at]; unfold silu_act, gelu_act, gelu_tanh_act, gelu_new_act, gelu_fast_act, gelu_quick_act, vec_add, vec_mul,
    vec_div, vec_sub, splat, VEC_ELEM_NUM; repeat rewrite ?fmap_tab, ?zip_with_tab; reflexivity.
Qed.

End Reference.

Section Theorems.
Context {S F : Type} `{FloatOps F} `{ScalarOps S F} `{ScheduleOk}.

(** Eight results. *)
Lemma act_turn_ok op (input output : list S) d num_tokens i g : 0 <= i < num_tokens -> 0 <= d -> 0 <= g -> g * 8 + 8 <= d ->
  let w := if is_gated op then 2 * d else d in
  num_tokens * w < 2147483648 -> Z.of_nat (length input) = num_tokens * w -> Z.of_nat (length output) = num_tokens * d ->
  exists output', (let start := if is_gated op then i32 (i32 (i * d) * 2) else i32 (i * d) in
      x ← load_vec input (start + g * 8);
      ans ← (if is_gated op then y ← load_vec input (start + d + g * 8); Some (vec_mul y (func op x)) else Some (func op x));
      save_vec output (i32 (i * d) + g * 8) ans) = Some output' /\
    stores output output' (fun l => 0 <= l < 8) (fun l => i * d + g * 8 + l) (fun l => result_at op d input i (g * 8 + l)).
Proof.
  intros Hi Hd Hg Hg' w Hfit Li Lo. assert (0 <= i * d /\ i * d + d <= num_tokens * d) as [Hp Hp'] by (clear -Hi Hd; nia).
  assert (forall q, 0 <= q < w -> rd input (i * w + q) = Some (elem input (i * w + q))) as Hin
    by (intros q Hq; apply rd_elem; rewrite Li; by apply row_bounds).
  assert (num_tokens * d <= num_tokens * w) by (apply Z.mul_le_mono_nonneg_l; [lia|unfold w; destruct (is_gated op); lia]).
  rewrite (i32_id (i * d)) by (unfold is_i32; lia). unfold result_at. subst w. destruct (is_gated op); cbv zeta.
  - rewrite i32_id by (unfold is_i32; lia).
    rewrite (load_vec_8 input (i * d * 2 + g * 8) (fun l => elem input (i * (2 * d) + (g * 8 + l)))) by (intros l Hl; rewrite <- Hin by lia; f_equal; lia).
    cbn [mbind option_bind].
    rewrite (load_vec_8 input (i * d * 2 + d + g * 8) (fun l => elem input (i * (2 * d) + (d + (g * 8 + l))))) by (intros l Hl; rewrite <- Hin by lia; f_equal; lia).
    cbn [mbind option_bind]. rewrite func_lanes. unfold vec_mul. rewrite zip_with_tab.
    destruct (save_vec_8 output (i * d + g * 8) (fun l => mul (load (elem input (i * (2 * d) + (d + (g * 8 + l)))))
      (act_at op (load (elem input (i * (2 * d) + (g * 8 + l))))))) as (o' & E & W); [lia|lia|].
    exists o'. split; [exact E|]. eapply stores_reindex; [| |exact W]; intros l Hl; cbn beta in *; exists l; split_and!; try lia. by rewrite Z.add_assoc.
  - rewrite (load_vec_8 input (i * d + g * 8) (fun l => elem input (i * d + (g * 8 + l)))) by (intros l Hl; rewrite <- Hin by lia; f_equal; lia).
    cbn [mbind option_bind]. rewrite func_lanes.
    destruct (save_vec_8 output (i * d + g * 8) (fun l => act_at op (load (elem input (i * d + (g * 8 + l)))))) as (o' & E & W); [lia|lia|].
    by exists o'.
Qed.

(** Each of the seven entry points gives the activation of every element of every
    row, for the gated ones times the element of the second half, for rows in any order;
    a row length that is not a multiple of eight is refused. *)
Theorem activation_spec op (out input : list S) num_tokens size :
  let d := if is_gated op then size / 2 else size in
  0 <= num_tokens -> 0 < size -> (is_gated op = true -> (2 | size)) -> num_tokens * size < 2147483648 ->
  Z.of_nat (length input) = num_tokens * size -> Z.of_nat (length out) = num_tokens * d ->
  activate op out input size = Some (if d mod 8 =? 0 then Ok (activated op num_tokens d input) else Throw "d % VEC_ELEM_NUM == 0").
Proof.
  intros d HT Hs Heven Hfit Li Lo. unfold activate. rewrite Li, Z.quot_mul by lia. rewrite Z.quot_div_nonneg by lia. fold d.
  assert (0 <= d) as Hd by (unfold d; destruct (is_gated op); [apply Z.div_pos|]; lia).
  assert ((if is_gated op then 2 * d else d) = size) as Hw.
  { unfold d. destruct (is_gated op); [|done]. destruct (Heven eq_refl) as [q ->]. rewrite Z.div_mul by lia. lia. }
  unfold activation_kernel. unfold VEC_ELEM_NUM at 1. rewrite Z.rem_mod_nonneg by lia.
  destruct (Z.eqb_spec (d mod 8) 0) as [Hm|Hm]; cbn [negb]; [|done]. assert ((8 | d)) as [q Hq] by (apply Z.mod_divide; lia).
  unfold parallel_for. set (body := fun (i : Z) (output : list S) => _).
  destruct (for_each_stores (fun o => o) (fun _ => True) (schedule num_tokens) body (fun _ j => 0 <= j < d) (fun i j => i * d + j)
    (result_at op d input) out) as (out' & E & _ & W).
  - apply NoDup_schedule.
  - intros i i' j j' _ _ Hj Hj'. by apply row_inj.
  - done.
  - intros i o Hi%elem_of_schedule _ Ls _. unfold body, VEC_ELEM_NUM. set (turn := fun (j : Z) (output0 : list S) => _).
    destruct (vectors_ok 8 turn o (i * d) d q (result_at op d input i)) as (o' & E1 & W1); [lia|done|lia| |by exists o'].
    intros g b Hg Lb _. apply (act_turn_ok op input b d num_tokens i g); try done; try lia; rewrite ?Hw; lia.
  - rewrite E. cbn [mbind option_bind]. do 2 f_equal. apply (flat_rows num_tokens d out' (result_at op d input) HT).
    + by rewrite (stores_length _ _ _ _ _ W).
    + intros i j Hi Hj. apply (stores_in _ _ _ _ _ W (i, j)). split; [by apply elem_of_schedule|done].
Qed.

End Theorems.

Lemma activation_spec_witness :
  @activate _ _ sample_ops float_scalar backwards gelu_tanh_and_mul (replicate 16 S754_nan) (sample_data 32) 16
    = Some (Ok (@activated _ _ sample_ops float_scalar gelu_tanh_and_mul 2 8 (sample_data 32))).
Proof.
  apply (@activation_spec _ _ sample_ops float_scalar backwards backwards_ok gelu_tanh_and_mul (replicate 16 S754_nan) (sample_data 32) 2 16);
    try (vm_compute; congruence). by exists 8.
Defined.

End Activation.
