(* ===== verification/Rope.v ===== *)
(** * Rotary position embedding ([csrc/cpu/pos_encoding.cpp])

    Every head of the query (and of the key, if there is one) has its first [rot_dim]
    elements rotated in place, in pairs, by the angles of the token's position.  In the
    NeoX form element [j] is paired with element [embed_dim + j], eight pairs at a time
    and the rest one by one; in the GPT-J form neighbours are paired.  The general kernels
    and their specialisations for half precision compute the same and are one definition
    here, generic in the element type. *)

From Stdlib Require Import SpecFloat.
From S2P Require Import Prelude Arrays Counting Stores MicroGemm Vec8.

#[local] Open Scope Z_scope.

Module Rope.
Import Counting MicroGemm Vec8.

Record Shape := {
  rot_dim : Z;
  query_stride : Z;
  key_stride : Z;
  num_heads : Z;
  num_kv_heads : Z;
  head_size : Z;
  num_tokens : Z
}.

Section Kernels.
Context {S F : Type} `{FloatOps F} `{ScalarOps S F} `{Schedule}.
Context (positions : list Z) (cos_sin_cache : list S) (z : Shape).

Definition embed_dim : Z := Z.quot (rot_dim z) 2.

(** One pair: the elements at [out_x] and [out_y], with the angle at [cos_ptr] and [sin_ptr]. *)
Definition rotate_pair (cos_ptr sin_ptr out_x out_y : Z) (qk : list S) : option (list S) :=
  cos ← rd cos_sin_cache cos_ptr;
  sin ← rd cos_sin_cache sin_ptr;
  x ← rd qk out_x;
  y ← rd qk out_y;
  qk ← wr qk out_x (store (sub (mul (load x) (load cos)) (mul (load y) (load sin))));
  wr qk out_y (store (add (mul (load y) (load cos)) (mul (load x) (load sin)))).

(** ** NeoX *)

Definition rotate_vec (token_head cache_ptr j : Z) (qk : list S) : option (list S) :=
  let x_index := j in
  let y_index := embed_dim + j in
  let out_x := token_head + x_index in
  let out_y := token_head + y_index in
  cos ← load_vec cos_sin_cache (cache_ptr + x_index);
  sin ← load_vec cos_sin_cache (cache_ptr + y_index);
  q_x ← load_vec qk out_x;
  q_y ← load_vec qk out_y;
  qk ← save_vec qk out_x (vec_sub (vec_mul q_x cos) (vec_mul q_y sin));
  save_vec qk out_y (vec_add (vec_mul q_y cos) (vec_mul q_x sin)).

(** The loop variable [j] lives on after the vector loop. *)
Definition compute_loop (token_head cache_ptr : Z) (qk : list S) : option (list S) :=
  let flag := Z.rem embed_dim VEC_ELEM_NUM =? 0 in
  let loop_upper := if flag then embed_dim else embed_dim - VEC_ELEM_NUM in
  '(qk, j) ← for_step 0 loop_upper VEC_ELEM_NUM (fun j st =>
    qk ← rotate_vec token_head cache_ptr j st.1; Some (qk, j + VEC_ELEM_NUM)) (qk, 0);
  if flag then Some qk else
  for_range j embed_dim (fun j =>
    rotate_pair (cache_ptr + j) (cache_ptr + (embed_dim + j)) (token_head + j) (token_head + (embed_dim + j))) qk.

Definition rotary_token (token_idx : Z) (st : list S * option (list S)) : option (list S * option (list S)) :=
  pos ← rd positions token_idx;
  let cache_ptr := pos * rot_dim z in
  query ← for_range 0 (num_heads z) (fun i =>
    compute_loop (token_idx * query_stride z + i32 (i * head_size z)) cache_ptr) st.1;
  match st.2 with
  | None => Some (query, None)
  | Some key =>
      key ← for_range 0 (num_kv_heads z) (fun i =>
        compute_loop (token_idx * key_stride z + i32 (i * head_size z)) cache_ptr) key;
      Some (query, Some key)
  end.

Definition rotary_embedding_impl (st : list S * option (list S)) : option (list S * option (list S)) :=
  parallel_for (num_tokens z) rotary_token st.

(** ** GPT-J *)

(** One head; the loops over tokens and heads are collapsed. *)
Definition gptj_head (stride heads idx : Z) (qk : list S) : option (list S) :=
  let token_idx := Z.quot idx heads in
  let i := Z.rem idx heads in
  pos ← rd positions token_idx;
  let cache_ptr := pos * rot_dim z in
  let token_head := token_idx * stride + i32 (i * head_size z) in
  for_range 0 embed_dim (fun j =>
    rotate_pair (cache_ptr + j) (cache_ptr + embed_dim + j) (token_head + 2 * j) (token_head + (2 * j + 1))) qk.

Definition rotary_embedding_gptj_impl (st : list S * option (list S)) : option (list S * option (list S)) :=
  query ← parallel_for (num_tokens z * num_heads z) (gptj_head (query_stride z) (num_heads z)) st.1;
  match st.2 with
  | None => Some (query, None)
  | Some key =>
      key ← parallel_for (num_tokens z * num_kv_heads z) (gptj_head (key_stride z) (num_kv_heads z)) key;
      Some (query, Some key)
  end.

Definition rotary_embedding (is_neox : bool) (rope_dim_offset : Z) (inverse : bool) (st : list S * option (list S))
    : option (outcome (list S * option (list S))) :=
  if negb (rope_dim_offset =? 0) then Some (Throw "rope_dim_offset != 0 is not supported on CPU")
  else if inverse then Some (Throw "inverse rotary embedding is not supported on CPU")
  else st ← (if is_neox then rotary_embedding_impl st else rotary_embedding_gptj_impl st); Some (Ok st).

End Kernels.

(** ** The rotation of one head *)

Section Head.
Context {S F : Type} `{FloatOps F} `{ScalarOps S F}.
Context (cache : list S) (E w : Z) (ax ay : Z -> Z).

(** The offsets of the two elements of pair [j]. *)
Definition off (b : bool) (j : Z) : Z := if b then ay j else ax j.

(** What pair [j] of the head at [th] becomes, with the angles at [cp]. *)
Definition turned (cp : Z) (qk : list S) (th : Z) (y : bool * Z) : S :=
  let cos := load (elem cache (cp + y.2)) in
  let sin := load (elem cache (cp + E + y.2)) in
  let qx := load (elem qk (th + ax y.2)) in
  let qy := load (elem qk (th + ay y.2)) in
  store (if y.1 then add (mul qy cos) (mul qx sin) else sub (mul qx cos) (mul qy sin)).

Context (HE : 0 <= E).
Context (Hinj : forall b b' j j', 0 <= j < E -> 0 <= j' < E -> off b j = off b' j' -> b = b' /\ j = j').
Context (Hoff : forall b j, 0 <= j < E -> 0 <= off b j < w).
Context (cp th : Z) (qk0 : list S).
Context (Hcp : 0 <= cp) (Hcache : cp + 2 * E <= Z.of_nat (length cache)).
Context (Hth : 0 <= th) (Hqk : th + w <= Z.of_nat (length qk0)).

(** The pairs [lo .. hi - 1] have been rotated. *)
Definition pairs (lo hi : Z) (qk qk' : list S) : Prop :=
  stores qk qk' (fun y => lo <= y.2 < hi) (fun y => th + off y.1 y.2) (turned cp qk0 th).

Lemma pairs_nil lo qk : pairs lo lo qk qk.
Proof. constructor; [done|lia|done]. Qed.

Lemma pairs_app lo mid hi a b c : 0 <= lo <= mid -> mid <= hi <= E -> pairs lo mid a b -> pairs mid hi b c -> pairs lo hi a c.
Proof.
  intros Hlo Hhi W1 W2. eapply stores_reindex; [| |eapply stores_app; [|exact W1|exact W2]].
  - intros [b' j] Hy. cbn [fst snd] in *. destruct (decide (j < mid)); [exists (inl (b', j))|exists (inr (b', j))]; cbn [fst snd]; split_and!; lia || done.
  - intros [[b' j]|[b' j]] Hy; exists (b', j); cbn [fst snd] in *; split; lia || done.
  - intros y y' Hy Hy' Heq. cbn beta in *. destruct (Hinj y.1 y'.1 y.2 y'.2) as [_ Hj]; lia.
Qed.

(** Pairs that have not been rotated are still the old ones. *)
Lemma pairs_rest hi qk b j : pairs 0 hi qk0 qk -> hi <= j < E -> 0 <= hi -> rd qk (th + off b j) = Some (elem qk0 (th + off b j)).
Proof.
  intros W Hj Hhi. rewrite (stores_out _ _ _ _ _ W).
  - apply rd_elem. pose proof (Hoff b j ltac:(lia)). lia.
  - intros [b' j'] Hy Heq. cbn [fst snd] in *. destruct (Hinj b' b j' j) as [_ ?]; lia.
Qed.

Lemma rotate_pair_ok qk j : 0 <= j < E -> pairs 0 j qk0 qk ->
  exists qk', rotate_pair cache (cp + j) (cp + E + j) (th + ax j) (th + ay j) qk = Some qk' /\ pairs j (j + 1) qk qk'.
Proof.
  intros Hj W. unfold rotate_pair. rewrite !(rd_elem cache) by lia. cbn [mbind option_bind].
  pose proof (pairs_rest j qk false j W ltac:(lia) ltac:(lia)) as Hx. pose proof (pairs_rest j qk true j W ltac:(lia) ltac:(lia)) as Hy.
  unfold off in Hx, Hy. rewrite Hx. cbn [mbind option_bind]. rewrite Hy. cbn [mbind option_bind].
  set (vx := store (sub _ _)). set (vy := store (add _ _)).
  destruct (wr_ok qk (th + ax j) vx) as (q1 & -> & L1 & V1 & U1); [by apply (rd_Some _ _ _ Hx)|]. cbn [mbind option_bind].
  destruct (wr_ok q1 (th + ay j) vy) as (q2 & -> & L2 & V2 & U2); [rewrite L1; by apply (rd_Some _ _ _ Hy)|].
  assert (ax j <> ay j) as Hne by (intros Heq; destruct (Hinj false true j j) as [? _]; done).
  exists q2. split; [done|]. constructor; [congruence| |].
  - intros [[] j'] Hj'; cbn [fst snd] in *; assert (j' = j) as -> by lia; unfold turned, off; cbn [fst snd]; [done|]. rewrite U2 by lia. exact V1.
  - intros p Hp. pose proof (Hp (false, j)) as Px. pose proof (Hp (true, j)) as Py. cbn [fst snd off] in *. rewrite U2, U1 by lia. done.
Qed.

Lemma pair_loop_ok lo qk : 0 <= lo <= E -> pairs 0 lo qk0 qk ->
  exists qk', for_range lo E (fun j => rotate_pair cache (cp + j) (cp + E + j) (th + ax j) (th + ay j)) qk = Some qk' /\ pairs 0 E qk0 qk'.
Proof.
  intros Hlo W. destruct (for_range_inv (fun j qk' => pairs 0 j qk0 qk') lo E
    (fun j => rotate_pair cache (cp + j) (cp + E + j) (th + ax j) (th + ay j)) qk) as (qk' & Eq & W').
  - lia.
  - done.
  - intros j q Hj Wq. destruct (rotate_pair_ok q j ltac:(lia) Wq) as (q' & E1 & W1). exists q'. split; [done|].
    eapply pairs_app; [| |exact Wq|exact W1]; lia.
  - by exists qk'.
Qed.

End Head.

(** Neither form uses an element twice. *)
Lemma neox_inj E b b' j j' : 0 <= j < E -> 0 <= j' < E ->
  off (fun j => j) (fun j => E + j) b j = off (fun j => j) (fun j => E + j) b' j' -> b = b' /\ j = j'.
Proof. unfold off. destruct b, b'; intros; (split; [done || lia|lia]) || lia. Qed.
Lemma neox_off E b j : 0 <= j < E -> 0 <= off (fun j => j) (fun j => E + j) b j < 2 * E.
Proof. unfold off. destruct b; lia. Qed.

Lemma gptj_inj E b b' j j' : 0 <= j < E -> 0 <= j' < E ->
  off (fun j => 2 * j) (fun j => 2 * j + 1) b j = off (fun j => 2 * j) (fun j => 2 * j + 1) b' j' -> b = b' /\ j = j'.
Proof. unfold off. destruct b, b'; intros; (split; [done || lia|lia]) || lia. Qed.
Lemma gptj_off E b j : 0 <= j < E -> 0 <= off (fun j => 2 * j) (fun j => 2 * j + 1) b j < 2 * E.
Proof. unfold off. destruct b; lia. Qed.

Section Neox.
Context {S F : Type} `{FloatOps F} `{ScalarOps S F}.
Context (cache : list S) (z : Shape).
Abbreviation E := (embed_dim z).
Abbreviation ax := (fun j : Z => j).
Abbreviation ay := (fun j : Z => E + j).
Context (HE : 0 <= E) (cp th : Z) (qk0 : list S).
Context (Hcp : 0 <= cp) (Hcache : cp + 2 * E <= Z.of_nat (length cache)).
Context (Hth : 0 <= th) (Hqk : th + 2 * E <= Z.of_nat (length qk0)).

Abbreviation pairs := (pairs cache E ax ay cp th qk0).

Lemma rotate_vec_ok qk j : 0 <= j -> j + 8 <= E -> pairs 0 j qk0 qk ->
  exists qk', rotate_vec cache z th cp j qk = Some qk' /\ pairs j (j + 8) qk qk'.
Proof.
  intros Hj Hj8 W. unfold rotate_vec.
  assert (forall b l, 0 <= l < 8 -> rd qk (th + off ax ay b (j + l)) = Some (elem qk0 (th + off ax ay b (j + l)))) as Hq.
  { intros b l Hl. apply (pairs_rest cache E (2 * E) ax ay (neox_inj E) (neox_off E) cp th qk0 Hth Hqk j); done || lia. }
  rewrite (load_vec_8 cache (cp + j) (fun l => elem cache (cp + (j + l)))) by (intros l Hl; rewrite rd_elem by lia; do 2 f_equal; lia).
  cbn [mbind option_bind].
  rewrite (load_vec_8 cache (cp + (E + j)) (fun l => elem cache (cp + E + (j + l)))) by (intros l Hl; rewrite rd_elem by lia; do 2 f_equal; lia).
  cbn [mbind option_bind].
  rewrite (load_vec_8 qk (th + j) (fun l => elem qk0 (th + (j + l)))) by (intros l Hl; specialize (Hq false l Hl); cbn in Hq; rewrite <- Hq; f_equal; lia).
  cbn [mbind option_bind].
  rewrite (load_vec_8 qk (th + (E + j)) (fun l => elem qk0 (th + (E + (j + l))))) by (intros l Hl; specialize (Hq true l Hl); cbn in Hq; rewrite <- Hq; f_equal; lia).
  cbn [mbind option_bind]. unfold vec_sub, vec_add, vec_mul. rewrite !zip_with_tab.
  assert (length qk = length qk0) as Lq by (exact (stores_length _ _ _ _ _ W)).
  set (fx := fun l : Z => sub _ _). set (fy := fun l : Z => add _ _).
  destruct (save_vec_8 qk (th + j) fx) as (q1 & -> & W1); [lia|lia|]. cbn [mbind option_bind].
  destruct (save_vec_8 q1 (th + (E + j)) fy) as (q2 & E2 & W2); [lia|rewrite (stores_length _ _ _ _ _ W1); lia|].
  exists q2. split; [exact E2|]. eapply stores_reindex; [| |eapply stores_app; [|exact W1|exact W2]].
  - intros [[] j'] Hj'; cbn [fst snd] in *; [exists (inr (j' - j))|exists (inl (j' - j))]; unfold turned, off, fx, fy; cbn [fst snd];
      replace (j + (j' - j)) with j' by lia; split_and!; lia || done.
  - intros [l|l] Hl; [exists (false, j + l)|exists (true, j + l)]; unfold off; cbn [fst snd]; split_and!; lia.
  - intros l l' Hl Hl'. cbn beta in *. lia.
Qed.

(** The number of turns of the vector loop: as many as fit. *)
Lemma vector_turns {A} (body : Z -> A -> option A) st :
  for_step 0 (if E mod 8 =? 0 then E else E - 8) 8 body st = for_range 0 (E / 8) (fun q => body (q * 8)) st.
Proof.
  pose proof (Z.div_mod E 8 ltac:(lia)). pose proof (Z.mod_pos_bound E 8 ltac:(lia)).
  assert (0 <= E / 8) by (apply Z.div_pos; lia).
  destruct (Z.eqb_spec (E mod 8) 0) as [Hm|Hm]; [apply for_step_turns; lia|].
  destruct (decide (E < 8)) as [Hlt|Hge]; [|apply for_step_turns; lia].
  assert (E / 8 = 0) as -> by lia. unfold for_step. destruct (Z.to_nat _); cbn [stepping]; by rewrite (proj2 (Z.leb_le _ _)) by lia.
Qed.

Lemma compute_loop_ok : exists qk', compute_loop cache z th cp qk0 = Some qk' /\ pairs 0 E qk0 qk'.
Proof.
  unfold compute_loop, VEC_ELEM_NUM. rewrite Z.rem_mod_nonneg by lia. cbv zeta. rewrite vector_turns.
  pose proof (Z.div_mod E 8 ltac:(lia)). pose proof (Z.mod_pos_bound E 8 ltac:(lia)). assert (0 <= E / 8) by (apply Z.div_pos; lia).
  set (body := fun (q : Z) (st : list S * Z) => _).
  destruct (for_range_inv (fun q st => st.2 = q * 8 /\ pairs 0 (q * 8) qk0 st.1) 0 (E / 8) body (qk0, 0)) as ([qk j] & Ef & Ej & W).
  - done.
  - split; [done|]. apply pairs_nil.
  - intros q [qk j] Hq [Ej W]. cbn [fst snd] in *. unfold body. cbn [fst snd].
    destruct (rotate_vec_ok qk (q * 8)) as (qk' & -> & W'); [lia|lia|done|]. cbn [mbind option_bind]. eexists. split; [done|].
    cbn [fst snd]. split; [lia|]. replace ((q + 1) * 8) with (q * 8 + 8) by lia.
    eapply (pairs_app cache E ax ay (neox_inj E) cp th qk0 0 (q * 8)); [| |exact W|exact W']; lia.
  - rewrite Ef. cbn [mbind option_bind fst snd] in *. subst j. destruct (Z.eqb_spec (E mod 8) 0) as [Hm|Hm].
    + exists qk. split; [done|]. by replace E with (E / 8 * 8) at 2 by lia.
    + destruct (pair_loop_ok cache E (2 * E) ax ay (neox_inj E) (neox_off E) cp th qk0 Hcp Hcache Hth Hqk (E / 8 * 8) qk) as (qk' & Ep & W'); [lia|done|].
      exists qk'. split; [|exact W']. rewrite <- Ep. unfold for_range. apply (for_each_ext _ _ _ (fun _ => True)); [done| |done].
      intros j s _ _. by rewrite (Z.add_assoc cp).
Qed.

End Neox.

(** ** All heads of all tokens *)

(** The two forms. *)
Definition pair_x (neox : bool) (E j : Z) : Z := if neox then j else 2 * j.
Definition pair_y (neox : bool) (E j : Z) : Z := if neox then E + j else 2 * j + 1.
(** The pair of a column, and whether it is its second element. *)
Definition pair_of (neox : bool) (E c : Z) : bool * Z :=
  if neox then (if c <? E then (false, c) else (true, c - E)) else (c mod 2 =? 1, c / 2).

Section Tensor.
Context {S F : Type} `{FloatOps F} `{ScalarOps S F}.
Context (neox : bool) (positions : list Z) (cache : list S) (z : Shape) (stride heads : Z) (qk0 : list S).
Abbreviation E := (embed_dim z).
Abbreviation hs := (head_size z).
Abbreviation T := (num_tokens z).
Abbreviation px := (pair_x neox E).
Abbreviation py := (pair_y neox E).

(** Where the angles of a token and the elements of a head start. *)
Definition angles (t : Z) : Z := at_ positions t * rot_dim z.
Definition head (t h : Z) : Z := t * stride + h * hs.

(** The reference: the first [2 * embed_dim] columns of every head are rotated. *)
Definition rope_at (p : Z) : S :=
  let t := p / stride in
  let h := p mod stride / hs in
  let c := p mod stride mod hs in
  if (t <? T) && (h <? heads) && (c <? 2 * E) then turned cache E px py (angles t) qk0 (head t h) (pair_of neox E c)
  else elem qk0 p.
Definition rope_layer : list S := rope_at <$> seqZ 0 (Z.of_nat (length qk0)).

Record angles_ok : Prop := {
  an_rot : 0 <= rot_dim z;
  an_positions : T <= Z.of_nat (length positions);
  an_cache : forall t, 0 <= t < T -> 0 <= at_ positions t /\ angles t + rot_dim z <= Z.of_nat (length cache)
}.

Record tensor_ok : Prop := {
  to_head : 1 <= hs /\ rot_dim z <= hs;
  to_heads : 0 <= heads;
  to_fit : heads * hs < 2147483648;
  to_stride : heads * hs <= stride;
  to_length : forall t, 0 <= t < T -> t * stride + heads * hs <= Z.of_nat (length qk0)
}.

Context (Ha : angles_ok) (Ht : tensor_ok).

Lemma embed_rot : 0 <= E /\ 2 * E <= rot_dim z.
Proof.
  pose proof (an_rot Ha). unfold embed_dim. rewrite Z.quot_div_nonneg by lia.
  pose proof (Z.div_mod (rot_dim z) 2 ltac:(lia)). pose proof (Z.mod_pos_bound (rot_dim z) 2 ltac:(lia)). lia.
Qed.

Lemma pair_inj b b' j j' : 0 <= j < E -> 0 <= j' < E -> off px py b j = off px py b' j' -> b = b' /\ j = j'.
Proof. destruct neox; [apply neox_inj|apply gptj_inj]. Qed.
Lemma pair_off b j : 0 <= j < E -> 0 <= off px py b j < 2 * E.
Proof. destruct neox; [apply neox_off|apply gptj_off]. Qed.

Lemma pair_of_ok c : 0 <= c < 2 * E ->
  0 <= (pair_of neox E c).2 < E /\ off px py (pair_of neox E c).1 (pair_of neox E c).2 = c.
Proof.
  intros Hc. unfold pair_of, off, pair_x, pair_y. destruct neox.
  - destruct (Z.ltb_spec c E); cbn [fst snd]; lia.
  - cbn [fst snd]. pose proof (Z.div_mod c 2 ltac:(lia)). pose proof (Z.mod_pos_bound c 2 ltac:(lia)).
    destruct (Z.eqb_spec (c mod 2) 1); lia.
Qed.

Lemma head_bounds t h : 0 <= t < T -> 0 <= h < heads ->
  0 <= head t h /\ head t h + 2 * E <= Z.of_nat (length qk0) /\ 0 <= h * hs < 2147483648 /\ h * hs + hs <= stride.
Proof.
  intros Htt Hh. destruct Ht as [[H1 H2] H3 H4 H5 H6]. pose proof embed_rot. specialize (H6 t Htt).
  assert (0 <= h * hs /\ h * hs + hs <= heads * hs) by (clear -Hh H1; nia). assert (0 <= t * stride) by (apply Z.mul_nonneg_nonneg; lia).
  unfold head. lia.
Qed.

Lemma angles_bounds t : 0 <= t < T -> 0 <= angles t /\ angles t + 2 * E <= Z.of_nat (length cache).
Proof.
  intros Htt. destruct (an_cache Ha t Htt) as [H1 H2]. pose proof embed_rot. pose proof (an_rot Ha).
  split; [apply Z.mul_nonneg_nonneg; lia|lia].
Qed.

(** Elements of different heads are different. *)
Lemma head_inj t t' h h' b b' j j' : 0 <= t < T -> 0 <= t' < T -> 0 <= h < heads -> 0 <= h' < heads -> 0 <= j < E -> 0 <= j' < E ->
  head t h + off px py b j = head t' h' + off px py b' j' -> t = t' /\ h = h'.
Proof.
  intros Htt Htt' Hh Hh' Hj Hj' Heq. destruct (head_bounds t h) as (_ & _ & ? & ?); [done..|]. destruct (head_bounds t' h') as (_ & _ & ? & ?); [done..|].
  pose proof (pair_off b j Hj). pose proof (pair_off b' j' Hj'). pose proof embed_rot. destruct (to_head Ht). unfold head in Heq.
  assert (t = t') as -> by (apply (row_inj stride t t' (h * hs + off px py b j) (h' * hs + off px py b' j')); lia).
  split; [done|]. apply (row_inj hs h h' (off px py b j) (off px py b' j')); lia.
Qed.

Lemma turned_ext qk cp th y : (forall b, rd qk (th + off px py b y.2) = rd qk0 (th + off px py b y.2)) ->
  turned cache E px py cp qk th y = turned cache E px py cp qk0 th y.
Proof.
  intros Hq. pose proof (Hq false) as Hx. pose proof (Hq true) as Hy. unfold off in Hx, Hy. unfold turned, elem. by rewrite Hx, Hy.
Qed.

(** The cells of head [h] of token [t], from their original contents. *)
Definition head_stores (t h : Z) (qk qk' : list S) : Prop :=
  stores qk qk' (fun y => 0 <= y.2 < E) (fun y => head t h + off px py y.1 y.2) (turned cache E px py (angles t) qk0 (head t h)).

Lemma head_stores_ok t h qk qk' :
  (forall y : bool * Z, 0 <= y.2 < E -> rd qk (head t h + off px py y.1 y.2) = rd qk0 (head t h + off px py y.1 y.2)) ->
  pairs cache E px py (angles t) (head t h) qk 0 E qk qk' -> head_stores t h qk qk'.
Proof.
  intros Hq W. eapply stores_reindex; [| |exact W]; intros y Hy; exists y; (split; [exact Hy|]); [|done].
  split; [done|]. apply turned_ext. intros b. exact (Hq (b, y.2) Hy).
Qed.

(** Once every head has been rotated, the tensor is that of the reference. *)
Lemma rope_layer_is {X} (D : X -> Prop) (th : X -> Z * Z) (y : X -> bool * Z) qk' :
  (forall t h y', 0 <= t < T -> 0 <= h < heads -> 0 <= y'.2 < E -> exists x, D x /\ th x = (t, h) /\ y x = y') ->
  (forall x, D x -> 0 <= (th x).1 < T /\ 0 <= (th x).2 < heads /\ 0 <= (y x).2 < E) ->
  stores qk0 qk' D (fun x => head (th x).1 (th x).2 + off px py (y x).1 (y x).2)
    (fun x => turned cache E px py (angles (th x).1) qk0 (head (th x).1 (th x).2) (y x)) ->
  qk' = rope_layer.
Proof.
  intros Hex Hin W. apply list_tab; [by rewrite (stores_length _ _ _ _ _ W)|]. intros p Hp. unfold rope_at.
  destruct ((p / stride <? T) && (p mod stride / hs <? heads) && (p mod stride mod hs <? 2 * E)) eqn:Hc.
  - apply andb_prop in Hc as [[Hc1%Z.ltb_lt Hc2%Z.ltb_lt]%andb_prop Hc3%Z.ltb_lt].
    destruct (to_head Ht) as [Hhs _]. pose proof (to_stride Ht) as Hst. pose proof (to_heads Ht).
    assert (0 < stride) as Hstr.
    { destruct (decide (stride = 0)) as [E0|]; [|nia]. rewrite E0, Z.mod_0_r in Hc2. assert (0 <= p / hs) by (apply Z.div_pos; lia). nia. }
    pose proof (Z.div_mod p stride ltac:(lia)). pose proof (Z.mod_pos_bound p stride ltac:(lia)).
    pose proof (Z.div_mod (p mod stride) hs ltac:(lia)). pose proof (Z.mod_pos_bound (p mod stride) hs ltac:(lia)).
    destruct (pair_of_ok (p mod stride mod hs)) as [Hj Ho]; [lia|].
    destruct (Hex (p / stride) (p mod stride / hs) (pair_of neox E (p mod stride mod hs))) as (x & Hx & Eth & Ey);
      [split; [apply Z.div_pos; lia|done]|split; [apply Z.div_pos; lia|done]|done|].
    pose proof (stores_in _ _ _ _ _ W x Hx) as V. cbn beta in V. rewrite Eth, Ey in V. cbn [fst snd] in V. rewrite Ho in V.
    unfold head in V at 1. rewrite <- V. f_equal. lia.
  - rewrite (stores_out _ _ _ _ _ W); [by apply rd_elem|]. intros x Hx Heq. destruct (Hin x Hx) as (H1 & H2 & H3).
    destruct (head_bounds (th x).1 (th x).2 H1 H2) as (_ & _ & B1 & B2). pose proof (pair_off (y x).1 _ H3) as B3. pose proof embed_rot. destruct (to_head Ht) as [Hhs Hrot].
    unfold head in Heq. rewrite <- Z.add_assoc in Heq. set (o := off px py (y x).1 (y x).2) in *.
    rewrite <- Heq, Z.div_add_l, (Z.div_small ((th x).2 * hs + o)), Z.add_0_r, (proj2 (Z.ltb_lt _ _) (proj2 H1)) in Hc by lia.
    rewrite (Z.add_comm ((th x).1 * stride)), Z.mod_add, Z.mod_small in Hc by lia.
    rewrite Z.div_add_l, (Z.div_small o), Z.add_0_r, (proj2 (Z.ltb_lt _ _) (proj2 H2)) in Hc by lia.
    rewrite (Z.add_comm ((th x).2 * hs)), Z.mod_add, Z.mod_small, (proj2 (Z.ltb_lt _ _) (proj2 B3)) in Hc by lia. done.
Qed.

End Tensor.

Section Loops.
Context {S F : Type} `{FloatOps F} `{ScalarOps S F} {order : Schedule} {order_ok : @ScheduleOk order}.
Context (positions : list Z) (cache : list S) (z : Shape) (stride heads : Z) (qk0 : list S).
Abbreviation E := (embed_dim z).
Abbreviation T := (num_tokens z).
Context (Ha : angles_ok positions cache z) (Ht : tensor_ok z stride heads qk0).

(** One tensor in the NeoX form: the heads of a token in order. *)
Definition neox_token (t : Z) (qk : list S) : option (list S) :=
  pos ← rd positions t;
  for_range 0 heads (fun i => compute_loop cache z (t * stride + i32 (i * head_size z)) (pos * rot_dim z)) qk.

Lemma neox_token_ok t qk : 0 <= t < T -> length qk = length qk0 ->
  (forall x : Z * (bool * Z), 0 <= x.1 < heads /\ 0 <= x.2.2 < E ->
    rd qk (head z stride t x.1 + off (pair_x true E) (pair_y true E) x.2.1 x.2.2) = rd qk0 (head z stride t x.1 + off (pair_x true E) (pair_y true E) x.2.1 x.2.2)) ->
  exists qk', neox_token t qk = Some qk' /\
    stores qk qk' (fun x : Z * (bool * Z) => 0 <= x.1 < heads /\ 0 <= x.2.2 < E)
      (fun x => head z stride t x.1 + off (pair_x true E) (pair_y true E) x.2.1 x.2.2)
      (fun x => turned cache E (pair_x true E) (pair_y true E) (angles positions z t) qk0 (head z stride t x.1) x.2).
Proof.
  intros Htt Lq Hq. unfold neox_token. pose proof (an_positions _ _ _ Ha). rewrite (rd_at positions) by lia. cbn [mbind option_bind].
  destruct (for_range_stores (fun q => q) (fun _ => True) heads
    (fun i => compute_loop cache z (t * stride + i32 (i * head_size z)) (at_ positions t * rot_dim z)) (fun _ (y : bool * Z) => 0 <= y.2 < E)
    (fun h y => head z stride t h + off (pair_x true E) (pair_y true E) y.1 y.2)
    (fun h => turned cache E (pair_x true E) (pair_y true E) (angles positions z t) qk0 (head z stride t h)) qk) as (qk' & Ef & _ & W).
  - intros h h' y y' Hh Hh' Hy Hy' Heq. by apply (head_inj true positions cache z stride heads qk0 Ha Ht t t h h' y.1 y'.1 y.2 y'.2).
  - done.
  - intros h q Hh _ Ls Hs. destruct (head_bounds positions cache z stride heads qk0 Ha Ht t h Htt Hh) as (B1 & B2 & B3 & B4).
    destruct (angles_bounds positions cache z Ha t Htt) as [C1 C2]. pose proof (embed_rot positions cache z Ha) as [E1 _].
    rewrite i32_id by (unfold is_i32; lia).
    destruct (compute_loop_ok cache z E1 (angles positions z t) (head z stride t h) q C1 C2 B1 ltac:(lia)) as (q' & Ec & Wc).
    exists q'. split; [exact Ec|]. split; [done|]. apply (head_stores_ok true positions cache z stride qk0 t h q q'); [|exact Wc].
    intros y Hy. rewrite Hs by done. by apply (Hq (h, y)).
  - exists qk'. split; [exact Ef|exact W].
Qed.

Lemma neox_tensor_ok : for_each (schedule T) neox_token qk0 = Some (rope_layer true positions cache z stride heads qk0).
Proof.
  destruct (for_each_stores (fun q => q) (fun _ => True) (schedule T) neox_token
    (fun _ (x : Z * (bool * Z)) => 0 <= x.1 < heads /\ 0 <= x.2.2 < E)
    (fun t x => head z stride t x.1 + off (pair_x true E) (pair_y true E) x.2.1 x.2.2)
    (fun t x => turned cache E (pair_x true E) (pair_y true E) (angles positions z t) qk0 (head z stride t x.1) x.2) qk0) as (qk' & -> & _ & W).
  - apply NoDup_schedule.
  - intros t t' x x' Htt%elem_of_schedule Htt'%elem_of_schedule [Hx Hx2] [Hx' Hx2'] Heq.
    by apply (head_inj true positions cache z stride heads qk0 Ha Ht t t' x.1 x'.1 x.2.1 x'.2.1 x.2.2 x'.2.2).
  - done.
  - intros t q Htt%elem_of_schedule _ Ls Hs. destruct (neox_token_ok t q Htt Ls Hs) as (q' & E1 & W1). by exists q'.
  - f_equal. refine (rope_layer_is true positions cache z stride heads qk0 Ha Ht _ (fun x => (x.1, x.2.1)) (fun x => x.2.2) qk' _ _ W).
    + intros t h y Htt Hh Hy. exists (t, (h, y)). split; [|done]. cbn [fst snd]. split; [by apply elem_of_schedule|done].
    + intros [t [h y]] [Htt%elem_of_schedule Hx]. done.
Qed.

Lemma gptj_tensor_ok : for_each (schedule (T * heads)) (gptj_head positions cache z stride heads) qk0
  = Some (rope_layer false positions cache z stride heads qk0).
Proof.
  pose proof (to_heads _ _ _ _ Ht) as Hheads.
  assert (forall idx, 0 <= idx < T * heads -> 0 <= idx / heads < T /\ 0 <= idx mod heads < heads) as Hidx.
  { intros idx Hi. assert (0 < heads) by (destruct (decide (heads = 0)) as [E0|]; [rewrite E0, Z.mul_0_r in Hi|]; lia). split; [|apply Z.mod_pos_bound; lia].
    split; [apply Z.div_pos; lia|apply Z.div_lt_upper_bound; lia]. }
  destruct (for_each_stores (fun q => q) (fun _ => True) (schedule (T * heads)) (gptj_head positions cache z stride heads)
    (fun _ (y : bool * Z) => 0 <= y.2 < E)
    (fun i y => head z stride (i / heads) (i mod heads) + off (pair_x false E) (pair_y false E) y.1 y.2)
    (fun i y => turned cache E (pair_x false E) (pair_y false E) (angles positions z (i / heads)) qk0 (head z stride (i / heads) (i mod heads)) y) qk0)
    as (qk' & -> & _ & W).
  - apply NoDup_schedule.
  - intros i i' y y' Hi%elem_of_schedule Hi'%elem_of_schedule Hy Hy' Heq. destruct (Hidx i Hi), (Hidx i' Hi').
    destruct (head_inj false positions cache z stride heads qk0 Ha Ht (i / heads) (i' / heads) (i mod heads) (i' mod heads) y.1 y'.1 y.2 y'.2) as [E1 E2]; [done..|].
    rewrite (Z.div_mod i heads), (Z.div_mod i' heads) by lia. congruence.
  - done.
  - intros i q Hi%elem_of_schedule _ Ls Hs. destruct (Hidx i Hi) as [Htt Hh]. unfold gptj_head.
    rewrite Z.quot_div_nonneg, Z.rem_mod_nonneg by lia. pose proof (an_positions _ _ _ Ha). rewrite (rd_at positions) by lia. cbn [mbind option_bind].
    destruct (head_bounds positions cache z stride heads qk0 Ha Ht (i / heads) (i mod heads) Htt Hh) as (B1 & B2 & B3 & B4).
    destruct (angles_bounds positions cache z Ha (i / heads) Htt) as [C1 C2]. pose proof (embed_rot positions cache z Ha) as [E1 _].
    rewrite i32_id by (unfold is_i32; lia).
    destruct (pair_loop_ok cache E (2 * E) (pair_x false E) (pair_y false E) (gptj_inj E) (gptj_off E) (angles positions z (i / heads))
      (head z stride (i / heads) (i mod heads)) q C1 C2 B1 ltac:(lia) 0 q) as (q' & Ec & Wc); [lia|apply pairs_nil|].
    exists q'. split; [exact Ec|]. split; [done|].
    apply (head_stores_ok false positions cache z stride qk0 (i / heads) (i mod heads) q q'); [exact Hs|exact Wc].
  - f_equal. refine (rope_layer_is false positions cache z stride heads qk0 Ha Ht _ (fun x => (x.1 / heads, x.1 mod heads)) snd qk' _ _ W).
    + intros t h y Htt Hh Hy. exists (t * heads + h, y). split; [split; [apply elem_of_schedule; by apply row_bounds|done]|].
      cbn [fst snd]. split; [|done]. rewrite Z.div_add_l, Z.div_small by lia. rewrite (Z.add_comm (t * heads)), Z.mod_add, Z.mod_small by lia. f_equal. lia.
    + intros [i y] [Hi%elem_of_schedule Hy]. cbn [fst snd] in *. by destruct (Hidx i Hi).
Qed.

End Loops.

Section Theorems.
Context {S F : Type} `{FloatOps F} `{ScalarOps S F} {order : Schedule} {order_ok : @ScheduleOk order}.

(** [C18] [rotary_embedding] rotates the first [2 * embed_dim] elements of every head of
    the query, and of the key if there is one, by the angles of the token's position,
    in the NeoX form (eight pairs at a time, then the rest) or the GPT-J form, for tokens
    and heads in any order, and leaves every other element alone; the two options that
    the CPU does not support are refused. *)
Theorem rotary_embedding_spec positions (cache : list S) z is_neox rope_dim_offset inverse query key :
  0 <= num_tokens z -> angles_ok positions cache z -> tensor_ok z (query_stride z) (num_heads z) query ->
  (forall k, key = Some k -> tensor_ok z (key_stride z) (num_kv_heads z) k) ->
  rotary_embedding positions cache z is_neox rope_dim_offset inverse (query, key)
    = Some (if negb (rope_dim_offset =? 0) then Throw "rope_dim_offset != 0 is not supported on CPU"
            else if inverse then Throw "inverse rotary embedding is not supported on CPU"
            else Ok (rope_layer is_neox positions cache z (query_stride z) (num_heads z) query,
                     rope_layer is_neox positions cache z (key_stride z) (num_kv_heads z) <$> key)).
Proof.
  intros HT Ha Hq Hk. unfold rotary_embedding. destruct (rope_dim_offset =? 0); cbn [negb]; [|done]. destruct inverse; [done|].
  destruct is_neox.
  - unfold rotary_embedding_impl, parallel_for.
    set (f := fun t k => match k with None => Some None | Some k => Some <$> neox_token positions cache z (key_stride z) (num_kv_heads z) t k end).
    rewrite (for_each_ext _ _ (fun t st => q ← neox_token positions cache z (query_stride z) (num_heads z) t st.1; k ← f t st.2; Some (q, k)) (fun _ => True)).
    2, 4: done.
    + rewrite for_each_pair. rewrite (neox_tensor_ok positions cache z _ _ query Ha Hq). cbn [mbind option_bind].
      destruct key as [key|].
      * assert (for_each (schedule (num_tokens z)) f (Some key) = Some (Some (rope_layer true positions cache z (key_stride z) (num_kv_heads z) key))) as ->; [|done].
        pose proof (neox_tensor_ok positions cache z _ _ key Ha (Hk key eq_refl)) as E1. revert E1. generalize key at 1 3. generalize (schedule (num_tokens z)).
        induction l as [|t l IH]; intros k E1; simpl in *; [by injection E1 as ->|].
        apply bind_Some in E1 as (k1 & E1 & E2). rewrite E1. by apply IH.
      * assert (for_each (schedule (num_tokens z)) f None = Some None) as ->; [|done]. by induction (schedule (num_tokens z)).
    + intros t [q k] Htt%elem_of_schedule _. unfold rotary_token, neox_token, f, neox_token. pose proof (an_positions _ _ _ Ha).
      rewrite (rd_at positions) by lia. cbn [mbind option_bind fst snd]. destruct (for_range 0 (num_heads z) _ q); [|done].
      cbn [mbind option_bind]. destruct k as [k|]; [|done]. by destruct (for_range 0 (num_kv_heads z) _ k).
  - unfold rotary_embedding_gptj_impl, parallel_for. cbn [fst snd]. rewrite (gptj_tensor_ok positions cache z _ _ query Ha Hq). cbn [mbind option_bind].
    destruct key as [key|]; [|done]. by rewrite (gptj_tensor_ok positions cache z _ _ key Ha (Hk key eq_refl)).
Qed.

End Theorems.

Definition sample_shape : Shape := {| rot_dim := 20; query_stride := 50; key_stride := 24; num_heads := 2; num_kv_heads := 1;
  head_size := 24; num_tokens := 2 |}.

Lemma two_tokens t : 0 <= t < 2 -> t = 0 \/ t = 1.
Proof. lia. Qed.

Lemma rotary_embedding_spec_witness :
  @rotary_embedding _ _ sample_ops float_scalar backwards [3; 1] (sample_data 80) sample_shape true 0 false (sample_data 100, Some (sample_data 48))
    = Some (Ok (@rope_layer _ _ sample_ops float_scalar true [3; 1] (sample_data 80) sample_shape 50 2 (sample_data 100),
        Some (@rope_layer _ _ sample_ops float_scalar true [3; 1] (sample_data 80) sample_shape 24 1 (sample_data 48)))).
Proof.
  apply (@rotary_embedding_spec _ _ sample_ops float_scalar backwards backwards_ok [3; 1] (sample_data 80) sample_shape true 0 false (sample_data 100)
    (Some (sample_data 48))).
  - vm_compute; congruence.
  - constructor; try (vm_compute; congruence). intros t [-> | ->]%two_tokens; split; vm_compute; congruence.
  - constructor; try (vm_compute; intuition congruence). intros t [-> | ->]%two_tokens; vm_compute; congruence.
  - intros k [= <-]. constructor; try (vm_compute; intuition congruence). intros t [-> | ->]%two_tokens; vm_compute; congruence.
Defined.

End Rope.
