(* ===== verification/Regions.v ===== *)
(** * Regions of a scratch buffer

    Components that carve buffers out of one allocation show that the regions follow one
    another on cache lines of their own; then they are disjoint, aligned and inside. *)

From S2P Require Import Prelude.

#[local] Open Scope Z_scope.

(** Regions (offset and length) that lie one after the other between [a] and [b],
    each on a cache line of its own. *)
Fixpoint packed (a : Z) (regions : list (Z * Z)) (b : Z) : Prop :=
  match regions with
  | [] => a <= b
  | (off, len) :: regions => a <= off /\ (64 | off) /\ 0 <= len /\ packed (off + len) regions b
  end.

Lemma packed_app a l m k b : packed a l m -> packed m k b -> packed a (l ++ k) b.
Proof.
  revert a. induction l as [|[off len] l IH]; intros a; simpl.
  - intros Ha Hk. destruct k as [|[off len] k]; simpl in *; [lia|].
    destruct Hk as (? & ? & ? & ?). split_and!; [lia|done..].
  - intros (? & ? & ? & ?) Hk. split_and!; try done. by apply IH.
Qed.

Lemma packed_le a l b : packed a l b -> a <= b.
Proof.
  revert a. induction l as [|[off len] l IH]; intros a; simpl; [done|]. intros (? & _ & ? & H%IH). lia.
Qed.

Lemma packed_weaken a l b b' : packed a l b -> b <= b' -> packed a l b'.
Proof.
  intros H Hb. rewrite <- (app_nil_r l). by eapply packed_app.
Qed.

(** Regions in order do not overlap. *)
Lemma packed_disjoint a l b i j o1 n1 o2 n2 : packed a l b -> (i < j)%nat -> l !! i = Some (o1, n1) -> l !! j = Some (o2, n2) ->
  a <= o1 /\ o1 + n1 <= o2 /\ o2 + n2 <= b.
Proof.
  revert a i j. induction l as [|[off len] l IH]; intros a i j; simpl; [by rewrite lookup_nil|]. intros (H1 & _ & H2 & Hp) Hij Hi Hj.
  destruct j as [|j]; [lia|]. simpl in Hj. destruct i as [|i]; simpl in Hi.
  - injection Hi as <- <-. split; [done|]. revert Hp Hj. generalize (off + len). clear. revert j. induction l as [|[off len] l IH]; intros j a; [done|].
    simpl. intros (H1 & _ & H2 & Hp) Hj. destruct j as [|j]; simpl in Hj.
    + injection Hj as <- <-. apply packed_le in Hp. lia.
    + destruct (IH j (off + len) Hp Hj). lia.
  - destruct (IH (off + len) i j Hp) as (? & ? & ?); [lia|done|done|]. lia.
Qed.

(** The same regions once per thread. *)
Lemma packed_threads c size n (regions : Z -> list (Z * Z)) : 0 <= n ->
  (forall t, 0 <= t < n -> packed (c + t * size) (regions t) (c + (t + 1) * size)) ->
  packed c (seqZ 0 n ≫= regions) (c + n * size).
Proof.
  revert n. refine (natlike_ind (fun n => _ -> _) _ _).
  - intros _. simpl. lia.
  - intros n Hn IH Hp. rewrite <- Z.add_1_r, (seqZ_app 0 n 1), bind_app by lia. change (seqZ (0 + n) 1) with [0 + (0 + n)].
    eapply packed_app; [apply IH; intros t Ht; apply Hp; lia|]. rewrite bind_cons, app_nil_r. apply (Hp n). lia.
Qed.
