(* ===== verification/CpuUtils.v ===== *)
(** * CPU utilities ([csrc/cpu/utils.hpp], [csrc/cpu/utils.cpp])

    The scratch pad that the kernels share, an allocation that only grows, and the
    mapping of the tokens of a batch to slots of the paged cache.  The C library's
    [aligned_alloc] is a parameter: a function of the size and of the blocks that are in
    use, which returns a block that is not, or nothing.  Freeing a block that is not in
    use is undefined behaviour, [None]. *)

From S2P Require Import Prelude Arrays Stores.

#[local] Open Scope Z_scope.

Module CpuUtils.

(** ** The scratch pad *)

(** Blocks in use, with their sizes. *)
Abbreviation Heap := (gmap Z Z).

Class Malloc := aligned_alloc : Z -> Heap -> option Z.
Class MallocOk `{Malloc} : Prop := {
  alloc_fresh n h p : aligned_alloc n h = Some p -> h !! p = None;
  alloc_aligned n h p : aligned_alloc n h = Some p -> (64 | p)
}.

Record ScratchPadManager := { size_ : Z; ptr_ : option Z }.

Definition allocation_unit : Z := 4 * 1024.
Definition round (size : Z) : Z := u64 (Z.quot (u64 (size + allocation_unit - 1)) allocation_unit * allocation_unit).

Section ScratchPad.
Context `{Malloc}.

(** [std::free] *)
Definition free (p : Z) (heap : Heap) : option Heap :=
  match heap !! p with Some _ => Some (delete p heap) | None => None end.

(** [TORCH_CHECK] throws before anything has changed. *)
Definition realloc (new_size : Z) (st : ScratchPadManager * Heap) : option (outcome (ScratchPadManager * Heap)) :=
  let '(m, heap) := st in
  let new_size := round new_size in
  if size_ m <? new_size then
    match aligned_alloc new_size heap with
    | None => Some (Throw "ScratchPadManager: aligned_alloc failed")
    | Some new_ptr =>
        let heap := <[new_ptr := new_size]> heap in
        heap ← match ptr_ m with Some p => free p heap | None => Some heap end;
        Some (Ok ({| size_ := new_size; ptr_ := Some new_ptr |}, heap))
    end
  else Some (Ok (m, heap)).

Definition new_manager (heap : Heap) : option (outcome (ScratchPadManager * Heap)) :=
  realloc (allocation_unit * 128) ({| size_ := 0; ptr_ := None |}, heap).

(** The requests of a process, each with its answer and the states around it; after an
    exception the manager is still there. *)
Record Answer := { asked : Z; granted : bool; before : ScratchPadManager * Heap; after : ScratchPadManager * Heap }.

Fixpoint requests (sizes : list Z) (st : ScratchPadManager * Heap) : option ((ScratchPadManager * Heap) * list Answer) :=
  match sizes with
  | [] => Some (st, [])
  | n :: sizes =>
      r ← realloc n st;
      let a := match r with
        | Ok st' => {| asked := n; granted := true; before := st; after := st' |}
        | Throw _ => {| asked := n; granted := false; before := st; after := st |}
        end in
      '(st', answers) ← requests sizes (after a);
      Some (st', a :: answers)
  end.

End ScratchPad.

(** ** Slots *)

Section Slots.
Context `{Schedule}.
Context (query_start_loc positions block_table : list Z) (block_table_stride block_size : Z).

Definition map_token (req_idx token_start_idx token_idx : Z) (slot_mapping : list Z) : option (list Z) :=
  token_position ← rd positions (token_start_idx + token_idx);
  block_id ← rd block_table (req_idx * block_table_stride + Z.quot token_position block_size);
  wr slot_mapping (token_start_idx + token_idx) (block_id * block_size + Z.rem token_position block_size).

Definition map_request (req_idx : Z) (slot_mapping : list Z) : option (list Z) :=
  token_start_idx ← rd query_start_loc req_idx;
  token_end_idx ← rd query_start_loc (req_idx + 1);
  let token_num := i32 (token_end_idx - token_start_idx) in
  for_range 0 token_num (map_token req_idx token_start_idx) slot_mapping.

Definition compute_slot_mapping_kernel_impl (slot_mapping : list Z) : option (list Z) :=
  let req_num := i32 (Z.of_nat (length query_start_loc) - 1) in
  parallel_for req_num map_request slot_mapping.

End Slots.

(** ** The scratch pad owns one block *)

Section Owned.
Context `{MallocOk}.

(** The blocks of others stay as they are; the manager has one of its own, or none yet. *)
Definition owned (others : Heap) (st : ScratchPadManager * Heap) : Prop :=
  match ptr_ st.1 with
  | None => size_ st.1 = 0 /\ st.2 = others
  | Some p => others !! p = None /\ st.2 = <[p := size_ st.1]> others /\ (64 | p) /\ 0 <= size_ st.1
  end.

Lemma round_spec n : 0 <= n < 2 ^ 63 -> n <= round n /\ round n < n + allocation_unit.
Proof.
  intros Hn. unfold round, allocation_unit. pose proof (Z.div_mod (n + 4095) 4096 ltac:(lia)). pose proof (Z.mod_pos_bound (n + 4095) 4096 ltac:(lia)).
  change (4 * 1024) with 4096. replace (n + 4096 - 1) with (n + 4095) by lia. rewrite (u64_id (n + 4095)) by (unfold is_u64; lia).
  rewrite Z.quot_div_nonneg by lia. rewrite u64_id by (unfold is_u64; lia). lia.
Qed.

Lemma realloc_owned others n st : 0 <= n < 2 ^ 63 -> owned others st ->
  match realloc n st with
  | None => False
  | Some (Ok st') => owned others st' /\ n <= size_ st'.1 /\ size_ st.1 <= size_ st'.1 /\
      (size_ st.1 < round n -> is_Some (ptr_ st'.1)) /\ (round n <= size_ st.1 -> st' = st)
  | Some (Throw _) => size_ st.1 < round n /\ aligned_alloc (round n) st.2 = None
  end.
Proof.
  intros Hn. destruct st as [m heap]. unfold owned. cbn [fst snd]. intros Ho. unfold realloc. pose proof (round_spec n Hn) as [Hr _].
  destruct (Z.ltb_spec (size_ m) (round n)) as [Hlt|Hge]; [|cbn [fst snd]; split_and!; [done|lia|lia|lia|done]].
  destruct (aligned_alloc (round n) heap) as [p|] eqn:Ha; [|done]. pose proof (alloc_fresh _ _ _ Ha) as Hf. pose proof (alloc_aligned _ _ _ Ha) as Hal.
  destruct (ptr_ m) as [q|]; cbn [fst snd ptr_ size_].
  - destruct Ho as (Hq & -> & _ & Hs). assert (p <> q) as Hpq by (intros ->; by rewrite lookup_insert_eq in Hf).
    rewrite lookup_insert_ne in Hf by done. unfold free. rewrite lookup_insert_ne, lookup_insert_eq by done. cbn [mbind option_bind fst snd ptr_ size_].
    split_and!; [done| |done|lia|lia|lia|by eexists|lia]. by rewrite delete_insert_ne, delete_insert_id by done.
  - destruct Ho as [Hs ->]. cbn [mbind option_bind fst snd ptr_ size_]. split_and!; [done|done|done|lia|lia|lia|by eexists|lia].
Qed.

(** The manager has exactly one block next to those of others. *)
Definition owns_one (others : Heap) (st : ScratchPadManager * Heap) : Prop :=
  exists p, ptr_ st.1 = Some p /\ others !! p = None /\ st.2 = <[p := size_ st.1]> others /\ (64 | p).

(** What an answer means. *)
Record answered (others : Heap) (a : Answer) : Prop := {
  an_before : owns_one others (before a);
  an_after : owns_one others (after a);
  an_granted : granted a = true -> asked a <= size_ (after a).1 /\ size_ (before a).1 <= size_ (after a).1;
  an_kept : round (asked a) <= size_ (before a).1 -> granted a = true /\ after a = before a;
  an_refused : granted a = false -> after a = before a /\ aligned_alloc (round (asked a)) (before a).2 = None
}.

Lemma owned_owns others st : owned others st -> is_Some (ptr_ st.1) <-> owns_one others st.
Proof.
  unfold owned, owns_one. destruct (ptr_ st.1) as [p|]; [|intros _; split; [by intros []|by intros (p & [=] & _)]].
  intros (? & ? & ? & ?). split; [by exists p|by eexists].
Qed.

Lemma owns_owned others st : owns_one others st -> 0 <= size_ st.1 -> owned others st.
Proof. unfold owned. by intros (p & -> & ? & ? & ?). Qed.

Lemma requests_answered others sizes : Forall (fun n => 0 <= n < 2 ^ 63) sizes -> forall st, owns_one others st -> 0 <= size_ st.1 ->
  exists st' answers, requests sizes st = Some (st', answers) /\ asked <$> answers = sizes /\ owns_one others st' /\
    size_ st.1 <= size_ st'.1 /\ Forall (answered others) answers /\ Forall (fun a => granted a = true -> asked a <= size_ st'.1) answers.
Proof.
  induction 1 as [|n sizes Hn _ IH]; intros st Ho Hsz; cbn [requests].
  - exists st, []. split_and!; done.
  - pose proof (realloc_owned others n st Hn (owns_owned _ _ Ho Hsz)) as Hr. destruct (realloc n st) as [[st1|msg]|]; [| |done]; cbn [mbind option_bind after].
    + destruct Hr as (Ho1 & Hn1 & Hm1 & Hnew & Hsame). assert (owns_one others st1) as Ho1'.
      { destruct (decide (round n <= size_ st.1)) as [Hle|Hgt]; [by rewrite (Hsame Hle)|]. apply owned_owns; [done|]. apply Hnew. lia. }
      destruct (IH st1 Ho1' ltac:(lia)) as (st' & answers & -> & Ha & Ho' & Hm & Hans & Hg). cbn [mbind option_bind]. eexists _, _. split; [done|].
      rewrite fmap_cons, Ha. split_and!; [done|done|lia| |].
      * constructor; [|done]. by constructor; cbn [asked granted before after]; [..|split; [|apply Hsame]|].
      * constructor; [|done]. cbn [asked granted]. lia.
    + destruct Hr as [Hlt Hnone]. destruct (IH st Ho Hsz) as (st' & answers & -> & Ha & Ho' & Hm & Hans & Hg). cbn [mbind option_bind]. eexists _, _. split; [done|].
      rewrite fmap_cons, Ha. split_and!; [done|done|lia| |].
      * constructor; [|done]. constructor; cbn [asked granted before after]; (done || lia).
      * by constructor.
Qed.

(** [C32] The scratch pad from its construction on, for requests of less than 2^63 bytes
    and whatever the allocator answers: the constructor fails only if the allocator does;
    from then on, before and after every request, the manager owns exactly one block,
    aligned to a cache line, next to the untouched blocks of others, so nothing leaks and
    no block is freed that is not in use.  A granted request leaves a block of at least
    its size, a request that already fits keeps the block, and a request is refused only
    when the allocator refuses it in that very state, and then changes nothing.  The last
    block is large enough for every request that was granted. *)
Theorem scratchpad_owned others sizes : Forall (fun n => 0 <= n < 2 ^ 63) sizes ->
  match new_manager others with
  | None => False
  | Some (Throw _) => aligned_alloc 524288 others = None
  | Some (Ok st0) => exists st answers, requests sizes st0 = Some (st, answers) /\ asked <$> answers = sizes /\
      owns_one others st0 /\ 524288 <= size_ st0.1 /\ owns_one others st /\
      Forall (answered others) answers /\ Forall (fun a => granted a = true -> asked a <= size_ st.1) answers
  end.
Proof.
  intros Hs. unfold new_manager. pose proof (realloc_owned others (allocation_unit * 128) ({| size_ := 0; ptr_ := None |}, others) ltac:(by split) ltac:(done)) as Hr.
  destruct (realloc _ _) as [[st0|msg]|]; [| |done].
  - destruct Hr as (Ho & Hn & _ & Hnew & _). change (allocation_unit * 128) with 524288 in Hn.
    assert (owns_one others st0) as Ho0 by (apply owned_owns; [done|]; by apply Hnew).
    destruct (requests_answered others sizes Hs st0 Ho0 ltac:(lia)) as (st & answers & -> & Ha & Ho' & _ & Hans & Hg). exists st, answers. by split_and!.
  - by destruct Hr as [_ Hr].
Qed.

End Owned.

(** An allocator that hands out addresses above all blocks in use, up to a limit. *)
Definition bump (limit : Z) : Malloc := fun n h =>
  if limit <? n then None else Some (64 * (1 + map_fold (fun p _ m => Z.max m (Z.max 0 p)) 0 h)).

Lemma bump_alloc_ok limit : @MallocOk (bump limit).
Proof.
  assert (forall h : Heap, forall p, is_Some (h !! p) -> p <= map_fold (fun p _ m => Z.max m (Z.max 0 p)) 0 h /\ 0 <= map_fold (fun p _ m => Z.max m (Z.max 0 p)) 0 h) as G.
  { refine (map_fold_weak_ind (fun r (h : Heap) => forall p, is_Some (h !! p) -> p <= r /\ 0 <= r) _ 0 _ _).
    - intros p. rewrite lookup_empty. by intros [].
    - intros q x h r _ IH p. destruct (decide (p = q)) as [->|Hne]; [lia|]. rewrite lookup_insert_ne by done. intros Hp%IH. lia. }
  constructor; unfold aligned_alloc, bump; intros n h p; destruct (limit <? n); [done| |done|]; intros [= <-].
  - destruct (h !! _) as [x|] eqn:Hx; [|done]. destruct (G h _ (mk_is_Some _ _ Hx)). lia.
  - apply Z.divide_factor_l.
Qed.

Lemma scratchpad_owned_witness : exists st0 st answers,
  @new_manager (bump 1000000) {[ 640 := 8 ]} = Some (Ok st0) /\
  @requests (bump 1000000) [5000; 2000000; 600000] st0 = Some (st, answers) /\
  (fun a => (asked a, granted a)) <$> answers = [(5000, true); (2000000, false); (600000, true)] /\
  size_ st.1 = 602112 /\ owns_one {[ 640 := 8 ]} st /\ Forall (@answered (bump 1000000) {[ 640 := 8 ]}) answers.
Proof.
  pose proof (@scratchpad_owned (bump 1000000) (bump_alloc_ok 1000000) {[ 640 := 8 ]} [5000; 2000000; 600000]) as T.
  destruct (@new_manager (bump 1000000) {[ 640 := 8 ]}) as [[st0|]|] eqn:E0; [|by vm_compute in E0..].
  destruct T as (st & answers & E & _ & _ & _ & Ho & Ha & _).
  { repeat (apply Forall_cons; split; [split; [discriminate|reflexivity]|]). apply Forall_nil. exact I. }
  exists st0, st, answers. split; [done|]. split; [done|]. vm_compute in E0. injection E0 as <-. vm_compute in E.
  injection E as <- <-. split; [reflexivity|]. split; [reflexivity|]. split; [exact Ho|exact Ha].
Defined.

(** ** Every token gets the slot of its position *)

Section SlotsOk.
Context `{ScheduleOk}.
Context (query_start_loc positions block_table slot_mapping : list Z) (block_table_stride block_size n : Z).
Abbreviation q := query_start_loc.

Definition token_slot (r t : Z) : Z :=
  at_ block_table (r * block_table_stride + at_ positions t / block_size) * block_size + at_ positions t mod block_size.

Record slots_ok : Prop := {
  sl_offsets : offsets q n (Z.of_nat (length slot_mapping));
  sl_fit : n < 2147483648 /\ Z.of_nat (length slot_mapping) < 2147483648;
  sl_positions : Z.of_nat (length slot_mapping) <= Z.of_nat (length positions);
  sl_block : 0 < block_size;
  sl_table : forall r t, 0 <= r < n -> at_ q r <= t < at_ q (r + 1) -> 0 <= at_ positions t /\
    0 <= r * block_table_stride + at_ positions t / block_size < Z.of_nat (length block_table)
}.

(** Every token of every request gets the slot of its position in the request's
    blocks, and the slots outside the batch are left alone, for requests in any order. *)
Theorem compute_slot_mapping_spec : slots_ok ->
  exists slots, compute_slot_mapping_kernel_impl query_start_loc positions block_table block_table_stride block_size slot_mapping = Some slots /\
    length slots = length slot_mapping /\
    (forall r t, 0 <= r < n -> at_ q r <= t < at_ q (r + 1) -> rd slots t = Some (token_slot r t)) /\
    (forall t, t < at_ q 0 \/ at_ q n <= t -> rd slots t = rd slot_mapping t).
Proof.
  intros [O [Hn Hfit] Hpos Hb Htab]. unfold compute_slot_mapping_kernel_impl, parallel_for. pose proof (of_nonneg _ _ _ O) as Hn0. pose proof (of_length _ _ _ O) as Lq.
  rewrite Lq. replace (n + 1 - 1) with n by lia. rewrite i32_id by (unfold is_i32; lia).
  destruct (for_each_stores (fun s => s) (fun _ => True) (schedule n) (map_request q positions block_table block_table_stride block_size)
    (fun r t => at_ q r <= t < at_ q (r + 1)) (fun _ t => t) token_slot slot_mapping) as (slots & E & _ & W).
  - apply NoDup_schedule.
  - intros r r' t t' Hr%elem_of_schedule Hr'%elem_of_schedule Ht Ht' <-. destruct (Z.lt_trichotomy r r') as [Hlt|[->|Hlt]]; [|done|].
    + pose proof (offsets_le _ _ _ (r + 1) r' O). lia.
    + pose proof (offsets_le _ _ _ (r' + 1) r O). lia.
  - done.
  - intros r s Hr%elem_of_schedule _ Ls _. unfold map_request. rewrite !(rd_at q) by lia. cbn [mbind option_bind].
    pose proof (of_mono _ _ _ O r Hr) as Hm. pose proof (offsets_bounds _ _ _ r O ltac:(lia)). pose proof (offsets_bounds _ _ _ (r + 1) O ltac:(lia)).
    rewrite i32_id by (unfold is_i32; lia).
    destruct (for_range_stores (fun s => s) (fun _ => True) (at_ q (r + 1) - at_ q r) (map_token positions block_table block_table_stride block_size r (at_ q r))
      (fun _ (_ : unit) => True) (fun i _ => at_ q r + i) (fun i _ => token_slot r (at_ q r + i)) s) as (s' & E1 & _ & W1).
    + intros; lia.
    + done.
    + intros i a Hi _ La _. unfold map_token. rewrite (rd_at positions) by lia. cbn [mbind option_bind].
      destruct (Htab r (at_ q r + i) Hr ltac:(lia)) as [Hp Hbt]. rewrite Z.quot_div_nonneg, Z.rem_mod_nonneg by lia.
      rewrite (rd_at block_table) by lia. cbn [mbind option_bind].
      destruct (wr_stores a (at_ q r + i) (token_slot r (at_ q r + i))) as (a' & Ea & Wa); [lia|]. by exists a'.
    + exists s'. split; [exact E1|]. split; [done|]. eapply stores_reindex; [| |exact W1].
      * intros t Ht. cbn beta in *. exists (t - at_ q r, tt). cbn [fst snd]. replace (at_ q r + (t - at_ q r)) with t by lia. split_and!; lia || done.
      * intros [i u] [Hi _]. cbn [fst snd] in *. exists (at_ q r + i). split_and!; lia.
  - exists slots. split; [exact E|]. split; [exact (stores_length _ _ _ _ _ W)|]. split.
    + intros r t Hr Ht. apply (stores_in _ _ _ _ _ W (r, t)). split; [by apply elem_of_schedule|done].
    + intros t Ht. apply (stores_out _ _ _ _ _ W). intros [r t'] [Hr%elem_of_schedule Ht'] Heq. cbn [fst snd] in *.
      pose proof (offsets_le _ _ _ 0 r O). pose proof (offsets_le _ _ _ (r + 1) n O). lia.
Qed.

End SlotsOk.

Lemma compute_slot_mapping_spec_witness :
  @compute_slot_mapping_kernel_impl backwards [1; 3; 4] [9; 17; 18; 3; 0] [5; 7; 2; 8; 6; 4] 3 16 [-1; -1; -1; -1; -1]
    = Some [-1; 113; 114; 131; -1].
Proof.
  destruct (@compute_slot_mapping_spec backwards backwards_ok [1; 3; 4] [9; 17; 18; 3; 0] [5; 7; 2; 8; 6; 4] [-1; -1; -1; -1; -1] 3 16 2) as (slots & E & _).
  - assert (forall r, 0 <= r < 2 -> r = 0 \/ r = 1) as Htwo by lia.
    constructor; try (vm_compute; intuition congruence).
    + constructor; try (vm_compute; congruence). intros r [-> | ->]%Htwo; vm_compute; congruence.
    + intros r t [-> | ->]%Htwo Ht; [change (1 <= t < 3) in Ht; assert (t = 1 \/ t = 2) as [-> | ->] by lia|change (3 <= t < 4) in Ht; assert (t = 3) as -> by lia]; vm_compute; intuition congruence.
  - rewrite E. vm_compute in E. symmetry. exact E.
Defined.

End CpuUtils.
