(* ===== verification/MoeLayout.v ===== *)
(** * The scratch memory of the fused mixture-of-experts layer ([csrc/cpu/cpu_fused_moe.cpp])

    The buffers that [FusedMoe] takes as separate arrays are regions of the scratch pad:
    six shared ones and, behind them, one area per thread that the first product and the
    weighted sum lay out differently.  Sizes are computed in [size_t] and kept in
    [int64_t], the size of the gathered rows in [int32_t]. *)

From S2P Require Import Prelude Arrays Counting Stores MicroGemm FusedMoe Regions CpuUtils.

#[local] Open Scope Z_scope.

Module MoeLayout.
Import MicroGemm FusedMoe CpuUtils.

(** [cpu_utils::round_up<64>] of a [size_t], kept in an [int64_t]. *)
Definition buffer_size_of (bytes : Z) : Z := i64 (u64 (round_up 64 (u64 bytes))).

Section Layout.
Context (z : Sizes).
Abbreviation N := (token_num z * topk_num z).

Definition token_num_per_group_buffer_size : Z := buffer_size_of (expert_num z * 4).
Definition cu_token_num_per_group_buffer_size : Z := buffer_size_of ((expert_num z + 1) * 4).
Definition expand_token_id_buffer_size : Z := buffer_size_of (i64 N * 4).
Definition w13_gemm_output_buffer_size : Z := buffer_size_of (i64 (i64 N * Z.quot (output_size_13 z) 2) * sizeof_scalar z).
Definition w2_gemm_output_buffer_size : Z := buffer_size_of (i64 (i64 N * output_size_2 z) * 4).
Definition w13_output_buffer_size : Z := buffer_size_of (i32 (MaxMSize * w13_n_tile_size z) * 4).
Definition ws_output_buffer_size : Z := buffer_size_of (output_size_2 z * 4).

(** The shared buffers, one after the other. *)
Definition token_num_per_group_buffer_offset : Z := 0.
Definition cu_token_num_per_group_buffer_offset : Z := token_num_per_group_buffer_offset + token_num_per_group_buffer_size.
Definition expand_token_id_buffer_offset : Z := cu_token_num_per_group_buffer_offset + cu_token_num_per_group_buffer_size.
Definition expand_token_id_index_buffer_offset : Z := expand_token_id_buffer_offset + expand_token_id_buffer_size.
Definition w13_gemm_output_buffer_offset : Z := expand_token_id_index_buffer_offset + expand_token_id_buffer_size.
Definition w2_gemm_output_buffer_offset : Z := w13_gemm_output_buffer_offset + w13_gemm_output_buffer_size.
Definition common_buffer_offset : Z := w2_gemm_output_buffer_offset + w2_gemm_output_buffer_size.

(** The area of a thread, for the first product and for the sum. *)
Definition w13_output_buffer_offset : Z := w13_input_buffer_size z.
Definition w13_thread_buffer_offset : Z := w13_input_buffer_size z + w13_output_buffer_size.
Definition ws_thread_buffer_offset : Z := ws_output_buffer_size.

Definition buffer_size : Z := common_buffer_offset + Z.max w13_thread_buffer_offset ws_thread_buffer_offset * thread_num z.

(** ** The regions that the phases use, with the bytes that they need *)

Definition common_regions : list (Z * Z) :=
  [(token_num_per_group_buffer_offset, expert_num z * 4);
   (cu_token_num_per_group_buffer_offset, (expert_num z + 1) * 4);
   (expand_token_id_buffer_offset, N * 4);
   (expand_token_id_index_buffer_offset, N * 4);
   (w13_gemm_output_buffer_offset, N * Z.quot (output_size_13 z) 2 * sizeof_scalar z);
   (w2_gemm_output_buffer_offset, N * output_size_2 z * 4)].

Definition w13_regions (t : Z) : list (Z * Z) :=
  let thread_buffer := common_buffer_offset + t * w13_thread_buffer_offset in
  [(thread_buffer, MaxMSize * input_size_13 z * sizeof_scalar z);
   (thread_buffer + w13_output_buffer_offset, MaxMSize * w13_n_tile_size z * 4)].

Definition ws_regions (t : Z) : list (Z * Z) := [(common_buffer_offset + t * ws_thread_buffer_offset, output_size_2 z * 4)].

(** The sizes at which nothing wraps. *)
Record bytes_ok : Prop := {
  by_tokens : 0 <= token_num z;
  by_topk : 0 <= topk_num z;
  by_experts : 0 <= expert_num z < 2147483647;
  by_threads : 0 <= thread_num z;
  by_total : buffer_size < 2 ^ 63;
  by_elem : 1 <= sizeof_scalar z <= 8;
  by_in : 0 <= input_size_13 z;
  by_mid : 0 <= output_size_13 z;
  by_out : 0 <= output_size_2 z < 2147483648;
  by_rows : MaxMSize * input_size_13 z * sizeof_scalar z + 63 < 2147483648;
  by_tile : MaxMSize * w13_n_tile_size z < 2147483648;
  by_hidden : N * output_size_13 z < 2 ^ 59;
  by_result : N * output_size_2 z < 2 ^ 59;
  by_slots : N < 2 ^ 59
}.

Lemma round_up_spec n : 0 <= n -> n <= round_up 64 n < n + 64 /\ (64 | round_up 64 n).
Proof.
  intros Hn. unfold round_up. rewrite Z.quot_div_nonneg by lia. split; [|apply Z.divide_factor_r].
  pose proof (Z.div_mod (n + 64 - 1) 64 ltac:(lia)). pose proof (Z.mod_pos_bound (n + 64 - 1) 64 ltac:(lia)). lia.
Qed.

Lemma buffer_size_ok n : 0 <= n < 2 ^ 62 -> n <= buffer_size_of n < n + 64 /\ (64 | buffer_size_of n).
Proof.
  intros Hn. unfold buffer_size_of. rewrite (u64_id n) by (unfold is_u64; lia). destruct (round_up_spec n) as [H1 H2]; [lia|].
  rewrite u64_id, i64_id by (unfold is_u64, is_i64; lia). done.
Qed.

Context (B : bytes_ok).

Lemma w13_input_ok : let n := MaxMSize * input_size_13 z * sizeof_scalar z in
  n <= w13_input_buffer_size z /\ (64 | w13_input_buffer_size z).
Proof.
  intros n. destruct B as [_ _ _ _ _ He Hi _ _ Hr _ _ _ _]. unfold w13_input_buffer_size. change MaxMSize with 8 in *.
  change (n + 63 < 2147483648) in Hr. assert (0 <= 8 * input_size_13 z <= n) by (unfold n; clear -He Hi; nia). rewrite (i32_id (8 * input_size_13 z)) by (unfold is_i32; lia).
  fold n. rewrite u64_id by (unfold is_u64; lia). destruct (round_up_spec n) as [H1 H2]; [lia|]. rewrite i32_id by (unfold is_i32; lia). split; [lia|done].
Qed.

Lemma thread_areas : 0 <= w13_thread_buffer_offset /\ (64 | w13_thread_buffer_offset) /\
  0 <= ws_thread_buffer_offset /\ (64 | ws_thread_buffer_offset) /\
  MaxMSize * input_size_13 z * sizeof_scalar z <= w13_output_buffer_offset /\ (64 | w13_output_buffer_offset) /\
  w13_output_buffer_offset + MaxMSize * w13_n_tile_size z * 4 <= w13_thread_buffer_offset /\ output_size_2 z * 4 <= ws_thread_buffer_offset.
Proof.
  destruct w13_input_ok as [I1 I2]. pose proof (by_out B). pose proof (by_tile B). destruct (w13_tile_ok z) as [Ht _]. pose proof (by_in B). pose proof (by_elem B).
  assert (0 <= MaxMSize * input_size_13 z * sizeof_scalar z) by (repeat apply Z.mul_nonneg_nonneg; change MaxMSize with 8; lia).
  unfold w13_thread_buffer_offset, ws_thread_buffer_offset, w13_output_buffer_offset, w13_output_buffer_size, ws_output_buffer_size.
  change MaxMSize with 8 in *. rewrite (i32_id (8 * w13_n_tile_size z)) by (unfold is_i32; lia).
  destruct (buffer_size_ok (8 * w13_n_tile_size z * 4)) as [A1 A2]; [lia|]. destruct (buffer_size_ok (output_size_2 z * 4)) as [A3 A4]; [lia|].
  split_and!; try done; try lia. by apply Z.divide_add_r.
Qed.

Lemma common_packed : packed 0 (common_regions) common_buffer_offset /\ (64 | common_buffer_offset).
Proof.
  destruct B as [HT Hk HE _ _ He _ Hm Ho _ _ Hh Hr Hs].
  assert (0 <= N) by (by apply Z.mul_nonneg_nonneg).
  set (half := Z.quot (output_size_13 z) 2). assert (0 <= half /\ half * 2 <= output_size_13 z) as [Hh0 Hh1].
  { unfold half. rewrite Z.quot_div_nonneg by lia. pose proof (Z.div_mod (output_size_13 z) 2 ltac:(lia)). pose proof (Z.mod_pos_bound (output_size_13 z) 2 ltac:(lia)). lia. }
  assert (0 <= N * half /\ N * half <= N * output_size_13 z) as [Hn0 Hn1] by (split; [by apply Z.mul_nonneg_nonneg|apply Z.mul_le_mono_nonneg_l; lia]).
  assert (0 <= N * output_size_2 z) by (apply Z.mul_nonneg_nonneg; lia).
  assert (0 <= N * half * sizeof_scalar z < 2 ^ 62) as Hb by nia.
  destruct (buffer_size_ok (expert_num z * 4)) as [A1 D1]; [lia|]. destruct (buffer_size_ok ((expert_num z + 1) * 4)) as [A2 D2]; [lia|].
  destruct (buffer_size_ok (N * 4)) as [A3 D3]; [lia|]. destruct (buffer_size_ok (N * half * sizeof_scalar z) Hb) as [A4 D4].
  destruct (buffer_size_ok (N * output_size_2 z * 4)) as [A5 D5]; [lia|].
  unfold common_regions, common_buffer_offset, w2_gemm_output_buffer_offset, w13_gemm_output_buffer_offset, expand_token_id_index_buffer_offset,
    expand_token_id_buffer_offset, cu_token_num_per_group_buffer_offset, token_num_per_group_buffer_offset, token_num_per_group_buffer_size,
    cu_token_num_per_group_buffer_size, expand_token_id_buffer_size, w13_gemm_output_buffer_size, w2_gemm_output_buffer_size. fold half.
  rewrite (i64_id N) by (unfold is_i64; lia). rewrite (i64_id (N * half)), (i64_id (N * output_size_2 z)) by (unfold is_i64; lia).
  assert ((64 | 0)) as D0 by apply Z.divide_0_r.
  split; [cbn [packed]; split_and!; try lia|]; repeat (assumption || apply Z.divide_add_r).
Qed.

(** [C19] After the scratch pad has granted the size that the layer asks for, the buffers
    of the layer lie inside the one block of the pad, one after the other and each on
    cache lines of its own: the shared ones and, for every thread, those of the first
    product, or those of the weighted sum.  Each has the bytes that the phases use. *)
Theorem moe_scratch_sound `{MallocOk} others st st' : owned others st -> realloc buffer_size st = Some (Ok st') ->
  packed 0 (common_regions ++ (seqZ 0 (thread_num z) ≫= w13_regions)) (size_ st'.1) /\
  packed 0 (common_regions ++ (seqZ 0 (thread_num z) ≫= ws_regions)) (size_ st'.1) /\
  owned others st'.
Proof.
  intros Ho Er. destruct thread_areas as (T1 & T2 & T3 & T4 & T5 & T6 & T7 & T8). destruct common_packed as [Hc Dc].
  pose proof (packed_le _ _ _ Hc). pose proof (by_threads B). pose proof (by_in B). pose proof (by_elem B). pose proof (by_out B). destruct (w13_tile_ok z) as [Ht _].
  assert (0 <= buffer_size < 2 ^ 63) as Hb.
  { split; [|apply (by_total B)]. unfold buffer_size. assert (0 <= Z.max w13_thread_buffer_offset ws_thread_buffer_offset * thread_num z) by (apply Z.mul_nonneg_nonneg; lia). lia. }
  pose proof (realloc_owned others buffer_size st Hb Ho) as Hr. rewrite Er in Hr. destruct Hr as (Ho' & Hsz & _).
  assert (0 <= MaxMSize * input_size_13 z * sizeof_scalar z) by (repeat apply Z.mul_nonneg_nonneg; change MaxMSize with 8; lia).
  assert (forall size regions, 0 <= size <= Z.max w13_thread_buffer_offset ws_thread_buffer_offset ->
    (forall t, 0 <= t < thread_num z -> packed (common_buffer_offset + t * size) (regions t) (common_buffer_offset + (t + 1) * size)) ->
    packed 0 (common_regions ++ (seqZ 0 (thread_num z) ≫= regions)) (size_ st'.1)) as Hall.
  { intros size regions Hs Hp. eapply packed_app; [exact Hc|]. eapply packed_weaken; [apply (packed_threads _ size); [lia|exact Hp]|].
    assert (thread_num z * size <= Z.max w13_thread_buffer_offset ws_thread_buffer_offset * thread_num z) by (rewrite Z.mul_comm; apply Z.mul_le_mono_nonneg_r; lia).
    unfold buffer_size in Hsz. lia. }
  split; [|split; [|done]].
  - apply (Hall w13_thread_buffer_offset); [lia|]. intros t Htt. unfold w13_regions. cbn [packed]. change MaxMSize with 8 in *.
    assert ((64 | t * w13_thread_buffer_offset)) by (by apply Z.divide_mul_r).
    split_and!; try lia; repeat (assumption || apply Z.divide_add_r).
  - apply (Hall ws_thread_buffer_offset); [lia|]. intros t Htt. unfold ws_regions. cbn [packed].
    assert ((64 | t * ws_thread_buffer_offset)) by (by apply Z.divide_mul_r).
    split_and!; try lia; by apply Z.divide_add_r.
Qed.

End Layout.

Lemma moe_scratch_sound_witness :
  exists st', @realloc (bump (2 ^ 40)) (buffer_size sample_sizes) ({| size_ := 0; ptr_ := None |}, ∅) = Some (Ok st') /\
    packed 0 (common_regions sample_sizes ++ (seqZ 0 2 ≫= w13_regions sample_sizes)) (size_ st'.1).
Proof.
  destruct (@realloc (bump (2 ^ 40)) (buffer_size sample_sizes) ({| size_ := 0; ptr_ := None |}, ∅)) as [[st'|msg]|] eqn:E.
  - exists st'. split; [reflexivity|].
    assert (bytes_ok sample_sizes) as B by (constructor; vm_compute; intuition congruence).
    assert (owned ∅ ({| size_ := 0; ptr_ := None |}, ∅)) as Ho by (split; reflexivity).
    destruct (@moe_scratch_sound sample_sizes B (bump (2 ^ 40)) (bump_alloc_ok (2 ^ 40)) ∅ ({| size_ := 0; ptr_ := None |}, ∅) st' Ho E) as [P _]. exact P.
  - vm_compute in E. congruence.
  - vm_compute in E. congruence.
Defined.

End MoeLayout.
