(* ===== verification/AttnSchedule.v ===== *)
(** * The CPU attention scheduler: cutting the work

    [csrc/cpu/cpu_attn_impl.hpp], class [AttentionScheduler].  Before an attention
    step the scheduler cuts the batch into work items: a run of query tokens of a
    request with its whole context, or one query tile with a part of its context
    when that context exceeds a thread's share (the parts are combined later by a
    reduction).  [Attn.partition] is the [partition] lambda of [schedule]; the first
    definitions are the static helpers it shares with the kernel.

    The number of threads and the size of the cache, which [cpu_utils] reports, are
    parameters.  Quotients and remainders are C++'s ([Z.quot], [Z.rem]); vector
    accesses are checked.  Lengths and positions are exact integers: that they stay
    inside [int32_t] is not modelled. *)

From S2P Require Import Prelude Arrays.

#[local] Open Scope Z_scope.

Module Attn.

Inductive ISA := AMX | VEC | VEC16 | NEON | VXE | RVV | VSX | AMX_FP8.

(** ** Positions and sizes of tiles *)

Definition MaxQTileIterNum : Z := 128.

Definition calcu_sliding_window_size (window_size : Z) (causal : bool) : Z * Z :=
  if negb (window_size =? -1) then
    (window_size - 1, if causal then 0 else window_size - 1)
  else (-1, if causal then 0 else -1).

Definition calcu_kv_tile_pos (kv_left_pos kv_right_pos q_left_pos q_right_pos window_size : Z)
    (causal : bool) : Z * Z :=
  let '(left_sliding_window_size, right_sliding_window_size) :=
    calcu_sliding_window_size window_size causal in
  (if negb (left_sliding_window_size =? -1)
   then Z.max kv_left_pos (q_left_pos - left_sliding_window_size) else kv_left_pos,
   if negb (right_sliding_window_size =? -1)
   then Z.min kv_right_pos (q_right_pos + right_sliding_window_size) else kv_right_pos).

Definition align_kv_tile_pos (kv_left_pos kv_right_pos align_factor : Z) : Z * Z :=
  (Z.quot kv_left_pos align_factor * align_factor,
   Z.quot (kv_right_pos + align_factor - 1) align_factor * align_factor).

Definition calcu_default_tile_size (cache_size head_dim elem_size q_buffer_elem_size
    logits_buffer_elem_size output_buffer_elem_size max_num_q_per_iter round_size : Z) : Z :=
  let tile_size := Z.quot cache_size
    (head_dim * (q_buffer_elem_size + 2 * elem_size + output_buffer_elem_size)
     + max_num_q_per_iter * logits_buffer_elem_size) in
  let tile_size := Z.min tile_size (MaxQTileIterNum * max_num_q_per_iter) in
  let rounded_tile_size := Z.quot tile_size round_size * round_size in
  Z.max rounded_tile_size round_size.

Definition calcu_tile_size_with_constant_q (cache_size head_dim elem_size q_buffer_elem_size
    logits_buffer_elem_size output_buffer_elem_size max_num_q_per_iter round_size q_tile_size : Z)
    (one_round : bool) : Z :=
  let free := cache_size - q_tile_size * head_dim * (q_buffer_elem_size + output_buffer_elem_size) in
  let tile_size :=
    if one_round then Z.quot free (logits_buffer_elem_size * max_num_q_per_iter)
    else Z.quot free (logits_buffer_elem_size * max_num_q_per_iter + 2 * head_dim * elem_size) in
  let rounded_tile_size := Z.quot tile_size round_size * round_size in
  Z.max rounded_tile_size round_size.

(** ** The input *)

Record ScheduleInput := {
  num_reqs : Z;
  elem_size : Z;
  q_buffer_elem_size : Z;
  logits_buffer_elem_size : Z;
  output_buffer_elem_size : Z;
  num_heads_q : Z;
  num_heads_kv : Z;
  head_dim : Z;
  query_start_loc : list Z;
  seq_lens : list Z;
  sliding_window_size : Z;
  causal : bool;
  isa : ISA;
  max_num_q_per_iter : Z;
  kv_block_alignment : Z;
  enable_kv_split : bool;
  dynamic_causal : option (list Z)
}.

Record PartitionItem := {
  pi_req_id : Z;
  pi_q_token_id_start : Z;
  pi_q_token_num : Z;
  pi_kv_split_pos_start : Z;
  pi_kv_split_pos_end : Z;
  pi_total_kv_len : Z;
  pi_reduction : Z;
  pi_local_split_id : Z;
  pi_group : Z
}.

(** The constructor. *)
Definition new_item (req token start end_ q_group : Z) : PartitionItem := {|
  pi_req_id := req; pi_q_token_id_start := token; pi_q_token_num := 0;
  pi_kv_split_pos_start := start; pi_kv_split_pos_end := end_; pi_total_kv_len := 0;
  pi_reduction := -1; pi_local_split_id := 0; pi_group := q_group |}.

Record PartitionReduction := {
  pr_req_id : Z;
  pr_token_start : Z;
  pr_token_num : Z;
  pr_group : Z;
  pr_split_num : Z
}.

Record Partitions := {
  items : list PartitionItem;
  reductions : list PartitionReduction;
  offsets_ : list Z;
  head_stride : Z
}.

(** ** State of the cut *)

(** The vectors under construction, and the thread that is being filled. *)
Record State := {
  workitems : list PartitionItem;
  reduce_workitems : list PartitionReduction;
  workitem_num_per_thread : list Z;
  curr_thread_id : Z;
  remaining_kv_len : Z
}.

(** The variables of one query tile. *)
Record Locals := {
  curr_workitem : PartitionItem;
  curr_kv_len : Z;
  kv_token_pos_start : Z;
  local_split_id : Z
}.

(** [curr_workitem.q_token_num += tokens; curr_workitem.total_kv_len += len] *)
Definition grow (it : PartitionItem) (tokens len : Z) : PartitionItem := {|
  pi_req_id := pi_req_id it; pi_q_token_id_start := pi_q_token_id_start it;
  pi_q_token_num := pi_q_token_num it + tokens;
  pi_kv_split_pos_start := pi_kv_split_pos_start it; pi_kv_split_pos_end := pi_kv_split_pos_end it;
  pi_total_kv_len := pi_total_kv_len it + len;
  pi_reduction := pi_reduction it; pi_local_split_id := pi_local_split_id it; pi_group := pi_group it |}.

(** [curr_workitem.reduction = red; curr_workitem.local_split_id = lid] *)
Definition as_split (it : PartitionItem) (red lid : Z) : PartitionItem := {|
  pi_req_id := pi_req_id it; pi_q_token_id_start := pi_q_token_id_start it;
  pi_q_token_num := pi_q_token_num it;
  pi_kv_split_pos_start := pi_kv_split_pos_start it; pi_kv_split_pos_end := pi_kv_split_pos_end it;
  pi_total_kv_len := pi_total_kv_len it;
  pi_reduction := red; pi_local_split_id := lid; pi_group := pi_group it |}.

(** [workitems.emplace_back(it); ++workitem_num_per_thread[curr_thread_id]] *)
Definition emplace (it : PartitionItem) (st : State) : option State :=
  n ← rd (workitem_num_per_thread st) (curr_thread_id st);
  num ← wr (workitem_num_per_thread st) (curr_thread_id st) (n + 1);
  Some {| workitems := workitems st ++ [it]; reduce_workitems := reduce_workitems st;
          workitem_num_per_thread := num; curr_thread_id := curr_thread_id st;
          remaining_kv_len := remaining_kv_len st |}.

(** The item is written back when it holds something. *)
Definition emplace_nonempty (it : PartitionItem) (st : State) : option State :=
  if 0 <? pi_total_kv_len it then emplace it st else Some st.

(** [++reduce_workitems.back().split_num] *)
Definition bump (r : PartitionReduction) : PartitionReduction := {|
  pr_req_id := pr_req_id r; pr_token_start := pr_token_start r; pr_token_num := pr_token_num r;
  pr_group := pr_group r; pr_split_num := pr_split_num r + 1 |}.

Definition bump_back (st : State) : option State :=
  let n := Z.of_nat (length (reduce_workitems st)) in
  r ← rd (reduce_workitems st) (n - 1);
  reds ← wr (reduce_workitems st) (n - 1) (bump r);
  Some {| workitems := workitems st; reduce_workitems := reds;
          workitem_num_per_thread := workitem_num_per_thread st;
          curr_thread_id := curr_thread_id st; remaining_kv_len := remaining_kv_len st |}.

Definition push_reduction (r : PartitionReduction) (st : State) : State := {|
  workitems := workitems st; reduce_workitems := reduce_workitems st ++ [r];
  workitem_num_per_thread := workitem_num_per_thread st;
  curr_thread_id := curr_thread_id st; remaining_kv_len := remaining_kv_len st |}.

(** [++curr_thread_id; remaining_kv_len = kv_len_per_thread] *)
Definition next_thread (kv_len_per_thread : Z) (st : State) : State := {|
  workitems := workitems st; reduce_workitems := reduce_workitems st;
  workitem_num_per_thread := workitem_num_per_thread st;
  curr_thread_id := curr_thread_id st + 1; remaining_kv_len := kv_len_per_thread |}.

Definition set_remaining (rem : Z) (st : State) : State := {|
  workitems := workitems st; reduce_workitems := reduce_workitems st;
  workitem_num_per_thread := workitem_num_per_thread st;
  curr_thread_id := curr_thread_id st; remaining_kv_len := rem |}.

Definition last_reduction (st : State) : Z := Z.of_nat (length (reduce_workitems st)) - 1.

Section Partition.
Context (thread_num cache_size : Z) (input : ScheduleInput).

Definition original_q_head_per_kv : Z := Z.quot (num_heads_q input) (num_heads_kv input).

Definition min_split_kv_len : Z :=
  Z.quot (max_num_q_per_iter input * 16 + kv_block_alignment input - 1) (kv_block_alignment input)
  * kv_block_alignment input.

Definition default_tile_size : Z :=
  calcu_default_tile_size cache_size (head_dim input) (elem_size input) (q_buffer_elem_size input)
    (logits_buffer_elem_size input) (output_buffer_elem_size input) (max_num_q_per_iter input)
    (max_num_q_per_iter input).

Definition request_q_token_num (req_id : Z) : option Z :=
  e ← rd (query_start_loc input) (req_id + 1);
  s ← rd (query_start_loc input) req_id;
  Some (e - s).

Definition request_causal (req_id : Z) : option bool :=
  match dynamic_causal input with
  | Some d => c ← rd d req_id; Some (negb (c =? 0))
  | None => Some (causal input)
  end.

Definition request_q_head_group (req_id : Z) : option Z :=
  if original_q_head_per_kv >? max_num_q_per_iter input then Some 1
  else if Z.rem (max_num_q_per_iter input) original_q_head_per_kv =? 0
  then Some original_q_head_per_kv
  else
    n ← request_q_token_num req_id;
    Some (if n * original_q_head_per_kv <=? max_num_q_per_iter input
          then original_q_head_per_kv else 1).

(** What both passes over the batch read of a request. *)
Record Request := {
  r_req_id : Z;
  r_group : Z;
  r_seq_len : Z;
  r_q_token_num : Z;
  r_causal : bool
}.

Definition request (req_id : Z) : option Request :=
  group ← request_q_head_group req_id;
  seq_len ← rd (seq_lens input) req_id;
  q_token_num ← request_q_token_num req_id;
  req_causal ← request_causal req_id;
  Some {| r_req_id := req_id; r_group := group; r_seq_len := seq_len;
          r_q_token_num := q_token_num; r_causal := req_causal |}.

Definition max_num_q_token_per_iter (r : Request) : Z :=
  Z.quot (max_num_q_per_iter input) (r_group r).

(** One query tile: its tokens and its aligned context. *)
Definition q_tile_token_num (r : Request) (token_id : Z) : Z :=
  Z.min (max_num_q_token_per_iter r) (r_q_token_num r - token_id).

Definition tile_kv (r : Request) (token_id : Z) : Z * Z :=
  let q_start_pos := r_seq_len r - r_q_token_num r in
  let q_tile_pos_left := q_start_pos + token_id in
  let q_tile_pos_right := q_tile_pos_left + q_tile_token_num r token_id in
  let '(kv_tile_pos_left, kv_tile_pos_right) :=
    calcu_kv_tile_pos 0 (r_seq_len r) q_tile_pos_left q_tile_pos_right
      (sliding_window_size input) (r_causal r) in
  align_kv_tile_pos kv_tile_pos_left kv_tile_pos_right (kv_block_alignment input).

(** ** First pass: the total context and the common stride of the heads *)

Definition count_request (req_id : Z) (st : Z * Z) : option (Z * Z) :=
  let '(stride, total_kv_len) := st in
  r ← request req_id;
  total ← for_step 0 (r_q_token_num r) (max_num_q_token_per_iter r)
    (fun token_id total =>
       let '(kv_left, kv_right) := tile_kv r token_id in Some (total + (kv_right - kv_left)))
    total_kv_len;
  Some (Z.gcd stride (r_group r), total).

Definition count_requests : option (Z * Z) :=
  for_range 0 (num_reqs input) count_request (original_q_head_per_kv, 0).

Definition kv_len_per_thread_of (total_kv_len : Z) : Z :=
  Z.quot (Z.quot total_kv_len thread_num + kv_block_alignment input - 1) (kv_block_alignment input)
  * kv_block_alignment input.

(** ** Second pass: the items *)

Section Tile.
Context (kv_len_per_thread : Z) (r : Request) (token_id kv_left kv_right : Z).

Definition fresh_item (token start : Z) : PartitionItem :=
  new_item (r_req_id r) token start (r_seq_len r) (r_group r).

(** The rest of the tile fits the thread, or there is no other thread. *)
Definition accept (st : State) (lc : Locals) : option (State * PartitionItem) :=
  let it := grow (curr_workitem lc) (q_tile_token_num r token_id) (curr_kv_len lc) in
  let rem := remaining_kv_len st - curr_kv_len lc in
  let st := set_remaining (if rem <? 0 then rem - min_split_kv_len else rem) st in
  if negb (pi_kv_split_pos_start it =? 0) then
    st1 ← emplace (as_split it (last_reduction st) (local_split_id lc)) st;
    st2 ← bump_back st1;
    Some (st2, fresh_item (token_id + max_num_q_token_per_iter r) 0)
  else Some (st, it).

(** Too little is left of the thread: go to the next one and retry. *)
Definition leave_thread (st : State) (lc : Locals) : option (State * Locals) :=
  st1 ← emplace_nonempty (curr_workitem lc) st;
  Some (next_thread kv_len_per_thread st1,
        {| curr_workitem := if 0 <? pi_total_kv_len (curr_workitem lc)
                            then fresh_item token_id 0 else curr_workitem lc;
           curr_kv_len := curr_kv_len lc; kv_token_pos_start := kv_token_pos_start lc;
           local_split_id := local_split_id lc |}).

(** The tile is not to be cut: it goes as a whole to this thread or the next. *)
Definition whole_tile (count : Z) (st : State) (lc : Locals) : option (State * PartitionItem) :=
  let it := curr_workitem lc in
  let default_tile_token_num := Z.quot default_tile_size (r_group r) in
  '(st, it) ←
    (if (Z.rem (pi_q_token_num it) default_tile_token_num =? 0)
        && ((0 <? pi_total_kv_len it) || (0 <? count)) then
       st1 ← emplace_nonempty it st;
       Some (next_thread kv_len_per_thread st1, fresh_item token_id 0)
     else Some (st, it));
  Some (set_remaining (remaining_kv_len st - curr_kv_len lc) st,
        grow it (q_tile_token_num r token_id) (curr_kv_len lc)).

(** Cut off a part of the context for this thread. *)
Definition split_kv (st : State) (lc : Locals) : option (State * Locals) :=
  st1 ← emplace_nonempty (curr_workitem lc) st;
  let st2 := if kv_token_pos_start lc =? kv_left then
      push_reduction {| pr_req_id := r_req_id r; pr_token_start := token_id;
                        pr_token_num := q_tile_token_num r token_id; pr_group := r_group r;
                        pr_split_num := 0 |} st1
    else st1 in
  let spilt_size := Z.min (Z.max (remaining_kv_len st2) min_split_kv_len) (curr_kv_len lc) in
  let it := grow (new_item (r_req_id r) token_id (kv_token_pos_start lc)
                    (kv_token_pos_start lc + spilt_size) (r_group r))
                 (q_tile_token_num r token_id) spilt_size in
  st3 ← emplace (as_split it (last_reduction st2) (local_split_id lc)) st2;
  st4 ← bump_back st3;
  Some (next_thread kv_len_per_thread st4,
        {| curr_workitem := fresh_item token_id (kv_token_pos_start lc + spilt_size);
           curr_kv_len := curr_kv_len lc - spilt_size;
           kv_token_pos_start := kv_token_pos_start lc + spilt_size;
           local_split_id := local_split_id lc + 1 |}).

(** [while (curr_kv_len > 0)] *)
Fixpoint place_tile (fuel : nat) (st : State) (lc : Locals) : option (State * PartitionItem) :=
  match fuel with
  | O => None
  | S fuel =>
      if curr_kv_len lc <=? 0 then Some (st, curr_workitem lc)
      else if (curr_kv_len lc <=? remaining_kv_len st + min_split_kv_len)
           || (curr_thread_id st =? thread_num - 1) then accept st lc
      else
        count ← rd (workitem_num_per_thread st) (curr_thread_id st);
        if (remaining_kv_len st <? min_split_kv_len)
           && ((0 <? pi_total_kv_len (curr_workitem lc)) || (0 <? count)) then
          '(st, lc) ← leave_thread st lc; place_tile fuel st lc
        else if negb (enable_kv_split input) || (kv_right - kv_left <=? kv_len_per_thread) then
          whole_tile count st lc
        else
          '(st, lc) ← split_kv st lc; place_tile fuel st lc
  end.

End Tile.

(** The body of the loop over the query tiles of a request. *)
Definition partition_tile (kv_len_per_thread : Z) (r : Request) (token_id : Z)
    (s : State * PartitionItem) : option (State * PartitionItem) :=
  let '(st, it) := s in
  let '(kv_left, kv_right) := tile_kv r token_id in
  '(st, it) ← place_tile kv_len_per_thread r token_id kv_left kv_right (Z.to_nat thread_num) st
    {| curr_workitem := it; curr_kv_len := kv_right - kv_left;
       kv_token_pos_start := kv_left; local_split_id := 0 |};
  let grouped_query := (1 <? r_group r) && (1 <? r_q_token_num r) in
  let fragment_kv_budget := Z.quot kv_len_per_thread (r_group r) in
  if grouped_query && (0 <? pi_total_kv_len it) && (fragment_kv_budget <=? pi_total_kv_len it) then
    st1 ← emplace it st;
    Some (st1, fresh_item r (token_id + max_num_q_token_per_iter r) 0)
  else Some (st, it).

Definition partition_request (kv_len_per_thread : Z) (req_id : Z) (st : State) : option State :=
  r ← request req_id;
  '(st, it) ← for_step 0 (r_q_token_num r) (max_num_q_token_per_iter r)
    (partition_tile kv_len_per_thread r) (st, fresh_item r 0 0);
  emplace_nonempty it st.

(** [std::partial_sum] after a leading zero. *)
Fixpoint partial_sum (acc : Z) (l : list Z) : list Z :=
  acc :: match l with [] => [] | n :: l => partial_sum (acc + n) l end.

Definition partition : option Partitions :=
  '(stride, total_kv_len) ← count_requests;
  let kv_len_per_thread := kv_len_per_thread_of total_kv_len in
  st ← for_range 0 (num_reqs input) (partition_request kv_len_per_thread)
    {| workitems := []; reduce_workitems := [];
       workitem_num_per_thread := replicate (Z.to_nat thread_num) 0;
       curr_thread_id := 0; remaining_kv_len := kv_len_per_thread |};
  Some {| items := workitems st; reductions := reduce_workitems st;
          offsets_ := partial_sum 0 (workitem_num_per_thread st); head_stride := stride |}.

End Partition.

(** ** Tiles *)

Lemma quot_pos a b : 0 <= a -> 1 <= b -> Z.quot a b = a / b.
Proof. intros. apply Z.quot_div_nonneg; lia. Qed.

(** Rounding up to a multiple. *)
Lemma round_up_bounds a b : 0 <= a -> 1 <= b ->
  a <= Z.quot (a + b - 1) b * b < a + b /\ (b | Z.quot (a + b - 1) b * b).
Proof.
  intros Ha Hb. rewrite quot_pos by lia. split; [|apply Z.divide_factor_r].
  pose proof (Z.div_mod (a + b - 1) b). pose proof (Z.mod_pos_bound (a + b - 1) b). nia.
Qed.

Lemma round_down_bounds a b : 0 <= a -> 1 <= b ->
  0 <= Z.quot a b * b <= a /\ a < Z.quot a b * b + b /\ (b | Z.quot a b * b).
Proof.
  intros Ha Hb. rewrite quot_pos by lia. split_and!; [..|apply Z.divide_factor_r].
  all: pose proof (Z.div_mod a b); pose proof (Z.mod_pos_bound a b); pose proof (Z.div_pos a b); nia.
Qed.

Lemma divide_min a b c : (a | b) -> (a | c) -> (a | Z.min b c).
Proof. intros. destruct (Z.min_spec b c) as [[_ ->]|[_ ->]]; done. Qed.
Lemma divide_max a b c : (a | b) -> (a | c) -> (a | Z.max b c).
Proof. intros. destruct (Z.max_spec b c) as [[_ ->]|[_ ->]]; done. Qed.

(** Two multiples that differ differ by at least the factor. *)
Lemma divide_lt_le a b c : 1 <= a -> (a | b) -> (a | c) -> b < c -> b + a <= c.
Proof. intros Ha [x ->] [y ->] H. assert (x < y) by nia. nia. Qed.

Lemma default_tile_size_ok cache hd e q l o m : 1 <= m ->
  let t := calcu_default_tile_size cache hd e q l o m m in
  (m | t) /\ m <= t <= MaxQTileIterNum * m.
Proof.
  intros Hm. cbv zeta. unfold calcu_default_tile_size, MaxQTileIterNum.
  set (x := Z.min _ _). assert (x <= 128 * m) as Hx by (unfold x; lia). split.
  - apply divide_max; [apply Z.divide_factor_r|done].
  - destruct (Z.le_gt_cases 0 x) as [H|H]; [pose proof (round_down_bounds x m H Hm); lia|].
    pose proof (Z.quot_le_mono x 0 m ltac:(lia) ltac:(lia)) as Hq.
    rewrite Z.quot_0_l in Hq by lia. nia.
Qed.

Lemma tile_size_with_constant_q_ok cache hd e q l o m round qt one : 1 <= round ->
  let t := calcu_tile_size_with_constant_q cache hd e q l o m round qt one in
  (round | t) /\ round <= t.
Proof.
  intros H. cbv zeta. unfold calcu_tile_size_with_constant_q. split; [|lia].
  apply divide_max; [apply Z.divide_factor_r|done].
Qed.

(** ** Well-formed inputs *)

Section Correct.
Context (thread_num cache_size : Z) (input : ScheduleInput).

Abbreviation align := (kv_block_alignment input).
Abbreviation min_split := (min_split_kv_len input).
Abbreviation qlen i := (at_ (query_start_loc input) (i + 1) - at_ (query_start_loc input) i).

Record input_ok : Prop := {
  ok_threads : 1 <= thread_num;
  ok_align : 1 <= align;
  ok_iter : 1 <= max_num_q_per_iter input;
  ok_reqs : 0 <= num_reqs input;
  ok_kv_heads : 1 <= num_heads_kv input;
  ok_q_heads : exists k, 1 <= k /\ num_heads_q input = k * num_heads_kv input;
  ok_start_loc : Z.of_nat (length (query_start_loc input)) = num_reqs input + 1;
  ok_seq_lens : Z.of_nat (length (seq_lens input)) = num_reqs input;
  ok_dynamic : forall d, dynamic_causal input = Some d -> Z.of_nat (length d) = num_reqs input;
  ok_lens : forall i, 0 <= i < num_reqs input -> 0 <= qlen i <= at_ (seq_lens input) i;
  ok_window : sliding_window_size input = -1 \/ 1 <= sliding_window_size input
}.

Record request_ok (r : Request) : Prop := {
  rk_group : 1 <= r_group r <= max_num_q_per_iter input;
  rk_heads : r_group r = 1 \/ r_group r = original_q_head_per_kv input;
  rk_fits : r_group r = 1 \/ Z.rem (max_num_q_per_iter input) (r_group r) = 0 \/
    r_q_token_num r * r_group r <= max_num_q_per_iter input;
  rk_len : 0 <= r_q_token_num r <= r_seq_len r
}.

Context (OK : input_ok).

Lemma q_head_per_kv_pos : 1 <= original_q_head_per_kv input.
Proof.
  destruct (ok_q_heads OK) as (k & Hk & E). unfold original_q_head_per_kv.
  rewrite E, Z.quot_mul; [done|]. pose proof (ok_kv_heads OK). lia.
Qed.

Lemma request_q_token_num_ok i : 0 <= i < num_reqs input ->
  request_q_token_num input i = Some (qlen i).
Proof.
  intros Hi. unfold request_q_token_num. pose proof (ok_start_loc OK).
  by rewrite !rd_at by lia.
Qed.

Lemma request_causal_ok i : 0 <= i < num_reqs input -> exists b, request_causal input i = Some b.
Proof.
  intros Hi. unfold request_causal. destruct (dynamic_causal input) as [d|] eqn:E; [|by eexists].
  pose proof (ok_dynamic OK d E). rewrite rd_at by lia. by eexists.
Qed.

Lemma request_ok_ex i : 0 <= i < num_reqs input ->
  exists r, request input i = Some r /\ request_ok r /\ r_req_id r = i /\
    r_q_token_num r = qlen i /\ r_seq_len r = at_ (seq_lens input) i.
Proof.
  intros Hi. pose proof (ok_lens OK i Hi). pose proof (ok_seq_lens OK). pose proof q_head_per_kv_pos.
  destruct (request_causal_ok i Hi) as [c Hc]. pose proof (ok_iter OK).
  unfold request, request_q_head_group.
  rewrite request_q_token_num_ok, rd_at, Hc by lia. cbn [mbind option_bind].
  destruct (Z.gtb_spec (original_q_head_per_kv input) (max_num_q_per_iter input)).
  { eexists; split; [done|]; split; [|done]; constructor; simpl; lia. }
  destruct (Z.eqb_spec (Z.rem (max_num_q_per_iter input) (original_q_head_per_kv input)) 0).
  { eexists; split; [done|]; split; [|done]; constructor; simpl; auto; lia. }
  cbn [mbind option_bind]. case_match; eexists; (split; [done|]); (split; [|done]); constructor; simpl; lia.
Qed.

Section Request.
Context (r : Request) (RK : request_ok r).

Abbreviation max_tok := (max_num_q_token_per_iter input r).
Abbreviation tile_num := (q_tile_token_num input r).

Lemma max_tok_pos : 1 <= max_tok.
Proof.
  pose proof (rk_group r RK). unfold max_num_q_token_per_iter. rewrite quot_pos by lia.
  apply Z.div_le_lower_bound; lia.
Qed.

Lemma tile_num_bounds t : 0 <= t < r_q_token_num r -> 1 <= tile_num t <= max_tok.
Proof. intros. pose proof max_tok_pos. unfold q_tile_token_num. lia. Qed.

(** What a query token may look at, before alignment. *)
Definition sees (t k : Z) : Prop :=
  let q := r_seq_len r - r_q_token_num r + t in
  let w := sliding_window_size input in
  0 <= k < r_seq_len r /\ (w <> -1 -> q - w < k) /\ (r_causal r = true -> k <= q) /\
  (r_causal r = false -> w <> -1 -> k < q + w).

(** The context of a tile is aligned, not empty, and holds what its tokens see. *)
Lemma tile_kv_ok t : 0 <= t < r_q_token_num r ->
  let '(lo, hi) := tile_kv input r t in
  0 <= lo < hi /\ (align | lo) /\ (align | hi) /\ hi < r_seq_len r + align /\
  forall u k, t <= u < t + tile_num t -> sees u k -> lo <= k < hi.
Proof.
  intros Ht. pose proof (tile_num_bounds t Ht). pose proof (rk_len r RK). pose proof (ok_align OK) as Ha.
  assert (t + tile_num t <= r_q_token_num r) by (unfold q_tile_token_num; lia).
  unfold tile_kv, sees. generalize dependent (tile_num t). intros n Hn Hle.
  unfold calcu_kv_tile_pos, calcu_sliding_window_size, align_kv_tile_pos.
  set (p := r_seq_len r - r_q_token_num r + t). set (w := sliding_window_size input).
  assert (w = -1 \/ 1 <= w) as Hw by apply (ok_window OK).
  assert (forall kl kr, 0 <= kl < kr -> kr <= r_seq_len r ->
    (forall u k, t <= u < t + n -> sees u k -> kl <= k < kr) ->
    let lo := Z.quot kl align * align in let hi := Z.quot (kr + align - 1) align * align in
    0 <= lo < hi /\ (align | lo) /\ (align | hi) /\ hi < r_seq_len r + align /\
    forall u k, t <= u < t + n -> sees u k -> lo <= k < hi) as Hgen.
  { intros kl kr Hkl Hkr Hs. cbv zeta.
    pose proof (round_down_bounds kl align ltac:(lia) Ha) as (? & ? & ?).
    pose proof (round_up_bounds kr align ltac:(lia) Ha) as (? & ?).
    split_and!; [lia..|done|done|lia|]. intros u k Hu Hk. specialize (Hs u k Hu Hk). lia. }
  unfold sees in Hgen. cbv zeta in Hgen. fold w in Hgen.
  destruct (Z.eqb_spec w (-1)) as [E|E]; simpl; [destruct (r_causal r); simpl|].
  - apply Hgen; [lia..|]. intros u k Hu (? & _ & ? & _). lia.
  - apply Hgen; [lia..|]. intros u k Hu (? & _). lia.
  - destruct (Z.eqb_spec (w - 1) (-1)) as [?|_]; [lia|]. simpl.
    destruct (r_causal r); simpl; [|destruct (Z.eqb_spec (w - 1) (-1)) as [?|_]; [lia|]; simpl];
      (apply Hgen; [lia..|]); intros u k Hu (? & ? & ? & ?); lia.
Qed.

(** Every aligned block of it has a key that one of the tokens sees. *)
Lemma tile_kv_used t b : 0 <= t < r_q_token_num r -> let '(lo, hi) := tile_kv input r t in
  (align | b) -> lo <= b < hi -> exists u k, t <= u < t + tile_num t /\ sees u k /\ b <= k < b + align.
Proof.
  intros Ht. pose proof (tile_num_bounds t Ht). pose proof (rk_len r RK). pose proof (ok_align OK) as Ha.
  assert (t + tile_num t <= r_q_token_num r) by (unfold q_tile_token_num; lia).
  unfold tile_kv. generalize dependent (tile_num t). intros n Hn Hle.
  unfold calcu_kv_tile_pos, calcu_sliding_window_size, align_kv_tile_pos.
  set (p := r_seq_len r - r_q_token_num r + t). set (w := sliding_window_size input).
  assert (w = -1 \/ 1 <= w) as Hw by apply (ok_window OK).
  assert (forall kl kr, 0 <= kl < kr ->
    (forall k, kl <= k < kr -> sees (t + (Z.max p (Z.min k (p + n - 1)) - p)) k) ->
    let lo := Z.quot kl align * align in let hi := Z.quot (kr + align - 1) align * align in
    (align | b) -> lo <= b < hi -> exists u k, t <= u < t + n /\ sees u k /\ b <= k < b + align) as Hgen.
  { intros kl kr Hkl Hs. cbv zeta. pose proof (round_down_bounds kl align ltac:(lia) Ha) as (Hl1 & Hl2 & Hl3).
    pose proof (round_up_bounds kr align ltac:(lia) Ha) as (Hr1 & Hr2). intros Hd Hb. set (k := Z.max b kl).
    assert (b + align <= Z.quot (kr + align - 1) align * align) by (apply divide_lt_le; (done || lia)).
    assert (k < b + align).
    { unfold k. destruct (Z.le_gt_cases kl b); [lia|]. enough (b <= Z.quot kl align * align) by lia.
      destruct (Z.le_gt_cases b (Z.quot kl align * align)); [done|].
      assert (Z.quot kl align * align + align <= b) by (apply divide_lt_le; (done || lia)). lia. }
    eexists _, k. split; [|split; [apply (Hs k); unfold k; lia|unfold k in *; lia]]. lia. }
  unfold sees in *. cbv zeta in *. fold w in Hgen |- *.
  destruct (Z.eqb_spec w (-1)) as [E|E]; simpl; [destruct (r_causal r); simpl|].
  - apply Hgen; [lia|]. intros k Hk. split_and!; try done; lia.
  - apply Hgen; [lia|]. intros k Hk. split_and!; try done; lia.
  - destruct (Z.eqb_spec (w - 1) (-1)) as [?|_]; [lia|]. simpl.
    destruct (r_causal r); simpl; [|destruct (Z.eqb_spec (w - 1) (-1)) as [?|_]; [lia|]; simpl];
      (apply Hgen; [lia|]); intros k Hk; split_and!; try done; lia.
Qed.

End Request.

(** ** What a cut consists of *)

Definition item (r : Request) (tok num lo hi total red lid : Z) : PartitionItem := {|
  pi_req_id := r_req_id r; pi_q_token_id_start := tok; pi_q_token_num := num;
  pi_kv_split_pos_start := lo; pi_kv_split_pos_end := hi; pi_total_kv_len := total;
  pi_reduction := red; pi_local_split_id := lid; pi_group := r_group r |}.

Definition red_of (r : Request) (tok n : Z) : PartitionReduction := {|
  pr_req_id := r_req_id r; pr_token_start := tok; pr_token_num := q_tile_token_num input r tok;
  pr_group := r_group r; pr_split_num := n |}.

(** A run of tokens with the whole context, or one tile cut at the given positions. *)
Inductive chunk :=
  | Whole (r : Request) (tok num total : Z)
  | Split (r : Request) (tok lo : Z) (cuts : list Z) (hi : Z).

Definition chunk_req (c : chunk) : Request :=
  match c with Whole r _ _ _ | Split r _ _ _ _ => r end.
Definition chunk_tok (c : chunk) : Z :=
  match c with Whole _ tok _ _ | Split _ tok _ _ _ => tok end.
Definition chunk_num (c : chunk) : Z :=
  match c with Whole _ _ num _ => num | Split r tok _ _ _ => q_tile_token_num input r tok end.

(** The parts of a tile from [lo]; the last one is open to the end of the sequence. *)
Fixpoint pieces (r : Request) (tok red lid lo : Z) (cuts : list Z) (hi : Z) : list PartitionItem :=
  match cuts with
  | [] => [item r tok (q_tile_token_num input r tok) lo (r_seq_len r) (hi - lo) red lid]
  | p :: cuts => item r tok (q_tile_token_num input r tok) lo p (p - lo) red lid
                 :: pieces r tok red (lid + 1) p cuts hi
  end.

Definition chunk_items (red : Z) (c : chunk) : list PartitionItem :=
  match c with
  | Whole r tok num total => [item r tok num 0 (r_seq_len r) total (-1) 0]
  | Split r tok lo cuts hi => pieces r tok red 0 lo cuts hi
  end.

Definition chunk_reds (c : chunk) : list PartitionReduction :=
  match c with
  | Whole _ _ _ _ => []
  | Split r tok lo cuts hi => [red_of r tok (1 + Z.of_nat (length cuts))]
  end.

Fixpoint increasing (lo : Z) (cuts : list Z) (hi : Z) : Prop :=
  match cuts with
  | [] => lo < hi
  | p :: cuts => lo < p /\ (align | p) /\ increasing p cuts hi
  end.

Definition chunk_ok (c : chunk) : Prop :=
  match c with
  | Whole r tok num total => 1 <= num
  | Split r tok lo cuts hi =>
      enable_kv_split input = true /\ 0 <= tok < r_q_token_num r /\
      tile_kv input r tok = (lo, hi) /\ cuts <> [] /\ increasing lo cuts hi
  end.

(** The items and reductions of a list of chunks, the reductions numbered from [red]. *)
Fixpoint items_of (red : Z) (cs : list chunk) : list PartitionItem :=
  match cs with
  | [] => []
  | c :: cs => chunk_items red c ++ items_of (red + Z.of_nat (length (chunk_reds c))) cs
  end.
Definition reds_of (cs : list chunk) : list PartitionReduction := cs ≫= chunk_reds.

(** The chunks of a request follow each other from token [a] to token [b]. *)
Fixpoint covers (r : Request) (a : Z) (cs : list chunk) (b : Z) : Prop :=
  match cs with
  | [] => a = b
  | c :: cs => chunk_req c = r /\ chunk_tok c = a /\ chunk_ok c /\ covers r (a + chunk_num c) cs b
  end.

Lemma covers_app r a cs ds b :
  covers r a (cs ++ ds) b <-> exists m, covers r a cs m /\ covers r m ds b.
Proof.
  revert a. induction cs as [|c cs IH]; intros a; simpl.
  - split; [intros H; by exists a|]. by intros (m & -> & H).
  - rewrite IH. split; [intros (? & ? & ? & m & ? & ?)|intros (m & (? & ? & ? & ?) & ?)]; eauto 10.
Qed.

Lemma items_of_app red cs ds :
  items_of red (cs ++ ds) = items_of red cs ++ items_of (red + Z.of_nat (length (reds_of cs))) ds.
Proof.
  revert red. induction cs as [|c cs IH]; intros red; simpl.
  - by rewrite Z.add_0_r.
  - change (reds_of (c :: cs)) with (chunk_reds c ++ reds_of cs).
    rewrite IH, app_assoc, length_app. do 2 f_equal. lia.
Qed.

(** [st'] is [st] with the items and reductions of [cs] added. *)
Definition adds (st st' : State) (cs : list chunk) : Prop :=
  workitems st' = workitems st ++ items_of (Z.of_nat (length (reduce_workitems st))) cs /\
  reduce_workitems st' = reduce_workitems st ++ reds_of cs.

Lemma adds_same st st' : workitems st' = workitems st ->
  reduce_workitems st' = reduce_workitems st -> adds st st' [].
Proof. intros E1 E2. unfold adds. rewrite E1, E2. simpl. by rewrite !app_nil_r. Qed.

Lemma adds_trans st1 st2 st3 cs ds : adds st1 st2 cs -> adds st2 st3 ds -> adds st1 st3 (cs ++ ds).
Proof.
  intros [E1 F1] [E2 F2]. split.
  - rewrite E2, E1, F1, items_of_app, <- app_assoc, length_app. do 3 f_equal. lia.
  - unfold reds_of. rewrite F2, F1, bind_app, <- app_assoc. done.
Qed.

(** ** The threads *)

(** [busy] says that the item under construction holds something. *)
Record threads_ok (per : Z) (st : State) (busy : bool) : Prop := {
  th_id : 0 <= curr_thread_id st < thread_num;
  th_length : Z.of_nat (length (workitem_num_per_thread st)) = thread_num;
  th_nonneg : Forall (fun n => 0 <= n) (workitem_num_per_thread st);
  th_sum : zsum (workitem_num_per_thread st) = Z.of_nat (length (workitems st));
  th_later : forall j, curr_thread_id st < j < thread_num -> rd (workitem_num_per_thread st) j = Some 0;
  th_align : (align | remaining_kv_len st);
  th_fresh : busy = true \/ 0 < at_ (workitem_num_per_thread st) (curr_thread_id st) \/
    remaining_kv_len st = per
}.

Lemma emplace_ok per st busy it : threads_ok per st busy -> exists st',
  emplace it st = Some st' /\ workitems st' = workitems st ++ [it] /\
  reduce_workitems st' = reduce_workitems st /\ curr_thread_id st' = curr_thread_id st /\
  remaining_kv_len st' = remaining_kv_len st /\ threads_ok per st' false.
Proof.
  intros T. pose proof (th_id _ _ _ T) as Hi. pose proof (th_length _ _ _ T) as Hl.
  unfold emplace. rewrite rd_at by lia. cbn [mbind option_bind].
  set (num := workitem_num_per_thread st) in *. set (i := curr_thread_id st) in *.
  assert (num !! Z.to_nat i = Some (at_ num i)) as Hn by (rewrite <- rd_lookup by lia; apply rd_at; lia).
  pose proof (Forall_lookup_1 _ _ _ _ (th_nonneg _ _ _ T) Hn) as Hpos. simpl in Hpos.
  unfold wr. rewrite (proj2 (Z.leb_le 0 i)), (proj2 (Z.ltb_lt _ _)) by lia. simpl.
  eexists. split; [done|]. split_and!; [done..|]. constructor; simpl; fold i.
  - done.
  - by rewrite length_insert.
  - apply Forall_insert; [apply (th_nonneg _ _ _ T)|lia].
  - rewrite (zsum_insert _ _ _ _ Hn), length_app. pose proof (th_sum _ _ _ T) as E. fold num in E. simpl. lia.
  - intros j Hj. rewrite rd_lookup, list_lookup_insert_ne by lia.
    rewrite <- rd_lookup by lia. by apply (th_later _ _ _ T).
  - apply (th_align _ _ _ T).
  - right. left. unfold at_ in *. rewrite list_lookup_total_insert_eq by lia. lia.
Qed.

Lemma next_thread_ok per st busy busy' : (align | per) -> curr_thread_id st <> thread_num - 1 ->
  threads_ok per st busy -> threads_ok per (next_thread per st) busy'.
Proof.
  intros Hd Hne T. pose proof (th_id _ _ _ T). constructor; simpl; try apply T.
  - lia.
  - intros j Hj. apply (th_later _ _ _ T). lia.
  - done.
  - by right; right.
Qed.

Lemma set_remaining_ok per st busy rem : (align | rem) ->
  threads_ok per st busy -> threads_ok per (set_remaining rem st) true.
Proof. intros Hd T. constructor; simpl; try apply T; [done|by left]. Qed.

Lemma emplace_nonempty_ok per st it : threads_ok per st (0 <? pi_total_kv_len it) -> exists st',
  emplace_nonempty it st = Some st' /\
  workitems st' = workitems st ++ (if 0 <? pi_total_kv_len it then [it] else []) /\
  reduce_workitems st' = reduce_workitems st /\ curr_thread_id st' = curr_thread_id st /\
  remaining_kv_len st' = remaining_kv_len st /\ threads_ok per st' false.
Proof.
  intros T. unfold emplace_nonempty. destruct (0 <? pi_total_kv_len it).
  - by apply (emplace_ok _ _ _ it T).
  - exists st. by rewrite app_nil_r.
Qed.

Lemma bump_back_ok st rs r tok n : reduce_workitems st = rs ++ [red_of r tok n] ->
  exists st', bump_back st = Some st' /\ workitems st' = workitems st /\
    reduce_workitems st' = rs ++ [red_of r tok (n + 1)] /\
    curr_thread_id st' = curr_thread_id st /\ remaining_kv_len st' = remaining_kv_len st /\
    forall per b, threads_ok per st b -> threads_ok per st' b.
Proof.
  intros E. unfold bump_back. rewrite E, length_app. simpl.
  replace (Z.of_nat (length rs + 1) - 1) with (Z.of_nat (length rs)) by lia.
  rewrite rd_lookup, Nat2Z.id, list_lookup_middle by lia. cbn [mbind option_bind].
  unfold wr. rewrite length_app, Nat2Z.id. simpl.
  rewrite (proj2 (Z.leb_le 0 _)), (proj2 (Z.ltb_lt _ _)) by lia. simpl.
  eexists. split; [done|]. simpl. split_and!; try done.
  - rewrite insert_app_r_alt, Nat.sub_diag by lia. done.
  - intros per b T. constructor; simpl; apply T.
Qed.

Lemma min_split_ok : 0 < min_split /\ (align | min_split).
Proof.
  pose proof (ok_iter OK). pose proof (ok_align OK) as Ha. unfold min_split_kv_len.
  pose proof (round_up_bounds (max_num_q_per_iter input * 16) align ltac:(lia) Ha) as (? & ?).
  split; [lia|done].
Qed.

(** The item under construction: the tokens from [a] to [e], or nothing yet, in
    which case it is set up for the token [nxt]. *)
Definition open_at (r : Request) (a e nxt : Z) (it : PartitionItem) : Prop :=
  (a < e /\ exists total, 0 < total /\ it = item r a (e - a) 0 (r_seq_len r) total (-1) 0) \/
  (a = e /\ it = fresh_item r nxt 0).

Lemma open_start r a e nxt it : open_at r a e nxt it -> pi_kv_split_pos_start it = 0.
Proof. by intros [(_ & total & _ & ->)|[_ ->]]. Qed.

(** Another tile joins the item. *)
Lemma grow_open r a e it n len nxt : open_at r a e e it -> 0 < n -> 0 < len ->
  open_at r a (e + n) nxt (grow it n len) /\ (0 <? pi_total_kv_len (grow it n len)) = true.
Proof.
  intros [(Hlt & total & Ht & ->)|[-> ->]] Hn Hl; (split; [left|simpl; apply Z.ltb_lt; lia]).
  - split; [lia|]. exists (total + len). split; [lia|]. unfold grow, item; simpl. f_equal. lia.
  - split; [lia|]. exists len. split; [lia|]. unfold grow, fresh_item, new_item, item; simpl. f_equal. lia.
Qed.

(** Writing the item back. *)
Lemma flush_ok per st r a e nxt it :
  open_at r a e nxt it -> threads_ok per st (0 <? pi_total_kv_len it) ->
  exists st' cs, emplace_nonempty it st = Some st' /\ adds st st' cs /\ covers r a cs e /\
    reds_of cs = [] /\ workitems st' = workitems st ++ (if 0 <? pi_total_kv_len it then [it] else []) /\
    curr_thread_id st' = curr_thread_id st /\ remaining_kv_len st' = remaining_kv_len st /\
    threads_ok per st' false.
Proof.
  intros Hit T. destruct (emplace_nonempty_ok per st it T) as (st' & E & W & R & C & M & T').
  exists st'. destruct Hit as [(Hlt & total & Ht & ->)|[-> ->]].
  - exists [Whole r a (e - a) total]. simpl in *. rewrite (proj2 (Z.ltb_lt 0 total)) in * by lia.
    split_and!; try done; [|lia..]. split; [by rewrite W|by rewrite R, app_nil_r].
  - exists []. simpl in *. rewrite app_nil_r in W. split_and!; try done; [by apply adds_same|by rewrite app_nil_r].
Qed.

(** ** Placing one tile *)

Section Place.
Context (r : Request) (RK : request_ok r) (per : Z) (Hper : 0 <= per) (Hdper : (align | per)).
Context (tok lo hi : Z) (Htok : 0 <= tok < r_q_token_num r) (Hkv : tile_kv input r tok = (lo, hi)).

Abbreviation num := (q_tile_token_num input r tok).
Abbreviation next := (tok + max_num_q_token_per_iter input r).
Abbreviation place := (place_tile thread_num cache_size input per r tok lo hi).

Lemma tile_facts : 0 <= lo < hi /\ (align | lo) /\ (align | hi).
Proof. pose proof (tile_kv_ok r RK tok Htok) as H. rewrite Hkv in H. by destruct H as (? & ? & ? & _). Qed.

(** The size of a part: positive, aligned, and less than the rest. *)
Lemma spilt_size_ok rem len : 0 <= rem -> (align | rem) -> (align | len) -> rem + min_split < len ->
  let size := Z.min (Z.max rem min_split) len in 0 < size < len /\ (align | size).
Proof.
  intros Hr Hdr Hdl Hlt. pose proof min_split_ok as [Hm Hdm]. split; [lia|].
  apply divide_min; [by apply divide_max|done].
Qed.

(** Closing a cut tile: the rest of its context is its last part. *)
Lemma accept_rest st busy rs i p : lo < p < hi -> (align | p) -> threads_ok per st busy ->
  reduce_workitems st = rs ++ [red_of r tok i] ->
  exists st',
    accept input r tok st {| curr_workitem := fresh_item r tok p; curr_kv_len := hi - p;
                             kv_token_pos_start := p; local_split_id := i |}
    = Some (st', fresh_item r next 0) /\
    workitems st' = workitems st ++ pieces r tok (Z.of_nat (length rs)) i p [] hi /\
    reduce_workitems st' = rs ++ [red_of r tok (i + 1)] /\ threads_ok per st' false.
Proof.
  intros Hp Hdp T Hreds. pose proof tile_facts as (Hlo & _ & Hdhi).
  unfold accept. cbn [curr_kv_len kv_token_pos_start local_split_id curr_workitem].
  set (rem := if remaining_kv_len st - (hi - p) <? 0 then _ else _).
  assert ((align | rem)) as Hdrem.
  { pose proof min_split_ok as [_ ?]. pose proof (th_align _ _ _ T).
    assert ((align | remaining_kv_len st - (hi - p))) by (apply Z.divide_sub_r; [done|by apply Z.divide_sub_r]).
    subst rem. case_match; [by apply Z.divide_sub_r|done]. }
  cbn [pi_kv_split_pos_start grow fresh_item new_item]. rewrite (proj2 (Z.eqb_neq p 0)) by lia. cbn [negb].
  destruct (emplace_ok per _ _ (as_split (grow (fresh_item r tok p) num (hi - p))
    (last_reduction (set_remaining rem st)) i) (set_remaining_ok per st busy rem Hdrem T))
    as (st1 & -> & W1 & R1 & C1 & M1 & T2).
  cbn [mbind option_bind]. cbn [reduce_workitems workitems set_remaining] in *.
  destruct (bump_back_ok st1 rs r tok i) as (st2 & -> & W2 & R2 & C2 & M2 & T3); [congruence|].
  cbn [mbind option_bind]. exists st2. split_and!; [done| |done|by apply T3].
  rewrite W2, W1. unfold last_reduction. cbn [reduce_workitems set_remaining]. rewrite Hreds, length_app.
  cbn [length]. replace (Z.of_nat (length rs + 1) - 1) with (Z.of_nat (length rs)) by lia. reflexivity.
Qed.

(** Cutting a part off, the first (which opens the reduction) or a later one. *)
Lemma split_kv_ok st it rs i p : p < hi -> threads_ok per st (0 <? pi_total_kv_len it) ->
  curr_thread_id st <> thread_num - 1 ->
  reduce_workitems st ++ (if p =? lo then [red_of r tok 0] else []) = rs ++ [red_of r tok i] ->
  let size := Z.min (Z.max (remaining_kv_len st) min_split) (hi - p) in
  exists st',
    split_kv input per r tok lo st {| curr_workitem := it; curr_kv_len := hi - p;
                                      kv_token_pos_start := p; local_split_id := i |}
    = Some (st', {| curr_workitem := fresh_item r tok (p + size); curr_kv_len := hi - (p + size);
                    kv_token_pos_start := p + size; local_split_id := i + 1 |}) /\
    workitems st' = workitems st ++ (if 0 <? pi_total_kv_len it then [it] else []) ++
      [item r tok num p (p + size) size (Z.of_nat (length rs)) i] /\
    reduce_workitems st' = rs ++ [red_of r tok (i + 1)] /\
    curr_thread_id st' = curr_thread_id st + 1 /\ remaining_kv_len st' = per /\
    at_ (workitem_num_per_thread st') (curr_thread_id st') = 0 /\ threads_ok per st' false.
Proof.
  intros Hp T Hid Hreds size. unfold split_kv.
  cbn [curr_kv_len kv_token_pos_start local_split_id curr_workitem].
  destruct (emplace_nonempty_ok per st it T) as (st1 & -> & W1 & R1 & C1 & M1 & T1). cbn [mbind option_bind].
  set (st2 := if p =? lo then _ else _).
  assert (reduce_workitems st2 = rs ++ [red_of r tok i] /\ workitems st2 = workitems st1 /\
    curr_thread_id st2 = curr_thread_id st /\ remaining_kv_len st2 = remaining_kv_len st /\
    threads_ok per st2 false) as (R2 & W2 & C2 & M2 & T2).
  { subst st2. destruct (p =? lo); simpl; rewrite ?app_nil_r in Hreds.
    - split_and!; [by rewrite R1|done|done|done|]. constructor; simpl; apply T1.
    - split_and!; [by rewrite R1|done|done|done|done]. }
  rewrite M2. fold size.
  destruct (emplace_ok per st2 false (as_split (grow (new_item (r_req_id r) tok p (p + size) (r_group r))
    num size) (last_reduction st2) i) T2) as (st3 & -> & W3 & R3 & C3 & M3 & T3). cbn [mbind option_bind].
  destruct (bump_back_ok st3 rs r tok i) as (st4 & -> & W4 & R4 & C4 & M4 & T4); [congruence|].
  cbn [mbind option_bind]. specialize (T4 _ _ T3).
  exists (next_thread per st4). split_and!; simpl.
  - by rewrite Z.sub_add_distr.
  - rewrite W4, W3, W2, W1, <- app_assoc. unfold last_reduction. rewrite R2, length_app. cbn [length].
    by replace (Z.of_nat (length rs + 1) - 1) with (Z.of_nat (length rs)) by lia.
  - done.
  - congruence.
  - done.
  - pose proof (th_id _ _ _ T4). pose proof (th_length _ _ _ T4).
    pose proof (th_later _ _ _ T4 (curr_thread_id st4 + 1) ltac:(lia)) as H2.
    rewrite rd_at in H2 by lia. by simplify_eq.
  - apply (next_thread_ok per _ false); [done|congruence|done].
Qed.

(** Once the first part is cut off, every turn of the loop cuts one more. *)
Lemma place_rest fuel st rs i p :
  enable_kv_split input = true -> per < hi - lo -> lo < p < hi -> (align | p) ->
  threads_ok per st false -> remaining_kv_len st = per ->
  at_ (workitem_num_per_thread st) (curr_thread_id st) = 0 ->
  reduce_workitems st = rs ++ [red_of r tok i] -> thread_num - curr_thread_id st <= Z.of_nat fuel ->
  exists st' cuts,
    place fuel st {| curr_workitem := fresh_item r tok p; curr_kv_len := hi - p;
                     kv_token_pos_start := p; local_split_id := i |}
    = Some (st', fresh_item r next 0) /\
    workitems st' = workitems st ++ pieces r tok (Z.of_nat (length rs)) i p cuts hi /\
    reduce_workitems st' = rs ++ [red_of r tok (i + 1 + Z.of_nat (length cuts))] /\
    increasing p cuts hi /\ threads_ok per st' false.
Proof.
  intros Hen Hbig. pose proof tile_facts as (Hlo & Hdlo & Hdhi).
  revert st i p. induction fuel as [|fuel IH]; intros st i p Hp Hdp T Hrem Hcnt Hreds Hfuel;
    pose proof (th_id _ _ _ T) as Hid; pose proof (th_length _ _ _ T) as Hlen; [lia|].
  cbn [place_tile]. cbn [curr_kv_len kv_token_pos_start local_split_id curr_workitem].
  rewrite (proj2 (Z.leb_gt (hi - p) 0)) by lia.
  destruct ((hi - p <=? remaining_kv_len st + min_split) || _) eqn:Eacc.
  { destruct (accept_rest st false rs i p Hp Hdp T Hreds) as (st' & -> & W & R & T').
    exists st', []. split_and!; [done|done|by rewrite R, Z.add_0_r|simpl; lia|done]. }
  apply orb_false_iff in Eacc as [Elen Eid]. apply Z.leb_gt in Elen. apply Z.eqb_neq in Eid.
  rewrite rd_at by lia. cbn [mbind option_bind]. rewrite Hcnt. cbn [pi_total_kv_len fresh_item new_item].
  rewrite andb_false_r, Hen, (proj2 (Z.leb_gt (hi - lo) per)) by lia. cbn [negb orb].
  pose proof (spilt_size_ok per (hi - p) Hper Hdper (Z.divide_sub_r _ _ _ Hdhi Hdp) ltac:(lia)) as (Hs & Hds).
  destruct (split_kv_ok st (fresh_item r tok p) rs i p) as (st1 & -> & W1 & R1 & C1 & M1 & N1 & T1);
    [lia|done|done|by rewrite (proj2 (Z.eqb_neq p lo)), app_nil_r by lia|].
  cbn [mbind option_bind]. rewrite Hrem in *. set (size := Z.min _ _) in *.
  destruct (IH st1 (i + 1) (p + size)) as (st' & cuts & -> & W & R & Hinc & T'); [lia| |done..|lia|].
  { by apply Z.divide_add_r. }
  exists st', ((p + size) :: cuts). split_and!; [done| | |simpl; split_and!; [lia|by apply Z.divide_add_r|done]|done].
  - rewrite W, W1. cbn [pi_total_kv_len fresh_item new_item Z.ltb Z.compare pieces app].
    rewrite <- app_assoc. replace (p + size - p) with size by lia. done.
  - rewrite R. do 3 f_equal. simpl. lia.
Qed.

Abbreviation locals it := {| curr_workitem := it; curr_kv_len := hi - lo; kv_token_pos_start := lo;
  local_split_id := 0 |}.

(** What placing the tile achieves from [st] and the tokens from [a]. *)
Definition placed (st : State) (a : Z) (res : option (State * PartitionItem)) : Prop :=
  exists st' it' cs a', res = Some (st', it') /\ adds st st' cs /\ covers r a cs a' /\
    open_at r a' (tok + num) next it' /\ threads_ok per st' (0 <? pi_total_kv_len it').

Lemma grown_placed st st' it a a' cs rem busy : adds st st' cs -> covers r a cs a' ->
  open_at r a' tok tok it -> (align | rem) -> threads_ok per st' busy ->
  placed st a (Some (set_remaining rem st', grow it num (hi - lo))).
Proof.
  intros A C Hit Hd T. pose proof tile_facts as (Hlo & _). pose proof (tile_num_bounds r RK tok Htok).
  destruct (grow_open r a' tok it num (hi - lo) next Hit) as [Ho Hb]; [lia..|].
  exists (set_remaining rem st'), (grow it num (hi - lo)), cs, a'. split_and!; [done|done|done|done|].
  rewrite Hb. by apply (set_remaining_ok per st' busy).
Qed.

Lemma accept_whole st it a : open_at r a tok tok it -> threads_ok per st (0 <? pi_total_kv_len it) ->
  placed st a (accept input r tok st (locals it)).
Proof.
  intros Hit T. pose proof min_split_ok as [_ Hdm]. pose proof tile_facts as (_ & Hdlo & Hdhi).
  unfold accept. cbn [curr_kv_len kv_token_pos_start local_split_id curr_workitem].
  replace (pi_kv_split_pos_start (grow it num (hi - lo))) with 0
    by (symmetry; apply (open_start r a tok tok it Hit)). cbn [Z.eqb negb].
  eapply grown_placed; [by apply adds_same|done|done| |done].
  assert ((align | remaining_kv_len st - (hi - lo)))
    by (apply Z.divide_sub_r; [apply (th_align _ _ _ T)|by apply Z.divide_sub_r]).
  case_match; [by apply Z.divide_sub_r|done].
Qed.

Lemma leave_ok st it a : open_at r a tok tok it -> threads_ok per st (0 <? pi_total_kv_len it) ->
  curr_thread_id st <> thread_num - 1 ->
  exists st' cs, leave_thread per r tok st (locals it) = Some (st', locals (fresh_item r tok 0)) /\
    adds st st' cs /\ covers r a cs tok /\ curr_thread_id st' = curr_thread_id st + 1 /\
    threads_ok per st' false.
Proof.
  intros Hit T Hne. unfold leave_thread. cbn [curr_kv_len kv_token_pos_start local_split_id curr_workitem].
  destruct (flush_ok per st r a tok tok it Hit T) as (st1 & cs & -> & A & C & _ & _ & I & _ & T1).
  cbn [mbind option_bind]. exists (next_thread per st1), cs. split_and!; [|done|done|simpl; congruence|].
  - do 3 f_equal. destruct (0 <? _) eqn:E; [done|].
    destruct Hit as [(_ & total & Ht & ->)|[_ ->]]; [apply Z.ltb_ge in E; simpl in E; lia|done].
  - apply (next_thread_ok per _ false); [done|congruence|done].
Qed.

Lemma whole_ok st it a count : open_at r a tok tok it -> threads_ok per st (0 <? pi_total_kv_len it) ->
  curr_thread_id st <> thread_num - 1 ->
  placed st a (whole_tile cache_size input per r tok count st (locals it)).
Proof.
  intros Hit T Hne. unfold whole_tile. cbn [curr_kv_len kv_token_pos_start local_split_id curr_workitem].
  pose proof tile_facts as (_ & Hdlo & Hdhi). assert ((align | hi - lo)) by by apply Z.divide_sub_r.
  case_match.
  - destruct (flush_ok per st r a tok tok it Hit T) as (st1 & cs & -> & A & C & _ & _ & I & _ & T1).
    cbn [mbind option_bind]. eapply (grown_placed st (next_thread per st1) (fresh_item r tok 0) a tok cs _ false).
    + by destruct A.
    + done.
    + by right.
    + simpl. by apply Z.divide_sub_r.
    + apply (next_thread_ok per _ false); [done|congruence|done].
  - cbn [mbind option_bind]. eapply grown_placed; [by apply adds_same|done|done| |done].
    apply Z.divide_sub_r; [apply (th_align _ _ _ T)|done].
Qed.

Lemma split_ok fuel st it a : open_at r a tok tok it -> threads_ok per st (0 <? pi_total_kv_len it) ->
  enable_kv_split input = true -> per < hi - lo -> 0 <= remaining_kv_len st ->
  remaining_kv_len st + min_split < hi - lo -> curr_thread_id st <> thread_num - 1 ->
  thread_num - curr_thread_id st <= Z.of_nat (S fuel) ->
  placed st a ('(st, lc) ← split_kv input per r tok lo st (locals it); place fuel st lc).
Proof.
  intros Hit T Hen Hbig Hrem Hlt Hid Hfuel. pose proof tile_facts as (Hlo & Hdlo & Hdhi).
  pose proof (spilt_size_ok (remaining_kv_len st) (hi - lo) Hrem (th_align _ _ _ T)
    (Z.divide_sub_r _ _ _ Hdhi Hdlo) Hlt) as (Hs & Hds).
  destruct (split_kv_ok st it (reduce_workitems st) 0 lo) as (st1 & -> & W1 & R1 & C1 & M1 & N1 & T1);
    [lia|done|done|by rewrite Z.eqb_refl|]. cbn [mbind option_bind]. set (size := Z.min _ _) in *.
  destruct (place_rest fuel st1 (reduce_workitems st) (0 + 1) (lo + size))
    as (st' & cuts & -> & W & R & Hinc & T'); [done|done|lia|by apply Z.divide_add_r|done..|lia|].
  destruct (flush_ok per st r a tok tok it Hit T) as (st2 & cs & _ & [A2 A2'] & C & Hr & W2 & _ & _ & _).
  exists st', (fresh_item r next 0), (cs ++ [Split r tok lo ((lo + size) :: cuts) hi]), (tok + num).
  split_and!; [done| | |by right|done].
  - split.
    + rewrite items_of_app, Hr, Z.add_0_r. simpl. rewrite app_nil_r.
      rewrite W, W1. rewrite W2 in A2. apply app_inv_head in A2. rewrite A2, <- !app_assoc. simpl.
      by replace (lo + size - lo) with size by lia.
    + unfold reds_of in *. rewrite R, bind_app, Hr. simpl. do 3 f_equal. lia.
  - rewrite covers_app. exists tok. split; [done|]. simpl. split_and!; try done; [lia..|by apply Z.divide_add_r].
Qed.

(** The loop over one tile ends, and accounts for the tile once. *)
Lemma place_ok fuel st it a : open_at r a tok tok it -> threads_ok per st (0 <? pi_total_kv_len it) ->
  thread_num - curr_thread_id st <= Z.of_nat fuel ->
  placed st a (place fuel st (locals it)).
Proof.
  pose proof tile_facts as (Hlo & Hdlo & Hdhi). pose proof min_split_ok as [Hm Hdm].
  pose proof (tile_num_bounds r RK tok Htok) as Hnum.
  assert ((align | hi - lo)) as Hdlen by by apply Z.divide_sub_r.
  revert st it a. induction fuel as [|fuel IH]; intros st it a Hit T Hfuel;
    pose proof (th_id _ _ _ T) as Hid; pose proof (th_length _ _ _ T) as Hlen;
    pose proof (th_align _ _ _ T) as Hdr; [lia|].
  cbn [place_tile]. cbn [curr_kv_len kv_token_pos_start local_split_id curr_workitem].
  rewrite (proj2 (Z.leb_gt (hi - lo) 0)) by lia.
  destruct ((hi - lo <=? remaining_kv_len st + min_split) || _) eqn:Eacc.
  { by apply accept_whole. }
  apply orb_false_iff in Eacc as [Elen Eid]. apply Z.leb_gt in Elen. apply Z.eqb_neq in Eid.
  rewrite rd_at by lia. cbn [mbind option_bind]. set (count := at_ _ _).
  destruct ((remaining_kv_len st <? min_split) && _) eqn:Eleave.
  - destruct (leave_ok st it a Hit T Eid) as (st1 & cs & -> & A1 & C1 & I1 & T1). cbn [mbind option_bind].
    destruct (IH st1 (fresh_item r tok 0) tok) as (st' & it' & ds & a' & -> & A2 & C2 & Hit' & T'); [by right|done|lia|].
    exists st', it', (cs ++ ds), a'. split_and!; [done|by eapply adds_trans| |done|done].
    rewrite covers_app. by exists tok.
  - destruct (negb (enable_kv_split input) || _) eqn:Ewhole.
    { by apply whole_ok. }
    apply orb_false_iff in Ewhole as [Een Ebig]. apply Z.leb_gt in Ebig. apply negb_false_iff in Een.
    apply split_ok; try done. pose proof (th_fresh _ _ _ T) as Hf. fold count in Hf.
    apply andb_false_iff in Eleave as [E|E]; [apply Z.ltb_ge in E; lia|].
    apply orb_false_iff in E as [E1 E2]. apply Z.ltb_ge in E2. rewrite E1 in Hf.
    destruct Hf as [?|[?| ->]]; [done|lia|done].
Qed.

End Place.

(** ** The batch *)

Lemma partition_tile_ok r per a t st it : request_ok r -> 0 <= per -> (align | per) ->
  0 <= t < r_q_token_num r -> open_at r a t t it -> threads_ok per st (0 <? pi_total_kv_len it) ->
  placed r per t st a (partition_tile thread_num cache_size input per r t (st, it)).
Proof.
  intros RK Hper Hd Ht Hit T. unfold partition_tile. destruct (tile_kv input r t) as [lo hi] eqn:Hkv.
  destruct (place_ok r RK per Hper Hd t lo hi Ht Hkv (Z.to_nat thread_num) st it a Hit T)
    as (st1 & it1 & cs & a1 & -> & A1 & C1 & O1 & T1); [pose proof (th_id _ _ _ T); lia|].
  cbn [mbind option_bind]. destruct (_ && _) eqn:E.
  - apply andb_true_iff in E as [E _]. apply andb_true_iff in E as [_ E].
    destruct (flush_ok per st1 r a1 _ _ it1 O1 T1) as (st2 & ds & F & A2 & C2 & _ & _ & _ & _ & T2).
    unfold emplace_nonempty in F. rewrite E in F. rewrite F. cbn [mbind option_bind].
    eexists _, _, (cs ++ ds), _. split_and!; [done|by eapply adds_trans|rewrite covers_app; by eexists|by right|done].
  - by exists st1, it1, cs, a1.
Qed.

Lemma partition_request_ok r i per st : request input i = Some r -> request_ok r -> 0 <= per ->
  (align | per) -> threads_ok per st false ->
  exists st' cs, partition_request thread_num cache_size input per i st = Some st' /\
    adds st st' cs /\ covers r 0 cs (r_q_token_num r) /\ threads_ok per st' false.
Proof.
  intros E RK Hper Hd T. unfold partition_request. rewrite E. cbn [mbind option_bind].
  pose proof (rk_len r RK) as Hq. pose proof (max_tok_pos r RK) as Hmax.
  destruct (for_step_inv (fun t '(s, it) => exists cs a, adds st s cs /\ covers r 0 cs a /\
      open_at r a (Z.min t (r_q_token_num r)) t it /\ threads_ok per s (0 <? pi_total_kv_len it))
    0 (r_q_token_num r) (max_num_q_token_per_iter input r)
    (partition_tile thread_num cache_size input per r) (st, fresh_item r 0 0))
    as ([s it] & t & -> & _ & Ht & _ & cs & a & A & C & O & T'); [done| | |].
  - exists [], 0. split_and!; [by apply adds_same|done| |done]. right. split; [lia|done].
  - intros t [s it] Ht (cs & a & A & C & O & T'). rewrite Z.min_l in O by lia.
    destruct (partition_tile_ok r per a t s it RK Hper Hd Ht O T')
      as (s' & it' & ds & a' & -> & A' & C' & O' & T''). eexists; split; [done|].
    exists (cs ++ ds), a'. split_and!; [by eapply adds_trans|rewrite covers_app; by eexists| |done].
    unfold q_tile_token_num in O'.
    by replace (Z.min (t + _) _) with (t + Z.min (max_num_q_token_per_iter input r) (r_q_token_num r - t)) by lia.
  - cbn [mbind option_bind]. rewrite Z.min_r in O by lia.
    destruct (flush_ok per s r a _ _ it O T') as (s' & ds & -> & A' & C' & _ & _ & _ & _ & T'').
    exists s', (cs ++ ds). split_and!; [done|by eapply adds_trans|rewrite covers_app; by eexists|done].
Qed.

Lemma count_requests_ok : exists stride total, count_requests input = Some (stride, total) /\
  0 <= total /\ 1 <= stride /\ (stride | original_q_head_per_kv input) /\
  forall i r, request input i = Some r -> 0 <= i < num_reqs input -> (stride | r_group r).
Proof.
  unfold count_requests. pose proof q_head_per_kv_pos as Hk.
  destruct (for_range_inv (fun i '(stride, total) => 0 <= total /\ 1 <= stride /\
      (stride | original_q_head_per_kv input) /\
      forall j r, request input j = Some r -> 0 <= j < i -> (stride | r_group r))
    0 (num_reqs input) (count_request input) (original_q_head_per_kv input, 0))
    as ([stride total] & -> & H); [apply (ok_reqs OK)| | |by exists stride, total].
  - split_and!; [lia|done|done|]. intros; lia.
  - intros i [stride total] Hi (H0 & H1 & H2 & H3).
    destruct (request_ok_ex i Hi) as (r & E & RK & _). unfold count_request. rewrite E. cbn [mbind option_bind].
    destruct (for_step_inv (fun _ t => 0 <= t) 0 (r_q_token_num r) (max_num_q_token_per_iter input r)
      (fun token_id total => let '(l, h) := tile_kv input r token_id in Some (total + (h - l))) total)
      as (t & ? & -> & _ & _ & _ & Ht); [by apply max_tok_pos|done| |].
    { intros t tot Ht Htot. pose proof (tile_kv_ok r RK t Ht) as Hkv. destruct (tile_kv input r t).
      eexists; split; [done|]. destruct Hkv as (? & _). lia. }
    cbn [mbind option_bind]. eexists; split; [done|].
    pose proof (Z.gcd_nonneg stride (r_group r)) as Hg. pose proof (rk_group r RK).
    assert (Z.gcd stride (r_group r) <> 0) by (intros Hz; apply Z.gcd_eq_0_l in Hz; lia).
    split_and!; [done|lia|etrans; [apply Z.gcd_divide_l|done]|]. intros j r' E' Hj.
    destruct (decide (j = i)) as [->|]; [simplify_eq; apply Z.gcd_divide_r|].
    etrans; [apply Z.gcd_divide_l|]. apply (H3 j); [done|lia].
Qed.

(** The offsets cut the items into one run per thread. *)
Record spans_ok (p : Partitions) : Prop := {
  sp_length : Z.of_nat (length (offsets_ p)) = thread_num + 1;
  sp_first : at_ (offsets_ p) 0 = 0;
  sp_mono : forall i, 0 <= i < thread_num -> at_ (offsets_ p) i <= at_ (offsets_ p) (i + 1);
  sp_last : at_ (offsets_ p) thread_num = Z.of_nat (length (items p))
}.

Lemma partial_sum_length acc l : length (partial_sum acc l) = S (length l).
Proof. revert acc. induction l as [|n l IH]; intros acc; simpl; [done|by rewrite IH]. Qed.

Lemma partial_sum_at acc l i : (i <= length l)%nat ->
  partial_sum acc l !!! i = acc + zsum (take i l).
Proof.
  revert acc i. induction l as [|n l IH]; intros acc [|i] Hi; simpl in *; try lia.
  rewrite IH by lia. lia.
Qed.

Lemma partial_sum_step acc l i n : l !! i = Some n ->
  partial_sum acc l !!! S i = partial_sum acc l !!! i + n.
Proof.
  intros E. pose proof (lookup_lt_Some _ _ _ E). rewrite !partial_sum_at by lia.
  rewrite (take_S_r _ _ _ E), foldr_app. simpl.
  enough (forall k z, foldr Z.add z k = zsum k + z) as -> by lia.
  induction k as [|x k IH]; intros z; simpl; [done|]. rewrite IH. lia.
Qed.

(** Everything about the cut at once: the chunks of each request in turn. *)
Record cut_ok (p : Partitions) (css : list (list chunk)) : Prop := {
  cut_items : items p = items_of 0 (concat css);
  cut_reductions : reductions p = reds_of (concat css);
  cut_length : Z.of_nat (length css) = num_reqs input;
  cut_covers : forall i r cs, request input (Z.of_nat i) = Some r -> css !! i = Some cs ->
    covers r 0 cs (r_q_token_num r);
  cut_spans : spans_ok p;
  cut_stride : 1 <= head_stride p /\ (head_stride p | original_q_head_per_kv input) /\
    forall i r, request input i = Some r -> 0 <= i < num_reqs input -> (head_stride p | r_group r)
}.

Lemma partition_cut : exists p css,
  partition thread_num cache_size input = Some p /\ cut_ok p css.
Proof.
  unfold partition. destruct count_requests_ok as (stride & total & -> & Htot & Hstride).
  cbn [mbind option_bind]. set (per := kv_len_per_thread_of _ _ _).
  pose proof (ok_threads OK) as Hth. pose proof (ok_align OK) as Ha.
  assert (0 <= per /\ (align | per)) as [Hper Hd].
  { unfold per, kv_len_per_thread_of.
    pose proof (Z.quot_pos total thread_num Htot ltac:(lia)) as Hq.
    pose proof (round_up_bounds _ align Hq Ha) as [? ?]. split; [lia|done]. }
  set (st0 := {| workitems := [] |}).
  assert (threads_ok per st0 false) as T0.
  { constructor; simpl; [lia|rewrite length_replicate; lia|apply Forall_replicate; lia| | |done|by right; right].
    - by induction (Z.to_nat thread_num).
    - intros j Hj. rewrite rd_lookup, lookup_replicate by lia. split; [done|lia]. }
  destruct (for_range_inv (fun i st => exists css, Z.of_nat (length css) = i /\ adds st0 st (concat css) /\
      (forall j r cs, request input (Z.of_nat j) = Some r -> css !! j = Some cs ->
        covers r 0 cs (r_q_token_num r)) /\ threads_ok per st false)
    0 (num_reqs input) (partition_request thread_num cache_size input per) st0)
    as (st & -> & css & Hl & [A1 A2] & C & T); [apply (ok_reqs OK)|exists []; by split_and!| |].
  - intros i st Hi (css & Hl & A & C & T). destruct (request_ok_ex i Hi) as (r & E & RK & _).
    destruct (partition_request_ok r i per st E RK Hper Hd T) as (st' & cs & -> & A' & C' & T').
    eexists; split; [done|]. exists (css ++ [cs]). rewrite length_app, concat_app. simpl. rewrite app_nil_r.
    split_and!; [lia|by eapply adds_trans| |done]. intros j r' cs' E' Hj.
    apply lookup_snoc_Some in Hj as [[? ?]|[-> ->]]; [by eapply C|]. by rewrite Hl, E in E'; simplify_eq.
  - cbn [mbind option_bind]. eexists _, css. split; [done|]. constructor; simpl; try done.
    pose proof (th_length _ _ _ T) as Hlen. pose proof (th_sum _ _ _ T) as Hsum.
    set (num := workitem_num_per_thread st) in *. constructor; simpl; unfold at_.
    + rewrite partial_sum_length. lia.
    + by rewrite partial_sum_at by lia.
    + intros i Hi. destruct (lookup_lt_is_Some_2 num (Z.to_nat i)) as [n Hn]; [lia|].
      replace (Z.to_nat (i + 1)) with (S (Z.to_nat i)) by lia. rewrite (partial_sum_step _ _ _ _ Hn).
      pose proof (Forall_lookup_1 _ _ _ _ (th_nonneg _ _ _ T) Hn) as H. simpl in H. lia.
    + rewrite partial_sum_at by lia. rewrite take_ge by lia. lia.
Qed.

(** ** Every token once *)

Definition handles (it : PartitionItem) (i t : Z) : Prop :=
  pi_req_id it = i /\ pi_q_token_id_start it <= t < pi_q_token_id_start it + pi_q_token_num it.
#[export] Instance handles_dec it i t : Decision (handles it i t).
Proof. unfold handles. apply _. Defined.

Definition chunk_has (c : chunk) (i t : Z) : Prop :=
  r_req_id (chunk_req c) = i /\ chunk_tok c <= t < chunk_tok c + chunk_num c.

Lemma covers_at r a cs b t : request_ok r -> covers r a cs b -> a <= t < b ->
  exists cs1 c cs2, cs = cs1 ++ c :: cs2 /\ chunk_req c = r /\ chunk_ok c /\
    chunk_tok c <= t < chunk_tok c + chunk_num c /\
    Forall (fun d => ~ chunk_has d (r_req_id r) t) (cs1 ++ cs2).
Proof.
  intros RK. revert a. induction cs as [|c cs IH]; intros a; simpl; [lia|].
  intros (Hr & Ha & Hc & C) Ht. destruct (Z.lt_ge_cases t (a + chunk_num c)) as [Hlt|Hge].
  - exists [], c, cs. split_and!; try done; [lia..|]. simpl.
    assert (forall ds m, t < m -> covers r m ds b -> Forall (fun d => ~ chunk_has d (r_req_id r) t) ds) as Hlater;
      [|by eapply Hlater].
    clear -RK OK. induction ds as [|d ds IH]; intros m Hm; simpl; [constructor|].
    intros (Hr & Ha & Hd & C). assert (1 <= chunk_num d) as Hn.
    { destruct d as [|r' tok lo cuts hi]; simpl in *; [done|]. destruct Hd as (_ & Hq & _). subst r'.
      pose proof (tile_num_bounds r RK tok Hq). lia. }
    constructor; [unfold chunk_has; lia|]. by apply (IH (m + chunk_num d)); [lia|].
  - destruct (IH _ C) as (cs1 & d & cs2 & -> & Hd & Hok & Hin & F); [lia|].
    exists (c :: cs1), d, cs2. split_and!; try done; [lia..|]. simpl. constructor; [unfold chunk_has; lia|done].
Qed.

Lemma elem_of_concat {A} (x : A) (ls : list (list A)) : x ∈ concat ls -> exists l, l ∈ ls /\ x ∈ l.
Proof. rewrite !list_elem_of_In, in_concat. intros (l & H1 & H2). exists l. by rewrite !list_elem_of_In. Qed.

Lemma filter_none {A} (P : A -> Prop) `{!forall x, Decision (P x)} l : Forall (fun x => ~ P x) l -> filter P l = [].
Proof. induction 1 as [|x l Hx F IH]; [done|]. by rewrite filter_cons_False. Qed.

Lemma filter_every {A} (P : A -> Prop) `{!forall x, Decision (P x)} l : Forall P l -> filter P l = l.
Proof. induction 1 as [|x l Hx F IH]; [done|]. by rewrite filter_cons_True, IH. Qed.

Lemma chunk_num_pos c : request_ok (chunk_req c) -> chunk_ok c -> 1 <= chunk_num c.
Proof.
  destruct c as [r tok num total|r tok lo cuts hi]; simpl; [done|]. intros RK (_ & Hq & _).
  pose proof (tile_num_bounds r RK tok Hq). lia.
Qed.

Lemma covers_elem r a cs b d : request_ok r -> covers r a cs b -> d ∈ cs ->
  chunk_req d = r /\ chunk_ok d /\ a <= chunk_tok d /\ chunk_tok d + chunk_num d <= b.
Proof.
  intros RK. assert (forall cs a, covers r a cs b -> a <= b) as Hle.
  { clear -RK OK. induction cs as [|c cs IH]; intros a; simpl; [lia|]. intros (Hr & _ & Hok & C%IH).
    pose proof (chunk_num_pos c). rewrite Hr in *. naive_solver lia. }
  revert a. induction cs as [|c cs IH]; intros a; simpl; [by intros _ ?%elem_of_nil|].
  intros (Hr & Ha & Hok & C) [->|Hd]%elem_of_cons; pose proof (chunk_num_pos c ltac:(by rewrite Hr) Hok) as Hn.
  - apply Hle in C. split_and!; [done|done|lia|lia].
  - destruct (IH _ C Hd) as (? & ? & ? & ?). split_and!; [done|done|lia|lia].
Qed.

(** Every chunk of a cut belongs to a request of the batch. *)
Lemma cut_chunk p css c : cut_ok p css -> c ∈ concat css ->
  exists i, 0 <= i < num_reqs input /\ request input i = Some (chunk_req c) /\
    r_req_id (chunk_req c) = i /\ request_ok (chunk_req c) /\ chunk_ok c /\
    0 <= chunk_tok c /\ chunk_tok c + chunk_num c <= r_q_token_num (chunk_req c).
Proof.
  intros Hcut (cs & Hcs & Hc)%elem_of_concat. apply list_elem_of_lookup_1 in Hcs as [j Hj].
  pose proof (lookup_lt_Some _ _ _ Hj). pose proof (cut_length _ _ Hcut).
  destruct (request_ok_ex (Z.of_nat j)) as (r & Er & RK & Eid & _); [lia|].
  destruct (covers_elem _ _ _ _ _ RK (cut_covers _ _ Hcut j r cs Er Hj) Hc) as (-> & Hok & ? & ?).
  exists (Z.of_nat j). split_and!; try done; lia.
Qed.

(** The chunks of a cut hold every token of every request exactly once. *)
Lemma chunk_at p css i t : cut_ok p css -> 0 <= i < num_reqs input -> 0 <= t < qlen i ->
  exists r l1 c l2, request input i = Some r /\ request_ok r /\ concat css = l1 ++ c :: l2 /\
    chunk_req c = r /\ chunk_ok c /\ chunk_tok c <= t < chunk_tok c + chunk_num c /\
    Forall (fun d => ~ chunk_has d i t) (l1 ++ l2).
Proof.
  intros Hcut Hi Ht. destruct (request_ok_ex i Hi) as (r & E & RK & Eid & Eq & _).
  pose proof (cut_length _ _ Hcut) as Hl.
  destruct (lookup_lt_is_Some_2 css (Z.to_nat i)) as [cs Hcs]; [lia|].
  pose proof (cut_covers _ _ Hcut (Z.to_nat i) r cs) as C. rewrite Z2Nat.id in C by lia.
  destruct (covers_at r 0 cs (r_q_token_num r) t RK (C E Hcs)) as (cs1 & c & cs2 & -> & Hr & Hc & Hin & F); [lia|].
  pose proof (take_drop_middle css _ _ Hcs) as Hsplit.
  exists r, (concat (take (Z.to_nat i) css) ++ cs1), c, (cs2 ++ concat (drop (S (Z.to_nat i)) css)).
  split_and!; try done; [rewrite <- Hsplit at 1; rewrite concat_app; simpl; by rewrite <- !app_assoc|lia..|].
  assert (forall j ds d, css !! j = Some ds -> d ∈ ds -> j <> Z.to_nat i -> ~ chunk_has d i t) as Hother.
  { intros j ds d Hj Hd Hne [Hid _]. pose proof (lookup_lt_Some _ _ _ Hj).
    destruct (request_ok_ex (Z.of_nat j)) as (r' & E' & RK' & Eid' & _); [lia|].
    destruct (covers_elem r' 0 ds _ d RK' (cut_covers _ _ Hcut j r' ds E' Hj) Hd) as [Hr' _].
    rewrite Hr' in Hid. lia. }
  rewrite Eid in F. apply Forall_app in F as [F1 F2]. rewrite !Forall_app. split_and!; try done;
    apply Forall_forall; intros d (ds & Hds & Hd)%elem_of_concat; apply list_elem_of_lookup_1 in Hds as [j Hj].
  - apply lookup_take_Some in Hj as [Hj ?]. apply (Hother j ds d); [done|done|lia].
  - rewrite lookup_drop in Hj. apply (Hother _ ds d Hj Hd). lia.
Qed.

Lemma pieces_handles r tok red lid lo cuts hi i t :
  Forall (fun it => handles it i t <->
    r_req_id r = i /\ tok <= t < tok + q_tile_token_num input r tok) (pieces r tok red lid lo cuts hi).
Proof. revert lid lo. induction cuts as [|p cuts IH]; intros lid lo; simpl; (constructor; [reflexivity|]); [constructor|apply IH]. Qed.

Lemma chunk_handles red c i t : Forall (fun it => handles it i t <-> chunk_has c i t) (chunk_items red c).
Proof. destruct c as [r tok num total|r tok lo cuts hi]; simpl; [|apply pieces_handles].
  constructor; [reflexivity|constructor]. Qed.

Lemma filter_items_none red cs i t : Forall (fun d => ~ chunk_has d i t) cs ->
  filter (fun it => handles it i t) (items_of red cs) = [].
Proof.
  intros F. revert red. induction F as [|c cs Hc F IH]; intros red; simpl; [done|].
  rewrite filter_app, IH, app_nil_r. apply filter_none.
  eapply Forall_impl; [apply (chunk_handles red c i t)|]. simpl. tauto.
Qed.

(** The parts of a tile: aligned, not empty, inside the sequence. *)
Lemma pieces_bounds r tok red lid lo cuts hi : 0 <= lo -> (align | lo) -> (align | hi) ->
  hi < r_seq_len r + align -> increasing lo cuts hi ->
  Forall (fun it => 0 <= pi_kv_split_pos_start it < pi_kv_split_pos_end it /\
    (align | pi_kv_split_pos_start it) /\ pi_kv_split_pos_end it <= r_seq_len r /\
    pi_q_token_id_start it = tok /\ pi_q_token_num it = q_tile_token_num input r tok)
    (pieces r tok red lid lo cuts hi).
Proof.
  intros Hlo Hdlo Hdhi Hhi. pose proof (ok_align OK) as Ha.
  assert (forall cuts lo, increasing lo cuts hi -> lo < hi) as Hlt.
  { clear. induction cuts as [|p cuts IH]; intros lo; simpl; [done|]. intros (? & _ & ?%IH). lia. }
  revert lid lo Hlo Hdlo. induction cuts as [|p cuts IH]; intros lid lo Hlo Hdlo; simpl.
  - intros H. pose proof (divide_lt_le align lo hi Ha Hdlo Hdhi H). repeat constructor; simpl; (done || lia).
  - intros (Hp & Hdp & Hinc). pose proof (divide_lt_le align p hi Ha Hdp Hdhi (Hlt _ _ Hinc)).
    constructor; [simpl; split_and!; (done || lia)|]. apply IH; [lia|done|done].
Qed.

Lemma items_at l1 c l2 i t : chunk_has c i t -> Forall (fun d => ~ chunk_has d i t) (l1 ++ l2) ->
  filter (fun it => handles it i t) (items_of 0 (l1 ++ c :: l2)) =
  chunk_items (Z.of_nat (length (reds_of l1))) c.
Proof.
  intros Hc [F1 F2]%Forall_app. rewrite items_of_app. simpl.
  rewrite !filter_app, !filter_items_none, app_nil_r by done. simpl. apply filter_every.
  eapply Forall_impl; [apply (chunk_handles _ c i t)|]. simpl. tauto.
Qed.

End Correct.

(** The cut of a batch into work items, which always comes out: every query
    token of every request is handled either by exactly one item, which has the
    request's whole context, or by the parts of its query tile, which are numbered
    from 0, cut the tile's aligned context at increasing aligned positions into at
    least two consecutive ranges (the last one open to the end of the sequence), and
    all belong to the one reduction that announces this number of parts for these
    tokens.  The offsets cut the items into one consecutive run per thread. *)
Theorem partition_covers thread_num cache_size input : input_ok thread_num input ->
  exists p, partition thread_num cache_size input = Some p /\ spans_ok thread_num p /\
  forall i t, 0 <= i < num_reqs input ->
    0 <= t < at_ (query_start_loc input) (i + 1) - at_ (query_start_loc input) i ->
    exists r, request input i = Some r /\
      let its := filter (fun it => handles it i t) (items p) in
      (exists tok num total, its = [item r tok num 0 (r_seq_len r) total (-1) 0]) \/
      (exists tok lo hi cuts red, 0 <= tok <= t /\ t < tok + q_tile_token_num input r tok /\
        tile_kv input r tok = (lo, hi) /\ cuts <> [] /\ increasing input lo cuts hi /\ its = pieces input r tok (Z.of_nat red) 0 lo cuts hi /\
        reductions p !! red = Some (red_of input r tok (1 + Z.of_nat (length cuts)))).
Proof.
  intros OK. destruct (partition_cut thread_num cache_size input OK) as (p & css & E & Hcut).
  exists p. split; [done|]. split; [apply (cut_spans _ _ _ _ Hcut)|]. intros i t Hi Ht.
  destruct (chunk_at _ _ OK p css i t Hcut Hi Ht) as (r & l1 & c & l2 & Hr & RK & Hsplit & Hc & Hok & Hin & F).
  exists r. split; [done|]. cbv zeta. rewrite (cut_items _ _ _ _ Hcut), (cut_reductions _ _ _ _ Hcut), Hsplit.
  assert (chunk_has input c i t) as Hhas.
  { destruct (request_ok_ex _ _ OK i Hi) as (r' & E' & _ & Eid & _). split; [congruence|done]. }
  rewrite (items_at input l1 c l2 i t Hhas F). destruct c as [r' tok num total|r' tok lo cuts hi]; simpl in *; subst r'.
  - left. by eexists _, _, _.
  - right. destruct Hok as (_ & Htok & Hkv & Hne & Hinc). eexists tok, lo, hi, cuts, _.
    split_and!; [lia|lia|lia|done..|].
    unfold reds_of. rewrite bind_app. simpl. by rewrite list_lookup_middle.
Qed.

(** Three requests on four threads; the long decode is cut in four. *)
Definition sample_input : ScheduleInput := {|
  num_reqs := 3; elem_size := 2; q_buffer_elem_size := 2; logits_buffer_elem_size := 4;
  output_buffer_elem_size := 4; num_heads_q := 4; num_heads_kv := 2; head_dim := 64;
  query_start_loc := [0; 1; 40; 41]; seq_lens := [300; 39; 5000]; sliding_window_size := -1;
  causal := true; isa := VEC; max_num_q_per_iter := 4; kv_block_alignment := 32;
  enable_kv_split := true; dynamic_causal := None |}.

Lemma sample_input_ok : input_ok 4 sample_input.
Proof.
  constructor; simpl; try lia; try done.
  - exists 2. lia.
  - intros i Hi. assert (i = 0 \/ i = 1 \/ i = 2) as [->|[->| ->]] by lia; vm_compute; split; discriminate.
Qed.

Lemma partition_covers_witness :
  exists p, partition 4 1048576 sample_input = Some p /\
    pi_kv_split_pos_start <$> filter (fun it => handles it 2 0) (items p) = [0; 448; 1984; 3520] /\
    exists r, request sample_input 2 = Some r /\
      ((exists tok num total, filter (fun it => handles it 2 0) (items p)
         = [item r tok num 0 (r_seq_len r) total (-1) 0]) \/
       (exists tok lo hi cuts red, 0 <= tok <= 0 /\ 0 < tok + q_tile_token_num sample_input r tok /\
        tile_kv sample_input r tok = (lo, hi) /\ cuts <> [] /\ increasing sample_input lo cuts hi /\
        filter (fun it => handles it 2 0) (items p) = pieces sample_input r tok (Z.of_nat red) 0 lo cuts hi /\
        reductions p !! red = Some (red_of sample_input r tok (1 + Z.of_nat (length cuts))))).
Proof.
  destruct (partition_covers 4 1048576 sample_input sample_input_ok) as (p & E & _ & H).
  exists p. split; [done|]. specialize (H 2 0). split.
  - vm_compute in E. injection E as <-. reflexivity.
  - apply H; simpl; [lia|]. vm_compute. split; [discriminate|reflexivity].
Defined.

End Attn.
