(* ===== verification/AttnTasks.v ===== *)
(** * The CPU attention scheduler: tasks and scratch memory

    [csrc/cpu/cpu_attn_impl.hpp], the second half of [AttentionScheduler::schedule]:
    the items of [AttnSchedule] are repeated for the query heads, grouped into the
    spans that the threads will fetch, and given scratch memory ([AttentionScratchPad]).
    [Tasks.schedule] is the whole of [schedule]; the metadata tensor is the record
    [Metadata], whose arrays are lists. *)

From S2P Require Import Prelude Arrays Regions AttnSchedule.

#[local] Open Scope Z_scope.

Module Tasks.
Import Attn.

Record AttentionWorkItemGroup := {
  wi_req_id : Z;
  wi_kv_head_idx : Z;
  wi_q_head_start : Z;
  wi_q_head_num : Z;
  wi_q_token_id_start : Z;
  wi_q_token_num : Z;
  wi_kv_split_pos_start : Z;
  wi_kv_split_pos_end : Z;
  wi_reduction_id : Z;
  wi_split_id : Z;
  wi_local_split_id : Z
}.

Record ReductionWorkItemGroup := {
  ri_req_id : Z;
  ri_q_head_start : Z;
  ri_q_head_num : Z;
  ri_q_token_id_start : Z;
  ri_q_token_id_num : Z;
  ri_split_num : Z;
  ri_scratch_offset : Z
}.

Record AttentionTaskSpan := { ts_start : Z; ts_count : Z }.

(** ** Spans of items *)

Section Schedule.
Context (thread_num cache_size : Z) (input : ScheduleInput).

Section Spans.
Context (partitions : Partitions) (head : Z) {S : Type} (emit : Z -> Z -> S -> option S).

(** One item of the inner loop; the state carries [start]. *)
Definition span_step (idx : Z) (s : Z * S) : option (Z * S) :=
  let '(start, s) := s in
  it ← rd (items partitions) idx;
  if negb (Z.rem head (pi_group it) =? 0) then Some (start, s) else
  alone ← (if 1 <? pi_group it
           then n ← request_q_token_num input (pi_req_id it); Some (1 <? n)
           else Some false);
  if (alone : bool) then
    s1 ← (if 0 <=? start then emit start idx s else Some s);
    s2 ← emit idx (idx + 1) s1;
    Some (-1, s2)
  else Some (if start <? 0 then idx else start, s).

Definition span_thread (thread : Z) (s : S) : option S :=
  end_ ← rd (offsets_ partitions) (thread + 1);
  first ← rd (offsets_ partitions) thread;
  '(start, s) ← for_range first end_ span_step (-1, s);
  if 0 <=? start then emit start end_ s else Some s.

Definition for_each_span (s : S) : option S := for_range 0 thread_num span_thread s.

End Spans.

(** ** Expansion over the query heads *)

Record Expansion := {
  x_workitems : list AttentionWorkItemGroup;
  x_reduce_workitems : list ReductionWorkItemGroup;
  x_task_spans : list AttentionTaskSpan;
  x_reduction_ids : list Z
}.

(** One reduction of the partition, for [head]. *)
Definition expand_reduction (partitions : Partitions) (head : Z) (idx : Z)
    (s : list ReductionWorkItemGroup * list Z) : option (list ReductionWorkItemGroup * list Z) :=
  let '(reds, ids) := s in
  source ← rd (reductions partitions) idx;
  ids ← wr ids idx (-1);
  if negb (Z.rem head (pr_group source) =? 0) then Some (reds, ids) else
  ids ← wr ids idx (Z.of_nat (length reds));
  Some (reds ++ [{| ri_req_id := pr_req_id source; ri_q_head_start := head;
                    ri_q_head_num := pr_group source; ri_q_token_id_start := pr_token_start source;
                    ri_q_token_id_num := pr_token_num source; ri_split_num := pr_split_num source;
                    ri_scratch_offset := 0 |}], ids).

(** One item of the partition, for [head]. *)
Definition expand_item (partitions : Partitions) (head : Z) (ids : list Z) (idx : Z)
    (ws : list AttentionWorkItemGroup) : option (list AttentionWorkItemGroup) :=
  source ← rd (items partitions) idx;
  if negb (Z.rem head (pi_group source) =? 0) then Some ws else
  '(red, split) ← (if 0 <=? pi_reduction source
                   then id ← rd ids (pi_reduction source); Some (id, pi_local_split_id source)
                   else Some (-1, -1));
  Some (ws ++ [{| wi_req_id := pi_req_id source;
                  wi_kv_head_idx := Z.quot head (original_q_head_per_kv input);
                  wi_q_head_start := head; wi_q_head_num := pi_group source;
                  wi_q_token_id_start := pi_q_token_id_start source;
                  wi_q_token_num := pi_q_token_num source;
                  wi_kv_split_pos_start := pi_kv_split_pos_start source;
                  wi_kv_split_pos_end := pi_kv_split_pos_end source;
                  wi_reduction_id := red; wi_split_id := split;
                  wi_local_split_id := pi_local_split_id source |}]).

(** The callback given to [for_each_span]. *)
Definition emit_span (partitions : Partitions) (head : Z) (ids : list Z) (first last : Z)
    (s : list AttentionWorkItemGroup * list AttentionTaskSpan)
    : option (list AttentionWorkItemGroup * list AttentionTaskSpan) :=
  let '(ws, spans) := s in
  let start := Z.of_nat (length ws) in
  ws ← for_range first last (expand_item partitions head ids) ws;
  let count := Z.of_nat (length ws) - start in
  Some (ws, if 0 <? count then spans ++ [{| ts_start := start; ts_count := count |}] else spans).

Definition expand_head (partitions : Partitions) (head : Z) (x : Expansion) : option Expansion :=
  '(reds, ids) ← for_range 0 (Z.of_nat (length (reductions partitions)))
    (expand_reduction partitions head) (x_reduce_workitems x, x_reduction_ids x);
  '(ws, spans) ← for_each_span partitions head (emit_span partitions head ids)
    (x_workitems x, x_task_spans x);
  Some {| x_workitems := ws; x_reduce_workitems := reds; x_task_spans := spans; x_reduction_ids := ids |}.

Definition expand (partitions : Partitions) : option Expansion :=
  for_step 0 (num_heads_q input) (head_stride partitions) (expand_head partitions)
    {| x_workitems := []; x_reduce_workitems := []; x_task_spans := [];
       x_reduction_ids := replicate (length (reductions partitions)) 0 |}.

(** ** Scratch memory *)

Definition round_to_64 (num : Z) : Z := Z.shiftl (Z.shiftr (num + 63) 6) 6.

Definition calcu_q_buffer_size (q_tile_size hd size : Z) : Z := round_to_64 (q_tile_size * hd * size).
Definition calcu_logits_buffer_size (max_q k_tile_size size : Z) : Z :=
  round_to_64 (size * max_q * k_tile_size).
Definition calcu_partial_output_buffer_size (q_tile_size hd size : Z) : Z :=
  round_to_64 (q_tile_size * hd * size).
Definition calcu_partial_output_max_sum_buffer_size (q_tile_size : Z) : Z := round_to_64 (q_tile_size * 4).
Definition calcu_reduce_flag_buffer_size (total_split_num : Z) : Z := round_to_64 (total_split_num * 1).
Definition calcu_reduce_max_sum_buffer_size (total_split_num q_head_tile_size : Z) : Z :=
  round_to_64 (total_split_num * q_head_tile_size * 4).
Definition calcu_reduce_output_buffer_size (total_split_num q_head_tile_size hd size : Z) : Z :=
  round_to_64 (total_split_num * q_head_tile_size * hd * size).

Definition reduction_stats_stride (head_num : Z) : Z := Z.quot (head_num + 15) 16 * 16.

(** The offsets of the two families of buffers in [AttentionScratchPad]. *)
Record AttentionBuffers := {
  q_buffer_offset_ : Z;
  logits_buffer_offset_ : Z;
  output_buffer_offset_ : Z;
  max_buffer_offset_ : Z;
  sum_buffer_offset_ : Z
}.

Definition update (hd q_size logits_size output_size max_q q_head_tile_size kv_tile_size : Z)
    : AttentionBuffers :=
  let buffer_offset := 0 in
  let q := buffer_offset in
  let buffer_offset := buffer_offset + calcu_q_buffer_size q_head_tile_size hd q_size in
  let logits := buffer_offset in
  let buffer_offset := buffer_offset + calcu_logits_buffer_size max_q kv_tile_size logits_size in
  let output := buffer_offset in
  let buffer_offset := buffer_offset + calcu_partial_output_buffer_size q_head_tile_size hd output_size in
  let max := buffer_offset in
  let buffer_offset := buffer_offset + calcu_partial_output_max_sum_buffer_size q_head_tile_size in
  {| q_buffer_offset_ := q; logits_buffer_offset_ := logits; output_buffer_offset_ := output;
     max_buffer_offset_ := max; sum_buffer_offset_ := buffer_offset |}.

Record ReductionBuffers := {
  reduce_flag_buffer_offset_ : Z;
  reduce_output_buffer_offset_ : Z;
  reduce_max_buffer_offset_ : Z;
  reduce_sum_buffer_offset_ : Z
}.

Definition update_reduction (scratch_offset total_split_num hd q_head_tile_size output_size : Z)
    : ReductionBuffers :=
  let buffer_offset := scratch_offset in
  let flag := buffer_offset in
  let buffer_offset := buffer_offset + calcu_reduce_flag_buffer_size total_split_num in
  let output := buffer_offset in
  let buffer_offset := buffer_offset
    + calcu_reduce_output_buffer_size total_split_num q_head_tile_size hd output_size in
  let max := buffer_offset in
  let buffer_offset := buffer_offset
    + calcu_reduce_max_sum_buffer_size total_split_num (reduction_stats_stride q_head_tile_size) in
  {| reduce_flag_buffer_offset_ := flag; reduce_output_buffer_offset_ := output;
     reduce_max_buffer_offset_ := max; reduce_sum_buffer_offset_ := buffer_offset |}.

Definition get_thread_scratchpad_size (b : AttentionBuffers) : Z :=
  2 * sum_buffer_offset_ b - max_buffer_offset_ b.
Definition get_reduction_scratchpad_size (b : ReductionBuffers) : Z :=
  2 * reduce_sum_buffer_offset_ b - reduce_max_buffer_offset_ b.

(** The buffers of the query tile of [item] at [q_token_offset]. *)
Definition tile_token_num (it : AttentionWorkItemGroup) : Z :=
  Z.quot (default_tile_size cache_size input) (wi_q_head_num it).

Definition rounded_q_head_tile_size (it : AttentionWorkItemGroup) (q_token_offset : Z) : Z :=
  let actual_q_token_num := Z.min (tile_token_num it) (wi_q_token_num it - q_token_offset) in
  let q_head_tile_size := actual_q_token_num * wi_q_head_num it in
  Z.quot (q_head_tile_size + max_num_q_per_iter input - 1) (max_num_q_per_iter input)
  * max_num_q_per_iter input.

Definition kv_tile_size (it : AttentionWorkItemGroup) (q_token_offset : Z) : Z :=
  let rounded := rounded_q_head_tile_size it q_token_offset in
  calcu_tile_size_with_constant_q cache_size (head_dim input) (elem_size input)
    (q_buffer_elem_size input) (logits_buffer_elem_size input) (output_buffer_elem_size input)
    (max_num_q_per_iter input) (kv_block_alignment input) rounded
    (rounded <=? max_num_q_per_iter input).

Definition tile_buffers (it : AttentionWorkItemGroup) (q_token_offset : Z) : AttentionBuffers :=
  update (head_dim input) (q_buffer_elem_size input) (logits_buffer_elem_size input)
    (output_buffer_elem_size input) (max_num_q_per_iter input)
    (rounded_q_head_tile_size it q_token_offset) (kv_tile_size it q_token_offset).

Definition attention_scratch (ws : list AttentionWorkItemGroup) : option Z :=
  foldl (fun acc it => acc ≫= for_step 0 (wi_q_token_num it) (tile_token_num it)
    (fun q_token_offset size =>
       Some (Z.max size (get_thread_scratchpad_size (tile_buffers it q_token_offset))))) (Some 0) ws.

Definition reduction_buffers (it : ReductionWorkItemGroup) : ReductionBuffers :=
  update_reduction (ri_scratch_offset it) (ri_split_num it) (head_dim input)
    (ri_q_token_id_num it * ri_q_head_num it) (output_buffer_elem_size input).

Definition set_offset (off : Z) (it : ReductionWorkItemGroup) : ReductionWorkItemGroup := {|
  ri_req_id := ri_req_id it; ri_q_head_start := ri_q_head_start it; ri_q_head_num := ri_q_head_num it;
  ri_q_token_id_start := ri_q_token_id_start it; ri_q_token_id_num := ri_q_token_id_num it;
  ri_split_num := ri_split_num it; ri_scratch_offset := off |}.

(** [((n + 63) / 64) * 64] *)
Definition pad_64 (n : Z) : Z := Z.quot (n + 63) 64 * 64.

(** Gives each reduction its scratch memory; returns the items and the total. *)
Fixpoint reduction_scratch (size : Z) (reds : list ReductionWorkItemGroup)
    : list ReductionWorkItemGroup * Z :=
  match reds with
  | [] => ([], size)
  | it :: reds =>
      let it := set_offset size it in
      let '(reds, total) :=
        reduction_scratch (pad_64 (get_reduction_scratchpad_size (reduction_buffers it))) reds in
      (it :: reds, total)
  end.

(** ** The metadata *)

Record Metadata := {
  counter : Z;
  md_isa : ISA;
  workitem_group_num : Z;
  reduction_item_num : Z;
  reduction_split_num : Z;
  md_thread_num : Z;
  attention_scratchpad_size_per_thread : Z;
  reduction_scratchpad_size : Z;
  workitem_groups : list AttentionWorkItemGroup;
  reduction_items : list ReductionWorkItemGroup;
  task_spans : list AttentionTaskSpan;
  task_span_num : Z
}.

(** The size that the scratch pad is given. *)
Definition scratchpad_size (m : Metadata) : Z :=
  attention_scratchpad_size_per_thread m * md_thread_num m + reduction_scratchpad_size m.

Definition schedule : option (outcome Metadata) :=
  partitions ← partition thread_num cache_size input;
  x ← expand partitions;
  if Z.of_nat (length (x_task_spans x)) >? 2147483647 then Some (Throw "task_spans") else
  max_attention_scratchpad_size ← attention_scratch (x_workitems x);
  let '(reds, reduction_scratchpad_size) := reduction_scratch 0 (x_reduce_workitems x) in
  Some (Ok {|
    counter := 0; md_isa := isa input;
    workitem_group_num := Z.of_nat (length (x_workitems x));
    reduction_item_num := Z.of_nat (length (x_reduce_workitems x));
    reduction_split_num := foldr Z.add 0 (ri_split_num <$> x_reduce_workitems x);
    md_thread_num := thread_num;
    attention_scratchpad_size_per_thread := pad_64 max_attention_scratchpad_size;
    reduction_scratchpad_size := reduction_scratchpad_size;
    workitem_groups := x_workitems x; reduction_items := reds; task_spans := x_task_spans x;
    task_span_num := Z.of_nat (length (x_task_spans x)) |}).

End Schedule.

(** ** What the expansion produces *)

Section Expand.
Context (thread_num : Z) (input : ScheduleInput) (p : Partitions).
Context (OK : input_ok thread_num input) (css : list (list chunk)) (CUT : cut_ok thread_num input p css).

(** Heads at which an item or reduction of this group size is repeated. *)
Definition starts (group head : Z) : Prop := Z.rem head group = 0.
#[local] Instance starts_dec group head : Decision (starts group head).
Proof. unfold starts. apply _. Defined.

Definition group_of (head rid : Z) (it : PartitionItem) : AttentionWorkItemGroup := {|
  wi_req_id := pi_req_id it; wi_kv_head_idx := Z.quot head (original_q_head_per_kv input);
  wi_q_head_start := head; wi_q_head_num := pi_group it;
  wi_q_token_id_start := pi_q_token_id_start it; wi_q_token_num := pi_q_token_num it;
  wi_kv_split_pos_start := pi_kv_split_pos_start it; wi_kv_split_pos_end := pi_kv_split_pos_end it;
  wi_reduction_id := if 0 <=? pi_reduction it then rid else -1;
  wi_split_id := if 0 <=? pi_reduction it then pi_local_split_id it else -1;
  wi_local_split_id := pi_local_split_id it |}.

Definition reduction_at (head : Z) (r : PartitionReduction) : ReductionWorkItemGroup := {|
  ri_req_id := pr_req_id r; ri_q_head_start := head; ri_q_head_num := pr_group r;
  ri_q_token_id_start := pr_token_start r; ri_q_token_id_num := pr_token_num r;
  ri_split_num := pr_split_num r; ri_scratch_offset := 0 |}.

(** The numbers of the reductions for one head, [n] being the first free one. *)
Fixpoint ids_of (n head : Z) (reds : list PartitionReduction) : list Z :=
  match reds with
  | [] => []
  | r :: reds => if decide (starts (pr_group r) head) then n :: ids_of (n + 1) head reds
                 else -1 :: ids_of n head reds
  end.

Definition groups_at (head : Z) (ids : list Z) (its : list PartitionItem) : list AttentionWorkItemGroup :=
  (fun it => group_of head (at_ ids (pi_reduction it)) it) <$> filter (fun it => starts (pi_group it) head) its.
Definition reductions_at (head : Z) (reds : list PartitionReduction) : list ReductionWorkItemGroup :=
  reduction_at head <$> filter (fun r => starts (pr_group r) head) reds.

Lemma ids_of_length n head reds : length (ids_of n head reds) = length reds.
Proof. revert n. induction reds as [|r reds IH]; intros n; simpl; [done|]. case_decide; simpl; by rewrite IH. Qed.

Lemma ids_of_snoc n head reds r : ids_of n head (reds ++ [r]) = ids_of n head reds ++
  [if decide (starts (pr_group r) head) then n + Z.of_nat (length (reductions_at head reds)) else -1].
Proof.
  unfold reductions_at. revert n. induction reds as [|x reds IH]; intros n; simpl.
  - rewrite Z.add_0_r. by case_decide.
  - rewrite filter_cons. destruct (decide (starts (pr_group x) head)); rewrite IH; simpl; [|done].
    do 3 f_equal. case_decide; [|done]. rewrite !length_fmap in *. simpl. lia.
Qed.

Lemma ids_of_lookup n head reds k r : reds !! k = Some r -> starts (pr_group r) head ->
  exists j, at_ (ids_of n head reds) (Z.of_nat k) = n + Z.of_nat j /\
    reductions_at head reds !! j = Some (reduction_at head r).
Proof.
  intros E Hs. revert n k E. induction reds as [|x reds IH]; intros n [|k] E; simplify_eq/=.
  - exists 0%nat. unfold reductions_at. rewrite decide_True, filter_cons_True by done. split; [simpl; unfold at_; simpl; lia|done].
  - unfold reductions_at. rewrite filter_cons. destruct (decide (starts (pr_group x) head)).
    + destruct (IH (n + 1) k E) as (j & E1 & E2). exists (S j). split; [|done].
      unfold at_ in *. rewrite Nat2Z.id in *. simpl. lia.
    + destruct (IH n k E) as (j & E1 & E2). exists j. split; [|done].
      unfold at_ in *. rewrite Nat2Z.id in *. done.
Qed.

(** ** The loops of one head *)

Lemma take_range_S {A} (l : list A) i x : 0 <= i -> rd l i = Some x ->
  take (Z.to_nat (i + 1)) l = take (Z.to_nat i) l ++ [x].
Proof.
  intros Hi E. rewrite rd_lookup in E by done. replace (Z.to_nat (i + 1)) with (S (Z.to_nat i)) by lia.
  by apply take_S_r.
Qed.

Lemma wr_middle {A} (l k : list A) x y i : i = Z.of_nat (length l) ->
  wr (l ++ x :: k) i y = Some (l ++ y :: k).
Proof.
  intros ->. unfold wr. rewrite length_app. simpl.
  rewrite (proj2 (Z.leb_le 0 _)), (proj2 (Z.ltb_lt _ _)) by lia. simpl. f_equal.
  by rewrite Nat2Z.id, insert_app_r_alt, Nat.sub_diag by lia.
Qed.

Lemma expand_reductions_ok head R ids : length ids = length (reductions p) ->
  for_range 0 (Z.of_nat (length (reductions p))) (expand_reduction p head) (R, ids) =
  Some (R ++ reductions_at head (reductions p), ids_of (Z.of_nat (length R)) head (reductions p)).
Proof.
  intros Hl.
  destruct (for_range_inv (fun i '(R', ids') =>
      R' = R ++ reductions_at head (take (Z.to_nat i) (reductions p)) /\
      ids' = ids_of (Z.of_nat (length R)) head (take (Z.to_nat i) (reductions p)) ++ drop (Z.to_nat i) ids)
    0 (Z.of_nat (length (reductions p))) (expand_reduction p head) (R, ids)) as ([R' ids'] & -> & -> & ->).
  - lia.
  - simpl. by rewrite app_nil_r.
  - intros i [R' ids'] Hi [-> ->]. unfold expand_reduction.
    destruct (rd_is_Some (reductions p) i Hi) as [x Hx]. rewrite Hx. cbn [mbind option_bind].
    destruct (lookup_lt_is_Some_2 ids (Z.to_nat i)) as [y Hy]; [lia|].
    rewrite (drop_S _ _ _ Hy), wr_middle by (rewrite ids_of_length, length_take; lia). cbn [mbind option_bind].
    replace (drop (Z.to_nat (i + 1)) ids) with (drop (S (Z.to_nat i)) ids) by (f_equal; lia).
    rewrite (take_range_S _ _ _ (proj1 Hi) Hx), ids_of_snoc. unfold reductions_at. rewrite filter_app.
    destruct (decide (starts (pr_group x) head)) as [Hs|Hs].
    + rewrite filter_cons_True, filter_nil, fmap_app by done. unfold starts in Hs. rewrite Hs. cbn [Z.eqb negb].
      rewrite wr_middle by (rewrite ids_of_length, length_take; lia). cbn [mbind option_bind].
      eexists; split; [done|]. rewrite <- !app_assoc, length_app, Nat2Z.inj_add. done.
    + rewrite filter_cons_False, filter_nil, app_nil_r by done. rewrite (proj2 (Z.eqb_neq _ 0)) by done. cbn [negb].
      eexists; split; [done|]. by rewrite <- app_assoc.
  - rewrite Nat2Z.id, firstn_all, drop_ge, app_nil_r by lia. done.
Qed.

(** The items refer to reductions that exist. *)
Lemma items_reductions : Forall (fun it => pi_reduction it < Z.of_nat (length (reductions p))) (items p).
Proof.
  rewrite (cut_items _ _ _ _ CUT), (cut_reductions _ _ _ _ CUT).
  assert (forall cs n, 0 <= n -> Forall (fun it => pi_reduction it < n + Z.of_nat (length (reds_of input cs)))
    (items_of input n cs)) as H; [|by apply (H _ 0)].
  induction cs as [|c cs IH]; intros n Hn; simpl; [constructor|].
  change (reds_of input (c :: cs)) with (chunk_reds input c ++ reds_of input cs). rewrite length_app.
  apply Forall_app. split.
  - destruct c as [r tok num total|r tok lo cuts hi]; simpl; [repeat constructor; simpl; lia|].
    generalize 0 at 1. revert lo. induction cuts as [|q cuts IHc]; intros lo lid; simpl; constructor; simpl; [lia|constructor|lia|done].
  - eapply Forall_impl; [apply (IH (n + Z.of_nat (length (chunk_reds input c)))); lia|]. simpl. lia.
Qed.

(** The items belong to requests of the batch and have their group. *)
Lemma items_of_elem n cs it : it ∈ items_of input n cs ->
  exists c, c ∈ cs /\ pi_req_id it = r_req_id (chunk_req c) /\ pi_group it = r_group (chunk_req c).
Proof.
  revert n. induction cs as [|c cs IH]; intros n; simpl; [by intros ?%elem_of_nil|].
  intros [H|H]%elem_of_app.
  - exists c. split; [by left|]. destruct c as [r tok num total|r tok lo cuts hi]; simpl in *.
    + by apply list_elem_of_singleton in H as ->.
    + revert lo H. generalize 0. induction cuts as [|q cuts IHc]; intros lid lo; simpl.
      * by intros ->%list_elem_of_singleton.
      * intros [->|H]%elem_of_cons; [done|by eapply IHc].
  - destruct (IH _ H) as (d & Hd & ?). exists d. split; [by right|done].
Qed.

Lemma items_requests it : it ∈ items p -> exists r, request input (pi_req_id it) = Some r /\
  0 <= pi_req_id it < num_reqs input /\ pi_group it = r_group r /\ request_ok input r.
Proof.
  rewrite (cut_items _ _ _ _ CUT). intros (c & Hc & E1 & E2)%items_of_elem.
  destruct (cut_chunk _ _ OK p css c CUT Hc) as (i & Hi & Er & Eid & RK & _).
  exists (chunk_req c). rewrite E1, E2, Eid. split_and!; (done || lia).
Qed.

Lemma reductions_ok r : r ∈ reductions p ->
  0 <= pr_split_num r /\ 0 <= pr_token_num r /\ 0 <= pr_group r.
Proof.
  rewrite (cut_reductions _ _ _ _ CUT). intros (c & Hr & Hc)%list_elem_of_bind.
  destruct (cut_chunk _ _ OK p css c CUT Hc) as (i & _ & _ & _ & RK & Hok & _).
  destruct c as [r0 tok num total|r0 tok lo cuts hi]; simpl in *; [by apply elem_of_nil in Hr|].
  apply list_elem_of_singleton in Hr as ->. simpl. pose proof (rk_group _ _ RK).
  destruct Hok as (_ & Ht & _). pose proof (tile_num_bounds _ r0 RK tok Ht). lia.
Qed.

(** The parts of a tile are numbered consecutively. *)
Lemma pieces_elem r tok red lid lo cuts hi it : it ∈ pieces input r tok red lid lo cuts hi ->
  pi_reduction it = red /\ pi_group it = r_group r /\
  lid <= pi_local_split_id it < lid + 1 + Z.of_nat (length cuts).
Proof.
  revert lid lo. induction cuts as [|q cuts IH]; intros lid lo; simpl.
  - intros ->%list_elem_of_singleton. simpl. split_and!; (done || lia).
  - intros [->|H]%elem_of_cons; [simpl; split_and!; (done || lia)|].
    destruct (IH _ _ H) as (? & ? & ?). split_and!; (done || lia).
Qed.

Lemma pieces_all r tok red lid lo cuts hi s : lid <= s < lid + 1 + Z.of_nat (length cuts) ->
  exists it, it ∈ pieces input r tok red lid lo cuts hi /\ pi_local_split_id it = s.
Proof.
  revert lid lo. induction cuts as [|q cuts IH]; intros lid lo; simpl; intros Hs.
  - eexists. split; [by left|]. simpl. lia.
  - destruct (decide (s = lid)) as [->|Hne]; [by eexists; split; [by left|]|].
    destruct (IH (lid + 1) q) as (it & Hit & ?); [lia|]. exists it. split; [by right|done].
Qed.

(** Items and reductions of a cut refer to each other. *)
Lemma items_of_reduction n cs it : 0 <= n -> it ∈ items_of input n cs -> 0 <= pi_reduction it ->
  n <= pi_reduction it /\ exists r, reds_of input cs !! Z.to_nat (pi_reduction it - n) = Some r /\
    pr_group r = pi_group it /\ 0 <= pi_local_split_id it < pr_split_num r.
Proof.
  revert n. induction cs as [|c cs IH]; intros n Hn; simpl; [by intros ?%elem_of_nil|].
  change (reds_of input (c :: cs)) with (chunk_reds input c ++ reds_of input cs).
  intros [H|H]%elem_of_app Hr.
  - destruct c as [r tok num total|r tok lo cuts hi]; simpl in *; [by apply list_elem_of_singleton in H as ->|].
    destruct (pieces_elem _ _ _ _ _ _ _ _ H) as (-> & -> & Hl). split; [lia|]. rewrite Z.sub_diag. simpl.
    eexists; split; [done|]. simpl. split; [done|lia].
  - destruct (IH (n + Z.of_nat (length (chunk_reds input c))) ltac:(lia) H Hr) as (Hle & r & E & ?). split; [lia|].
    exists r. split; [|done]. rewrite lookup_app_r by lia. rewrite <- E. f_equal. lia.
Qed.

Lemma reds_of_items n cs j r s : reds_of input cs !! j = Some r -> 0 <= s < pr_split_num r ->
  exists it, it ∈ items_of input n cs /\ pi_reduction it = n + Z.of_nat j /\ pi_local_split_id it = s /\
    pi_group it = pr_group r.
Proof.
  revert n j. induction cs as [|c cs IH]; intros n j; [done|].
  change (reds_of input (c :: cs)) with (chunk_reds input c ++ reds_of input cs). simpl.
  intros [E|[Hge E]]%lookup_app_Some Hs.
  - destruct c as [r0 tok num total|r0 tok lo cuts hi]; simpl in *; [done|].
    apply list_lookup_singleton_Some in E as [-> <-]. simpl in Hs.
    destruct (pieces_all r0 tok n 0 lo cuts hi s ltac:(lia)) as (it & Hit & <-).
    destruct (pieces_elem _ _ _ _ _ _ _ _ Hit) as (E1 & E2 & _). exists it. rewrite E1, E2. split_and!; try done; [|lia].
    apply elem_of_app. by left.
  - destruct (IH (n + Z.of_nat (length (chunk_reds input c))) _ E Hs) as (it & Hit & Er & ?).
    exists it. split_and!; try tauto; [|lia]. apply elem_of_app. by right.
Qed.

(** A reduction is one of a tile that is cut, and all parts of the tile are items. *)
Lemma reds_of_chunk n cs j r : reds_of input cs !! j = Some r -> exists r0 tok lo cuts hi,
  Split r0 tok lo cuts hi ∈ cs /\ r = red_of input r0 tok (1 + Z.of_nat (length cuts)) /\
  forall it, it ∈ pieces input r0 tok (n + Z.of_nat j) 0 lo cuts hi -> it ∈ items_of input n cs.
Proof.
  revert n j. induction cs as [|c cs IH]; intros n j; [done|].
  change (reds_of input (c :: cs)) with (chunk_reds input c ++ reds_of input cs). simpl.
  intros [E|[Hge E]]%lookup_app_Some.
  - destruct c as [r0 tok num total|r0 tok lo cuts hi]; simpl in *; [done|].
    apply list_lookup_singleton_Some in E as [-> <-]. exists r0, tok, lo, cuts, hi. split; [by left|]. split; [done|].
    intros it. rewrite Z.add_0_r. intros Hit. apply elem_of_app. by left.
  - destruct (IH (n + Z.of_nat (length (chunk_reds input c))) _ E) as (r0 & tok & lo & cuts & hi & Hin & Er & Hit).
    exists r0, tok, lo, cuts, hi. split; [by right|]. split; [done|]. intros it Hp. apply elem_of_app. right. apply Hit.
    by replace (n + Z.of_nat (length (chunk_reds input c)) + Z.of_nat (j - length (chunk_reds input c))) with (n + Z.of_nat j) by lia.
Qed.

(** The cuts of a tile, with its ends. *)
Definition cut_bound (lo : Z) (cuts : list Z) (stop : Z) (s : Z) : Z := at_ (lo :: cuts ++ [stop]) s.

Lemma cut_bound_cons lo q cuts stop s : 0 <= s -> cut_bound lo (q :: cuts) stop (s + 1) = cut_bound q cuts stop s.
Proof. intros Hs. unfold cut_bound, at_. by replace (Z.to_nat (s + 1)) with (S (Z.to_nat s)) by lia. Qed.

Lemma pieces_lookup r tok red lid lo cuts hi s : 0 <= s < 1 + Z.of_nat (length cuts) ->
  let bound := cut_bound lo cuts (r_seq_len r) in exists total,
  item r tok (q_tile_token_num input r tok) (bound s) (bound (s + 1)) total red (lid + s) ∈ pieces input r tok red lid lo cuts hi.
Proof.
  cbv zeta. revert lid lo s. induction cuts as [|q cuts IH]; intros lid lo s Hs; cbn [length pieces] in *.
  - assert (s = 0) as -> by lia. rewrite Z.add_0_r. eexists. by left.
  - destruct (decide (s = 0)) as [->|Hne]; [rewrite Z.add_0_r; eexists; by left|].
    destruct (IH (lid + 1) q (s - 1) ltac:(lia)) as [total Hin]. exists total. right.
    replace s with (s - 1 + 1) by lia. rewrite !cut_bound_cons by lia. by replace (lid + (s - 1 + 1)) with (lid + 1 + (s - 1)) by lia.
Qed.

(** Every part begins at an aligned position of the tile, and ends at one or at the end. *)
Lemma cut_bound_ok lo cuts hi stop s : (kv_block_alignment input | lo) -> increasing input lo cuts hi -> 0 <= s < 1 + Z.of_nat (length cuts) ->
  let bound := cut_bound lo cuts stop in lo <= bound s < hi /\ (kv_block_alignment input | bound s) /\
  (bound (s + 1) = stop \/ bound s < bound (s + 1) /\ (kv_block_alignment input | bound (s + 1))).
Proof.
  cbv zeta. revert lo s. induction cuts as [|q cuts IH]; intros lo s Hd Hinc Hs; cbn [length increasing] in *.
  - assert (s = 0) as -> by lia. change (cut_bound lo [] stop 0) with lo. split_and!; [lia|lia|done|by left].
  - destruct Hinc as (Hlt & Hdq & Hinc). destruct (decide (s = 0)) as [->|Hne].
    + pose proof (IH q 0 Hdq Hinc ltac:(lia)) as (Hb & _). unfold cut_bound, at_ in *. simpl in *. split_and!; [lia|lia|done|by right].
    + destruct (IH q (s - 1) Hdq Hinc ltac:(lia)) as (Hb & Hdb & Hnext). replace s with (s - 1 + 1) by lia. rewrite !cut_bound_cons by lia.
      split_and!; [lia|lia|done|done].
Qed.

Lemma cut_bound_end lo cuts stop : cut_bound lo cuts stop (1 + Z.of_nat (length cuts)) = stop.
Proof.
  revert lo. induction cuts as [|q cuts IH]; intros lo; [done|]. cbn [length]. replace (1 + Z.of_nat (S (length cuts))) with (1 + Z.of_nat (length cuts) + 1) by lia.
  rewrite cut_bound_cons by lia. apply IH.
Qed.

Section Head.
Context (head : Z) (ids : list Z) (Hids : length ids = length (reductions p)).

Abbreviation N := (Z.of_nat (length (items p))).
Abbreviation upto i := (groups_at head ids (take (Z.to_nat i) (items p))).

Lemma expand_item_ok i ws : 0 <= i < N ->
  expand_item input p head ids i (ws ++ upto i) = Some (ws ++ upto (i + 1)).
Proof.
  intros Hi. unfold expand_item. destruct (rd_is_Some (items p) i Hi) as [x Hx]. rewrite Hx. cbn [mbind option_bind].
  rewrite (take_range_S _ _ _ (proj1 Hi) Hx). unfold groups_at. rewrite filter_app.
  destruct (decide (starts (pi_group x) head)) as [Hs|Hs].
  - rewrite filter_cons_True, filter_nil, fmap_app by done. unfold starts in Hs. rewrite Hs. cbn [Z.eqb negb].
    rewrite rd_lookup in Hx by lia.
    pose proof (Forall_lookup_1 _ _ _ _ items_reductions Hx) as Hr. simpl in Hr.
    rewrite app_assoc. simpl. unfold group_of. destruct (Z.leb_spec 0 (pi_reduction x)).
    + rewrite rd_at by lia. done.
    + done.
  - rewrite filter_cons_False, filter_nil, app_nil_r by done. by rewrite (proj2 (Z.eqb_neq _ 0)) by done.
Qed.

(** The spans follow each other and none is empty. *)
Fixpoint tiled (a : Z) (spans : list AttentionTaskSpan) (b : Z) : Prop :=
  match spans with
  | [] => a = b
  | s :: spans => ts_start s = a /\ 0 < ts_count s /\ tiled (a + ts_count s) spans b
  end.

Lemma tiled_snoc a spans s b : tiled a spans (ts_start s) -> 0 < ts_count s -> b = ts_start s + ts_count s ->
  tiled a (spans ++ [s]) b.
Proof.
  intros H Hs ->. revert a H. induction spans as [|x spans IH]; intros a; simpl; [by intros ->|].
  intros (? & ? & ?). split_and!; try done. by apply IH.
Qed.

(** What the state of [for_each_span] is after the items before [i]. *)
Definition emitted (ws : list AttentionWorkItemGroup) (i : Z)
    (s : list AttentionWorkItemGroup * list AttentionTaskSpan) : Prop :=
  s.1 = ws ++ upto i /\ tiled 0 s.2 (Z.of_nat (length s.1)).

Lemma emit_span_ok ws first last s : 0 <= first <= last -> last <= N -> emitted ws first s ->
  exists s', emit_span input p head ids first last s = Some s' /\ emitted ws last s'.
Proof.
  intros Hf Hl [E Ht]. destruct s as [w spans]. simpl in *. subst w.
  destruct (for_range_inv (fun i w => w = ws ++ upto i) first last (expand_item input p head ids) (ws ++ upto first))
    as (w & -> & ->); [lia|done| |].
  - intros i w Hi ->. rewrite expand_item_ok by lia. by eexists.
  - cbn [mbind option_bind]. eexists; split; [done|]. split; [done|]. simpl.
    destruct (Z.ltb_spec 0 (Z.of_nat (length (ws ++ upto last)) - Z.of_nat (length (ws ++ upto first)))).
    + apply tiled_snoc; simpl; [done|lia|lia].
    + enough (length (ws ++ upto first) <= length (ws ++ upto last))%nat by
        (replace (Z.of_nat (length (ws ++ upto last))) with (Z.of_nat (length (ws ++ upto first))) by lia; done).
      rewrite !length_app. unfold groups_at. rewrite !length_fmap.
      replace (take (Z.to_nat last) (items p)) with (take (Z.to_nat first) (items p) ++
        take (Z.to_nat last - Z.to_nat first) (drop (Z.to_nat first) (items p))) by (rewrite take_take_drop; f_equal; lia).
      rewrite filter_app, length_app. lia.
Qed.

(** While a span is open, the items from its start wait. *)
Definition spanning (ws : list AttentionWorkItemGroup) (i : Z)
    (s : Z * (list AttentionWorkItemGroup * list AttentionTaskSpan)) : Prop :=
  (s.1 = -1 /\ emitted ws i s.2) \/ (0 <= s.1 <= i /\ emitted ws s.1 s.2).

Lemma upto_skip i x : rd (items p) i = Some x -> 0 <= i -> ~ starts (pi_group x) head -> upto (i + 1) = upto i.
Proof.
  intros Hx Hi Hs. rewrite (take_range_S _ _ _ Hi Hx). unfold groups_at.
  by rewrite filter_app, filter_cons_False, filter_nil, app_nil_r by done.
Qed.

Lemma span_step_ok ws i s : 0 <= i < N -> spanning ws i s ->
  exists s', span_step input p head (emit_span input p head ids) i s = Some s' /\ spanning ws (i + 1) s'.
Proof.
  intros Hi Hs. destruct s as [start s]. unfold span_step.
  destruct (rd_is_Some (items p) i Hi) as [x Hx]. rewrite Hx. cbn [mbind option_bind].
  destruct (decide (starts (pi_group x) head)) as [Hst|Hst].
  - rewrite (proj2 (Z.eqb_eq _ 0)) by done. cbn [negb].
    assert (exists b : bool, (if 1 <? pi_group x then n ← request_q_token_num input (pi_req_id x); Some (1 <? n)
      else Some false) = Some b) as [b ->].
    { case_match; [|by eexists]. rewrite rd_lookup in Hx by lia.
      destruct (items_requests x) as (r & _ & Hr & _ & _); [by eapply list_elem_of_lookup_2|].
      rewrite (request_q_token_num_ok _ _ OK) by done. by eexists. }
    cbn [mbind option_bind]. destruct b.
    + assert (exists s1, (if 0 <=? start then emit_span input p head ids start i s else Some s) = Some s1 /\
        emitted ws i s1) as (s1 & -> & H1).
      { destruct Hs as [[E H]|[Hr H]]; simpl in *; [subst start; by eexists|].
        rewrite (proj2 (Z.leb_le 0 start)) by lia. apply (emit_span_ok ws start i); [lia..|done]. }
      cbn [mbind option_bind].
      destruct (emit_span_ok ws i (i + 1) s1) as (s2 & -> & H2); [lia..|done|].
      cbn [mbind option_bind]. eexists; split; [done|by left].
    + eexists; split; [done|]. right. destruct Hs as [[E H]|[Hr H]]; simpl in *; [subst start; simpl; split; [lia|done]|].
      rewrite (proj2 (Z.ltb_ge start 0)) by lia. split; [lia|done].
  - rewrite (proj2 (Z.eqb_neq _ 0)) by done. cbn [negb]. eexists; split; [done|].
    destruct Hs as [[E H]|[Hr H]]; simpl in *; [left|right; simpl; split; [lia|done]].
    split; [done|]. destruct H as [H1 H2]. split; [|done]. by rewrite (upto_skip i x) by (done || lia).
Qed.

Lemma for_each_span_ok ws s : emitted ws 0 s ->
  exists s', for_each_span thread_num input p head (emit_span input p head ids) s = Some s' /\ emitted ws N s'.
Proof.
  intros H0. pose proof (cut_spans _ _ _ _ CUT) as SP. pose proof (ok_threads _ _ OK). unfold for_each_span.
  destruct (for_range_inv (fun th s => emitted ws (at_ (offsets_ p) th) s) 0 thread_num
    (span_thread input p head (emit_span input p head ids)) s) as (s' & -> & H'); [lia|by rewrite (sp_first _ _ SP)| |].
  - intros th s1 Hth H1. pose proof (sp_length _ _ SP). unfold span_thread. rewrite !rd_at by lia. cbn [mbind option_bind].
    pose proof (sp_mono _ _ SP th Hth) as Hm.
    assert (0 <= at_ (offsets_ p) th /\ at_ (offsets_ p) (th + 1) <= N) as [Hlo Hhi].
    { assert (offsets (offsets_ p) thread_num N) as OF.
      { constructor; [lia|lia|rewrite (sp_first _ _ SP); lia|rewrite (sp_last _ _ SP); lia|apply (sp_mono _ _ SP)]. }
      pose proof (offsets_le _ _ _ 0 th OF). pose proof (offsets_le _ _ _ (th + 1) thread_num OF).
      pose proof (sp_first _ _ SP). pose proof (sp_last _ _ SP). lia. }
    destruct (for_range_inv (spanning ws) (at_ (offsets_ p) th) (at_ (offsets_ p) (th + 1))
      (span_step input p head (emit_span input p head ids)) (-1, s1)) as ([start s2] & -> & Hend); [lia|by left| |].
    { intros i s2 Hi. apply span_step_ok. lia. }
    cbn [mbind option_bind]. destruct Hend as [[E Hend]|[Hr Hend]]; simpl in *.
    + subst start. by eexists.
    + rewrite (proj2 (Z.leb_le 0 start)) by lia. by apply emit_span_ok.
  - eexists; split; [done|]. by rewrite (sp_last _ _ SP) in H'.
Qed.

End Head.

(** ** All heads *)

Fixpoint groups_of (n : Z) (heads : list Z) : list AttentionWorkItemGroup :=
  match heads with
  | [] => []
  | h :: heads => groups_at h (ids_of n h (reductions p)) (items p)
                  ++ groups_of (n + Z.of_nat (length (reductions_at h (reductions p)))) heads
  end.
Definition reductions_of (heads : list Z) : list ReductionWorkItemGroup :=
  heads ≫= fun h => reductions_at h (reductions p).

Lemma groups_of_app n hs ks :
  groups_of n (hs ++ ks) = groups_of n hs ++ groups_of (n + Z.of_nat (length (reductions_of hs))) ks.
Proof.
  revert n. induction hs as [|h hs IH]; intros n; simpl; [by rewrite Z.add_0_r|].
  change (reductions_of (h :: hs)) with (reductions_at h (reductions p) ++ reductions_of hs).
  rewrite IH, app_assoc, length_app. do 2 f_equal. lia.
Qed.

Definition expanded (hs : list Z) (x : Expansion) : Prop :=
  x_workitems x = groups_of 0 hs /\ x_reduce_workitems x = reductions_of hs /\
  length (x_reduction_ids x) = length (reductions p) /\
  tiled 0 (x_task_spans x) (Z.of_nat (length (x_workitems x))).

Lemma expand_head_ok hs h x : expanded hs x ->
  exists x', expand_head thread_num input p h x = Some x' /\ expanded (hs ++ [h]) x'.
Proof.
  intros (W & R & I & T). unfold expand_head. rewrite expand_reductions_ok by done. cbn [mbind option_bind].
  set (ids := ids_of _ _ _). assert (length ids = length (reductions p)) as Hids by apply ids_of_length.
  destruct (for_each_span_ok h ids Hids (x_workitems x) (x_workitems x, x_task_spans x))
    as ([ws spans] & -> & E & T'); [split; [simpl; by rewrite app_nil_r|done]|].
  cbn [mbind option_bind]. eexists; split; [done|]. simpl in *. rewrite Nat2Z.id, firstn_all in E.
  split_and!; simpl; [| |done|done].
  - rewrite E, groups_of_app, W. simpl. rewrite app_nil_r. subst ids. by rewrite R.
  - unfold reductions_of in *. rewrite bind_app, R. simpl. by rewrite app_nil_r.
Qed.

(** The heads that the loop visits. *)
Definition heads (k : Z) : list Z := (fun j => j * head_stride p) <$> seqZ 0 k.

Lemma expand_ok : exists x k, expand thread_num input p = Some x /\ expanded (heads k) x /\ 0 <= k /\
  (forall h, 0 <= h < num_heads_q input -> (head_stride p | h) -> h ∈ heads k) /\
  Forall (fun h => 0 <= h < num_heads_q input) (heads k).
Proof.
  destruct (cut_stride _ _ _ _ CUT) as (Hs & Hd & _). unfold expand.
  set (x0 := {| x_workitems := [] |}).
  destruct (for_step_inv (fun i x => exists k, 0 <= k /\ i = k * head_stride p /\ expanded (heads k) x)
    0 (num_heads_q input) (head_stride p) (expand_head thread_num input p) x0)
    as (x & i & E & _ & Hi & Hub & k & Hk & Eik & Hx); [done| | |].
  - exists 0. split_and!; [lia|lia|]. unfold expanded. simpl. split_and!; [done|done|by rewrite length_replicate|done].
  - intros i x Hi (k & Hk & -> & Hx). destruct (expand_head_ok _ (k * head_stride p) _ Hx) as (x' & -> & Hx').
    eexists; split; [done|]. exists (k + 1). split_and!; [lia|lia|]. unfold heads.
    rewrite seqZ_app by lia. by rewrite fmap_app.
  - exists x, k. split_and!; [done|done|done| |].
    + intros h Hh [j Hj]. apply list_elem_of_fmap. exists j. split; [done|]. rewrite elem_of_seqZ. nia.
    + apply Forall_fmap, Forall_seqZ. intros j Hj. simpl. split; [nia|].
      assert (0 < num_heads_q input) as Hpos.
      { destruct (ok_q_heads _ _ OK) as (q & ? & ->). pose proof (ok_kv_heads _ _ OK). nia. }
      specialize (Hub Hpos). nia.
Qed.

(** ** Work items and reductions by head *)

Lemma groups_of_elem n hs w : w ∈ groups_of n hs <-> exists h1 hd h2 it, hs = h1 ++ hd :: h2 /\
  it ∈ items p /\ starts (pi_group it) hd /\
  w = group_of hd (at_ (ids_of (n + Z.of_nat (length (reductions_of h1))) hd (reductions p)) (pi_reduction it)) it.
Proof.
  split.
  - revert n. induction hs as [|h hs IH]; intros n; simpl; [by intros ?%elem_of_nil|].
    intros [(it & -> & Hit)%list_elem_of_fmap|H]%elem_of_app.
    + apply list_elem_of_filter in Hit as [Hs Hit]. exists [], h, hs, it. simpl. rewrite Z.add_0_r. done.
    + destruct (IH _ H) as (h1 & hd & h2 & it & -> & Hit & Hs & ->). exists (h :: h1), hd, h2, it. split_and!; try done.
      change (reductions_of (h :: h1)) with (reductions_at h (reductions p) ++ reductions_of h1).
      rewrite length_app, Nat2Z.inj_add, Z.add_assoc. done.
  - intros (h1 & hd & h2 & it & -> & Hit & Hs & ->). rewrite groups_of_app. apply elem_of_app. right. simpl.
    apply elem_of_app. left. apply list_elem_of_fmap. exists it. split; [done|]. by apply list_elem_of_filter.
Qed.

Lemma reductions_at_lookup head reds j x : reductions_at head reds !! j = Some x ->
  exists idx r, reds !! idx = Some r /\ starts (pr_group r) head /\ x = reduction_at head r /\
    forall n, at_ (ids_of n head reds) (Z.of_nat idx) = n + Z.of_nat j.
Proof.
  unfold reductions_at. revert j. induction reds as [|r reds IH]; intros j; [done|]. rewrite filter_cons.
  case_decide as Hs.
  - destruct j as [|j]; simpl.
    + intros [= <-]. exists 0%nat, r. split_and!; try done. intros n. rewrite decide_True by done.
      unfold at_. simpl. lia.
    + intros (idx & r' & E & Hs' & -> & Hid)%IH. exists (S idx), r'. split_and!; try done. intros n.
      rewrite decide_True by done. specialize (Hid (n + 1)). unfold at_ in *. rewrite Nat2Z.id in *. simpl. lia.
  - intros (idx & r' & E & Hs' & -> & Hid)%IH. exists (S idx), r'. split_and!; try done. intros n. simpl.
    rewrite decide_False by done. specialize (Hid n). unfold at_ in *. by rewrite Nat2Z.id in *.
Qed.

Lemma reductions_of_lookup hs k x : reductions_of hs !! k = Some x ->
  exists h1 hd h2 j, hs = h1 ++ hd :: h2 /\ reductions_at hd (reductions p) !! j = Some x /\
    k = (length (reductions_of h1) + j)%nat.
Proof.
  revert k. induction hs as [|h hs IH]; intros k; [done|].
  change (reductions_of (h :: hs)) with (reductions_at h (reductions p) ++ reductions_of hs).
  intros [E|[Hge E]]%lookup_app_Some; [by exists [], h, hs, k|].
  destruct (IH _ E) as (h1 & hd & h2 & j & -> & Ej & Ek). exists (h :: h1), hd, h2, j. split_and!; try done.
  change (reductions_of (h :: h1)) with (reductions_at h (reductions p) ++ reductions_of h1). rewrite length_app. lia.
Qed.

Lemma reductions_of_middle h1 hd h2 j x : reductions_at hd (reductions p) !! j = Some x ->
  reductions_of (h1 ++ hd :: h2) !! (length (reductions_of h1) + j)%nat = Some x.
Proof.
  intros E. unfold reductions_of. rewrite bind_app, lookup_app_r by lia. csimpl.
  apply lookup_app_l_Some. replace (_ + j - _)%nat with j by lia. done.
Qed.

(** ** Every token and head once *)

Definition takes (w : AttentionWorkItemGroup) (i t h : Z) : Prop :=
  wi_req_id w = i /\
  wi_q_token_id_start w <= t < wi_q_token_id_start w + wi_q_token_num w /\
  wi_q_head_start w <= h < wi_q_head_start w + wi_q_head_num w.
#[export] Instance takes_dec w i t h : Decision (takes w i t h).
Proof. unfold takes. apply _. Defined.

Lemma groups_at_takes hd ids its g i t h :
  Forall (fun it => pi_req_id it = i -> pi_group it = g) its ->
  filter (fun w => takes w i t h) (groups_at hd ids its) =
  if decide (starts g hd /\ hd <= h < hd + g)
  then (fun it => group_of hd (at_ ids (pi_reduction it)) it) <$> filter (fun it => handles it i t) its
  else [].
Proof.
  unfold groups_at. induction 1 as [|it its Hg F IH]; simpl; [by case_decide|].
  rewrite !filter_cons. destruct (decide (handles it i t)) as [Hh|Hh].
  - pose proof (Hg (proj1 Hh)) as E. destruct (decide (starts (pi_group it) hd)) as [Hs|Hs].
    + rewrite fmap_cons, filter_cons, IH. destruct Hh as (? & ?).
      destruct (decide (takes _ i t h)) as [(_ & _ & Ht)|Hn]; simpl in *.
      * rewrite E in Hs, Ht. by rewrite !decide_True by (split; done).
      * by rewrite !decide_False by (rewrite <- E; intros [? ?]; apply Hn; split_and!; simpl; lia).
    + rewrite IH. rewrite E in Hs. by rewrite !decide_False by tauto.
  - destruct (decide (starts (pi_group it) hd)); [|apply IH].
    rewrite fmap_cons, filter_cons_False; [apply IH|]. intros (? & ? & _). by apply Hh.
Qed.

Lemma groups_of_none n hs g i t h : Forall (fun it => pi_req_id it = i -> pi_group it = g) (items p) ->
  Forall (fun hd => ~ (starts g hd /\ hd <= h < hd + g)) hs ->
  filter (fun w => takes w i t h) (groups_of n hs) = [].
Proof.
  intros Hg F. revert n. induction F as [|hd hs Hn F IH]; intros n; simpl; [done|].
  by rewrite filter_app, IH, app_nil_r, (groups_at_takes _ _ _ g), decide_False.
Qed.

(** The one head at which the group that holds [h] starts. *)
Lemma group_head g h hd : 1 <= g -> 0 <= h -> 0 <= hd ->
  (starts g hd /\ hd <= h < hd + g) <-> hd = h - h mod g.
Proof.
  intros Hg Hh Hhd. unfold starts. rewrite Z.rem_mod_nonneg by lia.
  pose proof (Z.div_mod h g). pose proof (Z.mod_pos_bound h g). split.
  - intros [Hm Hr]. pose proof (Z.div_mod hd g). assert (hd / g = h / g) by nia. nia.
  - intros ->. split; [|lia]. replace (h - h mod g) with (h / g * g) by nia. apply Z.mod_mul. lia.
Qed.

Lemma expanded_takes k x i t h r : expanded (heads k) x ->
  (forall h, 0 <= h < num_heads_q input -> (head_stride p | h) -> h ∈ heads k) ->
  Forall (fun h => 0 <= h < num_heads_q input) (heads k) ->
  request input i = Some r -> request_ok input r -> 0 <= i < num_reqs input -> 0 <= h < num_heads_q input ->
  exists n hs,
    filter (fun w => takes w i t h) (x_workitems x) =
    (fun it => group_of (h - h mod r_group r)
       (at_ (ids_of n (h - h mod r_group r) (reductions p)) (pi_reduction it)) it)
      <$> filter (fun it => handles it i t) (items p) /\
    n = Z.of_nat (length (reductions_of hs)) /\
    exists tail, x_reduce_workitems x =
      reductions_of hs ++ reductions_at (h - h mod r_group r) (reductions p) ++ tail.
Proof.
  intros (W & R & _) Hin F E RK Hi Hh. pose proof (rk_group _ _ RK) as Hg. set (hd := h - h mod r_group r).
  pose proof (Z.mod_pos_bound h (r_group r) ltac:(lia)) as Hmod. pose proof (Z.mod_le h (r_group r)).
  destruct (cut_stride _ _ _ _ CUT) as (Hs & _ & Hd). specialize (Hd i r E Hi).
  assert (hd ∈ heads k) as Hhd.
  { apply Hin; [unfold hd; lia|]. etrans; [apply Hd|]. exists (h / r_group r). unfold hd.
    pose proof (Z.div_mod h (r_group r)). lia. }
  apply list_elem_of_split in Hhd as (h1 & h2 & Hsplit). rewrite Hsplit in *.
  assert (NoDup (h1 ++ hd :: h2)) as Hnd.
  { rewrite <- Hsplit. apply NoDup_fmap_2_strong; [|apply NoDup_seqZ]. intros ? ? _ _ ?. nia. }
  assert (Forall (fun it => pi_req_id it = i -> pi_group it = r_group r) (items p)) as Hgroup.
  { apply Forall_forall. intros it Hit Hreq. destruct (items_requests it Hit) as (r' & E' & _ & ? & _).
    rewrite Hreq, E in E'. congruence. }
  assert (forall hs, hs ⊆ h1 ++ h2 -> Forall (fun d => ~ (starts (r_group r) d /\ d <= h < d + r_group r)) hs) as Hno.
  { intros hs Hsub. apply Forall_forall. intros d Hdin. apply Hsub in Hdin.
    rewrite group_head; [|lia|lia|].
    - intros ->. fold hd in Hdin. apply NoDup_app in Hnd as (_ & Hn1 & Hn2). apply elem_of_app in Hdin as [Hdin|Hdin].
      + apply (Hn1 _ Hdin). by left.
      + by apply NoDup_cons in Hn2 as [? _].
    - rewrite Forall_forall in F. apply F. apply elem_of_app in Hdin. rewrite elem_of_app, elem_of_cons. tauto. }
  exists (Z.of_nat (length (reductions_of h1))), h1. split_and!; [|done|].
  - rewrite W, groups_of_app. simpl. rewrite !filter_app.
    rewrite (groups_of_none _ h1 (r_group r)), (groups_of_none _ h2 (r_group r)), app_nil_r
      by (done || apply Hno; intros d; rewrite elem_of_app; tauto). simpl.
    rewrite (groups_at_takes _ _ _ (r_group r)) by done. rewrite decide_True; [done|].
    apply group_head; [lia|lia|unfold hd; lia|done].
  - rewrite R. unfold reductions_of. rewrite bind_app. simpl. by eexists.
Qed.

End Expand.

(** ** The scratch memory holds the buffers *)

Lemma round_to_64_ok n : 0 <= n -> n <= round_to_64 n /\ (64 | round_to_64 n).
Proof.
  intros Hn. unfold round_to_64. rewrite shiftl_pow, shiftr_pow by lia. change (2 ^ 6) with 64.
  split; [|apply Z.divide_factor_r]. pose proof (Z.div_mod (n + 63) 64). pose proof (Z.mod_pos_bound (n + 63) 64). lia.
Qed.

Lemma pad_64_ok n : 0 <= n -> n <= pad_64 n /\ (64 | pad_64 n).
Proof. intros Hn. pose proof (round_up_bounds n 64 Hn ltac:(lia)) as [? ?]. unfold pad_64. replace (n + 63) with (n + 64 - 1) by lia. split; [lia|done]. Qed.

Section Scratch.
Context (thread_num cache_size : Z) (input : ScheduleInput).

Record sizes_ok : Prop := {
  sz_cache : 0 <= cache_size;
  sz_head_dim : 1 <= head_dim input;
  sz_elem : 1 <= elem_size input;
  sz_q : 1 <= q_buffer_elem_size input;
  sz_logits : 1 <= logits_buffer_elem_size input;
  sz_output : 1 <= output_buffer_elem_size input
}.

(** What the kernel keeps in each buffer of a query tile, in bytes. *)
Definition tile_regions (w : AttentionWorkItemGroup) (off : Z) : list (Z * Z) :=
  let b := tile_buffers cache_size input w off in
  let rows := rounded_q_head_tile_size cache_size input w off in
  [(q_buffer_offset_ b, rows * head_dim input * q_buffer_elem_size input);
   (logits_buffer_offset_ b,
    max_num_q_per_iter input * kv_tile_size cache_size input w off * logits_buffer_elem_size input);
   (output_buffer_offset_ b, rows * head_dim input * output_buffer_elem_size input);
   (max_buffer_offset_ b, rows * 4); (sum_buffer_offset_ b, rows * 4)].

(** The flags, outputs and statistics of the parts of a reduction. *)
Definition reduction_regions (it : ReductionWorkItemGroup) : list (Z * Z) :=
  let b := reduction_buffers input it in
  let rows := ri_q_token_id_num it * ri_q_head_num it in
  [(reduce_flag_buffer_offset_ b, ri_split_num it);
   (reduce_output_buffer_offset_ b,
    ri_split_num it * rows * head_dim input * output_buffer_elem_size input);
   (reduce_max_buffer_offset_ b, ri_split_num it * reduction_stats_stride rows * 4);
   (reduce_sum_buffer_offset_ b, ri_split_num it * reduction_stats_stride rows * 4)].

Context (OK : input_ok thread_num input) (SZ : sizes_ok).

Definition group_ok (w : AttentionWorkItemGroup) : Prop := 1 <= wi_q_head_num w <= max_num_q_per_iter input.

Lemma tile_token_num_pos w : group_ok w -> 1 <= tile_token_num cache_size input w.
Proof.
  intros Hw. unfold tile_token_num, default_tile_size, group_ok in *. rewrite quot_pos; [|pose proof (ok_iter _ _ OK)|lia].
  - apply Z.div_le_lower_bound; [lia|]. pose proof (ok_iter _ _ OK).
    pose proof (default_tile_size_ok cache_size (head_dim input) (elem_size input) (q_buffer_elem_size input)
      (logits_buffer_elem_size input) (output_buffer_elem_size input) (max_num_q_per_iter input) ltac:(lia)) as [_ ?]. lia.
  - pose proof (default_tile_size_ok cache_size (head_dim input) (elem_size input) (q_buffer_elem_size input)
      (logits_buffer_elem_size input) (output_buffer_elem_size input) (max_num_q_per_iter input) ltac:(lia)) as [_ ?]. lia.
Qed.

Lemma tile_regions_packed w off : group_ok w -> 0 <= off < wi_q_token_num w ->
  packed 0 (tile_regions w off) (get_thread_scratchpad_size (tile_buffers cache_size input w off)).
Proof.
  intros Hw Hoff. pose proof (tile_token_num_pos w Hw) as Ht. pose proof (ok_iter _ _ OK) as Hm.
  pose proof (ok_align _ _ OK) as Ha. destruct SZ as [? ? ? ? ? ?].
  assert (0 <= rounded_q_head_tile_size cache_size input w off) as Hr.
  { unfold rounded_q_head_tile_size. set (x := _ * wi_q_head_num w). assert (0 <= x) by (unfold x, group_ok in *; nia).
    pose proof (round_up_bounds x (max_num_q_per_iter input) ltac:(done) Hm). lia. }
  assert (1 <= kv_tile_size cache_size input w off) as Hk.
  { unfold kv_tile_size. match goal with |- context [calcu_tile_size_with_constant_q ?a ?b ?c ?d ?e ?f ?g ?h ?i ?j] =>
      pose proof (tile_size_with_constant_q_ok a b c d e f g h i j Ha) as [_ ?] end. lia. }
  unfold tile_regions, get_thread_scratchpad_size, tile_buffers, update.
  set (rows := rounded_q_head_tile_size _ _ _ _) in *. set (kv := kv_tile_size _ _ _ _) in *. simpl.
  unfold calcu_q_buffer_size, calcu_logits_buffer_size, calcu_partial_output_buffer_size,
    calcu_partial_output_max_sum_buffer_size.
  destruct (round_to_64_ok (rows * head_dim input * q_buffer_elem_size input)) as [Q1 Q2]; [nia|].
  destruct (round_to_64_ok (logits_buffer_elem_size input * max_num_q_per_iter input * kv)) as [L1 L2]; [nia|].
  destruct (round_to_64_ok (rows * head_dim input * output_buffer_elem_size input)) as [O1 O2]; [nia|].
  destruct (round_to_64_ok (rows * 4)) as [M1 M2]; [nia|].
  split_and!; try solve [repeat apply Z.divide_add_r; first [done|apply Z.divide_0_r]]; first [lia|nia].
Qed.

Lemma reduction_regions_packed it : 0 <= ri_split_num it -> 0 <= ri_q_token_id_num it ->
  0 <= ri_q_head_num it -> (64 | ri_scratch_offset it) ->
  packed (ri_scratch_offset it) (reduction_regions it) (get_reduction_scratchpad_size (reduction_buffers input it)).
Proof.
  intros Hs Ht Hh Hd. destruct SZ as [? ? ? ? ? ?].
  assert (0 <= ri_q_token_id_num it * ri_q_head_num it) as Hr by nia.
  unfold reduction_regions, get_reduction_scratchpad_size, reduction_buffers, update_reduction.
  generalize dependent (ri_q_token_id_num it * ri_q_head_num it). intros rows Hr.
  assert (0 <= reduction_stats_stride rows) as Hst.
  { unfold reduction_stats_stride. pose proof (round_up_bounds rows 16 Hr ltac:(lia)).
    replace (rows + 15) with (rows + 16 - 1) by lia. lia. }
  generalize dependent (reduction_stats_stride rows). intros stride Hst.
  simpl. unfold calcu_reduce_flag_buffer_size, calcu_reduce_output_buffer_size, calcu_reduce_max_sum_buffer_size.
  destruct (round_to_64_ok (ri_split_num it * 1)) as [F1 F2]; [lia|].
  destruct (round_to_64_ok (ri_split_num it * rows * head_dim input * output_buffer_elem_size input)) as [O1 O2].
  { repeat apply Z.mul_nonneg_nonneg; lia. }
  destruct (round_to_64_ok (ri_split_num it * stride * 4)) as [M1 M2].
  { repeat apply Z.mul_nonneg_nonneg; lia. }
  assert (0 <= ri_split_num it * rows * head_dim input * output_buffer_elem_size input)
    by (repeat apply Z.mul_nonneg_nonneg; lia).
  assert (0 <= ri_split_num it * stride * 4) by (repeat apply Z.mul_nonneg_nonneg; lia).
  split_and!; try solve [repeat apply Z.divide_add_r; done]; lia.
Qed.

Definition reduction_ok (it : ReductionWorkItemGroup) : Prop :=
  0 <= ri_split_num it /\ 0 <= ri_q_token_id_num it /\ 0 <= ri_q_head_num it.

Lemma reduction_scratch_offsets size reds : exists offs, length offs = length reds /\
  (reduction_scratch input size reds).1 = zip_with set_offset offs reds.
Proof.
  revert size. induction reds as [|it reds IH]; intros size; simpl; [by exists []|].
  destruct (IH (pad_64 (get_reduction_scratchpad_size (reduction_buffers input (set_offset size it))))) as (offs & Hl & E).
  destruct (reduction_scratch input _ reds) as [reds' total]. simpl in *. subst reds'.
  exists (size :: offs). simpl. by rewrite Hl.
Qed.

Lemma reduction_scratch_ok size reds : 0 <= size -> (64 | size) -> Forall reduction_ok reds ->
  let '(reds', total) := reduction_scratch input size reds in packed size (reds' ≫= reduction_regions) total.
Proof.
  intros Hs Hd F. revert size Hs Hd. induction F as [|it reds (H1 & H2 & H3) F IH]; intros size Hs Hd; simpl; [lia|].
  pose proof (reduction_regions_packed (set_offset size it) H1 H2 H3 Hd) as Hp.
  set (next := get_reduction_scratchpad_size _) in *. pose proof (packed_le _ _ _ Hp) as Hle. simpl in Hle.
  destruct (pad_64_ok next) as [P1 P2]; [lia|]. specialize (IH (pad_64 next) ltac:(lia) P2).
  destruct (reduction_scratch input (pad_64 next) reds) as [reds' total].
  rewrite bind_cons. eapply packed_app; [|done]. by eapply packed_weaken.
Qed.

(** The kernel's tiles of an item start at the multiples of its step. *)
Definition tile_start (w : AttentionWorkItemGroup) (off : Z) : Prop :=
  0 <= off < wi_q_token_num w /\ (tile_token_num cache_size input w | off).

Lemma attention_scratch_ok ws : Forall group_ok ws ->
  exists size, attention_scratch cache_size input ws = Some size /\ 0 <= size /\
    Forall (fun w => forall off, tile_start w off ->
      get_thread_scratchpad_size (tile_buffers cache_size input w off) <= size) ws.
Proof.
  unfold attention_scratch. induction ws as [|w ws IH] using rev_ind; intros F.
  { exists 0. by split_and!. }
  apply Forall_app in F as [F [Hw _]%Forall_cons]. destruct (IH F) as (size & E & Hs & Hall).
  rewrite foldl_app. rewrite E. simpl. pose proof (tile_token_num_pos w Hw) as Ht.
  set (step := tile_token_num cache_size input w) in *.
  destruct (for_step_inv (fun i s => size <= s /\ (step | i) /\ forall off, tile_start w off -> off < i ->
      get_thread_scratchpad_size (tile_buffers cache_size input w off) <= s) 0 (wi_q_token_num w) step
    (fun q_token_offset s => Some (Z.max s (get_thread_scratchpad_size (tile_buffers cache_size input w q_token_offset)))) size)
    as (s & i & -> & _ & Hi & _ & Hge & _ & Hb); [done| | |].
  - split_and!; [lia|apply Z.divide_0_r|]. intros off [? _]. lia.
  - intros i s Hi (H1 & H2 & H3). eexists; split; [done|]. split_and!; [lia|by apply Z.divide_add_r|].
    intros off Ho Hlt. destruct (decide (off = i)) as [->|Hne]; [lia|]. specialize (H3 off Ho).
    destruct Ho as [_ Hdo]. fold step in Hdo.
    destruct (Z.lt_trichotomy off i) as [?|[?|Hgt]]; [lia|done|]. pose proof (divide_lt_le step i off Ht H2 Hdo Hgt). lia.
  - exists s. split_and!; [done|lia|]. apply Forall_app. split; [|apply Forall_singleton; intros off Ho; apply Hb; [done|destruct Ho; lia]].
    eapply Forall_impl; [done|]. simpl. intros w' H off Ho. specialize (H off Ho). lia.
Qed.

End Scratch.

(** ** The schedule *)

Lemma pieces_reduction input r tok red lid lo cuts hi :
  Forall (fun it => pi_reduction it = red) (pieces input r tok red lid lo cuts hi).
Proof. revert lid lo. induction cuts as [|q cuts IH]; intros lid lo; simpl; (constructor; [done|]); [constructor|apply IH]. Qed.

Section Result.
Context (thread_num cache_size : Z) (input : ScheduleInput) (OK : input_ok thread_num input).

(** The parts of a computed schedule. *)
Record parts (m : Metadata) (p : Partitions) (css : list (list chunk)) (x : Expansion) (k size : Z) : Prop := {
  pt_cut : cut_ok thread_num input p css;
  pt_expanded : expanded input p (heads p k) x;
  pt_heads : forall h, 0 <= h < num_heads_q input -> (head_stride p | h) -> h ∈ heads p k;
  pt_heads_range : Forall (fun h => 0 <= h < num_heads_q input) (heads p k);
  pt_groups : Forall (group_ok input) (x_workitems x);
  pt_reds : Forall reduction_ok (x_reduce_workitems x);
  pt_scratch : attention_scratch cache_size input (x_workitems x) = Some size;
  pt_size : attention_scratchpad_size_per_thread m = pad_64 size;
  pt_workitems : workitem_groups m = x_workitems x;
  pt_num : workitem_group_num m = Z.of_nat (length (x_workitems x));
  pt_spans : task_spans m = x_task_spans x;
  pt_reductions : (reduction_items m, reduction_scratchpad_size m) =
    reduction_scratch input 0 (x_reduce_workitems x);
  pt_counter : counter m = 0;
  pt_threads : md_thread_num m = thread_num;
  pt_red_num : reduction_item_num m = Z.of_nat (length (x_reduce_workitems x));
  pt_split_num : reduction_split_num m = foldr Z.add 0 (ri_split_num <$> x_reduce_workitems x);
  pt_span_num : task_span_num m = Z.of_nat (length (x_task_spans x))
}.

Lemma groups_of_ok p css x k : cut_ok thread_num input p css -> expanded input p (heads p k) x ->
  Forall (group_ok input) (x_workitems x) /\ Forall reduction_ok (x_reduce_workitems x).
Proof.
  intros CUT (W & R & _). rewrite W, R. clear W R. split.
  - generalize 0. induction (heads p k) as [|h hs IH]; intros n; simpl; [constructor|].
    apply Forall_app. split; [|apply IH]. apply Forall_forall. intros w (it & -> & Hit)%list_elem_of_fmap.
    apply list_elem_of_filter in Hit as [_ Hit]. destruct (items_requests _ _ _ OK _ CUT it Hit) as (r & _ & _ & Hg & RK).
    unfold group_ok. simpl. rewrite Hg. apply (rk_group _ _ RK).
  - apply Forall_forall. intros w (h & Hw & _)%list_elem_of_bind. apply list_elem_of_fmap in Hw as (r & -> & Hr).
    apply list_elem_of_filter in Hr as [_ Hr]. apply (reductions_ok _ _ _ OK _ CUT r Hr).
Qed.

(** The scheduler comes to an end: with a schedule, or because there are too many tasks. *)
Lemma schedule_parts : exists p css x k, partition thread_num cache_size input = Some p /\
  expand thread_num input p = Some x /\
  ((2147483647 < Z.of_nat (length (x_task_spans x)) /\
    schedule thread_num cache_size input = Some (Throw "task_spans")) \/
   exists m size, schedule thread_num cache_size input = Some (Ok m) /\ parts m p css x k size).
Proof.
  destruct (partition_cut thread_num cache_size input OK) as (p & css & Ep & CUT).
  destruct (expand_ok thread_num input p OK css CUT) as (x & k & Ex & X & _ & H1 & H2).
  destruct (groups_of_ok p css x k CUT X) as [G1 G2].
  destruct (attention_scratch_ok _ cache_size input OK (x_workitems x) G1) as (size & Es & _ & _).
  exists p, css, x, k. split_and!; [done|done|]. unfold schedule. rewrite Ep. cbn [mbind option_bind].
  rewrite Ex. cbn [mbind option_bind].
  destruct (Z.gtb_spec (Z.of_nat (length (x_task_spans x))) 2147483647); [left; split; [lia|done]|right].
  rewrite Es. cbn [mbind option_bind]. destruct (reduction_scratch input 0 (x_reduce_workitems x)) as [reds total] eqn:Er.
  eexists _, size. split; [done|]. by constructor.
Qed.

(** The work for one token and one head. *)
Lemma parts_takes m p css x k size i t h : parts m p css x k size ->
  0 <= i < num_reqs input ->
  0 <= t < at_ (query_start_loc input) (i + 1) - at_ (query_start_loc input) i ->
  0 <= h < num_heads_q input ->
  exists r, request input i = Some r /\
    let hd := h - h mod r_group r in
    let ws := filter (fun w => takes w i t h) (workitem_groups m) in
    (exists tok num total, ws = [group_of input hd (-1) (item r tok num 0 (r_seq_len r) total (-1) 0)]) \/
    (exists tok lo hi cuts red rid off, 0 <= tok <= t /\ t < tok + q_tile_token_num input r tok /\
      tile_kv input r tok = (lo, hi) /\ cuts <> [] /\
      increasing input lo cuts hi /\ 0 <= red /\
      ws = group_of input hd (Z.of_nat rid) <$> pieces input r tok red 0 lo cuts hi /\
      reduction_items m !! rid =
        Some (set_offset off (reduction_at hd (red_of input r tok (1 + Z.of_nat (length cuts)))))).
Proof.
  intros P Hi Ht Hh. pose proof (pt_cut _ _ _ _ _ _ P) as CUT.
  destruct (chunk_at _ _ OK p css i t CUT Hi Ht) as (r & l1 & c & l2 & Hr & RK & Hsplit & Hc & Hok & Hin & F).
  exists r. split; [done|]. cbv zeta.
  destruct (expanded_takes _ _ _ OK _ CUT k x i t h r (pt_expanded _ _ _ _ _ _ P) (pt_heads _ _ _ _ _ _ P)
    (pt_heads_range _ _ _ _ _ _ P) Hr RK Hi Hh) as (n & hs & Ews & En & tail & Ered).
  rewrite (pt_workitems _ _ _ _ _ _ P), Ews. set (hd := h - h mod r_group r) in *.
  assert (chunk_has input c i t) as Hhas.
  { destruct (request_ok_ex _ _ OK i Hi) as (r' & E' & _ & Eid & _). split; [congruence|done]. }
  rewrite (cut_items _ _ _ _ CUT), Hsplit, (items_at input l1 c l2 i t Hhas F).
  destruct c as [r' tok num total|r' tok lo cuts hi]; simpl in Hc; subst r'; [left; by eexists _, _, _|right].
  destruct Hok as (_ & Htok & Hkv & Hne & Hinc). simpl in Hin. set (red := Z.of_nat (length (reds_of input l1))) in *.
  destruct (ids_of_lookup n hd (reductions p) (length (reds_of input l1)) (red_of input r tok (1 + Z.of_nat (length cuts))))
    as (j & Ej & Hj).
  { rewrite (cut_reductions _ _ _ _ CUT), Hsplit. unfold reds_of. rewrite bind_app. simpl. by rewrite list_lookup_middle. }
  { apply (group_head _ h); simpl; pose proof (rk_group _ _ RK); pose proof (Z.mod_pos_bound h (r_group r));
      pose proof (Z.mod_le h (r_group r)); unfold hd; try lia; done. }
  destruct (reduction_scratch_offsets input 0 (x_reduce_workitems x)) as (offs & Hl & Eoffs).
  rewrite <- (pt_reductions _ _ _ _ _ _ P) in Eoffs. simpl in Eoffs.
  set (rid := (length (reductions_of p hs) + j)%nat).
  assert (x_reduce_workitems x !! rid = Some (reduction_at hd (red_of input r tok (1 + Z.of_nat (length cuts))))) as Hrid.
  { unfold rid. rewrite Ered, lookup_app_r by lia. replace (_ + j - _)%nat with j by lia. by apply lookup_app_l_Some. }
  destruct (lookup_lt_is_Some_2 offs rid) as [off Hoff]; [rewrite Hl; by eapply lookup_lt_Some|].
  exists tok, lo, hi, cuts, red, rid, off. split_and!; [lia|lia|lia|done|done|done|lia| |].
  - simpl. apply Forall_fmap_ext_1. eapply Forall_impl; [apply pieces_reduction|]. simpl. intros it ->.
    fold red. subst red. rewrite Ej, En. by rewrite <- Nat2Z.inj_add.
  - rewrite Eoffs, lookup_zip_with, Hoff. simpl. by rewrite Hrid.
Qed.

(** All heads of a group use the same head of the cache. *)
Lemma kv_head_ok r h : request_ok input r -> 0 <= h ->
  Z.quot (h - h mod r_group r) (original_q_head_per_kv input) = Z.quot h (original_q_head_per_kv input).
Proof.
  intros RK Hh. pose proof (rk_group _ _ RK). destruct (rk_heads _ _ RK) as [E|E].
  - rewrite E, Z.mod_1_r. f_equal. lia.
  - rewrite E in *. set (q := original_q_head_per_kv input) in *.
    pose proof (Z.mod_pos_bound h q). pose proof (Z.mod_le h q). pose proof (Z.div_mod h q).
    rewrite !quot_pos by lia. replace (h - h mod q) with (h / q * q) by lia. apply Z.div_mul. lia.
Qed.

End Result.

(** [C13] The whole scheduler: it ends, and unless there are more than 2^31 - 1 tasks
    it returns metadata whose task spans cut the work items into consecutive
    non-empty runs and in which every query token of every request is computed for
    every query head exactly once: either by one work item with the whole context,
    or by work items for the parts of the token's tile, in order, with the part
    numbers 0, 1, ... and the number of one reduction item, which stands for the same
    request, tokens and heads and announces exactly these parts.  The work items use
    the cache head that belongs to the query head. *)
Theorem schedule_covers thread_num cache_size input : input_ok thread_num input ->
  exists res, schedule thread_num cache_size input = Some res /\
  match res with
  | Throw _ => exists p x, partition thread_num cache_size input = Some p /\
      expand thread_num input p = Some x /\ 2147483647 < Z.of_nat (length (x_task_spans x))
  | Ok m =>
      workitem_group_num m = Z.of_nat (length (workitem_groups m)) /\
      tiled 0 (task_spans m) (workitem_group_num m) /\
      forall i t h, 0 <= i < num_reqs input ->
        0 <= t < at_ (query_start_loc input) (i + 1) - at_ (query_start_loc input) i ->
        0 <= h < num_heads_q input ->
        exists r, request input i = Some r /\
          let hd := h - h mod r_group r in
          let ws := filter (fun w => takes w i t h) (workitem_groups m) in
          Z.quot hd (original_q_head_per_kv input) = Z.quot h (original_q_head_per_kv input) /\
          ((exists tok num total,
              ws = [group_of input hd (-1) (item r tok num 0 (r_seq_len r) total (-1) 0)]) \/
           (exists tok lo hi cuts red rid off, 0 <= tok <= t /\ t < tok + q_tile_token_num input r tok /\
              tile_kv input r tok = (lo, hi) /\ cuts <> [] /\
              increasing input lo cuts hi /\ 0 <= red /\
              ws = group_of input hd (Z.of_nat rid) <$> pieces input r tok red 0 lo cuts hi /\
              reduction_items m !! rid =
                Some (set_offset off (reduction_at hd (red_of input r tok (1 + Z.of_nat (length cuts)))))))
  end.
Proof.
  intros OK. destruct (schedule_parts thread_num cache_size input OK)
    as (p & css & x & k & Ep & Ex & [[Hn ->]|(m & size & -> & P)]); [eexists; split; [done|by exists p, x]|].
  eexists; split; [done|]. pose proof (pt_expanded _ _ _ _ _ _ _ _ _ P) as (_ & _ & _ & T).
  split_and!; [by rewrite (pt_num _ _ _ _ _ _ _ _ _ P), (pt_workitems _ _ _ _ _ _ _ _ _ P)
    |by rewrite (pt_num _ _ _ _ _ _ _ _ _ P), (pt_spans _ _ _ _ _ _ _ _ _ P)|]. intros i t h Hi Ht Hh.
  destruct (parts_takes _ _ _ OK m p css x k size i t h P Hi Ht Hh) as (r & Hr & H).
  exists r. split; [done|]. cbv zeta. split; [|done].
  destruct (request_ok_ex _ _ OK i Hi) as (r' & E' & RK & _). simplify_eq. apply kv_head_ok; [done|lia].
Qed.

Lemma schedule_covers_witness :
  exists m, schedule 4 1048576 sample_input = Some (Ok m) /\
    tiled 0 (task_spans m) (workitem_group_num m) /\
    (fun w => (wi_split_id w, wi_kv_split_pos_start w, wi_reduction_id w))
      <$> filter (fun w => takes w 2 0 3) (workitem_groups m)
    = [(0, 0, 1); (1, 448, 1); (2, 1984, 1); (3, 3520, 1)] /\
    ri_split_num <$> (reduction_items m !! 1%nat) = Some 4.
Proof.
  destruct (schedule_covers 4 1048576 sample_input sample_input_ok) as (res & E & H).
  vm_compute in E. injection E as <-. destruct H as (_ & T & _).
  eexists. split; [vm_compute; reflexivity|]. split; [exact T|]. split; vm_compute; reflexivity.
Defined.

(** [C17] The scratch memory suffices: the buffers that the kernel uses for any query
    tile of any work item lie one after the other, on cache lines of their own, inside
    the share of one thread, and the flags, outputs and statistics of all reductions
    lie one after the other inside the memory behind the shares of the threads; so no
    two of them overlap. *)
Theorem scratch_sound thread_num cache_size input m :
  input_ok thread_num input -> sizes_ok cache_size input ->
  schedule thread_num cache_size input = Some (Ok m) ->
  (forall w off, w ∈ workitem_groups m -> tile_start cache_size input w off ->
     packed 0 (tile_regions cache_size input w off) (attention_scratchpad_size_per_thread m)) /\
  packed 0 (reduction_items m ≫= reduction_regions input) (reduction_scratchpad_size m) /\
  (64 | attention_scratchpad_size_per_thread m).
Proof.
  intros OK SZ E. destruct (schedule_parts thread_num cache_size input OK)
    as (p & css & x & k & _ & _ & [[_ E']|(m' & size & E' & P)]); [congruence|].
  rewrite E in E'. injection E' as <-.
  destruct (attention_scratch_ok _ cache_size input OK (x_workitems x) (pt_groups _ _ _ _ _ _ _ _ _ P))
    as (size' & Es & Hs & F). rewrite (pt_scratch _ _ _ _ _ _ _ _ _ P) in Es. injection Es as <-.
  destruct (pad_64_ok size Hs) as [P1 P2]. rewrite (pt_size _ _ _ _ _ _ _ _ _ P). split_and!; [| |done].
  - intros w off Hw Ho. rewrite (pt_workitems _ _ _ _ _ _ _ _ _ P) in Hw.
    rewrite Forall_forall in F. specialize (F w Hw off Ho).
    pose proof (pt_groups _ _ _ _ _ _ _ _ _ P) as G. rewrite Forall_forall in G.
    eapply packed_weaken; [apply (tile_regions_packed thread_num); [done|done|by apply G|apply Ho]|lia].
  - pose proof (reduction_scratch_ok cache_size input SZ 0 (x_reduce_workitems x) ltac:(lia) (Z.divide_0_r 64)
      (pt_reds _ _ _ _ _ _ _ _ _ P)) as H. by rewrite <- (pt_reductions _ _ _ _ _ _ _ _ _ P) in H.
Qed.

Lemma sample_sizes_ok : sizes_ok 1048576 sample_input.
Proof. by constructor. Qed.

Lemma scratch_sound_witness :
  exists m, schedule 4 1048576 sample_input = Some (Ok m) /\ scratchpad_size m = 4200064 /\
    packed 0 (reduction_items m ≫= reduction_regions sample_input) (reduction_scratchpad_size m).
Proof.
  assert (exists m, schedule 4 1048576 sample_input = Some (Ok m) /\ scratchpad_size m = 4200064) as (m & E & S)
    by (eexists; split; vm_compute; reflexivity).
  exists m. split; [done|]. split; [done|]. apply (scratch_sound 4 1048576 sample_input m sample_input_ok sample_sizes_ok E).
Defined.

End Tasks.
