(* ===== verification/AttnKernel.v ===== *)
(** * The CPU attention kernel: tiles, mask and pages

    [csrc/cpu/cpu_attn_impl.hpp], class [AttentionMainLoop]: how a work item is walked
    (query tiles, context tiles, query sub-tiles), which calls of the attention routine
    come out of it, which logits its mask leaves, and which pages of the cache it
    reads.  A call is here the record of its arguments, and the mask works on logits of
    any type; what a call computes is in [AttnTile].

    The compile-time constants of the kernel (rows per iteration, alignment, head
    size, element sizes) are those of the [ScheduleInput] that the scheduler got. *)

From S2P Require Import Prelude Arrays AttnSchedule AttnTasks.

#[local] Open Scope Z_scope.

Module Kernel.
Import Attn Tasks.

(** ** The mask *)

Section Mask.
Context {L : Type} (neg_inf : L).
Context (kv_end_pos kv_tile_start_pos kv_tile_end_pos : Z)
        (sliding_window_left sliding_window_right : Z).

Definition left_kv_pos (curr_token_pos : Z) : Z :=
  let pos := kv_tile_start_pos in
  let pos := if negb (sliding_window_left =? -1)
             then Z.max pos (curr_token_pos - sliding_window_left) else pos in
  Z.min pos kv_tile_end_pos.

Definition right_kv_pos (curr_token_pos : Z) : Z :=
  let pos := kv_tile_end_pos in
  let pos := if negb (sliding_window_right =? -1)
             then Z.min pos (Z.max kv_tile_start_pos (curr_token_pos + sliding_window_right + 1))
             else pos in
  Z.min pos kv_end_pos.

(** One row of the logits, at [off]. *)
Definition mask_row (curr_token_pos off : Z) (logits : list L) : option (list L) :=
  let left_invalid_token_num := left_kv_pos curr_token_pos - kv_tile_start_pos in
  let right_invalid_token_num := kv_tile_end_pos - right_kv_pos curr_token_pos in
  logits ← for_range 0 left_invalid_token_num (fun i l => wr l (off + i) neg_inf) logits;
  for_range 0 right_invalid_token_num
    (fun i l => wr l (off + right_kv_pos curr_token_pos - kv_tile_start_pos + i) neg_inf) logits.

(** The state carries the buffer and the pointer into it. *)
Definition apply_mask (logits_buffer_stride q_tile_start_pos q_token_num q_heads_per_kv : Z)
    (logits_buffer : list L) : option (list L) :=
  '(logits, _) ← for_range 0 q_token_num (fun token_idx s =>
    for_range 0 q_heads_per_kv (fun _ '(logits, off) =>
      logits ← mask_row (q_tile_start_pos + token_idx) off logits;
      Some (logits, off + logits_buffer_stride)) s) (logits_buffer, 0);
  Some logits.

End Mask.

(** ** The pages *)

(** One step of the product of queries and keys: the physical block, the group of
    tokens inside it, and the column of the logits. *)
Record Gemm := { g_block : Z; g_group : Z; g_column : Z }.

Section Pages.
Context (block_size blocksize_alignment : Z) (block_table : list Z).
Context (kv_tile_start_pos kv_tile_token_num : Z).

Definition token_group_num : Z := Z.quot kv_tile_token_num blocksize_alignment.
Definition token_group_num_per_block : Z := Z.quot block_size blocksize_alignment.
Definition start_block_idx : Z := Z.quot kv_tile_start_pos block_size.
Definition start_block_group_offset : Z :=
  Z.quot (Z.rem kv_tile_start_pos block_size) blocksize_alignment.
Definition end_block_idx : Z := Z.quot (kv_tile_start_pos + kv_tile_token_num - 1) block_size + 1.

(** The variables of the loop over the blocks. *)
Record Walk := {
  w_group_offset : Z;
  w_group_num_in_block : Z;
  w_remaining : Z;
  w_column : Z;
  w_gemms : list Gemm
}.

Definition walk_block (block_idx : Z) (w : Walk) : option Walk :=
  physical_block_idx ← rd block_table block_idx;
  let curr_group_num_in_block := Z.min (w_remaining w) (w_group_num_in_block w) in
  Some {| w_group_offset := 0; w_group_num_in_block := token_group_num_per_block;
          w_remaining := w_remaining w - curr_group_num_in_block;
          w_column := w_column w + curr_group_num_in_block * blocksize_alignment;
          w_gemms := w_gemms w ++
            ((fun g => {| g_block := physical_block_idx; g_group := w_group_offset w + g;
                          g_column := w_column w + g * blocksize_alignment |})
             <$> seqZ 0 curr_group_num_in_block) |}.

Definition walk_pages : option (list Gemm) :=
  w ← for_range start_block_idx end_block_idx walk_block
    {| w_group_offset := start_block_group_offset;
       w_group_num_in_block := token_group_num_per_block - start_block_group_offset;
       w_remaining := token_group_num; w_column := 0; w_gemms := [] |};
  Some (w_gemms w).

End Pages.

(** ** The walk over a work item *)

(** A call of [execute_attention]: the context range, the query rows (by token of the
    request), and the flag of the first iteration. *)
Record Call := {
  c_kv_tile_start_pos : Z;
  c_kv_tile_end_pos : Z;
  c_kv_end_pos : Z;
  c_q_token : Z;
  c_q_token_num : Z;
  c_q_row : Z;
  c_q_iter_idx : Z;
  c_is_first_iter : bool
}.

Section Item.
Context (cache_size : Z) (input : ScheduleInput) (r : Request) (w : AttentionWorkItemGroup).

Definition q_start_pos : Z := r_seq_len r - r_q_token_num r.
Definition curr_max_q_token_num_per_iter : Z := Z.quot (max_num_q_per_iter input) (wi_q_head_num w).

Section Tile.
Context (q_token_offset : Z).

Definition actual_q_token_num : Z :=
  Z.min (tile_token_num cache_size input w) (wi_q_token_num w - q_token_offset).
Definition q_tile_start_pos : Z := q_start_pos + q_token_offset + wi_q_token_id_start w.

Definition kv_pos (kv_left kv_right q_left q_right : Z) : Z * Z :=
  calcu_kv_tile_pos kv_left kv_right q_left q_right (sliding_window_size input) (r_causal r).

(** The body of the innermost loop; [flags] is [first_iter_flag]. *)
Definition sub_tile (kv_tile_pos_left kv_tile_pos_right q_head_tile_token_offset : Z)
    (s : list bool * list Call) : option (list bool * list Call) :=
  let '(flags, calls) := s in
  let q_tile_pos_left := q_tile_start_pos + q_head_tile_token_offset in
  let q_tile_token_num := Z.min curr_max_q_token_num_per_iter
                                (actual_q_token_num - q_head_tile_token_offset) in
  let q_tile_pos_right := q_tile_pos_left + q_tile_token_num in
  let '(actual_kv_tile_pos_left, actual_kv_tile_pos_right) :=
    kv_pos kv_tile_pos_left kv_tile_pos_right q_tile_pos_left q_tile_pos_right in
  let q_iter_idx := Z.quot q_head_tile_token_offset curr_max_q_token_num_per_iter in
  if actual_kv_tile_pos_right <=? actual_kv_tile_pos_left then Some (flags, calls) else
  let '(aligned_left, aligned_right) :=
    align_kv_tile_pos actual_kv_tile_pos_left actual_kv_tile_pos_right (kv_block_alignment input) in
  first ← rd flags q_iter_idx;
  flags ← wr flags q_iter_idx false;
  Some (flags, calls ++ [{|
    c_kv_tile_start_pos := aligned_left; c_kv_tile_end_pos := aligned_right;
    c_kv_end_pos := wi_kv_split_pos_end w;
    c_q_token := wi_q_token_id_start w + q_token_offset + q_head_tile_token_offset;
    c_q_token_num := q_tile_token_num;
    c_q_row := q_head_tile_token_offset * wi_q_head_num w;
    c_q_iter_idx := q_iter_idx; c_is_first_iter := first |}]).

Definition kv_range : Z * Z :=
  let '(l, h) := kv_pos (wi_kv_split_pos_start w) (wi_kv_split_pos_end w) q_tile_start_pos
                        (q_tile_start_pos + actual_q_token_num) in
  align_kv_tile_pos l h (kv_block_alignment input).

(** The compute loop of one query tile. *)
Definition kv_tile (rounded_kv_tile_end_pos kv_tile_pos : Z) (s : list bool * list Call)
    : option (list bool * list Call) :=
  for_step 0 actual_q_token_num curr_max_q_token_num_per_iter
    (sub_tile kv_tile_pos
       (Z.min (kv_tile_pos + kv_tile_size cache_size input w q_token_offset) rounded_kv_tile_end_pos)) s.

Definition tile_calls (calls : list Call) : option (list Call) :=
  let '(rounded_kv_tile_start_pos, rounded_kv_tile_end_pos) := kv_range in
  '(_, calls) ← for_step rounded_kv_tile_start_pos rounded_kv_tile_end_pos
    (kv_tile_size cache_size input w q_token_offset) (kv_tile rounded_kv_tile_end_pos)
    (replicate (Z.to_nat MaxQTileIterNum) true, calls);
  Some calls.

End Tile.

(** The loop over the query tiles of the item. *)
Definition item_calls : option (list Call) :=
  for_step 0 (wi_q_token_num w) (tile_token_num cache_size input w) tile_calls [].

End Item.

Definition run_item (cache_size : Z) (input : ScheduleInput) (w : AttentionWorkItemGroup)
    : option (list (AttentionWorkItemGroup * Call)) :=
  r ← request input (wi_req_id w);
  calls ← item_calls cache_size input r w;
  Some (map (pair w) calls).

(** ** What a call attends to *)

Section Attend.
Context (input : ScheduleInput) (r : Request).

(** The mask of call [c] leaves key [k] for query token [t]. *)
Definition attends (c : Call) (t k : Z) : Prop :=
  let '(wl, wr) := calcu_sliding_window_size (sliding_window_size input) (r_causal r) in
  let pos := q_start_pos r + t in
  c_q_token c <= t < c_q_token c + c_q_token_num c /\
  left_kv_pos (c_kv_tile_start_pos c) (c_kv_tile_end_pos c) wl pos <= k
    < right_kv_pos (c_kv_end_pos c) (c_kv_tile_start_pos c) (c_kv_tile_end_pos c) wr pos.

#[export] Instance attends_dec c t k : Decision (attends c t k).
Proof. unfold attends. destruct (calcu_sliding_window_size _ _). apply _. Defined.

Definition hits (calls : list Call) (t k : Z) : nat := length (filter (fun c => attends c t k) calls).

(** The pairs in [P] are attended to once, the others never. *)
Definition counts (calls : list Call) (P : Z -> Z -> Prop) : Prop :=
  forall t k, (P t k -> hits calls t k = 1%nat) /\ (~ P t k -> hits calls t k = 0%nat).

Lemma counts_nil (P : Z -> Z -> Prop) : (forall t k, ~ P t k) -> counts [] P.
Proof. intros H t k. split; [intros Hp; by destruct (H t k)|done]. Qed.

Lemma counts_app l1 l2 (P Q R : Z -> Z -> Prop) : counts l1 P -> counts l2 Q ->
  (forall t k, P t k -> ~ Q t k) -> (forall t k, R t k <-> P t k \/ Q t k) -> counts (l1 ++ l2) R.
Proof.
  intros H1 H2 Hd HR t k. unfold hits. rewrite filter_app, length_app, HR. fold (hits l1 t k) (hits l2 t k).
  destruct (H1 t k) as [A1 B1], (H2 t k) as [A2 B2]. split.
  - intros [Hp|Hq]; [rewrite (A1 Hp), (B2 (Hd _ _ Hp)); done|].
    rewrite (A2 Hq), B1; [done|]. intros Hp. by apply (Hd t k).
  - intros Hn. by rewrite B1, B2 by tauto.
Qed.

Lemma counts_iff l (P Q : Z -> Z -> Prop) : (forall t k, P t k <-> Q t k) -> counts l P -> counts l Q.
Proof. intros H C t k. rewrite <- H. apply C. Qed.

End Attend.

(** ** One work item *)

Section ItemCorrect.
Context (thread_num cache_size : Z) (input : ScheduleInput) (OK : input_ok thread_num input).
Context (r : Request) (RK : request_ok input r) (w : AttentionWorkItemGroup).

Abbreviation align := (kv_block_alignment input).

Record item_ok : Prop := {
  io_group : wi_q_head_num w = r_group r;
  io_start : 0 <= wi_q_token_id_start w;
  io_num : 1 <= wi_q_token_num w;
  io_end : wi_q_token_id_start w + wi_q_token_num w <= r_q_token_num r;
  io_kv_start : 0 <= wi_kv_split_pos_start w;
  io_kv_align : (align | wi_kv_split_pos_start w);
  io_kv : wi_kv_split_pos_start w < wi_kv_split_pos_end w <= r_seq_len r;
  io_whole : wi_split_id w = -1 -> wi_kv_split_pos_start w = 0 /\ wi_kv_split_pos_end w = r_seq_len r /\ wi_local_split_id w = 0
}.

Context (IO : item_ok) (off : Z) (Hoff : 0 <= off < wi_q_token_num w).

Abbreviation actual := (actual_q_token_num cache_size input w off).
Abbreviation iter_tok := (curr_max_q_token_num_per_iter input w).
Abbreviation kv_size := (kv_tile_size cache_size input w off).
Abbreviation tok0 := (wi_q_token_id_start w + off).

Lemma item_group_ok : group_ok input w.
Proof. unfold group_ok. rewrite (io_group IO). apply (rk_group _ _ RK). Qed.

Lemma iter_tok_pos : 1 <= iter_tok.
Proof. unfold curr_max_q_token_num_per_iter. rewrite (io_group IO). apply (max_tok_pos _ _ RK). Qed.

Lemma actual_bounds : 1 <= actual /\ actual <= wi_q_token_num w - off.
Proof.
  pose proof (tile_token_num_pos _ cache_size _ OK w item_group_ok). unfold actual_q_token_num. lia.
Qed.

(** Every sub-tile has its own slot in the array of flags. *)
Lemma iter_idx_bound q : 0 <= q < actual -> 0 <= Z.quot q iter_tok < MaxQTileIterNum.
Proof.
  intros Hq. pose proof iter_tok_pos as Hi. rewrite quot_pos by lia. split; [apply Z.div_pos; lia|].
  apply Z.div_lt_upper_bound; [lia|]. pose proof (rk_group _ _ RK) as Hg. pose proof (ok_iter _ _ OK) as Hm.
  unfold actual_q_token_num, tile_token_num, curr_max_q_token_num_per_iter in *. rewrite (io_group IO) in *.
  pose proof (default_tile_size_ok cache_size (head_dim input) (elem_size input) (q_buffer_elem_size input)
    (logits_buffer_elem_size input) (output_buffer_elem_size input) (max_num_q_per_iter input) Hm) as [[d Hd] Hle].
  unfold default_tile_size in Hq. rewrite Hd in *. unfold MaxQTileIterNum in *.
  set (m := max_num_q_per_iter input) in *. rewrite !quot_pos in * by nia.
  destruct (rk_fits _ _ RK) as [E|[E|E]].
  - rewrite E, !Z.div_1_r in *. nia.
  - fold m in E. rewrite Z.rem_mod_nonneg in E by lia. apply Z.mod_divide in E as [c Hc]; [|lia]. rewrite Hc in *.
    rewrite Z.mul_assoc, !Z.div_mul in * by lia. assert (d <= 128) by nia. nia.
  - fold m in E. pose proof (io_end IO). pose proof (io_start IO).
    assert (r_q_token_num r <= m / r_group r) by (apply Z.div_le_lower_bound; lia). lia.
Qed.

(** The bounds that the buffers and the page table rely on. *)
Record call_ok (c : Call) : Prop := {
  ck_start : 0 <= c_kv_tile_start_pos c < c_kv_tile_end_pos c;
  ck_align : (align | c_kv_tile_start_pos c) /\ (align | c_kv_tile_end_pos c);
  ck_width : c_kv_tile_end_pos c - c_kv_tile_start_pos c <= kv_size;
  ck_end : c_kv_tile_start_pos c < c_kv_end_pos c /\ c_kv_tile_end_pos c < r_seq_len r + align;
  ck_rows : 1 <= c_q_token_num c /\ c_q_token_num c * wi_q_head_num w <= max_num_q_per_iter input;
  ck_buffer : 0 <= c_q_row c /\
    c_q_row c + c_q_token_num c * wi_q_head_num w <= rounded_q_head_tile_size cache_size input w off;
  ck_kv_end : c_kv_end_pos c = wi_kv_split_pos_end w;
  ck_sub : exists q, (iter_tok | q) /\ 0 <= q < actual /\ c_q_token c = tok0 + q /\
    c_q_token_num c = Z.min iter_tok (actual - q) /\ c_q_row c = q * wi_q_head_num w /\ c_q_iter_idx c = Z.quot q iter_tok
}.

Lemma kv_size_ok : (align | kv_size) /\ 1 <= kv_size.
Proof.
  pose proof (ok_align _ _ OK) as Ha. unfold kv_tile_size.
  match goal with |- context [calcu_tile_size_with_constant_q ?a ?b ?c ?d ?e ?f ?g ?h ?i ?j] =>
    pose proof (tile_size_with_constant_q_ok a b c d e f g h i j Ha) as [? ?] end. split; [done|lia].
Qed.

(** The two window sizes, and what they mean. *)
Lemma window_sees t k :
  let '(wl, wr) := calcu_sliding_window_size (sliding_window_size input) (r_causal r) in
  sees input r t k <-> 0 <= k < r_seq_len r /\ (wl <> -1 -> q_start_pos r + t - wl <= k) /\
    (wr <> -1 -> k <= q_start_pos r + t + wr).
Proof.
  unfold calcu_sliding_window_size, sees, q_start_pos. pose proof (ok_window _ _ OK).
  destruct (Z.eqb_spec (sliding_window_size input) (-1)), (r_causal r); simpl; split; intuition (try done; try lia).
Qed.

Lemma window_range : let '(wl, wr) := calcu_sliding_window_size (sliding_window_size input) (r_causal r) in
  -1 <= wl /\ -1 <= wr.
Proof.
  unfold calcu_sliding_window_size. pose proof (ok_window _ _ OK).
  destruct (Z.eqb_spec (sliding_window_size input) (-1)), (r_causal r); simpl; lia.
Qed.

Lemma kv_pos_in A B ql qr l h : kv_pos input r A B ql qr = (l, h) -> A <= l /\ h <= B.
Proof.
  unfold kv_pos, calcu_kv_tile_pos. destruct (calcu_sliding_window_size _ _) as [wl wr]. intros [= <- <-].
  split; [destruct (negb (wl =? -1))|destruct (negb (wr =? -1))]; lia.
Qed.

(** A part of the context that the loops hand to a sub-tile. *)
Record kv_part (A B : Z) : Prop := {
  kp_align : (align | A) /\ (align | B);
  kp_order : 0 <= A < B;
  kp_start : wi_kv_split_pos_start w <= A < wi_kv_split_pos_end w;
  kp_end : B < wi_kv_split_pos_end w + align;
  kp_width : B - A <= kv_size
}.

(** The pairs that the sub-tile of [n] tokens from [q] is responsible for. *)
Definition part_of (A B q n t k : Z) : Prop :=
  tok0 + q <= t < tok0 + q + n /\ A <= k < B /\
  wi_kv_split_pos_start w <= k < wi_kv_split_pos_end w /\ sees input r t k.

(** Aligning the context of a sub-tile stays inside the part. *)
Lemma aligned_in A B l h : kv_part A B -> A <= l < h -> h <= B ->
  let l' := Z.quot l align * align in let h' := Z.quot (h + align - 1) align * align in
  A <= l' <= l /\ h <= h' <= B /\ (align | l') /\ (align | h') /\ l' < wi_kv_split_pos_end w.
Proof.
  intros [[HA HB] Ho Hs He _] Hl Hh. cbv zeta. pose proof (ok_align _ _ OK) as Ha.
  destruct (round_down_bounds l align ltac:(lia) Ha) as (D1 & D2 & D3).
  destruct (round_up_bounds h align ltac:(lia) Ha) as (U1 & U2).
  set (l' := Z.quot l align * align) in *. set (h' := Z.quot (h + align - 1) align * align) in *.
  assert (A <= l'). { destruct (Z.le_gt_cases A l') as [?|Hgt]; [done|]. pose proof (divide_lt_le align l' A Ha D3 HA Hgt). lia. }
  assert (h' <= B). { destruct (Z.le_gt_cases h' B) as [?|Hgt]; [done|]. pose proof (divide_lt_le align B h' Ha HB U2 Hgt). lia. }
  split_and!; try done; try lia.
  pose proof (divide_lt_le align l' B Ha D3 HB ltac:(lia)). lia.
Qed.

(** A call attends to exactly the pairs of its sub-tile. *)
Lemma call_attends A B q n l h c t k : kv_part A B ->
  kv_pos input r A B (q_tile_start_pos r w off + q) (q_tile_start_pos r w off + q + n) = (l, h) -> l < h ->
  c_kv_tile_start_pos c = Z.quot l align * align ->
  c_kv_tile_end_pos c = Z.quot (h + align - 1) align * align ->
  c_kv_end_pos c = wi_kv_split_pos_end w -> c_q_token c = tok0 + q -> c_q_token_num c = n ->
  attends input r c t k <-> part_of A B q n t k.
Proof.
  intros KP Ekv Hlh Es Ee Ek Et En. destruct (kv_pos_in A B _ _ l h Ekv) as [HAl HhB].
  unfold attends, part_of, kv_pos, calcu_kv_tile_pos in *.
  pose proof (window_sees t k) as Hsees. pose proof window_range as Hw.
  destruct (calcu_sliding_window_size (sliding_window_size input) (r_causal r)) as [wl wr].
  rewrite Hsees, Es, Ee, Ek, Et, En. clear Hsees Es Ee Ek Et En c. injection Ekv as El Eh.
  destruct (aligned_in A B l h KP) as (D1 & D2 & _ & _ & D3); [lia..|].
  set (l' := Z.quot l align * align) in *. set (h' := Z.quot (h + align - 1) align * align) in *.
  clearbody l' h'. destruct KP as [_ Ho Hs He _]. pose proof (io_kv IO). unfold left_kv_pos, right_kv_pos.
  unfold q_tile_start_pos in *.
  destruct (Z.eqb_spec wl (-1)), (Z.eqb_spec wr (-1)); simpl in *; split; intros HH; lia.
Qed.

(** No call, nothing to attend to. *)
Lemma skip_attends A B q n l h t k : kv_part A B ->
  kv_pos input r A B (q_tile_start_pos r w off + q) (q_tile_start_pos r w off + q + n) = (l, h) -> h <= l ->
  ~ part_of A B q n t k.
Proof.
  intros KP Ekv Hlh. unfold part_of, kv_pos, calcu_kv_tile_pos in *.
  pose proof (window_sees t k) as Hsees.
  destruct (calcu_sliding_window_size (sliding_window_size input) (r_causal r)) as [wl wr].
  rewrite Hsees. injection Ekv as El Eh. unfold q_tile_start_pos in *.
  destruct (Z.eqb_spec wl (-1)), (Z.eqb_spec wr (-1)); simpl in *; intros HH; lia.
Qed.

(** The first call for a slot is flagged as such, the later ones are not. *)
Definition firsts (calls : list Call) : Prop :=
  forall l1 c l2, calls = l1 ++ c :: l2 ->
    (c_is_first_iter c = true <-> Forall (fun d => c_q_iter_idx d <> c_q_iter_idx c) l1).

Lemma firsts_snoc calls c : firsts calls ->
  (c_is_first_iter c = true <-> Forall (fun d => c_q_iter_idx d <> c_q_iter_idx c) calls) ->
  firsts (calls ++ [c]).
Proof.
  intros F Hc l1 d l2 E. destruct l2 as [|e l2 _] using rev_ind.
  - apply app_inj_tail in E as [-> ->]. done.
  - rewrite app_comm_cons, app_assoc in E. apply app_inj_tail in E as [-> ->]. by eapply F.
Qed.

(** The state of the loops of one query tile, which has attended to [P]. *)
Definition tile_state (base : list Call) (P : Z -> Z -> Prop) (st : list bool * list Call) : Prop :=
  exists new, st.2 = base ++ new /\ Z.of_nat (length st.1) = MaxQTileIterNum /\ counts input r new P /\
    Forall call_ok new /\ firsts new /\
    forall j, 0 <= j < MaxQTileIterNum -> exists b, rd st.1 j = Some b /\
      (b = true <-> Forall (fun d => c_q_iter_idx d <> j) new).

Lemma tile_state_iff base (P Q : Z -> Z -> Prop) st : (forall t k, P t k <-> Q t k) ->
  tile_state base P st -> tile_state base Q st.
Proof. intros H (new & E & Hl & C & F). exists new. split_and!; [done|done|by eapply counts_iff|apply F..]. Qed.

Lemma part_call_ok A B q l h c : kv_part A B -> 0 <= q < actual -> (iter_tok | q) ->
  kv_pos input r A B (q_tile_start_pos r w off + q)
    (q_tile_start_pos r w off + q + Z.min iter_tok (actual - q)) = (l, h) -> l < h ->
  c_kv_tile_start_pos c = Z.quot l align * align ->
  c_kv_tile_end_pos c = Z.quot (h + align - 1) align * align ->
  c_kv_end_pos c = wi_kv_split_pos_end w -> c_q_token_num c = Z.min iter_tok (actual - q) ->
  c_q_row c = q * wi_q_head_num w -> c_q_token c = tok0 + q -> c_q_iter_idx c = Z.quot q iter_tok -> call_ok c.
Proof.
  intros KP Hq Hdq Ekv Hlh Es Ee Ek En Er Et Ei. pose proof iter_tok_pos as Hi. pose proof item_group_ok as Hg.
  destruct (kv_pos_in A B _ _ l h Ekv) as [HAl HhB].
  destruct (aligned_in A B l h KP) as (D1 & D2 & D3 & D4 & D5); [lia..|].
  unfold group_ok in Hg. pose proof (io_kv IO). destruct KP as [_ ? ? ? ?].
  constructor; [..|done|by exists q]; rewrite ?Es, ?Ee, ?Ek, ?En, ?Er; try (split; (done || lia)); try lia.
  - split; [lia|]. unfold curr_max_q_token_num_per_iter in *. rewrite quot_pos in * by lia.
    pose proof (Z.mul_div_le (max_num_q_per_iter input) (wi_q_head_num w)). nia.
  - split; [nia|]. unfold rounded_q_head_tile_size. fold actual.
    pose proof (round_up_bounds (actual * wi_q_head_num w) (max_num_q_per_iter input) ltac:(nia) (ok_iter _ _ OK)) as [? _].
    nia.
Qed.

Lemma sub_tile_ok base P A B q st : tile_state base P st -> kv_part A B -> 0 <= q < actual -> (iter_tok | q) ->
  (forall t k, P t k -> ~ part_of A B q (Z.min iter_tok (actual - q)) t k) ->
  exists st', sub_tile cache_size input r w off A B q st = Some st' /\
    tile_state base (fun t k => P t k \/ part_of A B q (Z.min iter_tok (actual - q)) t k) st'.
Proof.
  intros (new & E & Hlen & C & F & Hf & Hflags) KP Hq Hdq Hdis. destruct st as [flags calls]. simpl in *. subst calls.
  unfold sub_tile. set (n := Z.min iter_tok (actual - q)) in *.
  destruct (kv_pos input r A B _ _) as [l h] eqn:Ekv. destruct (Z.leb_spec h l) as [Hle|Hlt].
  - eexists; split; [done|]. exists new. split_and!; try done.
    apply (counts_iff _ _ _ P); [|done]. intros t k. pose proof (skip_attends A B q n l h t k KP Ekv Hle). tauto.
  - unfold align_kv_tile_pos. pose proof (iter_idx_bound q Hq) as Hidx.
    destruct (Hflags _ Hidx) as (b & Hb & Hbf). rewrite Hb. cbn [mbind option_bind].
    destruct (wr_ok flags (Z.quot q iter_tok) false) as (flags' & -> & Hl' & Hs' & Ho'); [lia|].
    cbn [mbind option_bind]. set (c := {| c_kv_tile_start_pos := _ |}).
    eexists; split; [done|]. exists (new ++ [c]). simpl. split_and!.
    + by rewrite app_assoc.
    + lia.
    + apply (counts_app _ _ _ _ P (part_of A B q n)); [done| |done|done]. intros t k.
      pose proof (call_attends A B q n l h c t k KP Ekv Hlt eq_refl eq_refl eq_refl eq_refl eq_refl) as Hatt.
      unfold hits. split; intros HH.
      * rewrite filter_cons_True; [done|by apply Hatt].
      * rewrite filter_cons_False; [done|by rewrite Hatt].
    + apply Forall_app. split; [done|]. apply Forall_singleton. by eapply (part_call_ok A B q l h).
    + apply firsts_snoc; [done|]. done.
    + intros j Hj. destruct (decide (j = Z.quot q iter_tok)) as [->|Hne].
      * exists false. split; [done|]. rewrite Forall_app, Forall_singleton. split; [done|]. intros [_ ?]. done.
      * rewrite Ho' by done. destruct (Hflags j Hj) as (b' & ? & Hb'). exists b'. split; [done|].
        rewrite Hb', Forall_app, Forall_singleton. simpl. split; [intros ?; split; [done|congruence]|tauto].
Qed.

Lemma part_none A B t k : ~ part_of A B 0 0 t k.
Proof. unfold part_of. lia. Qed.

Lemma part_tokens A B q n t k : 0 <= q -> 0 <= n ->
  part_of A B 0 (q + n) t k <-> part_of A B 0 q t k \/ part_of A B q n t k.
Proof.
  intros Hq Hn. unfold part_of. split.
  - intros (H1 & H2 & H3 & H4). destruct (Z.lt_ge_cases t (tok0 + q)); [left|right]; split_and!; (done || lia).
  - intros [(H1 & H2 & H3 & H4)|(H1 & H2 & H3 & H4)]; split_and!; (done || lia).
Qed.

Lemma part_keys A B C q n t k : A <= B <= C ->
  part_of A C q n t k <-> part_of A B q n t k \/ part_of B C q n t k.
Proof.
  intros HB. unfold part_of. split.
  - intros (H1 & H2 & H3 & H4). destruct (Z.lt_ge_cases k B); [left|right]; split_and!; (done || lia).
  - intros [(H1 & H2 & H3 & H4)|(H1 & H2 & H3 & H4)]; split_and!; (done || lia).
Qed.

Lemma kv_tile_ok base P A B hi st : tile_state base P st -> kv_part A B -> B = Z.min (A + kv_size) hi ->
  (forall t k, P t k -> ~ part_of A B 0 actual t k) ->
  exists st', kv_tile cache_size input r w off hi A st = Some st' /\
    tile_state base (fun t k => P t k \/ part_of A B 0 actual t k) st'.
Proof.
  intros S KP HB Hdis. unfold kv_tile. rewrite <- HB. pose proof actual_bounds. pose proof iter_tok_pos.
  destruct (for_step_inv (fun q st => (iter_tok | q) /\ 0 <= q /\ tile_state base (fun t k => P t k \/ part_of A B 0 (Z.min q actual) t k) st)
    0 actual iter_tok (sub_tile cache_size input r w off A B) st) as (st' & q & E & _ & Hq & _ & _ & _ & S'); [done| | |].
  - split; [apply Z.divide_0_r|]. split; [lia|]. rewrite Z.min_l by lia. eapply tile_state_iff; [|done].
    intros t k. pose proof (part_none A B t k). tauto.
  - intros q s Hq (Hdq & _ & Hs). rewrite Z.min_l in Hs by lia. set (n := Z.min iter_tok (actual - q)).
    assert (forall t k, part_of A B 0 (q + n) t k <-> part_of A B 0 q t k \/ part_of A B q n t k) as Hsplit
      by (intros t k; apply part_tokens; lia).
    assert (forall t k, part_of A B q n t k -> part_of A B 0 actual t k /\ ~ part_of A B 0 q t k) as Hsub.
    { intros t k. unfold part_of. intros (H1 & H2 & H3 & H4). split; [split_and!; (done || lia)|lia]. }
    destruct (sub_tile_ok base _ A B q s Hs KP Hq Hdq) as (s' & -> & Hs').
    { intros t k Hp Hn. fold n in Hn. apply Hsub in Hn as [Hn1 Hn2]. destruct Hp as [Hp|Hp]; [|done]. by apply (Hdis t k). }
    eexists; split; [done|]. split; [by apply Z.divide_add_r|]. split; [lia|]. replace (Z.min (q + iter_tok) actual) with (q + n) by lia.
    eapply tile_state_iff; [|done]. intros t k. fold n. rewrite Hsplit. tauto.
  - exists st'. split; [done|]. rewrite Z.min_r in S' by lia. done.
Qed.

(** The context that the item and the windows leave for the query tile. *)
Lemma kv_range_ok lo hi : kv_range cache_size input r w off = (lo, hi) ->
  (align | lo) /\ (align | hi) /\ wi_kv_split_pos_start w <= lo /\ hi < wi_kv_split_pos_end w + align /\
  forall t k, tok0 <= t < tok0 + actual -> wi_kv_split_pos_start w <= k < wi_kv_split_pos_end w ->
    sees input r t k -> lo <= k < hi.
Proof.
  unfold kv_range. destruct (kv_pos input r _ _ _ _) as [l h] eqn:Ekv. unfold align_kv_tile_pos. intros [= <- <-].
  pose proof (ok_align _ _ OK) as Ha. pose proof (io_kv IO). pose proof (io_kv_start IO). pose proof actual_bounds as Hact.
  destruct (kv_pos_in _ _ _ _ l h Ekv) as [Hl Hh].
  assert (0 <= h) as Hh0.
  { unfold kv_pos, calcu_kv_tile_pos in Ekv. pose proof window_range as Hw.
    destruct (calcu_sliding_window_size _ _) as [wl wr]. injection Ekv as <- <-. pose proof (rk_len _ _ RK).
    pose proof (io_start IO). unfold q_tile_start_pos, q_start_pos. destruct (negb (wr =? -1)); lia. }
  destruct (round_down_bounds l align ltac:(lia) Ha) as (D1 & D2 & D3).
  destruct (round_up_bounds h align Hh0 Ha) as (U1 & U2). split_and!; try done.
  - destruct (Z.le_gt_cases (wi_kv_split_pos_start w) (Z.quot l align * align)) as [?|Hgt]; [done|].
    pose proof (divide_lt_le align _ _ Ha D3 (io_kv_align IO) Hgt). lia.
  - lia.
  - intros t k Ht Hk Hs. enough (l <= k < h) by lia.
    unfold kv_pos, calcu_kv_tile_pos in Ekv. pose proof (window_sees t k) as Hsees.
    destruct (calcu_sliding_window_size _ _) as [wl wr]. apply Hsees in Hs as (_ & H1 & H2). injection Ekv as <- <-.
    unfold q_tile_start_pos in *. split; [destruct (Z.eqb_spec wl (-1))|destruct (Z.eqb_spec wr (-1))]; simpl in *; lia.
Qed.

(** What one query tile is responsible for. *)
Definition tile_part (t k : Z) : Prop :=
  tok0 <= t < tok0 + actual /\ wi_kv_split_pos_start w <= k < wi_kv_split_pos_end w /\ sees input r t k.

Lemma tile_calls_ok base : exists new, tile_calls cache_size input r w off base = Some (base ++ new) /\
  counts input r new tile_part /\ Forall call_ok new /\ firsts new.
Proof.
  unfold tile_calls. destruct (kv_range cache_size input r w off) as [lo hi] eqn:Er.
  destruct (kv_range_ok lo hi Er) as (Hdlo & Hdhi & Hlo & Hhi & Hin).
  pose proof kv_size_ok as [Hds Hs]. pose proof (ok_align _ _ OK) as Ha. pose proof (io_kv_start IO).
  destruct (for_step_inv (fun A st => lo <= A /\ (align | A) /\
      tile_state base (part_of lo (Z.min A (Z.max lo hi)) 0 actual) st) lo hi kv_size
    (kv_tile cache_size input r w off hi) (replicate (Z.to_nat MaxQTileIterNum) true, base))
    as ([flags calls] & A & -> & _ & HA & _ & _ & _ & new & E & _ & C & F & Hf & _); [done| | |].
  - split_and!; [lia|done|]. exists []. cbn [fst snd]. rewrite app_nil_r. split_and!; try done.
    + apply counts_nil. intros t k. unfold part_of. lia.
    + intros l1 c l2 Habs. by destruct l1.
    + intros j Hj. exists true. rewrite rd_lookup by lia. split; [|done].
      apply lookup_replicate. split; [done|]. unfold MaxQTileIterNum in *. lia.
  - intros A st HA (_ & HdA & S). rewrite Z.min_l in S by lia.
    pose proof (divide_lt_le align A hi Ha HdA Hdhi ltac:(lia)).
    assert (kv_part A (Z.min (A + kv_size) hi)) as KP.
    { constructor; [split; [done|]|lia..]. apply divide_min; [by apply Z.divide_add_r|done]. }
    destruct (kv_tile_ok base _ A _ hi st S KP eq_refl) as (st' & -> & S').
    { intros t k. unfold part_of. lia. }
    eexists; split; [done|]. split_and!; [lia|by apply Z.divide_add_r|]. eapply tile_state_iff; [|done].
    intros t k. replace (Z.min (A + kv_size) (Z.max lo hi)) with (Z.min (A + kv_size) hi) by lia.
    by rewrite (part_keys lo A (Z.min (A + kv_size) hi)) by lia.
  - simpl in E. subst calls. cbn [mbind option_bind]. exists new. split_and!; try done.
    eapply counts_iff; [|done]. intros t k. unfold tile_part, part_of. split.
    + intros (H1 & _ & H3 & H4). split_and!; (done || lia).
    + intros (H1 & H2 & H3). specialize (Hin t k H1 H2 H3). split_and!; (done || lia).
Qed.

End ItemCorrect.

Section Run.
Context (thread_num cache_size : Z) (input : ScheduleInput) (OK : input_ok thread_num input).

Abbreviation align := (kv_block_alignment input).

(** What an item is responsible for. *)
Definition item_part (r : Request) (w : AttentionWorkItemGroup) (t k : Z) : Prop :=
  wi_q_token_id_start w <= t < wi_q_token_id_start w + wi_q_token_num w /\
  wi_kv_split_pos_start w <= k < wi_kv_split_pos_end w /\ sees input r t k.

(** The calls of an item come tile by tile, within bounds and correctly flagged. *)
Definition tiles_ok (r : Request) (w : AttentionWorkItemGroup) (calls : list Call) : Prop :=
  exists tiles, calls = concat tiles /\ Forall (fun tile => exists off, tile_start cache_size input w off /\
    Forall (call_ok cache_size input r w off) tile /\ firsts tile) tiles.

Lemma item_calls_ok r w : request_ok input r -> item_ok input r w ->
  exists calls, item_calls cache_size input r w = Some calls /\
    counts input r calls (item_part r w) /\ tiles_ok r w calls.
Proof.
  intros RK IO. unfold item_calls. pose proof (tile_token_num_pos _ cache_size _ OK w (item_group_ok _ r RK w IO)) as Hs.
  set (step := tile_token_num cache_size input w) in *.
  destruct (for_step_inv (fun i calls => (step | i) /\ tiles_ok r w calls /\
      counts input r calls (fun t k => item_part r w t k /\ t < wi_q_token_id_start w + i))
    0 (wi_q_token_num w) step (tile_calls cache_size input r w) []) as (calls & i & E & _ & Hi & _ & _ & T & C); [done| | |].
  - split_and!; [apply Z.divide_0_r|by exists []|]. apply counts_nil. intros t k. unfold item_part. lia.
  - intros off calls Hoff (Hd & (tiles & -> & T) & C).
    destruct (tile_calls_ok thread_num cache_size input OK r RK w IO off Hoff (concat tiles)) as (new & -> & C' & F & Hf).
    eexists; split; [done|]. split_and!; [by apply Z.divide_add_r| |].
    + exists (tiles ++ [new]). rewrite concat_app. simpl. rewrite app_nil_r. split; [done|].
      apply Forall_app. split; [done|]. apply Forall_singleton. exists off. by split_and!.
    + eapply counts_app; [done|done| |].
      * intros t k [_ ?]. unfold tile_part. lia.
      * intros t k. unfold item_part, tile_part, actual_q_token_num. fold step. split.
        -- intros ((H1 & H2 & H3) & H4). destruct (Z.lt_ge_cases t (wi_q_token_id_start w + off)); [left|right];
             split_and!; (done || lia).
        -- intros [((H1 & H2 & H3) & H4)|(H1 & H2 & H3)]; split_and!; (done || lia).
  - exists calls. split_and!; [done| |done]. eapply counts_iff; [|done]. intros t k. unfold item_part. split; [tauto|].
    intros (H1 & H2 & H3). split_and!; (done || lia).
Qed.

(** ** The work items of a schedule are well formed *)

Lemma schedule_item_ok m w : schedule thread_num cache_size input = Some (Ok m) -> w ∈ workitem_groups m ->
  exists r, request input (wi_req_id w) = Some r /\ request_ok input r /\ item_ok input r w.
Proof.
  intros E Hw. destruct (schedule_parts thread_num cache_size input OK)
    as (p & css & x & k & _ & _ & [[_ E']|(m' & size & E' & P)]); [congruence|].
  rewrite E in E'. injection E' as <-. pose proof (pt_cut _ _ _ _ _ _ _ _ _ P) as CUT.
  rewrite (pt_workitems _ _ _ _ _ _ _ _ _ P), (proj1 (pt_expanded _ _ _ _ _ _ _ _ _ P)) in Hw.
  assert (exists hd rid it, it ∈ items p /\ w = group_of input hd rid it) as (hd & rid & it & Hit & ->).
  { revert Hw. generalize 0. induction (heads p k) as [|h hs IH]; intros n; simpl; [by intros ?%elem_of_nil|].
    intros [(it & -> & Hit)%list_elem_of_fmap|H]%elem_of_app; [|by eapply IH].
    apply list_elem_of_filter in Hit as [_ Hit]. by eexists _, _, it. }
  rewrite (cut_items _ _ _ _ CUT) in Hit.
  assert (exists c red, 0 <= red /\ c ∈ concat css /\ it ∈ chunk_items input red c) as (c & red & Hred & Hc & Hin).
  { assert (forall n, 0 <= n -> it ∈ items_of input n (concat css) -> exists c red, 0 <= red /\ c ∈ concat css /\ it ∈ chunk_items input red c) as G; [clear Hit|by apply (G 0)].
    induction (concat css) as [|c cs IH]; intros n Hn; simpl; [by intros ?%elem_of_nil|].
    intros [H|H]%elem_of_app; [exists c, n; split_and!; [done|by left|done]|].
    destruct (IH (n + Z.of_nat (length (chunk_reds input c))) ltac:(lia) H) as (d & red & ? & ? & ?). exists d, red. split_and!; [done|by right|done]. }
  destruct (cut_chunk _ _ OK p css c CUT Hc) as (i & Hi & Er & Eid & RK & Hok & H0 & Hend).
  pose proof (chunk_num_pos _ c RK Hok) as Hnum. pose proof (rk_len _ _ RK) as Hlen.
  exists (chunk_req c). destruct c as [r tok num total|r tok lo cuts hi]; simpl in *.
  - apply list_elem_of_singleton in Hin as ->. simpl. rewrite Eid. split_and!; [done|done|].
    constructor; simpl; try lia. apply Z.divide_0_r.
  - destruct Hok as (_ & Ht & Hkv & _ & Hinc). pose proof (tile_kv_ok _ _ OK r RK tok Ht) as Hk. rewrite Hkv in Hk.
    destruct Hk as (Hlo & Hdlo & Hdhi & Hhi & _).
    pose proof (pieces_bounds _ _ OK r tok red 0 lo cuts hi ltac:(lia) Hdlo Hdhi Hhi Hinc) as B.
    rewrite Forall_forall in B. destruct (B it Hin) as (B1 & B2 & B3 & B4 & B5).
    assert (pi_req_id it = r_req_id r /\ pi_group it = r_group r) as [E1 E2].
    { destruct (items_of_elem input red [Split r tok lo cuts hi] it) as (c & Hc' & ?); [simpl; by rewrite app_nil_r|].
      by apply list_elem_of_singleton in Hc' as ->. }
    destruct (pieces_elem _ _ _ _ _ _ _ _ _ Hin) as (Hp & _ & Hl).
    simpl. rewrite E1, Eid. split_and!; [done|done|]. constructor; simpl; rewrite ?B4, ?B5; try (done || lia).
    rewrite Hp. destruct (Z.leb_spec 0 red); lia.
Qed.

(** ** Counting over all items *)

(** Item [w] runs, with these calls. *)
Definition good (w : AttentionWorkItemGroup) (calls : list Call) : Prop :=
  run_item cache_size input w = Some (map (pair w) calls) /\
  exists r, request input (wi_req_id w) = Some r /\ item_ok input r w /\
    counts input r calls (item_part r w) /\ tiles_ok r w calls.

Lemma run_item_ok m w : schedule thread_num cache_size input = Some (Ok m) -> w ∈ workitem_groups m ->
  exists calls, good w calls.
Proof.
  intros E Hw. destruct (schedule_item_ok m w E Hw) as (r & Er & RK & IO).
  destruct (item_calls_ok r w RK IO) as (calls & Ec & C & T). exists calls. unfold good, run_item.
  rewrite Er. cbn [mbind option_bind]. rewrite Ec. split; [done|]. by exists r.
Qed.

Definition runs_of (ws : list AttentionWorkItemGroup) (css : list (list Call)) :=
  zip_with (fun w calls => map (pair w) calls) ws css.

Lemma runs_ok ws : (forall w, w ∈ ws -> exists calls, good w calls) ->
  exists css, mapM (run_item cache_size input) ws = Some (runs_of ws css) /\ Forall2 good ws css.
Proof.
  induction ws as [|w ws IH]; intros H; [by exists []|].
  destruct (H w) as [calls G]; [by left|]. destruct IH as (css & E & F); [intros v Hv; apply H; by right|].
  exists (calls :: css). split; [|by constructor]. simpl. rewrite (proj1 G). simpl. by rewrite E.
Qed.

(** The calls that attend to key [k] for token [t] of request [i] and head [h]. *)
Definition attention (i t h k : Z) (r : Request) (x : AttentionWorkItemGroup * Call) : Prop :=
  takes x.1 i t h /\ attends input r x.2 t k.
#[export] Instance attention_dec i t h k r x : Decision (attention i t h k r x).
Proof. unfold attention. apply _. Defined.

Abbreviation has_key k := (fun w => wi_kv_split_pos_start w <= k < wi_kv_split_pos_end w).

Lemma run_count w calls i t h k r : good w calls -> request input i = Some r ->
  length (filter (attention i t h k r) (map (pair w) calls)) =
  if decide (takes w i t h) then hits input r calls t k else 0%nat.
Proof.
  intros _ _. unfold hits. destruct (decide (takes w i t h)) as [Ht|Ht]; induction calls as [|c calls IH]; try done; simpl.
  - destruct (decide (attends input r c t k)) as [Ha|Ha].
    + rewrite !filter_cons_True by done. simpl. by rewrite IH.
    + rewrite !filter_cons_False by (done || by intros [_ ?]). by rewrite IH.
  - rewrite filter_cons_False by (by intros [? _]). done.
Qed.

Lemma runs_count ws css i t h k r : Forall2 good ws css -> request input i = Some r ->
  (sees input r t k ->
    length (filter (attention i t h k r) (concat (runs_of ws css))) =
    length (filter (has_key k) (filter (fun w => takes w i t h) ws))) /\
  (~ sees input r t k -> length (filter (attention i t h k r) (concat (runs_of ws css))) = 0%nat).
Proof.
  intros F Hr. induction F as [|w calls ws css G F [IH1 IH2]]; [done|].
  unfold runs_of in *. simpl. rewrite filter_app, length_app, (run_count w calls i t h k r G Hr), filter_cons.
  destruct (decide (takes w i t h)) as [Ht|Ht]; [|done].
  destruct G as (_ & r' & Hr' & _ & C & _). destruct Ht as (Hi & Htok & _). rewrite Hi, Hr in Hr'. simplify_eq.
  destruct (C t k) as [C1 C2]. unfold item_part in *. split.
  - intros Hs. rewrite IH1, filter_cons by done. case_decide as Hk.
    + rewrite C1 by done. done.
    + rewrite C2 by tauto. done.
  - intros Hs. rewrite IH2, C2 by tauto. done.
Qed.

Lemma pieces_key r tok red lid lo cuts hi hd rid k : increasing input lo cuts hi -> k < r_seq_len r ->
  length (filter (has_key k) (group_of input hd rid <$> pieces input r tok red lid lo cuts hi)) =
  if decide (lo <= k) then 1%nat else 0%nat.
Proof.
  intros Hinc Hk. revert lid lo Hinc. induction cuts as [|p cuts IH]; intros lid lo; cbn [pieces increasing].
  - intros _. rewrite fmap_cons, filter_cons. simpl. repeat case_decide; simpl; lia.
  - intros (Hp & _ & Hinc). rewrite fmap_cons, filter_cons. specialize (IH (lid + 1) p Hinc).
    destruct (decide (has_key k (group_of input hd rid (item r tok (q_tile_token_num input r tok) lo p (p - lo) red lid))))
      as [H3|H3]; simpl in H3; cbn [length]; rewrite IH; repeat case_decide; lia.
Qed.

End Run.

#[export] Instance sees_dec input r t k : Decision (sees input r t k).
Proof. unfold sees. apply _. Defined.

(** [C3] Scheduler and kernel together compute exact attention: over the calls that the
    work items of a schedule make, every key that the causal and sliding-window rules
    let a query token see is left by the mask in exactly one call for this token and
    head, and a key that they hide in none. *)
Theorem attention_exact thread_num cache_size input m : input_ok thread_num input ->
  schedule thread_num cache_size input = Some (Ok m) ->
  exists runs, mapM (run_item cache_size input) (workitem_groups m) = Some runs /\
  forall i t h k r, 0 <= i < num_reqs input ->
    0 <= t < at_ (query_start_loc input) (i + 1) - at_ (query_start_loc input) i ->
    0 <= h < num_heads_q input -> request input i = Some r ->
    length (filter (attention input i t h k r) (concat runs)) = if decide (sees input r t k) then 1%nat else 0%nat.
Proof.
  intros OK E. destruct (runs_ok cache_size input (workitem_groups m)) as (css & Er & F).
  { intros w Hw. by apply (run_item_ok thread_num cache_size input OK m). }
  exists (runs_of (workitem_groups m) css). split; [done|]. intros i t h k r Hi Ht Hh Hr.
  destruct (runs_count cache_size input _ _ i t h k r F Hr) as [C1 C2].
  case_decide as Hs; [|by apply C2]. rewrite C1 by done.
  destruct (schedule_parts thread_num cache_size input OK)
    as (p & css' & x & n & _ & _ & [[_ E']|(m' & size & E' & P)]); [congruence|].
  rewrite E in E'. injection E' as <-.
  destruct (parts_takes _ _ _ OK m p css' x n size i t h P Hi Ht Hh) as (r' & Hr' & H). simplify_eq.
  assert (0 <= k < r_seq_len r) as Hk by apply Hs. cbv zeta in H.
  destruct H as [(tok & num & total & Hws)|
    (tok & lo & hi & cuts & red & rid & off & Htok & Htok' & Hkv & Hne & Hinc & _ & Hws & _)]; rewrite Hws.
  - by rewrite filter_cons_True, filter_nil.
  - rewrite pieces_key by (done || lia). rewrite decide_True; [done|].
    destruct (request_ok_ex _ _ OK i Hi) as (r' & E' & RK & _ & Eq & _). simplify_eq.
    pose proof (tile_kv_ok _ _ OK r RK tok ltac:(lia)) as Hkv'. rewrite Hkv in Hkv'.
    destruct Hkv' as (_ & _ & _ & _ & Hin). apply (Hin t k); [lia|done].
Qed.

(** A key that the third request sees on head 3, and one that it does not. *)
Lemma attention_exact_witness : exists m runs r,
  schedule 4 1048576 sample_input = Some (Ok m) /\ request sample_input 2 = Some r /\
  mapM (run_item 1048576 sample_input) (workitem_groups m) = Some runs /\
  length (filter (attention sample_input 2 0 3 2000 r) (concat runs)) = 1%nat /\
  length (filter (attention sample_input 2 0 3 5001 r) (concat runs)) = 0%nat.
Proof.
  assert (exists m, schedule 4 1048576 sample_input = Some (Ok m)) as [m E] by (eexists; vm_compute; reflexivity).
  assert (exists r, request sample_input 2 = Some r /\ bool_decide (sees sample_input r 0 2000) = true /\
    bool_decide (sees sample_input r 0 5001) = false) as (r & Er & S1 & S2) by (eexists; repeat split; vm_compute; reflexivity).
  destruct (attention_exact 4 1048576 sample_input m sample_input_ok E) as (runs & R & H).
  assert (0 <= 2 < num_reqs sample_input /\ 0 <= 3 < num_heads_q sample_input) as [H1 H3] by (simpl; lia).
  assert (0 <= 0 < at_ (query_start_loc sample_input) (2 + 1) - at_ (query_start_loc sample_input) 2) as H2
    by (vm_compute; split; [discriminate|reflexivity]).
  exists m, runs, r. split; [done|]. split; [done|]. split; [done|]. split.
  - rewrite (H 2 0 3 2000 r H1 H2 H3 Er). apply bool_decide_eq_true in S1. by rewrite decide_True.
  - rewrite (H 2 0 3 5001 r H1 H2 H3 Er). apply bool_decide_eq_false in S2. by rewrite decide_False.
Defined.

(** ** The mask, cell by cell *)

Lemma for_range_fill {A} (v : A) d n (l : list A) : 0 <= d -> d + Z.max 0 n <= Z.of_nat (length l) ->
  exists l', for_range 0 n (fun i l => wr l (d + i) v) l = Some l' /\ length l' = length l /\
    forall j, rd l' j = if decide (d <= j < d + n) then Some v else rd l j.
Proof.
  intros Hd Hn. destruct (Z.le_gt_cases 0 n) as [Hp|Hneg].
  - destruct (for_range_inv (fun i l' => length l' = length l /\
        forall j, rd l' j = if decide (d <= j < d + i) then Some v else rd l j) 0 n
      (fun i l => wr l (d + i) v) l) as (l' & -> & Hl & H); [done| | |by exists l'].
    + split; [done|]. intros j. by rewrite decide_False by lia.
    + intros i l1 Hi [Hl H]. destruct (wr_ok l1 (d + i) v) as (l2 & -> & Hl2 & Hs & Ho); [lia|].
      eexists; split; [done|]. split; [lia|]. intros j. destruct (decide (j = d + i)) as [->|Hne].
      * by rewrite Hs, decide_True by lia.
      * rewrite Ho, H by done. repeat case_decide; (done || lia).
  - exists l. unfold for_range. rewrite seqZ_nil by lia. split_and!; [done|done|].
    intros j. by rewrite decide_False by lia.
Qed.

(** Two cases that cannot both hold, up to a bound. *)
Ltac clash :=
  exfalso; first [lia | match goal with H : ~ (_ /\ _) |- False => apply H; split; [nia|tauto] end
                 | match goal with H : _ /\ ~ _ |- False => destruct H as [? H]; first [lia|tauto] end].

Section MaskCorrect.
Context {L : Type} (neg_inf : L) (kv_end lo hi wl wr : Z).
Context (Hend : lo < kv_end) (Hlo : lo <= hi).

Abbreviation stride := (hi - lo).

(** The column [col] is left alone in the row of a token at [pos]. *)
Definition unmasked (pos col : Z) : Prop :=
  left_kv_pos lo hi wl pos <= lo + col < right_kv_pos kv_end lo hi wr pos.
#[export] Instance unmasked_dec pos col : Decision (unmasked pos col).
Proof. unfold unmasked. apply _. Defined.

Lemma mask_positions pos : lo <= left_kv_pos lo hi wl pos <= hi /\ lo <= right_kv_pos kv_end lo hi wr pos <= hi.
Proof. unfold left_kv_pos, right_kv_pos. destruct (negb (wl =? -1)), (negb (wr =? -1)); lia. Qed.

Lemma mask_row_ok pos off l : 0 <= off -> off + stride <= Z.of_nat (length l) ->
  exists l', mask_row neg_inf kv_end lo hi wl wr pos off l = Some l' /\ length l' = length l /\
    forall j, rd l' j = if decide (off <= j < off + stride /\ ~ unmasked pos (j - off)) then Some neg_inf else rd l j.
Proof.
  intros Hoff Hlen. unfold mask_row. pose proof (mask_positions pos) as [HL HR].
  destruct (for_range_fill neg_inf off (left_kv_pos lo hi wl pos - lo) l) as (l1 & -> & Hl1 & H1); [lia..|].
  cbn [mbind option_bind].
  destruct (for_range_fill neg_inf (off + right_kv_pos kv_end lo hi wr pos - lo)
    (hi - right_kv_pos kv_end lo hi wr pos) l1) as (l2 & -> & Hl2 & H2); [lia..|].
  exists l2. split_and!; [done|lia|]. intros j. rewrite H2, H1. unfold unmasked. repeat case_decide; (done || lia).
Qed.

Lemma div_row h t heads : 0 <= h < heads -> (t * heads + h) / heads = t.
Proof. intros H. rewrite Z.div_add_l by lia. rewrite Z.div_small by lia. lia. Qed.

(** Rows are numbered by token, then head. *)
Definition masked_rows (pos0 heads rows n : Z) (buf l : list L) : Prop :=
  length l = length buf /\ forall row col, 0 <= row < rows -> 0 <= col < stride ->
    rd l (row * stride + col) =
    if decide (row < n /\ ~ unmasked (pos0 + row / heads) col) then Some neg_inf else rd buf (row * stride + col).

Lemma mask_next pos0 heads rows n t buf l : 0 <= n < rows -> n / heads = t ->
  rows * stride <= Z.of_nat (length buf) -> masked_rows pos0 heads rows n buf l ->
  exists l', mask_row neg_inf kv_end lo hi wl wr (pos0 + t) (n * stride) l = Some l' /\
    masked_rows pos0 heads rows (n + 1) buf l'.
Proof.
  intros Hn Ht Hlen [Hl H]. destruct (mask_row_ok (pos0 + t) (n * stride) l) as (l' & E & Hl' & H'); [nia..|].
  exists l'. split; [done|]. split; [lia|]. intros row col Hrow Hcol. rewrite H'.
  destruct (Z.lt_trichotomy row n) as [Hlt|[->|Hgt]].
  - rewrite decide_False by nia. rewrite (H row col) by lia. repeat case_decide; try done; clash.
  - replace (n * stride + col - n * stride) with col by lia. rewrite Ht, (H n col) by lia.
    repeat case_decide; try done; clash.
  - rewrite decide_False by nia. rewrite (H row col) by lia. repeat case_decide; try done; clash.
Qed.

End MaskCorrect.

(** The mask of a call, whose context tile [lo, hi) starts before the end of the
    sequence: in the row of every token and head it leaves exactly the columns between
    the two window positions of the token as they were, sets all the others to minus
    infinity, and touches nothing outside the buffer. *)
Theorem apply_mask_spec {L} (neg_inf : L) kv_end lo hi wl wr pos0 tokens heads (buf : list L) :
  lo < kv_end -> lo <= hi -> 0 <= tokens -> 0 <= heads ->
  tokens * heads * (hi - lo) <= Z.of_nat (length buf) ->
  exists buf', apply_mask neg_inf kv_end lo hi wl wr (hi - lo) pos0 tokens heads buf = Some buf' /\
    length buf' = length buf /\
    forall t h col, 0 <= t < tokens -> 0 <= h < heads -> 0 <= col < hi - lo ->
      rd buf' ((t * heads + h) * (hi - lo) + col) =
      if decide (unmasked kv_end lo hi wl wr (pos0 + t) col)
      then rd buf ((t * heads + h) * (hi - lo) + col) else Some neg_inf.
Proof.
  intros Hend Hlo Ht0 Hh0 Hlen. unfold apply_mask. set (stride := hi - lo) in *.
  set (M := masked_rows neg_inf kv_end lo hi wl wr pos0 heads (tokens * heads)).
  destruct (for_range_inv (fun t '(l, off) => off = t * heads * stride /\ M (t * heads) buf l) 0 tokens
    (fun token_idx s => for_range 0 heads (fun _ '(logits, off) =>
      logits ← mask_row neg_inf kv_end lo hi wl wr (pos0 + token_idx) off logits;
      Some (logits, off + stride)) s) (buf, 0)) as ([l off] & -> & _ & Hl & H); [lia| | |].
  - split; [lia|]. split; [done|]. intros row col Hr Hc. by rewrite decide_False by lia.
  - intros t [l off] Ht [-> HM].
    destruct (for_range_inv (fun h '(l, off) => off = (t * heads + h) * stride /\ M (t * heads + h) buf l) 0 heads
      (fun _ '(logits, off) => logits ← mask_row neg_inf kv_end lo hi wl wr (pos0 + t) off logits;
        Some (logits, off + stride)) (l, t * heads * stride)) as ([l' off'] & -> & -> & HM'); [lia| | |].
    + rewrite Z.add_0_r. by split.
    + intros h [l1 o1] Hh [-> HM1].
      destruct (mask_next neg_inf kv_end lo hi wl wr Hend Hlo pos0 heads (tokens * heads) (t * heads + h) t buf l1)
        as (l2 & E2 & HM2); [nia|by apply div_row|done|done|]. fold stride in E2. rewrite E2.
      cbn [mbind option_bind]. eexists; split; [done|]. rewrite Z.add_assoc. split; [lia|done].
    + eexists; split; [done|]. replace ((t + 1) * heads) with (t * heads + heads) by lia. by split.
  - cbn [mbind option_bind]. exists l. split_and!; [done|done|]. intros t h col Ht Hh Hcol.
    rewrite H by nia. rewrite (div_row h t heads Hh). repeat case_decide; try done; clash.
Qed.

Lemma apply_mask_spec_witness :
  apply_mask false 6 4 8 2 0 4 5 2 1 [true; true; true; true; true; true; true; true]
    = Some [true; true; false; false; true; true; false; false] /\
  exists buf', apply_mask false 6 4 8 2 0 4 5 2 1 [true; true; true; true; true; true; true; true] = Some buf' /\
    rd buf' ((1 * 1 + 0) * 4 + 2) = Some false.
Proof.
  split; [reflexivity|].
  destruct (apply_mask_spec false 6 4 8 2 0 5 2 1 [true; true; true; true; true; true; true; true])
    as (buf' & E & _ & H); [lia..|vm_compute; discriminate|].
  exists buf'. split; [exact E|]. specialize (H 1 0 2 ltac:(lia) ltac:(lia) ltac:(lia)).
  rewrite decide_False in H; [exact H|]. vm_compute. intros [_ Habs]. discriminate.
Defined.

(** ** The pages, group by group *)

Section PagesCorrect.
Context (a gpb gs n : Z) (bt : list Z).
Context (Ha : 1 <= a) (Hgpb : 1 <= gpb) (Hgs : 0 <= gs) (Hn : 1 <= n).

(** Group [i] of the tile is group [gs + i] of the sequence. *)
Definition gemm_at (i : Z) : Gemm :=
  {| g_block := at_ bt ((gs + i) / gpb); g_group := (gs + i) mod gpb; g_column := i * a |}.

(** Groups of the tile before block [b]. *)
Abbreviation before b := (Z.max 0 (Z.min n (b * gpb - gs))).
Abbreviation offset b := (Z.max 0 (gs - b * gpb)).

Definition walk_at (b : Z) : Walk := {|
  w_group_offset := offset b; w_group_num_in_block := gpb - offset b;
  w_remaining := n - before b; w_column := before b * a;
  w_gemms := gemm_at <$> seqZ 0 (before b) |}.

Lemma walk_block_ok b : gs / gpb <= b -> 0 <= b < Z.of_nat (length bt) ->
  walk_block (gpb * a) a bt b (walk_at b) = Some (walk_at (b + 1)).
Proof.
  intros Hb Hlen. unfold walk_block. rewrite rd_at by done. cbn [mbind option_bind].
  unfold walk_at at 1 2 3 4 5 6 7 8. simpl. f_equal. unfold walk_at, token_group_num_per_block.
  rewrite Z.quot_mul by lia. pose proof (Z.div_mod gs gpb ltac:(lia)). pose proof (Z.mod_pos_bound gs gpb ltac:(lia)).
  assert (gs < (b + 1) * gpb) as Hlt by nia. set (cur := Z.min (n - before b) (gpb - offset b)).
  assert (before (b + 1) = before b + cur) as Hb' by (unfold cur; nia).
  assert (0 <= cur) as Hcur by (unfold cur; lia). rewrite Hb'. f_equal; try nia.
  rewrite seqZ_app, fmap_app by lia. f_equal. rewrite Z.add_0_l.
  replace (seqZ (before b) cur) with (Z.add (before b) <$> seqZ 0 cur) by (rewrite fmap_add_seqZ; f_equal; lia).
  rewrite <- list_fmap_compose. apply list_fmap_ext. intros k g Hg. simpl.
  apply lookup_seqZ in Hg as [-> Hk]. unfold gemm_at. rewrite Z.add_0_l.
  assert (gs + (before b + Z.of_nat k) = b * gpb + (offset b + Z.of_nat k)) as -> by (unfold cur in Hk; nia).
  rewrite Z.div_add_l, Z.div_small by (unfold cur in Hk; nia).
  rewrite Z.add_comm with (n := b * gpb), Z.mod_add, Z.mod_small by (unfold cur in Hk; nia).
  f_equal; [f_equal; lia|lia].
Qed.

Lemma walk_groups : (gs + n - 1) / gpb < Z.of_nat (length bt) ->
  walk_pages (gpb * a) a bt (gs * a) (n * a) = Some (gemm_at <$> seqZ 0 n).
Proof.
  intros Hlen. unfold walk_pages, token_group_num, token_group_num_per_block, start_block_idx,
    start_block_group_offset, end_block_idx.
  pose proof (Z.div_mod gs gpb ltac:(lia)). pose proof (Z.mod_pos_bound gs gpb ltac:(lia)).
  pose proof (Z.div_pos gs gpb ltac:(lia) ltac:(lia)).
  rewrite !Z.quot_mul, Z.quot_mul_cancel_r by lia. rewrite Z.rem_mod_nonneg, Zmult_mod_distr_r, Z.quot_mul by nia.
  rewrite quot_pos by lia.
  assert (Z.quot (gs * a + n * a - 1) (gpb * a) = (gs + n - 1) / gpb) as ->.
  { rewrite quot_pos, (Z.mul_comm gpb), <- Z.div_div by nia. f_equal.
    symmetry. apply (Z.div_unique_pos _ _ _ (a - 1)); lia. }
  pose proof (Z.div_mod (gs + n - 1) gpb ltac:(lia)). pose proof (Z.mod_pos_bound (gs + n - 1) gpb ltac:(lia)).
  set (last := (gs + n - 1) / gpb) in *.
  assert (gs / gpb <= last) by (apply Z.div_le_mono; lia).
  destruct (for_range_inv (fun b w => w = walk_at b) (gs / gpb) (last + 1) (walk_block (gpb * a) a bt)
    {| w_group_offset := gs mod gpb; w_group_num_in_block := gpb - gs mod gpb; w_remaining := n;
       w_column := 0; w_gemms := [] |}) as (w & -> & ->); [lia| | |].
  - unfold walk_at. replace (before (gs / gpb)) with 0 by nia. f_equal; lia.
  - intros b w Hb ->. rewrite walk_block_ok by lia. by eexists.
  - cbn [mbind option_bind walk_at w_gemms]. by replace (before (last + 1)) with n by nia.
Qed.

End PagesCorrect.

(** The walk over the cache pages of a context tile: for a tile that starts and ends
    at multiples of the alignment, in blocks that are multiples of it, the products are
    formed group by group in order of position, each from the physical block that the
    table gives for that position and at its offset inside the block, and go to the
    columns of the logits in the same order; the table is never read past the block of
    the last position. *)
Theorem walk_pages_spec block_size a bt pos len : 1 <= a -> (a | block_size) -> 1 <= block_size ->
  (a | pos) -> (a | len) -> 0 <= pos -> 1 <= len -> (pos + len - 1) / block_size < Z.of_nat (length bt) ->
  walk_pages block_size a bt pos len = Some ((fun i =>
    {| g_block := at_ bt ((pos + i * a) / block_size);
       g_group := (pos + i * a) mod block_size / a; g_column := i * a |}) <$> seqZ 0 (len / a)).
Proof.
  intros Ha [gpb ->] Hb [gs ->] [n ->] Hp Hl Hlen.
  assert (1 <= gpb /\ 0 <= gs /\ 1 <= n) as (H1 & H2 & H3) by nia.
  rewrite (walk_groups a gpb gs n bt Ha H1 H2 H3).
  - rewrite Z.div_mul by lia. f_equal. apply list_fmap_ext. intros k i _. unfold gemm_at.
    rewrite <- Z.mul_add_distr_r, Z.div_mul_cancel_r, Zmult_mod_distr_r, Z.div_mul by lia. done.
  - replace ((gs * a + n * a - 1) / (gpb * a)) with ((gs + n - 1) / gpb) in Hlen; [done|].
    rewrite (Z.mul_comm gpb a), <- Z.div_div by lia. f_equal.
    apply (Z.div_unique_pos _ _ _ (a - 1)); lia.
Qed.

Lemma walk_pages_spec_witness :
  walk_pages 64 32 [7; 9; 4] 32 96 = Some [
    {| g_block := 7; g_group := 1; g_column := 0 |}; {| g_block := 9; g_group := 0; g_column := 32 |};
    {| g_block := 9; g_group := 1; g_column := 64 |}].
Proof.
  rewrite (walk_pages_spec 64 32 [7; 9; 4] 32 96); [reflexivity|lia|by exists 2|lia|by exists 1|by exists 3|lia|lia|].
  vm_compute. reflexivity.
Defined.

End Kernel.
