(* ===== verification/AttnTile.v ===== *)
(** * The CPU attention kernel: the arithmetic of a tile

    [csrc/cpu/cpu_attn_vec.hpp] and the class [Attention] of [csrc/cpu/cpu_attn_impl.hpp]:
    the products of queries with keys and of probabilities with values on the portable
    vector type, the soft cap, the linear bias, the mask and the running softmax, over
    any float arithmetic and element type of the cache.  The build is the portable one:
    [exp] and [tanh] go through the buffer, element by element, and the probabilities
    take the place of the logits. *)

From S2P Require Import Prelude Arrays Counting Stores MicroGemm AttnKernel.

#[local] Open Scope Z_scope.

Module Tile.
Import Counting MicroGemm.
Import (hints) Kernel.

(** ** Vectors *)

Section Vectors.
Context {F : Type} `{FloatOps F}.

(** [std::numeric_limits<float>::lowest()] *)
Definition lowest : F := litf (- (2 ^ 128 - 2 ^ 104)) 1.

Definition vec_sub : list F -> list F -> list F := zip_with sub.
Definition reduce_sum (v : list F) : F := foldl add (litf 0 1) v.
Definition reduce_max (v : list F) : F := foldl (fun result x => if ltb x result then result else x) lowest v.

(** A vector is saved, a function of the C++ library replaces the elements in memory, and
    the vector is loaded again. *)
Definition through (fn : F -> F) (p : Z) (vec : list F) (buf : list F) : option (list F * list F) :=
  buf ← wr_range buf p vec;
  buf ← for_range 0 16 (fun k buf => x ← rd buf (p + k); wr buf (p + k) (fn x)) buf;
  vec ← rd_range buf p 16;
  Some (vec, buf).

End Vectors.

(** ** [AttentionImpl<ISA::VEC>] *)

Definition BlockSizeAlignment : Z := 32.
Definition HeadDimAlignment : Z := 32.
Definition MaxQHeadNumPerIteration : Z := 8.

(** The element type of the cache: the one of the query, or an 8-bit format. *)
Inductive KvCache := Same | Float8_e4m3fn | Float8_e5m2.
Definition fp8_kv (kv : KvCache) : bool := match kv with Same => false | _ => true end.
Definition scale_on_logits : KvCache -> bool := fp8_kv.

Definition k_cache_token_group_stride : Z := BlockSizeAlignment.
Definition v_cache_token_group_stride (head_dim : Z) : Z := head_dim * BlockSizeAlignment.
Definition v_cache_head_group_stride : Z := HeadDimAlignment.

Section Gemm.
Context {K F : Type} `{FloatOps F} `{ScalarOps K F}.

Definition get_output_v_scale (kv : KvCache) (v_scale : F) : F :=
  match kv with
  | Same => litf 1 1
  | Float8_e5m2 => v_scale
  | Float8_e4m3fn => mul v_scale (litf 256 1)
  end.

(** The scale on the logits. *)
Definition kv_scale (kv : KvCache) (k_scale scale : F) : F :=
  match kv with
  | Same => scale
  | Float8_e5m2 => mul scale k_scale
  | Float8_e4m3fn => mul scale (mul k_scale (litf 256 1))
  end.

Definition load_b_pair_vec (b : list K) (p : Z) : option (list F * list F) :=
  b_0 ← load_vec b p;
  b_1 ← load_vec b (p + 16);
  Some (b_0, b_1).

Definition gemm_turn (a : list F) (b : list K) (a_ptr b_ptr m lda ldb k : Z) (c_regs : list (list F)) : option (list (list F)) :=
  '(b_0, b_1) ← load_b_pair_vec b (b_ptr + k * ldb);
  @fma_rows F F _ same_scalar a a_ptr m lda k b_0 b_1 c_regs.

Definition gemm_micro (m : Z) (a : list F) (a_ptr : Z) (b : list K) (b_ptr : Z) (c : list F) (c_ptr : Z)
    (lda ldb ldc dynamic_k_size : Z) (accum_c : bool) : option (list F) :=
  let c_regs := replicate (Z.to_nat (m * 2)) (splat zero) in
  c_regs ← (if accum_c then load_c c c_ptr m ldc c_regs else Some c_regs);
  c_regs ← for_range 0 dynamic_k_size (gemm_turn a b a_ptr b_ptr m lda ldb) c_regs;
  save_c c_regs c_ptr m ldc c.

(** The [switch] over the rows: an odd number above one is rounded up. *)
Definition gemm (m_size : Z) (a : list F) (a_ptr : Z) (b : list K) (b_ptr : Z) (c : list F) (c_ptr : Z)
    (lda ldb ldc dynamic_k_size : Z) (accum_c : bool) : option (list F) :=
  let micro m := gemm_micro m a a_ptr b b_ptr c c_ptr lda ldb ldc dynamic_k_size accum_c in
  if m_size =? 1 then micro 1
  else if m_size =? 2 then micro 2
  else if (m_size =? 3) || (m_size =? 4) then micro 4
  else if (m_size =? 5) || (m_size =? 6) then micro 6
  else if (m_size =? 7) || (m_size =? 8) then micro 8
  else Some c.

End Gemm.

Definition copy_q_heads_tile {S F} `{FloatOps F} `{ScalarOps S F} (head_dim : Z) (kv : KvCache) (src : list S) (src_ptr : Z)
    (q_num q_heads_per_kv q_num_stride q_head_stride : Z) (scale : F) (q_buffer : list F) : option (list F) :=
  let effective_scale := if fp8_kv kv then litf 1 1 else scale in
  for_range 0 q_num (fun q_num_idx q_buffer =>
    for_range 0 q_heads_per_kv (fun q_head_idx q_buffer =>
      let curr_q := src_ptr + q_num_idx * q_num_stride + q_head_idx * q_head_stride in
      let curr_q_buffer := q_num_idx * q_heads_per_kv * head_dim + q_head_idx * head_dim in
      for_range 0 (Z.quot head_dim 16) (fun i q_buffer =>
        vec ← load_vec src (curr_q + i * 16);
        wr_range q_buffer (curr_q_buffer + i * 16) (vec_mul vec (splat effective_scale))) q_buffer) q_buffer) q_buffer.

(** ** Processing of the logits *)

Section Logits.
Context {F : Type} `{FloatOps F}.

Definition scale_logits (scale : F) (ptr stride q_head_num : Z) (logits : list F) : option (list F) :=
  for_range 0 q_head_num (fun i logits =>
    for_range 0 (Z.quot BlockSizeAlignment 16) (fun vec_idx logits =>
      let p := ptr + i * stride + vec_idx * 16 in
      vec ← rd_range logits p 16;
      wr_range logits p (vec_mul vec (splat scale))) logits) logits.

(** The division is one of doubles, which rounds to the same float. *)
Definition apply_softcap (logits_buffer_stride q_head_num kv_tile_token_num : Z) (softcap_scale : F) (logits : list F)
    : option (list F) :=
  let inv_softcap_scale := div (litf 1 1) softcap_scale in
  for_range 0 q_head_num (fun i logits =>
    for_range 0 (Z.quot kv_tile_token_num 16) (fun j logits =>
      let p := i * logits_buffer_stride + j * 16 in
      vec ← rd_range logits p 16;
      '(vec, logits) ← through tanh p (vec_mul vec (splat inv_softcap_scale)) logits;
      wr_range logits p (vec_mul vec (splat softcap_scale))) logits) logits.

Definition bias_vec (slope : F) (curr_q_pos_vec : list F) (p : Z) (curr_kv_pos_vec : list F) (logits : list F) : option (list F) :=
  let alibi_bias_vec := vec_mul (splat slope) (vec_sub curr_kv_pos_vec curr_q_pos_vec) in
  vec ← rd_range logits p 16;
  wr_range logits p (vec_add vec alibi_bias_vec).

(** The row of head [j] of token [i]; the vector of key positions is the other loop variable. *)
Definition alibi_row (alibi_slopes : list F) (slopes_ptr logits_buffer_stride q_tile_start_pos kv_tile_start_pos
    kv_tile_token_num q_heads_per_kv i j : Z) (logits : list F) : option (list F) :=
  let initial_arange_vals_vec := vec_add ((fun l => litf l 1) <$> seqZ 0 16) (splat (litf kv_tile_start_pos 1)) in
  let curr_q_pos_vec := splat (litf (i + q_tile_start_pos) 1) in
  slope ← rd alibi_slopes (slopes_ptr + j);
  '(logits, _) ← for_range 0 (Z.quot kv_tile_token_num 16) (fun k '(logits, curr_kv_pos_vec) =>
    logits ← bias_vec slope curr_q_pos_vec ((i * q_heads_per_kv + j) * logits_buffer_stride + k * 16) curr_kv_pos_vec logits;
    Some (logits, vec_add curr_kv_pos_vec (splat (lit 16 1)))) (logits, initial_arange_vals_vec);
  Some logits.

Definition apply_alibi_slopes (alibi_slopes : list F) (slopes_ptr logits_buffer_stride q_tile_start_pos kv_tile_start_pos
    q_token_num kv_tile_token_num q_heads_per_kv : Z) (logits : list F) : option (list F) :=
  for_range 0 q_token_num (fun i =>
    for_range 0 q_heads_per_kv
      (alibi_row alibi_slopes slopes_ptr logits_buffer_stride q_tile_start_pos kv_tile_start_pos kv_tile_token_num q_heads_per_kv i))
    logits.

(** The buffers that the softmax works on. *)
Record Rows := {
  logits_buffer : list F;
  partial_q_buffer : list F;
  max_buffer : list F;
  sum_buffer : list F
}.

Section Softmax.
Context (head_dim partial_ptr max_ptr sum_ptr logits_buffer_stride kv_tile_token_num : Z) (is_first_iter : bool).

Definition row_maximum (logits : list F) (i : Z) (init_max_val : F) : option F :=
  max_vec ← for_range 0 (Z.quot kv_tile_token_num 16) (fun j max_vec =>
    vec ← rd_range logits (i * logits_buffer_stride + j * 16) 16;
    Some (vec_max vec max_vec)) (splat init_max_val);
  Some (reduce_max max_vec).

Definition row_probabilities (i : Z) (max_val : F) (logits : list F) : option (list F * F) :=
  '(logits, sum_vec) ← for_range 0 (Z.quot kv_tile_token_num 16) (fun j '(logits, sum_vec) =>
    let p := i * logits_buffer_stride + j * 16 in
    vec ← rd_range logits p 16;
    '(vec, logits) ← through exp p (vec_sub vec (splat max_val)) logits;
    logits ← wr_range logits p vec;
    Some (logits, vec_add sum_vec vec)) (logits, splat zero);
  Some (logits, reduce_sum sum_vec).

Definition rescale_row (i : Z) (rescale_factor : F) (partial : list F) : option (list F) :=
  for_range 0 (Z.quot head_dim 16) (fun j partial =>
    let p := partial_ptr + i * head_dim + j * 16 in
    vec ← rd_range partial p 16;
    wr_range partial p (vec_mul vec (splat rescale_factor))) partial.

Definition softmax_row (i : Z) (st : Rows) : option Rows :=
  init_max_val ← rd (max_buffer st) (max_ptr + i);
  init_sum_val ← rd (sum_buffer st) (sum_ptr + i);
  new_max_val ← row_maximum (logits_buffer st) i init_max_val;
  let rescale_factor := sub init_max_val new_max_val in
  let need_rescale := ltb rescale_factor (litf (-8) 1) in
  let new_max_val := if need_rescale then new_max_val else init_max_val in
  maxs ← (if need_rescale then wr (max_buffer st) (max_ptr + i) new_max_val else Some (max_buffer st));
  '(logits, new_sum_val) ← row_probabilities i new_max_val (logits_buffer st);
  '(new_sum_val, partial) ← (if need_rescale then
      let rescale_factor := exp rescale_factor in
      let new_sum_val := add new_sum_val (mul rescale_factor init_sum_val) in
      partial ← (if is_first_iter then Some (partial_q_buffer st) else rescale_row i rescale_factor (partial_q_buffer st));
      Some (new_sum_val, partial)
    else Some (add new_sum_val init_sum_val, partial_q_buffer st));
  sums ← wr (sum_buffer st) (sum_ptr + i) new_sum_val;
  Some {| logits_buffer := logits; partial_q_buffer := partial; max_buffer := maxs; sum_buffer := sums |}.

Definition apply_softmax (q_head_num : Z) (st : Rows) : option Rows := for_range 0 q_head_num softmax_row st.

End Softmax.
End Logits.

(** ** The walk over the blocks of the cache *)

(** Both products visit the blocks of the context tile in the same way; [visit] gets the
    physical block, the first group of tokens inside it, the number of groups and the
    column of the first one. *)
Section Walk.
Context {St : Type} (block_size : Z) (block_table : list Z) (bt_ptr : Z) (kv_tile_start_pos kv_tile_token_num : Z).
Context (visit : Z -> Z -> Z -> Z -> St -> option St).

Definition for_blocks (st : St) : option St :=
  let token_group_num_per_block := Kernel.token_group_num_per_block block_size BlockSizeAlignment in
  let start_block_group_offset := Kernel.start_block_group_offset block_size BlockSizeAlignment kv_tile_start_pos in
  '(_, _, _, _, st) ← for_range (Kernel.start_block_idx block_size kv_tile_start_pos)
      (Kernel.end_block_idx block_size kv_tile_start_pos kv_tile_token_num)
    (fun block_idx '(curr_group_offset, curr_group_num_in_block, remaining_group_num, column, st) =>
      physical_block_idx ← rd block_table (bt_ptr + block_idx);
      let curr_group_num_in_block := Z.min remaining_group_num curr_group_num_in_block in
      st ← visit physical_block_idx curr_group_offset curr_group_num_in_block column st;
      Some (0, token_group_num_per_block, remaining_group_num - curr_group_num_in_block,
            column + curr_group_num_in_block * BlockSizeAlignment, st))
    (start_block_group_offset, token_group_num_per_block - start_block_group_offset,
     Kernel.token_group_num BlockSizeAlignment kv_tile_token_num, 0, st);
  Some st.

End Walk.

(** ** [Attention::operator()] *)

(** What a call gets besides its buffers. *)
Record Cache {K F : Type} := {
  key_cache : list K;
  value_cache : list K;
  head_ptr : Z;
  num_blocks_stride : Z;
  block_size : Z;
  table : list Z;
  table_ptr : Z;
  kv_kind : KvCache;
  scale_val : F;
  softcap : F;
  slopes : option (list F * Z);
  window_left : Z;
  window_right : Z;
  heads_per_kv : Z
}.
Arguments Cache : clear implicits.

Section Attention.
Context {K F : Type} `{FloatOps F} `{ScalarOps K F}.
Context (head_dim : Z) (cache : Cache K F).
Context (kv_end_pos kv_tile_start_pos kv_tile_end_pos q_token_num q_tile_start_pos : Z).

Abbreviation kv_tile_token_num := (kv_tile_end_pos - kv_tile_start_pos).
Abbreviation q_head_num := (q_token_num * heads_per_kv cache).

Definition qk_block (q_heads : list F) (q_ptr : Z) (physical_block_idx group_offset group_num column : Z) (logits : list F)
    : option (list F) :=
  for_range 0 group_num (fun block_group_idx logits =>
    let curr_logits_buffer := column + block_group_idx * BlockSizeAlignment in
    logits ← gemm q_head_num q_heads q_ptr (key_cache cache)
      (head_ptr cache + physical_block_idx * num_blocks_stride cache + group_offset * k_cache_token_group_stride
        + block_group_idx * k_cache_token_group_stride)
      logits curr_logits_buffer head_dim (block_size cache) kv_tile_token_num head_dim false;
    if scale_on_logits (kv_kind cache)
    then scale_logits (scale_val cache) curr_logits_buffer kv_tile_token_num q_head_num logits
    else Some logits) logits.

Definition process_logits (logits : list F) : option (list F) :=
  logits ← (if eqb (softcap cache) (litf 0 1) then Some logits
            else apply_softcap kv_tile_token_num q_head_num kv_tile_token_num (softcap cache) logits);
  logits ← match slopes cache with
           | None => Some logits
           | Some (alibi_slopes, slopes_ptr) =>
               apply_alibi_slopes alibi_slopes slopes_ptr kv_tile_token_num q_tile_start_pos kv_tile_start_pos q_token_num
                 kv_tile_token_num (heads_per_kv cache) logits
           end;
  Kernel.apply_mask neg_inf kv_end_pos kv_tile_start_pos kv_tile_end_pos (window_left cache) (window_right cache)
    kv_tile_token_num q_tile_start_pos q_token_num (heads_per_kv cache) logits.

(** [accum_c] is set after the first block. *)
Definition pv_block (probs : list F) (partial_ptr : Z) (physical_block_idx group_offset group_num column : Z) (st : list F * bool)
    : option (list F * bool) :=
  let '(partial, accum_c) := st in
  let curr_token_num := group_num * BlockSizeAlignment in
  partial ← for_range 0 (Z.quot head_dim HeadDimAlignment) (fun head_dim_group_idx partial =>
    gemm q_head_num probs column (value_cache cache)
      (head_ptr cache + physical_block_idx * num_blocks_stride cache + group_offset * v_cache_token_group_stride head_dim
        + head_dim_group_idx * v_cache_head_group_stride)
      partial (partial_ptr + head_dim_group_idx * HeadDimAlignment) kv_tile_token_num head_dim head_dim curr_token_num accum_c)
    partial;
  Some (partial, true).

(** [q_row] is the row of the tile at which the call starts. *)
Definition attention (q_heads : list F) (q_row : Z) (is_first_iter : bool) (st : Rows) : option Rows :=
  let blocks {St} := @for_blocks St (block_size cache) (table cache) (table_ptr cache) kv_tile_start_pos kv_tile_token_num in
  logits ← blocks (qk_block q_heads (q_row * head_dim)) (logits_buffer st);
  logits ← process_logits logits;
  st ← apply_softmax head_dim (q_row * head_dim) q_row q_row kv_tile_token_num kv_tile_token_num is_first_iter q_head_num
    {| logits_buffer := logits; partial_q_buffer := partial_q_buffer st; max_buffer := max_buffer st; sum_buffer := sum_buffer st |};
  '(partial, _) ← blocks (pv_block (logits_buffer st) (q_row * head_dim)) (partial_q_buffer st, negb is_first_iter);
  Some {| logits_buffer := logits_buffer st; partial_q_buffer := partial; max_buffer := max_buffer st; sum_buffer := sum_buffer st |}.

End Attention.


(** ** What the steps compute *)

Lemma through_ok {F} `{FloatOps F} (fn : F -> F) p (f : Z -> F) buf : 0 <= p -> p + 16 <= Z.of_nat (length buf) ->
  exists buf', through fn p (tab f) buf = Some (tab (fun l => fn (f l)), buf') /\
    stores buf buf' (fun l => 0 <= l < 16) (fun l => p + l) (fun l => fn (f l)).
Proof.
  intros Hp Hl. unfold through. destruct (wr_range_stores buf p 16 f) as (b1 & -> & W1); [lia..|]. cbn [mbind option_bind].
  pose proof (stores_length _ _ _ _ _ W1) as L1.
  destruct (for_range_stores (fun c => c) (fun _ => True) 16 (fun k buf => x ← rd buf (p + k); wr buf (p + k) (fn x))
    (fun _ (_ : unit) => True) (fun k _ => p + k) (fun k _ => fn (f k)) b1) as (b2 & -> & _ & W2).
  - intros; lia.
  - done.
  - intros k b Hk _ Lb Hb. rewrite (Hb tt I), (stores_in _ _ _ _ _ W1 k Hk). cbn [mbind option_bind].
    destruct (wr_stores b (p + k) (fn (f k))) as (b' & E & W); [lia|]. by exists b'.
  - cbn [mbind option_bind]. rewrite (rd_range_tab b2 p 16 (fun l => fn (f l))); [|lia|].
    2: { intros l Hl'. apply (stores_in _ _ _ _ _ W2 (l, tt)). done. }
    cbn [mbind option_bind]. exists b2. split; [done|]. constructor.
    + by rewrite (stores_length _ _ _ _ _ W2).
    + intros l Hl'. apply (stores_in _ _ _ _ _ W2 (l, tt)). done.
    + intros q Hq. rewrite (stores_out _ _ _ _ _ W2), (stores_out _ _ _ _ _ W1); [done|done|].
      intros [l ?] [Hl' _]. by apply Hq.
Qed.

(** Overwriting the same cells. *)
Lemma stores_again {A X} (a b c : list A) (D : X -> Prop) addr f g : stores a b D addr f -> stores b c D addr g -> stores a c D addr g.
Proof.
  intros [L V U] [L' V' U']. constructor; [congruence|done|]. intros p Hp. by rewrite U', U.
Qed.

Section Logits.
Context {F : Type} `{FloatOps F}.
Context (ptr stride rows n : Z) (x : Z -> Z -> F) (buf : list F).
Context (Hptr : 0 <= ptr) (Hn : (16 | n)) (Hn0 : 0 <= n <= stride) (Hbuf : ptr + (rows - 1) * stride + n <= Z.of_nat (length buf)).
Context (Hx : forall i j, 0 <= i < rows -> 0 <= j < n -> rd buf (ptr + i * stride + j) = Some (x i j)).

(** A loop over rows and vectors that applies [g] to every element. *)
Lemma elementwise_ok (body : Z -> Z -> list F -> option (list F)) (g : Z -> Z -> F) :
  (forall i k b, 0 <= i < rows -> 0 <= k < n / 16 -> let p := ptr + i * stride + k * 16 in 0 <= p -> p + 16 <= Z.of_nat (length b) ->
    (forall l, 0 <= l < 16 -> rd b (p + l) = Some (x i (k * 16 + l))) ->
    exists b', body i k b = Some b' /\ stores b b' (fun l => 0 <= l < 16) (fun l => p + l) (fun l => g i (k * 16 + l))) ->
  exists buf', for_range 0 rows (fun i => for_range 0 (Z.quot n 16) (body i)) buf = Some buf' /\
    stores buf buf' (fun z : Z * Z => 0 <= z.1 < rows /\ 0 <= z.2 < n) (fun z => ptr + z.1 * stride + z.2) (fun z => g z.1 z.2).
Proof.
  intros Hb. destruct Hn as [q Eq]. rewrite Z.quot_div_nonneg by lia. rewrite Eq, Z.div_mul in * by lia.
  apply matrix_ok; [lia|]. intros i b Hi Lb Hk. apply (vector_turns_ok 16 (body i) b (ptr + i * stride) (q * 16) q (g i)); [lia|done|lia|].
  intros k b1 Hkq L1 Hk1. apply Hb; [done|done|..].
  - clear -Hptr Hn0 Hi Hkq. nia.
  - rewrite L1, Lb. clear -Hn0 Hi Hkq Hbuf. nia.
  - intros l Hl. rewrite <- Z.add_assoc, Hk1, Hk, Hx by lia. done.
Qed.

Lemma scale_logits_ok scale : n = BlockSizeAlignment -> exists buf', scale_logits scale ptr stride rows buf = Some buf' /\
  stores buf buf' (fun z : Z * Z => 0 <= z.1 < rows /\ 0 <= z.2 < n) (fun z => ptr + z.1 * stride + z.2) (fun z => mul (x z.1 z.2) scale).
Proof.
  intros En. unfold scale_logits. rewrite <- En. apply (elementwise_ok (fun i k logits =>
    vec ← rd_range logits (ptr + i * stride + k * 16) 16; wr_range logits (ptr + i * stride + k * 16) (vec_mul vec (splat scale)))
    (fun i j => mul (x i j) scale)).
  intros i k b Hi Hk p Hp Hlen Hb. fold p. rewrite (rd_range_tab b p 16 (fun l => x i (k * 16 + l))) by (lia || done). cbn [mbind option_bind].
  unfold vec_mul, splat, VEC_ELEM_NUM. rewrite zip_with_tab. by apply (wr_range_stores b p 16).
Qed.

Definition softcapped (s v : F) : F := mul (tanh (mul v (div (litf 1 1) s))) s.

End Logits.

Section Rows.
Context {F : Type} `{FloatOps F}.
Context (rows n : Z) (x : Z -> Z -> F) (buf : list F).
Context (Hn : (16 | n)) (Hn0 : 0 <= n) (Hbuf : rows * n <= Z.of_nat (length buf)).
Context (Hx : forall i j, 0 <= i < rows -> 0 <= j < n -> rd buf (i * n + j) = Some (x i j)).

Lemma apply_softcap_ok s : exists buf', apply_softcap n rows n s buf = Some buf' /\
  stores buf buf' (fun z : Z * Z => 0 <= z.1 < rows /\ 0 <= z.2 < n) (fun z => z.1 * n + z.2) (fun z => softcapped s (x z.1 z.2)).
Proof.
  unfold apply_softcap. apply (elementwise_ok 0 n rows n x buf ltac:(lia) Hn ltac:(lia) ltac:(lia) Hx (fun i j logits =>
    vec ← rd_range logits (i * n + j * 16) 16;
    '(vec, logits) ← through tanh (i * n + j * 16) (vec_mul vec (splat (div (litf 1 1) s))) logits;
    wr_range logits (i * n + j * 16) (vec_mul vec (splat s))) (fun i j => softcapped s (x i j))).
  intros i k b Hi Hk p Hp Hlen Hb. change (i * n + k * 16) with p. rewrite (rd_range_tab b p 16 (fun l => x i (k * 16 + l))) by (lia || done).
  cbn [mbind option_bind]. unfold vec_mul, splat, VEC_ELEM_NUM. rewrite zip_with_tab.
  destruct (through_ok tanh p (fun l => mul (x i (k * 16 + l)) (div (litf 1 1) s)) b) as (b1 & -> & W1); [lia..|]. cbn [mbind option_bind].
  rewrite zip_with_tab. destruct (wr_range_stores b1 p 16 (fun l => softcapped s (x i (k * 16 + l)))) as (b2 & E2 & W2);
    [lia|lia|by rewrite (stores_length _ _ _ _ _ W1)|]. exists b2. split; [exact E2|]. by eapply stores_again.
Qed.

End Rows.

(** A loop with a value that every turn updates in the same way. *)
Lemma for_range_carry {A V} (body : Z -> V -> A -> option A) (next : V -> V) v0 n a : 0 <= n ->
  for_range 0 n (fun k '(a, v) => a ← body k v a; Some (a, next v)) (a, v0) =
  (a ← for_range 0 n (fun k => body k (Nat.iter (Z.to_nat k) next v0)) a; Some (a, Nat.iter (Z.to_nat n) next v0)).
Proof.
  unfold for_range. rewrite Z.sub_0_r. revert n. refine (natlike_ind _ _ _); [done|]. intros n Hn IH.
  replace (Z.succ n) with (n + 1) by lia. rewrite seqZ_last, !for_each_app, IH by done.
  destruct (for_each (seqZ 0 n) _ a) as [a'|]; [|done]. cbn [mbind option_bind for_each].
  destruct (body n _ a') as [a''|]; [|done]. cbn [mbind option_bind]. do 2 f_equal.
  replace (Z.to_nat (n + 1)) with (Datatypes.S (Z.to_nat n)) by lia. done.
Qed.

(** Two loops over rows, by token and head. *)
Lemma token_rows_ok {A} (body : Z -> Z -> list A -> option (list A)) (a : list A) tokens heads n (f : Z -> Z -> A) : 0 <= heads -> 0 <= n ->
  (forall t h b, 0 <= t < tokens -> 0 <= h < heads -> let r := t * heads + h in length b = length a ->
    (forall j, 0 <= j < n -> rd b (r * n + j) = rd a (r * n + j)) ->
    exists b', body t h b = Some b' /\ stores b b' (fun j => 0 <= j < n) (fun j => r * n + j) (f r)) ->
  exists a', for_range 0 tokens (fun t => for_range 0 heads (body t)) a = Some a' /\
    stores a a' (fun z : Z * Z => 0 <= z.1 < tokens * heads /\ 0 <= z.2 < n) (fun z => z.1 * n + z.2) (fun z => f z.1 z.2).
Proof.
  intros Hh Hn Hb.
  destruct (for_range_stores (fun c => c) (fun _ => True) tokens (fun t => for_range 0 heads (body t))
    (fun _ (z : Z * Z) => 0 <= z.1 < heads /\ 0 <= z.2 < n) (fun t z => (t * heads + z.1) * n + z.2) (fun t z => f (t * heads + z.1) z.2) a)
    as (a' & E & _ & W).
  - intros t t' [h j] [h' j'] _ _ [Hh1 Hj] [Hh1' Hj'] Heq. cbn [fst snd] in *. apply row_inj in Heq; [|done..]. by apply row_inj in Heq.
  - done.
  - intros t b Ht _ Lb Hk. destruct (matrix_ok (body t) b (t * heads * n) n heads n (fun h => f (t * heads + h))) as (b' & E' & W'); [lia| |].
    + intros h b1 Hh1 L1 Hk1. destruct (Hb t h b1 Ht Hh1) as (b2 & E2 & W2); [congruence| |].
      * intros j Hj. specialize (Hk (h, j)). cbn [fst snd] in Hk. rewrite <- Hk by done.
        specialize (Hk1 j Hj). replace ((t * heads + h) * n + j) with (t * heads * n + h * n + j) by lia. done.
      * exists b2. split; [done|]. eapply stores_reindex; [| |exact W2]; intros j Hj; cbn beta in *; exists j; split_and!; lia || done.
    + exists b'. split; [done|]. split; [done|]. eapply stores_reindex; [| |exact W'].
      * intros [h j] Hz. exists (h, j). cbn [fst snd] in *. split_and!; lia || done.
      * intros [h j] Hz. exists (h, j). cbn [fst snd] in *. split_and!; lia || done.
  - exists a'. split; [exact E|]. eapply stores_reindex; [| |exact W].
    + intros [r j] [Hr Hj]. cbn [fst snd] in *. assert (0 < heads) by (destruct (Z.eq_dec heads 0) as [->|]; lia). exists (r / heads, (r mod heads, j)). cbn [fst snd].
      pose proof (Z.div_mod r heads ltac:(lia)). pose proof (Z.mod_pos_bound r heads ltac:(lia)).
      replace (r / heads * heads + r mod heads) with r by lia.
      split_and!; [apply Z.div_pos; lia|apply Z.div_lt_upper_bound; lia|lia..|done|done].
    + intros [t [h j]] (Ht & Hh1 & Hj). cbn [fst snd] in *. exists (t * heads + h, j). cbn [fst snd]. split_and!; try lia; clear -Ht Hh1; nia.
Qed.

Section Alibi.
Context {F : Type} `{FloatOps F}.
Context (tokens heads n q_pos kv_pos : Z) (x : Z -> Z -> F) (buf alibi_slopes : list F) (slopes_ptr : Z) (slope : Z -> F).
Context (Hh : 0 <= heads) (Hn : (16 | n)) (Hn0 : 0 <= n) (Hbuf : tokens * heads * n <= Z.of_nat (length buf)).
Context (Hx : forall i j, 0 <= i < tokens * heads -> 0 <= j < n -> rd buf (i * n + j) = Some (x i j)).
Context (Hs : forall h, 0 <= h < heads -> rd alibi_slopes (slopes_ptr + h) = Some (slope h)).

(** The position of column [j], as the vector loop counts it. *)
Definition column_pos (j : Z) : F :=
  Nat.iter (Z.to_nat (j / 16)) (fun v => add v (lit 16 1)) (add (litf (j mod 16) 1) (litf kv_pos 1)).
Definition biased (r j : Z) (v : F) : F :=
  add v (mul (slope (r mod heads)) (sub (column_pos j) (litf (r / heads + q_pos) 1))).

Lemma column_vec k : 0 <= k ->
  Nat.iter (Z.to_nat k) (fun v => vec_add v (splat (lit 16 1))) (vec_add ((fun l => litf l 1) <$> seqZ 0 16) (splat (litf kv_pos 1)))
  = tab (fun l => column_pos (k * 16 + l)).
Proof.
  intros Hk. unfold vec_add, splat, VEC_ELEM_NUM. rewrite zip_with_tab.
  assert (forall m, Nat.iter m (fun v => zip_with add v ((fun _ => lit 16 1) <$> seqZ 0 16)) (tab (fun l => add (litf l 1) (litf kv_pos 1)))
    = tab (fun l => Nat.iter m (fun v => add v (lit 16 1)) (add (litf l 1) (litf kv_pos 1)))) as G.
  { induction m as [|m IH]; [done|]. etrans; [exact (f_equal (fun v => zip_with add v ((fun _ => lit 16 1) <$> seqZ 0 16)) IH)|]. cbn beta. rewrite zip_with_tab. reflexivity. }
  rewrite G. apply tab_ext. intros l Hl. unfold column_pos. rewrite Z.div_add_l, Z.div_small, Z.add_0_r by lia.
  by rewrite Z.add_comm, Z.mod_add, Z.mod_small by lia.
Qed.

Lemma apply_alibi_ok : exists buf', apply_alibi_slopes alibi_slopes slopes_ptr n q_pos kv_pos tokens n heads buf = Some buf' /\
  stores buf buf' (fun z : Z * Z => 0 <= z.1 < tokens * heads /\ 0 <= z.2 < n) (fun z => z.1 * n + z.2) (fun z => biased z.1 z.2 (x z.1 z.2)).
Proof.
  unfold apply_alibi_slopes. destruct Hn as [q Eq].
  apply (token_rows_ok (alibi_row alibi_slopes slopes_ptr n q_pos kv_pos n heads) buf tokens heads n (fun r j => biased r j (x r j))); [done|done|].
  intros t h b Ht Hh1 r Lb Hk. unfold alibi_row. rewrite Z.quot_div_nonneg by lia.
  assert (n / 16 = q) as -> by (rewrite Eq; by apply Z.div_mul). rewrite Hs by done. cbn [mbind option_bind]. fold r.
  assert (0 <= r < tokens * heads) as Hr by (unfold r; clear -Ht Hh1; nia).
  rewrite (for_range_carry (fun k => bias_vec (slope h) (splat (litf (t + q_pos) 1)) (r * n + k * 16))) by lia.
  destruct (vector_turns_ok 16 (fun k => bias_vec (slope h) (splat (litf (t + q_pos) 1)) (r * n + k * 16)
      (Nat.iter (Z.to_nat k) (fun v => vec_add v (splat (lit 16 1)))
        (vec_add ((fun l => litf l 1) <$> seqZ 0 16) (splat (litf kv_pos 1))))) b (r * n) n q (fun j => biased r j (x r j)))
    as (b' & -> & W); [lia|done|lia| |].
  - intros k b1 Hkq L1 Hk1. rewrite column_vec by lia. unfold bias_vec.
    rewrite (rd_range_tab b1 (r * n + k * 16) 16 (fun l => x r (k * 16 + l))); [|lia|].
    2: { intros l Hl. rewrite <- Z.add_assoc, Hk1, Hk, Hx by lia. done. }
    cbn [mbind option_bind]. unfold vec_add, vec_mul, vec_sub, splat, VEC_ELEM_NUM. rewrite !zip_with_tab.
    destruct (wr_range_stores b1 (r * n + k * 16) 16 (fun l => biased r (k * 16 + l) (x r (k * 16 + l)))) as (b2 & E2 & W2);
      [lia|clear -Hr Hn0 Hkq; nia|rewrite L1, Lb; clear -Hr Hn0 Hkq Hbuf Eq; nia|].
    exists b2. split; [|exact W2]. rewrite <- E2. f_equal. apply tab_ext. intros l Hl. unfold biased.
    assert (r mod heads = h /\ r / heads = t) as [-> ->]; [|done]. unfold r. split.
    + by rewrite Z.add_comm, Z.mod_add, Z.mod_small by lia.
    + rewrite Z.div_add_l, Z.div_small by lia. lia.
  - cbn [mbind option_bind]. exists b'. split; [done|]. exact W.
Qed.
End Alibi.


(** ** The products *)

Section Product.
Context {K F : Type} `{FloatOps F} `{ScalarOps K F}.

(** The sum of products from an initial value, in the order of the code. *)
Definition fdot : F -> (Z -> F) -> (Z -> F) -> Z -> F := @dot_from F F _ same_scalar.

Lemma fdot_app c x w n m : 0 <= n -> 0 <= m -> fdot c x w (n + m) = fdot (fdot c x w n) (fun i => x (n + i)) (fun i => w (n + i)) m.
Proof.
  intros Hn Hm. unfold fdot, dot_from. rewrite seqZ_app, foldl_app by done. cbn [load same_scalar].
  replace (seqZ (0 + n) m) with (Z.add n <$> seqZ 0 m) by (rewrite fmap_add_seqZ; f_equal; lia).
  generalize (foldl (fun c i => add c (mul (x i) (w i))) c (seqZ 0 n)), (seqZ 0 m). intros v l. revert v.
  induction l as [|i l IH]; intros v; [done|]. cbn [fmap list_fmap foldl]. apply IH.
Qed.

Definition padded (m : Z) : Z := if m =? 1 then 1 else Z.quot (m + 1) 2 * 2.

Lemma padded_rows m : 1 <= m <= 8 -> m <= padded m <= 8.
Proof. intros Hm. assert (m = 1 \/ m = 2 \/ m = 3 \/ m = 4 \/ m = 5 \/ m = 6 \/ m = 7 \/ m = 8) as Hc by lia. destruct_or! Hc; subst m; vm_compute; split; discriminate. Qed.

Context (a : list F) (b : list K) (a_ptr b_ptr m k lda ldb : Z) (x : Z -> Z -> F) (w : Z -> Z -> K).
Context (Hm : 0 <= m) (Hk : 0 <= k).
Context (Ha : forall i j, 0 <= i < m -> 0 <= j < k -> rd a (a_ptr + i * lda + j) = Some (x i j)).
Context (Hb : forall n j, 0 <= n < 32 -> 0 <= j < k -> rd b (b_ptr + j * ldb + n) = Some (w n j)).

Lemma tile_gemm_ok (c : list F) c_ptr ldc (accum_c : bool) (c0 : Z -> Z -> F) : 32 <= ldc -> 0 <= c_ptr ->
  (forall i, 0 <= i < m -> c_ptr + i * ldc + 32 <= Z.of_nat (length c)) ->
  (forall i j, 0 <= i < m -> 0 <= j < 32 -> if accum_c then rd c (c_ptr + i * ldc + j) = Some (c0 i j) else c0 i j = zero) ->
  exists c', gemm_micro m a a_ptr b b_ptr c c_ptr lda ldb ldc k accum_c = Some c' /\
    stores c c' (fun z : Z * Z => 0 <= z.1 < m /\ 0 <= z.2 < 32) (fun z => c_ptr + z.1 * ldc + z.2)
      (fun z => fdot (c0 z.1 z.2) (x z.1) (fun j => load (w z.2 j)) k).
Proof.
  intros Hldc Hcp Hc Hc0. unfold gemm_micro. set (wf := fun n j => load (w n j)).
  destruct (@init_c_ok F F _ same_scalar m x wf Hm c c_ptr ldc accum_c c0 Hc0) as (r1 & -> & L1 & H1). cbn [mbind option_bind].
  destruct (for_range_inv (fun n regs => Z.of_nat (length regs) = m * 2 /\ forall p, 0 <= p < m * 2 ->
      rd regs p = Some (@reg F F _ same_scalar x wf c0 n p)) 0 k
    (gemm_turn a b a_ptr b_ptr m lda ldb) r1) as (r2 & -> & L2 & H2); [done|done| |].
  - intros n r Hn [Lr Hr]. unfold gemm_turn, load_b_pair_vec.
    rewrite (load_vec_tab b (b_ptr + n * ldb) (fun j => w j n)) by (intros; apply Hb; lia). cbn [mbind option_bind].
    rewrite (load_vec_tab b (b_ptr + n * ldb + 16) (fun j => w (16 + j) n)) by (intros; rewrite <- Z.add_assoc; apply Hb; lia).
    cbn [mbind option_bind].
    destruct (@fma_rows_ok F F _ same_scalar a a_ptr m k lda x wf Ha c0 n r) as (r' & E & L' & H'); [done|done|done|].
    exists r'. split_and!; [exact E|lia|done].
  - cbn [mbind option_bind]. by apply (@save_c_ok F F _ same_scalar m k x wf).
Qed.

End Product.

Lemma gemm_padded {K F} `{FloatOps F} `{ScalarOps K F} m (a : list F) a_ptr (b : list K) b_ptr c c_ptr lda ldb ldc k accum_c :
  1 <= m <= 8 -> gemm m a a_ptr b b_ptr c c_ptr lda ldb ldc k accum_c = gemm_micro (padded m) a a_ptr b b_ptr c c_ptr lda ldb ldc k accum_c.
Proof.
  intros Hm. assert (m = 1 \/ m = 2 \/ m = 3 \/ m = 4 \/ m = 5 \/ m = 6 \/ m = 7 \/ m = 8) as Hc by lia. destruct_or! Hc; by subst m.
Qed.


(** ** The blocks *)

Section Blocks.
Context {St : Type} (gpb gs n bt_ptr : Z) (bt : list Z) (tb : Z -> Z).
Context (Hgpb : 1 <= gpb) (Hgs : 0 <= gs) (Hn : 1 <= n).
Context (Hbt : forall b, gs / gpb <= b <= (gs + n - 1) / gpb -> rd bt (bt_ptr + b) = Some (tb b)).

(** Groups of the tile before block [b], and the group of block [b] at which the tile starts. *)
Abbreviation before b := (Z.max 0 (Z.min n (b * gpb - gs))).
Abbreviation offset b := (Z.max 0 (gs - b * gpb)).

(** [P g] holds when the first [g] groups of the tile have been visited. *)
Lemma for_blocks_ok (visit : Z -> Z -> Z -> Z -> St -> option St) (P : Z -> St -> Prop) st : P 0 st ->
  (forall b off num g st, gs / gpb <= b <= (gs + n - 1) / gpb -> gs + g = b * gpb + off -> 0 <= off -> 1 <= num -> off + num <= gpb ->
    0 <= g -> g + num <= n -> P g st -> exists st', visit (tb b) off num (g * BlockSizeAlignment) st = Some st' /\ P (g + num) st') ->
  exists st', for_blocks (gpb * BlockSizeAlignment) bt bt_ptr (gs * BlockSizeAlignment) (n * BlockSizeAlignment) visit st = Some st' /\ P n st'.
Proof.
  intros H0 Hv. unfold for_blocks, Kernel.token_group_num, Kernel.token_group_num_per_block, Kernel.start_block_idx,
    Kernel.start_block_group_offset, Kernel.end_block_idx, BlockSizeAlignment in *.
  pose proof (Z.div_mod gs gpb ltac:(lia)). pose proof (Z.mod_pos_bound gs gpb ltac:(lia)).
  pose proof (Z.div_pos gs gpb ltac:(lia) ltac:(lia)).
  rewrite !Z.quot_mul, Z.quot_mul_cancel_r by lia. rewrite Z.rem_mod_nonneg, Zmult_mod_distr_r, Z.quot_mul by nia.
  rewrite Z.quot_div_nonneg by lia.
  assert (Z.quot (gs * 32 + n * 32 - 1) (gpb * 32) = (gs + n - 1) / gpb) as ->.
  { rewrite Z.quot_div_nonneg, (Z.mul_comm gpb), <- Z.div_div by lia. f_equal. symmetry. apply (Z.div_unique_pos _ _ _ 31); lia. }
  pose proof (Z.div_mod (gs + n - 1) gpb ltac:(lia)). pose proof (Z.mod_pos_bound (gs + n - 1) gpb ltac:(lia)).
  set (last := (gs + n - 1) / gpb) in *. assert (gs / gpb <= last) by (apply Z.div_le_mono; lia).
  set (body := fun (block_idx : Z) '(curr_group_offset, curr_group_num_in_block, remaining_group_num, column, st) => _).
  destruct (for_range_inv (fun b s => exists st, s = (offset b, gpb - offset b, n - before b, before b * 32, st) /\ P (before b) st)
    (gs / gpb) (last + 1) body (gs mod gpb, gpb - gs mod gpb, n, 0, st)) as (s & -> & st' & -> & HP); [lia| | |].
  - exists st. replace (before (gs / gpb)) with 0 by nia. replace (offset (gs / gpb)) with (gs mod gpb) by lia.
    by rewrite Z.sub_0_r.
  - intros b s Hb (st1 & -> & HP). unfold body. rewrite Hbt by lia. cbn [mbind option_bind].
    set (num := Z.min (n - before b) (gpb - offset b)).
    assert (before (b + 1) = before b + num) as Eb by (unfold num; nia).
    destruct (Hv b (offset b) num (before b) st1) as (st2 & -> & HP2); [lia|unfold num in *; nia|lia|unfold num; nia|unfold num; lia|lia|unfold num; lia|done|].
    cbn [mbind option_bind]. eexists. split; [done|]. exists st2. rewrite Eb. split; [|done].
    replace (offset (b + 1)) with 0 by nia. by rewrite Z.sub_0_r, Z.mul_add_distr_r, Z.sub_add_distr.
  - cbn [mbind option_bind]. exists st'. split; [done|]. by replace (before (last + 1)) with n in HP by nia.
Qed.

End Blocks.


(** A loop over groups of 32 columns of a matrix. *)
Lemma columns_ok {A} (body : Z -> list A -> option (list A)) (a : list A) ptr stride M q (f : Z -> Z -> A) : 0 <= q -> q * 32 <= stride ->
  (forall g b, 0 <= g < q -> length b = length a ->
    (forall i c, 0 <= i < M -> 0 <= c < 32 -> rd b (ptr + i * stride + (g * 32 + c)) = rd a (ptr + i * stride + (g * 32 + c))) ->
    exists b', body g b = Some b' /\ stores b b' (fun z : Z * Z => 0 <= z.1 < M /\ 0 <= z.2 < 32)
      (fun z => ptr + g * 32 + z.1 * stride + z.2) (fun z => f z.1 (g * 32 + z.2))) ->
  exists a', for_range 0 q body a = Some a' /\ stores a a' (fun z : Z * Z => 0 <= z.1 < M /\ 0 <= z.2 < q * 32)
    (fun z => ptr + z.1 * stride + z.2) (fun z => f z.1 z.2).
Proof.
  intros Hq Hs Hb. destruct (for_range_stores (fun c => c) (fun _ => True) q body (fun _ (z : Z * Z) => 0 <= z.1 < M /\ 0 <= z.2 < 32)
    (fun g z => ptr + g * 32 + z.1 * stride + z.2) (fun g z => f z.1 (g * 32 + z.2)) a) as (a' & E & _ & W).
  - intros g g' [i c] [i' c'] Hg Hg' [Hi Hc] [Hi' Hc'] Heq. cbn [fst snd] in *.
    assert (i = i') by (apply (row_inj stride i i' (g * 32 + c) (g' * 32 + c')); lia). subst i'. lia.
  - done.
  - intros g b Hg _ Lb Hk. destruct (Hb g b Hg Lb) as (b' & Eb & Wb); [|by exists b'].
    intros i c Hi Hc. specialize (Hk (i, c)). cbn [fst snd] in Hk. replace (ptr + i * stride + (g * 32 + c)) with (ptr + g * 32 + i * stride + c) by lia.
    by apply Hk.
  - exists a'. split; [exact E|]. eapply stores_reindex; [| |exact W].
    + intros [i o] [Hi Ho]. cbn [fst snd] in *. exists (o / 32, (i, o mod 32)). cbn [fst snd]. pose proof (Z.div_mod o 32 ltac:(lia)).
      pose proof (Z.mod_pos_bound o 32 ltac:(lia)). replace (o / 32 * 32 + o mod 32) with o by lia.
      split_and!; [apply Z.div_pos; lia|apply Z.div_lt_upper_bound; lia|lia|lia|lia|lia|lia|done].
    + intros [g [i c]] (Hg & Hi & Hc). cbn [fst snd] in *. exists (i, g * 32 + c). cbn [fst snd]. split_and!; lia.
Qed.

(** Some of the cells are stored again. *)
Lemma stores_update {A X} (a b c : list A) (D D' : X -> Prop) `{forall x, Decision (D' x)} addr f f' :
  (forall x, D' x -> D x) -> (forall x y, D x -> D y -> addr x = addr y -> x = y) ->
  stores a b D addr f -> stores b c D' addr f' -> stores a c D addr (fun x => if decide (D' x) then f' x else f x).
Proof.
  intros Hsub Hinj [L V U] [L' V' U']. constructor; [congruence| |].
  - intros x Hx. destruct (decide (D' x)) as [Hx'|Hx']; [by apply V'|]. rewrite U'; [by apply V|].
    intros y Hy Heq. apply Hx'. by rewrite <- (Hinj y x) by auto.
  - intros p Hp. rewrite U', U; [done|done|]. intros x Hx. by apply Hp, Hsub.
Qed.

(** More columns. *)
Lemma stores_columns {A} (a b c : list A) ptr stride M m n (f : Z -> Z -> A) : 0 <= m -> 0 <= n -> m + n <= stride ->
  stores a b (fun z : Z * Z => 0 <= z.1 < M /\ 0 <= z.2 < m) (fun z => ptr + z.1 * stride + z.2) (fun z => f z.1 z.2) ->
  stores b c (fun z : Z * Z => 0 <= z.1 < M /\ 0 <= z.2 < n) (fun z => ptr + m + z.1 * stride + z.2) (fun z => f z.1 (m + z.2)) ->
  stores a c (fun z : Z * Z => 0 <= z.1 < M /\ 0 <= z.2 < m + n) (fun z => ptr + z.1 * stride + z.2) (fun z => f z.1 z.2).
Proof.
  intros Hm Hn Hs W W'. eapply stores_reindex; [| |eapply stores_app; [|exact W|exact W']].
  - intros [i o] [Hi Ho]. cbn [fst snd] in *. destruct (decide (o < m)) as [Hlt|Hge].
    + exists (inl (i, o)). cbn [fst snd]. split_and!; lia || done.
    + exists (inr (i, o - m)). cbn [fst snd]. replace (m + (o - m)) with o by lia. split_and!; lia || done.
  - intros [[i o]|[i o]] [Hi Ho]; cbn [fst snd] in *; [exists (i, o)|exists (i, m + o)]; cbn [fst snd]; split_and!; lia.
  - intros [i o] [i' o'] [Hi Ho] [Hi' Ho'] Heq. cbn [fst snd] in *.
    assert (i = i') by (apply (row_inj stride i i' o (m + o')); lia). subst i'. lia.
Qed.

(** ** The running softmax of a row *)

Section SoftmaxRow.
Context {F : Type} `{FloatOps F}.
Context (x : Z -> F) (n : Z) (m s : F).

(** The maximum with [m], lane by lane; the rescaling, if the maximum has moved enough. *)
Definition row_max : F :=
  reduce_max (tab (fun l => foldl (fun acc g => fmax (x (g * 16 + l)) acc) m (seqZ 0 (n / 16)))).
Definition row_need : bool := ltb (sub m row_max) (litf (-8) 1).
Definition row_new : F := if row_need then row_max else m.
Definition row_factor : F := exp (sub m row_max).
Definition row_prob (j : Z) : F := exp (sub (x j) row_new).
Definition row_sum : F := reduce_sum (tab (fun l => foldl (fun acc g => add acc (row_prob (g * 16 + l))) zero (seqZ 0 (n / 16)))).
Definition row_total : F := if row_need then add row_sum (mul row_factor s) else add row_sum s.
Definition row_scaled (first : bool) (o : F) : F := if row_need && negb first then mul o row_factor else o.

End SoftmaxRow.

Section SoftmaxOk.
Context {F : Type} `{FloatOps F}.
Context (hd hv n nv q_row : Z) (first : bool).
Context (Hhd : hd = hv * 16) (Hhv : 0 <= hv) (Hn : n = nv * 16) (Hnv : 0 <= nv) (Hrow : 0 <= q_row).

Lemma vec_groups : Z.quot n 16 = nv /\ Z.quot hd 16 = hv /\ n / 16 = nv.
Proof. rewrite Hn, Hhd, !Z.quot_mul, Z.div_mul by lia. done. Qed.

Lemma row_maximum_ok (l : list F) i (x : Z -> F) m : (forall j, 0 <= j < n -> rd l (i * n + j) = Some (x j)) ->
  row_maximum n n l i m = Some (row_max x n m).
Proof.
  intros Hx. unfold row_maximum, row_max. destruct vec_groups as (-> & _ & ->).
  set (acc := fun k l => foldl (fun acc g => fmax (x (g * 16 + l)) acc) m (seqZ 0 k)).
  destruct (for_range_inv (fun k v => v = tab (acc k)) 0 nv (fun j max_vec =>
    vec ← rd_range l (i * n + j * 16) 16; Some (vec_max vec max_vec)) (splat m)) as (v & -> & ->); [done|done| |done].
  intros k v Hk ->. rewrite (rd_range_tab l (i * n + k * 16) 16 (fun j => x (k * 16 + j))) by (lia || (intros; rewrite <- Z.add_assoc; apply Hx; lia)).
  cbn [mbind option_bind]. eexists. split; [done|]. unfold vec_max. rewrite zip_with_tab. apply tab_ext. intros j Hj.
  unfold acc. by rewrite seqZ_last, foldl_app by lia.
Qed.

Lemma row_probabilities_ok (l : list F) i (x : Z -> F) m : 0 <= i -> i * n + n <= Z.of_nat (length l) ->
  (forall j, 0 <= j < n -> rd l (i * n + j) = Some (x j)) ->
  exists l', row_probabilities n n i m l = Some (l', reduce_sum (tab (fun c => foldl (fun acc g => add acc (exp (sub (x (g * 16 + c)) m))) zero (seqZ 0 (n / 16))))) /\
    stores l l' (fun j => 0 <= j < n) (fun j => i * n + j) (fun j => exp (sub (x j) m)).
Proof.
  intros Hi Hl Hx. unfold row_probabilities. destruct vec_groups as (-> & _ & ->).
  set (p := fun j => exp (sub (x j) m)). set (acc := fun k c => foldl (fun acc g => add acc (p (g * 16 + c))) zero (seqZ 0 k)).
  set (body := fun (j : Z) '(logits, sum_vec) => _).
  destruct (for_range_inv (fun k '(l', v) => v = tab (acc k) /\ stores l l' (fun j => 0 <= j < k * 16) (fun j => i * n + j) p) 0 nv body (l, splat zero))
    as ([l' v] & -> & -> & W); [done| | |].
  - split; [done|]. constructor; [done| |done]. intros j Hj. lia.
  - intros k [l1 v] Hk [-> W1]. unfold body. pose proof (stores_length _ _ _ _ _ W1) as L1.
    rewrite (rd_range_tab l1 (i * n + k * 16) 16 (fun j => x (k * 16 + j))); [|lia|].
    2: { intros j Hj. rewrite (stores_out _ _ _ _ _ W1) by lia. rewrite <- Hx by lia. f_equal. lia. }
    cbn [mbind option_bind]. unfold vec_sub, splat, VEC_ELEM_NUM. rewrite zip_with_tab.
    assert (0 <= i * n) by (apply Z.mul_nonneg_nonneg; lia).
    destruct (through_ok exp (i * n + k * 16) (fun j => sub (x (k * 16 + j)) m) l1) as (l2 & -> & W2); [lia..|]. cbn [mbind option_bind].
    destruct (wr_range_stores l2 (i * n + k * 16) 16 (fun j => p (k * 16 + j))) as (l3 & E3 & W3); [lia|lia|rewrite (stores_length _ _ _ _ _ W2); lia|].
    change (tab (fun j => exp (sub (x (k * 16 + j)) m))) with (tab (fun j => p (k * 16 + j))). rewrite E3. cbn [mbind option_bind].
    eexists. split; [done|]. split.
    + unfold vec_add. rewrite zip_with_tab. apply tab_ext. intros j Hj. unfold acc. by rewrite seqZ_last, foldl_app by lia.
    + pose proof (stores_again _ _ _ _ _ _ _ W2 W3) as W4. eapply stores_reindex; [| |eapply stores_app; [|exact W1|exact W4]].
      * intros j Hj. destruct (decide (j < k * 16)); [exists (inl j)|exists (inr (j - k * 16)); replace (k * 16 + (j - k * 16)) with j by lia]; split_and!; lia || done.
      * intros [j|j] Hj; [exists j|exists (k * 16 + j)]; cbn beta in *; lia.
      * intros j j' Hj Hj'. cbn beta in *. lia.
  - cbn [mbind option_bind]. exists l'. split; [done|]. by rewrite <- Hn in W.
Qed.

Lemma rescale_row_ok (part : list F) i (o : Z -> F) f : 0 <= i -> (q_row + i) * hd + hd <= Z.of_nat (length part) ->
  (forall d, 0 <= d < hd -> rd part ((q_row + i) * hd + d) = Some (o d)) ->
  exists part', rescale_row hd (q_row * hd) i f part = Some part' /\
    stores part part' (fun d => 0 <= d < hd) (fun d => (q_row + i) * hd + d) (fun d => mul (o d) f).
Proof.
  intros Hi Hl Ho. unfold rescale_row. destruct vec_groups as (_ & -> & _). assert (0 <= (q_row + i) * hd) by (apply Z.mul_nonneg_nonneg; lia).
  rewrite <- Z.mul_add_distr_r. apply (vector_turns_ok 16 (fun j partial => vec ← rd_range partial ((q_row + i) * hd + j * 16) 16;
    wr_range partial ((q_row + i) * hd + j * 16) (vec_mul vec (splat f))) part ((q_row + i) * hd) hd hv (fun d => mul (o d) f)); [lia|done|done|].
  intros g b Hg Lb Hk. rewrite (rd_range_tab b ((q_row + i) * hd + g * 16) 16 (fun c => o (g * 16 + c))); [|lia|].
  2: { intros c Hc. rewrite <- Z.add_assoc, Hk, Ho by lia. done. }
  cbn [mbind option_bind]. unfold vec_mul, splat, VEC_ELEM_NUM. rewrite zip_with_tab. by apply (wr_range_stores b ((q_row + i) * hd + g * 16) 16); lia.
Qed.

(** Row [i] of the four buffers. *)
Record row_is (st : Rows) (i : Z) (x : Z -> F) (m s : F) (o : Z -> F) : Prop := {
  ri_logits : forall j, 0 <= j < n -> rd (logits_buffer st) (i * n + j) = Some (x j);
  ri_max : rd (max_buffer st) (q_row + i) = Some m;
  ri_sum : rd (sum_buffer st) (q_row + i) = Some s;
  ri_partial : forall d, 0 <= d < hd -> rd (partial_q_buffer st) ((q_row + i) * hd + d) = Some (o d)
}.

Record row_done (st st' : Rows) (i : Z) (x : Z -> F) (m s : F) (o : Z -> F) : Prop := {
  rn_logits : stores (logits_buffer st) (logits_buffer st') (fun j => 0 <= j < n) (fun j => i * n + j) (row_prob x n m);
  rn_max : stores (max_buffer st) (max_buffer st') (fun _ : unit => True) (fun _ => q_row + i) (fun _ => row_new x n m);
  rn_sum : stores (sum_buffer st) (sum_buffer st') (fun _ : unit => True) (fun _ => q_row + i) (fun _ => row_total x n m s);
  rn_partial : stores (partial_q_buffer st) (partial_q_buffer st') (fun d => 0 <= d < hd) (fun d => (q_row + i) * hd + d)
    (fun d => row_scaled x n m first (o d))
}.

Lemma softmax_row_ok st i x m s o : 0 <= i -> 0 < n -> 0 < hd -> row_is st i x m s o ->
  exists st', softmax_row hd (q_row * hd) q_row q_row n n first i st = Some st' /\ row_done st st' i x m s o.
Proof.
  intros Hi Hn0 Hhd0 [Hx Hm Hs Ho]. unfold softmax_row. rewrite Hm. cbn [mbind option_bind]. rewrite Hs. cbn [mbind option_bind].
  rewrite (row_maximum_ok _ _ x) by done. cbn [mbind option_bind]. fold (row_need x n m). fold (row_new x n m).
  assert (exists maxs, (if row_need x n m then wr (max_buffer st) (q_row + i) (row_new x n m) else Some (max_buffer st)) = Some maxs /\
    stores (max_buffer st) maxs (fun _ : unit => True) (fun _ => q_row + i) (fun _ => row_new x n m)) as (maxs & -> & Wm).
  { destruct (row_need x n m) eqn:En; [apply wr_stores; by eapply rd_Some|]. exists (max_buffer st). split; [done|]. apply stores_same.
    intros _ _. rewrite Hm. unfold row_new. by rewrite En. }
  cbn [mbind option_bind]. pose proof (rd_Some _ _ _ (Hx (n - 1) ltac:(lia))). pose proof (rd_Some _ _ _ (Ho (hd - 1) ltac:(lia))).
  destruct (row_probabilities_ok (logits_buffer st) i x (row_new x n m)) as (l' & -> & Wl); [done|lia|done|]. cbn [mbind option_bind].
  assert (exists part, (if row_need x n m then
      (partial ← (if first then Some (partial_q_buffer st) else rescale_row hd (q_row * hd) i (exp (sub m (row_max x n m))) (partial_q_buffer st));
       Some (add (row_sum x n m) (mul (exp (sub m (row_max x n m))) s), partial))
      else Some (add (row_sum x n m) s, partial_q_buffer st)) = Some (row_total x n m s, part) /\
    stores (partial_q_buffer st) part (fun d => 0 <= d < hd) (fun d => (q_row + i) * hd + d) (fun d => row_scaled x n m first (o d)))
    as (part & Ep & Wp).
  { unfold row_total, row_scaled. destruct (row_need x n m); [|exists (partial_q_buffer st); split; [done|by apply stores_same]].
    destruct first; cbn [mbind option_bind andb negb]; [exists (partial_q_buffer st); split; [done|by apply stores_same]|].
    destruct (rescale_row_ok (partial_q_buffer st) i o (exp (sub m (row_max x n m)))) as (part & -> & W); [done|lia|done|]. by exists part. }
  change (reduce_sum _) with (row_sum x n m). rewrite Ep. cbn [mbind option_bind].
  destruct (wr_stores (sum_buffer st) (q_row + i) (row_total x n m s)) as (sums & -> & Ws); [by eapply rd_Some|]. cbn [mbind option_bind].
  eexists. split; [done|]. by constructor.
Qed.

Lemma apply_softmax_ok st rows (x : Z -> Z -> F) (m s : Z -> F) (o : Z -> Z -> F) : 0 <= rows -> 0 < n -> 0 < hd ->
  (forall i, 0 <= i < rows -> row_is st i (x i) (m i) (s i) (o i)) ->
  exists st', apply_softmax hd (q_row * hd) q_row q_row n n first rows st = Some st' /\
    stores (logits_buffer st) (logits_buffer st') (fun z : Z * Z => 0 <= z.1 < rows /\ 0 <= z.2 < n) (fun z => z.1 * n + z.2)
      (fun z => row_prob (x z.1) n (m z.1) z.2) /\
    stores (max_buffer st) (max_buffer st') (fun z : Z * unit => 0 <= z.1 < rows /\ True) (fun z => q_row + z.1) (fun z => row_new (x z.1) n (m z.1)) /\
    stores (sum_buffer st) (sum_buffer st') (fun z : Z * unit => 0 <= z.1 < rows /\ True) (fun z => q_row + z.1)
      (fun z => row_total (x z.1) n (m z.1) (s z.1)) /\
    stores (partial_q_buffer st) (partial_q_buffer st') (fun z : Z * Z => 0 <= z.1 < rows /\ 0 <= z.2 < hd) (fun z => (q_row + z.1) * hd + z.2)
      (fun z => row_scaled (x z.1) n (m z.1) first (o z.1 z.2)).
Proof.
  intros Hr Hn0 Hhd0 Hst. unfold apply_softmax.
  set (I := fun k st' =>
    stores (logits_buffer st) (logits_buffer st') (fun z : Z * Z => 0 <= z.1 < k /\ 0 <= z.2 < n) (fun z => z.1 * n + z.2)
      (fun z => row_prob (x z.1) n (m z.1) z.2) /\
    stores (max_buffer st) (max_buffer st') (fun z : Z * unit => 0 <= z.1 < k /\ True) (fun z => q_row + z.1) (fun z => row_new (x z.1) n (m z.1)) /\
    stores (sum_buffer st) (sum_buffer st') (fun z : Z * unit => 0 <= z.1 < k /\ True) (fun z => q_row + z.1)
      (fun z => row_total (x z.1) n (m z.1) (s z.1)) /\
    stores (partial_q_buffer st) (partial_q_buffer st') (fun z : Z * Z => 0 <= z.1 < k /\ 0 <= z.2 < hd) (fun z => (q_row + z.1) * hd + z.2)
      (fun z => row_scaled (x z.1) n (m z.1) first (o z.1 z.2))).
  destruct (for_range_inv I 0 rows (softmax_row hd (q_row * hd) q_row q_row n n first) st) as (st' & -> & HI); [done| | |by exists st'].
  - unfold I. split_and!; (constructor; [done| |done]); intros [i j] [Hi _]; cbn [fst] in Hi; lia.
  - intros i st1 Hi (Wl & Wm & Ws & Wp). destruct (Hst i Hi) as [Hx Hm Hs Ho].
    destruct (softmax_row_ok st1 i (x i) (m i) (s i) (o i)) as (st2 & E & [Wl2 Wm2 Ws2 Wp2]); [lia|done|done| |].
    { constructor.
      - intros j Hj. rewrite (stores_out _ _ _ _ _ Wl), Hx; [done|done|]. intros [i' j'] [Hi' Hj'] Heq. cbn [fst snd] in *. apply row_inj in Heq; lia.
      - rewrite (stores_out _ _ _ _ _ Wm), Hm; [done|]. intros [i' []] [Hi' _]. cbn [fst] in *. lia.
      - rewrite (stores_out _ _ _ _ _ Ws), Hs; [done|]. intros [i' []] [Hi' _]. cbn [fst] in *. lia.
      - intros d Hd. rewrite (stores_out _ _ _ _ _ Wp), Ho; [done|done|]. intros [i' d'] [Hi' Hd'] Heq. cbn [fst snd] in *. apply row_inj in Heq; lia. }
    exists st2. split; [exact E|]. unfold I. split_and!.
    + refine (stores_snoc i _ _ _ (fun _ j => 0 <= j < n) (fun i j => i * n + j) (fun i => row_prob (x i) n (m i)) ltac:(lia) _ Wl Wl2).
      intros t j j' Ht Hj Hj' Heq. apply row_inj in Heq; lia.
    + refine (stores_snoc i _ _ _ (fun _ (_ : unit) => True) (fun i _ => q_row + i) (fun i _ => row_new (x i) n (m i)) ltac:(lia) _ Wm Wm2). lia.
    + refine (stores_snoc i _ _ _ (fun _ (_ : unit) => True) (fun i _ => q_row + i) (fun i _ => row_total (x i) n (m i) (s i)) ltac:(lia) _ Ws Ws2). lia.
    + refine (stores_snoc i _ _ _ (fun _ d => 0 <= d < hd) (fun i d => (q_row + i) * hd + d) (fun i d => row_scaled (x i) n (m i) first (o i d)) ltac:(lia) _ Wp Wp2).
      intros t d d' Ht Hd Hd' Heq. apply row_inj in Heq; [|done..]. lia.
Qed.

End SoftmaxOk.

(** ** One call *)

Section Call.
Context {K F : Type} `{FloatOps F} `{ScalarOps K F}.
Context (hd : Z) (cache : Cache K F) (kv_end gs n tokens q_pos : Z).
Context (gpb hg : Z) (key val : Z -> Z -> K).

Abbreviation lo := (gs * 32).
Abbreviation hi := (gs * 32 + n * 32).
Abbreviation width := (n * 32).
Abbreviation heads := (heads_per_kv cache).
Abbreviation R := (tokens * heads_per_kv cache).
Abbreviation M := (padded (tokens * heads_per_kv cache)).
Abbreviation tb b := (at_ (table cache) (table_ptr cache + b)).
Abbreviation page pos := (head_ptr cache + tb (pos / block_size cache) * num_blocks_stride cache).

(** What a call needs: the shape, the pages of the tile, and rows for the padding. *)
Record call_ready : Prop := {
  cr_hd : hd = hg * 32 /\ 1 <= hg;
  cr_block : block_size cache = gpb * 32 /\ 1 <= gpb;
  cr_tile : 0 <= gs /\ 1 <= n;
  cr_rows : 1 <= tokens /\ 1 <= heads /\ R <= 8;
  cr_table : forall b, gs / gpb <= b <= (gs + n - 1) / gpb -> 0 <= table_ptr cache + b < Z.of_nat (length (table cache));
  cr_key : forall pos d, lo <= pos < hi -> 0 <= d < hd ->
    rd (key_cache cache) (page pos + d * block_size cache + pos mod block_size cache) = Some (key pos d);
  cr_val : forall pos d, lo <= pos < hi -> 0 <= d < hd ->
    rd (value_cache cache) (page pos + pos mod block_size cache * hd + d) = Some (val pos d)
}.
Context (CR : call_ready).

(** The logits before they are processed; only the real rows are scaled. *)
Definition raw_logit (q : Z -> F) (pos : Z) : F :=
  let x := fdot zero q (fun d => load (key pos d)) hd in
  if scale_on_logits (kv_kind cache) then mul x (scale_val cache) else x.
Definition padding_logit (q : Z -> F) (pos : Z) : F := fdot zero q (fun d => load (key pos d)) hd.
Definition row_logit (q : Z -> Z -> F) (i j : Z) : F :=
  if decide (i < R) then raw_logit (q i) (lo + j) else padding_logit (q i) (lo + j).

Lemma group_page b off num g c : gs + g = b * gpb + off -> 0 <= off -> off + num <= gpb -> 0 <= c < num * 32 ->
  (lo + (g * 32 + c)) / block_size cache = b /\ (lo + (g * 32 + c)) mod block_size cache = off * 32 + c.
Proof.
  intros Hg Ho Hle Hc. destruct (cr_block CR) as [-> Hgpb]. replace (lo + (g * 32 + c)) with (b * (gpb * 32) + (off * 32 + c)) by lia.
  split; [rewrite Z.div_add_l, Z.div_small by lia; lia|]. by rewrite Z.add_comm, Z.mod_add, Z.mod_small by lia.
Qed.

Lemma qk_block_ok (q : Z -> Z -> F) q_heads q_ptr b off num g (l : list F) :
  (forall i d, 0 <= i < M -> 0 <= d < hd -> rd q_heads (q_ptr + i * hd + d) = Some (q i d)) ->
  M * width <= Z.of_nat (length l) ->
  gs / gpb <= b <= (gs + n - 1) / gpb -> gs + g = b * gpb + off -> 0 <= off -> 1 <= num -> off + num <= gpb -> 0 <= g -> g + num <= n ->
  exists l', qk_block hd cache lo hi tokens q_heads q_ptr (tb b) off num (g * 32) l = Some l' /\
    stores l l' (fun z : Z * Z => 0 <= z.1 < M /\ 0 <= z.2 < num * 32) (fun z => g * 32 + z.1 * width + z.2)
      (fun z => row_logit q z.1 (g * 32 + z.2)).
Proof.
  intros Hq Hl Hb Hg Ho Hn1 Hle Hg0 Hgn. unfold qk_block. replace (hi - lo) with width by lia.
  destruct (cr_hd CR) as [Ehd Hhg]. destruct (cr_rows CR) as (Ht & Hh & HR8). pose proof (padded_rows R ltac:(clear -Ht Hh HR8; nia)) as HM.
  apply (columns_ok _ l (g * 32) width M num (fun i c => row_logit q i (g * 32 + c))); [lia|lia|].
  intros g' l1 Hg' L1 _. unfold BlockSizeAlignment, k_cache_token_group_stride, BlockSizeAlignment.
  rewrite gemm_padded by (clear -Ht Hh HR8; nia).
  destruct (tile_gemm_ok q_heads (key_cache cache) q_ptr (head_ptr cache + tb b * num_blocks_stride cache + off * 32 + g' * 32) M hd hd (block_size cache) q
    (fun c d => key (lo + (g * 32 + (g' * 32 + c))) d) ltac:(lia) ltac:(lia) Hq) with (c := l1) (c_ptr := g * 32 + g' * 32) (ldc := width)
    (accum_c := false) (c0 := fun _ _ : Z => zero) as (l2 & -> & W2).
  - intros c d Hc Hd. destruct (group_page b off num g (g' * 32 + c) Hg Ho Hle ltac:(lia)) as [Eb Em].
    rewrite <- (cr_key CR) by lia. rewrite Eb, Em. f_equal. lia.
  - lia.
  - lia.
  - intros i Hi. rewrite L1. clear -Hi Hl HM Hg0 Hg' Hgn Hle Hn1 Ho. nia.
  - done.
  - cbn [mbind option_bind].
    assert (forall x y : Z * Z, 0 <= x.1 < M /\ 0 <= x.2 < 32 -> 0 <= y.1 < M /\ 0 <= y.2 < 32 ->
      g * 32 + g' * 32 + x.1 * width + x.2 = g * 32 + g' * 32 + y.1 * width + y.2 -> x = y) as Hinj.
    { intros [i c] [i' c'] [Hi Hc] [Hi' Hc'] Heq. cbn [fst snd] in *. assert (i = i') by (apply (row_inj width i i' c c'); lia).
      subst i'. f_equal. lia. }
    destruct (scale_on_logits (kv_kind cache)) eqn:Esc.
    + destruct (scale_logits_ok (g * 32 + g' * 32) width R 32 (fun i c => padding_logit (q i) (lo + (g * 32 + (g' * 32 + c)))) l2
        ltac:(lia) ltac:(by exists 2) ltac:(lia)) with (scale := scale_val cache) as (l3 & -> & W3).
      * rewrite (stores_length _ _ _ _ _ W2), L1. clear -HM Hl Hg0 Hg' Hgn Hle Hn1 Ho Ht Hh. nia.
      * intros i c Hi Hc. apply (stores_in _ _ _ _ _ W2 (i, c)). cbn [fst snd]. lia.
      * done.
      * exists l3. split; [done|]. eapply stores_reindex; [| |refine (stores_update _ _ _ _ _ _ _ _ _ Hinj W2 W3); intros [i c] [Hi Hc]; cbn [fst snd] in *; lia].
        all: cbn beta in *.
        -- intros [i c] Hz. exists (i, c). split; [exact Hz|]. split; [done|]. cbn [fst snd] in *. unfold row_logit, raw_logit. rewrite Esc. repeat case_decide; done || lia.
        -- intros [i c] Hz. by exists (i, c).
    + exists l2. split; [done|]. eapply stores_reindex; [| |exact W2].
      * intros [i c] Hz. exists (i, c). split; [exact Hz|]. split; [done|]. cbn [fst snd] in *. unfold row_logit, raw_logit. rewrite Esc. by case_decide.
      * intros [i c] Hz. by exists (i, c).
Qed.


Lemma width_eq : hi - lo = width.
Proof. lia. Qed.

Lemma qk_ok (q : Z -> Z -> F) q_heads q_ptr (l : list F) :
  (forall i d, 0 <= i < M -> 0 <= d < hd -> rd q_heads (q_ptr + i * hd + d) = Some (q i d)) -> M * width <= Z.of_nat (length l) ->
  exists l', for_blocks (block_size cache) (table cache) (table_ptr cache) lo width (qk_block hd cache lo hi tokens q_heads q_ptr) l = Some l' /\
    stores l l' (fun z : Z * Z => 0 <= z.1 < M /\ 0 <= z.2 < width) (fun z => z.1 * width + z.2) (fun z => row_logit q z.1 z.2).
Proof.
  intros Hq Hl. destruct (cr_block CR) as [-> Hgpb]. destruct (cr_tile CR) as [Hgs Hn].
  destruct (@for_blocks_ok (list F) gpb gs n (table_ptr cache) (table cache) (fun b => tb b) Hgpb Hgs Hn) with
    (visit := qk_block hd cache lo hi tokens q_heads q_ptr) (st := l)
    (P := fun g l' => stores l l' (fun z : Z * Z => 0 <= z.1 < M /\ 0 <= z.2 < g * 32) (fun z => 0 + z.1 * width + z.2) (fun z => row_logit q z.1 z.2))
    as (l' & E & W).
  - intros b Hb. apply rd_at, (cr_table CR), Hb.
  - constructor; [done| |done]. intros [i c] [_ Hc]. cbn [fst snd] in Hc. lia.
  - intros b off num g l1 Hb Hg Ho Hn1 Hle Hg0 Hgn W1. unfold BlockSizeAlignment.
    destruct (qk_block_ok q q_heads q_ptr b off num g l1 Hq) as (l2 & E2 & W2); [by rewrite (stores_length _ _ _ _ _ W1)|done..|].
    exists l2. split; [exact E2|]. rewrite Z.mul_add_distr_r.
    eapply (stores_columns _ _ _ 0 width M (g * 32) (num * 32)); [lia|lia|lia|exact W1|exact W2].
  - exists l'. by split.
Qed.

Lemma pv_block_ok (p : Z -> Z -> F) probs ptr b off num g (part : list F) (accum : bool) (c0 : Z -> Z -> F) :
  (forall i j, 0 <= i < M -> 0 <= j < width -> rd probs (i * width + j) = Some (p i j)) ->
  0 <= ptr -> ptr + M * hd <= Z.of_nat (length part) ->
  (forall i d, 0 <= i < M -> 0 <= d < hd -> if accum then rd part (ptr + i * hd + d) = Some (c0 i d) else c0 i d = zero) ->
  gs + g = b * gpb + off -> 0 <= off -> 1 <= num -> off + num <= gpb -> 0 <= g -> g + num <= n ->
  exists part', pv_block hd cache lo hi tokens probs ptr (tb b) off num (g * 32) (part, accum) = Some (part', true) /\
    stores part part' (fun z : Z * Z => 0 <= z.1 < M /\ 0 <= z.2 < hd) (fun z => ptr + z.1 * hd + z.2)
      (fun z => fdot (c0 z.1 z.2) (fun j => p z.1 (g * 32 + j)) (fun j => load (val (lo + (g * 32 + j)) z.2)) (num * 32)).
Proof.
  intros Hp Hptr Hl Hc0 Hg Ho Hn1 Hle Hg0 Hgn. unfold pv_block. rewrite width_eq.
  destruct (cr_hd CR) as [Ehd Hhg]. destruct (cr_rows CR) as (Ht & Hh & HR8). pose proof (padded_rows R ltac:(clear -Ht Hh HR8; nia)) as HM.
  unfold HeadDimAlignment, BlockSizeAlignment, v_cache_token_group_stride, v_cache_head_group_stride, BlockSizeAlignment, HeadDimAlignment.
  assert (Z.quot hd 32 = hg) as -> by (rewrite Ehd; apply Z.quot_mul; lia).
  destruct (columns_ok (fun head_dim_group_idx partial => gemm R probs (g * 32) (value_cache cache)
      (head_ptr cache + tb b * num_blocks_stride cache + off * (hd * 32) + head_dim_group_idx * 32)
      partial (ptr + head_dim_group_idx * 32) width hd hd (num * 32) accum) part ptr hd M hg
    (fun i d => fdot (c0 i d) (fun j => p i (g * 32 + j)) (fun j => load (val (lo + (g * 32 + j)) d)) (num * 32))) as (part' & -> & W); [lia|lia| |].
  - intros h part1 Hh1 L1 Hk. rewrite gemm_padded by (clear -Ht Hh HR8; nia).
    refine (tile_gemm_ok probs (value_cache cache) (g * 32) (head_ptr cache + tb b * num_blocks_stride cache + off * (hd * 32) + h * 32) M (num * 32)
      width hd (fun i j => p i (g * 32 + j)) (fun c j => val (lo + (g * 32 + j)) (h * 32 + c)) ltac:(lia) ltac:(lia) _ _
      part1 (ptr + h * 32) hd accum (fun i c => c0 i (h * 32 + c)) ltac:(lia) ltac:(lia) _ _).
    + intros i j Hi Hj. rewrite <- Hp by lia. f_equal. lia.
    + intros c j Hc Hj. destruct (group_page b off num g j Hg Ho Hle ltac:(lia)) as [Eb Em].
      rewrite <- (cr_val CR) by lia. rewrite Eb, Em. f_equal. lia.
    + intros i Hi. rewrite L1. clear -Hi Hl HM Ehd Hh1. nia.
    + intros i c Hi Hc. specialize (Hc0 i (h * 32 + c) Hi ltac:(lia)). destruct accum; [|done]. rewrite <- Hc0.
      replace (ptr + h * 32 + i * hd + c) with (ptr + i * hd + (h * 32 + c)) by lia. by apply Hk.
  - cbn [mbind option_bind]. exists part'. split; [done|]. by rewrite <- Ehd in W.
Qed.

Lemma pv_ok (p : Z -> Z -> F) probs ptr (part : list F) (first : bool) (c0 : Z -> Z -> F) :
  (forall i j, 0 <= i < M -> 0 <= j < width -> rd probs (i * width + j) = Some (p i j)) ->
  0 <= ptr -> ptr + M * hd <= Z.of_nat (length part) ->
  (forall i d, 0 <= i < M -> 0 <= d < hd -> if first then c0 i d = zero else rd part (ptr + i * hd + d) = Some (c0 i d)) ->
  exists part', for_blocks (block_size cache) (table cache) (table_ptr cache) lo width (pv_block hd cache lo hi tokens probs ptr)
      (part, negb first) = Some (part', true) /\
    stores part part' (fun z : Z * Z => 0 <= z.1 < M /\ 0 <= z.2 < hd) (fun z => ptr + z.1 * hd + z.2)
      (fun z => fdot (c0 z.1 z.2) (p z.1) (fun j => load (val (lo + j) z.2)) width).
Proof.
  intros Hp Hptr Hl Hc0. destruct (cr_block CR) as [Eb Hgpb]. rewrite Eb. destruct (cr_tile CR) as [Hgs Hn].
  set (res := fun g (z : Z * Z) => fdot (c0 z.1 z.2) (p z.1) (fun j => load (val (lo + j) z.2)) (g * 32)).
  set (D := fun z : Z * Z => 0 <= z.1 < M /\ 0 <= z.2 < hd). set (addr := fun z : Z * Z => ptr + z.1 * hd + z.2).
  destruct (@for_blocks_ok (list F * bool) gpb gs n (table_ptr cache) (table cache) (fun b => tb b) Hgpb Hgs Hn) with
    (visit := pv_block hd cache lo hi tokens probs ptr) (st := (part, negb first))
    (P := fun g (st : list F * bool) => (g = 0 /\ st = (part, negb first)) \/ (0 < g /\ st.2 = true /\ stores part st.1 D addr (res g)))
    as ([part' accum] & E & [[Hc _]|(_ & Ea & W)]).
  - intros b Hb. apply rd_at, (cr_table CR), Hb.
  - by left.
  - intros b off num g [part1 accum] Hb Hg Ho Hn1 Hle Hg0 Hgn HP. unfold BlockSizeAlignment.
    destruct (pv_block_ok p probs ptr b off num g part1 accum (fun i d => res g (i, d)) Hp Hptr) as (part2 & E2 & W2); [| |done..|].
    + destruct HP as [[_ [= -> ->]]|(_ & _ & W1)]; [done|]. cbn [fst] in W1. by rewrite (stores_length _ _ _ _ _ W1).
    + intros i d Hi Hd. destruct HP as [[-> [= -> ->]]|(_ & Ea & W1)].
      * specialize (Hc0 i d Hi Hd). unfold res, fdot, dot_from. change (seqZ 0 (0 * 32)) with (@nil Z). cbn [foldl fst snd].
        destruct first; exact Hc0.
      * cbn [fst snd] in *. rewrite Ea. by apply (stores_in _ _ _ _ _ W1 (i, d)).
    + exists (part2, true). split; [exact E2|]. right. split; [lia|]. split; [done|]. cbn [fst].
      assert (stores part1 part2 D addr (res (g + num))) as W3.
      { eapply stores_reindex; [| |exact W2]; intros [i d] Hz; exists (i, d); split; [exact Hz|split; [done|]|exact Hz|done].
        unfold res. cbn [fst snd]. rewrite Z.mul_add_distr_r, fdot_app by lia. done. }
      destruct HP as [[-> [= -> ->]]|(_ & _ & W1)]; [done|]. by eapply stores_again.
  - lia.
  - exists part'. cbn [snd fst] in *. subst accum. by split.
Qed.



Definition slope_at (h : Z) : F :=
  match slopes cache with None => zero | Some (alibi_slopes, ptr) => default zero (rd alibi_slopes (ptr + h)) end.
Definition slopes_ready : Prop :=
  match slopes cache with None => True | Some (alibi_slopes, ptr) => 0 <= ptr /\ ptr + heads <= Z.of_nat (length alibi_slopes) end.

Definition capped (v : F) : F := if eqb (softcap cache) (litf 0 1) then v else softcapped (softcap cache) v.
Definition with_bias (i j : Z) (v : F) : F :=
  match slopes cache with None => v | Some _ => biased heads q_pos lo slope_at i j v end.

(** The logits that the softmax gets. *)
Definition logit (q : Z -> Z -> F) (i j : Z) : F :=
  if decide (Kernel.unmasked kv_end lo hi (window_left cache) (window_right cache) (q_pos + i / heads) j)
  then with_bias i j (capped (raw_logit (q i) (lo + j))) else neg_inf.

Lemma process_logits_ok (q : Z -> Z -> F) (l : list F) : lo < kv_end -> slopes_ready -> R * width <= Z.of_nat (length l) ->
  (forall i j, 0 <= i < R -> 0 <= j < width -> rd l (i * width + j) = Some (raw_logit (q i) (lo + j))) ->
  exists l', process_logits cache kv_end lo hi tokens q_pos l = Some l' /\ length l' = length l /\
    forall i j, 0 <= i < R -> 0 <= j < width -> rd l' (i * width + j) = Some (logit q i j).
Proof.
  intros Hend Hsl Hl Hx. destruct (cr_rows CR) as (Ht & Hh & _). destruct (cr_tile CR) as [Hgs Hn]. unfold process_logits. rewrite width_eq.
  assert (16 | width) as Hw by (exists (n * 2); lia).
  assert (exists l1, (if eqb (softcap cache) (litf 0 1) then Some l else apply_softcap width R width (softcap cache) l) = Some l1 /\ length l1 = length l /\
    forall i j, 0 <= i < R -> 0 <= j < width -> rd l1 (i * width + j) = Some (capped (raw_logit (q i) (lo + j)))) as (l1 & -> & L1 & H1).
  { unfold capped. destruct (eqb (softcap cache) (litf 0 1)); [by exists l|].
    destruct (apply_softcap_ok R width (fun i j => raw_logit (q i) (lo + j)) l Hw ltac:(lia) Hl Hx (softcap cache)) as (l1 & E & W).
    exists l1. split; [exact E|]. split; [exact (stores_length _ _ _ _ _ W)|]. intros i j Hi Hj. by apply (stores_in _ _ _ _ _ W (i, j)). }
  cbn [mbind option_bind].
  assert (exists l2, match slopes cache with None => Some l1 | Some (alibi_slopes, slopes_ptr) =>
      apply_alibi_slopes alibi_slopes slopes_ptr width q_pos lo tokens width heads l1 end = Some l2 /\ length l2 = length l /\
    forall i j, 0 <= i < R -> 0 <= j < width -> rd l2 (i * width + j) = Some (with_bias i j (capped (raw_logit (q i) (lo + j))))) as (l2 & -> & L2 & H2).
  { unfold with_bias, slope_at, slopes_ready in *. destruct (slopes cache) as [[alibi_slopes ptr]|]; [|by exists l1].
    destruct (apply_alibi_ok tokens heads width q_pos lo (fun i j => capped (raw_logit (q i) (lo + j))) l1 alibi_slopes ptr
      (fun h => default zero (rd alibi_slopes (ptr + h)))) as (l2 & E & W); [lia|done|lia|by rewrite L1|done| |].
    - intros h Hh1. destruct (rd_is_Some alibi_slopes (ptr + h)) as [v ->]; [lia|done].
    - exists l2. split; [exact E|]. split; [by rewrite (stores_length _ _ _ _ _ W)|]. intros i j Hi Hj. by apply (stores_in _ _ _ _ _ W (i, j)). }
  cbn [mbind option_bind].
  destruct (Kernel.apply_mask_spec neg_inf kv_end lo hi (window_left cache) (window_right cache) q_pos tokens heads l2) as (l3 & E3 & L3 & H3);
    [done|lia|lia|lia|by rewrite width_eq, L2|]. rewrite width_eq in E3, H3.
  exists l3. split; [exact E3|]. split; [by rewrite L3|]. intros i j Hi Hj.
  pose proof (Z.div_mod i heads ltac:(lia)). pose proof (Z.mod_pos_bound i heads ltac:(lia)).
  specialize (H3 (i / heads) (i mod heads) j). replace (i / heads * heads + i mod heads) with i in H3 by lia.
  rewrite H3; [|split; [apply Z.div_pos; lia|apply Z.div_lt_upper_bound; lia]|lia|lia]. unfold logit. case_decide; [by apply H2|done].
Qed.

(** What a call leaves in the rows of its buffers. *)
Section Result.
Context (q : Z -> Z -> F) (m s : Z -> F) (o : Z -> Z -> F) (q_row : Z) (first : bool).

Definition new_max (i : Z) : F := row_new (logit q i) width (m i).
Definition new_sum (i : Z) : F := row_total (logit q i) width (m i) (s i).
Definition new_partial (i d : Z) : F :=
  fdot (if first then zero else row_scaled (logit q i) width (m i) false (o i d)) (row_prob (logit q i) width (m i))
    (fun j => load (val (lo + j) d)) width.

Record rows_ready (q_heads : list F) (st : Rows) : Prop := {
  rr_row : 0 <= q_row;
  rr_q : forall i d, 0 <= i < M -> 0 <= d < hd -> rd q_heads ((q_row + i) * hd + d) = Some (q i d);
  rr_logits : M * width <= Z.of_nat (length (logits_buffer st));
  rr_partial : forall i d, 0 <= i < M -> 0 <= d < hd -> rd (partial_q_buffer st) ((q_row + i) * hd + d) = Some (o i d);
  rr_max : forall i, 0 <= i < R -> rd (max_buffer st) (q_row + i) = Some (m i);
  rr_sum : forall i, 0 <= i < R -> rd (sum_buffer st) (q_row + i) = Some (s i)
}.

Lemma attention_ok q_heads st : lo < kv_end -> slopes_ready -> rows_ready q_heads st ->
  exists st', attention hd cache kv_end lo hi tokens q_pos q_heads q_row first st = Some st' /\
    length (logits_buffer st') = length (logits_buffer st) /\
    stores (max_buffer st) (max_buffer st') (fun z : Z * unit => 0 <= z.1 < R /\ True) (fun z => q_row + z.1) (fun z => new_max z.1) /\
    stores (sum_buffer st) (sum_buffer st') (fun z : Z * unit => 0 <= z.1 < R /\ True) (fun z => q_row + z.1) (fun z => new_sum z.1) /\
    exists g, stores (partial_q_buffer st) (partial_q_buffer st') (fun z : Z * Z => 0 <= z.1 < M /\ 0 <= z.2 < hd) (fun z => (q_row + z.1) * hd + z.2) g /\
      forall i d, 0 <= i < R -> 0 <= d < hd -> g (i, d) = new_partial i d.
Proof.
  intros Hend Hsl [Hrow Hq Hl Ho Hm Hs]. unfold attention. cbv zeta. rewrite !width_eq.
  destruct (cr_hd CR) as [Ehd Hhg]. destruct (cr_rows CR) as (Ht & Hh & HR8). destruct (cr_tile CR) as [Hgs Hn].
  pose proof (padded_rows R ltac:(clear -Ht Hh HR8; nia)) as HM.
  destruct (qk_ok q q_heads (q_row * hd) (logits_buffer st)) as (l1 & -> & W1); [|done|].
  { intros i d Hi Hd. rewrite <- Z.mul_add_distr_r. by apply Hq. }
  cbn [mbind option_bind].
  destruct (process_logits_ok q l1 Hend Hsl) as (l2 & -> & L2 & H2).
  { rewrite (stores_length _ _ _ _ _ W1). clear -HM Hl Hn. nia. }
  { intros i j Hi Hj. etrans; [apply (stores_in _ _ _ _ _ W1 (i, j)); cbn [fst snd]; lia|]. cbn [fst snd]. unfold row_logit. by rewrite decide_True by lia. }
  cbn [mbind option_bind]. set (st1 := {| logits_buffer := l2; partial_q_buffer := _; max_buffer := _; sum_buffer := _ |}).
  destruct (apply_softmax_ok hd (hg * 2) width (n * 2) q_row first ltac:(lia) ltac:(lia) ltac:(lia) ltac:(lia) Hrow st1 R (logit q) m s o)
    as (st2 & -> & Wl & Wm & Ws & Wp); [lia|lia|lia| |].
  { intros i Hi. constructor; cbn [st1 logits_buffer partial_q_buffer max_buffer sum_buffer].
    - intros j Hj. by apply H2. - by apply Hm. - by apply Hs. - intros d Hd. apply Ho; lia. }
  cbn [mbind option_bind]. cbn [st1 logits_buffer partial_q_buffer max_buffer sum_buffer] in *.
  set (p := fun i j => default zero (rd (logits_buffer st2) (i * width + j))).
  set (o1 := fun i d => if decide (i < R) then row_scaled (logit q i) width (m i) first (o i d) else o i d).
  assert (forall i d, 0 <= i < M -> 0 <= d < hd -> rd (partial_q_buffer st2) ((q_row + i) * hd + d) = Some (o1 i d)) as Ho1.
  { intros i d Hi Hd. unfold o1. case_decide.
    - apply (stores_in _ _ _ _ _ Wp (i, d)). cbn [fst snd]. lia.
    - rewrite (stores_out _ _ _ _ _ Wp); [by apply Ho|]. intros [i' d'] [Hi' Hd'] Heq. cbn [fst snd] in *. apply row_inj in Heq; lia. }
  pose proof (rd_Some _ _ _ (Ho1 (M - 1) (hd - 1) ltac:(lia) ltac:(lia))) as Lp.
  destruct (pv_ok p (logits_buffer st2) (q_row * hd) (partial_q_buffer st2) first (fun i d => if first then zero else o1 i d)) as (part & -> & Wv).
  { intros i j Hi Hj. unfold p. destruct (rd_is_Some (logits_buffer st2) (i * width + j)) as [v ->]; [|done].
    rewrite (stores_length _ _ _ _ _ Wl), L2, (stores_length _ _ _ _ _ W1). pose proof (row_bounds width i j M Hi Hj). lia. }
  { apply Z.mul_nonneg_nonneg; lia. }
  { clear -Lp. lia. }
  { intros i d Hi Hd. destruct first; [done|]. rewrite <- Z.mul_add_distr_r. by apply Ho1. }
  cbn [mbind option_bind]. eexists. split; [done|]. cbn [logits_buffer partial_q_buffer max_buffer sum_buffer].
  split; [by rewrite (stores_length _ _ _ _ _ Wl), L2, (stores_length _ _ _ _ _ W1)|]. split; [exact Wm|]. split; [exact Ws|].
  eexists (fun z => fdot (if first then zero else o1 z.1 z.2) (p z.1) (fun j => load (val (lo + j) z.2)) width). split.
  - assert (stores (partial_q_buffer st2) part (fun z : Z * Z => 0 <= z.1 < M /\ 0 <= z.2 < hd) (fun z => (q_row + z.1) * hd + z.2)
      (fun z => fdot (if first then zero else o1 z.1 z.2) (p z.1) (fun j => load (val (lo + j) z.2)) width)) as Wv'.
    { eapply stores_reindex; [| |exact Wv]; intros [i d] Hz; exists (i, d); cbn [fst snd] in *; (split; [exact Hz|]); [split; [lia|done]|lia]. }
    constructor; [by rewrite (stores_length _ _ _ _ _ Wv'), (stores_length _ _ _ _ _ Wp)|exact (stores_in _ _ _ _ _ Wv')|].
    intros a Ha. rewrite (stores_out _ _ _ _ _ Wv'), (stores_out _ _ _ _ _ Wp); [done| |done].
    intros [i d] [Hi Hd]. apply (Ha (i, d)). cbn [fst snd] in *. lia.
  - intros i d Hi Hd. cbn [fst snd]. unfold new_partial.
    assert ((if first then zero else o1 i d) = if first then zero else row_scaled (logit q i) width (m i) false (o i d)) as ->.
    { destruct first; [done|]. unfold o1. by rewrite decide_True by lia. }
    unfold fdot. apply dot_ext. intros j Hj. split; [|done]. unfold p. pose proof (stores_in _ _ _ _ _ Wl (i, j) ltac:(done)) as V. cbn [fst snd] in V. by rewrite V.
Qed.

End Result.
End Call.

End Tile.
