(* ===== verification/AttnReal.v ===== *)
(** * The CPU attention kernel over exact arithmetic

    The kernel is generic in the arithmetic of [float].  Here it runs on the real numbers
    with minus infinity, so that its result can be compared with the definition of
    attention: the running maximum and the rescaling of partial results cancel, and what
    remains is the softmax of the scores.  [erf] is not used by the kernel and stays a
    parameter. *)

From Stdlib Require Import Reals Lra.
From S2P Require Import Prelude Arrays Counting Stores MicroGemm AttnKernel AttnTile.

#[local] Open Scope Z_scope.

Module Exact.
Import Counting MicroGemm Tile.
Import (hints) Kernel.

(** ** Sums *)

Definition Rsum {A} (f : A -> R) (l : list A) : R := foldr (fun k s => (f k + s)%R) 0%R l.

Section Sums.
Context {A : Type}.
Implicit Types (f g : A -> R) (l : list A).
Open Scope R_scope.

Lemma Rsum_app f l k : Rsum f (l ++ k) = Rsum f l + Rsum f k.
Proof. induction l; simpl; [lra|]. rewrite IHl. lra. Qed.

Lemma Rsum_ext f g l : (forall x, x ∈ l -> f x = g x) -> Rsum f l = Rsum g l.
Proof.
  induction l as [|x l IH]; simpl; intros H; [done|]. rewrite (H x) by constructor. f_equal. apply IH. intros y Hy. apply H. by constructor.
Qed.

Lemma Rsum_scale c f l : c * Rsum f l = Rsum (fun x => c * f x) l.
Proof. induction l; simpl; [lra|]. rewrite <- IHl. lra. Qed.

Lemma Rsum_plus f g l : Rsum f l + Rsum g l = Rsum (fun x => f x + g x) l.
Proof. induction l; simpl; [lra|]. rewrite <- IHl. lra. Qed.

Lemma Rsum_filter (P : A -> Prop) `{forall x, Decision (P x)} f l :
  Rsum f (filter P l) = Rsum (fun x => if decide (P x) then f x else 0) l.
Proof.
  induction l as [|x l IH]; [done|]. destruct (decide (P x)) as [Hx|Hx].
  - rewrite filter_cons_True by done. simpl. rewrite decide_True by done. by rewrite IH.
  - rewrite filter_cons_False by done. simpl. rewrite decide_False by done. rewrite IH. lra.
Qed.

#[export] Instance Rsum_perm f : Proper ((≡ₚ) ==> (=)) (Rsum f).
Proof. induction 1; simpl; [done|by f_equal|lra|congruence]. Qed.

End Sums.

Lemma Rsum_map {A B} (h : A -> B) (f : B -> R) l : Rsum f (h <$> l) = Rsum (fun x => f (h x)) l.
Proof. induction l; simpl; [done|]. by f_equal. Qed.

(** A sum lane by lane. *)
Lemma Rsum_lanes (f : Z -> R) w q : 0 <= q -> 0 <= w ->
  Rsum (fun l => Rsum (fun g => f (g * w + l)) (seqZ 0 q)) (seqZ 0 w) = Rsum f (seqZ 0 (q * w)).
Proof.
  intros Hq Hw. revert q Hq. refine (natlike_ind _ _ _).
  - rewrite Z.mul_0_l. cbn [seqZ]. change (seqZ 0 0) with (@nil Z). simpl. induction (seqZ 0 w); simpl; [done|]. rewrite IHl. lra.
  - intros q Hq IH. replace (Z.succ q) with (q + 1) by lia. rewrite Z.mul_add_distr_r, Z.mul_1_l, (seqZ_app 0 (q * w) w), Rsum_app, <- IH by nia.
    rewrite Z.add_0_l. replace (seqZ (q * w) w) with (Z.add (q * w) <$> seqZ 0 w) by (rewrite fmap_add_seqZ; f_equal; lia).
    rewrite Rsum_map, Rsum_plus. apply Rsum_ext. intros l _. rewrite seqZ_last, Rsum_app by done. simpl. lra.
Qed.

(** ** Arithmetic *)

Inductive xr := Fin (r : R) | NegInf.

Definition lift (f : R -> R -> R) (a b : xr) : xr := match a, b with Fin a, Fin b => Fin (f a b) | _, _ => NegInf end.
Definition lift1 (f : R -> R) (a : xr) : xr := match a with Fin a => Fin (f a) | NegInf => NegInf end.
Definition rlt (a b : xr) : bool :=
  match a, b with Fin a, Fin b => if Rlt_dec a b then true else false | NegInf, Fin _ => true | _, NegInf => false end.
Definition req (a b : xr) : bool :=
  match a, b with Fin a, Fin b => if Req_dec_T a b then true else false | NegInf, NegInf => true | _, _ => false end.

(** [erf] is a function of the C++ library that has no counterpart here. *)
Class Erf := erf_of : xr -> xr.

#[export] Instance real_ops `{Erf} : FloatOps xr := {|
  add := lift Rplus;
  sub := lift Rminus;
  mul := lift Rmult;
  div := lift Rdiv;
  opp := lift1 Ropp;
  ltb := rlt;
  eqb := req;
  neg_inf := NegInf;
  lit n d := Fin (IZR n / IZR d);
  litf n d := Fin (IZR n / IZR d);
  sqrt := lift1 R_sqrt.sqrt;
  exp a := match a with Fin a => Fin (Rtrigo_def.exp a) | NegInf => Fin 0 end;
  erf := erf_of;
  tanh := lift1 Rtrigo_def.tanh
|}.

Section Row.
Context `{Erf}.

Lemma foldl_fin {A} (f : A -> R) l a : foldl (fun acc g => add acc (Fin (f g))) (Fin a) l = Fin (a + Rsum f l).
Proof. revert a. induction l as [|x l IH]; intros a; simpl; [f_equal; lra|]. rewrite IH. f_equal. lra. Qed.

Lemma lit_1 n : litf n 1 = Fin (IZR n) /\ lit n 1 = Fin (IZR n).
Proof. simpl. split; f_equal; lra. Qed.

Lemma fdot_fin c (x w : Z -> R) k : fdot (Fin c) (fun i => Fin (x i)) (fun i => Fin (w i)) k = Fin (c + Rsum (fun i => x i * w i)%R (seqZ 0 k)).
Proof. apply (foldl_fin (fun i => (x i * w i)%R)). Qed.

Lemma fmax_fin a b : exists r, fmax a (Fin b) = Fin r.
Proof. unfold fmax. destruct a as [a|]; simpl; [destruct (Rlt_dec a b); by eexists|by eexists]. Qed.

(** One row of one call: the columns that the mask leaves have a score. *)
Context (x : Z -> xr) (n q : Z) (unmasked : Z -> Prop) `{forall j, Decision (unmasked j)} (score : Z -> R).
Context (Hn : n = q * 16) (Hq : 0 <= q).
Context (Hx : forall j, 0 <= j < n -> x j = if decide (unmasked j) then Fin (score j) else NegInf).

Lemma row_max_fin m : exists mx, row_max x n (Fin m) = Fin mx.
Proof.
  unfold row_max, reduce_max. assert (forall l, exists r, foldl (fun acc g => fmax (x (g * 16 + l)) acc) (Fin m) (seqZ 0 (n / 16)) = Fin r) as G.
  { intros l. generalize (seqZ 0 (n / 16)), m. induction l0 as [|g gs IH]; intros a; simpl; [by eexists|].
    destruct (fmax_fin (x (g * 16 + l)) a) as [r ->]. apply IH. }
  unfold lowest. destruct (lit_1 (- (2 ^ 128 - 2 ^ 104))) as [-> _]. generalize (seqZ 0 16), (IZR (- (2 ^ 128 - 2 ^ 104))).
  induction l as [|c cs IH]; intros a; cbn [fmap list_fmap foldl]; [by eexists|]. destruct (G c) as [r ->]. simpl.
  destruct (Rlt_dec r a); apply IH.
Qed.

(** The weight of column [j] against the maximum [m]. *)
Definition weight (m : R) (j : Z) : R := Rtrigo_def.exp (score j - m).
Abbreviation columns := (filter unmasked (seqZ 0 n)).

Lemma row_step m : exists m', row_new x n (Fin m) = Fin m' /\
  (forall j, 0 <= j < n -> row_prob x n (Fin m) j = Fin (if decide (unmasked j) then weight m' j else 0)) /\
  (forall s, row_total x n (Fin m) (Fin s) = Fin (Rtrigo_def.exp (m - m') * s + Rsum (weight m') columns)) /\
  (forall o, row_scaled x n (Fin m) false (Fin o) = Fin (Rtrigo_def.exp (m - m') * o)).
Proof.
  destruct (row_max_fin m) as [mx Hmx]. set (m' := if row_need x n (Fin m) then mx else m).
  assert (row_new x n (Fin m) = Fin m') as Hnew by (unfold row_new, m'; rewrite Hmx; by destruct (row_need x n (Fin m))).
  assert (forall j, 0 <= j < n -> row_prob x n (Fin m) j = Fin (if decide (unmasked j) then weight m' j else 0)) as Hp.
  { intros j Hj. unfold row_prob. rewrite Hnew, Hx by done. by destruct (decide (unmasked j)). }
  assert (row_sum x n (Fin m) = Fin (Rsum (weight m') columns)) as Hs.
  { unfold row_sum. set (p := fun j => if decide (unmasked j) then weight m' j else 0%R).
    rewrite (tab_ext _ (fun l => Fin (Rsum (fun g => p (g * 16 + l)) (seqZ 0 q)))).
    - unfold reduce_sum. destruct (lit_1 0) as [-> _]. rewrite Rsum_filter. fold p. rewrite Hn, <- (Rsum_lanes p 16 q) by lia.
      set (f := fun l => Rsum (fun g => p (g * 16 + l)) (seqZ 0 q)).
      change (foldl add (Fin 0) ((fun l => Fin (f l)) <$> seqZ 0 16) = Fin (Rsum f (seqZ 0 16))). generalize (seqZ 0 16). intros l.
      rewrite <- (Rplus_0_l (Rsum f l)). rewrite <- foldl_fin. generalize (Fin 0). induction l; intros a0; [done|]. simpl. apply IHl.
    - intros l Hl. rewrite Hn, Z.div_mul by lia. destruct (lit_1 0) as [_ Hz]. unfold zero. rewrite Hz, <- (Rplus_0_l (Rsum _ _)), <- foldl_fin.
      assert (forall g, g ∈ seqZ 0 q -> row_prob x (q * 16) (Fin m) (g * 16 + l) = Fin (p (g * 16 + l))) as Hg.
      { intros g Hg%elem_of_seqZ. rewrite <- Hn. apply Hp. lia. }
      revert Hg. generalize (seqZ 0 q), (Fin 0). induction l0 as [|g gs IH]; intros a Hg; [done|]. cbn [foldl].
      rewrite (Hg g) by constructor. apply IH. intros g' Hg'. apply Hg. by constructor. }
  exists m'. split; [done|]. split; [done|]. split.
  - intros s. unfold row_total, row_factor. rewrite Hs, Hmx. unfold m'. destruct (row_need x n (Fin m)); simpl; f_equal; [lra|].
    rewrite Rminus_diag, exp_0. lra.
  - intros o. unfold row_scaled, row_factor. rewrite Hmx. unfold m'. destruct (row_need x n (Fin m)); simpl; f_equal; [lra|].
    rewrite Rminus_diag, exp_0. lra.
Qed.

End Row.


(** ** What the rows stand for *)

Definition sink_mass (sink : option R) (m : R) : R := match sink with Some z => Rtrigo_def.exp (z - m) | None => 0 end.

(** A maximum, a sum and a partial output that stand for the keys [ks]: the sums of their
    weights and of their weighted values, relative to the maximum.  Before the first call
    there is no partial output yet. *)
Section Summary.
Context (hd : Z) (score : Z -> R) (value : Z -> Z -> R) (sink : option R).

Record summary (first : bool) (ks : list Z) (m s : xr) (o : Z -> xr) (m' : R) : Prop := {
  su_max : m = Fin m';
  su_sum : s = Fin (sink_mass sink m' + Rsum (fun k => Rtrigo_def.exp (score k - m')) ks);
  su_first : first = true -> ks = [];
  su_out : first = false -> forall d, 0 <= d < hd -> o d = Fin (Rsum (fun k => (Rtrigo_def.exp (score k - m') * value k d)%R) ks)
}.

(** The weights relative to another maximum. *)
Lemma rescale_weight k m m' : (Rtrigo_def.exp (m - m') * Rtrigo_def.exp (score k - m))%R = Rtrigo_def.exp (score k - m').
Proof. rewrite <- exp_plus. f_equal. lra. Qed.

Lemma rescale_sink m m' : (Rtrigo_def.exp (m - m') * sink_mass sink m)%R = sink_mass sink m'.
Proof. destruct sink as [z|]; simpl; [|lra]. rewrite <- exp_plus. f_equal. lra. Qed.

(** The softmax of the scores of [ks], with the sink, applied to the values. *)
Definition softmax (ks : list Z) (d : Z) : R :=
  (Rsum (fun k => Rtrigo_def.exp (score k) * value k d) ks / (sink_mass sink 0 + Rsum (fun k => Rtrigo_def.exp (score k)) ks))%R.

(** The normalised output does not depend on the maximum. *)
Lemma summary_output `{Erf} ks m s o m' c d : summary false ks m s o m' -> 0 <= d < hd -> mul (div (Fin c) s) (o d) = Fin (c * softmax ks d).
Proof.
  intros [_ -> _ Ho] Hd. rewrite Ho by done. cbn [mul div real_ops lift]. f_equal.
  assert (forall f, Rsum (fun k => Rtrigo_def.exp (score k - m') * f k)%R ks = (Rtrigo_def.exp (- m') * Rsum (fun k => Rtrigo_def.exp (score k) * f k) ks)%R) as Hs.
  { intros f. rewrite Rsum_scale. apply Rsum_ext. intros k _. rewrite <- Rmult_assoc, <- exp_plus. do 2 f_equal. lra. }
  rewrite Hs, <- (rescale_sink 0 m'). replace (0 - m')%R with (- m')%R by lra.
  rewrite (Rsum_ext (fun k => Rtrigo_def.exp (score k - m')) (fun k => Rtrigo_def.exp (score k - m') * 1)%R) by (intros; lra). rewrite Hs.
  rewrite (Rsum_ext (fun k => Rtrigo_def.exp (score k) * 1)%R (fun k => Rtrigo_def.exp (score k))) by (intros; lra).
  unfold softmax, Rdiv. rewrite <- Rmult_plus_distr_l, Rinv_mult. pose proof (exp_pos (- m')).
  set (e := Rtrigo_def.exp (- m')) in *. set (den := (_ + _)%R). set (num := Rsum _ _).
  replace (c * (/ e * / den) * (e * num))%R with (c * (num * / den) * (e * / e))%R by ring. rewrite Rinv_r by lra. ring.
Qed.

End Summary.

Section Call.
Context `{Erf}.
Context {K : Type} `{ScalarOps K xr} (num : K -> R) (Hload : forall x, load x = Fin (num x)).
Context (hd : Z) (cache : Cache K xr) (kv_end gs n tokens q_pos gpb hg : Z) (key val : Z -> Z -> K).
Context (CR : @call_ready K xr hd cache gs n tokens gpb hg key val).
Context (scale cap : R) (slope : Z -> R).
Context (Hscale : scale_val cache = Fin scale) (Hcap : softcap cache = Fin cap).
Context (Hslope : forall h, 0 <= h < heads_per_kv cache -> slope_at cache h = Fin (slope h)).

Abbreviation lo := (gs * 32).
Abbreviation hi := (gs * 32 + n * 32).
Abbreviation width := (n * 32).
Abbreviation heads := (heads_per_kv cache).

(** The score of the key at [pos] for a query row, a slope and the position of the query. *)
Definition score (q : Z -> R) (sl : R) (qpos pos : Z) : R :=
  let x := Rsum (fun d => (q d * num (key pos d))%R) (seqZ 0 hd) in
  let x := if scale_on_logits (kv_kind cache) then (x * scale)%R else x in
  let x := if Req_dec_T cap 0 then x else (Rtrigo_def.tanh (x * (1 / cap)) * cap)%R in
  match slopes cache with None => x | Some _ => (x + sl * (IZR pos - IZR qpos))%R end.

Lemma column_pos_exact j : 0 <= j -> column_pos lo j = Fin (IZR (lo + j)).
Proof.
  intros Hj. unfold column_pos. destruct (lit_1 (j mod 16)) as [-> _]. destruct (lit_1 lo) as [-> _]. destruct (lit_1 16) as [_ ->].
  pose proof (Z.div_mod j 16 ltac:(lia)) as Ej. pose proof (Z.div_pos j 16 ltac:(lia) ltac:(lia)).
  assert (forall k a, Nat.iter k (fun v => add v (Fin 16)) (Fin a) = Fin (a + 16 * INR k)) as G.
  { induction k as [|k IH]; intros a; [simpl; f_equal; lra|]. change (add (Nat.iter k (fun v => add v (Fin 16)) (Fin a)) (Fin 16) = Fin (a + 16 * INR (S k))).
    rewrite IH. change (Fin (a + 16 * INR k + 16) = Fin (a + 16 * INR (S k))). f_equal. rewrite S_INR. lra. }
  change (add (Fin (IZR (j mod 16))) (Fin (IZR lo))) with (Fin (IZR (j mod 16) + IZR lo)). rewrite G, INR_IZR_INZ, Z2Nat.id by done. f_equal. rewrite <- !plus_IZR, <- mult_IZR, <- plus_IZR. f_equal. lia.
Qed.

Lemma logit_exact (q : Z -> Z -> xr) (qv : Z -> Z -> R) i j : 0 <= i < tokens * heads -> 0 <= j < width ->
  (forall d, 0 <= d < hd -> q i d = Fin (qv i d)) ->
  logit hd cache kv_end gs n q_pos key q i j =
    if decide (Kernel.unmasked kv_end lo hi (window_left cache) (window_right cache) (q_pos + i / heads) j)
    then Fin (score (qv i) (slope (i mod heads)) (q_pos + i / heads) (lo + j)) else NegInf.
Proof.
  intros Hi Hj Hq. destruct (cr_rows _ _ _ _ _ _ _ _ _ CR) as (Ht & Hh & _). unfold logit. case_decide; [|done].
  assert (fdot zero (q i) (fun d => load (key (lo + j) d)) hd = Fin (Rsum (fun d => (qv i d * num (key (lo + j) d))%R) (seqZ 0 hd))) as Hd.
  { rewrite <- (Rplus_0_l (Rsum _ _)), <- fdot_fin. unfold zero. destruct (lit_1 0) as [_ ->]. unfold fdot. apply dot_ext.
    intros d Hd. by rewrite Hq, Hload. }
  unfold raw_logit. rewrite Hd, Hscale. unfold score.
  set (x := Rsum _ _). set (y := if scale_on_logits (kv_kind cache) then (x * scale)%R else x).
  assert ((if scale_on_logits (kv_kind cache) then mul (Fin x) (Fin scale) else Fin x) = Fin y) as -> by (unfold y; by destruct (scale_on_logits (kv_kind cache))).
  set (z := if Req_dec_T cap 0 then y else _).
  assert (capped cache (Fin y) = Fin z) as ->.
  { unfold capped, softcapped, z. rewrite Hcap. destruct (lit_1 0) as [-> _]. destruct (lit_1 1) as [-> _]. simpl. by destruct (Req_dec_T cap 0). }
  unfold with_bias. destruct (slopes cache); [|done]. unfold biased. rewrite column_pos_exact, Hslope by (lia || (apply Z.mod_pos_bound; lia)).
  destruct (lit_1 (i / heads + q_pos)) as [-> _]. simpl. f_equal. rewrite (Z.add_comm q_pos). done.
Qed.


(** The keys that a call gives to its row [i]. *)
Definition call_keys (i : Z) : list Z :=
  Z.add lo <$> filter (Kernel.unmasked kv_end lo hi (window_left cache) (window_right cache) (q_pos + i / heads)) (seqZ 0 width).

(** A call adds its keys to what the row stands for. *)
Lemma row_exact (q : Z -> Z -> xr) (qv : Z -> Z -> R) (m s : Z -> xr) (o : Z -> Z -> xr) sink first ks i m0 :
  0 <= i < tokens * heads -> (forall d, 0 <= d < hd -> q i d = Fin (qv i d)) ->
  let sc := score (qv i) (slope (i mod heads)) (q_pos + i / heads) in let v := fun k d => num (val k d) in
  summary hd sc v sink first ks (m i) (s i) (o i) m0 ->
  exists m1, summary hd sc v sink false (ks ++ call_keys i) (new_max hd cache kv_end gs n q_pos key q m i)
    (new_sum hd cache kv_end gs n q_pos key q m s i) (new_partial hd cache kv_end gs n q_pos key val q m o first i) m1.
Proof.
  intros Hi Hq sc v [Hm Hs Hf Ho]. destruct (cr_tile _ _ _ _ _ _ _ _ _ CR) as [Hgs Hn].
  destruct (row_step (logit hd cache kv_end gs n q_pos key q i) width (n * 2)
    (Kernel.unmasked kv_end lo hi (window_left cache) (window_right cache) (q_pos + i / heads)) (fun j => sc (lo + j)) ltac:(lia) ltac:(lia)) with (m := m0)
    as (m1 & Hnew & Hp & Ht & Hsc).
  { intros j Hj. by apply logit_exact. }
  assert (forall f : Z -> R, Rsum f (call_keys i) = Rsum (fun j => f (lo + j))
    (filter (Kernel.unmasked kv_end lo hi (window_left cache) (window_right cache) (q_pos + i / heads)) (seqZ 0 width))) as Hk.
  { intros f. unfold call_keys. by rewrite Rsum_map. }
  exists m1. constructor; [|..|done|].
  - unfold new_max. by rewrite Hm.
  - unfold new_sum. rewrite Hm, Hs, Ht. f_equal. rewrite Rmult_plus_distr_l, rescale_sink, Rsum_scale, Rsum_app, Hk, Rplus_assoc.
    do 2 f_equal. apply Rsum_ext. intros k _. apply rescale_weight.
  - intros _ d Hd. unfold new_partial. rewrite Hm.
    assert ((if first then zero else row_scaled (logit hd cache kv_end gs n q_pos key q i) width (Fin m0) false (o i d)) =
      Fin (Rsum (fun k => (Rtrigo_def.exp (sc k - m1) * v k d)%R) ks)) as ->.
    { destruct first.
      - rewrite Hf by done. destruct (lit_1 0) as [_ Hz]. exact Hz.
      - rewrite Ho by done. rewrite Hsc, Rsum_scale. f_equal. apply Rsum_ext. intros k _. by rewrite <- Rmult_assoc, rescale_weight. }
    rewrite Rsum_app, Hk, Rsum_filter.
    set (p := fun j => if decide (Kernel.unmasked kv_end lo hi (window_left cache) (window_right cache) (q_pos + i / heads) j)
      then weight (fun j => sc (lo + j)) m1 j else 0%R).
    transitivity (fdot (Fin (Rsum (fun k => (Rtrigo_def.exp (sc k - m1) * v k d)%R) ks)) (fun j => Fin (p j)) (fun j => Fin (v (lo + j) d)) width).
    + unfold fdot. apply dot_ext. intros j Hj. split; [by apply Hp|by rewrite Hload].
    + rewrite fdot_fin. do 2 f_equal. apply Rsum_ext. intros j _. unfold p, weight. case_decide; lra.
Qed.

End Call.

End Exact.
