(* ===== verification/AttnOutput.v ===== *)
(** * The CPU attention kernel: starting and finishing a tile

    [csrc/cpu/cpu_attn_impl.hpp], class [AttentionMainLoop]: the initial maxima and sums
    (with the attention sink), [final_output], [partial_output] and [reduce_splits]. *)

From S2P Require Import Prelude Arrays Counting Stores MicroGemm AttnTasks AttnTile.

#[local] Open Scope Z_scope.

Module Output.
Import Counting MicroGemm Tile.

(** The sinks, one per query head. *)
Inductive Sinks (B F : Type) := SinksBf16 (s_aux : list B) | SinksF32 (s_aux : list F).
Arguments SinksBf16 {B F} _.
Arguments SinksF32 {B F} _.

Section Rows.
Context {B F : Type} `{FloatOps F} `{ScalarOps B F}.

Definition s_aux_fp32 (s_aux : Sinks B F) (q_head_start_idx q_heads_per_kv : Z) : option (list F) :=
  match s_aux with
  | SinksBf16 s => for_range 0 q_heads_per_kv (fun head_idx a =>
      v ← rd s (q_head_start_idx + head_idx); wr a head_idx (load v)) (replicate (Z.to_nat MaxQHeadNumPerIteration) zero)
  | SinksF32 s => memcpy_range (replicate (Z.to_nat MaxQHeadNumPerIteration) zero) 0 s q_head_start_idx q_heads_per_kv
  end.

(** [max_of] gives the initial maximum of a head. *)
Definition fill_row (q_heads_per_kv : Z) (sum : F) (max_of : Z -> option F) (token_idx head_idx : Z) (st : list F * list F)
    : option (list F * list F) :=
  let '(maxs, sums) := st in
  let p := token_idx * q_heads_per_kv + head_idx in
  sums ← wr sums p sum;
  m ← max_of head_idx;
  maxs ← wr maxs p m;
  Some (maxs, sums).

Definition fill_rows (q_heads_per_kv actual_q_token_num : Z) (sum : F) (max_of : Z -> option F) (st : list F * list F)
    : option (list F * list F) :=
  for_range 0 actual_q_token_num (fun token_idx =>
    for_range 0 q_heads_per_kv (fill_row q_heads_per_kv sum max_of token_idx)) st.

Definition init_rows (s_aux : option (Sinks B F)) (q_head_start_idx q_heads_per_kv actual_q_token_num : Z) (st : list F * list F)
    : option (list F * list F) :=
  match s_aux with
  | Some s_aux =>
      s_aux_fp32 ← s_aux_fp32 s_aux q_head_start_idx q_heads_per_kv;
      fill_rows q_heads_per_kv actual_q_token_num (litf 1 1) (rd s_aux_fp32) st
  | None => fill_rows q_heads_per_kv actual_q_token_num (litf 0 1) (fun _ => Some lowest) st
  end.

End Rows.

Section Final.
Context {S F : Type} `{FloatOps F} `{ScalarOps S F} (head_dim : Z).

Definition output_head (partial sums : list F) (q_heads_per_kv q_head_num : Z) (v_scale : F) (out_ptr token_idx head_idx : Z)
    (output : list S) : option (list S) :=
  let group_num_per_head := Z.quot head_dim 16 in
  sum ← rd sums (token_idx * q_heads_per_kv + head_idx);
  let inv_sum_scale_vec := splat (div v_scale sum) in
  for_range 0 group_num_per_head (fun i output =>
    vec ← rd_range partial (token_idx * (q_heads_per_kv * head_dim) + (head_idx * group_num_per_head + i) * 16) 16;
    save_vec output (out_ptr + token_idx * (q_head_num * head_dim) + (head_idx * group_num_per_head + i) * 16)
      (vec_mul inv_sum_scale_vec vec)) output.

Definition final_output (partial sums : list F) (q_heads_per_kv actual_q_token_num q_head_num : Z) (v_scale : F) (out_ptr : Z)
    (output : list S) : option (list S) :=
  for_range 0 actual_q_token_num (fun token_idx =>
    for_range 0 q_heads_per_kv (output_head partial sums q_heads_per_kv q_head_num v_scale out_ptr token_idx)) output.

End Final.

(** The buffers of a reduction. *)
Record Splits {F : Type} := {
  split_output_buffer : list F;
  split_max_buffer : list F;
  split_sum_buffer : list F
}.
Arguments Splits : clear implicits.

Section Splits.
Context {F : Type} `{FloatOps F}.
Context (head_dim : Z).

(** The part of [split_id]; setting the flag is a step of its own in [AttnRun]. *)
Definition partial_output (partial maxs sums : list F) (curr_head_num split_id stride stats_stride : Z) (st : Splits F)
    : option (Splits F) :=
  for_range 0 curr_head_num (fun i st =>
    m ← rd maxs i;
    maxs ← wr (split_max_buffer st) (split_id * stats_stride + i) m;
    s ← rd sums i;
    sums ← wr (split_sum_buffer st) (split_id * stats_stride + i) s;
    out ← for_range 0 (Z.quot head_dim 16) (fun j out =>
      vec ← rd_range partial (i * head_dim + j * 16) 16;
      wr_range out (split_id * stride * head_dim + i * head_dim + j * 16) vec) (split_output_buffer st);
    Some {| split_output_buffer := out; split_max_buffer := maxs; split_sum_buffer := sums |}) st.

(** One head of a later part: the output, the maxima and the sums so far. *)
Definition reduce_head (maxs sums : list F) (head_num_per_split stats_stride split_idx head_idx : Z) (st : list F * list F * list F)
    : option (list F * list F * list F) :=
  let '(out, local_max, local_sum) := st in
  final_max ← rd local_max head_idx;
  curr_max ← rd maxs (split_idx * stats_stride + head_idx);
  final_sum ← rd local_sum head_idx;
  curr_sum ← rd sums (split_idx * stats_stride + head_idx);
  let curr_output_buffer := head_idx * head_dim in
  let curr_split_output_buffer := split_idx * (head_num_per_split * head_dim) + head_idx * head_dim in
  let greater := ltb curr_max final_max in
  let non_scale_output := if greater then curr_output_buffer else curr_split_output_buffer in
  let scale_output := if greater then curr_split_output_buffer else curr_output_buffer in
  let rescale_factor := exp (if greater then sub curr_max final_max else sub final_max curr_max) in
  local_sum ← wr local_sum head_idx
    (if greater then add final_sum (mul rescale_factor curr_sum) else add (mul rescale_factor final_sum) curr_sum);
  local_max ← wr local_max head_idx (fmax final_max curr_max);
  out ← for_range 0 (Z.quot head_dim 16) (fun i out =>
    non_scale_vec ← rd_range out (non_scale_output + i * 16) 16;
    scale_vec ← rd_range out (scale_output + i * 16) 16;
    wr_range out (curr_output_buffer + i * 16) (vec_add non_scale_vec (vec_mul scale_vec (splat rescale_factor)))) out;
  Some (out, local_max, local_sum).

(** One part: the first one is copied. *)
Definition reduce_split (maxs sums : list F) (head_num_per_split curr_head_num split_idx : Z) (st : list F * list F * list F)
    : option (list F * list F * list F) :=
  let stats_stride := Tasks.reduction_stats_stride head_num_per_split in
  if 0 <? split_idx then for_range 0 curr_head_num (reduce_head maxs sums head_num_per_split stats_stride split_idx) st
  else
    let '(out, local_max, local_sum) := st in
    local_max ← memcpy_range local_max 0 maxs 0 curr_head_num;
    local_sum ← memcpy_range local_sum 0 sums 0 curr_head_num;
    Some (out, local_max, local_sum).

Definition write_back (local_max local_sum : list F) (i : Z) (st : list F * list F) : option (list F * list F) :=
  let '(maxs, sums) := st in
  m ← rd local_max i;
  maxs ← wr maxs i m;
  s ← rd local_sum i;
  sums ← wr sums i s;
  Some (maxs, sums).

(** All parts are there when the thread gets to them. *)
Definition reduce_splits (head_num_per_split curr_head_num split_num : Z) (st : Splits F) : option (Splits F) :=
  let local := replicate (Z.to_nat MaxQHeadNumPerIteration) zero in
  '(out, local_max, local_sum) ← for_range 0 split_num
    (reduce_split (split_max_buffer st) (split_sum_buffer st) head_num_per_split curr_head_num) (split_output_buffer st, local, local);
  '(maxs, sums) ← for_range 0 curr_head_num (write_back local_max local_sum) (split_max_buffer st, split_sum_buffer st);
  Some {| split_output_buffer := out; split_max_buffer := maxs; split_sum_buffer := sums |}.

End Splits.


(** ** What they store *)

(** Cells by token and head. *)
Lemma token_cell heads t t' h h' : 0 <= h < heads -> 0 <= h' < heads -> t * heads + h = t' * heads + h' -> t = t' /\ h = h'.
Proof. intros Hh Hh' E. assert (t = t') as -> by (by apply (row_inj heads t t' h h')). lia. Qed.

Section RowsOk.
Context {B F : Type} `{FloatOps F} `{ScalarOps B F}.
Context (heads tokens : Z) (Hh : 0 <= heads).

Lemma fill_rows_ok sum (max_of : Z -> option F) (m : Z -> F) maxs sums : (forall h, 0 <= h < heads -> max_of h = Some (m h)) ->
  tokens * heads <= Z.of_nat (length maxs) -> tokens * heads <= Z.of_nat (length sums) ->
  exists maxs' sums', fill_rows heads tokens sum max_of (maxs, sums) = Some (maxs', sums') /\
    length maxs' = length maxs /\ length sums' = length sums /\
    forall r, 0 <= r < tokens * heads -> rd maxs' r = Some (m (r mod heads)) /\ rd sums' r = Some sum.
Proof.
  intros Hm Lm Ls. unfold fill_rows.
  set (body := fill_row heads sum max_of).
  destruct (for_range_stores2 fst snd (fun _ => True) tokens (fun t => for_range 0 heads (body t))
    (fun _ (z : Z * unit) => 0 <= z.1 < heads /\ True) (fun t z => t * heads + z.1) (fun _ z => m z.1)
    (fun _ (z : Z * unit) => 0 <= z.1 < heads /\ True) (fun t z => t * heads + z.1) (fun _ _ => sum) (maxs, sums)) as ([maxs' sums'] & E & _ & W & W').
  - intros t t' [h []] [h' []] _ _ [Hz _] [Hz' _] Heq. cbn [fst] in *. by apply token_cell in Heq as [-> _].
  - intros t t' [h []] [h' []] _ _ [Hz _] [Hz' _] Heq. cbn [fst] in *. by apply token_cell in Heq as [-> _].
  - done.
  - intros t [a b] Ht _ La Lb _ _. cbn [fst snd] in *. 
    destruct (for_range_stores2 fst snd (fun _ => True) heads (body t) (fun _ (_ : unit) => True) (fun h _ => t * heads + h) (fun h _ => m h)
      (fun _ (_ : unit) => True) (fun h _ => t * heads + h) (fun _ _ => sum) (a, b)) as (ab & E & _ & W & W'); [intros; lia..|done| |by exists ab].
    intros h [a1 b1] Hh1 _ La1 Lb1 _ _. cbn [fst snd] in *. unfold body, fill_row. assert (0 <= t * heads + h < tokens * heads) by (clear -Ht Hh1; nia).
    destruct (wr_stores b1 (t * heads + h) sum) as (b2 & -> & W2); [lia|]. cbn [mbind option_bind]. rewrite Hm by done. cbn [mbind option_bind].
    destruct (wr_stores a1 (t * heads + h) (m h)) as (a2 & -> & W1); [lia|]. cbn [mbind option_bind]. by exists (a2, b2).
  - exists maxs', sums'. cbn [fst snd] in *. split; [exact E|]. split; [exact (stores_length _ _ _ _ _ W)|]. split; [exact (stores_length _ _ _ _ _ W')|].
    intros r Hr. assert (0 < heads) by (destruct (Z.eq_dec heads 0) as [->|]; lia).
    pose proof (Z.div_mod r heads ltac:(lia)). pose proof (Z.mod_pos_bound r heads ltac:(lia)).
    assert (0 <= r / heads < tokens) by (split; [apply Z.div_pos; lia|apply Z.div_lt_upper_bound; lia]).
    pose proof (stores_in _ _ _ _ _ W (r / heads, (r mod heads, tt))) as V. pose proof (stores_in _ _ _ _ _ W' (r / heads, (r mod heads, tt))) as V'.
    cbn [fst snd] in V, V'. replace (r / heads * heads + r mod heads) with r in V, V' by lia. split; [by apply V|by apply V'].
Qed.

(** The sink of a head, and what the rows start with. *)
Definition sink_at (s_aux : Sinks B F) (p : Z) : F :=
  match s_aux with SinksBf16 s => default zero (load <$> rd s p) | SinksF32 s => default zero (rd s p) end.
Definition sinks_length (s_aux : Sinks B F) : Z :=
  match s_aux with SinksBf16 s => Z.of_nat (length s) | SinksF32 s => Z.of_nat (length s) end.
Definition first_max (s_aux : option (Sinks B F)) (head : Z) : F := match s_aux with Some s => sink_at s head | None => lowest end.
Definition first_sum (s_aux : option (Sinks B F)) : F := match s_aux with Some _ => litf 1 1 | None => litf 0 1 end.

Lemma s_aux_fp32_ok s_aux start : 0 <= start -> start + heads <= sinks_length s_aux -> heads <= 8 ->
  exists a, s_aux_fp32 s_aux start heads = Some a /\ forall h, 0 <= h < heads -> rd a h = Some (sink_at s_aux (start + h)).
Proof.
  intros Hs Hl H8. unfold s_aux_fp32, sink_at, sinks_length in *. set (a0 := replicate _ _).
  assert (Z.of_nat (length a0) = 8) as L0 by done. destruct s_aux as [s|s].
  - destruct (for_range_stores (fun a => a) (fun _ => True) heads (fun head_idx a => v ← rd s (start + head_idx); wr a head_idx (load v))
      (fun _ (_ : unit) => True) (fun h _ => h) (fun h _ => default zero (load <$> rd s (start + h))) a0) as (a & -> & _ & W); [intros; lia|done| |].
    + intros h a Hh1 _ La _. destruct (rd_is_Some s (start + h)) as [v ->]; [lia|]. cbn [mbind option_bind].
      destruct (wr_stores a h (load v)) as (a' & -> & W); [lia|]. by exists a'.
    + exists a. split; [done|]. intros h Hh1. by apply (stores_in _ _ _ _ _ W (h, tt)).
  - unfold memcpy_range. destruct (decide (heads = 0)) as [->|Hne].
    { destruct (rd_range_ok s start 0) as (vs & -> & Lv & _); [lia..|]. cbn [mbind option_bind]. destruct vs; [|done].
      exists a0. split; [by apply wr_range_nil; lia|]. lia. }
    rewrite (rd_range_tab s start heads (fun h => default zero (rd s (start + h)))); [|lia|].
    2: { intros h Hh1. destruct (rd_is_Some s (start + h)) as [v ->]; [lia|done]. }
    cbn [mbind option_bind]. destruct (wr_range_stores a0 0 heads (fun h => default zero (rd s (start + h)))) as (a & -> & W); [lia..|].
    exists a. split; [done|]. intros h Hh1. by apply (stores_in _ _ _ _ _ W h).
Qed.

Lemma init_rows_ok (s_aux : option (Sinks B F)) start maxs sums : match s_aux with Some s => 0 <= start /\ start + heads <= sinks_length s /\ heads <= 8 | None => True end ->
  tokens * heads <= Z.of_nat (length maxs) -> tokens * heads <= Z.of_nat (length sums) ->
  exists maxs' sums', init_rows s_aux start heads tokens (maxs, sums) = Some (maxs', sums') /\
    length maxs' = length maxs /\ length sums' = length sums /\
    forall r, 0 <= r < tokens * heads -> rd maxs' r = Some (first_max s_aux (start + r mod heads)) /\ rd sums' r = Some (first_sum s_aux).
Proof.
  intros Hs Lm Ls. unfold init_rows, first_max, first_sum. destruct s_aux as [s|].
  - destruct Hs as (Hs & Hl & H8). destruct (s_aux_fp32_ok s start Hs Hl H8) as (a & -> & Ha). cbn [mbind option_bind].
    by apply (fill_rows_ok _ (rd a) (fun h => sink_at s (start + h))).
  - by apply (fill_rows_ok _ (fun _ => Some lowest) (fun _ => lowest)).
Qed.

End RowsOk.

Section FinalOk.
Context {S F : Type} `{FloatOps F} `{ScalarOps S F}.
Context (hd hv heads tokens q_head_num : Z) (Hhd : hd = hv * 16) (Hhv : 0 <= hv) (Hh : 0 <= heads <= q_head_num).

Lemma final_output_ok (partial sums : list F) (o : Z -> Z -> F) (s : Z -> F) v_scale ptr (out : list S) :
  (forall r d, 0 <= r < tokens * heads -> 0 <= d < hd -> rd partial (r * hd + d) = Some (o r d)) ->
  (forall r, 0 <= r < tokens * heads -> rd sums r = Some (s r)) ->
  0 <= ptr -> (0 < tokens -> ptr + (tokens - 1) * (q_head_num * hd) + heads * hd <= Z.of_nat (length out)) ->
  exists out', final_output hd partial sums heads tokens q_head_num v_scale ptr out = Some out' /\
    stores out out' (fun z : Z * (Z * Z) => 0 <= z.1 < tokens /\ 0 <= z.2.1 < heads /\ 0 <= z.2.2 < hd)
      (fun z => ptr + z.1 * (q_head_num * hd) + z.2.1 * hd + z.2.2)
      (fun z => store (mul (div v_scale (s (z.1 * heads + z.2.1))) (o (z.1 * heads + z.2.1) z.2.2))).
Proof.
  intros Ho Hs Hptr Hlen. unfold final_output. set (body := output_head hd partial sums heads q_head_num v_scale ptr).
  destruct (for_range_stores (fun c => c) (fun _ => True) tokens (fun t => for_range 0 heads (body t))
    (fun _ (z : Z * Z) => 0 <= z.1 < heads /\ 0 <= z.2 < hd) (fun t z => ptr + t * (q_head_num * hd) + z.1 * hd + z.2)
    (fun t z => store (mul (div v_scale (s (t * heads + z.1))) (o (t * heads + z.1) z.2))) out) as (out' & E & _ & W); [|done| |by exists out'].
  - intros t t' [h d] [h' d'] _ _ [Hh1 Hd] [Hh1' Hd'] Heq. cbn [fst snd] in *.
    apply (row_inj (q_head_num * hd) t t' (h * hd + d) (h' * hd + d')); [..|lia]; clear -Hh Hh1 Hh1' Hd Hd'; nia.
  - intros t out1 Ht _ L1 _.
    destruct (matrix_ok (body t) out1 (ptr + t * (q_head_num * hd)) hd heads hd
      (fun h d => store (mul (div v_scale (s (t * heads + h))) (o (t * heads + h) d)))) as (out2 & E2 & W2); [lia| |by exists out2].
    intros h out3 Hh1 L3 _. unfold body, output_head. assert (Z.quot hd 16 = hv) as -> by (rewrite Hhd; apply Z.quot_mul; lia). set (r := t * heads + h). assert (0 <= r < tokens * heads) as Hr by (unfold r; clear -Ht Hh1; nia).
    rewrite Hs by done. cbn [mbind option_bind].
    apply (vector_turns_ok 16 _ out3 (ptr + t * (q_head_num * hd) + h * hd) hd hv); [lia|done|done|].
    intros g out4 Hg L4 _.
    rewrite (rd_range_tab partial (t * (heads * hd) + (h * hv + g) * 16) 16 (fun c => o r (g * 16 + c))); [|lia|].
    2: { intros c Hc. rewrite <- Ho by lia. f_equal. unfold r. lia. }
    cbn [mbind option_bind]. unfold vec_mul, splat, VEC_ELEM_NUM. rewrite zip_with_tab.
    assert (0 <= t * (q_head_num * hd) /\ 0 <= h * hd /\ t * (q_head_num * hd) <= (tokens - 1) * (q_head_num * hd) /\ h * hd + hd <= heads * hd) as (P1 & P2 & P3 & P4).
    { clear -Ht Hh1 Hh Hhd Hhv. split_and!; [repeat apply Z.mul_nonneg_nonneg; nia|nia|apply Z.mul_le_mono_nonneg_r; nia|nia]. }
    destruct (save_vec_stores out4 (ptr + t * (q_head_num * hd) + (h * hv + g) * 16) (fun c => mul (div v_scale (s r)) (o r (g * 16 + c)))) as (out5 & E5 & W5).
    + lia.
    + rewrite L4, L3, L1. lia.
    + exists out5. split; [exact E5|]. eapply stores_reindex; [| |exact W5]; intros c Hc; cbn beta in *; exists c; split_and!; lia || done.
Qed.

End FinalOk.


(** ** Parts *)

Section SplitsOk.
Context {F : Type} `{FloatOps F}.
Context (hd hv : Z) (Hhd : hd = hv * 16) (Hhv : 1 <= hv).

Lemma partial_output_ok (partial maxs sums : list F) (o : Z -> Z -> F) (m s : Z -> F) n split stride stats (st : Splits F) :
  (forall r d, 0 <= r < n -> 0 <= d < hd -> rd partial (r * hd + d) = Some (o r d)) ->
  (forall r, 0 <= r < n -> rd maxs r = Some (m r) /\ rd sums r = Some (s r)) -> 0 <= n <= stride -> n <= stats -> 0 <= split ->
  (split + 1) * stride * hd <= Z.of_nat (length (split_output_buffer st)) ->
  (split + 1) * stats <= Z.of_nat (length (split_max_buffer st)) -> (split + 1) * stats <= Z.of_nat (length (split_sum_buffer st)) ->
  exists st', partial_output hd partial maxs sums n split stride stats st = Some st' /\
    stores (split_output_buffer st) (split_output_buffer st') (fun z : Z * Z => 0 <= z.1 < n /\ 0 <= z.2 < hd)
      (fun z => (split * stride + z.1) * hd + z.2) (fun z => o z.1 z.2) /\
    stores (split_max_buffer st) (split_max_buffer st') (fun z : Z * unit => 0 <= z.1 < n /\ True) (fun z => split * stats + z.1) (fun z => m z.1) /\
    stores (split_sum_buffer st) (split_sum_buffer st') (fun z : Z * unit => 0 <= z.1 < n /\ True) (fun z => split * stats + z.1) (fun z => s z.1).
Proof.
  intros Ho Hms Hn Hst Hsp Lo Lm Ls. unfold partial_output.
  set (I := fun k st' =>
    stores (split_output_buffer st) (split_output_buffer st') (fun z : Z * Z => 0 <= z.1 < k /\ 0 <= z.2 < hd)
      (fun z => (split * stride + z.1) * hd + z.2) (fun z => o z.1 z.2) /\
    stores (split_max_buffer st) (split_max_buffer st') (fun z : Z * unit => 0 <= z.1 < k /\ True) (fun z => split * stats + z.1) (fun z => m z.1) /\
    stores (split_sum_buffer st) (split_sum_buffer st') (fun z : Z * unit => 0 <= z.1 < k /\ True) (fun z => split * stats + z.1) (fun z => s z.1)).
  set (body := fun (i : Z) (st : Splits F) => _).
  destruct (for_range_inv I 0 n body st) as (st' & -> & HI); [lia| | |by exists st'].
  - unfold I. split_and!; (constructor; [done| |done]); intros [i j] [Hi _]; cbn [fst] in Hi; lia.
  - intros i st1 Hi (Wo & Wm & Ws). unfold body. destruct (Hms i Hi) as [-> Es]. cbn [mbind option_bind].
    assert (0 <= split * stats) by (apply Z.mul_nonneg_nonneg; lia).
    destruct (wr_stores (split_max_buffer st1) (split * stats + i) (m i)) as (maxs' & -> & Wm'); [rewrite (stores_length _ _ _ _ _ Wm); lia|].
    cbn [mbind option_bind]. rewrite Es. cbn [mbind option_bind].
    destruct (wr_stores (split_sum_buffer st1) (split * stats + i) (s i)) as (sums' & -> & Ws'); [rewrite (stores_length _ _ _ _ _ Ws); lia|].
    cbn [mbind option_bind]. assert (Z.quot hd 16 = hv) as -> by (rewrite Hhd; apply Z.quot_mul; lia).
    destruct (vector_turns_ok 16 (fun j out => vec ← rd_range partial (i * hd + j * 16) 16;
      wr_range out (split * stride * hd + i * hd + j * 16) vec) (split_output_buffer st1) ((split * stride + i) * hd) hd hv (o i)) as (out & -> & Wo'); [lia|done|lia| |].
    + intros g b Hg Lb _. rewrite (rd_range_tab partial (i * hd + g * 16) 16 (fun c => o i (g * 16 + c))) by (lia || (intros; rewrite <- Z.add_assoc; apply Ho; lia)).
      cbn [mbind option_bind]. replace (split * stride * hd + i * hd + g * 16) with ((split * stride + i) * hd + g * 16) by lia.
      apply (wr_range_stores b ((split * stride + i) * hd + g * 16) 16 (fun c => o i (g * 16 + c))); [lia| |].
      * clear -Hi Hn Hsp Hg Hhd. assert (0 <= (split * stride + i) * hd) by (repeat (apply Z.mul_nonneg_nonneg || apply Z.add_nonneg_nonneg); lia). lia.
      * rewrite Lb, (stores_length _ _ _ _ _ Wo). assert ((split * stride + i) * hd + hd <= (split + 1) * stride * hd) by (clear -Hi Hn Hhd Hhv; nia). lia.
    + cbn [mbind option_bind]. eexists. split; [done|]. unfold I. cbn [split_output_buffer split_max_buffer split_sum_buffer]. split_and!.
      * refine (stores_snoc i _ _ _ (fun _ d => 0 <= d < hd) (fun i d => (split * stride + i) * hd + d) o ltac:(lia) _ Wo Wo').
        intros t d d' Ht Hd Hd' Heq. apply row_inj in Heq; lia.
      * refine (stores_snoc i _ _ _ (fun _ (_ : unit) => True) (fun i _ => split * stats + i) (fun i _ => m i) ltac:(lia) _ Wm Wm'). lia.
      * refine (stores_snoc i _ _ _ (fun _ (_ : unit) => True) (fun i _ => split * stats + i) (fun i _ => s i) ltac:(lia) _ Ws Ws'). lia.
Qed.

(** A maximum, a sum and an output row. *)
Record Part := { p_max : F; p_sum : F; p_out : Z -> F }.

(** Two parts: the one with the smaller maximum is rescaled. *)
Definition merge (a b : Part) : Part :=
  if ltb (p_max b) (p_max a) then
    let f := exp (sub (p_max b) (p_max a)) in
    {| p_max := fmax (p_max a) (p_max b); p_sum := add (p_sum a) (mul f (p_sum b)); p_out d := add (p_out a d) (mul (p_out b d) f) |}
  else
    let f := exp (sub (p_max a) (p_max b)) in
    {| p_max := fmax (p_max a) (p_max b); p_sum := add (mul f (p_sum a)) (p_sum b); p_out d := add (p_out b d) (mul (p_out a d) f) |}.

Definition merged (part : Z -> Part) (n : Z) : Part := foldl (fun a i => merge a (part i)) (part 0) (seqZ 1 (n - 1)).

Lemma merged_succ part n : 1 <= n -> merged part (n + 1) = merge (merged part n) (part n).
Proof.
  intros Hn. unfold merged. replace (n + 1 - 1) with (n - 1 + 1) by lia. rewrite seqZ_app by lia. rewrite foldl_app.
  replace (1 + (n - 1)) with n by lia. done.
Qed.

Context (stride stats heads : Z) (Hheads : 0 <= heads <= stride) (Hstats : heads <= stats).
Context (maxs sums : list F) (part : Z -> Z -> Part) (splits : Z).
Context (Hms : forall i h, 0 <= i < splits -> 0 <= h < heads ->
  rd maxs (i * stats + h) = Some (p_max (part i h)) /\ rd sums (i * stats + h) = Some (p_sum (part i h))).

Lemma reduce_head_ok i h out lm ls (a : Part) : 1 <= i < splits -> 0 <= h < heads ->
  rd lm h = Some (p_max a) -> rd ls h = Some (p_sum a) ->
  (forall d, 0 <= d < hd -> rd out (h * hd + d) = Some (p_out a d)) ->
  (forall d, 0 <= d < hd -> rd out ((i * stride + h) * hd + d) = Some (p_out (part i h) d)) ->
  exists out' lm' ls', reduce_head hd maxs sums stride stats i h (out, lm, ls) = Some (out', lm', ls') /\
    stores out out' (fun d => 0 <= d < hd) (fun d => h * hd + d) (p_out (merge a (part i h))) /\
    stores lm lm' (fun _ : unit => True) (fun _ => h) (fun _ => p_max (merge a (part i h))) /\
    stores ls ls' (fun _ : unit => True) (fun _ => h) (fun _ => p_sum (merge a (part i h))).
Proof.
  intros Hi Hh Hlm Hls Ha Hb. unfold reduce_head. rewrite Hlm. cbn [mbind option_bind]. destruct (Hms i h ltac:(lia) Hh) as [-> Es].
  cbn [mbind option_bind]. rewrite Hls. cbn [mbind option_bind]. rewrite Es. cbn [mbind option_bind].
  set (b := part i h) in *. set (g := ltb (p_max b) (p_max a)).
  destruct (wr_stores ls h (p_sum (merge a b))) as (ls' & Els & Wls); [by eapply rd_Some|].
  destruct (wr_stores lm h (p_max (merge a b))) as (lm' & Elm & Wlm); [by eapply rd_Some|].
  assert (p_sum (merge a b) = if g then add (p_sum a) (mul (exp (if g then sub (p_max b) (p_max a) else sub (p_max a) (p_max b))) (p_sum b))
    else add (mul (exp (if g then sub (p_max b) (p_max a) else sub (p_max a) (p_max b))) (p_sum a)) (p_sum b)) as <-.
  { unfold merge. fold g. by destruct g. }
  rewrite Els. cbn [mbind option_bind].
  assert (p_max (merge a b) = fmax (p_max a) (p_max b)) as <- by (unfold merge; by case_match).
  rewrite Elm. cbn [mbind option_bind]. replace (i * (stride * hd) + h * hd) with ((i * stride + h) * hd) by lia.
  set (far := (i * stride + h) * hd) in *. assert (h * hd + hd <= far) as Hfar by (unfold far; assert (1 <= i * stride) as H1 by (clear -Hi Hh Hheads; nia); clear -H1 Hhd Hhv; nia).
  assert (0 <= h * hd) by (apply Z.mul_nonneg_nonneg; lia). pose proof (rd_Some _ _ _ (Ha (hd - 1) ltac:(lia))).
  set (f := exp (if g then sub (p_max b) (p_max a) else sub (p_max a) (p_max b))).
  set (body := fun (i0 : Z) (out : list F) => _). assert (Z.quot hd 16 = hv) as -> by (rewrite Hhd; apply Z.quot_mul; lia).
  assert (forall l out1, length out1 = length out -> stores out out1 (fun d => 0 <= d < l * 16) (fun d => h * hd + d) (p_out (merge a b)) -> 0 <= l < hv ->
    exists out2, body l out1 = Some out2 /\ stores out out2 (fun d => 0 <= d < (l + 1) * 16) (fun d => h * hd + d) (p_out (merge a b))) as Hturn.
  { intros l out1 L1 W1 Hl. unfold body.
    assert (rd_range out1 (h * hd + l * 16) 16 = Some (tab (fun c => p_out a (l * 16 + c)))) as Ea.
    { apply rd_range_tab; [lia|]. intros c Hc. rewrite (stores_out _ _ _ _ _ W1) by lia. rewrite <- Ha by lia. f_equal. lia. }
    assert (rd_range out1 (far + l * 16) 16 = Some (tab (fun c => p_out b (l * 16 + c)))) as Eb.
    { apply rd_range_tab; [lia|]. intros c Hc. rewrite (stores_out _ _ _ _ _ W1) by lia. rewrite <- Hb by lia. f_equal. lia. }
    destruct (wr_range_stores out1 (h * hd + l * 16) 16 (fun c => p_out (merge a b) (l * 16 + c))) as (out2 & E2 & W2); [lia|lia|lia|].
    exists out2. split.
    - transitivity (wr_range out1 (h * hd + l * 16) (tab (fun c => p_out (merge a b) (l * 16 + c)))); [|exact E2].
      unfold f. destruct g eqn:Eg; rewrite ?Ea, ?Eb; cbn [mbind option_bind]; rewrite ?Ea, ?Eb; cbn [mbind option_bind]; f_equal;
        unfold vec_add, vec_mul, splat, VEC_ELEM_NUM; rewrite !zip_with_tab; apply tab_ext; intros c _; unfold merge; fold g; by rewrite Eg.
    - eapply stores_reindex; [| |eapply stores_app; [|exact W1|exact W2]].
      + intros d Hd. destruct (decide (d < l * 16)); [exists (inl d)|exists (inr (d - l * 16)); replace (l * 16 + (d - l * 16)) with d by lia]; split_and!; lia || done.
      + intros [d|d] Hd; [exists d|exists (l * 16 + d)]; cbn beta in *; lia.
      + intros d d' Hd Hd'. cbn beta in *. lia. }
  destruct (for_range_inv (fun l out1 => length out1 = length out /\ stores out out1 (fun d => 0 <= d < l * 16) (fun d => h * hd + d) (p_out (merge a b))) 0 hv body out)
    as (out' & -> & L' & W'); [lia| | |].
  - split; [done|]. constructor; [done| |done]. intros d Hd. lia.
  - intros l out1 Hl [L1 W1]. destruct (Hturn l out1 L1 W1 Hl) as (out2 & E2 & W2). exists out2. split; [exact E2|]. split; [exact (stores_length _ _ _ _ _ W2)|done].
  - cbn [mbind option_bind]. exists out', lm', ls'. split; [done|]. rewrite <- Hhd in W'. by split_and!.
Qed.


(** The heads below [n] stand for [k + 1] parts, the others for [k]; the parts still to come
    are in place. *)
Record reduced (k n : Z) (out lm ls : list F) : Prop := {
  re_max : forall h, 0 <= h < heads -> rd lm h = Some (p_max (merged (fun i => part i h) (if decide (h < n) then k + 1 else k)));
  re_sum : forall h, 0 <= h < heads -> rd ls h = Some (p_sum (merged (fun i => part i h) (if decide (h < n) then k + 1 else k)));
  re_out : forall h d, 0 <= h < heads -> 0 <= d < hd ->
    rd out (h * hd + d) = Some (p_out (merged (fun i => part i h) (if decide (h < n) then k + 1 else k)) d);
  re_rest : forall i h d, 1 <= i < splits -> 0 <= h < heads -> 0 <= d < hd -> rd out ((i * stride + h) * hd + d) = Some (p_out (part i h) d)
}.

Lemma reduced_next k out lm ls : reduced k heads out lm ls -> reduced (k + 1) 0 out lm ls.
Proof.
  assert (forall h, 0 <= h < heads -> (if decide (h < 0) then k + 1 + 1 else k + 1) = (if decide (h < heads) then k + 1 else k)) as E
    by (intros; repeat case_decide; lia).
  intros [H1 H2 H3 H4]. constructor; [|..|done].
  - intros h Hh. rewrite E by done. by apply H1.
  - intros h Hh. rewrite E by done. by apply H2.
  - intros h d Hh Hd. rewrite E by done. by apply H3.
Qed.

Lemma reduce_heads_ok k out lm ls : 1 <= k < splits -> reduced k 0 out lm ls ->
  exists out' lm' ls', for_range 0 heads (reduce_head hd maxs sums stride stats k) (out, lm, ls) = Some (out', lm', ls') /\ reduced (k + 1) 0 out' lm' ls'.
Proof.
  intros Hk R0. destruct (for_range_inv (fun n '(out, lm, ls) => reduced k n out lm ls) 0 heads (reduce_head hd maxs sums stride stats k) (out, lm, ls))
    as ([[out' lm'] ls'] & E & R'); [lia|done| |exists out', lm', ls'; split; [exact E|by apply reduced_next]].
  intros h [[o1 m1] s1] Hh [H1 H2 H3 H4]. set (a := merged (fun i => part i h) k).
  destruct (reduce_head_ok k h o1 m1 s1 a) as (o2 & m2 & s2 & -> & Wo & Wm & Ws); [done|done|..].
  { rewrite H1 by done. by rewrite decide_False by lia. }
  { rewrite H2 by done. by rewrite decide_False by lia. }
  { intros d Hd. rewrite H3 by done. by rewrite decide_False by lia. }
  { intros d Hd. by apply H4. }
  eexists. split; [done|]. assert (merge a (part k h) = merged (fun i => part i h) (k + 1)) as Em by (symmetry; apply (merged_succ (fun i => part i h)); lia).
  rewrite Em in *. constructor.
  - intros h' Hh'. destruct (decide (h' = h)) as [->|Hne]; [rewrite decide_True by lia; by apply (stores_in _ _ _ _ _ Wm tt)|].
    rewrite (stores_out _ _ _ _ _ Wm), H1 by (intros; done || congruence). repeat case_decide; lia || done.
  - intros h' Hh'. destruct (decide (h' = h)) as [->|Hne]; [rewrite decide_True by lia; by apply (stores_in _ _ _ _ _ Ws tt)|].
    rewrite (stores_out _ _ _ _ _ Ws), H2 by (intros; done || congruence). repeat case_decide; lia || done.
  - intros h' d Hh' Hd. destruct (decide (h' = h)) as [->|Hne]; [rewrite decide_True by lia; by apply (stores_in _ _ _ _ _ Wo d)|].
    rewrite (stores_out _ _ _ _ _ Wo), H3 by (done || (intros d' Hd' Heq; apply row_inj in Heq; lia)). repeat case_decide; lia || done.
  - intros i h' d Hi Hh' Hd. rewrite (stores_out _ _ _ _ _ Wo), H4; [done..|]. intros d' Hd' Heq. apply row_inj in Heq; [|done..].
    clear -Heq Hi Hh Hh' Hheads. nia.
Qed.

End SplitsOk.

Lemma reduce_splits_ok {F} `{FloatOps F} hd hv stride heads splits (part : Z -> Z -> @Part F) (st : Splits F) : hd = hv * 16 -> 1 <= hv ->
  0 <= heads <= stride -> heads <= 8 -> 1 <= splits -> let stats := Tasks.reduction_stats_stride stride in
  (forall i h, 0 <= i < splits -> 0 <= h < heads ->
    rd (split_max_buffer st) (i * stats + h) = Some (p_max (part i h)) /\ rd (split_sum_buffer st) (i * stats + h) = Some (p_sum (part i h))) ->
  (forall i h d, 0 <= i < splits -> 0 <= h < heads -> 0 <= d < hd ->
    rd (split_output_buffer st) ((i * stride + h) * hd + d) = Some (p_out (part i h) d)) ->
  exists st', reduce_splits hd stride heads splits st = Some st' /\
    forall h, 0 <= h < heads -> let res := merged (fun i => part i h) splits in
      rd (split_max_buffer st') h = Some (p_max res) /\ rd (split_sum_buffer st') h = Some (p_sum res) /\
      forall d, 0 <= d < hd -> rd (split_output_buffer st') (h * hd + d) = Some (p_out res d).
Proof.
  intros Hhd Hhv Hheads H8 Hsp stats Hms Ho. unfold reduce_splits. set (local := replicate _ _).
  assert (stride <= stats) as Hss.
  { unfold stats, Tasks.reduction_stats_stride. rewrite Z.quot_div_nonneg by lia. pose proof (Z.div_mod (stride + 15) 16 ltac:(lia)).
    pose proof (Z.mod_pos_bound (stride + 15) 16 ltac:(lia)). lia. }
  assert (Z.of_nat (length local) = 8) as Ll by done.
  assert (forall (src : list F) (f : Z -> F), (forall h, 0 <= h < heads -> rd src h = Some (f h)) ->
    exists l, memcpy_range local 0 src 0 heads = Some l /\ forall h, 0 <= h < heads -> rd l h = Some (f h)) as Hcopy.
  { intros src f Hf. unfold memcpy_range. destruct (decide (heads = 0)) as [->|Hne].
    - destruct (rd_range_ok src 0 0) as (vs & -> & Lv & _); [lia..|]. cbn [mbind option_bind]. destruct vs; [|done].
      exists local. split; [by apply wr_range_nil; lia|]. lia.
    - rewrite (rd_range_tab src 0 heads f) by (lia || (intros; by apply Hf)). cbn [mbind option_bind].
      destruct (wr_range_stores local 0 heads f) as (l & -> & W); [lia..|]. exists l. split; [done|]. intros h Hh. by apply (stores_in _ _ _ _ _ W h). }
  destruct (Hcopy (split_max_buffer st) (fun h => p_max (part 0 h))) as (lm0 & Elm & Hlm); [intros h Hh; by apply (Hms 0 h); lia|].
  destruct (Hcopy (split_sum_buffer st) (fun h => p_sum (part 0 h))) as (ls0 & Els & Hls); [intros h Hh; by apply (Hms 0 h); lia|].
  destruct (for_range_inv (fun k '(out, lm, ls) => if decide (k = 0) then out = split_output_buffer st /\ lm = local /\ ls = local
      else reduced hd stride heads part splits k 0 out lm ls) 0 splits (reduce_split hd (split_max_buffer st) (split_sum_buffer st) stride heads)
    (split_output_buffer st, local, local)) as ([[out lm] ls] & -> & R); [lia|by rewrite decide_True| |].
  - intros k [[out lm] ls] Hk. unfold reduce_split. fold stats. destruct (decide (k = 0)) as [->|Hne].
    + intros (-> & -> & ->). change (0 <? 0) with false. cbn iota. rewrite Elm. cbn [mbind option_bind]. rewrite Els. cbn [mbind option_bind].
      eexists. split; [done|]. cbn iota. rewrite decide_False by lia. constructor.
      * intros h Hh. rewrite decide_False by lia. by apply Hlm.
      * intros h Hh. rewrite decide_False by lia. by apply Hls.
      * intros h d Hh Hd. rewrite decide_False by lia. specialize (Ho 0 h d ltac:(lia) Hh Hd). rewrite Z.mul_0_l, Z.add_0_l in Ho. exact Ho.
      * intros i h d Hi Hh Hd. apply Ho; lia.
    + intros R. rewrite (proj2 (Z.ltb_lt 0 k)) by lia.
      destruct (reduce_heads_ok hd hv Hhd Hhv stride stats heads Hheads (split_max_buffer st) (split_sum_buffer st) part splits Hms k out lm ls) as (o' & lm' & ls' & -> & R');
        [lia|done|]. eexists. split; [done|]. cbn iota. by rewrite decide_False by lia.
  - rewrite decide_False in R by lia. destruct R as [R1 R2 R3 _]. cbn [mbind option_bind].
    assert (forall h, 0 <= h < heads -> 0 <= h < Z.of_nat (length (split_max_buffer st)) /\ 0 <= h < Z.of_nat (length (split_sum_buffer st))) as Hin.
    { intros h Hh. destruct (Hms 0 h ltac:(lia) Hh) as [Em Es]. rewrite Z.mul_0_l, Z.add_0_l in Em, Es. split; by eapply rd_Some. }
    destruct (for_range_stores2 fst snd (fun _ => True) heads (write_back lm ls) (fun _ (_ : unit) => True) (fun h _ => h)
      (fun h _ => p_max (merged (fun i => part i h) splits)) (fun _ (_ : unit) => True) (fun h _ => h) (fun h _ => p_sum (merged (fun i => part i h) splits))
      (split_max_buffer st, split_sum_buffer st)) as ([ms ss] & -> & _ & Wm & Ws); [intros; lia|intros; lia|done| |].
    + intros h [ms ss] Hh _ Lm Ls _ _. cbn [fst snd] in *. unfold write_back. rewrite R1 by done. rewrite decide_False by lia. cbn [mbind option_bind].
      destruct (Hin h Hh). destruct (wr_stores ms h (p_max (merged (fun i => part i h) splits))) as (ms' & -> & Wm); [lia|]. cbn [mbind option_bind].
      rewrite R2 by done. rewrite decide_False by lia. cbn [mbind option_bind].
      destruct (wr_stores ss h (p_sum (merged (fun i => part i h) splits))) as (ss' & -> & Ws); [lia|]. cbn [mbind option_bind]. by exists (ms', ss').
    + cbn [mbind option_bind fst snd] in *. eexists. split; [done|]. intros h Hh. cbv zeta. cbn [split_output_buffer split_max_buffer split_sum_buffer]. split_and!.
      * by apply (stores_in _ _ _ _ _ Wm (h, tt)).
      * by apply (stores_in _ _ _ _ _ Ws (h, tt)).
      * intros d Hd. rewrite R3 by done. by rewrite decide_False by lia.
Qed.

End Output.
