(* ===== verification/AttnRun.v ===== *)
(** * The CPU attention kernel: threads and tasks

    [csrc/cpu/cpu_attn_impl.hpp], [AttentionMainLoop::operator()]: the threads of the
    parallel loop clear the flags of the reductions, meet at a barrier, and then fetch
    tasks from a shared counter; the first tasks are the spans of work items, the last
    ones the reductions, which wait until the flags of their parts are set.  [move] is
    the next action of one thread and [step] any interleaving of such actions; a
    thread that spins has no action until what it waits for has happened.

    The flags are addressed by reduction and part (their memory is disjoint by
    [AttnTasks.scratch_sound]).  They start with whatever an earlier call has left. *)

From S2P Require Import Prelude Arrays AttnSchedule AttnTasks.

#[local] Open Scope Z_scope.

Module Run.
Import Attn Tasks.

(** Where a thread is. *)
Inductive Pc :=
  | Reset (item_idx split_idx : Z)
  | Arrive
  | Wait
  | Fetch
  | Items (span_item stop : Z)
  | Publish (span_item stop : Z)
  | Reduce (item_idx split_idx : Z)
  | Done.

#[export] Instance pc_eq_dec : EqDecision Pc.
Proof. solve_decision. Defined.

(** What has been computed. *)
Inductive Event := EItem (idx : Z) | EReduce (idx : Z).

Record State := mkState {
  guard_counter : Z;
  task_counter : Z;
  flags : gmap (Z * Z) bool;
  parts : gset (Z * Z);
  log : list Event;
  threads : list Pc
}.

Section Machine.
Context (m : Metadata).

Definition total_counter_num : Z := task_span_num m + reduction_item_num m.

Definition goto (tid : nat) (pc : Pc) (st : State) : State :=
  mkState (guard_counter st) (task_counter st) (flags st) (parts st) (log st) (<[tid := pc]> (threads st)).
Definition set_flag (key : Z * Z) (b : bool) (st : State) : State :=
  mkState (guard_counter st) (task_counter st) (<[key := b]> (flags st)) (parts st) (log st) (threads st).
Definition add_part (key : Z * Z) (st : State) : State :=
  mkState (guard_counter st) (task_counter st) (flags st) ({[key]} ∪ parts st) (log st) (threads st).
Definition record (e : Event) (st : State) : State :=
  mkState (guard_counter st) (task_counter st) (flags st) (parts st) (e :: log st) (threads st).
Definition arrive (st : State) : State :=
  mkState (guard_counter st + 1) (task_counter st) (flags st) (parts st) (log st) (threads st).
Definition acquire_counter (st : State) : Z * State :=
  (task_counter st,
   mkState (guard_counter st) (task_counter st + 1) (flags st) (parts st) (log st) (threads st)).

(** Clearing the flags of the items [thread_id], [thread_id + thread_num], ... *)
Definition move_reset (tid : nat) (item_idx split_idx : Z) (st : State) : option State :=
  if item_idx <? reduction_item_num m then
    item ← rd (reduction_items m) item_idx;
    if split_idx <? ri_split_num item then
      Some (goto tid (Reset item_idx (split_idx + 1)) (set_flag (item_idx, split_idx) false st))
    else Some (goto tid (Reset (item_idx + md_thread_num m) 0) st)
  else Some (goto tid Arrive st).

(** Fetching the next task. *)
Definition move_fetch (tid : nat) (st : State) : option State :=
  let '(task_idx, st) := acquire_counter st in
  if total_counter_num <=? task_idx then Some (goto tid Done st)
  else if task_idx <? task_span_num m then
    span ← rd (task_spans m) task_idx;
    Some (goto tid (Items (ts_start span) (ts_start span + ts_count span)) st)
  else Some (goto tid (Reduce (task_idx - task_span_num m) 0) st).

(** One work item of a span: its output is final, or a part of a reduction. *)
Definition move_item (tid : nat) (span_item stop : Z) (st : State) : option State :=
  if span_item <? stop then
    w ← rd (workitem_groups m) span_item;
    let st := record (EItem span_item) st in
    if wi_split_id w =? -1 then Some (goto tid (Items (span_item + 1) stop) st)
    else Some (goto tid (Publish span_item stop) (add_part (wi_reduction_id w, wi_split_id w) st))
  else Some (goto tid Fetch st).

(** The end of [partial_output]: the flag is set after the part is written. *)
Definition move_publish (tid : nat) (span_item stop : Z) (st : State) : option State :=
  w ← rd (workitem_groups m) span_item;
  Some (goto tid (Items (span_item + 1) stop) (set_flag (wi_reduction_id w, wi_split_id w) true st)).

(** [reduce_splits]: waits for each part in turn, then writes the output. *)
Definition move_reduce (tid : nat) (item_idx split_idx : Z) (st : State) : option State :=
  item ← rd (reduction_items m) item_idx;
  if split_idx <? ri_split_num item then
    if default false (flags st !! (item_idx, split_idx))
    then Some (goto tid (Reduce item_idx (split_idx + 1)) st) else None
  else Some (goto tid Fetch (record (EReduce item_idx) st)).

Definition move (tid : nat) (st : State) : option State :=
  pc ← threads st !! tid;
  match pc with
  | Reset item_idx split_idx => move_reset tid item_idx split_idx st
  | Arrive => Some (goto tid Wait (arrive st))
  | Wait => if guard_counter st =? md_thread_num m then Some (goto tid Fetch st) else None
  | Fetch => move_fetch tid st
  | Items span_item stop => move_item tid span_item stop st
  | Publish span_item stop => move_publish tid span_item stop st
  | Reduce item_idx split_idx => move_reduce tid item_idx split_idx st
  | Done => None
  end.

Definition step (st st' : State) : Prop := exists tid, move tid st = Some st'.

(** The start of the loop body: nothing to do, or flags to clear, or not. *)
Definition start_pc (thread_id : nat) : Pc :=
  if workitem_group_num m =? 0 then Done
  else if 0 <? reduction_split_num m then Reset (Z.of_nat thread_id) 0 else Fetch.

Definition init (old_flags : gmap (Z * Z) bool) : State :=
  mkState 0 (counter m) old_flags ∅ [] (start_pc <$> seq 0 (Z.to_nat (md_thread_num m))).

Definition finished (st : State) : Prop := Forall (fun pc => pc = Done) (threads st).

(** After the parallel loop: the counter is ready for the next call. *)
Definition reset_counter (st : State) : State :=
  mkState (guard_counter st) 0 (flags st) (parts st) (log st) (threads st).

End Machine.

(** ** Metadata that can be run *)

Record run_ok (m : Metadata) : Prop := {
  ro_threads : 1 <= md_thread_num m;
  ro_counter : counter m = 0;
  ro_items : workitem_group_num m = Z.of_nat (length (workitem_groups m));
  ro_reds : reduction_item_num m = Z.of_nat (length (reduction_items m));
  ro_span_num : task_span_num m = Z.of_nat (length (task_spans m));
  ro_spans : tiled 0 (task_spans m) (workitem_group_num m);
  ro_total : reduction_split_num m = zsum (ri_split_num <$> reduction_items m);
  ro_pos : Forall (fun it => 1 <= ri_split_num it) (reduction_items m);
  ro_split : forall i w, rd (workitem_groups m) i = Some w -> wi_split_id w <> -1 ->
    exists it, rd (reduction_items m) (wi_reduction_id w) = Some it /\ 0 <= wi_split_id w < ri_split_num it;
  ro_parts : forall k it s, rd (reduction_items m) k = Some it -> 0 <= s < ri_split_num it ->
    exists i w, rd (workitem_groups m) i = Some w /\ wi_split_id w = s /\ wi_reduction_id w = k
}.

Section Correct.
Context (m : Metadata) (OK : run_ok m).

Abbreviation T := (md_thread_num m).
Abbreviation N := (workitem_group_num m).
Abbreviation R := (reduction_item_num m).
Abbreviation S := (task_span_num m).
Abbreviation splits := (reduction_split_num m).

Lemma split_sum_nonneg l : Forall (fun it => 1 <= ri_split_num it) l -> 0 <= zsum (ri_split_num <$> l).
Proof. intros F. apply zsum_nonneg, Forall_fmap. eapply Forall_impl; [done|simpl; lia]. Qed.

Lemma split_num_le k it : rd (reduction_items m) k = Some it -> 1 <= ri_split_num it <= splits.
Proof.
  intros E. pose proof (rd_Some _ _ _ E). rewrite rd_lookup in E by lia. rewrite (ro_total m OK).
  pose proof (ro_pos m OK) as F. rewrite <- (take_drop_middle _ _ _ E) in F |- *.
  apply Forall_app in F as [F1 [Hit F2]%Forall_cons].
  rewrite fmap_app, zsum_app. csimpl.
  pose proof (split_sum_nonneg _ F1).
  pose proof (split_sum_nonneg _ F2). lia.
Qed.

Lemma reductions_splits : 0 < splits <-> 0 < R.
Proof.
  rewrite (ro_total m OK), (ro_reds m OK). destruct (ro_pos m OK) as [|it l Hit F]; csimpl; [lia|].
  pose proof (split_sum_nonneg _ F). lia.
Qed.

(** The items of the first [c] spans are the first [claimed c] items. *)
Definition claimed (c : Z) : Z := zsum (ts_count <$> take (Z.to_nat c) (task_spans m)).

Lemma tiled_spec a spans b : tiled a spans b ->
  b = a + zsum (ts_count <$> spans) /\ forall k s, spans !! k = Some s ->
    ts_start s = a + zsum (ts_count <$> take k spans) /\ 0 < ts_count s.
Proof.
  revert a. induction spans as [|x spans IH]; intros a; csimpl; [intros ->; split; [lia|done]|].
  intros (Hx & Hc & H). destruct (IH _ H) as [Hb Hk]. split; [lia|].
  intros [|k] s E; simplify_eq/=; [lia|]. destruct (Hk k s E) as [-> ?]. csimpl. lia.
Qed.

Lemma claimed_all c : S <= c -> claimed c = N.
Proof.
  intros Hc. unfold claimed. rewrite take_ge by (rewrite (ro_span_num m OK) in Hc; lia).
  destruct (tiled_spec _ _ _ (ro_spans m OK)) as [-> _]. lia.
Qed.

Lemma claimed_next c s : 0 <= c -> rd (task_spans m) c = Some s ->
  ts_start s = claimed c /\ 0 < ts_count s /\ claimed (c + 1) = claimed c + ts_count s.
Proof.
  intros Hc E. rewrite rd_lookup in E by done. destruct (tiled_spec _ _ _ (ro_spans m OK)) as [_ H].
  destruct (H _ _ E) as [Hs Hp]. split_and!; [by rewrite Hs|done|]. unfold claimed.
  replace (Z.to_nat (c + 1)) with (Datatypes.S (Z.to_nat c)) by lia. rewrite (take_S_r _ _ _ E), fmap_app, zsum_app. simpl. lia.
Qed.

Lemma claimed_bounds c : 0 <= claimed c <= N.
Proof.
  destruct (tiled_spec _ _ _ (ro_spans m OK)) as [Hb Hk].
  assert (Forall (fun s => 0 < ts_count s) (task_spans m)) as F.
  { apply Forall_forall. intros s Hs. apply list_elem_of_lookup_1 in Hs as [k Hs]. by destruct (Hk k s Hs). }
  assert (forall l, Forall (fun s => 0 < ts_count s) l -> 0 <= zsum (ts_count <$> l)) as Hnn
    by (intros l Hl; apply zsum_nonneg, Forall_fmap; eapply Forall_impl; [done|simpl; lia]).
  unfold claimed. pose proof (Hnn _ (Forall_take _ (Z.to_nat c) _ F)). pose proof (Hnn _ (Forall_drop _ (Z.to_nat c) _ F)).
  rewrite Hb. rewrite <- (take_drop (Z.to_nat c) (task_spans m)) at 3. rewrite fmap_app, zsum_app. lia.
Qed.

(** ** Who does what *)

(** The items and the reduction that a thread has fetched and not yet recorded. *)
Definition rest_items (pc : Pc) : list Z :=
  match pc with
  | Items a b => seqZ a (b - a)
  | Publish a b => seqZ (a + 1) (b - a - 1)
  | _ => []
  end.
Definition rest_reds (pc : Pc) : list Z := match pc with Reduce k _ => [k] | _ => [] end.

Definition log_items (l : list Event) : list Z := omap (fun e => match e with EItem i => Some i | _ => None end) l.
Definition log_reds (l : list Event) : list Z := omap (fun e => match e with EReduce i => Some i | _ => None end) l.

Definition fetched_reds (c : Z) : Z := Z.max 0 (Z.min R (c - S)).

Definition pc_ok (pc : Pc) : Prop :=
  match pc with
  | Items a b => 0 <= a <= b /\ b <= N
  | Publish a b => 0 <= a < b /\ b <= N
  | Reduce k s => 0 <= k < R /\ 0 <= s
  | _ => True
  end.

Record work_ok (st : State) : Prop := {
  wo_counter : 0 <= task_counter st;
  wo_items : log_items (log st) ++ (threads st ≫= rest_items) ≡ₚ seqZ 0 (claimed (task_counter st));
  wo_reds : log_reds (log st) ++ (threads st ≫= rest_reds) ≡ₚ seqZ 0 (fetched_reds (task_counter st));
  wo_pcs : Forall pc_ok (threads st);
  wo_done : Done ∈ threads st -> S + R <= task_counter st \/ N = 0
}.

Lemma bind_insert {A} (f : Pc -> list A) l i pc pc' : l !! i = Some pc ->
  (<[i := pc']> l ≫= f) ++ f pc ≡ₚ (l ≫= f) ++ f pc'.
Proof.
  revert i. induction l as [|x l IH]; intros [|i] E; simplify_eq/=; [solve_Permutation|].
  rewrite <- !app_assoc. apply Permutation_app_head. by apply IH.
Qed.

(** The accounting of one kind of work when one thread moves. *)
Lemma account {A} (f : Pc -> list A) l tid pc pc' (lg lg' done done' : list A) :
  l !! tid = Some pc -> lg ++ (l ≫= f) ≡ₚ done -> lg' ++ f pc' ++ done ≡ₚ lg ++ f pc ++ done' ->
  lg' ++ (<[tid := pc']> l ≫= f) ≡ₚ done'.
Proof.
  intros E H1 H2. pose proof (bind_insert f l tid pc pc' E) as H3.
  apply (Permutation_app_inv_r (f pc ++ done)).
  transitivity ((lg' ++ f pc' ++ done) ++ (l ≫= f)).
  - transitivity (lg' ++ ((<[tid:=pc']> l ≫= f) ++ f pc) ++ done); [solve_Permutation|]. rewrite H3. solve_Permutation.
  - rewrite H2. transitivity ((lg ++ (l ≫= f)) ++ f pc ++ done'); [solve_Permutation|]. rewrite H1. solve_Permutation.
Qed.

Lemma work_goto st st1 tid pc pc' : work_ok st -> threads st !! tid = Some pc -> threads st1 = threads st ->
  task_counter st <= task_counter st1 -> pc_ok pc' -> (pc' = Done -> S + R <= task_counter st1) ->
  log_items (log st1) ++ rest_items pc' ++ seqZ 0 (claimed (task_counter st)) ≡ₚ
    log_items (log st) ++ rest_items pc ++ seqZ 0 (claimed (task_counter st1)) ->
  log_reds (log st1) ++ rest_reds pc' ++ seqZ 0 (fetched_reds (task_counter st)) ≡ₚ
    log_reds (log st) ++ rest_reds pc ++ seqZ 0 (fetched_reds (task_counter st1)) ->
  work_ok (goto tid pc' st1).
Proof.
  intros W Hpc Hth Hc Hok Hd Hi Hr. destruct W as [W1 W2 W3 W4 W5]. constructor; simpl; rewrite ?Hth.
  - lia.
  - by eapply account.
  - by eapply account.
  - by apply Forall_insert.
  - intros Hin. apply list_elem_of_lookup_1 in Hin as [j Hj]. destruct (decide (j = tid)) as [->|Hne].
    + rewrite list_lookup_insert_eq in Hj by (by eapply lookup_lt_Some). simplify_eq. left. by apply Hd.
    + rewrite list_lookup_insert_ne in Hj by done.
      destruct W5 as [?|?]; [by eapply list_elem_of_lookup_2|left; lia|by right].
Qed.

(** The same when only the place of the thread changes. *)
Lemma work_same st st1 tid pc pc' : work_ok st -> threads st !! tid = Some pc -> threads st1 = threads st ->
  task_counter st1 = task_counter st -> log st1 = log st -> pc_ok pc' -> pc' <> Done ->
  rest_items pc' = rest_items pc -> rest_reds pc' = rest_reds pc -> work_ok (goto tid pc' st1).
Proof.
  intros W Hpc Hth Hc Hl Hok Hd Hi Hr. eapply work_goto; try done; rewrite ?Hl, ?Hi, ?Hr, ?Hc; done.
Qed.

Lemma work_fetch st st' tid : work_ok st -> threads st !! tid = Some Fetch ->
  move_fetch m tid st = Some st' -> work_ok st'.
Proof.
  intros W Hpc. pose proof (wo_counter _ W) as Hc. unfold move_fetch, acquire_counter, total_counter_num.
  destruct (Z.leb_spec (S + R) (task_counter st)) as [Hall|Hmore].
  { intros [= <-]. pose proof (ro_reds m OK). eapply work_goto; try done; simpl; [lia|lia|..].
    - by rewrite !claimed_all by lia.
    - unfold fetched_reds. by replace (Z.max 0 (Z.min R (task_counter st + 1 - S))) with
        (Z.max 0 (Z.min R (task_counter st - S))) by lia. }
  destruct (Z.ltb_spec (task_counter st) S) as [Hs|Hs].
  - intros E. apply bind_Some in E as (span & Espan & [= <-]).
    destruct (claimed_next _ _ Hc Espan) as (Hstart & Hcnt & Hnext). pose proof (claimed_bounds (task_counter st)).
    pose proof (claimed_bounds (task_counter st + 1)).
    eapply work_goto; try done; simpl; [lia|lia| |].
    + rewrite Hnext, (seqZ_app 0), Hstart by lia.
      replace (claimed (task_counter st) + ts_count span - claimed (task_counter st)) with (ts_count span) by lia.
      rewrite Z.add_0_l. solve_Permutation.
    + unfold fetched_reds. by replace (Z.max 0 (Z.min R (task_counter st + 1 - S))) with
        (Z.max 0 (Z.min R (task_counter st - S))) by lia.
  - intros [= <-]. eapply work_goto; try done; simpl; [lia|lia| |].
    + by rewrite !claimed_all by lia.
    + unfold fetched_reds. replace (Z.max 0 (Z.min R (task_counter st + 1 - S))) with (task_counter st - S + 1) by lia.
      rewrite Z.max_r, Z.min_r by lia. rewrite (seqZ_app 0) by lia. simpl. solve_Permutation.
Qed.

Lemma work_step st st' : work_ok st -> step m st st' -> work_ok st'.
Proof.
  intros W [tid E]. unfold move in E. apply bind_Some in E as (pc & Hpc & E).
  pose proof (Forall_lookup_1 _ _ _ _ (wo_pcs _ W) Hpc) as Hok.
  destruct pc as [k s| | | |a b|a b|k s|]; simpl in Hok.
  - unfold move_reset in E. destruct (k <? R); [|simplify_eq; by eapply work_same].
    apply bind_Some in E as (it & Hit & E). destruct (s <? ri_split_num it); simplify_eq; by eapply work_same.
  - simplify_eq. by eapply work_same.
  - destruct (guard_counter st =? T); simplify_eq. by eapply work_same.
  - by eapply work_fetch.
  - unfold move_item in E. destruct (Z.ltb_spec a b) as [Hab|Hab].
    + apply bind_Some in E as (w & Hw & E).
      assert (seqZ a (b - a) = a :: seqZ (a + 1) (b - (a + 1))) as Hseq.
      { rewrite seqZ_cons by lia. f_equal. rewrite Z.add_1_r. f_equal. lia. }
      destruct (wi_split_id w =? -1); simplify_eq; (eapply work_goto; try done; simpl; [lia|]);
        rewrite Hseq; [|replace (b - a - 1) with (b - (a + 1)) by lia]; solve_Permutation.
    + simplify_eq. eapply work_same; try done. simpl. by rewrite seqZ_nil by lia.
  - unfold move_publish in E. apply bind_Some in E as (w & Hw & E). simplify_eq.
    eapply work_same; try done; simpl; [lia|]. f_equal. lia.
  - unfold move_reduce in E. apply bind_Some in E as (it & Hit & E). destruct (s <? ri_split_num it).
    + destruct (default false _); simplify_eq. eapply work_same; try done. simpl. lia.
    + simplify_eq. eapply work_goto; try done. simpl. solve_Permutation.
  - done.
Qed.

(** ** The run ends *)

Definition weight (pc : Pc) : Z :=
  match pc with
  | Reset k s => 4 + (splits + 2) * Z.max 0 (R - k) + Z.max 0 (splits + 1 - s)
  | Arrive => 3
  | Wait => 2
  | Fetch => 1
  | Items a b => 2 + 2 * Z.max 0 (b - a)
  | Publish a b => 1 + 2 * Z.max 0 (b - a)
  | Reduce k s => 2 + Z.max 0 (splits - s)
  | Done => 0
  end.

Definition variant (st : State) : Z :=
  (2 * N + splits + 10) * Z.max 0 (S + R - task_counter st) + zsum (weight <$> threads st).

Lemma splits_nonneg : 0 <= splits.
Proof. rewrite (ro_total m OK). apply split_sum_nonneg, (ro_pos m OK). Qed.

Lemma weight_nonneg pc : 0 <= weight pc.
Proof. pose proof splits_nonneg. destruct pc; simpl; nia. Qed.

Lemma variant_nonneg st : 0 <= variant st.
Proof.
  unfold variant. pose proof splits_nonneg. pose proof (claimed_bounds 0).
  assert (0 <= zsum (weight <$> threads st)).
  { induction (threads st) as [|pc l IH]; csimpl; [lia|]. pose proof (weight_nonneg pc). lia. }
  nia.
Qed.

Lemma variant_goto st st1 tid pc pc' : threads st !! tid = Some pc -> threads st1 = threads st ->
  (2 * N + splits + 10) * Z.max 0 (S + R - task_counter st1) + weight pc' <
  (2 * N + splits + 10) * Z.max 0 (S + R - task_counter st) + weight pc ->
  variant (goto tid pc' st1) < variant st.
Proof.
  intros Hpc Hth Hlt. unfold variant. simpl. rewrite Hth, list_fmap_insert.
  rewrite (zsum_insert _ _ (weight pc)) by (by rewrite list_lookup_fmap, Hpc). lia.
Qed.

Lemma variant_step st st' : work_ok st -> step m st st' -> variant st' < variant st.
Proof.
  intros W [tid E]. unfold move in E. apply bind_Some in E as (pc & Hpc & E).
  pose proof (Forall_lookup_1 _ _ _ _ (wo_pcs _ W) Hpc) as Hok. pose proof splits_nonneg. pose proof (ro_threads m OK).
  destruct pc as [k s| | | |a b|a b|k s|]; simpl in Hok.
  - unfold move_reset in E. destruct (Z.ltb_spec k R) as [Hk|Hk].
    + apply bind_Some in E as (it & Hit & E). pose proof (split_num_le _ _ Hit).
      destruct (Z.ltb_spec s (ri_split_num it)); simplify_eq; (eapply variant_goto; [done|done|]); simpl; nia.
    + simplify_eq. eapply variant_goto; [done|done|]. simpl. nia.
  - simplify_eq. eapply variant_goto; [done|done|]. simpl. lia.
  - destruct (guard_counter st =? T); simplify_eq. eapply variant_goto; [done|done|]. simpl. lia.
  - unfold move_fetch, acquire_counter, total_counter_num in E. pose proof (wo_counter _ W) as Hc.
    destruct (Z.leb_spec (S + R) (task_counter st)).
    { simplify_eq. eapply variant_goto; [done|done|]. simpl. nia. }
    destruct (Z.ltb_spec (task_counter st) S).
    + apply bind_Some in E as (span & Espan & E). simplify_eq. eapply variant_goto; [done|done|]. simpl.
      destruct (claimed_next _ _ Hc Espan) as (Hs & Hcnt & Hnext).
      pose proof (claimed_bounds (task_counter st)). pose proof (claimed_bounds (task_counter st + 1)). nia.
    + simplify_eq. eapply variant_goto; [done|done|]. simpl. pose proof (claimed_bounds 0). nia.
  - unfold move_item in E. destruct (Z.ltb_spec a b).
    + apply bind_Some in E as (w & Hw & E).
      destruct (wi_split_id w =? -1); simplify_eq; (eapply variant_goto; [done|done|]); simpl; lia.
    + simplify_eq. eapply variant_goto; [done|done|]. simpl. lia.
  - unfold move_publish in E. apply bind_Some in E as (w & Hw & E). simplify_eq.
    eapply variant_goto; [done|done|]. simpl. lia.
  - unfold move_reduce in E. apply bind_Some in E as (it & Hit & E). pose proof (split_num_le _ _ Hit).
    destruct (Z.ltb_spec s (ri_split_num it)).
    + destruct (default false _); simplify_eq. eapply variant_goto; [done|done|]. simpl. lia.
    + simplify_eq. eapply variant_goto; [done|done|]. simpl. lia.
  - done.
Qed.

(** ** The barrier and the flags *)

Definition arrived (pc : Pc) : bool := match pc with Reset _ _ | Arrive => false | _ => true end.
Definition passed (pc : Pc) : bool := match pc with Reset _ _ | Arrive | Wait => false | _ => true end.

Abbreviation count_arrived l := (zsum ((fun pc => if arrived pc then 1 else 0) <$> l)).
Abbreviation flag st key := (default false (flags st !! key)).
Abbreviation key_of w := (wi_reduction_id w, wi_split_id w).
Abbreviation at_pc st tid pc := (threads st !! tid = Some pc).

Definition all_arrived (st : State) : Prop := forall tid pc, at_pc st tid pc -> arrived pc = true.

(** A flag that is set is that of a part that is there, or is yet to be cleared. *)
Definition flags_ok (st : State) : Prop := forall k it s,
  rd (reduction_items m) k = Some it -> 0 <= s < ri_split_num it -> flag st (k, s) = true ->
  (k, s) ∈ parts st \/
  exists k' s', at_pc st (Z.to_nat (k mod T)) (Reset k' s') /\ (k' < k \/ k' = k /\ s' <= s).

(** A part that is there has its flag set, or the thread that wrote it is about to. *)
Definition published (st : State) : Prop := forall key, key ∈ parts st ->
  flag st key = true \/
  exists tid a b w, at_pc st tid (Publish a b) /\ rd (workitem_groups m) a = Some w /\ key = key_of w.

Definition pc_sync (st : State) (tid : nat) (pc : Pc) : Prop :=
  match pc with
  | Reset k s => 0 < splits /\ 0 <= k /\ k mod T = Z.of_nat tid /\ 0 <= s
  | Arrive | Wait => 0 < splits
  | Publish a b => exists w, rd (workitem_groups m) a = Some w /\ key_of w ∈ parts st
  | Reduce k s => forall s', 0 <= s' < s -> (k, s') ∈ parts st
  | _ => True
  end.

Record sync_ok (st : State) : Prop := {
  so_length : Z.of_nat (length (threads st)) = T;
  so_guard : 0 < splits -> guard_counter st = count_arrived (threads st);
  so_barrier : 0 < splits -> forall tid pc, at_pc st tid pc -> passed pc = true -> all_arrived st;
  so_parts : forall key, key ∈ parts st -> 0 < splits /\ all_arrived st;
  so_pcs : forall tid pc, at_pc st tid pc -> pc_sync st tid pc;
  so_logged : forall i w, EItem i ∈ log st -> rd (workitem_groups m) i = Some w -> wi_split_id w <> -1 ->
    key_of w ∈ parts st;
  so_flags : flags_ok st;
  so_published : published st
}.

Lemma split_item_splits i w : rd (workitem_groups m) i = Some w -> wi_split_id w <> -1 -> 0 < splits.
Proof.
  intros E Hs. destruct (ro_split m OK i w E Hs) as (it & Hit & _). pose proof (split_num_le _ _ Hit). lia.
Qed.

Lemma insert_pc (l : list Pc) (tid : nat) pc pc' j q : l !! tid = Some pc -> <[tid := pc']> l !! j = Some q ->
  (j = tid /\ q = pc') \/ (j <> tid /\ l !! j = Some q).
Proof. intros H E. apply list_lookup_insert_Some in E as [(-> & <- & _)|(? & ?)]; [by left|by right]. Qed.

Lemma sync_goto st st1 tid pc pc' : sync_ok st -> at_pc st tid pc -> threads st1 = threads st ->
  (0 < splits -> guard_counter st1 + (if arrived pc then 1 else 0) = guard_counter st + (if arrived pc' then 1 else 0)) ->
  (arrived pc = true -> arrived pc' = true) ->
  (0 < splits -> passed pc' = true -> passed pc = true \/ all_arrived st) ->
  parts st ⊆ parts st1 ->
  (forall key, key ∈ parts st1 -> key ∈ parts st \/ 0 < splits /\ passed pc = true) ->
  pc_sync st1 tid pc' ->
  (forall i w, EItem i ∈ log st1 -> rd (workitem_groups m) i = Some w -> wi_split_id w <> -1 ->
    EItem i ∈ log st \/ key_of w ∈ parts st1) ->
  flags_ok (goto tid pc' st1) -> published (goto tid pc' st1) -> sync_ok (goto tid pc' st1).
Proof.
  intros W Hpc Hth Hg Ha Hp Hsub Hnew Hpcs Hlog Hf Hpub. destruct W as [W1 W2 W3 W4 W5 W6 _ _].
  assert (forall st0, threads st0 = threads st -> all_arrived st -> all_arrived (goto tid pc' st0)) as Harr.
  { intros st0 H0 H j q Hj. simpl in Hj. rewrite H0 in Hj. apply (insert_pc _ _ _ _ _ _ Hpc) in Hj as [[-> ->]|[_ Hj]].
    - apply Ha. by eapply H.
    - by eapply H. }
  constructor; simpl; rewrite ?Hth; try done.
  - by rewrite length_insert.
  - intros Hs. rewrite list_fmap_insert, (zsum_insert _ _ (if arrived pc then 1 else 0))
      by (by rewrite list_lookup_fmap, Hpc). specialize (W2 Hs). specialize (Hg Hs). lia.
  - intros Hs j q Hj Hq. apply Harr; [done|]. apply (insert_pc _ _ _ _ _ _ Hpc) in Hj as [[-> ->]|[_ Hj]].
    + destruct (Hp Hs Hq) as [H|H]; [by eapply (W3 Hs tid pc)|done].
    + by eapply (W3 Hs j q).
  - intros key Hkey. destruct (Hnew key Hkey) as [H|[Hs H]].
    + destruct (W4 key H) as [Hs H']. split; [done|by apply Harr].
    + split; [done|]. apply Harr; [done|]. by eapply (W3 Hs tid pc).
  - intros j q Hj. apply (insert_pc _ _ _ _ _ _ Hpc) in Hj as [[-> ->]|[_ Hj]].
    + destruct pc'; simpl in *; done.
    + specialize (W5 j q Hj). destruct q; simpl in *; try done.
      * destruct W5 as (w & ? & ?). exists w. split; [done|by apply Hsub].
      * intros s' Hs'. by apply Hsub, W5.
  - intros i w Hi Hw Hs. destruct (Hlog i w Hi Hw Hs) as [H|H]; [|done]. by eapply Hsub, W6.
Qed.

(** Steps that leave the flags and the parts alone. *)
Lemma flags_goto st st1 tid pc pc' : flags_ok st -> at_pc st tid pc -> threads st1 = threads st ->
  flags st1 = flags st -> parts st ⊆ parts st1 ->
  (forall k s, pc = Reset k s -> (exists s', pc' = Reset (k + T) s' /\ s' <= 0 /\ 1 <= T /\ k mod T = Z.of_nat tid /\
     forall it, rd (reduction_items m) k = Some it -> ri_split_num it <= s) \/ (pc' = Arrive /\ R <= k)) ->
  flags_ok (goto tid pc' st1).
Proof.
  intros Hf Hpc Hth Hfl Hsub Hres k it s Hit Hs Hflag. simpl in *. rewrite Hfl, Hth in *.
  destruct (Hf k it s Hit Hs Hflag) as [H|(k' & s' & Hk & Hle)]; [left; by apply Hsub|].
  destruct (decide (Z.to_nat (k mod T) = tid)) as [<-|Hne].
  - rewrite Hpc in Hk. simplify_eq. pose proof (lookup_lt_Some _ _ _ Hpc).
    destruct (Hres k' s' eq_refl) as [(s0 & -> & Hs0 & HT & Hmod & Hn)|[-> HR]].
    + right. exists (k' + T), s0. rewrite list_lookup_insert_eq by done. split; [done|].
      destruct Hle as [Hlt|[-> Hle]]; [|specialize (Hn it Hit); lia].
      pose proof (Z.mod_pos_bound k T). rewrite Z2Nat.id in Hmod by lia.
      assert (exists d, k = k' + d * T) as [d ->].
      { exists ((k - k') / T). pose proof (Z.div_mod (k - k') T ltac:(lia)) as Hd.
        rewrite Zminus_mod, Hmod, Z.sub_diag, Z.mod_0_l in Hd by lia. lia. }
      assert (1 <= d) by nia. destruct (decide (d = 1)) as [->|]; [right|left]; nia.
    + pose proof (rd_Some _ _ _ Hit). rewrite <- (ro_reds m OK) in *. lia.
  - right. exists k', s'. rewrite list_lookup_insert_ne by done. done.
Qed.

Lemma published_goto st st1 tid pc pc' : published st -> at_pc st tid pc -> threads st1 = threads st ->
  (forall key, flag st key = true -> flag st1 key = true) ->
  (forall key, key ∈ parts st1 -> key ∈ parts st \/
     exists a b w, pc' = Publish a b /\ rd (workitem_groups m) a = Some w /\ key = key_of w) ->
  (forall a b w, pc = Publish a b -> rd (workitem_groups m) a = Some w -> flag st1 (key_of w) = true) ->
  published (goto tid pc' st1).
Proof.
  intros Hp Hpc Hth Hfl Hnew Hpub key Hkey. simpl in *. rewrite Hth. pose proof (lookup_lt_Some _ _ _ Hpc).
  destruct (Hnew key Hkey) as [Hold|(a & b & w & -> & Hw & ->)].
  - destruct (Hp key Hold) as [H'|(j & a & b & w & Hj & Hw & ->)]; [left; by apply Hfl|].
    destruct (decide (j = tid)) as [->|Hne].
    + rewrite Hpc in Hj. simplify_eq. left. by eapply Hpub.
    + right. exists j, a, b, w. by rewrite list_lookup_insert_ne.
  - right. exists tid, a, b, w. by rewrite list_lookup_insert_eq.
Qed.

Lemma early_no_parts st tid pc key : sync_ok st -> at_pc st tid pc -> arrived pc = false -> key ∉ parts st.
Proof. intros W Hpc Ha Hin. destruct (so_parts _ W key Hin) as [_ H]. by rewrite (H tid pc Hpc) in Ha. Qed.

(** A step that changes neither flags nor parts nor the log, between places that are
    both before or both behind the barrier. *)
Lemma sync_same st st1 tid pc pc' : sync_ok st -> at_pc st tid pc -> threads st1 = threads st ->
  guard_counter st1 = guard_counter st -> flags st1 = flags st -> parts st1 = parts st ->
  (forall i, EItem i ∈ log st1 -> EItem i ∈ log st) ->
  arrived pc' = arrived pc -> (passed pc' = true -> passed pc = true) -> pc_sync st tid pc' ->
  (forall a b, pc <> Publish a b) -> (forall k s, pc <> Reset k s) -> sync_ok (goto tid pc' st1).
Proof.
  intros W Hpc Hth Hg Hfl Hpa Hlog Ha Hp Hs Hnp Hnr. eapply sync_goto; try done.
  - intros _. by rewrite Hg, Ha.
  - congruence.
  - intros _ H. left. by apply Hp.
  - by rewrite Hpa.
  - intros key. rewrite Hpa. by left.
  - destruct pc'; simpl in *; try done; by rewrite Hpa.
  - intros i w Hi _ _. left. by apply Hlog.
  - eapply flags_goto; try done; [apply W|by rewrite Hpa|]. intros k s ->. by destruct (Hnr k s).
  - eapply published_goto; try done; [apply W|by rewrite Hfl|rewrite Hpa; by left|]. intros a b w ->. by destruct (Hnp a b).
Qed.

Lemma sync_reset st st' tid k s : sync_ok st -> at_pc st tid (Reset k s) ->
  move_reset m tid k s st = Some st' -> sync_ok st'.
Proof.
  intros W Hpc E. pose proof (so_pcs _ W _ _ Hpc) as (Hsp & Hk & Hmod & Hs). pose proof (ro_threads m OK) as HT.
  assert (forall key, key ∉ parts st) as Hno by (intros key; by apply (early_no_parts st tid (Reset k s))).
  assert (forall st1, parts st1 = parts st -> forall pc', published (goto tid pc' st1)) as Hpub.
  { intros st1 Hp pc' key Hin. simpl in Hin. rewrite Hp in Hin. by destruct (Hno key). }
  unfold move_reset in E. destruct (Z.ltb_spec k R) as [HR|HR].
  - apply bind_Some in E as (it & Hit & E). destruct (Z.ltb_spec s (ri_split_num it)) as [Hlt|Hge]; simplify_eq.
    + eapply sync_goto; try done; simpl; [by left|split_and!; (done || lia)|by left| |by apply Hpub].
      intros k0 it0 s0 Hit0 Hs0 Hflag. cbn [flags goto set_flag threads parts] in *. pose proof (lookup_lt_Some _ _ _ Hpc).
      destruct (decide ((k, s) = (k0, s0))) as [E|Hne]; [by rewrite E, lookup_insert_eq in Hflag|].
      rewrite lookup_insert_ne in Hflag by done.
      destruct (so_flags _ W k0 it0 s0 Hit0 Hs0 Hflag) as [H'|(k' & s' & Hk' & Hle)]; [by left|right].
      destruct (decide (Z.to_nat (k0 mod T) = tid)) as [Ht|Ht].
      * rewrite Ht, Hpc in Hk'. injection Hk' as <- <-. exists k, (s + 1). rewrite Ht, list_lookup_insert_eq by done.
        split; [done|]. destruct Hle as [?|[<- ?]]; [lia|]. right. split; [done|].
        assert (s <> s0) by congruence. lia.
      * exists k', s'. by rewrite list_lookup_insert_ne.
    + eapply sync_goto; try done; simpl; [by left| |by left| |by apply Hpub].
      * split_and!; [done|lia| |lia]. rewrite <- Hmod. rewrite <- (Z.mul_1_l T) at 1. apply Z.mod_add. lia.
      * eapply flags_goto; try done; [apply W|]. intros k0 s0 [= <- <-]. left. exists 0. split_and!; try done.
        intros it0 Hit0. simplify_eq. lia.
  - simplify_eq. eapply sync_goto; try done; simpl; [by left|by left| |by apply Hpub].
    eapply flags_goto; try done; [apply W|]. intros k0 s0 [= <- <-]. by right.
Qed.

Lemma count_arrived_le l : count_arrived l <= Z.of_nat (length l).
Proof. induction l as [|pc l IH]; csimpl; [lia|]. destruct (arrived pc); lia. Qed.

Lemma count_arrived_all l : count_arrived l = Z.of_nat (length l) -> Forall (fun pc => arrived pc = true) l.
Proof.
  induction l as [|pc l IH]; csimpl; [constructor|]. pose proof (count_arrived_le l).
  destruct (arrived pc) eqn:E; [|lia]. intros H'. constructor; [done|apply IH; lia].
Qed.

Lemma sync_wait st tid : sync_ok st -> at_pc st tid Wait -> guard_counter st = T -> sync_ok (goto tid Fetch st).
Proof.
  intros W Hpc Hg. eapply sync_goto; try done; simpl; [|by left|by left| |].
  - intros Hs _. right. rewrite (so_guard _ W Hs) in Hg. rewrite <- (so_length _ W) in Hg. apply count_arrived_all in Hg.
    intros j pc Hj. by apply (Forall_lookup_1 _ _ _ _ Hg Hj).
  - eapply flags_goto; try done. apply W.
  - eapply published_goto; try done; [apply W|by left].
Qed.

Lemma sync_publish st tid a b w : sync_ok st -> at_pc st tid (Publish a b) -> rd (workitem_groups m) a = Some w ->
  sync_ok (goto tid (Items (a + 1) b) (set_flag (key_of w) true st)).
Proof.
  intros W Hpc Hw. destruct (so_pcs _ W _ _ Hpc) as (w' & Hw' & Hin). rewrite Hw in Hw'. injection Hw' as <-.
  eapply sync_goto; try done; simpl; [by left|by left|by left| |].
  - intros k it s Hit Hs Hflag. cbn [flags goto set_flag threads parts] in *.
    destruct (decide (key_of w = (k, s))) as [E|Hne].
    { left. by rewrite <- E. }
    rewrite lookup_insert_ne in Hflag by done.
    destruct (so_flags _ W k it s Hit Hs Hflag) as [H'|(k' & s' & Hk' & Hle)]; [by left|].
    destruct (so_parts _ W _ Hin) as [_ Hall]. specialize (Hall _ _ Hk'). done.
  - eapply published_goto; try done; cbn [flags set_flag parts]; [apply W| |by left|].
    + intros key Hk. destruct (decide (key_of w = key)) as [<-|Hne]; [by rewrite lookup_insert_eq|by rewrite lookup_insert_ne].
    + intros a' b' w' [= <- <-] Hw'. rewrite Hw in Hw'. injection Hw' as <-. by rewrite lookup_insert_eq.
Qed.

Lemma sync_item st st' tid a b : sync_ok st -> at_pc st tid (Items a b) ->
  move_item m tid a b st = Some st' -> sync_ok st'.
Proof.
  intros W Hpc E. unfold move_item in E. destruct (a <? b); [|simplify_eq; by eapply sync_same].
  apply bind_Some in E as (w & Hw & E). destruct (Z.eqb_spec (wi_split_id w) (-1)) as [Hs|Hs]; simplify_eq.
  - eapply sync_goto; try done; simpl; [by left|by left| | |].
    + intros i w' Hi Hw' Hs'. apply elem_of_cons in Hi as [[= ->]|Hi]; [congruence|by left].
    + eapply flags_goto; try done. apply W.
    + eapply published_goto; try done; [apply W|by left].
  - pose proof (split_item_splits _ _ Hw Hs) as Hsp.
    eapply sync_goto; try done; simpl; [by left|set_solver| | | | |].
    + intros key [->%elem_of_singleton|?]%elem_of_union; [by right|by left].
    + exists w. split; [done|set_solver].
    + intros i w' Hi Hw' Hs'. apply elem_of_cons in Hi as [[= ->]|Hi]; [|by left]. simplify_eq. right. set_solver.
    + eapply flags_goto; try done; [apply W|]. simpl. set_solver.
    + eapply published_goto; try done; [apply W|]. simpl.
      intros key [->%elem_of_singleton|?]%elem_of_union; [|by left]. right. by exists a, b, w.
Qed.

(** A reduction only takes parts that are there. *)
Lemma flag_part st tid k s it : sync_ok st -> at_pc st tid (Reduce k s) -> rd (reduction_items m) k = Some it ->
  0 <= s < ri_split_num it -> flag st (k, s) = true -> (k, s) ∈ parts st.
Proof.
  intros W Hpc Hit Hs Hf. destruct (so_flags _ W k it s Hit Hs Hf) as [?|(k' & s' & Hk' & _)]; [done|].
  pose proof (split_num_le _ _ Hit) as Hsp.
  pose proof (so_barrier _ W ltac:(lia) tid _ Hpc eq_refl _ _ Hk'). done.
Qed.

Lemma sync_step st st' : work_ok st -> sync_ok st -> step m st st' -> sync_ok st'.
Proof.
  intros Wk W [tid E]. unfold move in E. apply bind_Some in E as (pc & Hpc & E).
  pose proof (Forall_lookup_1 _ _ _ _ (wo_pcs _ Wk) Hpc) as Hok.
  destruct pc as [k s| | | |a b|a b|k s|]; simpl in Hok.
  - by eapply sync_reset.
  - simplify_eq. eapply sync_goto; try done; simpl; [lia|by left|apply (so_pcs _ W _ _ Hpc)|by left| |].
    + eapply flags_goto; try done. apply W.
    + eapply published_goto; try done; [apply W|by left].
  - destruct (Z.eqb_spec (guard_counter st) T); simplify_eq. by apply sync_wait.
  - unfold move_fetch, acquire_counter in E. destruct (total_counter_num m <=? task_counter st).
    { simplify_eq. by eapply sync_same. }
    destruct (task_counter st <? S).
    + apply bind_Some in E as (span & Espan & E). simplify_eq. by eapply sync_same.
    + simplify_eq. eapply sync_same; try done. simpl. lia.
  - by eapply sync_item.
  - unfold move_publish in E. apply bind_Some in E as (w & Hw & E). simplify_eq. by apply sync_publish.
  - unfold move_reduce in E. apply bind_Some in E as (it & Hit & E).
    destruct (Z.ltb_spec s (ri_split_num it)).
    + destruct (flag st (k, s)) eqn:Hf; simplify_eq. eapply sync_same; try done. simpl.
      intros s' Hs'. destruct (decide (s' = s)) as [->|]; [eapply flag_part; (done || lia)|].
      apply (so_pcs _ W _ _ Hpc). lia.
    + simplify_eq. eapply sync_same; try done. simpl. intros i [?|Hi]%elem_of_cons; [done|done].
  - done.
Qed.

(** ** No thread is stuck *)

Definition ready (pc : Pc) : bool :=
  match pc with Reset _ _ | Arrive | Fetch | Items _ _ | Publish _ _ => true | _ => false end.

Lemma ready_moves st tid pc : work_ok st -> sync_ok st -> at_pc st tid pc -> ready pc = true ->
  exists st', step m st st'.
Proof.
  intros Wk W Hpc Hr. pose proof (Forall_lookup_1 _ _ _ _ (wo_pcs _ Wk) Hpc) as Hok. pose proof (so_pcs _ W _ _ Hpc) as Hs.
  enough (is_Some (move m tid st)) as [st' E] by (by exists st', tid).
  unfold move. rewrite Hpc. cbn [mbind option_bind]. destruct pc as [k s| | | |a b|a b|k s|]; simpl in *; try done.
  - unfold move_reset. destruct (Z.ltb_spec k R); [|done]. rewrite (ro_reds m OK) in *.
    destruct (rd_is_Some (reduction_items m) k) as [it ->]; [lia|]. cbn [mbind option_bind]. by case_match.
  - unfold move_fetch, acquire_counter. destruct (total_counter_num m <=? task_counter st); [done|].
    destruct (Z.ltb_spec (task_counter st) S) as [Hc|]; [|done]. rewrite (ro_span_num m OK) in Hc.
    destruct (rd_is_Some (task_spans m) (task_counter st)) as [sp ->]; [pose proof (wo_counter _ Wk); lia|done].
  - unfold move_item. destruct (Z.ltb_spec a b); [|done]. rewrite (ro_items m OK) in Hok.
    destruct (rd_is_Some (workitem_groups m) a) as [w ->]; [lia|]. cbn [mbind option_bind]. by case_match.
  - unfold move_publish. destruct Hs as (w & -> & _). done.
Qed.

(** When only waiting and finished threads are left, all items are recorded. *)
Lemma idle_rest st : Forall (fun pc => ready pc = false) (threads st) -> threads st ≫= rest_items = [].
Proof. induction 1 as [|pc l H F IH]; [done|]. csimpl. rewrite IH, app_nil_r. by destruct pc. Qed.

Lemma reduce_ready st tid k s it : work_ok st -> sync_ok st -> at_pc st tid (Reduce k s) ->
  Forall (fun pc => ready pc = false) (threads st) -> rd (reduction_items m) k = Some it -> 0 <= s < ri_split_num it ->
  flag st (k, s) = true.
Proof.
  intros Wk W Hpc F Hit Hs. destruct (ro_parts m OK k it s Hit Hs) as (i & w & Hw & Esid & Erid).
  assert (EItem i ∈ log st) as Hlog.
  { assert (i ∈ log_items (log st)) as Hi.
    { pose proof (wo_items _ Wk) as P. rewrite (idle_rest st F), app_nil_r in P. rewrite P.
      rewrite claimed_all; [apply elem_of_seqZ; pose proof (rd_Some _ _ _ Hw); rewrite (ro_items m OK); lia|].
      assert (k ∈ seqZ 0 (fetched_reds (task_counter st))) as Hk.
      { rewrite <- (wo_reds _ Wk). apply elem_of_app. right. apply list_elem_of_bind. exists (Reduce k s).
        split; [by left|by eapply list_elem_of_lookup_2]. }
      apply elem_of_seqZ in Hk. unfold fetched_reds in Hk. lia. }
    apply list_elem_of_omap in Hi as (e & He & Ee). by destruct e; simplify_eq. }
  assert ((k, s) ∈ parts st) as Hin.
  { rewrite <- Esid, <- Erid. eapply (so_logged _ W); [done|done|lia]. }
  destruct (so_published _ W _ Hin) as [?|(j & a & b & w' & Hj & _)]; [done|].
  by pose proof (Forall_lookup_1 _ _ _ _ F Hj).
Qed.

Lemma tasks_no_deadlock st : work_ok st -> sync_ok st -> finished st \/ exists st', step m st st'.
Proof.
  intros Wk W. destruct (decide (Exists (fun pc => ready pc = true) (threads st))) as [Hr|Hr].
  { right. apply Exists_exists in Hr as (pc & Hin & Hr). apply list_elem_of_lookup_1 in Hin as [tid Hpc].
    by eapply ready_moves. }
  assert (Forall (fun pc => ready pc = false) (threads st)) as F.
  { apply not_Exists_Forall in Hr; [|apply _]. eapply Forall_impl; [done|]. intros pc. apply not_true_is_false. }
  destruct (decide (Exists (fun pc => pc <> Done) (threads st))) as [Hw|Hw].
  - right. apply Exists_exists in Hw as (pc & Hin & Hnd). apply list_elem_of_lookup_1 in Hin as [tid Hpc].
    enough (is_Some (move m tid st)) as [st' E] by (by exists st', tid). unfold move. rewrite Hpc. cbn [mbind option_bind].
    pose proof (Forall_lookup_1 _ _ _ _ F Hpc) as Hrdy. destruct pc as [k s| | | |a b|a b|k s|]; try done.
    + pose proof (so_pcs _ W _ _ Hpc) as Hsp. simpl in Hsp. rewrite (so_guard _ W Hsp).
      assert (count_arrived (threads st) = T) as ->; [|by rewrite Z.eqb_refl].
      rewrite <- (so_length _ W). clear -F. induction F as [|pc l H F IH]; [done|]. csimpl. rewrite IH.
      destruct pc; simpl in *; try done; lia.
    + unfold move_reduce. pose proof (Forall_lookup_1 _ _ _ _ (wo_pcs _ Wk) Hpc) as [Hk Hs].
      rewrite (ro_reds m OK) in Hk. destruct (rd_is_Some (reduction_items m) k Hk) as [it Hit]. rewrite Hit.
      cbn [mbind option_bind]. destruct (Z.ltb_spec s (ri_split_num it)); [|done].
      by rewrite (reduce_ready st tid k s it) by (done || lia).
  - left. apply not_Exists_Forall in Hw; [|apply _]. eapply Forall_impl; [done|]. intros pc H. by apply dec_stable.
Qed.

(** ** Start and end *)

Lemma start_rest {A} (f : Pc -> list A) : (forall k s, f (Reset k s) = []) -> f Fetch = [] -> f Done = [] ->
  forall l, (start_pc m <$> l) ≫= f = [].
Proof.
  intros H1 H2 H3. induction l as [|t l IH]; [done|]. csimpl. rewrite IH, app_nil_r. unfold start_pc.
  by repeat case_match.
Qed.

Lemma splits_items : 0 < splits -> 0 < N.
Proof.
  intros Hs%reductions_splits. rewrite (ro_reds m OK) in Hs.
  destruct (rd_is_Some (reduction_items m) 0) as [it Hit]; [lia|]. pose proof (split_num_le _ _ Hit).
  destruct (ro_parts m OK 0 it 0 Hit) as (i & w & Hw & _); [lia|]. pose proof (rd_Some _ _ _ Hw).
  rewrite (ro_items m OK). lia.
Qed.

Lemma init_work old : work_ok (init m old).
Proof.
  unfold init. rewrite (ro_counter m OK). pose proof (claimed_bounds 0). constructor; simpl.
  - lia.
  - by rewrite (start_rest rest_items).
  - rewrite (start_rest rest_reds) by done. unfold fetched_reds. rewrite (ro_span_num m OK).
    by rewrite seqZ_nil by lia.
  - apply Forall_fmap, Forall_true. intros t. unfold start_pc. simpl. by repeat case_match.
  - intros (t & Ht & _)%list_elem_of_fmap. right. unfold start_pc in Ht. repeat case_match; try done.
    by apply Z.eqb_eq.
Qed.

Lemma init_pc old tid pc : at_pc (init m old) tid pc -> pc = start_pc m tid /\ Z.of_nat tid < T.
Proof.
  simpl. intros H. apply list_lookup_fmap_Some in H as (t & -> & H). apply lookup_seq in H as [-> ?]. split; [done|lia].
Qed.

Lemma start_reset tid : 0 < splits -> start_pc m tid = Reset (Z.of_nat tid) 0.
Proof.
  intros Hs. pose proof (splits_items Hs). unfold start_pc. rewrite (proj2 (Z.eqb_neq _ 0)), (proj2 (Z.ltb_lt _ _)) by lia. done.
Qed.

Lemma init_sync old : sync_ok (init m old).
Proof.
  pose proof (ro_threads m OK) as HT. constructor; simpl.
  - rewrite length_fmap, length_seq. lia.
  - intros Hs. induction (seq 0 (Z.to_nat T)) as [|t l IH]; [done|]. csimpl. rewrite <- IH, (start_reset t Hs). done.
  - intros Hs tid pc [-> _]%(init_pc old). by rewrite (start_reset _ Hs).
  - intros key ?%elem_of_empty. done.
  - intros tid pc [-> Hlt]%(init_pc old). unfold start_pc. destruct (N =? 0); [done|].
    destruct (Z.ltb_spec 0 splits); [|done]. simpl. split_and!; [done|lia|apply Z.mod_small; lia|lia].
  - intros i w ?%elem_of_nil. done.
  - intros k it s Hit Hs _. right. exists (k mod T), 0. pose proof (split_num_le _ _ Hit). pose proof (rd_Some _ _ _ Hit).
    pose proof (Z.mod_pos_bound k T ltac:(lia)). pose proof (Z.mod_le k T ltac:(lia) ltac:(lia)). simpl. split; [|lia].
    rewrite list_lookup_fmap, lookup_seq_lt by lia. simpl. rewrite start_reset by lia. rewrite Z2Nat.id by lia. done.
  - intros key ?%elem_of_empty. done.
Qed.

Lemma finished_log st : work_ok st -> sync_ok st -> finished st ->
  log_items (log st) ≡ₚ seqZ 0 N /\ log_reds (log st) ≡ₚ seqZ 0 R.
Proof.
  intros Wk W F. assert (forall (f : Pc -> list Z), f Done = [] -> threads st ≫= f = []) as Hnil.
  { intros f Hf. unfold finished in F. induction F as [|pc l -> F IH]; [done|]. csimpl. by rewrite Hf, IH. }
  pose proof (wo_items _ Wk) as P1. pose proof (wo_reds _ Wk) as P2.
  rewrite (Hnil rest_items), app_nil_r in P1 by done. rewrite (Hnil rest_reds), app_nil_r in P2 by done.
  assert (claimed (task_counter st) = N /\ fetched_reds (task_counter st) = R) as [E1 E2]; [|by rewrite P1, P2, E1, E2].
  pose proof (ro_reds m OK) as HR. destruct (wo_done _ Wk) as [Hc|Hn].
  - destruct (threads st) as [|pc l] eqn:E; [pose proof (so_length _ W) as Hl; pose proof (ro_threads m OK); rewrite E in Hl; simpl in Hl; lia|].
    unfold finished in F. rewrite E in F. apply Forall_cons in F as [-> _]. by left.
  - split; [apply claimed_all; lia|unfold fetched_reds; lia].
  - pose proof (claimed_bounds (task_counter st)). pose proof reductions_splits. pose proof splits_items.
    split; [lia|unfold fetched_reds; lia].
Qed.

(** Every run ends with every item and every reduction done once. *)
Lemma run_complete old : inevitably (step m) (fun st => finished st /\ log_items (log st) ≡ₚ seqZ 0 N /\
  log_reds (log st) ≡ₚ seqZ 0 R) (init m old).
Proof.
  apply (inevitably_variant _ _ (fun st => work_ok st /\ sync_ok st) (fun st => Z.to_nat (variant st))).
  - intros st [Wk W]. destruct (tasks_no_deadlock st Wk W) as [Hf|?]; [left|by right]. split; [done|]. by apply finished_log.
  - intros st st' [Wk W] Hs. split; [split; [by eapply work_step|by eapply sync_step]|].
    pose proof (variant_step st st' Wk Hs). pose proof (variant_nonneg st'). lia.
  - split; [apply init_work|apply init_sync].
Qed.

Lemma reachable_ok old st : rtc (step m) (init m old) st -> work_ok st /\ sync_ok st.
Proof.
  intros Hr. assert (forall s, work_ok s /\ sync_ok s -> rtc (step m) s st -> work_ok st /\ sync_ok st) as H.
  { clear -OK. induction 2 as [|a b c Hab _ IH]; [done|]. destruct H as [Wk W]. apply IH.
    split; [by eapply work_step|by eapply sync_step]. }
  apply (H (init m old)); [split; [apply init_work|apply init_sync]|done].
Qed.

End Correct.

(** ** The metadata of a schedule can be run *)

Section Scheduled.
Context (thread_num cache_size : Z) (input : ScheduleInput) (IN : input_ok thread_num input).
Context (m : Metadata) (p : Partitions) (css : list (list chunk)) (x : Expansion) (k size : Z).
Context (P : Tasks.parts thread_num cache_size input m p css x k size).

Lemma scheduled_offsets : exists offs, length offs = length (x_reduce_workitems x) /\
  reduction_items m = zip_with set_offset offs (x_reduce_workitems x).
Proof.
  destruct (reduction_scratch_offsets input 0 (x_reduce_workitems x)) as (offs & Hl & E). exists offs. split; [done|].
  by rewrite <- (pt_reductions _ _ _ _ _ _ _ _ _ P) in E.
Qed.

(** The reduction items, up to their scratch memory. *)
Lemma scheduled_reduction j y : x_reduce_workitems x !! j = Some y -> exists off,
  rd (reduction_items m) (Z.of_nat j) = Some (set_offset off y).
Proof.
  intros E. destruct scheduled_offsets as (offs & Hl & ->).
  destruct (lookup_lt_is_Some_2 offs j) as [off Hoff]; [rewrite Hl; by eapply lookup_lt_Some|].
  exists off. by rewrite rd_lookup, Nat2Z.id, lookup_zip_with, Hoff, E by lia.
Qed.

Lemma scheduled_reduction_inv j it : rd (reduction_items m) j = Some it ->
  exists y off, x_reduce_workitems x !! Z.to_nat j = Some y /\ it = set_offset off y /\ 0 <= j.
Proof.
  intros E. pose proof (rd_Some _ _ _ E). rewrite rd_lookup in E by lia. destruct scheduled_offsets as (offs & _ & Eq).
  rewrite Eq in E. apply lookup_zip_with_Some in E as (off & y & -> & _ & Ey). exists y, off. split_and!; (done || lia).
Qed.

Lemma scheduled_split i w : rd (workitem_groups m) i = Some w -> wi_split_id w <> -1 ->
  exists it, rd (reduction_items m) (wi_reduction_id w) = Some it /\ 0 <= wi_split_id w < ri_split_num it.
Proof.
  intros E Hs. pose proof (rd_Some _ _ _ E). rewrite rd_lookup in E by lia.
  destruct (pt_expanded _ _ _ _ _ _ _ _ _ P) as (W & Rd & _). pose proof (pt_cut _ _ _ _ _ _ _ _ _ P) as CUT.
  assert (w ∈ groups_of input p 0 (heads p k)) as Hw.
  { rewrite <- W, <- (pt_workitems _ _ _ _ _ _ _ _ _ P). by eapply list_elem_of_lookup_2. }
  apply groups_of_elem in Hw as (h1 & hd & h2 & it & Hh & Hit & Hst & ->). simpl in *.
  destruct (Z.leb_spec 0 (pi_reduction it)) as [Hr|]; [|done].
  rewrite (cut_items _ _ _ _ CUT) in Hit. destruct (items_of_reduction input 0 _ it ltac:(lia) Hit Hr) as (_ & r & Er & Eg & Hl).
  rewrite Z.sub_0_r, <- (cut_reductions _ _ _ _ CUT) in Er. rewrite <- Eg in Hst.
  destruct (ids_of_lookup (Z.of_nat (length (reductions_of p h1))) hd (reductions p) _ r Er Hst) as (j & Ej & Hj).
  rewrite Z2Nat.id in Ej by lia. rewrite Z.add_0_l, Ej, <- Nat2Z.inj_add.
  destruct (scheduled_reduction (length (reductions_of p h1) + j) (reduction_at hd r)) as (off & ->).
  { rewrite Rd, Hh. by apply reductions_of_middle. }
  by eexists.
Qed.

Lemma scheduled_part j it s : rd (reduction_items m) j = Some it -> 0 <= s < ri_split_num it ->
  exists i w, rd (workitem_groups m) i = Some w /\ wi_split_id w = s /\ wi_reduction_id w = j.
Proof.
  intros E Hs. destruct (scheduled_reduction_inv j it E) as (y & off & Ey & -> & Hj). simpl in Hs.
  destruct (pt_expanded _ _ _ _ _ _ _ _ _ P) as (W & Rd & _). pose proof (pt_cut _ _ _ _ _ _ _ _ _ P) as CUT.
  rewrite Rd in Ey. apply reductions_of_lookup in Ey as (h1 & hd & h2 & j' & Hh & Ej & Ek).
  apply reductions_at_lookup in Ej as (idx & r & Er & Hst & -> & Hid). simpl in Hs.
  rewrite (cut_reductions _ _ _ _ CUT) in Er.
  destruct (reds_of_items input 0 _ idx r s Er Hs) as (it & Hit & Ered & El & Eg).
  rewrite <- (cut_items _ _ _ _ CUT) in Hit. rewrite <- Eg in Hst.
  assert (group_of input hd (at_ (ids_of (0 + Z.of_nat (length (reductions_of p h1))) hd (reductions p)) (pi_reduction it)) it
    ∈ workitem_groups m) as Hw.
  { rewrite (pt_workitems _ _ _ _ _ _ _ _ _ P), W. apply groups_of_elem. by exists h1, hd, h2, it. }
  apply list_elem_of_lookup_1 in Hw as [i Hi]. exists (Z.of_nat i). eexists. rewrite rd_lookup, Nat2Z.id by lia.
  split; [done|]. simpl. rewrite Ered, Z.add_0_l, Hid. rewrite (proj2 (Z.leb_le 0 _)) by lia. split; [done|lia].
Qed.

(** The reduction [j] is one of a tile that is cut; the parts of the tile, for the same
    heads, are the items of this reduction. *)
Lemma scheduled_pieces j it : rd (reduction_items m) j = Some it -> exists r tok lo cuts hi head off,
  Split r tok lo cuts hi ∈ concat css /\ it = set_offset off (reduction_at head (red_of input r tok (1 + Z.of_nat (length cuts)))) /\
  forall s, 0 <= s < 1 + Z.of_nat (length cuts) -> let bound := cut_bound lo cuts (r_seq_len r) in {|
    wi_req_id := r_req_id r; wi_kv_head_idx := Z.quot head (original_q_head_per_kv input); wi_q_head_start := head; wi_q_head_num := r_group r;
    wi_q_token_id_start := tok; wi_q_token_num := q_tile_token_num input r tok; wi_kv_split_pos_start := bound s; wi_kv_split_pos_end := bound (s + 1);
    wi_reduction_id := j; wi_split_id := s; wi_local_split_id := s |} ∈ workitem_groups m.
Proof.
  intros E. destruct (scheduled_reduction_inv j it E) as (y & off & Ey & -> & Hj).
  destruct (pt_expanded _ _ _ _ _ _ _ _ _ P) as (W & Rd & _). pose proof (pt_cut _ _ _ _ _ _ _ _ _ P) as CUT.
  rewrite Rd in Ey. apply reductions_of_lookup in Ey as (h1 & hd & h2 & j' & Hh & Ej & Ek).
  apply reductions_at_lookup in Ej as (idx & r & Er & Hst & -> & Hid). rewrite (cut_reductions _ _ _ _ CUT) in Er.
  destruct (reds_of_chunk input 0 _ idx r Er) as (r0 & tok & lo & cuts & hi & Hin & -> & Hall).
  exists r0, tok, lo, cuts, hi, hd, off. split; [done|]. split; [done|]. intros s Hs bound.
  destruct (pieces_lookup input r0 tok (0 + Z.of_nat idx) 0 lo cuts hi s Hs) as [total Hp]. fold bound in Hp. apply Hall in Hp.
  rewrite <- (cut_items _ _ _ _ CUT) in Hp. rewrite (pt_workitems _ _ _ _ _ _ _ _ _ P), W. apply groups_of_elem.
  exists h1, hd, h2. eexists. split; [done|]. split; [exact Hp|]. split; [exact Hst|]. unfold group_of. cbn [item pi_req_id pi_group pi_q_token_id_start
    pi_q_token_num pi_kv_split_pos_start pi_kv_split_pos_end pi_reduction pi_local_split_id]. rewrite (proj2 (Z.leb_le 0 _)) by lia.
  rewrite !Z.add_0_l, Hid. f_equal; lia.
Qed.

Lemma scheduled_run_ok : run_ok m.
Proof.
  destruct (pt_expanded _ _ _ _ _ _ _ _ _ P) as (W & Rd & _ & T). destruct scheduled_offsets as (offs & Hl & Eo).
  constructor.
  - rewrite (pt_threads _ _ _ _ _ _ _ _ _ P). apply (ok_threads _ _ IN).
  - apply (pt_counter _ _ _ _ _ _ _ _ _ P).
  - by rewrite (pt_num _ _ _ _ _ _ _ _ _ P), (pt_workitems _ _ _ _ _ _ _ _ _ P).
  - rewrite (pt_red_num _ _ _ _ _ _ _ _ _ P), Eo, length_zip_with. lia.
  - by rewrite (pt_span_num _ _ _ _ _ _ _ _ _ P), (pt_spans _ _ _ _ _ _ _ _ _ P).
  - by rewrite (pt_num _ _ _ _ _ _ _ _ _ P), (pt_spans _ _ _ _ _ _ _ _ _ P).
  - rewrite (pt_split_num _ _ _ _ _ _ _ _ _ P), Eo. f_equal. clear -Hl. revert offs Hl.
    induction (x_reduce_workitems x) as [|y l IH]; intros [|o offs] Hl; simplify_eq/=; [done|]. csimpl. f_equal. by apply IH.
  - apply Forall_forall. intros it (j & Hj)%list_elem_of_lookup_1.
    destruct (scheduled_reduction_inv (Z.of_nat j) it) as (y & off & Ey & -> & _); [by rewrite rd_lookup, Nat2Z.id by lia|].
    simpl. rewrite Rd in Ey. apply reductions_of_lookup in Ey as (h1 & hd & h2 & j' & _ & Ej & _).
    apply reductions_at_lookup in Ej as (idx & r & Er & _ & -> & _). simpl.
    rewrite (cut_reductions _ _ _ _ (pt_cut _ _ _ _ _ _ _ _ _ P)) in Er. apply list_elem_of_lookup_2 in Er.
    apply list_elem_of_bind in Er as (c & Hr & _). destruct c as [|r0 tok lo cuts hi]; simpl in Hr; [by apply elem_of_nil in Hr|].
    apply list_elem_of_singleton in Hr as ->. simpl. lia.
  - apply scheduled_split.
  - apply scheduled_part.
Qed.

End Scheduled.

Lemma schedule_run_ok thread_num cache_size input m : input_ok thread_num input ->
  schedule thread_num cache_size input = Some (Ok m) -> run_ok m.
Proof.
  intros IN E. destruct (schedule_parts thread_num cache_size input IN)
    as (p & css & x & k & _ & _ & [[_ E']|(m' & size & E' & P)]); [congruence|].
  rewrite E in E'. injection E' as <-. by eapply scheduled_run_ok.
Qed.

(** [C5] The threads of a scheduled batch finish, whatever their interleaving and
    whatever flags an earlier call has left behind: the run cannot get stuck at the
    barrier or in a reduction that waits for a part, and at the end every work item and
    every reduction of the schedule has been carried out exactly once. *)
Theorem attention_tasks_complete thread_num cache_size input m old :
  input_ok thread_num input -> schedule thread_num cache_size input = Some (Ok m) ->
  inevitably (step m) (fun st => finished st /\
    log_items (log st) ≡ₚ seqZ 0 (workitem_group_num m) /\
    log_reds (log st) ≡ₚ seqZ 0 (reduction_item_num m)) (init m old).
Proof. intros IN E. apply run_complete. by eapply schedule_run_ok. Qed.

(** The flag of every part of both reductions is set when the threads start. *)
Definition stale_flags : gmap (Z * Z) bool :=
  list_to_map ((fun key => (key, true)) <$> [(0, 0); (0, 1); (0, 2); (0, 3); (1, 0); (1, 1); (1, 2); (1, 3)]).

Lemma attention_tasks_complete_witness : exists m,
  schedule 4 1048576 sample_input = Some (Ok m) /\ workitem_group_num m = 12 /\ reduction_item_num m = 2 /\
  inevitably (step m) (fun st => finished st /\
    log_items (log st) ≡ₚ seqZ 0 (workitem_group_num m) /\
    log_reds (log st) ≡ₚ seqZ 0 (reduction_item_num m)) (init m stale_flags).
Proof.
  assert (exists m, schedule 4 1048576 sample_input = Some (Ok m) /\ workitem_group_num m = 12 /\
    reduction_item_num m = 2) as (m & E & H1 & H2) by (eexists; split; [vm_compute; reflexivity|split; reflexivity]).
  exists m. split; [exact E|]. split; [exact H1|]. split; [exact H2|].
  apply (attention_tasks_complete 4 1048576 sample_input m stale_flags sample_input_ok E).
Defined.

(** The run of a given sequence of threads. *)
Fixpoint run_thread (m : Metadata) (tids : list nat) (st : State) : option State :=
  match tids with
  | [] => Some st
  | tid :: tids => st ← move m tid st; run_thread m tids st
  end.

Lemma run_thread_rtc m tids st st' : run_thread m tids st = Some st' -> rtc (step m) st st'.
Proof.
  revert st. induction tids as [|tid tids IH]; simpl; intros st E; simplify_eq; [done|].
  apply bind_Some in E as (st1 & E1 & E). eapply rtc_l; [by exists tid|by apply IH].
Qed.

(** [C36] A reduction never takes a part that is not there: in every reachable state, when
    a reduction has got past a part, the work item of this part has written it in this
    run, even if an earlier call had left its flag set. *)
Theorem reductions_wait thread_num cache_size input m old st tid k s :
  input_ok thread_num input -> schedule thread_num cache_size input = Some (Ok m) ->
  rtc (step m) (init m old) st -> threads st !! tid = Some (Reduce k s) ->
  forall s', 0 <= s' < s -> (k, s') ∈ parts st.
Proof.
  intros IN E Hr Hpc. destruct (reachable_ok m (schedule_run_ok _ _ _ _ IN E) old st Hr) as [_ W].
  apply (so_pcs _ _ W _ _ Hpc).
Qed.

(** The first thread does all the work, and is in the middle of the first reduction. *)
Definition sample_run : list nat :=
  replicate 7 0%nat ++ replicate 7 1%nat ++ [2; 2; 3; 3]%nat ++ replicate 48 0%nat.

Lemma sample_run_reduces : exists m st, schedule 4 1048576 sample_input = Some (Ok m) /\
  run_thread m sample_run (init m stale_flags) = Some st /\ threads st !! 0%nat = Some (Reduce 0 2).
Proof. eexists _, _. split; [vm_compute; reflexivity|]. split; [vm_compute; reflexivity|]. vm_compute. reflexivity. Qed.

Lemma reductions_wait_witness : exists m st, schedule 4 1048576 sample_input = Some (Ok m) /\
  rtc (step m) (init m stale_flags) st /\ threads st !! 0%nat = Some (Reduce 0 2) /\ (0, 1) ∈ parts st.
Proof.
  destruct sample_run_reduces as (m & st & E & Hr%run_thread_rtc & Hpc).
  exists m, st. split; [exact E|]. split; [exact Hr|]. split; [exact Hpc|].
  apply (reductions_wait 4 1048576 sample_input m stale_flags st 0 0 2 sample_input_ok E Hr Hpc). lia.
Defined.

End Run.
