(* ===== verification/AttnItem.v ===== *)
(** * The CPU attention kernel: work items and reductions

    [csrc/cpu/cpu_attn_impl.hpp], [AttentionMainLoop::operator()]: the body of the loop
    over the query tiles of a work item, with its buffers, and the body of a reduction.
    [AttnKernel] gives the calls that the loops make, [AttnTile] what a call computes,
    [AttnOutput] what comes before and after the calls.  Over exact arithmetic the output
    of an item, or of a reduction of its parts, is the softmax attention of every query
    row over the keys that it sees. *)

From Stdlib Require Import Reals Lra.
From S2P Require Import Prelude Arrays Counting Stores MicroGemm AttnSchedule AttnTasks AttnKernel AttnTile AttnReal AttnOutput AttnRun.

#[local] Open Scope Z_scope.

Module Item.
Import Counting MicroGemm Attn Tasks Kernel Tile Exact Output.

(** ** The input *)

(** [AttentionInput], less what the scheduler has got already. *)
Record Input {S B K F : Type} := {
  query : list S;
  query_num_tokens_stride : Z;
  query_num_heads_stride : Z;
  in_key_cache : list K;
  in_value_cache : list K;
  cache_num_blocks_stride : Z;
  cache_num_kv_heads_stride : Z;
  in_block_size : Z;
  block_table : list Z;
  blt_num_tokens_stride : Z;
  scale : F;
  in_softcap : F;
  alibi_slopes : option (list F);
  s_aux : option (Sinks B F);
  in_kv : KvCache;
  k_scale_fp8 : F;
  v_scale_fp8 : F
}.
Arguments Input : clear implicits.

Section Run.
Context {S B K F : Type} `{FloatOps F} `{ScalarOps S F} `{ScalarOps B F} `{ScalarOps K F}.
Context (cache_size : Z) (si : ScheduleInput) (inp : Input S B K F).

(** What the calls of an item share. *)
Definition item_cache (r : Request) (w : AttentionWorkItemGroup) : Cache K F :=
  let '(sliding_window_left, sliding_window_right) := calcu_sliding_window_size (sliding_window_size si) (r_causal r) in {|
    key_cache := in_key_cache inp;
    value_cache := in_value_cache inp;
    head_ptr := wi_kv_head_idx w * cache_num_kv_heads_stride inp;
    num_blocks_stride := cache_num_blocks_stride inp;
    block_size := in_block_size inp;
    table := block_table inp;
    table_ptr := wi_req_id w * blt_num_tokens_stride inp;
    kv_kind := in_kv inp;
    scale_val := kv_scale (in_kv inp) (k_scale_fp8 inp) (scale inp);
    softcap := in_softcap inp;
    slopes := match alibi_slopes inp with Some l => Some (l, wi_q_head_start w) | None => None end;
    window_left := sliding_window_left;
    window_right := sliding_window_right;
    heads_per_kv := wi_q_head_num w |}.

Definition use_sink (w : AttentionWorkItemGroup) : option (Sinks B F) :=
  if wi_local_split_id w =? 0 then s_aux inp else None.

(** One call of [execute_attention]. *)
Definition run_call (r : Request) (w : AttentionWorkItemGroup) (q_buffer : list F) (c : Call) (st : Rows) : option Rows :=
  attention (head_dim si) (item_cache r w) (c_kv_end_pos c) (c_kv_tile_start_pos c) (c_kv_tile_end_pos c) (c_q_token_num c)
    (q_start_pos r + c_q_token c) q_buffer (c_q_row c) (c_is_first_iter c) st.

Fixpoint run_calls (r : Request) (w : AttentionWorkItemGroup) (q_buffer : list F) (calls : list Call) (st : Rows) : option Rows :=
  match calls with
  | [] => Some st
  | c :: calls => st ← run_call r w q_buffer c st; run_calls r w q_buffer calls st
  end.

(** A query tile: copy the queries, start the rows, run the calls of the loops. *)
Definition run_tile (r : Request) (w : AttentionWorkItemGroup) (q_token_offset : Z) (bufs : list F * Rows) : option (list F * Rows) :=
  let actual := actual_q_token_num cache_size si w q_token_offset in
  q_start ← rd (query_start_loc si) (wi_req_id w);
  let q_token_start_idx := q_start + q_token_offset + wi_q_token_id_start w in
  q_buffer ← copy_q_heads_tile (head_dim si) (in_kv inp) (query inp)
    (q_token_start_idx * query_num_tokens_stride inp + wi_q_head_start w * query_num_heads_stride inp)
    actual (wi_q_head_num w) (query_num_tokens_stride inp) (query_num_heads_stride inp) (scale inp) bufs.1;
  '(maxs, sums) ← init_rows (use_sink w) (wi_q_head_start w) (wi_q_head_num w) actual (max_buffer bufs.2, sum_buffer bufs.2);
  calls ← tile_calls cache_size si r w q_token_offset [];
  st ← run_calls r w q_buffer calls
    {| logits_buffer := logits_buffer bufs.2; partial_q_buffer := partial_q_buffer bufs.2; max_buffer := maxs; sum_buffer := sums |};
  Some (q_buffer, st).

Definition output_v_scale : F := get_output_v_scale (in_kv inp) (v_scale_fp8 inp).

(** The whole item: its output is final, or a part of the reduction [it].  The scratch
    memory is laid out anew for every tile: [memory] is what the tile at an offset finds
    in its buffers. *)
Definition run_item (it : ReductionWorkItemGroup) (w : AttentionWorkItemGroup) (memory : Z -> list F * Rows) (st : list S * Splits F)
    : option (list S * Splits F) :=
  r ← request si (wi_req_id w);
  q_start ← rd (query_start_loc si) (wi_req_id w);
  for_step 0 (wi_q_token_num w) (tile_token_num cache_size si w) (fun q_token_offset '(output, splits) =>
    '(_, rows) ← run_tile r w q_token_offset (memory q_token_offset);
    let actual := actual_q_token_num cache_size si w q_token_offset in
    let q_token_start_idx := q_start + q_token_offset + wi_q_token_id_start w in
    if wi_split_id w =? -1 then
      output ← final_output (head_dim si) (partial_q_buffer rows) (sum_buffer rows) (wi_q_head_num w) actual (num_heads_q si)
        output_v_scale (q_token_start_idx * num_heads_q si * head_dim si + wi_q_head_start w * head_dim si) output;
      Some (output, splits)
    else
      let stride := ri_q_token_id_num it * ri_q_head_num it in
      splits ← partial_output (head_dim si) (partial_q_buffer rows) (max_buffer rows) (sum_buffer rows)
        (actual * wi_q_head_num w) (wi_split_id w) stride (reduction_stats_stride stride) splits;
      Some (output, splits)) st.

Definition run_reduction (it : ReductionWorkItemGroup) (st : list S * Splits F) : option (list S * Splits F) :=
  q_start ← rd (query_start_loc si) (ri_req_id it);
  let q_token_start_idx := q_start + ri_q_token_id_start it in
  let stride := ri_q_token_id_num it * ri_q_head_num it in
  splits ← reduce_splits (head_dim si) stride stride (ri_split_num it) st.2;
  output ← final_output (head_dim si) (split_output_buffer splits) (split_sum_buffer splits) (ri_q_head_num it) (ri_q_token_id_num it)
    (num_heads_q si) output_v_scale (q_token_start_idx * num_heads_q si * head_dim si + ri_q_head_start it * head_dim si) st.1;
  Some (output, splits).

End Run.


(** ** The queries of a tile *)

Lemma copy_q_ok {S F} `{FloatOps F} `{ScalarOps S F} hd hv kv (src : list S) ptr tokens heads ts hs (sc : F) (buf : list F) (x : Z -> Z -> S) :
  hd = hv * 16 -> 0 <= hv -> 0 <= heads -> tokens * heads * hd <= Z.of_nat (length buf) ->
  (forall t h d, 0 <= t < tokens -> 0 <= h < heads -> 0 <= d < hd -> rd src (ptr + t * ts + h * hs + d) = Some (x (t * heads + h) d)) ->
  exists buf', copy_q_heads_tile hd kv src ptr tokens heads ts hs sc buf = Some buf' /\ length buf' = length buf /\
    forall r d, 0 <= r < tokens * heads -> 0 <= d < hd -> rd buf' (r * hd + d) = Some (mul (load (x r d)) (if fp8_kv kv then litf 1 1 else sc)).
Proof.
  intros Hhd Hhv Hh Hl Hx. unfold copy_q_heads_tile. set (e := if fp8_kv kv then litf 1 1 else sc).
  assert (Z.quot hd 16 = hv) as -> by (rewrite Hhd; apply Z.quot_mul; lia).
  destruct (token_rows_ok (fun q_num_idx q_head_idx q_buffer => for_range 0 hv (fun i q_buffer =>
      vec ← load_vec src (ptr + q_num_idx * ts + q_head_idx * hs + i * 16);
      wr_range q_buffer (q_num_idx * heads * hd + q_head_idx * hd + i * 16) (vec_mul vec (splat e))) q_buffer)
    buf tokens heads hd (fun r d => mul (load (x r d)) e)) as (buf' & E & W); [done|lia| |].
  - intros t h b Ht Hh1 r Lb _. assert (0 <= r < tokens * heads) as Hr by (unfold r; clear -Ht Hh1; nia).
    apply (vector_turns_ok 16 _ b (r * hd) hd hv); [lia|done|done|]. intros g b1 Hg L1 _.
    rewrite (load_vec_tab src (ptr + t * ts + h * hs + g * 16) (fun c => x r (g * 16 + c))).
    2: { intros c Hc. unfold r. rewrite <- Hx by lia. f_equal. lia. }
    cbn [mbind option_bind]. unfold vec_mul, splat, VEC_ELEM_NUM. rewrite zip_with_tab.
    replace (t * heads * hd + h * hd) with (r * hd) by (unfold r; lia). pose proof (row_bounds hd r (g * 16) (tokens * heads) Hr ltac:(lia)).
    apply (wr_range_stores b1 (r * hd + g * 16) 16 (fun c => mul (load (x r (g * 16 + c))) e)); [lia|lia|].
    rewrite L1, Lb. pose proof (row_bounds hd r (g * 16 + 15) (tokens * heads) Hr ltac:(lia)). lia.
  - exists buf'. split; [exact E|]. split; [exact (stores_length _ _ _ _ _ W)|]. intros r d Hr Hd. by apply (stores_in _ _ _ _ _ W (r, d)).
Qed.

(** ** The rows of a tile *)

Section Geometry.
Context (thread_num cache_size : Z) (si : ScheduleInput) (OK : input_ok thread_num si).
Context (r : Request) (RK : request_ok si r) (w : AttentionWorkItemGroup) (IO : item_ok si r w).
Context (off : Z) (Hoff : 0 <= off < wi_q_token_num w) (Hmax : max_num_q_per_iter si = 8).

Abbreviation actual := (actual_q_token_num cache_size si w off).
Abbreviation iter_tok := (curr_max_q_token_num_per_iter si w).
Abbreviation grp := (wi_q_head_num w).
Abbreviation rounded := (rounded_q_head_tile_size cache_size si w off).

Lemma group_bounds : 1 <= grp <= 8.
Proof. rewrite (io_group _ _ _ IO). pose proof (rk_group _ _ RK). lia. Qed.

Lemma one_sub_tile : r_q_token_num r * grp <= 8 -> actual <= iter_tok.
Proof.
  intros E. pose proof group_bounds. pose proof (actual_bounds thread_num cache_size si OK r RK w IO off Hoff). pose proof (io_end _ _ _ IO).
  pose proof (io_start _ _ _ IO). unfold curr_max_q_token_num_per_iter. rewrite Hmax, quot_pos by lia. apply Z.div_le_lower_bound; [lia|]. nia.
Qed.

(** A sub-tile starts at a multiple of eight rows, and is full or the last one. *)
Lemma sub_tile_rows q : (iter_tok | q) -> 0 <= q < actual -> let n := Z.min iter_tok (actual - q) in
  (8 | q * grp) /\ (n * grp = 8 \/ q + n = actual) /\ 1 <= n /\ n * grp <= 8.
Proof.
  intros [j Hj] Hq n. pose proof group_bounds as Hg. pose proof (iter_tok_pos si r RK w IO) as Hi.
  assert (iter_tok * grp <= 8) as Hle.
  { unfold curr_max_q_token_num_per_iter. rewrite Hmax, quot_pos by lia. pose proof (Z.mul_div_le 8 grp). lia. }
  split; [|split; [|unfold n; clear -Hi Hq Hle Hg; split; [lia|nia]]].
  all: destruct (rk_fits _ _ RK) as [E|[E|E]]; rewrite <- ?(io_group _ _ _ IO), ?Hmax in E.
  - unfold curr_max_q_token_num_per_iter in Hj. rewrite Hmax, E, quot_pos, Z.div_1_r in Hj by lia. rewrite Hj, E. exists j. lia.
  - rewrite Z.rem_mod_nonneg in E by lia. apply Z.mod_divide in E as [c Hc]; [|lia].
    unfold curr_max_q_token_num_per_iter in Hj. rewrite Hmax, Hc, Z.quot_mul in Hj by lia. rewrite Hj, Hc. exists j. lia.
  - pose proof (one_sub_tile E) as Hge. assert (0 <= j < 1) by (clear -Hj Hq Hge Hi; split; nia). assert (q = 0) as -> by (rewrite Hj; lia). apply Z.divide_0_r.
  - unfold n. destruct (Z.le_gt_cases iter_tok (actual - q)); [left|right; lia]. rewrite Z.min_l by lia.
    unfold curr_max_q_token_num_per_iter. rewrite Hmax, E. reflexivity.
  - unfold n. destruct (Z.le_gt_cases iter_tok (actual - q)); [left|right; lia]. rewrite Z.min_l by lia.
    rewrite Z.rem_mod_nonneg in E by lia. apply Z.mod_divide in E as [c Hc]; [|lia].
    unfold curr_max_q_token_num_per_iter. rewrite Hmax, Hc, Z.quot_mul by lia. lia.
  - right. unfold n. pose proof (one_sub_tile E). lia.
Qed.

(** The padding rows of a sub-tile fit, and are rows of nobody else. *)
Lemma padding_fits q n : (iter_tok | q) -> 0 <= q < actual -> n = Z.min iter_tok (actual - q) ->
  q * grp + padded (n * grp) <= rounded.
Proof.
  intros Hd Hq ->. destruct (sub_tile_rows q Hd Hq) as ([j Hj] & _ & Hn & H8). pose proof group_bounds.
  set (n := Z.min iter_tok (actual - q)) in *. pose proof (padded_rows (n * grp) ltac:(nia)).
  unfold rounded_q_head_tile_size. rewrite Hmax. fold actual.
  destruct (round_up_bounds (actual * grp) 8 ltac:(nia) ltac:(lia)) as [U1 [u U2]]. rewrite U2 in *. nia.
Qed.

Lemma padding_rows q n i : (iter_tok | q) -> 0 <= q < actual -> n = Z.min iter_tok (actual - q) ->
  q * grp <= i < q * grp + padded (n * grp) -> i < actual * grp -> i < q * grp + n * grp.
Proof.
  intros Hd Hq -> Hi Hlt. destruct (sub_tile_rows q Hd Hq) as (_ & Hn & H1 & H8). pose proof group_bounds.
  set (n := Z.min iter_tok (actual - q)) in *. pose proof (padded_rows (n * grp) ltac:(nia)). nia.
Qed.

End Geometry.


(** ** Exact arithmetic *)

Definition real (x : xr) : R := match x with Fin x => x | NegInf => 0 end.
Definition finite (x : xr) : Prop := x = Fin (real x).

(** The keys that the calls give to the query token [t], in order. *)
Definition row_keys (si : ScheduleInput) (r : Request) (cs : list Call) (t : Z) : list Z :=
  cs ≫= fun c => filter (attends si r c t) (seqZ (c_kv_tile_start_pos c) (c_kv_tile_end_pos c - c_kv_tile_start_pos c)).

Section Attention.
Context `{Erf} {S B K : Type} `{ScalarOps S xr} `{ScalarOps B xr} `{ScalarOps K xr}.
Context (numS : S -> R) (numK : K -> R).
Context (HloadS : forall x : S, load x = Fin (numS x)) (HloadK : forall x : K, load x = Fin (numK x)).
Context (cache_size : Z) (si : ScheduleInput) (inp : Input S B K xr) (r : Request).

Abbreviation hd := (head_dim si).

Section Spec.
Context (w : AttentionWorkItemGroup).
Abbreviation cache := (item_cache si inp r w).
Abbreviation bs := (in_block_size inp).
Abbreviation page pos := (head_ptr cache + at_ (table cache) (table_ptr cache + pos / block_size cache) * num_blocks_stride cache).

(** The key and the value at a position of the request. *)
Definition key_at (pos d : Z) : K := elem (in_key_cache inp) (page pos + d * bs + pos mod bs).
Definition value_at (pos d : Z) : K := elem (in_value_cache inp) (page pos + pos mod bs * hd + d).

(** Element [d] of the query of token [t], head [h] of the item. *)
Definition query_ptr (t h : Z) : Z :=
  (at_ (query_start_loc si) (wi_req_id w) + t) * query_num_tokens_stride inp + (wi_q_head_start w + h) * query_num_heads_stride inp.
Definition query_at (t h d : Z) : R :=
  (numS (elem (query inp) (query_ptr t h + d)) * (if fp8_kv (in_kv inp) then 1 else real (scale inp)))%R.

Definition score_of (t h : Z) : Z -> R :=
  score numK hd cache key_at (real (scale_val cache)) (real (softcap cache)) (query_at t h) (real (slope_at cache h)) (q_start_pos r + t).
Definition sink_of (h : Z) : option R :=
  match use_sink inp w with Some s => Some (real (sink_at s (wi_q_head_start w + h))) | None => None end.

(** What the tensors must have: room for every access of the request, and numbers. *)
Record fits (gpb hg : Z) : Prop := {
  ft_align : kv_block_alignment si = 32;
  ft_iter : max_num_q_per_iter si = 8;
  ft_hd : hd = hg * 32 /\ 1 <= hg;
  ft_block : bs = gpb * 32 /\ 1 <= gpb;
  ft_start : 0 <= wi_req_id w < Z.of_nat (length (query_start_loc si));
  ft_table : forall b, 0 <= b -> b * bs < r_seq_len r -> 0 <= table_ptr cache + b < Z.of_nat (length (block_table inp));
  ft_pages : forall b, 0 <= b -> b * bs < r_seq_len r ->
    let p := head_ptr cache + at_ (block_table inp) (table_ptr cache + b) * num_blocks_stride cache in
    0 <= p /\ p + bs * hd <= Z.of_nat (length (in_key_cache inp)) /\ p + bs * hd <= Z.of_nat (length (in_value_cache inp));
  ft_query : forall t h, 0 <= t < r_q_token_num r -> 0 <= h < wi_q_head_num w ->
    0 <= query_ptr t h /\ query_ptr t h + hd <= Z.of_nat (length (query inp));
  ft_base : 0 <= at_ (query_start_loc si) (wi_req_id w);
  ft_heads : 0 <= wi_q_head_start w /\ wi_q_head_start w + wi_q_head_num w <= num_heads_q si;
  ft_slopes : slopes_ready cache;
  ft_sinks : match use_sink inp w with
    | Some s => wi_q_head_start w + wi_q_head_num w <= sinks_length s | None => True end;
  ft_v_scale : finite (output_v_scale inp);
  ft_numbers : finite (scale inp) /\ finite (scale_val cache) /\ finite (softcap cache) /\
    (forall h, 0 <= h < wi_q_head_num w -> finite (slope_at cache h)) /\
    match use_sink inp w with Some s => forall h, 0 <= h < wi_q_head_num w -> finite (sink_at s (wi_q_head_start w + h)) | None => True end
}.

End Spec.

Section Tile.
Context (thread_num : Z) (OK : input_ok thread_num si) (RK : request_ok si r).
Context (w : AttentionWorkItemGroup) (IO : item_ok si r w) (off : Z) (Hoff : 0 <= off < wi_q_token_num w).
Context (gpb hg : Z) (FT : fits w gpb hg).

Abbreviation cache := (item_cache si inp r w).
Abbreviation actual := (actual_q_token_num cache_size si w off).
Abbreviation iter_tok := (curr_max_q_token_num_per_iter si w).
Abbreviation grp := (wi_q_head_num w).
Abbreviation rounded := (rounded_q_head_tile_size cache_size si w off).
Abbreviation tok0 := (wi_q_token_id_start w + off).

Lemma item_cache_is : heads_per_kv cache = grp /\ block_size cache = in_block_size inp /\ table cache = block_table inp /\
  key_cache cache = in_key_cache inp /\ value_cache cache = in_value_cache inp /\
  (window_left cache, window_right cache) = calcu_sliding_window_size (sliding_window_size si) (r_causal r).
Proof. unfold item_cache. by destruct (calcu_sliding_window_size _ _). Qed.

(** The context of a call, in groups of 32 keys. *)
Lemma call_groups c : call_ok cache_size si r w off c -> exists gs n, 0 <= gs /\ 1 <= n /\
  c_kv_tile_start_pos c = gs * 32 /\ c_kv_tile_end_pos c = gs * 32 + n * 32.
Proof.
  intros C. destruct (ck_align _ _ _ _ _ _ C) as [[a Ea] [b Eb]]. rewrite (ft_align _ _ _ FT) in Ea, Eb. pose proof (ck_start _ _ _ _ _ _ C).
  exists a, (b - a). lia.
Qed.

Lemma call_is_ready c gs n : call_ok cache_size si r w off c ->
  c_kv_tile_start_pos c = gs * 32 -> c_kv_tile_end_pos c = gs * 32 + n * 32 -> 0 <= gs -> 1 <= n ->
  call_ready hd cache gs n (c_q_token_num c) gpb hg (key_at w) (value_at w).
Proof.
  intros C Es Ee Hgs Hn. destruct item_cache_is as (Eh & Eb & Et & Ek & Ev & _). destruct (ft_hd _ _ _ FT) as [Ehd Hhg].
  destruct (ft_block _ _ _ FT) as [Ebs Hgpb]. pose proof (ck_rows _ _ _ _ _ _ C) as [Hr1 Hr2]. rewrite (ft_iter _ _ _ FT) in Hr2.
  pose proof (group_bounds si r RK w IO (ft_iter _ _ _ FT)) as Hg. pose proof (ck_end _ _ _ _ _ _ C) as [_ Hend]. rewrite (ft_align _ _ _ FT), Ee in Hend.
  assert (forall b, gs / gpb <= b <= (gs + n - 1) / gpb -> 0 <= b /\ b * in_block_size inp < r_seq_len r) as Hblocks.
  { intros b Hb. pose proof (Z.div_pos gs gpb ltac:(lia) ltac:(lia)). split; [lia|]. rewrite Ebs.
    pose proof (Z.mul_div_le (gs + n - 1) gpb ltac:(lia)). nia. }
  assert (forall pos, gs * 32 <= pos < gs * 32 + n * 32 -> gs / gpb <= pos / in_block_size inp <= (gs + n - 1) / gpb /\ 0 <= pos mod in_block_size inp < in_block_size inp) as Hpos.
  { intros pos Hp. rewrite Ebs. split; [|apply Z.mod_pos_bound; lia]. rewrite (Z.mul_comm gpb 32), <- Z.div_div by lia.
    assert (gs <= pos / 32 <= gs + n - 1).
    { split; [apply Z.div_le_lower_bound; lia|]. enough (pos / 32 < gs + n) by lia. apply Z.div_lt_upper_bound; lia. }
    split; apply Z.div_le_mono; lia. }
  constructor; rewrite ?Eh, ?Eb, ?Et, ?Ek, ?Ev; try done; try (split_and!; lia).
  - intros b Hb. apply (ft_table _ _ _ FT); by apply Hblocks.
  - intros pos d Hp Hd. destruct (Hpos pos Hp) as [Hb Hm]. destruct (Hblocks _ Hb) as [Hb0 Hb1].
    destruct (ft_pages _ _ _ FT _ Hb0 Hb1) as (P1 & P2 & _). unfold key_at. rewrite Eb, Et. apply rd_elem. clear -P1 P2 Hd Hm. nia.
  - intros pos d Hp Hd. destruct (Hpos pos Hp) as [Hb Hm]. destruct (Hblocks _ Hb) as [Hb0 Hb1].
    destruct (ft_pages _ _ _ FT _ Hb0 Hb1) as (P1 & _ & P2). unfold value_at. rewrite Eb, Et. apply rd_elem. clear -P1 P2 Hd Hm. nia.
Qed.

(** The row and the token of a call. *)
Lemma call_row c q i : c_q_row c = q * grp -> c_q_token c = tok0 + q -> 0 <= i < c_q_token_num c * grp ->
  tok0 + (c_q_row c + i) / grp = c_q_token c + i / grp /\ (c_q_row c + i) mod grp = i mod grp /\ 0 <= i / grp < c_q_token_num c.
Proof.
  intros Er Et Hi. pose proof (group_bounds si r RK w IO (ft_iter _ _ _ FT)) as Hg. rewrite Er, Et, Z.div_add_l by lia.
  rewrite (Z.add_comm (q * grp)), Z.mod_add by lia. split_and!; [lia|done|apply Z.div_pos; lia|apply Z.div_lt_upper_bound; lia].
Qed.

Lemma call_keys_is c gs n i : c_kv_tile_start_pos c = gs * 32 -> c_kv_tile_end_pos c = gs * 32 + n * 32 -> 0 <= i / grp < c_q_token_num c ->
  call_keys cache (c_kv_end_pos c) gs n (q_start_pos r + c_q_token c) i
  = filter (attends si r c (c_q_token c + i / grp)) (seqZ (c_kv_tile_start_pos c) (c_kv_tile_end_pos c - c_kv_tile_start_pos c)).
Proof.
  intros Es Ee Hi. unfold call_keys. destruct item_cache_is as (Eh & _ & _ & _ & _ & Ew). rewrite Es, Ee.
  replace (gs * 32 + n * 32 - gs * 32) with (n * 32) by lia.
  replace (seqZ (gs * 32) (n * 32)) with (Z.add (gs * 32) <$> seqZ 0 (n * 32)) by (rewrite fmap_add_seqZ; f_equal; lia).
  rewrite Eh. induction (seqZ 0 (n * 32)) as [|j l IH]; [done|]. rewrite fmap_cons, !filter_cons, <- IH.
  assert (Kernel.unmasked (c_kv_end_pos c) (gs * 32) (gs * 32 + n * 32) (window_left cache) (window_right cache) (q_start_pos r + c_q_token c + i / grp) j <->
    attends si r c (c_q_token c + i / grp) (gs * 32 + j)) as Hiff.
  { unfold Kernel.unmasked, attends. rewrite <- Ew, Es, Ee, Z.add_assoc. split; [intros ?; split; [lia|done]|tauto]. }
  destruct (decide (Kernel.unmasked _ _ _ _ _ _ j)) as [Hu|Hu].
  - by rewrite decide_True by (by apply Hiff).
  - rewrite decide_False; [done|]. by rewrite <- Hiff.
Qed.

Lemma row_keys_snoc cs c t : row_keys si r (cs ++ [c]) t = row_keys si r cs t ++ filter (attends si r c t)
  (seqZ (c_kv_tile_start_pos c) (c_kv_tile_end_pos c - c_kv_tile_start_pos c)).
Proof. unfold row_keys. rewrite bind_app. simpl. by rewrite app_nil_r. Qed.

Lemma other_token c t : ~ (c_q_token c <= t < c_q_token c + c_q_token_num c) ->
  filter (attends si r c t) (seqZ (c_kv_tile_start_pos c) (c_kv_tile_end_pos c - c_kv_tile_start_pos c)) = [].
Proof.
  intros Ht. induction (seqZ _ _) as [|k l IH]; [done|]. rewrite filter_cons_False; [done|].
  unfold attends. destruct (calcu_sliding_window_size _ _). tauto.
Qed.

(** Row [i] has not been touched yet. *)
Definition fresh (cs : list Call) (i : Z) : bool := bool_decide (Forall (fun d => c_q_iter_idx d <> Z.quot (i / grp) iter_tok) cs).

Lemma fresh_snoc cs c i : fresh (cs ++ [c]) i = fresh cs i && bool_decide (c_q_iter_idx c <> Z.quot (i / grp) iter_tok).
Proof. unfold fresh. rewrite <- bool_decide_and. apply bool_decide_ext. by rewrite Forall_app, Forall_singleton. Qed.

(** What the buffers hold after the calls [cs]. *)
Record tile_inv (q_buffer : list xr) (cs : list Call) (st : Rows) : Prop := {
  ti_q : forall i d, 0 <= i < actual * grp -> 0 <= d < hd -> rd q_buffer (i * hd + d) = Some (Fin (query_at w (tok0 + i / grp) (i mod grp) d));
  ti_qlen : rounded * hd <= Z.of_nat (length q_buffer);
  ti_logits : 8 * kv_tile_size cache_size si w off <= Z.of_nat (length (logits_buffer st));
  ti_plen : rounded * hd <= Z.of_nat (length (partial_q_buffer st));
  ti_rows : forall i, 0 <= i < actual * grp -> exists m s o m0,
    rd (max_buffer st) i = Some m /\ rd (sum_buffer st) i = Some s /\ (forall d, 0 <= d < hd -> rd (partial_q_buffer st) (i * hd + d) = Some (o d)) /\
    summary hd (score_of w (tok0 + i / grp) (i mod grp)) (fun k d => numK (value_at w k d)) (sink_of w (i mod grp)) (fresh cs i)
      (row_keys si r cs (tok0 + i / grp)) m s o m0
}.

Lemma summary_ext first ks m s o o' m0 (sc : Z -> R) v sink : (forall d, 0 <= d < hd -> o d = o' d) ->
  summary hd sc v sink first ks m s o m0 -> summary hd sc v sink first ks m s o' m0.
Proof. intros E [H1' H2' H3 H4]. constructor; [done..|]. intros Hf d Hd. rewrite <- E by done. by apply H4. Qed.

Lemma summary_perm first ks ks' m s o m0 (sc : Z -> R) v sink : ks ≡ₚ ks' ->
  summary hd sc v sink first ks m s o m0 -> summary hd sc v sink first ks' m s o m0.
Proof.
  intros E [H1' H2' H3 H4]. constructor; [done|by rewrite <- E|..].
  - intros Hf. apply Permutation_nil. by rewrite <- (H3 Hf).
  - intros Hf d Hd. rewrite <- E. by apply H4.
Qed.

(** A row is in a call exactly when it has the call's slot. *)
Lemma slot_of q n i : (iter_tok | q) -> 0 <= q < actual -> n = Z.min iter_tok (actual - q) -> 0 <= i < actual * grp ->
  (Z.quot (i / grp) iter_tok = Z.quot q iter_tok <-> q * grp <= i < q * grp + n * grp) /\
  (q * grp <= i < q * grp + n * grp <-> q <= i / grp < q + n).
Proof.
  intros [j ->] Hq -> Hi. pose proof (group_bounds si r RK w IO (ft_iter _ _ _ FT)) as Hg. pose proof (iter_tok_pos si r RK w IO) as Hit.
  pose proof (Z.div_mod i grp ltac:(lia)) as Ei. pose proof (Z.mod_pos_bound i grp ltac:(lia)) as Hm.
  assert (0 <= i / grp < actual) as Hr by (split; [apply Z.div_pos; lia|apply Z.div_lt_upper_bound; lia]).
  set (row := i / grp) in *. set (it := iter_tok) in *. set (n := Z.min it (actual - j * it)).
  assert (j * it * grp <= i < j * it * grp + n * grp <-> j * it <= row < j * it + n) as Hiff by (clear -Ei Hm Hg; split; intros ?; nia).
  split; [|exact Hiff]. rewrite Hiff, !quot_pos, Z.div_mul by lia.
  pose proof (Z.div_mod row it ltac:(lia)) as Er. pose proof (Z.mod_pos_bound row it ltac:(lia)). unfold n. split; [intros E; rewrite E in Er; lia|].
  intros Hin. symmetry. apply (Z.div_unique_pos row it j (row - j * it)); lia.
Qed.

(** What a call finds in the buffers. *)
Definition cell (l : list xr) (p : Z) : xr := default zero (rd l p).
Definition call_q (q_buffer : list xr) (c : Call) (i d : Z) : xr := cell q_buffer ((c_q_row c + i) * hd + d).
Definition call_max (st : Rows) (c : Call) (i : Z) : xr := cell (max_buffer st) (c_q_row c + i).
Definition call_sum (st : Rows) (c : Call) (i : Z) : xr := cell (sum_buffer st) (c_q_row c + i).
Definition call_out (st : Rows) (c : Call) (i d : Z) : xr := cell (partial_q_buffer st) ((c_q_row c + i) * hd + d).

Lemma run_call_stores q_buffer cs st c gs n : tile_inv q_buffer cs st -> call_ok cache_size si r w off c -> 0 <= gs -> 1 <= n ->
  c_kv_tile_start_pos c = gs * 32 -> c_kv_tile_end_pos c = gs * 32 + n * 32 -> let rows := c_q_token_num c * grp in
  let q_pos := q_start_pos r + c_q_token c in let q := call_q q_buffer c in let m := call_max st c in
  exists st', run_call si inp r w q_buffer c st = Some st' /\ length (logits_buffer st') = length (logits_buffer st) /\
    stores (max_buffer st) (max_buffer st') (fun z : Z * unit => 0 <= z.1 < rows /\ True) (fun z => c_q_row c + z.1)
      (fun z => new_max hd cache (c_kv_end_pos c) gs n q_pos (key_at w) q m z.1) /\
    stores (sum_buffer st) (sum_buffer st') (fun z : Z * unit => 0 <= z.1 < rows /\ True) (fun z => c_q_row c + z.1)
      (fun z => new_sum hd cache (c_kv_end_pos c) gs n q_pos (key_at w) q m (call_sum st c) z.1) /\
    exists g, stores (partial_q_buffer st) (partial_q_buffer st') (fun z : Z * Z => 0 <= z.1 < padded rows /\ 0 <= z.2 < hd)
        (fun z => (c_q_row c + z.1) * hd + z.2) g /\
      forall i d, 0 <= i < rows -> 0 <= d < hd ->
        g (i, d) = new_partial hd cache (c_kv_end_pos c) gs n q_pos (key_at w) (value_at w) q m (call_out st c) (c_is_first_iter c) i d.
Proof.
  intros [Iq Iql Il Ip Ir] C Hgs Hn Es Ee rows q_pos q m. destruct (ck_sub _ _ _ _ _ _ C) as (q1 & Hdq & Hq & Et & En & Er & Ei).
  destruct item_cache_is as (Eh & _). pose proof (ft_iter _ _ _ FT) as Hmax. pose proof (group_bounds si r RK w IO Hmax) as Hg.
  destruct (ck_end _ _ _ _ _ _ C) as [Hlt _].
  destruct (sub_tile_rows thread_num cache_size si OK r RK w IO off Hoff Hmax q1 Hdq Hq) as (Hd8 & Hfull & Hn1 & Hn8). rewrite <- En in *.
  pose proof (padding_fits thread_num cache_size si OK r RK w IO off Hoff Hmax q1 _ Hdq Hq En) as Hpad. rewrite <- Er in Hpad. fold rows in Hpad, Hfull, Hn8.
  pose proof (padded_rows rows ltac:(unfold rows; nia)) as HM. assert (0 <= c_q_row c) as Hrow by (rewrite Er; nia).
  assert (c_q_row c + rows <= actual * grp) as Hend by (unfold rows; rewrite Er; nia). pose proof (ck_width _ _ _ _ _ _ C) as Hw. rewrite Es, Ee in Hw.
  assert (forall (l : list xr) p, 0 <= p < Z.of_nat (length l) -> rd l p = Some (cell l p)) as Hcell' by (intros l p Hp; unfold cell; by destruct (rd_is_Some l p Hp) as [v ->]).
  assert (forall i d, 0 <= i < padded rows -> 0 <= d < hd -> 0 <= (c_q_row c + i) * hd + d < rounded * hd) as Hcell by (intros i d Hi Hd; apply row_bounds; lia).
  pose proof (call_is_ready c gs n C Es Ee Hgs Hn) as CR. unfold run_call. rewrite Es, Ee. unfold rows. rewrite <- Eh.
  apply (attention_ok hd cache (c_kv_end_pos c) gs n (c_q_token_num c) q_pos gpb hg (key_at w) (value_at w) CR q m (call_sum st c) (call_out st c)
    (c_q_row c) (c_is_first_iter c) q_buffer st); [lia|exact (ft_slopes _ _ _ FT)|]. constructor; rewrite ?Eh; fold rows; [done|..].
  - intros i d Hi Hd. apply Hcell'. specialize (Hcell i d Hi Hd). lia.
  - clear -HM Hw Il Hn. nia.
  - intros i d Hi Hd. apply Hcell'. specialize (Hcell i d Hi Hd). lia.
  - intros i Hi. destruct (Ir (c_q_row c + i) ltac:(lia)) as (m1 & s & o & m0 & Em & _). unfold m, call_max, cell. by rewrite Em.
  - intros i Hi. destruct (Ir (c_q_row c + i) ltac:(lia)) as (m1 & s & o & m0 & _ & Es' & _). unfold call_sum, cell. by rewrite Es'.
Qed.

Lemma run_call_inv q_buffer cs st c : tile_inv q_buffer cs st -> call_ok cache_size si r w off c ->
  (c_is_first_iter c = true <-> Forall (fun d => c_q_iter_idx d <> c_q_iter_idx c) cs) ->
  exists st', run_call si inp r w q_buffer c st = Some st' /\ tile_inv q_buffer (cs ++ [c]) st'.
Proof.
  intros I C Hfirst. destruct (call_groups c C) as (gs & n & Hgs & Hn & Es & Ee).
  destruct (run_call_stores q_buffer cs st c gs n I C Hgs Hn Es Ee) as (st' & E & Ll & Wm & Ws & g & Wp & Hgp).
  pose proof (call_is_ready c gs n C Es Ee Hgs Hn) as CR. destruct (ck_sub _ _ _ _ _ _ C) as (q & Hdq & Hq & Et & En & Er & Ei).
  destruct item_cache_is as (Eh & _). pose proof (ft_iter _ _ _ FT) as Hmax.
  pose proof (fun i => padding_rows thread_num cache_size si OK r RK w IO off Hoff Hmax q _ i Hdq Hq En) as Hpr. rewrite <- Er in Hpr.
  destruct I as [Iq Iql Il Ip Ir]. set (R := c_q_token_num c * grp) in *. destruct (ck_rows _ _ _ _ _ _ C) as [Hr1 Hr8].
  pose proof (group_bounds si r RK w IO Hmax). pose proof (padded_rows R ltac:(unfold R in *; nia)) as HM.
  exists st'. split; [exact E|]. constructor; [done|done|by rewrite Ll|by rewrite (stores_length _ _ _ _ _ Wp)|].
  intros i Hi. destruct (Ir i Hi) as (m & s & o & m0 & Em & Es' & Eo & Su). rewrite row_keys_snoc.
  destruct (slot_of q _ i Hdq Hq En Hi) as [Hslot Hin]. fold R in Hslot, Hin. rewrite <- Er in Hslot, Hin.
  rewrite fresh_snoc. destruct (decide (c_q_row c <= i < c_q_row c + R)) as [Hi'|Hout].
  - set (j := i - c_q_row c). assert (0 <= j < R) as Hj by (unfold j; lia).
    destruct (call_row c q j Er Et Hj) as (Etok & Emod & Hjt). replace (c_q_row c + j) with i in Etok, Emod by (unfold j; lia).
    assert (fresh cs i = c_is_first_iter c) as Ef.
    { apply eq_bool_prop_intro. unfold fresh. rewrite bool_decide_spec, (proj2 Hslot Hi'), <- Ei, <- Hfirst. symmetry. apply Is_true_true. }
    rewrite Ef in Su. rewrite (bool_decide_false (c_q_iter_idx c <> _)), andb_false_r by (rewrite (proj2 Hslot Hi'); tauto).
    destruct (row_exact numK HloadK hd cache (c_kv_end_pos c) gs n (c_q_token_num c) (q_start_pos r + c_q_token c) gpb hg (key_at w) (value_at w) CR
      (real (scale_val cache)) (real (softcap cache)) (fun h => real (slope_at cache h))) with
      (q := call_q q_buffer c) (qv := fun j d => query_at w (tok0 + (c_q_row c + j) / grp) ((c_q_row c + j) mod grp) d)
      (m := call_max st c) (s := call_sum st c)
      (o := call_out st c) (sink := sink_of w (i mod grp)) (first := c_is_first_iter c)
      (ks := row_keys si r cs (tok0 + i / grp)) (i := j) (m0 := m0) as (m1 & Su1).
    + apply FT.
    + apply FT.
    + rewrite Eh. apply FT.
    + rewrite Eh. exact Hj.
    + intros d Hd. unfold call_q, cell. by rewrite Iq by lia.
    + rewrite Eh, <- (Z.add_assoc (q_start_pos r)), <- Etok, <- Emod. replace (c_q_row c + j) with i by (unfold j; lia). unfold call_max, call_sum. replace (c_q_row c + j) with i by (unfold j; lia). unfold cell at 1 2. rewrite Em, Es'.
      eapply summary_ext; [|exact Su]. intros d Hd. unfold call_out, cell. replace (c_q_row c + j) with i by (unfold j; lia). by rewrite Eo.
    + rewrite Eh, <- (Z.add_assoc (q_start_pos r)), <- Etok, <- Emod, call_keys_is, <- Etok in Su1 by done. replace (c_q_row c + j) with i in Su1 by (unfold j; lia).
      eexists _, _, _, m1. split_and!; [..|exact Su1].
      * etrans; [|apply (stores_in _ _ _ _ _ Wm (j, tt))]; cbn [fst]; [f_equal; unfold j; lia|done].
      * etrans; [|apply (stores_in _ _ _ _ _ Ws (j, tt))]; cbn [fst]; [f_equal; unfold j; lia|done].
      * intros d Hd. rewrite <- Hgp by done. etrans; [|apply (stores_in _ _ _ _ _ Wp (j, d))]; cbn [fst snd]; [f_equal; unfold j; lia|lia].
  - rewrite bool_decide_true, andb_true_r by (rewrite Ei, <- Hslot in *; congruence).
    rewrite other_token, app_nil_r by lia. exists m, s, o, m0. split_and!; [..|exact Su].
    + rewrite (stores_out _ _ _ _ _ Wm); [done|]. intros [k []] [Hk _]. cbn [fst] in *. lia.
    + rewrite (stores_out _ _ _ _ _ Ws); [done|]. intros [k []] [Hk _]. cbn [fst] in *. lia.
    + intros d Hd. rewrite (stores_out _ _ _ _ _ Wp); [by apply Eo|]. intros [k d'] [Hk Hd'] Heq. cbn [fst snd] in *.
      apply row_inj in Heq; [|done..]. specialize (Hpr i). lia.
Qed.
(** The calls of a tile, from any point of the loops. *)
Lemma run_calls_inv q_buffer calls cs st : firsts (cs ++ calls) -> Forall (call_ok cache_size si r w off) calls -> tile_inv q_buffer cs st ->
  exists st', run_calls si inp r w q_buffer calls st = Some st' /\ tile_inv q_buffer (cs ++ calls) st'.
Proof.
  revert cs st. induction calls as [|c calls IH]; intros cs st Hf HC I; simpl; [exists st; by rewrite app_nil_r|].
  apply Forall_cons in HC as [C HC]. destruct (run_call_inv q_buffer cs st c I C (Hf cs c calls eq_refl)) as (st1 & -> & I1). cbn [mbind option_bind].
  rewrite cons_middle, app_assoc in Hf |- *. by apply IH.
Qed.

(** What the scratch memory of the tile must hold: room. *)
Record room (bufs : list xr * @Rows xr) : Prop := {
  rm_q : rounded * hd <= Z.of_nat (length bufs.1);
  rm_logits : 8 * kv_tile_size cache_size si w off <= Z.of_nat (length (logits_buffer bufs.2));
  rm_partial : rounded * hd <= Z.of_nat (length (partial_q_buffer bufs.2));
  rm_max : actual * grp <= Z.of_nat (length (max_buffer bufs.2));
  rm_sum : actual * grp <= Z.of_nat (length (sum_buffer bufs.2))
}.

Lemma rounded_rows : actual * grp <= rounded.
Proof.
  unfold rounded_q_head_tile_size. rewrite (ft_iter _ _ _ FT). fold actual. pose proof (group_bounds si r RK w IO (ft_iter _ _ _ FT)).
  pose proof (actual_bounds thread_num cache_size si OK r RK w IO off Hoff). destruct (round_up_bounds (actual * grp) 8) as [? _]; nia.
Qed.

Lemma tile_query bufs q_start : rd (query_start_loc si) (wi_req_id w) = Some q_start -> room bufs ->
  exists q_buffer, copy_q_heads_tile hd (in_kv inp) (query inp)
      ((q_start + off + wi_q_token_id_start w) * query_num_tokens_stride inp + wi_q_head_start w * query_num_heads_stride inp)
      actual grp (query_num_tokens_stride inp) (query_num_heads_stride inp) (scale inp) bufs.1 = Some q_buffer /\
    length q_buffer = length bufs.1 /\
    forall i d, 0 <= i < actual * grp -> 0 <= d < hd -> rd q_buffer (i * hd + d) = Some (Fin (query_at w (tok0 + i / grp) (i mod grp) d)).
Proof.
  intros Eq RM. destruct (ft_hd _ _ _ FT) as [Ehd Hhg]. pose proof (group_bounds si r RK w IO (ft_iter _ _ _ FT)) as Hg.
  pose proof (actual_bounds thread_num cache_size si OK r RK w IO off Hoff) as Ha. pose proof rounded_rows.
  pose proof (io_end _ _ _ IO). pose proof (io_start _ _ _ IO). assert (at_ (query_start_loc si) (wi_req_id w) = q_start) as Es by (rewrite rd_at in Eq by apply FT; congruence).
  destruct (copy_q_ok hd (hg * 2) (in_kv inp) (query inp)
    ((q_start + off + wi_q_token_id_start w) * query_num_tokens_stride inp + wi_q_head_start w * query_num_heads_stride inp)
    actual grp (query_num_tokens_stride inp) (query_num_heads_stride inp) (scale inp) bufs.1
    (fun i d => elem (query inp) (query_ptr w (tok0 + i / grp) (i mod grp) + d))) as (q & E & L & Hq); [lia|lia|lia| | |].
  - etrans; [|exact (rm_q _ RM)]. apply Z.mul_le_mono_nonneg_r; lia.
  - intros t h d Ht Hh Hd. assert ((t * grp + h) / grp = t /\ (t * grp + h) mod grp = h) as [-> ->] by (split; symmetry; [apply Z.div_unique with h|apply Z.mod_unique with t]; lia).
    destruct (ft_query _ _ _ FT (tok0 + t) h) as [P1 P2]; [lia|done|].
    replace (_ + t * _ + h * _ + d) with (query_ptr w (tok0 + t) h + d) by (unfold query_ptr; rewrite Es; lia). apply rd_elem. lia.
  - exists q. split; [exact E|]. split; [done|]. intros i d Hi Hd. rewrite Hq by done. f_equal. unfold query_at. rewrite HloadS.
    destruct (fp8_kv (in_kv inp)); [destruct (lit_1 1) as [-> _]; done|]. destruct (ft_numbers _ _ _ FT) as (-> & _). done.
Qed.

(** The rows before the first call. *)
Lemma first_rows i m s : 0 <= i < actual * grp -> m = first_max (use_sink inp w) (wi_q_head_start w + i mod grp) -> s = first_sum (use_sink inp w) ->
  forall o, exists m0, summary hd (score_of w (tok0 + i / grp) (i mod grp)) (fun k d => numK (value_at w k d)) (sink_of w (i mod grp)) true [] m s o m0.
Proof.
  intros Hi -> -> o. pose proof (group_bounds si r RK w IO (ft_iter _ _ _ FT)) as Hg. destruct (ft_numbers _ _ _ FT) as (_ & _ & _ & _ & Hs).
  unfold first_max, first_sum, sink_of. destruct (use_sink inp w) as [s|].
  - exists (real (sink_at s (wi_q_head_start w + i mod grp))). constructor; [|..|done|done].
    + apply Hs. apply Z.mod_pos_bound. lia.
    + destruct (lit_1 1) as [-> _]. simpl. f_equal. rewrite Rminus_diag, exp_0. lra.
  - exists (IZR (- (2 ^ 128 - 2 ^ 104))). constructor; [|..|done|done].
    + unfold lowest. by destruct (lit_1 (- (2 ^ 128 - 2 ^ 104))) as [-> _].
    + destruct (lit_1 0) as [-> _]. simpl. f_equal. lra.
Qed.

Lemma run_tile_inv bufs : room bufs -> exists calls q_buffer st,
  run_tile cache_size si inp r w off bufs = Some (q_buffer, st) /\ counts si r calls (tile_part cache_size si r w off) /\ tile_inv q_buffer calls st.
Proof.
  intros RM. pose proof (ft_start _ _ _ FT) as Hst. unfold run_tile. cbv zeta. fold actual.
  rewrite (rd_at _ _ Hst). cbn [mbind option_bind].
  destruct (tile_query bufs _ (rd_at _ _ Hst) RM) as (qb & -> & Lq & Hq). cbn [mbind option_bind].
  pose proof (group_bounds si r RK w IO (ft_iter _ _ _ FT)) as Hg.
  destruct (init_rows_ok grp actual ltac:(lia) (use_sink inp w) (wi_q_head_start w) (max_buffer bufs.2) (sum_buffer bufs.2))
    as (ms & ss & -> & Lm & Ls & Hms); [|apply RM..|].
  { pose proof (ft_sinks _ _ _ FT) as Hs. destruct (use_sink inp w); [|done]. split_and!; [apply FT|apply Hs|lia]. }
  cbn [mbind option_bind].
  destruct (tile_calls_ok thread_num cache_size si OK r RK w IO off Hoff []) as (calls & -> & Hc & HC & Hf). cbn [mbind option_bind app].
  set (st0 := {| logits_buffer := _; partial_q_buffer := _; max_buffer := ms; sum_buffer := ss |}).
  destruct (run_calls_inv qb calls [] st0 Hf HC) as (st & -> & I).
  - constructor; [exact Hq|rewrite Lq; apply RM|apply RM|apply RM|]. intros i Hi. destruct (Hms i Hi) as [Em Es].
    set (o := fun d => default zero (rd (partial_q_buffer bufs.2) (i * hd + d))).
    destruct (first_rows i _ _ Hi eq_refl eq_refl o) as (m0 & Su). eexists _, _, o, m0. split; [exact Em|]. split; [exact Es|]. split; [|exact Su].
    intros d Hd. unfold o. cbn [st0 partial_q_buffer]. pose proof rounded_rows. pose proof (rm_partial _ RM). pose proof (row_bounds hd i d rounded ltac:(lia) Hd).
    destruct (rd_is_Some (partial_q_buffer bufs.2) (i * hd + d)) as [v ->]; [lia|done].
  - exists calls, qb, st. done.
Qed.

(** The keys of the item that a token sees. *)
Definition visible (t : Z) : list Z :=
  filter (sees si r t) (seqZ (wi_kv_split_pos_start w) (wi_kv_split_pos_end w - wi_kv_split_pos_start w)).

Lemma attends_range c t k : attends si r c t k -> c_kv_tile_start_pos c <= k < c_kv_tile_end_pos c.
Proof. unfold attends, left_kv_pos, right_kv_pos. destruct (calcu_sliding_window_size _ _) as [wl wr]. destruct (wl =? -1), (wr =? -1); simpl; lia. Qed.

Lemma row_keys_hits calls t k : k ∈ row_keys si r calls t <-> (0 < hits si r calls t k)%nat.
Proof.
  unfold row_keys, hits. induction calls as [|c cs IH]; simpl; [rewrite elem_of_nil; lia|].
  rewrite elem_of_app, IH, list_elem_of_filter, elem_of_seqZ, filter_cons. case_decide as Hc; simpl; [|split; [intros [[? _]|?]; done|by right]].
  pose proof (attends_range _ _ _ Hc). split; [lia|]. intros _. left. split; [done|lia].
Qed.

Lemma row_keys_nodup calls t : (forall k, (hits si r calls t k <= 1)%nat) -> NoDup (row_keys si r calls t).
Proof.
  induction calls as [|c cs IH]; intros Hh; [constructor|]. unfold row_keys. simpl. fold (row_keys si r cs t).
  assert (forall k, hits si r (c :: cs) t k = (if decide (attends si r c t k) then 1 else 0) + hits si r cs t k)%nat as E.
  { intros k. unfold hits. rewrite filter_cons. by case_decide. }
  apply NoDup_app. split; [apply NoDup_filter, NoDup_seqZ|]. split.
  - intros k [Hk _]%list_elem_of_filter Hin%row_keys_hits. specialize (Hh k). rewrite E, decide_True in Hh by done. lia.
  - apply IH. intros k. specialize (Hh k). rewrite E in Hh. lia.
Qed.

(** The calls give every token what it sees, each key once. *)
Lemma row_keys_visible calls t : counts si r calls (tile_part cache_size si r w off) -> tok0 <= t < tok0 + actual -> row_keys si r calls t ≡ₚ visible t.
Proof.
  intros Hc Ht. assert (forall k, tile_part cache_size si r w off t k <-> k ∈ visible t) as Hv.
  { intros k. unfold tile_part, visible. rewrite list_elem_of_filter, elem_of_seqZ. intuition lia. }
  apply NoDup_Permutation; [|apply NoDup_filter, NoDup_seqZ|].
  - apply row_keys_nodup. intros k. destruct (Hc t k) as [H1' H2']. destruct (decide (k ∈ visible t)) as [Hin|Hin]; rewrite <- Hv in Hin; [rewrite H1'|rewrite H2']; done || lia.
  - intros k. rewrite row_keys_hits, <- Hv. destruct (Hc t k) as [H1' H2']. split.
    + intros Hp. destruct (decide (k ∈ visible t)) as [Hin|Hin]; rewrite <- Hv in Hin; [done|]. rewrite H2' in Hp by done. lia.
    + intros Hp. rewrite H1' by done. lia.
Qed.

(** The rows after the tile stand for what their tokens see. *)
Lemma run_tile_ok bufs : room bufs -> exists q_buffer st (unused : Z -> bool), run_tile cache_size si inp r w off bufs = Some (q_buffer, st) /\
  (forall i j, Z.quot (i / grp) iter_tok = Z.quot (j / grp) iter_tok -> unused i = unused j) /\
  forall i, 0 <= i < actual * grp -> exists m s o m0,
    rd (max_buffer st) i = Some m /\ rd (sum_buffer st) i = Some s /\ (forall d, 0 <= d < hd -> rd (partial_q_buffer st) (i * hd + d) = Some (o d)) /\
    summary hd (score_of w (tok0 + i / grp) (i mod grp)) (fun k d => numK (value_at w k d)) (sink_of w (i mod grp)) (unused i) (visible (tok0 + i / grp)) m s o m0.
Proof.
  intros RM. destruct (run_tile_inv bufs RM) as (calls & qb & st & E & Hc & I). exists qb, st, (fresh calls). split; [exact E|].
  split; [intros i j Hij; unfold fresh; by rewrite Hij|]. intros i Hi. destruct (ti_rows _ _ _ I i Hi) as (m & s & o & m0 & Em & Es & Eo & Su).
  exists m, s, o, m0. split; [done|]. split; [done|]. split; [done|]. eapply summary_perm; [|exact Su]. apply row_keys_visible; [done|].
  pose proof (group_bounds si r RK w IO (ft_iter _ _ _ FT)) as Hg. pose proof (Z.div_pos i grp ltac:(lia) ltac:(lia)).
  pose proof (Z.div_lt_upper_bound i grp actual ltac:(lia) ltac:(lia)). lia.
Qed.

End Tile.

(** ** Items *)

(** The softmax attention of token [t] and head [h] of the item over the keys [ks]. *)
Definition attended (w : AttentionWorkItemGroup) (t h : Z) (ks : list Z) : Z -> R :=
  softmax (score_of w t h) (fun k d => numK (value_at w k d)) (sink_of w h) ks.

Section Items.
Context (thread_num : Z) (OK : input_ok thread_num si) (RK : request_ok si r).
Context (w : AttentionWorkItemGroup) (IO : item_ok si r w) (gpb hg : Z) (FT : fits w gpb hg).
Context (Er : request si (wi_req_id w) = Some r) (memory : Z -> list xr * @Rows xr).
Context (Hroom : forall off, 0 <= off < wi_q_token_num w -> room w off (memory off)).

Abbreviation grp := (wi_q_head_num w).
Abbreviation q0 := (at_ (query_start_loc si) (wi_req_id w)).

Lemma sees_self t : 0 <= t < r_q_token_num r -> sees si r t (q_start_pos r + t).
Proof.
  intros Ht. unfold sees, q_start_pos. pose proof (rk_len _ _ RK). pose proof (ok_window _ _ OK). split_and!; lia.
Qed.

(** Where the output of the item is. *)
Definition out_cell (z : Z * (Z * Z)) : Z :=
  (q0 + wi_q_token_id_start w + z.1) * num_heads_q si * hd + wi_q_head_start w * hd + z.2.1 * hd + z.2.2.

Section Whole.
Context (Hwhole : wi_split_id w = -1).

(** One tile of an item with the whole context. *)
Lemma whole_tile off : 0 <= off < wi_q_token_num w -> exists qb rows, run_tile cache_size si inp r w off (memory off) = Some (qb, rows) /\
  forall i, 0 <= i < actual_q_token_num cache_size si w off * grp -> exists s o, rd (sum_buffer rows) i = Some s /\
    forall d, 0 <= d < hd -> rd (partial_q_buffer rows) (i * hd + d) = Some (o d) /\
      mul (div (output_v_scale inp) s) (o d) = Fin (real (output_v_scale inp) *
        attended w (wi_q_token_id_start w + off + i / grp) (i mod grp) (filter (sees si r (wi_q_token_id_start w + off + i / grp)) (seqZ 0 (r_seq_len r))) d).
Proof.
  intros Hoff. destruct (run_tile_ok thread_num OK RK w IO off Hoff gpb hg FT (memory off) (Hroom off Hoff)) as (qb & rows & unused & E & _ & Hrows).
  exists qb, rows. split; [exact E|]. intros i Hi. destruct (Hrows i Hi) as (m & s & o & m0 & _ & Es & Eo & Su). exists s, o. split; [done|].
  destruct (io_whole _ _ _ IO Hwhole) as (E0 & E1 & _). unfold visible in Su. rewrite E0, E1, Z.sub_0_r in Su.
  set (t := wi_q_token_id_start w + off + i / grp) in *. assert (unused i = false) as Hu.
  { destruct (unused i); [|done]. pose proof (su_first _ _ _ _ _ _ _ _ _ _ Su eq_refl) as Hnil.
    pose proof (group_bounds si r RK w IO (ft_iter _ _ _ FT)) as Hg. pose proof (actual_bounds thread_num cache_size si OK r RK w IO off Hoff).
    pose proof (io_end _ _ _ IO). pose proof (io_start _ _ _ IO).
    assert (0 <= i / grp < actual_q_token_num cache_size si w off) by (split; [apply Z.div_pos; lia|apply Z.div_lt_upper_bound; lia]).
    assert (q_start_pos r + t ∈ filter (sees si r t) (seqZ 0 (r_seq_len r))) as Hin; [|rewrite Hnil in Hin; by apply elem_of_nil in Hin].
    pose proof (sees_self t ltac:(lia)) as Hs. apply list_elem_of_filter. split; [done|]. apply elem_of_seqZ. apply Hs. }
  rewrite Hu in Su. intros d Hd. split; [by apply Eo|]. rewrite (ft_v_scale _ _ _ FT). by eapply summary_output.
Qed.

(** What an item with the whole context writes. *)
Lemma whole_item it (output : list S) (splits : Splits xr) :
  (q0 + r_q_token_num r) * num_heads_q si * hd <= Z.of_nat (length output) ->
  exists output', run_item cache_size si inp it w memory (output, splits) = Some (output', splits) /\
    stores output output' (fun z : Z * (Z * Z) => 0 <= z.1 < wi_q_token_num w /\ 0 <= z.2.1 < grp /\ 0 <= z.2.2 < hd) out_cell
      (fun z => let t := wi_q_token_id_start w + z.1 in
        store (Fin (real (output_v_scale inp) * attended w t z.2.1 (filter (sees si r t) (seqZ 0 (r_seq_len r))) z.2.2))).
Proof.
  intros Hlen. pose proof (ft_base _ _ _ FT) as Hq0. destruct (ft_heads _ _ _ FT) as [Hhs Hhe]. pose proof (ft_start _ _ _ FT) as Hst. pose proof (group_bounds si r RK w IO (ft_iter _ _ _ FT)) as Hg.
  destruct (ft_hd _ _ _ FT) as [Ehd Hhg]. pose proof (io_end _ _ _ IO) as Hend. pose proof (io_start _ _ _ IO) as Hstart. pose proof (io_num _ _ _ IO).
  pose proof (tile_token_num_pos _ cache_size _ OK w (item_group_ok _ r RK w IO)) as Hstep.
  unfold run_item. rewrite Er. cbn [mbind option_bind]. rewrite (rd_at _ _ Hst). cbn [mbind option_bind]. rewrite (proj2 (Z.eqb_eq _ _) Hwhole).
  set (body := fun (off : Z) '(out, sp) => _).
  destruct (for_step_stores fst (fun st => st.2 = splits) (wi_q_token_num w) (tile_token_num cache_size si w) body
    (fun _ (z : Z * Z) => 0 <= z.1 < grp /\ 0 <= z.2 < hd) (fun t z => out_cell (t, z))
    (fun i z => let t := wi_q_token_id_start w + i in
      store (Fin (real (output_v_scale inp) * attended w t z.1 (filter (sees si r t) (seqZ 0 (r_seq_len r))) z.2))) (output, splits))
    as ([out' sp] & E & Hsp & W); [done|lia| |done| |].
  - intros t t' [h d] [h' d'] _ _ [Hh Hd] [Hh' Hd'] Heq. unfold out_cell in Heq. cbn [fst snd] in *.
    apply (row_inj (num_heads_q si * hd) t t' (h * hd + d) (h' * hd + d')); [..|lia]; clear -Hhs Hhe Hh Hh' Hd Hd'; nia.
  - intros off [out sp] Hoff Hsp Lo. cbn [fst snd] in *. destruct (whole_tile off Hoff) as (qb & rows & Et & Hrows). unfold body.
    rewrite Et. cbn [mbind option_bind]. pose proof (actual_bounds thread_num cache_size si OK r RK w IO off Hoff) as Ha.
    set (actual := actual_q_token_num cache_size si w off) in *.
    destruct (final_output_ok hd (hg * 2) grp actual (num_heads_q si) ltac:(lia) ltac:(lia) ltac:(lia) (partial_q_buffer rows) (sum_buffer rows)
      (fun i d => default zero (rd (partial_q_buffer rows) (i * hd + d))) (fun i => default zero (rd (sum_buffer rows) i)) (output_v_scale inp)
      ((q0 + off + wi_q_token_id_start w) * num_heads_q si * hd + wi_q_head_start w * hd) out) as (out1 & E1 & W1).
    + intros i d Hi Hd. destruct (Hrows i Hi) as (s & o & _ & Ho). by destruct (Ho d Hd) as [-> _].
    + intros i Hi. by destruct (Hrows i Hi) as (s & o & -> & _).
    + clear -Hq0 Hhs Hhe Hg Ehd Hhg Hoff Hstart. repeat (apply Z.add_nonneg_nonneg || apply Z.mul_nonneg_nonneg); lia.
    + intros _. rewrite Lo. etrans; [|exact Hlen].
      assert ((wi_q_head_start w + grp) * hd <= num_heads_q si * hd) by (apply Z.mul_le_mono_nonneg_r; lia).
      assert ((q0 + off + wi_q_token_id_start w + actual) * (num_heads_q si * hd) <= (q0 + r_q_token_num r) * (num_heads_q si * hd)) by (apply Z.mul_le_mono_nonneg_r; nia).
      lia.
    + rewrite E1. cbn [mbind option_bind]. eexists. split; [done|]. split; [done|]. cbn [fst].
      assert (actual = Z.min (tile_token_num cache_size si w) (wi_q_token_num w - off)) as Eact by done.
      eapply stores_reindex; [| |exact W1]; intros [t [h d]] (Ht & Hh & Hd); cbn [fst snd] in *.
      * exists (t - off, (h, d)). cbn [fst snd]. split; [split_and!; lia|]. split; [unfold out_cell; cbn [fst snd]; lia|].
        destruct (Hrows ((t - off) * grp + h)) as (s & o & Es & Ho); [clear -Ht Hh Eact; nia|]. destruct (Ho d Hd) as [Eo Hval].
        rewrite Es, Eo. transitivity (store (mul (div (output_v_scale inp) s) (o d)) : S); [done|]. rewrite Hval. do 2 f_equal.
        assert (((t - off) * grp + h) / grp = t - off /\ ((t - off) * grp + h) mod grp = h) as [-> ->]
          by (split; symmetry; [apply Z.div_unique with h|apply Z.mod_unique with (t - off)]; lia).
        by replace (wi_q_token_id_start w + off + (t - off)) with (wi_q_token_id_start w + t) by lia.
      * exists (t + off, (h, d)). cbn [fst snd]. split; [split_and!; lia|]. unfold out_cell. cbn [fst snd]. lia.
  - exists out'. cbn [fst snd] in *. subst sp. split; [exact E|exact W].
Qed.

End Whole.
End Items.

(** ** Parts *)

(** Two parts: the sums of both sets of keys, whichever maximum wins. *)
Lemma merge_summary (sc : Z -> R) v sink ks ks' (a b : @Part xr) m0 m1 :
  summary hd sc v sink false ks (p_max a) (p_sum a) (p_out a) m0 -> summary hd sc v None false ks' (p_max b) (p_sum b) (p_out b) m1 ->
  exists m2, summary hd sc v sink false (ks ++ ks') (p_max (merge a b)) (p_sum (merge a b)) (p_out (merge a b)) m2.
Proof.
  intros [Am As _ Ao] [Bm Bs _ Bo]. unfold merge. rewrite Am, Bm, As, Bs. cbn [ltb real_ops rlt].
  assert (forall (f : Z -> R) l x y, (Rtrigo_def.exp (x - y) * Rsum (fun k => Rtrigo_def.exp (sc k - x) * f k) l)%R = Rsum (fun k => Rtrigo_def.exp (sc k - y) * f k)%R l) as Hs.
  { intros f l x y. rewrite Rsum_scale. apply Rsum_ext. intros k _. by rewrite <- Rmult_assoc, rescale_weight. }
  assert (forall l x y, (Rtrigo_def.exp (x - y) * Rsum (fun k => Rtrigo_def.exp (sc k - x)) l)%R = Rsum (fun k => Rtrigo_def.exp (sc k - y))%R l) as Hs1.
  { intros l x y. rewrite Rsum_scale. apply Rsum_ext. intros k _. by rewrite rescale_weight. }
  destruct (Rlt_dec m1 m0) as [Hlt|Hge].
  - exists m0. constructor; cbn [p_max p_sum p_out]; [..|done|].
    + unfold fmax. cbn [ltb real_ops rlt]. destruct (Rlt_dec m0 m1); [lra|done].
    + cbn. f_equal. rewrite Rsum_app, Rplus_0_l, Hs1. lra.
    + intros _ d Hd. rewrite Ao, Bo by done. cbn. f_equal. rewrite Rsum_app, (Rmult_comm (Rsum _ _)), Hs. done.
  - exists m1. constructor; cbn [p_max p_sum p_out]; [..|done|].
    + unfold fmax. cbn [ltb real_ops rlt]. destruct (Rlt_dec m0 m1); [done|]. f_equal. lra.
    + cbn. f_equal. rewrite Rsum_app, Rplus_0_l, Rmult_plus_distr_l, Hs1, rescale_sink. lra.
    + intros _ d Hd. rewrite Ao, Bo by done. cbn. f_equal. rewrite Rsum_app, (Rmult_comm (Rsum _ ks)), Hs. lra.
Qed.

Lemma merged_summary (sc : Z -> R) v sink (ks : Z -> list Z) (part : Z -> @Part xr) n : 1 <= n ->
  (forall i, 0 <= i < n -> exists m0, summary hd sc v (if i =? 0 then sink else None) false (ks i) (p_max (part i)) (p_sum (part i)) (p_out (part i)) m0) ->
  exists m0, summary hd sc v sink false (seqZ 0 n ≫= ks) (p_max (merged part n)) (p_sum (merged part n)) (p_out (merged part n)) m0.
Proof.
  intros Hn Hp. replace n with (Z.succ (n - 1)) in * by lia. revert Hp. assert (0 <= n - 1) as H0' by lia. revert H0'. generalize (n - 1). clear n Hn.
  refine (natlike_ind _ _ _).
  - intros Hp. destruct (Hp 0 ltac:(lia)) as (m0 & Su). exists m0. change (seqZ 0 (Z.succ 0)) with [0]. cbn [mbind list_bind]. rewrite app_nil_r. exact Su.
  - intros n Hn IH Hp. destruct IH as (m0 & Su); [intros i Hi; apply Hp; lia|]. destruct (Hp (Z.succ n) ltac:(lia)) as (m1 & Su1).
    rewrite (proj2 (Z.eqb_neq _ 0)) in Su1 by lia. replace (Z.succ (Z.succ n)) with (Z.succ n + 1) by lia.
    rewrite merged_succ, seqZ_app, bind_app, Z.add_0_l by lia. change (seqZ (Z.succ n) 1) with [Z.succ n]. cbn [mbind list_bind]. rewrite app_nil_r.
    by eapply merge_summary.
Qed.

(** Part [i] of the item [w]: the keys between two cuts. *)
Definition piece (w : AttentionWorkItemGroup) (bound : Z -> Z) (i : Z) : AttentionWorkItemGroup := {|
  wi_req_id := wi_req_id w; wi_kv_head_idx := wi_kv_head_idx w; wi_q_head_start := wi_q_head_start w; wi_q_head_num := wi_q_head_num w;
  wi_q_token_id_start := wi_q_token_id_start w; wi_q_token_num := wi_q_token_num w;
  wi_kv_split_pos_start := bound i; wi_kv_split_pos_end := bound (i + 1);
  wi_reduction_id := wi_reduction_id w; wi_split_id := i; wi_local_split_id := i |}.

Definition reduction_of (w : AttentionWorkItemGroup) (n offset : Z) : ReductionWorkItemGroup := {|
  ri_req_id := wi_req_id w; ri_q_head_start := wi_q_head_start w; ri_q_head_num := wi_q_head_num w;
  ri_q_token_id_start := wi_q_token_id_start w; ri_q_token_id_num := wi_q_token_num w; ri_split_num := n; ri_scratch_offset := offset |}.

Section Parts.
Context (thread_num : Z) (OK : input_ok thread_num si) (RK : request_ok si r).
Context (w : AttentionWorkItemGroup) (bound : Z -> Z) (n offset gpb hg : Z) (memory : Z -> Z -> list xr * @Rows xr).
Context (Er : request si (wi_req_id w) = Some r) (Hn : 1 <= n) (H8 : wi_q_token_num w * wi_q_head_num w <= 8).
Context (IO : forall i, 0 <= i < n -> item_ok si r (piece w bound i)) (FT : forall i, 0 <= i < n -> fits (piece w bound i) gpb hg).
Context (Hroom : forall i, 0 <= i < n -> room (piece w bound i) 0 (memory i 0)).
Context (Hseen : forall i, 0 <= i < n -> exists t, wi_q_token_id_start w <= t < wi_q_token_id_start w + wi_q_token_num w /\ visible (piece w bound i) t <> []).

Abbreviation grp := (wi_q_head_num w).
Abbreviation rows := (wi_q_token_num w * wi_q_head_num w).
Abbreviation stats := (reduction_stats_stride rows).

(** Part [i] is in the buffers. *)
Definition holds (i : Z) (sp : Splits xr) : Prop := forall j, 0 <= j < rows -> exists m s o m0,
  rd (split_max_buffer sp) (i * stats + j) = Some m /\ rd (split_sum_buffer sp) (i * stats + j) = Some s /\
  (forall d, 0 <= d < hd -> rd (split_output_buffer sp) ((i * rows + j) * hd + d) = Some (o d)) /\
  summary hd (score_of w (wi_q_token_id_start w + j / grp) (j mod grp)) (fun k d => numK (value_at w k d)) (sink_of (piece w bound i) (j mod grp))
    false (visible (piece w bound i) (wi_q_token_id_start w + j / grp)) m s o m0.

Definition part_room (sp : Splits xr) : Prop :=
  n * rows * hd <= Z.of_nat (length (split_output_buffer sp)) /\ n * stats <= Z.of_nat (length (split_max_buffer sp)) /\
  n * stats <= Z.of_nat (length (split_sum_buffer sp)).

Lemma part_geometry i : 0 <= i < n -> actual_q_token_num cache_size si (piece w bound i) 0 = wi_q_token_num w /\ 1 <= wi_q_token_num w /\
  1 <= grp /\ wi_q_token_num w <= tile_token_num cache_size si (piece w bound i) /\ wi_q_token_num w <= curr_max_q_token_num_per_iter si (piece w bound i).
Proof.
  intros Hi. pose proof (io_num _ _ _ (IO i Hi)) as Hnum. cbn in Hnum. pose proof (group_bounds si r RK _ (IO i Hi) (ft_iter _ _ _ (FT i Hi))) as Hg. cbn in Hg.
  assert (wi_q_token_num w <= 8 / grp) as Hq by (apply Z.div_le_lower_bound; lia).
  pose proof (default_tile_size_ok cache_size hd (elem_size si) (q_buffer_elem_size si) (logits_buffer_elem_size si) (output_buffer_elem_size si)
    (max_num_q_per_iter si) (ok_iter _ _ OK)) as [_ Ht]. rewrite (ft_iter _ _ _ (FT i Hi)) in Ht.
  assert (wi_q_token_num w <= tile_token_num cache_size si (piece w bound i)) as Htile.
  { unfold tile_token_num, default_tile_size. cbn [piece wi_q_head_num]. rewrite (ft_iter _ _ _ (FT i Hi)), quot_pos by lia. etrans; [exact Hq|]. apply Z.div_le_mono; lia. }
  split_and!; try lia.
  - unfold actual_q_token_num. cbn [piece wi_q_token_num]. lia.
  - unfold curr_max_q_token_num_per_iter. cbn [piece wi_q_head_num]. rewrite (ft_iter _ _ _ (FT i Hi)), quot_pos by lia. exact Hq.
Qed.

(** The tile of a part. *)
Lemma part_tile i : 0 <= i < n -> exists qb st, run_tile cache_size si inp r (piece w bound i) 0 (memory i 0) = Some (qb, st) /\
  forall j, 0 <= j < rows -> exists m s o m0,
    rd (max_buffer st) j = Some m /\ rd (sum_buffer st) j = Some s /\ (forall d, 0 <= d < hd -> rd (partial_q_buffer st) (j * hd + d) = Some (o d)) /\
    summary hd (score_of w (wi_q_token_id_start w + j / grp) (j mod grp)) (fun k d => numK (value_at w k d)) (sink_of (piece w bound i) (j mod grp))
      false (visible (piece w bound i) (wi_q_token_id_start w + j / grp)) m s o m0.
Proof.
  intros Hi. destruct (part_geometry i Hi) as (Ea & Hnum & Hg & Ht & Hit).
  destruct (run_tile_ok thread_num OK RK (piece w bound i) (IO i Hi) 0 ltac:(cbn; lia) gpb hg (FT i Hi) (memory i 0) (Hroom i Hi)) as (qb & st & unused & E & Hu & Hrows).
  rewrite Ea in Hrows. cbn [piece wi_q_head_num wi_q_token_id_start] in Hrows, Hu. rewrite Z.add_0_r in Hrows.
  assert (forall j, 0 <= j < rows -> 0 <= j / grp < wi_q_token_num w) as Hdiv by (intros j Hj; split; [apply Z.div_pos; lia|apply Z.div_lt_upper_bound; lia]).
  assert (forall j, 0 <= j < rows -> unused j = false) as Hused.
  { destruct (Hseen i Hi) as (t & Htok & Hvis). set (t0 := t - wi_q_token_id_start w). assert (0 <= t0 * grp < rows) as Ht0 by (unfold t0; clear -Htok Hg; nia).
    assert (unused (t0 * grp) = false) as H0'.
    { destruct (Hrows _ Ht0) as (m & s & o & m0 & _ & _ & _ & Su). destruct (unused (t0 * grp)); [|done].
      pose proof (su_first _ _ _ _ _ _ _ _ _ _ Su eq_refl) as Hnil. rewrite Z.div_mul in Hnil by lia. unfold t0 in Hnil.
      by replace (wi_q_token_id_start w + (t - wi_q_token_id_start w)) with t in Hnil by lia. }
    intros j Hj. rewrite <- H0'. apply Hu. rewrite !Z.quot_small; [done|..]; [specialize (Hdiv _ Ht0)|specialize (Hdiv _ Hj)]; lia. }
  exists qb, st. split; [exact E|]. intros j Hj. destruct (Hrows j Hj) as (m & s & o & m0 & Em & Es & Eo & Su). rewrite Hused in Su by done.
  exists m, s, o, m0. split_and!; [done|done|done|]. exact Su.
Qed.

(** A part goes to its own place. *)
Lemma part_item i (output : list S) sp : 0 <= i < n -> part_room sp -> exists sp',
  run_item cache_size si inp (reduction_of w n offset) (piece w bound i) (memory i) (output, sp) = Some (output, sp') /\
  part_room sp' /\ holds i sp' /\ forall k, 0 <= k < n -> k <> i -> holds k sp -> holds k sp'.
Proof.
  intros Hi (Lo & Lm & Ls). destruct (part_geometry i Hi) as (Ea & Hnum & Hg & Ht & _). destruct (part_tile i Hi) as (qb & st & E & Hrows).
  destruct (ft_hd _ _ _ (FT i Hi)) as [Ehd Hhg]. assert (0 <= rows) as Hr0 by nia.
  assert (rows <= stats) as Hss.
  { unfold reduction_stats_stride. rewrite quot_pos by lia. pose proof (Z.div_mod (rows + 15) 16 ltac:(lia)). pose proof (Z.mod_pos_bound (rows + 15) 16 ltac:(lia)). lia. }
  unfold run_item. cbn [piece wi_req_id wi_split_id wi_q_token_num wi_q_head_num wi_q_head_start wi_q_token_id_start]. rewrite Er. cbn [mbind option_bind].
  pose proof (ft_start _ _ _ (FT i Hi)) as Hst. cbn [piece wi_req_id] in Hst.
  rewrite (rd_at _ _ Hst). cbn [mbind option_bind]. rewrite (for_step_turns 1) by lia.
  unfold for_range. change (seqZ 0 (1 - 0)) with [0]. cbn [for_each]. rewrite Z.mul_0_l, E. cbn [mbind option_bind]. rewrite Ea.
  rewrite (proj2 (Z.eqb_neq i (-1))) by lia. cbn [reduction_of ri_q_token_id_num ri_q_head_num].
  destruct (partial_output_ok hd (hg * 2) ltac:(lia) ltac:(lia) (partial_q_buffer st) (max_buffer st) (sum_buffer st)
    (fun j d => default zero (rd (partial_q_buffer st) (j * hd + d))) (fun j => default zero (rd (max_buffer st) j)) (fun j => default zero (rd (sum_buffer st) j))
    rows i rows stats sp) as (sp' & -> & Wo & Wm & Ws).
  { intros j d Hj Hd. destruct (Hrows j Hj) as (m & s & o & m0 & _ & _ & Eo & _). by rewrite Eo. }
  { intros j Hj. by destruct (Hrows j Hj) as (m & s & o & m0 & -> & -> & _). }
  { lia. } { lia. } { lia. }
  { etrans; [|exact Lo]. apply Z.mul_le_mono_nonneg_r; [lia|]. apply Z.mul_le_mono_nonneg_r; lia. }
  { etrans; [|exact Lm]. apply Z.mul_le_mono_nonneg_r; lia. }
  { etrans; [|exact Ls]. apply Z.mul_le_mono_nonneg_r; lia. }
  cbn [mbind option_bind]. exists sp'. split; [done|]. split.
  { unfold part_room. by rewrite (stores_length _ _ _ _ _ Wo), (stores_length _ _ _ _ _ Wm), (stores_length _ _ _ _ _ Ws). }
  split.
  - intros j Hj. destruct (Hrows j Hj) as (m & s & o & m0 & Em & Es & Eo & Su). exists m, s, o, m0. split_and!; [..|exact Su].
    + etrans; [apply (stores_in _ _ _ _ _ Wm (j, tt)); done|]. cbn [fst]. by rewrite Em.
    + etrans; [apply (stores_in _ _ _ _ _ Ws (j, tt)); done|]. cbn [fst]. by rewrite Es.
    + intros d Hd. etrans; [apply (stores_in _ _ _ _ _ Wo (j, d)); done|]. cbn [fst snd]. by rewrite Eo.
  - intros k Hk Hne HK j Hj. destruct (HK j Hj) as (m & s & o & m0 & Em & Es & Eo & Su). exists m, s, o, m0. split_and!; [..|exact Su].
    + rewrite (stores_out _ _ _ _ _ Wm); [done|]. intros [j' []] [Hj' _] Heq. cbn [fst] in *. apply row_inj in Heq; lia.
    + rewrite (stores_out _ _ _ _ _ Ws); [done|]. intros [j' []] [Hj' _] Heq. cbn [fst] in *. apply row_inj in Heq; lia.
    + intros d Hd. rewrite (stores_out _ _ _ _ _ Wo); [by apply Eo|]. intros [j' d'] [Hj' Hd'] Heq. cbn [fst snd] in *.
      apply row_inj in Heq; [|done..]. apply row_inj in Heq; lia.
Qed.

(** All parts, in any order. *)
Lemma part_items order (output : list S) sp (done_ : list Z) : NoDup order -> (forall i, i ∈ order -> 0 <= i < n) -> part_room sp ->
  (forall i, i ∈ done_ -> 0 <= i < n /\ i ∉ order /\ holds i sp) -> exists sp',
  for_each order (fun i => run_item cache_size si inp (reduction_of w n offset) (piece w bound i) (memory i)) (output, sp) = Some (output, sp') /\
  forall i, i ∈ done_ ++ order -> holds i sp'.
Proof.
  revert sp done_. induction order as [|i order IH]; intros sp done_ Hnd Hin Hrm Hd; simpl.
  { exists sp. split; [done|]. intros i Hi. rewrite app_nil_r in Hi. by apply Hd. }
  apply NoDup_cons in Hnd as [Hni Hnd]. destruct (part_item i output sp) as (sp1 & -> & Hrm1 & Hi & Hk); [apply Hin; by left|done|]. cbn [mbind option_bind].
  destruct (IH sp1 (i :: done_)) as (sp2 & E & Hall); [done|intros k Hk'; apply Hin; by right|done|..].
  - intros k [->|Hk']%elem_of_cons; [split_and!; [apply Hin; by left|apply Hin; by left|done|done]|].
    destruct (Hd k Hk') as (Hb & Hno & Hh). apply not_elem_of_cons in Hno as [Hne Hno]. split_and!; [lia|lia|done|by apply Hk].
  - exists sp2. split; [exact E|]. intros k Hk'. apply Hall. set_solver.
Qed.

(** The parts have all keys that a token sees, each key once. *)
Lemma parts_keys t : bound n = r_seq_len r -> (forall k, sees si r t k -> bound 0 <= k) ->
  (seqZ 0 n ≫= fun i => visible (piece w bound i) t) = filter (sees si r t) (seqZ 0 (r_seq_len r)).
Proof.
  intros Hend Hlow. assert (forall i, 0 <= i < n -> bound i < bound (i + 1) /\ 0 <= bound i) as Hinc.
  { intros i Hi. split; [apply (io_kv _ _ _ (IO i Hi))|apply (io_kv_start _ _ _ (IO i Hi))]. }
  assert (forall k, 0 <= k -> k <= n -> bound 0 <= bound k /\
    (seqZ 0 k ≫= fun i => visible (piece w bound i) t) = filter (sees si r t) (seqZ (bound 0) (bound k - bound 0))) as G.
  { refine (natlike_ind _ _ _).
    - intros _. split; [lia|]. by rewrite Z.sub_diag.
    - intros k Hk IH Hle. destruct IH as [Hb E]; [lia|]. destruct (Hinc k ltac:(lia)) as [Hs _]. replace (Z.succ k) with (k + 1) by lia. split; [lia|].
      rewrite seqZ_app, bind_app, E, Z.add_0_l by lia. change (seqZ k 1) with [k]. cbn [mbind list_bind]. rewrite app_nil_r.
      unfold visible. cbn [piece wi_kv_split_pos_start wi_kv_split_pos_end].
      replace (bound (k + 1) - bound 0) with (bound k - bound 0 + (bound (k + 1) - bound k)) by lia. rewrite (seqZ_app (bound 0)), filter_app by lia.
      by replace (bound 0 + (bound k - bound 0)) with (bound k) by lia. }
  destruct (G n ltac:(lia) ltac:(lia)) as [Hb ->]. destruct (Hinc 0 ltac:(lia)) as [_ H0']. rewrite Hend in *.
  replace (seqZ 0 (r_seq_len r)) with (seqZ 0 (bound 0) ++ seqZ (0 + bound 0) (r_seq_len r - bound 0)) by (rewrite <- seqZ_app by lia; f_equal; lia).
  rewrite filter_app. replace (filter (sees si r t) (seqZ 0 (bound 0))) with (@nil Z); [done|]. symmetry. apply elem_of_nil_inv.
  intros k [Hk Hin%elem_of_seqZ]%list_elem_of_filter. specialize (Hlow k Hk). lia.
Qed.

(** The reduction of the parts. *)
Lemma reduction_item (output : list S) sp : (forall i, 0 <= i < n -> holds i sp) -> bound n = r_seq_len r ->
  (forall t k, wi_q_token_id_start w <= t < wi_q_token_id_start w + wi_q_token_num w -> sees si r t k -> bound 0 <= k) ->
  let q0 := at_ (query_start_loc si) (wi_req_id w) in
  (q0 + r_q_token_num r) * num_heads_q si * hd <= Z.of_nat (length output) ->
  exists output' sp', run_reduction si inp (reduction_of w n offset) (output, sp) = Some (output', sp') /\
    stores output output' (fun z : Z * (Z * Z) => 0 <= z.1 < wi_q_token_num w /\ 0 <= z.2.1 < grp /\ 0 <= z.2.2 < hd) (out_cell w)
      (fun z => let t := wi_q_token_id_start w + z.1 in
        store (Fin (real (output_v_scale inp) * attended (piece w bound 0) t z.2.1 (filter (sees si r t) (seqZ 0 (r_seq_len r))) z.2.2))).
Proof.
  intros Hall Hend Hlow q0 Hlen. pose proof (ft_base _ _ _ (FT 0 ltac:(lia))) as Hq0. destruct (ft_heads _ _ _ (FT 0 ltac:(lia))) as [Hhs Hhe]. cbn in Hq0, Hhs, Hhe. fold q0 in Hq0. destruct (part_geometry 0 ltac:(lia)) as (_ & Hnum & Hg & _). destruct (ft_hd _ _ _ (FT 0 ltac:(lia))) as [Ehd Hhg].
  pose proof (ft_start _ _ _ (FT 0 ltac:(lia))) as Hst. cbn [piece wi_req_id] in Hst. pose proof (io_end _ _ _ (IO 0 ltac:(lia))) as Hte. cbn in Hte.
  pose proof (io_start _ _ _ (IO 0 ltac:(lia))) as Hts. cbn in Hts.
  set (part := fun i j => {| p_max := default zero (rd (split_max_buffer sp) (i * stats + j)); p_sum := default zero (rd (split_sum_buffer sp) (i * stats + j));
    p_out d := default zero (rd (split_output_buffer sp) ((i * rows + j) * hd + d)) |}).
  unfold run_reduction. cbn [reduction_of ri_req_id ri_q_token_id_start ri_q_token_id_num ri_q_head_num ri_q_head_start ri_split_num snd fst].
  rewrite (rd_at _ _ Hst). fold q0. cbn [mbind option_bind].
  destruct (reduce_splits_ok hd (hg * 2) rows rows n part sp) as (sp' & -> & Hres); [lia|lia|nia|lia|lia| | |].
  { intros i j Hi Hj. destruct (Hall i Hi j Hj) as (m & s & o & m0 & Em & Es & _). unfold part. cbn [p_max p_sum]. by rewrite Em, Es. }
  { intros i j d Hi Hj Hd. destruct (Hall i Hi j Hj) as (m & s & o & m0 & _ & _ & Eo & _). unfold part. cbn [p_out]. by rewrite Eo. }
  cbn [mbind option_bind].
  destruct (final_output_ok hd (hg * 2) grp (wi_q_token_num w) (num_heads_q si) ltac:(lia) ltac:(lia) ltac:(lia) (split_output_buffer sp') (split_sum_buffer sp')
    (fun j => p_out (merged (fun i => part i j) n)) (fun j => p_sum (merged (fun i => part i j) n)) (output_v_scale inp)
    ((q0 + wi_q_token_id_start w) * num_heads_q si * hd + wi_q_head_start w * hd) output) as (out1 & -> & W1).
  { intros j d Hj Hd. by apply (Hres j Hj). }
  { intros j Hj. by apply (Hres j Hj). }
  { clear -Hq0 Hhs Hhe Hg Ehd Hhg Hts. repeat (apply Z.add_nonneg_nonneg || apply Z.mul_nonneg_nonneg); lia. }
  { intros _. etrans; [|exact Hlen].
    assert ((wi_q_head_start w + grp) * hd <= num_heads_q si * hd) by (apply Z.mul_le_mono_nonneg_r; lia).
    assert ((q0 + wi_q_token_id_start w + wi_q_token_num w) * (num_heads_q si * hd) <= (q0 + r_q_token_num r) * (num_heads_q si * hd)) by (apply Z.mul_le_mono_nonneg_r; nia).
    lia. }
  cbn [mbind option_bind]. eexists _, _. split; [done|].
  eapply stores_reindex; [| |exact W1]; intros [t [h d]] (Ht & Hh & Hd); cbn [fst snd] in *.
  2: { exists (t, (h, d)). split; [done|]. unfold out_cell. cbn [fst snd]. fold q0. lia. }
  exists (t, (h, d)). cbn [fst snd]. split; [done|]. split; [unfold out_cell; cbn [fst snd]; fold q0; lia|].
  f_equal. set (j := t * grp + h). assert (0 <= j < rows) as Hj by (unfold j; clear -Ht Hh; nia).
  assert (j / grp = t /\ j mod grp = h) as [Ejt Ejh] by (split; symmetry; [apply Z.div_unique with h|apply Z.mod_unique with t]; unfold j; lia).
  destruct (merged_summary (score_of w (wi_q_token_id_start w + t) h) (fun k d => numK (value_at w k d)) (sink_of (piece w bound 0) h)
    (fun i => visible (piece w bound i) (wi_q_token_id_start w + t)) (fun i => part i j) n Hn) as (m0 & Su).
  - intros i Hi. destruct (Hall i Hi j Hj) as (m & s & o & m1 & Em & Es & Eo & Su). rewrite Ejt, Ejh in Su. exists m1.
    unfold part. cbn [p_max p_sum p_out]. rewrite Em, Es. apply (summary_ext _ _ _ _ o); [intros d' Hd'; by rewrite Eo|].
    replace (if i =? 0 then sink_of (piece w bound 0) h else None) with (sink_of (piece w bound i) h); [exact Su|].
    unfold sink_of, use_sink. cbn [piece wi_local_split_id wi_q_head_start]. by destruct (Z.eqb_spec i 0) as [->|].
  - rewrite parts_keys in Su; [|done|intros k; apply Hlow; lia]. rewrite (ft_v_scale _ _ _ (FT 0 ltac:(lia))). by apply (summary_output _ _ _ _ _ _ _ _ _ (real (output_v_scale inp)) d Su).
Qed.

End Parts.

End Attention.

(** [C1] Over exact arithmetic the kernel computes attention: the output of a scheduled
    item that is not split is, for each of its tokens and heads, the softmax of the scores
    of all keys that the token sees (with the sink of the head, if there is one), applied
    to the values.  Nothing else of the output is touched, whatever the scratch memory
    holds at the start. *)
Theorem attention_item_exact `{Erf} {S B K : Type} `{ScalarOps S xr} `{ScalarOps B xr} `{ScalarOps K xr} (numS : S -> R) (numK : K -> R)
    thread_num cache_size si (inp : Input S B K xr) m w r gpb hg it memory (output : list S) splits :
  (forall x : S, load x = Fin (numS x)) -> (forall x : K, load x = Fin (numK x)) ->
  input_ok thread_num si -> schedule thread_num cache_size si = Some (Ok m) -> w ∈ workitem_groups m -> wi_split_id w = -1 ->
  request si (wi_req_id w) = Some r -> fits si inp r w gpb hg ->
  (forall off, 0 <= off < wi_q_token_num w -> room cache_size si w off (memory off)) ->
  (at_ (query_start_loc si) (wi_req_id w) + r_q_token_num r) * num_heads_q si * head_dim si <= Z.of_nat (length output) ->
  exists output', run_item cache_size si inp it w memory (output, splits) = Some (output', splits) /\
    stores output output' (fun z : Z * (Z * Z) => 0 <= z.1 < wi_q_token_num w /\ 0 <= z.2.1 < wi_q_head_num w /\ 0 <= z.2.2 < head_dim si) (out_cell si w)
      (fun z => let t := wi_q_token_id_start w + z.1 in
        store (Fin (real (output_v_scale inp) * attended numS numK si inp r w t z.2.1 (filter (sees si r t) (seqZ 0 (r_seq_len r))) z.2.2))).
Proof.
  intros HS HK OK E Hw Hs Er FT Hroom Hlen. destruct (schedule_item_ok thread_num cache_size si OK m w E Hw) as (r' & Er' & RK & IO).
  rewrite Er in Er'. injection Er' as <-. by eapply whole_item.
Qed.

(** The parts of a scheduled reduction. *)
Lemma scheduled_parts thread_num cache_size si m j it : input_ok thread_num si -> schedule thread_num cache_size si = Some (Ok m) ->
  rd (reduction_items m) j = Some it -> exists r w bound offset, let n := ri_split_num it in
  request si (ri_req_id it) = Some r /\ request_ok si r /\ it = reduction_of w n offset /\ 1 <= n /\
  wi_q_token_num w * wi_q_head_num w <= max_num_q_per_iter si /\ bound n = r_seq_len r /\
  (forall t k, wi_q_token_id_start w <= t < wi_q_token_id_start w + wi_q_token_num w -> sees si r t k -> bound 0 <= k) /\
  forall s, 0 <= s < n -> piece w bound s ∈ workitem_groups m /\ wi_reduction_id w = j /\
    exists t, wi_q_token_id_start w <= t < wi_q_token_id_start w + wi_q_token_num w /\ visible si r (piece w bound s) t <> [].
Proof.
  intros OK E Ej. destruct (schedule_parts thread_num cache_size si OK) as (p & css & x & k & _ & _ & [[_ E']|(m' & size & E' & P)]); [congruence|].
  rewrite E in E'. injection E' as <-. destruct (Run.scheduled_pieces _ _ _ _ _ _ _ _ _ P j it Ej) as (r & tok & lo & cuts & hi & head & off & Hin & -> & Hall).
  destruct (cut_chunk _ _ OK p css _ (pt_cut _ _ _ _ _ _ _ _ _ P) Hin) as (i & Hi & Er & Eid & RK & Hok & _ & _). cbn [chunk_req chunk_ok] in *.
  destruct Hok as (_ & Ht & Hkv & _ & Hinc). pose proof (tile_kv_ok _ _ OK r RK tok Ht) as Hk. rewrite Hkv in Hk. destruct Hk as (Hlo & Hdlo & Hdhi & Hhi & Hsees).
  cbn [set_offset reduction_at red_of ri_split_num ri_req_id pr_split_num pr_req_id] in *.
  set (bound := cut_bound lo cuts (r_seq_len r)) in *. exists r. eexists {| wi_req_id := r_req_id r; wi_kv_head_idx := Z.quot head (original_q_head_per_kv si);
    wi_q_head_start := head; wi_q_head_num := r_group r; wi_q_token_id_start := tok; wi_q_token_num := q_tile_token_num si r tok;
    wi_kv_split_pos_start := 0; wi_kv_split_pos_end := 0; wi_reduction_id := j; wi_split_id := 0; wi_local_split_id := 0 |}, bound, off.
  cbn [wi_req_id wi_q_head_num wi_q_token_id_start wi_q_token_num wi_reduction_id]. split; [by rewrite Eid|]. split; [done|]. split; [done|]. split; [lia|].
  split; [|split; [apply cut_bound_end|split; [intros t k0 Htok Hs; by apply (Hsees t k0)|]]].
  - pose proof (rk_group _ _ RK). unfold q_tile_token_num, max_num_q_token_per_iter. rewrite quot_pos by lia.
    pose proof (Z.mul_div_le (max_num_q_per_iter si) (r_group r) ltac:(lia)). nia.
  - intros s Hs. split; [apply (Hall s Hs)|]. split; [done|].
    destruct (cut_bound_ok si lo cuts hi (r_seq_len r) s Hdlo Hinc Hs) as (Hb & Hd & Hnext). fold bound in Hb, Hd, Hnext.
    pose proof (tile_kv_used _ _ OK r RK tok (bound s) Ht) as Hu. rewrite Hkv in Hu. destruct (Hu Hd Hb) as (t & k0 & Htok & Hsee & Hk0).
    exists t. split; [done|]. unfold visible. cbn [piece wi_kv_split_pos_start wi_kv_split_pos_end]. intros Hnil.
    assert (k0 ∈ filter (sees si r t) (seqZ (bound s) (bound (s + 1) - bound s))) as Hmem; [|rewrite Hnil in Hmem; by apply elem_of_nil in Hmem].
    apply list_elem_of_filter. split; [done|]. apply elem_of_seqZ. split; [lia|].
    destruct Hnext as [->|[Hlt Hd']]; [pose proof (proj1 Hsee); lia|]. pose proof (divide_lt_le _ _ _ (ok_align _ _ OK) Hd Hd' Hlt). lia.
Qed.

(** [C2] A query tile that is split over its context gives the same result: when the work
    items of a scheduled reduction have run, in any order, and the reduction after them,
    the output has for each token and head the softmax attention over all keys that the
    token sees, as if the context had not been cut. *)
Theorem attention_split_exact `{Erf} {S B K : Type} `{ScalarOps S xr} `{ScalarOps B xr} `{ScalarOps K xr} (numS : S -> R) (numK : K -> R)
    thread_num cache_size si (inp : Input S B K xr) m j it r gpb hg memory order (output : list S) splits :
  (forall x : S, load x = Fin (numS x)) -> (forall x : K, load x = Fin (numK x)) ->
  input_ok thread_num si -> schedule thread_num cache_size si = Some (Ok m) -> rd (reduction_items m) j = Some it -> request si (ri_req_id it) = Some r ->
  (forall w, w ∈ workitem_groups m -> wi_reduction_id w = j -> fits si inp r w gpb hg /\ room cache_size si w 0 (memory (wi_split_id w) 0)) ->
  let stride := ri_q_token_id_num it * ri_q_head_num it in
  ri_split_num it * stride * head_dim si <= Z.of_nat (length (split_output_buffer splits)) ->
  ri_split_num it * reduction_stats_stride stride <= Z.of_nat (length (split_max_buffer splits)) ->
  ri_split_num it * reduction_stats_stride stride <= Z.of_nat (length (split_sum_buffer splits)) ->
  (at_ (query_start_loc si) (ri_req_id it) + r_q_token_num r) * num_heads_q si * head_dim si <= Z.of_nat (length output) ->
  order ≡ₚ seqZ 0 (ri_split_num it) -> exists part : Z -> AttentionWorkItemGroup,
  (forall s, 0 <= s < ri_split_num it -> part s ∈ workitem_groups m /\ wi_reduction_id (part s) = j /\ wi_split_id (part s) = s) /\
  exists output' splits',
    (for_each order (fun s => run_item cache_size si inp it (part s) (memory s)) (output, splits) ≫= run_reduction si inp it) = Some (output', splits') /\
    stores output output' (fun z : Z * (Z * Z) => 0 <= z.1 < ri_q_token_id_num it /\ 0 <= z.2.1 < ri_q_head_num it /\ 0 <= z.2.2 < head_dim si)
      (out_cell si (part 0)) (fun z => let t := ri_q_token_id_start it + z.1 in
        store (Fin (real (output_v_scale inp) * attended numS numK si inp r (part 0) t z.2.1 (filter (sees si r t) (seqZ 0 (r_seq_len r))) z.2.2))).
Proof.
  intros HS HK OK E Ej Er Hfit stride Lo Lm Ls Lout Hord.
  destruct (scheduled_parts thread_num cache_size si m j it OK E Ej) as (r' & w & bound & offset & Er' & RK & Eit & Hn & Hrows & Hend & Hlow & Hparts).
  rewrite Er in Er'. injection Er' as <-. set (n := ri_split_num it) in *. unfold stride in *. clear stride. rewrite Eit in *. cbn [reduction_of ri_req_id ri_q_token_id_num ri_q_head_num ri_q_token_id_start] in *.
  assert (forall s, 0 <= s < n -> fits si inp r (piece w bound s) gpb hg /\ room cache_size si (piece w bound s) 0 (memory s 0) /\ item_ok si r (piece w bound s)) as Hp.
  { intros s Hs. destruct (Hparts s Hs) as (Hw & Hj & _). destruct (Hfit (piece w bound s) Hw Hj). split; [done|]. split; [done|].
    destruct (schedule_item_ok thread_num cache_size si OK m _ E Hw) as (r' & Er' & _ & IO). cbn [piece wi_req_id] in Er'. rewrite Er in Er'. by injection Er' as <-. }
  rewrite (ft_iter _ _ _ _ _ _ (proj1 (Hp 0 ltac:(lia)))) in Hrows.
  exists (piece w bound). split; [intros s Hs; destruct (Hparts s Hs) as (? & ? & _); done|].
  destruct (part_items numS numK HS HK cache_size si inp r thread_num OK RK w bound n offset gpb hg memory Er Hn Hrows (fun s Hs => proj2 (proj2 (Hp s Hs)))
    (fun s Hs => proj1 (Hp s Hs)) (fun s Hs => proj1 (proj2 (Hp s Hs))) (fun s Hs => proj2 (proj2 (Hparts s Hs))) order output splits []) as (sp & -> & Hall).
  - rewrite Hord. apply NoDup_seqZ.
  - intros i. rewrite Hord, elem_of_seqZ. lia.
  - done.
  - intros i Hi. by apply elem_of_nil in Hi.
  - cbn [mbind option_bind]. eapply reduction_item with (w := w); try done; try (intros s Hs; apply Hp; done).
    intros i Hi. apply Hall. rewrite app_nil_l, Hord, elem_of_seqZ. lia.
Qed.

(** One decode of one head over 520 keys in nine pages: the query is zero, so that the
    scores are equal; the value of the first 519 keys is one, of the last one 521. *)
#[local] Instance sample_erf : Erf := fun x => x.
#[local] Instance sample_scalars : ScalarOps R xr := {| load := Fin; store := real |}.

Definition sample_batch (split : bool) : ScheduleInput := {|
  num_reqs := 1; elem_size := 2; q_buffer_elem_size := 4; logits_buffer_elem_size := 4;
  output_buffer_elem_size := 4; num_heads_q := 1; num_heads_kv := 1; head_dim := 32;
  query_start_loc := [0; 1]; seq_lens := [520]; sliding_window_size := -1;
  causal := true; isa := VEC; max_num_q_per_iter := 8; kv_block_alignment := 32;
  enable_kv_split := split; dynamic_causal := None |}.

Definition sample_values : list R :=
  replicate (Z.to_nat (519 * 32)) 1%R ++ replicate (Z.to_nat 32) 521%R ++ replicate (Z.to_nat (56 * 32)) 0%R.

Definition sample_tensors : Input R R R xr := {|
  query := replicate (Z.to_nat 32) 0%R; query_num_tokens_stride := 32; query_num_heads_stride := 32;
  in_key_cache := replicate (Z.to_nat (576 * 32)) 0%R; in_value_cache := sample_values;
  cache_num_blocks_stride := 2048; cache_num_kv_heads_stride := 2048; in_block_size := 64; block_table := seqZ 0 9; blt_num_tokens_stride := 9;
  scale := Fin 1; in_softcap := Fin 0; alibi_slopes := None; s_aux := None; in_kv := Same; k_scale_fp8 := Fin 1; v_scale_fp8 := Fin 1 |}.

Definition sample_req : Request := {| r_req_id := 0; r_group := 1; r_seq_len := 520; r_q_token_num := 1; r_causal := true |}.

(** An item of this batch. *)
Record of_sample (w : AttentionWorkItemGroup) : Prop := {
  sa_req : wi_req_id w = 0; sa_kv_head : wi_kv_head_idx w = 0; sa_head : wi_q_head_start w = 0; sa_heads : wi_q_head_num w = 1; sa_tokens : wi_q_token_num w = 1;
  sa_start : wi_q_token_id_start w = 0
}.

(** Scratch memory with nothing of use in it. *)
Definition sample_memory (split : bool) (w : AttentionWorkItemGroup) (off : Z) : list xr * @Rows xr :=
  let rows := rounded_q_head_tile_size 1048576 (sample_batch split) w off in
  (replicate (Z.to_nat (rows * 32)) NegInf, {|
    logits_buffer := replicate (Z.to_nat (8 * kv_tile_size 1048576 (sample_batch split) w off)) NegInf;
    partial_q_buffer := replicate (Z.to_nat (rows * 32)) NegInf;
    max_buffer := replicate (Z.to_nat rows) NegInf; sum_buffer := replicate (Z.to_nat rows) NegInf |}).

Lemma sample_decode_ok threads split : 1 <= threads -> input_ok threads (sample_batch split).
Proof.
  intros Ht. constructor; simpl; try lia; try done.
  - exists 1. lia.
  - intros i Hi. assert (i = 0) as -> by lia. vm_compute. split; discriminate.
Qed.

Lemma sample_request split : request (sample_batch split) 0 = Some sample_req.
Proof. by destruct split. Qed.

Lemma sample_lengths : Z.of_nat (length sample_values) = 18432 /\ Z.of_nat (length (in_key_cache sample_tensors)) = 18432.
Proof. unfold sample_values. cbn [sample_tensors in_key_cache]. rewrite !length_app, !length_replicate. lia. Qed.

Lemma sample_page b : 0 <= b < 9 -> at_ (seqZ 0 9) (0 * 9 + b) = b.
Proof. intros Hb. unfold at_. apply list_lookup_total_correct. rewrite lookup_seqZ_lt by lia. f_equal. lia. Qed.

Lemma sample_fits split w : of_sample w -> fits (sample_batch split) sample_tensors sample_req w 2 1.
Proof.
  intros [E1 E2 E3 E4 E5 _]. destruct sample_lengths as [L1 L2]. constructor.
  - reflexivity.
  - reflexivity.
  - cbn. lia.
  - cbn. lia.
  - rewrite E1. cbn. lia.
  - intros b Hb Hlt. cbn [sample_tensors block_table in_block_size sample_req r_seq_len] in *. rewrite length_seqZ. cbn [item_cache table_ptr].
    cbn -[Z.mul Z.add Z.of_nat Z.to_nat]. rewrite E1. lia.
  - intros b Hb Hlt p. subst p. cbn [sample_tensors block_table in_block_size sample_req r_seq_len in_value_cache] in *. rewrite L1, L2.
    cbn -[Z.mul Z.add seqZ]. rewrite E1, E2, sample_page by lia. lia.
  - intros t h Ht Hh. cbn [sample_req r_q_token_num] in Ht. unfold query_ptr. cbn [sample_tensors query query_num_tokens_stride query_num_heads_stride sample_batch query_start_loc head_dim].
    rewrite E1, E3, length_replicate. assert (t = 0) as -> by lia. assert (h = 0) as -> by lia. change (at_ [0; 1] 0) with 0. lia.
  - by rewrite E1.
  - rewrite E3, E4. cbn. lia.
  - done.
  - unfold use_sink. by destruct (wi_local_split_id w =? 0).
  - done.
  - unfold finite, use_sink, slope_at. cbn [sample_tensors item_cache]. destruct (wi_local_split_id w =? 0); cbn; (split; [reflexivity|]); (split; [reflexivity|]); (split; [reflexivity|]); (split; [|exact I]); intros; f_equal; lra.
Qed.

Lemma sample_room split w w' : of_sample w -> of_sample w' -> room 1048576 (sample_batch split) w 0 (sample_memory split w' 0).
Proof.
  intros [_ _ _ E1 E2 _] [_ _ _ E1' E2' _].
  assert (rounded_q_head_tile_size 1048576 (sample_batch split) w' 0 = rounded_q_head_tile_size 1048576 (sample_batch split) w 0) as Er
    by (unfold rounded_q_head_tile_size, tile_token_num; by rewrite E1, E2, E1', E2').
  assert (kv_tile_size 1048576 (sample_batch split) w' 0 = kv_tile_size 1048576 (sample_batch split) w 0) as Ek by (unfold kv_tile_size; by rewrite Er).
  assert (actual_q_token_num 1048576 (sample_batch split) w 0 * wi_q_head_num w <= rounded_q_head_tile_size 1048576 (sample_batch split) w 0).
  { unfold actual_q_token_num, rounded_q_head_tile_size, tile_token_num. rewrite E1, E2. destruct split; vm_compute; discriminate. }
  constructor; cbn [sample_memory fst snd logits_buffer partial_q_buffer max_buffer sum_buffer]; rewrite length_replicate, ?Er, ?Ek;
    change (head_dim (sample_batch split)) with 32; lia.
Qed.

Lemma elem_zeros n p : elem (replicate n 0%R) p = 0%R.
Proof.
  unfold elem. destruct (rd (replicate n 0%R) p) as [x|] eqn:E; simpl; [|lra]. pose proof (rd_Some _ _ _ E). rewrite rd_lookup in E by lia.
  by apply lookup_replicate in E as [-> _].
Qed.

Lemma Rsum_const {A} (l : list A) c : Rsum (fun _ => c) l = (c * INR (length l))%R.
Proof. induction l as [|x l IH]; cbn [Rsum foldr length]; [simpl; lra|]. rewrite S_INR. unfold Rsum in IH. rewrite IH. lra. Qed.

Lemma sample_value_at split w k d : of_sample w -> 0 <= k < 520 -> 0 <= d < 32 ->
  value_at (sample_batch split) sample_tensors sample_req w k d = if k <? 519 then 1%R else 521%R.
Proof.
  intros [E1 E2 _ _ _ _] Hk Hd. unfold value_at. cbn -[Z.mul Z.add Z.div Z.modulo seqZ sample_values]. rewrite E1, E2.
  pose proof (Z.div_mod k 64 ltac:(lia)). rewrite sample_page by (split; [apply Z.div_pos|apply Z.div_lt_upper_bound]; lia).
  replace (0 * 2048 + k / 64 * 2048 + k mod 64 * 32 + d) with (k * 32 + d) by lia. unfold elem, sample_values. rewrite rd_lookup by lia. destruct (Z.ltb_spec k 519).
  - rewrite lookup_app_l by (rewrite length_replicate; lia). by rewrite lookup_replicate_2 by lia.
  - rewrite lookup_app_r, length_replicate by (rewrite length_replicate; lia). rewrite lookup_app_l by (rewrite length_replicate; lia).
    by rewrite lookup_replicate_2 by lia.
Qed.

(** The mean of the values. *)
Lemma sample_attended split w d : of_sample w -> 0 <= d < 32 ->
  attended id id (sample_batch split) sample_tensors sample_req w 0 0 (filter (sees (sample_batch split) sample_req 0) (seqZ 0 520)) d = 2%R.
Proof.
  intros SA Hd. replace (filter _ (seqZ 0 520)) with (seqZ 0 520) by (destruct split; vm_compute; reflexivity). unfold attended, softmax.
  assert (forall k, score_of id id (sample_batch split) sample_tensors sample_req w 0 0 k = 0%R) as Hs.
  { intros k. unfold score_of, score. cbn -[seqZ Req_dec_T replicate Z.to_nat]. destruct (Req_dec_T 0 0) as [_|]; [|lra].
    rewrite (Rsum_ext _ (fun _ => 0%R)); [|intros i _; unfold query_at, key_at; cbn -[replicate elem seqZ Z.to_nat]; rewrite elem_zeros; unfold id; lra].
    rewrite Rsum_const. lra. }
  assert (sink_of sample_tensors w 0 = None) as ->.
  { unfold sink_of, use_sink. cbn. by destruct (wi_local_split_id w =? 0). }
  rewrite (Rsum_ext _ (fun k => if k <? 519 then 1 else 521)%R), (Rsum_ext (fun k => Rtrigo_def.exp _) (fun _ => 1%R)).
  - change 520 with (519 + 1). rewrite seqZ_app, !Rsum_app by lia. rewrite (Rsum_ext (fun k => if k <? 519 then _ else _) (fun _ => 1%R) (seqZ 0 519)).
    + rewrite !Rsum_const, !length_seqZ, !INR_IZR_INZ, !Z2Nat.id by lia. change (seqZ (0 + 519) 1) with [519]. cbn [Rsum foldr sink_mass].
      change (519 <? 519) with false. cbn iota. match goal with |- (?a / ?b)%R = _ => replace a with 1040%R by lra; replace b with 520%R by lra end. lra.
    + intros k Hk%elem_of_seqZ. by rewrite (proj2 (Z.ltb_lt _ _)) by lia.
  - intros k _. rewrite Hs. apply exp_0.
  - intros k Hk%elem_of_seqZ. rewrite Hs, exp_0, sample_value_at by (done || lia). unfold id. destruct (k <? 519); lra.
Qed.

Definition sample_item : AttentionWorkItemGroup := {|
  wi_req_id := 0; wi_kv_head_idx := 0; wi_q_head_start := 0; wi_q_head_num := 1; wi_q_token_id_start := 0; wi_q_token_num := 1;
  wi_kv_split_pos_start := 0; wi_kv_split_pos_end := 520; wi_reduction_id := -1; wi_split_id := -1; wi_local_split_id := 0 |}.

Lemma sample_item_of : of_sample sample_item.
Proof. by constructor. Qed.

Definition no_splits : Splits xr := {| split_output_buffer := []; split_max_buffer := []; split_sum_buffer := [] |}.

Lemma attention_item_exact_witness : exists m output', schedule 1 1048576 (sample_batch false) = Some (Ok m) /\ workitem_groups m = [sample_item] /\
  run_item 1048576 (sample_batch false) sample_tensors (reduction_of sample_item 1 0) sample_item (sample_memory false sample_item)
    (replicate 32 0%R, no_splits) = Some (output', no_splits) /\
  forall d, 0 <= d < 32 -> rd output' d = Some 2%R.
Proof.
  assert (exists m, schedule 1 1048576 (sample_batch false) = Some (Ok m) /\ workitem_groups m = [sample_item]) as (m & E & Hw) by (eexists; split; [vm_compute; reflexivity|reflexivity]).
  destruct (attention_item_exact id id 1 1048576 (sample_batch false) sample_tensors m sample_item sample_req 2 1 (reduction_of sample_item 1 0)
    (sample_memory false sample_item) (replicate 32 0%R) no_splits) as (output' & Er & W).
  - reflexivity.
  - reflexivity.
  - by apply sample_decode_ok.
  - exact E.
  - rewrite Hw. by left.
  - reflexivity.
  - apply sample_request.
  - apply sample_fits, sample_item_of.
  - intros off Hoff. assert (off = 0) as -> by (cbn in Hoff; lia). apply sample_room; apply sample_item_of.
  - vm_compute. discriminate.
  - exists m, output'. split; [exact E|]. split; [exact Hw|]. split; [exact Er|]. intros d Hd.
    etrans; [exact (stores_in _ _ _ _ _ W (0, (0, d)) ltac:(cbn; lia))|]. cbn [fst snd].
    change (wi_q_token_id_start sample_item + 0) with 0. change (r_seq_len sample_req) with 520.
    rewrite (sample_attended false sample_item d sample_item_of Hd). cbn. f_equal. lra.
Defined.

(** On two threads the context is cut in two; the second part is run first. *)
Definition sample_splits : Splits xr := {|
  split_output_buffer := replicate 64 NegInf; split_max_buffer := replicate 32 NegInf; split_sum_buffer := replicate 32 NegInf |}.

Lemma attention_split_exact_witness : exists m it part output' splits', schedule 2 1048576 (sample_batch true) = Some (Ok m) /\
  rd (reduction_items m) 0 = Some it /\ ri_split_num it = 2 /\ (forall s, 0 <= s < 2 -> part s ∈ workitem_groups m /\ wi_split_id (part s) = s) /\
  (for_each [1; 0] (fun s => run_item 1048576 (sample_batch true) sample_tensors it (part s) (sample_memory true sample_item)) (replicate 32 0%R, sample_splits)
    ≫= run_reduction (sample_batch true) sample_tensors it) = Some (output', splits') /\
  forall d, 0 <= d < 32 -> rd output' d = Some 2%R.
Proof.
  assert (exists m it, schedule 2 1048576 (sample_batch true) = Some (Ok m) /\ rd (reduction_items m) 0 = Some it /\
    it = reduction_of sample_item 2 0 /\ Forall of_sample (workitem_groups m)) as (m & it & E & Ej & Eit & Hall).
  { eexists _, _. split; [vm_compute; reflexivity|]. split; [reflexivity|]. split; [reflexivity|]. repeat constructor. }
  rewrite Forall_forall in Hall.
  destruct (attention_split_exact id id 2 1048576 (sample_batch true) sample_tensors m 0 it sample_req 2 1 (fun _ => sample_memory true sample_item) [1; 0]
    (replicate 32 0%R) sample_splits) as (part & Hpart & output' & splits' & Er & W); rewrite ?Eit.
  - reflexivity.
  - reflexivity.
  - by apply sample_decode_ok.
  - exact E.
  - by rewrite <- Eit.
  - apply sample_request.
  - intros w Hw _. split; [by apply sample_fits, Hall|]. apply sample_room; [by apply Hall|apply sample_item_of].
  - vm_compute. discriminate.
  - vm_compute. discriminate.
  - vm_compute. discriminate.
  - vm_compute. discriminate.
  - apply Permutation_swap.
  - rewrite Eit in Hpart, Er, W. exists m, (reduction_of sample_item 2 0), part, output', splits'.
    split; [exact E|]. split; [by rewrite <- Eit|]. split; [reflexivity|]. split; [intros s Hs; destruct (Hpart s Hs) as (P1 & _ & P2); exact (conj P1 P2)|]. split; [exact Er|].
    intros d Hd. assert (of_sample (part 0)) as SA by (apply Hall, (Hpart 0); cbn; lia).
    etrans; [|etrans; [exact (stores_in _ _ _ _ _ W (0, (0, d)) ltac:(cbn; lia))|]]; cbn [fst snd].
    + f_equal. unfold out_cell. rewrite (sa_req _ SA), (sa_head _ SA), (sa_start _ SA). cbn -[Z.mul Z.add]. change (at_ [0; 1] 0) with 0. lia.
    + change (ri_q_token_id_start (reduction_of sample_item 2 0) + 0) with 0. change (r_seq_len sample_req) with 520.
      rewrite (sample_attended true (part 0) d SA Hd). cbn. f_equal. lra.
Defined.

End Item.
