(* ===== verification/CacheLayout.v ===== *)
(** * The paged cache: where a token's elements are placed

    Every attention kernel on the CPU writes new keys and values to the slots of a paged
    cache in the same way: a parallel loop over tokens and heads, a page and an offset
    computed from the slot, and then a placement of the elements of the head inside the
    page that suits the instruction set.  Here is what the kernels share, with the
    placement as an interface: a kernel gives the cell of an element in a page and shows
    that different elements have different cells inside the page; the loops over one cache
    or over both then write each element of each token to its own cell, in any order. *)

From S2P Require Import Prelude Arrays Stores.

#[local] Open Scope Z_scope.

Module Paged.

(** The sizes and strides that the kernels are given. *)
Record Layout := {
  token_num : Z;
  head_num : Z;
  head_size : Z;
  page_size : Z;
  key_token_num_stride : Z;
  key_head_num_stride : Z;
  value_token_num_stride : Z;
  value_head_num_stride : Z;
  kc_stride0 : Z;
  kc_stride1 : Z;
  vc_stride0 : Z;
  vc_stride1 : Z
}.

(** ** The loops *)

Section Loops.
Context {K : Type} (l : Layout) (slot_mapping : list Z).
Implicit Types (writer : Z -> Z -> Z -> list K -> option (list K)).

Definition key_ptr (token_idx head_idx : Z) : Z := token_idx * key_token_num_stride l + head_idx * key_head_num_stride l.
Definition value_ptr (token_idx head_idx : Z) : Z := token_idx * value_token_num_stride l + head_idx * value_head_num_stride l.

(** The iterations of [collapse(2)], in the order of [order]. *)
Definition collapsed {St} (entry : Z -> Z -> St -> option St) (order : list Z) (st : St) : option St :=
  for_each order (fun idx => entry (idx / head_num l) (idx mod head_num l)) st.

(** One iteration on one cache: a token without a slot is skipped. *)
Definition entry1 writer (tok h : Z) (cache : list K) : option (list K) :=
  slot ← rd slot_mapping tok;
  if slot <? 0 then Some cache else writer tok h slot cache.

(** One iteration on both caches. *)
Definition entry2 key_writer value_writer (tok h : Z) (st : list K * list K) : option (list K * list K) :=
  slot ← rd slot_mapping tok;
  if slot <? 0 then Some st
  else
    let '(key_cache, value_cache) := st in
    key_cache ← key_writer tok h slot key_cache;
    value_cache ← value_writer tok h slot value_cache;
    Some (key_cache, value_cache).

(** Both caches are written independently of each other. *)
Lemma entry2_split kw vw tok h kc vc :
  entry2 kw vw tok h (kc, vc) = (kc ← entry1 kw tok h kc; vc ← entry1 vw tok h vc; Some (kc, vc)).
Proof. unfold entry2, entry1. destruct (rd slot_mapping tok) as [slot|]; [|done]. simpl. by destruct (slot <? 0). Qed.

Lemma collapsed_split kw vw order kc vc :
  collapsed (entry2 kw vw) order (kc, vc) = (kc ← collapsed (entry1 kw) order kc; vc ← collapsed (entry1 vw) order vc; Some (kc, vc)).
Proof.
  unfold collapsed. revert kc vc. induction order as [|idx order IH]; intros kc vc; [done|]. simpl. rewrite entry2_split.
  destruct (entry1 kw _ _ kc) as [kc1|]; [|done]. simpl. destruct (entry1 vw _ _ vc) as [vc1|]; simpl; [apply IH|].
  by destruct (for_each order _ kc1).
Qed.

End Loops.

(** ** Nested loops *)

Lemma for_range_ext {S} n (f g : Z -> S -> option S) st : (forall i st, 0 <= i < n -> f i st = g i st) -> for_range 0 n f st = for_range 0 n g st.
Proof. intros E. apply (for_each_ext _ _ _ (fun _ => True)); [done| |done]. intros i s Hi _. apply elem_of_seqZ in Hi. apply E. lia. Qed.

Lemma for_each_shift {S} a n (f : Z -> S -> option S) st : for_each (seqZ a n) f st = for_range 0 n (fun e => f (a + e)) st.
Proof.
  unfold for_range. rewrite Z.sub_0_r. replace (seqZ a n) with ((Z.add a) <$> seqZ 0 n) by (rewrite fmap_add_seqZ, Z.add_0_r; done).
  generalize (seqZ 0 n) as ix. intros ix. revert st. induction ix as [|i ix IH]; intros st; [done|]. rewrite fmap_cons. simpl. destruct (f (a + i) st); [apply IH|done].
Qed.

(** A loop over the elements is a loop over words and one over the elements of a word. *)
Lemma for_range_nest {S} n w (f : Z -> S -> option S) st : 0 <= n -> 0 <= w ->
  for_range 0 (n * w) f st = for_range 0 n (fun j => for_range 0 w (fun e => f (j * w + e))) st.
Proof.
  intros Hn Hw. revert n Hn st. refine (natlike_ind _ _ _); [done|]. intros n Hn IH st. unfold for_range in *. rewrite !Z.sub_0_r in *.
  replace (Z.succ n) with (n + 1) by lia. rewrite Z.mul_add_distr_r, Z.mul_1_l, !seqZ_app, !for_each_app, !Z.add_0_l by lia.
  rewrite <- (IH st). destruct (for_each (seqZ 0 (n * w)) f st) as [st'|]; [|done]. simpl. rewrite for_each_shift. unfold for_range. rewrite Z.sub_0_r.
  change (Z.of_nat 0 + n) with n. by destruct (for_each (seqZ 0 w) (fun e => f (n * w + e)) st').
Qed.

(** ** Placements *)

(** A placement gives the cell, inside the page of a head, of an element of the token at
    an offset of the page; [suits] is what the kernel requires of the sizes. *)
Class Placement := {
  key_place : Layout -> Z -> Z -> Z;
  value_place : Layout -> Z -> Z -> Z;
  suits : Layout -> Prop
}.

Record sizes_ok (l : Layout) : Prop := {
  so_tokens : 0 <= token_num l;
  so_heads : 1 <= head_num l;
  so_head : 1 <= head_size l;
  so_page : 1 <= page_size l
}.

(** Elements have cells of their own, inside the page. *)
Record place_ok (l : Layout) (place : Z -> Z -> Z) : Prop := {
  po_bounds : forall o i, 0 <= o < page_size l -> 0 <= i < head_size l -> 0 <= place o i < page_size l * head_size l;
  po_inj : forall o o' i i', 0 <= o < page_size l -> 0 <= o' < page_size l -> 0 <= i < head_size l -> 0 <= i' < head_size l ->
    place o i = place o' i' -> o = o' /\ i = i'
}.

Class PlacementOk `{Placement} : Prop := {
  key_place_ok : forall l, sizes_ok l -> suits l -> place_ok l (key_place l);
  value_place_ok : forall l, sizes_ok l -> suits l -> place_ok l (value_place l)
}.

(** ** One cache *)

Section Half.
Context (l : Layout) (SZ : sizes_ok l) (stride0 stride1 : Z) (place : Z -> Z -> Z) (PO : place_ok l place).
Context (Hstride1 : page_size l * head_size l <= stride1) (Hstride0 : head_num l * stride1 <= stride0).

(** The cell of element [i] of head [h] of the token in a slot. *)
Definition cell (slot h i : Z) : Z :=
  Z.quot slot (page_size l) * stride0 + h * stride1 + place (Z.rem slot (page_size l)) i.

Lemma slot_parts slot : 0 <= slot -> let b := Z.quot slot (page_size l) in let o := Z.rem slot (page_size l) in
  0 <= b /\ 0 <= o < page_size l /\ slot = b * page_size l + o.
Proof.
  intros Hs. pose proof (so_page l SZ). cbv zeta. rewrite Z.quot_div_nonneg, Z.rem_mod_nonneg by lia.
  pose proof (Z.div_mod slot (page_size l) ltac:(lia)). pose proof (Z.mod_pos_bound slot (page_size l) ltac:(lia)).
  split_and!; [apply Z.div_pos; lia|lia|lia|lia].
Qed.

Lemma slot_cell_inj slot slot' h h' i i' : 0 <= slot -> 0 <= slot' -> 0 <= h < head_num l -> 0 <= h' < head_num l ->
  0 <= i < head_size l -> 0 <= i' < head_size l -> cell slot h i = cell slot' h' i' -> slot = slot' /\ h = h' /\ i = i'.
Proof.
  intros Hs Hs' Hh Hh' Hi Hi' E. destruct (slot_parts slot Hs) as (_ & Ho & Es). destruct (slot_parts slot' Hs') as (_ & Ho' & Es').
  unfold cell in E. set (b := Z.quot slot _) in *. set (o := Z.rem slot _) in *. set (b' := Z.quot slot' _) in *. set (o' := Z.rem slot' _) in *.
  pose proof (po_bounds _ _ PO o i Ho Hi) as B. pose proof (po_bounds _ _ PO o' i' Ho' Hi') as B'.
  pose proof (row_bounds stride1 h (place o i) (head_num l) Hh ltac:(lia)). pose proof (row_bounds stride1 h' (place o' i') (head_num l) Hh' ltac:(lia)).
  assert (b = b') as Eb by (apply (row_inj stride0 b b' (h * stride1 + place o i) (h' * stride1 + place o' i')); lia).
  assert (h = h') as Eh by (apply (row_inj stride1 h h' (place o i) (place o' i')); rewrite Eb in E; lia).
  destruct (po_inj _ _ PO o o' i i') as [Eo Ei]; [done|done|done|done|rewrite Eb, Eh in E; lia|]. split; [congruence|done].
Qed.

Lemma cell_bounds num_blocks slot h i : 0 <= slot < num_blocks * page_size l -> 0 <= h < head_num l -> 0 <= i < head_size l ->
  0 <= cell slot h i < num_blocks * stride0.
Proof.
  intros Hs Hh Hi. destruct (slot_parts slot ltac:(lia)) as (Hb & Ho & Es). unfold cell. set (b := Z.quot slot _) in *. set (o := Z.rem slot _) in *.
  pose proof (po_bounds _ _ PO o i Ho Hi). pose proof (row_bounds stride1 h (place o i) (head_num l) Hh ltac:(lia)).
  pose proof (row_bounds stride0 b (h * stride1 + place o i) num_blocks ltac:(nia) ltac:(lia)). lia.
Qed.

(** What a kernel shows of its code: for one token and head it writes the elements to
    their cells. *)
Definition writes {K} (writer : Z -> Z -> Z -> list K -> option (list K)) (f : Z -> Z -> Z -> K) : Prop :=
  forall t h slot c, 0 <= t < token_num l -> 0 <= h < head_num l -> 0 <= slot ->
    (forall i, 0 <= i < head_size l -> 0 <= cell slot h i < Z.of_nat (length c)) ->
    exists c', writer t h slot c = Some c' /\ stores c c' (fun i => 0 <= i < head_size l) (cell slot h) (f t h).

(** It is enough that the code is a loop over the elements. *)
Lemma writes_loop {K} (writer : Z -> Z -> Z -> list K -> option (list K)) (f : Z -> Z -> Z -> K) :
  (forall t h slot c, 0 <= t < token_num l -> 0 <= h < head_num l -> 0 <= slot ->
    writer t h slot c = for_range 0 (head_size l) (fun i c => wr c (cell slot h i) (f t h i)) c) -> writes writer f.
Proof.
  intros E t h slot c Ht Hh Hs Hb. rewrite E by done.
  destruct (for_range_stores (fun c => c) (fun _ => True) (head_size l) (fun i c => wr c (cell slot h i) (f t h i)) (fun _ (_ : unit) => True)
    (fun i _ => cell slot h i) (fun i _ => f t h i) c) as (c' & E' & _ & W).
  - intros i i' _ _ Hi Hi' _ _ Heq. by apply slot_cell_inj in Heq as (_ & _ & ?).
  - done.
  - intros i c1 Hi _ L _. destruct (wr_stores c1 (cell slot h i) (f t h i)) as (c2 & E2 & W2); [rewrite L; by apply Hb|]. by exists c2.
  - exists c'. split; [done|]. eapply stores_reindex; [| |exact W]; [intros i Hi; by exists (i, tt)|intros [i []] [Hi _]; by exists i].
Qed.

(** A loop over words of [w] elements that are copied from a tensor and converted. *)
Lemma writes_words {S K} (writer : Z -> Z -> Z -> list K -> option (list K)) (src : list S) (ptr : Z -> Z -> Z) (x : Z -> Z -> Z -> S) (cast : S -> K) n w :
  head_size l = n * w -> 0 <= n -> 0 <= w ->
  (forall t h i, 0 <= t < token_num l -> 0 <= h < head_num l -> 0 <= i < head_size l -> rd src (ptr t h + i) = Some (x t h i)) ->
  (forall t h slot c, 0 <= t < token_num l -> 0 <= h < head_num l -> 0 <= slot -> writer t h slot c =
    for_range 0 n (fun j => for_range 0 w (fun e c => y ← rd src (ptr t h + (j * w + e)); wr c (cell slot h (j * w + e)) (cast y))) c) ->
  writes writer (fun t h i => cast (x t h i)).
Proof.
  intros Eh Hn Hw Hx E. apply writes_loop. intros t h slot c Ht Hh Hs. rewrite E by done.
  rewrite <- (for_range_nest n w (fun i c => y ← rd src (ptr t h + i); wr c (cell slot h i) (cast y))), <- Eh by done.
  apply for_range_ext. intros i c' Hi. by rewrite Hx.
Qed.

Context (slot_mapping : list Z) (num_blocks : Z) (Hlen : Z.of_nat (length slot_mapping) = token_num l).
Context (Hslots : forall t, 0 <= t < token_num l -> at_ slot_mapping t < num_blocks * page_size l).
Context (Hdistinct : forall t t', 0 <= t < token_num l -> 0 <= t' < token_num l -> 0 <= at_ slot_mapping t -> at_ slot_mapping t = at_ slot_mapping t' -> t = t').

Definition written (t h i : Z) : Prop := 0 <= t < token_num l /\ 0 <= at_ slot_mapping t /\ 0 <= h < head_num l /\ 0 <= i < head_size l.

Lemma entry1_ok {K} writer (f : Z -> Z -> Z -> K) t h c : writes writer f -> 0 <= t < token_num l -> 0 <= h < head_num l ->
  num_blocks * stride0 <= Z.of_nat (length c) -> exists c', entry1 slot_mapping writer t h c = Some c' /\
  stores c c' (written t h) (cell (at_ slot_mapping t) h) (f t h).
Proof.
  intros Hw Ht Hh Hl. unfold entry1. rewrite rd_at by lia. cbn [mbind option_bind]. destruct (Z.ltb_spec (at_ slot_mapping t) 0).
  - exists c. split; [done|]. constructor; [done| |done]. intros i (_ & ? & _). lia.
  - destruct (Hw t h (at_ slot_mapping t) c) as (c' & E & W); [done|done|lia| |].
    + intros i Hi. pose proof (cell_bounds num_blocks (at_ slot_mapping t) h i ltac:(specialize (Hslots t Ht); lia) Hh Hi). lia.
    + exists c'. split; [done|]. eapply stores_reindex; [| |exact W]; intros i Hi; exists i; [split; [apply Hi|done]|done].
Qed.

(** The whole loop, in any order. *)
Lemma collapsed_ok {K} writer (f : Z -> Z -> Z -> K) order c : writes writer f -> order ≡ₚ seqZ 0 (token_num l * head_num l) ->
  num_blocks * stride0 <= Z.of_nat (length c) -> exists c', collapsed l (entry1 slot_mapping writer) order c = Some c' /\
  stores c c' (fun z : Z * (Z * Z) => written z.1 z.2.1 z.2.2) (fun z => cell (at_ slot_mapping z.1) z.2.1 z.2.2) (fun z => f z.1 z.2.1 z.2.2).
Proof.
  intros Hw Hord Hl. pose proof (so_tokens l SZ) as Hpos. pose proof (so_heads l SZ) as Hpos1. unfold collapsed. set (H := head_num l) in *.
  assert (forall idx, idx ∈ order -> 0 <= idx / H < token_num l /\ 0 <= idx mod H < H) as Hidx.
  { intros idx. rewrite Hord, elem_of_seqZ. intros Hi. split; [split; [apply Z.div_pos; lia|apply Z.div_lt_upper_bound; lia]|apply Z.mod_pos_bound; lia]. }
  destruct (for_each_stores (fun c => c) (fun _ => True) order (fun idx => entry1 slot_mapping writer (idx / H) (idx mod H)) (fun idx => written (idx / H) (idx mod H))
    (fun idx => cell (at_ slot_mapping (idx / H)) (idx mod H)) (fun idx => f (idx / H) (idx mod H)) c) as (c' & E & _ & W).
  - rewrite Hord. apply NoDup_seqZ.
  - intros idx idx' i i' _ _ (Ht & Hs & Hh & Hi) (Ht' & Hs' & Hh' & Hi') Heq. apply slot_cell_inj in Heq as (E1 & E2 & _); [|done..].
    apply Hdistinct in E1; [|done..]. rewrite (Z.div_mod idx H), (Z.div_mod idx' H), E1, E2 by lia. done.
  - done.
  - intros idx c1 Hi _ L _. destruct (Hidx idx Hi). destruct (entry1_ok writer f (idx / H) (idx mod H) c1) as (c2 & ? & ?); [done..|lia|]. by exists c2.
  - exists c'. split; [done|]. eapply stores_reindex; [| |exact W].
    + intros [t [h i]] Hz. cbn [fst snd] in *. pose proof Hz as (Ht & Hs & Hh & Hi). exists (t * H + h, i). cbn [fst snd].
      assert ((t * H + h) / H = t) as -> by (symmetry; apply Z.div_unique with h; lia). assert ((t * H + h) mod H = h) as -> by (symmetry; apply Z.mod_unique with t; lia).
      split; [split; [rewrite Hord, elem_of_seqZ; nia|done]|done].
    + intros [idx i] [Hin Hz]. by exists (idx / H, (idx mod H, i)).
Qed.

End Half.

(** ** Both caches *)

Section Both.
Context `{Placement}.

Definition key_cell (l : Layout) : Z -> Z -> Z -> Z := cell l (kc_stride0 l) (kc_stride1 l) (key_place l).
Definition value_cell (l : Layout) : Z -> Z -> Z -> Z := cell l (vc_stride0 l) (vc_stride1 l) (value_place l).

(** The heads of a page and the pages do not overlap. *)
Record layout_ok (l : Layout) : Prop := {
  lo_sizes : sizes_ok l;
  lo_suits : suits l;
  lo_head : page_size l * head_size l <= kc_stride1 l /\ page_size l * head_size l <= vc_stride1 l;
  lo_page : head_num l * kc_stride1 l <= kc_stride0 l /\ head_num l * vc_stride1 l <= vc_stride0 l
}.

(** What the tensors must have: room for every slot, and no slot given twice. *)
Record tensors_ok {S K} (l : Layout) (slot_mapping : list Z) (key value : list S) (kc vc : list K) (num_blocks : Z) : Prop := {
  tk_layout : layout_ok l;
  tk_slots : Z.of_nat (length slot_mapping) = token_num l;
  tk_blocks : forall t, 0 <= t < token_num l -> at_ slot_mapping t < num_blocks * page_size l;
  tk_distinct : forall t t', 0 <= t < token_num l -> 0 <= t' < token_num l -> 0 <= at_ slot_mapping t -> at_ slot_mapping t = at_ slot_mapping t' -> t = t';
  tk_key : forall t h, 0 <= t < token_num l -> 0 <= h < head_num l -> 0 <= key_ptr l t h /\ key_ptr l t h + head_size l <= Z.of_nat (length key);
  tk_value : forall t h, 0 <= t < token_num l -> 0 <= h < head_num l -> 0 <= value_ptr l t h /\ value_ptr l t h + head_size l <= Z.of_nat (length value);
  tk_room : num_blocks * kc_stride0 l <= Z.of_nat (length kc) /\ num_blocks * vc_stride0 l <= Z.of_nat (length vc)
}.

(** Every element of a token with a slot is in its cell, and nothing else has changed. *)
Definition cached {K} (l : Layout) (slot_mapping : list Z) (f : Z -> Z -> Z -> K) (place : Z -> Z -> Z -> Z) (c c' : list K) : Prop :=
  stores c c' (fun z : Z * (Z * Z) => written l slot_mapping z.1 z.2.1 z.2.2) (fun z => place (at_ slot_mapping z.1) z.2.1 z.2.2)
    (fun z => f z.1 z.2.1 z.2.2).

Context `{!PlacementOk}.

Lemma caches_ok {S K} l slot_mapping (key value : list S) (kc vc : list K) num_blocks kw vw fk fv order :
  tensors_ok l slot_mapping key value kc vc num_blocks -> order ≡ₚ seqZ 0 (token_num l * head_num l) ->
  writes l (kc_stride0 l) (kc_stride1 l) (key_place l) kw fk -> writes l (vc_stride0 l) (vc_stride1 l) (value_place l) vw fv ->
  exists kc' vc', collapsed l (entry1 slot_mapping kw) order kc = Some kc' /\ collapsed l (entry1 slot_mapping vw) order vc = Some vc' /\
    cached l slot_mapping fk (key_cell l) kc kc' /\ cached l slot_mapping fv (value_cell l) vc vc'.
Proof.
  intros [[SZ SU [Hk1 Hv1] [Hk0 Hv0]] Hsl Hb Hd _ _ [Rk Rv]] Hord Hk Hv.
  destruct (collapsed_ok l SZ _ _ _ (key_place_ok l SZ SU) Hk1 Hk0 slot_mapping num_blocks Hsl Hb Hd kw fk order kc) as (kc' & E1 & W1); [done..|].
  destruct (collapsed_ok l SZ _ _ _ (value_place_ok l SZ SU) Hv1 Hv0 slot_mapping num_blocks Hsl Hb Hd vw fv order vc) as (vc' & E2 & W2); [done..|].
  by exists kc', vc'.
Qed.

(** The loop that writes both. *)
Lemma both_ok {S K} l slot_mapping (key value : list S) (kc vc : list K) num_blocks kw vw fk fv order :
  tensors_ok l slot_mapping key value kc vc num_blocks -> order ≡ₚ seqZ 0 (token_num l * head_num l) ->
  writes l (kc_stride0 l) (kc_stride1 l) (key_place l) kw fk -> writes l (vc_stride0 l) (vc_stride1 l) (value_place l) vw fv ->
  exists kc' vc', collapsed l (entry2 slot_mapping kw vw) order (kc, vc) = Some (kc', vc') /\
    cached l slot_mapping fk (key_cell l) kc kc' /\ cached l slot_mapping fv (value_cell l) vc vc'.
Proof.
  intros TK Hord Hk Hv. destruct (caches_ok l slot_mapping key value kc vc num_blocks kw vw fk fv order TK Hord Hk Hv) as (kc' & vc' & E1 & E2 & W1 & W2).
  exists kc', vc'. rewrite collapsed_split, E1. cbn [mbind option_bind]. rewrite E2. done.
Qed.

End Both.

End Paged.
