(* ===== verification/AttnCache.v ===== *)
(** * The CPU attention kernel: writing the cache

    [AttentionImpl<ISA::VEC>::reshape_and_cache] of [csrc/cpu/cpu_attn_vec.hpp] and
    [reshape_and_cache_fp8_vec_impl] of [csrc/cpu/cpu_attn_fp8.hpp]: the keys and values
    of new tokens go to the slots of the paged cache, keys column by column, values row by
    row.  The iterations of the parallel loop run in any order.  What is written is what
    [AttnItem] reads at the position of the slot. *)

From Stdlib Require Import Reals.
From S2P Require Import Prelude Arrays Counting Stores MicroGemm AttnSchedule AttnTasks AttnTile AttnReal AttnItem CacheLayout.

#[local] Open Scope Z_scope.

Module CacheWrite.
Import Counting MicroGemm Attn Tasks.
Export Paged.
Import (hints) Exact.

Section Write.
Context {S K : Type} (l : Layout).

Definition key_cache_ptr (pos head_idx : Z) : Z :=
  Z.quot pos (page_size l) * kc_stride0 l + head_idx * kc_stride1 l + Z.rem pos (page_size l).
Definition value_cache_ptr (pos head_idx : Z) : Z :=
  Z.quot pos (page_size l) * vc_stride0 l + head_idx * vc_stride1 l + Z.rem pos (page_size l) * head_size l.

Definition write_key (cast : S -> K) (key : list S) (token_idx head_idx pos : Z) (key_cache : list K) : option (list K) :=
  for_range 0 (head_size l) (fun i key_cache =>
    x ← rd key (key_ptr l token_idx head_idx + i);
    wr key_cache (key_cache_ptr pos head_idx + i * page_size l) (cast x)) key_cache.

(** The cache has the type of the key: the value is copied as it is. *)
Definition write_value (value : list S) (token_idx head_idx pos : Z) (value_cache : list S) : option (list S) :=
  memcpy_range value_cache (value_cache_ptr pos head_idx) value (value_ptr l token_idx head_idx) (head_size l).

(** The cache has 8-bit floats: [quant] is [quant_fn] with its scale. *)
Definition write_value_fp8 (quant : S -> K) (value : list S) (tok h slot : Z) (value_cache : list K) : option (list K) :=
  for_range 0 (head_size l) (fun i value_cache =>
    x ← rd value (value_ptr l tok h + i);
    wr value_cache (value_cache_ptr slot h + i) (quant x)) value_cache.

Definition reshape_and_cache_fp8_vec_impl (slot_mapping : list Z) (k_quant v_quant : S -> K) (key value : list S) (order : list Z)
    : list K * list K -> option (list K * list K) :=
  collapsed l (entry2 slot_mapping (write_key k_quant key) (write_value_fp8 v_quant value)) order.

End Write.

(** The strides of the two caches are the same here. *)
Definition reshape_and_cache {S} (l : Layout) (slot_mapping : list Z) (key value : list S) (order : list Z) : list S * list S -> option (list S * list S) :=
  collapsed l (entry2 slot_mapping (write_key l (fun x => x) key) (write_value l value)) order.

(** ** What is written *)

(** Keys column by column, values row by row. *)
#[export] Instance vec_placement : Placement := {|
  key_place l o i := o + i * page_size l;
  value_place l o i := o * head_size l + i;
  suits _ := True
|}.

#[export] Instance vec_placement_ok : PlacementOk.
Proof.
  split; intros l [? ? ? ?] _; split; cbn [key_place value_place vec_placement].
  - intros o i Ho Hi. pose proof (row_bounds (page_size l) i o (head_size l) Hi Ho). lia.
  - intros o o' i i' Ho Ho' Hi Hi' E. assert (i = i') as -> by (apply (row_inj (page_size l) i i' o o'); lia). lia.
  - intros o i Ho Hi. by apply row_bounds.
  - intros o o' i i' Ho Ho' Hi Hi' E. assert (o = o') as -> by (apply (row_inj (head_size l) o o' i i'); lia). lia.
Qed.

Section Reshape.
Context {S F : Type} `{FloatOps F} `{ScalarOps S F} {K : Type} (l : Layout) (slot_mapping : list Z) (key value : list S) (num_blocks : Z) (order : list Z).

Lemma write_key_ok (cast : S -> K) (kc vc : list K) : tensors_ok l slot_mapping key value kc vc num_blocks ->
  writes l (kc_stride0 l) (kc_stride1 l) (key_place l) (write_key l cast key) (fun t h i => cast (elem key (key_ptr l t h + i))).
Proof.
  intros [[SZ SU [Hk1 _] [Hk0 _]] _ _ _ Hk _ _]. apply writes_loop; [done|by apply key_place_ok|done|done|].
  intros t h slot c Ht Hh Hs. apply (for_each_ext _ _ _ (fun _ => True)); [done| |done].
  intros i c' Hi _. apply elem_of_seqZ in Hi. destruct (Hk t h Ht Hh). rewrite rd_elem by lia. cbn [mbind option_bind]. f_equal.
  unfold cell, key_cache_ptr. cbn [key_place vec_placement]. lia.
Qed.

Lemma value_cell_row slot h i : value_cell l slot h i = value_cache_ptr l slot h + i.
Proof. unfold value_cell, cell, value_cache_ptr. cbn [value_place vec_placement]. lia. Qed.

Lemma write_value_fp8_ok (quant : S -> K) (kc vc : list K) : tensors_ok l slot_mapping key value kc vc num_blocks ->
  writes l (vc_stride0 l) (vc_stride1 l) (value_place l) (write_value_fp8 l quant value) (fun t h i => quant (elem value (value_ptr l t h + i))).
Proof.
  intros [[SZ SU [_ Hv1] [_ Hv0]] _ _ _ _ Hv _]. apply writes_loop; [done|by apply value_place_ok|done|done|].
  intros t h slot c Ht Hh Hs. apply (for_each_ext _ _ _ (fun _ => True)); [done| |done].
  intros i c' Hi _. apply elem_of_seqZ in Hi. destruct (Hv t h Ht Hh). rewrite rd_elem by lia. cbn [mbind option_bind]. f_equal. symmetry. apply value_cell_row.
Qed.

Lemma write_value_ok (kc vc : list S) : tensors_ok l slot_mapping key value kc vc num_blocks ->
  writes l (vc_stride0 l) (vc_stride1 l) (value_place l) (write_value l value) (fun t h i => elem value (value_ptr l t h + i)).
Proof.
  intros [[[_ _ Hhs _] _ _ _] _ _ _ _ Hv _] t h slot c Ht Hh Hs Hb. fold (value_cell l) in *. unfold write_value, memcpy_range.
  rewrite (rd_range_tab value (value_ptr l t h) (head_size l) (fun i => elem value (value_ptr l t h + i))).
  2: lia. 2: { intros i Hi. apply rd_elem. destruct (Hv t h Ht Hh). lia. }
  cbn [mbind option_bind]. pose proof (Hb 0 ltac:(lia)) as B0. pose proof (Hb (head_size l - 1) ltac:(lia)) as B1. rewrite !value_cell_row in B0, B1.
  destruct (wr_range_stores c (value_cache_ptr l slot h) (head_size l) (fun i => elem value (value_ptr l t h + i))) as (c' & -> & W); [lia|lia|lia|].
  exists c'. split; [done|]. eapply stores_reindex; [| |exact W]; intros i Hi; exists i; by rewrite value_cell_row.
Qed.

End Reshape.

(** Both writers, in any order of their iterations. *)
Lemma reshape_fp8_ok {S F K} `{FloatOps F} `{ScalarOps S F} l slot_mapping (k_quant v_quant : S -> K) (key value : list S) (kc vc : list K) num_blocks order :
  tensors_ok l slot_mapping key value kc vc num_blocks -> order ≡ₚ seqZ 0 (token_num l * head_num l) -> exists kc' vc',
  reshape_and_cache_fp8_vec_impl l slot_mapping k_quant v_quant key value order (kc, vc) = Some (kc', vc') /\
    cached l slot_mapping (fun t h i => k_quant (elem key (key_ptr l t h + i))) (key_cell l) kc kc' /\
    cached l slot_mapping (fun t h i => v_quant (elem value (value_ptr l t h + i))) (value_cell l) vc vc'.
Proof. intros TK Hord. eapply both_ok; [exact TK|done|by eapply write_key_ok|by eapply write_value_fp8_ok]. Qed.

Lemma reshape_ok {S F} `{FloatOps F} `{ScalarOps S F} l slot_mapping (key value kc vc : list S) num_blocks order : tensors_ok l slot_mapping key value kc vc num_blocks ->
  order ≡ₚ seqZ 0 (token_num l * head_num l) -> exists kc' vc', reshape_and_cache l slot_mapping key value order (kc, vc) = Some (kc', vc') /\
    cached l slot_mapping (fun t h i => elem key (key_ptr l t h + i)) (key_cell l) kc kc' /\
    cached l slot_mapping (fun t h i => elem value (value_ptr l t h + i)) (value_cell l) vc vc'.
Proof. intros TK Hord. eapply both_ok; [exact TK|done|by eapply (write_key_ok l slot_mapping key value num_blocks (fun x => x))|by eapply write_value_ok]. Qed.

(** ** What attention reads *)

(** The attention kernel is given these caches with this layout. *)
Record reads {S B F} (l : Layout) (si : ScheduleInput) (inp : Item.Input S B S F) (kc vc : list S) : Prop := {
  re_key : Item.in_key_cache inp = kc;
  re_value : Item.in_value_cache inp = vc;
  re_page : Item.in_block_size inp = page_size l;
  re_head : head_dim si = head_size l;
  re_blocks : Item.cache_num_blocks_stride inp = kc_stride0 l /\ Item.cache_num_blocks_stride inp = vc_stride0 l;
  re_heads : Item.cache_num_kv_heads_stride inp = kc_stride1 l /\ Item.cache_num_kv_heads_stride inp = vc_stride1 l
}.

(** The slot of a position of a request: its page of the block table, and the place in it. *)
Definition slot_at {S B F} (inp : Item.Input S B S F) (req pos : Z) : Z :=
  at_ (Item.block_table inp) (req * Item.blt_num_tokens_stride inp + pos / Item.in_block_size inp) * Item.in_block_size inp + pos mod Item.in_block_size inp.

(** [C6] Writing the cache and reading it fit together: whatever the order of the
    iterations, after [reshape_and_cache] the key and the value that attention finds at a
    position, through the block table, are those of the token whose slot this position
    has, for every head and element; a token whose slot is negative is skipped, and
    everything else in the cache is as before. *)
Theorem cache_roundtrip `{Exact.Erf} {S B} `{ScalarOps S Exact.xr} `{ScalarOps B Exact.xr} l slot_mapping (key value kc vc : list S) num_blocks order :
  tensors_ok l slot_mapping key value kc vc num_blocks -> order ≡ₚ seqZ 0 (token_num l * head_num l) ->
  exists kc' vc', reshape_and_cache l slot_mapping key value order (kc, vc) = Some (kc', vc') /\
    (forall p, (forall t h i, written l slot_mapping t h i -> key_cell l (at_ slot_mapping t) h i <> p) -> rd kc' p = rd kc p) /\
    (forall p, (forall t h i, written l slot_mapping t h i -> value_cell l (at_ slot_mapping t) h i <> p) -> rd vc' p = rd vc p) /\
    forall si (inp : Item.Input S B S Exact.xr) r w pos t d, reads l si inp kc' vc' -> 0 <= t < token_num l -> 0 <= at_ slot_mapping t ->
      at_ slot_mapping t = slot_at inp (wi_req_id w) pos -> 0 <= wi_kv_head_idx w < head_num l -> 0 <= d < head_size l ->
      Item.key_at si inp r w pos d = @elem S Exact.xr _ _ key (key_ptr l t (wi_kv_head_idx w) + d) /\
      Item.value_at si inp r w pos d = @elem S Exact.xr _ _ value (value_ptr l t (wi_kv_head_idx w) + d).
Proof.
  intros TK Hord. destruct (reshape_ok (F := Exact.xr) l slot_mapping key value kc vc num_blocks order TK Hord) as (kc' & vc' & E & W1 & W2).
  exists kc', vc'. split; [exact E|]. split; [intros p Hp; apply (stores_out _ _ _ _ _ W1); intros [t [h i]]; apply Hp|].
  split; [intros p Hp; apply (stores_out _ _ _ _ _ W2); intros [t [h i]]; apply Hp|].
  intros si inp r w pos t d [Ek Ev Ep Eh [Ebk Ebv] [Ehk Ehv]] Ht Hs Hslot Hw Hd. pose proof (so_page l (lo_sizes l (tk_layout _ _ _ _ _ _ _ TK))) as Hpg.
  unfold slot_at in Hslot. rewrite Ep in Hslot. set (blk := at_ (Item.block_table inp) _) in Hslot. pose proof (Z.mod_pos_bound pos (page_size l) ltac:(lia)) as Hm.
  assert (0 <= blk) as Hblk by nia.
  assert (Z.quot (at_ slot_mapping t) (page_size l) = blk /\ Z.rem (at_ slot_mapping t) (page_size l) = pos mod page_size l) as [Eq Er].
  { rewrite Hslot, quot_pos, Z.rem_mod_nonneg by nia. split; symmetry; [apply Z.div_unique with (pos mod page_size l)|apply Z.mod_unique with blk]; lia. }
  assert (written l slot_mapping t (wi_kv_head_idx w) d) as HW by done.
  pose proof (stores_in _ _ _ _ _ W1 (t, (wi_kv_head_idx w, d)) HW) as V1. pose proof (stores_in _ _ _ _ _ W2 (t, (wi_kv_head_idx w, d)) HW) as V2.
  cbn [fst snd] in V1, V2. unfold key_cell, value_cell, cell in V1, V2. cbn [key_place value_place vec_placement] in V1, V2. rewrite Eq, Er in V1, V2.
  unfold Item.key_at, Item.value_at, Item.item_cache. destruct (calcu_sliding_window_size _ _). cbn [Tile.head_ptr Tile.table Tile.table_ptr Tile.num_blocks_stride Tile.block_size].
  rewrite Ek, Ev, Ep, Eh. fold blk. split; unfold elem at 1.
  - rewrite Ebk, Ehk. by rewrite (Z.add_comm (wi_kv_head_idx w * _)), <- Z.add_assoc, (Z.add_comm (d * _)), V1.
  - rewrite Ebv, Ehv. by rewrite (Z.add_comm (wi_kv_head_idx w * _)), <- Z.add_assoc, V2.
Qed.

(** Two tokens of one head with two elements; the second token has no slot. *)
Definition sample_layout : Layout := {|
  token_num := 2; head_num := 1; head_size := 2; page_size := 2; key_token_num_stride := 2; key_head_num_stride := 2;
  value_token_num_stride := 2; value_head_num_stride := 2; kc_stride0 := 4; kc_stride1 := 4; vc_stride0 := 4; vc_stride1 := 4 |}.

#[local] Instance sample_erf : Exact.Erf := fun x => x.
#[local] Instance sample_scalars : ScalarOps Z Exact.xr := {| load z := Exact.Fin (IZR z); store _ := 0 |}.

Definition sample_reader (kc vc : list Z) : Item.Input Z Z Z Exact.xr := {|
  Item.query := []; Item.query_num_tokens_stride := 2; Item.query_num_heads_stride := 2; Item.in_key_cache := kc; Item.in_value_cache := vc;
  Item.cache_num_blocks_stride := 4; Item.cache_num_kv_heads_stride := 4; Item.in_block_size := 2; Item.block_table := [1]; Item.blt_num_tokens_stride := 1;
  Item.scale := Exact.NegInf; Item.in_softcap := Exact.NegInf; Item.alibi_slopes := None; Item.s_aux := None; Item.in_kv := Tile.Same;
  Item.k_scale_fp8 := Exact.NegInf; Item.v_scale_fp8 := Exact.NegInf |}.

Definition sample_kv_item : AttentionWorkItemGroup := {|
  wi_req_id := 0; wi_kv_head_idx := 0; wi_q_head_start := 0; wi_q_head_num := 1; wi_q_token_id_start := 0; wi_q_token_num := 1;
  wi_kv_split_pos_start := 0; wi_kv_split_pos_end := 2; wi_reduction_id := -1; wi_split_id := -1; wi_local_split_id := 0 |}.

Definition sample_kv_batch : ScheduleInput := {|
  num_reqs := 1; elem_size := 2; q_buffer_elem_size := 4; logits_buffer_elem_size := 4; output_buffer_elem_size := 4; num_heads_q := 1; num_heads_kv := 1;
  head_dim := 2; query_start_loc := [0; 1]; seq_lens := [2]; sliding_window_size := -1; causal := true; isa := VEC; max_num_q_per_iter := 8;
  kv_block_alignment := 32; enable_kv_split := false; dynamic_causal := None |}.

Definition sample_kv_request : Request := {| r_req_id := 0; r_group := 1; r_seq_len := 2; r_q_token_num := 1; r_causal := true |}.

Lemma cache_roundtrip_witness : exists kc' vc',
  reshape_and_cache sample_layout [3; -1] [10; 11; 20; 21] [30; 31; 40; 41] [1; 0] (replicate 8 0, replicate 8 0) = Some (kc', vc') /\
  Item.key_at sample_kv_batch (sample_reader kc' vc') sample_kv_request sample_kv_item 1 1 = 11 /\
  Item.value_at sample_kv_batch (sample_reader kc' vc') sample_kv_request sample_kv_item 1 1 = 31 /\ rd kc' 0 = Some 0.
Proof.
  destruct (cache_roundtrip (S := Z) (B := Z) sample_layout [3; -1] [10; 11; 20; 21] [30; 31; 40; 41] (replicate 8 0) (replicate 8 0) 2 [1; 0])
    as (kc' & vc' & E & Hk & _ & Hread).
  - constructor.
    + constructor; [constructor; cbn; lia|done|cbn; lia|cbn; lia].
    + reflexivity.
    + intros t Ht. assert (t = 0 \/ t = 1) as [->| ->] by (cbn in Ht; lia); vm_compute; reflexivity.
    + intros t t' Ht Ht' Hs Heq. assert (t = 0 \/ t = 1) as [->| ->] by (cbn in Ht; lia); assert (t' = 0 \/ t' = 1) as [->| ->] by (cbn in Ht'; lia); try done; vm_compute in Heq; lia.
    + intros t h Ht Hh. assert (t = 0 \/ t = 1) as [->| ->] by (cbn in Ht; lia); assert (h = 0) as -> by (cbn in Hh; lia); vm_compute; split; discriminate.
    + intros t h Ht Hh. assert (t = 0 \/ t = 1) as [->| ->] by (cbn in Ht; lia); assert (h = 0) as -> by (cbn in Hh; lia); vm_compute; split; discriminate.
    + split; vm_compute; discriminate.
  - apply Permutation_swap.
  - exists kc', vc'. split; [exact E|].
    destruct (Hread sample_kv_batch (sample_reader kc' vc') sample_kv_request sample_kv_item 1 0 1) as [R1 R2]; [by constructor|cbn; lia|vm_compute; discriminate|reflexivity|cbn; lia|cbn; lia|].
    split; [exact R1|]. split; [exact R2|]. rewrite Hk; [reflexivity|]. intros t h i (Ht & Hs & Hh & Hi) Heq.
    assert (t = 0 \/ t = 1) as [->| ->] by (cbn in Ht; lia); [|vm_compute in Hs; done]. cbn in Hh, Hi. assert (h = 0) as -> by lia.
    assert (i = 0 \/ i = 1) as [->| ->] by lia; vm_compute in Heq; discriminate.
Defined.

End CacheWrite.
