(* ===== verification/AttnPacked.v ===== *)
(** * The paged cache in the layouts of matrix instructions

    [reshape_and_cache] of the kernels for AMX ([csrc/cpu/cpu_attn_amx.hpp]), for AMX with
    8-bit caches ([reshape_and_cache_fp8_amx_impl] of [cpu_attn_fp8.hpp]), for the AMX
    instructions on 8-bit floats ([cpu_attn_amx_fp8.hpp]) and for BFMMLA
    ([cpu_attn_neon_bfmmla.hpp]).  They pack the elements of several tokens into the rows
    of matrix tiles.  The four layouts are instances of one placement, with a number of
    tokens per group and a number of elements per machine word. *)

From Stdlib Require Import SpecFloat.
From S2P Require Import Prelude Arrays Stores MicroGemm CacheLayout.

#[local] Open Scope Z_scope.

Module Packed.
Import MicroGemm.
Export Paged.

Definition AMX_TILE_ROW_BYTES : Z := 64.
Definition AMX_TILE_ROW_NUM : Z := 16.

Section Writers.
Context {S K : Type} (l : Layout).

Definition key_page (slot h : Z) : Z := Z.quot slot (page_size l) * kc_stride0 l + h * kc_stride1 l.
Definition value_page (slot h : Z) : Z := Z.quot slot (page_size l) * vc_stride0 l + h * vc_stride1 l.

(** Values: groups of sixteen elements, and in a group [token_num_per_sub_group] tokens
    side by side.  The three kernels for AMX differ in this number and in the conversion. *)
Definition write_value_amx (token_num_per_sub_group : Z) (cast : S -> K) (value : list S) (tok h slot : Z) (value_cache : list K) : option (list K) :=
  let block_offset := Z.rem slot (page_size l) in
  let head_elems_per_group := Z.quot AMX_TILE_ROW_BYTES 4 in
  let group_size := page_size l * head_elems_per_group in
  let group_num := Z.quot (head_size l) head_elems_per_group in
  let sub_group_idx := Z.quot block_offset token_num_per_sub_group in
  let sub_group_offset := Z.rem block_offset token_num_per_sub_group in
  let vdst := value_page slot h + sub_group_idx * token_num_per_sub_group * head_elems_per_group + sub_group_offset in
  for_range 0 group_num (fun i => for_range 0 head_elems_per_group (fun j value_cache =>
    x ← rd value (value_ptr l tok h + i * head_elems_per_group + j);
    wr value_cache (vdst + i * group_size + j * token_num_per_sub_group) (cast x))) value_cache.

(** [reshape_and_cache_fp8_amx_impl]: two 8-bit floats per halfword. *)
Definition write_key_fp8_amx (quant : S -> K) (key : list S) (tok h slot : Z) (key_cache : list K) : option (list K) :=
  let block_offset := Z.rem slot (page_size l) in
  let token_num_per_group := 16 in
  let halfword_num := Z.quot (head_size l) 2 in
  let halfword_num_per_group := token_num_per_group * halfword_num in
  let group_idx := Z.quot block_offset token_num_per_group in
  let group_offset := Z.rem block_offset token_num_per_group in
  let kdst := group_idx * halfword_num_per_group + group_offset in
  for_range 0 halfword_num (fun j key_cache =>
    x0 ← rd key (key_ptr l tok h + j * 2);
    x1 ← rd key (key_ptr l tok h + (j * 2 + 1));
    let hw := key_page slot h + (kdst + j * token_num_per_group) * 2 in
    key_cache ← wr key_cache hw (quant x0);
    wr key_cache (hw + 1) (quant x1)) key_cache.

Definition reshape_and_cache_fp8_amx_impl (slot_mapping : list Z) (k_quant v_quant : S -> K) (key value : list S) (order : list Z)
    : list K * list K -> option (list K * list K) :=
  collapsed l (entry2 slot_mapping (write_key_fp8_amx k_quant key) (write_value_amx 2 v_quant value)) order.

(** [reshape_and_cache_k_amx_fp8_impl]: slices of sixty-four elements, four per word. *)
Definition write_key_amx_fp8 (quant : S -> K) (key : list S) (tok h slot : Z) (key_cache : list K) : option (list K) :=
  let block_offset := Z.rem slot (page_size l) in
  let token_num_per_group := AMX_TILE_ROW_NUM in
  let fp8_per_row := AMX_TILE_ROW_BYTES in
  let slice_num := Z.quot (head_size l) fp8_per_row in
  let group_bytes := token_num_per_group * head_size l in
  let group_idx := Z.quot block_offset token_num_per_group in
  let group_offset := Z.rem block_offset token_num_per_group in
  let group_base := key_page slot h + group_idx * group_bytes in
  for_range 0 slice_num (fun s =>
    let tile_base := group_base + s * token_num_per_group * fp8_per_row in
    for_range 0 (Z.quot fp8_per_row 4) (fun k =>
      let packed_values := tile_base + k * fp8_per_row + group_offset * 4 in
      for_range 0 4 (fun lane key_cache =>
        x ← rd key (key_ptr l tok h + (s * fp8_per_row + k * 4 + lane));
        wr key_cache (packed_values + lane) (quant x)))) key_cache.

Definition reshape_and_cache_k_amx_fp8_impl (slot_mapping : list Z) (k_quant : S -> K) (key : list S) (order : list Z) : list K -> option (list K) :=
  collapsed l (entry1 slot_mapping (write_key_amx_fp8 k_quant key)) order.

(** The keys in one parallel loop, then the values in another. *)
Definition reshape_and_cache_amx_fp8 (slot_mapping : list Z) (k_quant v_quant : S -> K) (key value : list S) (order order' : list Z)
    (st : list K * list K) : option (list K * list K) :=
  let '(key_cache, value_cache) := st in
  key_cache ← reshape_and_cache_k_amx_fp8_impl slot_mapping k_quant key order key_cache;
  value_cache ← collapsed l (entry1 slot_mapping (write_value_amx 4 v_quant value)) order' value_cache;
  Some (key_cache, value_cache).

End Writers.

Section Elements.
Context {S : Type} (l : Layout) (sizeof : Z).

(** Assignment of an [int32_t]: the elements that share the word. *)
Definition copy_quadword (dst : list S) (doff : Z) (src : list S) (soff : Z) : option (list S) :=
  for_range 0 (Z.quot 4 sizeof) (fun e dst => x ← rd src (soff + e); wr dst (doff + e) x) dst.

Definition write_key_amx (key : list S) (token_idx head_idx pos : Z) (key_cache : list S) : option (list S) :=
  let block_offset := Z.rem pos (page_size l) in
  let token_num_per_group := Z.quot AMX_TILE_ROW_BYTES 4 in
  let quadword_num := Z.quot (head_size l) (Z.quot 4 sizeof) in
  let group_idx := Z.quot block_offset token_num_per_group in
  let group_offset := Z.rem block_offset token_num_per_group in
  let quadword_num_per_group := token_num_per_group * quadword_num in
  let key_cache_start := group_idx * quadword_num_per_group + group_offset in
  for_range 0 quadword_num (fun j key_cache =>
    copy_quadword key_cache (key_page l pos head_idx + (key_cache_start + j * token_num_per_group) * Z.quot 4 sizeof)
      key (key_ptr l token_idx head_idx + j * Z.quot 4 sizeof)) key_cache.

Definition reshape_and_cache_amx (slot_mapping : list Z) (key value : list S) (order : list Z) (st : list S * list S)
    : option (outcome (list S * list S)) :=
  let amx_b_tile_k_size := Z.quot AMX_TILE_ROW_BYTES sizeof in
  if negb (Z.rem (page_size l) amx_b_tile_k_size =? 0) then Some (Throw "block_size % amx_b_tile_k_size") else
  st ← collapsed l (entry2 slot_mapping (write_key_amx key) (write_value_amx l (Z.quot 4 sizeof) (fun x => x) value)) order st;
  Some (Ok st).

(** ** BFMMLA *)

Definition TILE_K : Z := 4.
Definition TILE_COLS : Z := 2.
Definition OUTPUT_COLS_PER_BLOCK : Z := 8.
Definition K_TOKENS_PER_GROUP : Z := 8.
Definition V_TOKENS_PER_ROW_BLOCK : Z := 4.
Definition K_CACHE_K_GROUP_STRIDE : Z := K_TOKENS_PER_GROUP * TILE_K.
Definition B_COL_PAIR_STRIDE : Z := V_TOKENS_PER_ROW_BLOCK * TILE_COLS.
Definition VCacheKGroupStride : Z := OUTPUT_COLS_PER_BLOCK * TILE_K.

(** [vst1_bf16(dst, vld1_bf16(src))]: four elements. *)
Definition copy_lanes4 (dst : list S) (doff : Z) (src : list S) (soff : Z) : option (list S) :=
  for_range 0 4 (fun e dst => x ← rd src (soff + e); wr dst (doff + e) x) dst.

Definition write_key_bfmmla (key : list S) (token_idx head_idx pos : Z) (key_cache : list S) : option (list S) :=
  let block_offset := Z.rem pos (page_size l) in
  let k_block_stride := Z.quot (head_size l) TILE_K * K_CACHE_K_GROUP_STRIDE in
  let block_in_block := Z.quot block_offset K_TOKENS_PER_GROUP in
  let pair_in_block := Z.quot (Z.rem block_offset K_TOKENS_PER_GROUP) TILE_COLS in
  let lane_base := if Z.land block_offset 1 =? 0 then 0 else TILE_K in
  let block_base := key_page l pos head_idx + block_in_block * k_block_stride in
  for_range 0 (Z.quot (head_size l) TILE_K) (fun hd4 key_cache =>
    copy_lanes4 key_cache (block_base + hd4 * K_CACHE_K_GROUP_STRIDE + pair_in_block * B_COL_PAIR_STRIDE + lane_base)
      key (key_ptr l token_idx head_idx + hd4 * TILE_K)) key_cache.

(** [vst1_lane_bf16]: lane [c] of the eight values loaded from [src]. *)
Definition store_lane (src : list S) (soff c : Z) (p : Z) (dst : list S) : option (list S) := x ← rd src (soff + c); wr dst p x.

Definition write_value_bfmmla (value : list S) (token_idx head_idx pos : Z) (value_cache : list S) : option (list S) :=
  let block_offset := Z.rem pos (page_size l) in
  let v_n_group_stride := Z.quot (page_size l) V_TOKENS_PER_ROW_BLOCK * VCacheKGroupStride in
  let token_group := Z.quot block_offset V_TOKENS_PER_ROW_BLOCK in
  let lane := Z.land block_offset (V_TOKENS_PER_ROW_BLOCK - 1) in
  for_range 0 (Z.quot (head_size l) OUTPUT_COLS_PER_BLOCK) (fun hd8 c =>
    let put := store_lane value (value_ptr l token_idx head_idx + hd8 * OUTPUT_COLS_PER_BLOCK) in
    let group := value_page l pos head_idx + hd8 * v_n_group_stride + token_group * VCacheKGroupStride in
    c ← put 0 (group + lane) c;
    c ← put 1 (group + V_TOKENS_PER_ROW_BLOCK + lane) c;
    c ← put 2 (group + B_COL_PAIR_STRIDE + lane) c;
    c ← put 3 (group + B_COL_PAIR_STRIDE + V_TOKENS_PER_ROW_BLOCK + lane) c;
    c ← put 4 (group + 2 * B_COL_PAIR_STRIDE + lane) c;
    c ← put 5 (group + 2 * B_COL_PAIR_STRIDE + V_TOKENS_PER_ROW_BLOCK + lane) c;
    c ← put 6 (group + 3 * B_COL_PAIR_STRIDE + lane) c;
    put 7 (group + 3 * B_COL_PAIR_STRIDE + V_TOKENS_PER_ROW_BLOCK + lane) c) value_cache.

Definition reshape_and_cache_bfmmla (slot_mapping : list Z) (key value : list S) (order : list Z) : list S * list S -> option (list S * list S) :=
  collapsed l (entry2 slot_mapping (write_key_bfmmla key) (write_value_bfmmla value)) order.

End Elements.

(** ** The placement *)

(** Keys: [group] tokens, and for each of them [w] elements in a word.  Values: [group]
    elements, and for each of them [w] tokens in a word. *)
Definition packed (group w : Z) : Placement := {|
  key_place l o i := (o / group * (group * (head_size l / w)) + i / w * group + o mod group) * w + i mod w;
  value_place l o i := i / group * (page_size l * group) + (o / w * group + i mod group) * w + o mod w;
  suits l := (group | page_size l) /\ (w | page_size l) /\ (group | head_size l) /\ (w | head_size l)
|}.

(** Quotient and remainder, with their bounds. *)
Lemma parts x d n : 1 <= d -> 0 <= x < n * d -> 0 <= x / d < n /\ 0 <= x mod d < d /\ x = x / d * d + x mod d.
Proof.
  intros Hd Hx. pose proof (Z.div_mod x d ltac:(lia)). pose proof (Z.mod_pos_bound x d ltac:(lia)).
  split_and!; [apply Z.div_pos; lia|apply Z.div_lt_upper_bound; lia|lia|lia|lia].
Qed.

Lemma packed_ok group w : 1 <= group -> 1 <= w -> @PlacementOk (packed group w).
Proof.
  intros Hg Hw. split; intros l [_ _ Hhs Hps] ([gp Egp] & [wp Ewp] & [gh Egh] & [wh Ewh]); cbn [key_place value_place packed].
  - assert (head_size l / w = wh) as Eh by (rewrite Ewh; apply Z.div_mul; lia). split; rewrite Eh.
    + intros o i Ho Hi. rewrite Egp in Ho. rewrite Ewh in Hi. destruct (parts o group gp Hg Ho) as (? & ? & _). destruct (parts i w wh Hw Hi) as (? & ? & _).
      pose proof (row_bounds group (i / w) (o mod group) wh ltac:(lia) ltac:(lia)). pose proof (row_bounds (wh * group) (o / group) (i / w * group + o mod group) gp ltac:(lia) ltac:(lia)).
      pose proof (row_bounds w (o / group * (group * wh) + i / w * group + o mod group) (i mod w) (gp * (wh * group)) ltac:(lia) ltac:(lia)). rewrite Egp, Ewh. lia.
    + intros o o' i i' Ho Ho' Hi Hi' E. rewrite Egp in Ho, Ho'. rewrite Ewh in Hi, Hi'. destruct (parts o group gp Hg Ho) as (? & ? & Eo). destruct (parts o' group gp Hg Ho') as (? & ? & Eo').
      destruct (parts i w wh Hw Hi) as (? & ? & Ei). destruct (parts i' w wh Hw Hi') as (? & ? & Ei').
      pose proof (row_bounds group (i / w) (o mod group) wh ltac:(lia) ltac:(lia)). pose proof (row_bounds group (i' / w) (o' mod group) wh ltac:(lia) ltac:(lia)).
      pose proof E as E1. apply row_inj in E1; [|lia|lia].
      assert (o / group = o' / group) as E2 by (apply (row_inj (wh * group) _ _ (i / w * group + o mod group) (i' / w * group + o' mod group)); lia).
      assert (i / w = i' / w) as E3 by (apply (row_inj group _ _ (o mod group) (o' mod group)); rewrite ?E2 in E1; lia). rewrite E2, E3 in E, E1. split; [rewrite Eo, Eo'|rewrite Ei, Ei']; lia.
  - split.
    + intros o i Ho Hi. rewrite Ewp in Ho. rewrite Egh in Hi. destruct (parts o w wp Hw Ho) as (? & ? & _). destruct (parts i group gh Hg Hi) as (? & ? & _).
      pose proof (row_bounds group (o / w) (i mod group) wp ltac:(lia) ltac:(lia)). pose proof (row_bounds w (o / w * group + i mod group) (o mod w) (wp * group) ltac:(lia) ltac:(lia)).
      pose proof (row_bounds (wp * group * w) (i / group) ((o / w * group + i mod group) * w + o mod w) gh ltac:(lia) ltac:(lia)). rewrite Ewp, Egh. lia.
    + intros o o' i i' Ho Ho' Hi Hi' E. rewrite Ewp in Ho, Ho'. rewrite Egh in Hi, Hi'. destruct (parts o w wp Hw Ho) as (? & ? & Eo). destruct (parts o' w wp Hw Ho') as (? & ? & Eo').
      destruct (parts i group gh Hg Hi) as (? & ? & Ei). destruct (parts i' group gh Hg Hi') as (? & ? & Ei').
      pose proof (row_bounds group (o / w) (i mod group) wp ltac:(lia) ltac:(lia)). pose proof (row_bounds group (o' / w) (i' mod group) wp ltac:(lia) ltac:(lia)).
      pose proof (row_bounds w (o / w * group + i mod group) (o mod w) (wp * group) ltac:(lia) ltac:(lia)). pose proof (row_bounds w (o' / w * group + i' mod group) (o' mod w) (wp * group) ltac:(lia) ltac:(lia)).
      rewrite Ewp in E.
      assert (i / group = i' / group) as E1 by (apply (row_inj (wp * group * w) _ _ ((o / w * group + i mod group) * w + o mod w) ((o' / w * group + i' mod group) * w + o' mod w)); lia).
      rewrite E1 in E. assert (o / w * group + i mod group = o' / w * group + i' mod group) as E2 by (apply (row_inj w _ _ (o mod w) (o' mod w)); lia).
      assert (o / w = o' / w) as E3 by (apply (row_inj group _ _ (i mod group) (i' mod group)); lia). rewrite E2 in E. rewrite E3 in E2. split; [rewrite Eo, Eo', E3|rewrite Ei, Ei', E1]; lia.
Qed.

(** ** The kernels *)

Section Kernels.
Context {S F : Type} `{FloatOps F} `{ScalarOps S F} {K : Type} (l : Layout) (slot_mapping : list Z) (key value : list S) (num_blocks : Z) (kc vc : list K).

(** A place in the page, from the offset of the slot. *)
Lemma offset_parts group w slot : @layout_ok (packed group w) l -> 0 <= slot -> let o := Z.rem slot (page_size l) in
  0 <= o < page_size l.
Proof. intros LO Hs. apply (slot_parts l (lo_sizes l LO) slot Hs). Qed.

Lemma key_elem group w t h i : @tensors_ok (packed group w) S K l slot_mapping key value kc vc num_blocks ->
  0 <= t < token_num l -> 0 <= h < head_num l -> 0 <= i < head_size l -> rd key (key_ptr l t h + i) = Some (elem key (key_ptr l t h + i)).
Proof. intros TK Ht Hh Hi. apply rd_elem. destruct (tk_key _ _ _ _ _ _ _ TK t h Ht Hh). lia. Qed.

Lemma value_elem group w t h i : @tensors_ok (packed group w) S K l slot_mapping key value kc vc num_blocks ->
  0 <= t < token_num l -> 0 <= h < head_num l -> 0 <= i < head_size l -> rd value (value_ptr l t h + i) = Some (elem value (value_ptr l t h + i)).
Proof. intros TK Ht Hh Hi. apply rd_elem. destruct (tk_value _ _ _ _ _ _ _ TK t h Ht Hh). lia. Qed.

(** The cell of element [e] of word [j]. *)
Lemma key_word group w slot h j e : 1 <= w -> 0 <= e < w -> @key_cell (packed group w) l slot h (j * w + e) =
  let o := Z.rem slot (page_size l) in key_page l slot h + (o / group * (group * (head_size l / w)) + o mod group + j * group) * w + e.
Proof.
  intros Hw He. unfold key_cell, cell, key_page. cbn [key_place packed].
  assert ((j * w + e) / w = j) as -> by (symmetry; apply Z.div_unique with e; lia).
  assert ((j * w + e) mod w = e) as -> by (symmetry; apply Z.mod_unique with j; lia). cbv zeta. lia.
Qed.

Lemma value_word group w slot h j e : 1 <= group -> 0 <= e < group -> @value_cell (packed group w) l slot h (j * group + e) =
  let o := Z.rem slot (page_size l) in value_page l slot h + j * (page_size l * group) + (o / w * group + e) * w + o mod w.
Proof.
  intros Hw He. unfold value_cell, cell, value_page. cbn [value_place packed].
  assert ((j * group + e) / group = j) as -> by (symmetry; apply Z.div_unique with e; lia).
  assert ((j * group + e) mod group = e) as -> by (symmetry; apply Z.mod_unique with j; lia). cbv zeta. lia.
Qed.

(** What a kernel with this placement leaves to show of its loops. *)
Lemma key_writes group w (writer : Z -> Z -> Z -> list K -> option (list K)) (cast : S -> K) : 1 <= group -> 1 <= w ->
  @tensors_ok (packed group w) S K l slot_mapping key value kc vc num_blocks ->
  (forall t h slot c, 0 <= t < token_num l -> 0 <= h < head_num l -> 0 <= slot -> writer t h slot c =
    for_range 0 (head_size l / w) (fun j => for_range 0 w (fun e c =>
      y ← rd key (key_ptr l t h + (j * w + e)); wr c (@key_cell (packed group w) l slot h (j * w + e)) (cast y))) c) ->
  writes l (kc_stride0 l) (kc_stride1 l) (@key_place (packed group w) l) writer (fun t h i => cast (elem key (key_ptr l t h + i))).
Proof.
  intros Hg Hw TK E. pose proof (tk_layout _ _ _ _ _ _ _ TK) as [SZ SU [Hk1 _] [Hk0 _]]. pose proof (packed_ok group w Hg Hw).
  pose proof SU as (_ & _ & _ & [wh Ewh]). assert (head_size l / w = wh) as Eh by (rewrite Ewh; apply Z.div_mul; lia). pose proof (so_head l SZ).
  apply (writes_words l SZ _ _ _ (key_place_ok l SZ SU) Hk1 Hk0 writer key (key_ptr l) (fun t h i => elem key (key_ptr l t h + i)) cast (head_size l / w) w);
    [lia|nia|lia| |exact E]. intros t h i Ht Hh Hi. by eapply key_elem.
Qed.

Lemma value_writes group w (writer : Z -> Z -> Z -> list K -> option (list K)) (cast : S -> K) : 1 <= group -> 1 <= w ->
  @tensors_ok (packed group w) S K l slot_mapping key value kc vc num_blocks ->
  (forall t h slot c, 0 <= t < token_num l -> 0 <= h < head_num l -> 0 <= slot -> writer t h slot c =
    for_range 0 (head_size l / group) (fun j => for_range 0 group (fun e c =>
      y ← rd value (value_ptr l t h + (j * group + e)); wr c (@value_cell (packed group w) l slot h (j * group + e)) (cast y))) c) ->
  writes l (vc_stride0 l) (vc_stride1 l) (@value_place (packed group w) l) writer (fun t h i => cast (elem value (value_ptr l t h + i))).
Proof.
  intros Hg Hw TK E. pose proof (tk_layout _ _ _ _ _ _ _ TK) as [SZ SU [_ Hv1] [_ Hv0]]. pose proof (packed_ok group w Hg Hw).
  pose proof SU as (_ & _ & [gh Egh] & _). assert (head_size l / group = gh) as Eh by (rewrite Egh; apply Z.div_mul; lia). pose proof (so_head l SZ).
  apply (writes_words l SZ _ _ _ (value_place_ok l SZ SU) Hv1 Hv0 writer value (value_ptr l) (fun t h i => elem value (value_ptr l t h + i)) cast (head_size l / group) group);
    [lia|nia|lia| |exact E]. intros t h i Ht Hh Hi. by eapply value_elem.
Qed.

End Kernels.

(** The address of a store. *)
Lemma wr_at {A} (c : list A) p q x : p = q -> wr c p x = wr c q x.
Proof. by intros ->. Qed.

(** A store of a loaded element and what follows. *)
Lemma lane_step {A} (src c : list A) s s' p p' (f g : list A -> option (list A)) : s = s' -> p = p' -> (forall c, f c = g c) ->
  ((x ← rd src s; wr c p x) ≫= f) = ((x ← rd src s'; wr c p' x) ≫= g).
Proof. intros -> -> E. by destruct (x ← rd src s'; wr c p' x); simpl. Qed.

Lemma lane_last {A} (m : option A) : m = m ≫= Some.
Proof. by destruct m. Qed.

(** A word of [w] elements is loaded and stored element by element. *)
Lemma word_ext {A B} w (src : list A) soff soff' (addr addr' : Z -> Z) (cast : A -> B) c :
  (forall e, 0 <= e < w -> soff + e = soff' e) -> (forall e, 0 <= e < w -> addr e = addr' e) ->
  for_range 0 w (fun e c => y ← rd src (soff + e); wr c (addr e) (cast y)) c = for_range 0 w (fun e c => y ← rd src (soff' e); wr c (addr' e) (cast y)) c.
Proof. intros E1 E2. apply for_range_ext. intros e c' He. by rewrite E1, E2. Qed.

Section Writes.
Context {S F : Type} `{FloatOps F} `{ScalarOps S F} {K : Type} (l : Layout) (slot_mapping : list Z) (key value : list S) (num_blocks : Z) (kc vc : list K).
Abbreviation tensors group w := (@tensors_ok (packed group w) S K l slot_mapping key value kc vc num_blocks).
Abbreviation writes_keys group w writer cast :=
  (writes l (kc_stride0 l) (kc_stride1 l) (@key_place (packed group w) l) writer (fun t h i => cast (elem key (key_ptr l t h + i)))).
Abbreviation writes_values group w writer cast :=
  (writes l (vc_stride0 l) (vc_stride1 l) (@value_place (packed group w) l) writer (fun t h i => cast (elem value (value_ptr l t h + i)))).

Lemma write_value_amx_ok w (cast : S -> K) : 1 <= w -> tensors 16 w -> writes_values 16 w (write_value_amx l w cast value) cast.
Proof.
  intros Hw TK. eapply value_writes; [lia|done|done|]. intros t h slot c Ht Hh Hs.
  pose proof (offset_parts l 16 w slot (tk_layout _ _ _ _ _ _ _ TK) Hs) as Ho. pose proof (so_head l (lo_sizes l (tk_layout _ _ _ _ _ _ _ TK))).
  unfold write_value_amx, AMX_TILE_ROW_BYTES. change (Z.quot 64 4) with 16. rewrite (Z.quot_div_nonneg (head_size l)) by lia.
  apply for_range_ext. intros j c1 Hj. apply word_ext; intros e He; [lia|]. rewrite value_word by lia. cbv zeta in *. set (o := Z.rem slot _) in *.
  rewrite (Z.quot_div_nonneg o), (Z.rem_mod_nonneg o) by lia. lia.
Qed.

Lemma write_key_fp8_amx_ok (quant : S -> K) : tensors 16 2 -> writes_keys 16 2 (write_key_fp8_amx l quant key) quant.
Proof.
  intros TK. eapply key_writes; [lia|lia|done|]. intros t h slot c Ht Hh Hs.
  pose proof (offset_parts l 16 2 slot (tk_layout _ _ _ _ _ _ _ TK) Hs) as Ho. pose proof (so_head l (lo_sizes l (tk_layout _ _ _ _ _ _ _ TK))) as Hhs.
  destruct (lo_suits l (tk_layout _ _ _ _ _ _ _ TK)) as (_ & _ & _ & [n En]).
  unfold write_key_fp8_amx. rewrite (Z.quot_div_nonneg (head_size l)) by lia. apply for_range_ext. intros j c1 Hj.
  assert (head_size l / 2 = n) as Eh by (rewrite En; apply Z.div_mul; lia).
  unfold for_range. change (seqZ 0 (2 - 0)) with [0; 1]. cbn [for_each]. rewrite !key_word by lia. cbv zeta in *. set (o := Z.rem slot _) in *.
  rewrite (Z.quot_div_nonneg o), (Z.rem_mod_nonneg o) by lia. rewrite !Z.add_0_r, !(key_elem l slot_mapping key value num_blocks kc vc 16 2 t h) by (done || lia). cbn [mbind option_bind].
  destruct (wr c1 _ _) as [c2|]; [|done]. cbn [mbind option_bind]. by destruct (wr c2 _ _).
Qed.

Lemma write_key_amx_fp8_ok (quant : S -> K) : (64 | head_size l) -> tensors 16 4 -> writes_keys 16 4 (write_key_amx_fp8 l quant key) quant.
Proof.
  intros [n En] TK. eapply key_writes; [lia|lia|done|]. intros t h slot c Ht Hh Hs.
  pose proof (offset_parts l 16 4 slot (tk_layout _ _ _ _ _ _ _ TK) Hs) as Ho. pose proof (so_head l (lo_sizes l (tk_layout _ _ _ _ _ _ _ TK))) as Hhs.
  assert (head_size l / 4 = n * 16) as Eh by (rewrite En; replace (n * 64) with (n * 16 * 4) by lia; apply Z.div_mul; lia). rewrite Eh.
  rewrite (for_range_nest n 16) by lia. unfold write_key_amx_fp8, AMX_TILE_ROW_BYTES, AMX_TILE_ROW_NUM. change (Z.quot 64 4) with 16.
  rewrite (Z.quot_div_nonneg (head_size l)), En, Z.div_mul, <- En by lia. apply for_range_ext. intros s c1 Hs1. apply for_range_ext. intros k c2 Hk.
  apply for_range_ext. intros e c3 He. rewrite key_word, Eh by lia. cbv zeta in *. set (o := Z.rem slot _) in *.
  rewrite (Z.quot_div_nonneg o), (Z.rem_mod_nonneg o) by lia. replace (s * 64 + k * 4 + e) with ((s * 16 + k) * 4 + e) by lia.
  destruct (rd key _) as [x|]; [|done]. cbn [mbind option_bind]. apply wr_at. lia.
Qed.

End Writes.

Section CopyWrites.
Context {S F : Type} `{FloatOps F} `{ScalarOps S F} (l : Layout) (slot_mapping : list Z) (key value : list S) (num_blocks : Z) (kc vc : list S).
Abbreviation tensors group w := (@tensors_ok (packed group w) S S l slot_mapping key value kc vc num_blocks).

Lemma write_key_amx_ok sizeof w : Z.quot 4 sizeof = w -> 1 <= w -> tensors 16 w ->
  writes l (kc_stride0 l) (kc_stride1 l) (@key_place (packed 16 w) l) (write_key_amx l sizeof key) (fun t h i => elem key (key_ptr l t h + i)).
Proof.
  intros Ew Hw TK. eapply (key_writes _ _ _ _ _ _ _ _ _ _ (fun x => x)); [lia|lia|done|]. intros t h slot c Ht Hh Hs.
  pose proof (offset_parts l 16 w slot (tk_layout _ _ _ _ _ _ _ TK) Hs) as Ho. pose proof (so_head l (lo_sizes l (tk_layout _ _ _ _ _ _ _ TK))) as Hhs.
  unfold write_key_amx, copy_quadword, AMX_TILE_ROW_BYTES. change (Z.quot 64 4) with 16. rewrite Ew, (Z.quot_div_nonneg (head_size l)) by lia.
  apply for_range_ext. intros j c1 Hj. apply (word_ext w key _ _ _ _ (fun x => x)); intros e He; [lia|]. rewrite key_word by lia. cbv zeta in *. set (o := Z.rem slot _) in *.
  rewrite (Z.quot_div_nonneg o), (Z.rem_mod_nonneg o) by lia. lia.
Qed.

Lemma write_key_bfmmla_ok : tensors 8 4 ->
  writes l (kc_stride0 l) (kc_stride1 l) (@key_place (packed 8 4) l) (write_key_bfmmla l key) (fun t h i => elem key (key_ptr l t h + i)).
Proof.
  intros TK. eapply (key_writes _ _ _ _ _ _ _ _ _ _ (fun x => x)); [lia|lia|done|]. intros t h slot c Ht Hh Hs.
  pose proof (offset_parts l 8 4 slot (tk_layout _ _ _ _ _ _ _ TK) Hs) as Ho. pose proof (so_head l (lo_sizes l (tk_layout _ _ _ _ _ _ _ TK))) as Hhs.
  unfold write_key_bfmmla, copy_lanes4, K_CACHE_K_GROUP_STRIDE, B_COL_PAIR_STRIDE, V_TOKENS_PER_ROW_BLOCK, K_TOKENS_PER_GROUP, TILE_K, TILE_COLS.
  rewrite (Z.quot_div_nonneg (head_size l)) by lia. apply for_range_ext. intros j c1 Hj.
  apply (word_ext 4 key _ _ _ _ (fun x => x)); intros e He; [lia|]. rewrite key_word by lia. cbv zeta in *. set (o := Z.rem slot _) in *.
  rewrite !(Z.quot_div_nonneg o), (Z.rem_mod_nonneg o) by lia. pose proof (Z.mod_pos_bound o 8 ltac:(lia)). rewrite (Z.quot_div_nonneg (o mod 8)) by lia.
  assert (Z.land o 1 = o mod 2) as -> by exact (Z.land_ones o 1 ltac:(lia)).
  assert (o mod 8 mod 2 = o mod 2) as Em by (apply Z.mod_mod_divide; by exists 4). pose proof (Z.div_mod (o mod 8) 2 ltac:(lia)) as Ed. rewrite Em in Ed.
  pose proof (Z.mod_pos_bound o 2 ltac:(lia)). destruct (Z.eqb_spec (o mod 2) 0); lia.
Qed.

Lemma write_value_bfmmla_ok : tensors 8 4 ->
  writes l (vc_stride0 l) (vc_stride1 l) (@value_place (packed 8 4) l) (write_value_bfmmla l value) (fun t h i => elem value (value_ptr l t h + i)).
Proof.
  intros TK. eapply (value_writes _ _ _ _ _ _ _ _ _ _ (fun x => x)); [lia|lia|done|]. intros t h slot c Ht Hh Hs.
  pose proof (offset_parts l 8 4 slot (tk_layout _ _ _ _ _ _ _ TK) Hs) as Ho. pose proof (lo_sizes l (tk_layout _ _ _ _ _ _ _ TK)) as [_ _ Hhs Hps].
  destruct (lo_suits l (tk_layout _ _ _ _ _ _ _ TK)) as (_ & [n En] & _).
  assert (Z.quot (page_size l) 4 = n) as Ep by (rewrite Z.quot_div_nonneg, En by lia; apply Z.div_mul; lia).
  unfold write_value_bfmmla, VCacheKGroupStride, B_COL_PAIR_STRIDE, V_TOKENS_PER_ROW_BLOCK, OUTPUT_COLS_PER_BLOCK, TILE_K, TILE_COLS, store_lane.
  rewrite (Z.quot_div_nonneg (head_size l)), Ep by lia. apply for_range_ext. intros j c1 Hj.
  unfold for_range. change (seqZ 0 (8 - 0)) with [0; 1; 2; 3; 4; 5; 6; 7]. cbn [for_each]. rewrite !value_word by lia. cbv zeta in *. set (o := Z.rem slot _) in *.
  rewrite (Z.quot_div_nonneg o) by lia. assert (Z.land o (4 - 1) = o mod 4) as -> by exact (Z.land_ones o 2 ltac:(lia)). rewrite En.
  repeat (apply lane_step; [lia|lia|intros ?]). etransitivity; [apply lane_last|]. apply lane_step; (done || lia).
Qed.

End CopyWrites.

(** ** The four kernels *)

(** Both caches hold exactly the elements of the tokens with a slot, each in its cell. *)
Definition exactly {K} (P : Placement) (l : Layout) (slot_mapping : list Z) (fk fv : Z -> Z -> Z -> K) (kc vc : list K) (r : option (list K * list K)) : Prop :=
  exists kc' vc', r = Some (kc', vc') /\ cached l slot_mapping fk (@key_cell P l) kc kc' /\ cached l slot_mapping fv (@value_cell P l) vc vc'.

(** [C33] The packed layouts lose nothing: for AMX, for AMX with an 8-bit cache, for AMX
    on 8-bit floats and for BFMMLA, whatever the order of the iterations, every element of
    every key and value with a slot is stored, converted once, in a cell of its own inside
    the page of its head (different slots, heads and elements never share one), tokens
    without a slot are skipped and the rest of the cache keeps its contents.  The kernel
    for AMX refuses pages that are no multiple of a tile. *)
Theorem packed_caches_exact {S F K} `{FloatOps F} `{ScalarOps S F} l slot_mapping (key value : list S) (k_quant v_quant : S -> K) num_blocks order order' :
  order ≡ₚ seqZ 0 (token_num l * head_num l) -> order' ≡ₚ seqZ 0 (token_num l * head_num l) ->
  let ks t h i := elem key (key_ptr l t h + i) in let vs t h i := elem value (value_ptr l t h + i) in
  let qks t h i := k_quant (ks t h i) in let qvs t h i := v_quant (vs t h i) in
  (forall sizeof kc vc, sizeof = 2 \/ sizeof = 4 -> let P := packed 16 (Z.quot 4 sizeof) in
    if Z.rem (page_size l) (Z.quot AMX_TILE_ROW_BYTES sizeof) =? 0
    then tensors_ok l slot_mapping key value kc vc num_blocks -> exists st,
      reshape_and_cache_amx l sizeof slot_mapping key value order (kc, vc) = Some (Ok st) /\ exactly P l slot_mapping ks vs kc vc (Some st)
    else exists msg, reshape_and_cache_amx l sizeof slot_mapping key value order (kc, vc) = Some (Throw msg)) /\
  (forall kc vc, let P := packed 16 2 in tensors_ok l slot_mapping key value kc vc num_blocks ->
    exactly P l slot_mapping qks qvs kc vc (reshape_and_cache_fp8_amx_impl l slot_mapping k_quant v_quant key value order (kc, vc))) /\
  (forall kc vc, let P := packed 16 4 in tensors_ok l slot_mapping key value kc vc num_blocks -> (AMX_TILE_ROW_BYTES | head_size l) ->
    exactly P l slot_mapping qks qvs kc vc (reshape_and_cache_amx_fp8 l slot_mapping k_quant v_quant key value order order' (kc, vc))) /\
  (forall kc vc, let P := packed 8 4 in tensors_ok l slot_mapping key value kc vc num_blocks ->
    exactly P l slot_mapping ks vs kc vc (reshape_and_cache_bfmmla l slot_mapping key value order (kc, vc))) /\
  (forall group w slot slot' h h' i i', let P := packed group w in layout_ok l -> 1 <= group -> 1 <= w -> 0 <= slot -> 0 <= slot' ->
    0 <= h < head_num l -> 0 <= h' < head_num l -> 0 <= i < head_size l -> 0 <= i' < head_size l ->
    key_cell l slot h i = key_cell l slot' h' i' \/ value_cell l slot h i = value_cell l slot' h' i' -> slot = slot' /\ h = h' /\ i = i').
Proof.
  intros Hord Hord' ks vs qks qvs. split; [|split; [|split; [|split]]].
  - intros sizeof kc vc Hsz P. unfold reshape_and_cache_amx. destruct (Z.eqb_spec (Z.rem (page_size l) (Z.quot AMX_TILE_ROW_BYTES sizeof)) 0); cbn [negb]; [|by eexists].
    intros TK. assert (1 <= Z.quot 4 sizeof) by (destruct Hsz as [->| ->]; done). pose proof (packed_ok 16 (Z.quot 4 sizeof) ltac:(lia) ltac:(done)).
    destruct (both_ok l slot_mapping key value kc vc num_blocks (write_key_amx l sizeof key) (write_value_amx l (Z.quot 4 sizeof) (fun x => x) value) ks vs order)
      as (kc' & vc' & E & W1 & W2); [done|done|by eapply write_key_amx_ok|by apply (write_value_amx_ok l slot_mapping key value num_blocks kc vc _ (fun x => x))|].
    rewrite E. eexists. split; [done|]. by exists kc', vc'.
  - intros kc vc P TK. pose proof (packed_ok 16 2 ltac:(lia) ltac:(lia)). eapply both_ok; [done|done|by eapply write_key_fp8_amx_ok|by eapply write_value_amx_ok].
  - intros kc vc P TK Hd. pose proof (packed_ok 16 4 ltac:(lia) ltac:(lia)).
    destruct (caches_ok l slot_mapping key value kc vc num_blocks (write_key_amx_fp8 l k_quant key) (write_value_amx l 4 v_quant value) qks qvs order) as (kc' & _ & E1 & _ & W1 & _);
      [done|done|by eapply write_key_amx_fp8_ok|by eapply write_value_amx_ok|].
    destruct (caches_ok l slot_mapping key value kc vc num_blocks (write_key_amx_fp8 l k_quant key) (write_value_amx l 4 v_quant value) qks qvs order') as (_ & vc' & _ & E2 & _ & W2);
      [done|done|by eapply write_key_amx_fp8_ok|by eapply write_value_amx_ok|].
    exists kc', vc'. unfold reshape_and_cache_amx_fp8, reshape_and_cache_k_amx_fp8_impl. rewrite E1. cbn [mbind option_bind]. by rewrite E2.
  - intros kc vc P TK. pose proof (packed_ok 8 4 ltac:(lia) ltac:(lia)). eapply both_ok; [done|done|by eapply write_key_bfmmla_ok|by eapply write_value_bfmmla_ok].
  - intros group w slot slot' h h' i i' P [SZ SU [? ?] [? ?]] Hg Hw Hs Hs' Hh Hh' Hi Hi'. pose proof (packed_ok group w Hg Hw).
    pose proof (key_place_ok l SZ SU). pose proof (value_place_ok l SZ SU). intros [E|E]; (eapply slot_cell_inj in E; [exact E|done..]).
Qed.

(** One token in slot 3 of a page of eight, with eight elements. *)
Definition sample_packed : Layout := {|
  token_num := 1; head_num := 1; head_size := 8; page_size := 8; key_token_num_stride := 8; key_head_num_stride := 8;
  value_token_num_stride := 8; value_head_num_stride := 8; kc_stride0 := 64; kc_stride1 := 64; vc_stride0 := 64; vc_stride1 := 64 |}.

#[local] Instance sample_floats : FloatOps spec_float := sample_ops.
#[local] Instance sample_elements : ScalarOps Z spec_float := {| load z := binary_normalize 24 128 z 0 false; store _ := 0 |}.

Lemma packed_caches_exact_witness :
  exactly (packed 8 4) sample_packed [3] (fun t h i => elem (seqZ 0 8) (t * 8 + h * 8 + i)) (fun t h i => elem (seqZ 100 8) (t * 8 + h * 8 + i))
    (replicate 64 (-1)) (replicate 64 (-1))
    (reshape_and_cache_bfmmla sample_packed [3] (seqZ 0 8) (seqZ 100 8) [0] (replicate 64 (-1), replicate 64 (-1))) /\
  exists msg, reshape_and_cache_amx sample_packed 2 [3] (seqZ 0 8) (seqZ 100 8) [0] (replicate 64 (-1), replicate 64 (-1)) = Some (Throw msg).
Proof.
  destruct (packed_caches_exact (K := Z) sample_packed [3] (seqZ 0 8) (seqZ 100 8) (fun x => x) (fun x => x) 1 [0] [0]) as (H1 & _ & _ & H4 & _); [reflexivity|reflexivity|].
  split; [apply H4|exact (H1 2 (replicate 64 (-1)) (replicate 64 (-1)) (or_introl eq_refl))].
  constructor.
  - constructor; [constructor; cbn; lia| |cbn; lia|cbn; lia]. split_and!; [by exists 1|by exists 2|by exists 1|by exists 2].
  - reflexivity.
  - intros t Ht. assert (t = 0) as -> by (cbn in Ht; lia). vm_compute. reflexivity.
  - intros t t' Ht Ht' _ _. cbn in Ht, Ht'. lia.
  - intros t h Ht Hh. assert (t = 0) as -> by (cbn in Ht; lia). assert (h = 0) as -> by (cbn in Hh; lia). vm_compute. split; discriminate.
  - intros t h Ht Hh. assert (t = 0) as -> by (cbn in Ht; lia). assert (h = 0) as -> by (cbn in Hh; lia). vm_compute. split; discriminate.
  - split; vm_compute; discriminate.
Defined.

End Packed.
